(* ===== verification/_CoqProject ===== *)
-Q . S2P
Prelude.v
MarkSet.v
KvUnits.v
AffinityTree.v
TreeWf.v
TreeStep.v
TreeShard.v
TreeCommit.v
TreeWalk.v
TreeEvict.v
TreeDrop.v
TreeSpec.v
Circuit.v
WaitQ.v
Backend.v
Lease.v
Registry.v
Policy.v
AffinityPolicy.v
PolicySpec.v
JsonScan.v
EndpointRouter.v
CapacityRetry.v
KvTrie.v
KvLru.v
KvTrieWf.v
KvCache.v
PrefillManager.v
Proxy.v
ProxySpec.v
StreamScan.v
OpenAIDialect.v
GoText.v
Routing.v
Health.v
Surface.v
SurfaceSpec.v
Gateway.v
GatewaySpec.v
Retention.v
ReplayStore.v
Discovery.v
BackendSeries.v
Pool.v
Url.v
Serve.v
Capture.v
Floats.v
VllmMetrics.v
Exposition.v
Bodies.v
Admin.v
MockEngine.v
PrefillShare.v
PrefillEstimate.v
ModelSpec.v
AdmissionSim.v
TreeView.v
