(* ===== verification/Prelude.v ===== *)
(** * wekai: the LLM router's core, its replay tools' caches, and their contracts

    wekai routes inference requests to a fleet of LLM servers so that a request goes where
    the KV cache of its prompt is already resident.  This development models the router
    ([src/router]), the prefix-cache model it shares with the offline tools
    ([src/kvcache]), and those of the tools whose answers rest on it ([src/benchmark]).

    ** The program, and which file models what

    A request enters by the HTTP surface, is given a pool by its model's name, is tried on
    backends of the pool that a policy chooses, and its answer is streamed back:

    - the surface ([internal/gateway/middleware.go], [build], the defaults of [New]): Surface
      and SurfaceSpec; text functions of Go's [strings] and [path] it needs: GoText;
    - reading a body without parsing it ([internal/jsonscan]): JsonScan; what the OpenAI
      dialect reads of it and how a prompt becomes hashed blocks ([internal/dialect]):
      OpenAIDialect over KvUnits (the pure half of [kvcache/kvcache.go]);
    - models to pools ([internal/routing]): Routing;
    - the handler of one request, with the prefill split and disaggregated serving
      ([internal/gateway/gateway.go], [prefill_split.go], [pd_serve.go], [internal/pd]):
      Gateway and GatewaySpec; the bodies it rewrites ([internal/prefill/body.go],
      [internal/pd]): Bodies; the handlers that answer without proxying: Admin;
    - waiting out a refusal ([capacity_retry.go]): CapacityRetry, on a backend's line of
      waiters ([internal/waitq]): WaitQ;
    - one request against a set of candidates ([internal/proxy]): Proxy and ProxySpec, with
      the breaker ([internal/circuit]): Circuit, the load accounting ([internal/lease]):
      Lease, and the watch over a streamed answer: StreamScan;
    - choosing a backend ([internal/policy]): Policy, and the affinity flow
      ([internal/policy/affinity]): AffinityPolicy and PolicySpec, over the forest of
      prefixes that records who holds what: MarkSet, AffinityTree, and in order TreeWf,
      TreeStep, TreeShard, TreeCommit, TreeWalk, TreeEvict, TreeDrop, TreeSpec; TreeView is
      what is shown of it ([snapshot.go], [internal/viz]);
    - nodes taken out of decode for large prefills ([internal/prefill/manager.go]):
      PrefillManager.

    Around the requests, the fleet is kept:

    - a backend's own state ([internal/registry/backend.go]): Backend, the identity of its
      URL: Url, the published set ([registry.go]): Registry;
    - who is in the set: Discovery ([internal/discovery/k8s]), and who is well: Health
      ([internal/health]);
    - a pool ties a registry to its flows, its checker and its manager ([internal/pool]):
      Pool; the process builds pools and rules from its options ([serve/serve.go],
      [automodel.go]): Serve; recording exchanges ([serve/capture.go]): Capture;
    - what is reported: BackendSeries ([internal/metrics/backend_series.go]), VllmMetrics
      ([internal/vllmmetrics], with the float64 facts it needs in Floats), Exposition (the
      last part of [serve/serve.go]).

    The cache model and its users: KvTrie ([kvcache/kvcache.go]), KvLru and KvTrieWf (its
    invariant), KvCache (its promises); MockEngine ([internal/mockvllm]: a stand-in for one
    inference server, with the tier a fleet shares) and PrefillShare (its [prefill.go]:
    bandwidth split between requests); Retention and ReplayStore
    ([benchmark/retention_sim.go], [cache_sim.go], [replay_prefix_store.go]), PrefillEstimate
    ([prefill_split.go] and the command that reports it), AdmissionSim ([admission_sim.go]);
    EndpointRouter ([llm/endpoint_router.go]) is the client's side of the affinity, ModelSpec
    ([llm/model_parsing.go], [endpoint_discovery.go]) how the client is told where to go.

    ** How state and operations correspond

    An object others point to (a backend, a lease, a tree run, a trie node, a job) is a
    location in a finite map, and a pointer is that location; what is reached through one
    owner only is a record passed along.  A method that runs under a mutex is one function;
    where a method releases the lock and goes on, or works on an atomic, it is given as the
    steps others can come between, with a step relation.  A Go map ranged over is a map with
    the order of the range as an argument.  Time is nanoseconds in [Z]; integers wrap where
    the source's can; [float64] is the standard library's executable specification.  What a
    request meets outside the code (an upstream's answer, a random draw, a wake, a caller
    that leaves) is an argument, turn by turn, so that a theorem holds for all of it.

    ** What the theorems show

    - the forest of prefixes refines the relation "this backend holds this prefix of this
      model" through any history (TreeSpec, over the interface [PrefixIndex]); a decision
      follows it (PolicySpec): the deepest holder wins unless it is saturated, only eligible
      backends are chosen, a mark is left only where the prefix will be;
    - a request is answered once (GatewaySpec.one_answer), every attempt is bracketed by the
      breaker and the lease (ProxySpec.attempts_bracketed), leaves no load behind
      (no_load_left), and its walk ends (walk_bounded, handler_terminates); a wake is used
      or passed on (CapacityRetry.wakes_passed_on); a refused prefill cannot loop
      (Bodies.bypass_recognised); credentials stay where routes send them
      (credentials_contained, SurfaceSpec.protected_surface);
    - the fleet: the registry's index and its drains (Registry, Admin), discovery as one
      reconciliation (Discovery), probes with hysteresis (Health), flows that follow the
      registry through every operation of a pool (Pool.flows_follow_registry), a router
      assembled as its options say (Serve), readiness that tells the truth (Admin);
    - what is reported is what happened: BackendSeries.series_exact, VllmMetrics.totals_exact
      (through restarts, in any order, in float64) and renders_back, TreeView.page_adds_up;
    - the cache: an invariant with outstanding pins counted (KvCache.cache_wellformed), the
      ideal simulator as its unbounded case, and the offline tools against definitions that
      keep nothing (Retention.retention_exact, ReplayStore.store_roundtrip,
      simulations_agree, PrefillEstimate.prefill_split_exact).

    Where the code and its comments part, a lemma near the end of the file shows it on a
    concrete run (for instance Registry.readd_still_dropped, KvCache.pin_evicts_its_own,
    VllmMetrics.VllmEx.truncated_answer_counts_again, Bodies.BodiesEx.null_body_panics).

    ** Fuel

    Loops that are not structural carry fuel and answer a value of its own when it runs out.
    The scanner of JsonScan takes the length of the body plus one, and never runs out
    ([scan_terminates]); the walk of Proxy takes a round per candidate and one more
    ([walk_bounded]); the legs of Gateway run as long as their deadlines and worlds let
    them, and [handler_terminates] gives the fuel that suffices; chains of parents in KvTrie
    and the passes of TreeDrop are bounded by the locations allocated.  In each case a
    theorem says that enough fuel gives the result.

    ** Interfaces

    [PrefixIndex] (TreeSpec) is what the policy asks of the tree; [Json] with [JsonLaws]
    (Bodies) is what the rewriting of bodies asks of [encoding/json]; [Unicode] (GoText),
    [url_laws] (Url) and the parsing of label selectors (Discovery) are the parts of
    libraries whose text functions the code relies on.  SHA-256 is an argument throughout.

    ** Not modelled

    - Proxy: informational answers, protocol upgrades and the metrics it counts; Surface:
      log lines; OpenAIDialect: the text of errors; Capture: headers, times and the capture
      formats; VllmMetrics and Exposition: numbers as text, HTTP, the Prometheus collectors
      and gzip; Serve: flags, listeners and tickers; TreeView: the page's HTML and JSON;
      Discovery: the informer's watch; Url: the parser of [net/url];
    - the request collectors of [internal/metrics/metrics.go]: calls of a library;
    - the replay and benchmark drivers ([src/benchmark], but for the files above), the LLM
      clients ([src/llm], but for the endpoint router), the command line ([src/cli]),
      configuration and deployment: drivers of I/O, with little state of their own. *)

From stdpp Require Import base gmap sets list strings sorting.
From Stdlib Require Import ZArith Lia.
From Corelib Require Import SpecFloat.

Declare Scope wekai_scope.
Delimit Scope wekai_scope with wekai.

(** ** Machine integers

    Go's integer types wrap silently.  A value of a [w]-bit type is kept as a [Z] in its
    range; the conversions below are the ones the source performs implicitly. *)

Definition two64 : Z := 18446744073709551616.
Definition two63 : Z := 9223372036854775808.
Definition two32 : Z := 4294967296.
Definition two31 : Z := 2147483648.

(** Conversion to an unsigned 64- or 32-bit type. *)
Definition u64 (z : Z) : Z := z mod two64.
Definition u32 (z : Z) : Z := z mod two32.
(** Conversion to a signed 64- or 32-bit type (two's complement). *)
Definition i64 (z : Z) : Z := (z + two63) mod two64 - two63.
Definition i32 (z : Z) : Z := (z + two31) mod two32 - two31.

(** ** IEEE-754 binary64

    [float64] is the standard library's executable specification of binary floating point,
    at the precision of Go's [float64].  No arithmetic is done over the reals. *)

Abbreviation float64 := spec_float.
Definition f64_of_Z (z : Z) : float64 := binary_normalize 53 1024 z 0 false.
Definition f64_add : float64 → float64 → float64 := SFadd 53 1024.
Definition f64_sub : float64 → float64 → float64 := SFsub 53 1024.
Definition f64_mul : float64 → float64 → float64 := SFmul 53 1024.
Definition f64_div : float64 → float64 → float64 := SFdiv 53 1024.
(** Go's conversion to [int64]: truncation towards zero.  Out of range, Go's result is
    implementation-defined; amd64 gives the least value. *)
Definition f64_trunc (x : float64) : Z :=
  match x with
  | S754_finite s m e =>
      let a := if (0 <=? e)%Z then (Z.pos m * 2 ^ e)%Z else (Z.pos m / 2 ^ (- e))%Z in
      if s then (- a)%Z else a
  | _ => 0%Z
  end.
Definition f64_to_i64 (x : float64) : Z :=
  match x with
  | S754_finite _ _ _ => let z := f64_trunc x in
      if ((- two63 <=? z) && (z <? two63))%Z then z else (- two63)%Z
  | S754_zero _ => 0%Z
  | _ => (- two63)%Z
  end.
Definition f64_inf : float64 := S754_infinity false.
Definition f64_neg_inf : float64 := S754_infinity true.

Notation "x <.? y" := (SFltb x y) (at level 70) : wekai_scope.
Notation "x >=.? y" := (SFleb y x) (at level 70) : wekai_scope.
Notation "x =.? y" := (SFeqb x y) (at level 70) : wekai_scope.

(** ** The binary search of the sorted child slices

    [run.find], [run.link], [run.unlink], [node.find] and [node.addKid] all open with this
    loop, over the keys of the children. *)

Fixpoint lower_bound_loop (fuel : nat) (keys : list Z) (h : Z) (lo hi : nat) : nat :=
  match fuel with
  | O => lo
  | S f =>
      if decide (lo < hi)%nat then
        let mid := Nat.div2 (lo + hi) in
        if decide (keys !!! mid < h)%Z
        then lower_bound_loop f keys h (mid + 1) hi
        else lower_bound_loop f keys h lo mid
      else lo
  end.

Definition lower_bound (keys : list Z) (h : Z) : nat :=
  lower_bound_loop (length keys) keys h 0 (length keys).

(** Go's in-place insertion [append; copy; assign] at index [i]. *)
Definition insert_at {A} (i : nat) (x : A) (l : list A) : list A :=
  take i l ++ x :: drop i l.

(** ** Sums over a store *)

Definition msum {A} (f : A → Z) (m : gmap positive A) : Z :=
  map_fold (λ _ x acc, (f x + acc)%Z) 0%Z m.

(** ** Tactics *)

Ltac invc H := inversion H; clear H; simplify_eq/=.

(** Split every boolean test of the goal or the context, turning it into its proposition. *)
Ltac bool_props :=
  repeat match goal with
  | H : andb _ _ = true |- _ => apply andb_true_iff in H as [? ?]
  | H : orb _ _ = false |- _ => apply orb_false_iff in H as [? ?]
  | H : negb _ = true |- _ => apply negb_true_iff in H
  | H : negb _ = false |- _ => apply negb_false_iff in H
  | H : (_ <? _)%Z = true |- _ => apply Z.ltb_lt in H
  | H : (_ <? _)%Z = false |- _ => apply Z.ltb_ge in H
  | H : (_ <=? _)%Z = true |- _ => apply Z.leb_le in H
  | H : (_ <=? _)%Z = false |- _ => apply Z.leb_gt in H
  | H : (_ =? _)%Z = true |- _ => apply Z.eqb_eq in H
  | H : (_ =? _)%Z = false |- _ => apply Z.eqb_neq in H
  | H : bool_decide _ = true |- _ => apply bool_decide_eq_true in H
  | H : bool_decide _ = false |- _ => apply bool_decide_eq_false in H
  end.

Create HintDb wekai.

(** ** Integer lemmas *)

Lemma u64_range z : (0 ≤ u64 z < two64)%Z.
Proof. unfold u64, two64. apply Z.mod_pos_bound. lia. Qed.

Lemma i64_range z : (- two63 ≤ i64 z < two63)%Z.
Proof.
  unfold i64, two63, two64.
  pose proof (Z.mod_pos_bound (z + 9223372036854775808) 18446744073709551616). lia.
Qed.

Lemma i64_id z : (- two63 ≤ z < two63)%Z → i64 z = z.
Proof. unfold i64, two63, two64. intros. rewrite Z.mod_small by lia. lia. Qed.

(** Equal up to the modulus, equal after wrapping. *)
Lemma i64_shift z q : i64 (z + q * two64) = i64 z.
Proof. unfold i64. f_equal. rewrite <-(Z_mod_plus_full (z + two63) q two64). f_equal. lia. Qed.
Lemma i64_off z : ∃ q, i64 z = (z + q * two64)%Z.
Proof. exists (- ((z + two63) / two64))%Z. unfold i64. rewrite Z.mod_eq by done. lia. Qed.

Lemma i64_add_l a b : i64 (i64 a + b) = i64 (a + b).
Proof.
  unfold i64. f_equal.
  replace ((a + two63) mod two64 - two63 + b + two63)%Z with ((a + two63) mod two64 + b)%Z by lia.
  rewrite Zplus_mod_idemp_l. f_equal. lia.
Qed.

Lemma i32_id z : (- two31 ≤ z < two31)%Z → i32 z = z.
Proof. unfold i32, two31, two32. intros. rewrite Z.mod_small by lia. lia. Qed.

Lemma i32_range z : (- two31 ≤ i32 z < two31)%Z.
Proof.
  unfold i32, two31, two32. pose proof (Z.mod_pos_bound (z + 2147483648) 4294967296). lia.
Qed.

(** ** Binary search lemmas *)

Lemma div2_between lo hi :
  (lo < hi)%nat → (lo ≤ Nat.div2 (lo + hi))%nat ∧ (Nat.div2 (lo + hi) < hi)%nat.
Proof.
  intros. rewrite Nat.div2_div. split.
  - apply Nat.div_le_lower_bound; lia.
  - apply Nat.Div0.div_lt_upper_bound; lia.
Qed.

Lemma sorted_lookup_lt (keys : list Z) i j a b :
  StronglySorted Z.lt keys → keys !! i = Some a → keys !! j = Some b →
  (i < j)%nat → (a < b)%Z.
Proof.
  intros Hs Hi Hj Hij. rewrite <-(take_drop_middle keys i a Hi) in Hs.
  apply StronglySorted_app_1_r in Hs. inversion Hs as [|? ? _ Hall]; subst.
  rewrite Forall_forall in Hall. apply Hall.
  apply list_elem_of_lookup. exists (j - S i)%nat.
  rewrite lookup_drop. by replace (S i + (j - S i))%nat with j by lia.
Qed.

Lemma sorted_lookup_le (keys : list Z) i j a b :
  StronglySorted Z.lt keys → keys !! i = Some a → keys !! j = Some b →
  (i ≤ j)%nat → (a ≤ b)%Z.
Proof.
  intros Hs Hi Hj Hij. destruct (decide (i = j)) as [->|]; [simplify_eq; lia|].
  pose proof (sorted_lookup_lt keys i j a b Hs Hi Hj). lia.
Qed.

Lemma lower_bound_loop_spec fuel keys h lo hi :
  StronglySorted Z.lt keys → (lo ≤ hi)%nat → (hi ≤ length keys)%nat → (hi - lo ≤ fuel)%nat →
  (∀ i a, (i < lo)%nat → keys !! i = Some a → (a < h)%Z) →
  (∀ i a, (hi ≤ i)%nat → keys !! i = Some a → (h ≤ a)%Z) →
  let r := lower_bound_loop fuel keys h lo hi in
  (r ≤ length keys)%nat ∧
  (∀ i a, (i < r)%nat → keys !! i = Some a → (a < h)%Z) ∧
  (∀ i a, (r ≤ i)%nat → keys !! i = Some a → (h ≤ a)%Z).
Proof.
  revert lo hi. induction fuel as [|f IH]; intros lo hi Hs Hlh Hlen Hf Hlo Hhi; simpl.
  - assert (lo = hi) by lia. subst. eauto.
  - case_decide as Hlt; [|assert (lo = hi) by lia; subst; eauto].
    destruct (div2_between lo hi Hlt) as [Hm1 Hm2]. set (mid := Nat.div2 (lo + hi)) in *.
    destruct (lookup_lt_is_Some_2 keys mid) as [k Hk]; [lia|].
    rewrite (list_lookup_total_correct _ _ _ Hk). case_decide as Hkh; apply IH; auto; try lia.
    + intros i a Hi Ha. assert (a ≤ k)%Z; [|lia]. eapply sorted_lookup_le; eauto; lia.
    + intros i a Hi Ha. assert (k ≤ a)%Z; [|lia]. eapply sorted_lookup_le; eauto; lia.
Qed.

(** The loop returns the first position whose key is not below [h]. *)
Lemma lower_bound_spec keys h :
  StronglySorted Z.lt keys →
  (lower_bound keys h ≤ length keys)%nat ∧
  (∀ i a, (i < lower_bound keys h)%nat → keys !! i = Some a → (a < h)%Z) ∧
  (∀ i a, (lower_bound keys h ≤ i)%nat → keys !! i = Some a → (h ≤ a)%Z).
Proof.
  intros Hs. apply lower_bound_loop_spec; auto; try lia.
  intros i a Hi Ha. apply lookup_lt_Some in Ha. lia.
Qed.

Lemma lower_bound_hit keys h i :
  StronglySorted Z.lt keys → keys !! i = Some h → lower_bound keys h = i.
Proof.
  intros Hs Hi. destruct (lower_bound_spec keys h Hs) as (Hle & Hlt & Hge).
  destruct (Nat.lt_trichotomy (lower_bound keys h) i) as [Hc|[Hc|Hc]]; [|done|].
  - destruct (lookup_lt_is_Some_2 keys (lower_bound keys h)) as [a Ha].
    { apply lookup_lt_Some in Hi. lia. }
    pose proof (Hge _ _ (Nat.le_refl _) Ha).
    pose proof (sorted_lookup_lt keys _ _ _ _ Hs Ha Hi Hc). lia.
  - pose proof (Hlt _ _ Hc Hi). lia.
Qed.

Lemma insert_at_sorted keys h :
  StronglySorted Z.lt keys → h ∉ keys →
  StronglySorted Z.lt (insert_at (lower_bound keys h) h keys).
Proof.
  intros Hs Hnot. destruct (lower_bound_spec keys h Hs) as (Hle & Hlt & Hge).
  unfold insert_at. set (r := lower_bound keys h) in *.
  assert (Htake : ∀ x, x ∈ take r keys → (x < h)%Z).
  { intros x [i Hi]%list_elem_of_lookup. apply lookup_take_Some in Hi as [Hi Hir]. by apply (Hlt i). }
  assert (Hdrop : ∀ x, x ∈ drop r keys → (h < x)%Z).
  { intros x [i Hi]%list_elem_of_lookup. rewrite lookup_drop in Hi.
    pose proof (Hge (r + i)%nat x ltac:(lia) Hi). assert (x ≠ h); [|lia].
    intros ->. apply Hnot. apply list_elem_of_lookup. eauto. }
  rewrite <-(take_drop r keys) in Hs. apply StronglySorted_app_2.
  - intros x1 x2 H1 H2%elem_of_cons. specialize (Htake _ H1).
    destruct H2 as [->|H2]; [lia|]. specialize (Hdrop _ H2). lia.
  - eapply StronglySorted_app_1_l; eauto.
  - constructor; [eapply StronglySorted_app_1_r; eauto|]. by apply Forall_forall.
Qed.

Lemma delete_sorted (keys : list Z) i :
  StronglySorted Z.lt keys → StronglySorted Z.lt (delete i keys).
Proof.
  intros Hs. rewrite delete_take_drop. destruct (decide (i < length keys)%nat) as [Hi|Hi].
  - destruct (lookup_lt_is_Some_2 keys i Hi) as [a Ha].
    rewrite <-(take_drop_middle keys i a Ha) in Hs.
    apply StronglySorted_app_2.
    + intros x1 x2 H1 H2. eapply StronglySorted_app_1_elem_of; eauto. by right.
    + eapply StronglySorted_app_1_l; eauto.
    + apply StronglySorted_app_1_r in Hs. by inversion Hs.
  - rewrite take_ge, drop_ge, app_nil_r by lia. done.
Qed.

(** Removing the element at a position and searching for it again gives that position. *)
Lemma lower_bound_delete keys i k :
  StronglySorted Z.lt keys → keys !! i = Some k → lower_bound (delete i keys) k = i.
Proof.
  intros Hs Hi. pose proof (delete_sorted keys i Hs) as Hsd.
  destruct (lower_bound_spec (delete i keys) k Hsd) as (Hle & Hlt & Hge).
  rewrite length_delete in Hle by eauto. pose proof (lookup_lt_Some _ _ _ Hi).
  destruct (Nat.lt_trichotomy (lower_bound (delete i keys) k) i) as [Hc|[Hc|Hc]]; [|done|].
  - destruct (lookup_lt_is_Some_2 keys (lower_bound (delete i keys) k)) as [a Ha]; [lia|].
    pose proof (sorted_lookup_lt keys _ _ _ _ Hs Ha Hi Hc).
    assert (k ≤ a)%Z; [|lia]. apply (Hge (lower_bound (delete i keys) k)); [done|].
    by rewrite list_lookup_delete_lt.
  - destruct (lookup_lt_is_Some_2 keys (S i)) as [a Ha]; [lia|].
    pose proof (sorted_lookup_lt keys _ _ _ _ Hs Hi Ha ltac:(lia)).
    assert (a < k)%Z; [|lia]. apply (Hlt i); [done|]. by rewrite list_lookup_delete_ge.
Qed.

Lemma sorted_NoDup keys : StronglySorted Z.lt keys → NoDup keys.
Proof.
  induction 1 as [|a l Hs IH Hall]; constructor; auto.
  intros Hin. rewrite Forall_forall in Hall. specialize (Hall _ Hin). lia.
Qed.

(** ** List lemmas *)

Lemma insert_at_perm {A} i (x : A) l : insert_at i x l ≡ₚ x :: l.
Proof. unfold insert_at. rewrite <-Permutation_middle, take_drop. done. Qed.

Lemma elem_of_insert_at {A} i (x y : A) l : y ∈ insert_at i x l ↔ y = x ∨ y ∈ l.
Proof. rewrite insert_at_perm. apply elem_of_cons. Qed.

Lemma insert_at_fmap {A B} (f : A → B) i x l :
  f <$> insert_at i x l = insert_at i (f x) (f <$> l).
Proof. unfold insert_at. rewrite fmap_app, fmap_cons, fmap_take, fmap_drop. done. Qed.

Lemma delete_fmap {A B} (f : A → B) i (l : list A) : f <$> delete i l = delete i (f <$> l).
Proof. rewrite !delete_take_drop, fmap_app, fmap_take, fmap_drop. done. Qed.

Lemma elem_of_delete_NoDup {A} (l : list A) i x y :
  NoDup l → l !! i = Some x → y ∈ delete i l ↔ y ∈ l ∧ y ≠ x.
Proof.
  intros Hnd Hi. rewrite delete_take_drop. rewrite <-(take_drop_middle l i x Hi) in Hnd.
  rewrite <-(take_drop_middle l i x Hi) at 3.
  apply NoDup_app in Hnd as (_ & Hd & [Hx _]%NoDup_cons).
  rewrite !elem_of_app, elem_of_cons. split.
  - intros [Hy|Hy]; (split; [tauto|]); intros ->; [|done]. apply (Hd _ Hy). by left.
  - tauto.
Qed.

Lemma insert_at_delete {A} (l : list A) i x y :
  l !! i = Some x → insert_at i y (delete i l) = <[i:=y]> l.
Proof.
  intros Hi. rewrite delete_take_drop. unfold insert_at.
  pose proof (lookup_lt_Some _ _ _ Hi).
  rewrite take_app_le, take_take, Nat.min_id, drop_app_length' by (rewrite length_take; lia).
  rewrite insert_take_drop by done. done.
Qed.

Lemma delete_middle {A} (l1 : list A) x l2 : delete (length l1) (l1 ++ x :: l2) = l1 ++ l2.
Proof. induction l1 as [|a l1 IH]; simpl; [done|]. by f_equal. Qed.

Lemma filter_ext_in {A} (P Q : A → Prop) `{!∀ x, Decision (P x), !∀ x, Decision (Q x)} (l : list A) :
  (∀ x, x ∈ l → P x ↔ Q x) → filter P l = filter Q l.
Proof.
  induction l as [|a l IH]; intros HPQ; [done|]. rewrite !filter_cons.
  pose proof (HPQ a (list_elem_of_here _ _)).
  rewrite IH by (intros x Hx; apply HPQ; by right). repeat case_decide; tauto.
Qed.

Lemma filter_id {A} (P : A → Prop) `{!∀ x, Decision (P x)} (l : list A) :
  (∀ x, x ∈ l → P x) → filter P l = l.
Proof.
  induction l as [|a l IH]; intros HP; [done|]. rewrite filter_cons_True by (apply HP; left).
  f_equal. apply IH. intros x Hx. apply HP. by right.
Qed.

Lemma filter_fmap {A B} (f : A → B) (P : B → Prop) `{!∀ x, Decision (P x)} (l : list A) :
  filter P (f <$> l) = f <$> filter (λ x, P (f x)) l.
Proof. induction l as [|a l IH]; [done|]. csimpl. rewrite !filter_cons, IH. by case_decide. Qed.

Lemma StronglySorted_filter {A} (R : relation A) (P : A → Prop) `{!∀ x, Decision (P x)} l :
  StronglySorted R l → StronglySorted R (filter P l).
Proof.
  induction 1 as [|a l Hs IH Hall]; [constructor|]. rewrite filter_cons.
  case_decide; [|done]. constructor; [done|]. rewrite Forall_forall in *.
  intros x [_ Hx]%list_elem_of_filter. auto.
Qed.

Lemma seqZ_sorted m n : StronglySorted Z.lt (seqZ m n).
Proof.
  destruct (decide (0 ≤ n)%Z) as [Hn|Hn]; [|rewrite seqZ_nil by lia; constructor].
  revert m. pattern n. apply natlike_ind; [| |done].
  - intros m. rewrite seqZ_nil by lia. constructor.
  - intros k Hk IH m. rewrite seqZ_cons by lia. rewrite Z.pred_succ. constructor; [apply IH|].
    apply Forall_forall. intros x Hx%elem_of_seqZ. lia.
Qed.

(** ** Sums over a store: one update changes one summand *)

Section msum.
Context {A : Type} (f : A → Z).
Implicit Types (m : gmap positive A) (l : positive) (x : A).

Lemma msum_empty : msum f ∅ = 0%Z.
Proof. unfold msum. by rewrite map_fold_empty. Qed.

Lemma msum_insert_new m l x : m !! l = None → msum f (<[l:=x]> m) = (f x + msum f m)%Z.
Proof. intros Hl. unfold msum. rewrite map_fold_insert_L; auto. intros; lia. Qed.

Lemma msum_lookup m l x : m !! l = Some x → msum f m = (f x + msum f (delete l m))%Z.
Proof. intros Hl. unfold msum. rewrite (map_fold_delete_L _ _ l x m); auto. intros; lia. Qed.

Lemma msum_insert_old m l x y :
  m !! l = Some x → msum f (<[l:=y]> m) = (msum f m - f x + f y)%Z.
Proof.
  intros Hl. rewrite (msum_lookup (<[l:=y]> m) l y) by apply lookup_insert_eq.
  rewrite (msum_lookup m l x Hl), delete_insert_eq. lia.
Qed.

Lemma msum_ext (g : A → Z) m : (∀ l x, m !! l = Some x → f x = g x) → msum f m = msum g m.
Proof.
  unfold msum. intros Hfg. induction m as [|l x m Hl IH] using map_ind.
  - by rewrite !map_fold_empty.
  - rewrite !map_fold_insert_L by (auto; intros; lia).
    rewrite (Hfg l x) by apply lookup_insert_eq. rewrite IH; [done|].
    intros l' x' Hl'. apply (Hfg l'). rewrite lookup_insert_ne; [done|]. congruence.
Qed.

Lemma msum_nonneg m : (∀ l x, m !! l = Some x → (0 ≤ f x)%Z) → (0 ≤ msum f m)%Z.
Proof.
  unfold msum. intros Hf. induction m as [|l x m Hl IH] using map_ind.
  - by rewrite map_fold_empty.
  - rewrite map_fold_insert_L by (auto; intros; lia).
    pose proof (Hf l x (lookup_insert_eq _ _ _)).
    assert (0 ≤ map_fold (λ _ x acc, f x + acc) 0 m)%Z; [|lia].
    apply IH. intros l' x' Hl'. apply (Hf l'). rewrite lookup_insert_ne; [done|]. congruence.
Qed.
End msum.

(** ** Sums of a list *)

Definition zsum (l : list Z) : Z := foldr Z.add 0%Z l.
Lemma zsum_cons x l : zsum (x :: l) = (x + zsum l)%Z.
Proof. done. Qed.
Lemma zsum_app a b : zsum (a ++ b) = (zsum a + zsum b)%Z.
Proof. unfold zsum. induction a as [|x a IH]; cbn; lia. Qed.
Lemma zsum_nonneg l : Forall (λ x, 0 ≤ x)%Z l → (0 ≤ zsum l)%Z.
Proof. induction 1; cbn; [done|]. unfold zsum in *. lia. Qed.
Lemma zsum_perm a b : a ≡ₚ b → zsum a = zsum b.
Proof. induction 1; rewrite ?zsum_cons; lia. Qed.

#[export] Hint Resolve delete_sorted insert_at_sorted sorted_NoDup : wekai.
#[export] Hint Rewrite @insert_at_fmap @delete_fmap : wekai.
