(* ===== verification/MarkSet.v ===== *)
(** * MarkSet: the holder sets of the affinity tree

    [src/router/internal/policy/affinity/markset.go].  A [markSet] is a growable vector of
    64-bit words in which bit [slot mod 64] of word [slot / 64] says that the backend in
    [slot] holds the run.  The operations are translated at word level; [holders] is the
    finite set a vector denotes, and [markset_refines_gset] states that every operation
    implements the set operation of its name. *)

From stdpp Require Import base gmap sets list.
From Stdlib Require Import ZArith Lia.
From S2P Require Import Prelude.
Open Scope Z_scope.

Record markSet := MarkSet { words : list Z }.

(** [math/bits]: the set bits of a word, its population count and its lowest set bit. *)
Definition bits64 (w : Z) : list Z := filter (λ b, Z.testbit w b = true) (seqZ 0 64).
Definition OnesCount64 (w : Z) : Z := Z.of_nat (length (bits64 w)).
Definition TrailingZeros64 (w : Z) : Z := default 64 (head (bits64 w)).

(** [for len(m.words) < need { m.words = append(m.words, 0) }]: the loop runs [need - len]
    times. *)
Fixpoint grow_loop (n : nat) (ws : list Z) : list Z :=
  match n with O => ws | S n => grow_loop n (ws ++ [0]) end.

Definition grow (m : markSet) (slot : Z) : markSet :=
  let need := slot ÷ 64 + 1 in
  MarkSet (grow_loop (Z.to_nat (need - Z.of_nat (length (words m)))) (words m)).

Definition Has (m : markSet) (slot : Z) : bool :=
  let w := slot ÷ 64 in
  if (slot <? 0) || (Z.of_nat (length (words m)) <=? w) then false
  else negb (Z.land (words m !!! Z.to_nat w) (Z.shiftl 1 (slot mod 64)) =? 0).

Definition Add (m : markSet) (slot : Z) : markSet :=
  if slot <? 0 then m
  else
    let m' := grow m slot in
    let w := Z.to_nat (slot ÷ 64) in
    MarkSet (<[w := Z.lor (words m' !!! w) (Z.shiftl 1 (slot mod 64))]> (words m')).

Definition Remove (m : markSet) (slot : Z) : markSet :=
  let w := slot ÷ 64 in
  if (slot <? 0) || (Z.of_nat (length (words m)) <=? w) then m
  else
    let w := Z.to_nat w in
    MarkSet (<[w := Z.ldiff (words m !!! w) (Z.shiftl 1 (slot mod 64))]> (words m)).

Definition Empty (m : markSet) : bool := forallb (λ w, w =? 0) (words m).

Definition Count (m : markSet) : Z := foldl (λ n w, n + OnesCount64 w) 0 (words m).

Fixpoint Intersects_loop (a b : list Z) : bool :=
  match a, b with
  | x :: a, y :: b => if negb (Z.land x y =? 0) then true else Intersects_loop a b
  | _, _ => false
  end.
Definition Intersects (m other : markSet) : bool := Intersects_loop (words m) (words other).

Definition Clone (m : markSet) : markSet :=
  match words m with [] => MarkSet [] | ws => MarkSet ws end.

(** The inner loop [for w != 0 { b := TrailingZeros64(w); fn(i*64+b); w &^= 1 << b }]: the
    slots passed to [fn], in order.  A word has at most 64 set bits, so 64 rounds suffice. *)
Fixpoint Each_word (fuel : nat) (i w : Z) : list Z :=
  match fuel with
  | O => []
  | S f =>
      if w =? 0 then []
      else let b := TrailingZeros64 w in
           (i * 64 + b) :: Each_word f i (Z.ldiff w (Z.shiftl 1 b))
  end.
Fixpoint Each_loop (i : Z) (ws : list Z) : list Z :=
  match ws with [] => [] | w :: ws => Each_word 64 i w ++ Each_loop (i + 1) ws end.
Definition Each (m : markSet) : list Z := Each_loop 0 (words m).

Fixpoint Subset_loop (a b : list Z) : bool :=
  match a with
  | [] => true
  | w :: a =>
      let o := default 0 (head b) in
      if negb (Z.ldiff w o =? 0) then false else Subset_loop a (tail b)
  end.
Definition Subset (m other : markSet) : bool := Subset_loop (words m) (words other).

(** Every word is a [uint64]. *)
Definition wf_marks (m : markSet) : Prop := Forall (λ w, 0 ≤ w < two64) (words m).

(** The set of backends a vector stands for. *)
Definition holders (m : markSet) : gset Z := list_to_set (Each m).

(** The empty vector, Go's zero [markSet]. *)
Definition no_marks : markSet := MarkSet [].

(** ** Word-level facts *)

Lemma word_zero_iff w : 0 ≤ w < two64 → w = 0 ↔ ∀ b, 0 ≤ b < 64 → Z.testbit w b = false.
Proof.
  intros Hw. split; [intros -> b _; apply Z.bits_0|].
  intros Hb. apply Z.bits_inj'. intros n Hn. rewrite Z.bits_0.
  destruct (decide (n < 64)); [apply Hb; lia|].
  destruct (decide (w = 0)) as [->|]; [apply Z.bits_0|].
  apply Z.bits_above_log2; [lia|].
  assert (Z.log2 w < 64); [|lia]. apply Z.log2_lt_pow2; [lia|]. unfold two64 in Hw. lia.
Qed.

Lemma shiftl1_testbit s b : 0 ≤ s → 0 ≤ b → Z.testbit (Z.shiftl 1 s) b = bool_decide (b = s).
Proof.
  intros Hs Hb. rewrite Z.shiftl_1_l. case_bool_decide as E.
  - subst. by apply Z.pow2_bits_true.
  - apply Z.pow2_bits_false. lia.
Qed.

Lemma land_bit w s : 0 ≤ s → negb (Z.land w (Z.shiftl 1 s) =? 0) = Z.testbit w s.
Proof.
  intros Hs. destruct (Z.testbit w s) eqn:E.
  - rewrite negb_true_iff, Z.eqb_neq. intros H0.
    assert (Z.testbit (Z.land w (Z.shiftl 1 s)) s = true) as Ht.
    { rewrite Z.land_spec, E, shiftl1_testbit by lia. by rewrite bool_decide_eq_true_2. }
    rewrite H0, Z.bits_0 in Ht. done.
  - rewrite negb_false_iff, Z.eqb_eq. apply Z.bits_inj'. intros n Hn.
    rewrite Z.bits_0, Z.land_spec, shiftl1_testbit by lia.
    case_bool_decide; subst; [by rewrite E|]. by rewrite andb_false_r.
Qed.

Lemma word_range w : 0 ≤ w → (∀ b, 64 ≤ b → Z.testbit w b = false) → 0 ≤ w < two64.
Proof.
  intros Hw Hb. split; [done|]. destruct (decide (w = 0)) as [->|]; [unfold two64; lia|].
  change two64 with (2 ^ 64). apply Z.log2_lt_pow2; [lia|].
  destruct (decide (Z.log2 w < 64)); [done|].
  pose proof (Z.bit_log2 w ltac:(lia)) as Ht. rewrite Hb in Ht by lia. discriminate Ht.
Qed.

Lemma lor_word w s : 0 ≤ w < two64 → 0 ≤ s < 64 → 0 ≤ Z.lor w (Z.shiftl 1 s) < two64.
Proof.
  intros Hw Hs. apply word_range.
  - apply Z.lor_nonneg. split; [lia|]. apply Z.shiftl_nonneg. lia.
  - intros b Hb. rewrite Z.lor_spec, shiftl1_testbit by lia.
    rewrite bool_decide_eq_false_2, orb_false_r by lia.
    destruct (decide (w = 0)) as [->|]; [apply Z.bits_0|]. apply Z.bits_above_log2; [lia|].
    assert (Z.log2 w < 64); [|lia]. apply Z.log2_lt_pow2; [lia|]. unfold two64 in Hw. lia.
Qed.

Lemma ldiff_word w o : 0 ≤ w < two64 → 0 ≤ Z.ldiff w o < two64.
Proof.
  intros Hw. apply word_range.
  - apply Z.ldiff_nonneg. lia.
  - intros b Hb. rewrite Z.ldiff_spec.
    destruct (decide (w = 0)) as [->|]; [by rewrite Z.bits_0|].
    rewrite (Z.bits_above_log2 w b); [done|lia|].
    assert (Z.log2 w < 64); [|lia]. apply Z.log2_lt_pow2; [lia|]. unfold two64 in Hw. lia.
Qed.

Lemma elem_of_bits64 w b : b ∈ bits64 w ↔ 0 ≤ b < 64 ∧ Z.testbit w b = true.
Proof. unfold bits64. rewrite list_elem_of_filter, elem_of_seqZ. naive_solver lia. Qed.

Lemma bits64_nil w : 0 ≤ w < two64 → bits64 w = [] ↔ w = 0.
Proof.
  intros Hw. rewrite (word_zero_iff w Hw). split.
  - intros Hnil b Hb. destruct (Z.testbit w b) eqn:E; [|done].
    assert (b ∈ bits64 w) as Hin by by apply elem_of_bits64. rewrite Hnil in Hin. by inv Hin.
  - intros Hb. destruct (bits64 w) as [|b l] eqn:E; [done|].
    assert (b ∈ bits64 w) as Hin by (rewrite E; left).
    apply elem_of_bits64 in Hin as [? Ht]. rewrite Hb in Ht by done. done.
Qed.

Lemma bits64_NoDup w : NoDup (bits64 w).
Proof. unfold bits64. apply NoDup_filter, NoDup_seqZ. Qed.

(** Clearing the lowest set bit drops the head of the list of set bits. *)
Lemma bits64_clear_lowest w b l :
  bits64 w = b :: l → bits64 (Z.ldiff w (Z.shiftl 1 b)) = l.
Proof.
  intros E. assert (0 ≤ b < 64 ∧ Z.testbit w b = true) as [Hb _].
  { apply elem_of_bits64. rewrite E. left. }
  assert (bits64 (Z.ldiff w (Z.shiftl 1 b)) = filter (λ x, x ≠ b) (bits64 w)) as ->.
  { unfold bits64. rewrite list_filter_filter. apply filter_ext_in.
    intros x Hx%elem_of_seqZ.
    rewrite Z.ldiff_spec, shiftl1_testbit by lia.
    rewrite andb_true_iff, negb_true_iff, bool_decide_eq_false. tauto. }
  pose proof (bits64_NoDup w) as Hnd. rewrite E in Hnd |- *.
  apply NoDup_cons in Hnd as [Hnot _].
  rewrite filter_cons_False by naive_solver. apply filter_id. set_solver.
Qed.

Lemma Each_word_spec fuel i w :
  0 ≤ w < two64 → (length (bits64 w) ≤ fuel)%nat →
  Each_word fuel i w = (λ b, i * 64 + b) <$> bits64 w.
Proof.
  revert w. induction fuel as [|f IH]; intros w Hw Hlen; simpl.
  - destruct (bits64 w); [done|]. simpl in Hlen. lia.
  - destruct (w =? 0) eqn:E; bool_props.
    + apply bits64_nil in E; [|done]. by rewrite E.
    + rewrite <-(bits64_nil w Hw) in E. unfold TrailingZeros64.
      destruct (bits64 w) as [|b l] eqn:Eb; [done|]. simpl.
      pose proof (bits64_clear_lowest w b l Eb) as Hl. f_equal.
      rewrite IH; [by rewrite Hl|by apply ldiff_word|]. rewrite Hl. simpl in Hlen. lia.
Qed.

Lemma bits64_length w : (length (bits64 w) ≤ 64)%nat.
Proof. unfold bits64. etrans; [apply length_filter|]. by rewrite length_seqZ. Qed.

(** ** Membership *)

(** Bit [s] of a vector, out-of-range words reading as zero. *)
Definition bit (ws : list Z) (s : Z) : bool :=
  (0 <=? s) && Z.testbit (default 0 (ws !! Z.to_nat (s / 64))) (s mod 64).

Lemma slot_split s : 0 ≤ s → s ÷ 64 = s / 64 ∧ 0 ≤ s / 64 ∧ 0 ≤ s mod 64 < 64.
Proof.
  intros. rewrite Z.quot_div_nonneg by lia.
  pose proof (Z.div_pos s 64). pose proof (Z.mod_pos_bound s 64). lia.
Qed.

Lemma Has_bit m s : Has m s = bit (words m) s.
Proof.
  unfold Has, bit. destruct (Z.leb_spec 0 s) as [Hs|Hs]; [|by rewrite (proj2 (Z.ltb_lt s 0))].
  destruct (slot_split s Hs) as (Hq & Hd & Hm).
  rewrite (proj2 (Z.ltb_ge s 0)) by lia. rewrite Hq. simpl.
  destruct (Z.leb_spec (Z.of_nat (length (words m))) (s / 64)) as [Hl|Hl].
  - rewrite lookup_ge_None_2 by lia. simpl. by rewrite Z.bits_0.
  - destruct (lookup_lt_is_Some_2 (words m) (Z.to_nat (s / 64))) as [w Hw]; [lia|].
    rewrite (list_lookup_total_correct _ _ _ Hw), Hw. simpl. apply land_bit. lia.
Qed.

Lemma Has_range m s : Has m s = true → 0 ≤ s < 64 * Z.of_nat (length (words m)).
Proof.
  rewrite Has_bit. unfold bit. intros [Hs%Z.leb_le Ht]%andb_true_iff. split; [done|].
  destruct (words m !! Z.to_nat (s / 64)) eqn:E; simpl in Ht; [|by rewrite Z.bits_0 in Ht].
  apply lookup_lt_Some in E. pose proof (Z.div_mod s 64 ltac:(lia)).
  destruct (slot_split s Hs) as (_ & ? & ?). lia.
Qed.

Lemma grow_loop_app n ws : grow_loop n ws = ws ++ replicate n 0.
Proof.
  revert ws. induction n as [|n IH]; intros ws; simpl; [by rewrite app_nil_r|].
  rewrite IH, <-app_assoc. done.
Qed.

Lemma default_replicate n i : default 0 (replicate n 0 !! i) = 0.
Proof. destruct (replicate n 0 !! i) eqn:E; [|done]. by apply lookup_replicate in E as [-> _]. Qed.

Lemma grow_bit m slot s : bit (words (grow m slot)) s = bit (words m) s.
Proof.
  unfold bit, grow. simpl. rewrite grow_loop_app. f_equal. f_equal.
  destruct (decide (Z.to_nat (s / 64) < length (words m))%nat).
  - by rewrite lookup_app_l.
  - rewrite lookup_app_r, default_replicate, lookup_ge_None_2 by lia. done.
Qed.

Lemma grow_length m slot :
  0 ≤ slot → (Z.to_nat (slot / 64) < length (words (grow m slot)))%nat.
Proof.
  intros Hs. destruct (slot_split slot Hs) as (Hq & ? & ?). unfold grow. simpl.
  rewrite grow_loop_app, length_app, length_replicate, Hq. lia.
Qed.

Lemma grow_wf m slot : wf_marks m → wf_marks (grow m slot).
Proof.
  unfold wf_marks, grow. simpl. rewrite grow_loop_app. intros H.
  apply Forall_app. split; [done|]. apply Forall_replicate. unfold two64. lia.
Qed.

(** Updating word [s / 64] changes only the bits of that word. *)
Lemma bit_insert ws s w t :
  0 ≤ s → (Z.to_nat (s / 64) < length ws)%nat →
  bit (<[Z.to_nat (s / 64) := w]> ws) t =
  if decide (t / 64 = s / 64 ∧ 0 ≤ t) then Z.testbit w (t mod 64) else bit ws t.
Proof.
  intros Hs Hl. unfold bit. destruct (slot_split s Hs) as (_ & ? & _).
  case_decide as E.
  - destruct E as [-> Ht]. rewrite list_lookup_insert_eq by done. simpl.
    by rewrite (proj2 (Z.leb_le 0 t)) by lia.
  - destruct (Z.leb_spec 0 t) as [Ht|Ht]; [|done]. simpl.
    destruct (slot_split t Ht) as (_ & ? & _).
    rewrite list_lookup_insert_ne; [done|]. intros Heq. apply E. split; [lia|done].
Qed.

Lemma same_slot s t : t / 64 = s / 64 → t mod 64 = s mod 64 → s = t.
Proof. intros. pose proof (Z.div_mod s 64 ltac:(lia)). pose proof (Z.div_mod t 64 ltac:(lia)). lia. Qed.

Lemma Add_has m s t :
  Has (Add m s) t = Has m t || bool_decide (t = s ∧ 0 ≤ s).
Proof.
  rewrite !Has_bit. unfold Add. destruct (Z.ltb_spec s 0) as [Hs|Hs].
  { rewrite bool_decide_eq_false_2 by lia. by rewrite orb_false_r. }
  destruct (slot_split s Hs) as (Hq & Hd & Hm). rewrite Hq. cbn [words].
  rewrite bit_insert by (first [lia|by apply grow_length]). rewrite <-(grow_bit m s t).
  case_decide as E.
  - destruct E as [E Ht]. destruct (slot_split t Ht) as (_ & ? & Hmt).
    destruct (lookup_lt_is_Some_2 _ _ (grow_length m s Hs)) as [w Hw].
    rewrite (list_lookup_total_correct _ _ _ Hw), Z.lor_spec, shiftl1_testbit by lia.
    unfold bit. rewrite E, Hw, (proj2 (Z.leb_le 0 t)) by lia. simpl. f_equal.
    apply bool_decide_ext. split; [|by intros [-> _]]. intros. split; [|done].
    symmetry. by apply same_slot.
  - rewrite bool_decide_eq_false_2 by naive_solver. by rewrite orb_false_r.
Qed.

Lemma Remove_has m s t : Has (Remove m s) t = Has m t && bool_decide (t ≠ s).
Proof.
  unfold Remove. destruct (Z.ltb_spec s 0) as [Hs|Hs]; simpl.
  { destruct (Has m t) eqn:E; [|done]. apply Has_range in E.
    by rewrite bool_decide_eq_true_2 by lia. }
  destruct (slot_split s Hs) as (Hq & Hd & Hm). rewrite Hq.
  destruct (Z.leb_spec (Z.of_nat (length (words m))) (s / 64)) as [Hl|Hl].
  { destruct (Has m t) eqn:E; [|done]. apply Has_range in E.
    rewrite bool_decide_eq_true_2; [done|]. pose proof (Z.div_mod s 64 ltac:(lia)). lia. }
  rewrite !Has_bit. simpl. rewrite bit_insert by lia. case_decide as E.
  - destruct E as [E Ht]. destruct (slot_split t Ht) as (_ & ? & Hmt).
    destruct (lookup_lt_is_Some_2 (words m) (Z.to_nat (s / 64))) as [w Hw]; [lia|].
    rewrite (list_lookup_total_correct _ _ _ Hw), Z.ldiff_spec, shiftl1_testbit by lia.
    unfold bit. rewrite E, Hw, (proj2 (Z.leb_le 0 t)) by lia. simpl. f_equal.
    rewrite <-bool_decide_not. apply bool_decide_ext. split; [naive_solver|].
    intros Hne Heq. apply Hne. symmetry. by apply same_slot.
  - rewrite bool_decide_eq_true_2 by naive_solver. by rewrite andb_true_r.
Qed.

Lemma word_lookup (ws : list Z) i w :
  Forall (λ w, 0 ≤ w < two64) ws → ws !! i = Some w → 0 ≤ w < two64.
Proof. intros H Hi. exact (Forall_lookup_1 (λ w, 0 ≤ w < two64) ws i w H Hi). Qed.

Lemma Add_wf m s : wf_marks m → wf_marks (Add m s).
Proof.
  intros Hwf. unfold Add. destruct (Z.ltb_spec s 0) as [Hs|Hs]; [done|].
  destruct (slot_split s Hs) as (Hq & ? & ?).
  apply Forall_insert; [by apply grow_wf|]. rewrite Hq.
  destruct (lookup_lt_is_Some_2 _ _ (grow_length m s Hs)) as [w Hw].
  rewrite (list_lookup_total_correct _ _ _ Hw). apply lor_word; [|lia].
  by apply (word_lookup _ _ _ (grow_wf m s Hwf) Hw).
Qed.

Lemma Remove_wf m s : wf_marks m → wf_marks (Remove m s).
Proof.
  intros Hwf. unfold Remove. destruct (Z.ltb_spec s 0) as [Hs|Hs]; simpl; [done|].
  destruct (slot_split s Hs) as (Hq & ? & ?). rewrite Hq.
  destruct (Z.leb_spec (Z.of_nat (length (words m))) (s / 64)) as [Hl|Hl]; [done|].
  apply Forall_insert; [done|].
  destruct (lookup_lt_is_Some_2 (words m) (Z.to_nat (s / 64))) as [w Hw]; [lia|].
  rewrite (list_lookup_total_correct _ _ _ Hw). apply ldiff_word.
  by apply (word_lookup _ _ _ Hwf Hw).
Qed.

Lemma no_marks_wf : wf_marks no_marks.
Proof. constructor. Qed.

Lemma Clone_id m : Clone m = m.
Proof. by destruct m as [[|w ws]]. Qed.

(** ** Enumeration *)

Lemma Each_loop_spec i ws :
  0 ≤ i → Forall (λ w, 0 ≤ w < two64) ws →
  Each_loop i ws =
  filter (λ s, bit ws (s - i * 64) = true) (seqZ (i * 64) (64 * Z.of_nat (length ws))).
Proof.
  revert i. induction ws as [|w ws IH]; intros i Hi Hwf; [done|].
  apply Forall_cons in Hwf as [Hw Hwf]. cbn [Each_loop length].
  rewrite Each_word_spec, IH by (first [done | lia | apply bits64_length]).
  replace (64 * Z.of_nat (S (length ws))) with (64 + 64 * Z.of_nat (length ws)) by lia.
  rewrite seqZ_app, filter_app by lia. f_equal.
  - assert (seqZ (i * 64) 64 = Z.add (i * 64) <$> seqZ 0 64) as -> by
      (rewrite fmap_add_seqZ; f_equal; lia).
    rewrite filter_fmap. unfold bits64. f_equal. apply filter_ext_in. intros b Hb%elem_of_seqZ.
    replace (i * 64 + b - i * 64) with b by lia. unfold bit.
    rewrite Z.div_small, Z.mod_small by lia. simpl.
    by rewrite (proj2 (Z.leb_le 0 b)) by lia.
  - replace (i * 64 + 64) with ((i + 1) * 64) by lia. apply filter_ext_in.
    intros s Hs%elem_of_seqZ. unfold bit.
    replace (s - i * 64) with (s - (i + 1) * 64 + 1 * 64) by lia.
    rewrite Z.div_add, Z.mod_add by lia.
    set (t := s - (i + 1) * 64) in *. destruct (slot_split t) as (_ & ? & _); [lia|].
    rewrite !(proj2 (Z.leb_le 0 _)) by lia.
    replace (Z.to_nat (t / 64 + 1)) with (S (Z.to_nat (t / 64))) by lia. done.
Qed.

(** The callback sees exactly the holders, each once, in ascending order. *)
Lemma Each_spec m :
  wf_marks m →
  Each m = filter (λ s, Has m s = true) (seqZ 0 (64 * Z.of_nat (length (words m)))).
Proof.
  intros Hwf. unfold Each. rewrite Each_loop_spec by (done || lia).
  apply filter_ext_in. intros s Hs. rewrite Has_bit. by replace (s - 0 * 64) with s by lia.
Qed.

Lemma elem_of_Each m s : wf_marks m → s ∈ Each m ↔ Has m s = true.
Proof.
  intros Hwf. rewrite Each_spec, list_elem_of_filter, elem_of_seqZ by done.
  split; [tauto|]. intros H. split; [done|]. apply Has_range in H. lia.
Qed.

Lemma Each_NoDup m : wf_marks m → NoDup (Each m).
Proof. intros. rewrite Each_spec by done. apply NoDup_filter, NoDup_seqZ. Qed.

Lemma elem_of_holders m s : wf_marks m → s ∈ holders m ↔ Has m s = true.
Proof. intros. unfold holders. rewrite elem_of_list_to_set. by apply elem_of_Each. Qed.

Lemma Count_loop n ws : foldl (λ n w, n + OnesCount64 w) n ws = n + foldl (λ n w, n + OnesCount64 w) 0 ws.
Proof.
  revert n. induction ws as [|w ws IH]; intros n; cbn [foldl]; [lia|].
  rewrite (IH (n + _)), (IH (0 + _)). lia.
Qed.

Lemma Count_length_from i ws :
  Forall (λ w, 0 ≤ w < two64) ws →
  foldl (λ n w, n + OnesCount64 w) 0 ws = Z.of_nat (length (Each_loop i ws)).
Proof.
  revert i. induction ws as [|w ws IH]; intros i Hwf; [done|].
  apply Forall_cons in Hwf as [Hw Hwf]. cbn [foldl Each_loop]. rewrite Count_loop.
  rewrite Each_word_spec by (done || apply bits64_length).
  rewrite length_app, length_fmap, (IH (i + 1)) by done. unfold OnesCount64. lia.
Qed.

Lemma Count_length m : wf_marks m → Count m = Z.of_nat (length (Each m)).
Proof. apply Count_length_from. Qed.

Lemma Count_size m : wf_marks m → Count m = Z.of_nat (size (holders m)).
Proof.
  intros. rewrite Count_length by done. unfold holders. f_equal.
  by rewrite size_list_to_set by (by apply Each_NoDup).
Qed.

Lemma holders_ext m m' :
  wf_marks m → wf_marks m' → (∀ s, Has m s = Has m' s) → holders m = holders m'.
Proof. intros ?? H. apply set_eq. intros s. by rewrite !elem_of_holders, H. Qed.

(** ** Comparisons *)

Lemma words_zero_iff ws : Forall (λ w, 0 ≤ w < two64) ws →
  forallb (λ w, w =? 0) ws = true ↔ ∀ s, bit ws s = false.
Proof.
  intros Hwf. rewrite forallb_forall. split.
  - intros H s. unfold bit. destruct (ws !! Z.to_nat (s / 64)) as [w|] eqn:E; simpl.
    + apply list_elem_of_lookup_2, list_elem_of_In, H, Z.eqb_eq in E. subst.
      by rewrite Z.bits_0, andb_false_r.
    + by rewrite Z.bits_0, andb_false_r.
  - intros H w [i Hi]%list_elem_of_In%list_elem_of_lookup. apply Z.eqb_eq.
    rewrite word_zero_iff by (by apply (word_lookup ws i)). intros b Hb.
    specialize (H (Z.of_nat i * 64 + b)). unfold bit in H.
    rewrite Z.div_add_l, Z.div_small, Z.add_0_r, Nat2Z.id, Hi in H by lia.
    rewrite Z.add_comm, Z.mod_add, Z.mod_small in H by lia.
    rewrite (proj2 (Z.leb_le 0 _)) in H by lia. done.
Qed.

Lemma Empty_has m : wf_marks m → Empty m = true ↔ ∀ s, Has m s = false.
Proof. intros. setoid_rewrite Has_bit. by apply words_zero_iff. Qed.

(** Combining two vectors word by word. *)
Lemma bit_cons w ws s :
  bit (w :: ws) s =
  if decide (s < 64) then (0 <=? s) && Z.testbit w (s mod 64) else bit ws (s - 64).
Proof.
  unfold bit. case_decide as Hs.
  - destruct (Z.leb_spec 0 s); [|done]. by rewrite Z.div_small by lia.
  - replace s with (s - 64 + 1 * 64) at 2 3 by lia. rewrite Z.div_add, Z.mod_add by lia.
    destruct (slot_split (s - 64)) as (_ & ? & _); [lia|].
    replace (Z.to_nat ((s - 64) / 64 + 1)) with (S (Z.to_nat ((s - 64) / 64))) by lia.
    by rewrite !(proj2 (Z.leb_le 0 _)) by lia.
Qed.

Lemma bit_nil s : bit [] s = false.
Proof. unfold bit. simpl. by rewrite Z.bits_0, andb_false_r. Qed.

Lemma Intersects_loop_spec a b :
  Forall (λ w, 0 ≤ w < two64) a → Forall (λ w, 0 ≤ w < two64) b →
  Intersects_loop a b = true ↔ ∃ s, bit a s = true ∧ bit b s = true.
Proof.
  revert b. induction a as [|x a IH]; intros [|y b] Ha Hb; simpl.
  1-3: split; [done|]; intros (s & H1 & H2); by rewrite bit_nil in *.
  apply Forall_cons in Ha as [Hx Ha]. apply Forall_cons in Hb as [Hy Hb].
  destruct (Z.land x y =? 0) eqn:E; simpl; bool_props.
  - rewrite IH by done. split; intros (s & H1 & H2).
    + exists (s + 64). rewrite !bit_cons. unfold bit in H1, H2. bool_props.
      rewrite !decide_False by lia. replace (s + 64 - 64) with s by lia.
      unfold bit. by rewrite !(proj2 (Z.leb_le 0 s)) by lia.
    + rewrite !bit_cons in *. case_decide; [|eauto]. bool_props.
      assert (Z.testbit (Z.land x y) (s mod 64) = true) as Ht
        by (rewrite Z.land_spec; by apply andb_true_iff).
      by rewrite E, Z.bits_0 in Ht.
  - split; [intros _|done].
    destruct (bits64 (Z.land x y)) as [|s l] eqn:El.
    + exfalso. apply E. apply bits64_nil; [|done]. apply word_range.
      * apply Z.land_nonneg. lia.
      * intros b' Hb'. rewrite Z.land_spec. destruct (decide (x = 0)) as [->|];
          [by rewrite Z.bits_0|].
        rewrite (Z.bits_above_log2 x b'); [done|lia|].
        assert (Z.log2 x < 64); [|lia]. apply Z.log2_lt_pow2; [lia|]. unfold two64 in Hx. lia.
    + assert (s ∈ bits64 (Z.land x y)) as [Hs Ht]%elem_of_bits64 by (rewrite El; left).
      rewrite Z.land_spec in Ht. bool_props. exists s.
      rewrite !bit_cons, !decide_True, (proj2 (Z.leb_le 0 s)), Z.mod_small by lia. done.
Qed.

Lemma Intersects_has m o :
  wf_marks m → wf_marks o → Intersects m o = true ↔ ∃ s, Has m s = true ∧ Has o s = true.
Proof. intros. setoid_rewrite Has_bit. by apply Intersects_loop_spec. Qed.

Lemma Subset_loop_spec a b :
  Forall (λ w, 0 ≤ w < two64) a →
  Subset_loop a b = true ↔ ∀ s, bit a s = true → bit b s = true.
Proof.
  revert b. induction a as [|x a IH]; intros b Ha; simpl.
  { split; [|done]. intros _ s H. by rewrite bit_nil in H. }
  apply Forall_cons in Ha as [Hx Ha].
  assert (Hb : ∀ s, bit b s = bit (default 0 (head b) :: tail b) s).
  { intros s. destruct b as [|y b]; [|done]. simpl. rewrite bit_cons, !bit_nil.
    case_decide; [|done]. by rewrite Z.bits_0, andb_false_r. }
  setoid_rewrite Hb. set (y := default 0 (head b)). set (b' := tail b). clearbody y b'.
  destruct (Z.ldiff x y =? 0) eqn:E; simpl; bool_props.
  - rewrite IH by done. split.
    + intros H s. rewrite !bit_cons. case_decide; [|apply H].
      intros ?; bool_props. apply andb_true_iff. split; [by apply Z.leb_le|].
      destruct (Z.testbit y (s mod 64)) eqn:Ey; [done|].
      assert (Z.testbit (Z.ldiff x y) (s mod 64) = true) as Ht by
        (rewrite Z.ldiff_spec, Ey; by apply andb_true_iff).
      by rewrite E, Z.bits_0 in Ht.
    + intros H s Hs. specialize (H (s + 64)). rewrite !bit_cons in H.
      assert (0 ≤ s) by (unfold bit in Hs; bool_props; lia).
      rewrite !decide_False in H by lia. replace (s + 64 - 64) with s in H by lia. auto.
  - split; [done|]. intros H. exfalso. apply E.
    apply bits64_nil; [by apply ldiff_word|].
    destruct (bits64 (Z.ldiff x y)) as [|s l] eqn:El; [done|].
    assert (s ∈ bits64 (Z.ldiff x y)) as [Hs Ht]%elem_of_bits64 by (rewrite El; left).
    rewrite Z.ldiff_spec in Ht. bool_props. specialize (H s).
    rewrite !bit_cons, !decide_True, (proj2 (Z.leb_le 0 s)), Z.mod_small in H by lia.
    simpl in H. rewrite H in *; done.
Qed.

Lemma Subset_has m o :
  wf_marks m → Subset m o = true ↔ ∀ s, Has m s = true → Has o s = true.
Proof. intros. setoid_rewrite Has_bit. by apply Subset_loop_spec. Qed.

(** ** The set interface used by the tree *)

Lemma holders_Add m s : wf_marks m → 0 ≤ s → holders (Add m s) = {[s]} ∪ holders m.
Proof.
  intros Hwf Hs. apply set_eq. intros t.
  rewrite elem_of_union, elem_of_singleton, !elem_of_holders, Add_has by auto using Add_wf.
  rewrite orb_true_iff, bool_decide_eq_true. naive_solver.
Qed.

Lemma holders_Remove m s : wf_marks m → holders (Remove m s) = holders m ∖ {[s]}.
Proof.
  intros Hwf. apply set_eq. intros t.
  rewrite elem_of_difference, elem_of_singleton, !elem_of_holders, Remove_has
    by auto using Remove_wf.
  rewrite andb_true_iff, bool_decide_eq_true. naive_solver.
Qed.

Lemma holders_no_marks : holders no_marks = ∅.
Proof. done. Qed.

Lemma Empty_holders m : wf_marks m → Empty m = true ↔ holders m = ∅.
Proof.
  intros Hwf. rewrite Empty_has by done. split.
  - intros H. apply set_eq. intros s. rewrite elem_of_holders, H by done. set_solver.
  - intros H s. destruct (Has m s) eqn:E; [|done].
    apply elem_of_holders in E; [|done]. rewrite H in E. set_solver.
Qed.

Lemma Intersects_holders m o :
  wf_marks m → wf_marks o → Intersects m o = true ↔ holders m ∩ holders o ≠ ∅.
Proof.
  intros Hm Ho. rewrite Intersects_has by done.
  setoid_rewrite <-(elem_of_holders m); [|done]. setoid_rewrite <-(elem_of_holders o); [|done].
  split; [set_solver|]. intros (s & Hs)%set_choose_L. exists s. set_solver.
Qed.

Lemma Subset_holders m o :
  wf_marks m → wf_marks o → Subset m o = true ↔ holders m ⊆ holders o.
Proof.
  intros Hm Ho. rewrite Subset_has by done. unfold subseteq, set_subseteq_instance.
  by setoid_rewrite elem_of_holders.
Qed.

Lemma Count_Add m s :
  wf_marks m → 0 ≤ s → Has m s = false → Count (Add m s) = Count m + 1.
Proof.
  intros Hwf Hs Hn. rewrite !Count_size, holders_Add by auto using Add_wf.
  rewrite size_union, size_singleton; [lia|].
  apply disjoint_singleton_l. rewrite elem_of_holders, Hn by done. done.
Qed.

Lemma Count_Remove m s :
  wf_marks m → Has m s = true → Count (Remove m s) = Count m - 1.
Proof.
  intros Hwf Hn%elem_of_holders; [|done].
  rewrite !Count_size, holders_Remove by auto using Remove_wf.
  assert ({[s]} ⊆ holders m) as Hsub by set_solver.
  pose proof (subseteq_size _ _ Hsub) as Hsz. rewrite size_singleton in Hsz.
  rewrite size_difference, size_singleton by done. lia.
Qed.

#[export] Hint Resolve Add_wf Remove_wf no_marks_wf : wekai.

(** [markSet], the bitmap of backend slots kept on every run of the prefix tree, refines
    a finite set of slots: every operation of markset.go, on well-formed vectors of 64-bit
    words of any length, keeps the vector well formed and computes the set operation it is
    named after ([Add] ignores a negative slot), and [Each] visits exactly the members, each
    once, in ascending order. *)
Theorem markset_refines_gset (m o : markSet) (s : Z) :
  wf_marks m → wf_marks o →
  (wf_marks (Add m s) ∧ holders (Add m s) = if s <? 0 then holders m else {[s]} ∪ holders m) ∧
  (wf_marks (Remove m s) ∧ holders (Remove m s) = holders m ∖ {[s]}) ∧
  (Has m s = true ↔ s ∈ holders m) ∧
  (Empty m = true ↔ holders m = ∅) ∧
  Count m = Z.of_nat (size (holders m)) ∧
  (Intersects m o = true ↔ holders m ∩ holders o ≠ ∅) ∧
  (Subset m o = true ↔ holders m ⊆ holders o) ∧
  holders (Clone m) = holders m ∧
  (∀ i j a b, (i < j)%nat → Each m !! i = Some a → Each m !! j = Some b → a < b).
Proof.
  intros Hm Ho. split_and!; auto with wekai.
  - destruct (Z.ltb_spec s 0); [|by apply holders_Add].
    unfold Add. by rewrite (proj2 (Z.ltb_lt s 0)).
  - by apply holders_Remove.
  - by rewrite elem_of_holders.
  - by apply Empty_holders.
  - by apply Count_size.
  - by apply Intersects_holders.
  - by apply Subset_holders.
  - by rewrite Clone_id.
  - intros i j a b Hij Ha Hb. rewrite Each_spec in Ha, Hb by done.
    eapply sorted_lookup_lt; [|exact Ha|exact Hb|exact Hij].
    apply StronglySorted_filter, seqZ_sorted.
Qed.

Lemma markset_refines_gset_witness :
  holders (Add (MarkSet [5]) 130) = {[130]} ∪ holders (MarkSet [5]).
Proof.
  refine (proj2 (proj1 (markset_refines_gset (MarkSet [5]) (MarkSet []) 130 _ _))).
  - constructor; [unfold two64; lia|constructor].
  - constructor.
Defined.
