(* ===== verification/KvUnits.v ===== *)
(** * KvUnits: the request's block sequence

    The pure part of [src/kvcache/kvcache.go]: what one hashed block of a request is, how
    raw content is cut into blocks, and how a matched prefix is scored.  SHA-256 is the
    standard library's; the definitions that hash take it as a parameter. *)

From stdpp Require Import base gmap list strings.
From Stdlib Require Import ZArith Lia.
From S2P Require Import Prelude.
Open Scope Z_scope.

(** A byte is a [Z] in [0, 256). *)
Abbreviation bytes := (list Z).

Record Unit_ := MkUnit { Hash : Z; Tokens : Z }.

#[export] Instance Unit_eq_dec : EqDecision Unit_.
Proof. solve_decision. Defined.
#[export] Instance Unit_inhabited : Inhabited Unit_ := populate (MkUnit 0 0).

Definition DefaultChunkBytes : Z := 1024.

(** [EstimateTokens(byteLen int) int32]: the conversion to [int32] wraps. *)
Definition EstimateTokens (byteLen : Z) : Z :=
  if byteLen <=? 0 then 0
  else let n := byteLen ÷ 4 in if 1 <=? n then i32 n else 1.

(** ** Coverage *)

Record Coverage :=
  MkCoverage { MatchedBlocks : Z; TotalBlocks : Z; MatchedTokens : Z; TotalTokens : Z }.

(** The accumulation loop of [Cover], at index [i] of the range over [units]. *)
Fixpoint Cover_loop (units : list Unit_) (i matched : Z) (c : Coverage) : Coverage :=
  match units with
  | [] => c
  | u :: us =>
      let c := MkCoverage (MatchedBlocks c) (TotalBlocks c)
                 (if i <? matched then MatchedTokens c + Tokens u else MatchedTokens c)
                 (TotalTokens c + Tokens u) in
      Cover_loop us (i + 1) matched c
  end.

Definition Cover (units : list Unit_) (matchedBlocks : Z) : Coverage :=
  let n := Z.of_nat (length units) in
  let matched := if matchedBlocks <? 0 then 0 else matchedBlocks in
  let matched := if n <? matched then n else matched in
  Cover_loop units 0 matched (MkCoverage matched n 0 0).

Definition MissingBlocks (c : Coverage) : Z := TotalBlocks c - MatchedBlocks c.
Definition MissingTokens (c : Coverage) : Z := TotalTokens c - MatchedTokens c.

Definition TokenFraction (c : Coverage) : float64 :=
  if TotalTokens c <=? 0 then f64_of_Z 0
  else f64_div (f64_of_Z (MatchedTokens c)) (f64_of_Z (TotalTokens c)).
Definition BlockFraction (c : Coverage) : float64 :=
  if TotalBlocks c <=? 0 then f64_of_Z 0
  else f64_div (f64_of_Z (MatchedBlocks c)) (f64_of_Z (TotalBlocks c)).

(** ** Hashing and chunking *)

(** [binary.BigEndian.PutUint32] and [Uint64]. *)
Definition PutUint32 (v : Z) : bytes :=
  [Z.shiftr v 24 mod 256; Z.shiftr v 16 mod 256; Z.shiftr v 8 mod 256; v mod 256].
Definition BigEndianUint64 (b : bytes) : Z := foldl (λ acc x, Z.lor (Z.shiftl acc 8) x) 0 (take 8 b).

Section hashing.
Context (sha256 : bytes → bytes).

(** The bytes [HashContent] feeds to SHA-256: the tag's length, the tag, the content. *)
Definition hash_preimage (tag content : bytes) : bytes :=
  PutUint32 (u32 (Z.of_nat (length tag))) ++ tag ++ content.

Definition HashContent (tag content : bytes) : Z :=
  BigEndianUint64 (sha256 (hash_preimage tag content)).

(** [strconv.ParseUint(s, 16, 64)] on sixteen characters: every one a hex digit. *)
Definition hex_digit (c : Z) : option Z :=
  if (48 <=? c) && (c <=? 57) then Some (c - 48)
  else if (97 <=? c) && (c <=? 102) then Some (c - 97 + 10)
  else if (65 <=? c) && (c <=? 70) then Some (c - 65 + 10)
  else None.
Fixpoint ParseHex (acc : Z) (s : bytes) : option Z :=
  match s with
  | [] => Some acc
  | c :: s => match hex_digit c with Some d => ParseHex (acc * 16 + d) s | None => None end
  end.

(** [s[i+1:]] after the last colon, or [s] itself. *)
Fixpoint after_last_colon (s : bytes) (acc : bytes) : bytes :=
  match s with
  | [] => acc
  | c :: s => if c =? 58 then after_last_colon s s else after_last_colon s acc
  end.

(** The tag ["label"]. *)
Definition label_tag : bytes := [108; 97; 98; 101; 108].

Definition HashLabel (s : bytes) : Z :=
  let hexPart := after_last_colon s s in
  if Nat.eqb (length hexPart) 16 then
    match ParseHex 0 hexPart with
    | Some v => v
    | None => HashContent label_tag s
    end
  else HashContent label_tag s.

(** The tag of every window but the first. *)
Definition cont_tag : bytes := [1; 99; 111; 110; 116].

(** The window loop of [ChunkContent]: [off] advances by [chunkBytes > 0], so [len(content)]
    rounds suffice. *)
Fixpoint ChunkContent_loop (fuel : nat) (tag content : bytes) (chunkBytes off : nat) : list Unit_ :=
  match fuel with
  | O => []
  | S f =>
      if decide (off < length content)%nat then
        let end_ := if decide (length content < off + chunkBytes)%nat
                    then length content else (off + chunkBytes)%nat in
        let chunk := take (end_ - off) (drop off content) in
        let t := if decide (0 < off)%nat then cont_tag else tag in
        MkUnit (HashContent t chunk) (EstimateTokens (Z.of_nat (length chunk)))
        :: ChunkContent_loop f tag content chunkBytes (off + chunkBytes)
      else []
  end.

Definition ChunkContent (tag content : bytes) (chunkBytes : Z) : list Unit_ :=
  let chunkBytes := if chunkBytes <=? 0 then DefaultChunkBytes else chunkBytes in
  match content with
  | [] => [MkUnit (HashContent tag []) 1]
  | _ => ChunkContent_loop (length content) tag content (Z.to_nat chunkBytes) 0
  end.

(** [for i, h := range hashes]: a missing token count is 0. *)
Fixpoint UnitsFromLabels (hashes : list bytes) (tokens : list Z) : list Unit_ :=
  match hashes with
  | [] => []
  | h :: hs => MkUnit (HashLabel h) (i32 (default 0 (head tokens))) :: UnitsFromLabels hs (tail tokens)
  end.
End hashing.

(** ** Lemmas *)

Definition sum_tokens (us : list Unit_) : Z := foldr (λ u acc, Tokens u + acc) 0 us.

Lemma sum_tokens_app a b : sum_tokens (a ++ b) = sum_tokens a + sum_tokens b.
Proof. unfold sum_tokens. induction a as [|u a IH]; simpl; [done|]. lia. Qed.

Lemma sum_tokens_nonneg us : (∀ u, u ∈ us → 0 ≤ Tokens u) → 0 ≤ sum_tokens us.
Proof.
  induction us as [|u us IH]; intros H; simpl; [done|].
  pose proof (H u (list_elem_of_here _ _)).
  assert (0 ≤ sum_tokens us); [|lia]. apply IH. intros. apply H. by right.
Qed.

Lemma EstimateTokens_bounds n :
  0 ≤ n < 4 * two31 → 0 ≤ EstimateTokens n ≤ Z.max 1 (n / 4) ∧ (0 < n → 1 ≤ EstimateTokens n).
Proof.
  intros Hn. unfold EstimateTokens. destruct (Z.leb_spec n 0).
  { assert (n = 0) as -> by lia. cbn. lia. }
  rewrite Z.quot_div_nonneg by lia. assert (n / 4 < two31) by (apply Z.div_lt_upper_bound; lia).
  destruct (Z.leb_spec 1 (n / 4)); [|lia]. rewrite i32_id; [lia|]. unfold two31 in *. lia.
Qed.

Lemma Cover_loop_spec units i k c :
  Cover_loop units i k c =
  MkCoverage (MatchedBlocks c) (TotalBlocks c)
    (MatchedTokens c + sum_tokens (take (Z.to_nat (k - i)) units))
    (TotalTokens c + sum_tokens units).
Proof.
  revert i c. induction units as [|u us IH]; intros i c; cbn [Cover_loop].
  - rewrite take_nil. simpl. rewrite !Z.add_0_r. by destruct c.
  - rewrite IH. cbn. destruct (Z.ltb_spec i k).
    + replace (Z.to_nat (k - i)) with (S (Z.to_nat (k - (i + 1)))) by lia.
      unfold sum_tokens. cbn. f_equal; lia.
    + replace (Z.to_nat (k - i)) with O by lia. replace (Z.to_nat (k - (i + 1))) with O by lia.
      unfold sum_tokens. cbn. f_equal; lia.
Qed.

Lemma PutUint32_length v : length (PutUint32 v) = 4%nat.
Proof. done. Qed.

Lemma four_bytes v :
  0 ≤ v < two32 →
  v = (v / 16777216 mod 256) * 16777216 + (v / 65536 mod 256) * 65536
      + (v / 256 mod 256) * 256 + v mod 256.
Proof.
  intros Hv. unfold two32 in Hv.
  assert (v / 65536 = v / 256 / 256) as -> by (by rewrite Z.div_div by lia).
  assert (v / 16777216 = v / 256 / 256 / 256) as -> by (by rewrite !Z.div_div by lia).
  pose proof (Z.div_mod v 256 ltac:(lia)).
  pose proof (Z.div_mod (v / 256) 256 ltac:(lia)).
  pose proof (Z.div_mod (v / 256 / 256) 256 ltac:(lia)).
  rewrite (Z.mod_small (v / 256 / 256 / 256) 256); [lia|].
  rewrite !Z.div_div by lia. split; [apply Z.div_pos; lia|apply Z.div_lt_upper_bound; lia].
Qed.

Lemma PutUint32_inj a b :
  0 ≤ a < two32 → 0 ≤ b < two32 → PutUint32 a = PutUint32 b → a = b.
Proof.
  unfold PutUint32. rewrite !Z.shiftr_div_pow2 by lia.
  change (2 ^ 24) with 16777216. change (2 ^ 16) with 65536. change (2 ^ 8) with 256.
  intros Ha Hb H. injection H as H1 H2 H3 H4.
  rewrite (four_bytes a Ha), (four_bytes b Hb). congruence.
Qed.

(** what [HashContent] hashes is unambiguous: two (tag, content) pairs whose tags are
    shorter than 4 GiB are hashed over the same bytes only when tag and content both agree, so
    no caller-chosen content can imitate another tag's input. *)
Theorem hash_preimage_unambiguous (t1 t2 c1 c2 : bytes) :
  Z.of_nat (length t1) < two32 → Z.of_nat (length t2) < two32 →
  hash_preimage t1 c1 = hash_preimage t2 c2 → t1 = t2 ∧ c1 = c2.
Proof.
  intros H1 H2 H. unfold hash_preimage in H. apply app_inj_1 in H as [Hl H]; [|done].
  assert (length t1 = length t2) as Hlen.
  { apply PutUint32_inj in Hl; unfold u32 in *; rewrite ?Z.mod_small in * by lia; lia. }
  by apply app_inj_1 in H.
Qed.

Lemma hash_preimage_unambiguous_witness : cont_tag = [1; 99; 111; 110; 116] ∧ [88] = [88].
Proof. apply hash_preimage_unambiguous; reflexivity. Defined.

(** ** Chunking *)

Section chunking.
Context (sha256 : bytes → bytes).

(** The [j]-th window of [content] and the unit it becomes. *)
Definition window (content : bytes) (cb j : nat) : bytes := take cb (drop (j * cb) content).
Definition window_unit (tag content : bytes) (cb j : nat) : Unit_ :=
  MkUnit (HashContent sha256 (if decide (0 < j)%nat then cont_tag else tag) (window content cb j))
         (EstimateTokens (Z.of_nat (length (window content cb j)))).

Lemma ChunkContent_loop_lookup fuel tag content cb j0 j :
  (0 < cb)%nat → (length content ≤ fuel + j0 * cb)%nat →
  ChunkContent_loop sha256 fuel tag content cb (j0 * cb) !! j =
  if decide ((j0 + j) * cb < length content)%nat
  then Some (window_unit tag content cb (j0 + j)) else None.
Proof.
  intros Hcb. revert j0 j. induction fuel as [|f IH]; intros j0 j Hf; cbn [ChunkContent_loop].
  - rewrite decide_False by nia. done.
  - case_decide as Hoff; [|rewrite decide_False by nia; done].
    rewrite lookup_cons. destruct j as [|j].
    + rewrite (Nat.add_0_r j0).
      destruct (decide (j0 * cb < length content)%nat) as [_|]; [|done]. unfold window_unit, window. f_equal.
      assert (
        take (if decide (length content < j0 * cb + cb)%nat then length content - j0 * cb else cb)%nat
          (drop (j0 * cb) content) = take cb (drop (j0 * cb) content)) as Htake.
      { case_decide; [|done]. rewrite !take_ge; [done|..]; rewrite length_drop; lia. }
      replace ((if decide (length content < j0 * cb + cb)%nat then length content
                else (j0 * cb + cb)%nat) - j0 * cb)%nat
        with (if decide (length content < j0 * cb + cb)%nat then length content - j0 * cb else cb)%nat
        by (case_decide; lia).
      rewrite Htake. do 3 f_equal.
      destruct (decide (0 < j0 * cb)%nat), (decide (0 < j0)%nat); (done || nia).
    + replace (j0 * cb + cb)%nat with (S j0 * cb)%nat by lia.
      rewrite (IH (S j0) j) by lia. by replace (S j0 + j)%nat with (j0 + S j)%nat by lia.
Qed.

Lemma ChunkContent_lookup tag content cb j :
  0 < cb → content ≠ [] →
  ChunkContent sha256 tag content cb !! j =
  if decide (j * Z.to_nat cb < length content)%nat
  then Some (window_unit tag content (Z.to_nat cb) j) else None.
Proof.
  intros Hcb Hne. unfold ChunkContent. rewrite (proj2 (Z.leb_gt cb 0)) by lia.
  destruct content as [|c content]; [done|].
  apply (ChunkContent_loop_lookup _ tag (c :: content) (Z.to_nat cb) 0 j); lia.
Qed.

(** chunking preserves shared prefixes: for any tag, any window size and any SHA-256, two
    contents that agree on their first [k] whole windows produce the same first [k] units,
    whatever follows, and there are at least [k] units; the loop always reaches the end of
    the content. *)
Theorem chunk_prefix_stable (tag a b : bytes) (cb : Z) (k : nat) :
  0 < cb → (k * Z.to_nat cb ≤ length a)%nat → (k * Z.to_nat cb ≤ length b)%nat →
  take (k * Z.to_nat cb) a = take (k * Z.to_nat cb) b → (0 < k)%nat →
  take k (ChunkContent sha256 tag a cb) = take k (ChunkContent sha256 tag b cb) ∧
  (k ≤ length (ChunkContent sha256 tag a cb))%nat.
Proof.
  intros Hcb Ha Hb Hab Hk. assert (a ≠ []) by (intros ->; simpl in Ha; nia).
  assert (b ≠ []) by (intros ->; simpl in Hb; nia). split.
  - apply list_eq. intros j. destruct (decide (j < k)%nat) as [Hj|Hj];
      [|rewrite !lookup_take_ge by lia; done].
    rewrite !lookup_take_lt, !ChunkContent_lookup by done.
    rewrite !decide_True by nia. unfold window_unit.
    assert (window a (Z.to_nat cb) j = window b (Z.to_nat cb) j) as ->; [|done].
    unfold window. set (n := Z.to_nat cb) in *.
    assert (Htd : ∀ l : bytes, take n (drop (j * n) l) = take n (drop (j * n) (take (k * n) l))).
    { intros l. rewrite !take_drop_commute, take_take. do 2 f_equal. nia. }
    by rewrite (Htd a), (Htd b), Hab.
  - destruct k as [|k]; [lia|]. apply lookup_lt_is_Some.
    rewrite ChunkContent_lookup, decide_True by (done || nia). eauto.
Qed.
End chunking.

Lemma chunk_prefix_stable_witness :
  take 1 (ChunkContent (λ b, b) [7] [1; 2; 3; 4] 2) = take 1 (ChunkContent (λ b, b) [7] [1; 2; 9] 2) ∧
  (1 ≤ length (ChunkContent (λ b, b) [7] [1; 2; 3; 4] 2)%Z)%nat.
Proof. apply (chunk_prefix_stable (λ b, b) [7]%Z [1; 2; 3; 4]%Z [1; 2; 9]%Z 2%Z 1%nat); [reflexivity | simpl; lia | simpl; lia | reflexivity | lia]. Defined.

(** [Cover] scores a walk exactly: the matched block count is clamped to the request, the
    token totals are the sums over the matched prefix and over the whole request, and with
    non-negative token counts the missing work lies between 0 and the total, shrinking as more
    blocks match. *)
Theorem cover_exact (units : list Unit_) (k : Z) :
  let c := Cover units k in
  let m := Z.to_nat (Z.min (Z.max k 0) (Z.of_nat (length units))) in
  MatchedBlocks c = Z.of_nat m ∧ TotalBlocks c = Z.of_nat (length units) ∧
  MatchedTokens c = sum_tokens (take m units) ∧ TotalTokens c = sum_tokens units ∧
  MissingBlocks c = Z.of_nat (length (drop m units)) ∧
  MissingTokens c = sum_tokens (drop m units) ∧
  ((∀ u, u ∈ units → 0 ≤ Tokens u) → 0 ≤ MissingTokens c ≤ TotalTokens c).
Proof.
  intros c m. unfold c, Cover. rewrite Cover_loop_spec. cbn [MatchedBlocks TotalBlocks].
  set (k' := if Z.of_nat (length units) <? (if k <? 0 then 0 else k)
             then Z.of_nat (length units) else if k <? 0 then 0 else k).
  assert (k' = Z.of_nat m) as Hk'.
  { unfold k', m. destruct (Z.ltb_spec k 0); case_match; bool_props; lia. }
  assert (Z.to_nat (k' - 0) = m) as Hm by lia. rewrite Hm.
  clearbody k'. subst k'. unfold MissingBlocks, MissingTokens.
  cbn [MatchedBlocks TotalBlocks MatchedTokens TotalTokens].
  assert (m ≤ length units)%nat by (unfold m; lia).
  pose proof (sum_tokens_app (take m units) (drop m units)) as Happ.
  rewrite take_drop in Happ. rewrite length_drop. split_and!; try lia.
  intros Hnn.
  assert (0 ≤ sum_tokens (take m units)).
  { apply sum_tokens_nonneg. intros u Hu. apply Hnn. by eapply subseteq_take. }
  assert (0 ≤ sum_tokens (drop m units)); [|lia].
  apply sum_tokens_nonneg. intros u Hu. apply Hnn. by eapply subseteq_drop.
Qed.
