(* ===== verification/AffinityTree.v ===== *)
(** * AffinityTree: the shared prefix forest and the backends that hold it

    [src/router/internal/policy/affinity/tree.go], as the code has it: runs are objects of a
    store addressed by pointers, with parent pointers, sorted child slices and the set of
    childless runs kept on the side.  One shard has its own store, since no run of one shard
    is ever reachable from another. *)

From stdpp Require Import base gmap sets list strings sorting.
From Stdlib Require Import ZArith Lia.
From S2P Require Import Prelude MarkSet KvUnits.
Open Scope Z_scope.

Abbreviation loc := positive.

(** ** Data *)

Definition numShards : nat := 16.

(** One radix-compressed segment.  A sentinel (model root) has no hashes and no parent. *)
Record run := Run {
  hashes : list Z;
  tokens : list Z;
  parent : option loc;
  kids : list loc;
  marks : markSet;
  lastUsed : Z;
  traffic : Z;
}.

Definition nil_run : run := Run [] [] None [] no_marks 0 0.
#[export] Instance run_inhabited : Inhabited run := populate nil_run.

Record shard := Shard {
  store : gmap loc run;
  fresh : loc;
  roots : gmap Z loc;
  tails : gset loc;
  runs : Z;
  blocks_total : Z;
  copies : Z;
  expired : Z;
}.

Definition empty_shard : shard := Shard ∅ 1%positive ∅ ∅ 0 0 0 0.

Record tree := Tree {
  ttl : Z;
  shards : list shard;
  slots : gmap string Z;
  free : list Z;
  nextSl : Z;
}.

(** Field updates. *)
Definition set_kids (ks : list loc) (r : run) : run :=
  Run (hashes r) (tokens r) (parent r) ks (marks r) (lastUsed r) (traffic r).
Definition set_parent (p : option loc) (r : run) : run :=
  Run (hashes r) (tokens r) p (kids r) (marks r) (lastUsed r) (traffic r).
Definition set_marks (m : markSet) (r : run) : run :=
  Run (hashes r) (tokens r) (parent r) (kids r) m (lastUsed r) (traffic r).
Definition set_blocks (hs ts : list Z) (r : run) : run :=
  Run hs ts (parent r) (kids r) (marks r) (lastUsed r) (traffic r).
(** [lastUsed, traffic = now, traffic+1]; [traffic] is a [uint64]. *)
Definition touch (now : Z) (r : run) : run :=
  Run (hashes r) (tokens r) (parent r) (kids r) (marks r) now (u64 (traffic r + 1)).

Definition upd (l : loc) (f : run → run) (s : shard) : shard :=
  Shard (alter f l (store s)) (fresh s) (roots s) (tails s) (runs s) (blocks_total s) (copies s) (expired s).
(** [&run{...}]. *)
Definition alloc (r : run) (s : shard) : loc * shard :=
  (fresh s, Shard (<[fresh s := r]> (store s)) (Pos.succ (fresh s)) (roots s) (tails s)
                  (runs s) (blocks_total s) (copies s) (expired s)).
Definition set_roots (m : gmap Z loc) (s : shard) : shard :=
  Shard (store s) (fresh s) m (tails s) (runs s) (blocks_total s) (copies s) (expired s).
Definition set_tails (t : gset loc) (s : shard) : shard :=
  Shard (store s) (fresh s) (roots s) t (runs s) (blocks_total s) (copies s) (expired s).
Definition add_counts (dr db dc de : Z) (s : shard) : shard :=
  Shard (store s) (fresh s) (roots s) (tails s) (runs s + dr) (blocks_total s + db) (copies s + dc) (expired s + de).

(** Dereferences: [*l], and the run's length in blocks. *)
Definition deref (s : shard) (l : loc) : run := store s !!! l.
Definition blocks (r : run) : Z := Z.of_nat (length (hashes r)).
Definition nblocks (r : run) : nat := length (hashes r).

(** [l.hashes[0]], the key a run is filed under. *)
Definition key (h : gmap loc run) (l : loc) : Z := default 0 (head (hashes (h !!! l))).
Definition kid_keys (h : gmap loc run) (r : run) : list Z := key h <$> kids r.

(** ** The child slice *)

Definition find (st : gmap loc run) (r : loc) (h : Z) : option loc :=
  let ks := kids (st !!! r) in
  let lo := lower_bound (kid_keys st (st !!! r)) h in
  match ks !! lo with
  | Some k => if key st k =? h then Some k else None
  | None => None
  end.

Definition link (r c : loc) (s : shard) : shard :=
  let h := key (store s) c in
  let lo := lower_bound (kid_keys (store s) (deref s r)) h in
  upd c (set_parent (Some r)) (upd r (λ x, set_kids (insert_at lo c (kids x)) x) s).

Definition unlink (r : loc) (h : Z) (s : shard) : shard :=
  let lo := lower_bound (kid_keys (store s) (deref s r)) h in
  match kids (deref s r) !! lo with
  | Some k => if key (store s) k =? h
              then upd r (λ x, set_kids (delete lo (kids x)) x) s else s
  | None => s
  end.

(** ** Paths *)

Record path := Path { units : list Unit_; modelKey : Z }.

Definition path_hashes (p : path) : list Z := Hash <$> units p.

(** splitmix64's finalizer over [units[0].Hash ^ modelKey]. *)
Definition shardKey (p : path) : Z :=
  let h := Z.lxor (Hash (units p !!! 0%nat)) (modelKey p) in
  let h := Z.lxor h (Z.shiftr h 30) in
  let h := u64 (h * 13787848793156543929) in
  let h := Z.lxor h (Z.shiftr h 27) in
  let h := u64 (h * 10723151780598845931) in
  Z.lxor h (Z.shiftr h 31).

Definition newTree (ttl : Z) : tree := Tree ttl (replicate numShards empty_shard) ∅ [] 0.

Definition shardFor (p : path) : nat := Z.to_nat (shardKey p mod Z.of_nat numShards).

(** [for k, v := range s.roots { if v == r { delete; return } }]. *)
Definition dropRoot (r : loc) (s : shard) : shard :=
  match list_find (λ kv, kv.2 = r) (map_to_list (roots s)) with
  | Some (_, (k, _)) => set_roots (delete k (roots s)) s
  | None => s
  end.

(** ** Slots *)

Definition slotFor (url : string) (t : tree) : Z * tree :=
  match slots t !! url with
  | Some s => (s, t)
  | None =>
      match last (free t) with
      | Some s => (s, Tree (ttl t) (shards t) (<[url := s]> (slots t)) (removelast (free t)) (nextSl t))
      | None => let s := nextSl t in
                (s, Tree (ttl t) (shards t) (<[url := s]> (slots t)) (free t) (s + 1))
      end
  end.

Definition slot (url : string) (t : tree) : option Z := slots t !! url.

Definition slotOrCreate (url : string) (t : tree) : Z * tree :=
  match slot url t with Some s => (s, t) | None => slotFor url t end.

(** ** Walking *)

(** [for m < child.blocks() && i+m < n && child.hashes[m] == p.hash(i+m) { m++ }]. *)
Fixpoint matched_len (hs rest : list Z) : nat :=
  match hs, rest with
  | h :: hs, x :: rest => if h =? x then S (matched_len hs rest) else O
  | _, _ => O
  end.

Record anchors := Anchors {
  pool : markSet;
  held : markSet;
  matched : Z;
  anchorBlocks : Z;
  heldBlocks : Z;
  availDeepest : bool;
}.

(** The loop of [walk]: one round per run met, each consuming at least one block, so [len(p)]
    rounds suffice.  [avail] and [marked] carry the run and the depth it was met at. *)
Fixpoint walk_loop (fuel : nat) (st : gmap loc run) (p : list Z) (cands : markSet)
    (cur : loc) (i : nat) (avail marked : option (loc * nat)) :
    nat * option (loc * nat) * option (loc * nat) :=
  match fuel with
  | O => (i, avail, marked)
  | S f =>
      match drop i p with
      | [] => (i, avail, marked)
      | x :: _ =>
          match find st cur x with
          | None => (i, avail, marked)
          | Some c =>
              let child := st !!! c in
              let m := matched_len (hashes child) (drop i p) in
              let '(avail, marked) :=
                if Empty (marks child) then (avail, marked)
                else (if Intersects (marks child) cands then Some (c, (i + m)%nat) else avail,
                      Some (c, (i + m)%nat)) in
              if decide (m < nblocks child)%nat then ((i + m)%nat, avail, marked)
              else walk_loop f st p cands c (i + m) avail marked
          end
      end
  end.

Definition walk (s : shard) (p : path) (cands : markSet) : anchors :=
  match roots s !! modelKey p with
  | None => Anchors no_marks no_marks 0 0 0 false
  | Some root =>
      let hs := path_hashes p in
      let '(i, avail, marked) := walk_loop (length hs) (store s) hs cands root 0 None None in
      let marks_of := λ o : option (loc * nat),
        match o with Some (l, _) => Clone (marks (deref s l)) | None => no_marks end in
      let at_of := λ o : option (loc * nat), match o with Some (_, n) => Z.of_nat n | None => 0 end in
      Anchors (marks_of avail) (marks_of marked) (Z.of_nat i) (at_of avail) (at_of marked)
        (match avail, marked with Some (a, _), Some (b, _) => Pos.eqb a b | _, _ => false end)
  end.

(** [heldTokens]: for each slot, the tokens of the prefix that backend holds.  [out] is the
    result slice, index-aligned with [slots]. *)
Fixpoint heldTokens_loop (fuel : nat) (st : gmap loc run) (p : list Unit_) (sl : list Z)
    (cur : loc) (i : nat) (cum : Z) (out : list Z) : list Z :=
  match fuel with
  | O => out
  | S f =>
      match drop i p with
      | [] => out
      | u :: _ =>
          match find st cur (Hash u) with
          | None => out
          | Some c =>
              let child := st !!! c in
              let m := matched_len (hashes child) (Hash <$> drop i p) in
              let cum := cum + sum_tokens (take m (drop i p)) in
              let out := zip_with (λ s o, if Has (marks child) s then cum else o) sl out in
              if decide (m < nblocks child)%nat then out
              else heldTokens_loop f st p sl c (i + m) cum out
          end
      end
  end.

Definition heldTokens (s : shard) (p : path) (sl : list Z) : list Z :=
  let out := replicate (length sl) 0 in
  match roots s !! modelKey p with
  | None => out
  | Some root => heldTokens_loop (length (units p)) (store s) (units p) sl root 0 0 out
  end.

(** ** Committing *)

(** [splitRun]: cut [r] after [m] blocks; the new upper half takes its place. *)
Definition splitRun (r : loc) (m : nat) (s : shard) : loc * shard :=
  match parent (deref s r) with
  | None => (r, s) (* a nil dereference in the source; [r] always has a parent *)
  | Some p =>
      let s := unlink p (key (store s) r) s in
      let x := deref s r in
      let '(upper, s) := alloc (Run (take m (hashes x)) (take m (tokens x)) None []
                                   (Clone (marks x)) (lastUsed x) (traffic x)) s in
      let s := upd r (λ x, set_blocks (drop m (hashes x)) (drop m (tokens x)) x) s in
      let s := link p upper s in
      let s := link upper r s in
      (upper, add_counts 1 0 0 0 s)
  end.

(** The body of the branch that extends a private tail in place. *)
Definition extendTail (cur : loc) (rest : list Unit_) (now : Z) (s : shard) : shard :=
  let s := upd cur (λ x, set_blocks (hashes x ++ (Hash <$> rest)) (tokens x ++ (Tokens <$> rest)) x) s in
  let added := Z.of_nat (length rest) in
  upd cur (touch now) (add_counts 0 added added 0 s).

(** The body of the branch that hangs a new run under [cur]. *)
Definition growRun (cur : loc) (rest : list Unit_) (slot now : Z) (s : shard) : shard :=
  let '(nr, s) := alloc (Run (Hash <$> rest) (Tokens <$> rest) None [] (Add no_marks slot) now 1) s in
  let s := link cur nr s in
  let s := set_tails ((tails s ∖ {[cur]}) ∪ {[nr]}) s in
  add_counts 1 (blocks (deref s nr)) (blocks (deref s nr)) 0 s.

(** Marking one fully matched run. *)
Definition markRun (c : loc) (slot now : Z) (s : shard) : shard :=
  let s := if Has (marks (deref s c)) slot then s
           else let s := upd c (λ x, set_marks (Add (marks x) slot) x) s in
                add_counts 0 0 (blocks (deref s c)) 0 s in
  upd c (touch now) s.

(** The loop of [commit] over the blocks from index [i]; [len(p)] rounds suffice. *)
Fixpoint commit_loop (fuel : nat) (p : list Unit_) (slot now : Z) (cur : loc) (i : nat)
    (hit : Z) (broken : bool) (s : shard) : Z * shard :=
  match fuel with
  | O => (hit, s)
  | S f =>
      match drop i p with
      | [] => (hit, s)
      | u :: _ =>
          match find (store s) cur (Hash u) with
          | None =>
              let x := deref s cur in
              if bool_decide (parent x ≠ None) && bool_decide (kids x = [])
                 && (Count (marks x) =? 1) && Has (marks x) slot
              then (hit, extendTail cur (drop i p) now s)
              else (hit, growRun cur (drop i p) slot now s)
          | Some child =>
              let m := matched_len (hashes (deref s child)) (Hash <$> drop i p) in
              let '(child, s) := if decide (m < nblocks (deref s child))%nat
                                 then splitRun child m s else (child, s) in
              let has := Has (marks (deref s child)) slot in
              let '(hit, broken) :=
                if broken then (hit, broken)
                else if has then (hit + Z.of_nat m, broken) else (hit, true) in
              commit_loop f p slot now child (i + m) hit broken (markRun child slot now s)
          end
      end
  end.

Definition commit (p : path) (slot now : Z) (s : shard) : Z * shard :=
  let '(root, s) :=
    match roots s !! modelKey p with
    | Some root => (root, s)
    | None => let '(root, s) := alloc nil_run s in
              (root, set_roots (<[modelKey p := root]> (roots s)) s)
    end in
  commit_loop (length (units p)) (units p) slot now root 0 0 false s.

(** ** Eviction *)

Definition unlinkRun (r : loc) (s : shard) : option loc * shard :=
  let n := blocks (deref s r) in
  let s := add_counts (-1) (- n) (- (n * Count (marks (deref s r)))) n s in
  match parent (deref s r) with
  | None => (None, s) (* a nil dereference in the source *)
  | Some p =>
      let s := unlink p (key (store s) r) s in
      let s := set_tails (tails s ∖ {[r]}) s in
      let s := upd r (set_parent None) s in
      let x := deref s p in
      match parent x with
      | None => (None, if decide (kids x = []) then dropRoot p s else s)
      | Some _ => (Some p, if decide (kids x = []) then set_tails (tails s ∪ {[p]}) s else s)
      end
  end.

Definition maxCascade : nat := 4096.

(** [evictTail]: the cascade loop, at most [maxCascade] rounds. *)
Fixpoint evictTail_loop (depth : nat) (r : loc) (now ttl freed : Z) (s : shard) : Z * shard :=
  match depth with
  | O => (freed, s)
  | S d =>
      let x := deref s r in
      match parent x with
      | None => (freed, s)
      | Some _ =>
          if decide (kids x ≠ []) then (freed, s)
          else
            let freed := freed + blocks x in
            let '(p, s) := unlinkRun r s in
            match p with
            | None => (freed, s)
            | Some p =>
                if bool_decide (kids (deref s p) ≠ []) || (now - lastUsed (deref s p) <=? ttl)
                then (freed, s)
                else evictTail_loop d p now ttl freed s
            end
      end
  end.
Definition evictTail (r : loc) (now ttl : Z) (s : shard) : Z * shard :=
  evictTail_loop maxCascade r now ttl 0 s.

(** [clearSlot] recurses over the subtree; a subtree is at most as deep as the store is
    large. *)
Definition clearOne (slot : Z) (l : loc) (s : shard) : shard :=
  let x := deref s l in
  if bool_decide (parent x ≠ None) && Has (marks x) slot
  then add_counts 0 0 (- blocks x) 0 (upd l (λ x, set_marks (Remove (marks x) slot) x) s)
  else s.
Fixpoint clearSlot (fuel : nat) (slot : Z) (l : loc) (s : shard) : shard :=
  match fuel with
  | O => s
  | S f => let s := clearOne slot l s in
           foldl (λ s k, clearSlot f slot k s) s (kids (deref s l))
  end.

(** ** Whole-tree operations

    Go ranges over the [tails] map in an unspecified order.  [order] is the order one run of
    the program happens to use; everything proved holds for each. *)
Section order.
Context (order : gset loc → list loc).

(** One pass of [evictOrphans]. *)
Definition dead_orphans (s : shard) : list loc :=
  filter (λ l, Empty (marks (deref s l)) = true) (order (tails s)).
Fixpoint evictOrphans_loop (fuel : nat) (s : shard) : shard :=
  match fuel with
  | O => s
  | S f => match dead_orphans s with
           | [] => s
           | dead => evictOrphans_loop f (foldl (λ s l, (unlinkRun l s).2) s dead)
           end
  end.
(** Each pass unlinks a run, so one pass more than there are runs always reaches the return. *)
Definition evictOrphans (s : shard) : shard := evictOrphans_loop (S (size (store s))) s.

Definition dropBackend_shard (slot : Z) (s : shard) : shard :=
  let s := foldl (λ s root, clearSlot (size (store s)) slot root s) s (map_to_list (roots s)).*2 in
  evictOrphans s.

Definition dropBackend (url : string) (t : tree) : tree :=
  match slots t !! url with
  | None => t
  | Some s =>
      let t := Tree (ttl t) (shards t) (delete url (slots t)) (free t) (nextSl t) in
      let t := Tree (ttl t) (dropBackend_shard s <$> shards t) (slots t) (free t) (nextSl t) in
      Tree (ttl t) (shards t) (slots t) (free t ++ [s]) (nextSl t)
  end.

(** The body of [sweep] for one shard. *)
Definition sweep_shard (now ttl : Z) (s : shard) : Z * shard :=
  let dead := filter (λ l, ttl < now - lastUsed (deref s l)) (order (tails s)) in
  foldl (λ '(freed, s) l, let '(n, s) := evictTail l now ttl s in (freed + n, s)) (0, s) dead.

Definition sweep (now : Z) (t : tree) : Z * tree :=
  let rs := sweep_shard now (ttl t) <$> shards t in
  (foldr Z.add 0 rs.*1, Tree (ttl t) rs.*2 (slots t) (free t) (nextSl t)).
End order.

(** ** Statistics and reset *)

Record treeStats := TreeStats { Runs : Z; Blocks : Z; Tails : Z; Expired : Z; AvgCopies : float64 }.

Definition stats (t : tree) : treeStats :=
  let sum f := foldr (λ s acc, f s + acc) 0 (shards t) in
  let b := sum blocks_total in
  TreeStats (sum runs) b (sum (λ s, Z.of_nat (size (tails s)))) (sum expired)
    (if 0 <? b then f64_div (f64_of_Z (sum copies)) (f64_of_Z b) else f64_of_Z 0).

Definition flush (t : tree) : tree :=
  Tree (ttl t) ((λ s, Shard ∅ (fresh s) ∅ ∅ 0 0 0 (expired s)) <$> shards t) (slots t) (free t) (nextSl t).

(** [walk] and [commit] on the shard the path falls in. *)
Definition tree_walk (t : tree) (p : path) (cands : markSet) : anchors :=
  walk (default empty_shard (shards t !! shardFor p)) p cands.
Definition tree_commit (p : path) (slot now : Z) (t : tree) : Z * tree :=
  let '(hit, s) := commit p slot now (default empty_shard (shards t !! shardFor p)) in
  (hit, Tree (ttl t) (<[shardFor p := s]> (shards t)) (slots t) (free t) (nextSl t)).
