(* ===== verification/TreeWf.v ===== *)
(** * TreeWf: well-formedness of the affinity forest, and paths through it

    The structural invariant of a shard's store, the reference walk [locate] that reads a
    block path one block at a time, and what each primitive update of the store does to
    both.  [AffinityTree]'s operations are compositions of these updates. *)

From stdpp Require Import base gmap sets list strings sorting.
From Stdlib Require Import ZArith Lia.
From S2P Require Import Prelude MarkSet KvUnits AffinityTree.
Open Scope Z_scope.

(** ** The invariant *)

Record heap_wf (h : gmap loc run) : Prop := {
  hw_up l r p : h !! l = Some r → parent r = Some p → ∃ rp, h !! p = Some rp ∧ l ∈ kids rp;
  hw_down p rp l : h !! p = Some rp → l ∈ kids rp → ∃ r, h !! l = Some r ∧ parent r = Some p;
  hw_sorted p rp : h !! p = Some rp → StronglySorted Z.lt (kid_keys h rp);
  hw_run l r : h !! l = Some r → parent r ≠ None →
    hashes r ≠ [] ∧ length (tokens r) = length (hashes r);
  hw_marks l r : h !! l = Some r → wf_marks (marks r);
  hw_irrefl l r : h !! l = Some r → parent r ≠ Some l;
  hw_sub l r p rp s : h !! l = Some r → parent r = Some p → h !! p = Some rp →
    parent rp ≠ None → Has (marks r) s = true → Has (marks rp) s = true;
}.

(** ** The reference walk

    A position is a run and the number of its blocks already read. *)

Definition step (h : gmap loc run) (pos : loc * nat) (x : Z) : option (loc * nat) :=
  match hashes (h !!! pos.1) !! pos.2 with
  | Some y => if x =? y then Some (pos.1, S pos.2) else None
  | None => c ← find h pos.1 x; Some (c, 1%nat)
  end.

Definition locate (h : gmap loc run) (root : loc) (q : list Z) : option (loc * nat) :=
  foldl (λ o x, o ≫= λ pos, step h pos x) (Some (root, 0%nat)) q.

Definition is_root (h : gmap loc run) (l : loc) : Prop :=
  ∃ r, h !! l = Some r ∧ parent r = None ∧ hashes r = [].

(** Positions reached by reading blocks: inside a run, past its first block. *)
Definition ok_pos (h : gmap loc run) (root : loc) (pos : loc * nat) : Prop :=
  (pos = (root, 0%nat)) ∨
  ∃ r, h !! pos.1 = Some r ∧ parent r ≠ None ∧ (1 ≤ pos.2 ≤ nblocks r)%nat.

Lemma deref_Some (h : gmap loc run) l r : h !! l = Some r → h !!! l = r.
Proof. apply lookup_total_correct. Qed.

Lemma locate_snoc h root q x : locate h root (q ++ [x]) = locate h root q ≫= λ pos, step h pos x.
Proof. unfold locate. by rewrite foldl_app. Qed.

Lemma locate_app h root q1 q2 :
  locate h root (q1 ++ q2) = foldl (λ o x, o ≫= λ pos, step h pos x) (locate h root q1) q2.
Proof. unfold locate. by rewrite foldl_app. Qed.

Lemma locate_prefix_Some h root q1 q2 pos :
  locate h root (q1 ++ q2) = Some pos → is_Some (locate h root q1).
Proof.
  revert pos. induction q2 as [|x q2 IH] using rev_ind; intros pos H.
  - rewrite app_nil_r in H. eauto.
  - rewrite app_assoc, locate_snoc in H. destruct (locate h root (q1 ++ q2)) eqn:E; [|done].
    eauto.
Qed.

(** ** The child slice *)

Section find.
Context (h : gmap loc run) (Hwf : heap_wf h).

Lemma kids_NoDup p rp : h !! p = Some rp → NoDup (kids rp).
Proof.
  intros Hp. apply (NoDup_fmap_1 (key h)). apply sorted_NoDup. by apply (hw_sorted h Hwf p).
Qed.

(** The binary search finds a child exactly when it is there. *)
Lemma find_Some p rp x c :
  h !! p = Some rp → find h p x = Some c ↔ c ∈ kids rp ∧ key h c = x.
Proof.
  intros Hp. unfold find. rewrite (deref_Some _ _ _ Hp).
  pose proof (hw_sorted h Hwf p rp Hp) as Hs. split.
  - destruct (kids rp !! _) as [k|] eqn:E; [|done].
    destruct (key h k =? x) eqn:Ek; [|done]. intros [= ->]. bool_props.
    split; [|done]. by eapply list_elem_of_lookup_2.
  - intros [[i Hi]%list_elem_of_lookup Hk].
    assert (kid_keys h rp !! i = Some x) as Hki
      by (unfold kid_keys; rewrite list_lookup_fmap, Hi; by f_equal/=).
    rewrite (lower_bound_hit _ _ i Hs Hki), Hi, Hk. by rewrite Z.eqb_refl.
Qed.

Lemma find_None p rp x :
  h !! p = Some rp → find h p x = None ↔ ∀ c, c ∈ kids rp → key h c ≠ x.
Proof.
  intros Hp. split.
  - intros Hn c Hc Hk. pose proof (proj2 (find_Some p rp x c Hp) (conj Hc Hk)). congruence.
  - intros Hn. destruct (find h p x) as [c|] eqn:E; [|done].
    apply (find_Some p rp) in E as [Hc Hk]; [|done]. by destruct (Hn c Hc).
Qed.

Lemma find_child p x c :
  is_Some (h !! p) → find h p x = Some c →
  ∃ r, h !! c = Some r ∧ parent r = Some p ∧ key h c = x ∧ hashes r !! 0%nat = Some x.
Proof.
  intros [rp Hp] Hf. apply (find_Some p rp) in Hf as [Hc Hk]; [|done].
  destruct (hw_down h Hwf p rp c Hp Hc) as (r & Hr & Hpar). exists r. split_and!; auto.
  destruct (hw_run h Hwf c r Hr) as [Hne _]; [by rewrite Hpar|].
  unfold key in Hk. rewrite (deref_Some _ _ _ Hr) in Hk.
  destruct (hashes r); [done|]. simpl in *. by f_equal.
Qed.
End find.

(** ** Properties of the walk *)

Section locate.
Context (h : gmap loc run) (Hwf : heap_wf h).

Lemma ok_pos_lookup root pos : is_root h root → ok_pos h root pos → is_Some (h !! pos.1).
Proof. intros (rr & Hr & _) [->|(r & H & _)]; eauto. Qed.

Lemma step_ok root pos x pos' :
  is_root h root → ok_pos h root pos → step h pos x = Some pos' → ok_pos h root pos'.
Proof.
  intros Hroot Hok Hst. destruct pos as [l o]. unfold step in Hst. simpl in Hst.
  destruct (hashes (h !!! l) !! o) as [y|] eqn:Ey.
  - destruct (x =? y); [|done]. simplify_eq/=. destruct Hok as [[= -> ->]|(r & Hr & Hp & Ho)].
    + destruct Hroot as (rr & Hr & _ & Hh). rewrite (deref_Some _ _ _ Hr), Hh in Ey. done.
    + right. exists r. split_and!; auto; simpl in *; [lia|].
      rewrite (deref_Some _ _ _ Hr) in Ey. apply lookup_lt_Some in Ey. unfold nblocks. lia.
  - destruct (find h l x) as [c|] eqn:Ec; simplify_eq/=.
    destruct (find_child h Hwf l x c) as (r & Hr & Hp & _ & H0); [|done|].
    { by apply (ok_pos_lookup root (l, o)). }
    right. exists r. simpl. rewrite Hp. apply lookup_lt_Some in H0. unfold nblocks.
    split_and!; auto; lia.
Qed.

Lemma locate_ok root q pos : is_root h root → locate h root q = Some pos → ok_pos h root pos.
Proof.
  intros Hroot. revert pos. induction q as [|x q IH] using rev_ind; intros pos H.
  - left. by inversion H.
  - rewrite locate_snoc in H. destruct (locate h root q) as [pos1|]; [|done].
    simpl in H. by eapply step_ok; [| |exact H]; auto.
Qed.

(** Two walks that end at the same position read the same blocks from the same root. *)
Lemma locate_inj root1 root2 q1 q2 pos :
  is_root h root1 → is_root h root2 →
  locate h root1 q1 = Some pos → locate h root2 q2 = Some pos → root1 = root2 ∧ q1 = q2.
Proof.
  intros Hr1 Hr2. revert q2 pos. induction q1 as [|x1 q1 IH] using rev_ind; intros q2 pos H1 H2.
  - inversion H1; subst pos. destruct q2 as [|x q2 _] using rev_ind; [by inversion H2|].
    rewrite locate_snoc in H2. destruct (locate h root2 q2) as [[l o]|] eqn:E; [|done].
    cbn in H2. unfold step in H2. cbn in H2. repeat case_match; simplify_eq/=.
    destruct (find h l x); by simplify_eq/=.
  - destruct q2 as [|x2 q2 _] using rev_ind.
    { inversion H2; subst pos. rewrite locate_snoc in H1.
      destruct (locate h root1 q1) as [[l o]|]; [|done]. cbn in H1. unfold step in H1. cbn in H1.
      repeat case_match; simplify_eq/=. destruct (find h l x1); by simplify_eq/=. }
    rewrite locate_snoc in H1, H2.
    destruct (locate h root1 q1) as [[l1 o1]|] eqn:E1; [|done].
    destruct (locate h root2 q2) as [[l2 o2]|] eqn:E2; [|done].
    pose proof (locate_ok _ _ _ Hr1 E1) as Ho1. pose proof (locate_ok _ _ _ Hr2 E2) as Ho2.
    pose proof (ok_pos_lookup _ _ Hr1 Ho1) as [ra Ha]. pose proof (ok_pos_lookup _ _ Hr2 Ho2) as [rb Hb].
    cbn in H1, H2, Ha, Hb. unfold step in H1, H2. cbn in H1, H2.
    rewrite (deref_Some _ _ _ Ha) in H1. rewrite (deref_Some _ _ _ Hb) in H2.
    assert (Hin : ∀ root l o r y c, is_root h root → ok_pos h root (l, o) → h !! l = Some r →
      hashes r !! o = Some y → S o = 1%nat → c = l → False).
    { intros root l o r y c (rr & Hrr & _ & Hnil) [[= -> ->]|(r' & ? & _ & ?)] Hl Hy ??;
        simplify_eq/=; [|lia]. by rewrite Hnil in Hy. }
    assert (Hend : ∀ root l o r, is_root h root → ok_pos h root (l, o) → h !! l = Some r →
      hashes r !! o = None → o = nblocks r).
    { intros root l o r (rr & Hrr & _ & Hnil) [[= -> ->]|(r' & ? & _ & ?)] Hl Hy;
        simplify_eq/=; [by unfold nblocks; rewrite Hnil|].
      apply lookup_ge_None in Hy. unfold nblocks in *. lia. }
    destruct (hashes ra !! o1) as [y1|] eqn:Ey1, (hashes rb !! o2) as [y2|] eqn:Ey2.
    + destruct (x1 =? y1) eqn:X1, (x2 =? y2) eqn:X2; try done. bool_props. simplify_eq/=.
      destruct (IH q2 (l2, o2)) as [-> ->]; auto.
    + destruct (x1 =? y1) eqn:X1; [|done]. destruct (find h l2 x2) as [c|]; simplify_eq/=.
      exfalso. by eapply (Hin root1 _ _ _ y1 _ Hr1 Ho1 Ha Ey1).
    + destruct (x2 =? y2) eqn:X2; [|done]. destruct (find h l1 x1) as [c|]; simplify_eq/=.
      exfalso. by eapply (Hin root2 _ _ _ y2 _ Hr2 Ho2 Hb Ey2).
    + destruct (find h l1 x1) as [c1|] eqn:F1; [|done].
      destruct (find h l2 x2) as [c2|] eqn:F2; simplify_eq/=.
      apply (find_child h Hwf) in F1 as (r1 & Hr1' & Hp1 & Hk1 & _); [|eauto].
      apply (find_child h Hwf) in F2 as (r2 & Hr2' & Hp2 & Hk2 & _); [|eauto].
      simplify_eq. pose proof (Hend root1 _ _ _ Hr1 Ho1 Ha Ey1).
      pose proof (Hend root2 _ _ _ Hr2 Ho2 Ha Ey2). subst.
      destruct (IH q2 (l1, nblocks ra)) as [-> ->]; auto.
Qed.
End locate.

(** ** Splitting a run *)

(** A split of [r] (with value [x], the [i]-th child of [p], whose value is [rp]) into [u],
    which takes its place, and [r] below it. *)
Definition split_upper (x : run) (p r : loc) (m : nat) : run :=
  Run (take m (hashes x)) (take m (tokens x)) (Some p) [r] (marks x) (lastUsed x) (traffic x).
Definition split_lower (x : run) (u : loc) (m : nat) : run :=
  Run (drop m (hashes x)) (drop m (tokens x)) (Some u) (kids x) (marks x) (lastUsed x) (traffic x).
Definition split_top (rp : run) (u : loc) (i : nat) : run := set_kids (<[i:=u]> (kids rp)) rp.
Definition split_store (h : gmap loc run) (r u p : loc) (x rp : run) (i m : nat) : gmap loc run :=
  <[r := split_lower x u m]> (<[u := split_upper x p r m]> (<[p := split_top rp u i]> h)).

Definition fresh_ok (s : shard) : Prop := ∀ l r, store s !! l = Some r → (l < fresh s)%positive.

Lemma fresh_None s : fresh_ok s → store s !! fresh s = None.
Proof. intros H. destruct (store s !! fresh s) eqn:E; [|done]. apply H in E. lia. Qed.

(** Keys depend on the children's blocks only. *)
Lemma kid_keys_ext h h' r :
  (∀ k, k ∈ kids r → hashes (h' !!! k) = hashes (h !!! k)) → kid_keys h' r = kid_keys h r.
Proof.
  intros H. unfold kid_keys. apply list_fmap_ext. intros i k Hk.
  unfold key. rewrite H; [done|]. by eapply list_elem_of_lookup_2.
Qed.

Lemma unlink_eq s p rp i c :
  heap_wf (store s) → store s !! p = Some rp → kids rp !! i = Some c →
  unlink p (key (store s) c) s = upd p (λ x, set_kids (delete i (kids x)) x) s.
Proof.
  intros Hwf Hp Hi. unfold unlink, deref. rewrite (deref_Some _ _ _ Hp).
  rewrite (lower_bound_hit _ _ i), Hi, Z.eqb_refl; [done|by apply (hw_sorted _ Hwf p)|].
  unfold kid_keys. by rewrite list_lookup_fmap, Hi.
Qed.

Ltac lookups :=
  repeat first
    [ rewrite lookup_alter | rewrite lookup_insert
    | match goal with |- context [decide (?a = ?b)] => destruct (decide (a = b)); subst end ].

Lemma link_eq s r c i :
  lower_bound (kid_keys (store s) (deref s r)) (key (store s) c) = i →
  link r c s = upd c (set_parent (Some r)) (upd r (λ x, set_kids (insert_at i c (kids x)) x) s).
Proof. by intros <-. Qed.

Lemma splitRun_eq s r x p rp i m :
  heap_wf (store s) → fresh_ok s → store s !! r = Some x → parent x = Some p →
  store s !! p = Some rp → kids rp !! i = Some r → (0 < m)%nat →
  splitRun r m s =
  (fresh s, Shard (split_store (store s) r (fresh s) p x rp i m) (Pos.succ (fresh s)) (roots s)
              (tails s) (runs s + 1) (blocks_total s + 0) (copies s + 0) (expired s + 0)).
Proof.
  intros Hwf Hfr Hr Hpar Hp Hi Hm.
  pose proof (hw_irrefl _ Hwf r x Hr) as Hne. rewrite Hpar in Hne.
  assert (r ≠ p) as Hrp by congruence.
  assert (fresh s ≠ r) as Hur by (apply Hfr in Hr; lia).
  assert (fresh s ≠ p) as Hup by (apply Hfr in Hp; lia).
  unfold splitRun. assert (deref s r = x) as -> by (by apply deref_Some).
  rewrite Hpar, (unlink_eq s p rp i r) by done. set (u := fresh s) in *.
  set (s1 := upd p (λ x, set_kids (delete i (kids x)) x) s).
  assert (deref s1 r = x) as ->.
  { apply deref_Some. unfold s1. cbn. by rewrite lookup_alter_ne. }
  cbn [alloc]. change (fresh s1) with u.
  set (s3 := upd r (λ x0, set_blocks _ _ x0) _).
  destruct (hw_run _ Hwf r x Hr) as [Hh _]; [by rewrite Hpar|].
  assert (Hku : key (store s3) u = key (store s) r).
  { unfold key. rewrite (deref_Some (store s) r x Hr).
    assert (store s3 !! u = Some (Run (take m (hashes x)) (take m (tokens x)) None []
      (Clone (marks x)) (lastUsed x) (traffic x))) as Hs3u by (unfold s3; cbn; by lookups).
    rewrite (deref_Some _ _ _ Hs3u). cbn. destruct (hashes x); [done|]. by destruct m; [lia|]. }
  rewrite (link_eq s3 p u i).
  2: { rewrite Hku. unfold deref.
    assert (store s3 !! p = Some (set_kids (delete i (kids rp)) rp)) as Hs3p
      by (unfold s3, s1; cbn; lookups; rewrite ?Hp; done).
    rewrite (deref_Some _ _ _ Hs3p).
    assert (kid_keys (store s3) (set_kids (delete i (kids rp)) rp) = delete i (kid_keys (store s) rp)) as ->.
    { unfold kid_keys. cbn [kids set_kids]. rewrite <-delete_fmap. apply list_fmap_ext. intros j k Hk.
      apply list_elem_of_lookup_2 in Hk.
      apply elem_of_delete_NoDup with (x:=r) in Hk as [Hk Hkr]; [|by apply (kids_NoDup _ Hwf p)|done].
      unfold key. destruct (hw_down _ Hwf p rp k Hp Hk) as (rk & Hrk & Hpk).
      assert (k ≠ u) by (apply Hfr in Hrk; unfold u; lia).
      assert (k ≠ p) by (intros ->; by apply (hw_irrefl _ Hwf p rk)).
      rewrite (deref_Some (store s) k rk Hrk), (deref_Some (store s3) k rk); [done|].
      unfold s3. cbn. lookups; done. }
    apply lower_bound_delete; [by apply (hw_sorted _ Hwf p)|].
    unfold kid_keys. by rewrite list_lookup_fmap, Hi. }
  rewrite (link_eq _ u r 0).
  2: { unfold deref. set (s4 := upd u _ _).
    assert (store s4 !! u = Some (Run (take m (hashes x)) (take m (tokens x)) (Some p) []
      (Clone (marks x)) (lastUsed x) (traffic x))) as Hs4u
      by (unfold s4, s3; cbn; by lookups).
    by rewrite (deref_Some _ _ _ Hs4u). }
  unfold add_counts. cbn. f_equal. f_equal. unfold split_store, split_upper, split_lower, split_top.
  apply map_eq. intros l.
  pose proof (insert_at_delete (kids rp) i r u Hi) as Hid. unfold u in *.
  lookups; rewrite ?Hr, ?Hp, ?Clone_id; cbn; try done; rewrite ?Hid; done.
Qed.

(** What a split needs of the store. *)
Record split_ok (h : gmap loc run) (r u p : loc) (x rp : run) (i m : nat) : Prop := {
  so_wf : heap_wf h;
  so_u : h !! u = None;
  so_r : h !! r = Some x;
  so_par : parent x = Some p;
  so_p : h !! p = Some rp;
  so_i : kids rp !! i = Some r;
  so_m : (0 < m < nblocks x)%nat;
}.

Section split.
Implicit Types (h : gmap loc run) (r u p l : loc) (x rp : run) (i m : nat).

Lemma split_neq h r u p x rp i m : split_ok h r u p x rp i m → r ≠ p ∧ u ≠ r ∧ u ≠ p.
Proof.
  intros [Hwf Hu Hr Hpar Hp Hi Hm]. split_and!; [|congruence..]. intros ->. by apply (hw_irrefl h Hwf p x).
Qed.

Lemma split_lookup h r u p x rp i m l :
  split_ok h r u p x rp i m →
  split_store h r u p x rp i m !! l =
  if decide (l = r) then Some (split_lower x u m)
  else if decide (l = u) then Some (split_upper x p r m)
  else if decide (l = p) then Some (split_top rp u i) else h !! l.
Proof.
  intros Hok. destruct (split_neq _ _ _ _ _ _ _ _ Hok) as (? & ? & ?). unfold split_store.
  repeat case_decide; subst; rewrite ?lookup_insert_eq; try done;
    rewrite ?lookup_insert_ne, ?lookup_insert_eq by congruence; done.
Qed.

Lemma split_kids h r u p x rp i m l :
  split_ok h r u p x rp i m → l ∈ <[i:=u]> (kids rp) ↔ l = u ∨ (l ∈ kids rp ∧ l ≠ r).
Proof.
  intros [Hwf Hu Hr Hpar Hp Hi Hm].
  rewrite <-(insert_at_delete _ _ r u Hi), elem_of_insert_at,
    (elem_of_delete_NoDup _ _ r); [done|by apply (kids_NoDup h Hwf p)|done].
Qed.

(** Every run but [r] starts with the block it started with. *)
Lemma split_key h r u p x rp i m l :
  split_ok h r u p x rp i m → l ≠ r → key (split_store h r u p x rp i m) l = if decide (l = u) then key h r else key h l.
Proof.
  intros Hok Hl. unfold key. destruct (split_neq _ _ _ _ _ _ _ _ Hok) as (? & ? & ?).
  pose proof (split_lookup _ _ _ _ _ _ _ _ l Hok) as Hlk. destruct Hok as [Hwf Hu Hr Hpar Hp Hi Hm].
  rewrite decide_False in Hlk by done. destruct (decide (l = u)) as [->|].
  - rewrite (deref_Some _ _ _ Hlk), (deref_Some _ _ _ Hr). simpl. destruct (hashes x); [by rewrite take_nil|].
    destruct m; [lia|done].
  - destruct (decide (l = p)) as [->|].
    + by rewrite (deref_Some _ _ _ Hlk), (deref_Some _ _ _ Hp).
    + unfold lookup_total, map_lookup_total. by rewrite Hlk.
Qed.

Lemma split_kid_keys h r u p x rp i m l y :
  split_ok h r u p x rp i m → l ≠ u → l ≠ p → h !! l = Some y →
  kid_keys (split_store h r u p x rp i m) y = kid_keys h y.
Proof.
  intros Hok Hlu Hlp Hl. pose proof (split_key h r u p x rp i m) as Hkey.
  destruct (Hok) as [Hwf Hu Hr Hpar Hp Hi Hm]. unfold kid_keys. apply list_fmap_ext. intros j k Hk%list_elem_of_lookup_2.
  destruct (hw_down h Hwf l y k Hl Hk) as (rk & Hrk & Hpk).
  assert (k ≠ r) by (intros ->; congruence). assert (k ≠ u) by (intros ->; congruence).
  rewrite Hkey by done. by rewrite decide_False.
Qed.

Lemma split_wf h r u p x rp i m :
  split_ok h r u p x rp i m → heap_wf (split_store h r u p x rp i m).
Proof.
  intros Hok. destruct (split_neq _ _ _ _ _ _ _ _ Hok) as (Hrp & Hur & Hup).
  pose proof (λ l, split_lookup _ _ _ _ _ _ _ _ l Hok) as Hlk.
  pose proof (λ l, split_kids _ _ _ _ _ _ _ _ l Hok) as Hks.
  pose proof (λ l, split_key _ _ _ _ _ _ _ _ l Hok) as Hkey.
  pose proof (λ l y, split_kid_keys _ _ _ _ _ _ _ _ l y Hok) as Hkk.
  set (h' := split_store h r u p x rp i m) in *. clearbody h'.
  destruct Hok as [Hwf Hu Hr Hpar Hp Hi Hm].
  destruct (hw_run h Hwf r x Hr) as [Hne Hlen]; [by rewrite Hpar|].
  constructor.
  - intros l y q. rewrite !Hlk. destruct (decide (l = r)) as [->|Hlr].
    { intros [= <-] [= <-]. exists (split_upper x p r m). rewrite !decide_False by done.
      rewrite decide_True by done. split; [done|]. by left. }
    destruct (decide (l = u)) as [->|Hlu].
    { intros [= <-] [= <-]. exists (split_top rp u i). rewrite !decide_False, decide_True by done.
      split; [done|]. apply Hks. by left. }
    intros Hl Hq.
    assert (∃ y', h !! l = Some y' ∧ parent y' = Some q) as (y' & Hl' & Hq').
    { case_decide; subst; [|eauto]. simplify_eq/=. eauto. }
    destruct (hw_up h Hwf l y' q Hl' Hq') as (rq & Hrq & Hin).
    assert (q ≠ u) by congruence.
    destruct (decide (q = r)) as [->|Hqr]; [exists (split_lower x u m); by simplify_eq|].
    rewrite decide_False by done. destruct (decide (q = p)) as [->|]; [|eauto].
    exists (split_top rp u i). split; [done|]. apply Hks. right. by simplify_eq.
  - intros q rq l. rewrite !Hlk.
    destruct (decide (q = r)) as [->|Hqr].
    { intros [= <-] Hl. destruct (hw_down h Hwf r x l Hr Hl) as (y & Hy & Hpy).
      assert (l ≠ r) by (intros ->; congruence). assert (l ≠ u) by congruence.
      rewrite !decide_False by done. destruct (decide (l = p)) as [->|]; [|eauto].
      exists (split_top rp u i). simplify_eq. done. }
    destruct (decide (q = u)) as [->|Hqu].
    { intros [= <-] Hl. assert (l = r) as -> by set_solver. exists (split_lower x u m). by rewrite decide_True. }
    destruct (decide (q = p)) as [->|Hqp].
    { intros [= <-] [->|[Hl Hlr]]%Hks.
      - exists (split_upper x p r m). by rewrite decide_False, decide_True by done.
      - destruct (hw_down h Hwf p rp l Hp Hl) as (y & Hy & Hpy).
        assert (l ≠ u) by congruence. assert (l ≠ p) by (intros ->; by apply (hw_irrefl h Hwf p y)).
        rewrite !decide_False by done. eauto. }
    intros Hq Hl. destruct (hw_down h Hwf q rq l Hq Hl) as (y & Hy & Hpy).
    assert (l ≠ r) by (intros ->; congruence). assert (l ≠ u) by congruence.
    rewrite !decide_False by done. destruct (decide (l = p)) as [->|]; [|eauto].
    exists (split_top rp u i). by simplify_eq.
  - intros q rq. rewrite Hlk. destruct (decide (q = r)) as [->|Hqr].
    { intros [= <-]. change (kid_keys h' (split_lower x u m)) with (kid_keys h' x).
      rewrite (Hkk r x) by done. by apply (hw_sorted h Hwf r). }
    destruct (decide (q = u)) as [->|Hqu].
    { intros [= <-]. unfold kid_keys. cbn. repeat constructor. }
    destruct (decide (q = p)) as [->|Hqp].
    { intros [= <-]. assert (kid_keys h' (split_top rp u i) = kid_keys h rp) as ->;
        [|by apply (hw_sorted h Hwf p)].
      unfold kid_keys, split_top. cbn. apply list_eq. intros j. rewrite !list_lookup_fmap.
      destruct (decide (j = i)) as [->|Hji].
      - rewrite list_lookup_insert_eq, Hi by (by eapply lookup_lt_Some). cbn. f_equal.
        rewrite Hkey by done. by rewrite decide_True.
      - rewrite list_lookup_insert_ne by done. destruct (kids rp !! j) as [k|] eqn:Ek; [|done].
        cbn. f_equal. assert (k ≠ r).
        { intros ->. apply Hji. eapply NoDup_lookup; [by apply (kids_NoDup h Hwf p)|done..]. }
        pose proof (hw_down h Hwf p rp k Hp (list_elem_of_lookup_2 _ _ _ Ek)) as (y & Hy & _).
        assert (k ≠ u) by congruence. rewrite Hkey by done. by rewrite decide_False. }
    intros Hq. rewrite (Hkk q rq) by done. by apply (hw_sorted h Hwf q).
  - intros l y. rewrite Hlk. unfold nblocks in Hm. repeat case_decide.
    + intros [= <-] _. cbn. rewrite !length_drop, Hlen. split; [|done].
      intros Hnil%(f_equal length). rewrite length_drop in Hnil. simpl in Hnil. lia.
    + intros [= <-] _. cbn. rewrite !length_take, Hlen. split; [|done].
      intros Hnil%(f_equal length). rewrite length_take in Hnil. simpl in Hnil. lia.
    + intros [= <-]. apply (hw_run h Hwf p rp Hp).
    + apply (hw_run h Hwf l y).
  - intros l y. rewrite Hlk. repeat case_decide.
    + intros [= <-]. apply (hw_marks h Hwf r x Hr).
    + intros [= <-]. apply (hw_marks h Hwf r x Hr).
    + intros [= <-]. apply (hw_marks h Hwf p rp Hp).
    + apply (hw_marks h Hwf l y).
  - intros l y. rewrite Hlk. repeat case_decide; subst.
    + intros [= <-]. cbn. congruence.
    + intros [= <-]. cbn. congruence.
    + intros [= <-]. apply (hw_irrefl h Hwf p rp Hp).
    + apply (hw_irrefl h Hwf l y).
  - intros l y q rq s Hl Hq Hrq Hlive Hs.
    destruct (decide (l = r)) as [->|Hlr].
    { rewrite Hlk, decide_True in Hl by done. injection Hl as <-. cbn in Hq. injection Hq as <-.
      rewrite Hlk, decide_False, decide_True in Hrq by done. by injection Hrq as <-. }
    rewrite Hlk, decide_False in Hl by done. destruct (decide (l = u)) as [->|Hlu].
    { injection Hl as <-. cbn in Hq. injection Hq as <-.
      rewrite Hlk, !decide_False, decide_True in Hrq by done. injection Hrq as <-.
      by eapply (hw_sub h Hwf r x p rp). }
    assert (∃ y', h !! l = Some y' ∧ parent y' = Some q ∧ marks y' = marks y) as (y' & Hy' & Hq' & Hmy).
    { destruct (decide (l = p)) as [->|]; [|eauto]. injection Hl as <-. eauto. }
    destruct (hw_up h Hwf l y' q Hy' Hq') as (zq & Hzq & _).
    assert (q ≠ u) by congruence.
    assert (marks zq = marks rq ∧ parent zq ≠ None) as [Hmq Hlz].
    { rewrite Hlk in Hrq. destruct (decide (q = r)) as [->|].
      { injection Hrq as <-. assert (zq = x) as -> by congruence. cbn. by rewrite Hpar. }
      rewrite decide_False in Hrq by done. destruct (decide (q = p)) as [->|].
      - injection Hrq as <-. assert (zq = rp) as -> by congruence. done.
      - by assert (zq = rq) as -> by congruence. }
    rewrite <-Hmq. rewrite <-Hmy in Hs. by eapply (hw_sub h Hwf l y' q zq).
Qed.
End split.

(** Two nodes with the same children under the same keys find the same child. *)
Lemma find_ext h h' l y y' x :
  heap_wf h → heap_wf h' → h !! l = Some y → h' !! l = Some y' →
  (∀ c, c ∈ kids y' ∧ key h' c = x ↔ c ∈ kids y ∧ key h c = x) →
  find h' l x = find h l x.
Proof.
  intros Hwf Hwf' Hl Hl' Hiff. destruct (find h l x) as [c|] eqn:E.
  - apply (find_Some h' Hwf' l y'); [done|]. apply Hiff. by apply (find_Some h Hwf l y).
  - apply (find_None h' Hwf' l y'); [done|]. intros c Hc Hk.
    destruct (proj1 (Hiff c) (conj Hc Hk)) as [Hc' Hk'].
    by apply (find_None h Hwf l y) with (c:=c) in E.
Qed.

Definition split_pos (r u : loc) (m : nat) (pos : loc * nat) : loc * nat :=
  if decide (pos.1 = r)
  then if decide (pos.2 ≤ m)%nat then (u, pos.2) else (r, (pos.2 - m)%nat)
  else pos.

(** Reading one block commutes with the renaming of positions. *)
Lemma split_step h r u p x rp i m root pos b :
  split_ok h r u p x rp i m → is_root h root → ok_pos h root pos →
  step (split_store h r u p x rp i m) (split_pos r u m pos) b =
  split_pos r u m <$> step h pos b.
Proof.
  intros Hok Hroot Hpos. destruct (split_neq _ _ _ _ _ _ _ _ Hok) as (Hrp & Hur & Hup).
  pose proof (split_wf _ _ _ _ _ _ _ _ Hok) as Hwf'.
  pose proof (λ l, split_lookup _ _ _ _ _ _ _ _ l Hok) as Hlk.
  pose proof (λ l, split_kids _ _ _ _ _ _ _ _ l Hok) as Hks.
  pose proof (λ l, split_key _ _ _ _ _ _ _ _ l Hok) as Hkey.
  set (h' := split_store h r u p x rp i m) in *. clearbody h'.
  destruct Hok as [Hwf Hu Hr Hpar Hp Hi Hm].
  pose proof (ok_pos_lookup h root pos Hroot Hpos) as [y Hy].
  destruct pos as [l o]. cbn in Hy. unfold split_pos. cbn [fst snd].
  destruct (decide (l = r)) as [->|Hlr].
  - assert (y = x) as -> by congruence.
    assert (1 ≤ o ≤ nblocks x)%nat as Ho.
    { destruct Hpos as [[= -> ->]|(r' & Hr' & _ & ?)]; [|cbn in *; congruence].
      destruct Hroot as (rr & ? & ? & _). congruence. }
    unfold step at 2. cbn [fst snd]. rewrite (deref_Some _ _ _ Hr).
    destruct (decide (o ≤ m)%nat) as [Hom|Hom].
    + pose proof (Hlk u) as Hu'. rewrite decide_False, decide_True in Hu' by done.
      unfold step. cbn [fst snd]. rewrite (deref_Some _ _ _ Hu'). cbn [hashes split_upper].
      destruct (decide (o = m)) as [->|].
      * rewrite lookup_take_ge by lia.
        destruct (lookup_lt_is_Some_2 (hashes x) m) as [z Hz]; [unfold nblocks in *; lia|].
        rewrite Hz. pose proof (Hlk r) as Hr'. rewrite decide_True in Hr' by done.
        assert (key h' r = z) as Hkz.
        { unfold key. rewrite (deref_Some _ _ _ Hr'). cbn.
          destruct (drop m (hashes x)) as [|z' t] eqn:Ed.
          - apply (f_equal length) in Ed. rewrite length_drop in Ed. cbn in Ed. unfold nblocks in *. lia.
          - assert (hashes x !! m = Some z') as Hz'.
            { rewrite <-(Nat.add_0_r m), <-lookup_drop, Ed. done. }
            cbn. congruence. }
        destruct (b =? z) eqn:Eb; bool_props.
        -- assert (find h' u b = Some r) as ->.
           { apply (find_Some h' Hwf' u (split_upper x p r m)); [done|]. cbn. split; [by left|congruence]. }
           cbn. rewrite decide_True, decide_False by (done || lia). do 2 f_equal. lia.
        -- assert (find h' u b = None) as ->; [|done].
           apply (find_None h' Hwf' u (split_upper x p r m)); [done|]. cbn.
           intros c Hc. assert (c = r) as -> by set_solver. congruence.
      * rewrite lookup_take_lt by lia.
        destruct (lookup_lt_is_Some_2 (hashes x) o) as [z Hz]; [unfold nblocks in *; lia|].
        rewrite Hz. destruct (b =? z); [|done]. cbn. rewrite decide_True, decide_True by (done || lia). done.
    + pose proof (Hlk r) as Hr'. rewrite decide_True in Hr' by done.
      unfold step. cbn [fst snd]. rewrite (deref_Some _ _ _ Hr'). cbn [hashes split_lower].
      rewrite lookup_drop. replace (m + (o - m))%nat with o by lia.
      destruct (hashes x !! o) as [z|] eqn:Ez.
      * destruct (b =? z); [|done]. cbn. rewrite decide_True, decide_False by (done || lia). do 2 f_equal. lia.
      * rewrite (find_ext h h' r x (split_lower x u m)); [|done..|].
        2: { intros c. cbn. split; intros [Hc Hk]; (split; [done|]).
             all: destruct (hw_down h Hwf r x c Hr Hc) as (yc & Hyc & Hpc);
               assert (c ≠ r) by (intros ->; congruence); assert (c ≠ u) by congruence.
             all: rewrite Hkey, decide_False in * by done; done. }
        destruct (find h r b) as [c|] eqn:Ec; [|done]. cbn.
        destruct (find_child h Hwf r b c) as (yc & Hyc & Hpc & _); [eauto|done|].
        rewrite decide_False; [done|]. intros ->. congruence.
  - unfold step at 2. cbn [fst snd]. rewrite (deref_Some _ _ _ Hy).
    assert (l ≠ u) as Hlu by congruence. pose proof (Hlk l) as Hl'.
    rewrite !decide_False in Hl' by done.
    assert (∃ y', h' !! l = Some y' ∧ hashes y' = hashes y) as (y' & Hy' & Hhy).
    { destruct (decide (l = p)) as [->|]; [|exists y; by rewrite Hl']. exists (split_top rp u i).
      split; [done|]. cbn. congruence. }
    unfold step. cbn [fst snd]. rewrite (deref_Some _ _ _ Hy'), Hhy.
    destruct (hashes y !! o) as [z|] eqn:Ez.
    { destruct (b =? z); [|done]. cbn. by rewrite decide_False. }
    destruct (decide (l = p)) as [->|Hlp].
    + assert (y = rp) as -> by congruence. assert (y' = split_top rp u i) as -> by congruence.
      destruct (find h p b) as [c|] eqn:Ec.
      * apply (find_Some h Hwf p rp) in Ec as [Hc Hk]; [|done]. cbn.
        destruct (decide (c = r)) as [->|Hcr].
        -- assert (find h' p b = Some u) as ->.
           { apply (find_Some h' Hwf' p (split_top rp u i)); [done|]. cbn. split; [apply Hks; by left|].
             by rewrite Hkey, decide_True by done. }
           cbn. by rewrite decide_True by lia.
        -- assert (find h' p b = Some c) as ->; [|done].
           apply (find_Some h' Hwf' p (split_top rp u i)); [done|]. cbn. split; [apply Hks; by right|].
           destruct (hw_down h Hwf p rp c Hp Hc) as (yc & Hyc & _).
           rewrite Hkey, decide_False; congruence.
      * assert (find h' p b = None) as ->; [|done].
        apply (find_None h' Hwf' p (split_top rp u i)); [done|]. cbn. intros c [->|[Hc Hcr]]%Hks.
        -- rewrite Hkey, decide_True by done. apply (find_None h Hwf p rp); [done..|].
           by eapply list_elem_of_lookup_2.
        -- destruct (hw_down h Hwf p rp c Hp Hc) as (yc & Hyc & _).
           rewrite Hkey, decide_False by congruence. by apply (find_None h Hwf p rp).
    + assert (y' = y) as -> by (congruence).
      rewrite (find_ext h h' l y y); [|done..|].
      2: { intros c. split; intros [Hc Hk]; (split; [done|]).
           all: destruct (hw_down h Hwf l y c Hy Hc) as (yc & Hyc & Hpc);
             assert (c ≠ r) by (intros ->; congruence); assert (c ≠ u) by congruence.
           all: rewrite Hkey, decide_False in * by done; done. }
      destruct (find h l b) as [c|] eqn:Ec; [|done]. cbn.
      destruct (find_child h Hwf l b c) as (yc & Hyc & Hpc & _); [eauto|done|].
      rewrite decide_False; [done|]. intros ->. congruence.
Qed.

Lemma split_locate h r u p x rp i m root q :
  split_ok h r u p x rp i m → is_root h root →
  locate (split_store h r u p x rp i m) root q = split_pos r u m <$> locate h root q.
Proof.
  intros Hok Hroot. induction q as [|b q IH] using rev_ind.
  - cbn. unfold split_pos. cbn. destruct Hroot as (rr & Hr & Hpr & _).
    rewrite decide_False; [done|]. intros ->. destruct Hok. congruence.
  - rewrite !locate_snoc, IH. destruct (locate h root q) as [pos|] eqn:E; [|done]. cbn.
    eapply split_step; [done..|]. by eapply locate_ok; [apply Hok|..].
Qed.

(** ** Updates that keep the shape: marks and time stamps *)

Definition shape (r : run) : list Z * list Z * option loc * list loc :=
  (hashes r, tokens r, parent r, kids r).
Definition same_shape (h h' : gmap loc run) : Prop := shape <$> h' = shape <$> h.

Lemma same_shape_lookup h h' l y :
  same_shape h h' → h !! l = Some y → ∃ y', h' !! l = Some y' ∧ shape y' = shape y.
Proof.
  intros Hs Hl. pose proof (f_equal (lookup l) Hs) as H. cbn in H. rewrite !lookup_fmap, Hl in H.
  destruct (h' !! l) as [y'|]; [|done]. exists y'. split; [done|]. by apply (inj Some) in H.
Qed.

Lemma same_shape_sym h h' : same_shape h h' → same_shape h' h.
Proof. intros H. symmetry. exact H. Qed.

Lemma same_shape_refl h : same_shape h h.
Proof. done. Qed.

Lemma same_shape_trans h1 h2 h3 : same_shape h1 h2 → same_shape h2 h3 → same_shape h1 h3.
Proof. unfold same_shape. congruence. Qed.

Lemma same_shape_alter f l h : (∀ y, shape (f y) = shape y) → same_shape h (alter f l h).
Proof.
  intros Hf. apply map_eq. intros k. rewrite !lookup_fmap, lookup_alter.
  case_decide; [|done]. subst. destruct (h !! k) as [y|]; [|done]. cbn. f_equal. apply Hf.
Qed.

Lemma same_shape_total h h' l : same_shape h h' → shape (h' !!! l) = shape (h !!! l).
Proof.
  intros Hs. unfold lookup_total, map_lookup_total. destruct (h !! l) as [y|] eqn:E.
  - destruct (same_shape_lookup _ _ _ _ Hs E) as (y' & -> & H). done.
  - destruct (h' !! l) as [y'|] eqn:E'; [|done].
    destruct (same_shape_lookup _ _ _ _ (same_shape_sym _ _ Hs) E') as (? & ? & _). congruence.
Qed.

Lemma shape_inj y y' : shape y' = shape y →
  hashes y' = hashes y ∧ tokens y' = tokens y ∧ parent y' = parent y ∧ kids y' = kids y.
Proof. unfold shape. intros [= -> -> -> ->]. done. Qed.

Lemma same_shape_key h h' l : same_shape h h' → key h' l = key h l.
Proof. intros Hs. unfold key. by destruct (shape_inj _ _ (same_shape_total _ _ l Hs)) as (-> & _). Qed.

Lemma same_shape_kid_keys h h' l : same_shape h h' → kid_keys h' (h' !!! l) = kid_keys h (h !!! l).
Proof.
  intros Hs. unfold kid_keys. destruct (shape_inj _ _ (same_shape_total _ _ l Hs)) as (_ & _ & _ & ->).
  apply list_fmap_ext. intros i k _. by apply same_shape_key.
Qed.

Lemma same_shape_find h h' l x : same_shape h h' → find h' l x = find h l x.
Proof.
  intros Hs. unfold find. rewrite (same_shape_kid_keys _ _ _ Hs).
  destruct (shape_inj _ _ (same_shape_total _ _ l Hs)) as (_ & _ & _ & ->).
  destruct (kids (h !!! l) !! _) as [k|]; [|done]. by rewrite (same_shape_key _ _ _ Hs).
Qed.

Lemma same_shape_locate h h' root q : same_shape h h' → locate h' root q = locate h root q.
Proof.
  intros Hs. induction q as [|b q IH] using rev_ind; [done|].
  rewrite !locate_snoc, IH. destruct (locate h root q) as [[l o]|]; [|done]. cbn. unfold step. cbn.
  destruct (shape_inj _ _ (same_shape_total _ _ l Hs)) as (-> & _).
  destruct (hashes (h !!! l) !! o); [done|]. by rewrite (same_shape_find _ _ _ _ Hs).
Qed.

(** Marks may change as long as descendants stay below their ancestors. *)
Lemma same_shape_wf h h' :
  heap_wf h → same_shape h h' → (∀ l r, h' !! l = Some r → wf_marks (marks r)) →
  (∀ l r p rp s, h' !! l = Some r → parent r = Some p → h' !! p = Some rp → parent rp ≠ None →
    Has (marks r) s = true → Has (marks rp) s = true) →
  heap_wf h'.
Proof.
  intros Hwf Hs Hm Hsub.
  assert (Hback : ∀ l y', h' !! l = Some y' → ∃ y, h !! l = Some y ∧ shape y' = shape y).
  { intros l y' Hl. destruct (same_shape_lookup h' h l y' (same_shape_sym _ _ Hs) Hl) as (y & ? & ?).
    eauto. }
  constructor; [| | | |done| |done].
  - intros l r p (y & Hl & Hsh)%Hback. apply shape_inj in Hsh as (_ & _ & -> & _). intros Hp.
    destruct (hw_up h Hwf l y p Hl Hp) as (rp & Hrp & Hin).
    destruct (same_shape_lookup _ _ _ _ Hs Hrp) as (rp' & Hrp' & Hsh').
    apply shape_inj in Hsh' as (_ & _ & _ & Hk). exists rp'. by rewrite Hk.
  - intros p rp l (y & Hp & Hsh)%Hback. apply shape_inj in Hsh as (_ & _ & _ & ->). intros Hl.
    destruct (hw_down h Hwf p y l Hp Hl) as (r & Hr & Hpar).
    destruct (same_shape_lookup _ _ _ _ Hs Hr) as (r' & Hr' & Hsh').
    apply shape_inj in Hsh' as (_ & _ & Hpp & _). exists r'. by rewrite Hpp.
  - intros p rp Hp. destruct (Hback _ _ Hp) as (y & Hy & _).
    pose proof (same_shape_kid_keys _ _ p Hs) as Hk.
    rewrite (deref_Some _ _ _ Hp), (deref_Some _ _ _ Hy) in Hk. rewrite Hk.
    by apply (hw_sorted h Hwf p).
  - intros l r (y & Hl & Hsh)%Hback. apply shape_inj in Hsh as (-> & -> & -> & _).
    by apply (hw_run h Hwf l).
  - intros l r (y & Hl & Hsh)%Hback. apply shape_inj in Hsh as (_ & _ & -> & _).
    by apply (hw_irrefl h Hwf l).
Qed.

(** ** Appending blocks below a position

    [h'] reads everything [h] reads, and past the position [(cur, e)] it also reads [hs],
    through the positions [new 1], [new 2], ... that [h] does not have. *)
Record appends (h h' : gmap loc run) (cur : loc) (e : nat) (new : nat → loc * nat) (hs : list Z) : Prop := {
  ap_old root pos b pos' : is_root h root → ok_pos h root pos →
    step h pos b = Some pos' → step h' pos b = Some pos';
  ap_new root pos b : is_root h root → ok_pos h root pos → step h pos b = None →
    step h' pos b = if bool_decide (pos = (cur, e)) && bool_decide (hs !! 0%nat = Some b)
                    then Some (new 1%nat) else None;
  ap_in k b : (1 ≤ k ≤ length hs)%nat →
    step h' (new k) b = if bool_decide (hs !! k = Some b) then Some (new (S k)) else None;
}.

Section appends.
Context (h h' : gmap loc run) (cur : loc) (e : nat) (new : nat → loc * nat) (hs : list Z).
Context (Hwf : heap_wf h) (Hap : appends h h' cur e new hs).

Lemma appends_old root q pos :
  is_root h root → locate h root q = Some pos → locate h' root q = Some pos.
Proof using Hwf Hap.
  intros Hroot. revert pos. induction q as [|b q IH] using rev_ind; intros pos H; [done|].
  rewrite locate_snoc in *. destruct (locate h root q) as [pos0|] eqn:E; [|done]. cbn in H.
  rewrite (IH _ eq_refl). cbn. eapply ap_old; [done..| |done]. by eapply locate_ok.
Qed.

Lemma appends_new root q0 k :
  is_root h root → locate h root q0 = Some (cur, e) →
  (∀ b, hs !! 0%nat = Some b → step h (cur, e) b = None) →
  (1 ≤ k ≤ length hs)%nat → locate h' root (q0 ++ take k hs) = Some (new k).
Proof using Hwf Hap.
  intros Hroot H0 Hnone. induction k as [|k IH]; intros Hk; [lia|].
  destruct (lookup_lt_is_Some_2 hs k) as [b Hb]; [lia|].
  rewrite (take_S_r _ _ _ Hb), app_assoc, locate_snoc. destruct k as [|k].
  - cbn [take]. rewrite app_nil_r, (appends_old _ _ _ Hroot H0). cbn.
    rewrite (ap_new _ _ _ _ _ _ Hap root) by (eauto using locate_ok).
    by rewrite !bool_decide_eq_true_2.
  - rewrite IH by lia. cbn. rewrite (ap_in _ _ _ _ _ _ Hap) by lia. by rewrite bool_decide_eq_true_2.
Qed.

Lemma appends_inv root q pos :
  is_root h root → locate h' root q = Some pos →
  locate h root q = Some pos ∨
  ∃ q0 k, locate h root q = None ∧ locate h root q0 = Some (cur, e) ∧ q = q0 ++ take k hs ∧
    (1 ≤ k ≤ length hs)%nat ∧ pos = new k.
Proof using Hwf Hap.
  intros Hroot. revert pos. induction q as [|b q IH] using rev_ind; intros pos H; [by left|].
  rewrite locate_snoc in *. destruct (locate h' root q) as [pos0|] eqn:E; [|done]. cbn in H.
  destruct (IH _ eq_refl) as [Hq|(q0 & k & Hn & H0 & -> & Hk & ->)].
  - rewrite Hq. cbn. pose proof (locate_ok _ Hwf _ _ _ Hroot Hq) as Hok.
    destruct (step h pos0 b) as [pos1|] eqn:Es.
    { left. rewrite (ap_old _ _ _ _ _ _ Hap root pos0 b pos1) in H by done. done. }
    right. rewrite (ap_new _ _ _ _ _ _ Hap root pos0 b) in H by done.
    destruct (bool_decide _ && bool_decide _) eqn:Eb; [|done]. bool_props. subst pos0.
    simplify_eq. exists q, 1%nat. destruct hs as [|b' hs']; [done|]. simplify_eq/=. split_and!; auto; lia.
  - right. rewrite (ap_in _ _ _ _ _ _ Hap) in H by done.
    case_bool_decide as Hb; [|done]. simplify_eq. exists q0, (S k). rewrite Hn. cbn.
    rewrite (take_S_r _ _ _ Hb), <-app_assoc. apply lookup_lt_Some in Hb. split_and!; auto; lia.
Qed.
End appends.
