(* ===== verification/TreeStep.v ===== *)
(** * TreeStep: the updates of the store that grow and prune the forest

    Hanging a new run under another, extending a childless run in place, and unlinking a
    childless run: each keeps [heap_wf], and each changes the reference walk in one known
    way. *)

From stdpp Require Import base gmap sets list strings sorting.
From Stdlib Require Import ZArith Lia.
From S2P Require Import Prelude MarkSet KvUnits AffinityTree TreeWf.
Open Scope Z_scope.

(** Every run but those of [ls] keeps its first block. *)
Lemma key_ext h h' l y y' :
  h !! l = Some y → h' !! l = Some y' → head (hashes y') = head (hashes y) → key h' l = key h l.
Proof. intros H H' He. unfold key. by rewrite (deref_Some _ _ _ H), (deref_Some _ _ _ H'), He. Qed.

Lemma kids_distinct h p q rp rq c :
  heap_wf h → h !! p = Some rp → h !! q = Some rq → c ∈ kids rp → c ∈ kids rq → p = q.
Proof.
  intros Hwf Hp Hq H1 H2.
  destruct (hw_down h Hwf p rp c Hp H1) as (y & Hy & Hpy).
  destruct (hw_down h Hwf q rq c Hq H2) as (y2 & Hy2 & Hpy2). congruence.
Qed.

(** ** A new run *)

Definition grow_store (h : gmap loc run) (cur nr : loc) (rc new : run) : gmap loc run :=
  <[nr := set_parent (Some cur) new]>
    (<[cur := set_kids (insert_at (lower_bound (kid_keys h rc) (default 0 (head (hashes new)))) nr (kids rc)) rc]> h).

Record grow_ok (h : gmap loc run) (cur nr : loc) (rc new : run) : Prop := {
  go_wf : heap_wf h;
  go_nr : h !! nr = None;
  go_cur : h !! cur = Some rc;
  go_ne : hashes new ≠ [];
  go_len : length (tokens new) = length (hashes new);
  go_kids : kids new = [];
  go_find : find h cur (default 0 (head (hashes new))) = None;
  go_marks : wf_marks (marks new);
  go_sub s : parent rc ≠ None → Has (marks new) s = true → Has (marks rc) s = true;
}.

Section grow.
Implicit Types (h : gmap loc run) (cur nr l : loc) (rc new : run).

Lemma grow_lookup h cur nr rc new l :
  grow_ok h cur nr rc new →
  grow_store h cur nr rc new !! l =
  if decide (l = nr) then Some (set_parent (Some cur) new)
  else if decide (l = cur)
       then Some (set_kids (insert_at (lower_bound (kid_keys h rc) (default 0 (head (hashes new)))) nr (kids rc)) rc)
       else h !! l.
Proof.
  intros []. unfold grow_store. repeat case_decide; subst; rewrite ?lookup_insert_eq; try done.
  all: rewrite ?lookup_insert_ne, ?lookup_insert_eq by congruence; done.
Qed.

Lemma grow_key h cur nr rc new l :
  grow_ok h cur nr rc new →
  key (grow_store h cur nr rc new) l = if decide (l = nr) then default 0 (head (hashes new)) else key h l.
Proof.
  intros Hok. pose proof (grow_lookup _ _ _ _ _ l Hok) as Hl. destruct Hok.
  unfold key. repeat case_decide; subst.
  - by rewrite (deref_Some _ _ _ Hl).
  - by rewrite (deref_Some _ _ _ Hl), (deref_Some _ _ _ go_cur0).
  - unfold lookup_total, map_lookup_total. by rewrite Hl.
Qed.

Lemma grow_kid_keys h cur nr rc new l y :
  grow_ok h cur nr rc new → h !! l = Some y →
  kid_keys (grow_store h cur nr rc new) y = kid_keys h y.
Proof.
  intros Hok Hl. unfold kid_keys. apply list_fmap_ext. intros j k Hk%list_elem_of_lookup_2.
  rewrite grow_key by done. rewrite decide_False; [done|].
  destruct Hok. destruct (hw_down h go_wf0 l y k Hl Hk) as (rk & ? & ?). congruence.
Qed.

Lemma grow_store_wf h cur nr rc new : grow_ok h cur nr rc new → heap_wf (grow_store h cur nr rc new).
Proof.
  intros Hok. pose proof (λ l, grow_lookup _ _ _ _ _ l Hok) as Hlk.
  pose proof (λ l, grow_key _ _ _ _ _ l Hok) as Hkey.
  pose proof (λ l y, grow_kid_keys _ _ _ _ _ l y Hok) as Hkk.
  set (h' := grow_store h cur nr rc new) in *. clearbody h'.
  destruct Hok as [Hwf Hnr Hcur Hne Hlen Hkids Hfind Hm Hsub].
  assert (cur ≠ nr) as Hcn by congruence.
  set (i := lower_bound (kid_keys h rc) (default 0 (head (hashes new)))) in *.
  constructor.
  - intros l y p. rewrite Hlk. destruct (decide (l = nr)) as [->|Hln].
    { intros [= <-] [= <-]. rewrite Hlk, decide_False, decide_True by done. eexists; split; [done|].
      cbn. apply elem_of_insert_at. by left. }
    intros Hl Hp. assert (∃ y', h !! l = Some y' ∧ parent y' = Some p) as (y' & Hl' & Hp').
    { destruct (decide (l = cur)) as [->|]; simplify_eq/=; eauto. }
    destruct (hw_up h Hwf l y' p Hl' Hp') as (rp & Hrp & Hin). rewrite Hlk.
    clear Hl. rewrite decide_False by congruence. destruct (decide (p = cur)) as [->|]; [|eauto].
    eexists; split; [done|]. simplify_eq. cbn. apply elem_of_insert_at. by right.
  - intros p rp l. rewrite Hlk. destruct (decide (p = nr)) as [->|Hpn].
    { intros [= <-]. cbn. rewrite Hkids. set_solver. }
    destruct (decide (p = cur)) as [->|Hpc].
    + intros [= <-] [->|Hl]%elem_of_insert_at; [rewrite Hlk, decide_True by done; eauto|].
      destruct (hw_down h Hwf cur rc l Hcur Hl) as (y & Hy & Hpy). rewrite Hlk.
      rewrite decide_False by congruence. destruct (decide (l = cur)) as [->|]; simplify_eq; eauto.
    + intros Hp Hl. destruct (hw_down h Hwf p rp l Hp Hl) as (y & Hy & Hpy). rewrite Hlk.
      rewrite decide_False by congruence. destruct (decide (l = cur)) as [->|]; simplify_eq; eauto.
  - intros p rp. rewrite Hlk. destruct (decide (p = nr)) as [->|Hpn].
    { intros [= <-]. unfold kid_keys. cbn. rewrite Hkids. constructor. }
    destruct (decide (p = cur)) as [->|Hpc].
    + intros [= <-]. unfold kid_keys. cbn. rewrite insert_at_fmap, Hkey, decide_True by done.
      change (key h' <$> kids rc) with (kid_keys h' rc). rewrite (Hkk cur) by done.
      apply insert_at_sorted; [by apply (hw_sorted h Hwf cur)|].
      intros (c & Hc & Hin)%list_elem_of_fmap. apply (find_None h Hwf cur rc _ Hcur) with (c:=c) in Hfind; auto.
    + intros Hp. rewrite (Hkk p) by done. by apply (hw_sorted h Hwf p).
  - intros l y. rewrite Hlk. repeat case_decide.
    + by intros [= <-].
    + intros [= <-]. apply (hw_run h Hwf cur rc Hcur).
    + apply (hw_run h Hwf l y).
  - intros l y. rewrite Hlk. repeat case_decide.
    + by intros [= <-].
    + intros [= <-]. apply (hw_marks h Hwf cur rc Hcur).
    + apply (hw_marks h Hwf l y).
  - intros l y. rewrite Hlk. repeat case_decide; subst.
    + intros [= <-]. cbn. congruence.
    + intros [= <-]. apply (hw_irrefl h Hwf cur rc Hcur).
    + apply (hw_irrefl h Hwf l y).
  - intros l y p rp s Hl Hp Hrp Hlive Hs. rewrite Hlk in Hl, Hrp.
    destruct (decide (l = nr)) as [->|Hln].
    { injection Hl as <-. cbn in Hp, Hs. injection Hp as <-. rewrite decide_False, decide_True in Hrp by done.
      injection Hrp as <-. cbn in *. by apply Hsub. }
    assert (∃ y', h !! l = Some y' ∧ parent y' = Some p ∧ marks y' = marks y) as (y' & Hl' & Hp' & Hm').
    { destruct (decide (l = cur)) as [->|]; simplify_eq/=; eauto. }
    destruct (hw_up h Hwf l y' p Hl' Hp') as (zp & Hzp & _). rewrite decide_False in Hrp by congruence.
    rewrite <-Hm' in Hs. clear Hl Hp. destruct (decide (p = cur)) as [->|]; simplify_eq/=; by eapply (hw_sub h Hwf l y' _ _ s).
Qed.

Lemma grow_find_old h cur nr rc new l y b :
  grow_ok h cur nr rc new → h !! l = Some y →
  l ≠ cur ∨ Some b ≠ head (hashes new) → find (grow_store h cur nr rc new) l b = find h l b.
Proof.
  intros Hok Hl Hor. pose proof (grow_store_wf _ _ _ _ _ Hok) as Hwf'.
  pose proof (grow_lookup _ _ _ _ _ l Hok) as Hlk.
  pose proof (λ c, grow_key _ _ _ _ _ c Hok) as Hkey.
  destruct (Hok) as [Hwf Hnr Hcur Hne Hlen Hkids Hfind Hm Hsub].
  rewrite decide_False in Hlk by congruence.
  destruct (decide (l = cur)) as [->|Hlc].
  - eapply find_ext; [done..|]. intros c. cbn. rewrite elem_of_insert_at, Hkey.
    assert (rc = y) as -> by congruence. split.
    + intros [[->|Hc] Hk].
      * rewrite decide_True in Hk by done. destruct Hor as [?|Hor]; [done|].
        destruct (hashes new); [done|]. cbn in *. congruence.
      * rewrite decide_False in Hk; [done|]. destruct (hw_down h Hwf cur y c Hcur Hc) as (? & ? & _). congruence.
    + intros [Hc Hk]. rewrite decide_False; [auto|].
      destruct (hw_down h Hwf cur y c Hcur Hc) as (? & ? & _). congruence.
  - eapply find_ext; [done|done|done|by rewrite Hlk|]. intros c. rewrite Hkey.
    split; intros [Hc Hk]; (split; [done|]);
      destruct (hw_down h Hwf l y c Hl Hc) as (? & ? & _); rewrite decide_False in * by congruence; done.
Qed.

Lemma grow_appends h cur nr rc new :
  grow_ok h cur nr rc new →
  appends h (grow_store h cur nr rc new) cur (nblocks rc) (λ k, (nr, k)) (hashes new).
Proof.
  intros Hok. pose proof (grow_store_wf _ _ _ _ _ Hok) as Hwf'.
  pose proof (λ l, grow_lookup _ _ _ _ _ l Hok) as Hlk.
  pose proof (λ c, grow_key _ _ _ _ _ c Hok) as Hkey.
  pose proof (λ l y b, grow_find_old _ _ _ _ _ l y b Hok) as Hfo.
  destruct (Hok) as [Hwf Hnr Hcur Hne Hlen Hkids Hfind Hm Hsub].
  set (h' := grow_store h cur nr rc new) in *. clearbody h'.
  assert (Hh : ∀ l y, h !! l = Some y → hashes (h' !!! l) = hashes y).
  { intros l y Hl. pose proof (Hlk l) as H. rewrite decide_False in H by congruence.
    case_decide; subst; [rewrite (deref_Some _ _ _ H); cbn; congruence|].
    rewrite Hl in H. by rewrite (deref_Some _ _ _ H). }
  constructor.
  - intros root pos b pos' Hroot Hpos. destruct (ok_pos_lookup _ _ _ Hroot Hpos) as [y Hy].
    unfold step. rewrite (Hh _ _ Hy), (deref_Some _ _ _ Hy). destruct (hashes y !! pos.2); [done|].
    destruct (find h pos.1 b) as [c|] eqn:Ec; [|done]. rewrite (Hfo _ _ _ Hy); [by rewrite Ec|].
    destruct (decide (pos.1 = cur)) as [Hpc|]; [right|by left]. rewrite Hpc in Ec.
    destruct (hashes new); [done|]. cbn in *. congruence.
  - intros root pos b Hroot Hpos. destruct (ok_pos_lookup _ _ _ Hroot Hpos) as [y Hy].
    unfold step. rewrite (Hh _ _ Hy), (deref_Some _ _ _ Hy). destruct (hashes y !! pos.2) eqn:Ey.
    { intros Hn. rewrite Hn, bool_decide_eq_false_2; [done|]. intros ->. cbn in *.
      assert (y = rc) as -> by congruence. apply lookup_lt_Some in Ey. unfold nblocks in Ey. lia. }
    destruct (find h pos.1 b) as [c|] eqn:Ec; [done|]. intros _.
    assert (pos.2 = nblocks y) as Hend.
    { apply lookup_ge_None in Ey. unfold nblocks. destruct Hpos as [->|(z & Hz & _ & Hr)].
      - destruct Hroot as (rr & Hrr & _ & Hnil). cbn in *. assert (y = rr) as -> by congruence. by rewrite Hnil.
      - assert (z = y) as -> by congruence. unfold nblocks in Hr. lia. }
    destruct (decide (pos.1 = cur ∧ head (hashes new) = Some b)) as [[Hpc Hb]|Hno].
    + assert (y = rc) as -> by congruence. rewrite (bool_decide_eq_true_2 (pos = _)).
      2: { rewrite (surjective_pairing pos), Hpc, Hend. done. }
      rewrite bool_decide_eq_true_2 by (by destruct (hashes new)). cbn.
      pose proof (Hlk cur) as Hc'. rewrite decide_False, decide_True in Hc' by congruence.
      assert (find h' pos.1 b = Some nr) as ->; [|done]. rewrite Hpc.
      apply (find_Some h' Hwf' _ _ _ _ Hc'). cbn. rewrite elem_of_insert_at, Hkey, decide_True, Hb by done. auto.
    + rewrite (Hfo _ _ _ Hy), Ec. 2: { destruct (decide (pos.1 = cur)); [right|by left]. intros Hb. by destruct Hno. }
      cbn. destruct (bool_decide (pos = _) && _) eqn:E; [|done]. bool_props. destruct Hno.
      subst pos. split; [done|]. by destruct (hashes new).
  - intros k b Hk. unfold step. cbn. pose proof (Hlk nr) as Hn. rewrite decide_True in Hn by done.
    rewrite (deref_Some _ _ _ Hn). cbn. destruct (hashes new !! k) as [z|] eqn:Ez.
    + destruct (b =? z) eqn:E; bool_props; [subst; by rewrite bool_decide_eq_true_2|].
      rewrite bool_decide_eq_false_2 by congruence. done.
    + rewrite bool_decide_eq_false_2 by done. assert (find h' nr b = None) as ->; [|done].
      apply (find_None h' Hwf' nr _ _ Hn). cbn. rewrite Hkids. set_solver.
Qed.
End grow.

(** ** A childless run made longer *)

Definition extend_store (h : gmap loc run) (cur : loc) (rc : run) (hs ts : list Z) : gmap loc run :=
  <[cur := set_blocks (hashes rc ++ hs) (tokens rc ++ ts) rc]> h.

Record extend_ok (h : gmap loc run) (cur : loc) (rc : run) (hs ts : list Z) : Prop := {
  eo_wf : heap_wf h;
  eo_cur : h !! cur = Some rc;
  eo_par : parent rc ≠ None;
  eo_kids : kids rc = [];
  eo_len : length ts = length hs;
}.

Section extend.
Implicit Types (h : gmap loc run) (cur l : loc) (rc : run) (hs ts : list Z).

Lemma extend_lookup h cur rc hs ts l :
  extend_store h cur rc hs ts !! l =
  if decide (l = cur) then Some (set_blocks (hashes rc ++ hs) (tokens rc ++ ts) rc) else h !! l.
Proof. unfold extend_store. case_decide; subst; [by rewrite lookup_insert_eq|by rewrite lookup_insert_ne]. Qed.

Lemma extend_key h cur rc hs ts l : extend_ok h cur rc hs ts → key (extend_store h cur rc hs ts) l = key h l.
Proof.
  intros []. pose proof (extend_lookup h cur rc hs ts l) as Hl. unfold key. case_decide; subst.
  - rewrite (deref_Some _ _ _ Hl), (deref_Some _ _ _ eo_cur0). cbn.
    destruct (hw_run h eo_wf0 cur rc eo_cur0 eo_par0) as [Hne _]. by destruct (hashes rc).
  - unfold lookup_total, map_lookup_total. by rewrite Hl.
Qed.

Lemma extend_back h cur rc hs ts l y' :
  extend_ok h cur rc hs ts → extend_store h cur rc hs ts !! l = Some y' →
  ∃ y, h !! l = Some y ∧ parent y' = parent y ∧ kids y' = kids y ∧ marks y' = marks y.
Proof.
  intros []. rewrite extend_lookup. case_decide; subst; [|eauto 10]. intros [= <-]. eauto.
Qed.

Lemma extend_fwd h cur rc hs ts l y :
  extend_ok h cur rc hs ts → h !! l = Some y →
  ∃ y', extend_store h cur rc hs ts !! l = Some y' ∧ parent y' = parent y ∧ kids y' = kids y ∧ marks y' = marks y.
Proof.
  intros [] Hl. rewrite extend_lookup. case_decide; subst; [|eauto 10]. simplify_eq. eauto.
Qed.

Lemma extend_wf h cur rc hs ts : extend_ok h cur rc hs ts → heap_wf (extend_store h cur rc hs ts).
Proof.
  intros Hok. pose proof (λ l y, extend_back _ _ _ _ _ l y Hok) as Hb.
  pose proof (λ l y, extend_fwd _ _ _ _ _ l y Hok) as Hf.
  pose proof (λ l, extend_lookup h cur rc hs ts l) as Hlk.
  pose proof (λ l, extend_key _ _ _ _ _ l Hok) as Hkey.
  set (h' := extend_store h cur rc hs ts) in *. clearbody h'. destruct Hok as [Hwf Hcur Hpar Hkids Hlen].
  constructor.
  - intros l y' p (y & Hy & Hp & _)%Hb Hp'. rewrite Hp in Hp'.
    destruct (hw_up h Hwf l y p Hy Hp') as (rp & Hrp & Hin).
    destruct (Hf _ _ Hrp) as (rp' & ? & _ & Hk & _). exists rp'. by rewrite Hk.
  - intros p rp' l (rp & Hrp & _ & Hk & _)%Hb Hl. rewrite Hk in Hl.
    destruct (hw_down h Hwf p rp l Hrp Hl) as (y & Hy & Hp).
    destruct (Hf _ _ Hy) as (y' & ? & Hp' & _). exists y'. by rewrite Hp'.
  - intros p rp' (rp & Hrp & _ & Hk & _)%Hb. unfold kid_keys. rewrite Hk.
    rewrite (list_fmap_ext (key h') (key h)) by (intros; apply Hkey). by apply (hw_sorted h Hwf p rp).
  - intros l y. rewrite Hlk. case_decide; [|by apply (hw_run h Hwf l)].
    intros [= <-] _. cbn. destruct (hw_run h Hwf cur rc Hcur Hpar) as [Hne Hl].
    rewrite !length_app. split; [|lia]. by destruct (hashes rc).
  - intros l y' (y & Hy & _ & _ & ->)%Hb. by apply (hw_marks h Hwf l).
  - intros l y' (y & Hy & -> & _)%Hb. by apply (hw_irrefl h Hwf l).
  - intros l y' p rp' s (y & Hy & -> & _ & ->)%Hb Hp (rp & Hrp & -> & _ & ->)%Hb.
    by apply (hw_sub h Hwf l y p rp).
Qed.

Lemma extend_find h cur rc hs ts l y b :
  extend_ok h cur rc hs ts → h !! l = Some y → find (extend_store h cur rc hs ts) l b = find h l b.
Proof.
  intros Hok Hl. destruct (extend_fwd _ _ _ _ _ _ _ Hok Hl) as (y' & Hl' & _ & Hk & _).
  apply (find_ext h _ l y y'); [apply Hok|by apply extend_wf|done|done|].
  intros c. by rewrite extend_key, Hk by done.
Qed.

Lemma extend_appends h cur rc hs ts :
  extend_ok h cur rc hs ts →
  appends h (extend_store h cur rc hs ts) cur (nblocks rc) (λ k, (cur, nblocks rc + k)%nat) hs.
Proof.
  intros Hok. pose proof (λ l, extend_lookup h cur rc hs ts l) as Hlk.
  pose proof (λ l y b, extend_find _ _ _ _ _ l y b Hok) as Hfind.
  set (h' := extend_store h cur rc hs ts) in *. clearbody h'. destruct Hok as [Hwf Hcur Hpar Hkids Hlen].
  assert (Hh : ∀ l y, h !! l = Some y → hashes (h' !!! l) = if decide (l = cur) then hashes rc ++ hs else hashes y).
  { intros l y Hl. pose proof (Hlk l) as H. destruct (decide (l = cur)); [by rewrite (deref_Some _ _ _ H)|].
    rewrite Hl in H. by rewrite (deref_Some _ _ _ H). }
  assert (Hleaf : ∀ b, find h cur b = None).
  { intros b. apply (find_None h Hwf cur rc); [done|]. rewrite Hkids. set_solver. }
  assert (Hend : ∀ root pos y, is_root h root → ok_pos h root pos → h !! pos.1 = Some y →
    (pos.2 ≤ nblocks y)%nat ∧ (hashes y !! pos.2 = None → pos.2 = nblocks y)).
  { intros root pos y (rr & Hrr & _ & Hnil) Hpos Hy. assert (pos.2 ≤ nblocks y)%nat as Hle.
    { destruct Hpos as [->|(z & Hz & _ & Hr)]; [cbn; lia|]. assert (z = y) as -> by congruence. lia. }
    split; [done|]. intros He%lookup_ge_None. unfold nblocks in *. lia. }
  constructor.
  - intros root pos b pos' Hroot Hpos. destruct (ok_pos_lookup _ _ _ Hroot Hpos) as [y Hy].
    unfold step. rewrite (Hh _ _ Hy), (deref_Some _ _ _ Hy), (Hfind _ _ _ Hy).
    destruct (decide (pos.1 = cur)) as [Hpc|]; [|done]. rewrite Hpc in *. assert (y = rc) as -> by congruence.
    destruct (hashes rc !! pos.2) as [z|] eqn:Ez; [|by rewrite Hleaf]. by rewrite (lookup_app_l_Some _ _ _ _ Ez).
  - intros root pos b Hroot Hpos. destruct (ok_pos_lookup _ _ _ Hroot Hpos) as [y Hy].
    destruct (Hend _ _ _ Hroot Hpos Hy) as [Hle He].
    unfold step. rewrite (Hh _ _ Hy), (deref_Some _ _ _ Hy), (Hfind _ _ _ Hy).
    destruct (decide (pos.1 = cur)) as [Hpc|Hpc].
    + rewrite Hpc in *. assert (y = rc) as -> by congruence.
      destruct (hashes rc !! pos.2) as [z|] eqn:Ez.
      { rewrite (lookup_app_l_Some _ _ _ _ Ez). intros ->. rewrite bool_decide_eq_false_2; [done|].
        intros ->. apply lookup_lt_Some in Ez. unfold nblocks in Ez. cbn in Ez. lia. }
      intros _. rewrite (bool_decide_eq_true_2 (pos = _)) by (rewrite (surjective_pairing pos), Hpc, (He eq_refl); done).
      rewrite (He eq_refl), lookup_app_r by (unfold nblocks; lia). unfold nblocks. rewrite Nat.sub_diag. cbn.
      destruct (hs !! 0%nat) as [z|] eqn:E0; [|rewrite Hleaf; done].
      destruct (b =? z) eqn:Eb; bool_props; [subst|]; [rewrite bool_decide_eq_true_2 by done|
        rewrite bool_decide_eq_false_2 by congruence]; [do 2 f_equal; lia|done].
    + intros Hn. rewrite Hn, bool_decide_eq_false_2; [done|]. intros ->. done.
  - intros k b Hk. unfold step. cbn. rewrite (Hh _ _ Hcur), decide_True by done.
    rewrite lookup_app_r by (unfold nblocks; lia). replace (nblocks rc + k - length (hashes rc))%nat with k by (unfold nblocks; lia).
    rewrite (Hfind _ _ _ Hcur), Hleaf. destruct (hs !! k) as [z|] eqn:E0.
    + destruct (b =? z) eqn:Eb; bool_props; [subst|]; [rewrite bool_decide_eq_true_2 by done|
        rewrite bool_decide_eq_false_2 by congruence]; [do 2 f_equal; lia|done].
    + by rewrite bool_decide_eq_false_2.
Qed.
End extend.

(** ** A childless run unlinked *)

(** [l], the [i]-th child of [p], cut off; it stays in the store as garbage. *)
Definition unlink_store (h : gmap loc run) (l p : loc) (x rp : run) (i : nat) : gmap loc run :=
  <[l := set_parent None x]> (<[p := set_kids (delete i (kids rp)) rp]> h).

Record unlink_ok (h : gmap loc run) (l p : loc) (x rp : run) (i : nat) : Prop := {
  uo_wf : heap_wf h;
  uo_l : h !! l = Some x;
  uo_kids : kids x = [];
  uo_par : parent x = Some p;
  uo_p : h !! p = Some rp;
  uo_i : kids rp !! i = Some l;
}.

Section unlink.
Implicit Types (h : gmap loc run) (l p q : loc) (x rp : run) (i : nat).

Lemma unlink_neq h l p x rp i : unlink_ok h l p x rp i → l ≠ p.
Proof. intros [] ->. by apply (hw_irrefl h uo_wf0 p x). Qed.

Lemma unlink_lookup h l p x rp i q :
  unlink_ok h l p x rp i →
  unlink_store h l p x rp i !! q =
  if decide (q = l) then Some (set_parent None x)
  else if decide (q = p) then Some (set_kids (delete i (kids rp)) rp) else h !! q.
Proof.
  intros Hok. pose proof (unlink_neq _ _ _ _ _ _ Hok). unfold unlink_store.
  repeat case_decide; subst; rewrite ?lookup_insert_eq; try done.
  all: rewrite ?lookup_insert_ne, ?lookup_insert_eq by congruence; done.
Qed.

Lemma unlink_kids h l p x rp i c :
  unlink_ok h l p x rp i → c ∈ delete i (kids rp) ↔ c ∈ kids rp ∧ c ≠ l.
Proof. intros []. apply elem_of_delete_NoDup; [by apply (kids_NoDup h uo_wf0 p)|done]. Qed.

Lemma unlink_key h l p x rp i q : unlink_ok h l p x rp i → key (unlink_store h l p x rp i) q = key h q.
Proof.
  intros Hok. pose proof (unlink_lookup _ _ _ _ _ _ q Hok) as Hq. destruct Hok. unfold key.
  repeat case_decide; subst.
  - by rewrite (deref_Some _ _ _ Hq), (deref_Some _ _ _ uo_l0).
  - by rewrite (deref_Some _ _ _ Hq), (deref_Some _ _ _ uo_p0).
  - unfold lookup_total, map_lookup_total. by rewrite Hq.
Qed.

Lemma unlink_wf h l p x rp i : unlink_ok h l p x rp i → heap_wf (unlink_store h l p x rp i).
Proof.
  intros Hok. pose proof (unlink_neq _ _ _ _ _ _ Hok) as Hlp.
  pose proof (λ q, unlink_lookup _ _ _ _ _ _ q Hok) as Hlk.
  pose proof (λ q, unlink_key _ _ _ _ _ _ q Hok) as Hkey.
  pose proof (λ c, unlink_kids _ _ _ _ _ _ c Hok) as Hks.
  set (h' := unlink_store h l p x rp i) in *. clearbody h'.
  destruct Hok as [Hwf Hl Hkids Hpar Hp Hi].
  assert (Hback : ∀ q y, q ≠ l → h' !! q = Some y →
    ∃ y0, h !! q = Some y0 ∧ hashes y = hashes y0 ∧ tokens y = tokens y0 ∧ parent y = parent y0 ∧ marks y = marks y0).
  { intros q y Hq. rewrite Hlk, decide_False by done. destruct (decide (q = p)) as [->|]; [|eauto 10].
    intros [= <-]. eauto 10. }
  constructor.
  - intros q y w Hq Hw. destruct (decide (q = l)) as [->|Hql].
    { rewrite Hlk, decide_True in Hq by done. injection Hq as <-. done. }
    destruct (Hback _ _ Hql Hq) as (y0 & Hy0 & _ & _ & Hpe & _). rewrite Hpe in Hw.
    destruct (hw_up h Hwf q y0 w Hy0 Hw) as (rw & Hrw & Hin). rewrite Hlk.
    assert (w ≠ l) by (intros ->; simplify_eq; rewrite Hkids in Hin; set_solver).
    rewrite decide_False by done. destruct (decide (w = p)) as [->|]; [|eauto].
    simplify_eq. eexists. split; [done|]. cbn. by apply Hks.
  - intros w rw q. rewrite Hlk. destruct (decide (w = l)) as [->|Hwl].
    { intros [= <-]. cbn. rewrite Hkids. set_solver. }
    destruct (decide (w = p)) as [->|Hwp].
    + intros [= <-] [Hq Hql]%Hks. destruct (hw_down h Hwf p rp q Hp Hq) as (y & Hy & Hpy).
      rewrite Hlk, decide_False by done. destruct (decide (q = p)) as [->|]; simplify_eq; eauto.
    + intros Hw Hq. destruct (hw_down h Hwf w rw q Hw Hq) as (y & Hy & Hpy).
      assert (q ≠ l) by (intros ->; congruence).
      rewrite Hlk, decide_False by done. destruct (decide (q = p)) as [->|]; simplify_eq; eauto.
  - intros w rw. unfold kid_keys. rewrite (list_fmap_ext (key h') (key h)) by (intros; apply Hkey).
    rewrite Hlk. destruct (decide (w = l)) as [->|]; [|destruct (decide (w = p)) as [->|]].
    + intros [= <-]. cbn. rewrite Hkids. constructor.
    + intros [= <-]. cbn. rewrite delete_fmap. apply delete_sorted. by apply (hw_sorted h Hwf p).
    + by apply (hw_sorted h Hwf w).
  - intros q y Hq. destruct (decide (q = l)) as [->|Hql].
    { rewrite Hlk, decide_True in Hq by done. injection Hq as <-. done. }
    destruct (Hback _ _ Hql Hq) as (y0 & Hy0 & -> & -> & -> & _). by apply (hw_run h Hwf q).
  - intros q y Hq. destruct (decide (q = l)) as [->|Hql].
    { rewrite Hlk, decide_True in Hq by done. injection Hq as <-. apply (hw_marks h Hwf l x Hl). }
    destruct (Hback _ _ Hql Hq) as (y0 & Hy0 & _ & _ & _ & ->). by apply (hw_marks h Hwf q).
  - intros q y Hq. destruct (decide (q = l)) as [->|Hql].
    { rewrite Hlk, decide_True in Hq by done. injection Hq as <-. done. }
    destruct (Hback _ _ Hql Hq) as (y0 & Hy0 & _ & _ & -> & _). by apply (hw_irrefl h Hwf q).
  - intros q y w rw s Hq Hw Hrw Hlive. destruct (decide (q = l)) as [->|Hql].
    { rewrite Hlk, decide_True in Hq by done. injection Hq as <-. done. }
    destruct (decide (w = l)) as [->|Hwl].
    { rewrite Hlk, decide_True in Hrw by done. injection Hrw as <-. done. }
    destruct (Hback _ _ Hql Hq) as (y0 & Hy0 & _ & _ & Hpy & ->).
    destruct (Hback _ _ Hwl Hrw) as (w0 & Hw0 & _ & _ & Hpw & ->).
    rewrite Hpy in Hw. rewrite Hpw in Hlive. by apply (hw_sub h Hwf q y0 w w0).
Qed.

(** Nothing but the walks into [l] is lost. *)
Definition unlink_pos (l : loc) (pos : loc * nat) : option (loc * nat) :=
  if decide (pos.1 = l) then None else Some pos.

Lemma unlink_step h l p x rp i root pos b :
  unlink_ok h l p x rp i → is_root h root → ok_pos h root pos → pos.1 ≠ l →
  step (unlink_store h l p x rp i) pos b = step h pos b ≫= unlink_pos l.
Proof.
  intros Hok Hroot Hpos Hne. pose proof (unlink_neq _ _ _ _ _ _ Hok) as Hlp.
  pose proof (unlink_lookup _ _ _ _ _ _ pos.1 Hok) as Hq. rewrite decide_False in Hq by done.
  pose proof (λ q, unlink_key _ _ _ _ _ _ q Hok) as Hkey.
  pose proof (λ c, unlink_kids _ _ _ _ _ _ c Hok) as Hks.
  pose proof (unlink_wf _ _ _ _ _ _ Hok) as Hwf'.
  set (h' := unlink_store h l p x rp i) in *. clearbody h'.
  destruct Hok as [Hwf Hl Hkids Hpar Hp Hi].
  destruct (ok_pos_lookup _ _ _ Hroot Hpos) as [y Hy].
  assert (∃ y', h' !! pos.1 = Some y' ∧ hashes y' = hashes y ∧
    (∀ c, c ∈ kids y' ↔ c ∈ kids y ∧ c ≠ l)) as (y' & Hy' & Hhy & Hky).
  { destruct (decide (pos.1 = p)) as [Hpp|Hpp].
    - rewrite Hpp in Hy. assert (y = rp) as -> by congruence. eauto.
    - exists y. rewrite Hq. split_and!; [done..|]. intros c. split; [|tauto]. intros Hc. split; [done|].
      intros ->. apply Hpp. apply (kids_distinct h pos.1 p y rp l); auto. by eapply list_elem_of_lookup_2. }
  unfold step. rewrite (deref_Some _ _ _ Hy), (deref_Some _ _ _ Hy'), Hhy.
  destruct (hashes y !! pos.2) as [z|].
  { destruct (b =? z); [|done]. cbn. unfold unlink_pos. cbn. by rewrite decide_False. }
  destruct (find h pos.1 b) as [c|] eqn:Ec.
  - apply (find_Some h Hwf _ _ _ _ Hy) in Ec as [Hc Hk]. cbn. unfold unlink_pos. cbn.
    destruct (decide (c = l)) as [->|Hcl].
    + assert (find h' pos.1 b = None) as ->; [|done]. apply (find_None h' Hwf' _ _ _ Hy').
      intros c' [Hc' Hcl]%Hky Hk'. rewrite Hkey in Hk'.
      pose proof (proj2 (find_Some h Hwf _ _ b c' Hy) (conj Hc' Hk')) as F1.
      pose proof (proj2 (find_Some h Hwf _ _ b l Hy) (conj Hc Hk)) as F2. congruence.
    + assert (find h' pos.1 b = Some c) as ->; [|done]. apply (find_Some h' Hwf' _ _ _ _ Hy').
      rewrite Hky, Hkey. done.
  - assert (find h' pos.1 b = None) as ->; [|done]. apply (find_None h' Hwf' _ _ _ Hy').
    intros c' [Hc' Hcl]%Hky. rewrite Hkey. by apply (find_None h Hwf _ _ _ Hy).
Qed.

Lemma unlink_locate h l p x rp i (root : loc) (q : list Z) :
  unlink_ok h l p x rp i → is_root h root →
  locate (unlink_store h l p x rp i) root q = locate h root q ≫= unlink_pos l.
Proof.
  intros Hok Hroot. induction q as [|b q IH] using rev_ind.
  - cbn. unfold unlink_pos. cbn. rewrite decide_False; [done|]. intros ->.
    destruct Hok, Hroot as (rr & ? & ? & _). congruence.
  - rewrite !locate_snoc, IH. destruct (locate h root q) as [pos|] eqn:E; [|done]. cbn.
    pose proof (locate_ok h (uo_wf _ _ _ _ _ _ Hok) _ _ _ Hroot E) as Hpos.
    unfold unlink_pos at 1. destruct (decide (pos.1 = l)) as [Hpl|]; cbn.
    + destruct Hok. unfold step. rewrite Hpl, (deref_Some _ _ _ uo_l0).
      destruct (hashes x !! pos.2) as [z|]; [destruct (b =? z); [|done]|].
      * cbn. unfold unlink_pos. cbn. by rewrite decide_True.
      * assert (find h l b = None) as ->; [|done]. apply (find_None h uo_wf0 _ _ _ uo_l0).
        rewrite uo_kids0. set_solver.
    + by apply (unlink_step _ _ _ _ _ _ root).
Qed.
End unlink.

(** ** A new root *)

Lemma insert_root_wf h l : heap_wf h → h !! l = None → heap_wf (<[l := nil_run]> h).
Proof.
  intros Hwf Hl.
  assert (Hlk : ∀ q, <[l := nil_run]> h !! q = if decide (q = l) then Some nil_run else h !! q).
  { intros q. case_decide; subst; [by rewrite lookup_insert_eq|by rewrite lookup_insert_ne]. }
  set (h' := <[l := nil_run]> h) in *.
  assert (Hkk : ∀ q y, h !! q = Some y → kid_keys h' y = kid_keys h y).
  { intros q y Hq. apply kid_keys_ext. intros k Hk. destruct (hw_down h Hwf q y k Hq Hk) as (rk & Hrk & _).
    pose proof (Hlk k) as H. rewrite decide_False in H by congruence.
    unfold lookup_total, map_lookup_total. by rewrite H. }
  clearbody h'. constructor.
  - intros q y p. rewrite Hlk. case_decide; [by intros [= <-]|]. intros Hq Hp.
    destruct (hw_up h Hwf q y p Hq Hp) as (rp & ? & ?). rewrite Hlk, decide_False by congruence. eauto.
  - intros p rp q. rewrite Hlk. case_decide; [intros [= <-]; set_solver|]. intros Hq Hp.
    destruct (hw_down h Hwf p rp q Hq Hp) as (y & ? & ?). rewrite Hlk, decide_False by congruence. eauto.
  - intros p rp. rewrite Hlk. case_decide; [intros [= <-]; constructor|]. intros Hp.
    rewrite (Hkk _ _ Hp). by apply (hw_sorted h Hwf p).
  - intros q y. rewrite Hlk. case_decide; [by intros [= <-]|]. apply (hw_run h Hwf q).
  - intros q y. rewrite Hlk. case_decide; [|apply (hw_marks h Hwf q)]. intros [= <-]. constructor.
  - intros q y. rewrite Hlk. case_decide; [by intros [= <-]|]. apply (hw_irrefl h Hwf q).
  - intros q y p rp s. rewrite !Hlk. destruct (decide (q = l)); [by intros [= <-]|]. intros Hq Hp.
    destruct (decide (p = l)); [by intros [= <-]|]. by apply (hw_sub h Hwf q y p rp).
Qed.

Lemma insert_root_locate h l root q :
  heap_wf h → h !! l = None → is_root h root →
  locate (<[l := nil_run]> h) root q = locate h root q.
Proof.
  intros Hwf Hl Hroot. induction q as [|b q IH] using rev_ind; [done|]. rewrite !locate_snoc, IH.
  destruct (locate h root q) as [pos|] eqn:E; [|done]. cbn.
  destruct (ok_pos_lookup _ _ _ Hroot (locate_ok h Hwf _ _ _ Hroot E)) as [y Hy].
  assert (<[l := nil_run]> h !! pos.1 = Some y) as Hy' by (rewrite lookup_insert_ne by congruence; done).
  unfold step. rewrite (deref_Some _ _ _ Hy), (deref_Some _ _ _ Hy').
  destruct (hashes y !! pos.2); [done|]. rewrite (find_ext h _ pos.1 y y); [done|done| |done..|].
  - by apply insert_root_wf.
  - intros c. split; intros [Hc Hk]; (split; [done|]); destruct (hw_down h Hwf _ _ c Hy Hc) as (rk & Hrk & _);
      rewrite <-Hk; [symmetry|]; eapply key_ext; try done; rewrite lookup_insert_ne by congruence; done.
Qed.

Lemma insert_root_locate_new h l q :
  heap_wf h → h !! l = None → q ≠ [] → locate (<[l := nil_run]> h) l q = None.
Proof.
  intros Hwf Hl Hq. destruct q as [|b q]; [done|]. clear Hq.
  assert (<[l := nil_run]> h !! l = Some nil_run) as Hn by apply lookup_insert_eq.
  assert (locate (<[l := nil_run]> h) l [b] = None) as H1.
  { unfold locate. cbn. unfold step. cbn. rewrite (deref_Some _ _ _ Hn). cbn.
    assert (find (<[l := nil_run]> h) l b = None) as ->; [|done].
    apply (find_None _ (insert_root_wf h l Hwf Hl) _ _ _ Hn). cbn. set_solver. }
  destruct (locate _ l (b :: q)) as [pos|] eqn:E; [|done].
  destruct (locate_prefix_Some _ l [b] q pos E). congruence.
Qed.
