(* ===== verification/TreeShard.v ===== *)
(** * TreeShard: the invariant of a shard, and what a shard remembers

    [shard_wf] ties the store to the bookkeeping beside it: the roots, the childless runs,
    the counters.  [holds] is the abstract view: which backend slots hold which block
    prefix of which model.  Each primitive update keeps the first and has a known effect on
    the second. *)

From stdpp Require Import base gmap sets list strings sorting.
From Stdlib Require Import ZArith Lia.
From S2P Require Import Prelude MarkSet KvUnits AffinityTree TreeWf TreeStep.
Open Scope Z_scope.

(** ** The invariant *)

Definition w_run (r : run) : Z := if decide (parent r = None) then 0 else 1.
Definition w_blocks (r : run) : Z := if decide (parent r = None) then 0 else blocks r.
Definition w_copies (r : run) : Z := if decide (parent r = None) then 0 else blocks r * Count (marks r).

Definition childless (h : gmap loc run) (l : loc) : Prop :=
  ∃ r, h !! l = Some r ∧ parent r ≠ None ∧ kids r = [].

Record shard_wf (s : shard) : Prop := {
  sw_heap : heap_wf (store s);
  sw_fresh : fresh_ok s;
  sw_root k l : roots s !! k = Some l → is_root (store s) l;
  sw_root_inj k1 k2 l : roots s !! k1 = Some l → roots s !! k2 = Some l → k1 = k2;
  sw_tails l : l ∈ tails s ↔ childless (store s) l;
  sw_reach l r : store s !! l = Some r → parent r ≠ None →
    ∃ k root q, roots s !! k = Some root ∧ locate (store s) root q = Some (l, nblocks r);
  sw_runs : runs s = msum w_run (store s);
  sw_blocks : blocks_total s = msum w_blocks (store s);
  sw_copies : copies s = msum w_copies (store s);
}.

(** ** The abstract view *)

(** Where the blocks [q] of model [k] are recorded: a run, and how many of its blocks. *)
Definition place (s : shard) (k : Z) (q : list Z) : option (loc * nat) :=
  root ← roots s !! k; locate (store s) root q.

(** Slot [b] holds the prefix [q] of model [k]. *)
Definition holds (s : shard) (k : Z) (q : list Z) (b : Z) : bool :=
  match place s k q with
  | Some (l, S _) => Has (marks (deref s l)) b
  | _ => false
  end.

(** Some run records the prefix [q] of model [k], whoever holds it. *)
Definition recorded (s : shard) (k : Z) (q : list Z) : bool :=
  match place s k q with Some (_, S _) => true | _ => false end.

(** The number of leading elements of [xs] whose every prefix, after [acc], passes [f]. *)
Fixpoint lead (f : list Z → bool) (acc xs : list Z) : nat :=
  match xs with
  | [] => O
  | x :: xs => if f (acc ++ [x]) then S (lead f (acc ++ [x]) xs) else O
  end.

Lemma lead_app f acc xs m :
  (m ≤ length xs)%nat → (∀ j, (1 ≤ j ≤ m)%nat → f (acc ++ take j xs) = true) →
  lead f acc xs = (m + lead f (acc ++ take m xs) (drop m xs))%nat.
Proof.
  revert acc xs. induction m as [|m IH]; intros acc xs Hm Hf.
  - by rewrite take_0, app_nil_r.
  - destruct xs as [|x xs]; [cbn in Hm; lia|]. cbn [lead take drop Nat.add].
    pose proof (Hf 1%nat ltac:(lia)) as H1. cbn in H1. rewrite take_0 in H1. rewrite H1. f_equal.
    cbn in Hm. rewrite IH, <-app_assoc; [done|lia|]. intros j Hj. rewrite <-app_assoc. cbn.
    apply (Hf (S j)). lia.
Qed.

Lemma lead_0 f acc xs : f (acc ++ take 1 xs) = false → lead f acc xs = 0%nat.
Proof. destruct xs as [|x xs]; [done|]. cbn. rewrite take_0. by intros ->. Qed.

Lemma lead_ext f g acc xs :
  (∀ q, (length acc < length q)%nat → f q = g q) → lead f acc xs = lead g acc xs.
Proof.
  revert acc. induction xs as [|x xs IH]; intros acc H; [done|]. cbn.
  rewrite H by (rewrite length_app; cbn; lia). destruct (g _); [|done]. f_equal. apply IH.
  intros q Hq. apply H. rewrite length_app in Hq. lia.
Qed.

Lemma lead_le f acc xs : (lead f acc xs ≤ length xs)%nat.
Proof.
  revert acc. induction xs as [|x xs IH]; intros acc; cbn; [lia|]. destruct (f _); [|lia].
  specialize (IH (acc ++ [x])). lia.
Qed.

(** [lead] counts exactly the prefixes below the first one that fails. *)
Lemma lead_spec f acc xs j :
  (1 ≤ j ≤ length xs)%nat → (∀ i, (1 ≤ i ≤ j)%nat → f (acc ++ take i xs) = true) ↔ (j ≤ lead f acc xs)%nat.
Proof.
  revert acc j. induction xs as [|x xs IH]; intros acc j Hj; cbn in Hj |- *; [lia|].
  split.
  - intros H. pose proof (H 1%nat ltac:(lia)) as H1. cbn in H1. rewrite take_0 in H1. rewrite H1.
    destruct j as [|[|j]]; [lia..|]. apply le_n_S, (IH (acc ++ [x])); [lia|]. intros i Hi.
    rewrite <-app_assoc. apply (H (S i)). lia.
  - destruct (f (acc ++ [x])) eqn:E; [|lia]. intros H i Hi. destruct i as [|i]; [lia|]. cbn.
    destruct (decide (i = 0)%nat) as [->|]; [by rewrite take_0|].
    replace (acc ++ x :: take i xs) with ((acc ++ [x]) ++ take i xs) by (by rewrite <-app_assoc).
    apply (proj2 (IH (acc ++ [x]) i ltac:(lia))); lia.
Qed.

(** ** Walking along one run *)

Lemma matched_len_spec hs rest :
  let m := matched_len hs rest in
  take m rest = take m hs ∧ (m ≤ length hs)%nat ∧ (m ≤ length rest)%nat ∧
  (∀ a b, hs !! m = Some a → rest !! m = Some b → a ≠ b).
Proof.
  revert rest. induction hs as [|h hs IH]; intros [|x rest]; cbn; try (split_and!; try done; lia).
  destruct (h =? x) eqn:E; bool_props; cbn.
  - subst. destruct (IH rest) as (? & ? & ? & ?). split_and!; [by f_equal|lia|lia|done].
  - split_and!; [done|lia|lia|]. intros a b [= <-] [= <-]. done.
Qed.

Lemma locate_child h root q0 cur rc c y rest m :
  heap_wf h → is_root h root → locate h root q0 = Some (cur, nblocks rc) → h !! cur = Some rc →
  h !! c = Some y → (∀ x, rest !! 0%nat = Some x → find h cur x = Some c) →
  take m rest = take m (hashes y) → (m ≤ length rest)%nat → (1 ≤ m)%nat →
  locate h root (q0 ++ take m rest) = Some (c, m).
Proof.
  intros Hwf Hroot H0 Hcur Hc Hfind. induction m as [|m IH]; intros Ht Hlr Hm; [lia|].
  destruct (lookup_lt_is_Some_2 rest m) as [b Hb]; [lia|].
  assert (hashes y !! m = Some b) as Hyb.
  { assert (take (S m) rest !! m = Some b) as H by (rewrite lookup_take_lt by lia; done).
    rewrite Ht in H. by apply lookup_take_Some in H as [? _]. }
  rewrite (take_S_r _ _ _ Hb), app_assoc, locate_snoc. destruct m as [|m].
  - rewrite take_0, app_nil_r, H0. cbn. unfold step. cbn. rewrite (deref_Some _ _ _ Hcur).
    rewrite lookup_ge_None_2 by (unfold nblocks; lia). by rewrite (Hfind _ Hb).
  - rewrite IH; [|by apply (f_equal (take (S m))) in Ht; rewrite !take_take, !Nat.min_l in Ht by lia|lia|lia].
    cbn. unfold step. cbn. rewrite (deref_Some _ _ _ Hc), Hyb. by rewrite Z.eqb_refl.
Qed.

(** Every position inside a run was reached through its earlier blocks. *)
Lemma locate_back h root q l o :
  heap_wf h → is_root h root → locate h root q = Some (l, S (S o)) →
  ∃ q' b, q = q' ++ [b] ∧ locate h root q' = Some (l, S o).
Proof.
  intros Hwf Hroot H. destruct q as [|b q _] using rev_ind; [by inversion H|].
  exists q, b. split; [done|]. rewrite locate_snoc in H.
  destruct (locate h root q) as [[l1 o1]|] eqn:E; [|done]. cbn in H. unfold step in H. cbn in H.
  destruct (hashes (h !!! l1) !! o1) as [z|]; [destruct (b =? z); [|done]; by simplify_eq|].
  destruct (find h l1 b); by simplify_eq/=.
Qed.

Lemma locate_inside h root q l n o :
  heap_wf h → is_root h root → locate h root q = Some (l, n) → (1 ≤ o ≤ n)%nat →
  ∃ q', q' `prefix_of` q ∧ locate h root q' = Some (l, o).
Proof.
  intros Hwf Hroot. revert q. induction n as [|n IH]; intros q H Ho; [lia|].
  destruct (decide (o = S n)) as [->|]; [by exists q|]. destruct n as [|n]; [lia|].
  destruct (locate_back _ _ _ _ _ Hwf Hroot H) as (q' & b & -> & H').
  destruct (IH _ H') as (q'' & Hp & H''); [lia|]. exists q''. split; [|done].
  etrans; [done|]. by apply prefix_app_r.
Qed.

(** ** The updates, on a shard *)

Section shard.
Implicit Types (s : shard) (l r root cur : loc) (k b : Z).

Lemma place_ok s k q pos :
  shard_wf s → place s k q = Some pos → ∃ root, roots s !! k = Some root ∧ is_root (store s) root ∧
    locate (store s) root q = Some pos ∧ ok_pos (store s) root pos.
Proof.
  unfold place. intros Hwf H. destruct (roots s !! k) as [root|] eqn:E; [|done]. cbn in H.
  pose proof (sw_root s Hwf _ _ E) as Hr. exists root. split_and!; try done.
  eapply locate_ok; [apply Hwf|done..].
Qed.

Lemma place_lookup s k q l o :
  shard_wf s → place s k q = Some (l, S o) →
  ∃ y, store s !! l = Some y ∧ parent y ≠ None ∧ (S o ≤ nblocks y)%nat.
Proof.
  intros Hwf H. destruct (place_ok _ _ _ _ Hwf H) as (root & _ & _ & _ & [Hp|(y & Hy & Hp & Ho)]); [done|].
  cbn in *. exists y. split_and!; [done..|lia].
Qed.

Lemma place_inj s k1 k2 q1 q2 pos :
  shard_wf s → place s k1 q1 = Some pos → place s k2 q2 = Some pos → k1 = k2 ∧ q1 = q2.
Proof.
  intros Hwf H1 H2. destruct (place_ok _ _ _ _ Hwf H1) as (r1 & Hr1 & Hi1 & Hl1 & _).
  destruct (place_ok _ _ _ _ Hwf H2) as (r2 & Hr2 & Hi2 & Hl2 & _).
  destruct (locate_inj _ (sw_heap s Hwf) _ _ _ _ _ Hi1 Hi2 Hl1 Hl2) as [<- <-]. split; [|done].
  by apply (sw_root_inj s Hwf _ _ r1).
Qed.

(** A prefix of something held is held. *)
Lemma place_prefix s k q1 q2 : is_Some (place s k (q1 ++ q2)) → is_Some (place s k q1).
Proof.
  unfold place. destruct (roots s !! k) as [root|]; [|by intros []]. cbn. intros [pos H].
  by eapply locate_prefix_Some.
Qed.

Lemma splitRun_shard s r x m :
  shard_wf s → store s !! r = Some x → parent x ≠ None → (0 < m < nblocks x)%nat →
  ∃ p rp i, split_ok (store s) r (fresh s) p x rp i m ∧
    splitRun r m s = (fresh s, Shard (split_store (store s) r (fresh s) p x rp i m) (Pos.succ (fresh s))
      (roots s) (tails s) (runs s + 1) (blocks_total s) (copies s) (expired s)).
Proof.
  intros Hwf Hr Hpar Hm. destruct (parent x) as [p|] eqn:Ep; [|done].
  destruct (hw_up _ (sw_heap s Hwf) r x p Hr Ep) as (rp & Hp & [i Hi]%list_elem_of_lookup).
  exists p, rp, i. split.
  - constructor; auto; [apply Hwf|apply fresh_None, Hwf].
  - rewrite (splitRun_eq s r x p rp i m), !Z.add_0_r; [done|apply Hwf|apply Hwf|done..|lia].
Qed.

Lemma split_is_root h r u p x rp i m l :
  split_ok h r u p x rp i m → is_root h l → is_root (split_store h r u p x rp i m) l.
Proof.
  intros Hok (y & Hy & Hp & Hh). unfold is_root. rewrite (split_lookup _ _ _ _ _ _ _ _ _ Hok).
  destruct Hok. rewrite decide_False by congruence. rewrite decide_False by congruence.
  destruct (decide (l = p)) as [->|]; [|eauto]. eexists. split; [done|]. cbn. by simplify_eq.
Qed.

Lemma split_weights (w : run → Z) h r u p x rp i m :
  split_ok h r u p x rp i m → w (split_top rp u i) = w rp →
  msum w (split_store h r u p x rp i m) = msum w h - w x + w (split_lower x u m) + w (split_upper x p r m).
Proof.
  intros Hok Hw. destruct (split_neq _ _ _ _ _ _ _ _ Hok) as (? & ? & ?). destruct Hok. unfold split_store.
  rewrite (msum_insert_old _ _ _ x) by (rewrite !lookup_insert_ne by congruence; done).
  rewrite msum_insert_new by (rewrite lookup_insert_ne by congruence; done).
  rewrite (msum_insert_old _ _ _ rp) by done. lia.
Qed.

Lemma split_shard_wf s r x m :
  shard_wf s → store s !! r = Some x → parent x ≠ None → (0 < m < nblocks x)%nat →
  shard_wf (splitRun r m s).2.
Proof.
  intros Hwf Hr Hpar Hm. destruct (splitRun_shard s r x m Hwf Hr Hpar Hm) as (p & rp & i & Hok & ->).
  pose proof (λ l, split_lookup _ _ _ _ _ _ _ _ l Hok) as Hlk.
  pose proof (split_neq _ _ _ _ _ _ _ _ Hok) as (Hrp & Hur & Hup).
  pose proof (λ root q, split_locate _ _ _ _ _ _ _ _ root q Hok) as Hloc.
  assert (Hw : ∀ w, w (split_top rp (fresh s) i) = w rp → _) by (intros w; apply (split_weights w _ _ _ _ _ _ _ _ Hok)).
  constructor; cbn [store fresh roots tails runs blocks_total copies snd].
  - by apply split_wf.
  - intros l y. cbn. rewrite Hlk. pose proof (sw_fresh s Hwf) as Hf. repeat case_decide; subst; intros Hl; try lia.
    + apply Hf in Hr. lia.
    + destruct Hok. apply Hf in so_p. lia.
    + apply Hf in Hl. lia.
  - intros k l Hk. apply split_is_root; [done|]. by apply (sw_root s Hwf k).
  - apply (sw_root_inj s Hwf).
  - intros l. rewrite (sw_tails s Hwf). unfold childless. setoid_rewrite Hlk. destruct Hok.
    destruct (decide (l = r)) as [->|]; [|destruct (decide (l = fresh s)) as [->|]; [|destruct (decide (l = p)) as [->|]; [|done]]].
    + split; intros (y & ? & ? & ?); simplify_eq; [exists (split_lower x (fresh s) m)|exists x]; done.
    + split; intros (y & ? & ? & ?); simplify_eq.
    + split; intros (y & ? & ? & Hk); simplify_eq; exfalso; cbn in Hk; [by rewrite Hk in so_i|].
      apply (f_equal length) in Hk. rewrite length_insert in Hk. apply lookup_lt_Some in so_i. cbn in Hk. lia.
  - intros l y. rewrite Hlk. intros Hl Hpy.
    assert (∃ l0 y0 n, store s !! l0 = Some y0 ∧ parent y0 ≠ None ∧ (1 ≤ n ≤ nblocks y0)%nat ∧
      split_pos r (fresh s) m (l0, n) = (l, nblocks y)) as (l0 & y0 & n & Hl0 & Hp0 & Hn & Hpos).
    { unfold split_pos. cbn [fst snd]. destruct (decide (l = r)) as [->|].
      - exists r, x, (nblocks x). rewrite !decide_True, decide_False by (done || lia). injection Hl as <-.
        split_and!; [done..|lia|done|]. unfold nblocks. cbn. by rewrite length_drop.
      - destruct (decide (l = fresh s)) as [->|].
        + exists r, x, m. rewrite !decide_True by (done || lia). injection Hl as <-.
          split_and!; [done..|lia|lia|]. unfold nblocks in *. cbn. rewrite length_take. f_equal. lia.
        + assert (∃ y0, store s !! l = Some y0 ∧ parent y0 = parent y ∧ hashes y0 = hashes y) as (y0 & ? & Hpe & Hhe).
          { destruct Hok. case_decide; subst; simplify_eq; eauto. }
          exists l, y0, (nblocks y0). rewrite decide_False by done. rewrite Hpe. split_and!; try done.
          * destruct (hw_run _ (sw_heap s Hwf) l y0) as [Hne _]; [done|by rewrite Hpe|].
            unfold nblocks. destruct (hashes y0); [done|cbn; lia].
          * unfold nblocks. by rewrite Hhe. }
    destruct (sw_reach s Hwf l0 y0 Hl0 Hp0) as (k & root & q & Hk & Hq).
    destruct (locate_inside _ _ _ _ _ n (sw_heap s Hwf) (sw_root s Hwf _ _ Hk) Hq Hn) as (q' & _ & Hq').
    exists k, root, q'. split; [done|]. rewrite Hloc, Hq' by (by apply (sw_root s Hwf k)). cbn. by rewrite Hpos.
  - rewrite Hw by done. rewrite (sw_runs s Hwf). unfold w_run. cbn.  rewrite !(decide_False (P:=_ = None)) by done. lia.
  - rewrite Hw by done. rewrite (sw_blocks s Hwf). unfold w_blocks, blocks. cbn. rewrite !(decide_False (P:=_ = None)) by done.
    rewrite length_drop, length_take. unfold nblocks in Hm. lia.
  - rewrite Hw by done. rewrite (sw_copies s Hwf). unfold w_copies, blocks. cbn. rewrite !(decide_False (P:=_ = None)) by done.
    rewrite length_drop, length_take. unfold nblocks in Hm. nia.
Qed.

Lemma split_place s r x m k q :
  shard_wf s → store s !! r = Some x → parent x ≠ None → (0 < m < nblocks x)%nat →
  place (splitRun r m s).2 k q = split_pos r (fresh s) m <$> place s k q.
Proof.
  intros Hwf Hr Hpar Hm. destruct (splitRun_shard s r x m Hwf Hr Hpar Hm) as (p & rp & i & Hok & ->).
  unfold place. cbn. destruct (roots s !! k) as [root|] eqn:Ek; [|done]. cbn.
  apply (split_locate _ _ _ _ _ _ _ _ _ _ Hok). by apply (sw_root s Hwf k).
Qed.

Lemma split_marks s r x m l :
  shard_wf s → store s !! r = Some x → parent x ≠ None → (0 < m < nblocks x)%nat → is_Some (store s !! l) →
  marks (deref (splitRun r m s).2 l) = marks (deref s l) ∧
  marks (deref (splitRun r m s).2 (fresh s)) = marks (deref s r).
Proof.
  intros Hwf Hr Hpar Hm [y Hy]. destruct (splitRun_shard s r x m Hwf Hr Hpar Hm) as (p & rp & i & Hok & ->).
  pose proof (λ l, split_lookup _ _ _ _ _ _ _ _ l Hok) as Hlk. unfold deref. cbn.
  assert (l ≠ fresh s) as Hlf by (apply (sw_fresh s Hwf) in Hy; lia).
  destruct (split_neq _ _ _ _ _ _ _ _ Hok) as (Hrp & Hur & Hup).
  rewrite (deref_Some _ _ _ Hr), (deref_Some _ _ _ Hy). destruct Hok. split.
  - pose proof (Hlk l) as H. destruct (decide (l = r)) as [->|].
    { rewrite (deref_Some _ _ _ H). by simplify_eq. }
    rewrite decide_False in H by done. destruct (decide (l = p)) as [->|].
    { rewrite (deref_Some _ _ _ H). by simplify_eq. }
    rewrite Hy in H. by rewrite (deref_Some _ _ _ H).
  - pose proof (Hlk (fresh s)) as H. rewrite decide_False, decide_True in H by done.
    by rewrite (deref_Some _ _ _ H).
Qed.

Lemma split_holds s r x m k q b :
  shard_wf s → store s !! r = Some x → parent x ≠ None → (0 < m < nblocks x)%nat →
  holds (splitRun r m s).2 k q b = holds s k q b ∧ recorded (splitRun r m s).2 k q = recorded s k q.
Proof.
  intros Hwf Hr Hpar Hm. unfold holds, recorded. rewrite (split_place s r x m) by done.
  destruct (place s k q) as [[l [|o]]|] eqn:E; cbn; [| |done].
  - unfold split_pos. cbn. by repeat case_decide.
  - destruct (place_lookup _ _ _ _ _ Hwf E) as (y & Hy & _ & _).
    destruct (split_marks s r x m l Hwf Hr Hpar Hm) as [Hm1 Hm2]; [eauto|].
    unfold split_pos. cbn [fst snd]. destruct (decide (l = r)) as [->|]; [|by rewrite Hm1].
    destruct (decide (S o ≤ m)%nat); [by rewrite Hm2|]. destruct (S o - m)%nat eqn:Es; [lia|]. by rewrite Hm1.
Qed.

(** ** Marking a run *)

Lemma markRun_store c b now s x :
  store s !! c = Some x →
  store (markRun c b now s) = <[c := touch now (set_marks (if Has (marks x) b then marks x else Add (marks x) b) x)]> (store s) ∧
  fresh (markRun c b now s) = fresh s ∧ roots (markRun c b now s) = roots s ∧
  tails (markRun c b now s) = tails s ∧ runs (markRun c b now s) = runs s ∧
  blocks_total (markRun c b now s) = blocks_total s ∧
  copies (markRun c b now s) = copies s + (if Has (marks x) b then 0 else blocks x) ∧
  expired (markRun c b now s) = expired s.
Proof.
  intros Hc. unfold markRun. assert (deref s c = x) as -> by (by apply deref_Some).
  destruct (Has (marks x) b) eqn:E; cbn.
  - split_and!; try done; try lia. apply map_eq. intros l. destruct (decide (l = c)) as [->|].
    + rewrite lookup_alter_eq, lookup_insert_eq, Hc. done.
    + by rewrite lookup_alter_ne, lookup_insert_ne.
  - assert (deref (upd c (λ x, set_marks (Add (marks x) b) x) s) c = set_marks (Add (marks x) b) x) as ->.
    { apply deref_Some. cbn. by rewrite lookup_alter_eq, Hc. }
    split_and!; try done; try (cbn; lia). apply map_eq. intros l. destruct (decide (l = c)) as [->|].
    + rewrite !lookup_alter_eq, lookup_insert_eq, Hc. done.
    + by rewrite !lookup_alter_ne, lookup_insert_ne.
Qed.

Lemma Has_markset x b b' :
  0 ≤ b → Has (if Has x b then x else Add x b) b' = Has x b' || (b' =? b).
Proof.
  intros Hb. destruct (Has x b) eqn:E.
  - destruct (b' =? b) eqn:Eb; bool_props; subst; [by rewrite E|by rewrite orb_false_r].
  - rewrite Add_has. destruct (b' =? b) eqn:Eb; bool_props; subst; [by rewrite bool_decide_eq_true_2|rewrite bool_decide_eq_false_2 by lia].
    rewrite orb_false_r. done.
Qed.

(** The walk to [q] ends inside run [c]. *)
Definition inside (s : shard) (k : Z) (q : list Z) (c : loc) : bool :=
  match place s k q with Some (l, S _) => bool_decide (l = c) | _ => false end.

Lemma mark_same_shape s c b now x :
  store s !! c = Some x → same_shape (store s) (store (markRun c b now s)).
Proof.
  intros Hc. destruct (markRun_store c b now s x Hc) as (-> & _). apply map_eq. intros l.
  rewrite !lookup_fmap. destruct (decide (l = c)) as [->|]; [by rewrite lookup_insert_eq, Hc|by rewrite lookup_insert_ne].
Qed.

Lemma mark_place s c b now x k q :
  store s !! c = Some x → place (markRun c b now s) k q = place s k q.
Proof.
  intros Hc. unfold place. destruct (markRun_store c b now s x Hc) as (_ & _ & -> & _).
  destruct (roots s !! k) as [root|]; [|done]. cbn. apply same_shape_locate. by eapply mark_same_shape.
Qed.

Lemma mark_deref s c b now x l :
  store s !! c = Some x → 0 ≤ b →
  ∀ b', Has (marks (deref (markRun c b now s) l)) b' =
        Has (marks (deref s l)) b' || bool_decide (l = c) && (b' =? b).
Proof.
  intros Hc Hb b'. unfold deref. destruct (markRun_store c b now s x Hc) as (-> & _).
  destruct (decide (l = c)) as [->|].
  - rewrite lookup_total_insert_eq, (deref_Some _ _ _ Hc), bool_decide_eq_true_2 by done. cbn [marks touch set_marks].
    by apply Has_markset.
  - rewrite lookup_total_insert_ne, bool_decide_eq_false_2 by done. by rewrite orb_false_r.
Qed.

Lemma mark_holds s c b now x k q b' :
  store s !! c = Some x → 0 ≤ b →
  holds (markRun c b now s) k q b' = holds s k q b' || (inside s k q c && (b' =? b)) ∧
  recorded (markRun c b now s) k q = recorded s k q.
Proof.
  intros Hc Hb. unfold holds, recorded, inside. rewrite (mark_place _ _ _ _ x) by done.
  destruct (place s k q) as [[l [|o]]|]; [done| |done]. by rewrite (mark_deref _ _ _ _ x).
Qed.

Lemma same_shape_childless h h' l : same_shape h h' → childless h' l ↔ childless h l.
Proof.
  assert (∀ h h', same_shape h h' → childless h l → childless h' l) as Hd.
  { clear. intros h h' Hs (y & Hy & Hp & Hk). destruct (same_shape_lookup _ _ _ _ Hs Hy) as (y' & Hy' & Hsh).
    apply shape_inj in Hsh as (_ & _ & Hp' & Hk'). exists y'. by rewrite Hp', Hk'. }
  intros Hs. split; apply Hd; [by apply same_shape_sym|done].
Qed.

Lemma same_shape_root h h' l : same_shape h h' → is_root h l → is_root h' l.
Proof.
  intros Hs (y & Hy & Hp & Hk). destruct (same_shape_lookup _ _ _ _ Hs Hy) as (y' & Hy' & Hsh).
  apply shape_inj in Hsh as (Hh & _ & Hp' & _). exists y'. by rewrite Hp', Hh.
Qed.

Lemma mark_shard_wf s c b now x :
  shard_wf s → store s !! c = Some x → parent x ≠ None → 0 ≤ b →
  (∀ p rp, parent x = Some p → store s !! p = Some rp → parent rp ≠ None → Has (marks rp) b = true) →
  shard_wf (markRun c b now s).
Proof.
  intros Hwf Hc Hpar Hb Hanc. pose proof (mark_same_shape s c b now x Hc) as Hs.
  pose proof (λ l, mark_deref s c b now x l Hc Hb) as Hhas.
  destruct (markRun_store c b now s x Hc) as (Hst & Hfr & Hro & Hta & Hru & Hbl & Hco & _).
  set (y := touch now (set_marks (if Has (marks x) b then marks x else Add (marks x) b) x)) in *.
  pose proof (hw_marks _ (sw_heap s Hwf)) as Hm.
  assert (wf_marks (marks y)) as Hmy.
  { unfold y. cbn. destruct (Has (marks x) b); [by apply (Hm c)|]. apply Add_wf. by apply (Hm c). }
  constructor; rewrite ?Hro, ?Hta, ?Hru, ?Hbl, ?Hco.
  - apply (same_shape_wf (store s)); [apply Hwf|done| |].
    + intros l r. rewrite Hst. intros [[-> <-]|[_ H]]%lookup_insert_Some; [done|by apply (Hm l)].
    + intros l r p rp b' Hl Hp Hrp Hlive Hb'.
      destruct (same_shape_lookup _ _ _ _ (same_shape_sym _ _ Hs) Hl) as (r0 & Hl0 & (_ & _ & Hp0 & _)%shape_inj).
      destruct (same_shape_lookup _ _ _ _ (same_shape_sym _ _ Hs) Hrp) as (rp0 & Hrp0 & (_ & _ & Hpp0 & _)%shape_inj).
      pose proof (Hhas l b') as H1. unfold deref in H1. rewrite (deref_Some _ _ _ Hl), (deref_Some _ _ _ Hl0), Hb' in H1.
      pose proof (Hhas p b') as H2. unfold deref in H2. rewrite (deref_Some _ _ _ Hrp), (deref_Some _ _ _ Hrp0) in H2.
      rewrite H2. rewrite Hp in Hp0. rewrite <-Hpp0 in Hlive.
      symmetry in H1. apply orb_true_iff in H1 as [H1|[H1 ?]%andb_true_iff]; bool_props; subst.
      * rewrite (hw_sub _ (sw_heap s Hwf) l r0 p rp0 b'); done.
      * simplify_eq. by rewrite (Hanc p rp0).
  - intros l r Hl. rewrite Hfr.
    destruct (same_shape_lookup _ _ _ _ (same_shape_sym _ _ Hs) Hl) as (r0 & Hl0 & _). by apply (sw_fresh s Hwf) in Hl0.
  - intros k l Hk. apply (same_shape_root (store s)); [done|]. by apply (sw_root s Hwf k).
  - apply (sw_root_inj s Hwf).
  - intros l. rewrite (same_shape_childless _ _ _ Hs). apply Hwf.
  - intros l r Hl Hp. destruct (same_shape_lookup _ _ _ _ (same_shape_sym _ _ Hs) Hl) as (r0 & Hl0 & (Hh & _ & Hp0 & _)%shape_inj).
    rewrite <-Hp0 in Hp. destruct (sw_reach s Hwf l r0 Hl0 Hp) as (k & root & q & Hk & Hq).
    exists k, root, q. split; [done|]. rewrite (same_shape_locate (store s)) by done. unfold nblocks. by rewrite <-Hh.
  - rewrite Hst, (msum_insert_old _ _ _ x), (sw_runs s Hwf) by done. unfold w_run, y. cbn. lia.
  - rewrite Hst, (msum_insert_old _ _ _ x), (sw_blocks s Hwf) by done. unfold w_blocks, y, blocks. cbn. lia.
  - rewrite Hst, (msum_insert_old _ _ _ x), (sw_copies s Hwf) by done. unfold w_copies, y, blocks. cbn.
    rewrite !(decide_False (P:=_ = None)) by done. destruct (Has (marks x) b) eqn:E; [lia|].
    rewrite Count_Add by (done || by apply (Hm c)). lia.
Qed.

(** ** Appending a path below a place *)

Lemma append_view s s' cur e new hs k0 q0 b :
  shard_wf s → roots s' = roots s → appends (store s) (store s') cur e new hs →
  place s k0 q0 = Some (cur, e) →
  (∀ x, hs !! 0%nat = Some x → step (store s) (cur, e) x = None) →
  (∀ l y b', store s !! l = Some y → Has (marks (deref s' l)) b' = Has (marks y) b') →
  (∀ j, (1 ≤ j)%nat → ∃ l o, new j = (l, S o) ∧ ∀ b', Has (marks (deref s' l)) b' = (b' =? b)) →
  ∀ k q b', let ext := bool_decide (k = k0 ∧ (length q0 < length q)%nat ∧ q `prefix_of` (q0 ++ hs)) in
    holds s' k q b' = holds s k q b' || (ext && (b' =? b)) ∧ recorded s' k q = recorded s k q || ext.
Proof.
  intros Hwf Hro Hap H0 Hstep Hold Hnew k q b' ext.
  assert (Hext : ext = true → k = k0 ∧ ∃ j, (1 ≤ j ≤ length hs)%nat ∧ q = q0 ++ take j hs).
  { unfold ext. intros He. apply bool_decide_eq_true in He as (-> & Hl & t & Ht). split; [done|].
    assert (q0 `prefix_of` q) as [u ->].
    { destruct (prefix_weak_total q0 q (q0 ++ hs)) as [?|[u Hu]]; [by apply prefix_app_r|by exists t|done|].
      subst q0. rewrite length_app in Hl. lia. }
    rewrite <-app_assoc in Ht. apply app_inv_head in Ht. subst hs. rewrite length_app in Hl.
    exists (length u). rewrite length_app, take_app_length. split; [lia|done]. }
  destruct (place_ok _ _ _ _ Hwf H0) as (root0 & Hroot0 & His0 & Hloc0 & _).
  destruct (place s k q) as [pos|] eqn:Ep.
  - destruct (place_ok _ _ _ _ Hwf Ep) as (root & Hroot & His & Hloc & Hok).
    assert (place s' k q = Some pos) as Ep'.
    { unfold place. rewrite Hro, Hroot. cbn. eapply appends_old; [apply Hwf|done..]. }
    assert (ext = false) as ->.
    { apply not_true_is_false. intros [-> (j & Hj & ->)]%Hext.
      assert (is_Some (place s k0 (q0 ++ take 1 hs))) as [pos1 H1].
      { apply (place_prefix s k0 _ (drop 1 (take j hs))). rewrite <-app_assoc.
        replace (take 1 hs) with (take 1 (take j hs)) by (rewrite take_take; f_equal; lia).
        rewrite take_drop. eauto. }
      destruct hs as [|x hs]; [cbn in Hj; lia|]. cbn in H1. rewrite take_0 in H1.
      unfold place in H1. rewrite Hroot0 in H1. cbn in H1. rewrite locate_snoc, Hloc0 in H1. cbn in H1.
      by rewrite (Hstep x) in H1. }
    rewrite andb_false_l, !orb_false_r. unfold holds, recorded. rewrite Ep, Ep'.
    destruct pos as [l [|o]]; [done|]. destruct (place_lookup _ _ _ _ _ Hwf Ep) as (y & Hy & _).
    rewrite (Hold _ _ _ Hy). unfold deref. by rewrite (deref_Some _ _ _ Hy).
  - assert (holds s k q b' = false ∧ recorded s k q = false) as [-> ->] by (unfold holds, recorded; by rewrite Ep).
    rewrite !orb_false_l. destruct (place s' k q) as [pos|] eqn:Ep'.
    + unfold place in Ep', Ep. rewrite Hro in Ep'. destruct (roots s !! k) as [root|] eqn:Hroot; [|done]. cbn in *.
      pose proof (sw_root s Hwf _ _ Hroot) as His.
      destruct (appends_inv _ _ _ _ _ _ (sw_heap s Hwf) Hap root q pos His Ep') as [?|(q1 & j & _ & H1 & -> & Hj & ->)]; [congruence|].
      assert (place s k q1 = Some (cur, e)) as H1' by (unfold place; by rewrite Hroot).
      destruct (place_inj _ _ _ _ _ _ Hwf H0 H1') as [-> ->].
      assert (ext = true) as ->.
      { unfold ext. apply bool_decide_eq_true. split_and!; [done| |by apply prefix_app, prefix_take].
        rewrite length_app, length_take. lia. }
      destruct (Hnew j) as (l & o & Hl & Hm); [lia|]. unfold holds, recorded, place. rewrite Hro, Hroot. cbn.
      rewrite Ep', Hl. by rewrite Hm.
    + assert (ext = false) as ->; [|unfold holds, recorded; by rewrite Ep'].
      apply not_true_is_false. intros [-> (j & Hj & ->)]%Hext.
      pose proof (appends_new _ _ _ _ _ _ (sw_heap s Hwf) Hap root0 q0 j His0 Hloc0 Hstep Hj) as Hn.
      unfold place in Ep'. rewrite Hro, Hroot0 in Ep'. cbn in Ep'. congruence.
Qed.
End shard.
