(* ===== verification/TreeCommit.v ===== *)
(** * TreeCommit: committing a path

    [commit] refines the obvious operation on the abstract view: afterwards the slot holds
    every non-empty prefix of the path, nothing else has changed, and the returned hit is
    the length of the longest prefix it held before. *)

From stdpp Require Import base gmap sets list strings sorting.
From Stdlib Require Import ZArith Lia.
From S2P Require Import Prelude MarkSet KvUnits AffinityTree TreeWf TreeStep TreeShard.
Open Scope Z_scope.

Section updates.
Implicit Types (s : shard) (cur : loc) (rest : list Unit_).

Lemma find_step h cur rc x :
  h !! cur = Some rc → find h cur x = None → step h (cur, nblocks rc) x = None.
Proof.
  intros Hc Hf. unfold step. cbn. rewrite (deref_Some _ _ _ Hc).
  rewrite lookup_ge_None_2 by (unfold nblocks; lia). by rewrite Hf.
Qed.

Definition new_run (rest : list Unit_) (slot now : Z) : run :=
  Run (Hash <$> rest) (Tokens <$> rest) None [] (Add no_marks slot) now 1.

Lemma no_marks_Has b : Has no_marks b = false.
Proof. apply not_true_is_false. intros H. apply Has_range in H. cbn in H. lia. Qed.

Lemma new_marks_Has slot b : 0 ≤ slot → Has (Add no_marks slot) b = (b =? slot).
Proof.
  intros. rewrite Add_has, no_marks_Has. cbn. destruct (b =? slot) eqn:E; bool_props;
    [rewrite bool_decide_eq_true_2|rewrite bool_decide_eq_false_2]; lia || done.
Qed.

Lemma growRun_eq s cur rc rest slot now :
  shard_wf s → store s !! cur = Some rc → rest ≠ [] → 
  growRun cur rest slot now s =
  Shard (grow_store (store s) cur (fresh s) rc (new_run rest slot now)) (Pos.succ (fresh s)) (roots s)
    ((tails s ∖ {[cur]}) ∪ {[fresh s]}) (runs s + 1) (blocks_total s + Z.of_nat (length rest))
    (copies s + Z.of_nat (length rest)) (expired s).
Proof.
  intros Hwf Hcur Hne. pose proof (fresh_None s (sw_fresh s Hwf)) as Hnr.
  assert (cur ≠ fresh s) as Hcn by congruence. unfold growRun. cbn [alloc].
  change (Run (Hash <$> rest) (Tokens <$> rest) None [] (Add no_marks slot) now 1) with (new_run rest slot now).
  set (s1 := Shard (<[fresh s:=new_run rest slot now]> (store s)) _ _ _ _ _ _ _).
  assert (store s1 !! cur = Some rc) as H1 by (cbn; by rewrite lookup_insert_ne).
  assert (store s1 !! fresh s = Some (new_run rest slot now)) as H2 by (cbn; by rewrite lookup_insert_eq).
  rewrite (link_eq s1 cur (fresh s) (lower_bound (kid_keys (store s) rc) (default 0 (head (hashes (new_run rest slot now)))))).
  2: { unfold deref. rewrite (deref_Some _ _ _ H1). unfold key. rewrite (deref_Some _ _ _ H2). f_equal.
    apply kid_keys_ext. intros k Hk. destruct (hw_down _ (sw_heap s Hwf) cur rc k Hcur Hk) as (y & Hy & _).
    cbn. rewrite lookup_total_insert_ne; [done|]. congruence. }
  set (i := lower_bound _ _). set (s2 := upd (fresh s) _ _).
  assert (store s2 = grow_store (store s) cur (fresh s) rc (new_run rest slot now)) as Hs2.
  { cbn. unfold grow_store. apply map_eq. intros l.
    destruct (decide (l = fresh s)) as [->|]; [|destruct (decide (l = cur)) as [->|]].
    - by rewrite lookup_alter_eq, lookup_alter_ne, !lookup_insert_eq by done.
    - rewrite lookup_alter_ne, lookup_alter_eq, !lookup_insert_ne, Hcur, lookup_insert_eq by done. done.
    - by rewrite !lookup_alter_ne, !lookup_insert_ne by done. }
  unfold add_counts, set_tails, blocks, deref. cbn [store fresh roots tails runs blocks_total copies expired].
  rewrite Hs2. unfold grow_store at 2 3. rewrite lookup_total_insert_eq. cbn. rewrite length_fmap. f_equal; lia.
Qed.

Lemma grow_ok_run s cur rc rest slot now u :
  shard_wf s → store s !! cur = Some rc → rest !! 0%nat = Some u → find (store s) cur (Hash u) = None → 0 ≤ slot →
  (parent rc ≠ None → Has (marks rc) slot = true) →
  grow_ok (store s) cur (fresh s) rc (new_run rest slot now).
Proof.
  intros Hwf Hcur Hu Hf Hs Hm. destruct rest as [|u' rest]; [done|]. cbn in Hu. simplify_eq.
  constructor; cbn; try done; [apply Hwf|apply fresh_None, Hwf|by rewrite !length_fmap| |].
  - apply Add_wf, no_marks_wf.
  - intros b Hp. rewrite new_marks_Has by done. intros ?. bool_props. subst. auto.
Qed.

Lemma grow_is_root h cur nr rc new l : grow_ok h cur nr rc new → is_root h l → is_root (grow_store h cur nr rc new) l.
Proof.
  intros Hok (y & Hy & Hp & Hh). unfold is_root. rewrite (grow_lookup _ _ _ _ _ _ Hok). destruct Hok.
  rewrite decide_False by congruence. destruct (decide (l = cur)) as [->|]; [|eauto].
  eexists. split; [done|]. cbn. by simplify_eq.
Qed.

Lemma grow_weights (w : run → Z) h cur nr rc new :
  grow_ok h cur nr rc new → (∀ ks, w (set_kids ks rc) = w rc) →
  msum w (grow_store h cur nr rc new) = msum w h + w (set_parent (Some cur) new).
Proof.
  intros [] Hw. unfold grow_store.
  rewrite msum_insert_new by (rewrite lookup_insert_ne by congruence; done).
  rewrite (msum_insert_old _ _ _ rc), Hw by done. lia.
Qed.

Lemma grow_shard_wf s cur rc rest slot now u k q :
  shard_wf s → store s !! cur = Some rc → rest !! 0%nat = Some u → find (store s) cur (Hash u) = None → 0 ≤ slot →
  (parent rc ≠ None → Has (marks rc) slot = true) →
  place s k q = Some (cur, nblocks rc) →
  shard_wf (growRun cur rest slot now s).
Proof.
  intros Hwf Hcur Hu Hf Hs Hm Hpl.
  pose proof (grow_ok_run s cur rc rest slot now u Hwf Hcur Hu Hf Hs Hm) as Hok.
  assert (rest ≠ []) as Hne by (by destruct rest). rewrite (growRun_eq s cur rc) by done.
  pose proof (λ l, grow_lookup _ _ _ _ _ l Hok) as Hlk. pose proof (grow_appends _ _ _ _ _ Hok) as Hap.
  pose proof (λ w, grow_weights w _ _ _ _ _ Hok) as Hw.
  pose proof (fresh_None s (sw_fresh s Hwf)) as Hnr. assert (cur ≠ fresh s) as Hcn by congruence.
  constructor; cbn [store fresh roots tails runs blocks_total copies].
  - by apply grow_store_wf.
  - intros l y. cbn. rewrite Hlk. pose proof (sw_fresh s Hwf) as Hfr.
    destruct (decide (l = fresh s)) as [->|]; [lia|]. destruct (decide (l = cur)) as [->|]; intros Hl.
    + apply Hfr in Hcur. lia.
    + apply Hfr in Hl. lia.
  - intros k' l Hk. apply grow_is_root; [done|]. by apply (sw_root s Hwf k').
  - apply (sw_root_inj s Hwf).
  - intros l. rewrite elem_of_union, elem_of_difference, !elem_of_singleton, (sw_tails s Hwf).
    unfold childless. setoid_rewrite Hlk. destruct (decide (l = fresh s)) as [->|].
    { split; [|tauto]. intros _. eexists. split; [done|]. done. }
    destruct (decide (l = cur)) as [->|]; [|tauto]. split; [tauto|].
    intros (y & [= <-] & _ & Hk). exfalso. cbn in Hk. unfold insert_at in Hk. by destruct (take _ _).
  - intros l y. rewrite Hlk. destruct (decide (l = fresh s)) as [->|].
    + intros [= <-] _. destruct (place_ok _ _ _ _ Hwf Hpl) as (root & Hroot & His & Hloc & _).
      exists k, root, (q ++ (Hash <$> rest)). split; [done|].
      replace (Hash <$> rest) with (take (length rest) (Hash <$> rest)) by (rewrite take_ge; [done|by rewrite length_fmap]).
      rewrite (appends_new _ _ _ _ _ _ (sw_heap s Hwf) Hap); [|done..| |].
      * unfold nblocks. cbn. by rewrite length_fmap.
      * intros x. cbn. rewrite list_lookup_fmap, Hu. intros [= <-]. by apply find_step.
      * cbn. rewrite length_fmap. destruct rest; cbn; [done|lia].
    + intros Hl Hp. assert (∃ y0, store s !! l = Some y0 ∧ parent y0 = parent y ∧ nblocks y0 = nblocks y) as (y0 & Hy0 & Hp0 & Hn).
      { destruct (decide (l = cur)) as [->|]; simplify_eq; eauto. }
      rewrite <-Hp0 in Hp. destruct (sw_reach s Hwf l y0 Hy0 Hp) as (k' & root & q' & Hk & Hq).
      exists k', root, q'. split; [done|]. rewrite <-Hn.
      apply (appends_old _ _ _ _ _ _ (sw_heap s Hwf) Hap); [|done]. by apply (sw_root s Hwf k').
  - rewrite Hw by done. rewrite (sw_runs s Hwf). done.
  - rewrite Hw by done. rewrite (sw_blocks s Hwf). unfold w_blocks, blocks. cbn. by rewrite length_fmap.
  - rewrite Hw by done. rewrite (sw_copies s Hwf). unfold w_copies, blocks. cbn. rewrite length_fmap.
    rewrite Count_Add; [|apply no_marks_wf|done|apply no_marks_Has]. change (Count no_marks) with 0.
    rewrite (decide_False (P:=_ = None)) by done. lia.
Qed.

(** What committing past the end of a recorded path adds to the view. *)
Definition extends (k0 : Z) (q0 hs : list Z) (b : Z) (k : Z) (q : list Z) (b' : Z) : bool :=
  bool_decide (k = k0 ∧ (length q0 < length q)%nat ∧ q `prefix_of` (q0 ++ hs)) && (b' =? b).

Lemma grow_view s cur rc rest slot now u k0 q0 k q b' :
  shard_wf s → store s !! cur = Some rc → rest !! 0%nat = Some u → find (store s) cur (Hash u) = None → 0 ≤ slot →
  (parent rc ≠ None → Has (marks rc) slot = true) →
  place s k0 q0 = Some (cur, nblocks rc) →
  holds (growRun cur rest slot now s) k q b' = holds s k q b' || extends k0 q0 (Hash <$> rest) slot k q b' ∧
  recorded (growRun cur rest slot now s) k q =
    recorded s k q || bool_decide (k = k0 ∧ (length q0 < length q)%nat ∧ q `prefix_of` (q0 ++ (Hash <$> rest))).
Proof.
  intros Hwf Hcur Hu Hf Hs Hm Hpl.
  pose proof (grow_ok_run s cur rc rest slot now u Hwf Hcur Hu Hf Hs Hm) as Hok.
  assert (rest ≠ []) as Hne by (by destruct rest). rewrite (growRun_eq s cur rc) by done.
  pose proof (λ l, grow_lookup _ _ _ _ _ l Hok) as Hlk. pose proof (fresh_None s (sw_fresh s Hwf)) as Hnr.
  apply (append_view s _ cur (nblocks rc) (λ j, (fresh s, j)) (Hash <$> rest) k0 q0 slot); try done.
  - cbn. by apply (grow_appends _ _ _ _ _ Hok).
  - intros x. rewrite list_lookup_fmap, Hu. intros [= <-]. by apply find_step.
  - intros l y b Hy. unfold deref. cbn. pose proof (Hlk l) as H. rewrite decide_False in H by congruence.
    destruct (decide (l = cur)) as [->|]; [|rewrite Hy in H]; rewrite (deref_Some _ _ _ H); [|done]. by simplify_eq.
  - intros [|j] Hj; [lia|]. exists (fresh s), j. split; [done|]. intros b. unfold deref. cbn.
    pose proof (Hlk (fresh s)) as H. rewrite decide_True in H by done. rewrite (deref_Some _ _ _ H).
    by apply new_marks_Has.
Qed.

(** ** Extending the tail in place *)

Lemma markRun_again s c b now x :
  store s !! c = Some x → Has (marks x) b = true → markRun c b now s = upd c (touch now) s.
Proof. intros Hc Hh. unfold markRun, deref. rewrite (deref_Some _ _ _ Hc). by rewrite Hh. Qed.

Definition lengthen (cur : loc) (rc : run) (rest : list Unit_) (s : shard) : shard :=
  Shard (extend_store (store s) cur rc (Hash <$> rest) (Tokens <$> rest)) (fresh s) (roots s) (tails s)
    (runs s) (blocks_total s + Z.of_nat (length rest)) (copies s + Z.of_nat (length rest)) (expired s).

Lemma extendTail_eq s cur rc rest slot now :
  store s !! cur = Some rc → Has (marks rc) slot = true →
  extendTail cur rest now s = markRun cur slot now (lengthen cur rc rest s).
Proof.
  intros Hcur Hm. set (y := set_blocks (hashes rc ++ (Hash <$> rest)) (tokens rc ++ (Tokens <$> rest)) rc).
  rewrite (markRun_again _ _ _ _ y); [|cbn; unfold extend_store; by rewrite lookup_insert_eq|done].
  unfold extendTail, lengthen, upd, add_counts, extend_store. cbn. f_equal; [|lia..].
  f_equal. apply map_eq. intros l. destruct (decide (l = cur)) as [->|].
  - by rewrite lookup_alter_eq, lookup_insert_eq, Hcur.
  - by rewrite lookup_alter_ne, lookup_insert_ne.
Qed.

Lemma Count_one m b b' :
  wf_marks m → Count m = 1 → Has m b = true → Has m b' = (b' =? b).
Proof.
  intros Hwf Hc Hb. rewrite Count_size in Hc by done.
  apply (elem_of_holders m b Hwf) in Hb.
  assert (holders m = {[b]}) as He.
  { symmetry. apply set_subseteq_size_eq; [set_solver|]. rewrite size_singleton. lia. }
  destruct (b' =? b) eqn:E; bool_props.
  - subst. by apply elem_of_holders.
  - apply not_true_is_false. intros Hb'%elem_of_holders; [|done]. set_solver.
Qed.

Lemma lengthen_ok s cur rc rest :
  shard_wf s → store s !! cur = Some rc → parent rc ≠ None → kids rc = [] →
  extend_ok (store s) cur rc (Hash <$> rest) (Tokens <$> rest).
Proof. intros Hwf Hcur Hp Hk. constructor; try done; [apply Hwf|by rewrite !length_fmap]. Qed.

Lemma lengthen_shard_wf s cur rc rest k q :
  shard_wf s → store s !! cur = Some rc → parent rc ≠ None → kids rc = [] → Count (marks rc) = 1 →
  place s k q = Some (cur, nblocks rc) → rest ≠ [] →
  shard_wf (lengthen cur rc rest s).
Proof.
  intros Hwf Hcur Hp Hk Hc Hpl Hne. pose proof (lengthen_ok s cur rc rest Hwf Hcur Hp Hk) as Hok.
  pose proof (λ l, extend_lookup (store s) cur rc (Hash <$> rest) (Tokens <$> rest) l) as Hlk.
  pose proof (extend_appends _ _ _ _ _ Hok) as Hap.
  pose proof (λ l y, extend_back _ _ _ _ _ l y Hok) as Hb. pose proof (λ l y, extend_fwd _ _ _ _ _ l y Hok) as Hf.
  constructor; cbn [lengthen store fresh roots tails runs blocks_total copies].
  - by apply extend_wf.
  - intros l y' (y & Hy & _)%Hb. by apply (sw_fresh s Hwf) in Hy.
  - intros k' l Hk'. destruct (sw_root s Hwf _ _ Hk') as (y & Hy & Hpy & Hh). exists y. rewrite Hlk.
    rewrite decide_False by congruence. done.
  - apply (sw_root_inj s Hwf).
  - intros l. rewrite (sw_tails s Hwf). split; intros (y & Hy & ? & ?).
    + destruct (Hf _ _ Hy) as (y' & ? & Hp' & Hk' & _). exists y'. by rewrite Hp', Hk'.
    + destruct (Hb _ _ Hy) as (y' & ? & Hp' & Hk' & _). exists y'. by rewrite <-Hp', <-Hk'.
  - intros l y. rewrite Hlk. destruct (decide (l = cur)) as [->|].
    + intros [= <-] _. destruct (place_ok _ _ _ _ Hwf Hpl) as (root & Hroot & His & Hloc & _).
      exists k, root, (q ++ (Hash <$> rest)). split; [done|].
      replace (Hash <$> rest) with (take (length rest) (Hash <$> rest)) at 2 by (rewrite take_ge; [done|by rewrite length_fmap]).
      rewrite (appends_new _ _ _ _ _ _ (sw_heap s Hwf) Hap); [|done..| |].
      * unfold nblocks. cbn. by rewrite length_app, length_fmap.
      * intros x _. apply find_step; [done|]. apply (find_None _ (sw_heap s Hwf) cur rc); [done|]. rewrite Hk. set_solver.
      * cbn. rewrite length_fmap. destruct rest; cbn; [done|lia].
    + intros Hl Hp'. destruct (sw_reach s Hwf l y Hl Hp') as (k' & root & q' & Hk' & Hq).
      exists k', root, q'. split; [done|].
      apply (appends_old _ _ _ _ _ _ (sw_heap s Hwf) Hap); [|done]. by apply (sw_root s Hwf k').
  - unfold extend_store. rewrite (msum_insert_old _ _ _ rc), (sw_runs s Hwf) by done. unfold w_run. cbn. lia.
  - unfold extend_store. rewrite (msum_insert_old _ _ _ rc), (sw_blocks s Hwf) by done. unfold w_blocks, blocks. cbn.
    rewrite !(decide_False (P:=_ = None)) by done. rewrite length_app, length_fmap. lia.
  - unfold extend_store. rewrite (msum_insert_old _ _ _ rc), (sw_copies s Hwf) by done. unfold w_copies, blocks. cbn.
    rewrite !(decide_False (P:=_ = None)) by done. rewrite length_app, length_fmap, Hc. lia.
Qed.

Lemma lengthen_view s cur rc rest slot k0 q0 k q b' :
  shard_wf s → store s !! cur = Some rc → parent rc ≠ None → kids rc = [] →
  Count (marks rc) = 1 → Has (marks rc) slot = true →
  place s k0 q0 = Some (cur, nblocks rc) →
  holds (lengthen cur rc rest s) k q b' = holds s k q b' || extends k0 q0 (Hash <$> rest) slot k q b' ∧
  recorded (lengthen cur rc rest s) k q =
    recorded s k q || bool_decide (k = k0 ∧ (length q0 < length q)%nat ∧ q `prefix_of` (q0 ++ (Hash <$> rest))).
Proof.
  intros Hwf Hcur Hp Hk Hc Hm Hpl. pose proof (lengthen_ok s cur rc rest Hwf Hcur Hp Hk) as Hok.
  pose proof (λ l y, extend_fwd _ _ _ _ _ l y Hok) as Hf.
  apply (append_view s _ cur (nblocks rc) (λ j, (cur, nblocks rc + j)%nat) (Hash <$> rest) k0 q0 slot); try done.
  - cbn. by apply (extend_appends _ _ _ _ _ Hok).
  - intros x _. apply find_step; [done|]. apply (find_None _ (sw_heap s Hwf) cur rc); [done|]. rewrite Hk. set_solver.
  - intros l y b Hy. destruct (Hf _ _ Hy) as (y' & Hy' & _ & _ & Hmy). unfold deref. cbn.
    by rewrite (deref_Some _ _ _ Hy'), Hmy.
  - intros j Hj. exists cur, (nblocks rc + j - 1)%nat. split; [f_equal; lia|]. intros b.
    destruct (Hf _ _ Hcur) as (y' & Hy' & _ & _ & Hmy). unfold deref. cbn. rewrite (deref_Some _ _ _ Hy'), Hmy.
    apply Count_one; [by apply (hw_marks _ (sw_heap s Hwf) cur)|done..].
Qed.

Lemma touch_view s c b now x k q b' :
  store s !! c = Some x → 0 ≤ b → Has (marks x) b = true →
  holds (markRun c b now s) k q b' = holds s k q b' ∧ recorded (markRun c b now s) k q = recorded s k q.
Proof.
  intros Hc Hb Hx. destruct (mark_holds s c b now x k q b' Hc Hb) as [-> ->]. split; [|done].
  unfold holds, inside. destruct (place s k q) as [[l [|o]]|]; [done| |done].
  destruct (decide (l = c)) as [->|]; [|by rewrite bool_decide_eq_false_2, orb_false_r].
  rewrite bool_decide_eq_true_2 by done. unfold deref. rewrite (deref_Some _ _ _ Hc). cbn.
  destruct (b' =? b) eqn:E; bool_props; [subst; by rewrite Hx|by rewrite orb_false_r].
Qed.

(** A marked run is a marked run of its whole ancestry. *)
Lemma marked_anc s c x b :
  shard_wf s → store s !! c = Some x → Has (marks x) b = true →
  ∀ p rp, parent x = Some p → store s !! p = Some rp → parent rp ≠ None → Has (marks rp) b = true.
Proof. intros Hwf Hc Hb p rp Hp Hrp Hl. by eapply (hw_sub _ (sw_heap s Hwf) c x p rp). Qed.
End updates.

(** ** The commit loop *)

Section commit.
Context (p : list Unit_) (slot now k : Z) (Hslot : 0 ≤ slot).
Let hs : list Z := Hash <$> p.

(** The child the loop goes on from, split off first if the path leaves it half way. *)
Definition descend (c : loc) (i : nat) (s : shard) : loc * shard :=
  let m := matched_len (hashes (deref s c)) (Hash <$> drop i p) in
  if decide (m < nblocks (deref s c))%nat then splitRun c m s else (c, s).

Lemma place_child s i cur rc c u :
  shard_wf s → place s k (take i hs) = Some (cur, nblocks rc) → store s !! cur = Some rc →
  drop i p !! 0%nat = Some u → find (store s) cur (Hash u) = Some c →
  ∃ y m, store s !! c = Some y ∧ parent y = Some cur ∧
    matched_len (hashes (deref s c)) (Hash <$> drop i p) = m ∧ (1 ≤ m ≤ nblocks y)%nat ∧ (m ≤ length p - i)%nat ∧
    ∀ j, (1 ≤ j ≤ m)%nat → place s k (take i hs ++ take j (drop i hs)) = Some (c, j).
Proof.
  intros Hwf Hpl Hcur Hu Hf.
  destruct (find_child _ (sw_heap s Hwf) cur (Hash u) c) as (y & Hy & Hp & _ & Hy0); [eauto|done|].
  set (m := matched_len (hashes (deref s c)) (Hash <$> drop i p)). exists y, m.
  assert (deref s c = y) as Hd by (by apply deref_Some).
  assert (Hash <$> drop i p = drop i hs) as Hdr by apply fmap_drop.
  destruct (matched_len_spec (hashes y) (drop i hs)) as (Ht & Hm1 & Hm2 & _).
  assert (m = matched_len (hashes y) (drop i hs)) as Hm by (unfold m; by rewrite Hd, Hdr).
  rewrite <-Hm in *. assert (drop i hs !! 0%nat = Some (Hash u)) as Hx by (rewrite <-Hdr, list_lookup_fmap, Hu; done).
  split_and!; try done.
  - rewrite Hm. destruct (hashes y) as [|a l]; [done|]. destruct (drop i hs) as [|b l']; [done|].
    cbn in Hy0, Hx. simplify_eq. cbn. rewrite Z.eqb_refl. lia.
  - unfold hs in Hm2. by rewrite length_drop, length_fmap in Hm2.
  - intros j Hj. destruct (place_ok _ _ _ _ Hwf Hpl) as (root & Hroot & His & Hloc & _).
    unfold place. rewrite Hroot. cbn. eapply (locate_child _ root _ cur rc c y); try done; [apply Hwf| | |lia..].
    + intros z Hz. congruence.
    + apply (f_equal (take j)) in Ht. rewrite !take_take, !Nat.min_l in Ht by lia. done.
Qed.

Record descended (s : shard) (i m : nat) (cur c : loc) (c1 : loc) (s1 : shard) : Prop := {
  de_wf : shard_wf s1;
  de_roots : roots s1 = roots s;
  de_run : ∃ y1, store s1 !! c1 = Some y1 ∧ parent y1 = Some cur ∧ nblocks y1 = m ∧ marks y1 = marks (deref s c);
  de_cur : ∀ rc, store s !! cur = Some rc → ∃ rc1, store s1 !! cur = Some rc1 ∧ parent rc1 = parent rc ∧ marks rc1 = marks rc;
  de_holds k' q b : holds s1 k' q b = holds s k' q b;
  de_recorded k' q : recorded s1 k' q = recorded s k' q;
  de_place j : (1 ≤ j ≤ m)%nat → place s1 k (take i hs ++ take j (drop i hs)) = Some (c1, j);
}.

Lemma descend_spec s i cur rc c u :
  shard_wf s → place s k (take i hs) = Some (cur, nblocks rc) → store s !! cur = Some rc →
  drop i p !! 0%nat = Some u → find (store s) cur (Hash u) = Some c →
  let m := matched_len (hashes (deref s c)) (Hash <$> drop i p) in
  (1 ≤ m)%nat ∧ (m ≤ length p - i)%nat ∧ descended s i m cur c (descend c i s).1 (descend c i s).2.
Proof.
  intros Hwf Hpl Hcur Hu Hf.
  destruct (place_child s i cur rc c u Hwf Hpl Hcur Hu Hf) as (y & m & Hy & Hp & Hm & Hmr & Hmp & Hj).
  unfold descend. assert (deref s c = y) as Hd by (by apply deref_Some). rewrite Hm, Hd. cbn zeta. split_and!; [lia|done|].
  destruct (decide (m < nblocks y)%nat) as [Hlt|].
  - assert (0 < m < nblocks y)%nat as Hm0 by lia. assert (parent y ≠ None) as Hpn by congruence.
    destruct (splitRun_shard s c y m Hwf Hy Hpn Hm0) as (q & rq & ix & Hok & Heq).
    pose proof (split_shard_wf s c y m Hwf Hy Hpn Hm0) as Hwf'.
    pose proof (λ k' q', split_place s c y m k' q' Hwf Hy Hpn Hm0) as Hpl'.
    pose proof (λ k' q' b, split_holds s c y m k' q' b Hwf Hy Hpn Hm0) as Hho.
    rewrite Heq in *. cbn [fst snd] in *. destruct (Hok) as [_ _ _ Hparq Hq _ _]. assert (q = cur) as -> by congruence.
    assert (rq = rc) as -> by congruence. pose proof (λ l, split_lookup _ _ _ _ _ _ _ _ l Hok) as Hlk.
    destruct (split_neq _ _ _ _ _ _ _ _ Hok) as (? & ? & ?). constructor; try done.
    + exists (split_upper y cur c m). cbn. rewrite Hlk, decide_False, decide_True by done. rewrite Hd. cbn.
      split_and!; [done..| |done]. unfold nblocks in *. cbn. rewrite length_take. lia.
    + intros rc' ?. simplify_eq. cbn. rewrite Hlk, !decide_False, decide_True by done. eauto.
    + intros. by apply Hho.
    + intros. by apply (Hho k' q 0).
    + intros j Hj'. rewrite Hpl', (Hj j) by done. cbn. unfold split_pos. cbn. by rewrite !decide_True by (done || lia).
  - cbn. constructor; try done.
    + exists y. rewrite Hd. split_and!; [done..|lia|done].
    + intros rc' ?. simplify_eq. eauto.
Qed.

Lemma extends_nil k0 q0 b k' q b' : extends k0 q0 [] b k' q b' = false.
Proof.
  unfold extends. rewrite bool_decide_eq_false_2; [done|]. rewrite app_nil_r.
  intros (_ & Hl & Hp%prefix_length). lia.
Qed.

Definition past (k0 : Z) (q0 xs : list Z) (k' : Z) (q : list Z) : bool :=
  bool_decide (k' = k0 ∧ (length q0 < length q)%nat ∧ q `prefix_of` (q0 ++ xs)).

(** The positions below [q0 ++ xs] fall in the first [m] of them or past these. *)
Lemma past_split k0 q0 xs m k' q :
  (m ≤ length xs)%nat →
  past k0 q0 xs k' q = past k0 q0 (take m xs) k' q || past k0 (q0 ++ take m xs) (drop m xs) k' q.
Proof.
  intros Hm. unfold past. rewrite <-app_assoc, take_drop.
  apply eq_true_iff_eq. rewrite orb_true_iff, !bool_decide_eq_true. rewrite length_app, length_take, Nat.min_l by lia.
  split.
  - intros (-> & Hl & Hp). destruct (decide (length q ≤ length q0 + m)%nat) as [Hle|]; [left|right; split_and!; done || lia].
    split_and!; [done..|]. destruct (prefix_weak_total q (q0 ++ take m xs) (q0 ++ xs)) as [?|Hq]; [done| |done|].
    { by apply prefix_app, prefix_take. }
    pose proof (prefix_length _ _ Hq) as Hq'. rewrite length_app, length_take, Nat.min_l in Hq' by lia.
    destruct Hq as [t ->]. rewrite !length_app, length_take, Nat.min_l in Hle by lia.
    destruct t; [by rewrite app_nil_r|cbn in Hle; lia].
  - intros [(-> & Hl & Hp)|(-> & Hl & Hp)]; split_and!; try done; try lia.
    etrans; [done|]. by apply prefix_app, prefix_take.
Qed.

Lemma inside_past s i m c k' q :
  shard_wf s → (m ≤ length (drop i hs))%nat →
  (∃ y, store s !! c = Some y ∧ nblocks y = m) →
  (∀ j, (1 ≤ j ≤ m)%nat → place s k (take i hs ++ take j (drop i hs)) = Some (c, j)) →
  inside s k' q c = past k (take i hs) (take m (drop i hs)) k' q.
Proof.
  intros Hwf Hm (y & Hy & Hn) Hj. unfold inside, past. apply eq_true_iff_eq. rewrite bool_decide_eq_true. split.
  - destruct (place s k' q) as [[l [|o]]|] eqn:E; [done| |done]. intros ->%bool_decide_eq_true.
    destruct (place_lookup _ _ _ _ _ Hwf E) as (y' & Hy' & _ & Ho). simplify_eq.
    destruct (place_inj _ _ _ _ _ _ Hwf E (Hj (S o) ltac:(lia))) as [-> ->]. split_and!; [done| |].
    + rewrite length_app, !length_take. lia.
    + apply prefix_app. destruct (decide (S o = nblocks y)) as [->|]; [done|].
      rewrite <-(Nat.min_l (S o) (nblocks y)), <-take_take by lia. apply prefix_take.
  - intros (-> & Hl & [t Ht]). assert (take i hs `prefix_of` q) as [u ->].
    { destruct (prefix_weak_total (take i hs) q (take i hs ++ take m (drop i hs))) as [?|Hq]; [by apply prefix_app_r|by exists t|done|].
      apply prefix_length in Hq. lia. }
    rewrite <-app_assoc in Ht. apply app_inv_head in Ht. rewrite length_app in Hl.
    assert (u = take (length u) (drop i hs) ∧ (length u ≤ m)%nat) as [Hu Hum].
    { pose proof (f_equal length Ht) as Hle. rewrite length_app, length_take in Hle. split; [|lia].
      apply (f_equal (take (length u))) in Ht. rewrite take_app_length, take_take, Nat.min_l in Ht by lia. done. }
    assert (1 ≤ length u)%nat as Hu1 by lia. rewrite Hu, (Hj (length u)) by lia.
    destruct (length u); [lia|]. by apply bool_decide_eq_true.
Qed.

Lemma extends_past k0 q0 xs b k' q b' : extends k0 q0 xs b k' q b' = past k0 q0 xs k' q && (b' =? b).
Proof. done. Qed.

(** What the loop has done by the time it returns. *)
Record commit_done (s s' : shard) (i : nat) (broken : bool) (hit hit' : Z) : Prop := {
  cd_wf : shard_wf s';
  cd_roots : roots s' = roots s;
  cd_holds k' q b : holds s' k' q b = holds s k' q b || (past k (take i hs) (drop i hs) k' q && (b =? slot));
  cd_recorded k' q : recorded s' k' q = recorded s k' q || past k (take i hs) (drop i hs) k' q;
  cd_hit : hit' = hit + (if broken then 0
                         else Z.of_nat (lead (λ q, holds s k q slot) (take i hs) (drop i hs)));
}.

Lemma take_take_drop (m i : nat) (l : list Z) : take i l ++ take m (drop i l) = take (i + m) l.
Proof.
  rewrite take_drop_commute. replace (take i l) with (take i (take (i + m) l)); [apply take_drop|].
  rewrite take_take. f_equal. lia.
Qed.

Lemma commit_none s i cur rc u broken hit :
  shard_wf s → place s k (take i hs) = Some (cur, nblocks rc) → store s !! cur = Some rc →
  drop i p !! 0%nat = Some u → find (store s) cur (Hash u) = None →
  (parent rc ≠ None → Has (marks rc) slot = true) →
  commit_done s (if bool_decide (parent rc ≠ None) && bool_decide (kids rc = [])
                    && (Count (marks rc) =? 1) && Has (marks rc) slot
                 then extendTail cur (drop i p) now s else growRun cur (drop i p) slot now s) i broken hit hit.
Proof.
  intros Hwf Hpl Hcur Hu Hf Hm. assert (drop i p ≠ []) as Hne by (by destruct (drop i p)).
  assert (Hash <$> drop i p = drop i hs) as Hdr by apply fmap_drop.
  assert (Hlead : lead (λ q, holds s k q slot) (take i hs) (drop i hs) = 0%nat).
  { apply lead_0. rewrite <-Hdr. destruct (drop i p) as [|u' l]; [done|]. cbn in Hu. simplify_eq. cbn. rewrite take_0.
    destruct (place_ok _ _ _ _ Hwf Hpl) as (root & Hroot & _ & Hloc & _).
    unfold holds, place. rewrite Hroot. cbn. rewrite locate_snoc, Hloc. cbn. by rewrite (find_step _ _ _ _ Hcur Hf). }
  assert (Hhit : hit = hit + (if broken then 0 else Z.of_nat (lead (λ q, holds s k q slot) (take i hs) (drop i hs)))).
  { rewrite Hlead. destruct broken; lia. }
  destruct (_ && _) eqn:E.
  - bool_props. rewrite (extendTail_eq s cur rc (drop i p) slot) by done.
    pose proof (lengthen_shard_wf s cur rc (drop i p) k (take i hs) Hwf Hcur ltac:(done) ltac:(done) ltac:(done) Hpl Hne) as Hwf1.
    assert (store (lengthen cur rc (drop i p) s) !! cur =
      Some (set_blocks (hashes rc ++ (Hash <$> drop i p)) (tokens rc ++ (Tokens <$> drop i p)) rc)) as Hcur1.
    { cbn. unfold extend_store. by rewrite lookup_insert_eq. }
    assert (Hview : ∀ k' q b, _) by (intros k' q b; exact (lengthen_view s cur rc (drop i p) slot k (take i hs) k' q b
      Hwf Hcur ltac:(done) ltac:(done) ltac:(done) ltac:(done) Hpl)).
    assert (Htouch : ∀ k' q b, _) by (intros k' q b; exact (touch_view (lengthen cur rc (drop i p) s) cur slot now _ k' q b Hcur1 Hslot ltac:(done))).
    constructor.
    + eapply mark_shard_wf; [done|exact Hcur1|done|done|]. apply (marked_anc _ cur); done.
    + destruct (markRun_store cur slot now _ _ Hcur1) as (_ & _ & -> & _). done.
    + intros k' q b. destruct (Htouch k' q b) as [-> _]. destruct (Hview k' q b) as [-> _]. by rewrite Hdr.
    + intros k' q. destruct (Htouch k' q 0) as [_ ->]. destruct (Hview k' q 0) as [_ ->]. by rewrite Hdr.
    + done.
  - assert (Hview : ∀ k' q b, _) by (intros k' q b; exact (grow_view s cur rc (drop i p) slot now u k (take i hs) k' q b
      Hwf Hcur Hu Hf Hslot Hm Hpl)).
    constructor.
    + by apply (grow_shard_wf s cur rc (drop i p) slot now u k (take i hs)).
    + by rewrite (growRun_eq s cur rc).
    + intros k' q b. destruct (Hview k' q b) as [-> _]. by rewrite Hdr.
    + intros k' q. destruct (Hview k' q 0) as [_ ->]. by rewrite Hdr.
    + done.
Qed.

Lemma inside_holds s k' q c b : inside s k' q c = true → holds s k' q b = Has (marks (deref s c)) b ∧ recorded s k' q = true.
Proof.
  unfold inside, holds, recorded. destruct (place s k' q) as [[l [|o]]|]; [done| |done].
  by intros ->%bool_decide_eq_true.
Qed.

Lemma commit_loop_spec fuel s cur rc i hit broken :
  shard_wf s → place s k (take i hs) = Some (cur, nblocks rc) → store s !! cur = Some rc →
  (i ≤ length p)%nat → (length p - i ≤ fuel)%nat → (parent rc ≠ None → Has (marks rc) slot = true) →
  commit_done s (commit_loop fuel p slot now cur i hit broken s).2 i broken hit
    (commit_loop fuel p slot now cur i hit broken s).1.
Proof.
  assert (Hfin : ∀ s i hit broken, shard_wf s → drop i p = [] → commit_done s s i broken hit hit).
  { clear -Hslot. intros s i hit broken Hwf Hd.
    assert (drop i hs = []) as Hdr by (unfold hs; by rewrite <-fmap_drop, Hd).
    assert (Hp : ∀ k' q, past k (take i hs) (drop i hs) k' q = false).
    { intros. rewrite Hdr. unfold past. rewrite bool_decide_eq_false_2; [done|]. rewrite app_nil_r.
      intros (_ & Hl & Hp%prefix_length). lia. }
    constructor; try done.
    - intros. by rewrite Hp, orb_false_r.
    - intros. by rewrite Hp, orb_false_r.
    - rewrite Hdr. destruct broken; cbn; lia. }
  revert s cur rc i hit broken. induction fuel as [|f IH]; intros s cur rc i hit broken Hwf Hpl Hcur Hi Hfuel Hm.
  { apply Hfin; [done|]. apply drop_ge. lia. }
  cbn [commit_loop]. destruct (drop i p) as [|u rest] eqn:Ed; [by apply Hfin|].
  assert (drop i p !! 0%nat = Some u) as Hu by (by rewrite Ed). rewrite <-Ed.
  destruct (find (store s) cur (Hash u)) as [c|] eqn:Ef.
  2: { assert (deref s cur = rc) as -> by (by apply deref_Some).
    pose proof (commit_none s i cur rc u broken hit Hwf Hpl Hcur Hu Ef Hm) as H. by destruct (_ && _). }
  destruct (descend_spec s i cur rc c u Hwf Hpl Hcur Hu Ef) as (Hm1 & Hmp & Hde).
  change (if decide _ then splitRun c _ s else (c, s)) with (descend c i s).
  set (m := matched_len (hashes (deref s c)) (Hash <$> drop i p)) in *.
  destruct (descend c i s) as [c1 s1]. cbn [fst snd] in *. destruct Hde as [Hwf1 Hro1 (y1 & Hy1 & Hp1 & Hn1 & Hmy) Hcur1 Hho1 Hre1 Hj1].
  destruct (Hcur1 rc Hcur) as (rc1 & Hrc1 & Hprc & Hmrc).
  assert (deref s1 c1 = y1) as -> by (by apply deref_Some).
  set (has := Has (marks y1) slot). set (s2 := markRun c1 slot now s1).
  assert (shard_wf s2) as Hwf2.
  { apply (mark_shard_wf s1 c1 slot now y1); [done..|congruence|done|].
    intros q rq Hq Hrq Hl. assert (q = cur) as -> by congruence. simplify_eq. rewrite Hmrc. apply Hm. by rewrite <-Hprc. }
  assert (roots s2 = roots s) as Hro2 by (unfold s2; destruct (markRun_store c1 slot now s1 y1 Hy1) as (_ & _ & -> & _); done).
  assert (length (drop i hs) = length p - i)%nat as Hld by (unfold hs; by rewrite length_drop, length_fmap).
  assert (Hin : ∀ k' q, inside s1 k' q c1 = past k (take i hs) (take m (drop i hs)) k' q).
  { intros. apply inside_past; [done|lia|eauto|done]. }
  assert (Hho2 : ∀ k' q b, holds s2 k' q b = holds s k' q b || (past k (take i hs) (take m (drop i hs)) k' q && (b =? slot))).
  { intros k' q b. unfold s2. destruct (mark_holds s1 c1 slot now y1 k' q b Hy1 Hslot) as [-> _]. by rewrite Hho1, Hin. }
  assert (Hre2 : ∀ k' q, recorded s2 k' q = recorded s k' q || past k (take i hs) (take m (drop i hs)) k' q).
  { intros k' q. unfold s2. destruct (mark_holds s1 c1 slot now y1 k' q 0 Hy1 Hslot) as [_ ->]. rewrite <-Hin, Hre1.
    destruct (inside s1 k' q c1) eqn:E; [|by rewrite orb_false_r].
    destruct (inside_holds _ _ _ _ 0 E) as [_ H]. by rewrite <-Hre1, H. }
  destruct (markRun_store c1 slot now s1 y1 Hy1) as (Hst2 & _). fold s2 in Hst2.
  set (y2 := touch now _) in Hst2.
  assert (store s2 !! c1 = Some y2) as Hy2 by (rewrite Hst2; by rewrite lookup_insert_eq).
  assert (place s2 k (take (i + m) hs) = Some (c1, nblocks y2)) as Hpl2.
  { unfold s2. rewrite (mark_place _ _ _ _ y1) by done. rewrite <-take_take_drop, Hj1 by lia.
    rewrite <-Hn1. done. }
  set (hb := if broken then (hit, broken) else if has then (hit + Z.of_nat m, broken) else (hit, true)).
  destruct hb as [hit1 broken1] eqn:Ehb.
  destruct (IH s2 c1 y2 (i + m)%nat hit1 broken1 Hwf2 Hpl2 Hy2 ltac:(lia) ltac:(lia)) as [Hwf' Hro' Hho' Hre' Hhit'].
  { intros _. unfold y2. cbn. rewrite Has_markset by done. by rewrite Z.eqb_refl, orb_true_r. }
  constructor; [done|congruence| | |].
  - intros k' q b. rewrite Hho', Hho2, (past_split k (take i hs) (drop i hs) m) by lia.
    rewrite take_take_drop, drop_drop. rewrite <-orb_assoc. f_equal. by rewrite andb_orb_distrib_l.
  - intros k' q. rewrite Hre', Hre2, (past_split k (take i hs) (drop i hs) m) by lia.
    rewrite take_take_drop, drop_drop. by rewrite <-orb_assoc.
  - assert (Hle : lead (λ q, holds s2 k q slot) (take (i + m) hs) (drop (i + m) hs) =
                  lead (λ q, holds s k q slot) (take (i + m) hs) (drop (i + m) hs)).
    { apply lead_ext. intros q Hq. rewrite Hho2. destruct (past _ _ _ _ _) eqn:E; [|by rewrite orb_false_r].
      unfold past in E. apply bool_decide_eq_true in E as (_ & _ & Hp%prefix_length).
      rewrite take_take_drop in Hp. lia. }
    assert (Hhas : ∀ j, (1 ≤ j ≤ m)%nat → holds s k (take i hs ++ take j (drop i hs)) slot = has).
    { intros j Hj. rewrite <-Hho1. unfold holds. rewrite (Hj1 j Hj). destruct j; [lia|].
      unfold deref. by rewrite (deref_Some _ _ _ Hy1). }
    rewrite Hhit', Hle. unfold hb in Ehb. destruct broken; [by injection Ehb as <- <-|]. destruct has eqn:Eh; injection Ehb as <- <-.
    + rewrite (lead_app _ (take i hs) (drop i hs) m) by (lia || done). rewrite take_take_drop, drop_drop. lia.
    + rewrite (lead_0 _ (take i hs) (drop i hs)) by (apply (Hhas 1%nat); lia). lia.
Qed.
End commit.

(** ** A new model's root *)

Definition with_root (k : Z) (s : shard) : shard :=
  Shard (<[fresh s := nil_run]> (store s)) (Pos.succ (fresh s)) (<[k := fresh s]> (roots s)) (tails s)
    (runs s) (blocks_total s) (copies s) (expired s).

Lemma with_root_wf k s : shard_wf s → roots s !! k = None → shard_wf (with_root k s).
Proof.
  intros Hwf Hk. pose proof (fresh_None s (sw_fresh s Hwf)) as Hf.
  assert (Hlk : ∀ l, store (with_root k s) !! l = if decide (l = fresh s) then Some nil_run else store s !! l).
  { intros l. cbn. destruct (decide (l = fresh s)) as [->|]; [by rewrite lookup_insert_eq|by rewrite lookup_insert_ne]. }
  assert (Hro : ∀ k' l, roots s !! k' = Some l → l ≠ fresh s).
  { intros k' l H ->. destruct (sw_root s Hwf _ _ H) as (y & ? & _). congruence. }
  assert (Hw : ∀ w : run → Z, w nil_run = 0 → msum w (store (with_root k s)) = msum w (store s)).
  { intros w H0. cbn. rewrite msum_insert_new by done. lia. }
  constructor; cbn [with_root roots tails runs blocks_total copies fresh].
  - apply insert_root_wf; [apply Hwf|done].
  - intros l r. rewrite Hlk. case_decide; [subst; cbn; lia|]. intros H1%(sw_fresh s Hwf). cbn. lia.
  - intros k' l [[-> <-]|[_ Hl]]%lookup_insert_Some; unfold is_root; setoid_rewrite Hlk.
    + rewrite decide_True by done. by exists nil_run.
    + destruct (sw_root s Hwf _ _ Hl) as (y & ? & ?). rewrite decide_False by (by eapply Hro). eauto.
  - intros k1 k2 l [[-> <-]|[Hk1 H1]]%lookup_insert_Some [[-> H2]|[Hk2 H2]]%lookup_insert_Some; try done.
    + by apply Hro in H2.
    + subst. by apply Hro in H1.
    + by eapply (sw_root_inj s Hwf).
  - intros l. rewrite (sw_tails s Hwf). unfold childless. setoid_rewrite Hlk. case_decide; [|done].
    subst. rewrite Hf. split; intros (y & ? & ? & _); simplify_eq.
  - intros l r. rewrite Hlk. case_decide; [intros [= <-]; done|]. intros Hl Hp.
    destruct (sw_reach s Hwf l r Hl Hp) as (k' & root & q & Hr & Hq). exists k', root, q.
    rewrite lookup_insert_ne by congruence. split; [done|]. cbn. rewrite insert_root_locate; [done|apply Hwf|done|].
    by apply (sw_root s Hwf k').
  - rewrite Hw by done. apply Hwf.
  - rewrite Hw by done. apply Hwf.
  - rewrite Hw by done. apply Hwf.
Qed.

Lemma with_root_view k s k' q b :
  shard_wf s → roots s !! k = None →
  holds (with_root k s) k' q b = holds s k' q b ∧ recorded (with_root k s) k' q = recorded s k' q.
Proof.
  intros Hwf Hk. pose proof (fresh_None s (sw_fresh s Hwf)) as Hf. unfold holds, recorded.
  destruct (decide (k' = k)) as [->|Hne].
  - unfold place at 2 4. rewrite Hk. cbn. unfold place. cbn. rewrite lookup_insert_eq. cbn.
    destruct q as [|x q]; [done|]. rewrite insert_root_locate_new; [done|apply Hwf|done|done].
  - assert (place (with_root k s) k' q = place s k' q) as ->.
    { unfold place. cbn. rewrite lookup_insert_ne by done. destruct (roots s !! k') as [root|] eqn:E; [|done]. cbn.
      apply insert_root_locate; [apply Hwf|done|]. by apply (sw_root s Hwf k'). }
    destruct (place s k' q) as [[l [|o]]|] eqn:E; [done| |done].
    destruct (place_lookup _ _ _ _ _ Hwf E) as (y & Hy & _). unfold deref. cbn.
    rewrite lookup_total_insert_ne by congruence. done.
Qed.

(** ** The whole commit *)

Lemma past_nil k hs k' q : past k [] hs k' q = bool_decide (k' = k ∧ q ≠ [] ∧ q `prefix_of` hs).
Proof.
  unfold past. apply bool_decide_ext. cbn. split; intros (? & ? & ?); split_and!; try done.
  - intros ->. cbn in *. lia.
  - destruct q; [done|cbn; lia].
Qed.

Lemma commit_spec p slot now s :
  shard_wf s → 0 ≤ slot →
  commit_done (units p) slot (modelKey p) s (commit p slot now s).2 0 false 0 (commit p slot now s).1 ∨
  roots s !! modelKey p = None ∧
  commit_done (units p) slot (modelKey p) (with_root (modelKey p) s) (commit p slot now s).2 0 false 0 (commit p slot now s).1.
Proof.
  intros Hwf Hs. unfold commit. destruct (roots s !! modelKey p) as [root|] eqn:E.
  - left. destruct (sw_root s Hwf _ _ E) as (y & Hy & Hp & Hh).
    apply (commit_loop_spec (units p) slot now (modelKey p) Hs _ s root y); try done; try lia.
    unfold place. rewrite E, take_0. cbn. unfold nblocks. by rewrite Hh.
  - right. split; [done|]. cbn. pose proof (with_root_wf (modelKey p) s Hwf E) as Hwf1.
    apply (commit_loop_spec (units p) slot now (modelKey p) Hs _ _ (fresh s) nil_run); try done; try lia.
    + unfold place. cbn. rewrite lookup_insert_eq, take_0. done.
    + cbn. by rewrite lookup_insert_eq.
Qed.

(** [commit], on the view: its result, and the view it leaves behind. *)
Lemma commit_view p slot now s :
  shard_wf s → 0 ≤ slot →
  let '(hit, s') := commit p slot now s in
  shard_wf s' ∧
  (∀ k q b, holds s' k q b =
     holds s k q b || (bool_decide (k = modelKey p ∧ q ≠ [] ∧ q `prefix_of` path_hashes p) && (b =? slot))) ∧
  (∀ k q, recorded s' k q =
     recorded s k q || bool_decide (k = modelKey p ∧ q ≠ [] ∧ q `prefix_of` path_hashes p)) ∧
  hit = Z.of_nat (lead (λ q, holds s (modelKey p) q slot) [] (path_hashes p)).
Proof.
  intros Hwf Hs. pose proof (commit_spec p slot now s Hwf Hs) as H.
  destruct (commit p slot now s) as [hit s']. cbn in H. destruct H as [[Hw Hr Hh Hre Hhit]|[Hk [Hw Hr Hh Hre Hhit]]];
    rewrite take_0, drop_0 in *; (split; [done|]).
  - split_and!.
    + intros. rewrite Hh, past_nil. done.
    + intros. rewrite Hre, past_nil. done.
    + rewrite Hhit. unfold path_hashes. lia.
  - split_and!.
    + intros. rewrite Hh, past_nil. by destruct (with_root_view _ _ k q b Hwf Hk) as [-> _].
    + intros. rewrite Hre, past_nil. by destruct (with_root_view _ _ k q 0 Hwf Hk) as [_ ->].
    + rewrite Hhit. rewrite (lead_ext _ (λ q, holds s (modelKey p) q slot)); [unfold path_hashes; lia|].
      intros q _. by destruct (with_root_view _ _ (modelKey p) q slot Hwf Hk) as [-> _].
Qed.
