(* ===== verification/TreeWalk.v ===== *)
(** * TreeWalk: what a walk reports

    [walk] and [heldTokens] read the store run by run; here their results are stated on the
    abstract view, block by block. *)

From stdpp Require Import base gmap sets list strings sorting.
From Stdlib Require Import ZArith Lia.
From S2P Require Import Prelude MarkSet KvUnits AffinityTree TreeWf TreeStep TreeShard TreeCommit.
Open Scope Z_scope.

(** A slot that holds a prefix holds every shorter one. *)
Lemma place_step s k q x l o :
  shard_wf s → place s k (q ++ [x]) = Some (l, S o) →
  (∃ o0, place s k q = Some (l, S o0)) ∨
  ∃ p o0, place s k q = Some (p, o0) ∧ parent (deref s l) = Some p.
Proof.
  intros Hwf H. destruct (place_ok _ _ _ _ Hwf H) as (root & Hroot & His & Hloc & _).
  unfold place in *. rewrite Hroot in *. cbn in *. rewrite locate_snoc in H.
  destruct (locate (store s) root q) as [[p o0]|] eqn:E; [|done]. cbn in H.
  pose proof (locate_ok _ (sw_heap s Hwf) _ _ _ His E) as Hok.
  destruct (ok_pos_lookup _ _ _ His Hok) as [y Hy]. cbn in Hy. unfold step in H. cbn in H.
  rewrite (deref_Some _ _ _ Hy) in H. destruct (hashes y !! o0) as [z|] eqn:Ez.
  - destruct (x =? z); [|done]. simplify_eq. destruct o; [|by left; exists o].
    exfalso. destruct Hok as [[= -> ]|(y' & ? & ? & ?)]; [|cbn in *; lia].
    destruct His as (rr & ? & _ & Hh). simplify_eq. by rewrite Hh in Ez.
  - destruct (find (store s) p x) as [c|] eqn:Ec; simplify_eq/=. right. exists p, o0. split; [done|].
    destruct (find_child _ (sw_heap s Hwf) p x l) as (r & Hr & Hp & _); [eauto|done|].
    unfold deref. by rewrite (deref_Some _ _ _ Hr).
Qed.

(** The holders of a prefix satisfy [g]. *)
Definition marked_by (g : markSet → bool) (s : shard) (k : Z) (q : list Z) : bool :=
  match place s k q with Some (l, S _) => g (marks (deref s l)) | _ => false end.

Definition mono (g : markSet → bool) : Prop :=
  ∀ m m', wf_marks m → wf_marks m' → (∀ b, Has m b = true → Has m' b = true) → g m = true → g m' = true.

Lemma nonempty_mono : mono (λ m, negb (Empty m)).
Proof.
  intros m m' Hm Hm' Hsub H. apply negb_true_iff in H. apply negb_true_iff.
  apply not_true_is_false. intros H'. apply not_true_iff_false in H. apply H.
  rewrite Empty_has in * by done. intros s. apply not_true_is_false. intros Hs.
  specialize (Hsub _ Hs). by rewrite H' in Hsub.
Qed.

Lemma intersects_mono c : wf_marks c → mono (λ m, Intersects m c).
Proof.
  intros Hc m m' Hm Hm' Hsub H. rewrite Intersects_has in * by done.
  destruct H as (s & H1 & H2). exists s. auto.
Qed.

Lemma has_mono b : mono (λ m, Has m b).
Proof. intros m m' _ _ H. apply H. Qed.

Lemma marked_step g s k q x :
  mono g → shard_wf s → q ≠ [] → marked_by g s k (q ++ [x]) = true → marked_by g s k q = true.
Proof.
  intros Hg Hwf Hq H. unfold marked_by in H. destruct (place s k (q ++ [x])) as [[l [|o]]|] eqn:E; [done| |done].
  destruct (place_step _ _ _ _ _ _ Hwf E) as [[o0 H0]|(p & o0 & H0 & Hp)].
  - unfold marked_by. by rewrite H0.
  - destruct (place_lookup _ _ _ _ _ Hwf E) as (y & Hy & _ & _).
    assert (deref s l = y) as Hd by (by apply deref_Some). rewrite Hd in *.
    destruct (hw_up _ (sw_heap s Hwf) l y p Hy Hp) as (rp & Hrp & _).
    destruct o0 as [|o0].
    + exfalso. destruct (place_ok _ _ _ _ Hwf H0) as (root & Hroot & His & Hloc & [[= ->]|(? & ? & ? & ?)]); [|cbn in *; lia].
      destruct (locate_inj _ (sw_heap s Hwf) root root q [] (root, 0%nat)) as [_ ->]; done.
    + unfold marked_by. rewrite H0. unfold deref. rewrite (deref_Some _ _ _ Hrp).
      destruct (place_lookup _ _ _ _ _ Hwf H0) as (rp' & Hrp' & Hl & _). assert (rp' = rp) as -> by congruence.
      apply (Hg (marks y)); [by apply (hw_marks _ (sw_heap s Hwf) l)|by apply (hw_marks _ (sw_heap s Hwf) p)| |done].
      intros b. by apply (hw_sub _ (sw_heap s Hwf) l y p rp).
Qed.

Lemma marked_prefix g s k q1 q2 :
  mono g → shard_wf s → q1 ≠ [] → marked_by g s k (q1 ++ q2) = true → marked_by g s k q1 = true.
Proof.
  intros Hg Hwf Hq. induction q2 as [|x q2 IH] using rev_ind; intros H; [by rewrite app_nil_r in H|].
  apply IH. rewrite app_assoc in H. apply marked_step in H; [done|done|done|]. by destruct q1.
Qed.

Lemma holds_marked s k q b : holds s k q b = marked_by (λ m, Has m b) s k q.
Proof. done. Qed.

Lemma recorded_marked s k q : recorded s k q = marked_by (λ _, true) s k q.
Proof. done. Qed.

Lemma holds_prefix s k q1 q2 b :
  shard_wf s → q1 ≠ [] → holds s k (q1 ++ q2) b = true → holds s k q1 b = true.
Proof. apply (marked_prefix (λ m, Has m b)), has_mono. Qed.

(** ** The walk's loop *)

Section walk.
Context (s : shard) (Hwf : shard_wf s) (k : Z) (p : list Unit_).
Let hs : list Z := Hash <$> p.

Definition reach (g : markSet → bool) (i : nat) : nat := lead (marked_by g s k) (take i hs) (drop i hs).

(** One round: the blocks of the child just met, then the rest of the path. *)
Lemma reach_child g i cur rc c u :
  mono g → place s k (take i hs) = Some (cur, nblocks rc) → store s !! cur = Some rc →
  drop i p !! 0%nat = Some u → find (store s) cur (Hash u) = Some c →
  let m := matched_len (hashes (deref s c)) (Hash <$> drop i p) in
  reach g i = (if g (marks (deref s c))
               then m + (if decide (m < nblocks (deref s c)) then 0 else reach g (i + m)) else 0)%nat ∧
  (g (marks (deref s c)) = false → reach g (i + m) = 0%nat).
Proof.
  intros Hg Hpl Hcur Hu Hf.
  destruct (place_child p k s i cur rc c u Hwf Hpl Hcur Hu Hf) as (y & m & Hy & Hp & Hm & Hmr & Hmp & Hj).
  fold hs in Hj. assert (deref s c = y) as Hd by (by apply deref_Some). rewrite Hm. cbn zeta.
  assert (Hmk : ∀ j, (1 ≤ j ≤ m)%nat → marked_by g s k (take i hs ++ take j (drop i hs)) = g (marks (deref s c))).
  { intros j Hj'. unfold marked_by. rewrite (Hj j Hj'). destruct j; [lia|done]. }
  assert (length (drop i hs) = length p - i)%nat as Hld by (unfold hs; by rewrite length_drop, length_fmap).
  pose proof (take_take_drop m i hs) as Htt. unfold reach. split.
  - destruct (g (marks (deref s c))) eqn:Eg; [|apply lead_0, (Hmk 1%nat); lia].
    rewrite (lead_app _ _ _ m); [|lia|done]. f_equal. rewrite Htt, drop_drop.
    case_decide as Hlt; [|done]. destruct (drop (i + m) hs) as [|x t] eqn:Ed; [done|].
    apply lead_0. cbn. rewrite take_0. rewrite Hd in Hlt.
    destruct (matched_len_spec (hashes y) (drop i hs)) as (_ & _ & _ & Hdiff).
    assert (matched_len (hashes y) (drop i hs) = m) as Hm' by (unfold hs; by rewrite <-fmap_drop, <-Hd).
    rewrite Hm' in Hdiff.
    destruct (lookup_lt_is_Some_2 (hashes y) m Hlt) as [a Ha].
    assert (drop i hs !! m = Some x) as Hx.
    { rewrite lookup_drop. rewrite <-(Nat.add_0_r (i + m)), <-lookup_drop, Ed. done. }
    pose proof (Hdiff a x Ha Hx) as Hax. pose proof (Hj m ltac:(lia)) as Hjm. rewrite Htt in Hjm.
    unfold marked_by, place in *. destruct (roots s !! k) as [root|]; [|done]. cbn in *.
    rewrite locate_snoc, Hjm. cbn. unfold step. cbn. rewrite (deref_Some _ _ _ Hy), Ha.
    destruct (x =? a) eqn:E; bool_props; [congruence|done].
  - intros Eg. apply lead_0. apply not_true_is_false. intros Ht. apply marked_prefix in Ht; [|done|done|].
    + rewrite <-Htt, (Hmk m) in Ht by lia. congruence.
    + rewrite <-Htt. intros Hnil%(f_equal length). rewrite length_app, !length_take in Hnil. cbn in Hnil. lia.
Qed.

Lemma reach_le g i : (i ≤ length p)%nat → (i + reach g i ≤ length p)%nat.
Proof.
  intros Hi. unfold reach. pose proof (lead_le (marked_by g s k) (take i hs) (drop i hs)) as H.
  unfold hs in *. rewrite length_drop, length_fmap in H. lia.
Qed.

Lemma reach_none g i cur rc u :
  place s k (take i hs) = Some (cur, nblocks rc) → store s !! cur = Some rc →
  drop i p !! 0%nat = Some u → find (store s) cur (Hash u) = None → reach g i = 0%nat.
Proof.
  intros Hpl Hcur Hu Hf. unfold reach. apply lead_0. unfold hs. rewrite <-fmap_drop.
  destruct (drop i p) as [|u' l]; [done|]. cbn in Hu. simplify_eq. cbn. rewrite take_0. fold hs.
  destruct (place_ok _ _ _ _ Hwf Hpl) as (root & Hroot & _ & Hloc & _).
  unfold marked_by, place. rewrite Hroot. cbn. rewrite locate_snoc, Hloc. cbn. by rewrite (find_step _ _ _ _ Hcur Hf).
Qed.

Lemma reach_end g i : drop i p = [] → reach g i = 0%nat.
Proof. intros Hd. unfold reach, hs. by rewrite <-fmap_drop, Hd. Qed.

(** A pointer and a depth of the walk: the run holding the first [n] blocks. *)
Definition at_depth (o : option (loc * nat)) (n : nat) : Prop :=
  ∃ l j, o = Some (l, n) ∧ place s k (take n hs) = Some (l, S j).

Definition found (g : markSet → bool) (i : nat) (o o' : option (loc * nat)) : Prop :=
  if decide (reach g i = 0%nat) then o' = o else at_depth o' (i + reach g i).

Lemma found_child g i cur rc c u o o' :
  mono g → place s k (take i hs) = Some (cur, nblocks rc) → store s !! cur = Some rc →
  drop i p !! 0%nat = Some u → find (store s) cur (Hash u) = Some c →
  let m := matched_len (hashes (deref s c)) (Hash <$> drop i p) in
  let o1 := if g (marks (deref s c)) then Some (c, (i + m)%nat) else o in
  (if decide (m < nblocks (deref s c))%nat then o' = o1 else found g (i + m) o1 o') →
  found g i o o'.
Proof.
  intros Hg Hpl Hcur Hu Hf m o1 H.
  destruct (place_child p k s i cur rc c u Hwf Hpl Hcur Hu Hf) as (y & m' & Hy & Hp & Hm & Hmr & Hmp & Hj).
  fold m in Hm. subst m'. fold hs in Hj.
  destruct (reach_child g i cur rc c u Hg Hpl Hcur Hu Hf) as [Hr Hr0]. fold m in Hr, Hr0.
  unfold found. rewrite Hr. unfold o1 in H. destruct (g (marks (deref s c))).
  - assert (at_depth (Some (c, (i + m)%nat)) (i + m)) as Hat.
    { exists c, (m - 1)%nat. split; [done|]. rewrite <-take_take_drop, Hj by lia. do 2 f_equal. lia. }
    rewrite decide_False by lia. destruct (decide (m < nblocks (deref s c))%nat); [subst o'; by rewrite Nat.add_0_r|].
    unfold found in H. destruct (decide (reach g (i + m) = 0)%nat) as [E|].
    + subst o'. by rewrite E, Nat.add_0_r.
    + by rewrite Nat.add_assoc.
  - rewrite decide_True by done. destruct (decide (m < nblocks (deref s c))%nat); [done|].
    unfold found in H. by rewrite decide_True in H by auto.
Qed.

Lemma walk_loop_spec fuel c i cur rc av mk i' av' mk' :
  wf_marks c → place s k (take i hs) = Some (cur, nblocks rc) → store s !! cur = Some rc →
  (i ≤ length p)%nat → (length p - i ≤ fuel)%nat →
  walk_loop fuel (store s) hs c cur i av mk = (i', av', mk') →
  i' = (i + reach (λ _, true) i)%nat ∧ found (λ m, Intersects m c) i av av' ∧ found (λ m, negb (Empty m)) i mk mk'.
Proof.
  intros Hc.
  assert (Hfin : ∀ i i' av av' mk mk', (∀ g, reach g i = 0%nat) → (i, av, mk) = (i', av', mk') →
    i' = (i + reach (λ _, true) i)%nat ∧ found (λ m, Intersects m c) i av av' ∧ found (λ m, negb (Empty m)) i mk mk').
  { intros ?????? Hr [= <- <- <-]. unfold found. rewrite !Hr, !decide_True by done. split_and!; [lia|done..]. }
  revert i cur rc av mk. induction fuel as [|f IH]; intros i cur rc av mk Hpl Hcur Hi Hfu; cbn [walk_loop].
  { apply Hfin. intros g. apply reach_end, drop_ge. lia. }
  destruct (drop i hs) as [|x t] eqn:Ed.
  { apply Hfin. intros g. unfold reach. by rewrite Ed. }
  destruct (drop i p) as [|u t'] eqn:Edp; [unfold hs in Ed; by rewrite <-fmap_drop, Edp in Ed|].
  assert (Hash u = x) as Hux by (unfold hs in Ed; rewrite <-fmap_drop, Edp in Ed; by injection Ed).
  assert (drop i p !! 0%nat = Some u) as Hu by (by rewrite Edp). subst x.
  destruct (find (store s) cur (Hash u)) as [ch|] eqn:Ef.
  2: { apply Hfin. intros g. by eapply reach_none. }
  destruct (place_child p k s i cur rc ch u Hwf Hpl Hcur Hu Ef) as (y & m & Hy & Hp & Hm & Hmr & Hmp & Hj).
  fold hs in Hj. change (store s !!! ch) with (deref s ch). rewrite <-Ed.
  replace (matched_len (hashes (deref s ch)) (drop i hs)) with m by (unfold hs; by rewrite <-fmap_drop, Hm).
  assert (Hst : (if Empty (marks (deref s ch)) then (av, mk)
      else (if Intersects (marks (deref s ch)) c then Some (ch, (i + m)%nat) else av, Some (ch, (i + m)%nat))) =
    (if Intersects (marks (deref s ch)) c then Some (ch, (i + m)%nat) else av,
     if negb (Empty (marks (deref s ch))) then Some (ch, (i + m)%nat) else mk)).
  { destruct (Empty _) eqn:Ee; [|done]. destruct (Intersects _ c) eqn:Ei; [|done]. exfalso.
    pose proof (hw_marks _ (sw_heap s Hwf) ch y Hy) as Hwy. unfold deref in *. rewrite (deref_Some _ _ _ Hy) in *.
    apply Intersects_has in Ei as (b & Hb & _); [|done..]. rewrite Empty_has in Ee by done. by rewrite Ee in Hb. }
  rewrite Hst. intros Hrun.
  pose proof (λ g o o' Hg, found_child g i cur rc ch u o o' Hg Hpl Hcur Hu Ef) as Hfc. cbn zeta in Hfc. rewrite Hm in Hfc.
  destruct (reach_child (λ _, true) i cur rc ch u (λ _ _ _ _ _ H, H) Hpl Hcur Hu Ef) as [Hr _]. rewrite Hm in Hr.
  destruct (decide (m < nblocks (deref s ch))%nat) as [Hlt|Hge].
  - injection Hrun as <- <- <-. split_and!; [rewrite Hr; lia| |].
    + apply Hfc; [by apply intersects_mono|done].
    + apply Hfc; [by apply nonempty_mono|done].
  - assert (m = nblocks y) as Hmy.
    { unfold deref in Hge. rewrite (deref_Some _ _ _ Hy) in Hge. lia. }
    assert (place s k (take (i + m) hs) = Some (ch, nblocks y)) as Hpl2.
    { by rewrite <-take_take_drop, Hj, Hmy by lia. }
    destruct (IH (i + m)%nat ch y _ _ Hpl2 Hy ltac:(lia) ltac:(lia) Hrun) as (-> & H1 & H2).
    split_and!; [rewrite Hr; lia| |]; (apply Hfc; [|done]); [by apply intersects_mono|by apply nonempty_mono].
Qed.

(** [heldTokens]' loop: a slot's entry is the tokens of what it holds. *)
Lemma heldTokens_loop_spec fuel sl i cur rc out :
  place s k (take i hs) = Some (cur, nblocks rc) → store s !! cur = Some rc →
  (i ≤ length p)%nat → (length p - i ≤ fuel)%nat → length out = length sl →
  heldTokens_loop fuel (store s) p sl cur i (sum_tokens (take i p)) out =
  zip_with (λ b o, let n := reach (λ m, Has m b) i in
                   if decide (n = 0%nat) then o else sum_tokens (take (i + n) p)) sl out.
Proof.
  assert (Hfin : ∀ i sl out, length out = length sl → (∀ g, reach g i = 0%nat) →
    out = zip_with (λ b o, let n := reach (λ m, Has m b) i in
                   if decide (n = 0%nat) then o else sum_tokens (take (i + n) p)) sl out).
  { clear. intros i sl. induction sl as [|b sl IH]; intros [|o out] Hl Hr; try done. cbn.
    rewrite Hr, decide_True by done. f_equal. apply IH; [by injection Hl|done]. }
  revert i cur rc out. induction fuel as [|f IH]; intros i cur rc out Hpl Hcur Hi Hfu Hl; cbn [heldTokens_loop].
  { apply Hfin; [done|]. intros g. apply reach_end, drop_ge. lia. }
  destruct (drop i p) as [|u t] eqn:Ed; [apply Hfin; [done|intros g; by apply reach_end]|].
  assert (drop i p !! 0%nat = Some u) as Hu by (by rewrite Ed). rewrite <-Ed.
  destruct (find (store s) cur (Hash u)) as [ch|] eqn:Ef.
  2: { apply Hfin; [done|]. intros g. by eapply reach_none. }
  destruct (place_child p k s i cur rc ch u Hwf Hpl Hcur Hu Ef) as (y & m & Hy & Hp & Hm & Hmr & Hmp & Hj).
  fold hs in Hj. change (store s !!! ch) with (deref s ch). rewrite Hm.
  assert (sum_tokens (take i p) + sum_tokens (take m (drop i p)) = sum_tokens (take (i + m) p)) as ->.
  { rewrite <-sum_tokens_app, take_drop_commute. f_equal.
    replace (take i p) with (take i (take (i + m) p)) by (rewrite take_take; f_equal; lia). apply take_drop. }
  assert (Hstep : ∀ b o, (let n := reach (λ m, Has m b) i in if decide (n = 0%nat) then o else sum_tokens (take (i + n) p)) =
    let o1 := if Has (marks (deref s ch)) b then sum_tokens (take (i + m) p) else o in
    if decide (m < nblocks (deref s ch))%nat then o1
    else let n := reach (λ m, Has m b) (i + m) in if decide (n = 0%nat) then o1 else sum_tokens (take (i + m + n) p)).
  { intros b o. cbn zeta.
    destruct (reach_child (λ m, Has m b) i cur rc ch u (has_mono b) Hpl Hcur Hu Ef) as [Hr Hr0]. rewrite Hm in *.
    rewrite Hr. destruct (Has (marks (deref s ch)) b).
    - rewrite decide_False by lia. destruct (decide (m < nblocks (deref s ch))%nat); [by rewrite Nat.add_0_r|].
      destruct (decide (reach _ (i + m) = 0%nat)) as [->|]; [by rewrite Nat.add_0_r|by rewrite Nat.add_assoc].
    - rewrite decide_True by done. rewrite Hr0 by done. by destruct (decide _). }
  destruct (decide (m < nblocks (deref s ch))%nat) as [Hlt|Hge].
  - clear IH Hfin. revert out Hl. induction sl as [|b sl IH]; intros [|o out] Hl; try done. cbn [zip_with].
    f_equal; [by rewrite Hstep|]. apply IH. by injection Hl.
  - assert (m = nblocks y) as Hmy.
    { unfold deref in Hge. rewrite (deref_Some _ _ _ Hy) in Hge. lia. }
    rewrite (IH (i + m)%nat ch y); [|by rewrite <-take_take_drop, Hj, Hmy by lia|done|lia|lia|].
    + clear IH Hfin. revert out Hl. induction sl as [|b sl IH]; intros [|o out] Hl; try done. cbn [zip_with].
      f_equal; [by rewrite Hstep|]. apply IH. by injection Hl.
    + rewrite length_zip_with. lia.
Qed.
End walk.

(** ** The walk, on the view *)

Lemma root_place s k root : shard_wf s → roots s !! k = Some root →
  ∃ rr, store s !! root = Some rr ∧ place s k [] = Some (root, nblocks rr).
Proof.
  intros Hwf Hr. destruct (sw_root s Hwf _ _ Hr) as (y & Hy & Hp & Hh). exists y. split; [done|].
  unfold place. rewrite Hr. cbn. unfold nblocks. by rewrite Hh.
Qed.

Lemma no_root_lead g s k hs : roots s !! k = None → lead (marked_by g s k) [] hs = 0%nat.
Proof.
  intros Hr. apply lead_0. unfold marked_by, place. by rewrite Hr.
Qed.

(** [lead] of a prefix-closed property, as the set of depths it reaches. *)
Lemma lead_marked g s k hs j :
  mono g → shard_wf s → (1 ≤ j ≤ length hs)%nat →
  (j ≤ lead (marked_by g s k) [] hs)%nat ↔ marked_by g s k (take j hs) = true.
Proof.
  intros Hg Hwf Hj. rewrite <-(lead_spec _ [] hs j Hj). cbn. split; [intros H; apply H; lia|].
  intros H i Hi. apply (marked_prefix g s k _ (drop i (take j hs))); [done|done| |].
  - destruct hs; [cbn in Hj; lia|]. by destruct i; [lia|].
  - replace (take i hs) with (take i (take j hs)) by (rewrite take_take; f_equal; lia). by rewrite take_drop.
Qed.

Lemma holds_marks s k q l j b : place s k q = Some (l, S j) → holds s k q b = Has (marks (deref s l)) b.
Proof. unfold holds. by intros ->. Qed.

Lemma marked_intersects s k q c :
  shard_wf s → wf_marks c →
  marked_by (λ m, Intersects m c) s k q = true ↔ ∃ b, Has c b = true ∧ holds s k q b = true.
Proof.
  intros Hwf Hc. unfold marked_by, holds. destruct (place s k q) as [[l [|o]]|] eqn:E.
  1, 3: split; [done|by intros (? & _ & ?)].
  destruct (place_lookup _ _ _ _ _ Hwf E) as (y & Hy & _). unfold deref. rewrite (deref_Some _ _ _ Hy).
  rewrite Intersects_has by (done || by apply (hw_marks _ (sw_heap s Hwf) l)). naive_solver.
Qed.

Lemma marked_nonempty s k q :
  shard_wf s → marked_by (λ m, negb (Empty m)) s k q = true ↔ ∃ b, holds s k q b = true.
Proof.
  intros Hwf. unfold marked_by, holds. destruct (place s k q) as [[l [|o]]|] eqn:E.
  1, 3: split; [done|by intros (? & ?)].
  destruct (place_lookup _ _ _ _ _ Hwf E) as (y & Hy & _). unfold deref. rewrite (deref_Some _ _ _ Hy).
  pose proof (hw_marks _ (sw_heap s Hwf) l y Hy) as Hm. rewrite negb_true_iff. split.
  - intros He.
    destruct (Each (marks y)) as [|b t] eqn:Ee.
    + exfalso. apply not_true_iff_false in He. apply He. apply Empty_has; [done|]. intros b.
      apply not_true_is_false. intros Hb%elem_of_Each; [|done]. rewrite Ee in Hb. set_solver.
    + exists b. apply elem_of_Each; [done|]. rewrite Ee. by left.
  - intros [b Hb]. apply not_true_is_false. intros He. rewrite Empty_has in He by done. by rewrite He in Hb.
Qed.

(** What the fields of [anchors] mean, over the view alone. *)
Record walk_ok (s : shard) (k : Z) (hs : list Z) (cands : markSet) (a : anchors) : Prop := {
  wk_range : 0 ≤ anchorBlocks a ≤ heldBlocks a ∧ heldBlocks a ≤ matched a ≤ Z.of_nat (length hs);
  wk_matched j : (1 ≤ j ≤ length hs)%nat → Z.of_nat j ≤ matched a ↔ recorded s k (take j hs) = true;
  wk_held j : (1 ≤ j ≤ length hs)%nat →
    Z.of_nat j ≤ heldBlocks a ↔ ∃ b, holds s k (take j hs) b = true;
  wk_anchor j : (1 ≤ j ≤ length hs)%nat →
    Z.of_nat j ≤ anchorBlocks a ↔ ∃ b, Has cands b = true ∧ holds s k (take j hs) b = true;
  wk_heldset b : Has (held a) b = holds s k (take (Z.to_nat (heldBlocks a)) hs) b;
  wk_pool b : Has (pool a) b = holds s k (take (Z.to_nat (anchorBlocks a)) hs) b;
  wk_deepest : availDeepest a = true ↔ 0 < anchorBlocks a ∧ anchorBlocks a = heldBlocks a;
}.

Lemma true_mono : mono (λ _, true).
Proof. by intros ?. Qed.

Lemma walk_view s p cands :
  shard_wf s → wf_marks cands → walk_ok s (modelKey p) (path_hashes p) cands (walk s p cands).
Proof.
  intros Hwf Hc. unfold walk. set (k := modelKey p). set (hs := path_hashes p).
  assert (Hnil : ∀ b, holds s k [] b = false).
  { intros b. unfold holds, place. destruct (roots s !! k); done. }
  destruct (roots s !! k) as [root|] eqn:Hr.
  2: { assert (Hh : ∀ q b, holds s k q b = false) by (intros; unfold holds, place; by rewrite Hr).
    assert (Hre : ∀ q, recorded s k q = false) by (intros; unfold recorded, place; by rewrite Hr).
    constructor; cbn; try (intros; rewrite ?Hre; setoid_rewrite Hh); try lia; try (by rewrite no_marks_Has).
    - intros j Hj. rewrite Hre. split; [lia|done].
    - split; [lia|by intros []].
    - split; [lia|by intros (? & _ & ?)].
    }
  destruct (root_place s k root Hwf Hr) as (rr & Hrr & Hpl).
  destruct (walk_loop _ _ _ _ _ _ _ _) as [[i av] mk] eqn:Hw.
  destruct (walk_loop_spec s Hwf k (units p) (length hs) cands 0 root rr None None i av mk) as (Hi & Hav & Hmk);
    [done|by rewrite take_0|done|lia|unfold hs, path_hashes; rewrite length_fmap; lia|done|].
  unfold found, at_depth, reach in *. rewrite take_0, drop_0 in *. change (Hash <$> units p) with hs in *.
  cbn [Nat.add] in *.
  pose proof (λ j, lead_marked _ s k hs j (intersects_mono cands Hc) Hwf) as La.
  pose proof (λ j, lead_marked _ s k hs j nonempty_mono Hwf) as Lh.
  pose proof (λ j, lead_marked _ s k hs j true_mono Hwf) as Lm.
  pose proof (lead_le (marked_by (λ m, Intersects m cands) s k) [] hs) as La'.
  pose proof (lead_le (marked_by (λ m, negb (Empty m)) s k) [] hs) as Lh'.
  pose proof (lead_le (marked_by (λ _, true) s k) [] hs) as Lm'.
  set (na := lead (marked_by (λ m, Intersects m cands) s k) [] hs) in *.
  set (nh := lead (marked_by (λ m, negb (Empty m)) s k) [] hs) in *.
  set (nm := lead (marked_by (λ _, true) s k) [] hs) in *. clearbody na nh nm.
  setoid_rewrite (λ q, marked_intersects s k q cands Hwf Hc) in La.
  setoid_rewrite (λ q, marked_nonempty s k q Hwf) in Lh.
  assert (na ≤ nh)%nat as Hah.
  { destruct na as [|na]; [lia|]. apply Lh; [lia|]. destruct (proj1 (La (S na) ltac:(lia)) ltac:(lia)) as (b & _ & Hb). eauto. }
  assert (nh ≤ nm)%nat as Hhm.
  { destruct nh as [|nh]; [lia|]. apply Lm; [lia|]. destruct (proj1 (Lh (S nh) ltac:(lia)) ltac:(lia)) as (b & Hb).
    unfold holds in Hb. unfold marked_by. by destruct (place s k (take (S nh) hs)) as [[? []]|]. }
  assert (Hset : ∀ n o, (if decide (n = 0)%nat then o = None else ∃ l j, o = Some (l, n) ∧ place s k (take n hs) = Some (l, S j)) →
    (∀ b, Has (match o with Some (l, _) => Clone (marks (deref s l)) | None => no_marks end) b = holds s k (take n hs) b) ∧
    (match o with Some (_, n) => Z.of_nat n | None => 0 end) = Z.of_nat n).
  { clear -Hnil. intros n o. case_decide.
    - intros ->. subst n. rewrite take_0. split; [intros b; by rewrite no_marks_Has, Hnil|done].
    - intros (l & j & -> & Hp). split; [|done]. intros b. rewrite Clone_id. symmetry. by eapply holds_marks. }
  destruct (Hset na av Hav) as [Hav1 Hav2]. destruct (Hset nh mk Hmk) as [Hmk1 Hmk2].
  constructor; cbn [anchorBlocks heldBlocks matched held pool availDeepest]; rewrite ?Hav2, ?Hmk2, ?Nat2Z.id; try done; try lia.
  - intros j Hj. rewrite recorded_marked, <-Lm by done. lia.
  - intros j Hj. rewrite <-Lh by done. lia.
  - intros j Hj. rewrite <-La by done. lia.
  - clear Hav1 Hav2 Hmk1 Hmk2. destruct (decide (na = 0)%nat) as [->|Hna].
    { subst av. split; [by destruct mk as [[]|]|lia]. }
    rewrite decide_False in Hmk by lia. destruct Hav as (l & j & -> & Hl). destruct Hmk as (l' & j' & -> & Hl').
    rewrite Pos.eqb_eq. split.
    + intros ->. split; [lia|]. assert (nh ≤ na)%nat; [|lia]. apply La; [lia|].
      destruct (proj1 (La na ltac:(lia)) ltac:(lia)) as (b & Hb1 & Hb2). exists b. split; [done|].
      rewrite (holds_marks _ _ _ _ _ _ Hl'). by rewrite (holds_marks _ _ _ _ _ _ Hl) in Hb2.
    + intros [_ Heq]. assert (na = nh) as -> by lia. congruence.
Qed.

(** [heldTokens], on the view. *)
Lemma heldTokens_view s p sl :
  shard_wf s →
  heldTokens s p sl =
  (λ b, sum_tokens (take (lead (λ q, holds s (modelKey p) q b) [] (path_hashes p)) (units p))) <$> sl.
Proof.
  intros Hwf. unfold heldTokens. set (k := modelKey p).
  assert (Hz : ∀ (f : Z → Z → Z) sl, zip_with f sl (replicate (length sl) 0) = (λ b, f b 0) <$> sl).
  { clear. intros f sl. induction sl as [|b sl IH]; [done|]. cbn. by f_equal. }
  destruct (roots s !! k) as [root|] eqn:Hr.
  - destruct (root_place s k root Hwf Hr) as (rr & Hrr & Hpl).
    pose proof (heldTokens_loop_spec s Hwf k (units p) (length (units p)) sl 0 root rr (replicate (length sl) 0)) as H.
    rewrite take_0 in H.
    etrans; [apply H; [done|done|lia|lia|by rewrite length_replicate]|].
    rewrite Hz. apply list_fmap_ext. intros _ b _. cbn zeta. unfold reach. rewrite take_0, drop_0.
    change (λ q, holds s k q b) with (marked_by (λ m, Has m b) s k). change (Hash <$> units p) with (path_hashes p).
    destruct (decide (_ = 0)%nat) as [->|]; [done|]. done.
  - apply list_eq. intros j. rewrite list_lookup_fmap. destruct (sl !! j) as [b|] eqn:E; cbn.
    + rewrite lookup_replicate_2 by (by apply lookup_lt_Some in E).
      change (λ q, holds s k q b) with (marked_by (λ m, Has m b) s k). by rewrite no_root_lead.
    + apply lookup_ge_None in E. by apply lookup_replicate_None.
Qed.
