(* ===== verification/TreeEvict.v ===== *)
(** * TreeEvict: unlinking, cascades and sweeps

    Every eviction is a sequence of unlinkings of childless runs.  [prunes] says what such a
    sequence leaves: the runs outside a set [D], untouched, at the places they had. *)

From stdpp Require Import base gmap sets list strings sorting.
From Stdlib Require Import ZArith Lia.
From S2P Require Import Prelude MarkSet KvUnits AffinityTree TreeWf TreeStep TreeShard TreeCommit TreeWalk.
Open Scope Z_scope.

Implicit Types (s : shard) (l : loc).

Record prunes (P : run → Prop) s s' (D : gset loc) : Prop := {
  pr_wf : shard_wf s';
  pr_place k q l o : place s' k q = Some (l, S o) ↔ place s k q = Some (l, S o) ∧ l ∉ D;
  pr_val l x : store s !! l = Some x → ∃ x', store s' !! l = Some x' ∧
    hashes x' = hashes x ∧ marks x' = marks x ∧ lastUsed x' = lastUsed x ∧ (l ∉ D → parent x' = parent x);
  pr_dead l : l ∈ D → ∃ x, store s !! l = Some x ∧ parent x ≠ None ∧ P x ∧
    ∃ x', store s' !! l = Some x' ∧ parent x' = None;
  pr_slots : dom (store s') = dom (store s);
  pr_blocks : blocks_total s - blocks_total s' = expired s' - expired s;
}.

Lemma prunes_refl P s : shard_wf s → prunes P s s ∅.
Proof. intros. constructor; try done; try lia; [set_solver|eauto 10]. Qed.

Lemma prunes_trans P s1 s2 s3 D1 D2 :
  (∀ x x', hashes x' = hashes x → marks x' = marks x → lastUsed x' = lastUsed x → P x' → P x) →
  prunes P s1 s2 D1 → prunes P s2 s3 D2 → prunes P s1 s3 (D1 ∪ D2).
Proof.
  intros HP [W1 P1 V1 D1' S1 B1] [W2 P2 V2 D2' S2 B2]. constructor; [done| | | |congruence|lia].
  - intros. rewrite P2, P1. set_solver.
  - intros l x Hx. destruct (V1 l x Hx) as (x1 & H1 & Hh1 & Hm1 & Hu1 & Hp1).
    destruct (V2 l x1 H1) as (x2 & H2 & Hh2 & Hm2 & Hu2 & Hp2). exists x2.
    split_and!; [done|congruence..|]. intros Hl. rewrite Hp2, Hp1 by set_solver. done.
  - intros l [Hl|Hl]%elem_of_union.
    + destruct (D1' l Hl) as (x & Hx & Hp & HPx & x1 & Hx1 & Hn1). exists x. split_and!; [done..|].
      destruct (V2 l x1 Hx1) as (x2 & Hx2 & _ & _ & _ & Hp2). exists x2. split; [done|].
      destruct (decide (l ∈ D2)) as [Hl2|Hl2]; [|by rewrite Hp2].
      destruct (D2' l Hl2) as (y & Hy & Hpy & _). congruence.
    + destruct (D2' l Hl) as (x1 & Hx1 & Hp1 & HPx & x2 & Hx2 & Hn2).
      assert (is_Some (store s1 !! l)) as [x Hx] by (apply elem_of_dom; rewrite <-S1; apply elem_of_dom; eauto).
      destruct (V1 l x Hx) as (x1' & Hx1' & Hh1 & Hm1 & Hu1 & Hpp). simplify_eq. exists x. split_and!; [done| |eauto|eauto].
      destruct (decide (l ∈ D1)) as [Hl1|Hl1]; [|by rewrite <-Hpp].
      destruct (D1' l Hl1) as (y & Hy & Hpy & _). congruence.
Qed.

Lemma prunes_weaken (P Q : run → Prop) s s' D : (∀ x, P x → Q x) → prunes P s s' D → prunes Q s s' D.
Proof.
  intros HPQ [W1 P1 V1 D1 S1 B1]. constructor; try done. intros l (x & ? & ? & ? & ?)%D1. eauto 10.
Qed.

(** The view loses exactly what the removed runs recorded. *)
Lemma prunes_holds P s s' D k q b :
  shard_wf s → prunes P s s' D →
  holds s' k q b = match place s k q with
                   | Some (l, S _) => bool_decide (l ∉ D) && Has (marks (deref s l)) b
                   | _ => false end.
Proof.
  intros Hwf [W1 P1 V1 D1 S1 B1]. unfold holds.
  assert (Hno : (∀ l o, place s' k q ≠ Some (l, S o)) →
    match place s' k q with Some (l, S _) => Has (marks (deref s' l)) b | _ => false end = false).
  { intros Hn. destruct (place s' k q) as [[l [|o]]|]; [done| |done]. by destruct (Hn l o). }
  destruct (place s k q) as [[l [|o]]|] eqn:E.
  1, 3: apply Hno; intros l' o' H'%P1; destruct H'; congruence.
  destruct (decide (l ∈ D)) as [Hd|Hd].
  - rewrite bool_decide_eq_false_2 by (by intros []). apply Hno. intros l' o' H'%P1. destruct H'. by simplify_eq.
  - rewrite bool_decide_eq_true_2 by done. rewrite (proj2 (P1 k q l o)) by done.
    destruct (place_lookup _ _ _ _ _ Hwf E) as (y & Hy & _). destruct (V1 l y Hy) as (y' & Hy' & _ & Hm & _).
    unfold deref. by rewrite (deref_Some _ _ _ Hy), (deref_Some _ _ _ Hy'), Hm.
Qed.

(** ** Unlinking one childless run *)

(** The parent without a parent is the model's root. *)
Lemma top_parent s k q l o p rp :
  shard_wf s → place s k q = Some (l, S o) → parent (deref s l) = Some p → store s !! p = Some rp → parent rp = None →
  roots s !! k = Some p.
Proof.
  intros Hwf H Hp Hrp Hn. destruct (place_ok _ _ _ _ Hwf H) as (root & Hroot & His & Hloc & _).
  destruct (locate_inside _ _ _ _ _ 1 (sw_heap s Hwf) His Hloc) as (q' & _ & Hq'); [lia|].
  destruct q' as [|x q' _] using rev_ind; [done|].
  assert (place s k (q' ++ [x]) = Some (l, 1%nat)) as Hpl by (unfold place; by rewrite Hroot).
  destruct (place_step _ _ _ _ _ _ Hwf Hpl) as [[o0 H0]|(p' & o0 & H0 & Hp')].
  - exfalso. destruct (place_ok _ _ _ _ Hwf H0) as (root' & Hroot' & _ & Hloc0 & _).
    assert (root' = root) as -> by congruence.
    destruct (locate_inside _ _ _ _ _ 1 (sw_heap s Hwf) His Hloc0) as (q'' & Hpre & Hq''); [lia|].
    destruct (locate_inj _ (sw_heap s Hwf) _ _ _ _ _ His His Hq' Hq'') as [_ <-].
    apply prefix_length in Hpre. rewrite length_app in Hpre. cbn in Hpre. lia.
  - assert (p' = p) as -> by congruence. destruct o0 as [|o0].
    + destruct (place_ok _ _ _ _ Hwf H0) as (root' & Hroot' & _ & _ & [[= ->]|(? & ? & ? & ?)]); [done|cbn in *; lia].
    + destruct (place_lookup _ _ _ _ _ Hwf H0) as (y & ? & ? & _). congruence.
Qed.

Lemma dropRoot_eq s k p :
  (∀ k1 k2 l, roots s !! k1 = Some l → roots s !! k2 = Some l → k1 = k2) →
  roots s !! k = Some p → dropRoot p s = set_roots (delete k (roots s)) s.
Proof.
  intros Hinj Hk. unfold dropRoot.
  destruct (list_find _ _) as [[i [k' p']]|] eqn:E.
  - apply list_find_Some in E as (Hi & Hp & _). cbn in Hp. subst p'.
    apply list_elem_of_lookup_2, elem_of_map_to_list in Hi. by rewrite (Hinj k k' p).
  - apply list_find_None in E. rewrite Forall_forall in E. exfalso.
    apply (E (k, p)); [by apply elem_of_map_to_list|done].
Qed.

Lemma unlinkRun_store s l x p rp i :
  shard_wf s → unlink_ok (store s) l p x rp i →
  let s1 := Shard (unlink_store (store s) l p x rp i) (fresh s) (roots s) (tails s ∖ {[l]}) (runs s + -1)
              (blocks_total s + - blocks x) (copies s + - (blocks x * Count (marks x))) (expired s + blocks x) in
  unlinkRun l s =
  match parent rp with
  | None => (None, if decide (delete i (kids rp) = []) then dropRoot p s1 else s1)
  | Some _ => (Some p, if decide (delete i (kids rp) = []) then set_tails (tails s1 ∪ {[p]}) s1 else s1)
  end.
Proof.
  intros Hwf Hok s1. pose proof (unlink_neq _ _ _ _ _ _ Hok) as Hlp. destruct (Hok) as [Hh Hl Hk Hp Hrp Hi].
  unfold unlinkRun. assert (deref s l = x) as -> by (by apply deref_Some). set (s0 := add_counts _ _ _ _ s).
  assert (deref s0 l = x) as -> by (by apply deref_Some). rewrite Hp.
  rewrite (unlink_eq s0 p rp i l) by done. set (s2 := upd l _ _).
  assert (s2 = s1) as ->.
  { unfold s2, s1, s0, upd, set_tails, add_counts. cbn. f_equal. unfold unlink_store. apply map_eq. intros q.
    destruct (decide (q = l)) as [->|]; [|destruct (decide (q = p)) as [->|]].
    - by rewrite lookup_alter_eq, lookup_alter_ne, lookup_insert_eq, Hl.
    - by rewrite lookup_alter_ne, lookup_alter_eq, lookup_insert_ne, lookup_insert_eq, Hrp.
    - by rewrite !lookup_alter_ne, !lookup_insert_ne. }
  assert (deref s1 p = set_kids (delete i (kids rp)) rp) as ->.
  { apply deref_Some. cbn. rewrite (unlink_lookup _ _ _ _ _ _ _ Hok), decide_False, decide_True; done. }
  cbn [parent kids set_kids]. done.
Qed.

Lemma childless_unlink s l : shard_wf s → childless (store s) l →
  ∃ p x rp i, unlink_ok (store s) l p x rp i.
Proof.
  intros Hwf (x & Hx & Hp & Hk). destruct (parent x) as [p|] eqn:Ep; [|done].
  destruct (hw_up _ (sw_heap s Hwf) l x p Hx Ep) as (rp & Hrp & [i Hi]%list_elem_of_lookup).
  exists p, x, rp, i. constructor; try done. apply Hwf.
Qed.

Lemma unlink_is_root h l p x rp i r : unlink_ok h l p x rp i → is_root h r → is_root (unlink_store h l p x rp i) r.
Proof.
  intros Hok (y & Hy & Hp & Hh). unfold is_root. rewrite (unlink_lookup _ _ _ _ _ _ _ Hok). destruct Hok.
  rewrite decide_False by congruence. destruct (decide (r = p)) as [->|]; [|eauto].
  eexists. split; [done|]. cbn. by simplify_eq.
Qed.

Lemma unlink_weights (w : run → Z) h l p x rp i :
  unlink_ok h l p x rp i → (∀ ks, w (set_kids ks rp) = w rp) → w (set_parent None x) = 0 →
  msum w (unlink_store h l p x rp i) = msum w h - w x.
Proof.
  intros Hok Hw H0. pose proof (unlink_neq _ _ _ _ _ _ Hok). destruct Hok. unfold unlink_store.
  rewrite (msum_insert_old _ _ _ x) by (rewrite lookup_insert_ne by congruence; done).
  rewrite (msum_insert_old _ _ _ rp), Hw, H0 by done. lia.
Qed.

(** The shard after the run is cut off, before the empty parent is dealt with: [tails] may
    miss [p], and [p] may be a root with nothing under it. *)
Lemma unlink_place s l p x rp i k q ro ta a b c d :
  shard_wf s → unlink_ok (store s) l p x rp i →
  (∀ k' r, ro !! k' = Some r → roots s !! k' = Some r) →
  (∀ k' r, roots s !! k' = Some r → ro !! k' = None → k' = k → ∀ q o l', locate (unlink_store (store s) l p x rp i) r q ≠ Some (l', S o)) →
  ∀ l' o, place (Shard (unlink_store (store s) l p x rp i) (fresh s) ro ta a b c d) k q = Some (l', S o) ↔
    place s k q = Some (l', S o) ∧ l' ≠ l.
Proof.
  intros Hwf Hok Hro Hgone l' o. unfold place. cbn.
  assert (Hl : ∀ root, roots s !! k = Some root →
    locate (unlink_store (store s) l p x rp i) root q = locate (store s) root q ≫= unlink_pos l).
  { intros root Hr. apply (unlink_locate _ _ _ _ _ _ _ _ Hok). by apply (sw_root s Hwf k). }
  assert (Hb : ∀ pos0, (pos0 ≫= unlink_pos l) = Some (l', S o) ↔ pos0 = Some (l', S o) ∧ l' ≠ l).
  { intros [[a0 b0]|]; cbn; [|naive_solver]. unfold unlink_pos. cbn. case_decide; naive_solver. }
  destruct (ro !! k) as [r|] eqn:Er.
  - rewrite (Hro _ _ Er). cbn. rewrite Hl by (by apply Hro). apply Hb.
  - cbn. split; [done|]. intros [H Hne]. destruct (roots s !! k) as [r|] eqn:Er'; [|done]. cbn in H.
    exfalso. apply (Hgone k r Er' Er eq_refl q o l'). rewrite Hl by done. rewrite H. by apply Hb.
Qed.

(** A root with nothing under it leads nowhere. *)
Lemma bare_root h r y q l o :
  heap_wf h → h !! r = Some y → hashes y = [] → kids y = [] → locate h r q ≠ Some (l, S o).
Proof.
  intros Hwf Hr Hh Hk. destruct q as [|b q]; [done|]. intros H.
  destruct (locate_prefix_Some h r [b] q _ H) as [pos Hpos]. unfold locate in Hpos. cbn in Hpos.
  unfold step in Hpos. cbn in Hpos. rewrite (deref_Some _ _ _ Hr), Hh in Hpos. cbn in Hpos.
  assert (find h r b = None) as Hf; [|by rewrite Hf in Hpos].
  apply (find_None h Hwf r y); [done|]. rewrite Hk. set_solver.
Qed.

Lemma unlink_shard_wf s l p x rp i ro ta :
  shard_wf s → unlink_ok (store s) l p x rp i →
  (∀ k r, ro !! k = Some r → roots s !! k = Some r) →
  (∀ k r, roots s !! k = Some r → ro !! k = None → r = p ∧ delete i (kids rp) = []) →
  (∀ l', l' ∈ ta ↔ childless (unlink_store (store s) l p x rp i) l') →
  let s' := Shard (unlink_store (store s) l p x rp i) (fresh s) ro ta (runs s + -1)
              (blocks_total s + - blocks x) (copies s + - (blocks x * Count (marks x))) (expired s + blocks x) in
  prunes (λ y, y = x) s s' {[l]} ∧ runs s' = runs s - 1.
Proof.
  intros Hwf Hok Hro Hgone Hta s'. pose proof (unlink_neq _ _ _ _ _ _ Hok) as Hlp.
  pose proof (λ q, unlink_lookup _ _ _ _ _ _ q Hok) as Hlk.
  pose proof (unlink_wf _ _ _ _ _ _ Hok) as Hwf1.
  assert (Hpl : ∀ k q l' o, place s' k q = Some (l', S o) ↔ place s k q = Some (l', S o) ∧ l' ≠ l).
  { intros k q l' o. apply unlink_place; [done..|]. intros k' r Hr Hn _ q' o' l''.
    destruct (Hgone k' r Hr Hn) as [-> Hk]. apply (bare_root _ _ (set_kids (delete i (kids rp)) rp)); [done| | |done].
    - by rewrite Hlk, decide_False, decide_True.
    - cbn. destruct (sw_root s Hwf _ _ Hr) as (y & Hy & _ & Hh). destruct Hok. congruence. }
  pose proof (λ w, unlink_weights w _ _ _ _ _ _ Hok) as Hw.
  destruct (Hok) as [_ Hl Hkx Hpx Hrp Hi].
  assert (Hval : ∀ l' y, store s !! l' = Some y → ∃ y', store s' !! l' = Some y' ∧ hashes y' = hashes y ∧
    marks y' = marks y ∧ lastUsed y' = lastUsed y ∧ (l' ≠ l → parent y' = parent y)).
  { intros l' y Hy. cbn. rewrite Hlk. destruct (decide (l' = l)) as [->|].
    { assert (y = x) as -> by congruence. exists (set_parent None x). split_and!; try done. }
    destruct (decide (l' = p)) as [->|]; [assert (y = rp) as -> by congruence|]; eauto 10. }
  assert (Hback : ∀ l' y', store s' !! l' = Some y' → ∃ y, store s !! l' = Some y ∧ hashes y' = hashes y ∧
    (l' ≠ l → parent y' = parent y) ∧ (l' = l → parent y' = None)).
  { intros l' y'. cbn. rewrite Hlk. destruct (decide (l' = l)) as [->|]; [intros [= <-]; exists x; by split_and!|].
    destruct (decide (l' = p)) as [->|]; [intros [= <-]; exists rp|intros Hy; exists y']; naive_solver. }
  split; [|done]. constructor.
  - constructor; cbn [s' store fresh roots tails runs blocks_total copies].
    + done.
    + intros l' y' (y & Hy & _)%Hback. by apply (sw_fresh s Hwf) in Hy.
    + intros k r Hr. apply unlink_is_root; [done|]. by apply (sw_root s Hwf k), Hro.
    + intros k1 k2 r H1%Hro H2%Hro. by apply (sw_root_inj s Hwf _ _ r).
    + done.
    + intros l' y' Hy' Hp'. destruct (Hback _ _ Hy') as (y & Hy & Hh & Hp & Hn).
      destruct (decide (l' = l)) as [->|Hne]; [by rewrite Hn in Hp'|]. rewrite Hp in Hp' by done.
      destruct (sw_reach s Hwf l' y Hy Hp') as (k & root & q & Hk & Hq).
      assert (nblocks y = S (nblocks y - 1)) as Hnb.
      { destruct (hw_run _ (sw_heap s Hwf) l' y Hy Hp') as [Hnil _]. unfold nblocks. destruct (hashes y); [done|cbn; lia]. }
      assert (place s' k q = Some (l', nblocks y)) as Hpl'.
      { rewrite Hnb. apply Hpl. split; [|done]. rewrite <-Hnb. unfold place. by rewrite Hk. }
      unfold place in Hpl'. destruct (roots s' !! k) as [root'|] eqn:Er; [|done]. cbn in Hpl', Er.
      exists k, root', q. split; [done|]. rewrite Hpl'. unfold nblocks. by rewrite Hh.
    + rewrite Hw by done. rewrite (sw_runs s Hwf). unfold w_run. rewrite Hpx. cbn. done.
    + rewrite Hw by done. rewrite (sw_blocks s Hwf). unfold w_blocks. rewrite Hpx. cbn. done.
    + rewrite Hw by done. rewrite (sw_copies s Hwf). unfold w_copies. rewrite Hpx. cbn. done.
  - intros. rewrite Hpl. set_solver.
  - intros l' y Hy. destruct (Hval l' y Hy) as (y' & ? & ? & ? & ? & Hp'). exists y'. split_and!; try done.
    intros. apply Hp'. set_solver.
  - intros l' Hl'%elem_of_singleton. subst l'. exists x. split_and!; [done|congruence|done|].
    exists (set_parent None x). cbn. rewrite Hlk, decide_True; done.
  - apply set_eq. intros l'. rewrite !elem_of_dom. split; intros [y Hy].
    + destruct (Hback _ _ Hy) as (? & ? & _). eauto.
    + destruct (Hval _ _ Hy) as (? & ? & _). eauto.
  - cbn. lia.
Qed.

(** What unlinking the childless run [l] (of value [x]) does. *)
Record unlinked s l (x : run) (po : option loc) s' : Prop := {
  ul_prunes : prunes (λ y, y = x) s s' {[l]};
  ul_runs : runs s' = runs s - 1;
  ul_keep l' : l' ≠ l → childless (store s) l' → childless (store s') l';
  ul_next p : po = Some p → parent x = Some p ∧ ∃ rp, store s' !! p = Some rp ∧ parent rp ≠ None;
  ul_new l' : childless (store s') l' → l' ≠ l ∧ (childless (store s) l' ∨ parent x = Some l');
}.

Lemma unlinkRun_spec s l x :
  shard_wf s → childless (store s) l → store s !! l = Some x →
  unlinked s l x (unlinkRun l s).1 (unlinkRun l s).2.
Proof.
  intros Hwf Hcl Hx. destruct (childless_unlink s l Hwf Hcl) as (p & x' & rp & i & Hok).
  assert (x' = x) as -> by (destruct Hok; congruence).
  pose proof (unlink_neq _ _ _ _ _ _ Hok) as Hlp.
  pose proof (λ q, unlink_lookup _ _ _ _ _ _ q Hok) as Hlk.
  pose proof (unlinkRun_store s l x p rp i Hwf Hok) as Heq. cbn zeta in Heq.
  destruct (Hok) as [_ _ Hkx Hpx Hrp Hi].
  assert (Hpdel : ∀ l', childless (store s) l' → l' ≠ p).
  { intros l' (y & Hy & _ & Hk) ->. simplify_eq. by rewrite Hk in Hi. }
  assert (Hkeep : ∀ l', l' ≠ l → childless (store s) l' → childless (unlink_store (store s) l p x rp i) l').
  { intros l' Hne Hc. pose proof (Hpdel _ Hc). destruct Hc as (y & Hy & Hp & Hk). exists y.
    by rewrite Hlk, !decide_False. }
  assert (Hnew : ∀ l', childless (unlink_store (store s) l p x rp i) l' →
    l' ≠ l ∧ (childless (store s) l' ∨ l' = p ∧ parent rp ≠ None ∧ delete i (kids rp) = [])).
  { intros l' (y & Hy & Hp & Hk). rewrite Hlk in Hy. destruct (decide (l' = l)) as [->|]; [by simplify_eq|].
    split; [done|]. destruct (decide (l' = p)) as [->|]; [right; by simplify_eq|]. left. by exists y. }
  assert (Hfin : ∀ ro ta po, 
    (∀ k r, ro !! k = Some r → roots s !! k = Some r) →
    (∀ k r, roots s !! k = Some r → ro !! k = None → r = p ∧ delete i (kids rp) = []) →
    (∀ l', l' ∈ ta ↔ childless (unlink_store (store s) l p x rp i) l') →
    (∀ q, po = Some q → q = p ∧ parent rp ≠ None) →
    unlinkRun l s = (po, Shard (unlink_store (store s) l p x rp i) (fresh s) ro ta (runs s + -1)
              (blocks_total s + - blocks x) (copies s + - (blocks x * Count (marks x))) (expired s + blocks x)) →
    unlinked s l x (unlinkRun l s).1 (unlinkRun l s).2).
  { intros ro ta po H1 H2 H3 H4 Hun. rewrite Hun. cbn [fst snd store].
    destruct (unlink_shard_wf s l p x rp i ro ta Hwf Hok H1 H2 H3) as [HA HB].
    constructor; [done|done|done| |].
    - intros q [-> Hl]%H4. split; [done|]. exists (set_kids (delete i (kids rp)) rp). by rewrite Hlk, decide_False, decide_True.
    - intros l' Hc. destruct (Hnew l' Hc) as [? [?|(-> & _)]]; auto. }
  assert (Hta : ∀ l', l' ∈ tails s ∖ {[l]} ↔ l' ≠ l ∧ childless (store s) l').
  { intros l'. rewrite elem_of_difference, (sw_tails s Hwf). set_solver. }
  destruct (parent rp) as [pp|] eqn:Epp.
  - destruct (decide (delete i (kids rp) = [])) as [Hd|Hd].
    + apply (Hfin (roots s) (tails s ∖ {[l]} ∪ {[p]}) (Some p)); try done; [congruence| |naive_solver].
      intros l'. rewrite elem_of_union, Hta, elem_of_singleton. split.
      * intros [[? ?]| ->]; [auto|]. exists (set_kids (delete i (kids rp)) rp). rewrite Hlk, decide_False, decide_True by done.
        cbn. rewrite Epp. done.
      * intros [? [?|(-> & _)]]%Hnew; auto.
    + apply (Hfin (roots s) (tails s ∖ {[l]}) (Some p)); try done; [congruence| |naive_solver].
      intros l'. rewrite Hta. split; [intros []; auto|]. intros [? [?|(_ & _ & ?)]]%Hnew; [auto|done].
  - assert (∃ k, roots s !! k = Some p) as [k Hk].
    { destruct Hcl as (x' & Hx' & Hp' & _). assert (x' = x) as -> by congruence.
      destruct (sw_reach s Hwf l x Hx Hp') as (k & root & q & Hr & Hq). exists k.
      destruct (hw_run _ (sw_heap s Hwf) l x Hx Hp') as [Hnil _].
      apply (top_parent s k q l (nblocks x - 1) p rp); try done.
      - unfold place. rewrite Hr. cbn. rewrite Hq. unfold nblocks. destruct (hashes x); [done|]. cbn. do 2 f_equal. lia.
      - unfold deref. by rewrite (deref_Some _ _ _ Hx). }
    assert (Hta' : ∀ l', l' ∈ tails s ∖ {[l]} ↔ childless (unlink_store (store s) l p x rp i) l').
    { intros l'. rewrite Hta. split; [intros []; auto|]. intros [? [?|(_ & ? & _)]]%Hnew; [auto|done]. }
    destruct (decide (delete i (kids rp) = [])) as [Hd|Hd].
    + apply (Hfin (delete k (roots s)) (tails s ∖ {[l]}) None); try done.
      * intros k' r [_ ?]%lookup_delete_Some. done.
      * intros k' r Hr [H|H]%lookup_delete_None; [subst|]; by simplify_eq.
      * rewrite Heq, (dropRoot_eq _ k p); [done| |done]. apply (sw_root_inj s Hwf).
    + apply (Hfin (roots s) (tails s ∖ {[l]}) None); try done. congruence.
Qed.

(** ** Cascades *)

Definition stale (now ttl : Z) (x : run) : Prop := ttl < now - lastUsed x.

(** An eviction that takes [r], if [r] is childless, and perhaps its ancestors. *)
Record evicted (P : run → Prop) s s' (D : gset loc) (r : loc) : Prop := {
  ev_prunes : prunes P s s' D;
  ev_keep l : childless (store s) l → l ≠ r → l ∉ D ∧ childless (store s') l;
  ev_gone : childless (store s) r → r ∈ D;
}.

Lemma evictTail_loop_spec depth r now ttl freed s :
  shard_wf s → (0 < depth)%nat → childless (store s) r → stale now ttl (deref s r) →
  ∃ D, evicted (stale now ttl) s (evictTail_loop depth r now ttl freed s).2 D r ∧
    (evictTail_loop depth r now ttl freed s).1 =
      freed + (blocks_total s - blocks_total (evictTail_loop depth r now ttl freed s).2).
Proof.
  revert r freed s. induction depth as [|d IH]; intros r freed s Hwf Hd Hcl Hst; [lia|].
  destruct (Hcl) as (x & Hx & Hp & Hk). cbn [evictTail_loop]. unfold deref in Hst |- *.
  rewrite (deref_Some _ _ _ Hx) in *. destruct (parent x) as [p|] eqn:Ep; [|done]. rewrite decide_False by (by intros []).
  destruct (unlinkRun_spec s r x Hwf Hcl Hx) as [Hpr _ Hkeep Hnext _].
  destruct (unlinkRun r s) as [po s1] eqn:Eu. cbn [fst snd] in *.
  assert (Hbl : blocks_total s - blocks_total s1 = blocks x).
  { destruct (childless_unlink s r Hwf Hcl) as (p0 & x0 & rp & i & Hok).
    pose proof (unlinkRun_store s r x0 p0 rp i Hwf Hok) as Heq. cbn zeta in Heq. rewrite Eu in Heq.
    assert (x0 = x) as -> by (destruct Hok; congruence).
    destruct (parent rp); injection Heq as _ ->; case_decide; cbn; try lia.
    unfold dropRoot. destruct (list_find _ _) as [[? []]|]; cbn; lia. }
  assert (prunes (stale now ttl) s s1 {[r]}) as Hpr'.
  { eapply prunes_weaken; [|exact Hpr]. by intros ? ->. }
  assert (Hone : ∃ D, evicted (stale now ttl) s s1 D r ∧ freed + blocks x = freed + (blocks_total s - blocks_total s1)).
  { exists {[r]}. split; [|lia]. constructor; [done| |set_solver]. intros l Hl Hne. split; [set_solver|auto]. }
  destruct po as [p'|]; [|done]. destruct (Hnext p' eq_refl) as (Hpp & rp & Hrp & Hlive). assert (p = p') as -> by congruence.
  rewrite (deref_Some _ _ _ Hrp). destruct (bool_decide (kids rp ≠ []) || _) eqn:Eg; [done|]. bool_props.
  assert (childless (store s1) p') as Hcl1 by (exists rp; split_and!; [done..|by apply dec_stable]).
  destruct d as [|d]; [done|].
  destruct (IH p' (freed + blocks x) s1) as (D & [Hpr2 Hkeep2 _] & Hfreed); [apply Hpr|lia|done| |].
  { unfold stale, deref. rewrite (deref_Some _ _ _ Hrp). lia. }
  exists ({[r]} ∪ D). split; [|rewrite Hfreed; lia].
  constructor.
  - eapply prunes_trans; [|done..]. unfold stale. by intros ?? _ _ ->.
  - intros l Hl Hne. destruct (Hkeep2 l (Hkeep l Hne Hl)) as [HD Hc].
    + intros ->. destruct Hl as (y & Hy & _ & Hky).
      destruct (hw_up _ (sw_heap s Hwf) r x p' Hx Ep) as (rp0 & Hrp0 & Hin). simplify_eq. rewrite Hky in Hin. set_solver.
    + split; [set_solver|done].
  - set_solver.
Qed.

(** A sequence of evictions of distinct childless runs. *)
Lemma evict_all (P : run → Prop) (f : loc → shard → shard) (ls : list loc) s :
  (∀ x x', hashes x' = hashes x → marks x' = marks x → lastUsed x' = lastUsed x → P x' ↔ P x) →
  (∀ l s, shard_wf s → childless (store s) l → P (deref s l) → ∃ D, evicted P s (f l s) D l) →
  shard_wf s → NoDup ls → Forall (λ l, childless (store s) l ∧ P (deref s l)) ls →
  ∃ D, prunes P s (foldl (λ s l, f l s) s ls) D ∧ (∀ l, l ∈ ls → l ∈ D).
Proof.
  intros HP Hf. revert s. induction ls as [|l ls IH]; intros s Hwf Hnd Hall; cbn.
  { exists ∅. split; [by apply prunes_refl|]. set_solver. }
  inversion Hnd as [|? ? Hnot Hnd']; subst. inversion Hall as [|? ? [Hl HPl] Hall']; subst.
  destruct (Hf l s Hwf Hl HPl) as (D & [Hpr Hkeep Hgone]).
  destruct (IH (f l s)) as (D' & Hpr' & HD'); [apply Hpr|done| |].
  { rewrite Forall_forall in *. intros l' Hl'. destruct (Hall' l' Hl') as [Hc HPc].
    destruct (Hkeep l' Hc) as [_ Hc']; [by intros ->|]. split; [done|].
    destruct Hc as (y & Hy & _). destruct (pr_val _ _ _ _ Hpr l' y Hy) as (y' & Hy' & Hh & Hm & Hu & _).
    unfold deref in *. rewrite (deref_Some _ _ _ Hy) in HPc. rewrite (deref_Some _ _ _ Hy'). by eapply HP. }
  exists (D ∪ D'). split.
  - eapply prunes_trans; [|done..]. intros x x' ? ? ?. by apply HP.
  - intros l' [->|Hl']%elem_of_cons; [|set_solver]. apply elem_of_union_l. auto.
Qed.

(** ** A sweep of one shard *)

(** What the source assumes of a map range: each key once, in some order. *)
Definition ranges (order : gset loc → list loc) : Prop := ∀ X, order X ≡ₚ elements X.

Lemma order_spec order X : ranges order → NoDup (order X) ∧ ∀ l, l ∈ order X ↔ l ∈ X.
Proof.
  intros Ho. unfold ranges in Ho. split; [rewrite Ho; apply NoDup_elements|]. intros l. rewrite Ho. apply elem_of_elements.
Qed.

Lemma evictTail_spec r now ttl s :
  shard_wf s → childless (store s) r → stale now ttl (deref s r) →
  ∃ D, evicted (stale now ttl) s (evictTail r now ttl s).2 D r ∧
    (evictTail r now ttl s).1 = blocks_total s - blocks_total (evictTail r now ttl s).2.
Proof.
  intros Hwf Hcl Hst. assert (0 < maxCascade)%nat as Hpos by (apply Nat.ltb_lt; vm_compute; exact eq_refl). unfold evictTail.
  generalize dependent maxCascade. intros depth Hpos.
  destruct (evictTail_loop_spec depth r now ttl 0 s Hwf Hpos Hcl Hst) as (D & H & Hf).
  exists D. split; [done|lia].
Qed.

#[local] Opaque evictTail.

Lemma sweep_shard_fold now ttl ls n s :
  (foldl (λ '(freed, s) l, let '(n, s) := evictTail l now ttl s in (freed + n, s)) (n, s) ls).2 =
  foldl (λ s l, (evictTail l now ttl s).2) s ls.
Proof.
  revert n s. induction ls as [|l ls IH]; intros n s; [done|]. cbn [foldl].
  destruct (evictTail l now ttl s) as [m s1] eqn:E. apply IH. 
Qed.

Lemma sweep_shard_freed now ttl ls n s :
  shard_wf s → NoDup ls → Forall (λ l, childless (store s) l ∧ stale now ttl (deref s l)) ls →
  (foldl (λ '(freed, s) l, let '(n, s) := evictTail l now ttl s in (freed + n, s)) (n, s) ls).1 =
  n + (blocks_total s - blocks_total (foldl (λ s l, (evictTail l now ttl s).2) s ls)).
Proof.
  revert n s. induction ls as [|l ls IH]; intros n s Hwf Hnd Hall; [cbn; lia|]. cbn [foldl].
  inversion Hnd as [|? ? Hnot Hnd']; subst. inversion Hall as [|? ? [Hl HPl] Hall']; subst.
  destruct (evictTail_spec l now ttl s Hwf Hl HPl) as (D & [Hpr Hkeep _] & Hf).
  destruct (evictTail l now ttl s) as [m s1] eqn:E. cbn [fst snd] in *.
  rewrite IH; [lia|apply Hpr|done|].
  rewrite Forall_forall in *. intros l' Hl'. destruct (Hall' l' Hl') as [Hc HPc].
  destruct (Hkeep l' Hc) as [_ Hc']; [by intros ->|]. split; [done|].
  destruct Hc as (y & Hy & _). destruct (pr_val _ _ _ _ Hpr l' y Hy) as (y' & Hy' & _ & _ & Hu & _).
  unfold stale, deref in *. rewrite (deref_Some _ _ _ Hy) in HPc. by rewrite (deref_Some _ _ _ Hy'), Hu.
Qed.

Lemma sweep_shard_spec order now ttl s :
  ranges order → shard_wf s →
  ∃ D, prunes (stale now ttl) s (sweep_shard order now ttl s).2 D ∧
    (sweep_shard order now ttl s).1 = blocks_total s - blocks_total (sweep_shard order now ttl s).2 ∧
    (∀ l, childless (store s) l → stale now ttl (deref s l) → l ∈ D).
Proof.
  intros Ho Hwf. unfold sweep_shard. destruct (order_spec order (tails s) Ho) as [Hnd Hin].
  set (dead := filter (λ l, ttl < now - lastUsed (deref s l)) (order (tails s))).
  assert (Forall (λ l, childless (store s) l ∧ stale now ttl (deref s l)) dead) as Hall.
  { apply Forall_forall. intros l [Hst Hl]%list_elem_of_filter. split; [|done]. by apply (sw_tails s Hwf), Hin. }
  assert (NoDup dead) as Hndd by (by apply NoDup_filter).
  rewrite sweep_shard_freed, sweep_shard_fold by done.
  destruct (evict_all (stale now ttl) (λ l s, (evictTail l now ttl s).2) dead s) as (D & Hpr & HD); [| |done..|].
  - unfold stale. by intros ?? _ _ ->.
  - intros l s0 Hwf0 Hc Hs. destruct (evictTail_spec l now ttl s0 Hwf0 Hc Hs) as (D & ? & _). eauto.
  - exists D. split_and!; [done|lia|]. intros l Hc Hs. apply HD, list_elem_of_filter. split; [done|].
    by apply Hin, (sw_tails s Hwf).
Qed.
