(* ===== verification/TreeDrop.v ===== *)
(** * TreeDrop: forgetting a backend

    [clearSlot] visits every run under every root; [evictOrphans] then unlinks, pass by
    pass, the runs nobody holds. *)

From stdpp Require Import base gmap sets list strings sorting.
From Stdlib Require Import ZArith Lia.
From S2P Require Import Prelude MarkSet KvUnits AffinityTree TreeWf TreeStep TreeShard TreeCommit TreeWalk TreeEvict.
Open Scope Z_scope.

Implicit Types (s : shard) (l : loc).

(** ** Chains of children *)

Inductive chain (h : gmap loc run) (root : loc) : list loc → loc → Prop :=
  | chain_root : chain h root [root] root
  | chain_kid c l r k : chain h root c l → h !! l = Some r → k ∈ kids r → chain h root (c ++ [k]) k.

Lemma chain_last h root c l : chain h root c l → ∃ c', c = c' ++ [l].
Proof. destruct 1; [by exists []|eauto]. Qed.

Lemma chain_unique h root c1 c2 l :
  heap_wf h → is_root h root → chain h root c1 l → chain h root c2 l → c1 = c2.
Proof.
  intros Hwf (rr & Hrr & Hnp & _) H1. revert c2. induction H1 as [|c l r k Hc IH Hl Hk]; intros c2 H2.
  - inversion H2 as [|c' l' r' k' Hc' Hl' Hk']; subst; [done|].
    destruct (hw_down h Hwf l' r' _ Hl' Hk') as (y & ? & ?). congruence.
  - inversion H2 as [|c' l' r' k' Hc' Hl' Hk']; subst.
    + destruct (hw_down h Hwf l r _ Hl Hk) as (y & ? & ?). congruence.
    + assert (l' = l) as -> by (by apply (kids_distinct h l' l r' r k)).
      by rewrite (IH c').
Qed.

Lemma chain_in h root c l a : chain h root c l → a ∈ c → ∃ c', chain h root c' a ∧ c' `prefix_of` c.
Proof.
  induction 1 as [|c l r k Hc IH Hl Hk]; intros Ha.
  - apply list_elem_of_singleton in Ha as ->. exists [root]. split; [constructor|done].
  - apply elem_of_app in Ha as [Ha| ->%list_elem_of_singleton].
    + destruct (IH Ha) as (c' & ? & ?). exists c'. split; [done|]. by apply prefix_app_r.
    + exists (c ++ [k]). split; [by econstructor|done].
Qed.

Lemma chain_NoDup h root c l : heap_wf h → is_root h root → chain h root c l → NoDup c.
Proof.
  intros Hwf Hroot H. induction H as [|c l r k Hc IH Hl Hk]; [apply NoDup_singleton|].
  apply NoDup_app. split_and!; [done| |apply NoDup_singleton].
  intros a Ha ->%list_elem_of_singleton. destruct (chain_in _ _ _ _ _ Hc Ha) as (c' & Hc' & Hp).
  assert (c' = c ++ [k]) as -> by (eapply chain_unique; [done..|by econstructor]).
  apply prefix_length in Hp. rewrite length_app in Hp. cbn in Hp. lia.
Qed.

Lemma chain_dom h root c l a : is_root h root → heap_wf h → chain h root c l → a ∈ c → is_Some (h !! a).
Proof.
  intros (rr & Hrr & _) Hwf. induction 1 as [|c l r k Hc IH Hl Hk]; intros Ha.
  - apply list_elem_of_singleton in Ha as ->. eauto.
  - apply elem_of_app in Ha as [Ha| ->%list_elem_of_singleton]; [auto|].
    destruct (hw_down h Hwf l r k Hl Hk) as (y & ? & ?). eauto.
Qed.

Lemma chain_length h root c l : heap_wf h → is_root h root → chain h root c l → (length c ≤ size h)%nat.
Proof.
  intros Hwf Hroot H. pose proof (chain_NoDup _ _ _ _ Hwf Hroot H) as Hnd.
  rewrite <-(size_list_to_set (C:=gset loc) c), <-(size_dom (D:=gset loc) h) by done.
  apply subseteq_size. intros a Ha%elem_of_list_to_set. apply elem_of_dom.
  by eapply chain_dom.
Qed.

(** Every position of a walk is reached by a chain of children. *)
Lemma locate_chain h root q pos :
  heap_wf h → is_root h root → locate h root q = Some pos → ∃ c, chain h root c pos.1.
Proof.
  intros Hwf Hroot. revert pos. induction q as [|b q IH] using rev_ind; intros pos H.
  - injection H as <-. exists [root]. constructor.
  - rewrite locate_snoc in H. destruct (locate h root q) as [pos0|] eqn:E; [|done]. cbn in H.
    destruct (IH _ eq_refl) as [c Hc]. unfold step in H.
    destruct (hashes (h !!! pos0.1) !! pos0.2); [destruct (b =? _); [|done]; simplify_eq; eauto|].
    destruct (find h pos0.1 b) as [k|] eqn:Ef; [|done]. simplify_eq/=.
    destruct (ok_pos_lookup _ _ _ Hroot (locate_ok _ Hwf _ _ _ Hroot E)) as [y Hy].
    apply (find_Some h Hwf _ y) in Ef as [Hk _]; [|done]. eexists. by econstructor.
Qed.

(** ** The visit of [clearSlot] *)

Fixpoint visits (fuel : nat) (h : gmap loc run) (l : loc) : list loc :=
  match fuel with
  | O => []
  | S f => l :: mjoin (visits f h <$> kids (h !!! l))
  end.

Lemma visits_S f h l a : a ∈ visits f h l → a ∈ visits (S f) h l.
Proof.
  revert l. induction f as [|f IH]; intros l H; [set_solver|].
  cbn in H. cbn [visits]. apply elem_of_cons in H as [->|H]; [by left|]. right.
  apply list_elem_of_join in H as (v & Ha & (k & -> & Hk)%list_elem_of_fmap).
  apply list_elem_of_join. exists (visits (S f) h k). split; [by apply IH|]. apply list_elem_of_fmap. eauto.
Qed.

Lemma visits_mono f f' h l a : (f ≤ f')%nat → a ∈ visits f h l → a ∈ visits f' h l.
Proof. induction 1; [done|]. intros. apply visits_S. auto. Qed.

Lemma visits_kid f h root l r k :
  l ∈ visits f h root → h !! l = Some r → k ∈ kids r → k ∈ visits (S f) h root.
Proof.
  revert root. induction f as [|f IH]; intros root Hl Hr Hk; [set_solver|].
  cbn in Hl. apply elem_of_cons in Hl as [->|Hl].
  - cbn [visits]. right. apply list_elem_of_join. exists (visits (S f) h k).
    rewrite (deref_Some _ _ _ Hr). split; [by left|]. apply list_elem_of_fmap. eauto.
  - apply list_elem_of_join in Hl as (v & Ha & (k' & -> & Hk')%list_elem_of_fmap).
    change (visits (S (S f)) h root) with (root :: mjoin (visits (S f) h <$> kids (h !!! root))). right.
    apply list_elem_of_join. exists (visits (S f) h k'). split; [by eapply IH|]. apply list_elem_of_fmap. eauto.
Qed.

Lemma chain_visits h root c l : chain h root c l → l ∈ visits (length c) h root.
Proof.
  induction 1 as [|c l r k Hc IH Hl Hk]; [by left|]. rewrite length_app. cbn [length].
  rewrite Nat.add_1_r. by eapply visits_kid.
Qed.

Lemma clearOne_shape slot l s : same_shape (store s) (store (clearOne slot l s)) ∧
  roots (clearOne slot l s) = roots s ∧ tails (clearOne slot l s) = tails s ∧ fresh (clearOne slot l s) = fresh s ∧
  runs (clearOne slot l s) = runs s ∧ blocks_total (clearOne slot l s) = blocks_total s ∧
  expired (clearOne slot l s) = expired s.
Proof.
  unfold clearOne. destruct (_ && _); cbn; split_and!; try done; try lia.
  by apply same_shape_alter.
Qed.

Lemma visits_shape f h h' l : same_shape h h' → visits f h' l = visits f h l.
Proof.
  intros Hs. revert l. induction f as [|f IH]; intros l; [done|]. cbn.
  destruct (shape_inj _ _ (same_shape_total _ _ l Hs)) as (_ & _ & _ & ->). do 2 f_equal.
  apply list_fmap_ext. intros _ k _. apply IH.
Qed.

Definition clear_list (slot : Z) (ls : list loc) (s : shard) : shard := foldl (λ s l, clearOne slot l s) s ls.

Lemma clear_list_app slot (ls1 ls2 : list loc) s : clear_list slot (ls1 ++ ls2) s = clear_list slot ls2 (clear_list slot ls1 s).
Proof. apply foldl_app. Qed.

Lemma clear_list_shape slot ls s : same_shape (store s) (store (clear_list slot ls s)) ∧
  roots (clear_list slot ls s) = roots s ∧ tails (clear_list slot ls s) = tails s ∧ fresh (clear_list slot ls s) = fresh s ∧
  runs (clear_list slot ls s) = runs s ∧ blocks_total (clear_list slot ls s) = blocks_total s ∧
  expired (clear_list slot ls s) = expired s.
Proof.
  revert s. induction ls as [|l ls IH]; intros s; [done|].
  change (clear_list slot (l :: ls) s) with (clear_list slot ls (clearOne slot l s)).
  destruct (IH (clearOne slot l s)) as (H & -> & -> & -> & -> & -> & ->).
  destruct (clearOne_shape slot l s) as (H' & -> & -> & -> & -> & -> & ->).
  split_and!; try done. by eapply same_shape_trans.
Qed.

(** The recursion is a fold over the visit. *)
Lemma clearSlot_visits fuel slot l s : clearSlot fuel slot l s = clear_list slot (visits fuel (store s) l) s.
Proof.
  revert l s. induction fuel as [|f IH]; intros l s; [done|]. cbn [clearSlot visits].
  change (clear_list slot (l :: ?x) s) with (clear_list slot x (clearOne slot l s)).
  destruct (clearOne_shape slot l s) as (Hs & _). unfold deref.
  destruct (shape_inj _ _ (same_shape_total _ _ l Hs)) as (_ & _ & _ & ->).
  generalize (kids (store s !!! l)). intros ks.
  assert (∀ s', same_shape (store s) (store s') →
    foldl (λ s k, clearSlot f slot k s) s' ks = clear_list slot (mjoin (visits f (store s) <$> ks)) s') as H; [|by apply H].
  induction ks as [|k ks IHk]; intros s' Hs'; [done|].
  change (mjoin (visits f (store s) <$> k :: ks)) with (visits f (store s) k ++ mjoin (visits f (store s) <$> ks)).
  rewrite clear_list_app. cbn [foldl]. rewrite IH, (visits_shape f _ _ k Hs'). apply IHk. eapply same_shape_trans; [done|]. apply clear_list_shape.
Qed.

(** ** What the visit clears *)

Definition marks_ok s : Prop := ∀ q x, store s !! q = Some x → wf_marks (marks x).

(** Slot [slot] gone from the marks of the live runs among [ls]; everything else as before. *)
Record cleared (slot : Z) (ls : list loc) s s' : Prop := {
  cl_ok : marks_ok s';
  cl_marks a b : Has (marks (deref s' a)) b =
    Has (marks (deref s a)) b && negb (bool_decide (a ∈ ls ∧ parent (deref s a) ≠ None) && (b =? slot));
  cl_used a : lastUsed (deref s' a) = lastUsed (deref s a);
  cl_copies : copies s' - msum w_copies (store s') = copies s - msum w_copies (store s);
}.

Lemma clearOne_cleared slot l s : marks_ok s → cleared slot [l] s (clearOne slot l s).
Proof.
  intros Hm. unfold clearOne. destruct (bool_decide (parent (deref s l) ≠ None) && Has (marks (deref s l)) slot) eqn:E.
  - bool_props. unfold deref in *. destruct (store s !! l) as [x|] eqn:Ex.
    2: { exfalso. unfold lookup_total, map_lookup_total in H. rewrite Ex in H. by apply H. }
    rewrite (deref_Some _ _ _ Ex) in *. set (y := set_marks (Remove (marks x) slot) x).
    assert (store (add_counts 0 0 (- blocks x) 0 (upd l (λ x, set_marks (Remove (marks x) slot) x) s)) = <[l := y]> (store s)) as Hst.
    { cbn. apply map_eq. intros q. destruct (decide (q = l)) as [->|].
      - by rewrite lookup_alter_eq, lookup_insert_eq, Ex.
      - by rewrite lookup_alter_ne, lookup_insert_ne. }
    constructor.
    + intros q z. rewrite Hst. intros [[<- <-]|[_ Hq]]%lookup_insert_Some; [|by apply (Hm q)].
      apply Remove_wf. by apply (Hm l).
    + intros a b. unfold deref. rewrite Hst. destruct (decide (a = l)) as [->|Hal].
      * rewrite lookup_total_insert_eq, (deref_Some _ _ _ Ex). cbn. rewrite Remove_has. f_equal.
        rewrite (bool_decide_eq_true_2 (l ∈ _ ∧ _)) by (split; [by left|done]). cbn.
        destruct (b =? slot) eqn:Eb; bool_props; [by rewrite bool_decide_eq_false_2 by tauto|by rewrite bool_decide_eq_true_2].
      * rewrite lookup_total_insert_ne by done. rewrite bool_decide_eq_false_2 by (intros [?%list_elem_of_singleton _]; done).
        cbn. by rewrite andb_true_r.
    + intros a. unfold deref. rewrite Hst. destruct (decide (a = l)) as [->|Hal].
      * by rewrite lookup_total_insert_eq, (deref_Some _ _ _ Ex).
      * by rewrite lookup_total_insert_ne by done.
    + rewrite Hst, (msum_insert_old _ _ _ x) by done. cbn. unfold w_copies, y, blocks. cbn.
      rewrite !(decide_False (P := parent x = None)) by done.
      rewrite Count_Remove by (done || by apply (Hm l)). lia.
  - constructor; [done| |done|done]. intros a b.
    destruct (bool_decide (a ∈ [l] ∧ _) && (b =? slot)) eqn:Eb; [|by rewrite andb_true_r].
    bool_props. destruct H as [->%list_elem_of_singleton Hp]. subst. rewrite bool_decide_eq_true_2 in E by done. cbn in E. by rewrite E.
Qed.

Lemma clear_list_cleared slot ls s : marks_ok s → cleared slot ls s (clear_list slot ls s).
Proof.
  revert s. induction ls as [|l ls IH]; intros s Hm.
  - constructor; try done. intros a b. rewrite bool_decide_eq_false_2 by (intros [? _]; set_solver). cbn. by rewrite andb_true_r.
  - change (clear_list slot (l :: ls) s) with (clear_list slot ls (clearOne slot l s)).
    destruct (clearOne_cleared slot l s Hm) as [O1 M1 U1 C1]. destruct (IH _ O1) as [O2 M2 U2 C2].
    constructor; [done| | |lia]; [|intros a; by rewrite U2].
    intros a b. rewrite M2, M1.
    assert (parent (deref (clearOne slot l s) a) = parent (deref s a)) as ->.
    { destruct (clearOne_shape slot l s) as [Hs _]. by destruct (shape_inj _ _ (same_shape_total _ _ a Hs)) as (_ & _ & ? & _). }
    rewrite <-andb_assoc, <-negb_orb. do 2 f_equal. rewrite <-andb_orb_distrib_l. f_equal.
    apply eq_true_iff_eq. rewrite orb_true_iff, !bool_decide_eq_true. set_solver.
Qed.

Definition clear_roots (slot : Z) (s : shard) : shard :=
  foldl (λ s root, clearSlot (size (store s)) slot root s) s (map_to_list (roots s)).*2.

Definition all_visits (s : shard) : list loc :=
  mjoin ((λ root, visits (size (store s)) (store s) root) <$> (map_to_list (roots s)).*2).

Lemma same_shape_size h h' : same_shape h h' → size h' = size h.
Proof. intros Hs. rewrite <-(map_size_fmap shape h'), <-(map_size_fmap shape h). by rewrite Hs. Qed.

Lemma clear_roots_list slot s : clear_roots slot s = clear_list slot (all_visits s) s.
Proof.
  unfold clear_roots, all_visits. generalize (map_to_list (roots s)).*2. intros rs.
  assert (∀ s', same_shape (store s) (store s') →
    foldl (λ s root, clearSlot (size (store s)) slot root s) s' rs =
    clear_list slot (mjoin ((λ root, visits (size (store s)) (store s) root) <$> rs)) s') as H; [|by apply H].
  induction rs as [|r rs IH]; intros s' Hs; [done|].
  change (mjoin ((λ root, visits (size (store s)) (store s) root) <$> r :: rs)) with
    (visits (size (store s)) (store s) r ++ mjoin ((λ root, visits (size (store s)) (store s) root) <$> rs)).
  rewrite clear_list_app. cbn [foldl]. rewrite clearSlot_visits, (same_shape_size _ _ Hs), (visits_shape _ _ _ r Hs).
  apply IH. eapply same_shape_trans; [done|]. apply clear_list_shape.
Qed.

Lemma all_visits_live s l x : shard_wf s → store s !! l = Some x → parent x ≠ None → l ∈ all_visits s.
Proof.
  intros Hwf Hx Hp. destruct (sw_reach s Hwf l x Hx Hp) as (k & root & q & Hk & Hq).
  pose proof (sw_root s Hwf _ _ Hk) as Hroot.
  destruct (locate_chain _ _ _ _ (sw_heap s Hwf) Hroot Hq) as [c Hc]. cbn in Hc.
  apply list_elem_of_join. exists (visits (size (store s)) (store s) root). split.
  - apply (visits_mono (length c)); [by apply (chain_length _ root c l); [apply Hwf|..]|by apply chain_visits].
  - apply list_elem_of_fmap. exists root. split; [done|]. apply list_elem_of_fmap. exists (k, root).
    split; [done|]. by apply elem_of_map_to_list.
Qed.

(** Clearing every root leaves a well-formed shard whose view has lost the slot. *)
Lemma clear_roots_spec slot s :
  shard_wf s →
  let s' := clear_roots slot s in
  shard_wf s' ∧ (∀ k q, place s' k q = place s k q) ∧
  (∀ l x, store s !! l = Some x → parent x ≠ None →
    (∀ b, Has (marks (deref s' l)) b = Has (marks (deref s l)) b && negb (b =? slot))) ∧
  (∀ k q b, holds s' k q b = holds s k q b && negb (b =? slot)).
Proof.
  intros Hwf s'. unfold s'. rewrite clear_roots_list.
  assert (marks_ok s) as Hm by (intros q x Hq; by apply (hw_marks _ (sw_heap s Hwf) q)).
  destruct (clear_list_shape slot (all_visits s) s) as (Hs & Hro & Hta & Hfr & Hru & Hbl & _).
  destruct (clear_list_cleared slot (all_visits s) s Hm) as [Hok Hmk _ Hco].
  set (s2 := clear_list slot (all_visits s) s) in *. clearbody s2. clear s'.
  assert (Hpl : ∀ k q, place s2 k q = place s k q).
  { intros. unfold place. rewrite Hro. destruct (roots s !! k); [|done]. cbn. by apply same_shape_locate. }
  assert (Hlive : ∀ l x, store s !! l = Some x → parent x ≠ None →
    (∀ b, Has (marks (deref s2 l)) b = Has (marks (deref s l)) b && negb (b =? slot))).
  { intros l x Hx Hp b. rewrite Hmk, bool_decide_eq_true_2; [done|]. split; [by eapply all_visits_live|].
    unfold deref. by rewrite (deref_Some _ _ _ Hx). }
  assert (Hb : ∀ l y', store s2 !! l = Some y' → ∃ y, store s !! l = Some y ∧ shape y' = shape y).
  { intros l y' Hl. destruct (same_shape_lookup _ _ l y' (same_shape_sym _ _ Hs) Hl) as (y & ? & ?). eauto. }
  split_and!; [|done|done|].
  - constructor; rewrite ?Hro, ?Hta, ?Hru, ?Hbl.
    + apply (same_shape_wf (store s)); [apply Hwf|done|done|].
      intros l r p rp b Hl Hp Hrp Hpl' Hb'.
      destruct (Hb _ _ Hl) as (y & Hy & (_ & _ & Hpy & _)%shape_inj).
      destruct (Hb _ _ Hrp) as (yp & Hyp & (_ & _ & Hpyp & _)%shape_inj).
      pose proof (Hlive l y Hy ltac:(congruence) b) as H1. pose proof (Hlive p yp Hyp ltac:(congruence) b) as H2.
      unfold deref in *. rewrite (deref_Some _ _ _ Hl), (deref_Some _ _ _ Hy), Hb' in H1.
      rewrite (deref_Some _ _ _ Hrp), (deref_Some _ _ _ Hyp) in H2. rewrite H2.
      symmetry in H1. apply andb_true_iff in H1 as [H1 ->]. rewrite andb_true_r.
      apply (hw_sub _ (sw_heap s Hwf) l y p yp b); congruence.
    + intros l y (y0 & Hy0 & _)%Hb. rewrite Hfr. by apply (sw_fresh s Hwf) in Hy0.
    + intros k l Hk. apply (same_shape_root (store s)); [done|]. by apply (sw_root s Hwf k).
    + apply (sw_root_inj s Hwf).
    + intros l. rewrite (same_shape_childless _ _ _ Hs). apply Hwf.
    + intros l y Hl Hp. destruct (Hb _ _ Hl) as (y0 & Hy0 & (Hh & _ & Hp0 & _)%shape_inj). rewrite Hp0 in Hp.
      destruct (sw_reach s Hwf l y0 Hy0 Hp) as (k & root & q & Hk & Hq). exists k, root, q. split; [done|].
      rewrite (same_shape_locate (store s)) by done. unfold nblocks. by rewrite Hh.
    + rewrite (sw_runs s Hwf). clear -Hs. assert (∀ h, msum w_run h = msum (λ t, if decide (t.1.2 = None) then 0 else 1) (shape <$> h)) as He.
      { clear. intros h. induction h as [|l x h Hl IH] using map_ind; [by rewrite fmap_empty, !msum_empty|].
        rewrite fmap_insert, !msum_insert_new, IH by (rewrite ?lookup_fmap, ?Hl; done). done. }
      by rewrite !He, Hs.
    + rewrite (sw_blocks s Hwf). clear -Hs. assert (∀ h, msum w_blocks h =
        msum (λ t, if decide (t.1.2 = None) then 0 else Z.of_nat (length t.1.1.1)) (shape <$> h)) as He.
      { clear. intros h. induction h as [|l x h Hl IH] using map_ind; [by rewrite fmap_empty, !msum_empty|].
        rewrite fmap_insert, !msum_insert_new, IH by (rewrite ?lookup_fmap, ?Hl; done). done. }
      by rewrite !He, Hs.
    + rewrite (sw_copies s Hwf) in Hco. lia.
  - intros k q b. unfold holds. rewrite Hpl. destruct (place s k q) as [[l [|o]]|] eqn:E; [done| |done].
    destruct (place_lookup _ _ _ _ _ Hwf E) as (y & Hy & Hp & _). by apply (Hlive l y).
Qed.

(** ** Orphans *)

Definition unheld (x : run) : Prop := Empty (marks x) = true.

Lemma unlink_evicted l s : shard_wf s → childless (store s) l → unheld (deref s l) →
  ∃ D, evicted unheld s (unlinkRun l s).2 D l.
Proof.
  intros Hwf Hcl He. destruct (Hcl) as (x & Hx & _). destruct (unlinkRun_spec s l x Hwf Hcl Hx) as [Hpr _ Hk _ _].
  unfold deref in He. rewrite (deref_Some _ _ _ Hx) in He. exists {[l]}. constructor; [|intros; split; [set_solver|auto]|set_solver].
  eapply prunes_weaken; [|exact Hpr]. by intros ? ->.
Qed.

Lemma unlink_all_runs ls s :
  shard_wf s → NoDup ls → Forall (childless (store s)) ls →
  runs (foldl (λ s l, (unlinkRun l s).2) s ls) = runs s - Z.of_nat (length ls).
Proof.
  revert s. induction ls as [|l ls IH]; intros s Hwf Hnd Hall; [cbn; lia|]. cbn [foldl].
  inversion Hnd as [|? ? Hnot Hnd']; subst. inversion Hall as [|? ? Hl Hall']; subst.
  destruct (Hl) as (x & Hx & _). destruct (unlinkRun_spec s l x Hwf Hl Hx) as [Hpr Hr Hk _ _].
  rewrite IH; [rewrite Hr; cbn [length]; lia|apply Hpr|done|].
  rewrite Forall_forall in *. intros l' Hl'. apply Hk; [by intros ->|auto].
Qed.

Section orphans.
Context (order : gset loc → list loc) (Ho : ranges order).

Lemma dead_orphans_spec s :
  shard_wf s → NoDup (dead_orphans order s) ∧
  ∀ l, l ∈ dead_orphans order s ↔ childless (store s) l ∧ unheld (deref s l).
Proof using Ho.
  intros Hwf. destruct (order_spec order (tails s) Ho) as [Hnd Hin]. unfold dead_orphans. split; [by apply NoDup_filter|].
  intros l. rewrite list_elem_of_filter, Hin, (sw_tails s Hwf). unfold unheld. naive_solver.
Qed.

Lemma evictOrphans_loop_spec fuel s :
  shard_wf s → runs s < Z.of_nat fuel →
  ∃ D, prunes unheld s (evictOrphans_loop order fuel s) D ∧ dead_orphans order (evictOrphans_loop order fuel s) = [].
Proof using Ho.
  revert s. induction fuel as [|f IH]; intros s Hwf Hf.
  { exfalso. pose proof (msum_nonneg w_run (store s)) as H. rewrite <-(sw_runs s Hwf) in H.
    assert (0 ≤ runs s); [|lia]. apply H. intros l x _. unfold w_run. by case_decide. }
  cbn [evictOrphans_loop]. destruct (dead_orphans order s) as [|l dead] eqn:Ed.
  { exists ∅. split; [by apply prunes_refl|done]. }
  destruct (dead_orphans_spec s Hwf) as [Hnd Hin]. rewrite Ed in Hnd, Hin.
  assert (Forall (λ l, childless (store s) l ∧ unheld (deref s l)) (l :: dead)) as Hall by (apply Forall_forall; intros; by apply Hin).
  assert (Hext : ∀ x x', hashes x' = hashes x → marks x' = marks x → lastUsed x' = lastUsed x → unheld x' ↔ unheld x).
  { unfold unheld. by intros ?? _ -> _. }
  destruct (evict_all unheld (λ l s, (unlinkRun l s).2) (l :: dead) s Hext unlink_evicted Hwf Hnd Hall) as (D & Hpr & _).
  pose proof (unlink_all_runs (l :: dead) s Hwf Hnd) as Hr.
  set (s1 := foldl _ s (l :: dead)) in *. destruct (IH s1) as (D' & Hpr' & Hdone); [apply Hpr| |].
  { rewrite Hr by (eapply Forall_impl; [exact Hall|]; by intros ? []). cbn [length]. lia. }
  exists (D ∪ D'). split; [|done]. eapply prunes_trans; [|done..]. intros x x' ? ? ?. by apply Hext.
Qed.

Lemma runs_bound s : shard_wf s → runs s ≤ Z.of_nat (size (store s)).
Proof.
  intros Hwf. rewrite (sw_runs s Hwf). clear. induction (store s) as [|l x h Hl IH] using map_ind.
  - rewrite msum_empty. lia.
  - rewrite msum_insert_new, map_size_insert_None by done. unfold w_run at 1. case_decide; lia.
Qed.

Lemma evictOrphans_spec s :
  shard_wf s → ∃ D, prunes unheld s (evictOrphans order s) D ∧
    ∀ l, childless (store (evictOrphans order s)) l → ¬ unheld (deref (evictOrphans order s) l).
Proof using Ho.
  intros Hwf. unfold evictOrphans. destruct (evictOrphans_loop_spec (S (size (store s))) s Hwf) as (D & Hpr & Hd).
  { pose proof (runs_bound s Hwf). lia. }
  exists D. split; [done|]. intros l Hl Hu.
  destruct (dead_orphans_spec _ (pr_wf _ _ _ _ Hpr)) as [_ Hin].
  assert (l ∈ @nil loc); [|set_solver]. rewrite <-Hd. by apply Hin.
Qed.

(** When every childless run is held, every run is. *)
Lemma all_held s :
  shard_wf s → (∀ l, childless (store s) l → ¬ unheld (deref s l)) →
  ∀ l x, store s !! l = Some x → parent x ≠ None → ∃ b, Has (marks x) b = true.
Proof using.
  clear Ho. intros Hwf Hc l x Hx Hp. destruct (sw_reach s Hwf l x Hx Hp) as (k & root & q & Hk & Hq).
  pose proof (sw_root s Hwf _ _ Hk) as Hroot.
  destruct (locate_chain _ _ _ _ (sw_heap s Hwf) Hroot Hq) as [c Hch]. cbn in Hch. clear Hq.
  remember (size (store s) - length c)%nat as n eqn:Hn. revert l x c Hx Hp Hch Hn.
  induction n as [n IH] using lt_wf_ind. intros l x c Hx Hp Hch Hn.
  destruct (kids x) as [|y ks] eqn:Ek.
  - assert (childless (store s) l) as Hcl by (by exists x). specialize (Hc l Hcl). unfold unheld, deref in Hc.
    rewrite (deref_Some _ _ _ Hx) in Hc. pose proof (hw_marks _ (sw_heap s Hwf) l x Hx) as Hm.
    destruct (Each (marks x)) as [|b t] eqn:Ee.
    + exfalso. apply Hc, Empty_has; [done|]. intros b. apply not_true_is_false. intros Hb%elem_of_Each; [|done].
      rewrite Ee in Hb. set_solver.
    + exists b. apply elem_of_Each; [done|]. rewrite Ee. by left.
  - assert (y ∈ kids x) as Hy by (rewrite Ek; by left).
    destruct (hw_down _ (sw_heap s Hwf) l x y Hx Hy) as (r & Hr & Hpr).
    assert (chain (store s) root (c ++ [y]) y) as Hch' by (by econstructor).
    pose proof (chain_length _ _ _ _ (sw_heap s Hwf) Hroot Hch') as Hlen. rewrite length_app in Hlen. cbn in Hlen.
    destruct (IH (size (store s) - length (c ++ [y]))%nat) with (l:=y) (x:=r) (c:=c ++ [y]) as [b Hb]; try done.
    + rewrite length_app. cbn. lia.
    + congruence.
    + exists b. by eapply (hw_sub _ (sw_heap s Hwf) y r l x).
Qed.

(** Dropping a slot: the view loses it, and no run is left that nobody holds. *)
Lemma dropBackend_shard_spec slot s :
  shard_wf s →
  let s' := dropBackend_shard order slot s in
  shard_wf s' ∧ (∀ k q b, holds s' k q b = holds s k q b && negb (b =? slot)) ∧
  (∀ k q, recorded s' k q = true ↔ ∃ b, holds s' k q b = true).
Proof using Ho.
  intros Hwf s'. change s' with (evictOrphans order (clear_roots slot s)). clear s'.
  destruct (clear_roots_spec slot s Hwf) as (Hwf1 & Hpl1 & _ & Hh1).
  set (s1 := clear_roots slot s) in *. clearbody s1.
  destruct (evictOrphans_spec s1 Hwf1) as (D & Hpr & Hne). set (s2 := evictOrphans order s1) in *. clearbody s2.
  pose proof (pr_wf _ _ _ _ Hpr) as Hwf2. split_and!; [done| |].
  - intros k q b. rewrite <-Hh1, (prunes_holds _ _ _ _ _ _ _ Hwf1 Hpr). unfold holds.
    destruct (place s1 k q) as [[l [|o]]|] eqn:E; [done| |done]. case_bool_decide as Hd; [done|]. cbn.
    destruct (pr_dead _ _ _ _ Hpr l Hd) as (x & Hx & _ & Hu & _). unfold deref. rewrite (deref_Some _ _ _ Hx).
    unfold unheld in Hu. rewrite Empty_has in Hu by (by apply (hw_marks _ (sw_heap s1 Hwf1) l)). by rewrite Hu.
  - intros k q. unfold recorded, holds. destruct (place s2 k q) as [[l [|o]]|] eqn:E.
    1, 3: split; [done|by intros []].
    destruct (place_lookup _ _ _ _ _ Hwf2 E) as (y & Hy & Hp & _). split; [|done]. intros _.
    destruct (all_held s2 Hwf2 Hne l y Hy Hp) as [b Hb]. exists b. unfold deref. by rewrite (deref_Some _ _ _ Hy).
Qed.
End orphans.

(** ** A sweep, on the view *)

Record swept now ttl s s' : Prop := {
  sp_wf : shard_wf s';
  sp_keep k q : recorded s' k q = true → recorded s k q = true ∧ ∀ b, holds s' k q b = holds s k q b;
  sp_fresh k q l o : place s k q = Some (l, S o) → now - lastUsed (deref s l) ≤ ttl → recorded s' k q = true;
  sp_gone k q l o : place s k q = Some (l, S o) → kids (deref s l) = [] → ttl < now - lastUsed (deref s l) →
    recorded s' k q = false ∧ ∀ b, holds s' k q b = false;
}.

Lemma recorded_false s k q b : recorded s k q = false → holds s k q b = false.
Proof. unfold recorded, holds. destruct (place s k q) as [[l [|o]]|]; done. Qed.

Lemma sweep_view order now ttl s :
  ranges order → shard_wf s → swept now ttl s (sweep_shard order now ttl s).2 ∧
  (sweep_shard order now ttl s).1 = blocks_total s - blocks_total (sweep_shard order now ttl s).2 ∧
  (sweep_shard order now ttl s).1 = expired (sweep_shard order now ttl s).2 - expired s.
Proof.
  intros Ho Hwf. destruct (sweep_shard_spec order now ttl s Ho Hwf) as (D & Hpr & Hfreed & Hall).
  split; [|split; [done|]; rewrite Hfreed; apply (pr_blocks _ _ _ _ Hpr)].
  set (s' := (sweep_shard order now ttl s).2) in *. clearbody s'.
  pose proof (λ k q l o, pr_place _ _ _ _ Hpr k q l o) as Hp.
  assert (Hgone : ∀ k q, (∀ l o, place s' k q ≠ Some (l, S o)) → recorded s' k q = false).
  { intros k q Hn. unfold recorded. destruct (place s' k q) as [[l [|o]]|]; [done| |done]. by destruct (Hn l o). }
  constructor; [apply Hpr| | |].
  - intros k q Hre. unfold recorded in Hre. destruct (place s' k q) as [[l [|o]]|] eqn:E'; [done| |done].
    apply Hp in E' as [E Hd]. split; [unfold recorded; by rewrite E|]. intros b.
    rewrite (prunes_holds _ _ _ _ _ _ _ Hwf Hpr). unfold holds. rewrite E. by rewrite bool_decide_eq_true_2.
  - intros k q l o E Hf. unfold recorded. rewrite (proj2 (Hp k q l o)); [done|]. split; [done|].
    intros Hd. destruct (pr_dead _ _ _ _ Hpr l Hd) as (x & Hx & _ & Hst & _). unfold stale, deref in *.
    rewrite (deref_Some _ _ _ Hx) in Hf. lia.
  - intros k q l o E Hk Hst. assert (recorded s' k q = false) as Hr; [|split; [done|intros; by apply recorded_false]].
    apply Hgone. intros l' o' [E2 Hd]%Hp. simplify_eq. apply Hd, Hall; [|done].
    destruct (place_lookup _ _ _ _ _ Hwf E) as (y & Hy & Hpy & _). exists y. unfold deref in Hk.
    by rewrite (deref_Some _ _ _ Hy) in Hk.
Qed.
