(* ===== verification/TreeSpec.v ===== *)
(** * TreeSpec: the forest as an index of who holds what

    The abstract contract of the affinity tree: a relation between backend URLs, models and
    block prefixes.  [PrefixIndex] states it as an interface; the tree implements it, shard
    by shard, and whole histories of commits and departures refine it. *)

From stdpp Require Import base gmap sets list strings sorting.
From Stdlib Require Import ZArith Lia.
From S2P Require Import Prelude MarkSet KvUnits AffinityTree TreeWf TreeStep TreeShard TreeCommit TreeWalk TreeEvict TreeDrop.
Open Scope Z_scope.

(** ** Shards of prefixes *)

(** The shard a prefix falls in: it depends on its first block and the model only. *)
Definition shard_of (k : Z) (q : list Z) : nat := shardFor (Path ((λ h, MkUnit h 0) <$> q) k).

Lemma shardFor_lt p : (shardFor p < numShards)%nat.
Proof. unfold shardFor. pose proof (Z.mod_pos_bound (shardKey p) (Z.of_nat numShards)). unfold numShards in *. lia. Qed.

Lemma shard_of_prefix p q :
  q ≠ [] → q `prefix_of` path_hashes p → shard_of (modelKey p) q = shardFor p.
Proof.
  intros Hq [t Ht]. unfold shard_of, shardFor, shardKey. cbn [modelKey units].
  unfold path_hashes in Ht. destruct q as [|h q]; [done|]. destruct (units p) as [|u us] eqn:E; [done|].
  cbn in Ht. injection Ht as Hh _. cbn. by rewrite Hh.
Qed.

(** ** The view of the whole tree *)

Definition shard_at (t : tree) (i : nat) : shard := default empty_shard (shards t !! i).

Definition tree_holds (t : tree) (k : Z) (q : list Z) (b : Z) : bool :=
  holds (shard_at t (shard_of k q)) k q b.

(** The backend at [url] holds the prefix [q] of model [k]. *)
Definition view (t : tree) (url : string) (k : Z) (q : list Z) : bool :=
  match slots t !! url with Some b => tree_holds t k q b | None => false end.

Record tree_wf (t : tree) : Prop := {
  tw_len : length (shards t) = numShards;
  tw_shards : Forall shard_wf (shards t);
  tw_inj u1 u2 b : slots t !! u1 = Some b → slots t !! u2 = Some b → u1 = u2;
  tw_range u b : slots t !! u = Some b → 0 ≤ b < nextSl t;
  tw_next : 0 ≤ nextSl t;
  tw_free : NoDup (free t) ∧ ∀ b, b ∈ free t → 0 ≤ b < nextSl t ∧ ∀ u, slots t !! u ≠ Some b;
  (* a slot nobody owns holds nothing: its next owner starts empty *)
  tw_unused s k q b : s ∈ shards t → holds s k q b = true → ∃ u, slots t !! u = Some b;
}.

Lemma shard_at_lookup t i : tree_wf t → (i < numShards)%nat → shards t !! i = Some (shard_at t i).
Proof.
  intros Hwf Hi. unfold shard_at. destruct (lookup_lt_is_Some_2 (shards t) i) as [s ->]; [|done].
  by rewrite (tw_len t Hwf).
Qed.

Lemma shard_at_wf t i : tree_wf t → (i < numShards)%nat → shard_wf (shard_at t i).
Proof.
  intros Hwf Hi. eapply Forall_lookup_1; [apply (tw_shards t Hwf)|]. by apply shard_at_lookup.
Qed.

Lemma empty_shard_holds s k q b : roots s = ∅ → holds s k q b = false.
Proof. intros Hr. unfold holds, place. by rewrite Hr, lookup_empty. Qed.

Lemma bare_shard_wf f e : shard_wf (Shard ∅ f ∅ ∅ 0 0 0 e).
Proof.
  constructor; cbn; rewrite ?msum_empty; try done.
  - intros l. split; [set_solver|]. intros (r & H & _). by rewrite lookup_empty in H.
Qed.

Lemma newTree_wf d : tree_wf (newTree d).
Proof.
  unfold newTree. constructor; cbn [ttl shards slots free nextSl]; try done.
  - apply Forall_replicate, bare_shard_wf.
  - split; [constructor|]. intros b. set_solver.
  - intros s k q b ->%elem_of_replicate_inv. by rewrite empty_shard_holds.
Qed.

Lemma newTree_view d u k q : view (newTree d) u k q = false.
Proof. done. Qed.

(** ** Slots *)

Lemma last_Some_snoc {A} (l : list A) x : last l = Some x → l = removelast l ++ [x].
Proof.
  intros H. destruct l as [|a l _] using rev_ind; [done|]. rewrite last_snoc in H.
  rewrite removelast_last. by simplify_eq.
Qed.

Lemma slotOrCreate_spec url t :
  tree_wf t →
  let '(b, t') := slotOrCreate url t in
  tree_wf t' ∧ slots t' !! url = Some b ∧ 0 ≤ b ∧ shards t' = shards t ∧ ttl t' = ttl t ∧
  (∀ u k q, view t' u k q = view t u k q).
Proof.
  intros Hwf. unfold slotOrCreate, slot. destruct (slots t !! url) as [b|] eqn:E.
  { split_and!; try done. apply (tw_range t Hwf _ _ E). }
  unfold slotFor. rewrite E. destruct (tw_free t Hwf) as [Hnd Hfree].
  assert (Hnew : ∀ b fr nx, (∀ u, slots t !! u ≠ Some b) → 0 ≤ b < nx → nextSl t ≤ nx → NoDup fr → b ∉ fr →
    (∀ c, c ∈ fr → c ∈ free t) →
    tree_wf (Tree (ttl t) (shards t) (<[url := b]> (slots t)) fr nx) ∧
    (∀ u k q, view (Tree (ttl t) (shards t) (<[url := b]> (slots t)) fr nx) u k q = view t u k q)).
  { intros b fr nx Hb Hr Hnx Hndf Hbf Hsub. split.
    - constructor; cbn; [apply (tw_len t Hwf)|apply (tw_shards t Hwf)|..].
      + intros u1 u2 c [[<- <-]|[? H1]]%lookup_insert_Some [[<- ?]|[? H2]]%lookup_insert_Some; try done.
        * by apply Hb in H2.
        * subst. by apply Hb in H1.
        * by apply (tw_inj t Hwf u1 u2 c).
      + intros u c [[_ <-]|[_ H]]%lookup_insert_Some; [lia|]. apply (tw_range t Hwf) in H. lia.
      + pose proof (tw_next t Hwf). lia.
      + split; [done|]. intros c Hc. destruct (Hfree c (Hsub _ Hc)) as [? Hno]. split; [lia|].
        intros u [[_ ->]|[_ ?]]%lookup_insert_Some; [done|by apply (Hno u)].
      + intros s k q c Hs Hh. destruct (tw_unused t Hwf s k q c Hs Hh) as [u Hu]. exists u.
        rewrite lookup_insert_ne; [done|]. intros ->. congruence.
    - intros u k q. unfold view, tree_holds. cbn. destruct (decide (u = url)) as [->|].
      + rewrite lookup_insert_eq, E. change (shard_at (Tree _ _ _ _ _)) with (shard_at t).
        apply not_true_is_false. intros H. destruct (tw_unused t Hwf (shard_at t (shard_of k q)) k q b) as [u Hu]; [|done|by apply (Hb u)].
        eapply list_elem_of_lookup_2, shard_at_lookup; [done|apply shardFor_lt].
      + by rewrite lookup_insert_ne by done. }
  destruct (last (free t)) as [b|] eqn:El.
  - pose proof (last_Some_snoc _ _ El) as Hs. rewrite Hs in Hnd. apply NoDup_app in Hnd as (Hnd1 & Hnd2 & _).
    assert (b ∈ free t) as Hb by (rewrite Hs; set_solver). destruct (Hfree b Hb) as [Hbr Hbn].
    destruct (Hnew b (removelast (free t)) (nextSl t)) as [H1 H2]; try done; try lia.
    + intros Hin. apply (Hnd2 _ Hin). by left.
    + intros c Hc. rewrite Hs. set_solver.
    + split_and!; try done; [apply lookup_insert_eq|lia].
  - pose proof (tw_next t Hwf).
    destruct (Hnew (nextSl t) (free t) (nextSl t + 1)) as [H1 H2]; try done; try lia.
    + intros u Hu. apply (tw_range t Hwf) in Hu. lia.
    + intros Hin. apply Hfree in Hin. lia.
    + split_and!; try done. apply lookup_insert_eq.
Qed.

(** ** The operations, by URL *)

(** What the policy does with a finished request: find or make the slot, commit. *)
Definition commit_url (url : string) (p : path) (now : Z) (t : tree) : Z * tree :=
  let '(b, t) := slotOrCreate url t in tree_commit p b now t.

Lemma tree_commit_spec p b now t url :
  tree_wf t → slots t !! url = Some b → units p ≠ [] →
  let '(hit, t') := tree_commit p b now t in
  tree_wf t' ∧ slots t' = slots t ∧
  (∀ u k q, view t' u k q = view t u k q ||
     bool_decide (u = url ∧ k = modelKey p ∧ q ≠ [] ∧ q `prefix_of` path_hashes p)) ∧
  hit = Z.of_nat (lead (view t url (modelKey p)) [] (path_hashes p)).
Proof.
  intros Hwf Hb Hne. unfold tree_commit. fold (shard_at t (shardFor p)).
  pose proof (shardFor_lt p) as Hi. pose proof (shard_at_wf t _ Hwf Hi) as Hs.
  destruct (tw_range t Hwf _ _ Hb) as [Hb0 _].
  pose proof (commit_view p b now (shard_at t (shardFor p)) Hs Hb0) as Hc.
  destruct (commit p b now (shard_at t (shardFor p))) as [hit s']. destruct Hc as (Hwf' & Hh & _ & Hhit).
  set (t' := Tree _ _ _ _ _).
  assert (Hat : ∀ i, shard_at t' i = if decide (i = shardFor p) then s' else shard_at t i).
  { intros i. unfold shard_at. cbn. case_decide; subst.
    - rewrite list_lookup_insert_eq; [done|]. by rewrite (tw_len t Hwf).
    - by rewrite list_lookup_insert_ne. }
  assert (Hview : ∀ k q c, tree_holds t' k q c = tree_holds t k q c ||
    (bool_decide (k = modelKey p ∧ q ≠ [] ∧ q `prefix_of` path_hashes p) && (c =? b))).
  { intros k q c. unfold tree_holds. rewrite Hat. case_decide as Hd; [by rewrite Hh, Hd|].
    rewrite bool_decide_eq_false_2; [by rewrite orb_false_r|]. intros (-> & Hq & Hp). apply Hd. by apply shard_of_prefix. }
  split_and!; [|done| |].
  - constructor; [| |apply (tw_inj t Hwf)|apply (tw_range t Hwf)|apply (tw_next t Hwf)|apply (tw_free t Hwf)|].
    + cbn. rewrite length_insert. apply Hwf.
    + cbn. apply Forall_insert; [apply Hwf|done].
    + cbn. intros s k q c (j & Hj)%list_elem_of_lookup Hc.
      destruct (decide (j = shardFor p)) as [->|].
      * rewrite list_lookup_insert_eq in Hj by (by rewrite (tw_len t Hwf)). simplify_eq. rewrite Hh in Hc.
        apply orb_true_iff in Hc as [Hc|[_ ?]%andb_true_iff]; [|bool_props; subst; eauto].
        eapply (tw_unused t Hwf); [|done]. eapply list_elem_of_lookup_2. by apply shard_at_lookup.
      * rewrite list_lookup_insert_ne in Hj by done. eapply (tw_unused t Hwf); [|done]. by eapply list_elem_of_lookup_2.
  - intros u k q. unfold view. cbn [slots t']. destruct (slots t !! u) as [c|] eqn:Eu.
    + rewrite Hview. f_equal. destruct (decide (u = url)) as [->|Hu].
      * simplify_eq. rewrite Z.eqb_refl, andb_true_r. apply bool_decide_ext. tauto.
      * rewrite (bool_decide_eq_false_2 (u = url ∧ _)) by tauto.
        destruct (c =? b) eqn:E; [|by rewrite andb_false_r]. bool_props. subst. destruct Hu. by apply (tw_inj t Hwf u url b).
    + symmetry. apply bool_decide_eq_false_2. intros (-> & _). congruence.
  - rewrite Hhit. f_equal. 
    assert (Hext : ∀ acc xs, acc ++ xs = path_hashes p →
      lead (λ q, holds (shard_at t (shardFor p)) (modelKey p) q b) acc xs = lead (view t url (modelKey p)) acc xs).
    { intros acc xs. revert acc. induction xs as [|x xs IH]; intros acc Ha; [done|]. cbn.
      unfold view at 1. rewrite Hb. unfold tree_holds. rewrite shard_of_prefix.
      - rewrite IH by (by rewrite <-app_assoc). done.
      - by destruct acc.
      - exists xs. by rewrite <-app_assoc. }
    by apply Hext.
Qed.

Lemma commit_url_spec url p now t :
  tree_wf t → units p ≠ [] →
  let '(hit, t') := commit_url url p now t in
  tree_wf t' ∧
  (∀ u k q, view t' u k q = view t u k q ||
     bool_decide (u = url ∧ k = modelKey p ∧ q ≠ [] ∧ q `prefix_of` path_hashes p)) ∧
  hit = Z.of_nat (lead (view t url (modelKey p)) [] (path_hashes p)).
Proof.
  intros Hwf Hne. unfold commit_url. pose proof (slotOrCreate_spec url t Hwf) as H.
  destruct (slotOrCreate url t) as [b t1]. destruct H as (Hwf1 & Hb & _ & _ & _ & Hv).
  pose proof (tree_commit_spec p b now t1 url Hwf1 Hb Hne) as H.
  destruct (tree_commit p b now t1) as [hit t']. destruct H as (Hwf' & _ & Hv' & Hhit).
  split_and!; [done| |].
  - intros. by rewrite Hv', Hv.
  - rewrite Hhit. f_equal. apply lead_ext. intros q _. apply Hv.
Qed.

(** ** Every shard changed alike *)

Section each_shard.
Context (f : shard → shard) (t t' : tree).
Hypothesis Ht' : shards t' = f <$> shards t.
Hypothesis Hf : ∀ s, shard_wf s → shard_wf (f s).

Lemma each_shard_at i : tree_wf t → (i < numShards)%nat → shard_at t' i = f (shard_at t i).
Proof using Ht'.
  intros Hwf Hi. unfold shard_at at 1. by rewrite Ht', list_lookup_fmap, (shard_at_lookup t i).
Qed.

Lemma each_holds k q b : tree_wf t → tree_holds t' k q b = holds (f (shard_at t (shard_of k q))) k q b.
Proof using Ht'. intros Hwf. unfold tree_holds. rewrite each_shard_at; [done|done|apply shardFor_lt]. Qed.

Lemma each_shards_wf : tree_wf t → length (shards t') = numShards ∧ Forall shard_wf (shards t').
Proof using Ht' Hf.
  intros Hwf. rewrite Ht', length_fmap. split; [apply Hwf|]. apply Forall_fmap.
  eapply Forall_impl; [apply (tw_shards t Hwf)|]. exact Hf.
Qed.

Lemma each_unused s k q b :
  tree_wf t → (∀ s k q b, shard_wf s → holds (f s) k q b = true → holds s k q b = true) →
  s ∈ shards t' → holds s k q b = true → ∃ u, slots t !! u = Some b.
Proof using Ht'.
  intros Hwf Hsub Hs Hh. rewrite Ht' in Hs. apply list_elem_of_fmap in Hs as (s0 & -> & Hs0).
  apply (tw_unused t Hwf s0 k q b Hs0). apply Hsub; [|done].
  pose proof (tw_shards t Hwf) as Hall. rewrite Forall_forall in Hall. auto.
Qed.
End each_shard.

Lemma dropBackend_spec order url t :
  ranges order → tree_wf t →
  let t' := dropBackend order url t in
  tree_wf t' ∧ slots t' !! url = None ∧
  (∀ u k q, view t' u k q = view t u k q && bool_decide (u ≠ url)) ∧
  (∀ b, slots t !! url = Some b → b ∈ free t' ∧ ∀ k q, recorded (shard_at t' (shard_of k q)) k q = true →
     ∃ c, tree_holds t' k q c = true).
Proof.
  intros Ho Hwf t'. unfold t', dropBackend. destruct (slots t !! url) as [b|] eqn:E.
  2: { split_and!; [done|done| |done]. intros u k q. unfold view. destruct (decide (u = url)) as [->|].
    - by rewrite E.
    - by rewrite bool_decide_eq_true_2, andb_true_r. }
  cbn [ttl shards slots free nextSl]. set (t1 := Tree _ _ _ _ _).
  pose proof (λ s Hs, dropBackend_shard_spec order Ho b s Hs) as Hd.
  assert (Hh : ∀ k q c, tree_holds t1 k q c = tree_holds t k q c && negb (c =? b)).
  { intros k q c. rewrite (each_holds (dropBackend_shard order b) t t1) by done.
    destruct (Hd (shard_at t (shard_of k q))) as (_ & H & _); [apply shard_at_wf; [done|apply shardFor_lt]|]. apply H. }
  destruct (each_shards_wf (dropBackend_shard order b) t t1 eq_refl) as [Hlen Hall]; [intros s Hs; apply (Hd s Hs)|done|].
  destruct (tw_free t Hwf) as [Hnd Hfree]. pose proof (tw_range t Hwf _ _ E) as Hbr.
  split_and!.
  - constructor; [done|done| | |apply (tw_next t Hwf)| |].
    + cbn. intros u1 u2 c [_ H1]%lookup_delete_Some [_ H2]%lookup_delete_Some. by apply (tw_inj t Hwf u1 u2 c).
    + cbn. intros u c [_ H]%lookup_delete_Some. by apply (tw_range t Hwf u).
    + cbn. split.
      * apply NoDup_app. split_and!; [done| |apply NoDup_singleton].
        intros c Hc ->%list_elem_of_singleton. apply Hfree in Hc as [_ Hc]. by apply (Hc url).
      * intros c [Hc| ->%list_elem_of_singleton]%elem_of_app.
        -- destruct (Hfree c Hc) as [? Hn]. split; [done|]. intros u [_ Hx]%lookup_delete_Some. by apply (Hn u).
        -- split; [done|]. intros u [Hne H]%lookup_delete_Some. apply Hne. by apply (tw_inj t Hwf url u b).
    + intros s k q c Hs Hc. cbn [slots t1].
      assert (∃ s0, s0 ∈ shards t ∧ s = dropBackend_shard order b s0) as (s0 & Hs0 & ->).
      { cbn in Hs. apply list_elem_of_fmap in Hs as (s0 & -> & ?). eauto. }
      pose proof (tw_shards t Hwf) as Hall0. rewrite Forall_forall in Hall0.
      destruct (Hd s0 (Hall0 _ Hs0)) as (_ & H & _). rewrite H in Hc. apply andb_true_iff in Hc as [Hc Hcb].
      destruct (tw_unused t Hwf s0 k q c Hs0 Hc) as [u Hu]. exists u. apply lookup_delete_Some. split; [|done].
      intros <-. simplify_eq. by rewrite Z.eqb_refl in Hcb.
  - cbn. apply lookup_delete_eq.
  - intros u k q. unfold view. cbn [slots t1]. destruct (decide (u = url)) as [->|Hu].
    + rewrite lookup_delete_eq, E, bool_decide_eq_false_2 by (intros []; done). by rewrite andb_false_r.
    + rewrite lookup_delete_ne, bool_decide_eq_true_2, andb_true_r by done. destruct (slots t !! u) as [c|] eqn:Ec; [|done].
      rewrite Hh. destruct (c =? b) eqn:Ecb; [|by rewrite andb_true_r]. bool_props. subst.
      destruct Hu. by apply (tw_inj t Hwf u url b).
  - intros c [= <-]. split; [cbn; set_solver|]. intros k q Hr.
    assert (shard_at t1 (shard_of k q) = dropBackend_shard order b (shard_at t (shard_of k q))) as Hat.
    { apply each_shard_at; [done|done|apply shardFor_lt]. }
    unfold tree_holds. rewrite Hat in *.
    destruct (Hd (shard_at t (shard_of k q))) as (_ & _ & H); [apply shard_at_wf; [done|apply shardFor_lt]|]. by apply H.
Qed.

(** ** Sweeping the whole tree *)

(** When the run that records the prefix was last used. *)
Definition used_at (t : tree) (k : Z) (q : list Z) : option Z :=
  match place (shard_at t (shard_of k q)) k q with
  | Some (l, S _) => Some (lastUsed (deref (shard_at t (shard_of k q)) l))
  | _ => None
  end.

Definition tree_blocks (t : tree) : Z := foldr (λ s acc, blocks_total s + acc) 0 (shards t).

Lemma sweep_spec order now t :
  ranges order → tree_wf t →
  let '(freed, t') := sweep order now t in
  tree_wf t' ∧
  (∀ u k q, view t' u k q = true → view t u k q = true) ∧
  (∀ u k q used, view t u k q = true → used_at t k q = Some used → now - used ≤ ttl t → view t' u k q = true) ∧
  freed = tree_blocks t - tree_blocks t'.
Proof.
  intros Ho Hwf. unfold sweep. set (t' := Tree _ _ _ _ _).
  set (f := λ s, (sweep_shard order now (ttl t) s).2).
  assert (Ht' : shards t' = f <$> shards t) by (cbn; by rewrite <-list_fmap_compose).
  pose proof (λ s Hs, sweep_view order now (ttl t) s Ho Hs) as Hsw.
  assert (Hf : ∀ s, shard_wf s → shard_wf (f s)) by (intros s Hs; apply (proj1 (Hsw s Hs))).
  assert (Hsub : ∀ s k q b, shard_wf s → holds (f s) k q b = true → holds s k q b = true).
  { intros s k q b Hs Hh. destruct (Hsw s Hs) as [[_ Hk _ _] _].
    destruct (recorded (f s) k q) eqn:Er; [|by rewrite (recorded_false _ _ _ _ Er) in Hh].
    destruct (Hk k q Er) as [_ H]. by rewrite <-H. }
  destruct (each_shards_wf f t t' Ht' Hf Hwf) as [Hlen Hall].
  assert (Hat : ∀ k q, shard_wf (shard_at t (shard_of k q))) by (intros; apply shard_at_wf; [done|apply shardFor_lt]).
  split_and!.
  - constructor; [done|done|apply (tw_inj t Hwf)|apply (tw_range t Hwf)|apply (tw_next t Hwf)|apply (tw_free t Hwf)|].
    intros s k q b. apply (each_unused f t t'); done.
  - intros u k q. unfold view. cbn [slots t']. destruct (slots t !! u) as [b|]; [|done].
    rewrite (each_holds f t t') by done. by apply Hsub.
  - intros u k q used. unfold view. cbn [slots t']. destruct (slots t !! u) as [b|]; [|done].
    intros Hh Hu Hfr. rewrite (each_holds f t t') by done. unfold tree_holds in Hh.
    destruct (Hsw _ (Hat k q)) as [[_ Hk Hfresh _] _]. unfold used_at in Hu.
    destruct (place (shard_at t (shard_of k q)) k q) as [[l [|o]]|] eqn:Ep; [done| |done]. simplify_eq.
    pose proof (Hfresh k q l o Ep Hfr) as Hr. destruct (Hk k q Hr) as [_ H]. unfold f. by rewrite H.
  - cbn [fst]. unfold tree_blocks. rewrite Ht'. unfold f.
    pose proof (tw_shards t Hwf) as Hall0. clear -Hall0 Hsw. induction Hall0 as [|s ss Hs Hss IH]; [done|]. csimpl.
    destruct (Hsw s Hs) as (_ & -> & _). rewrite IH. lia.
Qed.

Lemma flush_spec t : tree_wf t → tree_wf (flush t) ∧ ∀ u k q, view (flush t) u k q = false.
Proof.
  intros Hwf. assert (Hn : ∀ s k q b, s ∈ shards (flush t) → holds s k q b = false).
  { intros s k q b (s0 & -> & _)%list_elem_of_fmap. by apply empty_shard_holds. }
  split.
  - constructor; [| |apply (tw_inj t Hwf)|apply (tw_range t Hwf)|apply (tw_next t Hwf)|apply (tw_free t Hwf)|].
    + cbn. rewrite length_fmap. apply Hwf.
    + cbn. apply Forall_fmap. eapply Forall_impl; [apply (tw_shards t Hwf)|]. intros s _. apply bare_shard_wf.
    + intros s k q b Hs. by rewrite Hn.
  - intros u k q. unfold view. destruct (slots _ !! u) as [b|]; [|done]. unfold tree_holds.
    destruct (shards (flush t) !! shard_of k q) as [s|] eqn:E; unfold shard_at; rewrite E; cbn.
    + apply Hn. by eapply list_elem_of_lookup_2.
    + by apply empty_shard_holds.
Qed.

(** ** The contract, and histories *)

(** What the router's policy relies on: an index of who holds which prefix.  [ix_view] is
    the abstract state; each operation has one law. *)
Class PrefixIndex (T : Type) := {
  ix_inv : T → Prop;
  ix_view : T → string → Z → list Z → bool;
  ix_new : T;
  ix_commit : string → path → Z → T → T;
  ix_drop : string → T → T;
  ix_sweep : Z → T → T;
  ix_flush : T → T;
  ix_new_law : ix_inv ix_new ∧ ∀ u k q, ix_view ix_new u k q = false;
  ix_commit_law url p now t : ix_inv t → units p ≠ [] →
    ix_inv (ix_commit url p now t) ∧
    ∀ u k q, ix_view (ix_commit url p now t) u k q = ix_view t u k q ||
      bool_decide (u = url ∧ k = modelKey p ∧ q ≠ [] ∧ q `prefix_of` path_hashes p);
  ix_drop_law url t : ix_inv t → ix_inv (ix_drop url t) ∧
    ∀ u k q, ix_view (ix_drop url t) u k q = ix_view t u k q && bool_decide (u ≠ url);
  ix_sweep_law now t : ix_inv t → ix_inv (ix_sweep now t) ∧
    ∀ u k q, ix_view (ix_sweep now t) u k q = true → ix_view t u k q = true;
  ix_flush_law t : ix_inv t → ix_inv (ix_flush t) ∧ ∀ u k q, ix_view (ix_flush t) u k q = false;
}.

Inductive op :=
  | OpCommit (url : string) (p : path) (now : Z)
  | OpDrop (url : string)
  | OpSweep (now : Z)
  | OpFlush.

Definition op_ok (o : op) : Prop := match o with OpCommit _ p _ => units p ≠ [] | _ => True end.
Definition is_sweep (o : op) : bool := match o with OpSweep _ => true | _ => false end.

Definition run_op `{PrefixIndex T} (t : T) (o : op) : T :=
  match o with
  | OpCommit url p now => ix_commit url p now t
  | OpDrop url => ix_drop url t
  | OpSweep now => ix_sweep now t
  | OpFlush => ix_flush t
  end.

(** Who ought to hold what after a history, latest operation first: a prefix is held by
    whoever committed a path through it and has not left since. *)
Fixpoint owed (ops : list op) (u : string) (k : Z) (q : list Z) : bool :=
  match ops with
  | [] => false
  | OpCommit url p _ :: ops =>
      bool_decide (u = url ∧ k = modelKey p ∧ q ≠ [] ∧ q `prefix_of` path_hashes p) || owed ops u k q
  | OpDrop url :: ops => bool_decide (u ≠ url) && owed ops u k q
  | OpSweep _ :: ops => owed ops u k q
  | OpFlush :: _ => false
  end.

Lemma history `{PrefixIndex T} (ops : list op) :
  Forall op_ok ops →
  let t := foldr (λ o t, run_op t o) ix_new ops in
  ix_inv t ∧ (∀ u k q, ix_view t u k q = true → owed ops u k q = true) ∧
  (forallb (λ o, negb (is_sweep o)) ops = true → ∀ u k q, ix_view t u k q = owed ops u k q).
Proof.
  induction 1 as [|o ops Ho Hall (Hi & Hsub & Heq)]; cbn.
  - destruct ix_new_law as [Hn Hv]. split_and!; [done| |done]. intros u k q. by rewrite Hv.
  - set (t := foldr _ _ ops) in *. destruct o as [url p now|url|now|]; cbn in *.
    + destruct (ix_commit_law url p now t Hi Ho) as [Hi' Hv]. split_and!; [done| |].
      * intros u k q. rewrite Hv. intros [Hx| ->]%orb_true_iff; [|done]. by rewrite (Hsub _ _ _ Hx), orb_true_r.
      * intros Hs u k q. by rewrite Hv, (Heq Hs), orb_comm.
    + destruct (ix_drop_law url t Hi) as [Hi' Hv]. split_and!; [done| |].
      * intros u k q. rewrite Hv. intros [Hx ->]%andb_true_iff. by rewrite (Hsub _ _ _ Hx).
      * intros Hs u k q. by rewrite Hv, (Heq Hs), andb_comm.
    + destruct (ix_sweep_law now t Hi) as [Hi' Hv]. split_and!; [done| |done]. intros u k q Hx. apply Hsub. by apply Hv.
    + destruct (ix_flush_law t Hi) as [Hi' Hv]. split_and!; [done| |].
      * intros u k q Hx. by rewrite Hv in Hx.
      * intros _ u k q. apply Hv.
Qed.

(** The tree implements the contract, whatever order its map ranges take. *)
Section tree_index.
Context (order : gset loc → list loc) (Ho : ranges order) (d : Z).

#[local] Obligation Tactic := idtac.

Program Definition tree_index : PrefixIndex tree := {|
  ix_inv := tree_wf;
  ix_view := view;
  ix_new := newTree d;
  ix_commit url p now t := (commit_url url p now t).2;
  ix_drop url t := dropBackend order url t;
  ix_sweep now t := (sweep order now t).2;
  ix_flush := flush;
|}.
Next Obligation. split; [apply newTree_wf|done]. Qed.
Next Obligation.
  intros url p now t Hwf Hne. cbv beta. pose proof (commit_url_spec url p now t Hwf Hne) as H.
  destruct (commit_url url p now t). by destruct H as (? & ? & _).
Qed.
Next Obligation. intros url t Hwf. by destruct (dropBackend_spec order url t Ho Hwf) as (? & _ & ? & _). Qed.
Next Obligation.
  intros now t Hwf. cbv beta. pose proof (sweep_spec order now t Ho Hwf) as H.
  destruct (sweep order now t). by destruct H as (? & ? & _).
Qed.
Next Obligation. intros t Hwf. by apply flush_spec. Qed.
End tree_index.

(** ** Concrete trees for the witnesses *)

Definition demo_path (hs : list Z) (k : Z) : path := Path ((λ h, MkUnit h 10) <$> hs) k.
Definition demo_shard : shard :=
  (commit (demo_path [1; 2; 5] 7) 1 20 (commit (demo_path [1; 2; 3] 7) 0 10 empty_shard).2).2.
Definition demo_tree : tree :=
  (commit_url "b" (demo_path [1; 2; 5] 7) 20 (commit_url "a" (demo_path [1; 2; 3] 7) 10 (newTree 100)).2).2.

Lemma demo_shard_wf : shard_wf demo_shard.
Proof.
  unfold demo_shard.
  pose proof (commit_view (demo_path [1; 2; 3] 7) 0 10 empty_shard (bare_shard_wf 1 0) ltac:(lia)) as H1.
  destruct (commit _ 0 10 _) as [h1 s1]. destruct H1 as (W1 & _).
  pose proof (commit_view (demo_path [1; 2; 5] 7) 1 20 s1 W1 ltac:(lia)) as H2.
  destruct (commit _ 1 20 _) as [h2 s2]. by destruct H2 as (W2 & _).
Qed.

Lemma demo_tree_wf : tree_wf demo_tree.
Proof.
  unfold demo_tree.
  pose proof (commit_url_spec "a" (demo_path [1; 2; 3] 7) 10 (newTree 100) (newTree_wf 100) ltac:(done)) as H1.
  destruct (commit_url "a" _ 10 _) as [h1 t1]. destruct H1 as (W1 & _).
  pose proof (commit_url_spec "b" (demo_path [1; 2; 5] 7) 20 t1 W1 ltac:(done)) as H2.
  destruct (commit_url "b" _ 20 _) as [h2 t2]. by destruct H2 as (W2 & _).
Qed.

Lemma elements_range : ranges elements.
Proof. by intros X. Qed.

(** * Properties *)

(** committing a path for a slot makes exactly its non-empty prefixes, under its model,
    held by that slot on top of what was held before; the shard's invariant survives; and
    the returned hit is the number of leading blocks the slot held before. *)
Theorem commit_refines (p : AffinityTree.path) (slot now : Z) (s : shard) :
  shard_wf s → 0 ≤ slot →
  let '(hit, s') := commit p slot now s in
  shard_wf s' ∧
  (∀ k q b, holds s' k q b =
     holds s k q b || (bool_decide (k = modelKey p ∧ q ≠ [] ∧ q `prefix_of` path_hashes p) && (b =? slot))) ∧
  (∀ k q, recorded s' k q =
     recorded s k q || bool_decide (k = modelKey p ∧ q ≠ [] ∧ q `prefix_of` path_hashes p)) ∧
  hit = Z.of_nat (lead (λ q, holds s (modelKey p) q slot) [] (path_hashes p)).
Proof. apply commit_view. Qed.

Lemma commit_refines_witness :
  (commit (demo_path [1; 2; 5; 6] 7) 0 30 demo_shard).1 = 2 ∧
  holds (commit (demo_path [1; 2; 5; 6] 7) 0 30 demo_shard).2 7 [1; 2; 5] 0 = true.
Proof.
  pose proof (commit_refines (demo_path [1; 2; 5; 6] 7) 0 30 demo_shard demo_shard_wf ltac:(lia)) as H.
  destruct (commit _ 0 30 demo_shard) as [hit s']. destruct H as (_ & Hh & _ & Hhit). cbn [fst snd]. split.
  - rewrite Hhit. vm_compute. reflexivity.
  - rewrite Hh. vm_compute. reflexivity.
Defined.

(** a walk reports, on the abstract view alone, how many leading blocks of the path are
    recorded, how many some backend holds and exactly who, how many a candidate holds and
    exactly who shares that anchor, and whether the candidate anchor is the deepest one. *)
Theorem walk_refines (s : shard) (p : AffinityTree.path) (cands : markSet) :
  shard_wf s → wf_marks cands → walk_ok s (modelKey p) (path_hashes p) cands (walk s p cands).
Proof. apply walk_view. Qed.

Lemma walk_refines_witness :
  let a := walk demo_shard (demo_path [1; 2; 3; 9] 7) (Add no_marks 1) in
  anchorBlocks a = 2 ∧ heldBlocks a = 3 ∧ Has (pool a) 0 = true ∧
  (∃ b, holds demo_shard 7 [1; 2; 3] b = true).
Proof.
  pose proof (walk_refines demo_shard (demo_path [1; 2; 3; 9] 7) (Add no_marks 1) demo_shard_wf
    (Add_wf _ 1 no_marks_wf)) as [_ _ Hheld _ _ Hpool _].
  split_and!.
  - vm_compute. reflexivity.
  - vm_compute. reflexivity.
  - rewrite Hpool. vm_compute. reflexivity.
  - apply (Hheld 3%nat); [cbn; lia|]. vm_compute. discriminate.
Defined.

(** [heldTokens] gives every slot the tokens of the longest prefix of the path it
    holds, independently of how the forest is compressed. *)
Theorem heldTokens_refines s p sl :
  shard_wf s →
  heldTokens s p sl =
  (λ b, sum_tokens (take (lead (λ q, holds s (modelKey p) q b) [] (path_hashes p)) (units p))) <$> sl.
Proof. apply heldTokens_view. Qed.

Lemma heldTokens_refines_witness : heldTokens demo_shard (demo_path [1; 2; 3] 7) [0; 1; 4] = [30; 20; 0].
Proof. rewrite heldTokens_refines by exact demo_shard_wf. vm_compute. reflexivity. Defined.

(** dropping a backend removes it and nothing else from the view, releases its slot, and
    leaves no run in the forest that no backend holds. *)
Theorem dropBackend_forgets order url t :
  ranges order → tree_wf t →
  let t' := dropBackend order url t in
  tree_wf t' ∧ slots t' !! url = None ∧
  (∀ u k q, view t' u k q = view t u k q && bool_decide (u ≠ url)) ∧
  (∀ b, slots t !! url = Some b → b ∈ free t' ∧ ∀ k q, recorded (shard_at t' (shard_of k q)) k q = true →
     ∃ c, tree_holds t' k q c = true).
Proof. apply dropBackend_spec. Qed.

Lemma dropBackend_forgets_witness :
  view demo_tree "a" 7 [1; 2] = true ∧ view (dropBackend elements "a" demo_tree) "a" 7 [1; 2] = false ∧
  view (dropBackend elements "a" demo_tree) "b" 7 [1; 2] = true.
Proof.
  destruct (dropBackend_forgets elements "a" demo_tree elements_range demo_tree_wf) as (_ & _ & H & _).
  rewrite !H. vm_compute. auto.
Defined.

(** a sweep never invents an entry, never removes one whose run was used within the
    time to live, and reports exactly the blocks it removed. *)
Theorem sweep_safe order now t :
  ranges order → tree_wf t →
  let '(freed, t') := sweep order now t in
  tree_wf t' ∧
  (∀ u k q, view t' u k q = true → view t u k q = true) ∧
  (∀ u k q used, view t u k q = true → used_at t k q = Some used → now - used ≤ ttl t → view t' u k q = true) ∧
  freed = tree_blocks t - tree_blocks t'.
Proof. apply sweep_spec. Qed.

Lemma sweep_safe_witness :
  (sweep elements 115 demo_tree).1 = 1 ∧ view (sweep elements 115 demo_tree).2 "b" 7 [1; 2; 5] = true.
Proof.
  pose proof (sweep_safe elements 115 demo_tree elements_range demo_tree_wf) as H.
  assert ((sweep elements 115 demo_tree).1 = 1) as H1 by (vm_compute; reflexivity).
  destruct (sweep elements 115 demo_tree) as [freed t']. destruct H as (_ & _ & Hk & _). split; [exact H1|].
  apply (Hk _ _ _ 20); [vm_compute; reflexivity|vm_compute; reflexivity|vm_compute; discriminate].
Defined.


Definition demo_ops : list op :=
  [OpCommit "c" (demo_path [1; 2; 3; 4] 7) 40; OpDrop "a"; OpCommit "b" (demo_path [1; 2; 5] 7) 20;
   OpCommit "a" (demo_path [1; 2; 3] 7) 10].


(** [stats] counts what the forest holds: its totals are the sums over the live runs of
    each shard, and [Tails] counts the childless ones. *)
Theorem stats_exact t :
  tree_wf t →
  Runs (stats t) = foldr Z.add 0 ((λ s, msum w_run (store s)) <$> shards t) ∧
  Blocks (stats t) = foldr Z.add 0 ((λ s, msum w_blocks (store s)) <$> shards t) ∧
  Forall (λ s, copies s = msum w_copies (store s) ∧ ∀ l, l ∈ tails s ↔ childless (store s) l) (shards t).
Proof.
  intros Hwf. pose proof (tw_shards t Hwf) as Hall. unfold stats. cbn. clear Hwf.
  induction Hall as [|s ss Hs Hss (IH1 & IH2 & IH3)]; [done|]. csimpl. rewrite IH1, IH2.
  split_and!; [by rewrite (sw_runs s Hs)|by rewrite (sw_blocks s Hs)|].
  constructor; [|done]. split; [apply (sw_copies s Hs)|apply (sw_tails s Hs)].
Qed.

Lemma stats_exact_witness : Runs (stats demo_tree) = 3 ∧ Blocks (stats demo_tree) = 4.
Proof.
  destruct (stats_exact demo_tree demo_tree_wf) as (-> & -> & _). vm_compute. auto.
Defined.

(** A request that takes its slot, then loses its backend, then commits. *)
Definition straddle : tree :=
  let '(b, t) := slotOrCreate "gone" (newTree 100) in
  (tree_commit (demo_path [1; 2; 3] 7) b 10 (dropBackend elements "gone" t)).2.

(** two steps of one backend's request can straddle its removal: a commit with a slot
    taken before the drop marks a slot that is already free, and the next backend to be
    given that slot appears to hold a prefix it never served. *)
Theorem freed_slot_inherits :
  view (slotOrCreate "new" straddle).2 "new" 7 [1; 2; 3] = true ∧ ¬ tree_wf straddle.
Proof.
  assert (view (slotOrCreate "new" straddle).2 "new" 7 [1; 2; 3] = true) as Hv by (vm_compute; reflexivity).
  split; [done|]. intros Hwf. pose proof (slotOrCreate_spec "new" straddle Hwf) as H.
  destruct (slotOrCreate "new" straddle) as [b t]. destruct H as (_ & _ & _ & _ & _ & H). cbn [snd] in Hv.
  rewrite H in Hv. vm_compute in Hv. discriminate.
Qed.
