(* ===== verification/Circuit.v ===== *)
(** * Circuit: the per-backend circuit breaker

    [src/router/internal/circuit/circuit.go].  Time is a count of nanoseconds since the
    epoch, which is how [time.Time] compares and how [Unix] rounds it.  The mutex makes
    [State], the first half of [Allow] and the body of [Record] atomic; the probe semaphore
    is a separate atomic counter, so [Allow] and [Record] are also given as the two steps
    other goroutines can come between. *)

From stdpp Require Import base sets list strings relations.
From Stdlib Require Import ZArith Lia.
From S2P Require Import Prelude.
Open Scope Z_scope.
Open Scope wekai_scope.

(** ** Data *)

Inductive State := Closed | Open | HalfOpen.
Inductive Outcome := Success | Failure | Ignored.

#[export] Instance State_eq_dec : EqDecision State.
Proof. solve_decision. Defined.
#[export] Instance Outcome_eq_dec : EqDecision Outcome.
Proof. solve_decision. Defined.

Definition State_String (s : State) : string :=
  match s with Closed => "closed" | Open => "open" | HalfOpen => "half_open" end.

(** [err] is whether the attempt ended in a transport error. *)
Definition Classify (status : Z) (err : bool) : Outcome :=
  if err then Failure
  else if status =? 429 then Ignored
  else if (status =? 408) || (status =? 425) then Failure
  else if 500 <=? status then Failure
  else Success.

Definition second : Z := 1000000000.

Record Config := MkConfig {
  Window : Z;
  Buckets : Z;
  MinRequests : Z;
  FailureRate : float64;
  OpenFor : Z;
  HalfOpenMax : Z;
  HalfOpenSuccesses : Z;
}.

Definition DefaultConfig : Config :=
  MkConfig (30 * second) 30 20 (f64_div (f64_of_Z 1) (f64_of_Z 2)) (30 * second) 1 2.

Record bucket := Bucket { startSec : Z; ok : Z; fail : Z }.
Definition zero_bucket : bucket := Bucket 0 0 0.
#[export] Instance bucket_inhabited : Inhabited bucket := populate zero_bucket.

(** A call of [TransitionFunc]: the states and the window's counts. *)
Record transition := Transition { tr_from : State; tr_to : State; tr_ok : Z; tr_fail : Z }.

Record Breaker := MkBreaker {
  cfg : Config;
  ring : list bucket;
  state : State;
  openedAt : Z;
  halfOpenOK : Z;
  halfOpenTokens : Z;
  onTransition : bool;
  notified : list transition;
}.

Definition New (c : Config) : Breaker :=
  let c := if Buckets c <=? 0 then MkConfig (Window c) 1 (MinRequests c) (FailureRate c) (OpenFor c) (HalfOpenMax c) (HalfOpenSuccesses c) else c in
  let c := if HalfOpenMax c <? 1 then MkConfig (Window c) (Buckets c) (MinRequests c) (FailureRate c) (OpenFor c) 1 (HalfOpenSuccesses c) else c in
  let c := if HalfOpenSuccesses c <? 1 then MkConfig (Window c) (Buckets c) (MinRequests c) (FailureRate c) (OpenFor c) (HalfOpenMax c) 1 else c in
  MkBreaker c (replicate (Z.to_nat (Buckets c)) zero_bucket) Closed 0 0 0 false [].

Definition OnTransition (b : Breaker) : Breaker :=
  MkBreaker (cfg b) (ring b) (state b) (openedAt b) (halfOpenOK b) (halfOpenTokens b) true (notified b).

(** [time.Time.Unix]: whole seconds, rounding down. *)
Definition Unix (t : Z) : Z := t / second.

(** ** The window *)

Definition ring_index (b : Breaker) (sec : Z) : nat :=
  Z.to_nat (Z.rem (Z.rem sec (Buckets (cfg b)) + Buckets (cfg b)) (Buckets (cfg b))).

Definition observe_ring (i : nat) (sec : Z) (o : Outcome) (r : list bucket) : list bucket :=
  let bk := r !!! i in
  let bk := if startSec bk =? sec then bk else Bucket sec 0 0 in
  <[i := if decide (o = Failure) then Bucket (startSec bk) (ok bk) (u32 (fail bk + 1))
         else Bucket (startSec bk) (u32 (ok bk + 1)) (fail bk)]> r.

Definition observeLocked (o : Outcome) (now : Z) (b : Breaker) : Breaker :=
  MkBreaker (cfg b) (observe_ring (ring_index b (Unix now)) (Unix now) o (ring b)) (state b) (openedAt b)
    (halfOpenOK b) (halfOpenTokens b) (onTransition b) (notified b).

Definition sum_ring (cutoff : Z) (r : list bucket) : Z * Z :=
  foldl (λ '(o, f) bk, if startSec bk <=? cutoff then (o, f) else (o + ok bk, f + fail bk)) (0, 0) r.

Definition sumLocked (b : Breaker) (now : Z) : Z * Z := sum_ring (Unix (now - Window (cfg b))) (ring b).

(** ** Transitions *)

Definition transitionLocked (to : State) (now : Z) (b : Breaker) : Breaker :=
  if decide (state b = to) then b
  else
    let from := state b in
    let b := match to with
             | Open => MkBreaker (cfg b) (ring b) to now (halfOpenOK b) (halfOpenTokens b) (onTransition b) (notified b)
             | Closed => MkBreaker (cfg b) ((λ _, zero_bucket) <$> ring b) to (openedAt b) 0 (halfOpenTokens b) (onTransition b) (notified b)
             | HalfOpen => MkBreaker (cfg b) (ring b) to (openedAt b) 0 (halfOpenTokens b) (onTransition b) (notified b)
             end in
    if onTransition b
    then let '(o, f) := sumLocked b now in
         MkBreaker (cfg b) (ring b) (state b) (openedAt b) (halfOpenOK b) (halfOpenTokens b) (onTransition b)
           (notified b ++ [Transition from to o f])
    else b.

(** [!now.Before(openedAt.Add(OpenFor))]. *)
Definition open_elapsed (now : Z) (b : Breaker) : bool := openedAt b + OpenFor (cfg b) <=? now.

Definition State_ (now : Z) (b : Breaker) : State :=
  if bool_decide (state b = Open) && open_elapsed now b then HalfOpen else state b.

(** The locked half of [Allow]: the state the admission is decided on. *)
Definition allow_check (now : Z) (b : Breaker) : State * Breaker :=
  let b := if bool_decide (state b = Open) && open_elapsed now b then transitionLocked HalfOpen now b else b in
  (state b, b).

Definition set_tokens (n : Z) (b : Breaker) : Breaker :=
  MkBreaker (cfg b) (ring b) (state b) (openedAt b) (halfOpenOK b) n (onTransition b) (notified b).

(** The semaphore: the loop retries its compare-and-swap until it is the one to move the
    counter, which is this step taken atomically. *)
Definition acquire_token (b : Breaker) : (bool * bool) * Breaker :=
  if HalfOpenMax (cfg b) <=? halfOpenTokens b then ((false, false), b)
  else ((true, true), set_tokens (i32 (halfOpenTokens b + 1)) b).

Definition allow_admit (st : State) (b : Breaker) : (bool * bool) * Breaker :=
  match st with
  | Closed => ((true, false), b)
  | Open => ((false, false), b)
  | HalfOpen => acquire_token b
  end.

Definition Allow (now : Z) (b : Breaker) : (bool * bool) * Breaker :=
  let '(st, b) := allow_check now b in allow_admit st b.

(** The locked body of [Record]. *)
Definition record_locked (o : Outcome) (now : Z) (b : Breaker) : Breaker :=
  if decide (state b = HalfOpen) then
    if decide (o = Failure) then
      let b := MkBreaker (cfg b) (ring b) (state b) (openedAt b) 0 (halfOpenTokens b) (onTransition b) (notified b) in
      transitionLocked Open now b
    else
      let b := MkBreaker (cfg b) (ring b) (state b) (openedAt b) (i32 (halfOpenOK b + 1)) (halfOpenTokens b) (onTransition b) (notified b) in
      if HalfOpenSuccesses (cfg b) <=? halfOpenOK b then transitionLocked Closed now b else b
  else
    let b := observeLocked o now b in
    if decide (state b = Closed) then
      let '(o, f) := sumLocked b now in
      let total := o + f in
      if (MinRequests (cfg b) <=? total) && (f64_div (f64_of_Z f) (f64_of_Z total) >=.? FailureRate (cfg b))
      then transitionLocked Open now b else b
    else b.

Definition release_token (b : Breaker) : Breaker := set_tokens (i32 (halfOpenTokens b - 1)) b.

Definition Record_ (o : Outcome) (token : bool) (now : Z) (b : Breaker) : Breaker :=
  let b := if decide (o = Ignored) then b else record_locked o now b in
  if token then release_token b else b.

(** ** Frames *)

Lemma transition_cfg to now b : cfg (transitionLocked to now b) = cfg b.
Proof. intros. unfold transitionLocked. repeat case_match; done. Qed.
Lemma transition_tokens to now b : halfOpenTokens (transitionLocked to now b) = halfOpenTokens b.
Proof. intros. unfold transitionLocked. repeat case_match; done. Qed.
Lemma transition_state to now b : state (transitionLocked to now b) = to.
Proof. intros. unfold transitionLocked. repeat case_match; done. Qed.
Lemma transition_opened now b : state b ≠ Open → openedAt (transitionLocked Open now b) = now.
Proof. intros. unfold transitionLocked. rewrite decide_False by done. repeat case_match; done. Qed.
Lemma transition_ring to now b : to ≠ Closed → ring (transitionLocked to now b) = ring b.
Proof. intros. unfold transitionLocked. repeat case_match; done. Qed.
Lemma transition_closed_ring now b : state b ≠ Closed → ring (transitionLocked Closed now b) = (λ _, zero_bucket) <$> ring b.
Proof. intros. unfold transitionLocked. rewrite decide_False by done. repeat case_match; done. Qed.
#[export] Hint Rewrite transition_cfg transition_tokens transition_state : wekai.

Lemma record_locked_cfg o now b : cfg (record_locked o now b) = cfg b ∧ halfOpenTokens (record_locked o now b) = halfOpenTokens b.
Proof.
  unfold record_locked. repeat case_decide; repeat case_match; try done; autorewrite with wekai; done.
Qed.

(** ** The sliding window, against a log of what was observed *)

Definition entry : Type := Z * Outcome.
Definition is_fail (e : entry) : bool := bool_decide (e.2 = Failure).
Definition tally (P : entry → bool) (lg : list entry) : Z := Z.of_nat (length (filter (λ e, P e = true) lg)).

Lemma tally_cons P e lg : tally P (e :: lg) = (if P e then 1 else 0) + tally P lg.
Proof.
  unfold tally. rewrite filter_cons.
  destruct (P e); [rewrite decide_True by done|rewrite decide_False by done]; cbn [length]; lia.
Qed.

Lemma tally_nil P : tally P [] = 0.
Proof. done. Qed.

Lemma tally_nonneg P lg : 0 ≤ tally P lg ≤ Z.of_nat (length lg).
Proof. unfold tally. pose proof (length_filter (λ e, P e = true) lg). lia. Qed.

Lemma tally_ext P Q lg : (∀ e, e ∈ lg → P e = Q e) → tally P lg = tally Q lg.
Proof. intros H. unfold tally. do 2 f_equal. apply filter_ext_in. intros e He. by rewrite H. Qed.

Lemma tally_0 P lg : (∀ e, e ∈ lg → P e = false) → tally P lg = 0.
Proof.
  induction lg as [|e lg IH]; intros H; [done|]. rewrite tally_cons, H by (by left).
  rewrite IH; [done|]. intros e' He'. apply H. by right.
Qed.

Lemma tally_split P Q lg : tally P lg = tally (λ e, P e && Q e) lg + tally (λ e, P e && negb (Q e)) lg.
Proof. induction lg as [|e lg IH]; [done|]. rewrite !tally_cons, IH. destruct (P e), (Q e); cbn; lia. Qed.

(** What bucket [i] of a ring of [B] holds: the tallies of one second of the log, the
    latest of its residue class. *)
Record bucket_ok (B : Z) (lg : list entry) (i : Z) (bk : bucket) : Prop := {
  bo_fail : fail bk = tally (λ e, (e.1 =? startSec bk) && is_fail e) lg;
  bo_ok : ok bk = tally (λ e, (e.1 =? startSec bk) && negb (is_fail e)) lg;
  bo_latest e : e ∈ lg → e.1 mod B = i → e.1 ≤ startSec bk;
  bo_class : startSec bk = 0 ∨ startSec bk mod B = i ∧ ∃ e, e ∈ lg ∧ e.1 = startSec bk;
}.

Record ring_ok (B : Z) (lg : list entry) (r : list bucket) : Prop := {
  ro_len : Z.of_nat (length r) = B;
  ro_bucket i bk : r !! i = Some bk → bucket_ok B lg (Z.of_nat i) bk;
  ro_pos e : e ∈ lg → 0 < e.1;
  ro_small : Z.of_nat (length lg) < two32;
}.

Lemma ring_ok_zero B (r : list bucket) : 0 < B → Z.of_nat (length r) = B → ring_ok B [] ((λ _, zero_bucket) <$> r).
Proof.
  intros HB Hl. constructor; [by rewrite length_fmap| |set_solver|done].
  intros i bk Hi. rewrite list_lookup_fmap in Hi. destruct (r !! i); simplify_eq/=.
  constructor; [done|done|set_solver|by left].
Qed.

Lemma ring_index_mod b sec :
  0 < Buckets (cfg b) → 0 ≤ sec → ring_index b sec = Z.to_nat (sec mod Buckets (cfg b)).
Proof.
  intros HB Hs. unfold ring_index. rewrite (Z.rem_mod_nonneg sec) by lia.
  pose proof (Z.mod_pos_bound sec (Buckets (cfg b)) HB). rewrite Z.rem_mod_nonneg by lia.
  replace (sec mod Buckets (cfg b) + Buckets (cfg b)) with (sec mod Buckets (cfg b) + 1 * Buckets (cfg b)) by lia.
  rewrite Z.mod_add, Z.mod_mod by lia. done.
Qed.

Lemma u32_small z : 0 ≤ z < two32 → u32 z = z.
Proof. intros. unfold u32. by apply Z.mod_small. Qed.

Lemma observe_ring_ok B lg r sec o :
  0 < B → ring_ok B lg r → 0 < sec → (∀ e, e ∈ lg → e.1 ≤ sec) → Z.of_nat (length lg) + 1 < two32 →
  ring_ok B ((sec, o) :: lg) (observe_ring (Z.to_nat (sec mod B)) sec o r).
Proof.
  intros HB [Hl Hb Hp Hsm] Hs Hlast Hsmall. pose proof (Z.mod_pos_bound sec B HB) as Hm.
  assert (Z.to_nat (sec mod B) < length r)%nat as Hi by lia.
  destruct (lookup_lt_is_Some_2 r _ Hi) as [bk Hbk]. unfold observe_ring.
  rewrite (list_lookup_total_correct _ _ _ Hbk). destruct (Hb _ _ Hbk) as [Bf Bo Bl Bc].
  constructor; [by rewrite length_insert| |intros e [->|?]%elem_of_cons; auto|cbn [length]; lia].
  intros j bk' Hj. destruct (decide (j = Z.to_nat (sec mod B))) as [->|Hne].
  - rewrite list_lookup_insert_eq in Hj by done. injection Hj as <-.
    set (bk1 := if startSec bk =? sec then bk else Bucket sec 0 0).
    assert (startSec bk1 = sec ∧ fail bk1 = tally (λ e, (e.1 =? sec) && is_fail e) lg ∧
            ok bk1 = tally (λ e, (e.1 =? sec) && negb (is_fail e)) lg) as (E1 & E2 & E3).
    { unfold bk1. destruct (startSec bk =? sec) eqn:E; bool_props; [subst; auto|]. cbn.
      assert (Hnone : ∀ P, tally (λ e, (e.1 =? sec) && P e) lg = 0).
      { intros P. apply tally_0. intros e He. destruct (e.1 =? sec) eqn:Ee; [|done]. bool_props. exfalso. subst sec.
        assert (e.1 mod B = Z.of_nat (Z.to_nat (e.1 mod B))) as Hcl by lia.
        pose proof (Bl e He Hcl). destruct Bc as [H0|[_ (e' & He' & Hs')]]; [apply Hp in He; lia|].
        apply Hlast in He'. lia. }
      by rewrite !Hnone. }
    clearbody bk1. rewrite Z2Nat.id by lia.
    pose proof (tally_nonneg (λ e, (e.1 =? sec) && is_fail e) lg) as N1.
    pose proof (tally_nonneg (λ e, (e.1 =? sec) && negb (is_fail e)) lg) as N2.
    assert (Hfin : ∀ bk2, startSec bk2 = sec → fail bk2 = (if is_fail (sec, o) then 1 else 0) + fail bk1 →
      ok bk2 = (if is_fail (sec, o) then 0 else 1) + ok bk1 → bucket_ok B ((sec, o) :: lg) (sec mod B) bk2).
    { intros bk2 Hs2 Hf2 Ho2. constructor; rewrite ?Hs2.
      - rewrite tally_cons, Hf2, E2. cbn [fst]. rewrite Z.eqb_refl. done.
      - rewrite tally_cons, Ho2, E3. cbn [fst]. rewrite Z.eqb_refl. by destruct (is_fail _).
      - intros e [->|He]%elem_of_cons _; [cbn; lia|auto].
      - right. split; [done|]. exists (sec, o). split; [by left|done]. }
    unfold is_fail in Hfin. cbn [snd] in Hfin. unfold two32 in *.
    destruct (decide (o = Failure)) as [Ho|Ho]; apply Hfin; cbn; try done; rewrite ?(bool_decide_eq_true_2 _ Ho), ?(bool_decide_eq_false_2 _ Ho);
      rewrite ?u32_small by (unfold two32; lia); lia.
  - rewrite list_lookup_insert_ne in Hj by done. destruct (Hb _ _ Hj) as [Bf' Bo' Bl' Bc'].
    assert (startSec bk' ≠ sec) as Hd.
    { destruct Bc' as [->|[Hc _]]; [lia|]. intros Heq. rewrite Heq in Hc. apply Hne. lia. }
    constructor.
    + rewrite tally_cons. cbn [fst]. destruct (sec =? startSec bk') eqn:E; bool_props; [congruence|done].
    + rewrite tally_cons. cbn [fst]. destruct (sec =? startSec bk') eqn:E; bool_props; [congruence|done].
    + intros e [->|He]%elem_of_cons Hc; [cbn in *; lia|auto].
    + destruct Bc' as [?|[? (e & ? & ?)]]; [by left|right]. split; [done|]. exists e. split; [by right|done].
Qed.

(** Summing the buckets inside the window is counting the log inside the window, provided
    the ring is at least as long as the window. *)
Definition in_window (cutoff : Z) (e : entry) : bool := cutoff <? e.1.

Lemma sum_ring_shift cutoff r a b :
  foldl (λ '(o, f) bk, if startSec bk <=? cutoff then (o, f) else (o + ok bk, f + fail bk)) (a, b) r =
  (a + (sum_ring cutoff r).1, b + (sum_ring cutoff r).2).
Proof.
  unfold sum_ring. revert a b. induction r as [|bk r IH]; intros a b; cbn [foldl]; [cbn; f_equal; lia|].
  destruct (startSec bk <=? cutoff); [apply IH|].
  rewrite (IH (a + ok bk) (b + fail bk)), (IH (0 + ok bk) (0 + fail bk)). cbn [fst snd]. f_equal; lia.
Qed.

Lemma sum_ring_cons cutoff bk r :
  sum_ring cutoff (bk :: r) =
  ((if startSec bk <=? cutoff then 0 else ok bk) + (sum_ring cutoff r).1,
   (if startSec bk <=? cutoff then 0 else fail bk) + (sum_ring cutoff r).2).
Proof. unfold sum_ring at 1. cbn [foldl]. destruct (_ <=? _); rewrite sum_ring_shift; cbn; done. Qed.

(** One bucket counts its residue class. *)
Lemma bucket_window B lg i bk cutoff (P : entry → bool) c :
  0 < B → bucket_ok B lg i bk → 0 ≤ i < B →
  (∀ e, e ∈ lg → 0 < e.1 ∧ e.1 ≤ cutoff + B) →
  c = tally (λ e, (e.1 =? startSec bk) && P e) lg →
  (if startSec bk <=? cutoff then 0 else c) = tally (λ e, in_window cutoff e && P e && (e.1 mod B =? i)) lg.
Proof.
  intros HB [_ _ Hl Hc] Hi Hlog ->.
  destruct (startSec bk <=? cutoff) eqn:E; bool_props.
  - symmetry. apply tally_0. intros e He. unfold in_window. destruct (cutoff <? e.1) eqn:E1; [|done].
    destruct (e.1 mod B =? i) eqn:E2; [|by rewrite andb_false_r]. bool_props. pose proof (Hl e He E2). lia.
  - apply tally_ext. intros e He. destruct (Hlog e He) as [Hp Hle]. unfold in_window.
    destruct (e.1 =? startSec bk) eqn:E1; bool_props.
    + rewrite E1 in *. rewrite (proj2 (Z.ltb_lt _ _) E). cbn. destruct Hc as [H0|[Hc _]]; [lia|].
      rewrite (proj2 (Z.eqb_eq _ _) Hc). by rewrite andb_true_r.
    + destruct (cutoff <? e.1) eqn:E2; [|done]. destruct (e.1 mod B =? i) eqn:E3; [|by rewrite andb_false_r].
      exfalso. bool_props. apply E1. pose proof (Hl e He E3) as Hls.
      destruct Hc as [H0|[Hc (e' & He' & Hs')]]; [lia|]. destruct (Hlog e' He') as [_ Hle'].
      pose proof (Z.div_mod e.1 B ltac:(lia)). pose proof (Z.div_mod (startSec bk) B ltac:(lia)).
      assert (startSec bk / B = e.1 / B) as Hq; [|nia]. nia.
Qed.

Lemma sum_ring_prefix B lg r cutoff (P : entry → bool) (g : bucket → Z) (n : nat) :
  0 < B → (∀ e, e ∈ lg → 0 < e.1 ∧ e.1 ≤ cutoff + B) →
  (∀ i bk, r !! i = Some bk → bucket_ok B lg (Z.of_nat (n + i)) bk ∧
    g bk = tally (λ e, (e.1 =? startSec bk) && P e) lg) →
  Z.of_nat (n + length r) ≤ B →
  foldr (λ bk acc, (if startSec bk <=? cutoff then 0 else g bk) + acc) 0 r =
  tally (λ e, in_window cutoff e && P e && (Z.of_nat n <=? e.1 mod B) && (e.1 mod B <? Z.of_nat (n + length r))) lg.
Proof.
  intros HB Hlog. revert n. induction r as [|bk r IH]; intros n Hr Hn; cbn [foldr length].
  - symmetry. apply tally_0. intros e He. destruct (_ <=? _) eqn:E1; [|by rewrite !andb_false_r].
    destruct (_ <? _) eqn:E2; [|by rewrite andb_false_r]. bool_props. lia.
  - destruct (Hr 0%nat bk eq_refl) as [Hb Hg]. rewrite Nat.add_0_r in Hb. cbn [length] in Hn.
    rewrite (bucket_window B lg (Z.of_nat n) bk cutoff P (g bk) HB Hb) by (lia || done).
    rewrite (IH (S n)); [|intros i bk' Hi; replace (S n + i)%nat with (n + S i)%nat by lia; by apply Hr|lia].
    rewrite (tally_split (λ e, in_window cutoff e && P e && (Z.of_nat n <=? e.1 mod B) && (e.1 mod B <? Z.of_nat (n + S (length r)))) (λ e, e.1 mod B =? Z.of_nat n)).
    f_equal; apply tally_ext; intros e _; destruct (in_window cutoff e && P e); try done; cbn [andb].
    all: destruct (Z.eqb_spec (e.1 mod B) (Z.of_nat n)); cbn [negb andb]; rewrite ?andb_true_r, ?andb_false_r; try done.
    + destruct (Z.leb_spec (Z.of_nat n) (e.1 mod B)), (Z.ltb_spec (e.1 mod B) (Z.of_nat (n + S (length r)))); done || lia.
    + destruct (Z.leb_spec (Z.of_nat (S n)) (e.1 mod B)); cbn; [|lia]. lia.
    + destruct (Z.leb_spec (Z.of_nat (S n)) (e.1 mod B)), (Z.leb_spec (Z.of_nat n) (e.1 mod B)); cbn; try lia; try done.
      f_equal. lia.
Qed.

Lemma sum_ring_foldr cutoff r :
  sum_ring cutoff r = (foldr (λ bk acc, (if startSec bk <=? cutoff then 0 else ok bk) + acc) 0 r,
                       foldr (λ bk acc, (if startSec bk <=? cutoff then 0 else fail bk) + acc) 0 r).
Proof. induction r as [|bk r IH]; [done|]. rewrite sum_ring_cons, IH. done. Qed.

Lemma sum_ring_exact B lg r cutoff :
  0 < B → ring_ok B lg r → (∀ e, e ∈ lg → e.1 ≤ cutoff + B) →
  sum_ring cutoff r = (tally (λ e, in_window cutoff e && negb (is_fail e)) lg,
                       tally (λ e, in_window cutoff e && is_fail e) lg).
Proof.
  intros HB [Hl Hb Hp _] Hlog. rewrite sum_ring_foldr.
  assert (Hlog' : ∀ e, e ∈ lg → 0 < e.1 ∧ e.1 ≤ cutoff + B) by auto.
  assert (H : ∀ g P, (∀ bk i, bucket_ok B lg i bk → g bk = tally (λ e, (e.1 =? startSec bk) && P e) lg) →
    foldr (λ bk acc, (if startSec bk <=? cutoff then 0 else g bk) + acc) 0 r =
    tally (λ e, in_window cutoff e && P e) lg).
  { intros g P Hg. rewrite (sum_ring_prefix B lg r cutoff P g 0 HB Hlog'); [| |lia].
    - apply tally_ext. intros e _. pose proof (Z.mod_pos_bound e.1 B HB).
      rewrite (proj2 (Z.leb_le _ _)), (proj2 (Z.ltb_lt _ _)) by lia. by rewrite !andb_true_r.
    - intros i bk Hi. split; [by apply Hb|]. eapply Hg. by apply Hb. }
  f_equal; apply H; intros bk i [? ? ? ?]; done.
Qed.

(** ** Runs of one breaker, with the log they leave *)

Inductive event :=
  | EvAllow (now : Z)
  | EvRecord (o : Outcome) (token : bool) (now : Z).

Definition ev_time (e : event) : Z := match e with EvAllow t => t | EvRecord _ _ t => t end.
Definition run_event (e : event) (b : Breaker) : Breaker :=
  match e with EvAllow t => (Allow t b).2 | EvRecord o tok t => Record_ o tok t b end.

(** The observations since the breaker last closed. *)
Definition log_event (e : event) (b : Breaker) (lg : list entry) : list entry :=
  match e with
  | EvAllow _ => lg
  | EvRecord o _ t =>
      if bool_decide (o = Ignored) then lg
      else if bool_decide (state b = HalfOpen)
           then if bool_decide (state (run_event e b) = Closed) then [] else lg
           else (Unix t, o) :: lg
  end.

Fixpoint run_events (es : list event) (b : Breaker) (lg : list entry) : Breaker * list entry :=
  match es with
  | [] => (b, lg)
  | e :: es => run_events es (run_event e b) (log_event e b lg)
  end.

(** Times do not go back, and start after the first second of the epoch. *)
Fixpoint timed (last : Z) (es : list event) : Prop :=
  match es with
  | [] => True
  | e :: es => second ≤ ev_time e ∧ last ≤ ev_time e ∧ timed (ev_time e) es
  end.

Definition last_time (last : Z) (es : list event) : Z := foldl (λ _ e, ev_time e) last es.

Lemma Unix_mono a b : a ≤ b → Unix a ≤ Unix b.
Proof. intros. unfold Unix, second. apply Z.div_le_mono; lia. Qed.
Lemma Unix_pos a : second ≤ a → 0 < Unix a.
Proof. intros. unfold Unix, second in *. apply Z.div_str_pos. lia. Qed.

Lemma allow_frame now b : ring (Allow now b).2 = ring b ∧ cfg (Allow now b).2 = cfg b.
Proof.
  unfold Allow, allow_check. assert (Ha : ∀ st b, ring (allow_admit st b).2 = ring b ∧ cfg (allow_admit st b).2 = cfg b).
  { intros [] b0; [done..|]. unfold allow_admit, acquire_token. by destruct (_ <=? _). }
  destruct (_ && _); cbn; [|apply Ha]. destruct (Ha (state (transitionLocked HalfOpen now b)) (transitionLocked HalfOpen now b)) as [-> ->].
  by rewrite transition_ring, transition_cfg.
Qed.

Lemma record_frame o tok now b : cfg (Record_ o tok now b) = cfg b ∧
  ring (Record_ o tok now b) = (if decide (o = Ignored) then ring b else ring (record_locked o now b)) ∧
  state (Record_ o tok now b) = (if decide (o = Ignored) then state b else state (record_locked o now b)).
Proof.
  unfold Record_. destruct (record_locked_cfg o now b) as [Hc _].
  destruct (decide (o = Ignored)), tok; cbn; done.
Qed.

(** What one event does to the ring. *)
Lemma run_event_ring e b lg :
  0 < Buckets (cfg b) → second ≤ ev_time e →
  ring_ok (Buckets (cfg b)) lg (ring b) → (∀ x, x ∈ lg → x.1 ≤ Unix (ev_time e)) → Z.of_nat (length lg) + 1 < two32 →
  cfg (run_event e b) = cfg b ∧ ring_ok (Buckets (cfg b)) (log_event e b lg) (ring (run_event e b)) ∧
  (∀ x, x ∈ log_event e b lg → x.1 ≤ Unix (ev_time e)) ∧ (length (log_event e b lg) ≤ S (length lg))%nat.
Proof.
  intros HB Ht Hr Hlast Hsm. destruct e as [t|o tok t]; cbn [run_event log_event ev_time] in *.
  { destruct (allow_frame t b) as [-> ->]. split_and!; [done..|lia]. }
  destruct (record_frame o tok t b) as (-> & -> & ->). split; [done|].
  destruct (decide (o = Ignored)) as [Ho|Ho]; [rewrite bool_decide_eq_true_2 by done; split_and!; [done..|lia]|].
  rewrite (bool_decide_eq_false_2 (o = Ignored)) by done. unfold record_locked.
  destruct (decide (state b = HalfOpen)) as [Hh|Hh].
  - rewrite (bool_decide_eq_true_2 (state b = HalfOpen)) by done.
    destruct (decide (o = Failure)).
    { rewrite transition_ring, transition_state by done. rewrite bool_decide_eq_false_2 by done. cbn. split_and!; [done..|lia]. }
    destruct (_ <=? _).
    + rewrite transition_closed_ring, transition_state by (cbn; congruence). rewrite bool_decide_eq_true_2 by done.
      cbn. split_and!; [apply ring_ok_zero; [done|apply Hr]|set_solver|lia].
    + cbn. rewrite Hh, bool_decide_eq_false_2 by done. split_and!; [done..|lia].
  - rewrite (bool_decide_eq_false_2 (state b = HalfOpen)) by done.
    assert (ring_ok (Buckets (cfg b)) ((Unix t, o) :: lg) (ring (observeLocked o t b))) as Hob.
    { unfold observeLocked. cbn [ring]. pose proof (Unix_pos t Ht). rewrite ring_index_mod by lia.
      apply observe_ring_ok; done. }
    split_and!; [|intros x [->|?]%elem_of_cons; [done|auto]|cbn; lia].
    case_decide; [|done]. destruct (sumLocked _ _) as [ko kf]. destruct (_ && _); [|done]. by rewrite transition_ring.
Qed.

Lemma run_events_ring es b lg last :
  0 < Buckets (cfg b) → ring_ok (Buckets (cfg b)) lg (ring b) → (∀ x, x ∈ lg → x.1 ≤ Unix last) →
  timed last es → Z.of_nat (length lg + length es) < two32 →
  let '(b', lg') := run_events es b lg in
  cfg b' = cfg b ∧ ring_ok (Buckets (cfg b)) lg' (ring b') ∧ (∀ x, x ∈ lg' → x.1 ≤ Unix (last_time last es)).
Proof.
  revert b lg last. induction es as [|e es IH]; intros b lg last HB Hr Hlast Ht Hsm; cbn; [done|].
  destruct Ht as (Ht1 & Ht2 & Ht3). cbn [length] in Hsm.
  destruct (run_event_ring e b lg HB Ht1 Hr) as (Hc & Hr' & Hl' & Hn).
  { intros x Hx. etrans; [by apply Hlast|]. by apply Unix_mono. }
  { lia. }
  specialize (IH (run_event e b) (log_event e b lg) (ev_time e)). rewrite Hc in IH.
  destruct (run_events es _ _) as [b' lg']. apply IH; [done..|lia].
Qed.

Lemma New_cfg c : 0 < Buckets (cfg (New c)) ∧ 1 ≤ HalfOpenMax (cfg (New c)) ∧ 1 ≤ HalfOpenSuccesses (cfg (New c)) ∧
  Window (cfg (New c)) = Window c ∧ OpenFor (cfg (New c)) = OpenFor c ∧ FailureRate (cfg (New c)) = FailureRate c ∧
  MinRequests (cfg (New c)) = MinRequests c ∧ ring (New c) = replicate (Z.to_nat (Buckets (cfg (New c)))) zero_bucket.
Proof.
  unfold New. destruct (Z.leb_spec (Buckets c) 0); cbn; destruct (Z.ltb_spec (HalfOpenMax c) 1); cbn;
    destruct (Z.ltb_spec (HalfOpenSuccesses c) 1); cbn; split_and!; try done; lia.
Qed.

(** The window's cutoff, in seconds, and the log inside it. *)
Definition cutoff (b : Breaker) (now : Z) : Z := Unix (now - Window (cfg b)).
Definition window_ok (b : Breaker) (now : Z) (lg : list entry) : Z :=
  tally (λ e, in_window (cutoff b now) e && negb (is_fail e)) lg.
Definition window_fail (b : Breaker) (now : Z) (lg : list entry) : Z :=
  tally (λ e, in_window (cutoff b now) e && is_fail e) lg.

Lemma cutoff_bound b now : Window (cfg b) ≤ Buckets (cfg b) * second → Unix now ≤ cutoff b now + Buckets (cfg b).
Proof.
  intros Hw. unfold cutoff, Unix.
  replace (now / second) with ((now - Buckets (cfg b) * second + Buckets (cfg b) * second) / second) by (f_equal; lia).
  rewrite Z.div_add by (unfold second; lia). apply Z.add_le_mono_r, Z.div_le_mono; unfold second in *; lia.
Qed.

Lemma run_New_ring c es last :
  timed last es → Z.of_nat (length es) < two32 →
  let '(b, lg) := run_events es (New c) [] in
  cfg b = cfg (New c) ∧ ring_ok (Buckets (cfg b)) lg (ring b) ∧ (∀ x, x ∈ lg → x.1 ≤ Unix (last_time last es)).
Proof.
  intros Ht Hsm. destruct (New_cfg c) as (HB & _ & _ & _ & _ & _ & _ & Hring).
  pose proof (run_events_ring es (New c) [] last HB) as H.
  destruct (run_events es (New c) []) as [b lg]. destruct H as (Hc & Hr & Hl).
  - rewrite Hring. replace (replicate _ zero_bucket) with ((λ _ : bucket, zero_bucket) <$> replicate (Z.to_nat (Buckets (cfg (New c)))) zero_bucket).
    + apply ring_ok_zero; [done|]. rewrite length_replicate. lia.
    + by rewrite fmap_replicate.
  - set_solver.
  - done.
  - cbn. lia.
  - by rewrite Hc.
Qed.

(** ** The probe semaphore, under interleaving

    A request is between its two halves of [Allow], in flight, or about to return its
    token; the other requests are beside it in the list. *)
Inductive phase := Checked (st : State) | InFlight (token : bool) | Returning.

Definition has_token (p : phase) : bool := match p with InFlight true | Returning => true | _ => false end.
Definition tokens_out (ps : list phase) : Z := Z.of_nat (length (filter (λ p, has_token p = true) ps)).

Inductive breaker_step : Breaker * list phase → Breaker * list phase → Prop :=
  | bs_check b now ps :
      breaker_step (b, ps) ((allow_check now b).2, Checked (allow_check now b).1 :: ps)
  | bs_admit b st ps1 ps2 permitted token b' :
      allow_admit st b = ((permitted, token), b') →
      breaker_step (b, ps1 ++ Checked st :: ps2)
                   (b', ps1 ++ (if permitted then [InFlight token] else []) ++ ps2)
  | bs_record b o token now ps1 ps2 :
      breaker_step (b, ps1 ++ InFlight token :: ps2)
                   (if decide (o = Ignored) then b else record_locked o now b,
                    ps1 ++ (if token then [Returning] else []) ++ ps2)
  | bs_return b ps1 ps2 :
      breaker_step (b, ps1 ++ Returning :: ps2) (release_token b, ps1 ++ ps2).

Definition tokens_inv (c : Config) (s : Breaker * list phase) : Prop :=
  cfg s.1 = c ∧ halfOpenTokens s.1 = tokens_out s.2 ∧ 0 ≤ halfOpenTokens s.1 ≤ HalfOpenMax c.

Lemma tokens_out_app ps1 ps2 : tokens_out (ps1 ++ ps2) = tokens_out ps1 + tokens_out ps2.
Proof. unfold tokens_out. rewrite filter_app, length_app. lia. Qed.
Lemma tokens_out_cons p ps : tokens_out (p :: ps) = (if has_token p then 1 else 0) + tokens_out ps.
Proof.
  unfold tokens_out. rewrite filter_cons. destruct (has_token p); [rewrite decide_True by done|rewrite decide_False by done]; cbn [length]; lia.
Qed.
Lemma tokens_out_nil : tokens_out [] = 0.
Proof. done. Qed.
Lemma tokens_out_nonneg ps : 0 ≤ tokens_out ps.
Proof. unfold tokens_out. lia. Qed.

Lemma check_frame now b : cfg (allow_check now b).2 = cfg b ∧ halfOpenTokens (allow_check now b).2 = halfOpenTokens b.
Proof. unfold allow_check. destruct (_ && _); cbn; autorewrite with wekai; done. Qed.

Lemma step_tokens c s s' : 1 ≤ HalfOpenMax c < two31 → breaker_step s s' → tokens_inv c s → tokens_inv c s'.
Proof.
  intros Hmax Hst. destruct Hst as [b now ps|b st ps1 ps2 permitted token b' E|b o token now ps1 ps2|b ps1 ps2]; unfold tokens_inv; cbn [fst snd].
  - destruct (check_frame now b) as [-> ->]. by rewrite tokens_out_cons.
  - intros (Hc & Ht & Hr).
    rewrite !tokens_out_app, tokens_out_cons in Ht. cbn in Ht. cbn [fst snd].
    assert (cfg b' = cfg b ∧ halfOpenTokens b' = halfOpenTokens b + (if token then 1 else 0) ∧
      (token = true → permitted = true) ∧ halfOpenTokens b' ≤ HalfOpenMax c) as (Hc' & Ht' & Hpt & Hle).
    { destruct st; cbn in E; [injection E as <- <- <-; split_and!; [done|lia|done|lia]..|].
      unfold acquire_token in E. rewrite Hc in E. destruct (Z.leb_spec (HalfOpenMax c) (halfOpenTokens b));
        injection E as <- <- <-; [split_and!; [done|lia|done|lia]|]. cbn. rewrite i32_id by (unfold two31 in *; lia).
      split_and!; [done|lia|done|lia]. }
    rewrite Hc', !tokens_out_app. split_and!; [done| |destruct token; lia|done].
    destruct permitted, token; try (specialize (Hpt eq_refl); done);
      rewrite ?tokens_out_cons, ?tokens_out_nil; cbn; lia.
  - intros (Hc & Ht & Hr). rewrite tokens_out_app, tokens_out_cons in Ht.
    assert (cfg (if decide (o = Ignored) then b else record_locked o now b) = cfg b ∧
      halfOpenTokens (if decide (o = Ignored) then b else record_locked o now b) = halfOpenTokens b) as [-> ->]
      by (case_decide; [done|apply record_locked_cfg]).
    rewrite !tokens_out_app. split_and!; [done| |lia..]. destruct token; rewrite ?tokens_out_cons, ?tokens_out_nil; cbn in *; lia.
  - intros (Hc & Ht & Hr). rewrite tokens_out_app, tokens_out_cons in Ht. cbn in Ht |- *.
    pose proof (tokens_out_nonneg ps1). pose proof (tokens_out_nonneg ps2).
    rewrite i32_id by (unfold two31 in *; lia). rewrite tokens_out_app. split_and!; [done|lia..].
Qed.

(** * Properties *)

(** after any run of the breaker whose clock does not go back, and with a ring at least
    as long as its window, the counts a decision is made on are exactly the successes and
    failures observed inside the window since the breaker last closed. *)
Theorem window_exact c es last now :
  Window c ≤ Buckets c * second → timed last es → last_time last es ≤ now → Z.of_nat (length es) < two32 →
  let '(b, lg) := run_events es (New c) [] in
  sumLocked b now = (window_ok b now lg, window_fail b now lg).
Proof.
  intros Hw Ht Hnow Hsm. pose proof (run_New_ring c es last Ht Hsm) as H.
  destruct (run_events es (New c) []) as [b lg]. destruct H as (Hc & Hr & Hl).
  destruct (New_cfg c) as (HB & _ & _ & HW & _). rewrite <-Hc in HB, HW.
  assert (Buckets c ≤ Buckets (cfg b)) as HBc.
  { rewrite Hc. unfold New. destruct (Z.leb_spec (Buckets c) 0); cbn; destruct (_ <? _); cbn; destruct (_ <? _); cbn; lia. }
  assert (Window (cfg b) ≤ Buckets (cfg b) * second) as Hw' by (rewrite HW; unfold second in *; nia).
  unfold sumLocked. apply (sum_ring_exact (Buckets (cfg b))); [done|done|].
  intros e He. etrans; [by apply Hl|]. etrans; [by apply Unix_mono|]. by apply (cutoff_bound b now).
Qed.

Definition demo_events : list event :=
  [EvRecord Failure false (100 * second); EvRecord Success false (101 * second); EvRecord Failure false (135 * second)].

Lemma window_exact_witness :
  let '(b, lg) := run_events demo_events (New DefaultConfig) [] in
  sumLocked b (136 * second) = (0, 1) ∧ window_fail b (136 * second) lg = 1 ∧ length lg = 3%nat.
Proof.
  pose proof (window_exact DefaultConfig demo_events 0 (136 * second)) as H.
  destruct (run_events demo_events (New DefaultConfig) []) as [b lg] eqn:E.
  rewrite H; [|vm_compute; congruence..|cbn; unfold second; lia|vm_compute; congruence|vm_compute; congruence].
  vm_compute in E. injection E as <- <-. vm_compute. auto.
Defined.

(** a closed breaker opens on a report exactly when, the report included, the window
    holds the minimum number of requests and the failure rate is reached; a report that is
    neither success nor failure changes nothing. *)
Theorem opens_exactly c es last o now :
  Window c ≤ Buckets c * second → timed last es → last_time last es ≤ now → second ≤ now →
  Z.of_nat (length es) + 1 < two32 →
  let '(b, lg) := run_events es (New c) [] in
  state b = Closed →
  (state (Record_ o false now b) = Open ↔
    o ≠ Ignored ∧
    let lg' := (Unix now, o) :: lg in
    let ok := window_ok b now lg' in let fail := window_fail b now lg' in
    MinRequests c ≤ ok + fail ∧ (f64_div (f64_of_Z fail) (f64_of_Z (ok + fail)) >=.? FailureRate c) = true).
Proof.
  intros Hw Ht Hnow Hsec Hsm. pose proof (run_New_ring c es last Ht ltac:(lia)) as H.
  destruct (run_events es (New c) []) as [b lg] eqn:E. destruct H as (Hc & Hr & Hl). intros Hcl.
  destruct (New_cfg c) as (HB & _ & _ & HW & _ & HF & HM & _). rewrite <-Hc in HB, HW, HF, HM.
  assert (Buckets c ≤ Buckets (cfg b)) as HBc.
  { rewrite Hc. unfold New. destruct (Z.leb_spec (Buckets c) 0); cbn; destruct (_ <? _); cbn; destruct (_ <? _); cbn; lia. }
  assert (Window (cfg b) ≤ Buckets (cfg b) * second) as Hw' by (rewrite HW; unfold second in *; nia).
  destruct (decide (o = Ignored)) as [->|Ho].
  { destruct (record_frame Ignored false now b) as (_ & _ & ->). rewrite decide_True, Hcl by done. naive_solver. }
  destruct (record_frame o false now b) as (_ & _ & ->). rewrite decide_False by done.
  unfold record_locked. rewrite (decide_False (P := state b = HalfOpen)) by congruence. cbv zeta.
  rewrite (decide_True (P := state (observeLocked o now b) = Closed)) by done.
  assert (Hlen : ∀ es b0 lg0 b1 lg1, run_events es b0 lg0 = (b1, lg1) → (length lg1 ≤ length lg0 + length es)%nat).
  { clear. induction es as [|e es IH]; intros b0 lg0 b1 lg1; cbn; [intros [= <- <-]; lia|].
    intros H%IH. assert (length (log_event e b0 lg0) ≤ S (length lg0))%nat; [|lia].
    destruct e; cbn; [lia|]. repeat case_match; cbn; lia. }
  specialize (Hlen _ _ _ _ _ E). cbn in Hlen.
  assert (ring_ok (Buckets (cfg b)) ((Unix now, o) :: lg) (ring (observeLocked o now b))) as Hob.
  { unfold observeLocked. cbn [ring]. pose proof (Unix_pos now Hsec). rewrite ring_index_mod by lia.
    apply observe_ring_ok; [done|done|done| |lia]. intros e He. etrans; [by apply Hl|]. by apply Unix_mono. }
  assert (sumLocked (observeLocked o now b) now =
    (window_ok b now ((Unix now, o) :: lg), window_fail b now ((Unix now, o) :: lg))) as ->.
  { unfold sumLocked. apply (sum_ring_exact (Buckets (cfg b))); [done|done|].
    pose proof (cutoff_bound b now Hw') as Hcb. intros e [->|He]%elem_of_cons; [done|].
    etrans; [by apply Hl|]. etrans; [by apply Unix_mono|]. done. }
  change (cfg (observeLocked o now b)) with (cfg b). rewrite HM, HF.
  destruct (_ && _) eqn:Et.
  - rewrite transition_state. bool_props. split; [|done]. intros _. done.
  - change (state (observeLocked o now b)) with (state b). rewrite Hcl. split; [done|]. intros (_ & H1 & H2). rewrite H2, andb_true_r in Et.
    apply Z.leb_gt in Et. lia.
Qed.

Definition tripping : list event := (λ n, EvRecord (if Z.even n then Failure else Success) false (100 * second)) <$> seqZ 0 19.

Lemma opens_exactly_witness :
  state (run_events tripping (New DefaultConfig) []).1 = Closed ∧
  state (Record_ Failure false (101 * second) (run_events tripping (New DefaultConfig) []).1) = Open.
Proof.
  assert (state (run_events tripping (New DefaultConfig) []).1 = Closed) as Hcl by (vm_compute; reflexivity).
  split; [exact Hcl|].
  pose proof (opens_exactly DefaultConfig tripping 0 Failure (101 * second)) as H.
  destruct (run_events tripping (New DefaultConfig) []) as [b lg] eqn:E. cbn [fst] in *.
  apply H; [vm_compute; congruence| |vm_compute; congruence|vm_compute; congruence|vm_compute; congruence|exact Hcl|].
  - vm_compute. repeat split; congruence.
  - vm_compute in E. injection E as <- <-. split; [done|]. vm_compute. split; [congruence|reflexivity].
Defined.

(** however the requests interleave, the number of half-open probes in flight is the
    semaphore's count, and it never exceeds [HalfOpenMax]. *)
Theorem probes_bounded c s :
  1 ≤ HalfOpenMax (cfg (New c)) < two31 → rtc breaker_step (New c, []) s →
  halfOpenTokens s.1 = tokens_out s.2 ∧ tokens_out s.2 ≤ HalfOpenMax (cfg (New c)).
Proof.
  intros Hmax Hr. assert (tokens_inv (cfg (New c)) s) as (_ & Ht & Hle); [|lia].
  assert (tokens_inv (cfg (New c)) (New c, [])) as H0.
  { split_and!; [done|unfold New; repeat case_match; done|..]; unfold New in *; repeat case_match; cbn in *; lia. }
  clear -Hmax Hr H0. remember (New c, []) as s0 eqn:E0. clear E0.
  induction Hr as [|s1 s2 s3 Hst Hr IH]; [done|]. apply IH. by eapply step_tokens.
Qed.

Lemma probes_bounded_witness :
  let b := MkBreaker DefaultConfig [] HalfOpen 0 0 0 false [] in
  halfOpenTokens (allow_check 0 (New DefaultConfig)).2 = tokens_out [Checked Closed].
Proof.
  apply (probes_bounded DefaultConfig ((allow_check 0 (New DefaultConfig)).2, [Checked (allow_check 0 (New DefaultConfig)).1])).
  - vm_compute. split; congruence.
  - eapply rtc_l; [|apply rtc_refl]. apply (bs_check (New DefaultConfig) 0 []).
Defined.

(** [State], which filtering reads, foretells [Allow] without changing anything: open
    means refused and the breaker left as it is, closed means admitted without a token, and
    half-open means admitted with a token exactly when one is free; and after [Allow] the
    state is the one foretold. *)
Theorem state_foretells_allow now b :
  state (Allow now b).2 = State_ now b ∧
  match State_ now b with
  | Closed => Allow now b = ((true, false), b)
  | Open => Allow now b = ((false, false), b)
  | HalfOpen => (Allow now b).1 = (let free := halfOpenTokens b <? HalfOpenMax (cfg b) in (free, free))
  end.
Proof.
  unfold State_, Allow, allow_check. destruct (bool_decide (state b = Open) && open_elapsed now b) eqn:E.
  - rewrite transition_state. unfold allow_admit, acquire_token. autorewrite with wekai.
    destruct (Z.leb_spec (HalfOpenMax (cfg b)) (halfOpenTokens b)); cbn [fst snd]; autorewrite with wekai.
    + split; [done|]. by rewrite (proj2 (Z.ltb_ge _ _)).
    + split; [unfold set_tokens; cbn; by autorewrite with wekai|]. by rewrite (proj2 (Z.ltb_lt _ _)).
  - destruct (state b) eqn:Es; cbn; rewrite ?Es; try done. unfold acquire_token.
    destruct (Z.leb_spec (HalfOpenMax (cfg b)) (halfOpenTokens b)); cbn; rewrite ?Es;
      split; try done; [by rewrite (proj2 (Z.ltb_ge _ _))|by rewrite (proj2 (Z.ltb_lt _ _))].
Qed.

(** [n] probes, each admitted and then reported a success. *)
Fixpoint probe (n : nat) (now : Z) (b : Breaker) : Breaker :=
  match n with O => b | S n => probe n now (Record_ Success (Allow now b).1.2 now (Allow now b).2) end.

(** recovery: once [OpenFor] has passed, [HalfOpenSuccesses] probes that succeed one
    after another close an open breaker whose probe slots are free, with an empty window. *)
Theorem recovers now b :
  state b = Open → openedAt b + OpenFor (cfg b) ≤ now → halfOpenTokens b = 0 →
  1 ≤ HalfOpenMax (cfg b) → 1 ≤ HalfOpenSuccesses (cfg b) < two31 →
  let b' := probe (Z.to_nat (HalfOpenSuccesses (cfg b))) now b in
  state b' = Closed ∧ halfOpenTokens b' = 0 ∧ Forall (λ bk, bk = zero_bucket) (ring b').
Proof.
  intros Ho Hel Htok Hmax Hs.
  assert (Hstep : ∀ b, (state b = HalfOpen ∨ state b = Open ∧ openedAt b + OpenFor (cfg b) ≤ now ) → halfOpenTokens b = 0 →
    1 ≤ HalfOpenMax (cfg b) → HalfOpenSuccesses (cfg b) < two31 →
    let k := if decide (state b = HalfOpen) then halfOpenOK b else 0 in 0 ≤ k < HalfOpenSuccesses (cfg b) →
    let b' := Record_ Success (Allow now b).1.2 now (Allow now b).2 in
    cfg b' = cfg b ∧ halfOpenTokens b' = 0 ∧
    (if decide (k + 1 < HalfOpenSuccesses (cfg b)) then state b' = HalfOpen ∧ halfOpenOK b' = k + 1
     else state b' = Closed ∧ Forall (λ bk, bk = zero_bucket) (ring b'))).
  { clear. intros b Hst Ht Hmax Hs31 k Hk.
    assert (∃ b1, Allow now b = ((true, true), set_tokens 1 b1) ∧ state b1 = HalfOpen ∧ cfg b1 = cfg b ∧ halfOpenOK b1 = k ∧ halfOpenTokens b1 = 0) as (b1 & HA & Hs1 & Hc1 & Hk1 & Ht1).
    { unfold Allow, allow_check. unfold k. destruct Hst as [Hst|[Hst Hel]].
      - rewrite Hst. rewrite bool_decide_eq_false_2 by done. cbn [andb]. rewrite Hst. cbn [allow_admit]. exists b.
        unfold acquire_token. rewrite Ht, (proj2 (Z.leb_gt _ _)) by lia. rewrite decide_True by done. done.
      - rewrite Hst. rewrite bool_decide_eq_true_2 by done. unfold open_elapsed. rewrite (proj2 (Z.leb_le _ _)) by done. cbn [andb].
        rewrite transition_state. cbn [allow_admit]. unfold acquire_token. autorewrite with wekai. rewrite Ht, (proj2 (Z.leb_gt _ _)) by lia.
        exists (transitionLocked HalfOpen now b). autorewrite with wekai. split_and!; try done.
        unfold transitionLocked. rewrite decide_False by congruence. repeat case_match; done. }
    rewrite HA. cbn [fst snd]. unfold Record_. rewrite decide_False by done. unfold record_locked. cbn [state set_tokens].
    rewrite decide_True, decide_False by done. cbn [halfOpenOK cfg set_tokens halfOpenTokens].
    rewrite Hk1, Hc1, i32_id by (unfold two31 in *; lia).
    destruct (Z.leb_spec (HalfOpenSuccesses (cfg b)) (k + 1)) as [Hle|Hlt].
    - rewrite decide_False by lia. unfold release_token. cbn [cfg halfOpenTokens state ring set_tokens]. autorewrite with wekai. cbn.
      rewrite transition_closed_ring by (cbn; congruence). split_and!; [done|done|done|]. cbn. by apply Forall_fmap, Forall_true.
    - rewrite decide_True by lia. cbn. done. }
  assert (Hrun : ∀ n b, (state b = HalfOpen ∨ state b = Open ∧ openedAt b + OpenFor (cfg b) ≤ now) → halfOpenTokens b = 0 →
    1 ≤ HalfOpenMax (cfg b) → HalfOpenSuccesses (cfg b) < two31 →
    let k := if decide (state b = HalfOpen) then halfOpenOK b else 0 in 0 ≤ k → k + Z.of_nat (S n) = HalfOpenSuccesses (cfg b) →
    state (probe (S n) now b) = Closed ∧ halfOpenTokens (probe (S n) now b) = 0 ∧ Forall (λ bk, bk = zero_bucket) (ring (probe (S n) now b))).
  { induction n as [|n IH]; intros b0 Hst Ht Hm Hs' k Hk0 Hk.
    - destruct (Hstep b0 Hst Ht Hm Hs') as (_ & H2 & H3); [fold k; lia|]. fold k in H3. rewrite decide_False in H3 by lia.
      destruct H3. done.
    - destruct (Hstep b0 Hst Ht Hm Hs') as (H1 & H2 & H3); [fold k; lia|]. fold k in H3. rewrite decide_True in H3 by lia.
      destruct H3 as [H3 H4]. change (probe (S (S n)) now b0) with (probe (S n) now (Record_ Success (Allow now b0).1.2 now (Allow now b0).2)).
      apply IH; rewrite ?H1; try done; [by left|..]; rewrite decide_True by done; lia. }
  destruct (Z.to_nat (HalfOpenSuccesses (cfg b))) as [|n] eqn:En; [lia|].
  apply Hrun; try done; [by right|lia|..]; rewrite decide_False by congruence; lia.
Qed.

Lemma recovers_witness :
  state (probe 2 (130 * second) (MkBreaker DefaultConfig [] Open (100 * second) 0 0 false [])) = Closed.
Proof.
  apply (recovers (130 * second) (MkBreaker DefaultConfig [] Open (100 * second) 0 0 false []));
    vm_compute; try reflexivity; try congruence. split; congruence.
Defined.

(** requests admitted before the breaker opened also count towards closing it: two of
    them, finishing while it is half-open, close it although its one probe is still out. *)
Theorem late_completions_close :
  let b0 := MkBreaker DefaultConfig (replicate 30 zero_bucket) Open (100 * second) 0 0 false [] in
  let '((permitted, token), b1) := Allow (130 * second) b0 in
  let b2 := Record_ Success false (131 * second) (Record_ Success false (131 * second) b1) in
  permitted = true ∧ token = true ∧ state b1 = HalfOpen ∧ halfOpenTokens b2 = 1 ∧ state b2 = Closed.
Proof. vm_compute. auto. Qed.
