(* ===== verification/WaitQ.v ===== *)
(** * WaitQ: the per-backend wait list

    [src/router/internal/waitq/waitq.go].  A ticket is a name; the queue's slice holds
    names, and what a ticket's own fields say is kept beside it.  [Wake] and [Leave] each
    take the lock once and do the rest after releasing it, so each is given as the locked
    step and the steps that follow, which others can come between. *)

From stdpp Require Import base gmap sets list relations.
From Stdlib Require Import ZArith Lia.
From S2P Require Import Prelude.
Open Scope Z_scope.

(** ** Data *)

Inductive ticketState := ticketQueued | ticketWoken | ticketLeft.
#[export] Instance ticketState_eq_dec : EqDecision ticketState.
Proof. solve_decision. Defined.

(** [sent] counts the sends on the ticket's channel, whose buffer holds one. *)
Record Ticket := MkTicket { tstate : ticketState; sent : nat }.

Record Queue := MkQueue {
  waiters : list positive;
  n : Z;
  tickets : gmap positive Ticket;
  next : positive;
}.

Definition zero_queue : Queue := MkQueue [] 0 ∅ 1%positive.

Definition set_waiters (ws : list positive) (q : Queue) : Queue :=
  MkQueue ws (Z.of_nat (length ws)) (tickets q) (next q).
Definition set_state (t : positive) (st : ticketState) (q : Queue) : Queue :=
  MkQueue (waiters q) (n q) (alter (λ k, MkTicket st (sent k)) t (tickets q)) (next q).

(** ** Operations *)

Definition Join (max : Z) (front : bool) (q : Queue) : option positive * Queue :=
  if negb front && (0 <? max) && (max <=? Z.of_nat (length (waiters q))) then (None, q)
  else
    let t := next q in
    let q := MkQueue (waiters q) (n q) (<[t := MkTicket ticketQueued 0]> (tickets q)) (Pos.succ t) in
    (Some t, set_waiters (if front then t :: waiters q else waiters q ++ [t]) q).

(** The locked part of [Wake], after its unlocked look at [n]: pop the head. *)
Definition wake_pop (q : Queue) : option positive * Queue :=
  if n q =? 0 then (None, q)
  else match waiters q with
       | [] => (None, q)
       | t :: ws => (Some t, set_waiters ws q)
       end.
(** The rest: store the state, send. *)
Definition wake_send (t : positive) (q : Queue) : Queue :=
  let q := set_state t ticketWoken q in
  MkQueue (waiters q) (n q) (alter (λ k, MkTicket (tstate k) (S (sent k))) t (tickets q)) (next q).
Definition Wake (q : Queue) : Queue :=
  match wake_pop q with (Some t, q) => wake_send t q | (None, q) => q end.

Definition Len (q : Queue) : Z := n q.

(** The locked part of [Leave]: was the ticket still in line? *)
Definition leave_locked (t : positive) (q : Queue) : bool * Queue :=
  match list_find (eq t) (waiters q) with
  | Some (i, _) => (true, set_waiters (delete i (waiters q)) q)
  | None => (false, q)
  end.
Definition Leave (t : positive) (q : Queue) : Queue :=
  let '(found, q) := leave_locked t q in
  let q := set_state t ticketLeft q in
  if found then q else Wake q.

(** ** The queue under interleaving

    Beside the queue: the calls of [Wake] not yet at the lock, the popped tickets not yet
    sent to, the tickets between [Leave]'s lock and its store; and, for the accounting, how
    many releases there were, how many found nobody, and who has left. *)
Record sys := Sys {
  queue : Queue;
  waking : nat;
  popped : list positive;
  leaving : list (positive * bool);
  left_ : gset positive;
  releases : nat;
  nobody : nat;
}.

Inductive sys_step : sys → sys → Prop :=
  | ss_join max front q w p l e r d :
      sys_step (Sys q w p l e r d) (Sys (Join max front q).2 w p l e r d)
  | ss_release q w p l e r d :
      sys_step (Sys q w p l e r d) (Sys q (S w) p l e (S r) d)
  | ss_pop q w p l e r d t q' : wake_pop q = (Some t, q') →
      sys_step (Sys q (S w) p l e r d) (Sys q' w (t :: p) l e r d)
  | ss_nobody q w p l e r d q' : wake_pop q = (None, q') →
      sys_step (Sys q (S w) p l e r d) (Sys q' w p l e r (S d))
  | ss_send q w p1 p2 l e r d t :
      sys_step (Sys q w (p1 ++ t :: p2) l e r d) (Sys (wake_send t q) w (p1 ++ p2) l e r d)
  (* a ticket's owner calls [Leave] at most once *)
  | ss_leave q w p l e r d t : t ∉ e → is_Some (tickets q !! t) →
      sys_step (Sys q w p l e r d)
               (Sys (leave_locked t q).2 w p ((t, (leave_locked t q).1) :: l) (e ∪ {[t]}) r d)
  | ss_left q w p l1 l2 e r d t found :
      sys_step (Sys q w p (l1 ++ (t, found) :: l2) e r d)
               (Sys (set_state t ticketLeft q) (if found then w else S w) p (l1 ++ l2) e r d).

Definition init : sys := Sys zero_queue 0 [] [] ∅ 0 0.

(** A wake was popped for the ticket: in flight, or sent. *)
Definition woken (s : sys) (t : positive) : bool :=
  bool_decide (t ∈ popped s) || match tickets (queue s) !! t with Some k => (1 <=? sent k)%nat | None => false end.

(** The tickets a wake was popped for. *)
Definition woken_set (s : sys) : gset positive := filter (λ t, woken s t = true) (dom (tickets (queue s))).
(** Those that will hand it on, or have. *)
Definition declined (s : sys) : gset positive := filter (λ t, t ∈ left_ s) (woken_set s).
Definition kept (s : sys) : gset positive := filter (λ t, t ∉ left_ s) (woken_set s).

Record sys_inv (s : sys) : Prop := {
  si_n : n (queue s) = Z.of_nat (length (waiters (queue s)));
  si_fresh t : is_Some (tickets (queue s) !! t) → (t < next (queue s))%positive;
  si_nodup : NoDup (waiters (queue s) ++ popped s);
  si_known t : t ∈ waiters (queue s) ++ popped s → ∃ k, tickets (queue s) !! t = Some k ∧ sent k = 0%nat;
  si_sent t k : tickets (queue s) !! t = Some k → (sent k ≤ 1)%nat;
  si_out t k : tickets (queue s) !! t = Some k → t ∉ waiters (queue s) → woken s t = true ∨ t ∈ left_ s;
  si_gone t : t ∈ left_ s → t ∉ waiters (queue s) ∧ is_Some (tickets (queue s) !! t);
  si_leaving : NoDup (leaving s).*1 ∧ ∀ t found, (t, found) ∈ leaving s → t ∈ left_ s ∧ (found = false → woken s t = true);
  si_count : (releases s + size (declined s) =
    waking s + length (filter (λ x, x.2 = false) (leaving s)) + size (woken_set s) + nobody s)%nat;
}.

(** ** The invariant is kept *)

Lemma elem_of_woken s t : t ∈ woken_set s ↔ is_Some (tickets (queue s) !! t) ∧ woken s t = true.
Proof. unfold woken_set. rewrite elem_of_filter, elem_of_dom. tauto. Qed.

Lemma elem_of_declined s t : t ∈ declined s ↔ t ∈ left_ s ∧ is_Some (tickets (queue s) !! t) ∧ woken s t = true.
Proof. unfold declined. rewrite elem_of_filter, elem_of_woken. done. Qed.

Lemma woken_iff s t : woken s t = true ↔ t ∈ popped s ∨ ∃ k, tickets (queue s) !! t = Some k ∧ (1 ≤ sent k)%nat.
Proof.
  unfold woken. rewrite orb_true_iff, bool_decide_eq_true. destruct (tickets (queue s) !! t) as [k|]; [rewrite Nat.leb_le|];
    split; intros [H|H]; auto; [right; eauto|right; by destruct H as (k' & [= ->] & H)|done|by destruct H as (? & ? & _)].
Qed.

(** A ticket in line has not been woken. *)
Lemma in_line_not_woken s t : sys_inv s → t ∈ waiters (queue s) → woken s t = false.
Proof.
  intros [? ? Hnd Hk ? ? ? ? ?] Ht. apply not_true_is_false. rewrite woken_iff. intros [Hp|(k & Hkt & Hs)].
  - apply NoDup_app in Hnd as (_ & Hd & _). by apply (Hd t).
  - destruct (Hk t) as (k' & Hk' & H0); [set_solver|]. simplify_eq. lia.
Qed.

(** What the accounting depends on. *)
Lemma same_accounts s s' :
  (∀ t, is_Some (tickets (queue s') !! t) ↔ is_Some (tickets (queue s) !! t)) →
  (∀ t, woken s' t = woken s t) → left_ s' = left_ s →
  woken_set s' = woken_set s ∧ declined s' = declined s.
Proof.
  intros Hd Hw Hl. split; apply set_eq; intros t; [rewrite !elem_of_woken|rewrite !elem_of_declined]; by rewrite Hd, Hw, ?Hl.
Qed.

Ltac mem := rewrite ?elem_of_app, ?elem_of_cons in *; tauto.
Ltac mem2 := rewrite ?elem_of_union, ?elem_of_singleton in *; tauto.

Lemma step_join max front q w p l e r d :
  sys_inv (Sys q w p l e r d) → sys_inv (Sys (Join max front q).2 w p l e r d).
Proof.
  intros Hinv. unfold Join. destruct (negb front && _ && _); [done|].
  pose proof (si_fresh _ Hinv (next q)) as Hf0. pose proof Hinv as [Hn Hf Hnd Hk Hs Ho Hg Hl Hc]. cbn in *.
  set (t := next q) in *. set (ws := if front then _ else _).
  assert (Hnew : tickets q !! t = None) by (destruct (tickets q !! t) eqn:E; [exfalso; specialize (Hf0 ltac:(eauto)); lia|done]).
  assert (Hws : ∀ x, x ∈ ws ↔ x = t ∨ x ∈ waiters q) by (intros; unfold ws; destruct front; set_solver).
  assert (Hpw : ws ≡ₚ t :: waiters q) by (unfold ws; destruct front; [done|by rewrite Permutation_app_comm]).
  assert (Hnt : ∀ x, is_Some (tickets q !! x) → x ≠ t) by (intros x [k Hx] ->; congruence).
  assert (Hww : ∀ x, woken (Sys (set_waiters ws (MkQueue (waiters q) (n q) (<[t:=MkTicket ticketQueued 0]> (tickets q)) (Pos.succ t))) w p l e r d) x =
    woken (Sys q w p l e r d) x).
  { intros x. unfold woken. cbn. destruct (decide (x = t)) as [->|]; [rewrite lookup_insert_eq, Hnew; done|by rewrite lookup_insert_ne]. }
  assert (Hacc : ∀ s', (∀ x, woken s' x = woken (Sys q w p l e r d) x) → tickets (queue s') = <[t:=MkTicket ticketQueued 0]> (tickets q) →
    left_ s' = e → popped s' = p → woken_set s' = woken_set (Sys q w p l e r d) ∧ declined s' = declined (Sys q w p l e r d)).
  { intros s' H1 H2 H3 H4. assert (Hx : ∀ x, is_Some (tickets (queue s') !! x) ∧ woken s' x = true ↔
      is_Some (tickets q !! x) ∧ woken (Sys q w p l e r d) x = true).
    { intros x. rewrite H1, H2. destruct (decide (x = t)) as [->|]; [|by rewrite lookup_insert_ne].
      rewrite Hnew. split; [|by intros [[] _]]. intros [_ Hw]. exfalso. apply woken_iff in Hw as [Hp|(k & Hk' & _)]; cbn in *; [|congruence].
      destruct (Hk t) as (k & Hk' & _); [mem|congruence]. }
    split; apply set_eq; intros x; [rewrite !elem_of_woken|rewrite !elem_of_declined, H3]; by rewrite Hx. }
  constructor; cbn; try done.
  - intros x. destruct (decide (x = t)) as [->|]; [lia|]. rewrite lookup_insert_ne by done. intros Hx%Hf. lia.
  - rewrite Hpw. cbn. constructor; [|done]. intros Hin. destruct (Hk t Hin) as (k & ? & _). congruence.
  - intros x Hx. destruct (decide (x = t)) as [->|Hxt]; [rewrite lookup_insert_eq; eauto|]. rewrite lookup_insert_ne by done. apply Hk. rewrite elem_of_app in Hx |- *. rewrite Hws in Hx. tauto.
  - intros x k. destruct (decide (x = t)) as [->|]; [rewrite lookup_insert_eq; intros [= <-]; cbn; lia|]. rewrite lookup_insert_ne by done. apply Hs.
  - intros x k Hx Hnin. rewrite Hww. destruct (decide (x = t)) as [->|]; [exfalso; apply Hnin, Hws; by left|].
    rewrite lookup_insert_ne in Hx by done. apply (Ho x k Hx). intros Hin. apply Hnin, Hws. by right.
  - intros x Hx. destruct (Hg x Hx) as [H1 H2]. pose proof (Hnt _ H2). rewrite lookup_insert_ne by done. split; [|done].
    rewrite Hws. by intros [?|?].
  - destruct Hl as [Hl1 Hl2]. split; [done|]. intros x found Hx. rewrite Hww. by apply Hl2.
  - destruct (Hacc (Sys (set_waiters ws (MkQueue (waiters q) (n q) (<[t:=MkTicket ticketQueued 0]> (tickets q)) (Pos.succ t))) w p l e r d)) as [-> ->]; done.
Qed.

Lemma step_pop q w p l e r d t q' :
  wake_pop q = (Some t, q') → sys_inv (Sys q (S w) p l e r d) → sys_inv (Sys q' w (t :: p) l e r d).
Proof.
  intros Hw Hinv. pose proof Hinv as [Hn Hf Hnd Hk Hs Ho Hg Hl Hc]. unfold wake_pop in Hw. cbn in *.
  destruct (n q =? 0); [done|]. destruct (waiters q) as [|t0 ws] eqn:Ew; [done|]. injection Hw as -> <-.
  set (s0 := Sys q (S w) p l e r d) in *. set (s' := Sys (set_waiters ws q) w (t :: p) l e r d).
  assert (Hww : ∀ x, woken s' x = bool_decide (x = t) || woken s0 x).
  { intros x. apply eq_true_iff_eq. rewrite orb_true_iff, bool_decide_eq_true, !woken_iff. cbn. rewrite elem_of_cons. tauto. }
  assert (Ht : woken s0 t = false) by (apply in_line_not_woken; [done|cbn; rewrite Ew; by left]).
  destruct (Hk t) as (kt & Hkt & Hst); [mem|].
  assert (t ∉ e) as Hte by (intros He; destruct (Hg t He) as [Hno _]; apply Hno; by left).
  assert (woken_set s' = {[t]} ∪ woken_set s0) as Hws.
  { apply set_eq. intros x. rewrite elem_of_union, elem_of_singleton, !elem_of_woken, Hww. cbn.
    rewrite orb_true_iff, bool_decide_eq_true. naive_solver. }
  assert (declined s' = declined s0) as Hds.
  { apply set_eq. intros x. rewrite !elem_of_declined, Hww. cbn. rewrite orb_true_iff, bool_decide_eq_true. naive_solver. }
  constructor; cbn; try done.
  - rewrite NoDup_app in *. destruct Hnd as (Hnd1 & Hnd2 & Hnd3). inversion Hnd1 as [|? ? Hnot Hnd1']; subst.
    split_and!; [done| |].
    + intros x Hx [->|Hx2]%elem_of_cons; [done|]. apply (Hnd2 x); [by right|done].
    + constructor; [|done]. apply Hnd2. by left.
  - intros x Hx. apply Hk. mem.
  - intros x k Hx Hnin. rewrite Hww. destruct (decide (x = t)) as [->|]; [left; by rewrite bool_decide_eq_true_2|].
    rewrite bool_decide_eq_false_2 by done. apply (Ho x k Hx). mem.
  - intros x Hx. destruct (Hg x Hx) as [H1 H2]. split; [mem|done].
  - destruct Hl as [Hl1 Hl2]. split; [done|]. intros x found Hx. destruct (Hl2 x found Hx) as [H1 H2]. split; [done|].
    intros Hfd. by rewrite Hww, H2, orb_true_r.
  - fold s'. rewrite Hws, Hds, size_union, size_singleton; [lia|].
    apply disjoint_singleton_l. rewrite elem_of_woken, Ht. by intros [_ ?].
Qed.

Lemma step_send q w p1 p2 l e r d t :
  sys_inv (Sys q w (p1 ++ t :: p2) l e r d) → sys_inv (Sys (wake_send t q) w (p1 ++ p2) l e r d).
Proof.
  intros Hinv. pose proof Hinv as [Hn Hf Hnd Hk Hs Ho Hg Hl Hc]. cbn in *.
  set (s0 := Sys q w (p1 ++ t :: p2) l e r d) in *. set (s' := Sys (wake_send t q) w (p1 ++ p2) l e r d).
  destruct (Hk t) as (kt & Hkt & Hst); [mem|].
  assert (Htk : ∀ x, tickets (wake_send t q) !! x = if decide (x = t) then Some (MkTicket ticketWoken 1) else tickets q !! x).
  { intros x. unfold wake_send, set_state. cbn. destruct (decide (x = t)) as [->|].
    - rewrite !lookup_alter_eq, Hkt. cbn. by rewrite Hst.
    - by rewrite !lookup_alter_ne. }
  assert (Hnd' : NoDup (waiters q ++ t :: p1 ++ p2)) by (by rewrite <-Permutation_middle in Hnd).
  assert (t ∉ waiters q ++ p1 ++ p2) as Htn by (rewrite <-Permutation_middle in Hnd'; by inversion Hnd').
  assert (Hdom : ∀ x, is_Some (tickets (wake_send t q) !! x) ↔ is_Some (tickets q !! x)).
  { intros x. rewrite Htk. destruct (decide (x = t)) as [->|]; [|done]. rewrite Hkt. naive_solver. }
  assert (Hww : ∀ x, woken s' x = woken s0 x).
  { intros x. apply eq_true_iff_eq. rewrite !woken_iff. cbn. setoid_rewrite Htk. destruct (decide (x = t)) as [->|].
    - split; intros _; [left; mem|right; eauto].
    - rewrite !elem_of_app, elem_of_cons. tauto. }
  destruct (same_accounts s0 s') as [Hws Hds]; [done..|].
  constructor; cbn; try done.
  - intros x Hx. apply Hf, Hdom, Hx.
  - rewrite <-Permutation_middle in Hnd'. by inversion Hnd'.
  - intros x Hx. rewrite Htk, decide_False by (by intros ->). apply Hk. mem.
  - intros x k. rewrite Htk. destruct (decide (x = t)); [intros [= <-]; cbn; lia|apply Hs].
  - intros x k Hx Hnin. rewrite Hww. destruct (proj1 (Hdom x) ltac:(eauto)) as [k' Hk']. by apply (Ho x k').
  - intros x Hx. rewrite Hdom. by apply Hg.
  - destruct Hl as [Hl1 Hl2]. split; [done|]. intros x found Hx. rewrite Hww. by apply Hl2.
  - fold s'. by rewrite Hws, Hds.
Qed.

Lemma leave_locked_spec t q :
  NoDup (waiters q) →
  leave_locked t q = (bool_decide (t ∈ waiters q),
    if decide (t ∈ waiters q) then set_waiters (filter (λ x, x ≠ t) (waiters q)) q else q).
Proof.
  intros Hnd. unfold leave_locked. destruct (list_find (eq t) (waiters q)) as [[i x]|] eqn:E.
  - apply list_find_Some in E as (Hi & <- & _). pose proof (list_elem_of_lookup_2 _ _ _ Hi) as Hin.
    rewrite bool_decide_eq_true_2, decide_True by done. do 2 f_equal.
    rewrite delete_take_drop. rewrite <-(take_drop_middle _ _ _ Hi) in Hnd. rewrite <-(take_drop_middle _ _ _ Hi) at 3.
    rewrite filter_app, filter_cons_False by (by intros []).
    apply NoDup_app in Hnd as (_ & H1 & H2). inversion H2 as [|? ? H3 H4]; subst.
    rewrite !filter_id; [done|..]; intros y Hy ->; [done|]. apply (H1 t Hy). by left.
  - apply list_find_None in E. rewrite Forall_forall in E.
    assert (t ∉ waiters q) as Hn by (intros Hin; by apply (E t)).
    by rewrite bool_decide_eq_false_2, decide_False.
Qed.

Lemma count_shift r x w f y d : (r + x = w + f + y + d → r + (1 + x) = w + S f + y + d)%nat.
Proof. lia. Qed.

Lemma step_leave q w p l e r d t :
  t ∉ e → is_Some (tickets q !! t) → sys_inv (Sys q w p l e r d) →
  sys_inv (Sys (leave_locked t q).2 w p ((t, (leave_locked t q).1) :: l) (e ∪ {[t]}) r d).
Proof.
  intros Hte [kt Hkt] Hinv. pose proof Hinv as [Hn Hf Hnd Hk Hs Ho Hg Hl Hc]. cbn in *.
  set (s0 := Sys q w p l e r d) in *.
  assert (NoDup (waiters q)) as Hndw by (by apply NoDup_app in Hnd as (? & _ & _)).
  rewrite (leave_locked_spec t q Hndw). cbn [fst snd]. set (q' := if decide _ then _ else q).
  set (s' := Sys q' w p _ _ r d).
  assert (tickets q' = tickets q ∧ next q' = next q) as [Htk Hnx] by (unfold q'; case_decide; done).
  assert (Hw' : ∀ x, x ∈ waiters q' ↔ x ∈ waiters q ∧ x ≠ t).
  { intros x. unfold q'. case_decide; cbn; [rewrite list_elem_of_filter|]; naive_solver. }
  assert (Hww : ∀ x, woken s' x = woken s0 x) by (intros x; unfold woken; cbn; by rewrite Htk).
  assert (woken_set s' = woken_set s0) as Hws.
  { apply set_eq. intros x. rewrite !elem_of_woken, Hww. change (queue s') with q'. by rewrite Htk. }
  assert (Hlf : ∀ found, (t, found) ∉ l).
  { intros found Hin. destruct Hl as [_ Hl2]. by destruct (Hl2 t found Hin). }
  constructor; cbn; rewrite ?Htk, ?Hnx; try done.
  - unfold q'. case_decide; [done|apply Hn].
  - rewrite NoDup_app in *. destruct Hnd as (H1 & H2 & H3). split_and!; [|intros x [Hx _]%Hw'; auto|done].
    unfold q'. case_decide; [cbn; by apply NoDup_filter|done].
  - intros x Hx. apply Hk. rewrite elem_of_app in *. rewrite Hw' in Hx. tauto.
  - intros x k Hx Hnin. rewrite Hww. rewrite Hw' in Hnin. destruct (decide (x = t)) as [->|]; [right; set_solver|].
    destruct (Ho x k Hx) as [?|?]; [tauto|by left|right; set_solver].
  - intros x [Hx| ->%elem_of_singleton]%elem_of_union; rewrite Hw'; [destruct (Hg x Hx); tauto|]. split; [tauto|eauto].
  - destruct Hl as [Hl1 Hl2]. split.
    + constructor; [|done]. intros ((x & found) & Heq & Hin)%list_elem_of_fmap. cbn in Heq. subst. by apply (Hlf found).
    + intros x found [[= -> ->]|Hx]%elem_of_cons.
      * split; [set_solver|]. rewrite Hww. intros Hd%bool_decide_eq_false. destruct (Ho t kt Hkt Hd); [done|]. done.
      * destruct (Hl2 x found Hx) as [H1 H2]. rewrite Hww. split; [set_solver|done].
  - fold s'. rewrite Hws.
    destruct (decide (t ∈ waiters q)) as [Hin|Hin].
    + rewrite bool_decide_eq_true_2, decide_False by done.
      assert (declined s' = declined s0) as ->; [|exact Hc]. apply set_eq. intros x. rewrite !elem_of_declined, Hww. change (queue s') with q'. change (left_ s') with (e ∪ {[t]}). rewrite Htk. cbn.
      split; [|mem2]. intros ([?| ->%elem_of_singleton]%elem_of_union & ? & Hwt); [done|].
      pose proof (in_line_not_woken s0 t Hinv Hin). congruence.
    + rewrite bool_decide_eq_false_2, decide_True by done. cbn [length].
      destruct (Ho t kt Hkt Hin) as [Hwt|]; [|done].
      assert (declined s' = {[t]} ∪ declined s0) as ->.
      { apply set_eq. intros x. rewrite elem_of_union, elem_of_singleton, !elem_of_declined, Hww.
        change (queue s') with q'. change (left_ s') with (e ∪ {[t]}). rewrite Htk. cbn. rewrite elem_of_union, elem_of_singleton.
        split; [tauto|]. intros [->|?]; [eauto|tauto]. }
      rewrite size_union, size_singleton; [exact (count_shift _ _ _ _ _ _ Hc)|]. apply disjoint_singleton_l. rewrite elem_of_declined. cbn. by intros [? _].
Qed.

Lemma step_left q w p l1 l2 e r d t found :
  sys_inv (Sys q w p (l1 ++ (t, found) :: l2) e r d) →
  sys_inv (Sys (set_state t ticketLeft q) (if found then w else S w) p (l1 ++ l2) e r d).
Proof.
  intros Hinv. pose proof Hinv as [Hn Hf Hnd Hk Hs Ho Hg Hl Hc]. cbn in *.
  set (s0 := Sys q w p (l1 ++ (t, found) :: l2) e r d) in *. set (s' := Sys _ _ _ _ _ _ _).
  assert (Htk : ∀ x, sent <$> (tickets (set_state t ticketLeft q) !! x) = sent <$> (tickets q !! x)).
  { intros x. cbn. destruct (decide (x = t)) as [->|]; [rewrite lookup_alter_eq|by rewrite lookup_alter_ne]. by destruct (tickets q !! t). }
  assert (Hdom : ∀ x, is_Some (tickets (set_state t ticketLeft q) !! x) ↔ is_Some (tickets q !! x)).
  { intros x. pose proof (Htk x) as H. destruct (tickets (set_state t ticketLeft q) !! x), (tickets q !! x); naive_solver. }
  assert (Hrd : ∀ x k, tickets (set_state t ticketLeft q) !! x = Some k → ∃ k', tickets q !! x = Some k' ∧ sent k = sent k').
  { intros x k Hx. pose proof (Htk x) as H. rewrite Hx in H. destruct (tickets q !! x); simplify_eq/=. eauto. }
  assert (Hwr : ∀ x k, tickets q !! x = Some k → ∃ k', tickets (set_state t ticketLeft q) !! x = Some k' ∧ sent k' = sent k).
  { intros x k Hx. pose proof (Htk x) as H. rewrite Hx in H. destruct (tickets (set_state t ticketLeft q) !! x); simplify_eq/=. eauto. }
  assert (Hww : ∀ x, woken s' x = woken s0 x).
  { intros x. apply eq_true_iff_eq. rewrite !woken_iff. change (queue s') with (set_state t ticketLeft q). change (popped s') with p.
    cbn [queue popped s0]. split; (intros [?|(k & Hkx & Hkk)]; [by left|right]).
    - destruct (Hrd _ _ Hkx) as (k' & ? & ?). exists k'. split; [done|lia].
    - destruct (Hwr _ _ Hkx) as (k' & ? & ?). exists k'. split; [done|lia]. }
  destruct (same_accounts s0 s') as [Hws Hds]; [done..|].
  constructor; try done.
  - intros x Hx. apply Hf. by apply Hdom.
  - intros x Hx. destruct (Hk x Hx) as (k & Hkx & H0). destruct (Hwr _ _ Hkx) as (k' & ? & ?). exists k'. split; [done|lia].
  - intros x k Hx. destruct (Hrd _ _ Hx) as (k' & Hk' & ->). by apply (Hs x).
  - intros x k Hx Hnin. rewrite Hww. destruct (Hrd _ _ Hx) as (k' & Hk' & _). by apply (Ho x k').
  - intros x Hx. destruct (Hg x Hx) as [H1 H2]. split; [done|]. by apply Hdom.
  - destruct Hl as [Hl1 Hl2]. cbn [leaving s']. split.
    + rewrite fmap_app in *. cbn in Hl1. rewrite <-Permutation_middle in Hl1. by inversion Hl1.
    + intros x f Hx. rewrite Hww. apply Hl2. mem.
  - rewrite Hws, Hds. cbn [leaving waking releases nobody s' s0] in *. rewrite filter_app, length_app in *.
    rewrite filter_cons in Hc. cbn [snd] in Hc. destruct found; [rewrite decide_False in Hc by done|rewrite decide_True in Hc by done; cbn [length] in Hc]; lia.
Qed.

Lemma step_inv s s' : sys_step s s' → sys_inv s → sys_inv s'.
Proof.
  destruct 1 as [max front q w p l e r d|q w p l e r d|q w p l e r d t q' Hp|q w p l e r d q' Hp| | | ]; intros Hinv.
  - by apply step_join.
  - destruct Hinv. constructor; try done. cbn in *. change (woken_set (Sys q (S w) p l e (S r) d)) with (woken_set (Sys q w p l e r d)).
    change (declined (Sys q (S w) p l e (S r) d)) with (declined (Sys q w p l e r d)). lia.
  - by eapply step_pop.
  - assert (q' = q) as ->. { unfold wake_pop in Hp. destruct (n q =? 0); [congruence|]. destruct (waiters q); congruence. }
    destruct Hinv. constructor; try done. cbn in *. change (woken_set (Sys q w p l e r (S d))) with (woken_set (Sys q (S w) p l e r d)).
    change (declined (Sys q w p l e r (S d))) with (declined (Sys q (S w) p l e r d)). lia.
  - by apply step_send.
  - by apply step_leave.
  - by eapply step_left.
Qed.

Lemma init_inv : sys_inv init.
Proof.
  assert (∀ t : positive, (∅ : gmap positive Ticket) !! t = None) as He by (intros; apply lookup_empty).
  constructor; cbn; try done.
  - intros t. rewrite He. by intros [].
  - constructor.
  - intros t Ht. by apply not_elem_of_nil in Ht.
  - split; [constructor|]. intros t f Ht. by apply not_elem_of_nil in Ht.
Qed.

Lemma reach_inv s : rtc sys_step init s → sys_inv s.
Proof.
  intros Hr. pose proof init_inv as H. induction Hr as [|s1 s2 s3 Hst Hr IH]; [done|]. apply IH. by eapply step_inv.
Qed.

(** * Properties *)

(** no release is lost: at any point of any interleaving, every release of a slot, and
    every wake declined by a ticket that left, is a wake still under way, a wake given to a
    ticket, or one that found the line empty.  So when nothing is under way, each release
    either went to a ticket that kept it or found nobody waiting. *)
Theorem releases_accounted s :
  rtc sys_step init s →
  (releases s + size (declined s) =
    waking s + length (filter (λ x, x.2 = false) (leaving s)) + size (woken_set s) + nobody s)%nat ∧
  (waking s = 0%nat → leaving s = [] → releases s = (size (kept s) + nobody s)%nat).
Proof.
  intros Hr. apply reach_inv in Hr. pose proof (si_count s Hr) as Hc. split; [done|]. intros Hw Hl.
  rewrite Hw, Hl in Hc. cbn in Hc.
  assert (size (woken_set s) = size (declined s) + size (kept s))%nat as Hsz; [|lia].
  rewrite <-size_union.
  - f_equal. apply set_eq. intros t. unfold declined, kept. rewrite elem_of_union, !elem_of_filter.
    destruct (decide (t ∈ left_ s)); tauto.
  - intros t. unfold declined, kept. rewrite !elem_of_filter. tauto.
Qed.

(** Two waiters, two releases; the first to be woken leaves, and its wake is passed on. *)
Definition demo_sys : sys :=
  let q := (Join 0 false (Join 0 false zero_queue).2).2 in
  let q := wake_send 1 (wake_pop q).2 in
  let q := set_state 1 ticketLeft (leave_locked 1 q).2 in
  let q := wake_send 2 (wake_pop q).2 in
  Sys q 0 [] [] {[1%positive]} 1 0.

Lemma demo_sys_reach : rtc sys_step init demo_sys.
Proof.
  eapply rtc_l; [apply (ss_join 0 false)|]. eapply rtc_l; [apply (ss_join 0 false)|].
  eapply rtc_l; [apply ss_release|].
  eapply rtc_l; [apply ss_pop; vm_compute; reflexivity|].
  eapply rtc_l; [apply (ss_send _ 0 [] [])|].
  eapply rtc_l; [apply (ss_leave _ 0 [] [] ∅ 1 0 1%positive); [vm_compute; congruence|vm_compute; eauto]|].
  eapply rtc_l; [apply (ss_left _ 0 [] [] [] _ 1 0 1%positive)|].
  eapply rtc_l; [apply ss_pop; vm_compute; reflexivity|].
  eapply rtc_l; [apply (ss_send _ 0 [] [])|].
  match goal with |- rtc _ ?s _ => replace s with demo_sys; [apply rtc_refl|] end.
  vm_compute. reflexivity.
Qed.

Lemma releases_accounted_witness : releases demo_sys = 1%nat ∧ size (kept demo_sys) = 1%nat.
Proof.
  destruct (releases_accounted demo_sys demo_sys_reach) as [_ H]. split; [reflexivity|].
  specialize (H eq_refl eq_refl). vm_compute in H |- *. congruence.
Defined.

(** under any interleaving [n] mirrors the length of the line, so the unlocked test
    skips the lock only when nobody waits; no ticket is in the line twice or after it was
    popped, none is sent to twice (the buffered send never blocks), and none that left is
    still in the line. *)
Theorem line_sound s :
  rtc sys_step init s →
  n (queue s) = Z.of_nat (length (waiters (queue s))) ∧
  NoDup (waiters (queue s) ++ popped s) ∧
  (∀ t k, tickets (queue s) !! t = Some k → (sent k ≤ 1)%nat ∧ (t ∈ waiters (queue s) ++ popped s → sent k = 0%nat)) ∧
  (∀ t, t ∈ left_ s → t ∉ waiters (queue s)).
Proof.
  intros Hr. apply reach_inv in Hr. destruct Hr as [Hn Hf Hnd Hk Hs Ho Hg Hl Hc]. split_and!; [done|done| |].
  - intros t k Ht. split; [by apply (Hs t)|]. intros Hin. destruct (Hk t Hin) as (k' & ? & ?). congruence.
  - intros t Ht. by destruct (Hg t Ht).
Qed.

Lemma line_sound_witness : n (queue demo_sys) = 0 ∧ (∀ k, tickets (queue demo_sys) !! 2%positive = Some k → (sent k ≤ 1)%nat).
Proof.
  destruct (line_sound demo_sys demo_sys_reach) as (H & _ & Hs & _). split; [exact H|].
  intros k Hk. exact (proj1 (Hs _ _ Hk)).
Defined.

(** the line is first come, first served, bounded, and the bound does not apply to the
    front: [Join] at the back puts the newcomer last unless [max] are waiting, at the front
    it always puts it first; [Wake] takes the head and leaves the others in order; [Leave]
    of a waiting ticket takes that one only. *)
Theorem line_order q max front t :
  n q = Z.of_nat (length (waiters q)) → NoDup (waiters q) →
  (let '(r, q') := Join max front q in
   match r with
   | Some x => waiters q' = (if front then x :: waiters q else waiters q ++ [x]) ∧
       (front = false → 0 < max → Z.of_nat (length (waiters q')) ≤ max)
   | None => front = false ∧ 0 < max ∧ max ≤ Z.of_nat (length (waiters q)) ∧ q' = q
   end) ∧
  waiters (Wake q) = tail (waiters q) ∧
  (t ∈ waiters q → waiters (Leave t q) = filter (λ x, x ≠ t) (waiters q)) ∧
  (t ∉ waiters q → waiters (Leave t q) = tail (waiters q)).
Proof.
  intros Hn Hnd. assert (Hwake : ∀ q, n q = Z.of_nat (length (waiters q)) → waiters (Wake q) = tail (waiters q)).
  { clear. intros q Hn. unfold Wake, wake_pop. rewrite Hn. destruct (waiters q) as [|x ws] eqn:E; cbn; by rewrite ?E. }
  split_and!.
  - unfold Join. destruct (negb front && _ && _) eqn:E.
    + bool_props. done.
    + cbn. split; [done|]. intros -> Hm. cbn in E. apply andb_false_iff in E as [E|E]; bool_props; [lia|].
      rewrite length_app. cbn. lia.
  - by apply Hwake.
  - intros Hin. unfold Leave. rewrite leave_locked_spec by done. by rewrite bool_decide_eq_true_2, decide_True.
  - intros Hnin. unfold Leave. rewrite leave_locked_spec by done. rewrite bool_decide_eq_false_2, decide_False by done.
    by rewrite Hwake.
Qed.

Lemma line_order_witness :
  let q := (Join 2 false (Join 2 false zero_queue).2).2 in
  (Join 2 false q).1 = None ∧ waiters (Join 2 true q).2 = [3; 1; 2]%positive ∧ waiters (Wake q) = [2%positive].
Proof.
  set (q := (Join 2 false (Join 2 false zero_queue).2).2).
  destruct (line_order q 2 true 1%positive) as (_ & H & _).
  - vm_compute. reflexivity.
  - apply (bool_decide_unpack (NoDup (waiters q))). vm_compute. exact I.
  - split; [vm_compute; reflexivity|]. split; [vm_compute; reflexivity|]. etrans; [exact H|vm_compute; reflexivity].
Defined.
