(* ===== verification/Backend.v ===== *)
(** * Backend: what the router keeps per worker

    [src/router/internal/registry/backend.go].  The atomics of one backend are the fields of
    a record, grouped as the code uses them; time is nanoseconds. *)

From stdpp Require Import base sets list strings sorting.
From Stdlib Require Import ZArith Lia.
From S2P Require Import Prelude Circuit WaitQ.
Open Scope Z_scope.

(** ** Data *)

Inductive Kind := KindWorker | KindRouter.
Inductive Provenance := ProvStatic | ProvDiscovered.
Inductive HealthModel := HealthActive | HealthPassive.
Inductive Health := Unknown | Healthy | Unhealthy.

#[export] Instance Kind_eq_dec : EqDecision Kind.
Proof. solve_decision. Defined.
#[export] Instance Provenance_eq_dec : EqDecision Provenance.
Proof. solve_decision. Defined.
#[export] Instance Health_eq_dec : EqDecision Health.
Proof. solve_decision. Defined.

Record Spec := MkSpec {
  sURL : string;
  sKind : Kind;
  sDialectID : string;
  sHealth : HealthModel;
  sProv : Provenance;
  sModel : string;
  sLocality : string;
  sCapacity : Z;
}.

(** What a re-registration may change. *)
Record meta := Meta { kind : Kind; model : string; locality : string; capacity : Z }.

(** The load gauges. *)
Record gauges := Gauges {
  inflight : Z;
  requests : Z;
  decodeTokens : Z;
  activeTokens : Z;
  prefillTokens : Z;
}.

Record ttftSample := TtftSample { at_ : Z; d_ : Z }.

(** The latency estimates, under [ttftMu], and the hard limit on them. *)
Record latency := Latency {
  ttftNanos : Z;
  ttftWin : list ttftSample;
  p90Val : Z;
  p90At : Z;
  p90Valid : bool;
  hardTTFT : Z;
  hardBlocked : bool;
}.

Record Backend := MkBackend {
  URL : string;
  DialectID : string;
  HealthMod : HealthModel;
  Prov : Provenance;
  bmeta : meta;
  CB : Breaker;
  draining : bool;
  health : Health;
  load : gauges;
  lat : latency;
  bwaiters : Queue;
}.

Definition set_meta (m : meta) (b : Backend) : Backend :=
  MkBackend (URL b) (DialectID b) (HealthMod b) (Prov b) m (CB b) (draining b) (health b) (load b) (lat b) (bwaiters b).
Definition set_draining (v : bool) (b : Backend) : Backend :=
  MkBackend (URL b) (DialectID b) (HealthMod b) (Prov b) (bmeta b) (CB b) v (health b) (load b) (lat b) (bwaiters b).
Definition SetHealth (h : Health) (b : Backend) : Backend :=
  MkBackend (URL b) (DialectID b) (HealthMod b) (Prov b) (bmeta b) (CB b) (draining b) h (load b) (lat b) (bwaiters b).
Definition set_load (g : gauges) (b : Backend) : Backend :=
  MkBackend (URL b) (DialectID b) (HealthMod b) (Prov b) (bmeta b) (CB b) (draining b) (health b) g (lat b) (bwaiters b).
Definition set_lat (l : latency) (b : Backend) : Backend :=
  MkBackend (URL b) (DialectID b) (HealthMod b) (Prov b) (bmeta b) (CB b) (draining b) (health b) (load b) l (bwaiters b).
Definition set_bwaiters (q : Queue) (b : Backend) : Backend :=
  MkBackend (URL b) (DialectID b) (HealthMod b) (Prov b) (bmeta b) (CB b) (draining b) (health b) (load b) (lat b) q.

Definition zero_gauges : gauges := Gauges 0 0 0 0 0.
Definition zero_latency : latency := Latency 0 [] 0 0 false 0 false.

(** What a lookup of a missing backend answers; no handler relies on it. *)
Definition nil_backend : Backend :=
  MkBackend "" "" HealthActive ProvStatic (Meta KindWorker "" "" 0) (New DefaultConfig) false Unknown zero_gauges zero_latency zero_queue.
#[export] Instance Backend_inhabited : Inhabited Backend := populate nil_backend.

(** ** Load *)

(** [int64] atomics wrap. *)
Definition AddInflight (d : Z) (b : Backend) : Z * Backend :=
  let v := i64 (inflight (load b) + d) in
  (v, set_load (Gauges v (requests (load b)) (decodeTokens (load b)) (activeTokens (load b)) (prefillTokens (load b))) b).
Definition StoreInflight (v : Z) (b : Backend) : Backend :=
  set_load (Gauges v (requests (load b)) (decodeTokens (load b)) (activeTokens (load b)) (prefillTokens (load b))) b.
Definition CountRequest (b : Backend) : Backend :=
  set_load (Gauges (inflight (load b)) (u64 (requests (load b) + 1)) (decodeTokens (load b)) (activeTokens (load b)) (prefillTokens (load b))) b.
Definition AddDecodeTokens (d : Z) (b : Backend) : Backend :=
  set_load (Gauges (inflight (load b)) (requests (load b)) (i64 (decodeTokens (load b) + d)) (activeTokens (load b)) (prefillTokens (load b))) b.
Definition AddActiveTokens (d : Z) (b : Backend) : Backend :=
  set_load (Gauges (inflight (load b)) (requests (load b)) (decodeTokens (load b)) (i64 (activeTokens (load b) + d)) (prefillTokens (load b))) b.
Definition AddPrefillTokens (d : Z) (b : Backend) : Backend :=
  set_load (Gauges (inflight (load b)) (requests (load b)) (decodeTokens (load b)) (activeTokens (load b)) (i64 (prefillTokens (load b) + d))) b.

Definition Capacity (b : Backend) : Z := if 0 <? capacity (bmeta b) then capacity (bmeta b) else 1.
Definition Queued (b : Backend) : Z := Len (bwaiters b).
Definition NormalizedLoad (b : Backend) : float64 := f64_div (f64_of_Z (inflight (load b))) (f64_of_Z (Capacity b)).
Definition Down (b : Backend) : bool := bool_decide (health b = Unhealthy) || draining b.
Definition Available (now : Z) (b : Backend) : bool :=
  bool_decide (health b = Healthy) && negb (draining b) && negb (bool_decide (State_ now (CB b) = Open)).

(** ** Time to first token *)

Definition ttftWindow : Z := 30 * second.
Definition ttftMinSamples : nat := 8.
Definition ttftWindowCap : nat := 8192.
Definition ttftCacheTTL : Z := 250000000.

(** [ttftAlpha] and [1-ttftAlpha] are untyped constants: each is rounded once. *)
Definition ttftAlpha : float64 := f64_div (f64_of_Z 3) (f64_of_Z 10).
Definition ttftBeta : float64 := f64_div (f64_of_Z 7) (f64_of_Z 10).

(** [evictTTFT]: drop the samples from the front that have aged out. *)
Fixpoint evict_win (now : Z) (w : list ttftSample) : list ttftSample :=
  match w with
  | s :: w' => if ttftWindow <? now - at_ s then evict_win now w' else w
  | [] => []
  end.

Definition sample_le (a b : Z) : Prop := a ≤ b.
#[export] Instance sample_le_dec : RelDecision sample_le.
Proof. intros a b. unfold sample_le. apply _. Defined.

(** [sort.Slice] by [<]; the result on integers does not depend on the algorithm. *)
Definition sorted_durations (w : list ttftSample) : list Z := merge_sort sample_le (d_ <$> w).

Definition p90_of (w : list ttftSample) : Z :=
  let n := length w in
  if decide (ttftMinSamples ≤ n)%nat
  then sorted_durations w !!! ((n * 9 + 9) / 10 - 1)%nat
  else 0.

Definition TTFTp90 (now : Z) (b : Backend) : Z * Backend :=
  let l := lat b in
  if p90Valid l && (now - p90At l <? ttftCacheTTL) then (p90Val l, b)
  else
    let w := evict_win now (ttftWin l) in
    let v := p90_of w in
    (v, set_lat (Latency (ttftNanos l) w v now true (hardTTFT l) (hardBlocked l)) b).

Definition ObserveTTFT (d now : Z) (b : Backend) : Backend :=
  if d <=? 0 then b
  else
    let l := lat b in
    let w := evict_win now (ttftWin l) in
    let w := if decide (ttftWindowCap ≤ length w)%nat then tail w else w in
    let w := w ++ [TtftSample now d] in
    let nanos := if ttftNanos l =? 0 then d
                 else f64_to_i64 (f64_add (f64_mul ttftAlpha (f64_of_Z d)) (f64_mul ttftBeta (f64_of_Z (ttftNanos l)))) in
    set_lat (Latency nanos w (p90Val l) (p90At l) false (hardTTFT l) (hardBlocked l)) b.

Definition set_blocked (v : bool) (b : Backend) : Backend :=
  set_lat (Latency (ttftNanos (lat b)) (ttftWin (lat b)) (p90Val (lat b)) (p90At (lat b)) (p90Valid (lat b)) (hardTTFT (lat b)) v) b.

Definition NoteAdmit (now : Z) (b : Backend) : Backend :=
  let h := hardTTFT (lat b) in
  if 0 <? h then
    let '(p, b) := TTFTp90 now b in
    if h <=? p then set_blocked true b else b
  else b.
Definition NoteRelease (b : Backend) : Backend := set_blocked false b.

(** ** The percentile *)

Lemma sorted_durations_perm w : sorted_durations w ≡ₚ d_ <$> w.
Proof. apply merge_sort_Permutation. Qed.

Lemma sample_le_total a b : sample_le a b ∨ sample_le b a.
Proof. unfold sample_le. lia. Qed.

#[export] Instance sample_le_Total : Total sample_le := sample_le_total.
#[export] Instance sample_le_Trans : Transitive sample_le.
Proof. unfold sample_le. intros a b c. lia. Qed.

Lemma sorted_durations_sorted w : StronglySorted sample_le (sorted_durations w).
Proof. apply StronglySorted_merge_sort; apply _. Qed.

Lemma sorted_split_le (l : list Z) (i : nat) (v : Z) :
  StronglySorted sample_le l → l !! i = Some v →
  (S i ≤ length (filter (λ d, (d ≤ v)%Z) l))%nat ∧ (length (filter (λ d, (d < v)%Z) l) ≤ i)%nat.
Proof.
  intros Hs Hi. rewrite <-(take_drop_middle l i v Hi) in Hs |- *. pose proof (lookup_lt_Some _ _ _ Hi) as Hlt.
  assert (Hlow : ∀ x, x ∈ take i l → x ≤ v).
  { intros x Hx. apply (StronglySorted_app_1_elem_of sample_le _ _ _ _ Hs Hx). by left. }
  assert (Hhigh : ∀ x, x ∈ drop (S i) l → v ≤ x).
  { intros x Hx. apply StronglySorted_app_1_r in Hs. inversion Hs as [|? ? _ Hall]; subst.
    rewrite Forall_forall in Hall. by apply Hall. }
  rewrite !filter_app. split.
  - rewrite filter_cons_True by lia. rewrite filter_id by done. rewrite length_app, length_take. cbn. lia.
  - rewrite filter_cons_False by lia. rewrite length_app.
    assert (filter (λ d, (d < v)%Z) (drop (S i) l) = []) as ->.
    { clear -Hhigh. induction (drop (S i) l) as [|x t IH]; [done|].
      rewrite filter_cons_False by (pose proof (Hhigh x (list_elem_of_here _ _)); lia). apply IH. intros y Hy. apply Hhigh. by right. }
    pose proof (length_filter (λ d, (d < v)%Z) (take i l)) as H. rewrite length_take in H. cbn. lia.
Qed.

Lemma filter_perm_length (P : Z → Prop) `{!∀ x, Decision (P x)} l k : l ≡ₚ k → length (filter P l) = length (filter P k).
Proof. intros Hp. by rewrite Hp. Qed.

Lemma evict_win_fresh now w s : s ∈ evict_win now w → s ∈ w.
Proof. induction w as [|x w IH]; cbn; [done|]. destruct (_ <? _); [right; auto|done]. Qed.

Lemma evict_win_length now w : (length (evict_win now w) ≤ length w)%nat.
Proof. induction w as [|x w IH]; cbn; [lia|]. destruct (_ <? _); cbn; lia. Qed.

(** The samples of a window whose times do not go back. *)
Definition in_order (w : list ttftSample) : Prop := StronglySorted (λ a b, at_ a ≤ at_ b) w.

Lemma evict_win_order now w : in_order w → in_order (evict_win now w) ∧ Forall (λ s, now - at_ s ≤ ttftWindow) (evict_win now w).
Proof.
  induction 1 as [|x w Hs IH Hall]; cbn; [split; constructor|].
  destruct (Z.ltb_spec ttftWindow (now - at_ x)); [done|]. split; [by constructor|].
  constructor; [done|]. eapply Forall_impl; [exact Hall|]. cbn. intros. lia.
Qed.

(** * Properties *)

(** the p90 of a window with enough samples is one of them, at least nine tenths of the
    samples are no greater, and fewer than nine tenths are smaller. *)
Theorem p90_is_percentile w :
  (ttftMinSamples ≤ length w)%nat →
  let v := p90_of w in
  v ∈ d_ <$> w ∧
  (9 * length w ≤ 10 * length (filter (λ d, (d ≤ v)%Z) (d_ <$> w)))%nat ∧
  (10 * length (filter (λ d, (d < v)%Z) (d_ <$> w)) < 9 * length w)%nat.
Proof.
  intros Hn v. unfold v, p90_of. rewrite decide_True by done.
  set (n := length w) in *. set (i := ((n * 9 + 9) / 10 - 1)%nat).
  assert (length (sorted_durations w) = n) as Hl by (rewrite sorted_durations_perm, length_fmap; done).
  assert (1 ≤ (n * 9 + 9) / 10)%nat as H1 by (apply Nat.div_le_lower_bound; unfold ttftMinSamples in Hn; lia).
  pose proof (Nat.div_mod_eq (n * 9 + 9) 10) as Hdm. pose proof (Nat.mod_upper_bound (n * 9 + 9) 10) as Hm.
  assert (i < length (sorted_durations w))%nat as Hi by (unfold i; lia).
  destruct (lookup_lt_is_Some_2 _ _ Hi) as [x Hx]. rewrite (list_lookup_total_correct _ _ _ Hx).
  destruct (sorted_split_le _ _ _ (sorted_durations_sorted w) Hx) as [Hle Hlt].
  rewrite (filter_perm_length _ _ _ (sorted_durations_perm w)) in Hle.
  rewrite (filter_perm_length _ _ _ (sorted_durations_perm w)) in Hlt.
  split_and!; [|unfold i in *; lia..]. rewrite <-sorted_durations_perm. by eapply list_elem_of_lookup_2.
Qed.

Definition demo_window : list ttftSample := (λ d, TtftSample 0 d) <$> [5; 3; 9; 1; 7; 2; 8; 4; 6; 10].

Lemma p90_is_percentile_witness : p90_of demo_window = 9 ∧ 9 ∈ d_ <$> demo_window.
Proof.
  destruct (p90_is_percentile demo_window) as (H & _ & _); [vm_compute; lia|].
  assert (p90_of demo_window = 9) as He by (vm_compute; reflexivity). split; [exact He|].
  rewrite He in H. exact H.
Defined.

(** the sample window is bounded: after an observation it is in time order, holds
    nothing older than the window, ends with the new sample, and never exceeds its cap. *)
Theorem window_bounded d now b :
  0 < d → in_order (ttftWin (lat b)) → Forall (λ s, at_ s ≤ now) (ttftWin (lat b)) →
  (length (ttftWin (lat b)) ≤ ttftWindowCap)%nat →
  let w := ttftWin (lat (ObserveTTFT d now b)) in
  in_order w ∧ Forall (λ s, now - at_ s ≤ ttftWindow ∧ at_ s ≤ now) w ∧ (length w ≤ ttftWindowCap)%nat ∧
  last w = Some (TtftSample now d) ∧ p90Valid (lat (ObserveTTFT d now b)) = false.
Proof.
  intros Hd Hord Hall Hcap. unfold ObserveTTFT. rewrite (proj2 (Z.leb_gt d 0)) by done. cbn [lat set_lat ttftWin p90Valid].
  assert (1 ≤ ttftWindowCap)%nat as Hone by (apply Nat.leb_le; vm_compute; reflexivity).
  generalize dependent ttftWindowCap. intros cap Hcap Hone.
  destruct (evict_win_order now _ Hord) as [Ho Hf]. pose proof (evict_win_length now (ttftWin (lat b))) as Hlen.
  assert (Forall (λ s, at_ s ≤ now) (evict_win now (ttftWin (lat b)))) as Ha.
  { rewrite Forall_forall in *. intros s Hs. apply Hall. by eapply evict_win_fresh. }
  set (w := evict_win now (ttftWin (lat b))) in *. clearbody w.
  set (w1 := if decide (cap ≤ length w)%nat then tail w else w).
  assert (in_order w1 ∧ Forall (λ s, now - at_ s ≤ ttftWindow) w1 ∧ Forall (λ s, at_ s ≤ now) w1 ∧ (length w1 < cap ∨ length w1 = 0)%nat) as (H1 & H2 & H3 & H4).
  { unfold w1. destruct w as [|s w']; cbn [tail length] in *.
    - case_decide; split_and!; try constructor; cbn; lia.
    - case_decide; [|split_and!; done || (left; cbn; lia)]. inversion Ho; inversion Hf; inversion Ha; subst. split_and!; try done. lia. }
  split_and!; [| | |by rewrite last_snoc|done].
  - apply StronglySorted_app_2; [|done|repeat constructor].
    intros x y Hx ->%list_elem_of_singleton. cbn. rewrite Forall_forall in H3. auto.
  - apply Forall_app. split; [|constructor; [cbn; split; [unfold ttftWindow, second; lia|lia]|constructor]].
    rewrite Forall_forall in *. auto.
  - rewrite length_app. cbn. lia.
Qed.

Lemma window_bounded_witness :
  let b := MkBackend "http://a:80" "openai" HealthActive ProvStatic (Meta KindWorker "" "" 1) (New DefaultConfig)
             false Healthy zero_gauges (Latency 0 demo_window 0 0 false 0 false) zero_queue in
  last (ttftWin (lat (ObserveTTFT 25 (31 * second) b))) = Some (TtftSample (31 * second) 25).
Proof.
  apply (window_bounded 25 (31 * second) _).
  - lia.
  - unfold in_order. cbn. repeat constructor; cbn; lia.
  - cbn. repeat constructor; cbn; unfold second; lia.
  - apply Nat.leb_le. vm_compute. reflexivity.
Defined.
