(* ===== verification/Lease.v ===== *)
(** * Lease: the load accounting primitive

    [src/router/internal/lease/lease.go].  Leases and backends are objects others hold
    pointers to, so both live in stores; a missing lease is Go's nil receiver.  Each method
    of a lease runs under its mutex (and [Release] inside its [sync.Once]), so a history is
    a sequence of whole calls. *)

From stdpp Require Import base gmap sets list strings.
From Stdlib Require Import ZArith Lia.
From S2P Require Import Prelude Circuit WaitQ Backend.
Open Scope Z_scope.

(** ** Data *)

Record Lease := MkLease {
  lb : positive;
  once : bool;
  decode : Z;
  active : Z;
  prefill : Z;
  released : bool;
}.

Record world := World {
  backends : gmap positive Backend;
  leases : gmap positive Lease;
  next_lease : positive;
  accountingErrors : Z;
}.

Definition on_backend (l : positive) (f : Backend → Backend) (w : world) : world :=
  World (alter f l (backends w)) (leases w) (next_lease w) (accountingErrors w).
Definition set_lease (i : positive) (le : Lease) (w : world) : world :=
  World (backends w) (<[i := le]> (leases w)) (next_lease w) (accountingErrors w).

(** ** Operations *)

Definition Acquire (l : positive) (now : Z) (w : world) : positive * world :=
  let w := on_backend l (λ b, NoteAdmit now (CountRequest (AddInflight 1 b).2)) w in
  let i := next_lease w in
  (i, World (backends w) (<[i := MkLease l false 0 0 0 false]> (leases w)) (Pos.succ i) (accountingErrors w)).

Definition StartActive (i : positive) (t : Z) (w : world) : world :=
  match leases w !! i with
  | None => w
  | Some le =>
      if (t <=? 0) || released le || negb (active le =? 0) then w
      else on_backend (lb le) (AddActiveTokens t)
             (set_lease i (MkLease (lb le) (once le) (decode le) t (prefill le) (released le)) w)
  end.

Definition StartPrefill (i : positive) (t : Z) (w : world) : world :=
  match leases w !! i with
  | None => w
  | Some le =>
      if (t <=? 0) || released le || negb (prefill le =? 0) then w
      else on_backend (lb le) (AddPrefillTokens t)
             (set_lease i (MkLease (lb le) (once le) (decode le) (active le) t (released le)) w)
  end.

Definition EndPrefill (i : positive) (w : world) : world :=
  match leases w !! i with
  | None => w
  | Some le =>
      if prefill le =? 0 then w
      else set_lease i (MkLease (lb le) (once le) (decode le) (active le) 0 (released le))
             (on_backend (lb le) (AddPrefillTokens (- prefill le)) w)
  end.

Definition StartDecode (i : positive) (t : Z) (w : world) : world :=
  match leases w !! i with
  | None => w
  | Some le =>
      if (t <=? 0) || released le || negb (decode le =? 0) then w
      else on_backend (lb le) (AddDecodeTokens t)
             (set_lease i (MkLease (lb le) (once le) t (active le) (prefill le) (released le)) w)
  end.

(** The three guarded subtractions of [Release]. *)
Definition return_tokens (le : Lease) (b : Backend) : Backend :=
  let b := if decode le =? 0 then b else AddDecodeTokens (- decode le) b in
  let b := if prefill le =? 0 then b else AddPrefillTokens (- prefill le) b in
  if active le =? 0 then b else AddActiveTokens (- active le) b.

Definition Release (i : positive) (w : world) : world :=
  match leases w !! i with
  | None => w
  | Some le =>
      if once le then w
      else
        let w := on_backend (lb le) (return_tokens le) w in
        let w := set_lease i (MkLease (lb le) true 0 0 0 true) w in
        let w := on_backend (lb le) (λ b, (AddInflight (-1) b).2) w in
        let under := match backends w !! lb le with Some b => inflight (load b) <? 0 | None => false end in
        let w := if under
                 then World (alter (StoreInflight 0) (lb le) (backends w)) (leases w) (next_lease w) (accountingErrors w + 1)
                 else w in
        on_backend (lb le) (λ b, NoteRelease (set_bwaiters (Wake (bwaiters b)) b)) w
  end.

(** ** Histories *)

Inductive lease_op :=
  | OAcquire (l : positive) (now : Z)
  | OStartActive (i : positive) (t : Z)
  | OStartPrefill (i : positive) (t : Z)
  | OEndPrefill (i : positive)
  | OStartDecode (i : positive) (t : Z)
  | ORelease (i : positive).

Definition run_lease (w : world) (o : lease_op) : world :=
  match o with
  | OAcquire l now => (Acquire l now w).2
  | OStartActive i t => StartActive i t w
  | OStartPrefill i t => StartPrefill i t w
  | OEndPrefill i => EndPrefill i w
  | OStartDecode i t => StartDecode i t w
  | ORelease i => Release i w
  end.

(** A lease's share of each gauge of backend [l]. *)
Definition share (l : positive) (f : Lease → Z) (le : Lease) : Z := if decide (lb le = l) then f le else 0.
Definition open_share (le : Lease) : Z := if released le then 0 else 1.

Record accounts (w : world) (l : positive) (b : Backend) : Prop := {
  ac_inflight : inflight (load b) = i64 (msum (share l open_share) (leases w));
  ac_decode : decodeTokens (load b) = i64 (msum (share l decode) (leases w));
  ac_active : activeTokens (load b) = i64 (msum (share l active) (leases w));
  ac_prefill : prefillTokens (load b) = i64 (msum (share l prefill) (leases w));
}.

Record world_inv (w : world) : Prop := {
  wi_accounts l b : backends w !! l = Some b → accounts w l b;
  wi_fresh i le : leases w !! i = Some le → (i < next_lease w)%positive;
  wi_lease i le : leases w !! i = Some le →
    once le = released le ∧ (released le = true → decode le = 0 ∧ active le = 0 ∧ prefill le = 0);
  wi_errors : accountingErrors w = 0;
}.

Definition init_world (bs : gmap positive Backend) : world := World bs ∅ 1 0.

Lemma init_world_inv bs :
  (∀ l b, bs !! l = Some b → load b = zero_gauges) → world_inv (init_world bs).
Proof.
  intros Hz. constructor; cbn; try done; [|intros *; by rewrite lookup_empty..].
  intros l b Hl. constructor; cbn; rewrite (Hz l b Hl), msum_empty; done.
Qed.

Lemma NoteAdmit_load now b : load (NoteAdmit now b) = load b.
Proof.
  unfold NoteAdmit, TTFTp90. repeat case_match; simplify_eq; done.
Qed.

Lemma share_insert w i le le' l f :
  leases w !! i = Some le → lb le' = lb le →
  msum (share l f) (<[i:=le']> (leases w)) =
  msum (share l f) (leases w) + (if decide (lb le = l) then f le' - f le else 0).
Proof.
  intros Hi Hb. rewrite (msum_insert_old _ _ _ le) by done. unfold share. rewrite Hb. case_decide; lia.
Qed.

(** Changing one lease and, by the same amounts, its backend's gauges. *)
Lemma accounts_update w w' i le le' g :
  world_inv w → leases w !! i = Some le → lb le' = lb le →
  leases w' = <[i:=le']> (leases w) → backends w' = alter g (lb le) (backends w) →
  next_lease w' = next_lease w → accountingErrors w' = 0 →
  (∀ b, backends w !! lb le = Some b →
    inflight (load (g b)) = i64 (inflight (load b) + (open_share le' - open_share le)) ∧
    decodeTokens (load (g b)) = i64 (decodeTokens (load b) + (decode le' - decode le)) ∧
    activeTokens (load (g b)) = i64 (activeTokens (load b) + (active le' - active le)) ∧
    prefillTokens (load (g b)) = i64 (prefillTokens (load b) + (prefill le' - prefill le))) →
  once le' = released le' ∧ (released le' = true → decode le' = 0 ∧ active le' = 0 ∧ prefill le' = 0) →
  world_inv w'.
Proof.
  intros [Ha Hf Hl He] Hi Hb Hls Hbs Hn Herr Hg Hle.
  constructor; rewrite ?Hls, ?Hn; [| | |done].
  - intros l b. rewrite Hbs. intros [[<- (b0 & Hb0 & ->)]|[Hne Hb0]]%lookup_alter_Some.
    + destruct (Hg b0 Hb0) as (G1 & G2 & G3 & G4). destruct (Ha _ _ Hb0) as [A1 A2 A3 A4].
      constructor; rewrite Hls, (share_insert w i le le') by done; rewrite decide_True by done;
        [rewrite G1, A1|rewrite G2, A2|rewrite G3, A3|rewrite G4, A4]; apply i64_add_l.
    + destruct (Ha _ _ Hb0) as [A1 A2 A3 A4].
      constructor; rewrite Hls, (share_insert w i le le') by done; rewrite decide_False, Z.add_0_r by congruence; done.
  - intros j x [[<- <-]|[_ Hj]]%lookup_insert_Some; [by eapply Hf|by eapply Hf].
  - intros j x [[<- <-]|[_ Hj]]%lookup_insert_Some; [done|by eapply Hl].
Qed.

Lemma i64_twice a : i64 (i64 a) = i64 a.
Proof. replace (i64 a) with (i64 a + 0) at 1 by lia. rewrite i64_add_l. f_equal. lia. Qed.

Lemma gauge_same w l b :
  world_inv w → backends w !! l = Some b →
  i64 (inflight (load b)) = inflight (load b) ∧ i64 (decodeTokens (load b)) = decodeTokens (load b) ∧
  i64 (activeTokens (load b)) = activeTokens (load b) ∧ i64 (prefillTokens (load b)) = prefillTokens (load b).
Proof.
  intros Hw Hb. destruct (wi_accounts w Hw l b Hb) as [-> -> -> ->]. by rewrite !i64_twice.
Qed.

Lemma acquire_inv l now w : world_inv w → world_inv (Acquire l now w).2.
Proof.
  intros [Ha Hf Hl He]. unfold Acquire. cbn [snd on_backend backends leases next_lease accountingErrors].
  assert (leases w !! next_lease w = None) as Hnew.
  { destruct (leases w !! next_lease w) as [le|] eqn:E; [|done]. apply Hf in E. lia. }
  constructor; cbn; [| | |done].
  - assert (Hsh : ∀ l' f, msum (share l' f) (<[next_lease w:=MkLease l false 0 0 0 false]> (leases w)) =
      msum (share l' f) (leases w) + (if decide (l = l') then f (MkLease l false 0 0 0 false) else 0)).
    { intros l' f. rewrite msum_insert_new by done. unfold share at 1. cbn. lia. }
    intros l' b [[<- (b0 & Hb0 & ->)]|[Hne Hb0]]%lookup_alter_Some; destruct (Ha _ _ Hb0) as [A1 A2 A3 A4];
      constructor; cbn [leases]; rewrite Hsh, ?NoteAdmit_load; cbn.
    + by rewrite decide_True, A1, i64_add_l.
    + by rewrite decide_True, A2, Z.add_0_r.
    + by rewrite decide_True, A3, Z.add_0_r.
    + by rewrite decide_True, A4, Z.add_0_r.
    + by rewrite decide_False, Z.add_0_r.
    + by rewrite decide_False, Z.add_0_r.
    + by rewrite decide_False, Z.add_0_r.
    + by rewrite decide_False, Z.add_0_r.
  - intros i le [[<- <-]|[_ Hi%Hf]]%lookup_insert_Some; lia.
  - intros i le [[<- <-]|[_ Hi]]%lookup_insert_Some; [done|by apply (Hl i)].
Qed.

Lemma start_active_inv i t w : world_inv w → world_inv (StartActive i t w).
Proof.
  intros Hw. unfold StartActive. destruct (leases w !! i) as [le|] eqn:Hi; [|done].
  destruct (_ || _ || _) eqn:E; [done|]. bool_props. destruct (wi_lease w Hw i le Hi) as [Hon _].
  eapply (accounts_update w _ i le (MkLease (lb le) (once le) (decode le) t (prefill le) (released le)) (AddActiveTokens t)); [done|done|done|done|done|done|apply Hw| |cbn; split; [done|congruence]].
  intros b Hb. destruct (gauge_same w _ b Hw Hb) as (G1 & G2 & G3 & G4). cbn. unfold open_share. cbn.
  rewrite !Z.sub_diag, !Z.add_0_r. split_and!; try done; do 2 f_equal; lia.
Qed.

Lemma start_prefill_inv i t w : world_inv w → world_inv (StartPrefill i t w).
Proof.
  intros Hw. unfold StartPrefill. destruct (leases w !! i) as [le|] eqn:Hi; [|done].
  destruct (_ || _ || _) eqn:E; [done|]. bool_props. destruct (wi_lease w Hw i le Hi) as [Hon _].
  eapply (accounts_update w _ i le (MkLease (lb le) (once le) (decode le) (active le) t (released le)) (AddPrefillTokens t)); [done|done|done|done|done|done|apply Hw| |cbn; split; [done|congruence]].
  intros b Hb. destruct (gauge_same w _ b Hw Hb) as (G1 & G2 & G3 & G4). cbn. unfold open_share. cbn.
  rewrite !Z.sub_diag, !Z.add_0_r. split_and!; try done; do 2 f_equal; lia.
Qed.

Lemma start_decode_inv i t w : world_inv w → world_inv (StartDecode i t w).
Proof.
  intros Hw. unfold StartDecode. destruct (leases w !! i) as [le|] eqn:Hi; [|done].
  destruct (_ || _ || _) eqn:E; [done|]. bool_props. destruct (wi_lease w Hw i le Hi) as [Hon _].
  eapply (accounts_update w _ i le (MkLease (lb le) (once le) t (active le) (prefill le) (released le)) (AddDecodeTokens t)); [done|done|done|done|done|done|apply Hw| |cbn; split; [done|congruence]].
  intros b Hb. destruct (gauge_same w _ b Hw Hb) as (G1 & G2 & G3 & G4). cbn. unfold open_share. cbn.
  rewrite !Z.sub_diag, !Z.add_0_r. split_and!; try done; do 2 f_equal; lia.
Qed.

Lemma end_prefill_inv i w : world_inv w → world_inv (EndPrefill i w).
Proof.
  intros Hw. unfold EndPrefill. destruct (leases w !! i) as [le|] eqn:Hi; [|done].
  destruct (prefill le =? 0) eqn:E; [done|]. destruct (wi_lease w Hw i le Hi) as [Hon Hre].
  eapply (accounts_update w _ i le (MkLease (lb le) (once le) (decode le) (active le) 0 (released le)) (AddPrefillTokens (- prefill le))); [done|done|done|done|done|done|apply Hw| |cbn; split; [done|naive_solver]].
  intros b Hb. destruct (gauge_same w _ b Hw Hb) as (G1 & G2 & G3 & G4). cbn. unfold open_share. cbn.
  rewrite !Z.sub_diag, !Z.add_0_r. split_and!; try done; do 2 f_equal; lia.
Qed.

Lemma return_tokens_load le b :
  i64 (decodeTokens (load b)) = decodeTokens (load b) → i64 (activeTokens (load b)) = activeTokens (load b) →
  i64 (prefillTokens (load b)) = prefillTokens (load b) →
  inflight (load (return_tokens le b)) = inflight (load b) ∧
  decodeTokens (load (return_tokens le b)) = i64 (decodeTokens (load b) - decode le) ∧
  activeTokens (load (return_tokens le b)) = i64 (activeTokens (load b) - active le) ∧
  prefillTokens (load (return_tokens le b)) = i64 (prefillTokens (load b) - prefill le).
Proof.
  intros G2 G3 G4. unfold return_tokens.
  destruct (Z.eqb_spec (decode le) 0) as [->|]; destruct (Z.eqb_spec (prefill le) 0) as [->|];
    destruct (Z.eqb_spec (active le) 0) as [->|]; cbn; rewrite ?Z.sub_0_r; done.
Qed.

(** The leases not yet released, all together. *)
Definition open_leases (w : world) : Z := msum open_share (leases w).

Lemma open_share_bound le : 0 ≤ open_share le ≤ 1.
Proof. unfold open_share. destruct (released le); lia. Qed.

Lemma open_le w l : 0 ≤ msum (share l open_share) (leases w) ≤ open_leases w.
Proof.
  unfold open_leases. induction (leases w) as [|i le m Hi IH] using map_ind.
  - by rewrite !msum_empty.
  - rewrite !msum_insert_new by done. unfold share at 1 3. pose proof (open_share_bound le). case_decide; lia.
Qed.

Lemma open_one w l i le : leases w !! i = Some le → lb le = l → released le = false →
  1 ≤ msum (share l open_share) (leases w).
Proof.
  intros Hi Hl Hr. rewrite (msum_lookup _ _ _ _ Hi).
  assert (0 ≤ msum (share l open_share) (delete i (leases w))).
  { apply msum_nonneg. intros j x _. unfold share. pose proof (open_share_bound x). case_decide; lia. }
  unfold share at 1. rewrite decide_True by done. unfold open_share at 1. rewrite Hr. lia.
Qed.

Lemma release_inv i w : open_leases w < two63 → world_inv w → world_inv (Release i w).
Proof.
  intros Hbound Hw. unfold Release. destruct (leases w !! i) as [le|] eqn:Hi; [|done].
  destruct (once le) eqn:Eo; [done|]. destruct (wi_lease w Hw i le Hi) as [Hon Hre].
  assert (released le = false) as Hr by congruence.
  set (w3 := on_backend (lb le) (λ b, (AddInflight (-1) b).2) _).
  assert (Hb3 : backends w3 = alter (λ b, (AddInflight (-1) (return_tokens le b)).2) (lb le) (backends w)).
  { unfold w3. cbn. apply map_eq. intros l. destruct (decide (l = lb le)) as [->|].
    - rewrite !lookup_alter_eq. by destruct (backends w !! lb le).
    - by rewrite !lookup_alter_ne. }
  assert (Hunder : (match backends w3 !! lb le with Some b => inflight (load b) <? 0 | None => false end) = false).
  { rewrite Hb3, lookup_alter_eq. destruct (backends w !! lb le) as [b|] eqn:Hb; [|done]. cbn.
    destruct (gauge_same w _ b Hw Hb) as (G1 & G2 & G3 & G4).
    destruct (return_tokens_load le b G2 G3 G4) as (-> & _). destruct (wi_accounts w Hw _ b Hb) as [-> _ _ _].
    rewrite i64_add_l. apply Z.ltb_ge. pose proof (open_le w (lb le)). pose proof (open_one w (lb le) i le Hi eq_refl Hr).
    rewrite i64_id by (unfold two63 in *; lia). lia. }
  rewrite Hunder.
  eapply (accounts_update w _ i le (MkLease (lb le) true 0 0 0 true)
    (λ b, NoteRelease (set_bwaiters (Wake (bwaiters (AddInflight (-1) (return_tokens le b)).2)) (AddInflight (-1) (return_tokens le b)).2)));
    [done|done|done|done| |done|apply Hw| |done].
  - cbn [on_backend backends]. rewrite Hb3. apply map_eq. intros l. destruct (decide (l = lb le)) as [->|].
    + rewrite !lookup_alter_eq. by destruct (backends w !! lb le).
    + by rewrite !lookup_alter_ne.
  - intros b Hb. destruct (gauge_same w _ b Hw Hb) as (G1 & G2 & G3 & G4).
    destruct (return_tokens_load le b G2 G3 G4) as (T1 & T2 & T3 & T4).
    unfold NoteRelease, set_blocked, set_bwaiters, set_lat. cbn. rewrite T1, T2, T3, T4. unfold open_share. rewrite Hr. cbn.
    split_and!; done.
Qed.

Lemma open_leases_size w : 0 ≤ open_leases w ≤ Z.of_nat (size (leases w)).
Proof.
  unfold open_leases. induction (leases w) as [|i le m Hi IH] using map_ind; [by rewrite msum_empty|].
  rewrite msum_insert_new, map_size_insert_None by done. pose proof (open_share_bound le). lia.
Qed.

Lemma run_size o w : world_inv w →
  (size (leases (run_lease w o)) ≤ size (leases w) + 1)%nat.
Proof.
  intros Hw. destruct o; cbn [run_lease].
  - unfold Acquire. cbn.
    rewrite map_size_insert_None; [lia|]. destruct (leases w !! next_lease w) as [le|] eqn:E; [|done].
    apply (wi_fresh w Hw) in E. lia.
  - unfold StartActive. destruct (leases w !! i) eqn:E; [|lia]. destruct (_ || _); [lia|]. cbn. rewrite map_size_insert_Some; [lia|eauto].
  - unfold StartPrefill. destruct (leases w !! i) eqn:E; [|lia]. destruct (_ || _); [lia|]. cbn. rewrite map_size_insert_Some; [lia|eauto].
  - unfold EndPrefill. destruct (leases w !! i) eqn:E; [|lia]. destruct (_ =? _); [lia|]. cbn. rewrite map_size_insert_Some; [lia|eauto].
  - unfold StartDecode. destruct (leases w !! i) eqn:E; [|lia]. destruct (_ || _); [lia|]. cbn. rewrite map_size_insert_Some; [lia|eauto].
  - unfold Release. destruct (leases w !! i) eqn:E; [|lia]. destruct (once _); [lia|]. cbn zeta.
    destruct (match _ with Some _ => _ | None => _ end); cbn; rewrite map_size_insert_Some by eauto; lia.
Qed.

Lemma run_inv o w : Z.of_nat (size (leases w)) < two63 → world_inv w → world_inv (run_lease w o).
Proof.
  intros Hs Hw. pose proof (open_leases_size w). destruct o; cbn [run_lease].
  - by apply acquire_inv.
  - by apply start_active_inv.
  - by apply start_prefill_inv.
  - by apply end_prefill_inv.
  - by apply start_decode_inv.
  - apply release_inv; [lia|done].
Qed.

Lemma runs_inv os w : Z.of_nat (size (leases w) + length os) < two63 → world_inv w → world_inv (foldl run_lease w os).
Proof.
  revert w. induction os as [|o os IH]; intros w Hs Hw; [done|]. cbn [foldl length] in *. apply IH.
  - pose proof (run_size o w Hw). lia.
  - apply run_inv; [lia|done].
Qed.

(** * Properties *)

(** after any history of acquires, token starts and releases (repeated, out of order,
    for unknown leases), every gauge of every backend is the sum of the shares of its
    unreleased leases, and no underflow was ever detected. *)
Theorem gauges_exact bs os l b :
  (∀ l b, bs !! l = Some b → load b = zero_gauges) → Z.of_nat (length os) < two63 →
  let w := foldl run_lease (init_world bs) os in
  backends w !! l = Some b → accounts w l b ∧ accountingErrors w = 0.
Proof.
  intros Hz Hlen w Hb. assert (world_inv w) as Hw.
  { apply runs_inv; [cbn; rewrite map_size_empty; lia|by apply init_world_inv]. }
  split; [by apply (wi_accounts w Hw)|apply Hw].
Qed.

Definition demo_backend (u : string) : Backend :=
  MkBackend u "openai" HealthActive ProvStatic (Meta KindWorker "" "" 1) (New DefaultConfig)
    false Healthy zero_gauges zero_latency zero_queue.
Definition demo_ops : list lease_op :=
  [OAcquire 1 0; OAcquire 1 0; OStartActive 1 50; OStartPrefill 1 30; OEndPrefill 1; OEndPrefill 1; OStartDecode 2 7;
   ORelease 1; ORelease 1; ORelease 9].

Lemma gauges_exact_witness : ∃ b,
  backends (foldl run_lease (init_world {[1%positive := demo_backend "http://a:80"]}) demo_ops) !! 1%positive = Some b ∧
  inflight (load b) = 1 ∧ decodeTokens (load b) = 7 ∧ activeTokens (load b) = 0.
Proof.
  eexists. split; [vm_compute; reflexivity|].
  destruct (gauges_exact {[1%positive := demo_backend "http://a:80"]} demo_ops 1%positive
    (default (demo_backend "") (backends (foldl run_lease (init_world {[1%positive := demo_backend "http://a:80"]}) demo_ops) !! 1%positive)))
    as [[H1 H2 H3 _] _].
  - intros l b [<- <-]%lookup_singleton_Some. reflexivity.
  - vm_compute. congruence.
  - vm_compute. reflexivity.
  - vm_compute in H1, H2, H3 |- *. auto.
Defined.

(** when every lease has been released, every gauge of every backend is back to zero,
    whatever the history was. *)
Theorem gauges_return_to_zero bs os l b :
  (∀ l b, bs !! l = Some b → load b = zero_gauges) → Z.of_nat (length os) < two63 →
  let w := foldl run_lease (init_world bs) os in
  (∀ i le, leases w !! i = Some le → released le = true) → backends w !! l = Some b →
  inflight (load b) = 0 ∧ decodeTokens (load b) = 0 ∧ activeTokens (load b) = 0 ∧ prefillTokens (load b) = 0.
Proof.
  intros Hz Hlen w Hall Hb. assert (world_inv w) as Hw.
  { apply runs_inv; [cbn; rewrite map_size_empty; lia|by apply init_world_inv]. }
  destruct (wi_accounts w Hw l b Hb) as [-> -> -> ->].
  assert (Hzero : ∀ f, (∀ le, released le = true → once le = released le ∧ (released le = true → decode le = 0 ∧ active le = 0 ∧ prefill le = 0) → f le = 0) →
    msum (share l f) (leases w) = 0).
  { intros f Hf. rewrite (msum_ext _ (λ _, 0)); [|intros i le Hi; unfold share; rewrite Hf; [by case_decide|by apply (Hall i)|by apply (wi_lease w Hw i)]].
    clear. induction (leases w) as [|i le m Hi IH] using map_ind; [done|]. rewrite msum_insert_new; done. }
  rewrite !Hzero; [done|..]; intros le Hr [_ H]; [by apply H..|]. unfold open_share. by rewrite Hr.
Qed.

Lemma gauges_return_to_zero_witness : ∃ b,
  backends (foldl run_lease (init_world {[1%positive := demo_backend "http://a:80"]}) (demo_ops ++ [ORelease 2])) !! 1%positive = Some b ∧
  decodeTokens (load b) = 0.
Proof.
  eexists. split; [vm_compute; reflexivity|].
  apply (gauges_return_to_zero {[1%positive := demo_backend "http://a:80"]} (demo_ops ++ [ORelease 2]) 1%positive).
  - intros l b [<- <-]%lookup_singleton_Some. reflexivity.
  - vm_compute. congruence.
  - apply (bool_decide_unpack (map_Forall (λ _ le, released le = true) _)). vm_compute. exact I.
  - vm_compute. reflexivity.
Defined.
