(* ===== verification/Registry.v ===== *)
(** * Registry: the published set of backends

    [src/router/internal/registry/registry.go].  Backends are shared objects, so they live
    in a store; a snapshot is a list of pointers with an index by URL.  Writers hold the
    mutex, so each is one step; the goroutines that wait for a drain are part of the state. *)

From stdpp Require Import base gmap sets list strings sorting relations.
From Stdlib Require Import ZArith Lia Ascii String.
From S2P Require Import Prelude Circuit WaitQ Backend.
Open Scope Z_scope.

(** ** URL order: Go compares strings byte by byte *)

Fixpoint str_leb (a b : string) : bool :=
  match a, b with
  | EmptyString, _ => true
  | String _ _, EmptyString => false
  | String x a, String y b =>
      let nx := nat_of_ascii x in let ny := nat_of_ascii y in
      if (nx <? ny)%nat then true else if (ny <? nx)%nat then false else str_leb a b
  end.

Definition str_le (a b : string) : Prop := str_leb a b = true.
#[export] Instance str_le_dec : RelDecision str_le.
Proof. intros a b. unfold str_le. apply _. Defined.

Lemma str_leb_cons x a y b :
  str_leb (String x a) (String y b) = true ↔
  (nat_of_ascii x < nat_of_ascii y)%nat ∨ (nat_of_ascii x = nat_of_ascii y ∧ str_leb a b = true).
Proof.
  change (str_leb (String x a) (String y b)) with
    (if (nat_of_ascii x <? nat_of_ascii y)%nat then true
     else if (nat_of_ascii y <? nat_of_ascii x)%nat then false else str_leb a b).
  destruct (Nat.ltb_spec (nat_of_ascii x) (nat_of_ascii y)); [tauto|].
  destruct (Nat.ltb_spec (nat_of_ascii y) (nat_of_ascii x)); [split; [done|lia]|].
  split; [intros ?; right; split; [lia|done]|intros [?|[_ ?]]; [lia|done]].
Qed.

Lemma str_leb_total a b : str_leb a b = true ∨ str_leb b a = true.
Proof.
  revert b. induction a as [|x a IH]; intros [|y b]; [by left|by left|by right|]. rewrite !str_leb_cons.
  destruct (Nat.lt_trichotomy (nat_of_ascii x) (nat_of_ascii y)) as [?|[?|?]]; [tauto| |tauto].
  destruct (IH b); [left|right]; right; auto.
Qed.

Lemma str_leb_trans a b c : str_leb a b = true → str_leb b c = true → str_leb a c = true.
Proof.
  revert b c. induction a as [|x a IH]; intros [|y b] [|z c]; try done. rewrite !str_leb_cons.
  intros [?|[? ?]] [?|[? ?]]; [left; lia..|right; split; [lia|eauto]].
Qed.

(** ** Data *)

Record Snapshot := MkSnapshot { Version : Z; Backends : list positive; byURL : gmap string positive }.

(** A goroutine in [awaitDrain]: the backend and the instant its deadline fires. *)
Record drainer := Drainer { dr_b : positive; dr_deadline : Z }.

Record Registry := MkRegistry {
  store : gmap positive Backend;
  fresh : positive;
  cbc : Config;
  cur : Snapshot;
  version : Z;
  drainDeadline : Z;
  drainers : list drainer;
  added : list positive;
  dropped : list positive;
}.

Definition New (c : Config) (deadline : Z) : Registry :=
  MkRegistry ∅ 1 (if Window c =? 0 then DefaultConfig else c) (MkSnapshot 0 [] ∅) 0
    (if deadline =? 0 then 60 * second else deadline) [] [] [].

Definition set_store (st : gmap positive Backend) (r : Registry) : Registry :=
  MkRegistry st (fresh r) (cbc r) (cur r) (version r) (drainDeadline r) (drainers r) (added r) (dropped r).
Definition set_drainers (ds : list drainer) (r : Registry) : Registry :=
  MkRegistry (store r) (fresh r) (cbc r) (cur r) (version r) (drainDeadline r) ds (added r) (dropped r).

Definition url_of (r : Registry) (l : positive) : string := URL (store r !!! l).

(** ** Snapshots *)

Definition Get (s : Snapshot) (url : string) : option positive := byURL s !! url.

Definition Available_ (now : Z) (r : Registry) (s : Snapshot) : list positive :=
  filter (λ l, Available now (store r !!! l) = true) (Backends s).

(** [publishLocked]: sort by URL, index, count up the version. *)
Definition by_url (r : Registry) (a b : positive) : Prop := str_le (url_of r a) (url_of r b).
#[export] Instance by_url_dec r : RelDecision (by_url r).
Proof. intros a b. unfold by_url. apply _. Defined.

Definition publishLocked (bs : list positive) (r : Registry) : Registry :=
  let bs := merge_sort (by_url r) bs in
  let idx := foldl (λ m l, <[url_of r l := l]> m) ∅ bs in
  let v := u64 (version r + 1) in
  MkRegistry (store r) (fresh r) (cbc r) (MkSnapshot v bs idx) v (drainDeadline r) (drainers r) (added r) (dropped r).

Section registry.
(** Canonicalising a URL parses it with the standard library's [net/url]; nothing here
    depends on how. *)
Context (Canonical : string → option string).

Inductive add_error := ErrBadURL | ErrStaticConflict.

Definition spec_meta (s : Spec) : meta := Meta (sKind s) (sModel s) (sLocality s) (sCapacity s).

Definition Add (s : Spec) (r : Registry) : (option positive * option add_error) * Registry :=
  match Canonical (sURL s) with
  | None => ((None, Some ErrBadURL), r)
  | Some canon =>
      match byURL (cur r) !! canon with
      | Some l =>
          if bool_decide (Prov (store r !!! l) = ProvStatic) && bool_decide (sProv s = ProvDiscovered)
          then ((Some l, Some ErrStaticConflict), r)
          else ((Some l, None),
                set_store (alter (λ b, set_draining false (set_meta (spec_meta s) b)) l (store r)) r)
      | None =>
          let l := fresh r in
          let b := MkBackend canon (if bool_decide (sDialectID s = ""%string) then "openai"%string else sDialectID s)
                     (sHealth s) (sProv s) (spec_meta s) (Circuit.New (cbc r)) false Unknown zero_gauges zero_latency zero_queue in
          let r := MkRegistry (<[l := b]> (store r)) (Pos.succ l) (cbc r) (cur r) (version r) (drainDeadline r)
                     (drainers r) (added r) (dropped r) in
          let r := publishLocked (Backends (cur r) ++ [l]) r in
          ((Some l, None), MkRegistry (store r) (fresh r) (cbc r) (cur r) (version r) (drainDeadline r)
                             (drainers r) (added r ++ [l]) (dropped r))
      end
  end.

(** [drain]: mark, and start the waiting goroutine unless one is running. *)
Definition drain (now : Z) (l : positive) (r : Registry) : Registry :=
  if draining (store r !!! l) then r
  else set_drainers (drainers r ++ [Drainer l (now + drainDeadline r)])
         (set_store (alter (set_draining true) l (store r)) r).

Definition Remove (now : Z) (raw : string) (r : Registry) : bool * Registry :=
  match Canonical raw with
  | None => (false, r)
  | Some canon => match byURL (cur r) !! canon with
                  | None => (false, r)
                  | Some l => (true, drain now l r)
                  end
  end.

Definition unlink (l : positive) (r : Registry) : Registry :=
  let u := url_of r l in
  match byURL (cur r) !! u with
  | None => r
  | Some _ =>
      let r := publishLocked (filter (λ x, url_of r x ≠ u) (Backends (cur r))) r in
      MkRegistry (store r) (fresh r) (cbc r) (cur r) (version r) (drainDeadline r) (drainers r) (added r) (dropped r ++ [l])
  end.

(** One look of [awaitDrain] at time [now]: done, or wait for the next tick. *)
Definition drain_done (now : Z) (d : drainer) (r : Registry) : bool :=
  (inflight (load (store r !!! dr_b d)) <=? 0) || (dr_deadline d <=? now).
Definition awaitDrain (now : Z) (i : nat) (r : Registry) : Registry :=
  match drainers r !! i with
  | None => r
  | Some d => if drain_done now d r then unlink (dr_b d) (set_drainers (delete i (drainers r)) r) else r
  end.

(** ** Reconciliation

    [want] is a Go map, built from [desired] (the last of two equal URLs wins) and ranged
    over in an unspecified order: [worder]. *)
Context (worder : gmap string Spec → list (string * Spec)).

Definition spec_at (canon : string) (s : Spec) : Spec :=
  MkSpec canon (sKind s) (sDialectID s) (sHealth s) ProvDiscovered (sModel s) (sLocality s) (sCapacity s).

Fixpoint build_want (desired : list Spec) (m : gmap string Spec) : option (gmap string Spec) :=
  match desired with
  | [] => Some m
  | s :: rest => match Canonical (sURL s) with
                 | None => None
                 | Some canon => build_want rest (<[canon := spec_at canon s]> m)
                 end
  end.

Fixpoint add_all (ss : list Spec) (conflicts : list string) (r : Registry) : option (list string) * Registry :=
  match ss with
  | [] => (Some conflicts, r)
  | s :: rest =>
      let '((_, err), r') := Add s r in
      match err with
      | Some ErrStaticConflict => add_all rest (conflicts ++ [sURL s]) r'
      | Some ErrBadURL => (None, r')
      | None => add_all rest conflicts r'
      end
  end.

Definition drain_stale (now : Z) (want : gmap string Spec) (r : Registry) (ls : list positive) : Registry :=
  foldl (λ r l, if negb (bool_decide (Prov (store r !!! l) = ProvDiscovered)) || draining (store r !!! l) then r
                else match want !! url_of r l with Some _ => r | None => drain now l r end) r ls.

Definition ReconcileDiscovered (now : Z) (desired : list Spec) (r : Registry) : option (list string) * Registry :=
  match build_want desired ∅ with
  | None => (None, r)
  | Some want =>
      let '(conflicts, r) := add_all (worder want).*2 [] r in
      match conflicts with
      | None => (None, r)
      | Some cs => (Some (merge_sort str_le cs), drain_stale now want r (Backends (cur r)))
      end
  end.

(** ** The invariant *)

Record reg_wf (r : Registry) : Prop := {
  rw_index u l : byURL (cur r) !! u = Some l ↔ l ∈ Backends (cur r) ∧ url_of r l = u;
  rw_nodup : NoDup (url_of r <$> Backends (cur r));
  rw_sorted : StronglySorted (by_url r) (Backends (cur r));
  rw_known l : l ∈ Backends (cur r) → is_Some (store r !! l);
  rw_drainers d : d ∈ drainers r → is_Some (store r !! dr_b d);
  rw_fresh l b : store r !! l = Some b → (l < fresh r)%positive;
  rw_version : Version (cur r) = version r;
}.

#[local] Instance by_url_total r : Total (by_url r).
Proof. intros a b. unfold by_url, str_le. apply str_leb_total. Qed.
#[local] Instance by_url_trans r : Transitive (by_url r).
Proof. intros a b c. unfold by_url, str_le. apply str_leb_trans. Qed.

Lemma index_of (f : positive → string) bs :
  NoDup (f <$> bs) → ∀ (m : gmap string positive) u l, (∀ l', l' ∈ bs → m !! f l' = None) →
  foldl (λ m l, <[f l := l]> m) m bs !! u = Some l ↔ (m !! u = Some l) ∨ (l ∈ bs ∧ f l = u).
Proof.
  induction bs as [|x bs IH]; cbn; intros Hnd m u l Hm; [set_solver|].
  inversion Hnd as [|? ? Hnot Hnd']; subst. rewrite IH; [|done|].
  - rewrite lookup_insert_Some, elem_of_cons. split.
    + intros [[[<- <-]|[? ?]]|[? ?]]; auto.
    + intros [Hu|[[->|Hl] Hf]]; [|auto|auto]. left. right. split; [|done]. intros <-. rewrite Hm in Hu; [done|by left].
  - intros l' Hl'. rewrite lookup_insert_ne; [apply Hm; by right|]. intros He. apply Hnot. rewrite He. by apply list_elem_of_fmap_2.
Qed.

Lemma publish_wf bs r :
  NoDup (url_of r <$> bs) → (∀ l, l ∈ bs → is_Some (store r !! l)) →
  (∀ d, d ∈ drainers r → is_Some (store r !! dr_b d)) → (∀ l b, store r !! l = Some b → (l < fresh r)%positive) →
  reg_wf (publishLocked bs r) ∧ (∀ l, l ∈ Backends (cur (publishLocked bs r)) ↔ l ∈ bs).
Proof.
  intros Hnd Hk Hd Hf. unfold publishLocked. set (bs' := merge_sort (by_url r) bs).
  assert (Hp : bs' ≡ₚ bs) by apply merge_sort_Permutation.
  assert (NoDup (url_of r <$> bs')) as Hnd' by (by rewrite Hp).
  split; [|intros l; cbn; by rewrite Hp]. constructor; cbn; try done.
  - intros u l. rewrite (index_of (url_of r) bs' Hnd' ∅ u l) by (intros; apply lookup_empty). rewrite lookup_empty.
    split; [intros [?|?]; done|auto].
  - apply (StronglySorted_merge_sort (by_url r)).
  - intros l Hl. apply Hk. by rewrite Hp in Hl.
Qed.

(** Updates of backends that keep their URLs. *)
Lemma alter_wf f l r :
  (∀ b, URL (f b) = URL b) → reg_wf r → reg_wf (set_store (alter f l (store r)) r).
Proof.
  intros Hf [Hi Hnd Hs Hk Hd Hfr Hv].
  assert (Hu : ∀ x, url_of (set_store (alter f l (store r)) r) x = url_of r x).
  { intros x. unfold url_of. cbn. unfold lookup_total, map_lookup_total.
    destruct (decide (x = l)) as [->|]; [rewrite lookup_alter_eq|by rewrite lookup_alter_ne]. destruct (store r !! l); [apply Hf|done]. }
  assert (Hdom : ∀ x, is_Some (store r !! x) → is_Some (alter f l (store r) !! x)).
  { intros x Hx. by rewrite lookup_alter_is_Some. }
  constructor; cbn; try done.
  - intros u x. rewrite Hi. by rewrite Hu.
  - by rewrite (list_fmap_ext _ (url_of r)) by (intros; apply Hu).
  - unfold by_url in *. clear -Hs Hu. induction Hs as [|x xs Hs IH Hall]; constructor; [done|].
    eapply Forall_impl; [exact Hall|]. intros y Hy. by rewrite !Hu.
  - intros x Hx. apply Hdom. auto.
  - intros d Hx. apply Hdom. auto.
  - intros x b [[<- (b0 & Hb & _)]|[_ Hb]]%lookup_alter_Some; by eapply Hfr.
Qed.

Lemma url_of_alter f l r x :
  (∀ b, URL (f b) = URL b) → url_of (set_store (alter f l (store r)) r) x = url_of r x.
Proof.
  intros Hf. unfold url_of. cbn. unfold lookup_total, map_lookup_total.
  destruct (decide (x = l)) as [->|]; [rewrite lookup_alter_eq|by rewrite lookup_alter_ne]. destruct (store r !! l); [apply Hf|done].
Qed.

(** Registering a URL for the first time. *)
Definition new_backend (canon : string) (s : Spec) (r : Registry) : Backend :=
  MkBackend canon (if bool_decide (sDialectID s = ""%string) then "openai"%string else sDialectID s)
    (sHealth s) (sProv s) (spec_meta s) (Circuit.New (cbc r)) false Unknown zero_gauges zero_latency zero_queue.

Lemma add_new_wf canon s r :
  reg_wf r → byURL (cur r) !! canon = None →
  let b := new_backend canon s r in
  let r' := publishLocked (Backends (cur r) ++ [fresh r])
              (MkRegistry (<[fresh r := b]> (store r)) (Pos.succ (fresh r)) (cbc r) (cur r) (version r) (drainDeadline r)
                 (drainers r) (added r) (dropped r)) in
  reg_wf r' ∧ (∀ l, l ∈ Backends (cur r') ↔ l ∈ Backends (cur r) ∨ l = fresh r).
Proof.
  intros [Hi Hnd Hs Hk Hd Hfr Hv] Hno b. cbn zeta.
  assert (∀ l, is_Some (store r !! l) → l ≠ fresh r) as Hne.
  { intros l [x Hx] ->. specialize (Hfr _ _ Hx). lia. }
  set (r1 := MkRegistry _ _ _ _ _ _ _ _ _).
  assert (∀ l, is_Some (store r !! l) → url_of r1 l = url_of r l) as Hu.
  { intros l Hl. unfold url_of, r1. cbn. by rewrite lookup_total_insert_ne by (intros He; by destruct (Hne l Hl)). }
  assert (url_of r1 (fresh r) = canon) as Hf by (unfold url_of, r1; cbn; by rewrite lookup_total_insert_eq).
  assert (url_of r1 <$> Backends (cur r) = url_of r <$> Backends (cur r)) as Heq.
  { apply list_fmap_ext. intros i l Hl. apply Hu, Hk. by eapply list_elem_of_lookup_2. }
  destruct (publish_wf (Backends (cur r) ++ [fresh r]) r1) as [Hw Hin].
  - rewrite fmap_app, Heq. cbn. rewrite Hf. apply NoDup_app. split_and!; [done| |apply NoDup_singleton].
    intros u (l & -> & Hl)%list_elem_of_fmap Hu'%list_elem_of_singleton.
    rewrite (proj2 (Hi canon l)) in Hno by (split; done). done.
  - intros l [Hl| ->%list_elem_of_singleton]%elem_of_app; cbn.
    + rewrite lookup_insert_ne; [by apply Hk|]. intros He. by destruct (Hne l (Hk l Hl)).
    + rewrite lookup_insert_eq. eauto.
  - intros d Hx. cbn. apply Hd in Hx. rewrite lookup_insert_ne; [done|]. intros He. by destruct (Hne _ Hx).
  - intros l x. cbn. intros [[<- _]|[_ Hx%Hfr]]%lookup_insert_Some; lia.
  - split; [done|]. intros l. rewrite Hin, elem_of_app, list_elem_of_singleton. done.
Qed.

Lemma add_new_index canon s r u :
  reg_wf r → byURL (cur r) !! canon = None →
  let b := new_backend canon s r in
  let r' := publishLocked (Backends (cur r) ++ [fresh r])
              (MkRegistry (<[fresh r := b]> (store r)) (Pos.succ (fresh r)) (cbc r) (cur r) (version r) (drainDeadline r)
                 (drainers r) (added r) (dropped r)) in
  byURL (cur r') !! u = if decide (u = canon) then Some (fresh r) else byURL (cur r) !! u.
Proof.
  intros Hw Hno b r'. destruct (add_new_wf canon s r Hw Hno) as [Hw' Hin]. fold b r' in Hw', Hin.
  assert (store r' = <[fresh r := b]> (store r)) as Hst by done. clearbody r'.
  assert (∀ l, l ∈ Backends (cur r) → url_of r' l = url_of r l) as Hu.
  { intros l Hl. unfold url_of. rewrite Hst. rewrite lookup_total_insert_ne; [done|]. intros <-.
    destruct (rw_known _ Hw _ Hl) as [x Hx%(rw_fresh _ Hw)]. lia. }
  apply option_eq. intros l. rewrite (rw_index _ Hw'), Hin. destruct (decide (u = canon)) as [->|Hne].
  - split.
    + intros [[Hl| ->] Hul]; [|done]. rewrite Hu in Hul by done. rewrite (proj2 (rw_index _ Hw canon l)) in Hno by done. done.
    + intros [= <-]. split; [by right|]. unfold url_of. by rewrite Hst, lookup_total_insert_eq.
  - rewrite (rw_index _ Hw). split.
    + intros [[Hl| ->] Hul]; [by rewrite Hu in Hul|]. unfold url_of in Hul. rewrite Hst, lookup_total_insert_eq in Hul. by cbn in Hul.
    + intros [Hl Hul]. split; [by left|by rewrite Hu].
Qed.

(** Fields the invariant does not look at. *)
Lemma frame_wf a dr r :
  reg_wf r → reg_wf (MkRegistry (store r) (fresh r) (cbc r) (cur r) (version r) (drainDeadline r) (drainers r) a dr).
Proof. intros [Hi Hnd Hs Hk Hd Hfr Hv]. by constructor. Qed.

Lemma reg_add_wf s r : reg_wf r → reg_wf (Add s r).2.
Proof.
  intros Hw. unfold Add. destruct (Canonical (sURL s)) as [canon|]; [|done].
  destruct (byURL (cur r) !! canon) as [l|] eqn:Hl.
  - destruct (_ && _); [done|]. by apply alter_wf.
  - cbn [snd]. apply frame_wf. by apply (add_new_wf canon s r).
Qed.

Lemma drain_wf now l r : reg_wf r → is_Some (store r !! l) → reg_wf (drain now l r).
Proof.
  intros Hw Hl. unfold drain. destruct (draining _); [done|].
  destruct (alter_wf (set_draining true) l r (λ b, eq_refl) Hw) as [Hi Hnd Hs Hk Hd Hfr Hv].
  constructor; try done. intros d. cbn. intros [Hx| ->%list_elem_of_singleton]%elem_of_app; [by apply Hd|].
  cbn. by rewrite lookup_alter_is_Some.
Qed.

Lemma reg_unlink_wf l r :
  reg_wf r → reg_wf (unlink l r) ∧ ∀ x, x ∈ Backends (cur (unlink l r)) ↔ x ∈ Backends (cur r) ∧ url_of r x ≠ url_of r l.
Proof.
  intros Hw. pose proof Hw as [Hi Hnd Hs Hk Hd Hfr Hv]. unfold unlink.
  destruct (byURL (cur r) !! url_of r l) as [y|] eqn:Hy.
  - destruct (publish_wf (filter (λ x, url_of r x ≠ url_of r l) (Backends (cur r))) r) as [H1 H2]; [| |done|done|].
    + eapply sublist_NoDup; [exact Hnd|]. apply fmap_sublist, sublist_filter.
    + intros x [_ Hx]%list_elem_of_filter. auto.
    + cbn zeta. split; [by apply frame_wf|]. intros x. cbn [cur]. rewrite H2, list_elem_of_filter. tauto.
  - split; [done|]. intros x. split; [|tauto]. intros Hx. split; [done|]. intros He.
    rewrite (proj2 (Hi (url_of r l) x)) in Hy by done. done.
Qed.

Lemma awaitDrain_wf now i r : reg_wf r → reg_wf (awaitDrain now i r).
Proof.
  intros Hw. unfold awaitDrain. destruct (drainers r !! i) as [d|] eqn:Hd; [|done]. destruct (drain_done _ _ _); [|done].
  apply reg_unlink_wf. destruct Hw as [Hi Hnd Hs Hk Hdr Hfr Hv]. constructor; try done.
  intros x Hx. apply Hdr. cbn in Hx. rewrite delete_take_drop in Hx.
  rewrite <-(take_drop_middle _ _ _ Hd). rewrite elem_of_app in *. destruct Hx; [by left|right; by right].
Qed.

Lemma reg_remove_wf now raw r : reg_wf r → reg_wf (Remove now raw r).2.
Proof.
  intros Hw. unfold Remove. destruct (Canonical raw) as [c|]; [|done].
  destruct (byURL (cur r) !! c) as [l|] eqn:Hl; [|done]. apply drain_wf; [done|]. apply Hw. by apply Hw in Hl as [? _].
Qed.

Lemma add_all_wf ss cs r : reg_wf r → reg_wf (add_all ss cs r).2.
Proof.
  revert cs r. induction ss as [|s ss IH]; intros cs r Hw; cbn; [done|].
  pose proof (reg_add_wf s r Hw) as Hw'. destruct (Add s r) as [[o err] r']. cbn in Hw'.
  destruct err as [[]|]; [done|by apply IH..].
Qed.

(** ** The directory: what a registry says of each URL *)

Definition view (r : Registry) (u : string) : option Backend := byURL (cur r) !! u ≫= λ l, store r !! l.

(** What registering [s] makes of the entry at its URL. *)
Definition upsert (canon : string) (s : Spec) (c : Config) (o : option Backend) : option Backend :=
  match o with
  | Some b => if bool_decide (Prov b = ProvStatic) && bool_decide (sProv s = ProvDiscovered) then Some b
              else Some (set_draining false (set_meta (spec_meta s) b))
  | None => Some (MkBackend canon (if bool_decide (sDialectID s = ""%string) then "openai"%string else sDialectID s)
                    (sHealth s) (sProv s) (spec_meta s) (Circuit.New c) false Unknown zero_gauges zero_latency zero_queue)
  end.

Definition conflicts_at (s : Spec) (o : option Backend) : bool :=
  match o with
  | Some b => bool_decide (Prov b = ProvStatic) && bool_decide (sProv s = ProvDiscovered)
  | None => false
  end.

Lemma view_Some r u l : reg_wf r → byURL (cur r) !! u = Some l → ∃ b, store r !! l = Some b ∧ URL b = u ∧ view r u = Some b.
Proof.
  intros Hw Hl. pose proof (proj1 (rw_index _ Hw u l) Hl) as [Hin Hu]. destruct (rw_known _ Hw l Hin) as [b Hb].
  exists b. split_and!; [done| |unfold view; by rewrite Hl]. unfold url_of in Hu. by rewrite (lookup_total_correct _ _ _ Hb) in Hu.
Qed.

(** An in-place update of one entry, in the view. *)
Lemma view_alter f u l r v :
  (∀ b, URL (f b) = URL b) → reg_wf r → byURL (cur r) !! u = Some l →
  view (set_store (alter f l (store r)) r) v = if decide (v = u) then f <$> view r u else view r v.
Proof.
  intros Hf Hw Hl. destruct (decide (v = u)) as [->|Hne]; unfold view; cbn.
  - rewrite Hl. cbn. by rewrite lookup_alter_eq.
  - destruct (byURL (cur r) !! v) as [k|] eqn:Hk; [|done]. cbn. rewrite lookup_alter_ne; [done|]. intros <-.
    apply Hw in Hl as [_ <-]. by apply Hw in Hk as [_ <-].
Qed.

Lemma Add_view s canon r :
  reg_wf r → Canonical (sURL s) = Some canon →
  let '((o, err), r') := Add s r in
  (∀ u, view r' u = if decide (u = canon) then upsert canon s (cbc r) (view r u) else view r u) ∧
  err = (if conflicts_at s (view r canon) then Some ErrStaticConflict else None) ∧
  byURL (cur r') !! canon = o ∧ is_Some o ∧ (∀ u l, byURL (cur r) !! u = Some l → byURL (cur r') !! u = Some l) ∧
  cbc r' = cbc r ∧ reg_wf r'.
Proof.
  intros Hw Hc. pose proof (reg_add_wf s r Hw) as Hw'. unfold Add in *. rewrite Hc in *.
  destruct (byURL (cur r) !! canon) as [l|] eqn:Hl.
  - destruct (view_Some _ _ _ Hw Hl) as (b & Hb & Hu & Hv). rewrite (lookup_total_correct _ _ _ Hb) in *. rewrite Hv.
    cbn [conflicts_at]. destruct (_ && _) eqn:Hconf.
    + split_and!; try done. intros u. destruct (decide (u = canon)) as [->|]; [|done]. rewrite Hv. cbn. by rewrite Hconf.
    + split_and!; try done. intros u. rewrite (view_alter (λ b, set_draining false (set_meta (spec_meta s) b)) canon l r u (λ b, eq_refl) Hw Hl).
      destruct (decide (u = canon)) as [->|]; [|done]. rewrite Hv. cbn. by rewrite Hconf.
  - fold (new_backend canon s r) in *. pose proof (λ u, add_new_index canon s r u Hw Hl) as Hix. cbn zeta in Hix.
    split_and!; try done.
    + intros u. unfold view. cbn [cur store]. rewrite Hix. destruct (decide (u = canon)) as [->|Hne].
      * rewrite Hl. cbn. by rewrite lookup_insert_eq.
      * destruct (byURL (cur r) !! u) as [l|] eqn:Hul; [|done]. cbn. rewrite lookup_insert_ne; [done|]. intros <-.
        destruct (view_Some _ _ _ Hw Hul) as (b & Hb%(rw_fresh _ Hw) & _). lia.
    + unfold view. by rewrite Hl.
    + cbn [cur]. rewrite Hix. by rewrite decide_True.
    + intros u l Hul. cbn [cur]. rewrite Hix. rewrite decide_False; [done|]. intros ->. by rewrite Hl in Hul.
Qed.

(** ** Reconciliation in the view *)

Definition wanted (kvs : list (string * Spec)) : Prop :=
  NoDup kvs.*1 ∧ ∀ u s, (u, s) ∈ kvs → sURL s = u ∧ Canonical u = Some u ∧ sProv s = ProvDiscovered.

Definition conflicting (r : Registry) (p : string * Spec) : Prop := conflicts_at p.2 (view r p.1) = true.
#[local] Instance conflicting_dec r p : Decision (conflicting r p).
Proof. unfold conflicting. apply _. Defined.

Lemma wanted_cons u s kvs : wanted ((u, s) :: kvs) →
  u ∉ kvs.*1 ∧ sURL s = u ∧ Canonical u = Some u ∧ wanted kvs.
Proof.
  intros [Hnd Hall]. cbn in Hnd. inversion Hnd; subst. destruct (Hall u s (list_elem_of_here _ _)) as (? & ? & _).
  split_and!; try done. split; [done|]. intros v t Hv. apply Hall. by right.
Qed.

Lemma add_all_view kvs : ∀ cs r,
  reg_wf r → wanted kvs →
  let '(o, r') := add_all kvs.*2 cs r in
  o = Some (cs ++ (filter (conflicting r) kvs).*1) ∧
  (∀ u s, (u, s) ∈ kvs → view r' u = upsert u s (cbc r) (view r u)) ∧
  (∀ u, u ∉ kvs.*1 → view r' u = view r u) ∧
  (∀ u l, byURL (cur r) !! u = Some l → byURL (cur r') !! u = Some l) ∧ reg_wf r'.
Proof.
  induction kvs as [|[u s] kvs IH]; intros cs r Hw Hwant.
  - cbn. rewrite app_nil_r. split_and!; try done. intros u s Hin. by apply elem_of_nil in Hin.
  - destruct (wanted_cons _ _ _ Hwant) as (Hnot & Hsu & Hc & Hrest).
    cbn [fmap list_fmap add_all snd]. assert (Canonical (sURL s) = Some u) as Hcs by (by rewrite Hsu).
    pose proof (Add_view s u r Hw Hcs) as Hadd. destruct (Add s r) as [[o err] r1].
    destruct Hadd as (Hv & Herr & _ & _ & Hix & Hcb & Hw1).
    assert (Hne : ∀ v t, (v, t) ∈ kvs → v ≠ u).
    { intros v t Hin ->. apply Hnot. apply (list_elem_of_fmap_2 fst _ _ Hin). }
    assert (filter (conflicting r1) kvs = filter (conflicting r) kvs) as Hfil.
    { apply filter_ext_in. intros [v t] Hin. unfold conflicting. cbn.
      rewrite Hv, decide_False by (by eapply Hne). done. }
    assert (∀ cs', let '(o, r') := add_all kvs.*2 cs' r1 in
      o = Some (cs' ++ (filter (conflicting r) kvs).*1) ∧
      (∀ v t, (v, t) ∈ (u, s) :: kvs → view r' v = upsert v t (cbc r) (view r v)) ∧
      (∀ v, v ∉ u :: kvs.*1 → view r' v = view r v) ∧
      (∀ v l, byURL (cur r) !! v = Some l → byURL (cur r') !! v = Some l) ∧ reg_wf r') as Hstep.
    { intros cs'. specialize (IH cs' r1 Hw1 Hrest). destruct (add_all _ cs' r1) as [o' r'].
      destruct IH as (Ho & Hin & Hout & Hix' & Hw'). split_and!; [by rewrite <-Hfil| | |auto|done].
      - intros v t [[= -> ->]|Hvt]%elem_of_cons; [by rewrite Hout, Hv, decide_True|].
        rewrite (Hin _ _ Hvt), Hv, Hcb. by rewrite decide_False by (by eapply Hne).
      - intros v Hn. apply not_elem_of_cons in Hn as [Hvu Hn]. rewrite Hout by done. by rewrite Hv, decide_False. }
    destruct (conflicts_at s (view r u)) eqn:Hconf; rewrite Herr.
    + specialize (Hstep (cs ++ [sURL s])). destruct (add_all _ _ r1) as [o' r']. destruct Hstep as (Ho & ?).
      split; [|done]. rewrite Ho, filter_cons_True by done. cbn. by rewrite Hsu, <-app_assoc.
    + specialize (Hstep cs). destruct (add_all _ _ r1) as [o' r']. destruct Hstep as (Ho & ?).
      split; [|done]. by rewrite Ho, filter_cons_False by (unfold conflicting; cbn; by rewrite Hconf).
Qed.

Definition retire (b : Backend) : Backend := if bool_decide (Prov b = ProvDiscovered) then set_draining true b else b.

Lemma set_draining_id b : set_draining (draining b) b = b.
Proof. by destruct b. Qed.

(** One round of the draining loop. *)
Definition drain_one (now : Z) (want : gmap string Spec) (r : Registry) (l : positive) : Registry :=
  if negb (bool_decide (Prov (store r !!! l) = ProvDiscovered)) || draining (store r !!! l) then r
  else match want !! url_of r l with Some _ => r | None => drain now l r end.

Lemma drain_one_view now want r u l :
  reg_wf r → byURL (cur r) !! u = Some l →
  let r' := drain_one now want r l in
  reg_wf r' ∧ cur r' = cur r ∧
  ∀ v, view r' v = if decide (v = u) then match want !! u with Some _ => view r u | None => retire <$> view r u end else view r v.
Proof.
  intros Hw Hl. destruct (view_Some _ _ _ Hw Hl) as (b & Hb & Hu & Hv). unfold drain_one, url_of, drain.
  rewrite !(lookup_total_correct _ _ _ Hb), Hu. cbn zeta.
  destruct (bool_decide (Prov b = ProvDiscovered)) eqn:HP; [destruct (draining b) eqn:Hdr|]; cbn [negb orb].
  - split_and!; try done. intros v. destruct (decide (v = u)) as [->|]; [|done]. destruct (want !! u); [done|].
    rewrite Hv. cbn. unfold retire. rewrite HP. rewrite <-Hdr at 1. by rewrite set_draining_id.
  - destruct (want !! u) as [t|]; [by split_and!; try done; intros v; destruct (decide (v = u)) as [->|]|].
    pose proof (drain_wf now l r Hw (mk_is_Some _ _ Hb)) as Hw'. unfold drain in Hw'.
    rewrite (lookup_total_correct _ _ _ Hb), Hdr in Hw'. split_and!; [done|done|].
    intros v. transitivity (view (set_store (alter (set_draining true) l (store r)) r) v); [done|].
    rewrite (view_alter (set_draining true) u l r v (λ b, eq_refl) Hw Hl). destruct (decide (v = u)) as [->|]; [|done].
    rewrite Hv. cbn. unfold retire. by rewrite HP.
  - split_and!; try done. intros v. destruct (decide (v = u)) as [->|]; [|done]. destruct (want !! u); [done|].
    rewrite Hv. cbn. unfold retire. by rewrite HP.
Qed.

Lemma drain_stale_view now want ls : ∀ r,
  reg_wf r → (∀ l, l ∈ ls → l ∈ Backends (cur r)) →
  let r' := drain_stale now want r ls in
  reg_wf r' ∧ cur r' = cur r ∧
  ∀ u, view r' u = if bool_decide (u ∈ url_of r <$> ls)
                   then match want !! u with Some _ => view r u | None => retire <$> view r u end else view r u.
Proof.
  induction ls as [|l ls IH]; intros r Hw Hls; [done|]. cbn zeta.
  change (drain_stale now want r (l :: ls)) with (drain_stale now want (drain_one now want r l) ls).
  assert (byURL (cur r) !! url_of r l = Some l) as Hl by (apply Hw; split; [apply Hls; by left|done]).
  destruct (drain_one_view now want r _ l Hw Hl) as (Hw1 & Hc1 & Hv1). set (r1 := drain_one now want r l) in *.
  destruct (IH r1 Hw1) as (Hw' & Hc' & Hv'); [intros x Hx; rewrite Hc1; apply Hls; by right|].
  split_and!; [done|congruence|]. intros u. rewrite Hv'.
  assert (url_of r1 <$> ls = url_of r <$> ls) as ->.
  { apply list_fmap_ext. intros i x Hx. apply list_elem_of_lookup_2 in Hx.
    assert (byURL (cur r) !! url_of r x = Some x) as Hx1 by (apply Hw; split; [apply Hls; by right|done]).
    rewrite <-Hc1 in Hx1. by apply Hw1 in Hx1 as [_ ?]. }
  rewrite Hv1. cbn [fmap list_fmap]. destruct (decide (u = url_of r l)) as [->|Hne].
  - rewrite (bool_decide_eq_true_2 (url_of r l ∈ url_of r l :: _)) by (by left).
    destruct (bool_decide _); [|done]. destruct (want !! _); [done|]. destruct (view r (url_of r l)) as [b|]; [|done].
    cbn. f_equal. unfold retire. destruct (bool_decide (Prov b = _)) eqn:HP; cbn; by rewrite HP.
  - destruct (decide (u ∈ url_of r <$> ls)).
    + rewrite !bool_decide_eq_true_2 by (first [done|by right]). done.
    + rewrite !bool_decide_eq_false_2; [done| |done]. by intros [?|?]%elem_of_cons.
Qed.

Context (canon_idem : ∀ raw c, Canonical raw = Some c → Canonical c = Some c).
Context (worder_perm : ∀ m, worder m ≡ₚ map_to_list m).

Definition well_keyed (want : gmap string Spec) : Prop :=
  ∀ u s, want !! u = Some s → sURL s = u ∧ Canonical u = Some u ∧ sProv s = ProvDiscovered.

Lemma build_want_spec desired : ∀ m want,
  well_keyed m → build_want desired m = Some want →
  well_keyed want ∧ (∀ u, is_Some (want !! u) ↔ is_Some (m !! u) ∨ ∃ s, s ∈ desired ∧ Canonical (sURL s) = Some u).
Proof.
  induction desired as [|s desired IH]; intros m want Hm; cbn.
  - intros [= <-]. split; [done|]. intros u. split; [by left|]. intros [?|(s & Hs & _)]; [done|]. by apply elem_of_nil in Hs.
  - destruct (Canonical (sURL s)) as [c|] eqn:Hc; [|done]. intros Hb.
    destruct (IH (<[c := spec_at c s]> m) want) as [Hw Hdom]; [|exact Hb|].
    { intros u t [[<- <-]|[_ Ht]]%lookup_insert_Some; [|by apply Hm]. split_and!; [done|by eapply canon_idem|done]. }
    split; [done|]. intros u. rewrite Hdom, lookup_insert_is_Some'. split.
    + intros [[<-|Hu]|(t & Ht & Htu)]; [right; exists s; split; [by left|done]|by left|right; exists t; split; [by right|done]].
    + intros [Hu|(t & [->|Ht]%elem_of_cons & Htu)]; [by left; right|left; left; congruence|right; eauto].
Qed.

Lemma build_want_None desired : ∀ m, build_want desired m = None ↔ ∃ s, s ∈ desired ∧ Canonical (sURL s) = None.
Proof.
  induction desired as [|s desired IH]; intros m; cbn.
  - split; [done|]. intros (s & Hs & _). by apply elem_of_nil in Hs.
  - destruct (Canonical (sURL s)) as [c|] eqn:Hc.
    + rewrite IH. split; intros (t & Ht & Htn); exists t; (split; [|done]); [by right|].
      apply elem_of_cons in Ht as [->|?]; [congruence|done].
    + split; [intros _; exists s; split; [by left|done]|done].
Qed.

Lemma worder_wanted want : well_keyed want → wanted (worder want) ∧ ∀ u s, (u, s) ∈ worder want ↔ want !! u = Some s.
Proof.
  intros Hk. assert (∀ u s, (u, s) ∈ worder want ↔ want !! u = Some s) as Hel.
  { intros u s. by rewrite worder_perm, elem_of_map_to_list. }
  split; [|done]. split; [rewrite worder_perm; apply NoDup_fst_map_to_list|].
  intros u s Hus%Hel. by apply Hk.
Qed.

(** What a pass makes of the entry at [u]. *)
Definition reconciled (want : gmap string Spec) (c : Config) (u : string) (o : option Backend) : option Backend :=
  match want !! u with Some s => upsert u s c o | None => retire <$> o end.

Definition conflict_urls (want : gmap string Spec) (r : Registry) : list string :=
  merge_sort str_le (filter (conflicting r) (worder want)).*1.

Lemma Reconcile_view now desired want r :
  reg_wf r → build_want desired ∅ = Some want →
  let '(o, r') := ReconcileDiscovered now desired r in
  o = Some (conflict_urls want r) ∧ reg_wf r' ∧
  (∀ u, view r' u = reconciled want (cbc r) u (view r u)) ∧
  (∀ u l, byURL (cur r) !! u = Some l → byURL (cur r') !! u = Some l).
Proof.
  intros Hw Hb. destruct (build_want_spec desired ∅ want) as [Hk _]; [by intros ? ? ?|done|].
  destruct (worder_wanted want Hk) as [Hwant Hel]. unfold ReconcileDiscovered. rewrite Hb.
  pose proof (add_all_view (worder want) [] r Hw Hwant) as Hadd.
  destruct (add_all _ [] r) as [o r1]. destruct Hadd as (-> & Hin & Hout & Hix & Hw1). cbn [app].
  destruct (drain_stale_view now want (Backends (cur r1)) r1 Hw1) as (Hw' & Hc' & Hv'); [done|].
  split_and!; [done|done| |by rewrite Hc'].
  intros u. rewrite Hv'. unfold reconciled. destruct (want !! u) as [s|] eqn:Hu.
  - rewrite (Hin u s) by (by apply Hel). by destruct (bool_decide _).
  - rewrite Hout by (intros ([v s] & -> & Hvs%Hel)%list_elem_of_fmap; cbn in Hu; by rewrite Hvs in Hu).
    destruct (bool_decide _) eqn:Hbd; [done|]. apply bool_decide_eq_false_1 in Hbd.
    assert (view r u = None) as ->; [|done].
    unfold view. destruct (byURL (cur r) !! u) as [l|] eqn:Hl; [|done]. exfalso. apply Hbd.
    apply Hix, Hw1 in Hl as [Hl1 <-]. by apply list_elem_of_fmap_2.
Qed.

(** ** Every history *)

Inductive step : Registry → Registry → Prop :=
  | StAdd s r : step r (Add s r).2
  | StRemove now raw r : step r (Remove now raw r).2
  | StTick now i r : step r (awaitDrain now i r)
  | StReconcile now desired r : step r (ReconcileDiscovered now desired r).2
  | StBackend l f r : (∀ b, URL (f b) = URL b) → step r (set_store (alter f l (store r)) r).

Lemma step_wf r r' : reg_wf r → step r r' → reg_wf r'.
Proof.
  intros Hw. destruct 1; [by apply reg_add_wf|by apply reg_remove_wf|by apply awaitDrain_wf| |by apply alter_wf].
  destruct (build_want desired ∅) as [want|] eqn:Hb.
  - pose proof (Reconcile_view now desired want r Hw Hb) as H. destruct (ReconcileDiscovered now desired r). by destruct H as (_ & ? & _).
  - unfold ReconcileDiscovered. by rewrite Hb.
Qed.

Lemma New_wf c d : reg_wf (New c d).
Proof.
  constructor; cbn; try done.
  - intros u l. split; [done|]. by intros [?%elem_of_nil _].
  - apply NoDup_nil_2.
  - constructor.
  - by intros l ?%elem_of_nil.
  - by intros l ?%elem_of_nil.
Qed.

(** ** A second pass *)

Lemma set_store_id r : set_store (store r) r = r.
Proof. by destruct r. Qed.

Lemma Add_noop u s r b :
  reg_wf r → Canonical (sURL s) = Some u → view r u = Some b →
  conflicts_at s (Some b) = true ∨ set_draining false (set_meta (spec_meta s) b) = b →
  (Add s r).2 = r ∧ (Add s r).1.2 = (if conflicts_at s (Some b) then Some ErrStaticConflict else None).
Proof.
  intros Hw Hc Hv Hor. unfold Add. rewrite Hc. destruct (byURL (cur r) !! u) as [l|] eqn:Hl; [|by unfold view in Hv; rewrite Hl in Hv].
  destruct (view_Some _ _ _ Hw Hl) as (b' & Hb & _ & Hv'). assert (b' = b) as -> by congruence.
  rewrite (lookup_total_correct _ _ _ Hb). cbn [conflicts_at] in *. destruct (_ && _); [done|].
  destruct Hor as [?|Hid]; [done|]. cbn [fst snd]. split; [|done].
  rewrite alter_id; [apply set_store_id|]. intros x Hx. assert (x = b) as -> by congruence. done.
Qed.

(** The entries a pass leaves. *)
Definition settled_entry (want : gmap string Spec) (u : string) (b : Backend) : Prop :=
  match want !! u with
  | Some s => conflicts_at s (Some b) = true ∨ set_draining false (set_meta (spec_meta s) b) = b
  | None => Prov b = ProvDiscovered → draining b = true
  end.

Lemma add_all_noop kvs : ∀ cs r,
  reg_wf r → wanted kvs →
  (∀ u s, (u, s) ∈ kvs → ∃ b, view r u = Some b ∧ (conflicts_at s (Some b) = true ∨ set_draining false (set_meta (spec_meta s) b) = b)) →
  (add_all kvs.*2 cs r).2 = r.
Proof.
  induction kvs as [|[u s] kvs IH]; intros cs r Hw Hwant Hall; [done|].
  destruct (wanted_cons _ _ _ Hwant) as (_ & Hsu & Hc & Hrest).
  destruct (Hall u s (list_elem_of_here _ _)) as (b & Hv & Hor).
  assert (Canonical (sURL s) = Some u) as Hcs by (by rewrite Hsu).
  destruct (Add_noop u s r b Hw Hcs Hv Hor) as [H2 H1]. cbn [fmap list_fmap add_all snd].
  destruct (Add s r) as [[o err] r1]. cbn in H1, H2. subst.
  destruct (bool_decide _ && _); apply IH; try done; intros v t Hvt; apply Hall; by right.
Qed.

Lemma drain_stale_noop now want ls r :
  reg_wf r → (∀ u b, view r u = Some b → settled_entry want u b) → (∀ l, l ∈ ls → l ∈ Backends (cur r)) →
  drain_stale now want r ls = r.
Proof.
  intros Hw Hset. induction ls as [|l ls IH]; intros Hls; [done|].
  change (drain_stale now want r (l :: ls)) with (drain_stale now want (drain_one now want r l) ls).
  assert (drain_one now want r l = r) as ->; [|apply IH; intros x Hx; apply Hls; by right].
  assert (byURL (cur r) !! url_of r l = Some l) as Hl by (apply Hw; split; [apply Hls; by left|done]).
  destruct (view_Some _ _ _ Hw Hl) as (b & Hb & Hu & Hv). apply Hset in Hv. unfold settled_entry in Hv.
  unfold drain_one, drain. rewrite (lookup_total_correct _ _ _ Hb).
  destruct (bool_decide (Prov b = _)) eqn:HP; [|done]. apply bool_decide_eq_true in HP.
  destruct (draining b) eqn:Hdr; [done|]. cbn [negb orb]. destruct (want !! url_of r l); [done|]. by specialize (Hv HP).
Qed.

Lemma reconciled_settled want c u o b :
  well_keyed want → reconciled want c u o = Some b → settled_entry want u b.
Proof.
  intros Hk. unfold reconciled, settled_entry. destruct (want !! u) as [s|] eqn:Hu.
  - destruct o as [b0|]; cbn.
    + destruct (_ && _) eqn:Hc; intros [= <-]; [left; done|by right].
    + intros [= <-]. by right.
  - destruct o as [b0|]; [|done]. intros [= <-]. unfold retire.
    destruct (bool_decide (Prov b0 = _)) eqn:HP; [done|]. apply bool_decide_eq_false in HP. by intros ?%HP.
Qed.

Lemma reconciled_conflict want c u s o :
  well_keyed want → want !! u = Some s → conflicts_at s (reconciled want c u o) = conflicts_at s o.
Proof.
  intros Hk Hu. destruct (Hk _ _ Hu) as (_ & _ & HP). unfold reconciled. rewrite Hu. destruct o as [b|]; cbn; rewrite HP, ?andb_true_r; [|done].
  destruct (bool_decide (Prov b = ProvStatic)) eqn:Hb; cbn; by rewrite ?Hb, ?HP.
Qed.

(** * Properties *)

(** C27: in every history of the registry the published snapshot lists each URL at most
    once, in URL order, its index holds exactly the listed backends, and every listed
    backend exists. *)
Theorem registry_consistent c d r :
  rtc step (New c d) r →
  (∀ u l, byURL (cur r) !! u = Some l ↔ l ∈ Backends (cur r) ∧ url_of r l = u) ∧
  NoDup (url_of r <$> Backends (cur r)) ∧ StronglySorted (by_url r) (Backends (cur r)) ∧
  (∀ l, l ∈ Backends (cur r) → is_Some (store r !! l)) ∧ Version (cur r) = version r.
Proof.
  intros Hr. assert (reg_wf r) as [Hi Hnd Hs Hk _ _ Hv].
  { revert Hr. generalize (New_wf c d). generalize (New c d). intros r0 Hw. induction 1 as [|a b e Hab _ IH]; [done|].
    apply IH. by eapply step_wf. }
  split_and!; try done.
Qed.

(** registering a URL updates the entry of its canonical form and no other: a bad URL
    and a conflict with a static entry change nothing; a known entry keeps its identity,
    its gauges, circuit and history, takes the new metadata and is no longer draining; a new
    one starts unknown, so it is not available. *)
Theorem add_updates_one_entry s r :
  reg_wf r →
  let '((o, err), r') := Add s r in
  match Canonical (sURL s) with
  | None => r' = r ∧ o = None ∧ err = Some ErrBadURL
  | Some canon =>
      (∀ u, u ≠ canon → view r' u = view r u) ∧ byURL (cur r') !! canon = o ∧
      match view r canon with
      | Some b =>
          if bool_decide (Prov b = ProvStatic ∧ sProv s = ProvDiscovered)
          then r' = r ∧ err = Some ErrStaticConflict
          else err = None ∧ cur r' = cur r ∧ view r' canon = Some (set_draining false (set_meta (spec_meta s) b))
      | None =>
          err = None ∧ ∃ b, view r' canon = Some b ∧ ∀ now, Available now b = false
      end
  end.
Proof.
  intros Hw. destruct (Canonical (sURL s)) as [canon|] eqn:Hc; [|unfold Add; by rewrite Hc].
  pose proof (Add_view s canon r Hw Hc) as Hadd.
  assert (∀ l b, byURL (cur r) !! canon = Some l → store r !! l = Some b →
    if bool_decide (Prov b = ProvStatic) && bool_decide (sProv s = ProvDiscovered)
    then (Add s r).2 = r else cur (Add s r).2 = cur r) as Hcase.
  { intros l b Hl Hb. unfold Add. rewrite Hc, Hl, (lookup_total_correct _ _ _ Hb). by destruct (_ && _). }
  destruct (Add s r) as [[o err] r']. destruct Hadd as (Hv & Herr & Ho & _ & _ & _ & _). cbn in Hcase.
  split_and!; [intros u Hu; by rewrite Hv, decide_False|done|].
  specialize (Hv canon). rewrite decide_True in Hv by done.
  destruct (view r canon) as [b|] eqn:Hb; cbn [upsert conflicts_at] in Hv, Herr.
  - unfold view in Hb. destruct (byURL (cur r) !! canon) as [l|] eqn:Hl; [|done]. specialize (Hcase l b eq_refl Hb).
    destruct (decide (Prov b = ProvStatic ∧ sProv s = ProvDiscovered)) as [[H1 H2]|Hn].
    + rewrite bool_decide_eq_true_2 by done. by rewrite (bool_decide_eq_true_2 _ H1), (bool_decide_eq_true_2 _ H2) in *.
    + rewrite bool_decide_eq_false_2 by done.
      assert (bool_decide (Prov b = ProvStatic) && bool_decide (sProv s = ProvDiscovered) = false) as Hf.
      { apply not_true_is_false. intros [?%bool_decide_eq_true ?%bool_decide_eq_true]%andb_true_iff. auto. }
      rewrite Hf in *. done.
  - split; [done|]. eexists. split; [exact Hv|]. done.
Qed.

(** a reconciliation pass that accepts the desired set makes the registry what the set
    asks for: desired URLs are registered with their metadata, static entries stay as they
    are and are reported as conflicts, discovered entries no longer desired are draining,
    and nothing leaves the snapshot; with a bad URL it changes nothing. *)
Theorem reconcile_spec now desired r :
  reg_wf r →
  let '(o, r') := ReconcileDiscovered now desired r in
  match build_want desired ∅ with
  | None => (∃ s, s ∈ desired ∧ Canonical (sURL s) = None) ∧ o = None ∧ r' = r
  | Some want =>
      (∀ u, is_Some (want !! u) ↔ ∃ s, s ∈ desired ∧ Canonical (sURL s) = Some u) ∧
      (∃ cs, o = Some cs ∧ ∀ u, u ∈ cs ↔ is_Some (want !! u) ∧ Prov <$> view r u = Some ProvStatic) ∧
      (∀ u, view r' u = reconciled want (cbc r) u (view r u)) ∧
      (∀ u l, byURL (cur r) !! u = Some l → byURL (cur r') !! u = Some l)
  end.
Proof.
  intros Hw. destruct (build_want desired ∅) as [want|] eqn:Hb.
  - destruct (build_want_spec desired ∅ want) as [Hk Hdom]; [by intros ? ? ?|done|].
    destruct (worder_wanted want Hk) as [_ Hel].
    pose proof (Reconcile_view now desired want r Hw Hb) as H. destruct (ReconcileDiscovered now desired r) as [o r'].
    destruct H as (-> & _ & Hv & Hix). split_and!; [|eexists; split; [done|]|done|done].
    + intros u. rewrite Hdom, lookup_empty. split; [by intros [[? ?]|?]|by right].
    + intros u. unfold conflict_urls. rewrite merge_sort_Permutation. rewrite list_elem_of_fmap. split.
      * intros ([v s] & -> & [Hc Hin%Hel]%list_elem_of_filter). cbn in *. split; [by eexists|].
        unfold conflicting in Hc. cbn in Hc. destruct (view r v) as [b|]; [|done]. cbn in *.
        apply andb_true_iff in Hc as [->%bool_decide_eq_true _]. done.
      * intros [[s Hs] Hp]. exists (u, s). split; [done|]. apply list_elem_of_filter. split; [|by apply Hel].
        unfold conflicting. cbn. destruct (view r u) as [b|]; [|done]. cbn in *. injection Hp as ->.
        by rewrite (proj2 (proj2 (Hk _ _ Hs))).
  - unfold ReconcileDiscovered. rewrite Hb. split_and!; try done. by apply (build_want_None desired ∅).
Qed.

(** applying the same desired set again changes nothing at all and reports the same
    conflicts. *)
Theorem reconcile_idempotent now now' desired r :
  reg_wf r →
  let '(o, r') := ReconcileDiscovered now desired r in
  ReconcileDiscovered now' desired r' = (o, r').
Proof.
  intros Hw. destruct (build_want desired ∅) as [want|] eqn:Hb.
  - destruct (build_want_spec desired ∅ want) as [Hk _]; [by intros ? ? ?|done|].
    destruct (worder_wanted want Hk) as [Hwant Hel].
    pose proof (Reconcile_view now desired want r Hw Hb) as H. destruct (ReconcileDiscovered now desired r) as [o r'].
    destruct H as (-> & Hw' & Hv & _). unfold ReconcileDiscovered. rewrite Hb.
    pose proof (add_all_view (worder want) [] r' Hw' Hwant) as Hadd.
    pose proof (add_all_noop (worder want) [] r' Hw' Hwant) as Hnoop.
    destruct (add_all _ [] r') as [o2 r2]. destruct Hadd as (-> & _). cbn in Hnoop. rewrite Hnoop; [cbn [app]|].
    + rewrite drain_stale_noop; [|done| |done].
      * do 2 f_equal. unfold conflict_urls. do 2 f_equal. apply filter_ext_in. intros [u s] Hus%Hel. unfold conflicting. cbn.
        by rewrite Hv, reconciled_conflict.
      * intros u b Hub. rewrite Hv in Hub. by eapply reconciled_settled.
    + intros u s Hus%Hel. rewrite Hv. unfold reconciled. rewrite Hus.
      destruct (view r u) as [b|] eqn:Hvu; cbn [upsert].
      * destruct (_ && _) eqn:Hc; eexists; (split; [done|]); [by left|by right].
      * eexists. split; [done|]. by right.
  - unfold ReconcileDiscovered. by rewrite !Hb.
Qed.

(** a backend leaves the snapshot only when a drain of its URL is over: the drained
    backend has nothing in flight, or its deadline has passed. *)
Theorem leaves_only_drained r r' l :
  reg_wf r → step r r' → l ∈ Backends (cur r) → l ∉ Backends (cur r') →
  ∃ now i d, r' = awaitDrain now i r ∧ drainers r !! i = Some d ∧ url_of r (dr_b d) = url_of r l ∧
    (inflight (load (store r !!! dr_b d)) ≤ 0 ∨ dr_deadline d ≤ now).
Proof.
  intros Hw Hstep Hin Hout. assert (byURL (cur r) !! url_of r l = Some l) as Hl by (by apply Hw).
  destruct Hstep as [s r|now raw r|now i r|now desired r|k f r Hf].
  - destruct Hout. destruct (Canonical (sURL s)) as [c|] eqn:Hc; [|unfold Add; by rewrite Hc].
    pose proof (Add_view s c r Hw Hc) as H. destruct (Add s r) as [[o err] r']. destruct H as (_ & _ & _ & _ & Hix & _ & Hw').
    apply Hix in Hl. by apply Hw' in Hl as [? _].
  - destruct Hout. unfold Remove. destruct (Canonical raw); [|done]. destruct (byURL (cur r) !! s); [|done].
    cbn [snd]. unfold drain. by destruct (draining _).
  - unfold awaitDrain in *. destruct (drainers r !! i) as [d|] eqn:Hd; [|done].
    destruct (drain_done now d r) eqn:Hdone; [|done].
    assert (reg_wf (set_drainers (delete i (drainers r)) r)) as Hw0.
    { pose proof (awaitDrain_wf now i r Hw). destruct Hw as [Hi Hnd Hs Hk Hdr Hfr Hv]. constructor; try done.
      intros x Hx. apply Hdr. cbn in Hx. rewrite delete_take_drop in Hx.
      rewrite <-(take_drop_middle _ _ _ Hd). rewrite elem_of_app in *. destruct Hx; [by left|right; by right]. }
    destruct (reg_unlink_wf (dr_b d) _ Hw0) as [_ Hel]. exists now, i, d. rewrite Hd, Hdone. split_and!; try done.
    + destruct (decide (url_of r (dr_b d) = url_of r l)); [done|]. destruct Hout. apply Hel. split; [done|]. intros He. by symmetry in He.
    + unfold drain_done in Hdone. apply orb_true_iff in Hdone. rewrite !Z.leb_le in Hdone. done.
  - destruct Hout. destruct (build_want desired ∅) as [want|] eqn:Hb.
    + pose proof (Reconcile_view now desired want r Hw Hb) as H. destruct (ReconcileDiscovered now desired r) as [o r'].
      destruct H as (_ & Hw' & _ & Hix). apply Hix in Hl. by apply Hw' in Hl as [? _].
    + unfold ReconcileDiscovered. by rewrite Hb.
  - done.
Qed.
End registry.

(** ** Witnesses *)

Definition demo_canonical (s : string) : option string := if bool_decide (s = ""%string) then None else Some s.
Definition demo_spec (u : string) (p : Provenance) : Spec := MkSpec u KindWorker "" HealthActive p "m" "" 4.
Definition demo_desired : list Spec := [demo_spec "b" ProvDiscovered; demo_spec "c" ProvDiscovered].
Definition demo_reg : Registry :=
  (Add demo_canonical (demo_spec "b" ProvStatic) (Add demo_canonical (demo_spec "a" ProvDiscovered) (New DefaultConfig 0)).2).2.

Lemma demo_idem raw c : demo_canonical raw = Some c → demo_canonical c = Some c.
Proof. unfold demo_canonical. destruct (bool_decide (raw = _)) eqn:H; [done|]. intros [= <-]. by rewrite H. Qed.

Lemma demo_reg_wf : reg_wf demo_reg.
Proof. apply reg_add_wf, reg_add_wf, New_wf. Qed.

Lemma registry_consistent_witness : NoDup (url_of demo_reg <$> Backends (cur demo_reg)).
Proof.
  apply (registry_consistent demo_canonical map_to_list demo_idem (λ m, reflexivity _) DefaultConfig 0 demo_reg).
  eapply rtc_l; [apply (StAdd _ _ (demo_spec "a" ProvDiscovered))|].
  eapply rtc_l; [apply (StAdd _ _ (demo_spec "b" ProvStatic))|]. apply rtc_refl.
Defined.

Lemma add_updates_one_entry_witness :
  (Add demo_canonical (demo_spec "b" ProvDiscovered) demo_reg).1.2 = Some ErrStaticConflict ∧
  (Add demo_canonical (demo_spec "b" ProvDiscovered) demo_reg).2 = demo_reg.
Proof. pose proof (add_updates_one_entry demo_canonical (demo_spec "b" ProvDiscovered) demo_reg demo_reg_wf) as H. split; apply H. Defined.

Lemma reconcile_spec_witness :
  let r' := (ReconcileDiscovered demo_canonical map_to_list 0 demo_desired demo_reg).2 in
  draining <$> view r' "a" = Some true ∧ draining <$> view r' "b" = Some false ∧ draining <$> view r' "c" = Some false.
Proof.
  pose proof (reconcile_spec demo_canonical map_to_list demo_idem (λ m, reflexivity _) 0 demo_desired demo_reg demo_reg_wf) as H.
  destruct (ReconcileDiscovered _ _ 0 demo_desired demo_reg) as [o r'].
  destruct (build_want demo_canonical demo_desired ∅) as [want|] eqn:Hb; [|vm_compute in Hb; done].
  destruct H as (_ & _ & Hv & _). cbn [snd]. rewrite !Hv.
  assert (want = default ∅ (build_want demo_canonical demo_desired ∅)) as -> by (by rewrite Hb).
  vm_compute. auto.
Defined.

Lemma reconcile_idempotent_witness :
  let p := ReconcileDiscovered demo_canonical map_to_list 0 demo_desired demo_reg in
  ReconcileDiscovered demo_canonical map_to_list 5 demo_desired p.2 = p.
Proof.
  pose proof (reconcile_idempotent demo_canonical map_to_list demo_idem (λ m, reflexivity _) 0 5 demo_desired demo_reg demo_reg_wf) as H.
  destruct (ReconcileDiscovered _ _ 0 demo_desired demo_reg) as [o r']. exact H.
Defined.

Definition demo_draining : Registry := (Remove demo_canonical 0 "a" demo_reg).2.

Lemma leaves_only_drained_witness : ∃ now i d, drainers demo_draining !! i = Some d ∧
  (inflight (load (store demo_draining !!! dr_b d)) ≤ 0 ∨ dr_deadline d ≤ now).
Proof.
  destruct (leaves_only_drained demo_canonical map_to_list demo_idem (λ m, reflexivity _) demo_draining (awaitDrain 7 0 demo_draining) 1)
    as (now & i & d & _ & Hd & _ & Ho).
  - apply reg_remove_wf, demo_reg_wf.
  - constructor.
  - vm_compute. left.
  - intros H. vm_compute in H. inversion H; subst. inversion H2.
  - eauto.
Defined.

(** re-adding a draining backend clears its flag but not the waiting goroutine, which
    unlinks the backend, and reports it dropped, although nothing drains it any more. *)
Theorem readd_still_dropped :
  let r := (Add demo_canonical (demo_spec "a" ProvDiscovered) demo_draining).2 in
  draining <$> view r "a" = Some false ∧
  view (awaitDrain 0 0 r) "a" = None ∧ dropped (awaitDrain 0 0 r) = [1%positive].
Proof. vm_compute. auto. Qed.
