(* ===== verification/Policy.v ===== *)
(** * Policy: choosing among equals

    [src/router/internal/policy/policy.go]: the request record, the errors, the reservoir
    tie-break and the least-outstanding selector.  [rand.IntN] is an oracle: the list of
    the values it will return, each below the bound it is asked with. *)

From stdpp Require Import base gmap list strings.
From Stdlib Require Import ZArith Lia.
From Corelib Require Import SpecFloat.
From S2P Require Import Prelude KvUnits Circuit WaitQ Backend.
Open Scope Z_scope.

(** ** Data *)

(** [SaturatedError] is the plain sentinel with a preferred backend attached. *)
Inductive sel_error :=
  | ErrNoCandidates
  | ErrSplitGuardBlocked
  | ErrAllBackendsSaturated
  | SaturatedError (Preferred : positive) (Limit : Z).

(** [errors.Is(err, ErrAllBackendsSaturated)]. *)
Definition is_saturated (e : sel_error) : bool :=
  match e with ErrAllBackendsSaturated | SaturatedError _ _ => true | _ => false end.

Record PrefillEstimate := MkPrefill { pf_Backend : positive; pf_Tokens : Z }.

(** [PolicyState] is the affinity flow's [decision]: its [mark]. *)
Record RoutingRequest := MkRequest {
  Model : string;
  Units : list Unit_;
  EstTokens : Z;
  Prefill : option PrefillEstimate;
  PolicyState : option bool;
}.

Definition set_PolicyState (mark : bool) (rr : RoutingRequest) : RoutingRequest :=
  MkRequest (Model rr) (Units rr) (EstTokens rr) (Prefill rr) (Some mark).
Definition set_Prefill (p : PrefillEstimate) (rr : RoutingRequest) : RoutingRequest :=
  MkRequest (Model rr) (Units rr) (EstTokens rr) (Some p) (PolicyState rr).

(** ** [pickBest] *)

Inductive direction := minimize | maximize.

Record picking (A : Type) := Picking { best : option A; bestScore : float64; ties : nat; draws : list nat }.
Arguments Picking {A} _ _ _ _.
Arguments best {A} _.
Arguments bestScore {A} _.
Arguments ties {A} _.
Arguments draws {A} _.

Definition better (dir : direction) (s b : float64) : bool :=
  (match dir with minimize => s <.? b | maximize => b <.? s end)%wekai.

(** One round of the loop.  A draw is taken only on a tie. *)
Definition pick_step {A} (dir : direction) (score : A → float64) (p : picking A) (c : A) : picking A :=
  let s := score c in
  if better dir s (bestScore p) then Picking (Some c) s 1 (draws p)
  else if (s =.? bestScore p)%wekai then
    let ties := S (ties p) in
    let b := if bool_decide (default O (head (draws p)) = O) then Some c else best p in
    Picking b (bestScore p) ties (tail (draws p))
  else p.

Definition pick_start {A} (dir : direction) (ds : list nat) : picking A :=
  Picking None (match dir with minimize => f64_inf | maximize => f64_neg_inf end) 0 ds.

Definition pickBest {A} (dir : direction) (score : A → float64) (cands : list A) (ds : list nat) : option A :=
  best (foldl (pick_step dir score) (pick_start dir ds) cands).

(** ** [LeastOutstanding] *)

Definition LeastOutstanding_Select (st : gmap positive Backend) (ds : list nat) (cands : list positive) : option positive * option sel_error :=
  match cands with
  | [] => (None, Some ErrNoCandidates)
  | _ => (pickBest minimize (λ l, NormalizedLoad (st !!! l)) cands ds, None)
  end.

(** ** The order of the floats

    Comparison agrees with a lexicographic order on triples, so it is total away from NaN. *)

Definition rank (f : float64) : Z * Z * Z :=
  match f with
  | S754_infinity true => (-2, 0, 0)
  | S754_finite true m e => (-1, - e, - Z.pos m)
  | S754_zero _ => (0, 0, 0)
  | S754_finite false m e => (1, e, Z.pos m)
  | S754_infinity false => (2, 0, 0)
  | S754_nan => (3, 0, 0)
  end.
Definition lex (a b : Z * Z * Z) : Prop :=
  let '(a1, a2, a3) := a in let '(b1, b2, b3) := b in a1 < b1 ∨ (a1 = b1 ∧ (a2 < b2 ∨ (a2 = b2 ∧ a3 < b3))).

Definition num (f : float64) : Prop := f ≠ S754_nan.

Lemma SFcompare_rank a b :
  num a → num b →
  match SFcompare a b with
  | Some Lt => lex (rank a) (rank b)
  | Some Gt => lex (rank b) (rank a)
  | Some Eq => rank a = rank b
  | None => False
  end.
Proof.
  unfold num. intros Ha Hb. destruct a as [[]|[]| |[] m e], b as [[]|[]| |[] m' e'];
    cbn -[Pos.compare_cont Z.compare]; try done; try lia;
    destruct (Z.compare_spec e e'); cbn -[Pos.compare_cont]; try lia;
    change (Pos.compare_cont Eq m m') with (Pos.compare m m'); destruct (Pos.compare_spec m m'); cbn; subst; try lia; done.
Qed.

Lemma lex_irrefl a : ¬ lex a a.
Proof. destruct a as [[] ?]. cbn. lia. Qed.
Lemma lex_trans a b c : lex a b → lex b c → lex a c.
Proof. destruct a as [[] ?], b as [[] ?], c as [[] ?]. cbn. lia. Qed.
Lemma lex_total a b : lex a b ∨ a = b ∨ lex b a.
Proof.
  destruct a as [[a1 a2] a3], b as [[b1 b2] b3]. cbn.
  destruct (Z.lt_trichotomy a1 b1) as [?|[->|?]]; [tauto| |tauto].
  destruct (Z.lt_trichotomy a2 b2) as [?|[->|?]]; [tauto| |tauto].
  destruct (Z.lt_trichotomy a3 b3) as [?|[->|?]]; tauto.
Qed.

Lemma flt_rank a b : num a → num b → (a <.? b)%wekai = true ↔ lex (rank a) (rank b).
Proof.
  intros Ha Hb. pose proof (SFcompare_rank a b Ha Hb) as H. unfold SFltb.
  destruct (SFcompare a b) as [[]|]; try done; (split; [done|]); intros Hl; exfalso.
  - rewrite H in Hl. by apply lex_irrefl in Hl.
  - eapply lex_irrefl, lex_trans; eauto.
Qed.

Lemma feq_rank a b : num a → num b → (a =.? b)%wekai = true ↔ rank a = rank b.
Proof.
  intros Ha Hb. pose proof (SFcompare_rank a b Ha Hb) as H. unfold SFeqb.
  destruct (SFcompare a b) as [[]|]; try done; (split; [done|]); intros He; rewrite He in H; by apply lex_irrefl in H.
Qed.

Lemma flt_not_fle a b : num a → num b → SFltb a b = negb (SFleb b a).
Proof.
  intros Ha Hb. pose proof (SFcompare_rank a b Ha Hb) as H1. pose proof (SFcompare_rank b a Hb Ha) as H2. unfold SFltb, SFleb.
  destruct (SFcompare a b) as [[]|], (SFcompare b a) as [[]|]; try done; exfalso.
  - rewrite H1 in H2. by apply lex_irrefl in H2.
  - rewrite H2 in H1. by apply lex_irrefl in H1.
  - eapply lex_irrefl, lex_trans; eauto.
  - eapply lex_irrefl, lex_trans; eauto.
Qed.

(** ** The reservoir *)

Section reservoir.
Context {A : Type} (dir : direction) (score : A → float64).

(** What the loop compares: the score itself, or its mirror image. *)
Definition key (f : float64) : Z * Z * Z :=
  match dir with minimize => rank f | maximize => let '(a, b, c) := rank f in (- a, - b, - c) end.

Lemma better_key a b : num a → num b → better dir a b = true ↔ lex (key a) (key b).
Proof.
  intros Ha Hb. unfold better, key. destruct dir.
  - by rewrite flt_rank.
  - rewrite flt_rank by done. destruct (rank a) as [[] ?], (rank b) as [[] ?]. cbn. lia.
Qed.

Lemma feq_key a b : num a → num b → (a =.? b)%wekai = true ↔ key a = key b.
Proof.
  intros Ha Hb. rewrite feq_rank by done. unfold key. destruct dir; [done|].
  destruct (rank a) as [[] ?], (rank b) as [[] ?]. split; [by intros [= -> -> ->]|]. intros [= ? ? ?]. repeat f_equal; lia.
Qed.

(** The bounds [rand.IntN] is asked with, along the loop: they do not depend on the draws. *)
Fixpoint bounds (cands : list A) (b : float64) (t : nat) : list nat :=
  match cands with
  | [] => []
  | c :: cs =>
      if better dir (score c) b then bounds cs (score c) 1
      else if (score c =.? b)%wekai then S t :: bounds cs b (S t) else bounds cs b t
  end.

(** Every list of draws within the bounds. *)
Fixpoint draw_space (bs : list nat) : list (list nat) :=
  match bs with [] => [[]] | b :: bs => d ← seq 0 b; cons d <$> draw_space bs end.

(** The score and the number of ties the loop ends with. *)
Fixpoint final (cands : list A) (b : float64) (t : nat) : float64 * nat :=
  match cands with
  | [] => (b, t)
  | c :: cs =>
      if better dir (score c) b then final cs (score c) 1
      else if (score c =.? b)%wekai then final cs b (S t) else final cs b t
  end.

Definition le_key (a b : Z * Z * Z) : Prop := ¬ lex b a.
Lemma le_key_trans a b c : le_key a b → le_key b c → le_key a c.
Proof. unfold le_key. destruct a as [[] ?], b as [[] ?], c as [[] ?]. cbn. lia. Qed.
Lemma lex_le_key a b : lex a b → le_key a b.
Proof. unfold le_key. destruct a as [[] ?], b as [[] ?]. cbn. lia. Qed.
Lemma le_key_refl a : le_key a a.
Proof. apply lex_irrefl. Qed.

Lemma final_least cands : ∀ b t, num b → (∀ c, c ∈ cands → num (score c)) →
  num (final cands b t).1 ∧ le_key (key (final cands b t).1) (key b) ∧
  ∀ c, c ∈ cands → le_key (key (final cands b t).1) (key (score c)).
Proof.
  induction cands as [|c cs IH]; intros b t Hb Hall; cbn [final].
  - cbn. split_and!; [done|apply le_key_refl|by intros c ?%elem_of_nil].
  - assert (Hc : num (score c)) by (apply Hall; by left).
    assert (Hcs : ∀ x, x ∈ cs → num (score x)) by (intros; apply Hall; by right).
    destruct (better dir (score c) b) eqn:Hbt; [|destruct (score c =.? b)%wekai eqn:Heq].
    + apply better_key in Hbt; [|done..]. destruct (IH (score c) 1%nat Hc Hcs) as (H1 & H2 & H3).
      split_and!; [done|eapply le_key_trans; [done|by apply lex_le_key]|].
      intros x [->|?]%elem_of_cons; auto.
    + apply feq_key in Heq; [|done..]. destruct (IH b (S t) Hb Hcs) as (H1 & H2 & H3).
      split_and!; [done|done|]. intros x [->|?]%elem_of_cons; [by rewrite Heq|auto].
    + destruct (IH b t Hb Hcs) as (H1 & H2 & H3). split_and!; [done|done|].
      intros x [->|?]%elem_of_cons; [|auto]. eapply le_key_trans; [done|]. unfold le_key.
      intros Hlt. apply better_key in Hlt; [|done..]. congruence.
Qed.

(** The loop from an arbitrary state. *)
Definition pick_from (b : option A) (s : float64) (t : nat) (cs : list A) (ds : list nat) : option A :=
  best (foldl (pick_step dir score) (Picking b s t ds) cs).

Lemma pick_from_cons b s t c cs ds :
  pick_from b s t (c :: cs) ds =
    if better dir (score c) s then pick_from (Some c) (score c) 1 cs ds
    else if (score c =.? s)%wekai then pick_from (if bool_decide (default O (head ds) = O) then Some c else b) s (S t) cs (tail ds)
    else pick_from b s t cs ds.
Proof.
  unfold pick_from. cbn [foldl].
  assert (pick_step dir score (Picking b s t ds) c =
    if better dir (score c) s then Picking (Some c) (score c) 1 ds
    else if (score c =.? s)%wekai then Picking (if bool_decide (default O (head ds) = O) then Some c else b) s (S t) (tail ds)
    else Picking b s t ds) as -> by done.
  destruct (better _ _ _); [done|]. by destruct (_ =.? _)%wekai.
Qed.

Lemma pick_from_in cs : ∀ b s t ds, pick_from b s t cs ds = b ∨ ∃ c, c ∈ cs ∧ pick_from b s t cs ds = Some c.
Proof.
  induction cs as [|c cs IH]; intros b s t ds; [by left|]. rewrite pick_from_cons.
  assert (∀ b' s' t' ds', b' = b ∨ b' = Some c → pick_from b' s' t' cs ds' = b ∨ ∃ x, x ∈ c :: cs ∧ pick_from b' s' t' cs ds' = Some x) as H.
  { intros b' s' t' ds' Hb. destruct (IH b' s' t' ds') as [He|(x & Hx & He)].
    - rewrite He. destruct Hb as [->| ->]; [by left|right; exists c; split; [by left|done]].
    - right. exists x. split; [by right|done]. }
  destruct (better _ _ _); [by apply H; right|]. destruct (_ =.? _)%wekai; [|by apply H; left].
  apply H. destruct (bool_decide _); auto.
Qed.

(** Whatever the draws, a pick is a candidate and none is better. *)
Lemma pick_from_least cs : ∀ b s t ds c, num s → (∀ x, x ∈ cs → num (score x)) → pick_from b s t cs ds = Some c →
  (c ∈ cs ∧ key (score c) = key (final cs s t).1) ∨ (b = Some c ∧ key (final cs s t).1 = key s).
Proof.
  induction cs as [|x cs IH]; intros b s t ds c Hs Hall Hp; [by right|].
  assert (Hnx : num (score x)) by (apply Hall; by left).
  assert (Hcs : ∀ y, y ∈ cs → num (score y)) by (intros; apply Hall; by right).
  rewrite pick_from_cons in Hp. cbn [final]. destruct (better dir (score x) s); [|destruct (score x =.? s)%wekai eqn:He].
  - destruct (IH _ _ _ _ _ Hnx Hcs Hp) as [[? ?]|[[= <-] ?]]; left; split; first [by right|by left|done].
  - apply feq_key in He; [|done..]. destruct (IH _ _ _ _ _ Hs Hcs Hp) as [[? ?]|[Hb Hk]].
    + left. split; [by right|done].
    + destruct (bool_decide _); [|by right]. injection Hb as <-. left. split; [by left|congruence].
  - destruct (IH _ _ _ _ _ Hs Hcs Hp) as [[? ?]|[? ?]]; [left; split; [by right|done]|by right].
Qed.

Lemma pickBest_least cands ds c :
  (∀ x, x ∈ cands → num (score x)) → pickBest dir score cands ds = Some c →
  c ∈ cands ∧ ∀ x, x ∈ cands → better dir (score x) (score c) = false.
Proof.
  intros Hall Hp. assert (Hs : num (bestScore (pick_start (A:=A) dir []))) by (unfold num; by destruct dir).
  destruct (pick_from_least cands None _ 0 ds c Hs Hall Hp) as [[Hc Hk]|[? _]]; [|done]. split; [done|].
  intros x Hx. apply not_true_iff_false. intros Hb%better_key; [|auto..].
  destruct (final_least cands _ 0%nat Hs Hall) as (_ & _ & Hl). apply (Hl x Hx). by rewrite <-Hk.
Qed.

Lemma pickBest_in cands ds c : pickBest dir score cands ds = Some c → c ∈ cands.
Proof.
  intros Hp. change (pick_from None (bestScore (pick_start (A:=A) dir [])) 0 cands ds = Some c) in Hp.
  destruct (pick_from_in cands None (bestScore (pick_start (A:=A) dir [])) 0 ds) as [He|(x & Hx & He)]; [congruence|].
  assert (x = c) as <- by congruence. done.
Qed.

Context `{!EqDecision A}.

(** How many lists of draws make the loop end with [x]. *)
Definition wins (b : option A) (s : float64) (t : nat) (cs : list A) (x : option A) : nat :=
  length (filter (λ ds, pick_from b s t cs ds = x) (draw_space (bounds cs s t))).

Lemma wins_nobody b s t cs x : x ≠ b → (∀ c, c ∈ cs → x ≠ Some c) → wins b s t cs x = 0%nat.
Proof.
  intros Hb Hcs. unfold wins. assert (filter (λ ds, pick_from b s t cs ds = x) (draw_space (bounds cs s t)) = []) as ->; [|done].
  apply elem_of_nil_inv. intros ds [Hp _]%list_elem_of_filter.
  destruct (pick_from_in cs b s t ds) as [He|(c & Hc & He)]; [congruence|]. apply (Hcs c Hc). congruence.
Qed.

Lemma filter_fmap_length {B C} (f : B → C) (P : C → Prop) `{!∀ x, Decision (P x)} (l : list B) :
  length (filter P (f <$> l)) = length (filter (λ x, P (f x)) l).
Proof. induction l as [|x l IH]; [done|]. cbn [fmap list_fmap]. rewrite !filter_cons. repeat case_decide; cbn; auto; tauto. Qed.

Lemma filter_bind_length (P : list nat → Prop) `{!∀ x, Decision (P x)} (ls : list nat) (L : list (list nat)) k :
  (∀ d, d ∈ ls → length (filter (λ ds, P (d :: ds)) L) = k) →
  length (filter P (d ← ls; cons d <$> L)) = (length ls * k)%nat.
Proof.
  induction ls as [|d ls IH]; intros Hall; [done|].
  change (d ← d :: ls; cons d <$> L) with ((cons d <$> L) ++ (d ← ls; cons d <$> L)).
  rewrite filter_app, length_app, filter_fmap_length, Hall by (by left). rewrite IH by (intros; apply Hall; by right). cbn. lia.
Qed.

Lemma space_bind_length (ls : list nat) (L : list (list nat)) :
  length (d ← ls; cons d <$> L) = (length ls * length L)%nat.
Proof.
  induction ls as [|d ls IH]; [done|].
  change (d ← d :: ls; cons d <$> L) with ((cons d <$> L) ++ (d ← ls; cons d <$> L)).
  rewrite length_app, length_fmap, IH. cbn. lia.
Qed.

(** On a tie the space splits by the first draw: zero takes the newcomer, the rest keep. *)
Lemma wins_tie b s t c cs x :
  better dir (score c) s = false → (score c =.? s)%wekai = true →
  wins b s t (c :: cs) x = (wins (Some c) s (S t) cs x + t * wins b s (S t) cs x)%nat.
Proof.
  intros Hb He. unfold wins. cbn [bounds]. rewrite Hb, He. cbn [draw_space].
  assert (∀ d ds, pick_from b s t (c :: cs) (d :: ds) = pick_from (if bool_decide (d = O) then Some c else b) s (S t) cs ds) as Hp.
  { intros d ds. by rewrite pick_from_cons, Hb, He. }
  cbn [seq]. match goal with |- context [mbind ?f (0%nat :: ?l)] => change (mbind f (0%nat :: l)) with (f 0%nat ++ mbind f l) end.
  rewrite filter_app, length_app, filter_fmap_length. f_equal.
  - f_equal. apply filter_ext_in. intros ds _. by rewrite Hp.
  - rewrite (filter_bind_length _ _ _ (wins b s (S t) cs x)); [by rewrite length_seq|].
    intros d Hd. unfold wins. f_equal. apply filter_ext_in. intros ds _. rewrite Hp, bool_decide_eq_false_2; [done|].
    apply elem_of_seq in Hd. lia.
Qed.

Lemma wins_uniform cs : ∀ b s t,
  NoDup cs → num s → (∀ c, c ∈ cs → num (score c)) → (∀ c, c ∈ cs → b ≠ Some c) →
  let '(fs, T) := final cs s t in
  let N := length (draw_space (bounds cs s t)) in
  (∀ c, c ∈ cs → key (score c) = key fs → (wins b s t cs (Some c) * T = N)%nat) ∧
  (key fs = key s → (wins b s t cs b * T = N * t)%nat).
Proof.
  induction cs as [|c cs IH]; intros b s t Hnd Hs Hall Hb.
  - cbn [final]. split; [by intros c ?%elem_of_nil|]. intros _. unfold wins. cbn [bounds draw_space].
    rewrite filter_cons_True by done. cbn. lia.
  - inversion Hnd as [|? ? Hc Hnd']; subst.
    assert (Hnc : num (score c)) by (apply Hall; by left).
    assert (Hcs : ∀ x, x ∈ cs → num (score x)) by (intros; apply Hall; by right).
    assert (Hbcs : ∀ x, x ∈ cs → b ≠ Some x) by (intros; apply Hb; by right).
    assert (Hccs : ∀ x, x ∈ cs → Some c ≠ Some x) by (intros x Hx [= <-]; done).
    cbn [final bounds]. destruct (better dir (score c) s) eqn:Hbt; [|destruct (score c =.? s)%wekai eqn:Heq].
    + specialize (IH (Some c) (score c) 1%nat Hnd' Hnc Hcs Hccs).
      pose proof (final_least cs (score c) 1%nat Hnc Hcs) as (_ & Hle & _).
      destruct (final cs (score c) 1) as [fs T]. cbn zeta in *. cbn [fst] in Hle. destruct IH as [IH1 IH2].
      assert (Hw : ∀ x, wins b s t (c :: cs) x = wins (Some c) (score c) 1 cs x).
      { intros x. unfold wins. cbn [bounds]. rewrite Hbt. f_equal. apply filter_ext_in. intros ds _.
        by rewrite pick_from_cons, Hbt. }
      rewrite !Hw. split.
      * intros x [->|Hx]%elem_of_cons Hk; rewrite Hw; [rewrite IH2 by done; lia|by apply IH1].
      * intros Hk. exfalso. apply better_key in Hbt; [|done..]. apply Hle. by rewrite Hk.
    + pose proof (IH (Some c) s (S t) Hnd' Hs Hcs Hccs) as IHc. specialize (IH b s (S t) Hnd' Hs Hcs Hbcs).
      destruct (final cs s (S t)) as [fs T]. cbn zeta in *. destruct IHc as [IHc1 IHc2], IH as [IH1 IH2].
      cbn [draw_space]. rewrite space_bind_length, length_seq. set (N := length (draw_space (bounds cs s (S t)))) in *.
      apply feq_key in Heq as Hkey; [|done..]. assert (Hbc : b ≠ Some c) by (apply Hb; by left).
      split.
      * intros x [->|Hx]%elem_of_cons Hk; rewrite wins_tie by done.
        -- rewrite (wins_nobody b) by (first [by apply not_eq_sym|intros y Hy; by apply Hccs]).
           rewrite Nat.mul_0_r, Nat.add_0_r, IHc2 by congruence. lia.
        -- rewrite Nat.mul_add_distr_r, IHc1 by done. rewrite <-Nat.mul_assoc, IH1 by done. lia.
      * intros Hk. rewrite wins_tie by done. rewrite (wins_nobody (Some c)) by done.
        cbn [Nat.add]. rewrite <-Nat.mul_assoc, IH2 by done. lia.
    + specialize (IH b s t Hnd' Hs Hcs Hbcs). pose proof (final_least cs s t Hs Hcs) as (_ & Hle & _).
      destruct (final cs s t) as [fs T]. cbn zeta in *. cbn [fst] in Hle. destruct IH as [IH1 IH2].
      assert (Hw : ∀ x, wins b s t (c :: cs) x = wins b s t cs x).
      { intros x. unfold wins. cbn [bounds]. rewrite Hbt, Heq. f_equal. apply filter_ext_in. intros ds _.
        by rewrite pick_from_cons, Hbt, Heq. }
      split; [|intros Hk; rewrite Hw; auto]. intros x [->|Hx]%elem_of_cons Hk; rewrite Hw; [|by apply IH1].
      exfalso. destruct (lex_total (key (score c)) (key s)) as [Hl|[Hl|Hl]].
      * apply better_key in Hl; [|done..]. congruence.
      * apply feq_key in Hl; [|done..]. congruence.
      * apply Hle. by rewrite <-Hk.
Qed.

Lemma final_ties cs : ∀ s t, num s → (∀ c, c ∈ cs → num (score c)) →
  let '(fs, T) := final cs s t in
  T = ((if decide (key fs = key s) then t else 0) + length (filter (λ c, key (score c) = key fs) cs))%nat.
Proof.
  induction cs as [|c cs IH]; intros s t Hs Hall; cbn [final]; [rewrite decide_True by done; cbn; lia|].
  assert (Hnc : num (score c)) by (apply Hall; by left).
  assert (Hcs : ∀ x, x ∈ cs → num (score x)) by (intros; apply Hall; by right).
  destruct (better dir (score c) s) eqn:Hbt; [|destruct (score c =.? s)%wekai eqn:Heq].
  - specialize (IH (score c) 1%nat Hnc Hcs). pose proof (final_least cs (score c) 1%nat Hnc Hcs) as (_ & Hle & _).
    destruct (final cs (score c) 1) as [fs T]. cbn [fst] in Hle. apply better_key in Hbt; [|done..].
    rewrite (decide_False (P := key fs = key s)) by (intros Hk; rewrite Hk in Hle; by apply Hle).
    rewrite filter_cons. destruct (decide (key fs = key (score c))) as [Hk|Hk].
    + rewrite decide_True by done. cbn [length]. lia.
    + rewrite decide_False by (by intros ?). lia.
  - specialize (IH s (S t) Hs Hcs). destruct (final cs s (S t)) as [fs T]. apply feq_key in Heq; [|done..].
    rewrite filter_cons, Heq. destruct (decide (key fs = key s)) as [Hk|Hk].
    + rewrite decide_True by done. cbn [length]. lia.
    + rewrite decide_False by (by intros ?). lia.
  - specialize (IH s t Hs Hcs). pose proof (final_least cs s t Hs Hcs) as (_ & Hle & _).
    destruct (final cs s t) as [fs T]. cbn [fst] in Hle. rewrite filter_cons_False; [done|]. intros Hk.
    destruct (lex_total (key (score c)) (key s)) as [Hl|[Hl|Hl]].
    + apply better_key in Hl; [|done..]. congruence.
    + apply feq_key in Hl; [|done..]. congruence.
    + apply Hle. by rewrite <-Hk.
Qed.

Lemma pick_from_best cs : ∀ b s t ds, num s → (∀ c, c ∈ cs → num (score c)) → ds ∈ draw_space (bounds cs s t) →
  let fs := (final cs s t).1 in
  (∃ c, c ∈ cs ∧ pick_from b s t cs ds = Some c ∧ key (score c) = key fs) ∨
  (pick_from b s t cs ds = b ∧ key fs = key s ∧ (t = O → ∀ c, c ∈ cs → lex (key s) (key (score c)))).
Proof.
  induction cs as [|c cs IH]; intros b s t ds Hs Hall Hds; cbn zeta; [right; split_and!; [done|done|by intros _ c ?%elem_of_nil]|].
  assert (Hnc : num (score c)) by (apply Hall; by left).
  assert (Hcs : ∀ x, x ∈ cs → num (score x)) by (intros; apply Hall; by right).
  rewrite pick_from_cons. cbn [final bounds] in *. destruct (better dir (score c) s) eqn:Hbt; [|destruct (score c =.? s)%wekai eqn:Heq].
  - left. destruct (IH (Some c) (score c) 1%nat ds Hnc Hcs Hds) as [(x & Hx & Hp & Hk)|(Hp & Hk & _)].
    + exists x. split_and!; [by right|done|done].
    + exists c. split_and!; [by left|done|done].
  - cbn [draw_space] in Hds. apply list_elem_of_bind in Hds as (d & Hds & Hd).
    apply list_elem_of_fmap in Hds as (ds' & -> & Hds'). apply elem_of_seq in Hd. cbn [head tail from_option default].
    apply feq_key in Heq; [|done..].
    destruct (IH (if bool_decide (d = O) then Some c else b) s (S t) ds' Hs Hcs Hds') as [(x & Hx & Hp & Hk)|(Hp & Hk & _)].
    + left. exists x. split_and!; [by right|done|done].
    + destruct (decide (d = O)) as [->|Hd0].
      * left. exists c. split_and!; [by left|done|congruence].
      * right. rewrite bool_decide_eq_false_2 in Hp |- * by done. split_and!; [done|done|]. intros ->. lia.
  - destruct (IH b s t ds Hs Hcs Hds) as [(x & Hx & Hp & Hk)|(Hp & Hk & Ht)].
    + left. exists x. split_and!; [by right|done|done].
    + right. split_and!; [done|done|]. intros Ht0 x [->|Hx]%elem_of_cons; [|by apply Ht].
      destruct (lex_total (key (score c)) (key s)) as [Hl|[Hl|Hl]]; [|..|done].
      * apply better_key in Hl; [|done..]. congruence.
      * apply feq_key in Hl; [|done..]. congruence.
Qed.

(** the tie-break is exact and fair.  The pick is one of the candidates and none is
    better; and over all the values the random draws can take, every candidate with the best
    score is picked equally often: as often as there are draws, divided by the number of
    ties. *)
Theorem reservoir_fair cands :
  NoDup cands → cands ≠ [] → (∀ c, c ∈ cands → num (score c)) →
  let s0 := bestScore (pick_start (A:=A) dir []) in
  let best_ones := filter (λ c, Forall (λ c', better dir (score c') (score c) = false) cands) cands in
  let space := draw_space (bounds cands s0 0) in
  (∀ ds, ds ∈ space → ∃ c, pickBest dir score cands ds = Some c ∧ c ∈ best_ones) ∧
  (∀ c, c ∈ best_ones →
    (length (filter (λ ds, pickBest dir score cands ds = Some c) space) * length best_ones = length space)%nat).
Proof.
  intros Hnd Hne Hall s0 best_ones space. assert (Hs0 : num s0) by (unfold s0, num; by destruct dir).
  pose proof (final_least cands s0 0 Hs0 Hall) as (Hfs & _ & Hleast).
  pose proof (final_ties cands s0 0 Hs0 Hall) as HT. pose proof (wins_uniform cands None s0 0 Hnd Hs0 Hall) as Hu.
  pose proof (pick_from_best cands None s0 0) as Hbest.
  assert (Hpf : ∀ ds, pickBest dir score cands ds = pick_from None s0 0 cands ds) by done.
  destruct (final cands s0 0) as [fs T]. cbn [fst] in *.
  assert (Hreach : ∀ ds, ds ∈ space → ∃ c, c ∈ cands ∧ pick_from None s0 0 cands ds = Some c ∧ key (score c) = key fs).
  { intros ds Hds. destruct (Hbest ds Hs0 Hall Hds) as [?|(_ & _ & Hno)]; [done|]. exfalso.
    destruct cands as [|c cs]; [done|]. specialize (Hno eq_refl c (list_elem_of_here _ _)). revert Hno.
    specialize (Hall c (list_elem_of_here _ _)). unfold num in Hall. clear -Hall. unfold s0, key, pick_start. cbn.
    destruct dir, (score c) as [[]|[]| |[] ? ?]; cbn; try done; lia. }
  assert (Hbo : best_ones = filter (λ c, key (score c) = key fs) cands).
  { apply filter_ext_in. intros c Hc. rewrite Forall_forall. split.
    - intros Hmin. destruct (lex_total (key (score c)) (key fs)) as [Hl|[Hl|Hl]]; [by destruct (Hleast c Hc)|done|].
      exfalso. assert (∃ x, x ∈ cands ∧ key (score x) = key fs) as (x & Hx & Hk).
      { assert (∀ cs s t, draw_space (bounds cs s t) ≠ []) as Hsp.
        { clear. induction cs as [|c cs IH]; intros s t; [done|]. cbn [bounds]. destruct (better _ _ _); [done|].
          destruct (_ =.? _)%wekai; [|done]. cbn. destruct (draw_space (bounds cs s (S t))) eqn:He; [by apply IH in He|done]. }
        destruct space as [|ds sp] eqn:Hspace; [by apply Hsp in Hspace|].
        destruct (Hreach ds (list_elem_of_here _ _)) as (x & Hx & _ & Hk). eauto. }
      specialize (Hmin x Hx). apply not_true_iff_false in Hmin. apply Hmin, better_key; [auto..|]. by rewrite Hk.
    - intros Hk x Hx. apply not_true_iff_false. intros Hb%better_key; [|auto..]. rewrite Hk in Hb. by apply (Hleast x Hx). }
  split.
  - intros ds Hds. destruct (Hreach ds Hds) as (c & Hc & Hp & Hk). exists c. split; [done|].
    rewrite Hbo. by apply list_elem_of_filter.
  - intros c Hc. rewrite Hbo in *. apply list_elem_of_filter in Hc as [Hk Hc]. destruct Hu as [Hu _]; [done|].
    cbn zeta in Hu. specialize (Hu c Hc Hk). unfold wins in Hu. fold space in Hu. rewrite <-Hu. f_equal. rewrite HT. by destruct (decide _).
Qed.
End reservoir.

Definition demo_scores : list (nat * Z) := [(0%nat, 3); (1%nat, 2); (2%nat, 5); (3%nat, 2); (4%nat, 2)].

Lemma reservoir_fair_witness :
  let score := λ c : nat * Z, f64_of_Z c.2 in
  let space := draw_space (bounds minimize score demo_scores f64_inf 0) in
  length space = 6%nat ∧
  (length (filter (λ ds, pickBest minimize score demo_scores ds = Some (3%nat, 2%Z)) space) * 3 = length space)%nat.
Proof.
  cbv zeta. split; [vm_compute; reflexivity|].
  destruct (reservoir_fair minimize (λ c : nat * Z, f64_of_Z c.2) demo_scores) as [_ Hfair].
  - apply (bool_decide_unpack _). vm_compute. exact I.
  - done.
  - intros c Hc. repeat (apply elem_of_cons in Hc as [->|Hc]; [vm_compute; discriminate|]). by apply elem_of_nil in Hc.
  - specialize (Hfair (3%nat, 2%Z)). cbn zeta in Hfair.
    assert (length (filter (λ c : nat * Z, Forall (λ c' : nat * Z, better minimize (f64_of_Z c'.2) (f64_of_Z c.2) = false) demo_scores) demo_scores) = 3%nat) as Hl by (vm_compute; reflexivity).
    rewrite Hl in Hfair. apply Hfair. apply list_elem_of_filter. split; [|vm_compute; by do 3 right; left].
    repeat constructor.
Defined.
