(* ===== verification/AffinityPolicy.v ===== *)
(** * AffinityPolicy: the routing flow

    [src/router/internal/policy/affinity/{policy,signal,relative}.go].  A decision asks the
    signals which backends are usable, walks the affinity tree, and goes down a ladder of
    tiers; the outcome is a backend or an error, and whether [Commit] will record the
    backend as a holder.  Metrics are left out, but the label of each decision is kept.

    The backends are read, not written: the one thing a decision changes in them is the
    quarter-second memo of [TTFTp90], and at one instant asking again gives the same answer
    ([p90_stable]), so a decision taken at [now] is given the readings at [now]. *)

From stdpp Require Import base gmap list strings.
From Stdlib Require Import ZArith Lia Ascii String.
From Corelib Require Import SpecFloat.
From S2P Require Import Prelude MarkSet KvUnits AffinityTree TreeWf TreeShard TreeWalk TreeSpec Circuit WaitQ Backend Policy.
Open Scope Z_scope.

(** ** Configuration *)

Inductive ladderMode := LadderStrict | LadderServeAnyway.
#[export] Instance ladderMode_eq_dec : EqDecision ladderMode.
Proof. solve_decision. Defined.

Record Config := MkConfig {
  NodeConcurrency : Z;
  SoftNodeConcurrency : Z;
  TTFTHard : Z;
  TTFTSoft : Z;
  RelativeTTFT : bool;
  RelativeDecode : bool;
  CostRouting : bool;
  RebalanceRatio : float64;
  SplitGuard : float64;
  TransientFallback : float64;
  TailTTL : Z;
  RefusalTTL : Z;
  PoolName : string;
  Ladder : ladderMode;
}.

Definition f0 : float64 := f64_of_Z 0.
Definition f1 : float64 := f64_of_Z 1.
Definition DefaultSplitGuard : float64 := f64_div f1 (f64_of_Z 5).
Definition DefaultTailTTL : Z := 300 * second.
Definition DefaultRefusalTTL : Z := 2 * second.
Definition DefaultPoolName : string := "default".

Definition withDefaults (c : Config) : Config :=
  let guard := if SFleb (SplitGuard c) f0 || SFleb f1 (SplitGuard c) then DefaultSplitGuard else SplitGuard c in
  let tail := if TailTTL c <=? 0 then DefaultTailTTL else TailTTL c in
  let refusal := if RefusalTTL c <=? 0 then DefaultRefusalTTL else RefusalTTL c in
  let pool := if bool_decide (PoolName c = ""%string) then DefaultPoolName else PoolName c in
  let transient := if SFltb (TransientFallback c) f0 || SFleb guard (TransientFallback c) then f0 else TransientFallback c in
  let soft := if (SoftNodeConcurrency c <? 0) || (NodeConcurrency c <=? 0) || (NodeConcurrency c <=? SoftNodeConcurrency c)
              then 0 else SoftNodeConcurrency c in
  let hardT := if TTFTHard c <? 0 then 0 else TTFTHard c in
  let softT := if TTFTSoft c <? 0 then 0 else TTFTSoft c in
  MkConfig (NodeConcurrency c) soft hardT softT (RelativeTTFT c) (RelativeDecode c) (CostRouting c)
    (RebalanceRatio c) guard transient tail refusal pool (Ladder c).

(** ** Signals *)

Inductive signal :=
  | refusedSignal
  | concurrencySignal (limit : Z)
  | ttftSignal (limit : Z)
  | imbalanceSignal (ratio : float64).

Definition name (s : signal) : string :=
  match s with
  | refusedSignal => "refused"
  | concurrencySignal _ => "concurrency"
  | ttftSignal _ => "ttft"
  | imbalanceSignal _ => "imbalance"
  end.

Record refusal := Refusal { ref_at : Z; ref_inflight : Z }.

(** [record] and [clear] of the refused signal; the backend is not nil. *)
Definition record (now : Z) (b : Backend) (hot : gmap string refusal) : gmap string refusal :=
  <[URL b := Refusal now (inflight (load b))]> hot.
Definition clear (b : Backend) (hot : gmap string refusal) : gmap string refusal :=
  match hot !! URL b with None => hot | Some _ => delete (URL b) hot end.

Definition refused_saturated (now ttl : Z) (hot : gmap string refusal) (b : Backend) : bool * Z :=
  match hot !! URL b with
  | None => (false, 0)
  | Some f => if ttl <? now - ref_at f then (false, 0)
              else if inflight (load b) <? ref_inflight f then (false, 0)
              else (true, ref_inflight f)
  end.

Definition concurrency_saturated (limit : Z) (b : Backend) : bool * Z :=
  if limit <=? inflight (load b) then (true, limit) else (false, 0).

Definition minRebalanceLoad : Z := 8.
Definition imbalance_saturated (ratio : float64) (minInflight : Z) (b : Backend) : bool * Z :=
  let l := inflight (load b) in
  if (l <=? 0) || (l <=? minInflight) then (false, 0)
  else if l <? minRebalanceLoad then (false, 0)
  else if SFltb ratio (f64_div (f64_of_Z (l - minInflight)) (f64_of_Z l)) then (true, l)
  else (false, 0).

Definition p90 (now : Z) (b : Backend) : Z := (TTFTp90 now b).1.

Definition ttft_saturated (now limit : Z) (b : Backend) : bool * Z :=
  if hardBlocked (lat b) && (limit <=? p90 now b) then (true, 0) else (false, 0).

(** ** The flow's state *)

Record Policy := MkPolicy {
  cfg : Config;
  ptree : tree;
  hot : gmap string refusal;
  signals : list signal;
  backends : gmap string positive;
}.

Definition New (c : Config) : Policy :=
  let c := withDefaults c in
  MkPolicy c (newTree (TailTTL c)) ∅
    ([refusedSignal]
     ++ (if 0 <? NodeConcurrency c then [concurrencySignal (NodeConcurrency c)] else [])
     ++ (if 0 <? TTFTHard c then [ttftSignal (TTFTHard c)] else [])
     ++ (if SFltb f0 (RebalanceRatio c) then [imbalanceSignal (RebalanceRatio c)] else []))
    ∅.

Definition set_tree (t : tree) (p : Policy) : Policy := MkPolicy (cfg p) t (hot p) (signals p) (backends p).
Definition set_hot (h : gmap string refusal) (p : Policy) : Policy := MkPolicy (cfg p) (ptree p) h (signals p) (backends p).

Definition OnRefused (now : Z) (b : Backend) (p : Policy) : Policy := set_hot (record now b (hot p)) p.
Definition OnAccepted (b : Backend) (p : Policy) : Policy := set_hot (clear b (hot p)) p.

Definition saturated (now : Z) (p : Policy) (minInflight : Z) (s : signal) (b : Backend) : bool * Z :=
  match s with
  | refusedSignal => refused_saturated now (RefusalTTL (cfg p)) (hot p) b
  | concurrencySignal limit => concurrency_saturated limit b
  | ttftSignal limit => ttft_saturated now limit b
  | imbalanceSignal ratio => imbalance_saturated ratio minInflight b
  end.

(** ** Asking the signals *)

(** The verdict on one backend: the reference level (-1: usable), whether a signal fired,
    and whether only the concurrency signal did. *)
Record verdict := Verdict { v_ref : Z; v_fired : bool; v_only : bool }.

Definition ask_one (now : Z) (p : Policy) (minInflight : Z) (b : Backend) (v : verdict) (sg : signal) : verdict :=
  let '(hit, r) := saturated now p minInflight sg b in
  if negb hit then v
  else
    let only := if bool_decide (name sg = "concurrency"%string) then v_only v else false in
    let ref := if (0 <? r) && ((v_ref v <? 0) || (r <? v_ref v)) then r else v_ref v in
    Verdict (if ref <? 0 then 0 else ref) true only.

Definition ask (now : Z) (p : Policy) (minInflight : Z) (b : Backend) : verdict :=
  foldl (ask_one now p minInflight b) (Verdict (-1) false true) (signals p).

(** The split of the candidates. *)
Record triage := Triage { usable : list positive; sat : gmap string Z; waitable : list positive }.

Section select.
(** The backends, the clock, SHA-256, the order Go ranges over a map in, and the values the
    random draws of the selector will take. *)
Context (st : gmap positive Backend) (now : Z) (sha256 : bytes → bytes).
Context (morder : gmap string Z → list (string * Z)) (ds : list nat).

Definition minInflight (cands : list positive) : Z :=
  match cands with
  | [] => 0
  | c :: cs => foldl (λ m l, if inflight (load (st !!! l)) <? m then inflight (load (st !!! l)) else m) (inflight (load (st !!! c))) cs
  end.

Definition triage_one (p : Policy) (m : Z) (t : triage) (c : positive) : triage :=
  let b := st !!! c in
  let v := ask now p m b in
  if v_ref v <? 0 then Triage (usable t ++ [c]) (sat t) (waitable t)
  else Triage (usable t) (<[URL b := v_ref v]> (sat t)) (if v_fired v && v_only v then waitable t ++ [c] else waitable t).
Definition triage_all (p : Policy) (cands : list positive) : triage :=
  foldl (triage_one p (minInflight cands)) (Triage [] ∅ []) cands.

(** Resolving slots, in order. *)
Fixpoint resolve (cs : list positive) (t : tree) : list Z * tree :=
  match cs with
  | [] => ([], t)
  | c :: cs => let '(s, t) := slotOrCreate (URL (st !!! c)) t in
               let '(ss, t) := resolve cs t in (s :: ss, t)
  end.
Definition mask (ss : list Z) : markSet := foldl Add no_marks ss.

(** The candidates whose slot is in a set. *)
Definition holding (m : markSet) (cs : list positive) (ss : list Z) : list positive :=
  (filter (λ cs, Has m cs.2 = true) (zip cs ss)).*1.
Definition not_holding (m : markSet) (cs : list positive) (ss : list Z) : list positive :=
  (filter (λ cs, Has m cs.2 = false) (zip cs ss)).*1.

(** The tag ["model"] and a string's bytes. *)
Definition str_bytes (s : string) : bytes := (λ c, Z.of_nat (nat_of_ascii c)) <$> list_ascii_of_string s.
Definition modelKey_ (model : string) : Z :=
  if bool_decide (model = ""%string) then 0 else HashContent sha256 (str_bytes "model") (str_bytes model).
Definition path_of (rr : RoutingRequest) : path := Path (Units rr) (modelKey_ (Model rr)).

Definition fallback (cs : list positive) : option positive * option sel_error := LeastOutstanding_Select st ds cs.

(** ** Waiting for one backend *)

Definition queueTarget (w : list positive) (rr : RoutingRequest) (t : tree) : option positive * tree :=
  match w, Units rr with
  | [], _ => (None, t)
  | _, [] => ((fallback w).1, t)
  | _, _ =>
      let '(ss, t) := resolve w t in
      let a := tree_walk t (path_of rr) (mask ss) in
      if Empty (pool a) || negb (availDeepest a) then (None, t)
      else match holding (pool a) w ss with
           | [] => (None, t)
           | hs => ((fallback hs).1, t)
           end
  end.

(** ** Cost routing *)

Definition cost (total held : Z) (b : Backend) : Z :=
  i64 (total - held + prefillTokens (load b) + activeTokens (load b)).

Record cheapest := Cheapest { ch_best : positive; ch_cost : Z; ch_held : Z }.
Definition cost_step (total : Z) (acc : option cheapest) (ch : positive * Z) : option cheapest :=
  let '(c, h) := ch in
  let k := cost total h (st !!! c) in
  match acc with
  | None => Some (Cheapest c k h)
  | Some a =>
      if (k <? ch_cost a) || ((k =? ch_cost a) && (inflight (load (st !!! c)) <? inflight (load (st !!! ch_best a))))
      then Some (Cheapest c k h) else acc
  end.

Definition tree_heldTokens (t : tree) (p : path) (ss : list Z) : list Z :=
  heldTokens (default empty_shard (shards t !! shardFor p)) p ss.

Definition selectByCost (us : list positive) (ss : list Z) (pth : path) (t : tree) (rr : RoutingRequest) : option positive * RoutingRequest :=
  let total := sum_tokens (units pth) in
  match foldl (cost_step total) None (zip us (tree_heldTokens t pth ss)) with
  | None => (None, rr) (* an index out of range in the source: [usable] is never empty here *)
  | Some a => (Some (ch_best a), set_Prefill (MkPrefill (ch_best a) (total - ch_held a)) (set_PolicyState true rr))
  end.

(** ** The bands

    Which enabled band a holder fails, as a set of causes. *)

Record causeSet := Causes { byConcurrency : bool; bySoftTTFT : bool; byRelTTFT : bool; byRelDecode : bool }.
Definition no_causes : causeSet := Causes false false false false.
Definition cause_or (a b : causeSet) : causeSet :=
  Causes (byConcurrency a || byConcurrency b) (bySoftTTFT a || bySoftTTFT b)
    (byRelTTFT a || byRelTTFT b) (byRelDecode a || byRelDecode b).
Definition cause_none (c : causeSet) : bool :=
  negb (byConcurrency c || bySoftTTFT c || byRelTTFT c || byRelDecode c).

Definition lowestOther (us : list positive) (self : positive) (f : Backend → Z) : option Z :=
  foldl (λ lo o, if decide (o = self) then lo
                 else match lo with
                      | Some v => if f (st !!! o) <? v then Some (f (st !!! o)) else lo
                      | None => Some (f (st !!! o))
                      end) None us.

Definition estTokens (rr : RoutingRequest) : Z := if 0 <? EstTokens rr then EstTokens rr else sum_tokens (Units rr).

Definition softTTFT_active (c : Config) (us : list positive) : bool :=
  (0 <? TTFTSoft c) && existsb (λ l, p90 now (st !!! l) <=? TTFTSoft c) us.

(** What one holder [b] fails. *)
Definition holder_causes (c : Config) (us : list positive) (estTok : Z) (l : positive) : causeSet :=
  let b := st !!! l in
  Causes
    ((0 <? SoftNodeConcurrency c) && (SoftNodeConcurrency c <=? inflight (load b)))
    (softTTFT_active c us && (TTFTSoft c <? p90 now b))
    (RelativeTTFT c && match lowestOther us l (p90 now) with Some lo => lo <? p90 now b | None => false end)
    (RelativeDecode c && match lowestOther us l (λ b, decodeTokens (load b)) with
                         | Some lo => i64 (lo + estTok) <? decodeTokens (load b) | None => false end).

Definition min_over (f : Backend → Z) (ls : list positive) : Z :=
  match ls with
  | [] => 0
  | l :: ls => foldl (λ m l, if f (st !!! l) <? m then f (st !!! l) else m) (f (st !!! l)) ls
  end.

(** The holders tier 1 may use, the ones a band pushed out of it, and why. *)
Record banding := Banding { pool_ : list positive; stretch : list positive; causes : causeSet; refP90 : Z; refLoad : Z }.

Definition bands (c : Config) (us pool : list positive) (estTok : Z) : banding :=
  let on := (0 <? SoftNodeConcurrency c) || softTTFT_active c us || RelativeTTFT c || RelativeDecode c in
  match pool with
  | [] => Banding [] [] no_causes 0 0
  | _ =>
      if on then
        let under := filter (λ l, cause_none (holder_causes c us estTok l) = true) pool in
        let cs := foldl (λ acc l, cause_or acc (holder_causes c us estTok l)) no_causes pool in
        let p := min_over (p90 now) pool in
        let d := min_over (λ b, decodeTokens (load b)) pool in
        match under with
        | [] => Banding [] pool cs p d
        | _ => Banding under [] no_causes p d
        end
      else Banding pool [] no_causes 0 0
  end.

(** ** The guard *)

(** The busiest saturated holder's level.  The test short-circuits, so a slot is resolved
    only for a level above the running maximum. *)
Fixpoint saturated_holder (held : markSet) (rs : list (string * Z)) (g : Z) (t : tree) : Z * tree :=
  match rs with
  | [] => (g, t)
  | (url, ref) :: rs =>
      if g <? ref then
        let '(s, t) := slotOrCreate url t in
        saturated_holder held rs (if Has held s then ref else g) t
      else saturated_holder held rs g t
  end.

Definition guard_ref (c : Config) (g : Z) (b : banding) : Z :=
  let g := if bool_decide (stretch b ≠ []) && (0 <? SoftNodeConcurrency c) then SoftNodeConcurrency c
           else if g <=? 0 then NodeConcurrency c else g in
  if bool_decide (stretch b ≠ []) && (byRelTTFT (causes b) || byRelDecode (causes b)) then
    let h := foldl (λ h l, let v := inflight (load (st !!! l)) in if (h <? 0) || (v <? h) then v else h) (-1) (stretch b) in
    if (0 <? h) && ((g <=? 0) || (h <? g)) then h else g
  else g.

(** [float64(ref) * (1 - margin)], and no bound without a reference. *)
Definition margin_of (ref : Z) (margin : float64) : float64 := f64_mul (f64_of_Z ref) (f64_sub f1 margin).
Definition threshold (c : Config) (g : Z) : float64 := if 0 <? g then margin_of g (SplitGuard c) else f64_inf.

Definition under_level (lim : float64) (l : positive) : bool := SFltb (f64_of_Z (inflight (load (st !!! l)))) lim.

Definition split_ok (c : Config) (us : list positive) (b : banding) (estTok : Z) (thr : float64) (l : positive) : bool :=
  let x := st !!! l in
  negb (softTTFT_active c us && (TTFTSoft c <? p90 now x)) &&
  negb (byRelTTFT (causes b) && negb (p90 now x <? refP90 b)) &&
  negb (byRelDecode (causes b) && negb (i64 (decodeTokens (load x) + estTok) <? refLoad b)) &&
  under_level thr l.

(** ** [Select] *)

(** The outcome: the returned pair, the request as the policy leaves it, the tree (slots may
    have been allocated), and the label of the decision. *)
Record outcome := Outcome { o_backend : option positive; o_err : option sel_error; o_rr : RoutingRequest; o_tree : tree; o_tier : string }.

Definition via (tier : string) (mark : bool) (cs : list positive) (rr : RoutingRequest) (t : tree) : outcome :=
  let '(b, e) := fallback cs in Outcome b e (set_PolicyState mark rr) t tier.
Definition refuse (e : sel_error) (rr : RoutingRequest) (t : tree) : outcome := Outcome None (Some e) rr t "".

(** The available holders of the anchor: none when the anchor is shallow and the ladder is
    strict. *)
Definition anchor_holders (c : Config) (a : anchors) (us : list positive) (ss : list Z) : list positive :=
  let shallow := negb (Empty (pool a)) && negb (availDeepest a) in
  if negb (Empty (pool a)) && negb (shallow && bool_decide (Ladder c = LadderStrict))
  then holding (pool a) us ss else [].

(** Tiers 2 to 3: the prefix has holders and none of them is available. *)
Definition relieve (c : Config) (cands us : list positive) (ss : list Z) (a : anchors) (b : banding) (g : Z)
    (rr : RoutingRequest) (t : tree) : outcome :=
  let out := not_holding (held a) us ss in
  let split := filter (λ l, split_ok c us b (estTokens rr) (threshold c g) l = true) out in
  let transient := filter (λ l, under_level (margin_of g (TransientFallback c)) l = true) out in
  if bool_decide (split ≠ []) then via "split" true split rr t
  else if bool_decide (stretch b ≠ []) then via "stretch" true (stretch b) rr t
  else if SFltb f0 (TransientFallback c) && (0 <? g) && bool_decide (transient ≠ []) then via "overflow" false transient rr t
  else match Ladder c with
       | LadderStrict => refuse ErrSplitGuardBlocked rr t
       | LadderServeAnyway => via "overflow" false cands rr t
       end.

Definition Select (p : Policy) (cands : list positive) (rr : RoutingRequest) : outcome :=
  let c := cfg p in
  match cands with
  | [] => refuse ErrNoCandidates rr (ptree p)
  | _ =>
      let tr := triage_all p cands in
      let us := usable tr in
      let '(ss, t) := resolve us (ptree p) in
      if bool_decide (us = []) then
        match queueTarget (waitable tr) rr t with
        | (Some l, t) => refuse (SaturatedError l (NodeConcurrency c)) rr t
        | (None, t) => refuse ErrAllBackendsSaturated rr t
        end
      else if bool_decide (Units rr = []) then via "load" false us rr t
      else
        let pth := path_of rr in
        if CostRouting c then let '(b, rr) := selectByCost us ss pth t rr in Outcome b None rr t "cost"
        else
          let a := tree_walk t pth (mask ss) in
          let b := bands c us (anchor_holders c a us ss) (estTokens rr) in
          let '(g, t) := saturated_holder (held a) (morder (sat tr)) (-1) t in
          let g := guard_ref c g b in
          if bool_decide (pool_ b ≠ []) then via "cache" true (pool_ b) rr t
          else if negb (Empty (held a)) then relieve c cands us ss a b g rr t
          else via "load" true us rr t
  end.

(** ** After the response *)

(** The backend is not nil. *)
Definition Commit (l : positive) (rr : RoutingRequest) (p : Policy) : Policy :=
  if bool_decide (Units rr = []) then p
  else match PolicyState rr with
       | Some false => p
       | _ => let '(s, t) := slotOrCreate (URL (st !!! l)) (ptree p) in
              set_tree (tree_commit (path_of rr) s now t).2 p
       end.

Definition DropBackend (order : gset loc → list loc) (l : positive) (p : Policy) : Policy :=
  MkPolicy (cfg p) (dropBackend order (URL (st !!! l)) (ptree p)) (hot p) (signals p) (delete (URL (st !!! l)) (backends p)).
Definition Flush (p : Policy) : Policy := set_tree (flush (ptree p)) p.
Definition Sweep (order : gset loc → list loc) (p : Policy) : Z * Policy :=
  let '(freed, t) := sweep order now (ptree p) in (freed, set_tree t p).
End select.

Definition SetHardTTFT (d : Z) (b : Backend) : Backend :=
  set_lat (Latency (ttftNanos (lat b)) (ttftWin (lat b)) (p90Val (lat b)) (p90At (lat b)) (p90Valid (lat b)) d (hardBlocked (lat b))) b.
Definition AddBackend (l : positive) (w : gmap positive Backend * Policy) : gmap positive Backend * Policy :=
  let '(st, p) := w in
  (alter (SetHardTTFT (TTFTHard (cfg p))) l st,
   MkPolicy (cfg p) (slotFor (URL (st !!! l)) (ptree p)).2 (hot p) (signals p) (<[URL (st !!! l) := l]> (backends p))).

Lemma p90_stable now b : p90 now (TTFTp90 now b).2 = p90 now b.
Proof.
  unfold p90, TTFTp90. destruct (p90Valid (lat b) && (now - p90At (lat b) <? ttftCacheTTL)) eqn:E; cbn [fst snd]; [by rewrite E|].
  cbn [lat set_lat p90Valid p90At p90Val]. rewrite Z.sub_diag. done.
Qed.
