(* ===== verification/PolicySpec.v ===== *)
(** * PolicySpec: what a routing decision guarantees

    The theorems of [AffinityPolicy], stated over the view of the affinity tree: who holds
    which prefix of the request. *)

From stdpp Require Import base gmap list strings.
From Stdlib Require Import ZArith Lia.
From Corelib Require Import SpecFloat.
From S2P Require Import Prelude MarkSet KvUnits AffinityTree TreeWf TreeShard TreeWalk TreeSpec Circuit WaitQ Backend Policy AffinityPolicy.
Open Scope Z_scope.

(** ** Signals and triage *)

(** No enabled signal calls [b] saturated. *)
Definition clear_of (now : Z) (p : Policy) (m : Z) (b : Backend) : Prop :=
  ∀ sg, sg ∈ signals p → (saturated now p m sg b).1 = false.

Lemma ask_fold now p m b sgs : ∀ v, -1 ≤ v_ref v →
  let w := foldl (ask_one now p m b) v sgs in
  -1 ≤ v_ref w ∧ (v_ref w < 0 ↔ v_ref v < 0 ∧ ∀ sg, sg ∈ sgs → (saturated now p m sg b).1 = false) ∧
  (v_only w = true → v_only v = true ∧ ∀ sg, sg ∈ sgs → (saturated now p m sg b).1 = true → name sg = "concurrency"%string).
Proof.
  induction sgs as [|sg sgs IH]; intros v Hv; cbn [foldl].
  - split_and!; [done| |]; [split; [intros; split; [done|by intros ? ?%elem_of_nil]|by intros [? _]]|].
    intros ?. split; [done|]. by intros ? ?%elem_of_nil.
  - assert (Hstep : -1 ≤ v_ref (ask_one now p m b v sg) ∧
      (v_ref (ask_one now p m b v sg) < 0 ↔ v_ref v < 0 ∧ (saturated now p m sg b).1 = false) ∧
      (v_only (ask_one now p m b v sg) = true → v_only v = true ∧ ((saturated now p m sg b).1 = true → name sg = "concurrency"%string))).
    { unfold ask_one. destruct (saturated now p m sg b) as [[] r]; cbn [negb fst v_ref v_only].
      - split_and!.
        + repeat case_match; lia.
        + split; [|by intros [_ ?]]. destruct (Z.ltb_spec (if (0 <? r) && ((v_ref v <? 0) || (r <? v_ref v)) then r else v_ref v) 0); lia.
        + case_bool_decide; [by intros|done].
      - split_and!; [done| |done]. split; [done|by intros [? _]]. }
    destruct Hstep as (H1 & H2 & H3). destruct (IH _ H1) as (I1 & I2 & I3). split_and!; [done| |].
    + rewrite I2, H2. split.
      * intros [[? ?] Hall]. split; [done|]. by intros x [->|?]%elem_of_cons; auto.
      * intros [? Hall]. split_and!; [done|apply Hall; by left|]. intros. apply Hall. by right.
    + intros Ho%I3. destruct Ho as [Ho Hall]. apply H3 in Ho as [? ?]. split; [done|]. by intros x [->|?]%elem_of_cons; auto.
Qed.

Lemma ask_clear now p m b : v_ref (ask now p m b) < 0 ↔ clear_of now p m b.
Proof.
  unfold ask, clear_of. destruct (ask_fold now p m b (signals p) (Verdict (-1) false true)) as (_ & H & _); [done|].
  rewrite H. cbn. split; [tauto|]. split; [lia|done].
Qed.

Lemma ask_only now p m b sg :
  v_only (ask now p m b) = true → sg ∈ signals p → (saturated now p m sg b).1 = true → name sg = "concurrency"%string.
Proof.
  unfold ask. destruct (ask_fold now p m b (signals p) (Verdict (-1) false true)) as (_ & _ & H); [done|].
  intros Ho. apply H in Ho as [_ Ho]. apply Ho.
Qed.

Section spec.
Context (st : gmap positive Backend) (now : Z) (sha256 : bytes → bytes).
Context (morder : gmap string Z → list (string * Z)) (ds : list nat).

Definition is_clear (p : Policy) (m : Z) (l : positive) : bool := v_ref (ask now p m (st !!! l)) <? 0.

Lemma triage_fold p m cands : ∀ t0,
  let t := foldl (triage_one st now p m) t0 cands in
  usable t = usable t0 ++ filter (λ l, is_clear p m l = true) cands ∧
  waitable t = waitable t0 ++ filter (λ l, is_clear p m l = false ∧
    v_fired (ask now p m (st !!! l)) = true ∧ v_only (ask now p m (st !!! l)) = true) cands ∧
  (∀ u r, sat t !! u = Some r → sat t0 !! u = Some r ∨ ∃ l, l ∈ cands ∧ URL (st !!! l) = u ∧ is_clear p m l = false ∧ v_ref (ask now p m (st !!! l)) = r).
Proof.
  induction cands as [|c cs IH]; intros t0; cbn zeta; [cbn; rewrite !app_nil_r; split_and!; try done; by left|].
  cbn [foldl]. specialize (IH (triage_one st now p m t0 c)). cbn zeta in IH. destruct IH as (-> & -> & H3).
  rewrite !filter_cons. unfold triage_one in *. unfold is_clear in *. destruct (v_ref (ask now p m (st !!! c)) <? 0) eqn:Hc.
  - rewrite decide_True by done. rewrite decide_False by (by intros [? _]). cbn [usable waitable sat] in *.
    split_and!; [by rewrite <-app_assoc|done|]. intros u r Hu. apply H3 in Hu as [?|(l & ? & ? & ?)]; [by left|].
    right. exists l. split; [by right|done].
  - rewrite decide_False by done. cbn [usable waitable sat] in *. split_and!; [done| |].
    + destruct (v_fired _) eqn:Hf, (v_only _) eqn:Ho; cbn [andb].
      2-4: rewrite decide_False by (by intros (_ & ? & ?)); done.
      rewrite decide_True by done. by rewrite <-app_assoc.
    + intros u r Hu. apply H3 in Hu as [Hu|(l & ? & ? & ?)].
      * apply lookup_insert_Some in Hu as [[<- <-]|[_ Hu]]; [right|by left]. exists c. split; [by left|done].
      * right. exists l. split; [by right|done].
Qed.

Lemma triage_usable p cands : usable (triage_all st now p cands) = filter (λ l, is_clear p (minInflight st cands) l = true) cands.
Proof. unfold triage_all. destruct (triage_fold p (minInflight st cands) cands (Triage [] ∅ [])) as (-> & _). done. Qed.

Lemma elem_usable p cands l :
  l ∈ usable (triage_all st now p cands) ↔ l ∈ cands ∧ clear_of now p (minInflight st cands) (st !!! l).
Proof. rewrite triage_usable, list_elem_of_filter. unfold is_clear. rewrite Z.ltb_lt, ask_clear. tauto. Qed.

Lemma elem_waitable p cands l :
  l ∈ waitable (triage_all st now p cands) → l ∈ cands ∧ ¬ clear_of now p (minInflight st cands) (st !!! l) ∧
  ∀ sg, sg ∈ signals p → (saturated now p (minInflight st cands) sg (st !!! l)).1 = true → name sg = "concurrency"%string.
Proof.
  unfold triage_all. destruct (triage_fold p (minInflight st cands) cands (Triage [] ∅ [])) as (_ & -> & _).
  intros [(Hc & _ & Ho) Hl]%list_elem_of_filter. split_and!; [done| |].
  - rewrite <-ask_clear. unfold is_clear in Hc. apply Z.ltb_ge in Hc. lia.
  - intros sg. by apply ask_only.
Qed.

(** ** Slots *)

Lemma slotOrCreate_mono url t u b : slots t !! u = Some b → slots (slotOrCreate url t).2 !! u = Some b.
Proof.
  intros Hu. unfold slotOrCreate, slot. destruct (slots t !! url) as [s|] eqn:E; [done|]. unfold slotFor. rewrite E.
  assert (url ≠ u) by congruence. destruct (last (free t)); cbn; by rewrite lookup_insert_ne.
Qed.

(** A tree with the same view and at least the same slots. *)
Record same_tree (t t' : tree) : Prop := {
  st_wf : tree_wf t';
  st_shards : shards t' = shards t;
  st_view u k q : view t' u k q = view t u k q;
  st_slots u b : slots t !! u = Some b → slots t' !! u = Some b;
}.

Lemma same_tree_refl t : tree_wf t → same_tree t t.
Proof. by constructor. Qed.
Lemma same_tree_trans a b c : same_tree a b → same_tree b c → same_tree a c.
Proof. intros [W1 S1 V1 L1] [W2 S2 V2 L2]. constructor; [done|congruence|intros; by rewrite V2|auto]. Qed.

Lemma slotOrCreate_same url t : tree_wf t → same_tree t (slotOrCreate url t).2.
Proof.
  intros Hwf. pose proof (slotOrCreate_spec url t Hwf) as H. pose proof (slotOrCreate_mono url t) as Hm.
  destruct (slotOrCreate url t) as [b t']. destruct H as (? & _ & _ & ? & _ & ?). by constructor.
Qed.

Lemma resolve_spec us : ∀ t, tree_wf t →
  let '(ss, t') := resolve st us t in
  same_tree t t' ∧ length ss = length us ∧ (∀ c s, (c, s) ∈ zip us ss → slots t' !! URL (st !!! c) = Some s).
Proof.
  induction us as [|c us IH]; intros t Hwf; cbn [resolve].
  - split_and!; [by apply same_tree_refl|done|]. intros c s H. by apply elem_of_nil in H.
  - pose proof (slotOrCreate_spec (URL (st !!! c)) t Hwf) as H. pose proof (slotOrCreate_same (URL (st !!! c)) t Hwf) as Hs.
    destruct (slotOrCreate _ t) as [b t1]. destruct H as (Hwf1 & Hb & _). specialize (IH t1 Hwf1).
    destruct (resolve st us t1) as [ss t2]. destruct IH as (H2 & Hl & Hz).
    split_and!; [by eapply same_tree_trans|cbn; by rewrite Hl|].
    intros x s [[= -> ->]|Hx]%elem_of_cons; [by apply (st_slots _ _ H2)|by apply Hz].
Qed.

Lemma saturated_holder_spec h rs : ∀ g t, tree_wf t → same_tree t (saturated_holder h rs g t).2.
Proof.
  induction rs as [|[url ref] rs IH]; intros g t Hwf; cbn [saturated_holder]; [by apply same_tree_refl|].
  destruct (g <? ref); [|by apply IH]. pose proof (slotOrCreate_same url t Hwf) as Hs.
  destruct (slotOrCreate url t) as [b t1]. cbn [snd] in Hs. eapply same_tree_trans; [done|]. apply IH, Hs.
Qed.

Lemma elem_holding m us ss c : length ss = length us →
  c ∈ holding m us ss ↔ ∃ s, (c, s) ∈ zip us ss ∧ Has m s = true.
Proof.
  intros Hl. unfold holding. rewrite list_elem_of_fmap. split.
  - intros ([x s] & -> & [Hs Hx]%list_elem_of_filter). eauto.
  - intros (s & Hz & Hs). exists (c, s). split; [done|]. by apply list_elem_of_filter.
Qed.
Lemma elem_not_holding m us ss c : length ss = length us →
  c ∈ not_holding m us ss ↔ ∃ s, (c, s) ∈ zip us ss ∧ Has m s = false.
Proof.
  intros Hl. unfold not_holding. rewrite list_elem_of_fmap. split.
  - intros ([x s] & -> & [Hs Hx]%list_elem_of_filter). eauto.
  - intros (s & Hz & Hs). exists (c, s). split; [done|]. by apply list_elem_of_filter.
Qed.

Lemma zip_fst {A B} (us : list A) (ss : list B) c : length ss = length us → c ∈ us ↔ ∃ s, (c, s) ∈ zip us ss.
Proof.
  revert ss. induction us as [|u us IH]; intros [|s ss] Hl; try done.
  - split; [by intros ?%elem_of_nil|by intros [? ?%elem_of_nil]].
  - cbn in Hl. cbn [zip zip_with]. setoid_rewrite elem_of_cons. rewrite (IH ss) by lia. split.
    + intros [->|[x Hx]]; eauto.
    + intros [x [[= -> _]|Hx]]; eauto.
Qed.

Lemma mask_has ss b : Has (mask ss) b = true ↔ b ∈ ss ∧ 0 ≤ b.
Proof.
  unfold mask. assert (∀ m, Has (foldl Add m ss) b = true ↔ Has m b = true ∨ (b ∈ ss ∧ 0 ≤ b)) as H.
  { induction ss as [|s ss IH]; intros m; cbn [foldl].
    - split; [by left|]. by intros [?|[?%elem_of_nil _]].
    - rewrite IH, Add_has, orb_true_iff, bool_decide_eq_true, elem_of_cons. split.
      + intros [[?|[-> ?]]|[? ?]]; auto.
      + intros [?|[[->|?] ?]]; auto. }
  rewrite H. split; [|by right]. intros [Hn|?]; [|done]. apply Has_range in Hn. cbn in Hn. lia.
Qed.

Lemma mask_wf ss : wf_marks (mask ss).
Proof.
  unfold mask. assert (∀ m, wf_marks m → wf_marks (foldl Add m ss)) as H; [|apply H, no_marks_wf].
  induction ss as [|s ss IH]; intros m Hm; [done|]. by apply IH, Add_wf.
Qed.

(** ** The walk, over the view of the tree *)

Lemma walk_marks_wf s p c : shard_wf s → wf_marks (held (walk s p c)) ∧ wf_marks (pool (walk s p c)).
Proof.
  intros Hwf. assert (∀ l, wf_marks (marks (deref s l))) as Hm.
  { intros l. unfold deref. rewrite lookup_total_alt. destruct (AffinityTree.store s !! l) as [x|] eqn:E; [|apply no_marks_wf].
    apply (hw_marks _ (sw_heap s Hwf) l x E). }
  unfold walk. destruct (roots s !! modelKey p); [|split; apply no_marks_wf].
  destruct (walk_loop _ _ _ _ _ _ _ _) as [[i av] mk]. cbn [held pool].
  split; [destruct mk as [[l ?]|]|destruct av as [[l ?]|]]; rewrite ?Clone_id; first [apply Hm|apply no_marks_wf].
Qed.

Lemma holds_nil s k b : shard_wf s → holds s k [] b = false.
Proof. intros Hwf. unfold holds, place. destruct (roots s !! k); done. Qed.

(** [n] is the length of the longest prefix of [hs] any backend holds. *)
Record deepest (t : tree) (k : Z) (hs : list Z) (n : nat) : Prop := {
  dp_le : (n ≤ length hs)%nat;
  dp_held : n ≠ O → ∃ u, view t u k (take n hs) = true;
  dp_none j u : (n < j ≤ length hs)%nat → view t u k (take j hs) = false;
}.

(** What a walk tells the policy. *)
Record walked (t : tree) (k : Z) (hs : list Z) (c : markSet) (a : anchors) (n : nat) : Prop := {
  wd_deepest : deepest t k hs n;
  wd_held u b : slots t !! u = Some b → Has (held a) b = view t u k (take n hs);
  wd_none : Empty (held a) = true ↔ n = O;
  wd_avail : availDeepest a = true ↔ n ≠ O ∧ ∃ u b, slots t !! u = Some b ∧ Has c b = true ∧ view t u k (take n hs) = true;
  wd_pool u b : availDeepest a = true → slots t !! u = Some b → Has (pool a) b = view t u k (take n hs);
  wd_some : availDeepest a = true → Empty (pool a) = false;
  wd_owned b : Has (held a) b = true → ∃ u, slots t !! u = Some b;
}.

Lemma tree_view_slot t u b k q : slots t !! u = Some b → view t u k q = tree_holds t k q b.
Proof. intros Hu. unfold view. by rewrite Hu. Qed.

Lemma walk_tree t p c :
  tree_wf t → units p ≠ [] → wf_marks c →
  walked t (modelKey p) (path_hashes p) c (tree_walk t p c) (Z.to_nat (heldBlocks (tree_walk t p c))).
Proof.
  intros Hwf Hne Hc. unfold tree_walk. fold (shard_at t (shardFor p)). set (s := shard_at t (shardFor p)).
  pose proof (shard_at_wf t _ Hwf (shardFor_lt p)) as Hs. fold s in Hs.
  pose proof (walk_view s p c Hs Hc) as [Hr _ Hheld Hanc Hhset Hpset Hdeep].
  destruct (walk_marks_wf s p c Hs) as [Hw1 Hw2]. set (a := walk s p c) in *. set (hs := path_hashes p) in *. set (k := modelKey p) in *.
  assert (Hsh : ∀ j b, holds s k (take j hs) b = tree_holds t k (take j hs) b).
  { intros j b. unfold tree_holds. destruct (decide (take j hs = [])) as [He|Hn].
    - rewrite He, !holds_nil; [done|apply shard_at_wf; [done|apply shardFor_lt]|done].
    - unfold s. by rewrite <-(shard_of_prefix p (take j hs) Hn (prefix_take _ _)). }
  set (n := Z.to_nat (heldBlocks a)). assert (n ≤ length hs)%nat as Hn by lia.
  assert (Hex : n ≠ O → ∃ b, holds s k (take n hs) b = true) by (intros ?; apply Hheld; lia).
  assert (Hown : ∀ j b, holds s k (take j hs) b = true → ∃ u, slots t !! u = Some b).
  { intros j b Hb. apply (tw_unused t Hwf s k (take j hs) b); [|done].
    eapply list_elem_of_lookup_2. apply (shard_at_lookup t _ Hwf (shardFor_lt p)). }
  assert (Hset : ∀ u b, slots t !! u = Some b → Has (held a) b = view t u k (take n hs)).
  { intros u b Hu. rewrite Hhset, (tree_view_slot t u b) by done. apply Hsh. }
  assert (Hpool : availDeepest a = true → ∀ u b, slots t !! u = Some b → Has (pool a) b = view t u k (take n hs)).
  { intros [_ He]%Hdeep u b Hu. rewrite Hpset, He, (tree_view_slot t u b) by done. apply Hsh. }
  constructor; [constructor|..]; try done.
  - intros Hn0. destruct (Hex Hn0) as [b Hb]. destruct (Hown _ _ Hb) as [u Hu]. exists u.
    rewrite (tree_view_slot t u b) by done. by rewrite <-Hsh.
  - intros j u Hj. apply not_true_is_false. intros Hv. unfold view in Hv. destruct (slots t !! u) as [b|]; [|done].
    rewrite <-Hsh in Hv. assert (Z.of_nat j ≤ heldBlocks a) by (apply Hheld; [lia|eauto]). lia.
  - rewrite Empty_has by done. split.
    + intros Hall. destruct (decide (n = O)) as [|Hn0]; [done|]. destruct (Hex Hn0) as [b Hb].
      specialize (Hall b). rewrite Hhset in Hall. fold n in Hall. congruence.
    + intros H0 b. rewrite Hhset. fold n. rewrite H0. by apply holds_nil.
  - rewrite Hdeep. split.
    + intros [H0 He]. assert (n ≠ O) as Hn0 by lia. split; [done|].
      destruct (proj1 (Hanc n ltac:(lia))) as (b & Hcb & Hb); [lia|]. destruct (Hown _ _ Hb) as [u Hu].
      exists u, b. split_and!; [done|done|]. rewrite (tree_view_slot t u b) by done. by rewrite <-Hsh.
    + intros (Hn0 & u & b & Hu & Hcb & Hv). rewrite (tree_view_slot t u b), <-Hsh in Hv by done.
      assert (Z.of_nat n ≤ anchorBlocks a) by (apply Hanc; [lia|eauto]). lia.
  - intros u b Ha Hu. by apply Hpool.
  - intros Ha. apply not_true_is_false. rewrite Empty_has by done. intros Hall.
    apply Hdeep in Ha as [H0 He]. destruct (Hex ltac:(lia)) as [b Hb]. specialize (Hall b).
    rewrite Hpset, He in Hall. fold n in Hall. congruence.
  - intros b. rewrite Hhset. apply Hown.
Qed.

(** ** One decision *)

Definition us_of (p : Policy) (cands : list positive) : list positive := usable (triage_all st now p cands).
Definition key_of (rr : RoutingRequest) : Z := modelKey_ sha256 (Model rr).
Definition hashes_of (rr : RoutingRequest) : list Z := Hash <$> Units rr.

(** [l] holds the [n]-block prefix of the request. *)
Definition holds_at (p : Policy) (rr : RoutingRequest) (n : nat) (l : positive) : bool :=
  view (ptree p) (URL (st !!! l)) (key_of rr) (take n (hashes_of rr)).

Record decided (p : Policy) (rr : RoutingRequest) (us : list positive) (ss : list Z) (t : tree) (a : anchors) (n : nat) : Prop := {
  dc_same : same_tree (ptree p) t;
  dc_len : length ss = length us;
  dc_deepest : deepest (ptree p) (key_of rr) (hashes_of rr) n;
  dc_none : Empty (held a) = true ↔ n = O;
  dc_others c : c ∈ not_holding (held a) us ss ↔ c ∈ us ∧ holds_at p rr n c = false;
  dc_avail : availDeepest a = true ↔ n ≠ O ∧ ∃ c, c ∈ us ∧ holds_at p rr n c = true;
  dc_pool c : availDeepest a = true → c ∈ holding (pool a) us ss ↔ c ∈ us ∧ holds_at p rr n c = true;
  dc_strict c : Ladder (cfg p) = LadderStrict →
    c ∈ anchor_holders (cfg p) a us ss ↔ n ≠ O ∧ c ∈ us ∧ holds_at p rr n c = true;
  dc_held u b t' : same_tree t t' → slots t' !! u = Some b → Has (held a) b = true →
    view (ptree p) u (key_of rr) (take n (hashes_of rr)) = true;
}.

Lemma deepest_view t t' k hs n : (∀ u q, view t' u k q = view t u k q) → deepest t k hs n → deepest t' k hs n.
Proof.
  intros Hv [H1 H2 H3]. constructor; [done| |].
  - intros Hn. destruct (H2 Hn) as [u Hu]. exists u. by rewrite Hv.
  - intros. rewrite Hv. auto.
Qed.

Lemma decide_facts p us rr :
  tree_wf (ptree p) → Units rr ≠ [] →
  let '(ss, t) := resolve st us (ptree p) in
  let a := tree_walk t (path_of sha256 rr) (mask ss) in
  decided p rr us ss t a (Z.to_nat (heldBlocks a)).
Proof.
  intros Hwf Hne. pose proof (resolve_spec us (ptree p) Hwf) as Hres. destruct (resolve st us (ptree p)) as [ss t].
  destruct Hres as (Hsame & Hl & Hz). cbn zeta.
  pose proof (walk_tree t (path_of sha256 rr) (mask ss) (st_wf _ _ Hsame) Hne (mask_wf ss)) as W.
  set (a := tree_walk t _ _) in *. set (n := Z.to_nat (heldBlocks a)) in *.
  change (modelKey (path_of sha256 rr)) with (key_of rr) in W. change (path_hashes (path_of sha256 rr)) with (hashes_of rr) in W.
  destruct W as [Wd Wh Wn Wa Wp Ws Wo].
  assert (Hv : ∀ c s, (c, s) ∈ zip us ss → Has (held a) s = holds_at p rr n c).
  { intros c s Hcs. rewrite (Wh _ _ (Hz _ _ Hcs)). apply (st_view _ _ Hsame). }
  assert (Havail : availDeepest a = true ↔ n ≠ O ∧ ∃ c, c ∈ us ∧ holds_at p rr n c = true).
  { rewrite Wa. split; intros [Hn H]; (split; [done|]).
    - destruct H as (u & b & Hu & [Hb Hb0]%mask_has & Hvu).
      assert (∃ c, (c, b) ∈ zip us ss) as [c Hc].
      { apply list_elem_of_lookup in Hb as [i Hi]. destruct (lookup_lt_is_Some_2 us i) as [c Hc].
        { rewrite <-Hl. by apply lookup_lt_Some in Hi. }
        exists c. apply list_elem_of_lookup. exists i. apply lookup_zip_Some. done. }
      exists c. split; [apply (zip_fst us ss c Hl); eauto|].
      rewrite <-(Hv c b Hc). by rewrite (Wh u b Hu).
    - destruct H as (c & Hc & Hhc). apply (zip_fst us ss c Hl) in Hc as [s Hs]. exists (URL (st !!! c)), s.
      split_and!; [by apply Hz| |by rewrite (st_view _ _ Hsame)].
      apply mask_has. split; [|by apply (tw_range t (st_wf _ _ Hsame) _ _ (Hz _ _ Hs))].
      apply list_elem_of_lookup in Hs as [i Hi]. apply lookup_zip_Some in Hi as [_ Hi]. by eapply list_elem_of_lookup_2. }
  assert (Hpl : ∀ c, availDeepest a = true → c ∈ holding (pool a) us ss ↔ c ∈ us ∧ holds_at p rr n c = true).
  { intros c Ha. rewrite elem_holding by done. split.
    - intros (s & Hs & Hp). split; [apply (zip_fst us ss c Hl); eauto|].
      rewrite (Wp _ _ Ha (Hz _ _ Hs)) in Hp. by rewrite (st_view _ _ Hsame) in Hp.
    - intros (Hc & Hhc). apply (zip_fst us ss c Hl) in Hc as [s Hs]. exists s. split; [done|].
      rewrite (Wp _ _ Ha (Hz _ _ Hs)). by rewrite (st_view _ _ Hsame). }
  constructor; try done.
  - eapply deepest_view; [|exact Wd]. intros. symmetry. apply (st_view _ _ Hsame).
  - intros c. rewrite elem_not_holding by done. split.
    + intros (s & Hs & Hf). split; [apply (zip_fst us ss c Hl); eauto|]. by rewrite <-(Hv c s Hs).
    + intros [Hc Hf]. apply (zip_fst us ss c Hl) in Hc as [s Hs]. exists s. split; [done|]. by rewrite (Hv c s Hs).
  - intros c Hstr. unfold anchor_holders. rewrite Hstr. destruct (availDeepest a) eqn:Ha.
    + rewrite Ws by done. cbn [negb andb]. rewrite Hpl by done. destruct (proj1 Havail eq_refl) as [Hn _]. tauto.
    + rewrite bool_decide_eq_true_2 by done. destruct (Empty (pool a)); cbn [negb andb].
      all: split; [by intros ?%elem_of_nil|]; intros (Hn & Hc & Hhc); exfalso;
        assert (false = true) by (apply Havail; eauto); done.
  - intros u b t' Hs' Hu Hb. destruct (Wo b Hb) as [u' Hu']. assert (u = u') as ->.
    { apply (tw_inj t' (st_wf _ _ Hs') u u' b Hu). by apply (st_slots _ _ Hs'). }
    rewrite <-(st_view _ _ Hsame), <-(Wh u' b Hu'). done.
Qed.

(** ** The ladder *)

Lemma fallback_in cs l : (fallback st ds cs).1 = Some l → l ∈ cs.
Proof. unfold fallback, LeastOutstanding_Select. destruct cs; [done|]. apply pickBest_in. Qed.

Lemma fallback_ok cs : cs ≠ [] → (fallback st ds cs).2 = None.
Proof. by destruct cs. Qed.

(** Among numbers, no candidate is strictly less loaded than the pick. *)
Lemma fallback_least cs l x :
  (∀ y, y ∈ cs → num (NormalizedLoad (st !!! y))) → (fallback st ds cs).1 = Some l → x ∈ cs →
  SFltb (NormalizedLoad (st !!! x)) (NormalizedLoad (st !!! l)) = false.
Proof.
  intros Hn Hp Hx. unfold fallback, LeastOutstanding_Select in Hp. destruct cs as [|c cs]; [done|].
  by apply (pickBest_least _ _ _ _ _ Hn) in Hp as [_ Hp]; apply (Hp x Hx).
Qed.

Lemma bands_sub c us pool e l :
  (l ∈ pool_ (bands st now c us pool e) → l ∈ pool) ∧ (l ∈ stretch (bands st now c us pool e) → l ∈ pool).
Proof.
  unfold bands. destruct pool as [|x pool]; [by split|]. destruct (_ || _); [|by split; [|intros ?%elem_of_nil]].
  destruct (filter _ (x :: pool)) as [|y ys] eqn:Hf; cbn [pool_ stretch].
  - by split; [intros ?%elem_of_nil|].
  - split; [|by intros ?%elem_of_nil]. rewrite <-Hf. intros [_ ?]%list_elem_of_filter. done.
Qed.

(** No band is enabled. *)
Definition bands_off (c : Config) : Prop :=
  SoftNodeConcurrency c ≤ 0 ∧ TTFTSoft c ≤ 0 ∧ RelativeTTFT c = false ∧ RelativeDecode c = false.

Lemma bands_off_eq c us pool e : bands_off c → bands st now c us pool e = Banding pool [] no_causes 0 0.
Proof.
  intros (H1 & H2 & H3 & H4). unfold bands, softTTFT_active. rewrite H3, H4.
  rewrite (proj2 (Z.ltb_ge 0 (SoftNodeConcurrency c))), (proj2 (Z.ltb_ge 0 (TTFTSoft c))) by done. by destruct pool.
Qed.

(** What the ladder decides on, once the signals have spoken: the banding of the holders,
    the guard's reference, the slots, the walk and the tree. *)
Record standing := Standing { sd_slots : list Z; sd_walk : anchors; sd_band : banding; sd_level : Z; sd_tree : tree }.
Definition standing_of (p : Policy) (cands : list positive) (rr : RoutingRequest) : standing :=
  let tr := triage_all st now p cands in
  let us := usable tr in
  let '(ss, t) := resolve st us (ptree p) in
  let a := tree_walk t (path_of sha256 rr) (mask ss) in
  let b := bands st now (cfg p) us (anchor_holders (cfg p) a us ss) (estTokens rr) in
  let '(g, t) := saturated_holder (held a) (morder (sat tr)) (-1) t in
  Standing ss a b (guard_ref st (cfg p) g b) t.

Lemma Select_standing p cands rr :
  us_of p cands ≠ [] → Units rr ≠ [] → CostRouting (cfg p) = false →
  Select st now sha256 morder ds p cands rr =
    let d := standing_of p cands rr in
    if bool_decide (pool_ (sd_band d) ≠ []) then via st ds "cache" true (pool_ (sd_band d)) rr (sd_tree d)
    else if negb (Empty (held (sd_walk d)))
         then relieve st now ds (cfg p) cands (us_of p cands) (sd_slots d) (sd_walk d) (sd_band d) (sd_level d) rr (sd_tree d)
         else via st ds "load" true (us_of p cands) rr (sd_tree d).
Proof.
  intros Hus Hne Hcost. unfold us_of in *. unfold Select, standing_of. destruct cands as [|c cs]; [done|].
  destruct (resolve _ _ _) as [ss t]. rewrite (bool_decide_eq_false_2 (usable _ = [])) by done.
  rewrite (bool_decide_eq_false_2 (Units rr = [])) by done. rewrite Hcost. by destruct (saturated_holder _ _ _ _) as [g t'].
Qed.

(** The facts of [decide_facts], for the standing. *)
Lemma standing_facts p cands rr :
  tree_wf (ptree p) → Units rr ≠ [] →
  let d := standing_of p cands rr in
  ∃ n, deepest (ptree p) (key_of rr) (hashes_of rr) n ∧
  (Empty (held (sd_walk d)) = true ↔ n = O) ∧
  (∀ c, c ∈ not_holding (held (sd_walk d)) (us_of p cands) (sd_slots d) ↔ c ∈ us_of p cands ∧ holds_at p rr n c = false) ∧
  (Ladder (cfg p) = LadderStrict → ∀ c,
     c ∈ anchor_holders (cfg p) (sd_walk d) (us_of p cands) (sd_slots d) ↔ n ≠ O ∧ c ∈ us_of p cands ∧ holds_at p rr n c = true) ∧
  sd_band d = bands st now (cfg p) (us_of p cands) (anchor_holders (cfg p) (sd_walk d) (us_of p cands) (sd_slots d)) (estTokens rr) ∧
  same_tree (ptree p) (sd_tree d).
Proof.
  intros Hwf Hne. cbn zeta. unfold standing_of. fold (us_of p cands).
  pose proof (decide_facts p (us_of p cands) rr Hwf Hne) as H. destruct (resolve st _ (ptree p)) as [ss t].
  cbn zeta in H. destruct H as [Hs _ Hd Hn Ho _ _ Hst _].
  pose proof (saturated_holder_spec (held (tree_walk t (path_of sha256 rr) (mask ss)))
    (morder (sat (triage_all st now p cands))) (-1) t (st_wf _ _ Hs)) as Hsat.
  destruct (saturated_holder _ _ _ _) as [g t']. eexists. split_and!; try done; [|by eapply same_tree_trans].
  intros Hstr c. by apply Hst.
Qed.

Lemma Select_no_usable p cands rr :
  cands ≠ [] → us_of p cands = [] →
  Select st now sha256 morder ds p cands rr =
    match queueTarget st sha256 ds (waitable (triage_all st now p cands)) rr (ptree p) with
    | (Some l, t) => refuse (SaturatedError l (NodeConcurrency (cfg p))) rr t
    | (None, t) => refuse ErrAllBackendsSaturated rr t
    end.
Proof. intros Hc Hus. unfold Select. destruct cands; [done|]. unfold us_of in Hus. rewrite Hus. done. Qed.

Lemma fold_cost_in total us : ∀ ss acc,
  match foldl (cost_step st total) acc (zip us ss) with
  | Some a => ch_best a ∈ us ∨ acc = Some a
  | None => acc = None
  end.
Proof.
  induction us as [|u us IH]; intros ss acc; [by destruct acc; [right|]|]. destruct ss as [|s ss]; [by destruct acc; [right|]|].
  cbn [zip zip_with foldl]. specialize (IH ss (cost_step st total acc (u, s))). fold (zip us ss).
  destruct (foldl _ _ (zip us ss)) as [a|]; cbn [cost_step] in IH.
  - destruct IH as [?|IH]; [left; by right|]. destruct acc as [b|]; [destruct (_ || _)|]; try injection IH as <-;
      first [by left; left|right; done].
  - destruct acc as [b|]; [destruct (_ || _)|]; done.
Qed.

Lemma zip_in {A B} (us : list A) (ss : list B) c s : (c, s) ∈ zip us ss → c ∈ us.
Proof. intros [i Hi]%list_elem_of_lookup. apply lookup_zip_Some in Hi as [Hi _]. by eapply list_elem_of_lookup_2. Qed.

Lemma holding_sub m us ss c : c ∈ holding m us ss → c ∈ us.
Proof. unfold holding. intros ([x s] & -> & [_ Hx]%list_elem_of_filter)%list_elem_of_fmap. by eapply zip_in. Qed.
Lemma not_holding_sub m us ss c : c ∈ not_holding m us ss → c ∈ us.
Proof. unfold not_holding. intros ([x s] & -> & [_ Hx]%list_elem_of_filter)%list_elem_of_fmap. by eapply zip_in. Qed.
Lemma anchor_sub c a us ss l : l ∈ anchor_holders c a us ss → l ∈ us.
Proof. unfold anchor_holders. destruct (_ && _); [apply holding_sub|by intros ?%elem_of_nil]. Qed.

Lemma via_backend tier mark cs rr t l : o_backend (via st ds tier mark cs rr t) = Some l → l ∈ cs.
Proof. unfold via. pose proof (fallback_in cs l). by destruct (fallback st ds cs). Qed.
Lemma via_fields tier mark cs rr t :
  o_tier (via st ds tier mark cs rr t) = tier ∧ PolicyState (o_rr (via st ds tier mark cs rr t)) = Some mark ∧
  o_tree (via st ds tier mark cs rr t) = t ∧ (cs ≠ [] → o_err (via st ds tier mark cs rr t) = None) ∧
  o_backend (via st ds tier mark cs rr t) = (fallback st ds cs).1.
Proof. unfold via. pose proof (fallback_ok cs). by destruct (fallback st ds cs). Qed.

(** The outcomes of tiers 2 to 3. *)
Lemma relieve_cases c cands us ss a b g rr t :
  let o := relieve st now ds c cands us ss a b g rr t in
  let split := filter (λ l, split_ok st now c us b (estTokens rr) (threshold c g) l = true) (not_holding (held a) us ss) in
  let tr := filter (λ l, under_level st (margin_of g (TransientFallback c)) l = true) (not_holding (held a) us ss) in
  (split ≠ [] ∧ o = via st ds "split" true split rr t) ∨
  (split = [] ∧ stretch b ≠ [] ∧ o = via st ds "stretch" true (stretch b) rr t) ∨
  (split = [] ∧ stretch b = [] ∧ tr ≠ [] ∧ o = via st ds "overflow" false tr rr t) ∨
  (split = [] ∧ stretch b = [] ∧ Ladder c = LadderStrict ∧ o = refuse ErrSplitGuardBlocked rr t) ∨
  (split = [] ∧ stretch b = [] ∧ Ladder c = LadderServeAnyway ∧ o = via st ds "overflow" false cands rr t).
Proof.
  cbn zeta. unfold relieve. destruct (filter _ _) as [|x xs]; [|by left]. right.
  rewrite bool_decide_eq_false_2 by tauto. destruct (stretch b) as [|y ys]; [right|by left].
  rewrite bool_decide_eq_false_2 by tauto. destruct (filter _ _) as [|z zs] eqn:Hf.
  - rewrite (bool_decide_eq_false_2 ([] ≠ [])), andb_false_r by tauto. destruct (Ladder c); auto 10.
  - destruct (_ && _ && _); [by left|]. destruct (Ladder c); auto 10.
Qed.

(** * Properties *)

(** C26: routing never leaves the usable set.  A backend returned is one of the candidates;
    on the strict ladder no enabled signal calls it saturated, whatever tier it came from. *)
Theorem select_only_usable p cands rr l :
  o_backend (Select st now sha256 morder ds p cands rr) = Some l →
  l ∈ cands ∧ (Ladder (cfg p) = LadderStrict → clear_of now p (minInflight st cands) (st !!! l)).
Proof.
  assert (∀ x, x ∈ us_of p cands → x ∈ cands ∧ (Ladder (cfg p) = LadderStrict → clear_of now p (minInflight st cands) (st !!! x))) as Hu.
  { intros x Hx. apply elem_usable in Hx as [? ?]. done. }
  destruct cands as [|c0 cs]; [done|]. set (cands := c0 :: cs) in *.
  destruct (decide (us_of p cands = [])) as [He|Hne].
  { rewrite Select_no_usable by done. by destruct (queueTarget _ _ _ _ _ _) as [[]]. }
  destruct (decide (Units rr = [])) as [Hr|Hr].
  { unfold Select. unfold cands at 1. fold cands. fold (us_of p cands). destruct (resolve _ _ _).
    rewrite bool_decide_eq_false_2, bool_decide_eq_true_2 by done. intros Hl%via_backend. auto. }
  destruct (CostRouting (cfg p)) eqn:Hc.
  - unfold Select. unfold cands at 1. fold cands. fold (us_of p cands). destruct (resolve _ _ _) as [ss t].
    rewrite !bool_decide_eq_false_2 by done. rewrite Hc. unfold selectByCost.
    match goal with |- context [foldl ?f ?a (zip (us_of p cands) ?h)] => pose proof (fold_cost_in (sum_tokens (units (path_of sha256 rr))) (us_of p cands) h None) as Hin end.
    destruct (foldl _ _ _) as [a|]; [|done]. cbn. intros [= <-]. destruct Hin as [?|?]; [auto|done].
  - rewrite Select_standing by done. cbn zeta. set (d := standing_of p cands rr).
    assert (Hb : ∀ x, x ∈ pool_ (sd_band d) ∨ x ∈ stretch (sd_band d) → x ∈ us_of p cands).
    { unfold d, standing_of. fold (us_of p cands). destruct (resolve _ _ _) as [ss t]. destruct (saturated_holder _ _ _ _). cbn [sd_band].
      intros x [Hx|Hx]; apply bands_sub in Hx; by apply anchor_sub in Hx. }
    destruct (bool_decide _); [intros ?%via_backend; auto|]. destruct (negb _); [|intros ?%via_backend; auto].
    destruct (relieve_cases (cfg p) cands (us_of p cands) (sd_slots d) (sd_walk d) (sd_band d) (sd_level d) rr (sd_tree d))
      as [[_ ->]|[(_ & _ & ->)|[(_ & _ & _ & ->)|[(_ & _ & _ & ->)|(_ & _ & Hl & ->)]]]].
    + intros [_ ?%not_holding_sub]%via_backend%list_elem_of_filter. auto.
    + intros ?%via_backend. auto.
    + intros [_ ?%not_holding_sub]%via_backend%list_elem_of_filter. auto.
    + done.
    + intros ?%via_backend. split; [done|]. by rewrite Hl.
Qed.

Lemma deepest_unique t k hs n m : deepest t k hs n → deepest t k hs m → n = m.
Proof.
  intros [Hn Hn1 Hn2] [Hm Hm1 Hm2]. destruct (Nat.lt_trichotomy n m) as [Hl|[?|Hl]]; [|done|]; exfalso.
  - destruct Hm1 as [u Hu]; [lia|]. rewrite Hn2 in Hu by lia. done.
  - destruct Hn1 as [u Hu]; [lia|]. rewrite Hm2 in Hu by lia. done.
Qed.


(** The guard's level, when no band is enabled: the configured limit, or the level of a
    saturated holder of the very prefix. *)
Lemma saturated_holder_level h rs : ∀ g t, tree_wf t →
  let '(g', t') := saturated_holder h rs g t in
  g' = g ∨ ∃ u b, (u, g') ∈ rs ∧ slots t' !! u = Some b ∧ Has h b = true.
Proof.
  induction rs as [|[url ref] rs IH]; intros g t Hwf; cbn [saturated_holder]; [by left|].
  assert (Hskip : ∀ t, tree_wf t → let '(g', t') := saturated_holder h rs g t in
    g' = g ∨ ∃ u b, (u, g') ∈ (url, ref) :: rs ∧ slots t' !! u = Some b ∧ Has h b = true).
  { intros t0 Hwf0. specialize (IH g t0 Hwf0). destruct (saturated_holder h rs g t0) as [g' t'].
    destruct IH as [?|(u & b & ? & ?)]; [by left|right; exists u, b; split; [by right|done]]. }
  destruct (g <? ref); [|by apply Hskip]. pose proof (slotOrCreate_spec url t Hwf) as Hs.
  destruct (slotOrCreate url t) as [s t1]. destruct Hs as (Hwf1 & Hus & _). destruct (Has h s) eqn:Hb; [|by apply Hskip].
  specialize (IH ref t1 Hwf1). pose proof (saturated_holder_spec h rs ref t1 Hwf1) as Hsame.
  destruct (saturated_holder h rs ref t1) as [g' t']. right. destruct IH as [->|(u & b & ? & ?)].
  - exists url, s. split_and!; [by left| |done]. by apply (st_slots _ _ Hsame).
  - exists u, b. split; [by right|done].
Qed.

Lemma standing_level p cands rr n :
  (∀ m, morder m ≡ₚ map_to_list m) → tree_wf (ptree p) → Units rr ≠ [] → bands_off (cfg p) →
  deepest (ptree p) (key_of rr) (hashes_of rr) n →
  let g := sd_level (standing_of p cands rr) in
  g = NodeConcurrency (cfg p) ∨
  ∃ l, l ∈ cands ∧ ¬ clear_of now p (minInflight st cands) (st !!! l) ∧ holds_at p rr n l = true ∧
    v_ref (ask now p (minInflight st cands) (st !!! l)) = g.
Proof.
  intros Hmo Hwf Hne Hoff Hd. cbn zeta. unfold standing_of. fold (us_of p cands).
  pose proof (decide_facts p (us_of p cands) rr Hwf Hne) as H. destruct (resolve st _ (ptree p)) as [ss t].
  cbn zeta in H. destruct H as [Hs _ Hd' _ _ _ _ _ Hheld].
  pose proof (deepest_unique _ _ _ _ _ Hd Hd') as Hn.
  set (a := tree_walk t _ _) in *. set (rs := morder _).
  pose proof (saturated_holder_level (held a) rs (-1) t (st_wf _ _ Hs)) as Hlev.
  pose proof (saturated_holder_spec (held a) rs (-1) t (st_wf _ _ Hs)) as Hsame.
  destruct (saturated_holder (held a) rs (-1) t) as [g t']. cbn [sd_level]. rewrite bands_off_eq by done.
  unfold guard_ref. cbn [stretch causes]. rewrite bool_decide_eq_false_2 by tauto. cbn [andb].
  destruct (Z.leb_spec g 0) as [|Hg]; [by left|right].
  destruct Hlev as [?|(u & b & Hin & Hu & Hb)]; [lia|]. unfold rs in Hin. rewrite Hmo in Hin. apply elem_of_map_to_list in Hin.
  destruct (triage_fold p (minInflight st cands) cands (Triage [] ∅ [])) as (_ & _ & Hsat).
  apply Hsat in Hin as [Hin|(l & Hl & Hlu & Hcl & Hr)]; [done|]. exists l. split_and!; [done| | |done].
  - rewrite <-ask_clear. unfold is_clear in Hcl. apply Z.ltb_ge in Hcl. lia.
  - unfold holds_at. rewrite Hlu, Hn. by apply (Hheld u b t').
Qed.

(** C11: the only way to become a holder is a guarded split.  On the strict ladder, when
    somebody holds a prefix of the request and the chosen backend will be recorded, either it
    holds the deepest held prefix already, or it was picked by a split and its in-flight is
    below the guard's share of the reference level; without bands that level is the
    configured limit or the level of a saturated holder of this very prefix. *)
Theorem marks_are_guarded p cands rr n l :
  (∀ m, morder m ≡ₚ map_to_list m) → tree_wf (ptree p) → Units rr ≠ [] →
  Ladder (cfg p) = LadderStrict → CostRouting (cfg p) = false →
  deepest (ptree p) (key_of rr) (hashes_of rr) n → n ≠ O →
  let o := Select st now sha256 morder ds p cands rr in
  let g := sd_level (standing_of p cands rr) in
  o_backend o = Some l → PolicyState (o_rr o) = Some true →
  holds_at p rr n l = true ∨
  (o_tier o = "split"%string ∧ under_level st (threshold (cfg p) g) l = true ∧
   (bands_off (cfg p) → g = NodeConcurrency (cfg p) ∨
      ∃ s, s ∈ cands ∧ ¬ clear_of now p (minInflight st cands) (st !!! s) ∧ holds_at p rr n s = true ∧
        v_ref (ask now p (minInflight st cands) (st !!! s)) = g)).
Proof.
  intros Hmo Hwf Hne Hstr Hcost Hd Hn0. cbn zeta. intros Hl Hmark.
  destruct (decide (us_of p cands = [])) as [He|Hus].
  { destruct cands as [|c cs]; [done|]. rewrite Select_no_usable in Hl by done. by destruct (queueTarget _ _ _ _ _ _) as [[]]. }
  pose proof (standing_level p cands rr n Hmo Hwf Hne) as Hlevel.
  destruct (standing_facts p cands rr Hwf Hne) as (m & Hm & Hnone & Hothers & Hanc & Hband & _).
  assert (m = n) as -> by by eapply deepest_unique. specialize (Hanc Hstr).
  rewrite Select_standing in * by done. cbn zeta in *. set (d := standing_of p cands rr) in *.
  assert (Hb : ∀ x, x ∈ pool_ (sd_band d) ∨ x ∈ stretch (sd_band d) → holds_at p rr n x = true).
  { rewrite Hband. intros x [Hx|Hx]; apply bands_sub in Hx; by apply Hanc in Hx as (_ & _ & ?). }
  destruct (bool_decide (pool_ _ ≠ [])); [left; apply via_backend in Hl; auto|].
  destruct (Empty (held (sd_walk d))); [by rewrite (proj1 Hnone eq_refl) in Hn0|]. cbn [negb] in *.
  destruct (relieve_cases (cfg p) cands (us_of p cands) (sd_slots d) (sd_walk d) (sd_band d) (sd_level d) rr (sd_tree d))
    as [[_ He]|[(_ & _ & He)|[(_ & _ & _ & He)|[(_ & _ & _ & He)|(_ & _ & Hl' & He)]]]]; rewrite He in Hl, Hmark |- *.
  - right. apply via_backend in Hl as [Hok _]%list_elem_of_filter. split_and!; [apply via_fields| |auto].
    unfold split_ok in Hok. by apply andb_true_iff in Hok as [_ ?].
  - left. apply via_backend in Hl. auto.
  - destruct (via_fields "overflow" false (filter (λ l, under_level st (margin_of (sd_level d) (TransientFallback (cfg p))) l = true)
      (not_holding (held (sd_walk d)) (us_of p cands) (sd_slots d))) rr (sd_tree d)) as (_ & Hf & _). congruence.
  - done.
  - congruence.
Qed.

(** a rejection by the guard means what it says: the prefix has holders, none of them is
    usable, and every usable backend is at or above the guard's share of the reference; a
    prompt nobody holds is never rejected that way. *)
Theorem guard_block_means p cands rr :
  tree_wf (ptree p) →
  o_err (Select st now sha256 morder ds p cands rr) = Some ErrSplitGuardBlocked →
  Ladder (cfg p) = LadderStrict ∧ us_of p cands ≠ [] ∧
  ∃ n, deepest (ptree p) (key_of rr) (hashes_of rr) n ∧ n ≠ O ∧
    (bands_off (cfg p) → ∀ l, l ∈ us_of p cands →
       holds_at p rr n l = false ∧
       under_level st (threshold (cfg p) (sd_level (standing_of p cands rr))) l = false).
Proof.
  intros Hwf He.
  assert (Hvia : ∀ tier mark cs rr t, o_err (via st ds tier mark cs rr t) ≠ Some ErrSplitGuardBlocked).
  { intros tier mark cs rr' t. unfold via, fallback, LeastOutstanding_Select. by destruct cs. }
  destruct cands as [|c0 cs]; [done|]. set (cands := c0 :: cs) in *.
  destruct (decide (us_of p cands = [])) as [Hu|Hus].
  { rewrite Select_no_usable in He by done. by destruct (queueTarget _ _ _ _ _ _) as [[]]. }
  destruct (decide (Units rr = [])) as [Hr|Hr].
  { exfalso. unfold Select in He. unfold cands at 1 in He. fold cands in He. fold (us_of p cands) in He. destruct (resolve _ _ _).
    rewrite bool_decide_eq_false_2, bool_decide_eq_true_2 in He by done. by apply Hvia in He. }
  destruct (CostRouting (cfg p)) eqn:Hc.
  { exfalso. unfold Select in He. unfold cands at 1 in He. fold cands in He. fold (us_of p cands) in He. destruct (resolve _ _ _) as [ss t].
    rewrite !bool_decide_eq_false_2 in He by done. rewrite Hc in He. by destruct (selectByCost _ _ _ _ _ _). }
  destruct (standing_facts p cands rr Hwf Hr) as (n & Hd & Hnone & Hothers & Hanc & Hband & _).
  rewrite Select_standing in He by done. cbn zeta in He. set (d := standing_of p cands rr) in *.
  destruct (bool_decide (pool_ _ ≠ [])) eqn:Hpool; [by apply Hvia in He|].
  destruct (Empty (held (sd_walk d))) eqn:Hemp; cbn [negb] in He; [by apply Hvia in He|].
  destruct (relieve_cases (cfg p) cands (us_of p cands) (sd_slots d) (sd_walk d) (sd_band d) (sd_level d) rr (sd_tree d))
    as [[_ Ho]|[(_ & _ & Ho)|[(_ & _ & _ & Ho)|[(Hsp & _ & Hstr & Ho)|(_ & _ & Hl' & Ho)]]]]; rewrite Ho in He; try by apply Hvia in He.
  split_and!; [done|done|]. exists n. split_and!; [done|intros ->; assert (false = true) by (by apply Hnone); done|].
  intros Hoff l Hl. rewrite bands_off_eq in Hband by done. rewrite Hband in Hpool. cbn [pool_] in Hpool.
  apply bool_decide_eq_false in Hpool. assert (holds_at p rr n l = false) as Hh.
  { apply not_true_is_false. intros Hh. apply Hpool. intros Hnil. specialize (Hanc Hstr l).
    rewrite Hnil in Hanc. apply (elem_of_nil l), Hanc. split_and!; [|done|done]. intros ->. assert (false = true) by (by apply Hnone). done. }
  split; [done|]. apply not_true_is_false. intros Hlow. apply (elem_of_nil l). rewrite <-Hsp. apply list_elem_of_filter.
  split; [|by apply Hothers]. unfold split_ok. rewrite Hlow, Hband. cbn [causes byRelTTFT byRelDecode].
  destruct Hoff as (_ & Ht & _). unfold softTTFT_active. by rewrite (proj2 (Z.ltb_ge 0 (TTFTSoft (cfg p)))).
Qed.

Lemma queueTarget_spec p w rr l t' :
  tree_wf (ptree p) → queueTarget st sha256 ds w rr (ptree p) = (Some l, t') →
  l ∈ w ∧ (Units rr ≠ [] → ∃ n, deepest (ptree p) (key_of rr) (hashes_of rr) n ∧ n ≠ O ∧ holds_at p rr n l = true).
Proof.
  intros Hwf. unfold queueTarget. destruct w as [|c cs]; [done|]. set (w := c :: cs).
  destruct (Units rr) as [|u us] eqn:Hu.
  - intros [= Hf _]. split; [by apply fallback_in|done].
  - pose proof (decide_facts p w rr Hwf ltac:(by rewrite Hu)) as H. destruct (resolve st w (ptree p)) as [ss t].
    cbn zeta in H. destruct H as [_ _ Hd _ _ Hav Hpl _ _]. set (a := tree_walk t _ _) in *.
    destruct (Empty (pool a)); cbn [orb]; [done|]. destruct (availDeepest a) eqn:Ha; cbn [negb]; [|done].
    destruct (holding (pool a) w ss) as [|h hs] eqn:Hh; [done|]. intros Hf%(f_equal fst).
    apply fallback_in in Hf. apply Hpl in Hf as [Hw Hhold]; [|done].
    split; [done|]. intros _. eexists. split_and!; [exact Hd|by apply Hav|done].
Qed.

(** "every backend is saturated" is answered exactly when each candidate is called
    saturated by some signal; and when the answer names a backend to wait for, nothing but
    the router's own concurrency limit stands in its way, and it holds the deepest held
    prefix of the request. *)
Theorem saturation_means p cands rr :
  cands ≠ [] → tree_wf (ptree p) →
  let e := o_err (Select st now sha256 morder ds p cands rr) in
  ((∃ x, e = Some x ∧ is_saturated x = true) ↔ ∀ l, l ∈ cands → ¬ clear_of now p (minInflight st cands) (st !!! l)) ∧
  ∀ l lim, e = Some (SaturatedError l lim) →
    l ∈ cands ∧ lim = NodeConcurrency (cfg p) ∧
    (∀ sg, sg ∈ signals p → (saturated now p (minInflight st cands) sg (st !!! l)).1 = true → name sg = "concurrency"%string) ∧
    (Units rr ≠ [] → ∃ n, deepest (ptree p) (key_of rr) (hashes_of rr) n ∧ n ≠ O ∧ holds_at p rr n l = true).
Proof.
  intros Hne Hwf. cbn zeta.
  assert (Hvia : ∀ tier mark cs t, ∀ x, o_err (via st ds tier mark cs rr t) = Some x → is_saturated x = false).
  { intros tier mark cs t x. unfold via, fallback, LeastOutstanding_Select. destruct cs; by intros [= <-]. }
  destruct (decide (us_of p cands = [])) as [Hu|Hus].
  - rewrite Select_no_usable by done.
    assert (Hno : ∀ l, l ∈ cands → ¬ clear_of now p (minInflight st cands) (st !!! l)).
    { intros l Hl Hc. apply (elem_of_nil l). rewrite <-Hu. by apply elem_usable. }
    pose proof (queueTarget_spec p (waitable (triage_all st now p cands)) rr) as Hq.
    destruct (queueTarget _ _ _ _ _ _) as [[b|] t]; cbn [o_err refuse].
    + split; [split; [done|intros _; by eexists]|]. intros l lim [= <- <-].
      destruct (Hq b t Hwf eq_refl) as [Hw Hu']. apply elem_waitable in Hw as (Hl & _ & Hc). done.
    + split; [split; [done|intros _; by eexists]|done].
  - assert (Hsome : ∃ l, l ∈ cands ∧ clear_of now p (minInflight st cands) (st !!! l)).
    { destruct (us_of p cands) as [|l us] eqn:He; [done|]. exists l. apply elem_usable. fold (us_of p cands). rewrite He. by left. }
    assert (Hall : ∀ x, o_err (Select st now sha256 morder ds p cands rr) = Some x → is_saturated x = false).
    { intros x. destruct (decide (Units rr = [])) as [Hr|Hr].
      { unfold Select. destruct cands as [|c cs]; [done|]. fold (us_of p (c :: cs)). destruct (resolve _ _ _).
        rewrite bool_decide_eq_false_2, bool_decide_eq_true_2 by done. apply Hvia. }
      destruct (CostRouting (cfg p)) eqn:Hc.
      { unfold Select. destruct cands as [|c cs]; [done|]. fold (us_of p (c :: cs)). destruct (resolve _ _ _).
        rewrite !bool_decide_eq_false_2 by done. rewrite Hc. by destruct (selectByCost _ _ _ _ _ _). }
      rewrite Select_standing by done. cbn zeta. destruct (bool_decide _); [apply Hvia|]. destruct (negb _); [|apply Hvia].
      match goal with |- context [relieve _ _ _ ?c ?cs ?us ?ss ?a ?b ?g _ ?t] => destruct (relieve_cases c cs us ss a b g rr t)
        as [[_ ->]|[(_ & _ & ->)|[(_ & _ & _ & ->)|[(_ & _ & _ & ->)|(_ & _ & _ & ->)]]]] end; try apply Hvia. by intros [= <-]. }
    split.
    + split; [intros (x & Hx & Hs)|]; [by rewrite (Hall _ Hx) in Hs|].
      intros Hno. destruct Hsome as (l & Hl & Hc). by destruct (Hno l Hl).
    + intros l lim He. by apply Hall in He.
Qed.

Lemma commit_core l rr p :
  tree_wf (ptree p) →
  let p' := Commit st now sha256 l rr p in
  tree_wf (ptree p') ∧ hot p' = hot p ∧ cfg p' = cfg p ∧
  ∀ u k q, view (ptree p') u k q = view (ptree p) u k q ||
    bool_decide (PolicyState rr ≠ Some false ∧ u = URL (st !!! l) ∧ k = key_of rr ∧ q ≠ [] ∧ q `prefix_of` hashes_of rr).
Proof.
  intros Hwf. cbn zeta. unfold Commit. destruct (decide (Units rr = [])) as [Hr|Hr].
  { rewrite bool_decide_eq_true_2 by done. split_and!; try done. intros u k q.
    rewrite bool_decide_eq_false_2; [by rewrite orb_false_r|]. intros (_ & _ & _ & Hq & Hp). apply Hq.
    unfold hashes_of in Hp. rewrite Hr in Hp. by apply prefix_nil_inv in Hp. }
  rewrite bool_decide_eq_false_2 by done.
  assert (Hgo : let p' := (let '(s, t) := slotOrCreate (URL (st !!! l)) (ptree p) in set_tree (tree_commit (path_of sha256 rr) s now t).2 p) in
    tree_wf (ptree p') ∧ hot p' = hot p ∧ cfg p' = cfg p ∧
    ∀ u k q, view (ptree p') u k q = view (ptree p) u k q ||
      bool_decide (u = URL (st !!! l) ∧ k = key_of rr ∧ q ≠ [] ∧ q `prefix_of` hashes_of rr)).
  { cbn zeta. pose proof (commit_url_spec (URL (st !!! l)) (path_of sha256 rr) now (ptree p) Hwf Hr) as H.
    unfold commit_url in H. destruct (slotOrCreate _ _) as [s t]. destruct (tree_commit _ s now t) as [hit t'].
    destruct H as (Hwf' & Hv & _). done. }
  destruct (PolicyState rr) as [[]|].
  2:{ split_and!; try done. intros u k q. rewrite bool_decide_eq_false_2; [by rewrite orb_false_r|]. by intros [? _]. }
  all: destruct Hgo as (H1 & H2 & H3 & H4); split_and!; [done..|]; intros u k q; rewrite H4; f_equal; apply bool_decide_ext; tauto || (split; [by split|by intros [_ ?]]).
Qed.

(** committing records the backend, and it alone, on every non-empty prefix of the
    request, unless the decision said not to; the tree stays well formed. *)
Theorem commit_marks l rr p :
  tree_wf (ptree p) →
  let p' := Commit st now sha256 l rr p in
  tree_wf (ptree p') ∧ hot p' = hot p ∧ cfg p' = cfg p ∧
  ∀ u k q, view (ptree p') u k q = view (ptree p) u k q ||
    bool_decide (PolicyState rr ≠ Some false ∧ u = URL (st !!! l) ∧ k = key_of rr ∧ q ≠ [] ∧ q `prefix_of` hashes_of rr).
Proof. apply commit_core. Qed.

(** ** Cost routing *)

Definition cheaper (total : Z) (c : positive) (h : Z) (x : positive * Z) : Prop :=
  cost total h (st !!! c) < cost total x.2 (st !!! x.1) ∨
  (cost total h (st !!! c) = cost total x.2 (st !!! x.1) ∧ inflight (load (st !!! c)) ≤ inflight (load (st !!! x.1))).

Definition cheapest_of (total : Z) (l : list (positive * Z)) (a : cheapest) : Prop :=
  (ch_best a, ch_held a) ∈ l ∧ ch_cost a = cost total (ch_held a) (st !!! ch_best a) ∧
  ∀ x, x ∈ l → cheaper total (ch_best a) (ch_held a) x.

Lemma fold_cost_min total l : l ≠ [] → ∃ a, foldl (cost_step st total) None l = Some a ∧ cheapest_of total l a.
Proof.
  induction l as [|[c h] l IH] using rev_ind; [done|]. intros _. rewrite foldl_snoc.
  destruct (decide (l = [])) as [->|Hl].
  - eexists. split; [done|]. split_and!; [by left|done|]. intros x ->%list_elem_of_singleton. right. cbn. lia.
  - destruct (IH Hl) as (a & -> & Hin & Hc & Hmin). cbn [cost_step]. rewrite Hc.
    destruct (_ || _) eqn:Hb; eexists; (split; [done|]); split_and!; cbn [ch_best ch_cost ch_held]; try done.
    + apply elem_of_app. right. by left.
    + intros x [Hx| ->%list_elem_of_singleton]%elem_of_app; [|right; cbn; lia].
      specialize (Hmin x Hx). unfold cheaper in *. apply orb_true_iff in Hb. rewrite andb_true_iff, !Z.ltb_lt, Z.eqb_eq in Hb. lia.
    + apply elem_of_app. by left.
    + intros x [Hx| ->%list_elem_of_singleton]%elem_of_app; [by apply Hmin|]. unfold cheaper. cbn.
      apply orb_false_iff in Hb. rewrite andb_false_iff, !Z.ltb_ge, Z.eqb_neq in Hb. lia.
Qed.

(** The tokens of the request's prefix that [l] holds. *)
Definition held_by (p : Policy) (rr : RoutingRequest) (l : positive) : Z :=
  sum_tokens (take (lead (view (ptree p) (URL (st !!! l)) (key_of rr)) [] (hashes_of rr)) (Units rr)).
Definition cost_of (p : Policy) (rr : RoutingRequest) (l : positive) : Z :=
  cost (sum_tokens (Units rr)) (held_by p rr l) (st !!! l).

Lemma lead_ext_prefix f g acc xs :
  (∀ q, q ≠ [] → q `prefix_of` acc ++ xs → f q = g q) → lead f acc xs = lead g acc xs.
Proof.
  revert acc. induction xs as [|x xs IH]; intros acc H; [done|]. cbn. rewrite H.
  - destruct (g _); [|done]. f_equal. apply IH. intros q Hq Hp. apply H; [done|]. by rewrite <-app_assoc in Hp.
  - by destruct acc.
  - exists xs. by rewrite <-app_assoc.
Qed.

Lemma zip_held p rr us : tree_wf (ptree p) → Units rr ≠ [] →
  let '(ss, t) := resolve st us (ptree p) in
  zip us (tree_heldTokens t (path_of sha256 rr) ss) = (λ l, (l, held_by p rr l)) <$> us.
Proof.
  intros Hwf Hne. pose proof (resolve_spec us (ptree p) Hwf) as Hres. destruct (resolve st us (ptree p)) as [ss t].
  destruct Hres as (Hs & Hl & Hz). unfold tree_heldTokens. fold (shard_at t (shardFor (path_of sha256 rr))).
  rewrite heldTokens_view by (apply shard_at_wf; [apply Hs|apply shardFor_lt]).
  set (f := λ b, sum_tokens _). assert (Hf : ∀ c s, (c, s) ∈ zip us ss → f s = held_by p rr c).
  { intros c s Hcs. unfold f, held_by. cbn beta. do 2 f_equal. apply lead_ext_prefix. intros q Hq Hpre.
    rewrite <-(st_view _ _ Hs), (tree_view_slot t _ s) by (by apply Hz). unfold tree_holds. cbn in *.
    by rewrite (shard_of_prefix (path_of sha256 rr)). }
  clearbody f. clear Hz. revert ss Hf Hl.
  induction us as [|c us IH]; intros [|s ss] Hf Hl; try done. cbn in Hl. cbn [zip zip_with fmap list_fmap]. f_equal.
  - f_equal. apply Hf. by left.
  - apply IH; [|lia]. intros x y Hxy. apply Hf. by right.
Qed.

(** cost routing sends the request to a usable backend whose cost, the tokens it would
    have to prefill on top of those it is already serving, is the least, ties going to the
    fewest requests in flight; the winner is recorded, and the prefill charged to it is
    exactly the part of the request it does not hold. *)
Theorem cost_minimal p cands rr :
  tree_wf (ptree p) → Units rr ≠ [] → CostRouting (cfg p) = true → us_of p cands ≠ [] →
  let o := Select st now sha256 morder ds p cands rr in
  ∃ l, o_backend o = Some l ∧ o_err o = None ∧ l ∈ us_of p cands ∧ PolicyState (o_rr o) = Some true ∧
    Prefill (o_rr o) = Some (MkPrefill l (sum_tokens (Units rr) - held_by p rr l)) ∧
    ∀ x, x ∈ us_of p cands → cost_of p rr l < cost_of p rr x ∨
      (cost_of p rr l = cost_of p rr x ∧ inflight (load (st !!! l)) ≤ inflight (load (st !!! x))).
Proof.
  intros Hwf Hne Hcost Hus. cbn zeta. unfold Select. destruct cands as [|c cs]; [done|]. fold (us_of p (c :: cs)).
  pose proof (zip_held p rr (us_of p (c :: cs)) Hwf Hne) as Hz. destruct (resolve st _ (ptree p)) as [ss t].
  rewrite !bool_decide_eq_false_2 by done. rewrite Hcost. unfold selectByCost. change (units (path_of sha256 rr)) with (Units rr).
  rewrite Hz. destruct (fold_cost_min (sum_tokens (Units rr)) ((λ l, (l, held_by p rr l)) <$> us_of p (c :: cs))) as (a & -> & Hin & Hc & Hmin).
  { intros He. by apply fmap_nil_inv in He. }
  apply list_elem_of_fmap in Hin as (l & [= Hb Hh] & Hl). exists (ch_best a). rewrite Hb, Hh in *. cbn.
  split_and!; try done. intros x Hx. apply (Hmin (x, held_by p rr x)). by apply (list_elem_of_fmap_2 (λ l, (l, held_by p rr l))).
Qed.
End spec.

(** ** Configuration and the refusal latch *)

(** the defaults make any configuration coherent, and applying them again changes
    nothing: the guard lies strictly between 0 and 1, a transient margin is only kept below
    the guard, a soft limit only below a hard one, and the time limits are in range. *)
Theorem withDefaults_coherent c :
  num (SplitGuard c) → num (TransientFallback c) →
  let d := withDefaults c in
  SFltb f0 (SplitGuard d) = true ∧ SFltb (SplitGuard d) f1 = true ∧
  SFltb (TransientFallback d) f0 = false ∧ SFltb (TransientFallback d) (SplitGuard d) = true ∧
  0 < TailTTL d ∧ 0 < RefusalTTL d ∧ 0 ≤ TTFTHard d ∧ 0 ≤ TTFTSoft d ∧
  (SoftNodeConcurrency d = 0 ∨ 0 < SoftNodeConcurrency d < NodeConcurrency d) ∧
  withDefaults d = d.
Proof.
  intros Hg Ht. cbn zeta. unfold withDefaults. cbn [SplitGuard TransientFallback TailTTL RefusalTTL TTFTHard TTFTSoft SoftNodeConcurrency NodeConcurrency PoolName Ladder RelativeTTFT RelativeDecode CostRouting RebalanceRatio].
  assert (Hf0 : num f0) by done. assert (Hf1 : num f1) by done.
  set (g := if SFleb (SplitGuard c) f0 || SFleb f1 (SplitGuard c) then DefaultSplitGuard else SplitGuard c).
  assert (SFleb g f0 = false ∧ SFleb f1 g = false ∧ num g) as (G1 & G2 & Gn).
  { unfold g. destruct (_ || _) eqn:E; [split_and!; [vm_compute; reflexivity|vm_compute; reflexivity|vm_compute; discriminate]|]. apply orb_false_iff in E as [? ?]. done. }
  clearbody g. set (tr := if SFltb (TransientFallback c) f0 || SFleb g (TransientFallback c) then f0 else TransientFallback c).
  assert (SFltb tr f0 = false ∧ SFleb g tr = false ∧ num tr) as (T1 & T2 & Tn).
  { unfold tr. destruct (_ || _) eqn:E; [split_and!; [reflexivity|exact G1|exact Hf0]|]. apply orb_false_iff in E as [? ?]. done. }
  clearbody tr. rewrite G1, G2. cbn [orb]. rewrite T1, T2. cbn [orb]. rewrite !flt_not_fle by done. rewrite G1, G2, T2.
  set (tl := if TailTTL c <=? 0 then DefaultTailTTL else TailTTL c).
  set (rf := if RefusalTTL c <=? 0 then DefaultRefusalTTL else RefusalTTL c).
  set (th := if TTFTHard c <? 0 then 0 else TTFTHard c). set (ts := if TTFTSoft c <? 0 then 0 else TTFTSoft c).
  set (so := if _ || _ then 0 else SoftNodeConcurrency c).
  set (pn := if bool_decide (PoolName c = ""%string) then DefaultPoolName else PoolName c).
  assert (0 < tl) by (unfold tl, DefaultTailTTL, second; destruct (Z.leb_spec (TailTTL c) 0); lia).
  assert (0 < rf) by (unfold rf, DefaultRefusalTTL, second; destruct (Z.leb_spec (RefusalTTL c) 0); lia).
  assert (0 ≤ th) by (unfold th; destruct (Z.ltb_spec (TTFTHard c) 0); lia).
  assert (0 ≤ ts) by (unfold ts; destruct (Z.ltb_spec (TTFTSoft c) 0); lia).
  assert (so = 0 ∨ 0 < so < NodeConcurrency c) as Hso.
  { unfold so. destruct (_ || _) eqn:E; [by left|]. rewrite !orb_false_iff, Z.ltb_ge, !Z.leb_gt in E. lia. }
  split_and!; try done. f_equal.
  - destruct ((so <? 0) || (NodeConcurrency c <=? 0) || (NodeConcurrency c <=? so)) eqn:E; [|done].
    destruct Hso as [?|Hso]; [done|]. rewrite !orb_true_iff, Z.ltb_lt, !Z.leb_le in E. lia.
  - by rewrite (proj2 (Z.ltb_ge th 0)).
  - by rewrite (proj2 (Z.ltb_ge ts 0)).
  - by rewrite (proj2 (Z.leb_gt tl 0)).
  - by rewrite (proj2 (Z.leb_gt rf 0)).
  - unfold pn. destruct (bool_decide (PoolName c = ""%string)) eqn:E; [done|by rewrite E].
Qed.

(** a refusal latches the backend at the load it refused at: from then on, until it is
    cleared or the time limit passes, the backend counts as refusing exactly while its
    in-flight has not fallen below that load, and the level it gives the guard is that load;
    a success clears the latch at once and no other backend is affected. *)
Theorem refusal_latch now now' ttl b b' hot :
  URL b' = URL b →
  refused_saturated now' ttl (record now b hot) b' =
    (if (now' - now <=? ttl) && (inflight (load b) <=? inflight (load b')) then (true, inflight (load b)) else (false, 0)) ∧
  refused_saturated now' ttl (clear b hot) b' = (false, 0) ∧
  ∀ x, URL x ≠ URL b →
    refused_saturated now' ttl (record now b hot) x = refused_saturated now' ttl hot x ∧
    refused_saturated now' ttl (clear b hot) x = refused_saturated now' ttl hot x.
Proof.
  intros Hu. unfold refused_saturated, record, clear. rewrite Hu. split_and!.
  - rewrite lookup_insert_eq. cbn [ref_at ref_inflight]. destruct (Z.ltb_spec ttl (now' - now)), (Z.leb_spec (now' - now) ttl); try lia; [done|].
    cbn [andb]. by destruct (Z.ltb_spec (inflight (load b')) (inflight (load b))), (Z.leb_spec (inflight (load b)) (inflight (load b'))); try lia.
  - destruct (hot !! URL b) eqn:E; [by rewrite lookup_delete_eq|by rewrite E].
  - intros x Hx. split; [by rewrite lookup_insert_ne by done|].
    destruct (hot !! URL b); [by rewrite lookup_delete_ne by done|done].
Qed.

(** ** Witnesses *)

Definition demo_b (url : string) (n : Z) : Backend :=
  MkBackend url "openai" HealthActive ProvStatic (Meta KindWorker "" "" 1) (Circuit.New DefaultConfig)
    false Healthy (Gauges n 0 0 0 0) zero_latency zero_queue.
Definition demo_fleet (a b c : Z) : gmap positive Backend :=
  list_to_map [(1%positive, demo_b "a" a); (2%positive, demo_b "b" b); (3%positive, demo_b "c" c)].
Definition demo_cands : list positive := [1; 2; 3]%positive.
Definition demo_sha (b : bytes) : bytes := b.
Definition demo_config (cost : bool) : Config :=
  MkConfig 10 0 0 0 false false cost f0 f0 f0 0 0 "" LadderStrict.
Definition demo_rr : RoutingRequest := MkRequest "" [MkUnit 1 10; MkUnit 2 10; MkUnit 3 10] 0 None None.

(** Backend "a" has served the request. *)
Definition demo_policy (cost : bool) : Policy := Commit (demo_fleet 0 0 0) 5 demo_sha 1 demo_rr (New (demo_config cost)).

Lemma demo_policy_wf cost : tree_wf (ptree (demo_policy cost)).
Proof. apply commit_marks. apply newTree_wf. Qed.

Lemma demo_deepest cost : deepest (ptree (demo_policy cost)) (key_of demo_sha demo_rr) (hashes_of demo_rr) 3.
Proof.
  constructor.
  - cbn. lia.
  - intros _. exists "a"%string. destruct cost; vm_compute; reflexivity.
  - intros j u. cbn. lia.
Qed.

Definition demo_select (cost : bool) (a b c : Z) : outcome :=
  Select (demo_fleet a b c) 6 demo_sha map_to_list [] (demo_policy cost) demo_cands demo_rr.

Lemma select_only_usable_witness : 1%positive ∈ demo_cands ∧ o_tier (demo_select false 4 2 1) = "cache"%string.
Proof.
  split; [|vm_compute; reflexivity].
  apply (select_only_usable (demo_fleet 4 2 1) 6 demo_sha map_to_list [] (demo_policy false) demo_cands demo_rr).
  vm_compute. reflexivity.
Defined.


Lemma marks_are_guarded_witness :
  o_tier (demo_select false 10 7 1) = "split"%string ∧ o_backend (demo_select false 10 7 1) = Some 3%positive.
Proof.
  assert (o_backend (demo_select false 10 7 1) = Some 3%positive) as Hb by (vm_compute; reflexivity). split; [|exact Hb].
  destruct (marks_are_guarded (demo_fleet 10 7 1) 6 demo_sha map_to_list [] (demo_policy false) demo_cands demo_rr 3 3) as [H|(H & _)].
  - intros m. reflexivity.
  - apply demo_policy_wf.
  - discriminate.
  - reflexivity.
  - reflexivity.
  - apply demo_deepest.
  - discriminate.
  - exact Hb.
  - vm_compute. reflexivity.
  - exfalso. vm_compute in H. discriminate.
  - exact H.
Defined.

Lemma guard_block_means_witness : us_of (demo_fleet 10 9 8) 6 (demo_policy false) demo_cands ≠ [].
Proof.
  apply (guard_block_means (demo_fleet 10 9 8) 6 demo_sha map_to_list [] (demo_policy false) demo_cands demo_rr).
  - apply demo_policy_wf.
  - vm_compute. reflexivity.
Defined.

Lemma saturation_means_witness : o_err (demo_select false 10 11 12) = Some (SaturatedError 1 10) ∧ 1%positive ∈ demo_cands.
Proof.
  assert (o_err (demo_select false 10 11 12) = Some (SaturatedError 1 10)) as He by (vm_compute; reflexivity). split; [exact He|].
  destruct (saturation_means (demo_fleet 10 11 12) 6 demo_sha map_to_list [] (demo_policy false) demo_cands demo_rr) as [_ H].
  - discriminate.
  - apply demo_policy_wf.
  - apply (H 1%positive 10 He).
Defined.

Lemma commit_marks_witness : view (ptree (Commit (demo_fleet 0 0 0) 6 demo_sha 2 demo_rr (demo_policy false))) "b" 0 [1; 2] = true.
Proof.
  destruct (commit_marks (demo_fleet 0 0 0) 6 demo_sha 2 demo_rr (demo_policy false) (demo_policy_wf false)) as (_ & _ & _ & H).
  rewrite H. vm_compute. reflexivity.
Defined.

Lemma cost_minimal_witness : o_backend (demo_select true 4 2 1) = Some 1%positive ∧
  ∃ l, o_backend (demo_select true 4 2 1) = Some l ∧ l ∈ us_of (demo_fleet 4 2 1) 6 (demo_policy true) demo_cands.
Proof.
  split; [vm_compute; reflexivity|].
  destruct (cost_minimal (demo_fleet 4 2 1) 6 demo_sha map_to_list [] (demo_policy true) demo_cands demo_rr) as (l & Hl & _ & Hu & _).
  - apply demo_policy_wf.
  - discriminate.
  - reflexivity.
  - vm_compute. discriminate.
  - exists l. split; [exact Hl|exact Hu].
Defined.

Lemma withDefaults_coherent_witness : withDefaults (withDefaults (demo_config false)) = withDefaults (demo_config false).
Proof. apply (withDefaults_coherent (demo_config false)); vm_compute; discriminate. Defined.

Lemma refusal_latch_witness :
  refused_saturated 8 10 (record 5 (demo_b "a" 3) ∅) (demo_b "a" 4) = (true, 3) ∧
  refused_saturated 8 10 (record 5 (demo_b "a" 3) ∅) (demo_b "a" 2) = (false, 0).
Proof.
  destruct (refusal_latch 5 8 10 (demo_b "a" 3) (demo_b "a" 4) ∅ eq_refl) as (H1 & _).
  destruct (refusal_latch 5 8 10 (demo_b "a" 3) (demo_b "a" 2) ∅ eq_refl) as (H2 & _).
  rewrite H1, H2. vm_compute. auto.
Defined.
