(* ===== verification/JsonScan.v ===== *)
(** * JsonScan: reading a request body without parsing it

    [src/router/internal/jsonscan/jsonscan.go].  A position [i] of the source's buffer [b] is
    the rest [b[i:]], a list of bytes; a span is the part consumed between two positions.
    The loops carry fuel and answer [OutOfFuel] when it runs out: that they never do, on any
    input, is [scan_terminates]. *)

From stdpp Require Import base list.
From Stdlib Require Import ZArith Lia.
From S2P Require Import Prelude KvUnits.
Open Scope Z_scope.

(** ** Characters *)

Abbreviation c_quote := 34.
Abbreviation c_back := 92.
Abbreviation c_lbrace := 123.
Abbreviation c_rbrace := 125.
Abbreviation c_lbrack := 91.
Abbreviation c_rbrack := 93.
Abbreviation c_comma := 44.
Abbreviation c_colon := 58.
Abbreviation c_u := 117.

Definition is_space (c : Z) : bool := (c =? 32) || (c =? 9) || (c =? 10) || (c =? 13).

Inductive scan_error := ErrNotObject | ErrMalformed.
Inductive status := Done | Failed (e : scan_error) | OutOfFuel.

(** The bytes between the position [s] and the later position [rest]. *)
Definition span (s rest : bytes) : bytes := take (length s - length rest) s.

(** ** Skipping *)

Fixpoint skipSpace (s : bytes) : bytes :=
  match s with
  | c :: s' => if is_space c then skipSpace s' else s
  | [] => []
  end.

(** [scanString] past the opening quote: the inner bytes and what follows the closing quote.
    A backslash skips two bytes, which may be one more than there are. *)
Fixpoint scan_inner (s : bytes) : option (bytes * bytes) :=
  match s with
  | [] => None
  | c :: s1 =>
      if c =? c_back then
        match s1 with
        | [] => None
        | d :: s2 => match scan_inner s2 with Some (x, r) => Some (c :: d :: x, r) | None => None end
        end
      else if c =? c_quote then Some ([], s1)
      else match scan_inner s1 with Some (x, r) => Some (c :: x, r) | None => None end
  end.

Definition scanString (s : bytes) : option (bytes * bytes) :=
  match s with
  | c :: s' => if c =? c_quote then scan_inner s' else None
  | [] => None
  end.

(** The loop of [skipValue] over a nested value: [stack] holds the openers, innermost
    first.  [None] out of fuel. *)
Fixpoint skip_nested (fuel : nat) (stack : list Z) (s : bytes) : option (option bytes) :=
  match fuel with
  | O => None
  | S f =>
      match s with
      | [] => Some None
      | c :: s' =>
          if c =? c_quote then
            match scanString s with None => Some None | Some (_, next) => skip_nested f stack next end
          else if (c =? c_lbrace) || (c =? c_lbrack) then skip_nested f (c :: stack) s'
          else if (c =? c_rbrace) || (c =? c_rbrack) then
            match stack with
            | [] => Some None
            | o :: stack' =>
                let want := if o =? c_lbrack then c_rbrack else c_rbrace in
                if negb (c =? want) then Some None
                else match stack' with [] => Some (Some s') | _ => skip_nested f stack' s' end
            end
          else skip_nested f stack s'
      end
  end.

(** The loop over a scalar: run to the next structural byte. *)
Definition ends_scalar (c : Z) : bool := (c =? c_comma) || (c =? c_rbrace) || (c =? c_rbrack) || is_space c.
Fixpoint skip_scalar (s : bytes) : bytes :=
  match s with
  | c :: s' => if ends_scalar c then s else skip_scalar s'
  | [] => []
  end.

(** [skipValue]: [None] is out of fuel, [Some None] is not ok. *)
Definition skipValue (s : bytes) : option (option bytes) :=
  match s with
  | [] => Some None
  | c :: _ =>
      if c =? c_quote then Some (snd <$> scanString s)
      else if (c =? c_lbrace) || (c =? c_lbrack) then skip_nested (S (length s)) [] s
      else if (c =? c_comma) || (c =? c_rbrace) || (c =? c_rbrack) || (c =? c_colon) then Some None
      else let rest := skip_scalar s in
           if Nat.eqb (length rest) (length s) && bool_decide (rest = []) then Some None else Some (Some rest)
  end.

(** ** Decoding strings *)

Definition hex_val (c : Z) : option Z :=
  if (48 <=? c) && (c <=? 57) then Some (c - 48)
  else if (97 <=? c) && (c <=? 102) then Some (c - 97 + 10)
  else if (65 <=? c) && (c <=? 70) then Some (c - 65 + 10)
  else None.

(** [hex4]: [v <<= 4; v |= digit], four times. *)
Fixpoint hex_loop (v : Z) (s : bytes) : option Z :=
  match s with
  | [] => Some v
  | c :: s => match hex_val c with Some d => hex_loop (Z.lor (Z.shiftl v 4) d) s | None => None end
  end.
Definition hex4 (s : bytes) : option Z := if (length s <? 4)%nat then None else hex_loop 0 (take 4 s).

(** [unicode/utf8]: a rune's encoding; surrogates and out-of-range runes become U+FFFD. *)
Definition RuneError : Z := 65533.
Definition AppendRune (r : Z) : bytes :=
  let cont n := Z.lor 128 (Z.land (Z.shiftr r n) 63) in
  if (0 <=? r) && (r <=? 127) then [r]
  else if (0 <=? r) && (r <=? 2047) then [Z.lor 192 (Z.shiftr r 6); cont 0]
  else if (r <? 0) || (1114111 <? r) || ((55296 <=? r) && (r <=? 57343)) then [239; 191; 189]
  else if r <=? 65535 then [Z.lor 224 (Z.shiftr r 12); cont 6; cont 0]
  else [Z.lor 240 (Z.shiftr r 18); cont 12; cont 6; cont 0].

(** [decodeUnicodeEscape] at the [u]; [s] is what follows it: the rune, and what is left. *)
Definition decodeUnicodeEscape (s : bytes) : option (Z * bytes) :=
  match hex4 s with
  | None => None
  | Some hi =>
      let rest := drop 4 s in
      if (55296 <=? hi) && (hi <=? 56319) then
        match rest with
        | c :: d :: low =>
            if (c =? c_back) && (d =? c_u) then
              match hex4 low with
              | Some lo => if (56320 <=? lo) && (lo <=? 57343)
                           then Some (65536 + Z.shiftl (hi - 55296) 10 + (lo - 56320), drop 4 low)
                           else Some (RuneError, rest)
              | None => Some (RuneError, rest)
              end
            else Some (RuneError, rest)
        | _ => Some (RuneError, rest)
        end
      else if (56320 <=? hi) && (hi <=? 57343) then Some (RuneError, rest)
      else Some (hi, rest)
  end.

Definition short_escape (c : Z) : option Z :=
  if c =? 110 then Some 10 else if c =? 116 then Some 9 else if c =? 114 then Some 13
  else if c =? 98 then Some 8 else if c =? 102 then Some 12 else if c =? 47 then Some 47
  else if c =? c_quote then Some c_quote else if c =? c_back then Some c_back else None.

(** [unescape]: every round consumes a byte, so the length is fuel enough. *)
Fixpoint unescape_loop (fuel : nat) (s : bytes) : option bytes :=
  match fuel with
  | O => match s with [] => Some [] | _ => None end
  | S f =>
      match s with
      | [] => Some []
      | c :: s1 =>
          if negb (c =? c_back) then cons c <$> unescape_loop f s1
          else match s1 with
               | [] => None
               | d :: s2 =>
                   if d =? c_u then
                     match decodeUnicodeEscape s2 with
                     | None => None
                     | Some (r, rest) => app (AppendRune r) <$> unescape_loop f rest
                     end
                   else match short_escape d with
                        | None => None
                        | Some x => cons x <$> unescape_loop f s2
                        end
               end
      end
  end.
Definition unescape (body : bytes) : option bytes := unescape_loop (length body) body.

Definition has_back (s : bytes) : bool := existsb (Z.eqb c_back) s.

Definition String_ (sp : bytes) : option bytes :=
  match sp with
  | c :: _ =>
      if (length sp <? 2)%nat || negb (c =? c_quote) || negb (bool_decide (last sp = Some c_quote)) then None
      else let body := removelast (tail sp) in
           if has_back body then unescape body else Some body
  | [] => None
  end.

(** ** Scalars *)

Definition Bool_ (sp : bytes) : bool * bool :=
  if bool_decide (sp = [116; 114; 117; 101]) then (true, true)
  else if bool_decide (sp = [102; 97; 108; 115; 101]) then (false, true)
  else (false, false).

(** [int] is 64 bits and wraps. *)
Fixpoint Int_loop (n : Z) (sp : bytes) : option Z :=
  match sp with
  | [] => Some n
  | c :: sp => if (c <? 48) || (57 <? c) then None else Int_loop (i64 (n * 10 + (c - 48))) sp
  end.
Definition Int (sp : bytes) : option Z := match sp with [] => None | _ => Int_loop 0 sp end.

(** ** Walking

    The callback is a closure over its caller's variables: a step on an accumulator that
    also says whether to go on. *)
Section walking.
Context {A : Type}.

Fixpoint Fields_loop (fuel : nat) (fn : A → bytes → bytes → A * bool) (acc : A) (s : bytes) : A * status :=
  match fuel with
  | O => (acc, OutOfFuel)
  | S f =>
      match skipSpace s with
      | [] => (acc, Failed ErrMalformed)
      | c :: s' =>
          if c =? c_rbrace then (acc, Done)
          else if c =? c_comma then Fields_loop f fn acc s'
          else if negb (c =? c_quote) then (acc, Failed ErrMalformed)
          else match scanString (c :: s') with
               | None => (acc, Failed ErrMalformed)
               | Some (raw, next) =>
                   match skipSpace next with
                   | d :: s2 =>
                       if negb (d =? c_colon) then (acc, Failed ErrMalformed)
                       else
                         let v := skipSpace s2 in
                         match skipValue v with
                         | None => (acc, OutOfFuel)
                         | Some None => (acc, Failed ErrMalformed)
                         | Some (Some rest) =>
                             match (if has_back raw then unescape raw else Some raw) with
                             | None => (acc, Failed ErrMalformed)
                             | Some key =>
                                 let '(acc, go) := fn acc key (span v rest) in
                                 if go then Fields_loop f fn acc rest else (acc, Done)
                             end
                         end
                   | [] => (acc, Failed ErrMalformed)
                   end
               end
      end
  end.

Definition Fields (fn : A → bytes → bytes → A * bool) (acc : A) (b : bytes) : A * status :=
  match skipSpace b with
  | c :: s => if c =? c_lbrace then Fields_loop (S (length s)) fn acc s else (acc, Failed ErrNotObject)
  | [] => (acc, Failed ErrNotObject)
  end.

Fixpoint Array_loop (fuel : nat) (fn : A → bytes → A * bool) (acc : A) (s : bytes) : A * status :=
  match fuel with
  | O => (acc, OutOfFuel)
  | S f =>
      match skipSpace s with
      | [] => (acc, Failed ErrMalformed)
      | c :: s' =>
          if c =? c_rbrack then (acc, Done)
          else if c =? c_comma then Array_loop f fn acc s'
          else match skipValue (c :: s') with
               | None => (acc, OutOfFuel)
               | Some None => (acc, Failed ErrMalformed)
               | Some (Some rest) =>
                   if (length (c :: s') <=? length rest)%nat then (acc, Failed ErrMalformed)
                   else let '(acc, go) := fn acc (span (c :: s') rest) in
                        if go then Array_loop f fn acc rest else (acc, Done)
               end
      end
  end.

Definition Array (fn : A → bytes → A * bool) (acc : A) (v : bytes) : A * status :=
  match skipSpace v with
  | c :: s => if c =? c_lbrack then Array_loop (S (length s)) fn acc s else (acc, Failed ErrMalformed)
  | [] => (acc, Failed ErrMalformed)
  end.
End walking.

(** ** Progress *)

Lemma skipSpace_suffix s : ∃ w, s = w ++ skipSpace s ∧ Forall (λ c, is_space c = true) w.
Proof.
  induction s as [|c s [w [He Hw]]]; [by exists []|]. cbn. destruct (is_space c) eqn:E; [|by exists []].
  exists (c :: w). cbn. split; [by f_equal|by constructor].
Qed.
Lemma skipSpace_length s : (length (skipSpace s) ≤ length s)%nat.
Proof. destruct (skipSpace_suffix s) as (w & He & _). rewrite He at 2. rewrite length_app. lia. Qed.

Lemma scan_inner_split s : ∀ x r, scan_inner s = Some (x, r) → s = x ++ c_quote :: r.
Proof.
  induction s as [s IH] using (induction_ltof1 _ (@length Z)); unfold ltof in IH. intros x r.
  destruct s as [|c s1]; cbn; [done|]. destruct (Z.eqb_spec c c_back) as [->|Hb].
  - destruct s1 as [|d s2]; [done|]. destruct (scan_inner s2) as [[y q]|] eqn:E; [|done]. intros [= <- <-].
    cbn. do 2 f_equal. apply IH; [cbn; lia|done].
  - destruct (Z.eqb_spec c c_quote) as [->|Hq]; [by intros [= <- <-]|].
    destruct (scan_inner s1) as [[y q]|] eqn:E; [|done]. intros [= <- <-]. cbn. f_equal. apply IH; [cbn; lia|done].
Qed.

Lemma scanString_length s x r : scanString s = Some (x, r) → (length r + 2 ≤ length s)%nat.
Proof.
  unfold scanString. destruct s as [|c s]; [done|]. destruct (_ =? _); [|done]. intros ->%scan_inner_split.
  cbn. rewrite length_app. cbn. lia.
Qed.

(** A nested value never runs out of fuel, and what follows it is shorter. *)
Lemma skip_nested_total f : ∀ stack s, (length s < f)%nat →
  ∃ o, skip_nested f stack s = Some o ∧ ∀ r, o = Some r → (length r < length s)%nat.
Proof.
  induction f as [|f IH]; intros stack s Hf; [lia|]. destruct s as [|c s']; cbn [skip_nested]; [by exists None|]. cbn in Hf.
  assert (Hgo : ∀ st t, (length t ≤ length s')%nat →
    ∃ o, skip_nested f st t = Some o ∧ ∀ r, o = Some r → (length r < length (c :: s'))%nat).
  { intros st t Ht. destruct (IH st t) as (o & -> & Ho); [lia|]. exists o. split; [done|]. intros r Hr. apply Ho in Hr. cbn. lia. }
  destruct (c =? c_quote).
  { destruct (scanString (c :: s')) as [[x next]|] eqn:E; [|by exists None]. apply scanString_length in E. cbn in E. apply Hgo. lia. }
  destruct (_ || _); [by apply Hgo|]. destruct (_ || _); [|by apply Hgo].
  destruct stack as [|o stack]; [by exists None|]. destruct (negb _); [by exists None|].
  destruct stack; [|by apply Hgo]. exists (Some s'). split; [done|]. intros r [= <-]. cbn. lia.
Qed.

(** Beyond the length the fuel makes no difference. *)
Lemma skip_nested_fuel f : ∀ g stack s, (length s < f)%nat → (length s < g)%nat → skip_nested f stack s = skip_nested g stack s.
Proof.
  induction f as [|f IH]; intros g stack s Hf Hg; [lia|]. destruct g as [|g]; [lia|].
  destruct s as [|c s']; [done|]. cbn [skip_nested]. cbn in Hf, Hg.
  destruct (c =? c_quote).
  { destruct (scanString (c :: s')) as [[x next]|] eqn:E; [|done]. apply scanString_length in E. cbn in E. apply IH; lia. }
  destruct (_ || _); [apply IH; lia|]. destruct (_ || _); [|apply IH; lia].
  destruct stack as [|o stack]; [done|]. destruct (negb _); [done|]. destruct stack; [done|]. apply IH; lia.
Qed.

Lemma skip_scalar_length s : (length (skip_scalar s) ≤ length s)%nat.
Proof. induction s as [|c s IH]; cbn; [lia|]. destruct (ends_scalar c); cbn; lia. Qed.

Lemma skipValue_total s : ∃ o, skipValue s = Some o ∧ ∀ r, o = Some r →
  (length r ≤ length s)%nat ∧ (length r = length s → ∃ c t, s = c :: t ∧ is_space c = true).
Proof.
  unfold skipValue. destruct s as [|c s]; [by exists None|]. destruct (c =? c_quote).
  { eexists. split; [done|]. intros r Hr. destruct (scanString (c :: s)) as [[x q]|] eqn:E; [|done]. cbn in Hr. injection Hr as <-.
    apply scanString_length in E. lia. }
  destruct (_ || _).
  { destruct (skip_nested_total (S (length (c :: s))) [] (c :: s)) as (o & Ho & Hlt); [lia|]. exists o. split; [done|].
    intros r Hr. apply Hlt in Hr. lia. }
  destruct (_ || _) eqn:Hst; [by exists None|]. cbn zeta. destruct (_ && _); [by exists None|].
  eexists. split; [done|]. intros r [= <-]. pose proof (skip_scalar_length (c :: s)). split; [done|]. intros Heq.
  exists c, s. split; [done|]. cbn in Heq. destruct (ends_scalar c) eqn:E; [|pose proof (skip_scalar_length s); cbn in Heq; lia].
  unfold ends_scalar in E. rewrite !orb_false_iff in Hst. destruct Hst as [[[H1 H2] H3] _]. by rewrite H1, H2, H3 in E.
Qed.

Lemma skipSpace_head s c t : skipSpace s = c :: t → is_space c = false.
Proof. induction s as [|d s IH]; cbn; [done|]. destruct (is_space d) eqn:E; [done|]. by intros [= <- <-]. Qed.

(** From a position that is not white space a value makes progress. *)
Lemma skipValue_progress s c t : skipSpace s = c :: t →
  ∃ o, skipValue (c :: t) = Some o ∧ ∀ r, o = Some r → (length r ≤ length t)%nat.
Proof.
  intros Hs. destruct (skipValue_total (c :: t)) as (o & -> & Ho). exists o. split; [done|]. intros r Hr.
  destruct (Ho r Hr) as [Hle Heq]. cbn in *. destruct (decide (length r = S (length t))) as [E|E]; [|lia].
  destruct (Heq E) as (d & u & [= <- <-] & Hsp). apply skipSpace_head in Hs. congruence.
Qed.

Section progress.
Context {A : Type}.

Lemma Fields_loop_fuel f : ∀ g (fn : A → bytes → bytes → A * bool) acc s, (length s < f)%nat → (length s < g)%nat →
  Fields_loop f fn acc s = Fields_loop g fn acc s ∧ (Fields_loop f fn acc s).2 ≠ OutOfFuel.
Proof.
  induction f as [|f IH]; intros g fn acc s Hf Hg; [lia|]. destruct g as [|g]; [lia|]. cbn [Fields_loop].
  pose proof (skipSpace_length s) as Hsp. destruct (skipSpace s) as [|c s'] eqn:Hs; [done|]. cbn in Hsp.
  destruct (c =? c_rbrace); [done|]. destruct (c =? c_comma); [apply IH; lia|]. destruct (negb _); [done|].
  destruct (scanString (c :: s')) as [[raw next]|] eqn:E; [|done]. apply scanString_length in E. cbn in E.
  pose proof (skipSpace_length next) as Hn. destruct (skipSpace next) as [|d s2]; [done|]. cbn in Hn.
  destruct (negb _); [done|]. pose proof (skipSpace_length s2) as Hv. cbn zeta.
  destruct (skipSpace s2) as [|x v] eqn:Hs2; [done|]. destruct (skipValue_progress _ _ _ Hs2) as (o & -> & Ho).
  destruct o as [rest|]; [|done]. specialize (Ho rest eq_refl). cbn in Hv.
  destruct (if has_back raw then unescape raw else Some raw) as [key|]; [|done].
  destruct (fn acc key _) as [acc' []]; [|done]. apply IH; lia.
Qed.

Lemma Array_loop_fuel f : ∀ g (fn : A → bytes → A * bool) acc s, (length s < f)%nat → (length s < g)%nat →
  Array_loop f fn acc s = Array_loop g fn acc s ∧ (Array_loop f fn acc s).2 ≠ OutOfFuel.
Proof.
  induction f as [|f IH]; intros g fn acc s Hf Hg; [lia|]. destruct g as [|g]; [lia|]. cbn [Array_loop].
  pose proof (skipSpace_length s) as Hsp. destruct (skipSpace s) as [|c s'] eqn:Hs; [done|]. cbn in Hsp.
  destruct (c =? c_rbrack); [done|]. destruct (c =? c_comma); [apply IH; lia|].
  destruct (skipValue_progress _ _ _ Hs) as (o & -> & Ho). destruct o as [rest|]; [|done]. specialize (Ho rest eq_refl).
  destruct (_ <=? _)%nat; [done|]. destruct (fn acc _) as [acc' []]; [|done]. apply IH; lia.
Qed.
End progress.

(** ** Well-formed texts

    The JSON grammar, with the white space a text may have: what the scanner must get right
    on any conforming body.  Scalars are left looser than JSON's. *)

Definition ws (s : bytes) : Prop := Forall (λ c, is_space c = true) s.

(** The inside of a string: a quote or a backslash only after a backslash. *)
Inductive str_inner : bytes → Prop :=
  | si_nil : str_inner []
  | si_plain c s : c ≠ c_back → c ≠ c_quote → str_inner s → str_inner (c :: s)
  | si_escape d s : str_inner s → str_inner (c_back :: d :: s).

Definition plain (c : Z) : Prop :=
  ends_scalar c = false ∧ c ≠ c_quote ∧ c ≠ c_lbrace ∧ c ≠ c_lbrack ∧ c ≠ c_colon.

Record elt := Elt { e_pre : bytes; e_val : bytes; e_post : bytes }.
Record member := Member { m_pre : bytes; m_key : bytes; m_mid : bytes; m_val : elt }.

Definition elt_text (e : elt) : bytes := e_pre e ++ e_val e ++ e_post e.
Definition member_text (m : member) : bytes :=
  m_pre m ++ c_quote :: m_key m ++ c_quote :: m_mid m ++ c_colon :: elt_text (m_val m).

(** Texts separated by commas. *)
Fixpoint commas (ts : list bytes) : bytes :=
  match ts with [] => [] | [t] => t | t :: ts => t ++ c_comma :: commas ts end.

Definition ws_elt (e : elt) : Prop := ws (e_pre e) ∧ ws (e_post e).
Definition ws_member (m : member) : Prop := ws (m_pre m) ∧ ws (m_mid m) ∧ ws_elt (m_val m) ∧ str_inner (m_key m).

Inductive val : bytes → Prop :=
  | v_string x : str_inner x → val (c_quote :: x ++ [c_quote])
  | v_scalar t : t ≠ [] → Forall plain t → val t
  | v_empty o c w : (o = c_lbrace ∧ c = c_rbrace ∨ o = c_lbrack ∧ c = c_rbrack) → ws w → val (o :: w ++ [c])
  | v_array es : es ≠ [] → Forall ws_elt es → (∀ e, e ∈ es → val (e_val e)) → val (c_lbrack :: commas (elt_text <$> es) ++ [c_rbrack])
  | v_object ms : ms ≠ [] → Forall ws_member ms → (∀ m, m ∈ ms → val (e_val (m_val m))) →
      val (c_lbrace :: commas (member_text <$> ms) ++ [c_rbrace]).

Lemma scan_inner_str x r : str_inner x → scan_inner (x ++ c_quote :: r) = Some (x, r).
Proof.
  induction 1 as [|c s Hb Hq _ IH|d s _ IH]; cbn [app scan_inner]; [done| |].
  - rewrite (proj2 (Z.eqb_neq _ _) Hb), (proj2 (Z.eqb_neq _ _) Hq), IH. done.
  - by rewrite Z.eqb_refl, IH.
Qed.

(** The nested loop with the fuel it needs. *)
Definition skipN (st : list Z) (s : bytes) : option (option bytes) := skip_nested (S (length s)) st s.

Lemma skipN_fuel f st s : (length s < f)%nat → skip_nested f st s = skipN st s.
Proof. intros. apply skip_nested_fuel; [done|lia]. Qed.

(** A text the nested loop runs through with the stack as it was. *)
Definition passes (s : bytes) : Prop := ∀ st r, st ≠ [] → skipN st (s ++ r) = skipN st r.

Lemma passes_nil : passes [].
Proof. by intros st r _. Qed.
Lemma passes_app s t : passes s → passes t → passes (s ++ t).
Proof. intros Hs Ht st r Hst. rewrite <-app_assoc, Hs, Ht; done. Qed.

Definition neutral (c : Z) : Prop := c ≠ c_quote ∧ c ≠ c_lbrace ∧ c ≠ c_lbrack ∧ c ≠ c_rbrace ∧ c ≠ c_rbrack.

Lemma passes_neutral c : neutral c → passes [c].
Proof.
  intros (H1 & H2 & H3 & H4 & H5) st r _. cbn [app]. unfold skipN at 1. cbn [skip_nested length].
  rewrite !(proj2 (Z.eqb_neq _ _)) by done. done.
Qed.
Lemma passes_all s : Forall neutral s → passes s.
Proof. induction 1 as [|c s Hc _ IH]; [apply passes_nil|]. change (c :: s) with ([c] ++ s). apply passes_app; [by apply passes_neutral|done]. Qed.

Lemma passes_ws s : ws s → passes s.
Proof.
  intros Hs. apply passes_all. eapply Forall_impl; [exact Hs|]. cbn. intros c Hc. unfold is_space in Hc.
  rewrite !orb_true_iff, !Z.eqb_eq in Hc. unfold neutral. lia.
Qed.

Lemma passes_string x : str_inner x → passes (c_quote :: x ++ [c_quote]).
Proof.
  intros Hx st r _. rewrite <-app_comm_cons, <-app_assoc. unfold skipN at 1. cbn [app skip_nested scanString Z.eqb Pos.eqb].
  rewrite scan_inner_str by done. apply skipN_fuel. cbn. rewrite !length_app. cbn. lia.
Qed.

Lemma passes_plain t : Forall plain t → passes t.
Proof.
  intros Ht. apply passes_all. eapply Forall_impl; [exact Ht|]. intros c (He & ? & ? & ? & ?). unfold ends_scalar in He.
  rewrite !orb_false_iff, !Z.eqb_neq in He. unfold neutral. tauto.
Qed.

(** Inside the brackets, and over the closing one. *)
Lemma skipN_open o st s : o = c_lbrace ∨ o = c_lbrack → skipN st (o :: s) = skipN (o :: st) s.
Proof. intros [-> | ->]; unfold skipN at 1; cbn [skip_nested length]; done. Qed.

Definition closes (o c : Z) : Prop := o = c_lbrace ∧ c = c_rbrace ∨ o = c_lbrack ∧ c = c_rbrack.

Lemma skipN_close o c st r : closes o c → skipN (o :: st) (c :: r) = match st with [] => Some (Some r) | _ => skipN st r end.
Proof. intros [[-> ->]|[-> ->]]; unfold skipN at 1; cbn [skip_nested length]; by destruct st. Qed.

Lemma passes_brackets o c s : closes o c → passes s → passes (o :: s ++ [c]).
Proof.
  intros Hoc Hs st r Hst. rewrite <-app_comm_cons, <-app_assoc.
  rewrite skipN_open by (destruct Hoc as [[-> _]|[-> _]]; auto). rewrite Hs by done. cbn [app].
  rewrite skipN_close by done. by destruct st.
Qed.

Lemma passes_commas ts : (∀ t, t ∈ ts → passes t) → passes (commas ts).
Proof.
  induction ts as [|t ts IH]; intros Hall; [apply passes_nil|]. destruct ts as [|u ts].
  - apply Hall. by left.
  - change (commas (t :: u :: ts)) with (t ++ [c_comma] ++ commas (u :: ts)).
    apply passes_app; [apply Hall; by left|]. apply passes_app; [by apply passes_neutral|]. apply IH. intros x Hx. apply Hall. by right.
Qed.

Lemma passes_elt e : ws_elt e → passes (e_val e) → passes (elt_text e).
Proof. intros [H1 H2] Hv. unfold elt_text. repeat apply passes_app; auto using passes_ws. Qed.

Lemma passes_member m : ws_member m → passes (e_val (m_val m)) → passes (member_text m).
Proof.
  intros (H1 & H2 & H3 & H4) Hv. unfold member_text. apply passes_app; [by apply passes_ws|].
  change (passes ((c_quote :: m_key m ++ [c_quote] ++ m_mid m ++ [c_colon] ++ elt_text (m_val m)))).
  replace (c_quote :: m_key m ++ [c_quote] ++ m_mid m ++ [c_colon] ++ elt_text (m_val m))
    with ((c_quote :: m_key m ++ [c_quote]) ++ m_mid m ++ [c_colon] ++ elt_text (m_val m)) by (by rewrite <-app_comm_cons, <-!app_assoc).
  apply passes_app; [by apply passes_string|]. apply passes_app; [by apply passes_ws|].
  apply passes_app; [by apply passes_neutral|]. by apply passes_elt.
Qed.

Lemma passes_val v : val v → passes v.
Proof.
  induction 1 as [x Hx|t _ Ht|o c w Hoc Hw|es _ Hws _ IH|ms _ Hws _ IH].
  - by apply passes_string.
  - by apply passes_plain.
  - apply passes_brackets; [done|by apply passes_ws].
  - apply passes_brackets; [by right|]. apply passes_commas. intros t (e & -> & He)%list_elem_of_fmap.
    rewrite Forall_forall in Hws. apply passes_elt; auto.
  - apply passes_brackets; [by left|]. apply passes_commas. intros t (m & -> & Hm)%list_elem_of_fmap.
    rewrite Forall_forall in Hws. apply passes_member; auto.
Qed.

(** ** A well-formed value is skipped exactly *)

(** What may follow a value in a well-formed text. *)
Definition delim (r : bytes) : Prop := match r with [] => True | c :: _ => ends_scalar c = true end.

Lemma skip_scalar_plain t r : Forall plain t → delim r → skip_scalar (t ++ r) = r.
Proof.
  induction 1 as [|c t (He & _) _ IH]; cbn; [|by rewrite He].
  destruct r as [|c r]; [done|]. cbn. by intros ->.
Qed.

Lemma brackets_skip o c s r : closes o c → passes s → skipValue (o :: s ++ c :: r) = Some (Some r).
Proof.
  intros Hoc Hs. unfold skipValue. assert (o = c_lbrace ∨ o = c_lbrack) as Ho by (destruct Hoc as [[-> _]|[-> _]]; auto).
  assert ((o =? c_quote) = false ∧ (o =? c_lbrace) || (o =? c_lbrack) = true) as [-> ->] by (by destruct Ho as [-> | ->]).
  fold (skipN [] (o :: s ++ c :: r)). rewrite skipN_open by done. rewrite Hs by done. by rewrite skipN_close.
Qed.

Lemma skipValue_val v r : val v → delim r → skipValue (v ++ r) = Some (Some r).
Proof.
  intros Hv Hr. destruct Hv as [x Hx|t Hne Ht|o c w Hoc Hw|es _ Hws Hvs|ms _ Hws Hvs].
  - rewrite <-app_comm_cons, <-app_assoc. unfold skipValue. cbn [Z.eqb Pos.eqb scanString app]. by rewrite scan_inner_str.
  - destruct t as [|c t]; [done|]. pose proof (skip_scalar_plain (c :: t) r Ht Hr) as Hs.
    inversion Ht as [|? ? (He & H1 & H2 & H3 & H4) _]; subst. unfold ends_scalar in He. rewrite !orb_false_iff in He.
    destruct He as [[[E1 E2] E3] _]. cbn [app] in Hs |- *. unfold skipValue. cbn zeta. rewrite Hs.
    rewrite E1, E2, E3, !(proj2 (Z.eqb_neq _ _)) by done. cbn [orb]. rewrite (proj2 (Nat.eqb_neq _ _)); [done|].
    cbn. rewrite length_app. lia.
  - rewrite <-app_comm_cons, <-app_assoc. apply brackets_skip; [done|by apply passes_ws].
  - rewrite <-app_comm_cons, <-app_assoc. apply brackets_skip; [by right|]. apply passes_commas.
    intros t (e & -> & He)%list_elem_of_fmap. rewrite Forall_forall in Hws. apply passes_elt; auto using passes_val.
  - rewrite <-app_comm_cons, <-app_assoc. apply brackets_skip; [by left|]. apply passes_commas.
    intros t (m & -> & Hm)%list_elem_of_fmap. rewrite Forall_forall in Hws. apply passes_member; auto using passes_val.
Qed.

Lemma skipSpace_ws w s : ws w → skipSpace (w ++ s) = skipSpace s.
Proof. induction 1 as [|c w Hc _ IH]; cbn; [done|]. by rewrite Hc. Qed.
Lemma skipSpace_solid c s : is_space c = false → skipSpace (c :: s) = c :: s.
Proof. cbn. by intros ->. Qed.

Lemma val_head v : val v → ∃ c t, v = c :: t ∧ is_space c = false ∧ c ≠ c_comma ∧ c ≠ c_rbrack.
Proof.
  destruct 1 as [x _|t Hne Ht|o c w Hoc _|es _ _ _|ms _ _ _]; try by do 2 eexists.
  - destruct t as [|c t]; [done|]. inversion Ht as [|? ? (He & _) _]; subst. exists c, t. unfold ends_scalar in He.
    rewrite !orb_false_iff, !Z.eqb_neq in He. tauto.
  - exists o, (w ++ [c]). by destruct Hoc as [[-> _]|[-> _]].
Qed.

Lemma span_app v r : span (v ++ r) r = v.
Proof. unfold span. rewrite length_app. replace (length v + length r - length r)%nat with (length v + 0)%nat by lia. by rewrite take_app_add, app_nil_r. Qed.

Lemma delim_ws w r : ws w → delim r → delim (w ++ r).
Proof. destruct 1 as [|c w Hc _]; [done|]. intros _. cbn. unfold ends_scalar. by rewrite Hc, orb_true_r. Qed.

Definition decode_key (raw : bytes) : option bytes := if has_back raw then unescape raw else Some raw.

Section visits.
Context {A : Type}.

Definition FL (fn : A → bytes → bytes → A * bool) (acc : A) (s : bytes) : A * status := Fields_loop (S (length s)) fn acc s.
Definition AL (fn : A → bytes → A * bool) (acc : A) (s : bytes) : A * status := Array_loop (S (length s)) fn acc s.

Lemma FL_ws fn acc w s : ws w → FL fn acc (w ++ s) = FL fn acc s.
Proof.
  intros Hw. unfold FL. cbn [Fields_loop]. rewrite skipSpace_ws by done.
  change (Fields_loop (S (length (w ++ s))) fn acc s = Fields_loop (S (length s)) fn acc s).
  apply Fields_loop_fuel; rewrite ?length_app; lia.
Qed.
Lemma FL_comma fn acc s : FL fn acc (c_comma :: s) = FL fn acc s.
Proof. unfold FL at 1. cbn [Fields_loop]. rewrite skipSpace_solid by done. apply Fields_loop_fuel; cbn; lia. Qed.
Lemma FL_end fn acc s : FL fn acc (c_rbrace :: s) = (acc, Done).
Proof. done. Qed.

Lemma FL_member fn acc m r : ws_member m → val (e_val (m_val m)) → delim r →
  FL fn acc (member_text m ++ r) =
  match decode_key (m_key m) with
  | None => (acc, Failed ErrMalformed)
  | Some k => let '(acc, go) := fn acc k (e_val (m_val m)) in if go then FL fn acc r else (acc, Done)
  end.
Proof.
  intros (H1 & H2 & [H3 H4] & H5) Hv Hr. unfold member_text. rewrite <-app_assoc, FL_ws by done.
  unfold FL at 1. cbn [Fields_loop app]. rewrite skipSpace_solid by done. cbn [Z.eqb Pos.eqb negb scanString].
  rewrite <-app_assoc. cbn [app]. rewrite scan_inner_str by done. rewrite <-app_assoc, skipSpace_ws by done.
  cbn [app]. rewrite skipSpace_solid by done. cbn [Z.eqb Pos.eqb negb]. unfold elt_text. rewrite <-!app_assoc, skipSpace_ws by done.
  destruct (val_head _ Hv) as (c & t & Het & Hc & _). rewrite Het. cbn [app]. rewrite skipSpace_solid by done.
  change (c :: t ++ ?x) with ((c :: t) ++ x). rewrite <-Het. cbn zeta.
  rewrite skipValue_val by (first [done|by apply delim_ws]). rewrite span_app. fold (decode_key (m_key m)).
  destruct (decode_key (m_key m)) as [k|]; [|done]. destruct (fn acc k _) as [acc' []]; [|done].
  rewrite <-(FL_ws fn acc' (e_post (m_val m)) r H4). unfold FL. apply Fields_loop_fuel; [|lia].
  cbn [length]. rewrite !length_app. cbn [length]. rewrite !length_app. cbn [length]. rewrite !length_app. cbn. lia.
Qed.

Lemma AL_ws fn acc w s : ws w → AL fn acc (w ++ s) = AL fn acc s.
Proof.
  intros Hw. unfold AL. cbn [Array_loop]. rewrite skipSpace_ws by done.
  change (Array_loop (S (length (w ++ s))) fn acc s = Array_loop (S (length s)) fn acc s).
  apply Array_loop_fuel; rewrite ?length_app; lia.
Qed.
Lemma AL_comma fn acc s : AL fn acc (c_comma :: s) = AL fn acc s.
Proof. unfold AL at 1. cbn [Array_loop]. rewrite skipSpace_solid by done. apply Array_loop_fuel; cbn; lia. Qed.

Lemma AL_elt fn acc e r : ws_elt e → val (e_val e) → delim r →
  AL fn acc (elt_text e ++ r) = let '(acc, go) := fn acc (e_val e) in if go then AL fn acc r else (acc, Done).
Proof.
  intros [H1 H2] Hv Hr. unfold elt_text. rewrite <-!app_assoc, AL_ws by done.
  destruct (val_head _ Hv) as (c & t & Het & Hc & Hc1 & Hc2). pose proof (skipValue_val (e_val e) (e_post e ++ r) Hv (delim_ws _ _ H2 Hr)) as Hsk.
  pose proof (span_app (e_val e) (e_post e ++ r)) as Hspan.
  unfold AL at 1. cbn [Array_loop]. rewrite Het in Hsk, Hspan |- *. cbn [app] in Hsk, Hspan |- *. rewrite skipSpace_solid by done.
  rewrite !(proj2 (Z.eqb_neq _ _)) by done. rewrite Hsk. rewrite (proj2 (Nat.leb_gt _ _)) by (cbn; rewrite !length_app; lia).
  rewrite Hspan. rewrite <-Het. destruct (fn acc _) as [acc' []]; [|done].
  rewrite <-(AL_ws fn acc' (e_post e) r H2). unfold AL. apply Array_loop_fuel; [|lia]. cbn. rewrite !length_app. lia.
Qed.

(** What a walk ought to be: the callback on each item in turn until it says stop. *)
Fixpoint visit {B} (fn : A → B → A * bool) (acc : A) (xs : list B) : A * status :=
  match xs with
  | [] => (acc, Done)
  | x :: xs => let '(acc, go) := fn acc x in if go then visit fn acc xs else (acc, Done)
  end.

Lemma FL_members fn ms ks r : ∀ acc,
  Forall ws_member ms → (∀ m, m ∈ ms → val (e_val (m_val m))) → Forall2 (λ m k, decode_key (m_key m) = Some k) ms ks →
  FL fn acc (commas (member_text <$> ms) ++ c_rbrace :: r) =
  visit (λ acc '(k, v), fn acc k v) acc (zip ks ((λ m, e_val (m_val m)) <$> ms)).
Proof.
  revert ks. induction ms as [|m ms IH]; intros ks acc Hws Hv Hk; inversion Hk as [|? k ? ks' Hk1 Hk2]; subst; [done|].
  inversion Hws; subst. assert (Hvm : val (e_val (m_val m))) by (apply Hv; by left).
  assert (Hrec : ∀ acc, FL fn acc (match ms with [] => c_rbrace :: r | _ => c_comma :: commas (member_text <$> ms) ++ c_rbrace :: r end) =
    visit (λ acc '(k, v), fn acc k v) acc (zip ks' ((λ m, e_val (m_val m)) <$> ms))).
  { intros acc'. destruct ms as [|m' ms']; [by inversion Hk2|]. rewrite FL_comma. apply IH; [done| |done]. intros. apply Hv. by right. }
  assert (Htext : commas (member_text <$> m :: ms) ++ c_rbrace :: r =
    member_text m ++ match ms with [] => c_rbrace :: r | _ => c_comma :: commas (member_text <$> ms) ++ c_rbrace :: r end).
  { destruct ms as [|m' ms']; [done|]. cbn [fmap list_fmap commas]. by rewrite <-app_assoc. }
  rewrite Htext, FL_member by (first [done|by destruct ms]). rewrite Hk1. cbn [fmap list_fmap zip zip_with visit].
  destruct (fn acc k _) as [acc' []]; [apply Hrec|done].
Qed.

Lemma AL_elts fn es r : ∀ acc,
  Forall ws_elt es → (∀ e, e ∈ es → val (e_val e)) →
  AL fn acc (commas (elt_text <$> es) ++ c_rbrack :: r) = visit fn acc (e_val <$> es).
Proof.
  induction es as [|e es IH]; intros acc Hws Hv; [done|].
  inversion Hws; subst. assert (Hve : val (e_val e)) by (apply Hv; by left).
  assert (Hrec : ∀ acc, AL fn acc (match es with [] => c_rbrack :: r | _ => c_comma :: commas (elt_text <$> es) ++ c_rbrack :: r end) =
    visit fn acc (e_val <$> es)).
  { intros acc'. destruct es as [|e' es']; [done|]. rewrite AL_comma. apply IH; [done|]. intros. apply Hv. by right. }
  assert (Htext : commas (elt_text <$> e :: es) ++ c_rbrack :: r =
    elt_text e ++ match es with [] => c_rbrack :: r | _ => c_comma :: commas (elt_text <$> es) ++ c_rbrack :: r end).
  { destruct es as [|e' es']; [done|]. cbn [fmap list_fmap commas]. by rewrite <-app_assoc. }
  rewrite Htext, AL_elt by (first [done|by destruct es]). cbn [fmap list_fmap visit].
  destruct (fn acc _) as [acc' []]; [apply Hrec|done].
Qed.
End visits.

(** ** Escapes *)

(** One spelling [e] of the bytes [c] inside a JSON string. *)
Inductive spells : bytes → bytes → Prop :=
  | sp_raw c : c ≠ c_back → spells [c] [c]
  | sp_short d x : d ≠ c_u → short_escape d = Some x → spells [c_back; d] [x]
  | sp_unicode h r : length h = 4%nat → hex4 h = Some r → ¬ (55296 ≤ r ≤ 57343) → spells (c_back :: c_u :: h) (AppendRune r)
  | sp_pair h l hi lo : length h = 4%nat → length l = 4%nat → hex4 h = Some hi → hex4 l = Some lo →
      55296 ≤ hi ≤ 56319 → 56320 ≤ lo ≤ 57343 →
      spells (c_back :: c_u :: h ++ c_back :: c_u :: l) (AppendRune (65536 + Z.shiftl (hi - 55296) 10 + (lo - 56320))).

Lemma hex4_app h r : length h = 4%nat → hex4 (h ++ r) = hex4 h.
Proof.
  intros Hl. unfold hex4. rewrite length_app, Hl. cbn [Nat.ltb Nat.leb Nat.add].
  destruct (length r); cbn; by rewrite take_app_le, take_ge by lia.
Qed.

Lemma unescape_fuel f : ∀ g s, (length s ≤ f)%nat → (length s ≤ g)%nat → unescape_loop f s = unescape_loop g s.
Proof.
  assert (Hdec : ∀ s r rest, decodeUnicodeEscape s = Some (r, rest) → (length rest ≤ length s)%nat).
  { intros s r rest. unfold decodeUnicodeEscape. destruct (hex4 s) as [hi|]; [|done].
    pose proof (length_drop s 4%nat) as Hd. destruct (_ && _); [|destruct (_ && _); intros [= _ <-]; lia].
    destruct (drop 4 s) as [|c [|d low]] eqn:E; cbn [length] in Hd; [intros [= _ <-]; cbn; lia..|].
    destruct (_ && _); [|intros [= _ <-]; cbn; lia]. destruct (hex4 low); [|intros [= _ <-]; cbn; lia].
    destruct (_ && _); [|intros [= _ <-]; cbn; lia]. intros [= _ <-]. rewrite length_drop. lia. }
  induction f as [|f IH]; intros g s Hf Hg.
  { destruct s; [|cbn in Hf; lia]. by destruct g. }
  destruct g as [|g]; [destruct s; [done|cbn in Hg; lia]|]. destruct s as [|c s1]; [done|]. cbn [unescape_loop]. cbn in Hf, Hg.
  destruct (negb _); [by rewrite (IH g) by lia|]. destruct s1 as [|d s2]; [done|]. cbn in Hf, Hg. destruct (d =? c_u).
  - destruct (decodeUnicodeEscape s2) as [[r rest]|] eqn:E; [|done]. apply Hdec in E. by rewrite (IH g) by lia.
  - destruct (short_escape d); [|done]. by rewrite (IH g) by lia.
Qed.

Lemma unescape_S f c s : unescape_loop (S f) (c :: s) =
  if negb (c =? c_back) then cons c <$> unescape_loop f s
  else match s with
       | [] => None
       | d :: s2 => if d =? c_u then match decodeUnicodeEscape s2 with None => None | Some (r, rest) => app (AppendRune r) <$> unescape_loop f rest end
                    else match short_escape d with None => None | Some x => cons x <$> unescape_loop f s2 end
       end.
Proof. done. Qed.

Lemma unescape_cons e c s t : spells e c → unescape s = Some t → unescape (e ++ s) = Some (c ++ t).
Proof.
  intros He Hs. unfold unescape in *. assert (Hf : ∀ f, (length s ≤ f)%nat → unescape_loop f s = Some t).
  { intros f Hf. rewrite (unescape_fuel f (length s)) by lia. done. }
  destruct He as [c Hc|d x Hu Hx|h r Hl Hh Hr|h l hi lo Hl Hl' Hh Hlo Hhi Hlor]; cbn [app length]; rewrite unescape_S.
  - rewrite (proj2 (Z.eqb_neq _ _) Hc). cbn [negb]. by rewrite Hf.
  - rewrite Z.eqb_refl, (proj2 (Z.eqb_neq _ _) Hu), Hx. cbn [negb]. by rewrite Hf by lia.
  - rewrite !Z.eqb_refl. cbn [negb]. unfold decodeUnicodeEscape. rewrite hex4_app, Hh by done.
    assert (drop 4 (h ++ s) = s) as -> by (by rewrite <-Hl, drop_app_length).
    assert ((55296 <=? r) && (r <=? 56319) = false) as -> by (rewrite andb_false_iff, !Z.leb_gt; lia).
    assert ((56320 <=? r) && (r <=? 57343) = false) as -> by (rewrite andb_false_iff, !Z.leb_gt; lia).
    rewrite Hf by (rewrite length_app; lia). done.
  - rewrite !Z.eqb_refl. cbn [negb]. unfold decodeUnicodeEscape. rewrite <-app_assoc, hex4_app, Hh by done.
    assert (drop 4 (h ++ (c_back :: c_u :: l) ++ s) = (c_back :: c_u :: l) ++ s) as -> by (by rewrite <-Hl, drop_app_length).
    assert ((55296 <=? hi) && (hi <=? 56319) = true) as -> by (rewrite andb_true_iff, !Z.leb_le; lia).
    cbn [app]. rewrite !Z.eqb_refl. cbn [andb]. rewrite hex4_app, Hlo by done.
    assert ((56320 <=? lo) && (lo <=? 57343) = true) as -> by (rewrite andb_true_iff, !Z.leb_le; lia).
    assert (drop 4 (l ++ s) = s) as -> by (by rewrite <-Hl', drop_app_length).
    rewrite Hf by (rewrite !length_app; cbn; rewrite length_app; lia). done.
Qed.

Lemma unescape_spells es cs : Forall2 spells es cs → unescape (mjoin es) = Some (mjoin cs).
Proof. induction 1 as [|e c es cs He _ IH]; [done|]. cbn [mjoin list_join]. by apply unescape_cons. Qed.

Lemma no_back_raw es cs : Forall2 spells es cs → has_back (mjoin es) = false → mjoin es = mjoin cs.
Proof.
  induction 1 as [|e c es cs He _ IH]; [done|]. change (has_back (e ++ mjoin es) = false → e ++ mjoin es = c ++ mjoin cs). unfold has_back in *. rewrite existsb_app.
  intros [He' Hes]%orb_false_iff. rewrite (IH Hes). f_equal. by destruct He.
Qed.

(** ** What the scanner promises *)

(** Scanning terminates.  On any bytes at all, well-formed or not, [Fields] and [Array]
    finish whatever the callback does, and so does the skipping of any value. *)
Theorem scan_terminates {A} (fn : A → bytes → bytes → A * bool) (gn : A → bytes → A * bool) (acc : A) (b : bytes) :
  (Fields fn acc b).2 ≠ OutOfFuel ∧ (Array gn acc b).2 ≠ OutOfFuel ∧ is_Some (skipValue b).
Proof.
  split_and!.
  - unfold Fields. destruct (skipSpace b) as [|c s]; [done|]. destruct (c =? c_lbrace); [|done].
    apply (Fields_loop_fuel _ (S (length s))); lia.
  - unfold Array. destruct (skipSpace b) as [|c s]; [done|]. destruct (c =? c_lbrack); [|done].
    apply (Array_loop_fuel _ (S (length s))); lia.
  - destruct (skipValue_total b) as (o & -> & _). done.
Qed.

(** A member's key, spelled with or without escapes. *)
Definition key_spells (m : member) (k : bytes) : Prop := ∃ es cs, Forall2 spells es cs ∧ m_key m = mjoin es ∧ k = mjoin cs.

Lemma key_spells_decode m k : key_spells m k → decode_key (m_key m) = Some k.
Proof.
  intros (es & cs & Hs & -> & ->). unfold decode_key. destruct (has_back (mjoin es)) eqn:E.
  - by apply unescape_spells.
  - f_equal. by apply no_back_raw.
Qed.


(** On every well-formed array [Array] shows the callback exactly the elements in order. *)
Theorem array_visits {A} (fn : A → bytes → A * bool) (acc : A) (w : bytes) (es : list elt) (r : bytes)
  (Hw : ws w) (Hes : Forall ws_elt es) (Hvs : ∀ e, e ∈ es → val (e_val e)) :
  Array fn acc (w ++ c_lbrack :: commas (elt_text <$> es) ++ c_rbrack :: r) = visit fn acc (e_val <$> es).
Proof. unfold Array. rewrite skipSpace_ws, skipSpace_solid by done. by apply AL_elts. Qed.

(** Decoding undoes encoding.  However the characters [cs] of a string were spelled, raw,
    with short escapes, with [\u] escapes or surrogate pairs, [String_] of the literal is them. *)
Theorem string_decodes (es cs : list bytes) (Hs : Forall2 spells es cs) :
  String_ (c_quote :: mjoin es ++ [c_quote]) = Some (mjoin cs).
Proof.
  unfold String_. rewrite (proj2 (Nat.ltb_ge _ _)) by (cbn; rewrite length_app; cbn; lia).
  rewrite app_comm_cons, last_snoc, bool_decide_true by done. cbn [orb negb Z.eqb Pos.eqb app tail].
  rewrite removelast_last. destruct (has_back (mjoin es)) eqn:E.
  - by apply unescape_spells.
  - f_equal. by apply no_back_raw.
Qed.

Definition digit (c : Z) : Prop := 48 <= c <= 57.
Definition decimal (n : Z) (ds : bytes) : Z := foldl (λ n c, n * 10 + (c - 48)) n ds.

Lemma Int_loop_value ds : Forall digit ds → ∀ n, Int_loop (i64 n) ds = Some (i64 (decimal n ds)).
Proof.
  induction 1 as [|c ds Hc _ IH]; intros n; [done|]. cbn [Int_loop]. unfold digit in Hc.
  rewrite (proj2 (Z.ltb_ge _ _)), (proj2 (Z.ltb_ge _ _)) by lia. cbn [orb].
  replace (i64 (i64 n * 10 + (c - 48))) with (i64 (n * 10 + (c - 48))); [apply IH|].
  destruct (i64_off n) as [q ->]. rewrite <-(i64_shift _ (q * 10)). f_equal. lia.
Qed.

Lemma Int_loop_bad ds : ¬ Forall digit ds → ∀ n, Int_loop n ds = None.
Proof.
  induction ds as [|c ds IH]; intros Hb n; [destruct Hb; constructor|]. cbn [Int_loop].
  destruct (_ || _) eqn:E; [done|]. rewrite orb_false_iff, !Z.ltb_ge in E. apply IH. intros Hds. apply Hb. by constructor.
Qed.

(** [Int] reads exactly the non-empty digit strings, as the number they write modulo the
    width of the machine word: exactly when the number fits. *)
Theorem int_value (sp : bytes) :
  match Int sp with
  | Some n => sp ≠ [] ∧ Forall digit sp ∧ n = i64 (decimal 0 sp) ∧ (decimal 0 sp < two63 → n = decimal 0 sp)
  | None => sp = [] ∨ ¬ Forall digit sp
  end.
Proof.
  unfold Int. destruct sp as [|c sp]; [by left|]. set (ds := c :: sp).
  destruct (decide (Forall (λ c, 48 <= c <= 57) ds)) as [Hd|Hd].
  - change 0 with (i64 0) at 1. rewrite Int_loop_value by done. split_and!; [done..|].
    intros Hlt. assert (Hpos : 0 <= decimal 0 ds); [|unfold i64, two63, two64 in *; rewrite Z.mod_small; lia].
    assert (Hgen : ∀ l n, Forall digit l → 0 <= n → 0 <= decimal n l); [|by apply Hgen].
    intros l. induction l as [|d l IH]; intros n Hl Hn; [done|]. inversion Hl; subst. unfold digit in *. cbn. apply IH; [done|lia].
  - rewrite Int_loop_bad by done. by right.
Qed.

(** The reading has no overflow check: a 19-digit count comes out negative. *)
Lemma int_wraps : Int [57; 50; 50; 51; 51; 55; 50; 48; 51; 54; 56; 53; 52; 55; 55; 53; 56; 48; 56] = Some (-9223372036854775808).
Proof. reflexivity. Qed.

(** ** Witnesses *)

(** [ {"a" : [1, "x"] ,"A" : {} }rest], the second key written [\u0041]. *)
Definition wit_ms : list member :=
  [Member [] [97] [32] (Elt [32] [91; 49; 44; 32; 34; 120; 34; 93] [32]);
   Member [] [92; 117; 48; 48; 52; 49] [32] (Elt [32] [123; 125] [32])].

Lemma wit_ms_vals m : m ∈ wit_ms → val (e_val (m_val m)).
Proof.
  intros Hm. unfold wit_ms in Hm. rewrite !elem_of_cons, elem_of_nil in Hm. destruct Hm as [-> | [-> | []]]; cbn [e_val m_val].
  - change (val (c_lbrack :: commas (elt_text <$> [Elt [] [49] []; Elt [32] [34; 120; 34] []]) ++ [c_rbrack])).
    apply v_array; [done|by repeat constructor|]. intros e He. rewrite !elem_of_cons, elem_of_nil in He.
    destruct He as [-> | [-> | []]]; cbn [e_val].
    + apply v_scalar; [done|]. by repeat constructor.
    + apply (v_string [120]). by repeat constructor.
  - apply (v_empty c_lbrace c_rbrace []); [by left|constructor].
Qed.

Lemma wit_ms_ws : Forall ws_member wit_ms.
Proof. unfold ws_member, ws_elt, ws. repeat constructor; done. Qed.

Lemma wit_ms_keys : Forall2 key_spells wit_ms [[97]; [65]].
Proof.
  constructor; [|constructor; [|constructor]].
  - exists [[97]], [[97]]. split; [|done]. constructor; [by constructor|constructor].
  - exists [[92; 117; 48; 48; 52; 49]], [[65]]. split; [|done].
    constructor; [|constructor]. apply (sp_unicode [48; 48; 52; 49] 65); [done|done|lia].
Qed.

Definition wit_fn (acc : list (bytes * bytes)) (k v : bytes) : list (bytes * bytes) * bool := (acc ++ [(k, v)], true).


Lemma array_visits_witness :
  Array (λ acc v, (acc ++ [v], (length acc <? 1)%nat)) [] (c_lbrack :: commas (elt_text <$> [Elt [] [49] [32]; Elt [32] [34; 120; 34] []; Elt [] [50] []]) ++ [c_rbrack]) =
  ([[49]; [34; 120; 34]], Done).
Proof.
  etransitivity; [apply (array_visits (λ acc v, (acc ++ [v], (length acc <? 1)%nat)) [] [] _ [])|].
  - constructor.
  - unfold ws_elt, ws. repeat constructor; done.
  - intros e He. rewrite !elem_of_cons, elem_of_nil in He. destruct He as [-> | [-> | [-> | []]]]; cbn [e_val].
    + apply v_scalar; [done|]. by repeat constructor.
    + apply (v_string [120]). by repeat constructor.
    + apply v_scalar; [done|]. by repeat constructor.
  - reflexivity.
Defined.

(** ["é\n😀"], with the accent written [\u00e9] and the face as a surrogate pair. *)
Lemma string_decodes_witness :
  String_ (c_quote :: mjoin [[92; 117; 48; 48; 101; 57]; [92; 110]; [92; 117; 100; 56; 51; 100; 92; 117; 100; 101; 48; 48]] ++ [c_quote]) =
  Some [195; 169; 10; 240; 159; 152; 128].
Proof.
  apply (string_decodes _ [[195; 169]; [10]; [240; 159; 152; 128]]).
  constructor; [|constructor; [|constructor; [|constructor]]].
  - apply (sp_unicode [48; 48; 101; 57] 233); [done|done|lia].
  - by apply sp_short.
  - apply (sp_pair [100; 56; 51; 100] [100; 101; 48; 48] 55357 56832); [done..|lia|lia].
Defined.
