(* ===== verification/EndpointRouter.v ===== *)
(** * EndpointRouter: sticky series with failover

    [src/llm/endpoint_router.go].  An endpoint index is a Go [int], negative when there is
    none.  The mutex makes each operation one step; [AcquireForRequest] fixes the home in a
    first critical section and picks in a second, which the step relation [sstep] composes. *)

From stdpp Require Import base gmap list sorting strings.
From Stdlib Require Import ZArith Lia.
From Corelib Require Import SpecFloat.
From S2P Require Import Prelude.
Open Scope Z_scope.

(** ** Data *)

Record EndpointRouter := ER {
  er_endpoints : list string;
  seriesMap : gmap Z Z;
  assignments : list Z;
  inFlight : list Z;
  wellBalanced : Z;
  er_threshold : float64
}.

(** [1.2], to the nearest binary64. *)
Definition DefaultOverloadThreshold : float64 := f64_div (f64_of_Z 12) (f64_of_Z 10).

Definition NewEndpointRouterWithFailover (endpoints : list string) (totalConcurrency : Z) (threshold : float64) : EndpointRouter :=
  let threshold := if SFleb threshold (S754_zero false) then DefaultOverloadThreshold else threshold in
  let n := Z.of_nat (length endpoints) in
  let wb := if (0 <? n) && (0 <? totalConcurrency)
            then let wb := totalConcurrency / n in if wb <? 1 then 1 else wb
            else 0 in
  ER endpoints ∅ (replicate (length endpoints) 0) (replicate (length endpoints) 0) wb threshold.

Definition NewEndpointRouter (endpoints : list string) : EndpointRouter :=
  NewEndpointRouterWithFailover endpoints 0 DefaultOverloadThreshold.

(** The indices of a router's own making are in range: [wf]. *)
Definition count_of (l : list Z) (i : Z) : Z := default 0 (l !! Z.to_nat i).
Definition n_endpoints (r : EndpointRouter) : Z := Z.of_nat (length (er_endpoints r)).

(** ** Home *)

(** The scan for the least assigned endpoint, the first of them. *)
Definition least_assigned (a : list Z) : Z :=
  foldl (λ best i, if count_of a i <? count_of a best then i else best) 0 (Z.of_nat <$> seq 1 (length a - 1)).

Definition set_home (s i : Z) (r : EndpointRouter) : EndpointRouter :=
  ER (er_endpoints r) (<[s := i]> (seriesMap r)) (alter (λ a, i64 (a + 1)) (Z.to_nat i) (assignments r))
     (inFlight r) (wellBalanced r) (er_threshold r).

(** [None] is the index panic of a router with no endpoints. *)
Definition HomeIndexForSeries (s : Z) (r : EndpointRouter) : option (Z * EndpointRouter) :=
  match seriesMap r !! s with
  | Some idx => Some (idx, r)
  | None => match assignments r with
            | [] => None
            | _ => let best := least_assigned (assignments r) in Some (best, set_home s best r)
            end
  end.

Definition EndpointForSeries (s : Z) (r : EndpointRouter) : option (string * EndpointRouter) :=
  if n_endpoints r <=? 1 then Some (""%string, r)
  else '(i, r) ← HomeIndexForSeries s r; e ← er_endpoints r !! Z.to_nat i; Some (e, r).

(** ** Overload *)

Definition overload_limit (r : EndpointRouter) : Z :=
  let limit := f64_to_i64 (f64_mul (f64_of_Z (wellBalanced r)) (er_threshold r)) in
  if limit <? 1 then 1 else limit.

Definition overloaded (r : EndpointRouter) (idx : Z) : bool :=
  if wellBalanced r <=? 0 then false else overload_limit r <? count_of (inFlight r) idx.

(** ** The hash pick *)

(** [hash/fnv], 64-bit FNV-1a. *)
Definition fnv_offset : Z := 14695981039346656037.
Definition fnv_prime : Z := 1099511628211.
Definition fnv1a (h : Z) (bs : list Z) : Z := foldl (λ h b, u64 (Z.lxor h b * fnv_prime)) h bs.

(** The eight bytes of [uint64(s) + 1], the low one first. *)
Definition index_bytes (s : Z) : list Z :=
  let v := u64 (u64 s + 1) in (λ i, Z.land (Z.shiftr v (8 * i)) 255) <$> seqZ 0 8.

Definition remaining (n : Z) (skipped : list Z) : list Z := filter (λ i, i ∉ skipped) (seqZ 0 n).

Definition hash_skipped (ordered : list Z) : Z := fnv1a fnv_offset (mjoin (index_bytes <$> ordered)).

Definition hashPick (n : Z) (skipped : list Z) : Z :=
  match remaining n skipped with
  | [] => -1
  | rem => rem !!! Z.to_nat (hash_skipped (merge_sort Z.le skipped) mod Z.of_nat (length rem))
  end.

(** ** Picking *)

(** The loop of [pickLocked]; [n] rounds are enough: [pickLocked_spec]. *)
Fixpoint pick_loop (fuel : nat) (n home : Z) (isOverloaded : Z → bool) (skipped : list Z) : Z :=
  match fuel with
  | O => -2
  | S f =>
      if Z.of_nat (length skipped) <? n then
        let cand := hashPick n skipped in
        if cand <? 0 then home
        else if negb (isOverloaded cand) then cand
        else pick_loop f n home isOverloaded (skipped ++ [cand])
      else home
  end.

Definition pickLocked (n home : Z) (isOverloaded : Z → bool) : Z :=
  if n =? 0 then -1
  else if (n =? 1) || negb (isOverloaded home) then home
  else pick_loop (S (Z.to_nat n)) n home isOverloaded [home].

Definition PickIndex (s : Z) (r : EndpointRouter) : option (Z * EndpointRouter) :=
  '(home, r) ← HomeIndexForSeries s r;
  Some (pickLocked (n_endpoints r) home (overloaded r), r).

Definition PickEndpoint (s : Z) (r : EndpointRouter) : option (string * Z * EndpointRouter) :=
  if n_endpoints r <=? 1 then Some (""%string, -1, r)
  else '(idx, r) ← PickIndex s r;
       if idx <? 0 then Some (""%string, -1, r)
       else e ← er_endpoints r !! Z.to_nat idx; Some (e, idx, r).

(** ** In-flight counters *)

Definition add_inflight (d : Z) (idx : Z) (r : EndpointRouter) : EndpointRouter :=
  ER (er_endpoints r) (seriesMap r) (assignments r) (alter (λ x, i64 (x + d)) (Z.to_nat idx) (inFlight r))
     (wellBalanced r) (er_threshold r).

Definition in_range (idx : Z) (r : EndpointRouter) : bool := (0 <=? idx) && (idx <? Z.of_nat (length (inFlight r))).
Definition AcquireIndex (idx : Z) (r : EndpointRouter) : EndpointRouter := if in_range idx r then add_inflight 1 idx r else r.
Definition ReleaseIndex (idx : Z) (r : EndpointRouter) : EndpointRouter := if in_range idx r then add_inflight (-1) idx r else r.

(** The second critical section of [AcquireForRequest]. *)
Definition acquire_at (home : Z) (r : EndpointRouter) : Z * EndpointRouter :=
  let idx := pickLocked (n_endpoints r) home (overloaded r) in
  (idx, if 0 <=? idx then add_inflight 1 idx r else r).

Definition AcquireForRequest (s : Z) (r : EndpointRouter) : option (Z * EndpointRouter) :=
  if n_endpoints r <=? 1 then Some (-1, r)
  else '(home, r) ← HomeIndexForSeries s r; Some (acquire_at home r).

(** The deprecated pair, on the series' home. *)
Definition Acquire (s : Z) (r : EndpointRouter) : EndpointRouter :=
  if n_endpoints r <=? 1 then r
  else match seriesMap r !! s with Some idx => AcquireIndex idx r | None => r end.
Definition Release (s : Z) (r : EndpointRouter) : EndpointRouter :=
  if n_endpoints r <=? 1 then r
  else match seriesMap r !! s with Some idx => ReleaseIndex idx r | None => r end.

Definition Endpoints (r : EndpointRouter) : list string := er_endpoints r.
Definition InFlight (r : EndpointRouter) : list Z := inFlight r.
Definition WellBalanced (r : EndpointRouter) : Z * float64 := (wellBalanced r, er_threshold r).

(** ** The scan finds the first least *)

Lemma least_fold a k : ∀ ix best, (0 ≤ best < k)%Z → Forall (λ i, 0 ≤ i < k) ix →
  let b := foldl (λ best i, if count_of a i <? count_of a best then i else best) best ix in
  0 ≤ b < k ∧ count_of a b ≤ count_of a best ∧ ∀ i, i ∈ ix → count_of a b ≤ count_of a i.
Proof.
  induction ix as [|i ix IH]; intros best Hb Hall; cbn zeta; cbn [foldl].
  { split_and!; [lia..|done|]. by intros i ?%elem_of_nil. }
  inversion Hall as [|? ? Hi His]; subst.
  destruct (IH (if count_of a i <? count_of a best then i else best)) as (H1 & H2 & H3); [by destruct (_ <? _)|done|].
  destruct (Z.ltb_spec (count_of a i) (count_of a best)); (split_and!; [lia|lia|lia|]);
    intros j [-> |Hj]%elem_of_cons; [lia|by apply H3|lia|by apply H3].
Qed.

Lemma least_assigned_spec a : a ≠ [] →
  0 ≤ least_assigned a < Z.of_nat (length a) ∧ ∀ i, 0 ≤ i < Z.of_nat (length a) → count_of a (least_assigned a) ≤ count_of a i.
Proof.
  intros Ha. assert (0 < length a)%nat by (destruct a; [done|cbn; lia]).
  destruct (least_fold a (Z.of_nat (length a)) (Z.of_nat <$> seq 1 (length a - 1)) 0) as (H1 & H2 & H3); [lia| |].
  { apply Forall_forall. intros i (j & -> & Hj%elem_of_seq)%list_elem_of_fmap. lia. }
  split; [done|]. intros i Hi. destruct (decide (i = 0)) as [-> |]; [done|]. apply H3.
  apply list_elem_of_fmap. exists (Z.to_nat i). rewrite elem_of_seq. lia.
Qed.

(** ** The pick avoids what is overloaded *)

Lemma elem_of_remaining n sk i : i ∈ remaining n sk ↔ 0 ≤ i < n ∧ i ∉ sk.
Proof. unfold remaining. rewrite list_elem_of_filter, elem_of_seqZ. intuition lia. Qed.

Lemma hashPick_spec n sk :
  (remaining n sk = [] ∧ hashPick n sk = -1) ∨ hashPick n sk ∈ remaining n sk.
Proof.
  unfold hashPick. destruct (remaining n sk) as [|x rem] eqn:E; [by left|]. right. set (h := hash_skipped _).
  apply list_elem_of_lookup_total_2. pose proof (Z.mod_pos_bound h (Z.of_nat (length (x :: rem)))) as Hm.
  cbn [length] in *. specialize (Hm ltac:(lia)). lia.
Qed.

Lemma remaining_nonempty n sk : NoDup sk → Z.of_nat (length sk) < n → remaining n sk ≠ [].
Proof.
  intros Hnd Hlt Hr. assert (Hsub : seqZ 0 n ⊆ sk).
  { intros i Hi. apply elem_of_seqZ in Hi. destruct (decide (i ∈ sk)) as [|Hni]; [done|].
    assert (i ∈ remaining n sk) as Hir by (apply elem_of_remaining; split; [lia|done]). rewrite Hr in Hir. by apply elem_of_nil in Hir. }
  pose proof (submseteq_length _ _ (NoDup_submseteq _ _ (NoDup_seqZ 0 n) Hsub)) as Hl. rewrite length_seqZ in Hl. lia.
Qed.

(** What [pickLocked] answers: home unless it is overloaded, else an endpoint that is not,
    else home. *)
Definition good_pick (n home : Z) (ov : Z → bool) (idx : Z) : Prop :=
  0 ≤ idx < n ∧ (ov home = false → idx = home) ∧
  ((∃ i, 0 ≤ i < n ∧ ov i = false) → ov idx = false) ∧
  ((∀ i, 0 ≤ i < n → ov i = true) → idx = home).

Lemma pick_loop_spec n home ov : 0 ≤ home < n → ov home = true → ∀ f sk,
  NoDup sk → (∀ i, i ∈ sk → 0 ≤ i < n ∧ ov i = true) → home ∈ sk → (Z.to_nat n < f + length sk)%nat →
  good_pick n home ov (pick_loop f n home ov sk).
Proof.
  intros Hh Hov. induction f as [|f IH]; intros sk Hnd Hsk Hin Hf.
  { exfalso. assert (Hsub : sk ⊆ seqZ 0 n) by (intros i Hi; apply elem_of_seqZ; destruct (Hsk i Hi); lia).
    pose proof (submseteq_length _ _ (NoDup_submseteq _ _ Hnd Hsub)) as Hl. rewrite length_seqZ in Hl. lia. }
  cbn [pick_loop]. destruct (Z.ltb_spec (Z.of_nat (length sk)) n) as [Hlt|Hge].
  - destruct (hashPick_spec n sk) as [[Hr _]|Hc]; [by apply remaining_nonempty in Hr|].
    set (c := hashPick n sk) in *. clearbody c. apply elem_of_remaining in Hc as [Hc Hcn]. cbn zeta.
    rewrite (proj2 (Z.ltb_ge _ _)) by lia. destruct (ov c) eqn:Hoc; cbn [negb].
    + apply IH; [|..].
      * apply NoDup_app. split_and!; [done| |apply NoDup_singleton]. by intros i Hi ->%list_elem_of_singleton.
      * intros i [Hi| ->%list_elem_of_singleton]%elem_of_app; [by apply Hsk|done].
      * apply elem_of_app. by left.
      * rewrite length_app. cbn. lia.
    + unfold good_pick. split_and!; [lia|lia|congruence|done|]. intros Hall. rewrite Hall in Hoc by lia. done.
  - assert (Hall : ∀ i, 0 ≤ i < n → ov i = true).
    { intros i Hi. apply Hsk. destruct (decide (i ∈ sk)) as [|Hni]; [done|]. exfalso.
      assert (Hsub : i :: sk ⊆ seqZ 0 n).
      { intros j [-> |Hj]%elem_of_cons; apply elem_of_seqZ; [lia|]. destruct (Hsk j Hj). lia. }
      pose proof (submseteq_length _ _ (NoDup_submseteq _ _ (NoDup_cons_2 _ _ Hni Hnd) Hsub)) as Hl.
      rewrite length_seqZ in Hl. cbn in Hl. lia. }
    unfold good_pick. split_and!; [lia|lia|done| |done]. intros (i & Hi & Hoi). rewrite Hall in Hoi by done. done.
Qed.

Lemma pickLocked_spec n home ov : 0 ≤ home < n → good_pick n home ov (pickLocked n home ov).
Proof.
  intros Hh. unfold pickLocked. rewrite (proj2 (Z.eqb_neq _ _)) by lia. destruct (_ || _) eqn:E.
  - apply orb_true_iff in E as [E|E].
    + apply Z.eqb_eq in E. subst. assert (home = 0) as -> by lia. unfold good_pick. split_and!; try lia; try done.
      intros (i & Hi & Hoi). by assert (i = 0) as -> by lia.
    + apply negb_true_iff in E. unfold good_pick. split_and!; [lia|lia|done|done|done].
  - apply orb_false_iff in E as [_ E%negb_false_iff]. apply pick_loop_spec; [done|done|apply NoDup_singleton| | |].
    + intros i ->%list_elem_of_singleton. done.
    + by left.
    + cbn. lia.
Qed.

(** ** Well-formed routers *)

Definition assigned (m : gmap Z Z) (i : Z) : Z := Z.of_nat (size (filter (λ p : Z * Z, p.2 = i) m)).

Record wf (r : EndpointRouter) : Prop := {
  wf_len : length (assignments r) = length (er_endpoints r);
  wf_flight : length (inFlight r) = length (er_endpoints r);
  wf_home : ∀ s i, seriesMap r !! s = Some i → 0 ≤ i < n_endpoints r;
  wf_count : ∀ i, 0 ≤ i < n_endpoints r → count_of (assignments r) i = assigned (seriesMap r) i;
  wf_even : ∀ i j, 0 ≤ i < n_endpoints r → 0 ≤ j < n_endpoints r → count_of (assignments r) i ≤ count_of (assignments r) j + 1
}.

Lemma count_of_replicate n i : count_of (replicate n 0) i = 0.
Proof.
  unfold count_of. destruct (replicate n 0 !! Z.to_nat i) eqn:E; [|done]. by apply lookup_replicate in E as [-> _].
Qed.

Lemma new_wf es c t : wf (NewEndpointRouterWithFailover es c t).
Proof.
  split.
  - cbn. by rewrite length_replicate.
  - cbn. by rewrite length_replicate.
  - intros s i Hs. change ((∅ : gmap Z Z) !! s = Some i) in Hs. by apply lookup_empty_Some in Hs.
  - intros i _. cbn [assignments NewEndpointRouterWithFailover]. rewrite count_of_replicate. unfold assigned. cbn [seriesMap NewEndpointRouterWithFailover]. by rewrite map_filter_empty, map_size_empty.
  - intros i j _ _. cbn [assignments NewEndpointRouterWithFailover]. rewrite !count_of_replicate. lia.
Qed.

Lemma count_of_alter f l i j : 0 ≤ i < Z.of_nat (length l) → 0 ≤ j →
  count_of (alter f (Z.to_nat i) l) j = if decide (i = j) then f (count_of l i) else count_of l j.
Proof.
  intros Hi Hj. unfold count_of. destruct (decide (i = j)) as [-> |Hne].
  - rewrite list_lookup_alter_eq. destruct (lookup_lt_is_Some_2 l (Z.to_nat j)) as [x ->]; [lia|done].
  - by rewrite list_lookup_alter_ne by lia.
Qed.

Lemma assigned_insert m s i j : m !! s = None →
  assigned (<[s := i]> m) j = if decide (i = j) then assigned m j + 1 else assigned m j.
Proof.
  intros Hs. unfold assigned. destruct (decide (i = j)) as [-> |Hne].
  - rewrite map_filter_insert_True, map_size_insert_None by (first [done|by apply map_lookup_filter_None; left]). lia.
  - rewrite map_filter_insert_not' by (first [done|by intros; congruence]). done.
Qed.

(** Every endpoint's share of fewer than [2^63] series. *)
Lemma assigned_bound m i : 0 ≤ assigned m i ≤ Z.of_nat (size m).
Proof. unfold assigned. pose proof (map_subseteq_size _ _ (map_filter_subseteq (λ p : Z * Z, p.2 = i) m)). lia. Qed.

Lemma home_wf s r i r' : wf r → Z.of_nat (size (seriesMap r)) < two63 - 1 → HomeIndexForSeries s r = Some (i, r') →
  wf r' ∧ 0 ≤ i < n_endpoints r ∧ seriesMap r' !! s = Some i ∧ seriesMap r ⊆ seriesMap r' ∧
  er_endpoints r' = er_endpoints r ∧ inFlight r' = inFlight r ∧ wellBalanced r' = wellBalanced r ∧ er_threshold r' = er_threshold r.
Proof.
  intros Hwf Hsz. unfold HomeIndexForSeries. destruct (seriesMap r !! s) as [j|] eqn:Hs.
  { intros [= <- <-]. pose proof (wf_home _ Hwf _ _ Hs). split_and!; first [assumption|reflexivity|lia]. }
  destruct (assignments r) as [|x a] eqn:Ha; [done|]. rewrite <-Ha in *. assert (Hne : assignments r <> []) by congruence.
  cbv zeta. intros Heq. assert (i = least_assigned (assignments r) ∧ r' = set_home s i r) as [Hi ->] by (split; congruence). clear Heq.
  destruct (least_assigned_spec _ Hne) as [Hr Hmin]. rewrite <-Hi in Hr, Hmin. clear Hi.
  pose proof (wf_len _ Hwf) as Hl. rewrite Hl in Hr, Hmin. change (Z.of_nat (length (er_endpoints r))) with (n_endpoints r) in *.
  assert (Hct : ∀ j, 0 ≤ j < n_endpoints r → count_of (assignments (set_home s i r)) j =
    if decide (i = j) then count_of (assignments r) i + 1 else count_of (assignments r) j).
  { intros j Hj. cbn. rewrite count_of_alter by (rewrite ?Hl; fold (n_endpoints r); lia). destruct (decide (i = j)) as [<- |]; [|done].
    rewrite (wf_count _ Hwf) by done. pose proof (assigned_bound (seriesMap r) i). apply i64_id. unfold two63 in *. lia. }
  split_and!; [|lia|lia|apply lookup_insert_eq|by apply insert_subseteq|reflexivity..].
  split.
  - cbn. by rewrite length_alter.
  - apply (wf_flight _ Hwf).
  - intros s' j. cbn. destruct (decide (s = s')) as [<- |]; [rewrite lookup_insert_eq; intros [= <-]; done|].
    rewrite lookup_insert_ne by done. apply (wf_home _ Hwf).
  - intros j Hj. change (n_endpoints (set_home s i r)) with (n_endpoints r) in Hj. rewrite Hct by done.
    change (seriesMap (set_home s i r)) with (<[s:=i]> (seriesMap r)). rewrite assigned_insert by done.
    rewrite <-!(wf_count _ Hwf) by done. destruct (decide (i = j)) as [<- |]; done.
  - intros j k Hj Hk. change (n_endpoints (set_home s i r)) with (n_endpoints r) in *. rewrite !Hct by done.
    pose proof (wf_even _ Hwf j k Hj Hk). pose proof (Hmin k Hk). pose proof (Hmin j Hj). pose proof (wf_even _ Hwf j i Hj ltac:(lia)).
    destruct (decide (i = j)), (decide (i = k)); subst; lia.
Qed.

(** ** The router at work

    A router with the requests it has in flight.  [C] bounds the requests the benchmark runs
    at once.  A request finds its home in one step and picks in a later one; a map of [2^63]
    series does not fit a machine. *)

Definition sys : Type := EndpointRouter * list Z.

Inductive sstep (C : Z) : sys → sys → Prop :=
  | s_home s i r r' held : Z.of_nat (size (seriesMap r)) < two63 - 1 →
      HomeIndexForSeries s r = Some (i, r') → sstep C (r, held) (r', held)
  | s_pick s home r held : seriesMap r !! s = Some home → 1 < n_endpoints r → Z.of_nat (length held) < C →
      sstep C (r, held) ((acquire_at home r).2, (acquire_at home r).1 :: held)
  | s_release idx r h1 h2 : sstep C (r, h1 ++ idx :: h2) (ReleaseIndex idx r, h1 ++ h2).

Definition occ (i : Z) (l : list Z) : Z := Z.of_nat (length (filter (λ j, j = i) l)).

Lemma occ_cons i j l : occ i (j :: l) = if decide (j = i) then occ i l + 1 else occ i l.
Proof. unfold occ. rewrite filter_cons. destruct (decide (j = i)); cbn [length]; lia. Qed.
Lemma occ_app i l1 l2 : occ i (l1 ++ l2) = occ i l1 + occ i l2.
Proof. unfold occ. rewrite filter_app, length_app. lia. Qed.
Lemma occ_bound i l : 0 ≤ occ i l ≤ Z.of_nat (length l).
Proof. unfold occ. pose proof (length_filter (λ j, j = i) l). lia. Qed.

(** Pigeonhole: indices each held [L] times make that many requests. *)
Lemma occ_total L ix : NoDup ix → ∀ l, (∀ i, i ∈ ix → L ≤ occ i l) → Z.of_nat (length ix) * L ≤ Z.of_nat (length l).
Proof.
  induction 1 as [|i ix Hni _ IH]; intros l Hl; [cbn; lia|].
  assert (Hsplit : ∀ k, Z.of_nat (length k) = occ i k + Z.of_nat (length (filter (λ j, j ≠ i) k))).
  { induction k as [|j k IHk]; [done|]. rewrite occ_cons, filter_cons. cbn [length]. destruct (decide (j = i)) as [-> |].
    - rewrite decide_False by (intros Hd; by apply Hd). lia.
    - rewrite decide_True by done. cbn [length]. lia. }
  specialize (IH (filter (λ j, j ≠ i) l)). rewrite (Hsplit l). cbn [length].
  assert (Hi : L ≤ occ i l) by (apply Hl; by left).
  enough (Z.of_nat (length ix) * L ≤ Z.of_nat (length (filter (λ j, j ≠ i) l))) by lia.
  apply IH. intros j Hj. assert (j ≠ i) by congruence. replace (occ j (filter (λ j, j ≠ i) l)) with (occ j l); [apply Hl; by right|].
  unfold occ. rewrite list_filter_filter. do 2 f_equal. apply filter_ext_in. intros x _. intuition congruence.
Qed.

Record settled (r0 : EndpointRouter) (C : Z) (w : sys) : Prop := {
  st_wf : wf w.1;
  st_es : er_endpoints w.1 = er_endpoints r0;
  st_wb : wellBalanced w.1 = wellBalanced r0;
  st_th : er_threshold w.1 = er_threshold r0;
  st_held : Forall (λ i, 0 ≤ i < n_endpoints r0) w.2;
  st_len : Z.of_nat (length w.2) ≤ C;
  st_occ : ∀ i, 0 ≤ i < n_endpoints r0 → count_of (inFlight w.1) i = occ i w.2
}.

Lemma add_inflight_wf d i r : wf r → wf (add_inflight d i r).
Proof. intros [H1 H2 H3 H4 H5]. split; try done. cbn. by rewrite length_alter. Qed.

Lemma add_inflight_count d i j r : wf r → 0 ≤ i < n_endpoints r → 0 ≤ j < n_endpoints r →
  count_of (inFlight (add_inflight d i r)) j = if decide (i = j) then i64 (count_of (inFlight r) i + d) else count_of (inFlight r) j.
Proof. intros Hwf Hi Hj. cbn. rewrite count_of_alter; [done| |lia]. rewrite (wf_flight _ Hwf). done. Qed.

Lemma acquire_at_spec home r : 0 ≤ home < n_endpoints r →
  let idx := (acquire_at home r).1 in
  good_pick (n_endpoints r) home (overloaded r) idx ∧ (acquire_at home r).2 = add_inflight 1 idx r.
Proof.
  intros Hh. cbn. pose proof (pickLocked_spec (n_endpoints r) home (overloaded r) Hh) as Hg. split; [done|].
  destruct Hg as [Hr _]. by rewrite (proj2 (Z.leb_le _ _)) by lia.
Qed.

Lemma settled_step r0 C w w' : C < two63 → settled r0 C w → sstep C w w' → settled r0 C w'.
Proof.
  intros HC [Hwf Hes Hwb Hth Hheld Hlen Hocc] Hst. destruct Hst as [s i r r' held Hsz Hhome|s home r held Hs Hn Hlt|idx r h1 h2]; cbn [fst snd] in *.
  - destruct (home_wf _ _ _ _ Hwf Hsz Hhome) as (Hwf' & _ & _ & _ & He & Hf & Hb & Ht). split; cbn; try congruence; auto.
    intros j Hj. rewrite Hf. auto.
  - assert (Hne : n_endpoints r = n_endpoints r0) by (unfold n_endpoints; by rewrite Hes).
    destruct (acquire_at_spec home r) as [[Hr _] Ha]; [by eapply wf_home|]. cbn zeta in *. set (idx := (acquire_at home r).1) in *. clearbody idx.
    rewrite Ha. clear Ha. split; try done; cbn [fst snd].
    + by apply add_inflight_wf.
    + constructor; [by rewrite <-Hne|done].
    + cbn. lia.
    + intros j Hj. rewrite add_inflight_count by (by rewrite ?Hne in *). rewrite occ_cons, !Hocc by (by rewrite ?Hne in * ).
      destruct (decide (idx = j)) as [<- |]; [|done]. pose proof (occ_bound idx held). apply i64_id. unfold two63 in *. lia.
  - assert (Hne : n_endpoints r = n_endpoints r0) by (unfold n_endpoints; by rewrite Hes).
    apply Forall_app in Hheld as [Hh1 Hh2]. inversion Hh2 as [|? ? Hi Hh2']; subst. rewrite length_app in Hlen. cbn in Hlen.
    unfold ReleaseIndex, in_range. rewrite (wf_flight _ Hwf). fold (n_endpoints r). rewrite Hne.
    rewrite (proj2 (Z.leb_le _ _)), (proj2 (Z.ltb_lt _ _)) by lia. cbn [andb]. split; try done; cbn [fst snd].
    + by apply add_inflight_wf.
    + apply Forall_app. done.
    + rewrite length_app. lia.
    + intros j Hj. rewrite add_inflight_count by (by rewrite ?Hne in *). rewrite !Hocc by done. rewrite !occ_app, !occ_cons.
      destruct (decide (idx = j)) as [-> |]; [|done]. rewrite decide_True by done.
      pose proof (occ_bound j h1). pose proof (occ_bound j h2). rewrite i64_id; [lia|]. unfold two63 in *. lia.
Qed.

Lemma settled_steps r0 C w w' : C < two63 → settled r0 C w → rtc (sstep C) w w' → settled r0 C w'.
Proof. intros HC Hs Hr. induction Hr; [done|]. eauto using settled_step. Qed.

Lemma settled_new es C t : 0 ≤ C → settled (NewEndpointRouterWithFailover es C t) C (NewEndpointRouterWithFailover es C t, []).
Proof.
  intros HC. split; [apply new_wf|done|done|done|constructor|done|].
  intros i _. change (occ i ([] : list Z)) with 0. cbn [fst inFlight NewEndpointRouterWithFailover]. apply count_of_replicate.
Qed.

Lemma overload_limit_pos r : 1 ≤ overload_limit r.
Proof. unfold overload_limit. cbn zeta. destruct (Z.ltb_spec (f64_to_i64 (f64_mul (f64_of_Z (wellBalanced r)) (er_threshold r))) 1); lia. Qed.

(** ** What the router promises *)

(** A series has one home for good, and homes are spread evenly.  Whatever requests come
    and go, a home once given never changes, and two endpoints never differ by more than one
    series. *)
Theorem homes_sticky_balanced (es : list string) (C : Z) (t : float64) (w w' : sys)
  (HC : 0 <= C < two63) (Hw : rtc (sstep C) (NewEndpointRouterWithFailover es C t, []) w) (Hw' : rtc (sstep C) w w') :
  (∀ s i, seriesMap w.1 !! s = Some i → seriesMap w'.1 !! s = Some i ∧ 0 ≤ i < Z.of_nat (length es)) ∧
  (∀ i j, 0 ≤ i < Z.of_nat (length es) → 0 ≤ j < Z.of_nat (length es) → assigned (seriesMap w.1) i ≤ assigned (seriesMap w.1) j + 1).
Proof.
  destruct HC as [HC0 HC]. pose proof (settled_steps _ _ _ _ HC (settled_new es C t HC0) Hw) as Hs.
  assert (Hn : n_endpoints w.1 = Z.of_nat (length es)) by (unfold n_endpoints; by rewrite (st_es _ _ _ Hs)).
  split.
  - intros s i Hi. split; [|rewrite <-Hn; by apply (wf_home _ (st_wf _ _ _ Hs)) in Hi]. clear Hw Hn.
    induction Hw' as [w|w w1 w' Hst _ IH]; [done|]. pose proof (settled_step _ _ _ _ HC Hs Hst) as Hs1.
    apply IH; [done|]. clear IH Hs1.
    destruct Hst as [s' i' r r' held Hsz Hh|s' home r held _ _ _|idx r h1 h2]; cbn [fst] in *.
    + destruct (home_wf _ _ _ _ (st_wf _ _ _ Hs) Hsz Hh) as (_ & _ & _ & Hsub & _). by eapply lookup_weaken.
    + unfold acquire_at. cbn zeta. cbn [snd]. by destruct (0 <=? _).
    + unfold ReleaseIndex. by destruct (in_range idx r).
  - intros i j Hi Hj. rewrite <-Hn in Hi, Hj. rewrite <-!(wf_count _ (st_wf _ _ _ Hs)) by done. by apply (wf_even _ (st_wf _ _ _ Hs)).
Qed.

(** A request goes home unless home is overloaded, then to an endpoint that is not, and
    home again only when all are; it always gets an answer, in range, with that endpoint's
    counter raised in the same step. *)
Theorem request_routed (s : Z) (r : EndpointRouter)
  (Hwf : wf r) (Hn : 1 < n_endpoints r) (Hsz : Z.of_nat (size (seriesMap r)) < two63 - 1) :
  ∃ home idx r1, HomeIndexForSeries s r = Some (home, r1) ∧
    AcquireForRequest s r = Some (idx, add_inflight 1 idx r1) ∧ good_pick (n_endpoints r) home (overloaded r) idx.
Proof.
  destruct (HomeIndexForSeries s r) as [[home r1]|] eqn:Hh.
  - destruct (home_wf _ _ _ _ Hwf Hsz Hh) as (Hwf1 & Hr & _ & _ & He & Hf & Hb & Ht). exists home, (acquire_at home r1).1, r1.
    split; [done|]. assert (Hne : n_endpoints r1 = n_endpoints r) by (unfold n_endpoints; by rewrite He).
    destruct (acquire_at_spec home r1) as [Hg Ha]; [by rewrite Hne|]. cbn zeta in *. rewrite Hne in Hg. split.
    + unfold AcquireForRequest. rewrite (proj2 (Z.leb_gt _ _)) by lia. rewrite Hh. cbn [mbind option_bind].
      rewrite <-Ha. by destruct (acquire_at home r1).
    + assert (Hov : ∀ i, overloaded r1 i = overloaded r i) by (intros i; unfold overloaded, overload_limit; by rewrite Hf, Hb, Ht).
      destruct Hg as (H1 & H2 & H3 & H4). unfold good_pick. rewrite <-!Hov. split_and!; try tauto.
      * intros (i & Hi & Hoi). apply H3. exists i. by rewrite Hov.
      * intros Hall. apply H4. intros i Hi. rewrite Hov. auto.
  - exfalso. unfold HomeIndexForSeries in Hh. destruct (seriesMap r !! s); [done|]. destruct (assignments r) eqn:Ha; [|done].
    pose proof (wf_len _ Hwf) as Hl. rewrite Ha in Hl. unfold n_endpoints in Hn. rewrite <-Hl in Hn. cbn in Hn. lia.
Qed.

(** With no more requests at once than the router was built for, failover keeps every
    endpoint at most one above the limit, and the counters are exactly the requests in
    flight on each. *)
Theorem load_bounded (es : list string) (C : Z) (t : float64) (r : EndpointRouter) (held : list Z)
  (HC : 0 < C < two63) (Hlim : wellBalanced (NewEndpointRouterWithFailover es C t) ≤ overload_limit (NewEndpointRouterWithFailover es C t))
  (Hw : rtc (sstep C) (NewEndpointRouterWithFailover es C t, []) (r, held)) (i : Z) (Hi : 0 ≤ i < Z.of_nat (length es)) :
  count_of (inFlight r) i = occ i held ∧ occ i held ≤ overload_limit (NewEndpointRouterWithFailover es C t) + 1.
Proof.
  set (r0 := NewEndpointRouterWithFailover es C t) in *. destruct HC as [HC0 HC].
  assert (HCn : C < Z.of_nat (length es) * (wellBalanced r0 + 1)).
  { unfold r0. cbn [wellBalanced NewEndpointRouterWithFailover]. rewrite !(proj2 (Z.ltb_lt _ _)) by lia. cbn [andb].
    pose proof (Z.mul_succ_div_gt C (Z.of_nat (length es))). destruct (Z.ltb_spec (C / Z.of_nat (length es)) 1); nia. }
  assert (Hwb : 0 < wellBalanced r0).
  { unfold r0. cbn [wellBalanced NewEndpointRouterWithFailover]. rewrite !(proj2 (Z.ltb_lt _ _)) by lia. cbn [andb].
    destruct (Z.ltb_spec (C / Z.of_nat (length es)) 1); lia. }
  enough (Hinv : settled r0 C (r, held) ∧ ∀ j, 0 ≤ j < Z.of_nat (length es) → occ j held ≤ overload_limit r0 + 1).
  { destruct Hinv as [Hs Hb]. split; [by apply (st_occ _ _ _ Hs)|by apply Hb]. }
  change held with (r, held).2 at 2. generalize dependent (r, held). clear r held Hi i. intros w Hw.
  refine (rtc_ind_r (λ w, settled r0 C w ∧ ∀ j, 0 ≤ j < Z.of_nat (length es) → occ j w.2 ≤ overload_limit r0 + 1) _ _ _ w Hw).
  { split; [apply settled_new; lia|]. intros j _. change (occ j (r0, @nil Z).2) with 0. pose proof (overload_limit_pos r0). lia. }
  clear w Hw. intros w w' _ Hst [Hs Hb]. split; [by eapply settled_step|]. intros j Hj.
  destruct Hst as [s k r r' held _ _|s home r held Hhome Hn Hlt|idx r h1 h2]; cbn [fst snd] in *.
  - by apply Hb.
  - rewrite occ_cons. destruct (decide _) as [Heq|]; [|by apply Hb]. destruct Hs as [Hwf Hes Hb' Ht _ _ Hocc]. cbn [fst snd] in *.
    assert (Hne : n_endpoints r = Z.of_nat (length es)) by (unfold n_endpoints; by rewrite Hes).
    destruct (acquire_at_spec home r) as [Hg _]; [by eapply wf_home|]. rewrite Heq, Hne in Hg.
    destruct (overloaded r j) eqn:Hov.
    + exfalso. destruct Hg as (_ & _ & Hfree & _). assert (Hall : ∀ i, 0 ≤ i < Z.of_nat (length es) → overload_limit r0 + 1 ≤ occ i held).
      { intros i Hi. destruct (overloaded r i) eqn:Ho; [|exfalso; enough (overloaded r j = false) by congruence; apply Hfree; by exists i].
        unfold overloaded in Ho. rewrite Hb', (proj2 (Z.leb_gt _ _)) in Ho by lia. apply Z.ltb_lt in Ho.
        rewrite Hocc in Ho by done. unfold overload_limit in *. rewrite Hb', Ht in Ho. lia. }
      pose proof (occ_total (overload_limit r0 + 1) (seqZ 0 (Z.of_nat (length es))) (NoDup_seqZ _ _) held) as Hp.
      rewrite length_seqZ in Hp. specialize (Hp ltac:(intros i [Hi1 Hi2]%elem_of_seqZ; apply Hall; lia)). nia.
    + unfold overloaded in Hov. rewrite Hb', (proj2 (Z.leb_gt _ _)) in Hov by lia. apply Z.ltb_ge in Hov.
      rewrite Hocc in Hov by done. unfold overload_limit in *. rewrite Hb', Ht in Hov. lia.
  - specialize (Hb j Hj). rewrite occ_app, occ_cons in Hb. rewrite occ_app. destruct (decide _); lia.
Qed.

(** The failover choice depends on which endpoints were rejected, not on the order they
    were rejected in, and is one of the others. *)
Theorem hashPick_set (n : Z) (sk sk' : list Z) (Hperm : sk ≡ₚ sk') :
  hashPick n sk = hashPick n sk' ∧ (hashPick n sk = -1 ↔ ∀ i, 0 ≤ i < n → i ∈ sk) ∧ (hashPick n sk ≠ -1 → 0 ≤ hashPick n sk < n ∧ hashPick n sk ∉ sk).
Proof.
  assert (Hrem : remaining n sk = remaining n sk').
  { unfold remaining. apply filter_ext_in. intros i _. by rewrite Hperm. }
  assert (Hsort : merge_sort Z.le sk = merge_sort Z.le sk').
  { apply (StronglySorted_unique Z.le); [apply StronglySorted_merge_sort; apply _..|]. by rewrite !merge_sort_Permutation. }
  split; [unfold hashPick; by rewrite Hrem, Hsort|].
  destruct (hashPick_spec n sk) as [[Hr Hh]|Hin].
  - split; [|done]. split; [|done]. intros _ i Hi. destruct (decide (i ∈ sk)) as [|Hni]; [done|].
    assert (i ∈ remaining n sk) as Hir by (by apply elem_of_remaining). rewrite Hr in Hir. by apply elem_of_nil in Hir.
  - apply elem_of_remaining in Hin as [Hr Hni]. split; [|done]. split; [lia|]. intros Hall. by destruct Hni; apply Hall.
Qed.

(** ** Witnesses *)

(** A router over three endpoints for seven requests at once. *)
Definition wit_es : list string := ["a"; "b"; "c"]%string.
Definition wit_r0 : EndpointRouter := NewEndpointRouterWithFailover wit_es 7 DefaultOverloadThreshold.
Definition wit_home (s : Z) (r : EndpointRouter) : EndpointRouter := from_option snd r (HomeIndexForSeries s r).

(** Series 5 comes home to endpoint 0, then a burst of its requests spills over. *)
Definition wit_r1 : EndpointRouter := wit_home 5 wit_r0.
Definition wit_pick (w : sys) : sys := ((acquire_at 0 w.1).2, (acquire_at 0 w.1).1 :: w.2).
Definition wit_w : sys := Nat.iter 5 wit_pick (wit_r1, []).

Lemma wit_r1_reached : sstep 7 (wit_r0, []) (wit_r1, []).
Proof. apply (s_home 7 5 0); [done|]. by vm_compute. Qed.

Lemma wit_reached : rtc (sstep 7) (wit_r0, []) wit_w.
Proof.
  eapply rtc_l; [apply wit_r1_reached|]. unfold wit_w. do 5 (eapply rtc_r; [|apply (s_pick 7 5 0); by vm_compute]). apply rtc_refl.
Qed.

Lemma homes_sticky_balanced_witness : seriesMap wit_w.1 !! 5 = Some 0.
Proof.
  refine (proj1 (proj1 (homes_sticky_balanced wit_es 7 DefaultOverloadThreshold (wit_r1, []) wit_w _ _ _) 5 0 _)).
  - by vm_compute.
  - apply rtc_once, wit_r1_reached.
  - unfold wit_w. do 5 (eapply rtc_r; [|apply (s_pick 7 5 0); by vm_compute]). apply rtc_refl.
  - by vm_compute.
Defined.

Lemma request_routed_witness : ∃ home idx r1, HomeIndexForSeries 5 wit_w.1 = Some (home, r1) ∧
    AcquireForRequest 5 wit_w.1 = Some (idx, add_inflight 1 idx r1) ∧ good_pick (n_endpoints wit_w.1) home (overloaded wit_w.1) idx.
Proof.
  apply (request_routed 5 wit_w.1); [|by vm_compute..].
  apply (st_wf wit_r0 7 wit_w). apply (settled_steps _ _ (wit_r0, [])); [done|by apply settled_new|apply wit_reached].
Defined.

Lemma load_bounded_witness : count_of (inFlight wit_w.1) 0 = occ 0 wit_w.2 ∧ occ 0 wit_w.2 ≤ 3.
Proof. apply (load_bounded wit_es 7 DefaultOverloadThreshold wit_w.1 wit_w.2); [by vm_compute..|exact wit_reached|by vm_compute]. Defined.

Lemma hashPick_set_witness : hashPick 3 [0; 2] = hashPick 3 [2; 0].
Proof. apply (hashPick_set 3 [0; 2] [2; 0]). apply perm_swap. Defined.
