(* ===== verification/CapacityRetry.v ===== *)
(** * CapacityRetry: waiting out a capacity refusal

    [src/router/internal/gateway/capacity_retry.go].  The loop of [serveWithCapacityRetry] is
    one [turn] at a time; what a turn meets outside this file (the candidates, what [Serve]
    answers and how long it takes, the state of the backend's line, when its ticket is woken)
    is the turn's record, a different one each round.  Time passes in [Serve] and in the two
    selects; the calls on the backend's line (WaitQ's [Join], [Leave], [Wake]) and the
    metrics are events in a log. *)

From stdpp Require Import base gmap list strings.
From Stdlib Require Import ZArith Lia.
From S2P Require Import Prelude KvUnits Circuit WaitQ Backend Policy.
Open Scope Z_scope.

(** ** Backoff *)

Definition Millisecond : Z := 1000000.
Definition Second : Z := 1000 * Millisecond.

Definition backoffSteps : list Z :=
  [10 * Millisecond; 20 * Millisecond; 50 * Millisecond; 100 * Millisecond; 200 * Millisecond;
   500 * Millisecond; Second; 2 * Second; 3 * Second].

Definition backoff_step (n : nat) : Z :=
  if (n <? length backoffSteps)%nat then backoffSteps !!! n else backoffSteps !!! (length backoffSteps - 1)%nat.

(** [jitter] is what [rand.Int64N(step/2 + 1)] returns. *)
Definition backoffAt (n : nat) (jitter remaining : Z) : Z :=
  let step := backoff_step n in
  let d := step ÷ 2 + jitter in
  if remaining <? d then remaining else d.

(** ** Errors and results *)

Inductive serve_err :=
  | SelErr (e : sel_error)
  | ErrNodeQueueFull
  | OtherErr (what : string).

Inductive reason := ReasonSaturated | ReasonGuardBlocked.
#[export] Instance reason_eq_dec : EqDecision reason.
Proof. solve_decision. Defined.

Definition capacityReason (e : option serve_err) : option reason :=
  match e with
  | Some (SelErr e) => if is_saturated e then Some ReasonSaturated
                       else match e with ErrSplitGuardBlocked => Some ReasonGuardBlocked | _ => None end
  | _ => None
  end.
Definition isCapacityRefusal (e : option serve_err) : bool := bool_decide (capacityReason e ≠ None).

(** [proxy.Result], without the prefill rejection. *)
Record Result := MkResult {
  r_Backend : option positive;
  r_Status : Z;
  r_Attempts : Z;
  r_Err : option serve_err;
  r_Committed : bool
}.
Definition zero_result : Result := MkResult None 0 0 None false.
Definition set_Err (e : serve_err) (r : Result) : Result := MkResult (r_Backend r) (r_Status r) (r_Attempts r) (Some e) (r_Committed r).

Record RetryConfig := MkRetryConfig { RetryTimeLimit : Z; NodeQueueDepth : Z }.

(** ** Select statements

    The earliest of the channels to become ready, [timer] among them, is taken; of several
    ready at once, any ([draw]).  A channel that never becomes ready is [None]. *)
Definition select_on {A} (draw : nat) (now : Z) (timer : Z * A) (others : list (option Z * A)) : A * Z :=
  let cases := timer :: omap (λ c, (λ t, (t, c.2)) <$> c.1) others in
  let at_ := Z.max now (foldr Z.min timer.1 cases.*1) in
  let ready := filter (λ c, c.1 ≤ at_) cases in
  (default timer.2 (snd <$> ready !! (draw mod length ready)%nat), at_).

(** ** The loop *)

Inductive how := satisfied | abandoned | expired | woken_ | exhausted | retried.
#[export] Instance how_eq_dec : EqDecision how.
Proof. solve_decision. Defined.

Inductive event :=
  | EServe (cands : list positive) (served : option positive)
  | EWake (b : positive)
  | EJoin (b : positive) (depth : Z) (ok : bool)
  | ELeave (b : positive)
  | EWoken (b : positive)
  | EQueueFull (b : positive)
  | EQueueWait (h : how) (d : Z)
  | ERetries (r : reason) (h : how)
  | ERetryWait (r : reason) (h : how) (waited : Z)
  | ESleep (d : Z).

Record turn := MkTurn {
  t_cands : list positive;
  t_res : Result;
  t_serve : Z;               (* how long [Serve] takes *)
  t_join : bool;             (* [Join] finds room *)
  t_inflight : Z;            (* [Inflight] after the join *)
  t_ticket : option Z;       (* when the ticket is woken *)
  t_late : Z;                (* how late the timer fires *)
  t_jitter : Z;
  t_draw : nat
}.

Record lstate := LS {
  l_now : Z;
  attempt : nat;
  l_res : Result;
  queuedOn : option positive;
  firstRefusal : Z;
  waited : Z;
  lastReason : option reason;
  log : list event
}.

Definition set_now (t : Z) (s : lstate) := LS t (attempt s) (l_res s) (queuedOn s) (firstRefusal s) (waited s) (lastReason s) (log s).
Definition set_res (r : Result) (s : lstate) := LS (l_now s) (attempt s) r (queuedOn s) (firstRefusal s) (waited s) (lastReason s) (log s).
Definition set_queuedOn (q : option positive) (s : lstate) := LS (l_now s) (attempt s) (l_res s) q (firstRefusal s) (waited s) (lastReason s) (log s).
Definition set_waited (w : Z) (s : lstate) := LS (l_now s) (attempt s) (l_res s) (queuedOn s) (firstRefusal s) w (lastReason s) (log s).
Definition set_refusal (r : option reason) (s : lstate) :=
  LS (l_now s) (attempt s) (l_res s) (queuedOn s) (match lastReason s with None => l_now s | Some _ => firstRefusal s end) (waited s) r (log s).
Definition emit (e : event) (s : lstate) :=
  LS (l_now s) (attempt s) (l_res s) (queuedOn s) (firstRefusal s) (waited s) (lastReason s) (log s ++ [e]).
Definition next_attempt (s : lstate) := LS (l_now s) (S (attempt s)) (l_res s) (queuedOn s) (firstRefusal s) (waited s) (lastReason s) (log s).

Inductive queueOutcome := queueWoken | queueExpired | queueAbandoned | queueFull.

Definition queue_depth (cfg : RetryConfig) (limit : Z) : Z :=
  if NodeQueueDepth cfg <=? 0 then (if limit <? 1 then 1 else limit) else NodeQueueDepth cfg.

(** [gone] is when the client leaves, if it does: a context stays done. *)
Definition awaitSlot (cfg : RetryConfig) (gone : option Z) (t : turn) (b : positive) (Limit remaining : Z) (s : lstate) : queueOutcome * lstate :=
  let depth := queue_depth cfg Limit in
  let limit := if Limit <? 1 then 1 else Limit in
  let s := emit (EJoin b depth (t_join t)) s in
  if negb (t_join t) then (queueFull, emit (EQueueFull b) s)
  else if t_inflight t <? limit then (queueWoken, emit (ELeave b) s)
  else
    let start := l_now s in
    let '(o, fired) := select_on (t_draw t) start (start + remaining + t_late t, queueExpired)
                         [(t_ticket t, queueWoken); (gone, queueAbandoned)] in
    let s := set_now fired s in
    match o with
    | queueExpired => (o, emit (EQueueWait expired (fired - start)) (emit (ELeave b) s))
    | queueAbandoned => (o, emit (EQueueWait abandoned (fired - start)) (emit (ELeave b) s))
    | _ => (o, emit (EQueueWait woken_ (fired - start)) s)
    end.

Definition settle (h : how) (s : lstate) : lstate :=
  match lastReason s with None => s | Some r => emit (ERetryWait r h (waited s)) s end.

(** [errors.As(err, &sat)], where the policy named a backend. *)
Definition preferred (r : Result) : option (positive * Z) :=
  match r_Err r with
  | Some (SelErr (SaturatedError b limit)) => if r_Attempts r =? 0 then Some (b, limit) else None
  | _ => None
  end.

(** A wake whose slot was not used is handed on. *)
Definition pass_on (s : lstate) : lstate :=
  match queuedOn s with
  | None => s
  | Some b => set_queuedOn None (if bool_decide (r_Backend (l_res s) = Some b) then s else emit (EWake b) s)
  end.

(** The top of the loop: what the waiting has cost before this attempt. *)
Definition snapshot (s : lstate) : lstate :=
  match lastReason s with Some _ => set_waited (l_now s - firstRefusal s) s | None => s end.

(** The attempt. *)
Definition serve_once (t : turn) (cands : list positive) (s : lstate) : lstate :=
  pass_on (set_res (t_res t) (emit (EServe cands (r_Backend (t_res t))) (set_now (l_now s + t_serve t) s))).

(** The rest of the round, after a refusal worth waiting for: the state, and whether the
    function returned. *)
Definition wait_out (cfg : RetryConfig) (deadline : Z) (gone : option Z) (t : turn) (why : reason) (s : lstate) : lstate * bool :=
  let s := set_refusal (Some why) s in
  let remaining := deadline - l_now s in
  if remaining <=? 0 then (settle expired (emit (ERetries why exhausted) s), true)
  else
    match preferred (l_res s) with
    | Some (b, limit) =>
        let '(o, s) := awaitSlot cfg gone t b limit remaining s in
        match o with
        | queueWoken => (next_attempt (set_queuedOn (Some b) (emit (EWoken b) s)), false)
        | queueExpired => (settle expired (emit (ERetries why exhausted) s), true)
        | queueAbandoned => (settle abandoned s, true)
        | queueFull => (set_res (set_Err ErrNodeQueueFull (l_res s)) s, true)
        end
    | None =>
        let s := emit (ERetries why retried) s in
        let d := backoffAt (attempt s) (t_jitter t) remaining in
        let '(fired, at_) := select_on (t_draw t) (l_now s) (l_now s + d + t_late t, true) [(gone, false)] in
        let s := set_now at_ (emit (ESleep d) s) in
        if fired then (next_attempt s, false)
        else (settle abandoned (set_waited (l_now s - firstRefusal s) s), true)
    end.

(** One round of the loop. *)
Definition run_turn (cfg : RetryConfig) (deadline : Z) (gone : option Z) (t : turn) (s : lstate) : lstate * bool :=
  let s := snapshot s in
  match t_cands t with
  | [] => (settle abandoned s, true)
  | cands =>
      let s := serve_once t cands s in
      if (RetryTimeLimit cfg <=? 0) || negb (isCapacityRefusal (r_Err (l_res s))) || r_Committed (l_res s) then
        (settle (match r_Err (l_res s) with None => satisfied | Some _ => abandoned end) s, true)
      else
        match capacityReason (r_Err (l_res s)) with
        | None => (s, true)
        | Some why => wait_out cfg deadline gone t why s
        end
  end.

Fixpoint run_turns (fuel : nat) (cfg : RetryConfig) (deadline : Z) (gone : option Z) (world : nat → turn) (s : lstate) : option lstate :=
  match fuel with
  | O => None
  | S f =>
      let '(s, returned) := run_turn cfg deadline gone (world (attempt s)) s in
      if returned then Some s else run_turns f cfg deadline gone world s
  end.

Definition start_at (now : Z) : lstate := LS now 0 zero_result None 0 0 None [].

(** The whole call, from [now]: [None] when the fuel ran out first. *)
Definition serveWithCapacityRetry (fuel : nat) (cfg : RetryConfig) (gone : option Z) (world : nat → turn) (now : Z) : option lstate :=
  run_turns fuel cfg (now + RetryTimeLimit cfg) gone world (start_at now).

(** ** Selects *)

Lemma foldr_min_le (x : Z) l : foldr Z.min x l ≤ x ∧ ∀ y, y ∈ l → foldr Z.min x l ≤ y.
Proof.
  induction l as [|y l [IH1 IH2]]; cbn; [split; [lia|by intros y ?%elem_of_nil]|]. split; [lia|].
  intros z [-> |Hz]%elem_of_cons; [lia|]. specialize (IH2 z Hz). lia.
Qed.
Lemma foldr_min_in (x : Z) l : foldr Z.min x l = x ∨ foldr Z.min x l ∈ l.
Proof.
  induction l as [|y l [IH|IH]]; cbn; [by left|..]; rewrite elem_of_cons; destruct (Z.min_spec y (foldr Z.min x l)) as [[_ ->]|[_ ->]]; auto.
Qed.

(** What fires was ready, and nothing was ready before. *)
Lemma select_on_spec {A} draw now (timer : Z * A) others v at_ : select_on draw now timer others = (v, at_) →
  now ≤ at_ ≤ Z.max now timer.1 ∧ (∀ t w, (Some t, w) ∈ others → at_ ≤ Z.max now t) ∧
  ((v = timer.2 ∧ timer.1 ≤ at_) ∨ ∃ t, (Some t, v) ∈ others ∧ t ≤ at_).
Proof.
  unfold select_on. set (cases := timer :: _). set (m := foldr Z.min timer.1 cases.*1). cbn zeta.
  set (ready := filter _ cases). intros Heq.
  assert (Hv : default timer.2 (snd <$> ready !! (draw mod length ready)%nat) = v) by congruence.
  assert (Ha : Z.max now m = at_) by congruence. clear Heq.
  destruct (foldr_min_le timer.1 cases.*1) as [Hm1 Hm2]. fold m in Hm1, Hm2.
  assert (Hcase : ∀ t w, (Some t, w) ∈ others → (t, w) ∈ cases).
  { intros t w Hin. apply elem_of_cons. right. apply list_elem_of_omap. exists (Some t, w). done. }
  split_and!; [lia|lia| |].
  - intros t w Hin. assert (m ≤ t); [|lia]. apply Hm2. apply list_elem_of_fmap. exists (t, w). auto.
  - assert (Hne : ready ≠ []).
    { intros Hr. assert (∃ c, c ∈ cases ∧ c.1 = m) as (c & Hc & Hcm).
      { destruct (foldr_min_in timer.1 cases.*1) as [Hm|Hm]; fold m in Hm.
        - exists timer. split; [by left|done].
        - apply list_elem_of_fmap in Hm as (c & -> & Hc). eauto. }
      assert (c ∈ ready) as Hcr by (apply list_elem_of_filter; split; [lia|done]). rewrite Hr in Hcr. by apply elem_of_nil in Hcr. }
    destruct (lookup_lt_is_Some_2 ready (draw mod length ready)%nat) as [c Hc].
    { apply Nat.mod_upper_bound. by destruct ready. }
    rewrite Hc in Hv. cbn in Hv. apply list_elem_of_lookup_2, list_elem_of_filter in Hc as [Hle Hc].
    apply elem_of_cons in Hc as [-> |Hc]; [left; split; [done|lia]|]. right.
    apply list_elem_of_omap in Hc as ([o w] & Hin & Ho). destruct o as [t|]; [|done]. cbn in Ho. injection Ho as <-. cbn in *.
    exists t. subst v. split; [done|lia].
Qed.

(** ** The accounting of wakes *)

(** What a request owes the line it was woken from. *)
Inductive ledger := Idle | Owed (b : positive) | MustPass (b : positive) | Bad.
Definition ledger_step (l : ledger) (e : event) : ledger :=
  match e, l with
  | EWoken b, Idle => Owed b
  | EServe _ served, Idle => Idle
  | EServe _ served, Owed b => if bool_decide (served = Some b) then Idle else MustPass b
  | EWake b, MustPass b' => if bool_decide (b = b') then Idle else Bad
  | (EWoken _ | EServe _ _ | EWake _), _ => Bad
  | _, MustPass _ => Bad
  | _, l => l
  end.
Definition ledger_of (s : lstate) : ledger := foldl ledger_step Idle (log s).
Definition debt (q : option positive) : ledger := match q with None => Idle | Some b => Owed b end.

Lemma ledger_emit e s : ledger_of (emit e s) = ledger_step (ledger_of s) e.
Proof. unfold ledger_of. cbn. by rewrite foldl_app. Qed.
Lemma ledger_settle h s : ledger_of s = Idle ∨ (∃ b, ledger_of s = Owed b) → ledger_of (settle h s) = ledger_of s.
Proof. unfold settle. destruct (lastReason s); [|done]. rewrite ledger_emit. by intros [-> |[b ->]]. Qed.
Lemma debt_ok q : debt q = Idle ∨ ∃ b, debt q = Owed b.
Proof. destruct q; [right; by eexists|by left]. Qed.

Lemma serve_once_ledger t cands s : ledger_of s = debt (queuedOn s) →
  ledger_of (serve_once t cands s) = Idle ∧ queuedOn (serve_once t cands s) = None.
Proof.
  intros Hl. unfold serve_once. set (s1 := set_res _ _).
  assert (He : ledger_of s1 = ledger_step (debt (queuedOn s1)) (EServe cands (r_Backend (l_res s1)))).
  { change (queuedOn s1) with (queuedOn s). rewrite <-Hl. exact (ledger_emit (EServe cands (r_Backend (t_res t))) (set_now (l_now s + t_serve t) s)). }
  clearbody s1. clear Hl s. unfold pass_on. destruct (queuedOn s1) as [b|] eqn:Hq; [|by split]. cbn in He.
  destruct (bool_decide _) eqn:Eb; [by split|]. split; [|done].
  change (ledger_of (emit (EWake b) s1) = Idle). rewrite ledger_emit, He. cbn. by rewrite bool_decide_true.
Qed.

Lemma awaitSlot_frame cfg gone t b lim rem s o s' : awaitSlot cfg gone t b lim rem s = (o, s') →
  ledger_of s = Idle → ledger_of s' = Idle ∧ queuedOn s' = queuedOn s.
Proof.
  unfold awaitSlot. intros Heq Hl. destruct (negb (t_join t)).
  { injection Heq as <- <-. rewrite !ledger_emit, Hl. done. }
  destruct (_ <? _). { injection Heq as <- <-. rewrite !ledger_emit, Hl. done. }
  cbn zeta in Heq. destruct (select_on _ _ _ _) as [o' at_]. destruct o'; injection Heq as <- <-; rewrite !ledger_emit;
    change (ledger_of (set_now at_ (emit ?e s))) with (ledger_of (emit e s)); rewrite !ledger_emit, Hl; done.
Qed.

Lemma wait_out_ledger cfg dl gone t why s s' r : ledger_of s = Idle → queuedOn s = None → wait_out cfg dl gone t why s = (s', r) →
  ledger_of s' = if r then Idle else debt (queuedOn s').
Proof.
  intros Hl Hq. unfold wait_out. assert (Hl0 : ledger_of (set_refusal (Some why) s) = Idle) by done.
  assert (Hq0 : queuedOn (set_refusal (Some why) s) = None) by done. generalize dependent (set_refusal (Some why) s). clear s Hl Hq.
  intros s Hl Hq. cbn zeta. destruct (_ <=? 0).
  { intros [= <- <-]. rewrite ledger_settle; rewrite ledger_emit, Hl; auto. }
  destruct (preferred (l_res s)) as [[b lim]|].
  - destruct (awaitSlot _ _ _ _ _ _ _) as [o s1] eqn:E. apply awaitSlot_frame in E as [Hl1 Hq1]; [|done].
    destruct o; intros [= <- <-].
    + change (ledger_of (emit (EWoken b) s1) = Owed b). by rewrite ledger_emit, Hl1.
    + rewrite ledger_settle; rewrite ledger_emit, Hl1; auto.
    + rewrite ledger_settle; rewrite Hl1; auto.
    + done.
  - destruct (select_on _ _ _ _) as [fired at_].
    set (s1 := set_now at_ _). assert (Hl1 : ledger_of s1 = Idle).
    { change (ledger_of (emit (ESleep (backoffAt (attempt (emit (ERetries why retried) s)) (t_jitter t) (dl - l_now s))) (emit (ERetries why retried) s)) = Idle).
      by rewrite !ledger_emit, Hl. }
    assert (Hq1 : queuedOn s1 = None) by done. clearbody s1.
    destruct fired; intros [= <- <-].
    + change (ledger_of s1 = debt (queuedOn s1)). by rewrite Hl1, Hq1.
    + rewrite ledger_settle; change (ledger_of (set_waited ?w s1)) with (ledger_of s1); rewrite Hl1; auto.
Qed.

(** ** What a turn leaves alone, and how it moves the clock *)

Definition waits_of (l : list event) : list Z := omap (λ e, match e with ERetryWait _ _ w => Some w | _ => None end) l.
Definition sleeps_of (l : list event) : list Z := omap (λ e, match e with ESleep d => Some d | _ => None end) l.

Lemma omap_snoc {A B} (f : A → option B) l x : omap f (l ++ [x]) = omap f l ++ match f x with Some y => [y] | None => [] end.
Proof. rewrite omap_app. cbn. by destruct (f x). Qed.
Lemma waits_emit e s : waits_of (log (emit e s)) = waits_of (log s) ++ match e with ERetryWait _ _ w => [w] | _ => [] end.
Proof. cbn. unfold waits_of. rewrite omap_snoc. by destruct e. Qed.

Lemma settle_frame h s : l_now (settle h s) = l_now s ∧ attempt (settle h s) = attempt s ∧ l_res (settle h s) = l_res s ∧
  waits_of (log (settle h s)) = waits_of (log s) ++ match lastReason s with Some _ => [waited s] | None => [] end.
Proof. unfold settle. destruct (lastReason s); [by rewrite waits_emit|by rewrite app_nil_r]. Qed.

Lemma serve_once_frame t cands s : let s' := serve_once t cands s in
  l_now s' = l_now s + t_serve t ∧ attempt s' = attempt s ∧ l_res s' = t_res t ∧ firstRefusal s' = firstRefusal s ∧
  waited s' = waited s ∧ lastReason s' = lastReason s ∧ waits_of (log s') = waits_of (log s).
Proof.
  cbn zeta. unfold serve_once. set (s1 := set_res _ _).
  assert (waits_of (log s1) = waits_of (log s)) as Hw.
  { unfold s1. cbn [log set_res]. change (log (emit ?e (set_now ?t s))) with (log (emit e s)). rewrite waits_emit. by rewrite app_nil_r. }
  unfold pass_on. destruct (queuedOn s1) as [b|]; [|by rewrite Hw]. destruct (bool_decide _); [by rewrite <-Hw|].
  split_and!; try done. cbn [log set_queuedOn]. by rewrite waits_emit, app_nil_r.
Qed.

Lemma awaitSlot_time cfg gone t b lim rem s o s' : 0 ≤ rem → 0 ≤ t_late t → awaitSlot cfg gone t b lim rem s = (o, s') →
  l_now s ≤ l_now s' ≤ l_now s + rem + t_late t ∧ attempt s' = attempt s ∧ l_res s' = l_res s ∧ firstRefusal s' = firstRefusal s ∧
  waited s' = waited s ∧ lastReason s' = lastReason s ∧ waits_of (log s') = waits_of (log s).
Proof.
  intros Hr Hlate. unfold awaitSlot. destruct (negb (t_join t)).
  { intros [= <- <-]. rewrite !waits_emit, !app_nil_r. cbn. split_and!; (done || lia). }
  destruct (_ <? _). { intros [= <- <-]. rewrite !waits_emit, !app_nil_r. cbn. split_and!; (done || lia). }
  cbn zeta. destruct (select_on _ _ _ _) as [o' at_] eqn:E. apply select_on_spec in E as (Ht & _). cbn [fst l_now emit] in Ht.
  destruct o'; intros [= <- <-]; rewrite !waits_emit, !app_nil_r; change (log (set_now at_ ?x)) with (log x);
    rewrite ?waits_emit, ?app_nil_r; cbn [l_now attempt l_res firstRefusal waited lastReason emit set_now]; split_and!; (done || lia).
Qed.

(** A turn that goes round again met a refusal with time left. *)
Lemma wait_out_again cfg dl gone t why s s' : wait_out cfg dl gone t why s = (s', false) →
  attempt s' = S (attempt s) ∧ l_now s < dl ∧ l_res s' = l_res s ∧ lastReason s' = Some why.
Proof.
  unfold wait_out. cbn zeta. cbn [l_now set_refusal l_res]. destruct (Z.leb_spec (dl - l_now s) 0) as [|Hlt]; [done|].
  destruct (preferred (l_res s)) as [[b lim]|].
  - destruct (awaitSlot _ _ _ _ _ _ _) as [o s1] eqn:E. assert (attempt s1 = attempt s ∧ l_res s1 = l_res s ∧ lastReason s1 = Some why) as (Ha & Hr & Hl).
    { revert E. unfold awaitSlot. destruct (negb (t_join t)); [by intros [= <- <-]|]. destruct (_ <? _); [by intros [= <- <-]|].
      cbn zeta. destruct (select_on _ _ _ _) as [o' at_]. by destruct o'; intros [= <- <-]. }
    destruct o; intros [= <-]; cbn; [|done..]. rewrite Ha, Hr. split_and!; (done || lia).
  - destruct (select_on _ _ _ _) as [fired at_]. destruct fired; intros [= <-]. cbn. split_and!; (done || lia).
Qed.

Lemma run_turn_again cfg dl gone t s s' : run_turn cfg dl gone t s = (s', false) →
  attempt s' = S (attempt s) ∧ t_cands t ≠ [] ∧ 0 < RetryTimeLimit cfg ∧ isCapacityRefusal (r_Err (t_res t)) = true ∧ r_Committed (t_res t) = false ∧
  l_now s + t_serve t < dl ∧ l_res s' = t_res t.
Proof.
  unfold run_turn. assert (Hsn : l_now (snapshot s) = l_now s ∧ attempt (snapshot s) = attempt s) by (unfold snapshot; by destruct (lastReason s)).
  destruct Hsn as [Hn Ha]. destruct (t_cands t) as [|c cs] eqn:Hc; [done|]. cbn zeta.
  destruct (serve_once_frame t (c :: cs) (snapshot s)) as (F1 & F2 & F3 & _). set (s1 := serve_once _ _ _) in *. clearbody s1. rewrite F3.
  destruct (_ || _) eqn:E; [done|]. apply orb_false_iff in E as [E1 Hcom]. apply orb_false_iff in E1 as [E1 E2].
  apply negb_false_iff in E2. apply Z.leb_gt in E1.
  destruct (capacityReason _); [|done]. intros (A1 & A2 & A3 & _)%wait_out_again. split_and!; (done || lia || congruence).
Qed.

(** A returned turn ends with what [Serve] answered, but for an empty fleet or a full line. *)
Lemma run_turn_done cfg dl gone t s s' : 0 ≤ t_late t → run_turn cfg dl gone t s = (s', true) →
  attempt s' = attempt s ∧ (t_cands t = [] ∧ l_res s' = l_res s ∨
    t_cands t ≠ [] ∧ (l_res s' = t_res t ∨ l_res s' = set_Err ErrNodeQueueFull (t_res t))).
Proof.
  intros Hlate. unfold run_turn. assert (Hsn : l_res (snapshot s) = l_res s ∧ attempt (snapshot s) = attempt s) by (unfold snapshot; by destruct (lastReason s)).
  destruct Hsn as [Hn Ha]. destruct (t_cands t) as [|c cs] eqn:Hc; cbn zeta.
  { intros [= <-]. destruct (settle_frame abandoned (snapshot s)) as (_ & -> & -> & _). auto. }
  destruct (serve_once_frame t (c :: cs) (snapshot s)) as (_ & F2 & F3 & _). set (s1 := serve_once _ _ _) in *. clearbody s1. rewrite Ha in F2. rewrite F3.
  enough (∀ x, attempt x = attempt s1 → l_res x = l_res s1 ∨ l_res x = set_Err ErrNodeQueueFull (l_res s1) → attempt x = attempt s ∧
    (c :: cs = [] ∧ l_res x = l_res s ∨ c :: cs ≠ [] ∧ (l_res x = t_res t ∨ l_res x = set_Err ErrNodeQueueFull (t_res t)))) as Hgoal.
  2:{ intros x Hx1 Hx2. split; [congruence|]. right. split; [done|]. by rewrite <-F3. }
  assert (Hset : ∀ h x, attempt (settle h x) = attempt x ∧ l_res (settle h x) = l_res x).
  { intros h x. destruct (settle_frame h x) as (_ & ? & ? & _). done. }
  destruct (_ || _). { intros [= <-]. apply Hgoal; [apply Hset|left; apply Hset]. }
  destruct (capacityReason _) as [why|]; [|intros [= <-]; auto].
  unfold wait_out. cbn zeta. cbn [l_now set_refusal l_res]. destruct (Z.leb_spec (dl - l_now s1) 0) as [|Hlt].
  { intros [= <-]. apply Hgoal; [rewrite (proj1 (Hset _ _)); done|left; rewrite (proj2 (Hset _ _)); done]. }
  destruct (preferred (l_res s1)) as [[b lim]|].
  - destruct (awaitSlot _ _ _ _ _ _ _) as [o s2] eqn:E. apply awaitSlot_time in E as (_ & E1 & E2 & _); [|lia|done]. cbn [attempt l_res set_refusal] in E1, E2.
    destruct o; intros [= <-]; (apply Hgoal; [rewrite ?(proj1 (Hset _ _)); done|]); rewrite ?(proj2 (Hset _ _)); [by left..|right]. cbn. by rewrite E2.
  - destruct (select_on _ _ _ _) as [fired at_]. destruct fired; intros [= <-]. apply Hgoal; [rewrite (proj1 (Hset _ _)); done|left; rewrite (proj2 (Hset _ _)); done].
Qed.

(** ** Time *)

Section timing.
Context (cfg : RetryConfig) (gone : option Z) (now0 L : Z).
Let dl : Z := now0 + RetryTimeLimit cfg.

(** At the top of the loop: the waits recorded are within the budget, and so is the clock. *)
Definition timely (s : lstate) : Prop :=
  Forall (λ w, 0 ≤ w ≤ RetryTimeLimit cfg + L) (waits_of (log s)) ∧
  match lastReason s with
  | None => l_now s = now0 ∧ waited s = 0
  | Some _ => now0 ≤ firstRefusal s ≤ l_now s ∧ l_now s ≤ dl + L
  end.

(** After an attempt: the wait that a return would record. *)
Definition attempted (s : lstate) : Prop :=
  Forall (λ w, 0 ≤ w ≤ RetryTimeLimit cfg + L) (waits_of (log s)) ∧ now0 ≤ l_now s ∧
  match lastReason s with
  | None => waited s = 0
  | Some _ => now0 ≤ firstRefusal s ≤ l_now s ∧ 0 ≤ waited s ≤ RetryTimeLimit cfg + L
  end.

Definition sane (t : turn) : Prop := 0 ≤ t_serve t ∧ 0 ≤ t_late t ≤ L ∧ 0 ≤ t_jitter t.

Lemma settle_attempted h s : attempted s → Forall (λ w, 0 ≤ w ≤ RetryTimeLimit cfg + L) (waits_of (log (settle h s))).
Proof.
  intros (Hw & _ & Hm). destruct (settle_frame h s) as (_ & _ & _ & ->). apply Forall_app. split; [done|].
  destruct (lastReason s); constructor; [by apply Hm|constructor].
Qed.

Lemma emit_attempted e s : attempted s → match e with ERetryWait _ _ _ => False | _ => True end → attempted (emit e s).
Proof. intros (Hw & Hn & Hm) He. split; [|done]. rewrite waits_emit. destruct e; rewrite ?app_nil_r; done. Qed.

Lemma serve_timely t cands s : sane t → timely s → attempted (serve_once t cands (snapshot s)) ∧ l_now (serve_once t cands (snapshot s)) = l_now s + t_serve t.
Proof.
  intros (Hs & _) (Hw & Hm). destruct (serve_once_frame t cands (snapshot s)) as (F1 & F2 & _ & F4 & F5 & F6 & F7). unfold attempted.
  rewrite F1, F4, F5, F6, F7. unfold snapshot. destruct (lastReason s) eqn:E; cbn; rewrite ?E; cbn; unfold dl in *; split_and!; (done || lia).
Qed.

Lemma wait_out_timely t why s s' r : 0 < RetryTimeLimit cfg → sane t → attempted s → wait_out cfg dl gone t why s = (s', r) →
  l_now s' ≤ Z.max (l_now s) (dl + L) ∧
  if r then Forall (λ w, 0 ≤ w ≤ RetryTimeLimit cfg + L) (waits_of (log s')) else timely s'.
Proof.
  intros Hpos (_ & Hlate & Hj) (Hw & Hn & Hm). unfold wait_out.
  assert (Ha : attempted (set_refusal (Some why) s)).
  { split_and!; [done|done|]. cbn. destruct (lastReason s); cbn; [done|]. rewrite Hm. lia. }
  change (l_now s) with (l_now (set_refusal (Some why) s)). assert (Hl : lastReason (set_refusal (Some why) s) = Some why) by done.
  generalize dependent (set_refusal (Some why) s). clear s Hw Hn Hm. intros s Ha Hl.
  assert (Hnow : ∀ h x, l_now (settle h x) = l_now x) by (intros h x; by destruct (settle_frame h x) as (-> & _)).
  cbn zeta. destruct (Z.leb_spec (dl - l_now s) 0) as [|Hlt].
  { intros [= <- <-]. rewrite Hnow. cbn [l_now emit]. split; [lia|]. apply settle_attempted. by apply emit_attempted. }
  pose proof Ha as (Hw & Hn & Hm). rewrite Hl in Hm.
  destruct (preferred (l_res s)) as [[b lim]|].
  - destruct (awaitSlot _ _ _ _ _ _ _) as [o s2] eqn:E. apply awaitSlot_time in E as (E1 & _ & _ & E4 & E5 & E6 & E7); [|lia..].
    assert (Ha2 : attempted s2).
    { split_and!; [by rewrite E7|lia|]. rewrite E6, Hl, E4, E5. split; [lia|lia]. }
    destruct o; intros [= <- <-]; rewrite ?Hnow; cbn [l_now emit set_res set_queuedOn next_attempt]; (split; [lia|]).
    + split; [change (Forall (λ w, 0 ≤ w ≤ RetryTimeLimit cfg + L) (waits_of (log (emit (EWoken b) s2)))); rewrite waits_emit, app_nil_r, E7; done|].
      cbn. rewrite E6, Hl, E4. unfold dl in *. lia.
    + apply settle_attempted. by apply emit_attempted.
    + by apply settle_attempted.
    + by destruct Ha2.
  - set (s1 := emit (ERetries why retried) s). assert (Hb : backoffAt (attempt s1) (t_jitter t) (dl - l_now s) ≤ dl - l_now s).
    { unfold backoffAt. cbn zeta. destruct (Z.ltb_spec (dl - l_now s) (backoff_step (attempt s1) ÷ 2 + t_jitter t)); lia. }
    set (d := backoffAt _ _ _) in *. clearbody d.
    destruct (select_on _ _ _ _) as [fired at_] eqn:E. apply select_on_spec in E as (Ht & _). cbn [fst] in Ht. change (l_now s1) with (l_now s) in Ht.
    assert (Hlog : waits_of (log (emit (ESleep d) s1)) = waits_of (log s)) by (unfold s1; rewrite !waits_emit, !app_nil_r; done).
    destruct fired; intros [= <- <-]; rewrite ?Hnow; cbn [l_now emit set_now set_waited next_attempt]; (split; [lia|]).
    + split; [change (Forall (λ w, 0 ≤ w ≤ RetryTimeLimit cfg + L) (waits_of (log (emit (ESleep d) s1)))); rewrite Hlog; done|].
      cbn. rewrite Hl. unfold dl in *. lia.
    + apply settle_attempted. split_and!; [change (Forall (λ w, 0 ≤ w ≤ RetryTimeLimit cfg + L) (waits_of (log (emit (ESleep d) s1)))); rewrite Hlog; done|cbn; lia|].
      cbn. rewrite Hl. unfold dl in *. lia.
Qed.

Lemma run_turn_timely t s s' r : sane t → timely s → run_turn cfg dl gone t s = (s', r) →
  if r then Forall (λ w, 0 ≤ w ≤ RetryTimeLimit cfg + L) (waits_of (log s')) ∧ l_now s' ≤ Z.max now0 (dl + L) + t_serve t else timely s'.
Proof.
  intros Hsane Hti. unfold run_turn. pose proof Hsane as (Hs & _). assert (Hnow : ∀ h x, l_now (settle h x) = l_now x) by (intros h x; by destruct (settle_frame h x) as (-> & _)).
  assert (Htop : l_now s ≤ Z.max now0 (dl + L)) by (destruct Hti as [_ Hm]; destruct (lastReason s); lia).
  destruct (t_cands t) as [|c cs]; cbn zeta.
  { intros [= <- <-]. rewrite Hnow. assert (l_now (snapshot s) = l_now s) as -> by (unfold snapshot; by destruct (lastReason s)). split; [|lia].
    apply settle_attempted. destruct Hti as [Hw Hm]. unfold snapshot, attempted. destruct (lastReason s) eqn:E; cbn; rewrite E; unfold dl in *; split_and!; (done || lia). }
  destruct (serve_timely t (c :: cs) s Hsane Hti) as [Ha Hn]. set (s1 := serve_once _ _ _) in *. clearbody s1.
  destruct (_ || _) eqn:E.
  { intros [= <- <-]. rewrite Hnow. split; [by apply settle_attempted|lia]. }
  apply orb_false_iff in E as [E _]. apply orb_false_iff in E as [E%Z.leb_gt _].
  destruct (capacityReason _) as [why|]; [|intros [= <- <-]; split; [by destruct Ha|lia]].
  intros Hwo. apply wait_out_timely in Hwo as [Hle Hr]; [|done..]. destruct r; [split; [done|lia]|done].
Qed.

Lemma run_turns_timely world f : (∀ k, sane (world k)) → ∀ s s', timely s → run_turns f cfg dl gone world s = Some s' →
  Forall (λ w, 0 ≤ w ≤ RetryTimeLimit cfg + L) (waits_of (log s')) ∧ l_now s' ≤ Z.max now0 (dl + L) + t_serve (world (attempt s')).
Proof.
  intros Hsane. induction f as [|f IH]; intros s s' Hti; [done|]. cbn [run_turns].
  destruct (run_turn _ _ _ _ _) as [s1 r] eqn:E. pose proof (run_turn_timely _ _ _ _ (Hsane (attempt s)) Hti E) as Hr.
  destruct r; [|by apply IH]. intros [= <-]. apply run_turn_done in E as [-> _]; [done|]. apply Hsane.
Qed.
End timing.

(** ** The whole call *)

(** Each of the turns before the last went round again. *)
Lemma run_turns_history cfg dl gone world : (∀ k, 0 ≤ t_late (world k)) → ∀ f s s', run_turns f cfg dl gone world s = Some s' →
  (attempt s ≤ attempt s')%nat ∧
  (∀ k, (attempt s ≤ k < attempt s')%nat → t_cands (world k) ≠ [] ∧ 0 < RetryTimeLimit cfg ∧
     isCapacityRefusal (r_Err (t_res (world k))) = true ∧ r_Committed (t_res (world k)) = false) ∧
  (t_cands (world (attempt s')) = [] ∧ l_res s' = (if (attempt s <? attempt s')%nat then t_res (world (attempt s' - 1)%nat) else l_res s) ∨
   t_cands (world (attempt s')) ≠ [] ∧ (l_res s' = t_res (world (attempt s')) ∨ l_res s' = set_Err ErrNodeQueueFull (t_res (world (attempt s'))))).
Proof.
  intros Hlate. induction f as [|f IH]; intros s s'; [done|]. cbn [run_turns]. destruct (run_turn _ _ _ _ _) as [s1 r] eqn:E.
  destruct r.
  - intros [= <-]. apply run_turn_done in E as [Ha Hr]; [|done]. rewrite Ha. rewrite Nat.ltb_irrefl. split_and!; [done| |done]. lia.
  - intros Hrun. apply run_turn_again in E as (Ha & Hc & Hp & Hi & Hcom & _ & Hres). apply IH in Hrun as (H1 & H2 & H3). rewrite Ha in *.
    split_and!; [lia| |].
    + intros k Hk. destruct (decide (k = attempt s)) as [-> |]; [done|]. apply H2. lia.
    + rewrite (proj2 (Nat.ltb_lt (attempt s) _)) by lia. destruct H3 as [[H3 H4]|H3]; [left|by right]. split; [done|]. rewrite H4.
      destruct (Nat.ltb_spec (S (attempt s)) (attempt s')); [done|]. rewrite Hres. do 2 f_equal. lia.
Qed.

(** A request is sent again only when it was refused for capacity with nothing of an answer
    yet sent to the client, and only with retrying on.  What the call returns is the last
    attempt's own result, the full line's error in its place, or, once the fleet is empty, the
    refusal before. *)
Theorem retries_only_refusals (fuel : nat) (cfg : RetryConfig) (gone : option Z) (world : nat → turn) (now0 : Z) (s : lstate)
  (Hlate : ∀ k, 0 ≤ t_late (world k)) (Hrun : serveWithCapacityRetry fuel cfg gone world now0 = Some s) :
  (∀ k, (k < attempt s)%nat → t_cands (world k) ≠ [] ∧ 0 < RetryTimeLimit cfg ∧
     isCapacityRefusal (r_Err (t_res (world k))) = true ∧ r_Committed (t_res (world k)) = false) ∧
  (t_cands (world (attempt s)) = [] ∧ l_res s = (if (0 <? attempt s)%nat then t_res (world (attempt s - 1)%nat) else zero_result) ∨
   t_cands (world (attempt s)) ≠ [] ∧ (l_res s = t_res (world (attempt s)) ∨ l_res s = set_Err ErrNodeQueueFull (t_res (world (attempt s))))).
Proof.
  apply run_turns_history in Hrun as (_ & H2 & H3); [|done]. split; [|done]. intros k Hk. apply H2. cbn. lia.
Qed.

(** A round that goes on takes the time of its attempt at least. *)
Lemma run_turn_advances cfg dl gone t s s' : 1 ≤ t_serve t → 0 ≤ t_late t → 0 ≤ t_jitter t → run_turn cfg dl gone t s = (s', false) → l_now s + t_serve t ≤ l_now s'.
Proof.
  intros Htime Hlate Hjit. unfold run_turn. destruct (t_cands t) as [|c cs]; [done|]. cbn zeta.
  destruct (serve_once_frame t (c :: cs) (snapshot s)) as (F1 & _). set (s2 := serve_once _ _ _) in *. clearbody s2.
  assert (l_now (snapshot s) = l_now s) as Hsn by (unfold snapshot; by destruct (lastReason s)). rewrite Hsn in F1.
  destruct (_ || _); [done|]. destruct (capacityReason _) as [why|]; [|done]. unfold wait_out. cbn zeta. cbn [l_now set_refusal l_res].
  destruct (Z.leb_spec (dl - l_now s2) 0); [done|]. destruct (preferred _) as [[b lim]|].
  - destruct (awaitSlot _ _ _ _ _ _ _) as [o s3] eqn:E. apply awaitSlot_time in E as (E1 & _); [|lia..]. cbn [l_now set_refusal] in E1.
    destruct o; intros [= <-]. cbn. lia.
  - destruct (select_on _ _ _ _) as [fired at_] eqn:E. apply select_on_spec in E as (E & _). cbn [l_now emit set_refusal] in E.
    destruct fired; intros [= <-]. cbn. lia.
Qed.

(** The call ends.  As long as an attempt takes any time at all, one turn more than the
    budget has nanoseconds is enough, however refusals, wakes and sleeps follow each other. *)
Theorem retry_terminates (cfg : RetryConfig) (gone : option Z) (world : nat → turn) (now0 : Z)
  (Htime : ∀ k, 1 ≤ t_serve (world k)) (Hlate : ∀ k, 0 ≤ t_late (world k)) (Hjit : ∀ k, 0 ≤ t_jitter (world k)) :
  is_Some (serveWithCapacityRetry (S (Z.to_nat (RetryTimeLimit cfg))) cfg gone world now0).
Proof.
  unfold serveWithCapacityRetry.
  enough (Hgen : ∀ f s, now0 + RetryTimeLimit cfg - l_now s ≤ Z.of_nat f → is_Some (run_turns (S f) cfg (now0 + RetryTimeLimit cfg) gone world s)).
  { apply Hgen. cbn. lia. }
  induction f as [|f IH]; intros s Hf; cbn [run_turns]; destruct (run_turn _ _ _ _ _) as [s1 r] eqn:E; (destruct r; [done|]).
  - exfalso. apply run_turn_again in E as (_ & _ & _ & _ & _ & Hlt & _). specialize (Htime (attempt s)). lia.
  - apply IH. specialize (Htime (attempt s)). apply run_turn_advances in E; [lia|done|apply Hlate|apply Hjit].
Qed.

(** The waiting stays within the budget.  With timers at most [L] late, every wait the
    histogram records lies between nothing and the budget plus [L], and the last attempt
    starts no later than [L] past the deadline. *)
Theorem waits_within_budget (fuel : nat) (cfg : RetryConfig) (gone : option Z) (world : nat → turn) (now0 L : Z) (s : lstate)
  (Hsane : ∀ k, sane L (world k)) (Hrun : serveWithCapacityRetry fuel cfg gone world now0 = Some s) :
  Forall (λ w, 0 ≤ w ≤ RetryTimeLimit cfg + L) (waits_of (log s)) ∧
  l_now s ≤ Z.max now0 (now0 + RetryTimeLimit cfg + L) + t_serve (world (attempt s)).
Proof. eapply run_turns_timely; [exact Hsane| |exact Hrun]. split; [constructor|done]. Qed.


(** The backoff is between half a step and a step of the 1-2-5 ladder, but never past what
    is left of the budget, and the ladder climbs from 10 milliseconds to 3 seconds. *)
Theorem backoff_bounds (n : nat) (jitter remaining : Z) (Hj : 0 ≤ jitter ≤ backoff_step n ÷ 2) (Hr : 0 < remaining) :
  0 < backoffAt n jitter remaining ∧ Z.min (backoff_step n / 2) remaining ≤ backoffAt n jitter remaining ≤ Z.min (backoff_step n) remaining ∧
  10 * Millisecond ≤ backoff_step n ≤ backoff_step (S n) ∧ backoff_step (S n) ≤ 3 * Second.
Proof.
  assert (Hs : 10 * Millisecond ≤ backoff_step n ≤ backoff_step (S n) ∧ backoff_step (S n) ≤ 3 * Second ∧ backoff_step n = 2 * (backoff_step n ÷ 2)).
  { do 9 (destruct n as [|n]; [split_and!; by vm_compute|]). split_and!; by vm_compute. }
  destruct Hs as (Hs1 & Hs2 & Hs3). assert (Hd : backoff_step n / 2 = backoff_step n ÷ 2) by (rewrite Z.quot_div_nonneg; unfold Millisecond in *; lia).
  rewrite Hd. unfold backoffAt. cbn zeta. unfold Millisecond in *. set (h := backoff_step n ÷ 2) in *. clearbody h.
  destruct (Z.ltb_spec remaining (h + jitter)); lia.
Qed.

(** ** Witnesses, and two findings *)

Definition wit_refused (b : positive) : Result := MkResult None 429 0 (Some (SelErr (SaturatedError b 1))) false.
Definition wit_served (b : positive) : Result := MkResult (Some b) 200 1 None true.
Definition wit_cfg : RetryConfig := MkRetryConfig (10 * Second) 0.

(** Saturated on backend 1, woken after 5 ms, served by backend 2. *)
Definition wit_world (k : nat) : turn :=
  match k with
  | O => MkTurn [1; 2]%positive (wit_refused 1) 1000 true 1 (Some (5 * Millisecond)) 0 0 0
  | _ => MkTurn [1; 2]%positive (wit_served 2) 1000 true 0 None 0 0 0
  end.
Definition wit_final : lstate :=
  LS (5 * Millisecond + 1000) 1 (wit_served 2) None 1000 (5 * Millisecond - 1000) (Some ReasonSaturated)
    [EServe [1; 2]%positive None; EJoin 1 1 true; EQueueWait woken_ (5 * Millisecond - 1000); EWoken 1;
     EServe [1; 2]%positive (Some 2%positive); EWake 1; ERetryWait ReasonSaturated satisfied (5 * Millisecond - 1000)].

Lemma retries_only_refusals_witness : serveWithCapacityRetry 3 wit_cfg None wit_world 0 = Some wit_final ∧
  isCapacityRefusal (r_Err (t_res (wit_world 0))) = true.
Proof.
  split; [by vm_compute|]. refine (proj1 (proj2 (proj2 (proj1 (retries_only_refusals 3 wit_cfg None wit_world 0 wit_final _ _) 0%nat _)))).
  - by intros [|k]; vm_compute.
  - by vm_compute.
  - by vm_compute; constructor.
Defined.

Lemma retry_terminates_witness : is_Some (serveWithCapacityRetry 11 (MkRetryConfig 10 0) None wit_world 0).
Proof. apply (retry_terminates (MkRetryConfig 10 0)); by intros [|k]; vm_compute. Defined.

Lemma waits_within_budget_witness : l_now wit_final ≤ Z.max 0 (0 + 10 * Second + 0) + 1000.
Proof.
  refine (proj2 (waits_within_budget 3 wit_cfg None wit_world 0 0 wit_final _ _)).
  - by intros [|k]; vm_compute.
  - by vm_compute.
Defined.


Lemma backoff_bounds_witness : 0 < backoffAt 3 (20 * Millisecond) Second.
Proof. apply (backoff_bounds 3 (20 * Millisecond) Second); by vm_compute. Defined.

(** A request woken from the line returns without handing the wake on when the fleet is empty
    by then: the next in line is not woken by the slot that is free. *)
Definition lost_world (k : nat) : turn :=
  match k with
  | O => MkTurn [1]%positive (wit_refused 1) 1000 true 1 (Some (5 * Millisecond)) 0 0 0
  | _ => MkTurn [] zero_result 1000 true 0 None 0 0 0
  end.
Lemma wake_lost : ledger_of <$> serveWithCapacityRetry 3 wit_cfg None lost_world 0 = Some (Owed 1%positive).
Proof. by vm_compute. Qed.

(** A request that waits in the line until its budget is gone is recorded as not having waited. *)
Lemma queue_wait_unrecorded :
  (λ s, (l_now s, waits_of (log s))) <$>
    serveWithCapacityRetry 3 wit_cfg None (λ _, MkTurn [1]%positive (wit_refused 1) 1000 true 1 None 0 0 0) 0 = Some (10 * Second, [0]).
Proof. by vm_compute. Qed.
