(* ===== verification/KvTrie.v ===== *)
(** * KvTrie: one cache's model

    The trie of [src/kvcache/kvcache.go].  A [*node] is a location: the fields that make the
    tree are in one map, the intrusive LRU links of the same location in another, so the
    list's operations are functions of the list alone.  [&t.root] is the location [root].  A
    node no longer linked keeps its fields, as an object still pointed to by a [Pin] does. *)

From stdpp Require Import base gmap sets list.
From Stdlib Require Import ZArith Lia.
From Corelib Require Import SpecFloat.
From S2P Require Import Prelude KvUnits.
Open Scope Z_scope.

Abbreviation loc := positive.

(** ** The LRU list *)

Record link := Link { prev : option loc; next : option loc; inLRU : bool }.
#[export] Instance link_inhabited : Inhabited link := populate (Link None None false).

Record lru := Lru { head : option loc; tail : option loc; links : gmap loc link }.
Definition empty_lru : lru := Lru None None ∅.

Definition in_lru (u : lru) (n : loc) : bool := inLRU (links u !!! n).

(** [n.prev = p], [n.next = p] where [n] may be nil. *)
Definition set_prev (n : option loc) (p : option loc) (m : gmap loc link) : gmap loc link :=
  match n with Some n => <[n := Link p (next (m !!! n)) (inLRU (m !!! n))]> m | None => m end.
Definition set_next (n : option loc) (p : option loc) (m : gmap loc link) : gmap loc link :=
  match n with Some n => <[n := Link (prev (m !!! n)) p (inLRU (m !!! n))]> m | None => m end.

Definition lruPushFront (n : loc) (u : lru) : lru :=
  let m := <[n := Link None (head u) true]> (links u) in
  let m := set_prev (head u) (Some n) m in
  Lru (Some n) (match tail u with None => Some n | t => t end) m.

Definition lruPushBack (n : loc) (u : lru) : lru :=
  let m := <[n := Link (tail u) None true]> (links u) in
  let m := set_next (tail u) (Some n) m in
  Lru (match head u with None => Some n | h => h end) (Some n) m.

Definition lruRemove (n : loc) (u : lru) : lru :=
  let k := links u !!! n in
  if negb (inLRU k) then u
  else
    let hd := match prev k with Some _ => head u | None => next k end in
    let m := set_next (prev k) (next k) (links u) in
    let tl := match next k with Some _ => tail u | None => prev k end in
    let m := set_prev (next k) (prev k) m in
    Lru hd tl (<[n := Link None None false]> m).

Definition lruMoveToFront (n : loc) (u : lru) : lru :=
  if bool_decide (head u = Some n) then u else lruPushFront n (lruRemove n u).

(** ** The tree *)

Record node := Node { key : Z; ntokens : Z; parent : option loc; kids : list loc; pins : Z }.
#[export] Instance node_inhabited : Inhabited node := populate (Node 0 0 None [] 0).

Abbreviation root := 1%positive.
Abbreviation tree := (gmap loc node).

Definition keys (h : tree) (n : loc) : list Z := (λ c, key (h !!! c)) <$> kids (h !!! n).

Definition find (h : tree) (n : loc) (k : Z) : option loc :=
  let i := lower_bound (keys h n) k in
  match kids (h !!! n) !! i with
  | Some c => if key (h !!! c) =? k then Some c else None
  | None => None
  end.

Definition set_kids (ks : list loc) (x : node) : node := Node (key x) (ntokens x) (parent x) ks (pins x).
Definition set_pins (p : Z) (x : node) : node := Node (key x) (ntokens x) (parent x) (kids x) p.

Definition addKid (n c : loc) (h : tree) : tree :=
  <[n := set_kids (insert_at (lower_bound (keys h n) (key (h !!! c))) c (kids (h !!! n))) (h !!! n)]> h.

(** The first child of that key, if any. *)
Definition removeKid (n : loc) (k : Z) (h : tree) : tree :=
  match list_find (λ c, key (h !!! c) = k) (kids (h !!! n)) with
  | Some (i, _) => <[n := set_kids (delete i (kids (h !!! n))) (h !!! n)]> h
  | None => h
  end.

(** ** The trie *)

Record Config := MkConfig { MaxNodes : Z; MaxTokens : Z; EvictBudget : Z }.
Definition Bounded (c : Config) : bool := (0 <? MaxNodes c) || (0 <? MaxTokens c).
Definition RouterConfig : Config := MkConfig 100000 2000000 64.

(** The counters are sums of 32-bit counts over the nodes a machine can hold. *)
Record Trie := MkTrie {
  cfg : Config;
  heap : tree;
  order : lru;
  nodes : Z;
  tokens : Z;
  anomalies : Z;
  pinnedNodes : Z;
  obsCached : Z;
  obsTotal : Z;
  fresh : loc
}.

Definition New (c : Config) : Trie :=
  let c := if Bounded c && (EvictBudget c <=? 0) then MkConfig (MaxNodes c) (MaxTokens c) 64 else c in
  MkTrie c {[root := inhabitant]} empty_lru 0 0 0 0 0 0 2.

Definition set_heap (h : tree) (t : Trie) : Trie :=
  MkTrie (cfg t) h (order t) (nodes t) (tokens t) (anomalies t) (pinnedNodes t) (obsCached t) (obsTotal t) (fresh t).
Definition on_lru (f : lru → lru) (t : Trie) : Trie :=
  MkTrie (cfg t) (heap t) (f (order t)) (nodes t) (tokens t) (anomalies t) (pinnedNodes t) (obsCached t) (obsTotal t) (fresh t).
Definition add_size (dn dt : Z) (t : Trie) : Trie :=
  MkTrie (cfg t) (heap t) (order t) (nodes t + dn) (tokens t + dt) (anomalies t) (pinnedNodes t) (obsCached t) (obsTotal t) (fresh t).
Definition add_anomaly (t : Trie) : Trie :=
  MkTrie (cfg t) (heap t) (order t) (nodes t) (tokens t) (anomalies t + 1) (pinnedNodes t) (obsCached t) (obsTotal t) (fresh t).
Definition add_pinned (d : Z) (t : Trie) : Trie :=
  MkTrie (cfg t) (heap t) (order t) (nodes t) (tokens t) (anomalies t) (pinnedNodes t + d) (obsCached t) (obsTotal t) (fresh t).
Definition set_fresh (x : loc) (t : Trie) : Trie :=
  MkTrie (cfg t) (heap t) (order t) (nodes t) (tokens t) (anomalies t) (pinnedNodes t) (obsCached t) (obsTotal t) x.

(** The walk of the matched prefix: the last node reached, the tokens credited, the units
    left over. *)
Fixpoint walk (h : tree) (n : loc) (units : list Unit_) (cached : Z) : loc * Z * list Unit_ :=
  match units with
  | [] => (n, cached, [])
  | u :: us => match find h n (Hash u) with
               | None => (n, cached, units)
               | Some c => walk h c us (cached + Tokens u)
               end
  end.

Definition Query (t : Trie) (units : list Unit_) : Z * Z :=
  match units with
  | [] => (0, 0)
  | _ => let '(_, cached, _) := walk (heap t) root units 0 in (cached, sum_tokens units)
  end.

(** ** Eviction *)

Definition overBudget (t : Trie) : bool :=
  ((0 <? MaxNodes (cfg t)) && (MaxNodes (cfg t) <? nodes t)) ||
  ((0 <? MaxTokens (cfg t)) && (MaxTokens (cfg t) <? tokens t)).

(** The body of the loop, on the tail [v]: a childless node always has a parent. *)
Definition evict_one (v p : loc) (t : Trie) : Trie :=
  let t := set_heap (removeKid p (key (heap t !!! v)) (heap t)) t in
  let t := on_lru (lruRemove v) t in
  let t := add_size (-1) (- ntokens (heap t !!! v)) t in
  if bool_decide (p ≠ root ∧ kids (heap t !!! p) = [] ∧ pins (heap t !!! p) = 0) then on_lru (lruPushBack p) t else t.

Fixpoint evictLocked (budget : nat) (t : Trie) : Trie :=
  match budget with
  | O => t
  | S b =>
      if overBudget t then
        match tail (order t) with
        | None => t
        | Some v =>
            if bool_decide (kids (heap t !!! v) ≠ []) then add_anomaly t
            else match parent (heap t !!! v) with
                 | None => t   (* a nil dereference: only the root has no parent *)
                 | Some p => evictLocked b (evict_one v p t)
                 end
        end
      else t
  end.

(** ** Insertion *)

Definition insertLocked (p : loc) (u : Unit_) (t : Trie) : loc * Trie :=
  let t := if bool_decide (p ≠ root) && in_lru (order t) p then on_lru (lruRemove p) t else t in
  let c := fresh t in
  let t := set_fresh (Pos.succ c) (set_heap (<[c := Node (Hash u) (Tokens u) (Some p) [] 0]> (heap t)) t) in
  let t := set_heap (addKid p c (heap t)) t in
  (c, add_size 1 (Tokens u) (on_lru (lruPushFront c) t)).

Fixpoint insert_all (n : loc) (units : list Unit_) (t : Trie) : loc * Trie :=
  match units with
  | [] => (n, t)
  | u :: us => let '(n, t) := insertLocked n u t in insert_all n us t
  end.

Definition evict_after (inserted : nat) (t : Trie) : Trie :=
  if Bounded (cfg t) then evictLocked (inserted + Z.to_nat (EvictBudget (cfg t))) t else t.

(** [insertFrom], on the units left over. *)
Definition insertFrom (n : loc) (units : list Unit_) (t : Trie) : loc * Trie :=
  let '(n, t) := insert_all n units t in (n, evict_after (length units) t).

Definition Commit (units : list Unit_) (t : Trie) : Trie :=
  match units with
  | [] => t
  | _ =>
      let '(n, _, rest) := walk (heap t) root units 0 in
      let t := if bool_decide (n ≠ root) && in_lru (order t) n then on_lru (lruMoveToFront n) t else t in
      (insertFrom n rest t).2
  end.

Definition RecordAndCount (units : list Unit_) (t : Trie) : Z * Z * Trie :=
  match units with
  | [] => (0, 0, t)
  | _ => let '(n, cached, rest) := walk (heap t) root units 0 in
         (cached, sum_tokens units, (insertFrom n rest t).2)
  end.

(** ** Pins *)

Definition pin_one (n : loc) (t : Trie) : Trie :=
  let t := if pins (heap t !!! n) =? 0
           then add_pinned 1 (if in_lru (order t) n then on_lru (lruRemove n) t else t) else t in
  set_heap (<[n := set_pins (pins (heap t !!! n) + 1) (heap t !!! n)]> (heap t)) t.

Definition unpin_one (n : loc) (t : Trie) : Trie :=
  if pins (heap t !!! n) =? 0 then t
  else
    let t := set_heap (<[n := set_pins (pins (heap t !!! n) - 1) (heap t !!! n)]> (heap t)) t in
    if pins (heap t !!! n) =? 0 then
      let t := add_pinned (-1) t in
      if bool_decide (kids (heap t !!! n) = []) then on_lru (lruPushFront n) t else t
    else t.

(** [for n := leaf; n != nil && n != &t.root; n = n.parent]: parents are older than their
    children, so the location itself is fuel enough. *)
Fixpoint chain_loop (fuel : nat) (h : tree) (n : option loc) : list loc :=
  match fuel, n with
  | S f, Some n => if bool_decide (n = root) then [] else n :: chain_loop f h (parent (h !!! n))
  | _, _ => []
  end.
Definition chain (h : tree) (leaf : loc) : list loc := chain_loop (Pos.to_nat leaf) h (Some leaf).

Definition pinChain (leaf : loc) (t : Trie) : Trie := foldl (λ t n, pin_one n t) t (chain (heap t) leaf).
Definition unpinChain (leaf : loc) (t : Trie) : Trie := foldl (λ t n, unpin_one n t) t (chain (heap t) leaf).

(** A [Pin] is its leaf, or nil for an empty request. *)
Definition RecordAndPin (units : list Unit_) (t : Trie) : Z * Z * option loc * Trie :=
  match units with
  | [] => (0, 0, None, t)
  | _ => let '(n, cached, rest) := walk (heap t) root units 0 in
         let '(leaf, t) := insertFrom n rest t in
         (cached, sum_tokens units, Some leaf, pinChain leaf t)
  end.

Definition Unpin (p : option loc) (t : Trie) : Trie :=
  match p with
  | None => t
  | Some leaf => let t := unpinChain leaf t in
                 if Bounded (cfg t) then evictLocked (Z.to_nat (EvictBudget (cfg t))) t else t
  end.

(** ** The rest *)

Record Chain := MkChain { Hashes : list Z; ch_Tokens : list Z }.

(** The recursion of [Chains], depth first; children are younger than their parents. *)
Fixpoint chains_walk (fuel : nat) (h : tree) (n : loc) (hashes toks : list Z) : list Chain :=
  match fuel with
  | O => []
  | S f =>
      match kids (h !!! n) with
      | [] => if bool_decide (n = root) then [] else [MkChain hashes toks]
      | cs => mjoin ((λ c, chains_walk f h c (hashes ++ [key (h !!! c)]) (toks ++ [ntokens (h !!! c)])) <$> cs)
      end
  end.
Definition Chains (limit : Z) (t : Trie) : list Chain * Z :=
  let all := chains_walk (Pos.to_nat (fresh t)) (heap t) root [] [] in
  (if limit <=? 0 then all else take (Z.to_nat limit) all, Z.of_nat (length all)).

Definition Observe (cached total : Z) (t : Trie) : Trie :=
  if total <=? 0 then t
  else MkTrie (cfg t) (heap t) (order t) (nodes t) (tokens t) (anomalies t) (pinnedNodes t) (obsCached t + cached) (obsTotal t + total) (fresh t).

Definition ratio (t : Trie) : float64 :=
  if obsTotal t <=? 0 then S754_zero false else f64_div (f64_of_Z (obsCached t)) (f64_of_Z (obsTotal t)).

Definition Reset (t : Trie) : Trie :=
  MkTrie (cfg t) (<[root := inhabitant]> (heap t)) (Lru None None (links (order t))) 0 0 (anomalies t) (pinnedNodes t) (obsCached t) (obsTotal t) (fresh t).

Definition Stats (t : Trie) : Z * Z * Z := (nodes t, tokens t, anomalies t).
Definition PinnedNodes (t : Trie) : Z := pinnedNodes t.

(** ** The estimator over raw content *)

Section estimator.
Context (sha256 : bytes → bytes).

Record Estimator := MkEstimator { est_trie : Trie; chunkBytes : Z }.

Definition NewEstimator (chunkBytes : Z) (c : Config) : Estimator :=
  MkEstimator (New c) (if chunkBytes <=? 0 then DefaultChunkBytes else chunkBytes).

(** The tag ["chunk"]. *)
Definition chunk_tag : bytes := [99; 104; 117; 110; 107].

Definition est_Observe (content : bytes) (e : Estimator) : float64 * Estimator :=
  let units := ChunkContent sha256 chunk_tag content (chunkBytes e) in
  let '(cached, total, t) := RecordAndCount units (est_trie e) in
  let e := MkEstimator (Observe cached total t) (chunkBytes e) in
  (if total <=? 0 then S754_zero false else f64_div (f64_of_Z cached) (f64_of_Z total), e).

Definition est_Insert (content : bytes) (e : Estimator) : Estimator :=
  MkEstimator (RecordAndCount (ChunkContent sha256 chunk_tag content (chunkBytes e)) (est_trie e)).2 (chunkBytes e).

Definition est_Ratio (e : Estimator) : float64 := ratio (est_trie e).
Definition est_Nodes (e : Estimator) : Z := (Stats (est_trie e)).1.1.
End estimator.

(** ** Keys as text *)

Definition hexchar (d : Z) : Z := if d <? 10 then 48 + d else 97 + (d - 10).
Definition PutUint64 (h : Z) : bytes := (λ i, Z.shiftr h (56 - 8 * i) mod 256) <$> seqZ 0 8.
(** [hex.EncodeToString] of the eight bytes. *)
Definition HexHash (h : Z) : bytes := mjoin ((λ b, [hexchar (Z.shiftr b 4); hexchar (Z.land b 15)]) <$> PutUint64 h).
