(* ===== verification/KvLru.v ===== *)
(** * KvLru: the intrusive list is a list

    The links of [KvTrie] represent a list of locations, and each operation of the list is
    the obvious one. *)

From stdpp Require Import base gmap sets list.
From Stdlib Require Import ZArith Lia.
From S2P Require Import Prelude KvUnits KvTrie.
Open Scope Z_scope.

(** The list [L], most recently used first. *)
Record dll (u : lru) (L : list loc) : Prop := {
  dll_head : head u = list.head L;
  dll_tail : tail u = last L;
  dll_nodup : NoDup L;
  dll_link : ∀ L1 n L2, L = L1 ++ n :: L2 → links u !!! n = Link (last L1) (list.head L2) true
}.

Lemma dll_empty m : dll (Lru None None m) [].
Proof. split; [done..|constructor|]. by intros [|] ? ?. Qed.

Lemma links_prev m n p l : n ≠ Some l → set_prev n p m !!! l = m !!! l.
Proof. destruct n as [n|]; [|done]. cbn. intros Hl. apply lookup_total_insert_ne. congruence. Qed.
Lemma links_next m n p l : n ≠ Some l → set_next n p m !!! l = m !!! l.
Proof. destruct n as [n|]; [|done]. cbn. intros Hl. apply lookup_total_insert_ne. congruence. Qed.
Lemma links_prev_eq m p l : set_prev (Some l) p m !!! l = Link p (next (m !!! l)) (inLRU (m !!! l)).
Proof. cbn. by rewrite lookup_total_insert_eq. Qed.
Lemma links_next_eq m p l : set_next (Some l) p m !!! l = Link (prev (m !!! l)) p (inLRU (m !!! l)).
Proof. cbn. by rewrite lookup_total_insert_eq. Qed.

(** A location occurs once. *)
Lemma nodup_split (L1 L2 K1 K2 : list loc) x : NoDup (L1 ++ x :: L2) → L1 ++ x :: L2 = K1 ++ x :: K2 → L1 = K1 ∧ L2 = K2.
Proof.
  intros Hnd Heq. destruct (app_eq_inv _ _ _ _ Heq) as [(k & -> & Hk)|(k & -> & Hk)].
  - destruct k as [|y k]; [by rewrite app_nil_r; injection Hk as ->|]. injection Hk as <- ->.
    exfalso. rewrite <-app_assoc in Hnd. apply NoDup_app in Hnd as (_ & _ & Hnd). cbn in Hnd. apply NoDup_cons in Hnd as [Hnd _].
    apply Hnd. rewrite elem_of_app, elem_of_cons. tauto.
  - destruct k as [|y k]; [by rewrite app_nil_r; injection Hk as ->|]. injection Hk as <- ->.
    exfalso. apply NoDup_app in Hnd as (_ & _ & Hnd). apply NoDup_cons in Hnd as [Hnd _].
    apply Hnd. rewrite elem_of_app, elem_of_cons. tauto.
Qed.

Lemma last_head_ne (L1 L2 : list loc) x : NoDup (L1 ++ x :: L2) → last L1 ≠ Some x ∧ list.head L2 ≠ Some x ∧ x ∉ L1 ∧ x ∉ L2.
Proof.
  intros (_ & Hd & Hc)%NoDup_app. apply NoDup_cons in Hc as [Hc _].
  assert (x ∉ L1) by (intros Hx; apply (Hd x Hx); by left). split_and!; try done.
  - intros [L ->]%last_Some. rewrite elem_of_app, elem_of_cons in *. tauto.
  - intros [L ->]%head_Some. rewrite elem_of_cons in *. tauto.
Qed.

Lemma lruPushFront_spec n u L : dll u L → n ∉ L → dll (lruPushFront n u) (n :: L).
Proof.
  intros [Hh Ht Hnd Hl] Hn. split.
  - done.
  - cbn. rewrite Ht. destruct L as [|x L]; [done|]. by rewrite (last_cons n).
  - by constructor.
  - intros L1 x L2 HL. cbn. rewrite Hh. destruct L1 as [|y L1]; cbn in HL; injection HL as <- ->.
    + rewrite links_prev by (intros He%head_Some_elem_of; done). by rewrite lookup_total_insert_eq.
    + destruct L1 as [|z L1]; cbn [app list.head] in *.
      * rewrite links_prev_eq, lookup_total_insert_ne by (intros ->; apply Hn; by left). rewrite (Hl [] x L2) by done. done.
      * pose proof (last_head_ne (z :: L1) L2 x Hnd) as (_ & _ & Hx & _). rewrite elem_of_cons in Hx.
        rewrite links_prev by (intros [= ->]; tauto). rewrite lookup_total_insert_ne by (intros ->; apply Hn; right; apply elem_of_app; right; by left).
        rewrite (Hl (z :: L1) x L2) by done. done.
Qed.

Lemma lruPushBack_spec n u L : dll u L → n ∉ L → dll (lruPushBack n u) (L ++ [n]).
Proof.
  intros [Hh Ht Hnd Hl] Hn. split.
  - cbn. rewrite Hh. by destruct L.
  - cbn. by rewrite last_snoc.
  - apply NoDup_app. split_and!; [done| |apply NoDup_singleton]. by intros x Hx ->%list_elem_of_singleton.
  - intros L1 x L2 HL. cbn. rewrite Ht. destruct L2 as [|y L2 _] using rev_ind.
    + apply app_inj_tail in HL as [-> ->]. rewrite links_next by (intros He%last_Some_elem_of; done). by rewrite lookup_total_insert_eq.
    + rewrite app_comm_cons, app_assoc in HL. apply app_inj_tail in HL as [-> ->].
      assert (x ≠ y) by (intros ->; apply Hn; apply elem_of_app; right; by left).
      destruct L2 as [|z L2 _] using rev_ind.
      * rewrite last_snoc, links_next_eq, lookup_total_insert_ne by done. rewrite (Hl L1 x []) by done. done.
      * rewrite app_comm_cons, app_assoc, last_snoc. pose proof (last_head_ne _ _ _ Hnd) as (_ & _ & _ & Hx).
        rewrite elem_of_app, list_elem_of_singleton in Hx. rewrite links_next by (intros [= ->]; tauto).
        rewrite lookup_total_insert_ne by done. rewrite (Hl L1 x (L2 ++ [z])) by done. by rewrite !head_app_cons || (destruct L2; done).
Qed.

Lemma lruRemove_spec n u A B : dll u (A ++ n :: B) → dll (lruRemove n u) (A ++ B) ∧ in_lru (lruRemove n u) n = false.
Proof.
  intros [Hh Ht Hnd Hl]. pose proof (last_head_ne _ _ _ Hnd) as (HA & HB & HnA & HnB).
  unfold lruRemove. rewrite (Hl A n B) by done. cbn [inLRU negb prev next]. split.
  2:{ unfold in_lru. cbn. by rewrite lookup_total_insert_eq. }
  apply NoDup_app in Hnd as (HndA & Hdis & HndB). apply NoDup_cons in HndB as [_ HndB]. split.
  - cbn. rewrite Hh. destruct A as [|a A]; [done|]. by destruct (last (a :: A)) eqn:E; [|apply last_None in E].
  - cbn. destruct B as [|b B]; [by rewrite app_nil_r|]. cbn [list.head]. by rewrite Ht, !last_app_cons.
  - apply NoDup_app. split_and!; [done| |done]. intros x HxA HxB. apply (Hdis x HxA). by right.
  - intros L1 x L2 HL. cbn.
    assert (Hx : x ∈ A ∨ x ∈ B) by (rewrite <-elem_of_app, HL; apply elem_of_app; right; by left).
    rewrite lookup_total_insert_ne by (intros ->; tauto).
    destruct (app_eq_inv _ _ _ _ HL) as [(k & -> & Hk)|(k & -> & ->)].
    + (* x in A, or just after it *)
      destruct k as [|y k].
      * (* L1 = A, x :: L2 = B *) cbn in Hk. subst B. rewrite app_nil_r in *. cbn [list.head]. rewrite links_prev_eq.
        rewrite links_next by (intros He%last_Some_elem_of; apply (Hdis x); [done|by right; left]).
        rewrite (Hl (L1 ++ [n]) x L2) by (by rewrite <-app_assoc). done.
      * injection Hk as <- ->. assert (HxB : x ∉ B) by (intros HxB; apply (Hdis x); [apply elem_of_app; right; by left|by right]).
        rewrite links_prev by (intros He%head_Some_elem_of; done).
        destruct k as [|z k _] using rev_ind.
        -- rewrite last_snoc, links_next_eq. rewrite (Hl L1 x (n :: B)) by (by rewrite <-app_assoc). done.
        -- rewrite app_comm_cons, app_assoc, last_snoc. assert (x ≠ z).
           { intros ->. apply NoDup_app in HndA as (_ & _ & HndA). apply NoDup_cons in HndA as [HndA _]. apply HndA. apply elem_of_app. right. by left. }
           rewrite links_next by congruence. rewrite (Hl L1 x ((k ++ [z]) ++ n :: B)) by (by rewrite <-app_assoc). f_equal. by destruct k.
    + (* x in B, past its head or at it *)
      destruct k as [|y k].
      * rewrite app_nil_r in *. cbn [app list.head]. rewrite links_prev_eq.
        rewrite links_next by (intros He%last_Some_elem_of; apply (Hdis x); [done|by right; left]).
        rewrite (Hl (A ++ [n]) x L2) by (by rewrite <-app_assoc). done.
      * cbn [app list.head]. assert (x ≠ y).
        { intros ->. cbn in HndB. apply NoDup_cons in HndB as [HndB _]. apply HndB. apply elem_of_app. right. by left. }
        rewrite links_prev by congruence.
        rewrite links_next by (intros He%last_Some_elem_of; apply (Hdis x); [done|by right; apply elem_of_app; right; left]).
        rewrite (Hl (A ++ n :: y :: k) x L2) by (by rewrite <-app_assoc). f_equal. by rewrite !last_app_cons, last_cons_cons || (rewrite !last_app; done).
Qed.

Lemma dll_in u L n : dll u L → n ∈ L → in_lru u n = true.
Proof. intros Hd (L1 & L2 & ->)%list_elem_of_split. unfold in_lru. by rewrite (dll_link _ _ Hd L1 n L2). Qed.

Lemma lruRemove_in n u L : dll u L → n ∈ L → ∃ L', dll (lruRemove n u) L' ∧ (∀ x, x ∈ L' ↔ x ∈ L ∧ x ≠ n) ∧ in_lru (lruRemove n u) n = false.
Proof.
  intros Hd (A & B & ->)%list_elem_of_split. destruct (lruRemove_spec _ _ _ _ Hd) as [Hr Hin]. exists (A ++ B). split_and!; [done| |done].
  pose proof (last_head_ne _ _ _ (dll_nodup _ _ Hd)) as (_ & _ & HA & HB). intros x. rewrite !elem_of_app, elem_of_cons.
  split; [intros [H|H]; (split; [tauto|congruence])|]. tauto.
Qed.

Lemma lruMoveToFront_spec n u L : dll u L → n ∈ L → ∃ L', dll (lruMoveToFront n u) (n :: L') ∧ ∀ x, x ∈ n :: L' ↔ x ∈ L.
Proof.
  intros Hd Hn. unfold lruMoveToFront. case_bool_decide as Hh.
  - rewrite (dll_head _ _ Hd) in Hh. apply head_Some in Hh as [L' ->]. by exists L'.
  - destruct (lruRemove_in _ _ _ Hd Hn) as (L' & Hd' & HL' & _). exists L'. split.
    + apply lruPushFront_spec; [done|]. rewrite HL'. tauto.
    + intros x. rewrite elem_of_cons, HL'. destruct (decide (x = n)) as [-> |]; tauto.
Qed.

(** ** Links elsewhere are untouched *)

Lemma push_front_other n u x : x ≠ n → in_lru (lruPushFront n u) x = in_lru u x.
Proof.
  intros Hx. unfold in_lru, lruPushFront, set_prev. cbn. destruct (head u) as [h|]; [|by rewrite lookup_total_insert_ne].
  destruct (decide (x = h)) as [-> |]; [rewrite lookup_total_insert_eq; cbn|rewrite lookup_total_insert_ne by done]; by rewrite lookup_total_insert_ne.
Qed.
Lemma push_back_other n u x : x ≠ n → in_lru (lruPushBack n u) x = in_lru u x.
Proof.
  intros Hx. unfold in_lru, lruPushBack, set_next. cbn. destruct (tail u) as [h|]; [|by rewrite lookup_total_insert_ne].
  destruct (decide (x = h)) as [-> |]; [rewrite lookup_total_insert_eq; cbn|rewrite lookup_total_insert_ne by done]; by rewrite lookup_total_insert_ne.
Qed.
Lemma remove_other n u x : x ≠ n → in_lru (lruRemove n u) x = in_lru u x.
Proof.
  intros Hx. unfold in_lru, lruRemove. cbn zeta. destruct (negb _); [done|]. cbn. rewrite lookup_total_insert_ne by done.
  assert (H1 : ∀ k p m, inLRU (set_prev k p m !!! x) = inLRU (m !!! x)).
  { intros [k|] p m; [|done]. cbn. destruct (decide (x = k)) as [-> |]; [by rewrite lookup_total_insert_eq|by rewrite lookup_total_insert_ne]. }
  assert (H2 : ∀ k p m, inLRU (set_next k p m !!! x) = inLRU (m !!! x)).
  { intros [k|] p m; [|done]. cbn. destruct (decide (x = k)) as [-> |]; [by rewrite lookup_total_insert_eq|by rewrite lookup_total_insert_ne]. }
  by rewrite H1, H2.
Qed.
