(* ===== verification/KvTrieWf.v ===== *)
(** * KvTrieWf: the trie's invariant

    Which locations are linked in ([D]), that they form a tree with sorted children, that the
    LRU list is exactly the unpinned leaves, that the counters count; and that insertion,
    eviction, pinning and unpinning keep all of it. *)

From stdpp Require Import base gmap sets list sorting.
From Stdlib Require Import ZArith Lia.
From S2P Require Import Prelude KvUnits KvTrie KvLru.
Open Scope Z_scope.

(** ** Sums over a set of locations *)

Definition total (f : loc → Z) (D : gset loc) : Z := foldr (λ l a, f l + a) 0 (elements D).

Lemma total_add f D l : l ∉ D → total f ({[l]} ∪ D) = f l + total f D.
Proof.
  intros Hl. unfold total. rewrite (foldr_permutation eq (λ l a, f l + a) 0 _ (l :: elements D)); [done|..].
  - intros. lia.
  - by apply elements_union_singleton.
Qed.
Lemma total_remove f D l : l ∈ D → total f D = f l + total f (D ∖ {[l]}).
Proof. intros Hl. rewrite <-total_add by set_solver. f_equal. apply set_eq. intros x. destruct (decide (x = l)); set_solver. Qed.
Lemma total_ext f g D : (∀ l, l ∈ D → f l = g l) → total f D = total g D.
Proof.
  intros Hfg. unfold total. assert (Hall : ∀ l, l ∈ elements D → f l = g l) by (intros l Hl; apply Hfg; by apply elem_of_elements).
  induction (elements D) as [|l ls IH]; [done|]. cbn. rewrite Hall by (by left). f_equal. apply IH. intros x Hx. apply Hall. by right.
Qed.
Lemma total_change f g D l : l ∈ D → (∀ x, x ∈ D → x ≠ l → f x = g x) → total g D = total f D + (g l - f l).
Proof.
  intros Hl Hfg. rewrite (total_remove f D l Hl), (total_remove g D l Hl).
  rewrite (total_ext g f (D ∖ {[l]})); [lia|]. intros x Hx. symmetry. apply Hfg; set_solver.
Qed.

(** ** Trees *)

Record shape (h : tree) (D : gset loc) (fr : loc) : Prop := {
  sh_root : root ∈ D;
  sh_lt : ∀ l, l ∈ D → (l < fr)%positive;
  sh_kid : ∀ l c, l ∈ D → c ∈ kids (h !!! l) → c ∈ D ∧ (l < c)%positive ∧ parent (h !!! c) = Some l;
  sh_parent : ∀ c, c ∈ D → c ≠ root → ∃ p, p ∈ D ∧ parent (h !!! c) = Some p ∧ c ∈ kids (h !!! p);
  sh_sorted : ∀ l, l ∈ D → StronglySorted Z.lt (keys h l)
}.

Lemma find_spec h D fr n k c : shape h D fr → n ∈ D → find h n k = Some c ↔ c ∈ kids (h !!! n) ∧ key (h !!! c) = k.
Proof.
  intros Hsh Hn. pose proof (sh_sorted _ _ _ Hsh n Hn) as Hs. unfold find. split.
  - destruct (kids (h !!! n) !! _) as [x|] eqn:E; [|done]. destruct (Z.eqb_spec (key (h !!! x)) k); [|done]. intros [= <-].
    split; [by eapply list_elem_of_lookup_2|done].
  - intros [(i & Hi)%list_elem_of_lookup Hk]. rewrite (lower_bound_hit (keys h n) k i); [|done|].
    + rewrite Hi. by rewrite (proj2 (Z.eqb_eq _ _)).
    + unfold keys. rewrite list_lookup_fmap, Hi. cbn. by rewrite Hk.
Qed.
Lemma find_none h D fr n k : shape h D fr → n ∈ D → find h n k = None ↔ k ∉ keys h n.
Proof.
  intros Hsh Hn. rewrite eq_None_not_Some. apply not_iff_compat. split.
  - intros [c Hc]. apply (find_spec _ _ _ _ _ _ Hsh Hn) in Hc as [Hc <-]. by apply (list_elem_of_fmap_2 (λ c, key (h !!! c))).
  - intros (c & -> & Hc)%list_elem_of_fmap. exists c. by apply (find_spec _ _ _ _ _ _ Hsh Hn).
Qed.

Lemma kids_nodup h D fr n : shape h D fr → n ∈ D → NoDup (kids (h !!! n)).
Proof. intros Hsh Hn. eapply NoDup_fmap_1. eapply sorted_NoDup. apply (sh_sorted _ _ _ Hsh n Hn). Qed.

(** ** Paths *)

Fixpoint descend (h : tree) (n : loc) (ks : list Z) : option loc :=
  match ks with
  | [] => Some n
  | k :: ks => match find h n k with Some c => descend h c ks | None => None end
  end.

Lemma descend_snoc h n ks k : descend h n (ks ++ [k]) = match descend h n ks with Some m => find h m k | None => None end.
Proof.
  revert n. induction ks as [|x ks IH]; intros n; cbn; [by destruct (find h n k)|]. destruct (find h n x); [apply IH|done].
Qed.
Lemma descend_app h n ks ks' : descend h n (ks ++ ks') = match descend h n ks with Some m => descend h m ks' | None => None end.
Proof. revert n. induction ks as [|x ks IH]; intros n; cbn; [done|]. destruct (find h n x); [apply IH|done]. Qed.

Lemma descend_in h D fr n ks l : shape h D fr → n ∈ D → descend h n ks = Some l → l ∈ D.
Proof.
  intros Hsh. revert n. induction ks as [|k ks IH]; intros n Hn; cbn; [by intros [= <-]|].
  destruct (find h n k) as [c|] eqn:E; [|done]. apply (find_spec _ _ _ _ _ _ Hsh Hn) in E as [Hc _]. apply IH. by eapply sh_kid.
Qed.

(** Each linked location has one path. *)
Lemma descend_inj h D fr ks : shape h D fr → ∀ ks' l, descend h root ks = Some l → descend h root ks' = Some l → ks = ks'.
Proof.
  intros Hsh. induction ks as [|k ks IH] using rev_ind; intros ks' l Hl Hl'.
  - injection Hl as <-. destruct ks' as [|k' ks' _] using rev_ind; [done|]. rewrite descend_snoc in Hl'.
    destruct (descend h root ks') as [m|] eqn:E; [|done]. pose proof (descend_in _ _ _ _ _ _ Hsh (sh_root _ _ _ Hsh) E) as Hm.
    apply (find_spec _ _ _ _ _ _ Hsh Hm) in Hl' as [Hc _]. apply (sh_kid _ _ _ Hsh m _ Hm) in Hc as (_ & Hlt & _). lia.
  - rewrite descend_snoc in Hl. destruct (descend h root ks) as [m|] eqn:E; [|done].
    pose proof (descend_in _ _ _ _ _ _ Hsh (sh_root _ _ _ Hsh) E) as Hm. apply (find_spec _ _ _ _ _ _ Hsh Hm) in Hl as [Hc Hk].
    apply (sh_kid _ _ _ Hsh m _ Hm) in Hc as (_ & Hlt & Hp).
    destruct ks' as [|k' ks' _] using rev_ind; [injection Hl' as <-; lia|]. rewrite descend_snoc in Hl'.
    destruct (descend h root ks') as [m'|] eqn:E'; [|done]. pose proof (descend_in _ _ _ _ _ _ Hsh (sh_root _ _ _ Hsh) E') as Hm'.
    apply (find_spec _ _ _ _ _ _ Hsh Hm') in Hl' as [Hc' Hk']. apply (sh_kid _ _ _ Hsh m' _ Hm') in Hc' as (_ & _ & Hp').
    assert (m' = m) as -> by congruence. f_equal; [by eapply IH|congruence].
Qed.

(** What the walk does: it follows the longest held prefix. *)
Lemma walk_spec h n units : ∀ c m c' rest, walk h n units c = (m, c', rest) →
  ∃ done_, units = done_ ++ rest ∧ descend h n (Hash <$> done_) = Some m ∧ c' = c + sum_tokens done_ ∧
    match rest with [] => True | u :: _ => find h m (Hash u) = None end.
Proof.
  revert n. induction units as [|u us IH]; intros n c m c' rest; cbn.
  { intros [= <- <- <-]. exists []. cbn. split_and!; (done || lia). }
  destruct (find h n (Hash u)) as [k|] eqn:E.
  - intros (done_ & -> & Hd & -> & Hr)%IH. exists (u :: done_). cbn. rewrite E. split_and!; [done|exact Hd|unfold sum_tokens; lia|done].
  - intros [= <- <- <-]. exists []. cbn. split_and!; (done || lia).
Qed.

(** ** Chains of ancestors *)

Lemma chain_loop_fuel h D fr : shape h D fr → ∀ f g l, l ∈ D → (Pos.to_nat l ≤ f)%nat → (Pos.to_nat l ≤ g)%nat →
  chain_loop f h (Some l) = chain_loop g h (Some l).
Proof.
  intros Hsh. induction f as [|f IH]; intros g l Hl Hf Hg; [lia|]. destruct g as [|g]; [lia|]. cbn. case_bool_decide; [done|]. f_equal.
  destruct (sh_parent _ _ _ Hsh l Hl) as (p & Hp & -> & Hc); [done|]. apply (sh_kid _ _ _ Hsh p _ Hp) in Hc as (_ & Hlt & _).
  apply IH; [done|lia..].
Qed.
Lemma chain_root h : chain h root = [].
Proof. done. Qed.
Lemma chain_step h D fr l p : shape h D fr → l ∈ D → l ≠ root → parent (h !!! l) = Some p → chain h l = l :: chain h p.
Proof.
  intros Hsh Hl Hne Hp. unfold chain. destruct (Pos.to_nat l) as [|f] eqn:E; [lia|]. cbn. rewrite bool_decide_false by done. f_equal. rewrite Hp.
  destruct (sh_parent _ _ _ Hsh l Hl Hne) as (p' & Hp' & Hpp & Hc). assert (p' = p) as -> by congruence.
  apply (sh_kid _ _ _ Hsh p _ Hp') in Hc as (_ & Hlt & _). eapply chain_loop_fuel; [done|done|lia..].
Qed.

(** Induction towards the root. *)
Lemma up_ind h D fr (Q : loc → Prop) : shape h D fr → Q root →
  (∀ l p, l ∈ D → l ≠ root → p ∈ D → (p < l)%positive → parent (h !!! l) = Some p → l ∈ kids (h !!! p) → Q p → Q l) → ∀ l, l ∈ D → Q l.
Proof.
  intros Hsh Hr Hs l. induction l as [l IH] using (well_founded_induction (well_founded_ltof _ Pos.to_nat)). intros Hl.
  destruct (decide (l = root)) as [-> |Hne]; [done|]. destruct (sh_parent _ _ _ Hsh l Hl Hne) as (p & Hp & Hpp & Hc).
  pose proof (sh_kid _ _ _ Hsh p _ Hp Hc) as (_ & Hlt & _). eapply Hs; eauto. apply IH; [unfold ltof; lia|done].
Qed.

Lemma kv_chain_in h D fr l : shape h D fr → l ∈ D → NoDup (chain h l) ∧ ∀ x, x ∈ chain h l → x ∈ D ∧ x ≠ root ∧ (x ≤ l)%positive.
Proof.
  intros Hsh. revert l. refine (up_ind h D fr _ Hsh _ _).
  { rewrite chain_root. split; [constructor|]. by intros x ?%elem_of_nil. }
  intros l p Hl Hne Hp Hlt Hpp _ [IH1 IH2]. rewrite (chain_step _ _ _ _ _ Hsh Hl Hne Hpp). split.
  - constructor; [|done]. intros Hx. apply IH2 in Hx as (_ & _ & Hle). lia.
  - intros x [-> |Hx]%elem_of_cons; [split_and!; (done || lia)|]. destruct (IH2 x Hx) as (? & ? & ?). split_and!; (done || lia).
Qed.

Lemma chain_ext h h' D fr fr' l : shape h D fr → shape h' D fr' → (∀ x, x ∈ D → parent (h' !!! x) = parent (h !!! x)) → l ∈ D → chain h' l = chain h l.
Proof.
  intros Hsh Hsh' Heq. revert l. refine (up_ind h D fr _ Hsh _ _); [done|].
  intros l p Hl Hne Hp Hlt Hpp _ IH. rewrite (chain_step _ _ _ _ _ Hsh Hl Hne Hpp). rewrite (chain_step h' D fr' l p); [by rewrite IH|done..|]. by rewrite Heq.
Qed.

(** ** The invariant *)

Record core (t : Trie) (D : gset loc) (L : list loc) : Prop := {
  co_shape : shape (heap t) D (fresh t);
  co_dll : dll (order t) L;
  co_L : ∀ l, l ∈ L ↔ l ∈ D ∧ l ≠ root ∧ kids (heap t !!! l) = [] ∧ pins (heap t !!! l) = 0;
  co_out : ∀ l, l ∈ D ∨ (fresh t ≤ l)%positive → l ∉ L → in_lru (order t) l = false;
  co_nodes : nodes t = Z.of_nat (size D) - 1;
  co_tokens : tokens t = total (λ l, ntokens (heap t !!! l)) (D ∖ {[root]});
  co_pins : ∀ l, l ∈ D → 0 ≤ pins (heap t !!! l);
  co_pinned : pinnedNodes t = total (λ l, if pins (heap t !!! l) =? 0 then 0 else 1) (D ∖ {[root]});
  co_anom : anomalies t = 0
}.

Lemma co_L_in_lru t D L l : core t D L → l ∈ D → in_lru (order t) l = bool_decide (l ∈ L).
Proof.
  intros Hc Hl. case_bool_decide as Hin; [exact (dll_in _ _ _ (co_dll _ _ _ Hc) Hin)|]. apply (co_out _ _ _ Hc); auto.
Qed.
Lemma co_L_sub t D L l : core t D L → l ∈ L → l ∈ D.
Proof. intros Hc Hl. apply (co_L _ _ _ Hc) in Hl. tauto. Qed.

(** A new trie: the root alone. *)
Lemma core_new c : core (New c) {[root]} [].
Proof.
  assert (Hr : ({[root := inhabitant]} : tree) !!! root = inhabitant) by apply lookup_total_singleton_eq.
  assert (Hd : ({[root]} : gset loc) ∖ {[root]} = ∅) by set_solver.
  split; cbn [heap order nodes tokens pinnedNodes anomalies fresh New].
  - split.
    + by apply elem_of_singleton.
    + by intros l ->%elem_of_singleton.
    + intros l k ->%elem_of_singleton. rewrite Hr. by intros ?%elem_of_nil.
    + by intros l ->%elem_of_singleton.
    + intros l ->%elem_of_singleton. unfold keys. rewrite Hr. constructor.
  - apply dll_empty.
  - intros l. rewrite elem_of_singleton, elem_of_nil. tauto.
  - intros l _ _. unfold in_lru. cbn. by rewrite lookup_total_empty.
  - by rewrite size_singleton.
  - by rewrite Hd.
  - intros l ->%elem_of_singleton. by rewrite Hr.
  - by rewrite Hd.
  - done.
Qed.

(** ** Changes of the list alone *)

Lemma core_touch t D L n : core t D L → n ∈ L → ∃ L', core (on_lru (lruMoveToFront n) t) D L'.
Proof.
  intros Hc Hn. destruct (lruMoveToFront_spec n (order t) L) as (L' & Hd & HL); [apply Hc|done|]. exists (n :: L').
  destruct Hc as [H1 H2 H3 H4 H5 H6 H7 H8 H9]. split; try done; cbn.
  - intros l. by rewrite HL.
  - intros l Hl Hni. rewrite HL in Hni. unfold lruMoveToFront. case_bool_decide; [by apply H4|].
    rewrite push_front_other, remove_other by congruence. by apply H4.
Qed.

(** ** Insertion *)

Section insert.
Context (t : Trie) (D : gset loc) (L : list loc) (p : loc) (u : Unit_).
Context (Hc : core t D L) (Hp : p ∈ D) (Hfind : find (heap t) p (Hash u) = None).
Let c : loc := fresh t.
Let h1 : tree := <[c := Node (Hash u) (Tokens u) (Some p) [] 0]> (heap t).
Let h' : tree := addKid p c h1.

Lemma ins_fresh l : l ∈ D → l ≠ c.
Proof. intros Hl ->. apply (sh_lt _ _ _ (co_shape _ _ _ Hc)) in Hl. lia. Qed.
Lemma ins_old l : l ∈ D → l ≠ p → h' !!! l = heap t !!! l.
Proof. intros Hl Hne. unfold h', addKid. rewrite lookup_total_insert_ne by done. apply lookup_total_insert_ne. apply not_eq_sym, ins_fresh, Hl. Qed.
Lemma ins_p1 : h1 !!! p = heap t !!! p.
Proof. apply lookup_total_insert_ne. apply not_eq_sym, ins_fresh, Hp. Qed.
Lemma ins_c1 : h1 !!! c = Node (Hash u) (Tokens u) (Some p) [] 0.
Proof. apply lookup_total_insert_eq. Qed.
Lemma ins_c : h' !!! c = Node (Hash u) (Tokens u) (Some p) [] 0.
Proof. unfold h', addKid. rewrite lookup_total_insert_ne by (by apply ins_fresh). apply ins_c1. Qed.
Lemma ins_keys1 l : l ∈ D → (λ x, key (h1 !!! x)) <$> kids (heap t !!! l) = keys (heap t) l.
Proof.
  intros Hl. apply list_fmap_ext. intros i x Hx. f_equal. apply lookup_total_insert_ne. apply not_eq_sym, ins_fresh.
  eapply (sh_kid _ _ _ (co_shape _ _ _ Hc) l); [done|by eapply list_elem_of_lookup_2].
Qed.
Lemma ins_p : h' !!! p = set_kids (insert_at (lower_bound (keys (heap t) p) (Hash u)) c (kids (heap t !!! p))) (heap t !!! p).
Proof.
  unfold h', addKid. rewrite lookup_total_insert_eq. unfold keys at 1. rewrite ins_p1, ins_c1. by rewrite (ins_keys1 p Hp).
Qed.
Lemma ins_same l : l ∈ D → key (h' !!! l) = key (heap t !!! l) ∧ ntokens (h' !!! l) = ntokens (heap t !!! l) ∧
  parent (h' !!! l) = parent (heap t !!! l) ∧ pins (h' !!! l) = pins (heap t !!! l).
Proof. intros Hl. destruct (decide (l = p)) as [-> |]; [by rewrite ins_p|by rewrite ins_old]. Qed.
Lemma ins_kids l x : l ∈ D → x ∈ kids (h' !!! l) ↔ (l = p ∧ x = c) ∨ x ∈ kids (heap t !!! l).
Proof.
  intros Hl. destruct (decide (l = p)) as [-> |]; [rewrite ins_p; cbn; rewrite elem_of_insert_at; tauto|]. rewrite ins_old by done. tauto.
Qed.

Lemma ins_shape : shape h' ({[c]} ∪ D) (Pos.succ c).
Proof.
  pose proof (co_shape _ _ _ Hc) as Hsh. split.
  - apply elem_of_union. right. apply Hsh.
  - intros l [->%elem_of_singleton|Hl]%elem_of_union; [lia|]. apply (sh_lt _ _ _ Hsh) in Hl. unfold c. lia.
  - intros l x [->%elem_of_singleton|Hl]%elem_of_union; [rewrite ins_c; by intros ?%elem_of_nil|]. rewrite (ins_kids l x Hl).
    intros [[-> ->]|Hx].
    + rewrite ins_c. split_and!; [apply elem_of_union; left; by apply elem_of_singleton|apply (sh_lt _ _ _ Hsh), Hp|done].
    + destruct (sh_kid _ _ _ Hsh l x Hl Hx) as (H1 & H2 & H3). destruct (ins_same x H1) as (_ & _ & -> & _).
      split_and!; [by apply elem_of_union; right|done|done].
  - intros x [->%elem_of_singleton|Hx]%elem_of_union Hne.
    + exists p. rewrite ins_c. split_and!; [by apply elem_of_union; right|done|]. rewrite (ins_kids p c Hp). by left.
    + destruct (sh_parent _ _ _ Hsh x Hx Hne) as (q & Hq & Hpq & Hk). exists q. destruct (ins_same x Hx) as (_ & _ & -> & _).
      split_and!; [by apply elem_of_union; right|done|]. rewrite (ins_kids q x Hq). by right.
  - intros l [->%elem_of_singleton|Hl]%elem_of_union; [unfold keys; rewrite ins_c; constructor|].
    assert (Hk : (λ x, key (h' !!! x)) <$> kids (heap t !!! l) = keys (heap t) l).
    { apply list_fmap_ext. intros i x Hx. apply ins_same. eapply (sh_kid _ _ _ Hsh l); [done|by eapply list_elem_of_lookup_2]. }
    destruct (decide (l = p)) as [-> |Hne].
    + unfold keys. rewrite ins_p. cbn [kids set_kids]. rewrite insert_at_fmap, Hk, ins_c. cbn [key]. apply insert_at_sorted; [by apply Hsh|].
      by apply (find_none _ _ _ _ _ Hsh Hp).
    + unfold keys. rewrite ins_old by done. rewrite Hk. by apply Hsh.
Qed.

Lemma ins_find n k : n ∈ D → find h' n k = if decide (n = p ∧ k = Hash u) then Some c else find (heap t) n k.
Proof.
  intros Hn. pose proof (co_shape _ _ _ Hc) as Hsh. pose proof ins_shape as Hsh'.
  assert (Hn' : n ∈ {[c]} ∪ D) by (apply elem_of_union; by right). destruct (decide _) as [[-> ->]|Hnot].
  - apply (find_spec _ _ _ _ _ _ Hsh' Hn'). rewrite (ins_kids p c Hp), ins_c. auto.
  - apply option_eq. intros x. rewrite (find_spec _ _ _ _ _ _ Hsh' Hn'), (find_spec _ _ _ _ _ _ Hsh Hn), (ins_kids n x Hn). split.
    + intros [[[-> ->]|Hx] Hk]; [rewrite ins_c in Hk; cbn in Hk; subst k; tauto|]. split; [done|].
      pose proof (sh_kid _ _ _ Hsh n x Hn Hx) as (Hxd & _). by destruct (ins_same x Hxd) as (<- & _).
    + intros [Hx Hk]. pose proof (sh_kid _ _ _ Hsh n x Hn Hx) as (Hxd & _). destruct (ins_same x Hxd) as (-> & _). auto.
Qed.

Lemma ins_find_new k : find h' c k = None.
Proof. unfold find. by rewrite ins_c. Qed.

Lemma ins_core : ∃ L', core (insertLocked p u t).2 ({[c]} ∪ D) L'.
Proof.
  pose proof (co_shape _ _ _ Hc) as Hsh. pose proof (ins_fresh) as Hfr.
  set (u0 := if bool_decide (p ≠ root) && in_lru (order t) p then lruRemove p (order t) else order t).
  assert (HL1 : ∃ L1, dll u0 L1 ∧ (∀ x, x ∈ L1 ↔ x ∈ L ∧ x ≠ p) ∧ in_lru u0 p = false ∧ ∀ x, x ≠ p → in_lru u0 x = in_lru (order t) x).
  { unfold u0. rewrite (co_L_in_lru _ _ _ _ Hc Hp). destruct (decide (p ∈ L)) as [Hin|Hnin].
    - pose proof (proj1 (co_L _ _ _ Hc p) Hin) as (_ & Hpr & _). rewrite !bool_decide_true by done. cbn.
      destruct (lruRemove_in p (order t) L (co_dll _ _ _ Hc) Hin) as (L1 & H1 & H2 & H3). exists L1. split_and!; try done.
      intros x Hx. by apply remove_other.
    - rewrite (bool_decide_false (p ∈ L)), andb_false_r by done. exists L. split_and!; [apply Hc| |by apply (co_out _ _ _ Hc); auto|done].
      intros x. split; [intros Hx; split; [done|congruence]|tauto]. }
  destruct HL1 as (L1 & Hd1 & HL1 & Hp1 & Ho1). exists (c :: L1).
  assert (Hc1 : c ∉ L1) by (rewrite HL1; intros [Hx _]; apply (co_L_sub _ _ _ _ Hc) in Hx; by apply Hfr in Hx).
  assert (Heap : heap (insertLocked p u t).2 = h' ∧ order (insertLocked p u t).2 = lruPushFront c u0 ∧ fresh (insertLocked p u t).2 = Pos.succ c ∧
    nodes (insertLocked p u t).2 = nodes t + 1 ∧ tokens (insertLocked p u t).2 = tokens t + Tokens u ∧
    pinnedNodes (insertLocked p u t).2 = pinnedNodes t ∧ anomalies (insertLocked p u t).2 = anomalies t).
  { unfold insertLocked, h', h1, c, u0. by destruct (bool_decide (p ≠ root) && in_lru (order t) p). }
  destruct Heap as (E1 & E2 & E3 & E4 & E5 & E6 & E7). clearbody u0.
  assert (Hdiff : ({[c]} ∪ D) ∖ {[root]} = {[c]} ∪ (D ∖ {[root]})).
  { assert (c ≠ root) by (apply not_eq_sym, Hfr, Hsh). set_solver. }
  assert (Hcd : c ∉ D) by (intros Hx; by apply Hfr in Hx).
  assert (Hcd' : c ∉ D ∖ {[root]}) by set_solver.
  split; rewrite ?E1, ?E2, ?E3, ?E4, ?E5, ?E6, ?E7.
  - apply ins_shape.
  - by apply lruPushFront_spec.
  - intros l. rewrite elem_of_cons, HL1, elem_of_union, elem_of_singleton, (co_L _ _ _ Hc). split.
    + intros [-> |[(H1 & H2 & H3 & H4) Hne]].
      * rewrite ins_c. split_and!; auto. apply not_eq_sym, Hfr, Hsh.
      * rewrite ins_old by done. auto.
    + intros [[-> |Hl] (Hr & Hk & Hpi)]; [by left|]. right. destruct (decide (l = p)) as [-> |Hne].
      * exfalso. assert (c ∈ kids (h' !!! p)) as Hx by (apply (ins_kids p c Hp); by left). rewrite Hk in Hx. by apply elem_of_nil in Hx.
      * rewrite ins_old in Hk, Hpi by done. auto.
  - intros l Hl Hni. rewrite elem_of_cons, HL1 in Hni. rewrite push_front_other by tauto.
    destruct (decide (l = p)) as [-> |Hne]; [done|]. rewrite Ho1 by done. apply (co_out _ _ _ Hc); [|tauto].
    destruct Hl as [[->%elem_of_singleton|Hl]%elem_of_union|Hl]; [tauto|by left|right; unfold c in Hl; lia].
  - rewrite size_union by set_solver. rewrite size_singleton, (co_nodes _ _ _ Hc). lia.
  - rewrite Hdiff, total_add by done. rewrite ins_c, (co_tokens _ _ _ Hc). cbn [ntokens].
    rewrite (total_ext (λ l, ntokens (h' !!! l)) (λ l, ntokens (heap t !!! l))); [lia|]. intros l Hl. apply ins_same. set_solver.
  - intros l [->%elem_of_singleton|Hl]%elem_of_union; [by rewrite ins_c|]. destruct (ins_same l Hl) as (_ & _ & _ & ->). by apply (co_pins _ _ _ Hc).
  - rewrite Hdiff, total_add by done. rewrite ins_c, (co_pinned _ _ _ Hc). cbn [pins Z.eqb].
    rewrite (total_ext (λ l, if pins (h' !!! l) =? 0 then 0 else 1) (λ l, if pins (heap t !!! l) =? 0 then 0 else 1)); [lia|]. intros l Hl.
    destruct (ins_same l) as (_ & _ & _ & ->); [set_solver|done].
  - apply Hc.
Qed.
End insert.

(** ** Eviction *)

Section evict.
Context (t : Trie) (D : gset loc) (L0 : list loc) (v p : loc).
Context (Hc : core t D (L0 ++ [v])) (Hpv : parent (heap t !!! v) = Some p).
Let h : tree := heap t.
Let h' : tree := removeKid p (key (h !!! v)) h.

Lemma ev_pv : parent (h !!! v) = Some p.
Proof. exact Hpv. Qed.
Lemma ev_v : v ∈ D ∧ v ≠ root ∧ kids (h !!! v) = [] ∧ pins (h !!! v) = 0.
Proof. apply (co_L _ _ _ Hc). apply elem_of_app. right. by left. Qed.
Lemma ev_p : p ∈ D ∧ v ∈ kids (h !!! p) ∧ p ≠ v.
Proof.
  destruct ev_v as (Hv & Hr & Hk & _). destruct (sh_parent _ _ _ (co_shape _ _ _ Hc) v Hv Hr) as (q & Hq & Hpq & Hkq).
  assert (q = p) as -> by congruence. split_and!; [done|done|]. intros ->. unfold h in Hk. rewrite Hk in Hkq. by apply elem_of_nil in Hkq.
Qed.
Lemma ev_remove : ∃ i, kids (h !!! p) !! i = Some v ∧ h' = <[p := set_kids (delete i (kids (h !!! p))) (h !!! p)]> h.
Proof.
  destruct ev_p as (Hp & Hk & _). unfold h', removeKid. destruct (list_find _ _) as [[i x]|] eqn:E.
  - apply list_find_Some in E as (Hi & Hx & _). exists i. split; [|done]. rewrite Hi. f_equal.
    apply list_elem_of_lookup_2 in Hi. assert (Hsh : shape h D (fresh t)) by apply Hc.
    assert (Some x = Some v); [|congruence]. transitivity (find h p (key (h !!! v))); [symmetry|]; by apply (find_spec _ _ _ _ _ _ Hsh Hp).
  - exfalso. apply list_find_None in E. rewrite Forall_forall in E. by apply (E v Hk).
Qed.
Lemma ev_other l : l ≠ p → h' !!! l = h !!! l.
Proof. destruct ev_remove as (i & _ & ->). intros Hl. by rewrite lookup_total_insert_ne. Qed.
Lemma ev_same l : key (h' !!! l) = key (h !!! l) ∧ ntokens (h' !!! l) = ntokens (h !!! l) ∧
  parent (h' !!! l) = parent (h !!! l) ∧ pins (h' !!! l) = pins (h !!! l).
Proof.
  destruct (decide (l = p)) as [-> |]; [|by rewrite ev_other]. destruct ev_remove as (i & _ & ->). by rewrite lookup_total_insert_eq.
Qed.
Lemma ev_kids l x : l ∈ D → x ∈ kids (h' !!! l) ↔ x ∈ kids (h !!! l) ∧ x ≠ v.
Proof.
  intros Hl. assert (Hsh : shape h D (fresh t)) by apply Hc. destruct (decide (l = p)) as [-> |Hne].
  - destruct ev_remove as (i & Hi & ->). rewrite lookup_total_insert_eq. apply elem_of_delete_NoDup; [by eapply kids_nodup|done].
  - rewrite ev_other by done. split; [|tauto]. intros Hx. split; [done|]. intros ->.
    pose proof (sh_kid _ _ _ Hsh l v Hl Hx) as (_ & _ & Hpl). pose proof ev_pv. congruence.
Qed.

Lemma ev_shape : shape h' (D ∖ {[v]}) (fresh t).
Proof.
  assert (Hsh : shape h D (fresh t)) by apply Hc. destruct ev_v as (Hv & Hvr & Hvk & _). split.
  - pose proof (sh_root _ _ _ Hsh). set_solver.
  - intros l [Hl _]%elem_of_difference. by apply Hsh.
  - intros l x [Hl Hlv]%elem_of_difference. rewrite (ev_kids l x Hl). intros [Hx Hxv].
    destruct (sh_kid _ _ _ Hsh l x Hl Hx) as (H1 & H2 & H3). destruct (ev_same x) as (_ & _ & -> & _).
    split_and!; [|done|done]. apply elem_of_difference. by rewrite elem_of_singleton.
  - intros x [Hx Hxv]%elem_of_difference Hr. destruct (sh_parent _ _ _ Hsh x Hx Hr) as (q & Hq & Hpq & Hk). exists q.
    destruct (ev_same x) as (_ & _ & -> & _). rewrite elem_of_singleton in Hxv. rewrite (ev_kids q x Hq). split_and!; [|done|done|done].
    apply elem_of_difference. rewrite elem_of_singleton. split; [done|]. intros ->. rewrite Hvk in Hk. by apply elem_of_nil in Hk.
  - intros l [Hl _]%elem_of_difference. destruct (decide (l = p)) as [-> |Hne].
    + assert (Hk : keys h' p = (λ x, key (h !!! x)) <$> kids (h' !!! p)).
      { apply list_fmap_ext. intros i x _. apply ev_same. }
      rewrite Hk. destruct ev_remove as (i & Hi & ->). rewrite lookup_total_insert_eq. cbn [kids set_kids]. rewrite delete_fmap.
      apply delete_sorted. by apply (sh_sorted _ _ _ Hsh).
    + assert (Hk : keys h' l = keys h l).
      { unfold keys. rewrite ev_other by done. apply list_fmap_ext. intros i x _. apply ev_same. }
      rewrite Hk. by apply (sh_sorted _ _ _ Hsh).
Qed.

Lemma ev_find n k : n ∈ D → n ≠ v → find h' n k = if decide (n = p ∧ k = key (h !!! v)) then None else find h n k.
Proof.
  intros Hn Hnv. assert (Hsh : shape h D (fresh t)) by apply Hc. pose proof ev_shape as Hsh'. destruct ev_p as (Hp & Hvp & _).
  assert (Hn' : n ∈ D ∖ {[v]}) by (apply elem_of_difference; by rewrite elem_of_singleton).
  assert (Hiff : ∀ x, find h' n k = Some x ↔ find h n k = Some x ∧ x ≠ v).
  { intros x. rewrite (find_spec _ _ _ _ _ _ Hsh' Hn'), (find_spec _ _ _ _ _ _ Hsh Hn), (ev_kids n x Hn). destruct (ev_same x) as (-> & _). tauto. }
  destruct (decide _) as [[-> ->]|Hnot].
  - apply eq_None_not_Some. intros [x [Hx Hxv]%Hiff]. apply Hxv.
    assert (find h p (key (h !!! v)) = Some v) by (by apply (find_spec _ _ _ _ _ _ Hsh Hp)). congruence.
  - apply option_eq. intros x. rewrite Hiff. split; [tauto|]. intros Hx. split; [done|]. intros ->.
    apply (find_spec _ _ _ _ _ _ Hsh Hn) in Hx as [Hx Hk]. pose proof (sh_kid _ _ _ Hsh n v Hn Hx) as (_ & _ & Hpn).
    apply Hnot. pose proof ev_pv. split; [congruence|done].
Qed.

Lemma ev_core : core (evict_one v p t) (D ∖ {[v]}) (if bool_decide (p ≠ root ∧ kids (h' !!! p) = [] ∧ pins (h' !!! p) = 0) then L0 ++ [p] else L0).
Proof.
  assert (Hsh : shape h D (fresh t)) by apply Hc. destruct ev_v as (Hv & Hvr & Hvk & Hvp). destruct ev_p as (Hp & Hvkp & Hpne).
  destruct (lruRemove_spec v (order t) L0 []) as [Hd Hvin]; [apply Hc|]. rewrite app_nil_r in Hd.
  pose proof (last_head_ne L0 [] v (dll_nodup _ _ (co_dll _ _ _ Hc))) as (_ & _ & HvL & _).
  assert (HpL : p ∉ L0).
  { intros Hx. pose proof (proj1 (co_L _ _ _ Hc p)) as Hpl. rewrite elem_of_app in Hpl. destruct Hpl as (_ & _ & Hk & _); [by left|].
    unfold h in Hvkp. rewrite Hk in Hvkp. by apply elem_of_nil in Hvkp. }
  set (g := bool_decide _). set (u' := if g then lruPushBack p (lruRemove v (order t)) else lruRemove v (order t)).
  assert (Hu' : dll u' (if g then L0 ++ [p] else L0)) by (unfold u'; destruct g; [by apply lruPushBack_spec|done]).
  assert (Heap : heap (evict_one v p t) = h' ∧ order (evict_one v p t) = u' ∧ fresh (evict_one v p t) = fresh t ∧
    nodes (evict_one v p t) = nodes t - 1 ∧ tokens (evict_one v p t) = tokens t - ntokens (h !!! v) ∧
    pinnedNodes (evict_one v p t) = pinnedNodes t ∧ anomalies (evict_one v p t) = anomalies t).
  { destruct (ev_same v) as (_ & Hnt & _). unfold evict_one. cbn [heap set_heap on_lru add_size]. fold h. fold h'. rewrite Hnt. fold g. unfold u'. by destruct g. }
  destruct Heap as (E1 & E2 & E3 & E4 & E5 & E6 & E7).
  assert (Hg : g = true ↔ p ≠ root ∧ kids (h' !!! p) = [] ∧ pins (h' !!! p) = 0) by apply bool_decide_eq_true. clearbody g.
  assert (Hset : D ∖ {[root]} = {[v]} ∪ (D ∖ {[v]}) ∖ {[root]}).
  { apply set_eq. intros x. destruct (decide (x = v)); set_solver. }
  assert (Hni : v ∉ (D ∖ {[v]}) ∖ {[root]}) by set_solver.
  split; rewrite ?E1, ?E2, ?E3, ?E4, ?E5, ?E6, ?E7.
  - apply ev_shape.
  - done.
  - intros l. assert (Hl : l ∈ (if g then L0 ++ [p] else L0) ↔ l ∈ L0 ∨ (g = true ∧ l = p)).
    { destruct g; [rewrite elem_of_app, list_elem_of_singleton; tauto|]. split; [tauto|]. by intros [|[? _]]. }
    rewrite Hl, elem_of_difference, elem_of_singleton. destruct (decide (l = p)) as [-> |Hlp].
    + split; [intros [Hx|[Hx _]]; [done|apply Hg in Hx; tauto]|]. intros (_ & Hx). right. split; [by apply Hg|done].
    + assert (Hlv : l ≠ v → (l ∈ L0 ↔ l ∈ D ∧ l ≠ root ∧ kids (h !!! l) = [] ∧ pins (h !!! l) = 0)).
      { intros Hne. unfold h. rewrite <-(co_L _ _ _ Hc), elem_of_app, list_elem_of_singleton. tauto. }
      rewrite ev_other by done. destruct (decide (l = v)) as [-> |Hne]; [tauto|]. rewrite Hlv by done. tauto.
  - intros l Hl Hn. assert (Hlv : l = v ∨ l ≠ v) by (destruct (decide (l = v)); auto).
    assert (Hbase : l ∉ L0 → in_lru (lruRemove v (order t)) l = false).
    { intros Hn0. destruct (decide (l = v)) as [-> |Hne]; [done|]. rewrite remove_other by done. apply (co_out _ _ _ Hc); [set_solver|].
      rewrite elem_of_app, list_elem_of_singleton. tauto. }
    unfold u'. destruct g; [|by apply Hbase]. rewrite elem_of_app, list_elem_of_singleton in Hn. rewrite push_back_other by tauto. apply Hbase. tauto.
  - rewrite size_difference by set_solver. rewrite size_singleton, (co_nodes _ _ _ Hc).
    assert (1 ≤ Z.of_nat (size D)); [|lia]. assert (size ({[v]} : gset loc) ≤ size D)%nat by (apply subseteq_size; set_solver). rewrite size_singleton in *. lia.
  - rewrite (co_tokens _ _ _ Hc), Hset, total_add by done. fold h. rewrite (total_ext (λ l, ntokens (h' !!! l)) (λ l, ntokens (h !!! l))); [lia|].
    intros l _. apply ev_same.
  - intros l [Hl _]%elem_of_difference. destruct (ev_same l) as (_ & _ & _ & ->). by apply (co_pins _ _ _ Hc).
  - rewrite (co_pinned _ _ _ Hc), Hset, total_add by done. fold h. rewrite Hvp. cbn [Z.eqb].
    rewrite (total_ext (λ l, if pins (h' !!! l) =? 0 then 0 else 1) (λ l, if pins (h !!! l) =? 0 then 0 else 1)); [lia|].
    intros l _. destruct (ev_same l) as (_ & _ & _ & ->). done.
  - apply Hc.
Qed.
End evict.

(** ** Pinning *)

Lemma find_kids_ext h h' n k : kids (h' !!! n) = kids (h !!! n) → (∀ x, key (h' !!! x) = key (h !!! x)) → find h' n k = find h n k.
Proof.
  intros Hk Hx. unfold find, keys. rewrite Hk. rewrite (list_fmap_ext (λ c, key (h' !!! c)) (λ c, key (h !!! c))) by (intros; apply Hx).
  destruct (kids (h !!! n) !! _); [|done]. by rewrite Hx.
Qed.

Section pins.
Context (h : tree) (n : loc) (z : Z).
Let h' : tree := <[n := set_pins z (h !!! n)]> h.

Lemma pin_same l : key (h' !!! l) = key (h !!! l) ∧ ntokens (h' !!! l) = ntokens (h !!! l) ∧ parent (h' !!! l) = parent (h !!! l) ∧
  kids (h' !!! l) = kids (h !!! l) ∧ pins (h' !!! l) = if decide (l = n) then z else pins (h !!! l).
Proof.
  unfold h'. destruct (decide (l = n)) as [-> |]; [by rewrite lookup_total_insert_eq|]. by rewrite lookup_total_insert_ne.
Qed.
Lemma pin_find l k : find h' l k = find h l k.
Proof. apply find_kids_ext; [apply pin_same|]. intros x. apply pin_same. Qed.
Lemma pin_shape D fr : shape h D fr → shape h' D fr.
Proof.
  intros [H1 H2 H3 H4 H5]. split; [done|done|..].
  - intros l c Hl. destruct (pin_same l) as (_ & _ & _ & -> & _). destruct (pin_same c) as (_ & _ & -> & _). by apply H3.
  - intros c Hcd Hr. destruct (H4 c Hcd Hr) as (p & Hp & Hpp & Hk). exists p. destruct (pin_same p) as (_ & _ & _ & -> & _).
    by destruct (pin_same c) as (_ & _ & -> & _).
  - intros l Hl. assert (keys h' l = keys h l) as -> by (unfold keys; destruct (pin_same l) as (_ & _ & _ & -> & _); apply list_fmap_ext; intros; apply pin_same).
    by apply H5.
Qed.
End pins.

Definition held (z : Z) : Z := if z =? 0 then 0 else 1.

Lemma core_repin t D L n z u' L' d : core t D L → n ∈ D → n ≠ root → 0 ≤ z → d = held z - held (pins (heap t !!! n)) →
  dll u' L' → (∀ l, l ≠ n → (l ∈ L' ↔ l ∈ L)) → (n ∈ L' ↔ kids (heap t !!! n) = [] ∧ z = 0) →
  (n ∉ L' → in_lru u' n = false) → (∀ l, l ≠ n → in_lru u' l = in_lru (order t) l) →
  core (MkTrie (cfg t) (<[n := set_pins z (heap t !!! n)]> (heap t)) u' (nodes t) (tokens t) (anomalies t) (pinnedNodes t + d) (obsCached t) (obsTotal t) (fresh t)) D L'.
Proof.
  intros Hc Hn Hr Hz -> Hd Hl1 Hl2 Ho1 Ho2. destruct Hc as [H1 H2 H3 H4 H5 H6 H7 H8 H9].
  pose proof (pin_same (heap t) n z) as Hs. set (h' := <[n := _]> (heap t)) in *. assert (Hh : h' = <[n := set_pins z (heap t !!! n)]> (heap t)) by done.
  split; cbn [heap order nodes tokens pinnedNodes anomalies fresh].
  - rewrite Hh. by apply pin_shape.
  - done.
  - intros l. destruct (Hs l) as (_ & _ & _ & -> & ->). destruct (decide (l = n)) as [-> |Hne]; [rewrite Hl2; tauto|]. by rewrite Hl1, H3.
  - intros l Hl Hni. destruct (decide (l = n)) as [-> |Hne]; [by apply Ho1|]. rewrite Ho2 by done. apply H4; [done|]. by rewrite <-Hl1.
  - done.
  - rewrite H6. apply total_ext. intros l _. symmetry. apply Hs.
  - intros l Hl. destruct (Hs l) as (_ & _ & _ & _ & ->). destruct (decide (l = n)); [done|]. by apply H7.
  - rewrite H8. change (λ l, if pins (heap t !!! l) =? 0 then 0 else 1) with (λ l, held (pins (heap t !!! l))).
    change (λ l, if pins (h' !!! l) =? 0 then 0 else 1) with (λ l, held (pins (h' !!! l))).
    rewrite (total_change (λ l, held (pins (heap t !!! l))) (λ l, held (pins (h' !!! l))) (D ∖ {[root]}) n).
    + destruct (Hs n) as (_ & _ & _ & _ & ->). by rewrite decide_True.
    + apply elem_of_difference. by rewrite elem_of_singleton.
    + intros x _ Hne. destruct (Hs x) as (_ & _ & _ & _ & ->). by rewrite decide_False.
  - done.
Qed.

Lemma pin_one_core t D L n : core t D L → n ∈ D → n ≠ root →
  (∃ L', core (pin_one n t) D L') ∧ heap (pin_one n t) = <[n := set_pins (pins (heap t !!! n) + 1) (heap t !!! n)]> (heap t) ∧
  fresh (pin_one n t) = fresh t ∧ cfg (pin_one n t) = cfg t.
Proof.
  intros Hc Hn Hr. pose proof (co_pins _ _ _ Hc n Hn) as Hp. split.
  2:{ unfold pin_one. destruct (_ =? 0); [|done]. by destruct (in_lru (order t) n). }
  assert (Hd : ∃ L', dll (if pins (heap t !!! n) =? 0 then (if in_lru (order t) n then lruRemove n (order t) else order t) else order t) L' ∧
    (∀ x, x ∈ L' ↔ x ∈ L ∧ x ≠ n) ∧
    in_lru (if pins (heap t !!! n) =? 0 then (if in_lru (order t) n then lruRemove n (order t) else order t) else order t) n = false ∧
    ∀ x, x ≠ n → in_lru (if pins (heap t !!! n) =? 0 then (if in_lru (order t) n then lruRemove n (order t) else order t) else order t) x = in_lru (order t) x).
  { rewrite (co_L_in_lru _ _ _ _ Hc Hn). destruct (decide (n ∈ L)) as [Hin|Hni].
    - pose proof (proj1 (co_L _ _ _ Hc n) Hin) as (_ & _ & _ & ->). rewrite bool_decide_true by done. cbn [Z.eqb].
      destruct (lruRemove_in n (order t) L (co_dll _ _ _ Hc) Hin) as (L' & H1 & H2 & H3). exists L'. split_and!; [done..|]. intros x Hx. by apply remove_other.
    - rewrite (bool_decide_false (n ∈ L)) by done. assert (∀ b : bool, (if b then order t else order t) = order t) as Hb by (by intros []). rewrite Hb.
      exists L. split_and!; [apply Hc| |apply (co_out _ _ _ Hc); auto|done]. intros x. split; [|tauto]. intros Hx. split; [done|congruence]. }
  destruct Hd as (L' & H1 & H2 & H3 & H4). exists L'.
  set (u' := if pins (heap t !!! n) =? 0 then _ else _) in *.
  replace (pin_one n t) with (MkTrie (cfg t) (<[n := set_pins (pins (heap t !!! n) + 1) (heap t !!! n)]> (heap t)) u' (nodes t) (tokens t) (anomalies t)
    (pinnedNodes t + (held (pins (heap t !!! n) + 1) - held (pins (heap t !!! n)))) (obsCached t) (obsTotal t) (fresh t)).
  - eapply core_repin; [exact Hc|done|done|lia|done|done|..].
    + intros l Hl. rewrite H2. tauto.
    + rewrite H2. split; [tauto|lia].
    + done.
    + done.
  - unfold u', pin_one, held. rewrite (proj2 (Z.eqb_neq (pins (heap t !!! n) + 1) 0)) by lia.
    destruct (_ =? 0); [by destruct (in_lru (order t) n)|]. unfold set_heap. f_equal. lia.
Qed.

Lemma unpin_one_core t D L n : core t D L → n ∈ D → n ≠ root → 0 < pins (heap t !!! n) →
  (∃ L', core (unpin_one n t) D L') ∧ heap (unpin_one n t) = <[n := set_pins (pins (heap t !!! n) - 1) (heap t !!! n)]> (heap t) ∧
  fresh (unpin_one n t) = fresh t ∧ cfg (unpin_one n t) = cfg t.
Proof.
  intros Hc Hn Hr Hp. assert (HnL : n ∉ L) by (intros Hx; apply (co_L _ _ _ Hc) in Hx; lia).
  assert (Hlk : set_pins (pins (heap t !!! n) - 1) (heap t !!! n) = <[n := set_pins (pins (heap t !!! n) - 1) (heap t !!! n)]> (heap t) !!! n) by (by rewrite lookup_total_insert_eq).
  set (g := (pins (heap t !!! n) - 1 =? 0) && bool_decide (kids (heap t !!! n) = [])).
  set (u' := if g then lruPushFront n (order t) else order t).
  assert (Heq : unpin_one n t = MkTrie (cfg t) (<[n := set_pins (pins (heap t !!! n) - 1) (heap t !!! n)]> (heap t)) u' (nodes t) (tokens t) (anomalies t)
    (pinnedNodes t + (held (pins (heap t !!! n) - 1) - held (pins (heap t !!! n)))) (obsCached t) (obsTotal t) (fresh t)).
  { unfold unpin_one. rewrite (proj2 (Z.eqb_neq (pins (heap t !!! n)) 0)) by lia. cbn [heap set_heap add_pinned]. rewrite <-!Hlk. cbn [pins kids set_pins].
    unfold u', g, held. rewrite (proj2 (Z.eqb_neq (pins (heap t !!! n)) 0)) by lia.
    destruct (pins (heap t !!! n) - 1 =? 0); cbn [andb]; [by destruct (bool_decide _)|]. unfold set_heap. f_equal. lia. }
  rewrite Heq. split; [|done]. exists (if g then n :: L else L).
  assert (Hg : g = true ↔ kids (heap t !!! n) = [] ∧ pins (heap t !!! n) - 1 = 0).
  { unfold g. rewrite andb_true_iff, bool_decide_eq_true, Z.eqb_eq. tauto. }
  eapply core_repin; [exact Hc|done|done|lia|done|..].
  - unfold u'. destruct g; [|apply Hc]. apply lruPushFront_spec; [apply Hc|done].
  - intros l Hl. destruct g; [|done]. rewrite elem_of_cons. tauto.
  - rewrite <-Hg. destruct g; [rewrite elem_of_cons; tauto|]. split; [done|]. done.
  - unfold u'. destruct g; [intros Hx; destruct Hx; by left|]. intros _. apply (co_out _ _ _ Hc); auto.
  - intros l Hl. unfold u'. destruct g; [by apply push_front_other|done].
Qed.
