(* ===== verification/KvCache.v ===== *)
(** * KvCache: what the trie promises

    The operations on whole requests keep the invariant of [KvTrieWf], with the outstanding
    pins counted; a query is the longest held prefix; an unbounded trie is the ideal
    simulator; a bounded one stays within its bound and never evicts what is pinned. *)

From stdpp Require Import base gmap sets list.
From Stdlib Require Import ZArith Lia.
From S2P Require Import Prelude KvUnits KvTrie KvLru KvTrieWf.
Open Scope Z_scope.

(** A prefix is held when its path is linked. *)
Definition path (t : Trie) (ks : list Z) : option loc := descend (heap t) root ks.
Definition holds (t : Trie) (ks : list Z) : Prop := is_Some (path t ks).

Lemma path_in t D L ks l : core t D L → path t ks = Some l → l ∈ D.
Proof. intros Hc. eapply descend_in; apply Hc. Qed.

Lemma kv_holds_prefix t ks ks' : holds t (ks ++ ks') → holds t ks.
Proof. intros [l Hl]. unfold path in Hl. rewrite descend_app in Hl. unfold holds, path. by destruct (descend _ _ ks). Qed.

Lemma descend_ext h h' : (∀ n k, find h' n k = find h n k) → ∀ ks n, descend h' n ks = descend h n ks.
Proof. intros Hf. induction ks as [|k ks IH]; intros n; cbn; [done|]. rewrite Hf. destruct (find h n k); [apply IH|done]. Qed.

(** ** One insertion, one eviction *)

Lemma insert_path t D L p u ks0 : core t D L → path t ks0 = Some p → find (heap t) p (Hash u) = None →
  ∀ ks l, path (insertLocked p u t).2 ks = Some l ↔ path t ks = Some l ∨ (ks = ks0 ++ [Hash u] ∧ l = fresh t).
Proof.
  intros Hc Hp Hf. pose proof (path_in _ _ _ _ _ Hc Hp) as HpD. pose proof (co_shape _ _ _ Hc) as Hsh.
  pose proof (ins_find t D L p u Hc HpD Hf) as Hfind. pose proof (ins_find_new t D L p u Hc HpD) as Hnew.
  assert (Hheap : heap (insertLocked p u t).2 = addKid p (fresh t) (<[fresh t := Node (Hash u) (Tokens u) (Some p) [] 0]> (heap t))).
  { unfold insertLocked. by destruct (_ && _). }
  unfold path. rewrite Hheap. clear Hheap. set (h' := addKid p _ _) in *. clearbody h'.
  induction ks as [|k ks IH] using rev_ind; intros l.
  - cbn. split; [by left|]. intros [|[H _]]; [done|]. by destruct ks0.
  - rewrite !descend_snoc. split.
    + destruct (descend h' root ks) as [m|] eqn:E; [|done]. destruct (proj1 (IH m) eq_refl) as [E1|[-> ->]]; [|by rewrite Hnew].
      assert (HmD : m ∈ D) by (eapply (path_in t); [exact Hc|exact E1]). rewrite Hfind by done. destruct (decide _) as [[-> ->]|Hn].
      * intros [= <-]. right. split; [|done]. f_equal. by eapply descend_inj.
      * intros Hl. left. by rewrite E1.
    + intros [Hl|[Heq ->]].
      * destruct (descend (heap t) root ks) as [m|] eqn:E; [|done]. rewrite (proj2 (IH m)) by auto.
        assert (HmD : m ∈ D) by (eapply (path_in t); [exact Hc|exact E]). rewrite Hfind by done. destruct (decide _) as [[-> ->]|Hn]; [congruence|done].
      * apply app_inj_tail in Heq as [-> ->]. rewrite (proj2 (IH p)) by (by left). rewrite Hfind by done. by rewrite decide_True.
Qed.

Lemma evict_path t D L0 v p : core t D (L0 ++ [v]) → parent (heap t !!! v) = Some p →
  ∀ ks l, path (evict_one v p t) ks = Some l ↔ path t ks = Some l ∧ l ≠ v.
Proof.
  intros Hc Hpv. pose proof (ev_find t D L0 v p Hc Hpv) as Hfind. destruct (ev_v t D L0 v Hc) as (Hv & Hvr & Hvk & _). pose proof (co_shape _ _ _ Hc) as Hsh.
  assert (Hheap : heap (evict_one v p t) = removeKid p (key (heap t !!! v)) (heap t)) by (unfold evict_one; by destruct (bool_decide _)).
  destruct (ev_p t D L0 v p Hc Hpv) as (Hp & Hvp & Hpne).
  assert (Hfv : find (heap t) p (key (heap t !!! v)) = Some v) by (by apply (find_spec _ _ _ _ _ _ Hsh Hp)).
  unfold path. rewrite Hheap. clear Hheap. set (h' := removeKid _ _ _) in *. clearbody h'.
  induction ks as [|k ks IH] using rev_ind; intros l.
  - cbn. split; [|tauto]. intros [= <-]. split; [done|congruence].
  - rewrite !descend_snoc. split.
    + destruct (descend h' root ks) as [m|] eqn:E; [|done]. destruct (proj1 (IH m) eq_refl) as [E1 Hmv].
      assert (HmD : m ∈ D) by (eapply (path_in t); [exact Hc|exact E1]). rewrite Hfind by done. destruct (decide _) as [|Hn]; [done|].
      intros Hl. rewrite E1. split; [done|]. intros ->. apply Hn. apply (find_spec _ _ _ _ _ _ Hsh HmD) in Hl as [Hx Hk].
      pose proof (sh_kid _ _ _ Hsh m v HmD Hx) as (_ & _ & Hpm). split; congruence.
    + intros [Hl Hlv]. destruct (descend (heap t) root ks) as [m|] eqn:E; [|done].
      assert (HmD : m ∈ D) by (eapply (path_in t); [exact Hc|exact E]).
      assert (Hmv : m ≠ v). { intros ->. apply (find_spec _ _ _ _ _ _ Hsh HmD) in Hl as [Hx _]. rewrite Hvk in Hx. by apply elem_of_nil in Hx. }
      rewrite (proj2 (IH m)) by done. rewrite Hfind by done. destruct (decide _) as [[-> ->]|Hn]; [congruence|done].
Qed.

(** ** What stays the same of the linked locations *)

Definition same_on (D : gset loc) (h h' : tree) : Prop := ∀ l, l ∈ D →
  key (h' !!! l) = key (h !!! l) ∧ ntokens (h' !!! l) = ntokens (h !!! l) ∧ parent (h' !!! l) = parent (h !!! l) ∧ pins (h' !!! l) = pins (h !!! l).

Lemma same_on_refl D h : same_on D h h.
Proof. by intros l _. Qed.
Lemma same_on_trans D D' h1 h2 h3 : D' ⊆ D → same_on D h1 h2 → same_on D' h2 h3 → same_on D' h1 h3.
Proof.
  intros Hsub H1 H2 l Hl. destruct (H1 l) as (<- & <- & <- & <-); [by apply Hsub|]. by apply H2.
Qed.

(** ** The loops *)

(** [t'] is [t] with some unpinned locations gone. *)
Record shrunk (t t' : Trie) (D D' : gset loc) : Prop := {
  shr_sub : D' ⊆ D;
  shr_same : same_on D' (heap t) (heap t');
  shr_path : ∀ ks l, path t' ks = Some l ↔ path t ks = Some l ∧ l ∈ D';
  shr_unpinned : ∀ l, l ∈ D → l ∉ D' → pins (heap t !!! l) = 0;
  shr_cfg : cfg t' = cfg t;
  shr_fresh : fresh t' = fresh t
}.

Lemma shrunk_refl t D L : core t D L → shrunk t t D D.
Proof.
  intros Hc. split; try done. intros ks l. split; [|tauto]. intros Hl. split; [done|]. by eapply path_in.
Qed.

Lemma evict_loop b : ∀ t D L, core t D L → ∃ D' L', core (evictLocked b t) D' L' ∧ shrunk t (evictLocked b t) D D' ∧
  (size D ≤ size D' + b)%nat ∧ (overBudget (evictLocked b t) = false ∨ L' = [] ∨ size D = (size D' + b)%nat).
Proof.
  induction b as [|b IH]; intros t D L Hc; cbn [evictLocked].
  { exists D, L. split_and!; [done|by eapply shrunk_refl|lia|]. right. right. lia. }
  destruct (overBudget t) eqn:Hov; [|exists D, L; split_and!; [done|by eapply shrunk_refl|lia|by left]].
  rewrite (dll_tail _ _ (co_dll _ _ _ Hc)). destruct L as [|v L0 _] using rev_ind.
  { exists D, []. cbn. split_and!; [done|by eapply shrunk_refl|lia|]. right. by left. }
  rewrite last_snoc. destruct (ev_v t D L0 v Hc) as (Hv & Hvr & Hvk & Hvp). rewrite bool_decide_false by (intros Hn; by apply Hn).
  destruct (sh_parent _ _ _ (co_shape _ _ _ Hc) v Hv Hvr) as (p & Hp & Hpv & _). rewrite Hpv.
  pose proof (ev_core t D L0 v p Hc Hpv) as Hc1. pose proof (evict_path t D L0 v p Hc Hpv) as Hpath. pose proof (ev_same t D L0 v p Hc Hpv) as Hsame.
  assert (Hheap : heap (evict_one v p t) = removeKid p (key (heap t !!! v)) (heap t) ∧ cfg (evict_one v p t) = cfg t ∧ fresh (evict_one v p t) = fresh t)
    by (unfold evict_one; by destruct (bool_decide _)).
  destruct Hheap as (Hh & Hcf & Hfr). rewrite <-Hh in Hsame. destruct (IH _ _ _ Hc1) as (D' & L' & Hc' & [S1 S2 S3 S4 S5 S6] & Hsz & Hstop).
  assert (Hsize : size D = S (size (D ∖ {[v]}))).
  { rewrite size_difference by set_solver. rewrite size_singleton. assert (size ({[v]} : gset loc) ≤ size D)%nat by (apply subseteq_size; set_solver). rewrite size_singleton in *. lia. }
  exists D', L'. split_and!; [done| |lia|destruct Hstop as [?|[?|?]]; [auto|auto|right; right; lia]]. split.
  - set_solver.
  - intros l Hl. destruct (Hsame l) as (<- & <- & <- & <-). by apply S2.
  - intros ks l. rewrite S3, Hpath. split; [tauto|]. intros [? Hl]. split_and!; [done| |done]. intros ->. apply S1 in Hl. set_solver.
  - intros l Hl Hn. destruct (decide (l = v)) as [-> |Hne]; [done|]. destruct (Hsame l) as (_ & _ & _ & <-). apply S4; [set_solver|done].
  - congruence.
  - congruence.
Qed.

(** [t'] is [t] with the path [ks0] grown by [hs] to [n']. *)
Record grown (t t' : Trie) (D D' : gset loc) (ks0 hs : list Z) (n' : loc) : Prop := {
  gr_sub : D ⊆ D';
  gr_same : same_on D (heap t) (heap t');
  gr_end : path t' (ks0 ++ hs) = Some n';
  gr_old : ∀ ks l, path t ks = Some l → path t' ks = Some l;
  gr_new : ∀ ks, holds t' ks ↔ holds t ks ∨ ∃ m, ks = ks0 ++ take m hs;
  gr_pins : ∀ l, l ∈ D' → l ∉ D → pins (heap t' !!! l) = 0;
  gr_size : size D' = (size D + length hs)%nat;
  gr_tokens : tokens t ≤ tokens t';
  gr_cfg : cfg t' = cfg t
}.

Lemma insert_all_grows units : ∀ t D L n ks0, core t D L → path t ks0 = Some n → (∀ u, u ∈ units → 0 ≤ Tokens u) →
  match units with [] => True | u :: _ => find (heap t) n (Hash u) = None end →
  ∃ D' L', core (insert_all n units t).2 D' L' ∧ grown t (insert_all n units t).2 D D' ks0 (Hash <$> units) (insert_all n units t).1.
Proof.
  induction units as [|u us IH]; intros t D L n ks0 Hc Hn Htok Hf; cbn [insert_all].
  { exists D, L. split; [done|]. split; [done|done|cbn; by rewrite app_nil_r|done| |done|cbn; lia|done|done].
    intros ks. split; [by left|]. intros [?|[m ->]]; [done|]. cbn [fmap list_fmap]. rewrite take_nil, app_nil_r. by exists n. }
  pose proof (path_in _ _ _ _ _ Hc Hn) as HnD. destruct (ins_core t D L n u Hc HnD Hf) as [L1 Hc1].
  pose proof (insert_path t D L n u ks0 Hc Hn Hf) as Hp1. pose proof (ins_same t D L n u Hc HnD) as Hs1. pose proof (ins_c t D L n u Hc HnD) as Hnew.
  pose proof (ins_find_new t D L n u Hc HnD) as Hfn.
  assert (E : (insertLocked n u t).1 = fresh t ∧ heap (insertLocked n u t).2 = addKid n (fresh t) (<[fresh t := Node (Hash u) (Tokens u) (Some n) [] 0]> (heap t)) ∧
    tokens (insertLocked n u t).2 = tokens t + Tokens u ∧ cfg (insertLocked n u t).2 = cfg t) by (unfold insertLocked; by destruct (_ && _)).
  destruct E as (E1 & E2 & E3 & E4). rewrite <-E2 in Hs1, Hnew, Hfn. destruct (insertLocked n u t) as [c t1]. cbn [fst snd] in *. subst c.
  assert (Hend : path t1 (ks0 ++ [Hash u]) = Some (fresh t)) by (apply Hp1; by right).
  destruct (IH t1 _ _ (fresh t) (ks0 ++ [Hash u]) Hc1 Hend) as (D' & L' & Hc' & [G1 G2 G3 G4 G5 G6 G7 G8 G9]).
  { intros x Hx. apply Htok. by right. }
  { destruct us; [done|]. apply Hfn. }
  assert (Hfr : fresh t ∉ D) by (intros Hx; apply (sh_lt _ _ _ (co_shape _ _ _ Hc)) in Hx; lia).
  assert (0 ≤ Tokens u) by (apply Htok; by left).
  exists D', L'. split; [done|]. split.
  - set_solver.
  - intros l Hl. destruct (Hs1 l Hl) as (<- & <- & <- & <-). apply G2. apply elem_of_union. by right.
  - rewrite <-G3. f_equal. cbn [fmap list_fmap]. by rewrite <-app_assoc.
  - intros ks l Hl. apply G4. apply Hp1. by left.
  - intros ks. rewrite G5. unfold holds at 1, is_Some. setoid_rewrite Hp1. split.
    + intros [[l [Hl|[-> _]]]|[m ->]]; [left; by exists l|right; by exists 1%nat|right]. exists (S m). cbn. by rewrite <-app_assoc.
    + intros [[l Hl]|[m ->]]; [left; exists l; by left|]. destruct m as [|m]; [left; exists n; left; cbn; by rewrite app_nil_r|].
      right. exists m. cbn. by rewrite <-app_assoc.
  - intros l Hl Hn'. destruct (decide (l = fresh t)) as [-> |Hne].
    + destruct (G2 (fresh t)) as (_ & _ & _ & ->); [set_solver|]. by rewrite Hnew.
    + apply G6; [done|]. set_solver.
  - rewrite G7, size_union by set_solver. rewrite size_singleton. cbn. rewrite length_fmap. lia.
  - lia.
  - congruence.
Qed.

Lemma insertFrom_spec t D L n units ks0 : core t D L → path t ks0 = Some n → (∀ u, u ∈ units → 0 ≤ Tokens u) →
  match units with [] => True | u :: _ => find (heap t) n (Hash u) = None end →
  ∃ t1 D1 L1 D' L', core t1 D1 L1 ∧ grown t t1 D D1 ks0 (Hash <$> units) (insertFrom n units t).1 ∧
    core (insertFrom n units t).2 D' L' ∧ shrunk t1 (insertFrom n units t).2 D1 D' ∧
    (if Bounded (cfg t) then overBudget (insertFrom n units t).2 = false ∨ L' = [] ∨ size D1 = (size D' + length units + Z.to_nat (EvictBudget (cfg t)))%nat
     else (insertFrom n units t).2 = t1).
Proof.
  intros Hc Hn Htok Hf. destruct (insert_all_grows units t D L n ks0 Hc Hn Htok Hf) as (D1 & L1 & Hc1 & Hg).
  unfold insertFrom. destruct (insert_all n units t) as [leaf t1]. cbn [fst snd] in *. exists t1, D1, L1. pose proof (gr_cfg _ _ _ _ _ _ _ Hg) as Hcf.
  unfold evict_after. rewrite Hcf. destruct (Bounded (cfg t)).
  - destruct (evict_loop (length units + Z.to_nat (EvictBudget (cfg t))) t1 D1 L1 Hc1) as (D' & L' & Hc' & Hs & _ & Hstop).
    exists D', L'. split_and!; [done..|]. destruct Hstop as [?|[?|?]]; auto. right. right. lia.
  - exists D1, L1. split_and!; [done..|by eapply shrunk_refl|done].
Qed.

(** ** Pins *)

Lemma pin_all ns : ∀ t D L, core t D L → Forall (λ n, n ∈ D ∧ n ≠ root) ns → NoDup ns →
  ∃ L', core (foldl (λ t n, pin_one n t) t ns) D L' ∧ cfg (foldl (λ t n, pin_one n t) t ns) = cfg t ∧ fresh (foldl (λ t n, pin_one n t) t ns) = fresh t ∧
    ∀ l, key (heap (foldl (λ t n, pin_one n t) t ns) !!! l) = key (heap t !!! l) ∧ parent (heap (foldl (λ t n, pin_one n t) t ns) !!! l) = parent (heap t !!! l) ∧
      kids (heap (foldl (λ t n, pin_one n t) t ns) !!! l) = kids (heap t !!! l) ∧
      pins (heap (foldl (λ t n, pin_one n t) t ns) !!! l) = pins (heap t !!! l) + (if decide (l ∈ ns) then 1 else 0).
Proof.
  induction ns as [|n ns IH]; intros t D L Hc Hall Hnd; cbn [foldl].
  { exists L. split_and!; [done..|]. intros l. split_and!; [done..|]. rewrite decide_False by (by intros ?%elem_of_nil). lia. }
  inversion Hall as [|? ? [HnD Hnr] Hall']; subst. apply NoDup_cons in Hnd as [Hni Hnd].
  destruct (pin_one_core t D L n Hc HnD Hnr) as ([L1 Hc1] & Hh & Hfr & Hcf). destruct (IH (pin_one n t) D L1 Hc1 Hall' Hnd) as (L' & H1 & H2 & H3 & H4).
  exists L'. split_and!; [done|congruence|congruence|]. intros l. destruct (H4 l) as (-> & -> & -> & ->). rewrite Hh.
  destruct (pin_same (heap t) n (pins (heap t !!! n) + 1) l) as (-> & _ & -> & -> & ->). split_and!; [done..|].
  destruct (decide (l = n)) as [-> |Hne].
  - rewrite (decide_False (P := n ∈ ns)) by done. rewrite decide_True by (by left). lia.
  - destruct (decide (l ∈ ns)); [rewrite decide_True by (by right)|rewrite decide_False by (rewrite elem_of_cons; tauto)]; lia.
Qed.

Lemma unpin_all ns : ∀ t D L, core t D L → Forall (λ n, n ∈ D ∧ n ≠ root ∧ 0 < pins (heap t !!! n)) ns → NoDup ns →
  ∃ L', core (foldl (λ t n, unpin_one n t) t ns) D L' ∧ cfg (foldl (λ t n, unpin_one n t) t ns) = cfg t ∧ fresh (foldl (λ t n, unpin_one n t) t ns) = fresh t ∧
    ∀ l, key (heap (foldl (λ t n, unpin_one n t) t ns) !!! l) = key (heap t !!! l) ∧ parent (heap (foldl (λ t n, unpin_one n t) t ns) !!! l) = parent (heap t !!! l) ∧
      kids (heap (foldl (λ t n, unpin_one n t) t ns) !!! l) = kids (heap t !!! l) ∧
      pins (heap (foldl (λ t n, unpin_one n t) t ns) !!! l) = pins (heap t !!! l) - (if decide (l ∈ ns) then 1 else 0).
Proof.
  induction ns as [|n ns IH]; intros t D L Hc Hall Hnd; cbn [foldl].
  { exists L. split_and!; [done..|]. intros l. split_and!; [done..|]. rewrite decide_False by (by intros ?%elem_of_nil). lia. }
  inversion Hall as [|? ? (HnD & Hnr & Hpos) Hall']; subst. apply NoDup_cons in Hnd as [Hni Hnd].
  destruct (unpin_one_core t D L n Hc HnD Hnr Hpos) as ([L1 Hc1] & Hh & Hfr & Hcf).
  pose proof (pin_same (heap t) n (pins (heap t !!! n) - 1)) as Hps. rewrite <-Hh in Hps.
  destruct (IH (unpin_one n t) D L1 Hc1) as (L' & H1 & H2 & H3 & H4); [|done|].
  { rewrite Forall_forall in Hall' |- *. intros x Hx. destruct (Hall' x Hx) as (? & ? & ?). destruct (Hps x) as (_ & _ & _ & _ & ->).
    rewrite decide_False by congruence. done. }
  exists L'. split_and!; [done|congruence|congruence|]. intros l. destruct (H4 l) as (-> & -> & -> & ->).
  destruct (Hps l) as (-> & _ & -> & -> & ->). split_and!; [done..|].
  destruct (decide (l = n)) as [-> |Hne].
  - rewrite (decide_False (P := n ∈ ns)) by done. rewrite decide_True by (by left). lia.
  - destruct (decide (l ∈ ns)); [rewrite decide_True by (by right)|rewrite decide_False by (rewrite elem_of_cons; tauto)]; lia.
Qed.

(** How many outstanding pins hold a location. *)
Definition cnt (h : tree) (P : list loc) (l : loc) : Z := Z.of_nat (length (filter (λ p, l ∈ chain h p) P)).

Record counted (t : Trie) (D : gset loc) (P : list loc) : Prop := {
  ct_in : ∀ p, p ∈ P → p ∈ D ∧ p ≠ root;
  ct_pins : ∀ l, l ∈ D → l ≠ root → pins (heap t !!! l) = cnt (heap t) P l
}.

Lemma cnt_ext h h' P l : (∀ p, p ∈ P → chain h' p = chain h p) → cnt h' P l = cnt h P l.
Proof.
  intros Hx. unfold cnt. do 2 f_equal. apply filter_ext_in. intros p Hp. by rewrite Hx.
Qed.
Lemma cnt_app h P1 P2 l : cnt h (P1 ++ P2) l = cnt h P1 l + cnt h P2 l.
Proof. unfold cnt. rewrite filter_app, length_app. lia. Qed.
Lemma cnt_cons h p P l : cnt h (p :: P) l = (if decide (l ∈ chain h p) then 1 else 0) + cnt h P l.
Proof. unfold cnt. rewrite filter_cons. destruct (decide _); cbn [length]; lia. Qed.
Lemma cnt_nonneg h P l : 0 ≤ cnt h P l.
Proof. unfold cnt. lia. Qed.
Lemma cnt_pos h P p l : p ∈ P → l ∈ chain h p → 0 < cnt h P l.
Proof.
  intros (P1 & P2 & ->)%list_elem_of_split Hl. rewrite cnt_app, cnt_cons, decide_True by done.
  pose proof (cnt_nonneg h P1 l). pose proof (cnt_nonneg h P2 l). lia.
Qed.

Lemma chain_ext2 h h' D D' fr fr' l : shape h D fr → shape h' D' fr' → D' ⊆ D → (∀ x, x ∈ D' → parent (h' !!! x) = parent (h !!! x)) →
  l ∈ D' → chain h' l = chain h l.
Proof.
  intros Hsh Hsh' Hsub Heq. revert l. refine (up_ind h' D' fr' _ Hsh' _ _); [done|].
  intros l p Hl Hne Hp Hlt Hpp _ IH. rewrite (chain_step _ _ _ _ _ Hsh' Hl Hne Hpp). rewrite Heq in Hpp by done.
  rewrite (chain_step h D fr l p); [by rewrite IH|done|by apply Hsub|done|done].
Qed.

Lemma chain_self h D fr l : shape h D fr → l ∈ D → l ≠ root → l ∈ chain h l.
Proof.
  intros Hsh Hl Hr. destruct (sh_parent _ _ _ Hsh l Hl Hr) as (p & _ & Hp & _). rewrite (chain_step _ _ _ _ _ Hsh Hl Hr Hp). by left.
Qed.

Lemma counted_shrunk t t' D D' L L' P : core t D L → core t' D' L' → shrunk t t' D D' → counted t D P → counted t' D' P.
Proof.
  intros Hc Hc' [S1 S2 _ S4 _ _] [H1 H2]. assert (HP : ∀ p, p ∈ P → p ∈ D').
  { intros p Hp. destruct (H1 p Hp) as [HpD Hpr]. destruct (decide (p ∈ D')) as [|Hn]; [done|]. exfalso.
    pose proof (S4 p HpD Hn) as Hz. rewrite H2 in Hz by done.
    pose proof (cnt_pos (heap t) P p p Hp (chain_self _ _ _ _ (co_shape _ _ _ Hc) HpD Hpr)). lia. }
  split.
  - intros p Hp. destruct (H1 p Hp). auto.
  - intros l Hl Hr. destruct (S2 l Hl) as (_ & _ & _ & ->). rewrite H2 by (first [by apply S1|done]). symmetry. apply cnt_ext.
    intros p Hp. eapply (chain_ext2 (heap t) (heap t') D D'); [apply Hc|apply Hc'|done| |by apply HP]. intros x Hx. by destruct (S2 x Hx) as (_ & _ & -> & _).
Qed.

Lemma counted_grown t t' D D' L L' P ks0 hs n' : core t D L → core t' D' L' → grown t t' D D' ks0 hs n' → counted t D P → counted t' D' P.
Proof.
  intros Hc Hc' [G1 G2 _ _ _ G6 _ _ _] [H1 H2]. assert (Hch : ∀ p, p ∈ P → chain (heap t') p = chain (heap t) p).
  { intros p Hp. destruct (H1 p Hp) as [HpD _]. symmetry. eapply (chain_ext2 (heap t') (heap t) D' D); [apply Hc'|apply Hc|done| |done].
    intros x Hx. by destruct (G2 x Hx) as (_ & _ & -> & _). }
  split.
  - intros p Hp. destruct (H1 p Hp). auto.
  - intros l Hl Hr. rewrite (cnt_ext _ _ _ _ Hch). destruct (decide (l ∈ D)) as [HlD|Hn].
    + destruct (G2 l HlD) as (_ & _ & _ & ->). by apply H2.
    + rewrite G6 by done. unfold cnt. rewrite (proj2 (length_zero_iff_nil _)); [done|]. apply elem_of_nil_inv. intros p [Hx Hp]%list_elem_of_filter.
      destruct (H1 p Hp) as [HpD _]. destruct (kv_chain_in _ _ _ _ (co_shape _ _ _ Hc) HpD) as [_ Hin]. by destruct (Hin l Hx).
Qed.

(** ** The cache at work

    A trie with its outstanding pins.  [RecordAndPin] evicts before it pins, and can evict
    what it is about to pin ([pin_evicts_its_own]); its step is taken when it does not.
    [Reset] is for a trie with nothing pinned, as its comment asks. *)

Definition ksys : Type := Trie * list loc.

Inductive kstep : ksys → ksys → Prop :=
  | k_commit us t P : (∀ u, u ∈ us → 0 ≤ Tokens u) → kstep (t, P) (Commit us t, P)
  | k_count us t P : (∀ u, u ∈ us → 0 ≤ Tokens u) → kstep (t, P) ((RecordAndCount us t).2, P)
  | k_pin us c n leaf t t' P : (∀ u, u ∈ us → 0 ≤ Tokens u) → RecordAndPin us t = (c, n, Some leaf, t') →
      path t' (Hash <$> us) = Some leaf → kstep (t, P) (t', leaf :: P)
  | k_unpin leaf t P1 P2 : kstep (t, P1 ++ leaf :: P2) (Unpin (Some leaf) t, P1 ++ P2)
  | k_observe c n t P : kstep (t, P) (Observe c n t, P)
  | k_reset t : kstep (t, []) (Reset t, []).

Definition wf (w : ksys) : Prop := ∃ D L, core w.1 D L ∧ counted w.1 D w.2.

Lemma walk_root t us n cached rest : walk (heap t) root us 0 = (n, cached, rest) →
  ∃ d, us = d ++ rest ∧ path t (Hash <$> d) = Some n ∧ cached = sum_tokens d ∧
    match rest with [] => True | u :: _ => find (heap t) n (Hash u) = None end.
Proof. intros (d & -> & Hd & -> & Hr)%walk_spec. exists d. split_and!; (done || lia). Qed.

(** What a request's insertion leads to, touched or not. *)
Lemma request_spec t D L us n cached rest : core t D L → (∀ u, u ∈ us → 0 ≤ Tokens u) → walk (heap t) root us 0 = (n, cached, rest) →
  ∃ t1 D1 L1 D' L', core t1 D1 L1 ∧ (∃ d, us = d ++ rest ∧ grown t t1 D D1 (Hash <$> d) (Hash <$> rest) (insertFrom n rest t).1) ∧
    core (insertFrom n rest t).2 D' L' ∧ shrunk t1 (insertFrom n rest t).2 D1 D' ∧
    (if Bounded (cfg t) then overBudget (insertFrom n rest t).2 = false ∨ L' = [] ∨ size D1 = (size D' + length rest + Z.to_nat (EvictBudget (cfg t)))%nat
     else (insertFrom n rest t).2 = t1).
Proof.
  intros Hc Htok Hw. destruct (walk_root _ _ _ _ _ Hw) as (d & -> & Hp & _ & Hr).
  destruct (insertFrom_spec t D L n rest (Hash <$> d) Hc Hp) as (t1 & D1 & L1 & D' & L' & H1 & H2 & H3 & H4 & H5); [|done|].
  { intros u Hu. apply Htok. apply elem_of_app. by right. }
  exists t1, D1, L1, D', L'. split_and!; [done| |done..]. by exists d.
Qed.

(** A commit's walk first touches the leaf it ends on. *)
Definition touched (n : loc) (t : Trie) : Trie :=
  if bool_decide (n ≠ root) && in_lru (order t) n then on_lru (lruMoveToFront n) t else t.
Lemma touched_core t D L n : core t D L → n ∈ D → ∃ L', core (touched n t) D L'.
Proof.
  intros Hc Hn. unfold touched. rewrite (co_L_in_lru _ _ _ _ Hc Hn). destruct (bool_decide (n ≠ root)); [|by exists L]. cbn [andb].
  case_bool_decide; [by eapply core_touch|by exists L].
Qed.
Lemma touched_heap t n : heap (touched n t) = heap t ∧ cfg (touched n t) = cfg t.
Proof. unfold touched. by destruct (_ && _). Qed.

Lemma insert_keeps t D L us n cached rest P : core t D L → counted t D P → (∀ u, u ∈ us → 0 ≤ Tokens u) →
  walk (heap t) root us 0 = (n, cached, rest) → ∃ D' L', core (insertFrom n rest t).2 D' L' ∧ counted (insertFrom n rest t).2 D' P.
Proof.
  intros Hc HP Htok Hw. destruct (request_spec _ _ _ _ _ _ _ Hc Htok Hw) as (t1 & D1 & L1 & D' & L' & H1 & (d & _ & H2) & H3 & H4 & _).
  exists D', L'. split; [done|]. eapply counted_shrunk; [exact H1|exact H3|done|]. eapply counted_grown; [exact Hc|exact H1|done|done].
Qed.

Lemma pin_path ns : ∀ t ks, path (foldl (λ t n, pin_one n t) t ns) ks = path t ks.
Proof.
  induction ns as [|n ns IH]; intros t ks; [done|]. cbn [foldl]. rewrite IH. unfold path. apply descend_ext. intros m k.
  assert (heap (pin_one n t) = <[n := set_pins (pins (heap t !!! n) + 1) (heap t !!! n)]> (heap t)) as ->.
  { unfold pin_one. destruct (_ =? 0); [|done]. by destruct (in_lru (order t) n). }
  apply pin_find.
Qed.
Lemma unpin_path ns : ∀ t ks, path (foldl (λ t n, unpin_one n t) t ns) ks = path t ks.
Proof.
  induction ns as [|n ns IH]; intros t ks; [done|]. cbn [foldl]. rewrite IH. unfold path. apply descend_ext. intros m k.
  unfold unpin_one. destruct (_ =? 0); [done|]. cbn [heap set_heap add_pinned].
  destruct (_ =? 0); [destruct (bool_decide _)|]; apply pin_find.
Qed.

Lemma path_root t D L ks : core t D L → path t ks = Some root → ks = [].
Proof. intros Hc Hp. by eapply (descend_inj (heap t) D (fresh t) ks (co_shape _ _ _ Hc) []). Qed.

Lemma pin_keeps t D L leaf P : core t D L → counted t D P → leaf ∈ D → leaf ≠ root →
  ∃ L', core (pinChain leaf t) D L' ∧ counted (pinChain leaf t) D (leaf :: P).
Proof.
  intros Hc [H1 H2] Hl Hr. destruct (kv_chain_in _ _ _ leaf (co_shape _ _ _ Hc) Hl) as [Hnd Hin].
  destruct (pin_all (chain (heap t) leaf) t D L Hc) as (L' & Hc' & _ & _ & Hs); [|done|].
  { apply Forall_forall. intros x Hx. destruct (Hin x Hx) as (? & ? & _). done. }
  exists L'. split; [done|]. fold (pinChain leaf t) in Hc', Hs.
  assert (Hch : ∀ p, p ∈ D → chain (heap (pinChain leaf t)) p = chain (heap t) p).
  { intros p Hp. eapply (chain_ext2 (heap t)); [apply Hc|apply Hc'|done| |done]. intros x _. apply Hs. }
  split.
  - intros p [-> |Hp]%elem_of_cons; auto.
  - intros l HlD Hlr. destruct (Hs l) as (_ & _ & _ & ->). rewrite cnt_cons, (Hch leaf Hl), H2 by done.
    rewrite (cnt_ext (heap t) (heap (pinChain leaf t)) P l); [lia|]. intros p Hp. apply Hch. by apply H1.
Qed.

Lemma unpin_keeps t D L leaf P1 P2 : core t D L → counted t D (P1 ++ leaf :: P2) →
  ∃ L', core (unpinChain leaf t) D L' ∧ counted (unpinChain leaf t) D (P1 ++ P2) ∧ cfg (unpinChain leaf t) = cfg t.
Proof.
  intros Hc [H1 H2]. assert (Hin0 : leaf ∈ P1 ++ leaf :: P2) by (apply elem_of_app; right; by left). destruct (H1 leaf Hin0) as [Hl Hr].
  destruct (kv_chain_in _ _ _ leaf (co_shape _ _ _ Hc) Hl) as [Hnd Hin].
  destruct (unpin_all (chain (heap t) leaf) t D L Hc) as (L' & Hc' & Hcf & _ & Hs); [|done|].
  { apply Forall_forall. intros x Hx. destruct (Hin x Hx) as (? & ? & _). split_and!; [done..|]. rewrite H2 by done. by eapply cnt_pos. }
  exists L'. fold (unpinChain leaf t) in Hc', Hs, Hcf. split_and!; [done| |done].
  assert (Hch : ∀ p, p ∈ D → chain (heap (unpinChain leaf t)) p = chain (heap t) p).
  { intros p Hp. eapply (chain_ext2 (heap t)); [apply Hc|apply Hc'|done| |done]. intros x _. apply Hs. }
  split.
  - intros p Hp. apply H1. rewrite elem_of_app in *. rewrite elem_of_cons. tauto.
  - intros l HlD Hlr. destruct (Hs l) as (_ & _ & _ & ->). rewrite H2 by done. rewrite cnt_app, cnt_cons.
    rewrite (cnt_ext (heap t) (heap (unpinChain leaf t)) (P1 ++ P2) l), cnt_app; [lia|]. intros p Hp. apply Hch. apply H1.
    rewrite elem_of_app in *. rewrite elem_of_cons. tauto.
Qed.

Lemma evict_keeps b t D L P : core t D L → counted t D P → ∃ D' L', core (evictLocked b t) D' L' ∧ counted (evictLocked b t) D' P ∧ shrunk t (evictLocked b t) D D'.
Proof.
  intros Hc HP. destruct (evict_loop b t D L Hc) as (D' & L' & Hc' & Hs & _). exists D', L'. split_and!; [done| |done].
  by eapply counted_shrunk; [exact Hc|exact Hc'|..].
Qed.

Lemma total_zero f D : (∀ l, l ∈ D → f l = 0) → total f D = 0.
Proof. intros Hf. rewrite (total_ext f (λ _, 0) D Hf). unfold total. by induction (elements D). Qed.

Lemma reset_core t D L : core t D L → counted t D [] → core (Reset t) {[root]} [] ∧ counted (Reset t) {[root]} [].
Proof.
  intros Hc [_ H2]. pose proof (co_shape _ _ _ Hc) as Hsh.
  assert (Hr : (<[root := inhabitant]> (heap t) : tree) !!! root = inhabitant) by apply lookup_total_insert_eq.
  assert (Hd : ({[root]} : gset loc) ∖ {[root]} = ∅) by set_solver.
  split; [split; cbn [heap order nodes tokens pinnedNodes anomalies fresh Reset]|].
  - split.
    + by apply elem_of_singleton.
    + intros l ->%elem_of_singleton. by apply (sh_lt _ _ _ Hsh), Hsh.
    + intros l k ->%elem_of_singleton. rewrite Hr. by intros ?%elem_of_nil.
    + by intros l ->%elem_of_singleton.
    + intros l ->%elem_of_singleton. unfold keys. rewrite Hr. constructor.
  - apply dll_empty.
  - intros l. rewrite elem_of_singleton, elem_of_nil. tauto.
  - intros l Hl _. change (in_lru (order t) l = false). apply (co_out _ _ _ Hc).
    + destruct Hl as [->%elem_of_singleton|Hl]; [left; apply Hsh|by right].
    + intros HlL. pose proof (proj1 (co_L _ _ _ Hc l) HlL) as (HlD & Hlr & _). destruct Hl as [->%elem_of_singleton|Hl]; [done|].
      apply (sh_lt _ _ _ Hsh) in HlD. lia.
  - by rewrite size_singleton.
  - by rewrite Hd.
  - intros l ->%elem_of_singleton. by rewrite Hr.
  - rewrite Hd, (co_pinned _ _ _ Hc). apply total_zero. intros l [HlD Hlr%not_elem_of_singleton]%elem_of_difference. by rewrite H2.
  - apply Hc.
  - split; [by intros p ?%elem_of_nil|]. by intros l ->%elem_of_singleton.
Qed.

Lemma observe_core c n t D L : core t D L → core (Observe c n t) D L.
Proof. intros [H1 H2 H3 H4 H5 H6 H7 H8 H9]. unfold Observe. destruct (_ <=? 0); by split. Qed.
Lemma observe_heap c n t : heap (Observe c n t) = heap t.
Proof. unfold Observe. by destruct (_ <=? 0). Qed.

Lemma wf_step w w' : wf w → kstep w w' → wf w'.
Proof.
  intros (D & L & Hc & HP) Hst. destruct Hst as [us t P Htok|us t P Htok|us c n leaf t t' P Htok Heq Hpath|leaf t P1 P2|c n t P|t]; cbn [fst snd] in *.
  - unfold Commit. destruct us as [|u us]; [by exists D, L|]. destruct (walk _ _ _ _) as [[n cached] rest] eqn:Hw.
    fold (touched n t). destruct (walk_root _ _ _ _ _ Hw) as (d & _ & Hp & _ & _). pose proof (path_in _ _ _ _ _ Hc Hp) as HnD.
    destruct (touched_core t D L n Hc HnD) as [L' Hc']. destruct (touched_heap t n) as [Hh _].
    eapply (insert_keeps (touched n t) D L'); [done|split; [apply HP|rewrite Hh; apply HP]|exact Htok|]. by rewrite Hh.
  - unfold RecordAndCount. destruct us as [|u us]; [by exists D, L|]. destruct (walk _ _ _ _) as [[n cached] rest] eqn:Hw. by eapply insert_keeps.
  - unfold RecordAndPin in Heq. destruct us as [|u us]; [done|]. destruct (walk _ _ _ _) as [[m cached] rest] eqn:Hw.
    destruct (insert_keeps _ _ _ _ _ _ _ _ Hc HP Htok Hw) as (D1 & L1 & Hc1 & HP1). destruct (insertFrom m rest t) as [leaf' t1]. cbn [fst snd] in *.
    assert (leaf' = leaf ∧ t' = pinChain leaf t1) as [-> ->] by (split; congruence).
    unfold pinChain in Hpath. rewrite pin_path in Hpath. pose proof (path_in _ _ _ _ _ Hc1 Hpath) as HlD.
    assert (Hlr : leaf ≠ root) by (intros ->; by apply (path_root _ _ _ _ Hc1) in Hpath).
    destruct (pin_keeps t1 D1 L1 leaf P Hc1 HP1 HlD Hlr) as (L2 & H1 & H2). by exists D1, L2.
  - destruct (unpin_keeps t D L leaf P1 P2 Hc HP) as (L1 & Hc1 & HP1 & _). unfold Unpin. cbn zeta. destruct (Bounded _); [|by exists D, L1].
    destruct (evict_keeps (Z.to_nat (EvictBudget (cfg (unpinChain leaf t)))) _ _ _ _ Hc1 HP1) as (D' & L' & H1 & H2 & _). by exists D', L'.
  - exists D, L. split; [by apply observe_core|]. split; [apply HP|]. cbn [fst snd]. rewrite observe_heap. apply HP.
  - exists {[root]}, []. by eapply reset_core.
Qed.

Lemma wf_steps w w' : wf w → rtc kstep w w' → wf w'.
Proof. intros Hw Hr. induction Hr; eauto using wf_step. Qed.
Lemma wf_new c : wf (New c, []).
Proof. exists {[root]}, []. split; [apply core_new|]. split; [by intros p ?%elem_of_nil|]. by intros l ->%elem_of_singleton. Qed.

(** ** Which prefixes a request adds *)

Lemma grown_prefixes t t1 D D1 d rest leaf us : us = d ++ rest → path t (Hash <$> d) ≠ None →
  grown t t1 D D1 (Hash <$> d) (Hash <$> rest) leaf → ∀ ks, holds t1 ks ↔ holds t ks ∨ ks `prefix_of` (Hash <$> us).
Proof.
  intros -> Hd Hg ks. rewrite (gr_new _ _ _ _ _ _ _ Hg), fmap_app. split.
  - intros [H|[m ->]]; [by left|]. right. apply prefix_app. exists (drop m (Hash <$> rest)). by rewrite take_drop.
  - intros [H|[k Hk]]; [by left|]. destruct (app_eq_inv _ _ _ _ (eq_sym Hk)) as [(k' & -> & ->)|(k' & Hk' & Hr)].
    + right. exists (length k'). by rewrite take_app_length.
    + left. apply (kv_holds_prefix t ks k'). rewrite <-Hk'. by apply not_eq_None_Some.
Qed.

Lemma count_prefixes t D L us P : core t D L → counted t D P → (∀ u, u ∈ us → 0 ≤ Tokens u) → ∀ ks,
  (holds (RecordAndCount us t).2 ks → holds t ks ∨ ks `prefix_of` (Hash <$> us)) ∧
  (Bounded (cfg t) = false → holds (RecordAndCount us t).2 ks ↔ holds t ks ∨ ks `prefix_of` (Hash <$> us)) ∧ cfg (RecordAndCount us t).2 = cfg t.
Proof.
  intros Hc HP Htok ks. unfold RecordAndCount. destruct us as [|u us'] eqn:Hus.
  { cbn. assert (Hnil : ks `prefix_of` [] → holds t ks) by (intros [k Hk]; destruct ks; [by exists root|done]). tauto. }
  rewrite <-Hus in *. clear u us' Hus. destruct (walk _ _ _ _) as [[n cached] rest] eqn:Hw. cbn [snd].
  destruct (request_spec _ _ _ _ _ _ _ Hc Htok Hw) as (t1 & D1 & L1 & D' & L' & H1 & (d & Hd & H2) & H3 & H4 & H5).
  destruct (walk_root _ _ _ _ _ Hw) as (d' & Hd' & Hp & _). assert (d' = d) as -> by (rewrite Hd' in Hd; by apply app_inv_tail in Hd).
  pose proof (grown_prefixes t t1 D D1 d rest _ us Hd ltac:(by rewrite Hp) H2 ks) as Hg.
  assert (Hcf : cfg (insertFrom n rest t).2 = cfg t) by (rewrite (shr_cfg _ _ _ _ H4); apply (gr_cfg _ _ _ _ _ _ _ H2)).
  split_and!; [|intros Hb; rewrite Hb in H5; by rewrite H5|done].
  intros [l Hl]. apply (shr_path _ _ _ _ H4) in Hl as [Hl _]. apply Hg. by exists l.
Qed.

(** ** The properties *)


(** A query is the longest held prefix: it credits exactly the tokens of the leading units
    that are held, and no more leading units are. *)
Theorem query_longest (t : Trie) (us : list Unit_) : ∃ m, (m ≤ length us)%nat ∧
  Query t us = (sum_tokens (take m us), sum_tokens us) ∧ holds t (Hash <$> take m us) ∧
  ((m < length us)%nat → ¬ holds t (Hash <$> take (S m) us)).
Proof.
  destruct us as [|u us'] eqn:Hus; [exists 0%nat; cbn; split_and!; [lia|done|by exists root|lia]|]. rewrite <-Hus.
  assert (HQ : Query t us = let '(_, cached, _) := walk (heap t) root us 0 in (cached, sum_tokens us)) by (by rewrite Hus). clear Hus u us'.
  destruct (walk _ _ _ _) as [[n cached] rest] eqn:Hw. destruct (walk_root _ _ _ _ _ Hw) as (d & -> & Hp & -> & Hr).
  exists (length d). rewrite take_app_length, length_app. split_and!; [lia|done|by exists n|].
  intros Hlt. destruct rest as [|x rest]; [cbn in Hlt; lia|]. replace (S (length d)) with (length d + 1)%nat by lia.
  rewrite take_app_add. cbn [take]. intros [l Hl]. unfold path in *. rewrite fmap_app in Hl. cbn in Hl. rewrite descend_snoc, Hp in Hl. congruence.
Qed.

(** The offline simulator's use: count and learn, request after request. *)
Definition simulate (rs : list (list Unit_)) (t : Trie) : Trie := foldl (λ t r, (RecordAndCount r t).2) t rs.

Lemma simulate_holds c rs : Bounded c = false → (∀ r u, r ∈ rs → u ∈ r → 0 ≤ Tokens u) →
  wf (simulate rs (New c), []) ∧ Bounded (cfg (simulate rs (New c))) = false ∧
  ∀ ks, holds (simulate rs (New c)) ks ↔ ks = [] ∨ ∃ r, r ∈ rs ∧ ks `prefix_of` (Hash <$> r).
Proof.
  intros Hb. induction rs as [|r rs IH] using rev_ind; intros Htok.
  - split_and!; [apply wf_new|change (Bounded (cfg (New c)) = false); unfold New; rewrite Hb; exact Hb|]. intros ks. unfold holds, path. cbn. split.
    + intros [l Hl]. left. destruct ks as [|k ks]; [done|]. cbn in Hl. destruct (find _ root k) as [x|] eqn:E; [|done].
      apply (find_spec _ _ _ root k x (co_shape _ _ _ (core_new c))) in E as [E _]; [|by apply elem_of_singleton].
      change (heap (New c)) with ({[root := inhabitant]} : tree) in E. rewrite lookup_total_singleton_eq in E. by apply elem_of_nil in E.
    + intros [-> |(r & Hr%elem_of_nil & _)]; [by exists root|done].
  - destruct IH as (Hwf & Hbd & Hh); [intros r' u Hr'; apply Htok; apply elem_of_app; by left|].
    assert (Hr : ∀ u, u ∈ r → 0 ≤ Tokens u) by (intros u; apply Htok; apply elem_of_app; right; by left).
    unfold simulate. rewrite foldl_app. cbn [foldl]. fold (simulate rs (New c)). destruct Hwf as (D & L & Hc & HP). cbn [fst snd] in *.
    pose proof (count_prefixes _ _ _ r _ Hc HP Hr) as Hcp. split_and!.
    + apply (wf_step (simulate rs (New c), [])); [by exists D, L|]. by apply k_count.
    + by rewrite (proj2 (proj2 (Hcp []))).
    + intros ks. destruct (Hcp ks) as (_ & Hx & _). rewrite (Hx Hbd), Hh. split.
      * intros [[-> |(r' & Hr' & Hk)]|Hk]; [by left|right; exists r'; rewrite elem_of_app; auto|right; exists r; rewrite elem_of_app, list_elem_of_singleton; auto].
      * intros [-> |(r' & [Hr'| ->%list_elem_of_singleton]%elem_of_app & Hk)]; [by left; left|left; right; eauto|by right].
Qed.

(** C29: Unbounded, the trie is the ideal cache: after any requests, the next one is credited
    with exactly its longest leading run of units that some earlier request began with. *)
Theorem unbounded_is_ideal (c : Config) (rs : list (list Unit_)) (us : list Unit_) (Hb : Bounded c = false)
  (Htok : ∀ r u, r ∈ us :: rs → u ∈ r → 0 ≤ Tokens u) : ∃ m, (m ≤ length us)%nat ∧
  (RecordAndCount us (simulate rs (New c))).1 = (sum_tokens (take m us), sum_tokens us) ∧
  (m = 0%nat ∨ ∃ r, r ∈ rs ∧ (Hash <$> take m us) `prefix_of` (Hash <$> r)) ∧
  ((m < length us)%nat → ∀ r, r ∈ rs → ¬ (Hash <$> take (S m) us) `prefix_of` (Hash <$> r)).
Proof.
  destruct (simulate_holds c rs Hb) as (_ & _ & Hh); [intros r u Hr; apply Htok; by right|].
  destruct (query_longest (simulate rs (New c)) us) as (m & Hm & HQ & H1 & H2). exists m.
  assert (Heq : (RecordAndCount us (simulate rs (New c))).1 = Query (simulate rs (New c)) us).
  { unfold RecordAndCount, Query. destruct us; [done|]. by destruct (walk _ _ _ _) as [[n x] rest]. }
  split_and!; [done|by rewrite Heq| |].
  - apply Hh in H1 as [H1|H1]; [|by right]. left. apply fmap_nil_inv in H1. destruct m; [done|]. destruct us; [cbn in Hm; lia|done].
  - intros Hlt r Hr Hpre. apply H2; [done|]. apply Hh. right. by exists r.
Qed.

(** What is pinned is not evicted: as long as a request's pin is outstanding, its whole
    chain stays where it is, whatever the others do. *)
Theorem pinned_survives (w w' : ksys) (leaf : loc) (ks : list Z) (Hwf : wf w) (Hst : kstep w w')
  (Hin : leaf ∈ w.2) (Hin' : leaf ∈ w'.2) (Hp : path w.1 ks = Some leaf) : path w'.1 ks = Some leaf.
Proof.
  destruct Hwf as (D & L & Hc & HP).
  assert (Hins : ∀ t D L us n cached rest, core t D L → counted t D w.2 → (∀ u, u ∈ us → 0 ≤ Tokens u) → walk (heap t) root us 0 = (n, cached, rest) →
    path t ks = Some leaf → path (insertFrom n rest t).2 ks = Some leaf).
  { clear D L Hc HP Hp. intros t D L us n cached rest Hc HP Htok Hw Hp.
    destruct (request_spec _ _ _ _ _ _ _ Hc Htok Hw) as (t1 & D1 & L1 & D' & L' & H1 & (d & _ & H2) & H3 & H4 & _).
    pose proof (counted_grown _ _ _ _ _ _ _ _ _ _ Hc H1 H2 HP) as HP1. pose proof (counted_shrunk _ _ _ _ _ _ _ H1 H3 H4 HP1) as HP'.
    apply (shr_path _ _ _ _ H4). split; [by apply (gr_old _ _ _ _ _ _ _ H2)|]. by apply (ct_in _ _ _ HP'). }
  destruct Hst as [us t P Htok|us t P Htok|us c n lf t t' P Htok Heq Hpath|lf t P1 P2|c n t P|t]; cbn [fst snd] in *.
  - unfold Commit. destruct us as [|u us]; [done|]. destruct (walk _ _ _ _) as [[n cached] rest] eqn:Hw. fold (touched n t).
    destruct (walk_root _ _ _ _ _ Hw) as (d & _ & Hpn & _). destruct (touched_core t D L n Hc (path_in _ _ _ _ _ Hc Hpn)) as [L' Hc'].
    destruct (touched_heap t n) as [Hh _]. eapply Hins; [exact Hc'|split; [apply HP|rewrite Hh; apply HP]|exact Htok|by rewrite Hh|]. unfold path. by rewrite Hh.
  - unfold RecordAndCount. destruct us as [|u us]; [done|]. destruct (walk _ _ _ _) as [[n cached] rest] eqn:Hw. by eapply Hins.
  - unfold RecordAndPin in Heq. destruct us as [|u us]; [done|]. destruct (walk _ _ _ _) as [[m cached] rest] eqn:Hw.
    pose proof (Hins _ _ _ _ _ _ _ Hc HP Htok Hw Hp) as Hp1. destruct (insertFrom m rest t) as [lf' t1]. cbn [snd] in Hp1.
    assert (t' = pinChain lf' t1) as -> by congruence. unfold pinChain. by rewrite pin_path.
  - destruct (unpin_keeps t D L lf P1 P2 Hc HP) as (L1 & Hc1 & HP1 & _). unfold Unpin. cbn zeta.
    assert (Hp1 : path (unpinChain lf t) ks = Some leaf) by (unfold unpinChain; by rewrite unpin_path).
    destruct (Bounded _); [|done]. destruct (evict_keeps (Z.to_nat (EvictBudget (cfg (unpinChain lf t)))) _ _ _ _ Hc1 HP1) as (D' & L' & _ & H2 & H3).
    apply (shr_path _ _ _ _ H3). split; [done|]. by apply (ct_in _ _ _ H2).
  - unfold path. by rewrite observe_heap.
  - by apply elem_of_nil in Hin.
Qed.

(** All leaves pinned, there is nothing to evict. *)
Lemma no_leaf_no_tree t D L : core t D L → L = [] → (∀ l, l ∈ D → l ≠ root → pins (heap t !!! l) = 0) → D = {[root]}.
Proof.
  intros Hc -> Hpin. pose proof (co_shape _ _ _ Hc) as Hsh. apply set_eq. intros x. rewrite elem_of_singleton. split; [|intros ->; apply Hsh].
  assert (Hall : ∀ k l, (Pos.to_nat (fresh t) - Pos.to_nat l ≤ k)%nat → l ∈ D → l = root ∨ kids (heap t !!! l) ≠ []).
  { intros k l _ Hl. destruct (decide (l = root)) as [|Hr]; [by left|]. right. intros Hk. assert (l ∈ []) as Hx by (apply (co_L _ _ _ Hc); auto).
    by apply elem_of_nil in Hx. }
  intros Hx. destruct (decide (x = root)) as [|Hr]; [done|]. exfalso. remember (Pos.to_nat (fresh t) - Pos.to_nat x)%nat as k eqn:Ek.
  revert x Hx Hr Ek. induction k as [k IH] using lt_wf_ind. intros x Hx Hr Ek. destruct (Hall k x) as [|Hk]; [lia|done|done|].
  destruct (kids (heap t !!! x)) as [|y ys] eqn:Ey; [done|]. assert (y ∈ kids (heap t !!! x)) as Hy by (rewrite Ey; by left).
  destruct (sh_kid _ _ _ Hsh x y Hx Hy) as (HyD & Hlt & _). pose proof (sh_lt _ _ _ Hsh y HyD). pose proof (sh_lt _ _ _ Hsh x Hx).
  apply (IH (Pos.to_nat (fresh t) - Pos.to_nat y)%nat ltac:(lia) y HyD); [lia|done].
Qed.

(** A bounded trie stays within its node bound: if it was, it is after any request; unless
    everything evictable is gone and what is left is pinned. *)
Theorem commit_within_bound (t : Trie) (P : list loc) (us : list Unit_) (Hwf : wf (t, P)) (Htok : ∀ u, u ∈ us → 0 ≤ Tokens u)
  (Hmax : 0 < MaxNodes (cfg t)) (Hn : nodes t ≤ MaxNodes (cfg t)) :
  nodes (RecordAndCount us t).2 ≤ MaxNodes (cfg t) ∨ P ≠ [] ∧ tail (order (RecordAndCount us t).2) = None.
Proof.
  destruct Hwf as (D & L & Hc & HP). cbn [fst snd] in *. unfold RecordAndCount. destruct us as [|u us'] eqn:Hus; [by left|]. rewrite <-Hus in *. clear u us' Hus.
  destruct (walk _ _ _ _) as [[n cached] rest] eqn:Hw. cbn [snd].
  destruct (insert_keeps _ _ _ _ _ _ _ _ Hc HP Htok Hw) as (D0 & L0 & Hc0 & HP0).
  destruct (request_spec _ _ _ _ _ _ _ Hc Htok Hw) as (t1 & D1 & L1 & D' & L' & H1 & (d & _ & H2) & H3 & H4 & H5).
  pose proof (counted_shrunk _ _ _ _ _ _ _ H1 H3 H4 (counted_grown _ _ _ _ _ _ _ _ _ _ Hc H1 H2 HP)) as HP'.
  assert (Hcf : cfg (insertFrom n rest t).2 = cfg t) by (rewrite (shr_cfg _ _ _ _ H4); apply (gr_cfg _ _ _ _ _ _ _ H2)).
  unfold Bounded in H5. rewrite (proj2 (Z.ltb_lt 0 (MaxNodes (cfg t)))) in H5 by done. cbn [orb] in H5.
  destruct H5 as [Hov|[HL|Hsz]].
  - left. unfold overBudget in Hov. rewrite Hcf, (proj2 (Z.ltb_lt 0 (MaxNodes (cfg t)))) in Hov by done. cbn [andb] in Hov.
    apply orb_false_iff in Hov as [Hov%Z.ltb_ge _]. done.
  - destruct P as [|p P]; [|right; split; [done|]; by rewrite (dll_tail _ _ (co_dll _ _ _ H3)), HL]. left.
    assert (D' = {[root]}) as HD.
    { eapply no_leaf_no_tree; [exact H3|done|]. intros l Hl Hr. by rewrite (ct_pins _ _ _ HP'). }
    rewrite (co_nodes _ _ _ H3), HD, size_singleton. lia.
  - left. rewrite (co_nodes _ _ _ H3). rewrite (co_nodes _ _ _ Hc) in Hn. pose proof (gr_size _ _ _ _ _ _ _ H2) as Hg. rewrite length_fmap in Hg. lia.
Qed.

(** ** Keys as text *)

Lemma hexchar_digit d : 0 ≤ d < 16 → hex_digit (hexchar d) = Some d ∧ hexchar d ≠ 58.
Proof.
  intros Hd. assert (d ∈ seqZ 0 16) as Hin by (apply elem_of_seqZ; lia). revert d Hin Hd. change (seqZ 0 16) with [0;1;2;3;4;5;6;7;8;9;10;11;12;13;14;15].
  intros d Hin _. revert d Hin. apply Forall_forall. repeat constructor; done.
Qed.

Lemma hex_byte b : 0 ≤ b < 256 → 0 ≤ Z.shiftr b 4 < 16 ∧ 0 ≤ Z.land b 15 < 16 ∧ Z.shiftr b 4 * 16 + Z.land b 15 = b.
Proof.
  intros Hb. rewrite Z.shiftr_div_pow2 by lia. change 15 with (Z.ones 4). rewrite Z.land_ones by lia. change (2 ^ 4) with 16.
  pose proof (Z.div_mod b 16 ltac:(lia)). pose proof (Z.mod_pos_bound b 16 ltac:(lia)). split_and!; try lia.
Qed.

Lemma ParseHex_byte acc b r : 0 ≤ b < 256 → ParseHex acc (hexchar (Z.shiftr b 4) :: hexchar (Z.land b 15) :: r) = ParseHex (acc * 256 + b) r.
Proof.
  intros Hb. destruct (hex_byte b Hb) as (H1 & H2 & H3). cbn [ParseHex]. destruct (hexchar_digit _ H1) as [-> _]. destruct (hexchar_digit _ H2) as [-> _].
  f_equal. lia.
Qed.

Lemma shift_byte h k' k : 0 ≤ k → k' = k + 8 → Z.shiftr h k' * 256 + Z.shiftr h k mod 256 = Z.shiftr h k.
Proof.
  intros Hk ->. rewrite !Z.shiftr_div_pow2 by lia. rewrite Z.pow_add_r by lia. change (2 ^ 8) with 256.
  rewrite <-Z.div_div by lia. pose proof (Z.div_mod (h / 2 ^ k) 256 ltac:(lia)). lia.
Qed.

Lemma colon_none s : Forall (λ c, c ≠ 58) s → ∀ acc, after_last_colon s acc = acc.
Proof. induction 1 as [|c s Hc _ IH]; intros acc; cbn; [done|]. by rewrite (proj2 (Z.eqb_neq _ _)). Qed.
Lemma colon_last pre s : Forall (λ c, c ≠ 58) s → ∀ acc, after_last_colon (pre ++ 58 :: s) acc = s.
Proof.
  intros Hs. induction pre as [|c pre IH]; intros acc; cbn [app after_last_colon]; [by rewrite colon_none|]. by destruct (c =? 58).
Qed.

(** A key written out reads back: the hexadecimal form of any 64-bit key, behind any
    prefix ending in a colon, is folded back to the key itself, without hashing. *)
Theorem hexhash_roundtrip (sha256 : bytes → bytes) (pre : bytes) (h : Z) (Hh : 0 ≤ h < two64) : HashLabel sha256 (pre ++ 58 :: HexHash h) = h.
Proof.
  assert (Hb : ∀ k, 0 ≤ Z.shiftr h k mod 256 < 256) by (intros k; apply Z.mod_pos_bound; lia).
  assert (Hx : HexHash h = mjoin ((λ b, [hexchar (Z.shiftr b 4); hexchar (Z.land b 15)]) <$> ((λ k, Z.shiftr h k mod 256) <$> [56; 48; 40; 32; 24; 16; 8; 0]))) by done.
  assert (Hno : Forall (λ c, c ≠ 58) (HexHash h)).
  { rewrite Hx. apply Forall_forall. intros c (l & Hc & Hl)%list_elem_of_join. apply list_elem_of_fmap in Hl as (b & -> & Hl).
    apply list_elem_of_fmap in Hl as (k & -> & _). destruct (hex_byte _ (Hb k)) as (H1 & H2 & _).
    rewrite !elem_of_cons, elem_of_nil in Hc. destruct Hc as [-> | [-> | []]]; by apply hexchar_digit. }
  unfold HashLabel. rewrite colon_last by done. change (length (HexHash h)) with 16%nat. cbn [Nat.eqb].
  assert (Hp : ParseHex 0 (HexHash h) = Some h); [|by rewrite Hp].
  rewrite Hx. cbn [fmap list_fmap mjoin list_join app]. rewrite !ParseHex_byte by apply Hb. cbn [ParseHex].
  assert (H64 : Z.shiftr h 64 = 0) by (rewrite Z.shiftr_div_pow2 by lia; apply Z.div_small; done).
  pose proof (shift_byte h 64 56 ltac:(lia) eq_refl) as H56. rewrite H64 in H56. rewrite H56.
  rewrite (shift_byte h 56 48), (shift_byte h 48 40), (shift_byte h 40 32), (shift_byte h 32 24), (shift_byte h 24 16), (shift_byte h 16 8), (shift_byte h 8 0) by lia.
  by rewrite Z.shiftr_0_r.
Qed.

Lemma hexhash_roundtrip_witness : HashLabel id ([115; 104; 97] ++ 58 :: HexHash 81985529216486895) = 81985529216486895.
Proof. apply (hexhash_roundtrip id). done. Defined.

(** ** Witnesses, and two findings *)

Definition ua : Unit_ := MkUnit 10 4.
Definition ub : Unit_ := MkUnit 11 4.
Definition uc : Unit_ := MkUnit 12 4.

(** At most two nodes: [a; b] committed and pinned, [c] committed, [a; b] unpinned. *)
Definition wit_cfg : Config := MkConfig 2 0 4.
Definition wit_t1 : Trie := (RecordAndPin [ua; ub] (New wit_cfg)).2.
Definition wit_t2 : Trie := Commit [ua; uc] wit_t1.
Definition wit_t3 : Trie := Unpin (Some 3%positive) wit_t2.

Lemma wit_units us u : us = [ua; ub] ∨ us = [ua; uc] → u ∈ us → 0 ≤ Tokens u.
Proof. intros [-> | ->] Hu; rewrite !elem_of_cons, elem_of_nil in Hu; destruct Hu as [-> | [-> | []]]; done. Qed.

Lemma wit_step1 : kstep (New wit_cfg, []) (wit_t1, [3%positive]).
Proof.
  apply (k_pin [ua; ub] 0 8 3); [intros u; apply wit_units; by left| |by vm_compute].
  unfold wit_t1. by vm_compute.
Qed.
Lemma wit_step2 : kstep (wit_t1, [3%positive]) (wit_t2, [3%positive]).
Proof. apply k_commit. intros u. apply wit_units. by right. Qed.
Lemma wit_step3 : kstep (wit_t2, [3%positive]) (wit_t3, []).
Proof. apply (k_unpin 3 wit_t2 [] []). Qed.
Lemma wit_wf1 : wf (wit_t1, [3%positive]).
Proof. eapply wf_step; [apply wf_new|apply wit_step1]. Qed.


Lemma unbounded_is_ideal_witness : ∃ m, (m ≤ 2)%nat ∧
  (RecordAndCount [ua; uc] (simulate [[ua; ub]] (New (MkConfig 0 0 0)))).1 = (sum_tokens (take m [ua; uc]), sum_tokens [ua; uc]).
Proof.
  destruct (unbounded_is_ideal (MkConfig 0 0 0) [[ua; ub]] [ua; uc]) as (m & H1 & H2 & _); [done| |by exists m].
  intros r u Hr. rewrite !elem_of_cons, elem_of_nil in Hr. apply wit_units. destruct Hr as [-> | [-> | []]]; auto.
Defined.

Lemma pinned_survives_witness : path wit_t2 [10; 11] = Some 3%positive.
Proof.
  apply (pinned_survives (wit_t1, [3%positive]) (wit_t2, [3%positive]) 3 [10; 11] wit_wf1 wit_step2); [by left|by left|by vm_compute].
Defined.

Lemma commit_within_bound_witness : nodes (RecordAndCount [ua; uc] wit_t1).2 ≤ 2 ∨ [3%positive] ≠ [] ∧ tail (order (RecordAndCount [ua; uc] wit_t1).2) = None.
Proof.
  apply (commit_within_bound wit_t1 [3%positive] [ua; uc] wit_wf1); [intros u; apply wit_units; by right|by vm_compute..].
Defined.

(** [RecordAndPin] evicts before it pins.  With the one slot of the cache pinned by [a], [b]'s
    own node is evicted and then pinned: the pin protects nothing, and once both are released
    the orphan is on the LRU list, its eviction is counted, and the trie holds two nodes while
    it believes it holds one. *)
Definition own_t1 : Trie := (RecordAndPin [ua] (New (MkConfig 1 0 4))).2.
Definition own_t2 : Trie := (RecordAndPin [ub] own_t1).2.
Definition own_t3 : Trie := Commit [uc] (Unpin (Some 2%positive) (Unpin (Some 3%positive) own_t2)).
Lemma pin_evicts_its_own :
  (RecordAndPin [ub] own_t1).1 = (0, 4, Some 3%positive) ∧ Query own_t2 [ub] = (0, 4) ∧ PinnedNodes own_t2 = 2 ∧
  Query own_t3 [ua] = (4, 4) ∧ Query own_t3 [uc] = (4, 4) ∧ Stats own_t3 = (1, 4, 0).
Proof. by vm_compute. Qed.

(** A pin released after [Reset] puts its orphan on the LRU list of the reset trie: the size
    then drifts, and the bound of one node is exceeded. *)
Definition reset_t : Trie := Commit [uc] (Commit [ub] (Unpin (Some 2%positive) (Reset own_t1))).
Lemma reset_corrupted : Query reset_t [ub] = (4, 4) ∧ Query reset_t [uc] = (4, 4) ∧ Stats reset_t = (1, 4, 0).
Proof. by vm_compute. Qed.
