(* ===== verification/PrefillManager.v ===== *)
(** * PrefillManager: nodes taken out of decode for large prefills

    [src/router/internal/prefill/manager.go].  A [*node] and a [*Job] are locations: a job
    keeps the node it was placed on even when [Prune] has forgotten it.  A backend is its URL;
    what the manager reads of it, its in-flight count and its load, is the [gauges] of the
    moment.  Every method is one critical section, except [WaitReady], whose rounds are
    separate ones.  Metrics are left out, their mirrors in the manager are not. *)

From stdpp Require Import base gmap sets list strings.
From Stdlib Require Import ZArith Lia.
From Corelib Require Import SpecFloat.
From S2P Require Import Prelude KvUnits Circuit WaitQ Backend Policy.
Open Scope Z_scope.

(** ** Data *)

Inductive Mode := Decode | Draining | Prefill.
#[export] Instance Mode_eq_dec : EqDecision Mode.
Proof. solve_decision. Defined.

Definition DefaultNodeBudgetTokens : Z := 4000000.
(** [0.5] is exact. *)
Definition DefaultMaxFleetFraction : float64 := f64_div (f64_of_Z 1) (f64_of_Z 2).

Record Config := MkConfig {
  NodeBudgetTokens : Z;
  MaxFleetFraction : float64;
  NodeConcurrency : Z;
  ConvertAfter : Z;
  ReleaseIdle : Z
}.

Definition withDefaults (c : Config) : Config :=
  let budget := if NodeBudgetTokens c <=? 0 then DefaultNodeBudgetTokens else NodeBudgetTokens c in
  let frac := if (SFleb (MaxFleetFraction c) (S754_zero false) || SFltb (f64_of_Z 1) (MaxFleetFraction c))%bool
              then DefaultMaxFleetFraction else MaxFleetFraction c in
  MkConfig budget frac (NodeConcurrency c) (ConvertAfter c) (ReleaseIdle c).

(** The zero time is [None]. *)
Record node := Node {
  n_b : string;
  running : Z;
  queue : list positive;
  mode : Mode;
  pending : Z;
  overSince : option Z;
  idleSince : option Z
}.
#[export] Instance node_inhabited : Inhabited node := populate (Node "" 0 [] Decode 0 None None).

(** [granted] is closed exactly when [held] is first set; [once] is the [sync.Once]. *)
Record Job := MkJob {
  j_n : positive;
  j_tokens : Z;
  once : bool;
  held : bool;
  queued : bool;
  granted : bool;
  j_Backend : string
}.
#[export] Instance Job_inhabited : Inhabited Job := populate (MkJob 1 0 true false false false "").

Record Manager := MkManager {
  cfg : Config;
  nodes : gmap string positive;
  nheap : gmap positive node;
  jobs : gmap positive Job;
  next_node : positive;
  next_job : positive;
  conversions : Z;
  releases : Z
}.

Definition New (c : Config) : Manager := MkManager (withDefaults c) ∅ ∅ ∅ 1 1 0 0.

Record gauges := Gauges { Inflight : string → Z; NormalizedLoad : string → float64 }.

(** ** Updates *)

Definition on_node (n : positive) (f : node → node) (m : Manager) : Manager :=
  MkManager (cfg m) (nodes m) (<[n := f (nheap m !!! n)]> (nheap m)) (jobs m) (next_node m) (next_job m) (conversions m) (releases m).
Definition on_job (j : positive) (f : Job → Job) (m : Manager) : Manager :=
  MkManager (cfg m) (nodes m) (nheap m) (<[j := f (jobs m !!! j)]> (jobs m)) (next_node m) (next_job m) (conversions m) (releases m).

Definition set_running (r : Z) (x : node) := Node (n_b x) r (queue x) (mode x) (pending x) (overSince x) (idleSince x).
Definition set_queue (q : list positive) (x : node) := Node (n_b x) (running x) q (mode x) (pending x) (overSince x) (idleSince x).
Definition set_mode (md : Mode) (x : node) := Node (n_b x) (running x) (queue x) md (pending x) (overSince x) (idleSince x).
Definition set_pending (p : Z) (x : node) := Node (n_b x) (running x) (queue x) (mode x) p (overSince x) (idleSince x).
Definition set_over (o : option Z) (x : node) := Node (n_b x) (running x) (queue x) (mode x) (pending x) o (idleSince x).
Definition set_idle (i : option Z) (x : node) := Node (n_b x) (running x) (queue x) (mode x) (pending x) (overSince x) i.
Definition set_granted (j : Job) := MkJob (j_n j) (j_tokens j) (once j) true false true (j_Backend j).
Definition set_held (h : bool) (j : Job) := MkJob (j_n j) (j_tokens j) (once j) h (queued j) (granted j) (j_Backend j).
Definition set_queued (q : bool) (j : Job) := MkJob (j_n j) (j_tokens j) (once j) (held j) q (granted j) (j_Backend j).
Definition set_once (j : Job) := MkJob (j_n j) (j_tokens j) true (held j) (queued j) (granted j) (j_Backend j).

(** ** Under the lock *)

Definition nodeLocked (b : string) (m : Manager) : positive * Manager :=
  match nodes m !! b with
  | Some n => (n, m)
  | None => let n := next_node m in
            (n, MkManager (cfg m) (<[b := n]> (nodes m)) (<[n := Node b 0 [] Decode 0 None None]> (nheap m)) (jobs m)
                  (Pos.succ n) (next_job m) (conversions m) (releases m))
  end.

Definition trackBudgetLocked (now : Z) (n : positive) (m : Manager) : Manager :=
  let x := nheap m !!! n in
  if pending x <=? NodeBudgetTokens (cfg m) then on_node n (set_over None) m
  else match overSince x with None => on_node n (set_over (Some now)) m | Some _ => m end.

Definition dequeueLocked (j : positive) (m : Manager) : Manager :=
  if negb (queued (jobs m !!! j)) then m
  else
    let n := j_n (jobs m !!! j) in
    let m := match list_find (λ q, q = j) (queue (nheap m !!! n)) with
             | Some (i, _) => on_node n (λ x, set_queue (delete i (queue x)) x) m
             | None => m
             end in
    on_job j (set_queued false) m.

(** A slot for the head of the queue, in the loop of [grantLocked]. *)
Definition grant_one (n j : positive) (q : list positive) (m : Manager) : Manager :=
  on_node n (λ x, set_running (running x + 1) (set_queue q x)) (on_job j set_granted m).

Fixpoint grant_loop (fuel : nat) (g : gauges) (n : positive) (m : Manager) : Manager :=
  match fuel with
  | O => m
  | S f =>
      let x := nheap m !!! n in
      let limit := NodeConcurrency (cfg m) in
      match queue x with
      | [] => m
      | j :: q =>
          if bool_decide (mode x = Draining) then m
          else if (0 <? limit) && ((limit <=? running x) || (limit <=? Inflight g (n_b x))) then m
          else grant_loop f g n (grant_one n j q m)
      end
  end.
(** Each round takes one from the queue. *)
Definition grantLocked (g : gauges) (n : positive) (m : Manager) : Manager := grant_loop (length (queue (nheap m !!! n))) g n m.

Definition releaseLocked (n : positive) (m : Manager) : Manager :=
  let m := on_node n (λ x, set_idle None (set_mode Decode x)) m in
  MkManager (cfg m) (nodes m) (nheap m) (jobs m) (next_node m) (next_job m) (conversions m) (releases m + 1).

Definition releaseIfIdleLocked (now : Z) (n : positive) (m : Manager) : Manager :=
  let x := nheap m !!! n in
  if bool_decide (mode x = Decode) || negb (pending x =? 0) || negb (running x =? 0) || bool_decide (queue x ≠ []) then m
  else if bool_decide (mode x = Prefill) && (0 <? ReleaseIdle (cfg m)) then
    match idleSince x with None => on_node n (set_idle (Some now)) m | Some _ => m end
  else releaseLocked n m.

(** A held slot given back, and handed on. *)
Definition give_back (g : gauges) (j : positive) (m : Manager) : Manager :=
  if held (jobs m !!! j) then
    let n := j_n (jobs m !!! j) in
    grantLocked g n (on_node n (λ x, set_running (running x - 1) x) (on_job j (set_held false) m))
  else m.

Definition Done (g : gauges) (now : Z) (j : positive) (m : Manager) : Manager :=
  if once (jobs m !!! j) then m
  else
    let m := on_job j set_once m in
    let m := give_back g j (dequeueLocked j m) in
    let n := j_n (jobs m !!! j) in
    let m := on_node n (λ x, set_pending (pending x - j_tokens (jobs m !!! j)) x) m in
    releaseIfIdleLocked now n (trackBudgetLocked now n m).

(** ** Reading *)

Definition mode_of_url (m : Manager) (b : string) : Mode :=
  match nodes m !! b with Some n => mode (nheap m !!! n) | None => Decode end.
Definition ModeOf (b : string) (m : Manager) : Mode := mode_of_url m b.

Definition DecodeNodes (cands : list string) (m : Manager) : list string :=
  match filter (λ b, mode_of_url m b = Decode) cands with [] => cands | out => out end.

(** ** Reserve *)

(** The reservoir scans of [leastPendingLocked] and [leastLoaded]; [ds] is what [rand.IntN]
    returns, and what is left of it. *)
Definition least_step {A} (lt eq : A → A → bool) (acc : A * nat * list nat) (b : A) : A * nat * list nat :=
  let '(best, ties, ds) := acc in
  if lt b best then (b, 1%nat, ds)
  else if eq b best then (if bool_decide (default O (head ds) = O) then b else best, S ties, tail ds)
  else acc.
Definition least {A} (lt eq : A → A → bool) (b : A) (bs : list A) (ds : list nat) : A * list nat :=
  let '(best, _, ds) := foldl (least_step lt eq) (b, 1%nat, ds) bs in (best, ds).

Definition pend (m : Manager) (b : string) : Z := match nodes m !! b with Some n => pending (nheap m !!! n) | None => 0 end.

Definition leastPendingLocked (m : Manager) (b : string) (bs : list string) (ds : list nat) : string * list nat :=
  least (λ x y, pend m x <? pend m y) (λ x y, pend m x =? pend m y) b bs ds.
Definition leastLoaded (g : gauges) (b : string) (bs : list string) (ds : list nat) : string :=
  (least (λ x y, SFltb (NormalizedLoad g x) (NormalizedLoad g y)) (λ x y, SFeqb (NormalizedLoad g x) (NormalizedLoad g y)) b bs ds).1.

Definition canConvertLocked (m : Manager) (fleet nonDecode decode : Z) : bool :=
  let limit := Z.min (f64_to_i64 (f64_mul (f64_of_Z fleet) (MaxFleetFraction (cfg m)))) (fleet - 1) in
  (1 <? decode) && (nonDecode <? limit).

Definition overflowedLongEnoughLocked (m : Manager) (now : Z) (nonDecode : list string) (ds : list nat) : bool * list nat :=
  if ConvertAfter (cfg m) <=? 0 then (true, ds)
  else match nonDecode with
       | [] => (true, ds)
       | b :: bs =>
           let '(b, ds) := leastPendingLocked m b bs ds in
           let over := match nodes m !! b with Some n => overSince (nheap m !!! n) | None => None end in
           (match over with Some t => ConvertAfter (cfg m) <=? now - t | None => false end, ds)
       end.

(** The fullest of the eligible, in order. *)
Definition fullest_step (m : Manager) (fs : list string) (b : string) : list string :=
  match fs with
  | [] => [b]
  | f :: _ => if pend m f <? pend m b then [b] else if pend m b =? pend m f then fs ++ [b] else fs
  end.
Definition pickLocked (m : Manager) (eligible : list string) (pick : option (list string → option string)) : option string :=
  match foldl (fullest_step m) [] eligible with
  | [] => None
  | f :: fs =>
      match fs, pick with
      | _ :: _, Some p => match p (f :: fs) with Some b => Some b | None => Some f end
      | _, _ => Some f
      end
  end.

(** The loop over the candidates makes a node for each and sorts them out. *)
Definition touch (cands : list string) (m : Manager) : Manager := foldl (λ m b, (nodeLocked b m).2) m cands.
Definition is_eligible (m : Manager) (tokens : Z) (b : string) : bool :=
  (pend m b =? 0) || (pend m b + tokens <=? NodeBudgetTokens (cfg m)).

(** Which backend, and whether it is to be drained for it. *)
Definition choose (g : gauges) (now : Z) (cands : list string) (tokens : Z) (pick : option (list string → option string)) (ds : list nat) (m : Manager) : option (string * bool) :=
  let decode := filter (λ b, mode_of_url m b = Decode) cands in
  let nonDecode := filter (λ b, mode_of_url m b ≠ Decode) cands in
  let eligible := filter (λ b, is_eligible m tokens b = true) nonDecode in
  if bool_decide (eligible ≠ []) then (λ b, (b, false)) <$> pickLocked m eligible pick
  else
    let '(conv, ds) := if canConvertLocked m (Z.of_nat (length cands)) (Z.of_nat (length nonDecode)) (Z.of_nat (length decode))
                       then overflowedLongEnoughLocked m now nonDecode ds else (false, ds) in
    if conv then match decode with b :: bs => Some (leastLoaded g b bs ds, true) | [] => None end
    else match nonDecode with b :: bs => Some ((leastPendingLocked m b bs ds).1, false) | [] => None end.

Definition convert (n : positive) (m : Manager) : Manager :=
  let m := on_node n (set_mode Draining) m in
  MkManager (cfg m) (nodes m) (nheap m) (jobs m) (next_node m) (next_job m) (conversions m + 1) (releases m).

Definition enqueue (now : Z) (n : positive) (b : string) (tokens : Z) (m : Manager) : positive * Manager :=
  let m := on_node n (λ x, set_idle None (set_pending (pending x + tokens) x)) m in
  let m := trackBudgetLocked now n m in
  let j := next_job m in
  let m := MkManager (cfg m) (nodes m) (nheap m) (<[j := MkJob n tokens false false true false b]> (jobs m)) (next_node m) (Pos.succ j) (conversions m) (releases m) in
  (j, on_node n (λ x, set_queue (queue x ++ [j]) x) m).

(** [None] is [ErrNoPrefillNode]. *)
Definition Reserve (g : gauges) (now : Z) (cands : list string) (tokens : Z) (pick : option (list string → option string)) (ds : list nat) (m : Manager) : option positive * Manager :=
  let tokens := Z.max tokens 1 in
  let m := touch cands m in
  match choose g now cands tokens pick ds m with
  | None => (None, m)
  | Some (b, conv) =>
      match nodes m !! b with
      | None => (None, m)   (* a picker that answers with a backend it was not offered *)
      | Some n =>
          let m := if conv then convert n m else m in
          let '(j, m) := enqueue now n b tokens m in (Some j, m)
      end
  end.

(** ** WaitReady *)

(** A round of the drain wait: true when the job's node is no longer draining. *)
Definition wait_drain (g : gauges) (j : positive) (m : Manager) : bool * Manager :=
  let n := j_n (jobs m !!! j) in
  let m := if bool_decide (mode (nheap m !!! n) = Draining) && (Inflight g (j_Backend (jobs m !!! j)) =? 0)
           then on_node n (set_mode Prefill) m else m in
  (bool_decide (mode (nheap m !!! n) ≠ Draining), m).
(** A round of the slot wait: true when the job holds its slot. *)
Definition wait_slot (g : gauges) (j : positive) (m : Manager) : bool * Manager :=
  let m := grantLocked g (j_n (jobs m !!! j)) m in (held (jobs m !!! j), m).
(** The caller left during the slot wait. *)
Definition wait_cancel (g : gauges) (j : positive) (m : Manager) : Manager := give_back g j (dequeueLocked j m).

(** ** Housekeeping *)

Definition expired (m : Manager) (now : Z) (n : positive) : bool :=
  let x := nheap m !!! n in
  bool_decide (mode x = Prefill) && match idleSince x with Some t => ReleaseIdle (cfg m) <=? now - t | None => false end.
(** The nodes in any order: each release is of its own node. *)
Definition releaseExpired (now : Z) (m : Manager) : Manager :=
  foldl (λ m n, if expired m now n then releaseLocked n m else m) m (map_to_list (nodes m)).*2.

Definition Prune (known : list string) (m : Manager) : Manager :=
  MkManager (cfg m) (filter (λ p, p.1 ∈ known) (nodes m)) (nheap m) (jobs m) (next_node m) (next_job m) (conversions m) (releases m).

(** ** The invariant *)

Definition b2z (b : bool) : Z := if b then 1 else 0.
Definition held_on (n : positive) (y : Job) : Z := if bool_decide (j_n y = n) then b2z (held y) else 0.
Definition owed_on (n : positive) (y : Job) : Z := if bool_decide (j_n y = n) && negb (once y) then j_tokens y else 0.

Definition job_ok (y : Job) : Prop := 1 ≤ j_tokens y ∧ (held y = true → queued y = false ∧ once y = false) ∧ (queued y = true → once y = false).

Record node_ok (c : Config) (js : gmap positive Job) (n : positive) (x : node) : Prop := {
  nk_nodup : NoDup (queue x);
  nk_queue : ∀ j, j ∈ queue x ↔ ∃ y, js !! j = Some y ∧ j_n y = n ∧ queued y = true;
  nk_running : running x = msum (held_on n) js;
  nk_pending : pending x = msum (owed_on n) js;
  nk_drain : mode x = Draining → running x = 0;
  nk_decode : mode x = Decode → pending x = 0;
  nk_limit : 0 < NodeConcurrency c → running x ≤ NodeConcurrency c;
  nk_idle : idleSince x ≠ None → mode x = Prefill ∧ pending x = 0
}.

Record inv (m : Manager) : Prop := {
  iv_nodes : ∀ b n, nodes m !! b = Some n → ∃ x, nheap m !! n = Some x ∧ n_b x = b;
  iv_nfresh : ∀ n, is_Some (nheap m !! n) → (n < next_node m)%positive;
  iv_jfresh : ∀ j, is_Some (jobs m !! j) → (j < next_job m)%positive;
  iv_job : ∀ j y, jobs m !! j = Some y → is_Some (nheap m !! j_n y) ∧ job_ok y;
  iv_node : ∀ n x, nheap m !! n = Some x → node_ok (cfg m) (jobs m) n x
}.

Lemma held_on_here n y : j_n y = n → held_on n y = b2z (held y).
Proof. intros <-. unfold held_on. by rewrite bool_decide_true. Qed.
Lemma on_elsewhere n y : j_n y ≠ n → held_on n y = 0 ∧ owed_on n y = 0.
Proof. intros Hn. unfold held_on, owed_on. by rewrite bool_decide_false. Qed.

(** One job and its node change together. *)
Lemma inv_update m j y y' n x x' cv rl : inv m → jobs m !! j = Some y → j_n y = n → nheap m !! n = Some x →
  j_n y' = n → job_ok y' → n_b x' = n_b x → NoDup (queue x') →
  (∀ k, k ∈ queue x' ↔ (if decide (k = j) then queued y' = true else k ∈ queue x)) →
  running x' = running x - b2z (held y) + b2z (held y') → pending x' = pending x - owed_on n y + owed_on n y' →
  (mode x' = Draining → running x' = 0) → (mode x' = Decode → pending x' = 0) →
  (0 < NodeConcurrency (cfg m) → running x' ≤ NodeConcurrency (cfg m)) → (idleSince x' ≠ None → mode x' = Prefill ∧ pending x' = 0) →
  inv (MkManager (cfg m) (nodes m) (<[n := x']> (nheap m)) (<[j := y']> (jobs m)) (next_node m) (next_job m) cv rl).
Proof.
  intros [H1 H2 H3 H4 H5] Hj Hy Hx Hy' Hok Hb Hnd Hq Hr Hp Hdr Hde Hl Hi. split; cbn [cfg nodes nheap jobs next_node next_job].
  - intros b n0 Hb0. destruct (H1 b n0 Hb0) as (x0 & Hx0 & Hb1). destruct (decide (n0 = n)) as [-> |Hne].
    + exists x'. rewrite lookup_insert_eq. split; [done|congruence].
    + exists x0. by rewrite lookup_insert_ne.
  - intros n0 Hn0. destruct (decide (n0 = n)) as [-> |Hne]; [by apply H2; rewrite Hx|]. rewrite lookup_insert_ne in Hn0 by done. by apply H2.
  - intros k Hk. destruct (decide (k = j)) as [-> |Hne]; [by apply H3; rewrite Hj|]. rewrite lookup_insert_ne in Hk by done. by apply H3.
  - intros k z Hk. assert (Hdom : ∀ n0, is_Some (nheap m !! n0) → is_Some ((<[n := x']> (nheap m)) !! n0)).
    { intros n0 Hn0. destruct (decide (n0 = n)) as [-> |Hne]; [rewrite lookup_insert_eq; by eexists|by rewrite lookup_insert_ne]. }
    destruct (decide (k = j)) as [-> |Hne].
    + rewrite lookup_insert_eq in Hk. injection Hk as <-. split; [|done]. apply Hdom. rewrite Hy'. by exists x.
    + rewrite lookup_insert_ne in Hk by done. destruct (H4 k z Hk). auto.
  - intros n0 x0 Hx0. destruct (decide (n0 = n)) as [-> |Hne].
    + rewrite lookup_insert_eq in Hx0. injection Hx0 as <-. destruct (H5 n x Hx) as [K1 K2 K3 K4 K5 K6 K7 K8]. split; try done.
      * intros k. rewrite Hq. destruct (decide (k = j)) as [-> |Hne].
        -- split; [intros Hqy; exists y'; by rewrite lookup_insert_eq|]. intros (z & Hz & _ & Hqz). rewrite lookup_insert_eq in Hz. congruence.
        -- rewrite K2. by rewrite lookup_insert_ne.
      * rewrite (msum_insert_old _ _ _ _ _ Hj). rewrite (held_on_here n y Hy), (held_on_here n y' Hy'). lia.
      * rewrite (msum_insert_old _ _ _ _ _ Hj). lia.
    + rewrite lookup_insert_ne in Hx0 by done. destruct (H5 n0 x0 Hx0) as [K1 K2 K3 K4 K5 K6 K7 K8].
      destruct (on_elsewhere n0 y) as [E1 E2]; [congruence|]. destruct (on_elsewhere n0 y') as [E3 E4]; [congruence|]. split; try done.
      * intros k. rewrite K2. destruct (decide (k = j)) as [-> |Hnk]; [|by rewrite lookup_insert_ne].
        split; [intros (z & Hz & Hzn & _); congruence|]. intros (z & Hz & Hzn & _). rewrite lookup_insert_eq in Hz. congruence.
      * rewrite (msum_insert_old _ _ _ _ _ Hj). lia.
      * rewrite (msum_insert_old _ _ _ _ _ Hj). lia.
Qed.

(** A node changes, its jobs and its sums do not. *)
Lemma inv_node m n x x' cv rl : inv m → nheap m !! n = Some x → n_b x' = n_b x → queue x' = queue x → running x' = running x → pending x' = pending x →
  (mode x' = Draining → running x' = 0) → (mode x' = Decode → pending x' = 0) → (idleSince x' ≠ None → mode x' = Prefill ∧ pending x' = 0) →
  inv (MkManager (cfg m) (nodes m) (<[n := x']> (nheap m)) (jobs m) (next_node m) (next_job m) cv rl).
Proof.
  intros [H1 H2 H3 H4 H5] Hx Hb Hq Hr Hp Hdr Hde Hi. split; cbn [cfg nodes nheap jobs next_node next_job].
  - intros b n0 Hb0. destruct (H1 b n0 Hb0) as (x0 & Hx0 & Hb1). destruct (decide (n0 = n)) as [-> |Hne].
    + exists x'. rewrite lookup_insert_eq. split; [done|congruence].
    + exists x0. by rewrite lookup_insert_ne.
  - intros n0 Hn0. destruct (decide (n0 = n)) as [-> |Hne]; [by apply H2; rewrite Hx|]. rewrite lookup_insert_ne in Hn0 by done. by apply H2.
  - done.
  - intros k z Hk. destruct (H4 k z Hk) as [Hn Hok]. split; [|done]. destruct (decide (j_n z = n)) as [-> |Hne]; [rewrite lookup_insert_eq; by eexists|by rewrite lookup_insert_ne].
  - intros n0 x0 Hx0. destruct (decide (n0 = n)) as [-> |Hne]; [|rewrite lookup_insert_ne in Hx0 by done; by apply H5].
    rewrite lookup_insert_eq in Hx0. injection Hx0 as <-. destruct (H5 n x Hx) as [K1 K2 K3 K4 K5 K6 K7 K8]. split; rewrite ?Hq, ?Hr, ?Hp; try done.
    + intros Hm. rewrite <-Hr. by apply Hdr.
    + intros Hm. rewrite <-Hp. by apply Hde.
    + intros Hm. rewrite <-Hp. by apply Hi.
Qed.

Lemma on_node_inv m n f x : inv m → nheap m !! n = Some x → n_b (f x) = n_b x → queue (f x) = queue x → running (f x) = running x → pending (f x) = pending x →
  (mode (f x) = Draining → running (f x) = 0) → (mode (f x) = Decode → pending (f x) = 0) → (idleSince (f x) ≠ None → mode (f x) = Prefill ∧ pending (f x) = 0) →
  inv (on_node n f m).
Proof. intros Hi Hx. unfold on_node. rewrite (lookup_total_correct _ _ _ Hx). intros. by eapply inv_node. Qed.

(** A node with nothing pending has no job. *)
Lemma msum_zero {A} (f : A → Z) (js : gmap positive A) : (∀ j y, js !! j = Some y → 0 ≤ f y) → msum f js = 0 → ∀ j y, js !! j = Some y → f y = 0.
Proof.
  intros Hpos Hz j y Hj. rewrite (msum_lookup f js j y Hj) in Hz. pose proof (Hpos j y Hj).
  assert (0 ≤ msum f (delete j js)); [|lia]. apply msum_nonneg. intros k z Hk. apply lookup_delete_Some in Hk as [_ Hk]. by eapply Hpos.
Qed.

Lemma msum_const0 {A} (js : gmap positive A) : msum (λ _, 0) js = 0.
Proof. induction js as [|j y js Hj IH] using map_ind; [apply msum_empty|]. rewrite msum_insert_new by done. lia. Qed.

Lemma idle_node m n x : inv m → nheap m !! n = Some x → pending x = 0 →
  running x = 0 ∧ queue x = [] ∧ ∀ j y, jobs m !! j = Some y → j_n y = n → once y = true.
Proof.
  intros Hi Hx Hp. destruct (iv_node _ Hi n x Hx) as [_ K2 K3 K4 _ _ _ _]. rewrite K4 in Hp.
  assert (Hone : ∀ j y, jobs m !! j = Some y → j_n y = n → once y = true).
  { intros j y Hj Hn. destruct (once y) eqn:E; [done|]. exfalso.
    assert (owed_on n y = 0) as Hz; [|unfold owed_on in Hz; rewrite bool_decide_true, E in Hz by done; cbn in Hz; destruct (iv_job _ Hi j y Hj) as (_ & Ht & _); lia].
    eapply msum_zero; [|exact Hp|exact Hj]. intros k z Hk. destruct (iv_job _ Hi k z Hk) as (_ & Ht & _). unfold owed_on. destruct (_ && _); lia. }
  split_and!; [| |done].
  - rewrite K3. rewrite (msum_ext _ (λ _, 0)); [|].
    + apply msum_const0.
    + intros j y Hj. destruct (decide (j_n y = n)) as [Hn|Hn]; [|by apply on_elsewhere]. rewrite held_on_here by done.
      destruct (iv_job _ Hi j y Hj) as (_ & _ & Hh & _). destruct (held y); [|done]. destruct Hh as [_ Ho]; [done|]. by rewrite (Hone j y Hj Hn) in Ho.
  - apply elem_of_nil_inv. intros j Hj. apply K2 in Hj as (y & Hj & Hn & Hq). destruct (iv_job _ Hi j y Hj) as (_ & _ & _ & Ho).
    rewrite (Hone j y Hj Hn) in Ho. by specialize (Ho Hq).
Qed.

(** ** Operations keep it *)

Lemma nodeLocked_inv b m : inv m → inv (nodeLocked b m).2 ∧ (∃ n, nodes (nodeLocked b m).2 !! b = Some n) ∧ cfg (nodeLocked b m).2 = cfg m ∧
  jobs (nodeLocked b m).2 = jobs m ∧ next_job (nodeLocked b m).2 = next_job m ∧ (∀ c, mode_of_url (nodeLocked b m).2 c = mode_of_url m c ∧ pend (nodeLocked b m).2 c = pend m c).
Proof.
  intros Hi. unfold nodeLocked. destruct (nodes m !! b) as [n|] eqn:Hb; [by eauto 10|]. cbn [snd nodes cfg jobs next_job].
  assert (Hfr : nheap m !! next_node m = None).
  { apply eq_None_not_Some. intros Hs. apply (iv_nfresh _ Hi) in Hs. lia. }
  assert (Hne : ∀ c n, nodes m !! c = Some n → n ≠ next_node m).
  { intros c n Hc ->. destruct (iv_nodes _ Hi c _ Hc) as (x & Hx & _). congruence. }
  destruct Hi as [H1 H2 H3 H4 H5]. split_and!; [|rewrite lookup_insert_eq; by eexists|done|done|done|].
  - split; cbn [cfg nodes nheap jobs next_node next_job].
    + intros c n. destruct (decide (c = b)) as [-> |Hcb].
      * rewrite lookup_insert_eq. intros [= <-]. rewrite lookup_insert_eq. by eexists.
      * rewrite lookup_insert_ne by done. intros Hc. destruct (H1 c n Hc) as (x & Hx & Hxb). exists x. rewrite lookup_insert_ne; [done|]. apply not_eq_sym. by eapply Hne.
    + intros n Hn. destruct (decide (n = next_node m)) as [-> |Hnn]; [lia|]. rewrite lookup_insert_ne in Hn by done. apply H2 in Hn. lia.
    + done.
    + intros j y Hj. destruct (H4 j y Hj) as [Hs Hok]. split; [|done]. destruct (decide (j_n y = next_node m)) as [-> |]; [rewrite lookup_insert_eq; by eexists|by rewrite lookup_insert_ne].
    + intros n x Hx. destruct (decide (n = next_node m)) as [-> |Hnn]; [|rewrite lookup_insert_ne in Hx by done; by apply H5].
      rewrite lookup_insert_eq in Hx. injection Hx as <-.
      assert (Hno : ∀ j y, jobs m !! j = Some y → j_n y ≠ next_node m).
      { intros j y Hj Hn. destruct (H4 j y Hj) as [Hs _]. rewrite Hn, Hfr in Hs. by destruct Hs. }
      split; cbn; try done.
      * constructor.
      * intros j. split; [by intros ?%elem_of_nil|]. intros (y & Hj & Hn & _). by apply Hno in Hj.
      * rewrite (msum_ext _ (λ _, 0)); [by rewrite msum_const0|]. intros j y Hj. apply on_elsewhere. by eapply Hno.
      * rewrite (msum_ext _ (λ _, 0)); [by rewrite msum_const0|]. intros j y Hj. apply on_elsewhere. by eapply Hno.
      * lia.
  - intros c. unfold mode_of_url, pend. cbn [nodes nheap]. destruct (decide (c = b)) as [-> |Hcb].
    + rewrite lookup_insert_eq, lookup_total_insert_eq, Hb. done.
    + rewrite lookup_insert_ne by done. destruct (nodes m !! c) as [n|] eqn:Hc; [|done]. rewrite lookup_total_insert_ne; [done|]. apply not_eq_sym. by eapply Hne.
Qed.

Lemma touch_inv cands : ∀ m, inv m → inv (touch cands m) ∧ (∀ b, b ∈ cands → is_Some (nodes (touch cands m) !! b)) ∧ cfg (touch cands m) = cfg m ∧
  jobs (touch cands m) = jobs m ∧ next_job (touch cands m) = next_job m ∧ (∀ c, mode_of_url (touch cands m) c = mode_of_url m c ∧ pend (touch cands m) c = pend m c).
Proof.
  assert (Hgrow : ∀ b c m, is_Some (nodes m !! c) → is_Some (nodes (nodeLocked b m).2 !! c)).
  { intros b c m Hs. unfold nodeLocked. destruct (nodes m !! b) eqn:E; [done|]. cbn. rewrite lookup_insert_ne; [done|]. intros ->. rewrite E in Hs. by destruct Hs. }
  assert (Hgrows : ∀ bs c m, is_Some (nodes m !! c) → is_Some (nodes (touch bs m) !! c)).
  { induction bs as [|b bs IH]; intros c m Hs; [done|]. cbn. apply IH. by apply Hgrow. }
  induction cands as [|b cands IH]; intros m Hi; [split_and!; try done; by intros b ?%elem_of_nil|].
  destruct (nodeLocked_inv b m Hi) as (Hi1 & [n Hn] & E1 & E2 & E3 & E4). destruct (IH _ Hi1) as (Hi2 & Hs2 & F1 & F2 & F3 & F4). change (touch (b :: cands) m) with (touch cands (nodeLocked b m).2).
  split_and!; [done| |congruence..|].
  - intros c [-> |Hc]%elem_of_cons; [|by apply Hs2]. apply Hgrows. rewrite Hn. by eexists.
  - intros c. destruct (F4 c) as [-> ->]. apply E4.
Qed.

Lemma trackBudget_inv now n m x : inv m → nheap m !! n = Some x → (overSince x = None ∨ True) → inv (trackBudgetLocked now n m) ∧
  ∃ o, nheap (trackBudgetLocked now n m) = <[n := set_over o x]> (nheap m) ∧ nodes (trackBudgetLocked now n m) = nodes m ∧ jobs (trackBudgetLocked now n m) = jobs m ∧
    cfg (trackBudgetLocked now n m) = cfg m ∧ next_job (trackBudgetLocked now n m) = next_job m.
Proof.
  intros Hi Hx _. pose proof (iv_node _ Hi n x Hx) as [_ _ _ _ K5 K6 _ K8].
  assert (Hon : ∀ o, inv (on_node n (set_over o) m) ∧ nheap (on_node n (set_over o) m) = <[n := set_over o x]> (nheap m)).
  { intros o. split; [by apply (on_node_inv m n (set_over o) x)|]. cbn. by rewrite (lookup_total_correct _ _ _ Hx). }
  unfold trackBudgetLocked. rewrite (lookup_total_correct _ _ _ Hx). destruct (_ <=? _).
  - destruct (Hon None) as [H1 H2]. split; [done|]. by exists None.
  - destruct (overSince x) as [t|] eqn:Ho.
    + split; [done|]. exists (Some t). split_and!; try done. symmetry. apply insert_id. rewrite Hx. f_equal. destruct x. cbn in *. by subst.
    + destruct (Hon (Some now)) as [H1 H2]. split; [done|]. by exists (Some now).
Qed.

Lemma dequeue_inv j m y : inv m → jobs m !! j = Some y → inv (dequeueLocked j m) ∧
  jobs (dequeueLocked j m) !! j = Some (set_queued false y) ∧ cfg (dequeueLocked j m) = cfg m.
Proof.
  intros Hi Hj. unfold dequeueLocked. rewrite (lookup_total_correct _ _ _ Hj). destruct (queued y) eqn:Hq; cbn [negb].
  2:{ split_and!; [done| |done]. rewrite Hj. f_equal. destruct y. cbn in *. by subst. }
  destruct (iv_job _ Hi j y Hj) as ([x Hx] & Ht & Hh & Ho). pose proof (iv_node _ Hi _ x Hx) as [K1 K2 K3 K4 K5 K6 K7 K8].
  assert (Hin : j ∈ queue x) by (apply K2; by exists y). rewrite (lookup_total_correct _ _ _ Hx).
  destruct (list_find _ _) as [[i k]|] eqn:Hf; [|apply list_find_None in Hf; rewrite Forall_forall in Hf; exfalso; by apply (Hf j Hin)].
  apply list_find_Some in Hf as (Hk & -> & _). cbn [on_job on_node jobs cfg].
  split_and!; [|rewrite lookup_insert_eq; by rewrite (lookup_total_correct _ _ _ Hj)|done].
  unfold on_job, on_node. cbn [cfg nodes nheap jobs next_node next_job conversions releases].
  rewrite (lookup_total_correct _ _ _ Hj), (lookup_total_correct _ _ _ Hx).
  apply (inv_update m j y (set_queued false y) (j_n y) x); try done.
  - split_and!; [done|by intros [? ?]%Hh|done].
  - cbn. eapply sublist_NoDup; [exact K1|apply sublist_delete].
  - intros l. cbn. rewrite (elem_of_delete_NoDup _ _ _ _ K1 Hk). destruct (decide (l = j)); [|tauto]. split; [tauto|done].
  - cbn. lia.
  - unfold owed_on. cbn. lia.
Qed.

(** A grant serves a prefix of the queue, in order. *)
Definition granted_to (k : nat) (x : node) (m m' : Manager) (n : positive) : Prop :=
  nheap m' = <[n := set_running (running x + Z.of_nat k) (set_queue (drop k (queue x)) x)]> (nheap m) ∧
  (∀ j, jobs m' !! j = if decide (j ∈ take k (queue x)) then set_granted <$> jobs m !! j else jobs m !! j) ∧
  cfg m' = cfg m ∧ nodes m' = nodes m ∧ next_job m' = next_job m ∧ next_node m' = next_node m ∧ conversions m' = conversions m ∧ releases m' = releases m.

Lemma grant_one_inv n j q m x : inv m → nheap m !! n = Some x → queue x = j :: q → mode x ≠ Draining →
  (0 < NodeConcurrency (cfg m) → running x < NodeConcurrency (cfg m)) → inv (grant_one n j q m).
Proof.
  intros Hi Hx Hq Hmd Hl. pose proof (iv_node _ Hi n x Hx) as [K1 K2 K3 K4 K5 K6 K7 K8].
  assert (Hin : j ∈ queue x) by (rewrite Hq; by left). pose proof (proj1 (K2 j) Hin) as (y & Hj & Hn & Hqy).
  destruct (iv_job _ Hi j y Hj) as (_ & Ht & Hh & Ho). unfold grant_one, on_node, on_job. cbn [cfg nodes nheap jobs next_node next_job conversions releases].
  rewrite (lookup_total_correct _ _ _ Hj), (lookup_total_correct _ _ _ Hx). rewrite Hq in K1. apply NoDup_cons in K1 as [K1 K1'].
  assert (Hhf : held y = false) by (destruct (held y) eqn:E; [|done]; destruct Hh as [Hf _]; [done|congruence]).
  apply (inv_update m j y (set_granted y) n x); try done.
  - split_and!; [done|intros _; split; [done|by apply Ho]|done].
  - intros k. cbn. destruct (decide (k = j)) as [-> |]; [split; [by intros ?%K1|done]|]. rewrite Hq, elem_of_cons. tauto.
  - cbn. rewrite Hhf. cbn. lia.
  - unfold owed_on. cbn. lia.
  - cbn. intros Hc. specialize (Hl Hc). lia.
Qed.

Lemma grant_loop_spec f : ∀ g n m x, inv m → nheap m !! n = Some x → ∃ k, (k ≤ f)%nat ∧ (k ≤ length (queue x))%nat ∧
  granted_to k x m (grant_loop f g n m) n ∧ inv (grant_loop f g n m) ∧
  (k = f ∨ k = length (queue x) ∨ mode x = Draining ∨
   0 < NodeConcurrency (cfg m) ∧ (NodeConcurrency (cfg m) ≤ running x + Z.of_nat k ∨ NodeConcurrency (cfg m) ≤ Inflight g (n_b x))).
Proof.
  assert (Hrefl : ∀ m n x, nheap m !! n = Some x → granted_to 0 x m m n).
  { intros m n x Hx. split; [|split; [|done]].
    - symmetry. apply insert_id. rewrite Hx, drop_0. replace (running x + Z.of_nat 0) with (running x) by lia. by destruct x.
    - intros j. rewrite decide_False; [done|]. by intros ?%elem_of_nil. }
  induction f as [|f IH]; intros g n m x Hi Hx; cbn [grant_loop].
  { exists 0%nat. split_and!; [lia|lia|by apply Hrefl|done|by left]. }
  rewrite (lookup_total_correct _ _ _ Hx). cbn zeta. destruct (queue x) as [|j q] eqn:Hq.
  { exists 0%nat. split_and!; [lia|cbn; lia|by apply Hrefl|done|by right; left]. }
  rewrite <-Hq. case_bool_decide as Hmd.
  { exists 0%nat. split_and!; [lia|lia|by apply Hrefl|done|by right; right; left]. }
  destruct (_ && _) eqn:Hlim.
  { exists 0%nat. apply andb_true_iff in Hlim as [Hlim1%Z.ltb_lt Hlim2]. rewrite orb_true_iff, !Z.leb_le in Hlim2.
    split_and!; [lia|lia|by apply Hrefl|done|]. right. right. right. split; [done|]. destruct Hlim2; [left; lia|by right]. }
  assert (Hl : 0 < NodeConcurrency (cfg m) → running x < NodeConcurrency (cfg m)).
  { intros Hpos. rewrite (proj2 (Z.ltb_lt _ _)) in Hlim by done. cbn [andb] in Hlim. apply orb_false_iff in Hlim as [Hlim%Z.leb_gt _]. done. }
  pose proof (grant_one_inv n j q m x Hi Hx Hq Hmd Hl) as Hi1. pose proof (nk_nodup _ _ _ _ (iv_node _ Hi n x Hx)) as Hnd.
  rewrite Hq in Hnd. apply NoDup_cons in Hnd as [Hnj _].
  pose proof (proj1 (nk_queue _ _ _ _ (iv_node _ Hi n x Hx) j)) as Hqj. rewrite Hq in Hqj. destruct Hqj as (y & Hj & _); [by left|].
  set (x1 := set_running (running x + 1) (set_queue q x)).
  assert (Hx1 : nheap (grant_one n j q m) !! n = Some x1).
  { unfold grant_one, on_node, on_job. cbn. rewrite lookup_insert_eq. by rewrite (lookup_total_correct _ _ _ Hx). }
  destruct (IH g n (grant_one n j q m) x1 Hi1 Hx1) as (k & Hk1 & Hk2 & (G1 & G2 & G3 & G4 & G5 & G6 & G7 & G8) & Hi2 & Hstop). exists (S k). rewrite Hq. cbn [length] in *.
  split_and!; [lia|cbn in Hk2; lia| |done|].
  - split_and!; [| |done..].
    + rewrite G1. unfold grant_one, on_node, on_job. cbn [nheap]. rewrite insert_insert_eq. f_equal. unfold x1, set_running, set_queue. cbn. rewrite Hq. cbn. f_equal. lia.
    + intros l. rewrite G2. unfold grant_one, on_node, on_job. cbn [jobs]. rewrite Hq. cbn [take x1 queue set_running set_queue].
      rewrite (lookup_total_correct _ _ _ Hj). destruct (decide (l = j)) as [-> |Hne].
      * rewrite (decide_True (P := j ∈ j :: take k q)) by (by left). rewrite decide_False by (intros Hin; apply Hnj; by apply (subseteq_take k)).
        rewrite lookup_insert_eq. by rewrite Hj.
      * rewrite lookup_insert_ne by done. destruct (decide (l ∈ take k q)); [rewrite decide_True by (by right); done|].
        rewrite decide_False; [done|]. rewrite elem_of_cons. tauto.
  - cbn in Hstop. destruct Hstop as [?|[?|[?|[? [?|?]]]]]; [left; lia|right; left; lia|by right; right; left|..]; right; right; right; (split; [done|]); [left; lia|by right].
Qed.

Lemma grantLocked_spec g n m x : inv m → nheap m !! n = Some x → ∃ k, (k ≤ length (queue x))%nat ∧ granted_to k x m (grantLocked g n m) n ∧ inv (grantLocked g n m) ∧
  (k = length (queue x) ∨ mode x = Draining ∨
   0 < NodeConcurrency (cfg m) ∧ (NodeConcurrency (cfg m) ≤ running x + Z.of_nat k ∨ NodeConcurrency (cfg m) ≤ Inflight g (n_b x))).
Proof.
  intros Hi Hx. unfold grantLocked. rewrite (lookup_total_correct _ _ _ Hx).
  destruct (grant_loop_spec (length (queue x)) g n m x Hi Hx) as (k & _ & Hk & Hg & Hi' & Hs). exists k. split_and!; try done. tauto.
Qed.

Lemma releaseLocked_inv n m x : inv m → nheap m !! n = Some x → pending x = 0 → inv (releaseLocked n m).
Proof.
  intros Hi Hx Hp. unfold releaseLocked, on_node. cbn [cfg nodes nheap jobs next_node next_job conversions releases]. rewrite (lookup_total_correct _ _ _ Hx).
  by apply (inv_node m n x).
Qed.

Lemma releaseIfIdle_inv now n m x : inv m → nheap m !! n = Some x → inv (releaseIfIdleLocked now n m) ∧ cfg (releaseIfIdleLocked now n m) = cfg m ∧
  jobs (releaseIfIdleLocked now n m) = jobs m ∧
  (pending x = 0 → ∃ x', nheap (releaseIfIdleLocked now n m) !! n = Some x' ∧ (mode x' = Decode ∨ mode x = Prefill ∧ mode x' = Prefill ∧ 0 < ReleaseIdle (cfg m) ∧ ∃ t, idleSince x' = Some t)).
Proof.
  intros Hi Hx. pose proof (iv_node _ Hi n x Hx) as [K1 K2 K3 K4 K5 K6 K7 K8]. unfold releaseIfIdleLocked. rewrite (lookup_total_correct _ _ _ Hx). cbn zeta.
  destruct (_ || _) eqn:E.
  { split_and!; [done..|]. intros Hp. exists x. split; [done|]. left. destruct (idle_node m n x Hi Hx Hp) as (Hr & Hq & _).
    rewrite Hp, Hr, Hq in E. cbn in E. rewrite !orb_false_r in E. by apply bool_decide_eq_true in E. }
  rewrite !orb_false_iff, !negb_false_iff in E. destruct E as [[[E1 E2] E3] E4]. apply bool_decide_eq_false in E1, E4. apply Z.eqb_eq in E2, E3.
  destruct (bool_decide (mode x = Prefill) && (0 <? ReleaseIdle (cfg m))) eqn:E5.
  - apply andb_true_iff in E5 as [E5%bool_decide_eq_true E6%Z.ltb_lt]. destruct (idleSince x) as [t|] eqn:Ht.
    + split_and!; [done..|]. intros _. exists x. split; [done|]. right. eauto.
    + split_and!; [by apply (on_node_inv m n (set_idle (Some now)) x)|done|done|]. intros _. exists (set_idle (Some now) x). cbn. rewrite lookup_insert_eq, (lookup_total_correct _ _ _ Hx).
      split; [done|]. right. eauto.
  - split_and!; [by apply (releaseLocked_inv n m x)|done|done|]. intros _. exists (set_idle None (set_mode Decode x)). cbn. rewrite lookup_insert_eq, (lookup_total_correct _ _ _ Hx).
    split; [done|by left].
Qed.

Lemma give_back_inv g j m y : inv m → jobs m !! j = Some y → queued y = false →
  inv (give_back g j m) ∧ jobs (give_back g j m) !! j = Some (set_held false y) ∧ cfg (give_back g j m) = cfg m.
Proof.
  intros Hi Hj Hq. unfold give_back. rewrite (lookup_total_correct _ _ _ Hj). destruct (held y) eqn:Hh.
  2:{ split_and!; [done| |done]. rewrite Hj. f_equal. destruct y. cbn in *. by subst. }
  destruct (iv_job _ Hi j y Hj) as ([x Hx] & Ht & Hho & Ho). pose proof (iv_node _ Hi _ x Hx) as [K1 K2 K3 K4 K5 K6 K7 K8].
  destruct Hho as [_ Hoy]; [done|]. set (x1 := set_running (running x - 1) x). set (m1 := on_node _ _ _).
  assert (Hm1 : m1 = MkManager (cfg m) (nodes m) (<[j_n y := x1]> (nheap m)) (<[j := set_held false y]> (jobs m)) (next_node m) (next_job m) (conversions m) (releases m)).
  { unfold m1, on_node, on_job. cbn. by rewrite (lookup_total_correct _ _ _ Hj), (lookup_total_correct _ _ _ Hx). }
  assert (Hpos : 0 < running x).
  { rewrite K3, (msum_lookup _ _ j y Hj), held_on_here, Hh by done. cbn.
    assert (0 ≤ msum (held_on (j_n y)) (delete j (jobs m))); [|lia]. apply msum_nonneg. intros k z _. unfold held_on, b2z. destruct (bool_decide _), (held z); lia. }
  assert (Hi1 : inv m1).
  { rewrite Hm1. apply (inv_update m j y (set_held false y) (j_n y) x); try done.
    - intros k. cbn. destruct (decide (k = j)) as [-> |]; [|done]. rewrite Hq, K2. split; [|done]. intros (z & Hz & _ & Hzq). congruence.
    - cbn. rewrite Hh. cbn. lia.
    - unfold owed_on. cbn. lia.
    - cbn. intros Hd. apply K5 in Hd. lia.
    - cbn. intros Hc. specialize (K7 Hc). lia. }
  assert (Hx1 : nheap m1 !! j_n y = Some x1) by (rewrite Hm1; apply lookup_insert_eq).
  destruct (grantLocked_spec g (j_n y) m1 x1 Hi1 Hx1) as (k & Hk & (G1 & G2 & G3 & _) & Hi2 & _). split_and!; [done| |by rewrite G3, Hm1].
  rewrite G2. rewrite decide_False; [by rewrite Hm1; apply lookup_insert_eq|]. intros Hin%(subseteq_take k).
  apply K2 in Hin as (z & Hz & _ & Hzq). congruence.
Qed.

(** Marking a job done commutes with what does not read the mark. *)
Lemma on_job_comm j k f h m : (∀ y, f (h y) = h (f y)) → on_job j f (on_job k h m) = on_job k h (on_job j f m).
Proof.
  intros Hfh. unfold on_job. cbn. f_equal. destruct (decide (j = k)) as [-> |Hne].
  - rewrite !lookup_total_insert_eq, !insert_insert_eq. by rewrite Hfh.
  - rewrite !lookup_total_insert_ne by done. by rewrite insert_insert_ne.
Qed.
Lemma grant_loop_comm f : ∀ g n j m, grant_loop f g n (on_job j set_once m) = on_job j set_once (grant_loop f g n m).
Proof.
  induction f as [|f IH]; intros g n j m; [done|]. cbn [grant_loop nheap cfg on_job]. destruct (queue (nheap m !!! n)) as [|k q]; [done|].
  destruct (bool_decide _); [done|]. destruct (_ && _); [done|]. rewrite <-IH. f_equal. unfold grant_one.
  change (on_node n (λ x, set_running (running x + 1) (set_queue q x)) (on_job k set_granted (on_job j set_once m)) = on_node n (λ x, set_running (running x + 1) (set_queue q x)) (on_job j set_once (on_job k set_granted m))).
  f_equal. by apply on_job_comm.
Qed.
Lemma dequeue_comm j m : dequeueLocked j (on_job j set_once m) = on_job j set_once (dequeueLocked j m).
Proof.
  unfold dequeueLocked. assert (Hl : jobs (on_job j set_once m) !!! j = set_once (jobs m !!! j)) by (cbn; by rewrite lookup_total_insert_eq).
  rewrite Hl. cbn [queued set_once j_n]. destruct (negb _); [done|]. cbn zeta. change (nheap (on_job j set_once m)) with (nheap m).
  destruct (list_find _ _) as [[i k]|].
  - change (on_job j (set_queued false) (on_job j set_once (on_node (j_n (jobs m !!! j)) (λ x, set_queue (delete i (queue x)) x) m)) =
      on_job j set_once (on_job j (set_queued false) (on_node (j_n (jobs m !!! j)) (λ x, set_queue (delete i (queue x)) x) m))). by apply on_job_comm.
  - by apply on_job_comm.
Qed.
Lemma give_back_comm g j m : give_back g j (on_job j set_once m) = on_job j set_once (give_back g j m).
Proof.
  unfold give_back. assert (Hl : jobs (on_job j set_once m) !!! j = set_once (jobs m !!! j)) by (cbn; by rewrite lookup_total_insert_eq).
  rewrite Hl. cbn [held set_once j_n]. destruct (held _); [|done]. cbn zeta.
  rewrite (on_job_comm j j (set_held false) set_once m) by done. unfold grantLocked. rewrite <-grant_loop_comm. done.
Qed.

(** A node with nothing to do is back in decode, or has begun its idle wait. *)
Definition rests (x : node) : Prop := pending x = 0 → mode x = Decode ∨ idleSince x ≠ None.
Definition resting (m : Manager) : Prop := ∀ n x, nheap m !! n = Some x → rests x.

Definition quiet (x x' : node) : Prop := pending x' = pending x ∧ mode x' = mode x ∧ idleSince x' = idleSince x.
(** Only node [n] changes, and not in what matters for resting. *)
Definition quiet_at (n : positive) (m m' : Manager) : Prop :=
  (∀ n', n' ≠ n → nheap m' !! n' = nheap m !! n') ∧ (∀ x, nheap m !! n = Some x → ∃ x', nheap m' !! n = Some x' ∧ quiet x x').

Lemma quiet_trans n m1 m2 m3 : quiet_at n m1 m2 → quiet_at n m2 m3 → quiet_at n m1 m3.
Proof.
  intros [A1 A2] [B1 B2]. split; [intros n' Hn; by rewrite B1, A1|]. intros x Hx. destruct (A2 x Hx) as (x1 & Hx1 & Q1 & Q2 & Q3).
  destruct (B2 x1 Hx1) as (x2 & Hx2 & R1 & R2 & R3). exists x2. split; [done|]. unfold quiet. by rewrite R1, R2, R3.
Qed.
Lemma quiet_refl n m : quiet_at n m m.
Proof. split; [done|]. intros x Hx. by exists x. Qed.
Lemma quiet_resting n m m' : quiet_at n m m' → is_Some (nheap m !! n) → resting m → resting m'.
Proof.
  intros [A1 A2] [x Hx] Hr n' x' Hx'. destruct (decide (n' = n)) as [-> |Hne]; [|rewrite A1 in Hx' by done; by apply Hr in Hx'].
  destruct (A2 x Hx) as (x1 & Hx1 & Q1 & Q2 & Q3). assert (x1 = x') as -> by congruence. unfold rests. rewrite Q1, Q2, Q3. by apply (Hr n).
Qed.
Lemma on_node_quiet n f m : (∀ x, quiet x (f x)) → quiet_at n m (on_node n f m).
Proof.
  intros Hf. split; [intros n' Hn; cbn; by rewrite lookup_insert_ne|]. intros x Hx. exists (f x). cbn. by rewrite lookup_insert_eq, (lookup_total_correct _ _ _ Hx).
Qed.
Lemma grant_quiet f : ∀ g n m, quiet_at n m (grant_loop f g n m).
Proof.
  induction f as [|f IH]; intros g n m; [apply quiet_refl|]. cbn [grant_loop]. destruct (queue _) as [|j q]; [apply quiet_refl|].
  destruct (bool_decide _); [apply quiet_refl|]. destruct (_ && _); [apply quiet_refl|]. eapply quiet_trans; [|apply IH].
  unfold grant_one. change (quiet_at n (on_job j set_granted m) (on_node n (λ x, set_running (running x + 1) (set_queue q x)) (on_job j set_granted m))). by apply on_node_quiet.
Qed.
Lemma dequeue_quiet j m : quiet_at (j_n (jobs m !!! j)) m (dequeueLocked j m).
Proof.
  unfold dequeueLocked. destruct (negb _); [apply quiet_refl|]. cbn zeta. destruct (list_find _ _) as [[i k]|]; [|exact (quiet_refl _ m)].
  change (quiet_at (j_n (jobs m !!! j)) m (on_node (j_n (jobs m !!! j)) (λ x, set_queue (delete i (queue x)) x) m)). by apply on_node_quiet.
Qed.
Lemma give_back_quiet g j m : quiet_at (j_n (jobs m !!! j)) m (give_back g j m).
Proof.
  unfold give_back. destruct (held _); [|apply quiet_refl]. cbn zeta. eapply quiet_trans; [|apply grant_quiet].
  change (quiet_at (j_n (jobs m !!! j)) (on_job j (set_held false) m) (on_node (j_n (jobs m !!! j)) (λ x, set_running (running x - 1) x) (on_job j (set_held false) m))).
  by apply on_node_quiet.
Qed.

Lemma track_eq now n m x : nheap m !! n = Some x → ∃ o, trackBudgetLocked now n m = on_node n (set_over o) m.
Proof.
  intros Hx. unfold trackBudgetLocked. rewrite (lookup_total_correct _ _ _ Hx). destruct (_ <=? _); [by eexists|].
  destruct (overSince x) as [t|] eqn:Ho; [|by eexists]. exists (Some t). unfold on_node. rewrite (lookup_total_correct _ _ _ Hx), insert_id; [by destruct m|].
  rewrite Hx. f_equal. destruct x. cbn in *. by subst.
Qed.

(** [Done] up to its last call. *)
Lemma Done_shape g now j m y : inv m → jobs m !! j = Some y → once y = false →
  ∃ m4 x4, inv m4 ∧ nheap m4 !! j_n y = Some x4 ∧ cfg m4 = cfg m ∧ Done g now j m = releaseIfIdleLocked now (j_n y) m4 ∧
    (∀ n', n' ≠ j_n y → nheap m4 !! n' = nheap m !! n') ∧ jobs m4 !! j = Some (set_once (set_held false (set_queued false y))).
Proof.
  intros Hi Hj Hon. unfold Done. rewrite (lookup_total_correct _ _ _ Hj), Hon. cbn zeta. rewrite dequeue_comm, give_back_comm.
  destruct (dequeue_inv j m y Hi Hj) as (Hi1 & Hj1 & Hc1). destruct (give_back_inv g j _ _ Hi1 Hj1) as (Hi2 & Hj2 & Hc2); [done|].
  pose proof (dequeue_quiet j m) as Hq1. rewrite (lookup_total_correct _ _ _ Hj) in Hq1.
  pose proof (give_back_quiet g j (dequeueLocked j m)) as Hq2. rewrite (lookup_total_correct _ _ _ Hj1) in Hq2.
  destruct (quiet_trans _ _ _ _ Hq1 Hq2) as [Hq _]. clear Hq1 Hq2.
  set (m2 := give_back g j (dequeueLocked j m)) in *. clearbody m2. set (y2 := set_held false (set_queued false y)) in *.
  rewrite Hc1 in Hc2. clear Hi1 Hj1 Hc1. assert (Hl : jobs (on_job j set_once m2) !!! j = set_once y2) by (cbn; by rewrite lookup_total_insert_eq, (lookup_total_correct _ _ _ Hj2)).
  rewrite Hl. cbn [j_n set_once j_tokens]. destruct (iv_job _ Hi2 j y2 Hj2) as ([x Hx] & Ht & _). pose proof (iv_node _ Hi2 _ x Hx) as [K1 K2 K3 K4 K5 K6 K7 K8].
  assert (Hnz : pending x ≠ 0). { intros Hp. destruct (idle_node m2 _ x Hi2 Hx Hp) as (_ & _ & Hone). specialize (Hone j y2 Hj2 eq_refl). cbn in Hone. congruence. }
  set (x3 := set_pending (pending x - j_tokens y2) x). set (m3 := on_node _ _ _).
  assert (Hm3 : m3 = MkManager (cfg m2) (nodes m2) (<[j_n y2 := x3]> (nheap m2)) (<[j := set_once y2]> (jobs m2)) (next_node m2) (next_job m2) (conversions m2) (releases m2)).
  { unfold m3, on_node, on_job. cbn [nheap jobs cfg nodes next_node next_job conversions releases]. by rewrite (lookup_total_correct _ _ _ Hj2), (lookup_total_correct _ _ _ Hx). }
  assert (Hi3 : inv m3).
  { rewrite Hm3. apply (inv_update m2 j y2 (set_once y2) (j_n y2) x); try done.
    - intros k. cbn. destruct (decide (k = j)) as [-> |]; [|done]. rewrite K2. split; [|done]. intros (z & Hz & _ & Hzq). rewrite Hj2 in Hz. injection Hz as <-. done.
    - cbn. lia.
    - unfold owed_on. rewrite !bool_decide_true by done. cbn. rewrite Hon. cbn. lia.
    - cbn. intros Hd. by apply K6 in Hd.
    - cbn. intros Hd. destruct (K8 Hd) as [_ Hz]. done. }
  assert (Hx3 : nheap m3 !! j_n y2 = Some x3) by (rewrite Hm3; apply lookup_insert_eq).
  destruct (trackBudget_inv now (j_n y2) m3 x3 Hi3 Hx3 (or_intror I)) as (Hi4 & o & T1 & _ & T3 & T4 & _).
  exists (trackBudgetLocked now (j_n y2) m3), (set_over o x3). split_and!; [done|rewrite T1; apply lookup_insert_eq|by rewrite T4, Hm3|done| |].
  - intros n' Hn'. rewrite T1, lookup_insert_ne by done. rewrite Hm3. cbn [nheap]. rewrite lookup_insert_ne by done. by apply Hq.
  - rewrite T3, Hm3. apply lookup_insert_eq.
Qed.

Lemma Done_inv g now j m : inv m → is_Some (jobs m !! j) → inv (Done g now j m) ∧ cfg (Done g now j m) = cfg m.
Proof.
  intros Hi [y Hj]. destruct (once y) eqn:Hon.
  { unfold Done. rewrite (lookup_total_correct _ _ _ Hj), Hon. done. }
  destruct (Done_shape g now j m y Hi Hj Hon) as (m4 & x4 & Hi4 & Hx4 & Hc4 & -> & _). destruct (releaseIfIdle_inv now (j_n y) m4 x4 Hi4 Hx4) as (Hi5 & Hc5 & _).
  split; [done|congruence].
Qed.

(** ** Choosing *)

Section least.
Context {A : Type} (lt eq : A → A → bool).
Context (Hirr : ∀ x, lt x x = false) (Htr : ∀ x y z, lt x y = true → lt y z = true → lt x z = true)
  (Hcompat : ∀ x y z, eq y z = true → lt x y = true → lt x z = true).

Lemma least_spec b bs ds : (least lt eq b bs ds).1 ∈ b :: bs ∧ ∀ c, c ∈ b :: bs → lt c (least lt eq b bs ds).1 = false.
Proof.
  enough (Hgen : ∀ bs seen best ties ds, best ∈ seen → (∀ c, c ∈ seen → lt c best = false) →
    (foldl (least_step lt eq) (best, ties, ds) bs).1.1 ∈ seen ++ bs ∧ ∀ c, c ∈ seen ++ bs → lt c (foldl (least_step lt eq) (best, ties, ds) bs).1.1 = false).
  { assert (Hl : (least lt eq b bs ds).1 = (foldl (least_step lt eq) (b, 1%nat, ds) bs).1.1) by (unfold least; by destruct (foldl _ _ _) as [[? ?] ?]).
    rewrite Hl. apply (Hgen bs [b] b 1%nat ds); [by left|]. by intros c ->%list_elem_of_singleton. }
  clear b bs ds. induction bs as [|b bs IH]; intros seen best ties ds Hin Hmin; cbn [foldl]; [by rewrite app_nil_r|].
  replace (seen ++ b :: bs) with ((seen ++ [b]) ++ bs) by (by rewrite <-app_assoc).
  assert (Hb : lt b best = false → ∀ c, c ∈ seen ++ [b] → lt c best = false).
  { intros Hlt c [Hc| ->%list_elem_of_singleton]%elem_of_app; auto. }
  unfold least_step. destruct (lt b best) eqn:E1.
  - apply IH; [apply elem_of_app; right; by left|]. intros c [Hc| ->%list_elem_of_singleton]%elem_of_app; [|done].
    destruct (lt c b) eqn:E; [|done]. rewrite <-(Hmin c Hc). symmetry. by eapply Htr.
  - destruct (eq b best) eqn:E2; [|apply IH; [apply elem_of_app; by left|by apply Hb]].
    destruct (bool_decide _); (apply IH; [apply elem_of_app|]); [right; by left| |by left|by apply Hb].
    intros c Hc. destruct (lt c b) eqn:E; [|done]. rewrite <-(Hb eq_refl c Hc). symmetry. by eapply Hcompat.
Qed.
End least.

Lemma leastPending_spec m b bs ds : (leastPendingLocked m b bs ds).1 ∈ b :: bs ∧ ∀ c, c ∈ b :: bs → pend m (leastPendingLocked m b bs ds).1 ≤ pend m c.
Proof.
  unfold leastPendingLocked. set (lt := λ x y, pend m x <? pend m y). set (eq := λ x y, pend m x =? pend m y).
  destruct (least_spec lt eq) with b bs ds as [H1 H2].
  - intros x. unfold lt. apply Z.ltb_irrefl.
  - intros x y z. unfold lt. rewrite !Z.ltb_lt. lia.
  - intros x y z. unfold lt, eq. rewrite Z.eqb_eq, !Z.ltb_lt. lia.
  - split; [done|]. intros c Hc. specialize (H2 c Hc). unfold lt in H2. by apply Z.ltb_ge in H2.
Qed.

Lemma SFltb_rank x y : SFltb x y = true → num x ∧ num y ∧ lex (rank x) (rank y).
Proof.
  unfold SFltb. intros H. assert (Hx : num x) by (intros ->; done). assert (Hy : num y) by (intros ->; by destruct x as [[]|[]| |[]]).
  pose proof (SFcompare_rank x y Hx Hy) as Hr. destruct (SFcompare x y) as [[]|]; done.
Qed.
Lemma rank_SFltb x y : num x → num y → lex (rank x) (rank y) → SFltb x y = true.
Proof.
  intros Hx Hy Hl. pose proof (SFcompare_rank x y Hx Hy) as Hr. unfold SFltb. destruct (SFcompare x y) as [[]|]; [|done| |done].
  - rewrite Hr in Hl. by apply lex_irrefl in Hl.
  - exfalso. eapply lex_irrefl, lex_trans; eauto.
Qed.

Lemma leastLoaded_spec g b bs ds : leastLoaded g b bs ds ∈ b :: bs ∧ ∀ c, c ∈ b :: bs → SFltb (NormalizedLoad g c) (NormalizedLoad g (leastLoaded g b bs ds)) = false.
Proof.
  unfold leastLoaded. apply (least_spec (λ x y, SFltb (NormalizedLoad g x) (NormalizedLoad g y)) (λ x y, SFeqb (NormalizedLoad g x) (NormalizedLoad g y))).
  - intros x. destruct (SFltb _ _) eqn:E; [|done]. apply SFltb_rank in E as (_ & _ & E). by apply lex_irrefl in E.
  - intros x y z (Hx & _ & H1)%SFltb_rank (_ & Hz & H2)%SFltb_rank. apply rank_SFltb; [done|done|]. by eapply lex_trans.
  - intros x y z He (Hx & Hy & H1)%SFltb_rank. unfold SFeqb in He.
    assert (Hz : num (NormalizedLoad g z)) by (intros Hn; rewrite Hn in He; by destruct (NormalizedLoad g y) as [[]|[]| |[]]).
    pose proof (SFcompare_rank _ _ Hy Hz) as Hr. destruct (SFcompare (NormalizedLoad g y) (NormalizedLoad g z)) as [[]|]; try done.
    apply rank_SFltb; [done|done|]. by rewrite <-Hr.
Qed.

Lemma fullest_spec m es : es ≠ [] → ∃ f fs, foldl (fullest_step m) [] es = f :: fs ∧ ∀ c, c ∈ f :: fs → c ∈ es ∧ ∀ d, d ∈ es → pend m d ≤ pend m c.
Proof.
  induction es as [|e es IH] using rev_ind; [done|]. intros _. rewrite foldl_app. cbn [foldl].
  destruct (decide (es = [])) as [-> |Hne].
  { exists e, []. split; [done|]. intros c ->%list_elem_of_singleton. split; [by left|]. by intros d ->%list_elem_of_singleton. }
  destruct (IH Hne) as (f & fs & -> & Hall). cbn [fullest_step]. assert (Hf : f ∈ f :: fs) by by left. destruct (Hall f Hf) as [Hfe Hfm].
  destruct (Z.ltb_spec (pend m f) (pend m e)) as [Hlt|Hge].
  - exists e, []. split; [done|]. intros c ->%list_elem_of_singleton. split; [apply elem_of_app; right; by left|].
    intros d [Hd| ->%list_elem_of_singleton]%elem_of_app; [|done]. specialize (Hfm d Hd). lia.
  - assert (Hc : ∀ c, c ∈ f :: fs → c ∈ es ++ [e] ∧ ∀ d, d ∈ es ++ [e] → pend m d ≤ pend m c).
    { intros c Hcf. destruct (Hall c Hcf) as [Hce Hcm]. split; [apply elem_of_app; by left|].
      intros d [Hd| ->%list_elem_of_singleton]%elem_of_app; [by apply Hcm|]. specialize (Hcm f Hfe). lia. }
    destruct (Z.eqb_spec (pend m e) (pend m f)) as [Heq|Hneq]; [|by exists f, fs].
    exists f, (fs ++ [e]). split; [done|]. intros c Hcin. rewrite app_comm_cons in Hcin. apply elem_of_app in Hcin as [Hcf| ->%list_elem_of_singleton]; [by apply Hc|].
    split; [apply elem_of_app; right; by left|]. intros d Hd. rewrite Heq. by apply (Hc f Hf).
Qed.

Definition fair_picker (pick : option (list string → option string)) : Prop := ∀ p fs b, pick = Some p → p fs = Some b → b ∈ fs.

Lemma prefill_pick_spec m es pick : fair_picker pick → es ≠ [] → ∃ b, pickLocked m es pick = Some b ∧ b ∈ es ∧ ∀ d, d ∈ es → pend m d ≤ pend m b.
Proof.
  intros Hp Hne. unfold pickLocked. destruct (fullest_spec m es Hne) as (f & fs & -> & Hall).
  assert (Hf : f ∈ f :: fs) by by left. destruct fs as [|f2 fs]; [exists f; split; [done|by apply Hall]|].
  destruct pick as [p|]; [|exists f; split; [done|by apply Hall]]. destruct (p _) as [b|] eqn:E; [|exists f; split; [done|by apply Hall]].
  exists b. split; [done|]. apply Hall. by eapply Hp.
Qed.

(** What [choose] decides, branch by branch. *)
Definition limit_of (m : Manager) (fleet : Z) : Z := Z.min (f64_to_i64 (f64_mul (f64_of_Z fleet) (MaxFleetFraction (cfg m)))) (fleet - 1).

Section choice.
Context (m : Manager) (cands : list string) (tokens : Z).
Definition decode_of : list string := filter (λ b, mode_of_url m b = Decode) cands.
Definition nonDecode_of : list string := filter (λ b, mode_of_url m b ≠ Decode) cands.
Definition eligible_of : list string := filter (λ b, is_eligible m tokens b = true) nonDecode_of.

Inductive choice (g : gauges) : option (string * bool) → Prop :=
  | ch_room b : b ∈ eligible_of → (∀ c, c ∈ eligible_of → pend m c ≤ pend m b) → choice g (Some (b, false))
  | ch_convert b : eligible_of = [] → b ∈ decode_of → (∀ c, c ∈ decode_of → SFltb (NormalizedLoad g c) (NormalizedLoad g b) = false) →
      (1 < length decode_of)%nat → Z.of_nat (length nonDecode_of) < limit_of m (Z.of_nat (length cands)) → choice g (Some (b, true))
  | ch_queue b : eligible_of = [] → b ∈ nonDecode_of → (∀ c, c ∈ nonDecode_of → pend m b ≤ pend m c) → choice g (Some (b, false))
  | ch_none : nonDecode_of = [] → canConvertLocked m (Z.of_nat (length cands)) 0 (Z.of_nat (length decode_of)) = false → choice g None.

Lemma choose_spec g now pick ds : fair_picker pick → choice g (choose g now cands tokens pick ds m).
Proof.
  intros Hp. unfold choose. fold decode_of nonDecode_of. fold eligible_of. case_bool_decide as He.
  { destruct (prefill_pick_spec m eligible_of pick Hp He) as (b & -> & H1 & H2). by apply ch_room. }
  assert (Hel : eligible_of = []) by (destruct eligible_of; [done|destruct He; done]).
  assert (Hrest : ∀ ds, choice g (match nonDecode_of with b :: bs => Some ((leastPendingLocked m b bs ds).1, false) | [] => None end) ∨ nonDecode_of = []).
  { intros ds'. destruct nonDecode_of as [|b bs] eqn:E; [by right|]. left. destruct (leastPending_spec m b bs ds') as [H1 H2]. apply ch_queue; rewrite ?E; done. }
  destruct (canConvertLocked m _ _ _) eqn:Hcc.
  - destruct (overflowedLongEnoughLocked m now nonDecode_of ds) as [conv ds'] eqn:Ho. destruct conv.
    + unfold canConvertLocked in Hcc. cbn zeta in Hcc. apply andb_true_iff in Hcc as [H1%Z.ltb_lt H2%Z.ltb_lt].
      destruct decode_of as [|b bs] eqn:E; [cbn in H1; lia|]. destruct (leastLoaded_spec g b bs ds') as [H3 H4]. apply ch_convert; rewrite ?E; [done..|cbn in *; lia|done].
    + destruct (Hrest ds') as [H|Hn]; [done|]. exfalso. unfold overflowedLongEnoughLocked in Ho. rewrite Hn in Ho. by destruct (_ <=? _).
  - destruct (Hrest ds) as [H|Hn]; [done|]. rewrite Hn in *. apply ch_none; [done|]. exact Hcc.
Qed.
End choice.

(** ** Placing a job *)

Lemma enqueue_inv now n b tokens m x : inv m → nheap m !! n = Some x → mode x ≠ Decode → 1 ≤ tokens →
  let '(j, m') := enqueue now n b tokens m in
  inv m' ∧ jobs m' !! j = Some (MkJob n tokens false false true false b) ∧ cfg m' = cfg m ∧ nodes m' = nodes m ∧
  ∃ x', nheap m' = <[n := x']> (nheap m) ∧ mode x' = mode x ∧ pending x' = pending x + tokens.
Proof.
  intros Hi Hx Hmd Ht. unfold enqueue. cbn zeta. set (x0 := set_idle None (set_pending (pending x + tokens) x)).
  set (m0 := on_node n _ m). assert (Hm0 : nheap m0 !! n = Some x0) by (unfold m0, on_node; cbn; rewrite lookup_insert_eq, (lookup_total_correct _ _ _ Hx); done).
  destruct (track_eq now n m0 x0 Hm0) as [o ->].
  set (x' := set_queue (queue x ++ [next_job m]) (set_over o x0)). set (y := MkJob n tokens false false true false b).
  assert (Heq : on_node n (λ x, set_queue (queue x ++ [next_job m0]) x)
     (MkManager (cfg (on_node n (set_over o) m0)) (nodes (on_node n (set_over o) m0)) (nheap (on_node n (set_over o) m0)) (<[next_job m0 := y]> (jobs (on_node n (set_over o) m0)))
        (next_node (on_node n (set_over o) m0)) (Pos.succ (next_job m0)) (conversions (on_node n (set_over o) m0)) (releases (on_node n (set_over o) m0))) =
     MkManager (cfg m) (nodes m) (<[n := x']> (nheap m)) (<[next_job m := y]> (jobs m)) (next_node m) (Pos.succ (next_job m)) (conversions m) (releases m)).
  { unfold m0, on_node. cbn. rewrite !lookup_total_insert_eq, !insert_insert_eq, (lookup_total_correct _ _ _ Hx). done. }
  change (next_job (on_node n (set_over o) m0)) with (next_job m0). rewrite Heq. cbn [jobs cfg nodes nheap]. clear Heq.
  split_and!; [|by rewrite lookup_insert_eq|done|done|exists x'; done].
  pose proof (iv_node _ Hi n x Hx) as [K1 K2 K3 K4 K5 K6 K7 K8]. destruct Hi as [H1 H2 H3 H4 H5].
  assert (Hnew : jobs m !! next_job m = None). { apply eq_None_not_Some. intros Hs. apply H3 in Hs. lia. }
  assert (Hnq : ∀ n0 x1, nheap m !! n0 = Some x1 → next_job m ∉ queue x1).
  { intros n0 x1 Hx1 Hin. apply (nk_queue _ _ _ _ (H5 n0 x1 Hx1)) in Hin as (z & Hz & _). congruence. }
  split; cbn [cfg nodes nheap jobs next_node next_job].
  - intros c n0 Hc. destruct (H1 c n0 Hc) as (x1 & Hx1 & Hb1). destruct (decide (n0 = n)) as [-> |Hne].
    + exists x'. rewrite lookup_insert_eq. split; [done|]. assert (x1 = x) as -> by congruence. done.
    + exists x1. by rewrite lookup_insert_ne.
  - intros n0 Hn0. destruct (decide (n0 = n)) as [-> |Hne]; [by apply H2; rewrite Hx|]. rewrite lookup_insert_ne in Hn0 by done. by apply H2.
  - intros k Hk. destruct (decide (k = next_job m)) as [-> |Hne]; [lia|]. rewrite lookup_insert_ne in Hk by done. apply H3 in Hk. lia.
  - assert (Hdom : ∀ n0, is_Some (nheap m !! n0) → is_Some ((<[n := x']> (nheap m)) !! n0)).
    { intros n0 Hn0. destruct (decide (n0 = n)) as [-> |Hne]; [rewrite lookup_insert_eq; by eexists|by rewrite lookup_insert_ne]. }
    intros k z Hk. destruct (decide (k = next_job m)) as [-> |Hne].
    + rewrite lookup_insert_eq in Hk. injection Hk as <-. split; [apply Hdom; cbn; by rewrite Hx|]. unfold job_ok. cbn. split; [done|split; done].
    + rewrite lookup_insert_ne in Hk by done. destruct (H4 k z Hk). auto.
  - intros n0 x1 Hx1. destruct (decide (n0 = n)) as [-> |Hne].
    + rewrite lookup_insert_eq in Hx1. injection Hx1 as <-. split; cbn; try done.
      * apply NoDup_app. split_and!; [done| |apply NoDup_singleton]. intros k Hk ->%list_elem_of_singleton. by apply (Hnq n x Hx).
      * intros k. rewrite elem_of_app, list_elem_of_singleton. destruct (decide (k = next_job m)) as [-> |Hne].
        -- split; [|by right]. intros _. exists y. by rewrite lookup_insert_eq.
        -- rewrite lookup_insert_ne by done. rewrite K2. split; [intros [?|?]; [done|congruence]|by left].
      * rewrite msum_insert_new by done. rewrite held_on_here by done. cbn. lia.
      * rewrite msum_insert_new by done. unfold owed_on at 1. cbn. rewrite bool_decide_true by done. cbn. lia.
    + rewrite lookup_insert_ne in Hx1 by done. destruct (H5 n0 x1 Hx1) as [J1 J2 J3 J4 J5 J6 J7 J8].
      destruct (on_elsewhere n0 y) as [E1 E2]; [cbn; congruence|]. split; try done.
      * intros k. rewrite J2. destruct (decide (k = next_job m)) as [-> |Hnk]; [|by rewrite lookup_insert_ne].
        split; [intros (z & Hz & _); congruence|]. intros (z & Hz & Hzn & _). rewrite lookup_insert_eq in Hz. injection Hz as <-. cbn in Hzn. congruence.
      * rewrite msum_insert_new by done. lia.
      * rewrite msum_insert_new by done. lia.
Qed.

Lemma convert_inv n m x : inv m → nheap m !! n = Some x → mode x = Decode → inv (convert n m) ∧ nheap (convert n m) = <[n := set_mode Draining x]> (nheap m).
Proof.
  intros Hi Hx Hmd. pose proof (nk_decode _ _ _ _ (iv_node _ Hi n x Hx) Hmd) as Hp. destruct (idle_node m n x Hi Hx Hp) as (Hr & _ & _).
  pose proof (nk_idle _ _ _ _ (iv_node _ Hi n x Hx)) as Hid. unfold convert, on_node. cbn. rewrite (lookup_total_correct _ _ _ Hx). split; [|done].
  apply (inv_node m n x); try done. cbn. intros Hn. destruct (Hid Hn). congruence.
Qed.

(** The outcome of [Reserve]: where the job is, what it was chosen by, and what changed. *)
Lemma Reserve_cases g now cands tokens pick ds m : inv m → fair_picker pick →
  let '(o, m') := Reserve g now cands tokens pick ds m in
  inv m' ∧ cfg m' = cfg m ∧
  ∃ ch, choice m cands (Z.max tokens 1) g ch ∧
  match o, ch with
  | None, None => ∀ c, mode_of_url m' c = mode_of_url m c
  | Some j, Some (b, conv) =>
      (∃ y, jobs m' !! j = Some y ∧ j_Backend y = b ∧ j_tokens y = Z.max tokens 1 ∧ queued y = true ∧ held y = false ∧ once y = false) ∧
      pend m' b = pend m b + Z.max tokens 1 ∧
      (∀ c, mode_of_url m' c = if decide (c = b ∧ conv = true) then Draining else mode_of_url m c)
  | _, _ => False
  end.
Proof.
  intros Hi Hp. unfold Reserve. cbn zeta. destruct (touch_inv cands m Hi) as (Hi1 & Hs & Hc & _ & _ & Hmp). set (m1 := touch cands m) in *. clearbody m1.
  assert (Hch : choice m cands (Z.max tokens 1) g (choose g now cands (Z.max tokens 1) pick ds m1)).
  { assert (Hdec : decode_of m1 cands = decode_of m cands) by (apply filter_ext_in; intros b _; by rewrite (proj1 (Hmp b))).
    assert (Hnon : nonDecode_of m1 cands = nonDecode_of m cands) by (apply filter_ext_in; intros b _; by rewrite (proj1 (Hmp b))).
    assert (Hel : eligible_of m1 cands (Z.max tokens 1) = eligible_of m cands (Z.max tokens 1)).
    { unfold eligible_of. rewrite Hnon. apply filter_ext_in. intros b _. unfold is_eligible. by rewrite (proj2 (Hmp b)), Hc. }
    destruct (choose_spec m1 cands (Z.max tokens 1) g now pick ds Hp) as [b H1 H2|b H1 H2 H3 H4 H5|b H1 H2 H3|H1 H2]; rewrite ?Hdec, ?Hnon, ?Hel in *.
    - apply ch_room; [done|]. intros c Hcc. rewrite <-!(proj2 (Hmp _)). by apply H2.
    - apply ch_convert; try done. unfold limit_of in *. by rewrite <-Hc.
    - apply ch_queue; [done|done|]. intros c Hcc. rewrite <-!(proj2 (Hmp _)). by apply H3.
    - apply ch_none; [done|]. unfold canConvertLocked in *. by rewrite <-Hc. }
  set (ch := choose _ _ _ _ _ _ _) in *. clearbody ch. destruct ch as [[b conv]|].
  2:{ split_and!; [done|done|]. exists None. split; [done|]. intros c. apply Hmp. }
  assert (Hb : b ∈ cands ∧ (if conv then mode_of_url m b = Decode else mode_of_url m b ≠ Decode)).
  { inversion Hch as [b' H1 H2|b' H1 H2 H3 H4 H5|b' H1 H2 H3|]; subst.
    - unfold eligible_of, nonDecode_of in H1. rewrite !list_elem_of_filter in H1. tauto.
    - unfold decode_of in H2. rewrite !list_elem_of_filter in H2. tauto.
    - unfold nonDecode_of in H2. rewrite !list_elem_of_filter in H2. tauto. }
  destruct Hb as [Hbc Hbm]. destruct (Hs b Hbc) as [n Hn]. rewrite Hn. destruct (iv_nodes _ Hi1 b n Hn) as (x & Hx & Hxb).
  assert (Hmode : mode_of_url m b = mode x) by (rewrite <-(proj1 (Hmp b)); unfold mode_of_url; by rewrite Hn, (lookup_total_correct _ _ _ Hx)).
  set (m2 := if conv then convert n m1 else m1). set (x2 := if conv then set_mode Draining x else x).
  assert (H2 : inv m2 ∧ nheap m2 !! n = Some x2 ∧ (∀ n0, n0 ≠ n → nheap m2 !! n0 = nheap m1 !! n0) ∧ nodes m2 = nodes m1 ∧ cfg m2 = cfg m1 ∧ mode x2 ≠ Decode ∧ pending x2 = pending x ∧
    mode x2 = if conv then Draining else mode x).
  { unfold m2, x2. destruct conv.
    - destruct (convert_inv n m1 x Hi1 Hx) as [Hi2 Hh]; [congruence|]. split_and!; try done; rewrite Hh; [apply lookup_insert_eq|]. intros n0 Hn0. by apply lookup_insert_ne.
    - split_and!; try done. congruence. }
  clearbody m2 x2. destruct H2 as (Hi2 & Hx2 & Ho2 & Hn2 & Hc2 & Hmd2 & Hp2 & Hm2).
  pose proof (enqueue_inv now n b (Z.max tokens 1) m2 x2 Hi2 Hx2 Hmd2 ltac:(lia)) as He. destruct (enqueue now n b (Z.max tokens 1) m2) as [j m3].
  destruct He as (Hi3 & Hj & Hc3 & Hn3 & x3 & Hh3 & Hmd3 & Hp3). split_and!; [done|congruence|]. exists (Some (b, conv)). split; [done|]. split_and!.
  - eexists. split; [exact Hj|]. done.
  - unfold pend at 1. rewrite Hn3, Hn2, Hn, Hh3, lookup_total_insert_eq, Hp3, Hp2. rewrite <-(proj2 (Hmp b)). unfold pend. by rewrite Hn, (lookup_total_correct _ _ _ Hx).
  - intros c. rewrite <-(proj1 (Hmp c)). unfold mode_of_url. rewrite Hn3, Hn2. destruct (nodes m1 !! c) as [n'|] eqn:Hc'.
    + destruct (decide (n' = n)) as [-> |Hne].
      * destruct (iv_nodes _ Hi1 c n Hc') as (x' & Hx' & Hxc). assert (x' = x) as -> by congruence. assert (c = b) as -> by congruence.
        rewrite Hh3, lookup_total_insert_eq, Hmd3, Hm2, (lookup_total_correct _ _ _ Hx). destruct conv; [by rewrite decide_True|]. rewrite decide_False; [done|]. by intros [_ ?].
      * rewrite decide_False by (intros [-> _]; congruence). rewrite Hh3, lookup_total_insert_ne by done.
        rewrite !lookup_total_alt. by rewrite Ho2.
    + rewrite decide_False; [done|]. intros [-> _]. congruence.
Qed.

(** ** The manager at work *)

Inductive mstep : Manager → Manager → Prop :=
  | m_reserve g now cands tokens pick ds m : fair_picker pick → mstep m (Reserve g now cands tokens pick ds m).2
  | m_done g now j m : is_Some (jobs m !! j) → mstep m (Done g now j m)
  | m_drain g j m : is_Some (jobs m !! j) → mstep m (wait_drain g j m).2
  | m_slot g j m : is_Some (jobs m !! j) → mstep m (wait_slot g j m).2
  | m_cancel g j m : is_Some (jobs m !! j) → mstep m (wait_cancel g j m)
  | m_expire now m : mstep m (releaseExpired now m)
  | m_prune known m : mstep m (Prune known m).

Lemma expire_keeps now ns : ∀ m, inv m → resting m →
  inv (foldl (λ m n, if expired m now n then releaseLocked n m else m) m ns) ∧ resting (foldl (λ m n, if expired m now n then releaseLocked n m else m) m ns).
Proof.
  induction ns as [|n ns IH]; intros m Hi Hr; [done|]. cbn [foldl]. destruct (expired m now n) eqn:E; [|by apply IH].
  unfold expired in E. cbn zeta in E. apply andb_true_iff in E as [E1%bool_decide_eq_true E2].
  destruct (nheap m !! n) as [x|] eqn:Hx; [|rewrite lookup_total_alt, Hx in E1; done]. rewrite (lookup_total_correct _ _ _ Hx) in E1, E2.
  destruct (nk_idle _ _ _ _ (iv_node _ Hi n x Hx)) as [_ Hp]; [by destruct (idleSince x)|]. apply IH; [by eapply releaseLocked_inv|].
  intros n' x'. unfold releaseLocked, on_node. cbn. destruct (decide (n' = n)) as [-> |Hne].
  - rewrite lookup_insert_eq. intros [= <-] _. by left.
  - rewrite lookup_insert_ne by done. apply Hr.
Qed.

Lemma releaseIfIdle_rests now n m x : inv m → nheap m !! n = Some x → (∀ n' x', n' ≠ n → nheap m !! n' = Some x' → rests x') → resting (releaseIfIdleLocked now n m).
Proof.
  intros Hi Hx Hr n' x' Hx'. destruct (releaseIfIdle_inv now n m x Hi Hx) as (_ & _ & _ & Hz).
  assert (Hq : (∀ k, k ≠ n → nheap (releaseIfIdleLocked now n m) !! k = nheap m !! k) ∧ ∃ x1, nheap (releaseIfIdleLocked now n m) !! n = Some x1 ∧ pending x1 = pending x).
  { unfold releaseIfIdleLocked, releaseLocked, on_node. rewrite (lookup_total_correct _ _ _ Hx). cbn zeta. destruct (_ || _); [split; [done|by exists x]|].
    destruct (_ && _); [destruct (idleSince x); [split; [done|by exists x]|]|]; cbn; (split; [intros k Hk; by rewrite lookup_insert_ne|eexists; rewrite lookup_insert_eq; split; [done|done]]). }
  destruct Hq as [Hq1 (x1 & Hx1 & Hp1)]. destruct (decide (n' = n)) as [-> |Hne]; [|rewrite Hq1 in Hx' by done; by eapply Hr].
  assert (x1 = x') as -> by congruence. intros Hp. rewrite Hp1 in Hp. destruct (Hz Hp) as (x2 & Hx2 & [Hm|(_ & _ & _ & t & Ht)]); assert (x2 = x') as -> by congruence.
  - by left.
  - right. by rewrite Ht.
Qed.

Lemma touch_resting cands : ∀ m, resting m → resting (touch cands m).
Proof.
  induction cands as [|b cands IH]; intros m Hr; [done|]. change (touch (b :: cands) m) with (touch cands (nodeLocked b m).2). apply IH.
  unfold nodeLocked. destruct (nodes m !! b) as [n|]; [done|]. cbn [snd]. intros n x. cbn [nheap]. destruct (decide (n = next_node m)) as [-> |Hne].
  - rewrite lookup_insert_eq. intros [= <-] _. by left.
  - rewrite lookup_insert_ne by done. apply Hr.
Qed.

Lemma enqueue_heap now n b tokens m x : nheap m !! n = Some x → ∃ x', nheap (enqueue now n b tokens m).2 = <[n := x']> (nheap m) ∧ pending x' = pending x + tokens.
Proof.
  intros Hx. unfold enqueue. cbn zeta. set (x0 := set_idle None (set_pending (pending x + tokens) x)). set (m0 := on_node n _ m).
  assert (Hm0 : nheap m0 !! n = Some x0) by (unfold m0, on_node; cbn; rewrite lookup_insert_eq, (lookup_total_correct _ _ _ Hx); done).
  destruct (track_eq now n m0 x0 Hm0) as [o ->]. unfold m0, on_node. cbn. rewrite !lookup_total_insert_eq, !insert_insert_eq, (lookup_total_correct _ _ _ Hx). by eexists.
Qed.

Lemma pending_nonneg m n x : inv m → nheap m !! n = Some x → 0 ≤ pending x.
Proof.
  intros Hi Hx. rewrite (nk_pending _ _ _ _ (iv_node _ Hi n x Hx)). apply msum_nonneg. intros j y Hj. destruct (iv_job _ Hi j y Hj) as (_ & Ht & _).
  unfold owed_on. destruct (_ && _); lia.
Qed.

Lemma Reserve_resting g now cands tokens pick ds m : inv m → resting m → resting (Reserve g now cands tokens pick ds m).2.
Proof.
  intros Hi Hr. unfold Reserve. cbn zeta. destruct (touch_inv cands m Hi) as (Hi1 & _). pose proof (touch_resting cands m Hr) as Hr1. set (m1 := touch cands m) in *. clearbody m1.
  destruct (choose _ _ _ _ _ _ _) as [[b conv]|]; [|done]. destruct (nodes m1 !! b) as [n|] eqn:Hn; [|done]. destruct (iv_nodes _ Hi1 b n Hn) as (x & Hx & _).
  set (m2 := if conv then convert n m1 else m1).
  assert (H2 : ∃ x2, nheap m2 !! n = Some x2 ∧ pending x2 = pending x ∧ ∀ n', n' ≠ n → nheap m2 !! n' = nheap m1 !! n').
  { unfold m2. destruct conv; [|by exists x]. unfold convert, on_node. cbn. rewrite lookup_insert_eq, (lookup_total_correct _ _ _ Hx).
    eexists. split_and!; [done|done|]. intros n' Hn'. by rewrite lookup_insert_ne. }
  destruct H2 as (x2 & Hx2 & Hp2 & Ho). destruct (enqueue_heap now n b (Z.max tokens 1) m2 x2 Hx2) as (x3 & Hh & Hp3).
  destruct (enqueue _ _ _ _ _) as [j m3]. cbn [snd] in *. intros n' x'. rewrite Hh. destruct (decide (n' = n)) as [-> |Hne].
  - rewrite lookup_insert_eq. intros [= <-] Hz. pose proof (pending_nonneg m1 n x Hi1 Hx). lia.
  - rewrite lookup_insert_ne, Ho by done. apply Hr1.
Qed.

Lemma step_keeps m m' : inv m → resting m → mstep m m' → inv m' ∧ resting m' ∧ cfg m' = cfg m.
Proof.
  intros Hi Hr Hst. destruct Hst as [g now cands tokens pick ds m Hp|g now j m [y Hj]|g j m [y Hj]|g j m [y Hj]|g j m [y Hj]|now m|known m].
  - pose proof (Reserve_resting g now cands tokens pick ds m Hi Hr) as Hr'. pose proof (Reserve_cases g now cands tokens pick ds m Hi Hp) as H.
    destruct (Reserve _ _ _ _ _ _ _) as [o m']. destruct H as (H1 & H2 & _). done.
  - destruct (Done_inv g now j m Hi ltac:(by exists y)) as [Hi' Hc]. split_and!; [done| |done]. destruct (once y) eqn:Hon.
    { unfold Done. by rewrite (lookup_total_correct _ _ _ Hj), Hon. }
    destruct (Done_shape g now j m y Hi Hj Hon) as (m4 & x4 & Hi4 & Hx4 & _ & -> & Ho & _). apply (releaseIfIdle_rests now (j_n y) m4 x4 Hi4 Hx4).
    intros n' x' Hne Hx'. rewrite Ho in Hx' by done. by apply (Hr n').
  - unfold wait_drain. cbn [snd]. rewrite (lookup_total_correct _ _ _ Hj). destruct (iv_job _ Hi j y Hj) as ([x Hx] & _). rewrite (lookup_total_correct _ _ _ Hx).
    destruct (_ && _) eqn:E; [|done]. apply andb_true_iff in E as [E%bool_decide_eq_true _]. pose proof (iv_node _ Hi _ x Hx) as [_ _ _ _ K5 K6 _ K8].
    split_and!; [|..|done].
    + apply (on_node_inv m (j_n y) (set_mode Prefill) x); try done. cbn. intros Hd. destruct (K8 Hd). congruence.
    + intros n' x'. unfold on_node. cbn. rewrite (lookup_total_correct _ _ _ Hx). destruct (decide (n' = j_n y)) as [-> |Hne]; [|rewrite lookup_insert_ne by done; apply Hr].
      rewrite lookup_insert_eq. intros [= <-] Hp. cbn in *. destruct (Hr _ _ Hx Hp) as [Hm|Hd]; [congruence|by right].
  - unfold wait_slot. cbn [snd]. rewrite (lookup_total_correct _ _ _ Hj). destruct (iv_job _ Hi j y Hj) as ([x Hx] & _).
    destruct (grantLocked_spec g (j_n y) m x Hi Hx) as (k & _ & (_ & _ & Hc & _) & Hi' & _). split_and!; [done| |done].
    eapply quiet_resting; [apply grant_quiet|by exists x|done].
  - unfold wait_cancel. destruct (dequeue_inv j m y Hi Hj) as (Hi1 & Hj1 & Hc1). destruct (give_back_inv g j _ _ Hi1 Hj1) as (Hi2 & _ & Hc2); [done|].
    destruct (iv_job _ Hi j y Hj) as ([x Hx] & _). split_and!; [done| |congruence].
    pose proof (dequeue_quiet j m) as Q1. rewrite (lookup_total_correct _ _ _ Hj) in Q1. pose proof (give_back_quiet g j (dequeueLocked j m)) as Q2.
    rewrite (lookup_total_correct _ _ _ Hj1) in Q2. eapply quiet_resting; [eapply quiet_trans; [exact Q1|exact Q2]|by exists x|done].
  - destruct (expire_keeps now (map_to_list (nodes m)).*2 m Hi Hr) as [H1 H2]. split_and!; [done|done|].
    unfold releaseExpired. generalize (map_to_list (nodes m)).*2. intros ns. clear. revert m. induction ns as [|n ns IH]; intros m; [done|]. cbn [foldl]. rewrite IH. by destruct (expired m now n).
  - split_and!; [|done|done]. destruct Hi as [H1 H2 H3 H4 H5]. split; try done. intros b n Hb. cbn in Hb. apply map_lookup_filter_Some in Hb as [Hb _]. by apply H1.
Qed.

Lemma New_inv c : inv (New c) ∧ resting (New c).
Proof. split; [split; cbn|intros n x; cbn; by rewrite lookup_empty]; try (by intros ? [? ?]); intros ? ?; by rewrite lookup_empty. Qed.

Definition reached (c : Config) (m : Manager) : Prop := rtc mstep (New c) m.

Lemma reached_inv c m : reached c m → inv m ∧ resting m ∧ cfg m = withDefaults c.
Proof.
  intros Hr. assert (Hgen : ∀ a b, rtc mstep a b → inv a → resting a → inv b ∧ resting b ∧ cfg b = cfg a).
  { induction 1 as [a|a b d Hab _ IH]; intros Hi Hs; [done|]. destruct (step_keeps a b Hi Hs Hab) as (H1 & H2 & H3). destruct (IH H1 H2) as (H4 & H5 & H6). split_and!; [done|done|congruence]. }
  destruct (New_inv c) as [Hi Hs]. by apply (Hgen _ _ Hr).
Qed.

Lemma filter_flip (m m' : Manager) b cands : NoDup cands → b ∈ cands → mode_of_url m b = Decode →
  (∀ c, mode_of_url m' c = if decide (c = b ∧ true = true) then Draining else mode_of_url m c) →
  length (nonDecode_of m' cands) = S (length (nonDecode_of m cands)) ∧ length (decode_of m cands) = S (length (decode_of m' cands)).
Proof.
  unfold nonDecode_of, decode_of. intros Hnd Hb Hd Hm. induction cands as [|c cs IH]; [by apply elem_of_nil in Hb|]. apply NoDup_cons in Hnd as [Hc Hnd].
  destruct (decide (c = b)) as [-> |Hne].
  - assert (Hoth : ∀ d, d ∈ cs → mode_of_url m' d = mode_of_url m d). { intros d Hdc. rewrite Hm, decide_False; [done|]. intros [-> _]. done. }
    rewrite !filter_cons. rewrite (decide_True (P := mode_of_url m b = Decode)), (decide_False (P := mode_of_url m b ≠ Decode)) by tauto.
    assert (Hb' : mode_of_url m' b = Draining) by (by rewrite Hm, decide_True).
    rewrite (decide_True (P := mode_of_url m' b ≠ Decode)), (decide_False (P := mode_of_url m' b = Decode)) by (by rewrite Hb'). cbn [length].
    rewrite (filter_ext_in (λ b, mode_of_url m' b ≠ Decode) (λ b, mode_of_url m b ≠ Decode) cs) by (intros d Hdc; by rewrite Hoth).
    rewrite (filter_ext_in (λ b, mode_of_url m' b = Decode) (λ b, mode_of_url m b = Decode) cs) by (intros d Hdc; by rewrite Hoth). done.
  - destruct IH as [IH1 IH2]; [done|set_solver|]. assert (Hc' : mode_of_url m' c = mode_of_url m c) by (rewrite Hm, decide_False; [done|by intros [? _]]).
    rewrite !filter_cons, Hc'. repeat case_decide; try tauto; cbn [length]; lia.
Qed.

(** ** What the manager promises *)

(** C15: [Manager]'s books balance, whatever sequence of [Reserve], [Done], waits, expiries and
    prunes led here: each node's [running] is the number of jobs holding a slot on it, its
    [pending] the tokens of its jobs not yet done, its queue exactly its waiting jobs, once
    each; a draining node runs nothing, a decode node owes nothing, no node runs more than
    [NodeConcurrency] when one is set; and a node with nothing pending is in decode or has
    begun its idle wait. *)
Theorem manager_consistent c m : reached c m → inv m ∧ resting m.
Proof. intros Hr. by destruct (reached_inv c m Hr) as (H1 & H2 & _). Qed.

(** prefill and decode do not share a node: a job that holds a slot is on a node in
    [Prefill], which runs at most [NodeConcurrency] jobs; while the manager knows that node,
    [DecodeNodes] leaves it out of ordinary routing unless every candidate is out of decode. *)
Theorem prefill_exclusive c m j y cands : reached c m → jobs m !! j = Some y → held y = true →
  ∃ x, nheap m !! j_n y = Some x ∧ mode x = Prefill ∧ 1 ≤ running x ∧ (0 < NodeConcurrency c → running x ≤ NodeConcurrency c) ∧
  ∀ b, nodes m !! b = Some (j_n y) → n_b x = b ∧ (b ∈ DecodeNodes cands m → ∀ d, d ∈ cands → mode_of_url m d ≠ Decode).
Proof.
  intros Hr Hj Hh. destruct (reached_inv c m Hr) as (Hi & _ & Hc). destruct (iv_job _ Hi j y Hj) as ([x Hx] & Ht & Hho & _). destruct (Hho Hh) as [_ Ho].
  pose proof (iv_node _ Hi _ x Hx) as [K1 K2 K3 K4 K5 K6 K7 K8]. rewrite Hc in K7. exists x.
  assert (Hrun : 1 ≤ running x).
  { rewrite K3, (msum_lookup _ _ j y Hj), held_on_here, Hh by done. cbn.
    assert (0 ≤ msum (held_on (j_n y)) (delete j (jobs m))); [|lia]. apply msum_nonneg. intros k z _. unfold held_on, b2z. destruct (bool_decide _), (held z); lia. }
  assert (Hmd : mode x = Prefill).
  { destruct (mode x) eqn:E; [|specialize (K5 eq_refl); lia|done]. destruct (idle_node m _ x Hi Hx (K6 eq_refl)) as (? & _). lia. }
  split_and!; [done|done|done| |].
  - intros Hpos. apply K7. done.
  - intros b Hb. destruct (iv_nodes _ Hi b _ Hb) as (x' & Hx' & Hbx). assert (x' = x) as -> by congruence. split; [done|].
    unfold DecodeNodes. intros Hin d Hd Hdd. destruct (filter _ cands) as [|e es] eqn:E.
    + assert (Hf : d ∈ filter (λ b, mode_of_url m b = Decode) cands) by (by apply list_elem_of_filter). rewrite E in Hf. by apply elem_of_nil in Hf.
    + rewrite <-E in Hin. apply list_elem_of_filter in Hin as [Hm _]. unfold mode_of_url in Hm. rewrite Hb, (lookup_total_correct _ _ _ Hx) in Hm. congruence.
Qed.

(** [Reserve] keeps to its share of the fleet: of the candidates, the nodes out of decode
    are no more than before or than the floor of [MaxFleetFraction] of them, and one in decode
    stays in decode; a job is charged its tokens on a candidate out of decode, and is refused
    only when no candidate is out of decode and none may be drained. *)
Theorem reserve_within_share c m g now cands tokens pick ds : reached c m → fair_picker pick → NoDup cands →
  let '(o, m') := Reserve g now cands tokens pick ds m in
  Z.of_nat (length (nonDecode_of m' cands)) ≤ Z.max (Z.of_nat (length (nonDecode_of m cands))) (limit_of m (Z.of_nat (length cands))) ∧
  ((0 < length (decode_of m cands))%nat → (0 < length (decode_of m' cands))%nat) ∧
  match o with
  | None => nonDecode_of m cands = [] ∧ canConvertLocked m (Z.of_nat (length cands)) 0 (Z.of_nat (length (decode_of m cands))) = false
  | Some j => ∃ y, jobs m' !! j = Some y ∧ j_Backend y ∈ nonDecode_of m' cands ∧ j_tokens y = Z.max tokens 1 ∧ queued y = true ∧
                   pend m' (j_Backend y) = pend m (j_Backend y) + Z.max tokens 1
  end.
Proof.
  intros Hr Hp Hnd. destruct (reached_inv c m Hr) as (Hi & _ & _). pose proof (Reserve_cases g now cands tokens pick ds m Hi Hp) as H.
  destruct (Reserve _ _ _ _ _ _ _) as [o m']. destruct H as (_ & _ & ch & Hch & H).
  assert (Hsame : (∀ c, mode_of_url m' c = mode_of_url m c) → nonDecode_of m' cands = nonDecode_of m cands ∧ decode_of m' cands = decode_of m cands).
  { intros Hm. split; apply filter_ext_in; intros b _; by rewrite Hm. }
  destruct o as [j|], ch as [[b conv]|]; try done.
  2:{ destruct (Hsame H) as [-> ->]. inversion Hch; subst. split_and!; [lia|done|done|done]. }
  destruct H as ((y & Hj & <- & Hty & Hq & _) & Hpd & Hm).
  assert (Hin : conv = false → j_Backend y ∈ nonDecode_of m cands).
  { intros ->. inversion Hch as [b H1 H2| |b H1 H2 H3|]; subst; [|done]. unfold eligible_of in H1. by apply list_elem_of_filter in H1 as [_ H1]. }
  destruct conv.
  - inversion Hch as [|b H1 H2 H3 H4 H5| |]; subst. apply list_elem_of_filter in H2 as [H2 H2'].
    destruct (filter_flip m m' (j_Backend y) cands Hnd H2' H2 Hm) as [F1 F2]. split_and!; [lia|lia|]. exists y. split_and!; try done.
    apply list_elem_of_filter. split; [|done]. rewrite Hm, decide_True; done.
  - destruct Hsame as [-> ->]. { intros d. rewrite Hm, decide_False; [done|]. by intros [_ ?]. }
    split_and!; [lia|done|]. exists y. split_and!; try done. by apply Hin.
Qed.

(** slots go to the waiting jobs in arrival order: a grant serves a prefix of the node's
    queue and leaves every other job and node alone, and it stops only when the queue is
    empty, the node is draining, or the concurrency limit is met by the running jobs or by the
    node's own in-flight count. *)
Theorem slots_in_order c m g n x : reached c m → nheap m !! n = Some x →
  ∃ k, nheap (grantLocked g n m) = <[n := set_running (running x + Z.of_nat k) (set_queue (drop k (queue x)) x)]> (nheap m) ∧
  (∀ j, jobs (grantLocked g n m) !! j = if decide (j ∈ take k (queue x)) then set_granted <$> jobs m !! j else jobs m !! j) ∧
  (drop k (queue x) = [] ∨ mode x = Draining ∨
   0 < NodeConcurrency c ∧ (NodeConcurrency c ≤ running x + Z.of_nat k ∨ NodeConcurrency c ≤ Inflight g (n_b x))).
Proof.
  intros Hr Hx. destruct (reached_inv c m Hr) as (Hi & _ & Hc). destruct (grantLocked_spec g n m x Hi Hx) as (k & Hk & (G1 & G2 & _) & _ & Hs).
  exists k. split_and!; [done|done|]. rewrite Hc in Hs. destruct Hs as [-> |[?|?]]; [left; apply drop_all|by right; left|by right; right].
Qed.

Lemma release_loop_returns now ns : ∀ m n x t, nheap m !! n = Some x → mode x = Prefill → idleSince x = Some t → ReleaseIdle (cfg m) ≤ now - t → n ∈ ns →
  ∃ x', nheap (foldl (λ m n, if expired m now n then releaseLocked n m else m) m ns) !! n = Some x' ∧ mode x' = Decode.
Proof.
  assert (Hkeep : ∀ ns m n x, nheap m !! n = Some x → mode x = Decode → nheap (foldl (λ m n, if expired m now n then releaseLocked n m else m) m ns) !! n = Some x).
  { induction ns0 as [|k ks IH]; intros m n x Hx Hd; [done|]. cbn [foldl]. apply IH; [|done]. destruct (expired m now k) eqn:E; [|done].
    unfold releaseLocked, on_node. cbn. rewrite lookup_insert_ne; [done|]. intros ->. unfold expired in E. rewrite (lookup_total_correct _ _ _ Hx), Hd in E. done. }
  induction ns as [|k ks IH]; intros m n x t Hx Hp Ht Hl Hin; [by apply elem_of_nil in Hin|]. cbn [foldl]. destruct (decide (k = n)) as [-> |Hne].
  - assert (E : expired m now n = true). { unfold expired. rewrite (lookup_total_correct _ _ _ Hx), Ht, bool_decide_true by done. by apply Z.leb_le. }
    rewrite E. eexists. split; [apply Hkeep|].
    + unfold releaseLocked, on_node. cbn. by rewrite lookup_insert_eq.
    + done.
    + done.
  - apply elem_of_cons in Hin as [->|Hin]; [done|]. destruct (expired m now k) eqn:E; [|by eapply IH].
    apply (IH _ n x t); try done. unfold releaseLocked, on_node. cbn. by rewrite lookup_insert_ne.
Qed.

(** C40: no node is left out of decode for nothing: one the manager knows with nothing pending
    is in decode, or is a prefill node whose idle wait began at a time [t], and the first
    expiry check [ReleaseIdle] or more after [t] returns it to decode. *)
Theorem idle_nodes_return c m b n x now : reached c m → nodes m !! b = Some n → nheap m !! n = Some x → pending x = 0 →
  mode_of_url m b = Decode ∨
  mode_of_url m b = Prefill ∧ ∃ t, idleSince x = Some t ∧ (ReleaseIdle c ≤ now - t → mode_of_url (releaseExpired now m) b = Decode).
Proof.
  intros Hr Hb Hx Hp. destruct (reached_inv c m Hr) as (Hi & Hs & Hc).
  assert (Hm : mode_of_url m b = mode x) by (unfold mode_of_url; by rewrite Hb, (lookup_total_correct _ _ _ Hx)). rewrite Hm.
  destruct (Hs n x Hx Hp) as [Hd|Hd]; [by left|]. right. destruct (nk_idle _ _ _ _ (iv_node _ Hi n x Hx) Hd) as [Hpf _]. split; [done|].
  destruct (idleSince x) as [t|] eqn:Ht; [|done]. exists t. split; [done|]. intros Hl.
  destruct (release_loop_returns now (map_to_list (nodes m)).*2 m n x t Hx Hpf Ht) as (x' & Hx' & Hd'); [by rewrite Hc| |].
  { apply list_elem_of_fmap. exists (b, n). split; [done|]. by apply elem_of_map_to_list. }
  unfold releaseExpired. unfold mode_of_url.
  assert (Hn : ∀ ns m, nodes (foldl (λ m n, if expired m now n then releaseLocked n m else m) m ns) = nodes m).
  { induction ns as [|k ks IH]; intros m0; [done|]. cbn [foldl]. rewrite IH. by destruct (expired m0 now k). }
  rewrite Hn, Hb. by rewrite (lookup_total_correct _ _ _ Hx').
Qed.

(** ** Four backends, two jobs *)

Module Ex.
Definition c : Config := MkConfig 100 (f64_div (f64_of_Z 1) (f64_of_Z 2)) 1 0 10.
Definition g : gauges := Gauges (λ _, 0) (λ _, f64_of_Z 0).
Definition cands : list string := ["a"; "b"; "c"; "d"]%string.
Definition s1 : Manager := (Reserve g 0 cands 10 None [1%nat; 1%nat; 1%nat] (New c)).2.
Definition s2 : Manager := (wait_drain g 1 s1).2.
Definition s3 : Manager := (wait_slot g 1 s2).2.
Definition s4 : Manager := (Reserve g 1 cands 20 None [] s3).2.
Definition s5 : Manager := Done g 2 1 s4.
Definition s6 : Manager := Done g 3 2 s5.

Lemma no_picker : fair_picker None.
Proof. intros p fs b Hp. done. Qed.
Lemma cands_nodup : NoDup cands.
Proof. apply (bool_decide_unpack _). by vm_compute. Qed.
Lemma s4_reached : reached c s4.
Proof.
  apply (rtc_l _ _ s1); [apply m_reserve; apply no_picker|]. apply (rtc_l _ _ s2); [apply m_drain; vm_compute; by eexists|].
  apply (rtc_l _ _ s3); [apply m_slot; vm_compute; by eexists|]. apply rtc_once, m_reserve, no_picker.
Qed.
Lemma s6_reached : reached c s6.
Proof.
  refine (rtc_trans _ _ _ s4_reached _). apply (rtc_l _ _ s5); [apply m_done; vm_compute; by eexists|]. apply rtc_once, m_done; vm_compute; by eexists.
Qed.
End Ex.

Lemma manager_consistent_witness : inv Ex.s6 ∧ resting Ex.s6.
Proof. apply (manager_consistent Ex.c). apply Ex.s6_reached. Defined.

Lemma prefill_exclusive_witness : ∃ x, nheap Ex.s4 !! 1%positive = Some x ∧ mode x = Prefill ∧ 1 ≤ running x.
Proof.
  destruct (prefill_exclusive Ex.c Ex.s4 1 (jobs Ex.s4 !!! 1%positive) Ex.cands Ex.s4_reached) as (x & H1 & H2 & H3 & _); [by vm_compute|by vm_compute|].
  exists x. split; [|split; [exact H2|exact H3]]. exact H1.
Defined.

Lemma reserve_within_share_witness : Z.of_nat (length (nonDecode_of (Reserve Ex.g 5 Ex.cands 500 None [] Ex.s6).2 Ex.cands)) ≤ 2.
Proof.
  pose proof (reserve_within_share Ex.c Ex.s6 Ex.g 5 Ex.cands 500 None [] Ex.s6_reached Ex.no_picker Ex.cands_nodup) as H.
  destruct (Reserve _ _ _ _ _ _ _) as [o m']. destruct H as [H _]. etransitivity; [exact H|]. by vm_compute.
Defined.

Lemma slots_in_order_witness : ∃ k, nheap (grantLocked Ex.g 1 Ex.s4) !! 1%positive = Some (set_running (1 + Z.of_nat k) (set_queue (drop k [2%positive]) (nheap Ex.s4 !!! 1%positive))).
Proof.
  destruct (slots_in_order Ex.c Ex.s4 Ex.g 1 (nheap Ex.s4 !!! 1%positive) Ex.s4_reached) as (k & H & _); [by vm_compute|].
  exists k. rewrite H. rewrite lookup_insert_eq. replace (running (nheap Ex.s4 !!! 1%positive)) with 1 by (by vm_compute).
  replace (queue (nheap Ex.s4 !!! 1%positive)) with [2%positive] by (by vm_compute). reflexivity.
Defined.

Lemma idle_nodes_return_witness : mode_of_url Ex.s6 "a" = Decode ∨ mode_of_url Ex.s6 "a" = Prefill.
Proof.
  destruct (idle_nodes_return Ex.c Ex.s6 "a" 1 (nheap Ex.s6 !!! 1%positive) 20 Ex.s6_reached) as [H|[H _]]; [by vm_compute..|by left|by right].
Defined.

(** The run: a node drained and taken, one job waiting behind another, then the idle wait. *)
Example run : mode_of_url Ex.s3 "a" = Prefill ∧ held (jobs Ex.s3 !!! 1%positive) = true ∧ queued (jobs Ex.s4 !!! 2%positive) = true ∧
  held (jobs Ex.s5 !!! 2%positive) = true ∧ mode_of_url (releaseExpired 12 Ex.s6) "a" = Prefill ∧ mode_of_url (releaseExpired 13 Ex.s6) "a" = Decode.
Proof. by vm_compute. Qed.
