(* ===== verification/Proxy.v ===== *)
(** * Proxy: one request against a candidate set

    [src/router/internal/proxy/proxy.go].  [Serve] walks the candidates, one attempt at a
    time; what an attempt meets outside this file (the selector's choice, the breaker's
    admission, what the upstream answers) is the attempt's [turn].  The calls on the breaker
    (Circuit), the lease (Lease), the routing flow's callbacks and the client's writer are
    events in a log, in the order they happen, deferred calls included.

    [httputil.ReverseProxy] is the standard library's: a round trip that fails, or a
    [ModifyResponse] that answers an error, ends in [ErrorHandler]; otherwise the header is
    written to the client, then the body is copied, and a copy that fails panics with
    [ErrAbortHandler] under an HTTP server and is only logged elsewhere.  Informational
    answers and protocol upgrades are left out, and so are metrics and tracing. *)

From stdpp Require Import base gmap sets list strings.
From Stdlib Require Import ZArith Lia.
From S2P Require Import Prelude KvUnits Circuit WaitQ Backend Lease Policy CapacityRetry.
Open Scope Z_scope.

(** ** Errors *)

(** What the transport or the copy can end in: [context.Canceled],
    [context.DeadlineExceeded], a stream cut short, anything else. *)
Inductive up_err := Canceled | DeadlineExceeded | StreamAborted | Transport.
#[export] Instance up_err_eq_dec : EqDecision up_err.
Proof. solve_decision. Defined.

Definition kindOf (e : option up_err) : string :=
  match e with
  | None => "status"
  | Some Canceled => "client_cancelled"
  | Some DeadlineExceeded => "timeout"
  | Some _ => "transport"
  end.

Definition isRetryable (status : Z) (err : bool) : bool :=
  if err then true
  else (status =? 502) || (status =? 503) || (status =? 504) || (status =? 408) || (status =? 429).

(** ** What an upstream does *)

(** How the copy of the body ended: at the end of the stream, at a failed read (the terminal
    marker seen before it or not), or at a failed write to the client. *)
Inductive stream_end := Clean | ReadFailed (e : up_err) (sawEnd : bool) | WriteFailed.

Record answer := Answer {
  a_status : Z;
  a_rejection : option Z;      (* [prefill.RejectionFromResponse], asked of a 503 *)
  a_first : bool;              (* a body byte was read *)
  a_end : stream_end;
}.

(** [Boom] is a panic other than [ErrAbortHandler]. *)
Inductive reply :=
  | BadURL
  | NoAnswer (e : up_err)
  | Boom
  | Answered (a : answer).

(** ** The log *)

Inductive counted := Gone | Failed | Served.
Inductive retry_kind := Refused | Broke (kind : string).
#[export] Instance retry_kind_eq_dec : EqDecision retry_kind.
Proof. solve_decision. Defined.

Inductive event :=
  | ESelect (cands : list positive) (chosen : option positive)
  | EAllow (b : positive) (permitted token : bool)
  | EAcquire (b : positive)
  | EStartActive (b : positive) (t : Z)
  | EStartPrefill (b : positive) (t : Z)
  | EOutcome (b : positive) (status : Z)
  | EAccepted (b : positive)
  | EHeader (b : positive) (status : Z)      (* the client's status line *)
  | EFirstByte (b : positive) (t : Z)        (* ObserveTTFT, EndPrefill, StartDecode *)
  | ERelease (b : positive)
  | ERecord (b : positive) (o : Outcome) (token : bool)
  | ECount (b : positive) (c : counted)
  | ERetried (r : retry_kind).

(** ** One attempt *)

Record attemptOut := Out {
  o_status : Z;
  o_err : option up_err;
  retryable : bool;
  rejected : bool;
  rejectedTokens : Z;
  ignored : bool;
  clientGone : bool;
}.

(** [attempt] answers or panics; [Panicked true] is [ErrAbortHandler]. *)
Inductive ending := Returned (o : attemptOut) | Panicked (abort : bool).

Record request := Request {
  bodyLen : Z;
  capture : bool;             (* capturesRejection *)
  has_accepted : bool;
  has_outcome : bool;
  under_server : bool;        (* the request came through an HTTP server *)
}.

Definition ok2xx (status : Z) : bool := (200 <=? status) && (status <? 300).
Definition body_tokens (rq : request) : Z := EstimateTokens (bodyLen rq).

(** The error of the attempt: [ErrorHandler]'s, or the scanner's once the copy is over. *)
Definition aborted_by (e : stream_end) : option up_err :=
  match e with
  | ReadFailed e sawEnd => if sawEnd || bool_decide (e = Canceled) then None else Some StreamAborted
  | _ => None
  end.
Definition copy_failed (e : stream_end) : bool := match e with Clean => false | _ => true end.

(** What [ModifyResponse] makes of an answer: absorbed as a rejection, put back for a retry,
    or relayed (as a rejection nobody absorbs, or as an answer). *)
Inductive disposition := Absorbed (tokens : Z) | ForRetry | Relayed (rejection : bool).

Definition modifyResponse (rq : request) (canRetry committed : bool) (a : answer) : disposition :=
  let rejection := if a_status a =? 503 then a_rejection a else None in
  match rejection with
  | Some n => if capture rq then Absorbed n else Relayed true
  | None => if canRetry && negb committed && isRetryable (a_status a) false then ForRetry else Relayed false
  end.

(** The events of [ModifyResponse] and of the copy. *)
Definition response_events (rq : request) (b : positive) (d : disposition) (a : answer) : list event :=
  match d with
  | Absorbed _ => []
  | ForRetry => if has_outcome rq then [EOutcome b (a_status a)] else []
  | Relayed rejection =>
      (if has_outcome rq && negb rejection then [EOutcome b (a_status a)] else []) ++
      (if has_accepted rq && ok2xx (a_status a) then [EAccepted b] else []) ++
      [EHeader b (a_status a)] ++
      (if a_first a && ok2xx (a_status a) then [EFirstByte b (body_tokens rq)] else [])
  end.

(** The tail of [attempt]: [gone] is whether the caller had left. *)
Definition conclude (status : Z) (err : option up_err) (rej : option Z) (relayed forRetry committed gone : bool) : attemptOut :=
  let isrej := bool_decide (is_Some rej) in
  if bool_decide (is_Some err) && gone then Out status err false isrej (default 0 rej) relayed true
  else Out status err (negb isrej && negb relayed && (forRetry || isRetryable status (bool_decide (is_Some err))) && negb committed)
         isrej (default 0 rej) relayed false.

(** [attempt] without its deferred release: the events, whether the response is committed,
    and how it ended. *)
Definition round_trip (rq : request) (canRetry committed gone : bool) (b : positive) (r : reply) : list event * bool * ending :=
  match r with
  | BadURL => ([], committed, Returned (Out 0 (Some Transport) false false 0 false false))
  | Boom => ([], committed, Panicked false)
  | NoAnswer e => ([], committed, Returned (conclude 0 (Some e) None false false committed gone))
  | Answered a =>
      let d := modifyResponse rq canRetry committed a in
      let evs := response_events rq b d a in
      match d with
      | Absorbed n => (evs, committed, Returned (conclude (a_status a) None (Some n) false false committed gone))
      | ForRetry => (evs, committed, Returned (conclude (a_status a) None None false true committed gone))
      | Relayed rejection =>
          if copy_failed (a_end a) && under_server rq then (evs, true, Panicked true)
          else (evs, true, Returned (conclude (a_status a) (aborted_by (a_end a)) None rejection false true gone))
      end
  end.

(** The lease around it. *)
Definition attempt (rq : request) (prefillCost : Z) (canRetry committed gone : bool) (b : positive) (r : reply) : list event * bool * ending :=
  let '(evs, committed, e) := round_trip rq canRetry committed gone b r in
  ([EAcquire b; EStartActive b (body_tokens rq); EStartPrefill b prefillCost] ++ evs ++ [ERelease b], committed, e).

(** ** The breaker's verdict *)

(** [Record] is called once, whichever way the attempt ended. *)
Definition verdict (e : ending) : Outcome :=
  match e with
  | Panicked abort => if abort then Ignored else Failure
  | Returned o => if rejected o || ignored o || clientGone o then Ignored else Classify (o_status o) (bool_decide (is_Some (o_err o)))
  end.
Definition runAttempt (b : positive) (token : bool) (a : list event * bool * ending) : list event * bool * ending :=
  let '(evs, committed, e) := a in (evs ++ [ERecord b (verdict e) token], committed, e).

Definition countOutcome (b : positive) (o : attemptOut) : event :=
  ECount b (if clientGone o then Gone else if bool_decide (is_Some (o_err o)) then Failed else Served).

Definition prefillCharge (rq : request) (est : option PrefillEstimate) (b : positive) : Z :=
  match est with
  | None => 0
  | Some p => if bool_decide (pf_Backend p = b) then pf_Tokens p else body_tokens rq
  end.

(** ** Serve *)

Record turn := Turn {
  t_chosen : option positive * option sel_error;   (* what [Select] answers *)
  t_prefill : option PrefillEstimate;              (* [rr.Prefill] after it *)
  t_allow : bool * bool;                           (* what [Allow] answers *)
  t_gone : bool;                                   (* the caller had left when the attempt ended *)
  t_reply : reply;
}.

Inductive perr := FromSelect (e : sel_error) | errNoBackend | Upstream (e : up_err).
Record SResult := MkSResult {
  s_Backend : option positive;
  s_Status : Z;
  s_Attempts : Z;
  s_Err : option perr;
  s_Committed : bool;
  s_PrefillRejected : bool;
  s_PrefillTokens : Z;
}.
Definition zero_sresult : SResult := MkSResult None 0 0 None false false 0.

Definition without (bs : list positive) (drop : positive) : list positive := filter (λ b, b ≠ drop) bs.

(** How [Serve] ends: a result, or the panic it passes on. *)
Inductive served := Result_ (r : SResult) | Aborted (abort : bool).

Record sstate := SState {
  attemptN : Z;
  failovers : Z;
  remaining : list positive;
  committed : bool;
  s_res : SResult;
  slog : list event;
}.

(** What a round of the loop does: go round again, break out, or return. *)
Inductive flow := Again (s : sstate) | Break (s : sstate) | Return (r : served) (l : list event).

Definition set_err (e : option perr) (r : SResult) : SResult :=
  MkSResult (s_Backend r) (s_Status r) (s_Attempts r) e (s_Committed r) (s_PrefillRejected r) (s_PrefillTokens r).

(** After the attempt: the result so far, and whether to go on. *)
Definition after_attempt (maxAttempts maxFailovers : Z) (b : positive) (o : attemptOut) (s : sstate) : flow :=
  let r := MkSResult (Some b) (o_status o) (s_Attempts (s_res s) + 1) (Upstream <$> o_err o) (committed s) false 0 in
  if rejected o then Return (Result_ (MkSResult (s_Backend r) (s_Status r) (s_Attempts r) (s_Err r) (s_Committed r) true (rejectedTokens o))) (slog s)
  else
    let refused := (o_status o =? 429) && (failovers s <? maxFailovers) in
    if refused && retryable o && negb (committed s) && bool_decide (1 < length (remaining s))%nat then
      Again (SState (attemptN s) (failovers s + 1) (without (remaining s) b) (committed s) r (slog s ++ [ERetried Refused]))
    else if negb (retryable o) || committed s || (maxAttempts <=? attemptN s + 1) then Return (Result_ r) (slog s)
    else Again (SState (attemptN s + 1) (failovers s) (without (remaining s) b) (committed s) r (slog s ++ [ERetried (Broke (kindOf (o_err o)))])).

Definition serve_round (maxAttempts maxFailovers : Z) (rq : request) (t : turn) (s : sstate) : flow :=
  if maxAttempts <=? attemptN s then Break s
  else if bool_decide (remaining s = []) then Break s
  else
    let '(chosen, err) := t_chosen t in
    let l := slog s ++ [ESelect (remaining s) chosen] in
    match chosen, err with
    | Some b, None =>
        let '(permitted, token) := t_allow t in
        let l := l ++ [EAllow b permitted token] in
        if negb permitted then Again (SState (attemptN s) (failovers s) (without (remaining s) b) (committed s) (s_res s) l)
        else
          let canRetry := ((attemptN s + 1 <? maxAttempts) || (failovers s <? maxFailovers)) && bool_decide (1 < length (remaining s))%nat in
          let '(evs, cm, e) := runAttempt b token (attempt rq (prefillCharge rq (t_prefill t) b) canRetry (committed s) (t_gone t) b (t_reply t)) in
          match e with
          | Panicked abort => Return (Aborted abort) (l ++ evs)
          | Returned o => after_attempt maxAttempts maxFailovers b o
                            (SState (attemptN s) (failovers s) (remaining s) cm (s_res s) (l ++ evs ++ [countOutcome b o]))
          end
    | _, _ => Break (SState (attemptN s) (failovers s) (remaining s) (committed s) (set_err (FromSelect <$> err) (s_res s)) l)
    end.

(** The end of the loop. *)
Definition finish (s : sstate) : SResult :=
  if bool_decide (s_Backend (s_res s) = None ∧ s_Err (s_res s) = None) then set_err (Some errNoBackend) (s_res s) else s_res s.

Fixpoint serve_loop (fuel : nat) (maxAttempts maxFailovers : Z) (rq : request) (world : nat → list positive → turn) (k : nat) (s : sstate) : option (served * list event) :=
  match fuel with
  | O => None
  | S f =>
      match serve_round maxAttempts maxFailovers rq (world k (remaining s)) s with
      | Again s => serve_loop f maxAttempts maxFailovers rq world (S k) s
      | Break s => Some (Result_ (finish s), slog s)
      | Return r l => Some (r, l)
      end
  end.

(** Each round but the last takes a candidate away, which is fuel enough ([serve_terminates]). *)
Definition Serve (maxAttempts : Z) (candidates : list positive) (rq : request) (world : nat → list positive → turn) : option (served * list event) :=
  serve_loop (S (length candidates)) maxAttempts (Z.of_nat (length candidates)) rq world 0
    (SState 0 0 candidates false zero_sresult []).

(** [New]'s defaulting of the bound. *)
Definition MaxAttempts (configured : Z) : Z := if configured <=? 0 then 1 else configured.

(** One upstream the router does not own: no breaker, no retry. *)
Definition Relay (rq : request) (b : positive) (gone : bool) (r : reply) : served * list event :=
  let '(evs, cm, e) := attempt (Request (bodyLen rq) (capture rq) false false (under_server rq)) 0 false false gone b r in
  match e with
  | Panicked abort => (Aborted abort, evs)
  | Returned o => (Result_ (MkSResult (Some b) (o_status o) 1 (Upstream <$> o_err o) cm false 0), evs ++ [countOutcome b o])
  end.

(** ** The outgoing headers

    [http.Header] by its canonical keys.  A credential of the caller's travels in
    [Authorization] or [X-Api-Key]. *)

Abbreviation header := (gmap string (list string)).
Definition Del (k : string) (h : header) : header := delete k h.
Definition Set_ (k v : string) (h : header) : header := <[k := [v]]> h.
Definition Get (k : string) (h : header) : string := default ""%string (head (default [] (h !! k))).

Definition hopByHop : list string :=
  ["Connection"; "Proxy-Connection"; "Keep-Alive"; "Proxy-Authenticate"; "Proxy-Authorization"; "Te"; "Trailer"; "Transfer-Encoding"; "Upgrade"]%string.

Record Auth := MkAuth { Credential : string; Forward : bool; Strip : bool }.

(** The switch of [Rewrite]; [upstream] is the proxy's own [UpstreamCredential]. *)
Definition set_credentials (upstream : string) (auth : Auth) (h : header) : header :=
  if bool_decide (Credential auth ≠ ""%string) then
    let h := Set_ "X-Api-Key" (Credential auth) (Set_ "Authorization" ("Bearer " +:+ Credential auth) (Del "X-Api-Key" (Del "Authorization" h))) in
    if bool_decide (Get "Anthropic-Version" h = ""%string) then Set_ "Anthropic-Version" "2023-06-01" h else h
  else if Forward auth && negb (Strip auth) then h
  else if Strip auth then Del "X-Api-Key" (Del "Authorization" h)
  else if bool_decide (upstream ≠ ""%string) then Set_ "Authorization" ("Bearer " +:+ upstream) (Del "X-Api-Key" (Del "Authorization" h))
  else Del "X-Api-Key" (Del "Authorization" h).

Definition rewrite_headers (upstream : string) (auth : Auth) (request_id : string) (h : header) : header :=
  Set_ "X-Request-Id" request_id (foldl (λ h k, Del k h) (set_credentials upstream auth h) hopByHop).

(** ** Rounds *)

(** What a delivery leaves behind: the events between [Allow] and the outcome count. *)
Section delivery.
Context (rq : request) (cost : Z) (canRetry committed gone : bool) (b : positive) (token : bool) (r : reply).
Definition delivery : list event * bool * ending := runAttempt b token (attempt rq cost canRetry committed gone b r).
Definition d_events : list event := delivery.1.1.
Definition d_committed : bool := delivery.1.2.
Definition d_end : ending := delivery.2.

Lemma delivery_eq : ∃ evs, round_trip rq canRetry committed gone b r = (evs, d_committed, d_end) ∧
  d_events = [EAcquire b; EStartActive b (body_tokens rq); EStartPrefill b cost] ++ evs ++ [ERelease b; ERecord b (verdict d_end) token].
Proof.
  unfold d_events, d_committed, d_end, delivery, runAttempt, attempt. destruct (round_trip _ _ _ _ _ _) as [[evs c] e]. exists evs. split; [done|].
  cbn. by rewrite <-app_assoc.
Qed.
End delivery.

(** The protocol of one attempt, as the breaker and the lease see it. *)
Inductive stage :=
  | Idle
  | Let_in (b : positive) (token : bool)
  | Leased (b : positive) (token : bool)
  | Over (b : positive) (token : bool)
  | Wrong.
#[export] Instance stage_eq_dec : EqDecision stage.
Proof. solve_decision. Defined.

Definition on_lease (b : positive) (s : stage) : stage :=
  match s with Leased b' token => if bool_decide (b = b') then s else Wrong | _ => Wrong end.
Definition protocol (s : stage) (e : event) : stage :=
  match e with
  | ESelect _ _ | ECount _ _ | ERetried _ => if bool_decide (s = Idle) then Idle else Wrong
  | EAllow b permitted token => if bool_decide (s = Idle) then (if permitted then Let_in b token else Idle) else Wrong
  | EAcquire b => match s with Let_in b' token => if bool_decide (b = b') then Leased b token else Wrong | _ => Wrong end
  | EStartActive b _ | EStartPrefill b _ | EOutcome b _ | EAccepted b | EHeader b _ | EFirstByte b _ => on_lease b s
  | ERelease b => match s with Leased b' token => if bool_decide (b = b') then Over b token else Wrong | _ => Wrong end
  | ERecord b _ token => if bool_decide (s = Over b token) then Idle else Wrong
  end.
Definition stage_of (l : list event) : stage := foldl protocol Idle l.

Lemma on_lease_same b token : on_lease b (Leased b token) = Leased b token.
Proof. cbn. by rewrite bool_decide_true. Qed.

(** The events of a round trip are all on its own lease. *)
Definition leased_event (b : positive) (e : event) : Prop :=
  match e with EOutcome b' _ | EAccepted b' | EHeader b' _ | EFirstByte b' _ => b' = b | _ => False end.

Lemma round_trip_leased rq canRetry cm gone b r : Forall (leased_event b) (round_trip rq canRetry cm gone b r).1.1.
Proof.
  unfold round_trip. destruct r as [|e| |a]; cbn [fst]; try apply Forall_nil_2. cbn zeta.
  assert (H : ∀ d, Forall (leased_event b) (response_events rq b d a)).
  { intros [n| |rej]; cbn; [by apply Forall_nil_2|destruct (has_outcome rq); by repeat constructor|].
    repeat (apply Forall_app; split); repeat case_match; by repeat constructor. }
  destruct (modifyResponse _ _ _ _) as [n| |rej] eqn:E; [apply H..|]. destruct (_ && _); apply H.
Qed.

Lemma stage_leased b token evs : Forall (leased_event b) evs → foldl protocol (Leased b token) evs = Leased b token.
Proof.
  induction 1 as [|e evs He _ IH]; [done|]. cbn [foldl].
  assert (Hs : protocol (Leased b token) e = Leased b token); [|by rewrite Hs].
  destruct e; cbn in He; try done; subst; apply on_lease_same.
Qed.

Lemma stage_delivery rq cost canRetry cm gone b token r : foldl protocol (Let_in b token) (d_events rq cost canRetry cm gone b token r) = Idle.
Proof.
  destruct (delivery_eq rq cost canRetry cm gone b token r) as (evs & Hr & ->). rewrite !foldl_app.
  assert (H1 : foldl protocol (Let_in b token) [EAcquire b; EStartActive b (body_tokens rq); EStartPrefill b cost] = Leased b token).
  { cbn [foldl]. replace (protocol (Let_in b token) (EAcquire b)) with (Leased b token) by (cbn; by rewrite bool_decide_true).
    unfold protocol. by rewrite !on_lease_same. }
  rewrite H1, (stage_leased b token evs).
  - cbn [foldl]. replace (protocol (Leased b token) (ERelease b)) with (Over b token) by (cbn; by rewrite bool_decide_true).
    unfold protocol. by rewrite bool_decide_true.
  - pose proof (round_trip_leased rq canRetry cm gone b r) as H. by rewrite Hr in H.
Qed.

(** The cases of a round. *)
Inductive round_case (mx mf : Z) (rq : request) (t : turn) (s : sstate) : flow → Prop :=
  | rc_spent : (mx ≤ attemptN s ∨ remaining s = []) → round_case mx mf rq t s (Break s)
  | rc_declined chosen err : t_chosen t = (chosen, err) → (chosen = None ∨ err ≠ None) → remaining s ≠ [] → attemptN s < mx →
      round_case mx mf rq t s (Break (SState (attemptN s) (failovers s) (remaining s) (committed s) (set_err (FromSelect <$> err) (s_res s))
        (slog s ++ [ESelect (remaining s) chosen])))
  | rc_shut b token : t_chosen t = (Some b, None) → t_allow t = (false, token) → remaining s ≠ [] → attemptN s < mx →
      round_case mx mf rq t s (Again (SState (attemptN s) (failovers s) (without (remaining s) b) (committed s) (s_res s)
        (slog s ++ [ESelect (remaining s) (Some b)] ++ [EAllow b false token])))
  | rc_panic b token cr abort : t_chosen t = (Some b, None) → t_allow t = (true, token) → remaining s ≠ [] → attemptN s < mx →
      d_end rq (prefillCharge rq (t_prefill t) b) cr (committed s) (t_gone t) b token (t_reply t) = Panicked abort →
      round_case mx mf rq t s (Return (Aborted abort) (slog s ++ [ESelect (remaining s) (Some b)] ++ [EAllow b true token] ++
        d_events rq (prefillCharge rq (t_prefill t) b) cr (committed s) (t_gone t) b token (t_reply t)))
  | rc_answer b token cr o : t_chosen t = (Some b, None) → t_allow t = (true, token) → remaining s ≠ [] → attemptN s < mx →
      cr = ((attemptN s + 1 <? mx) || (failovers s <? mf)) && bool_decide (1 < length (remaining s))%nat →
      d_end rq (prefillCharge rq (t_prefill t) b) cr (committed s) (t_gone t) b token (t_reply t) = Returned o →
      round_case mx mf rq t s (after_attempt mx mf b o
        (SState (attemptN s) (failovers s) (remaining s) (d_committed rq (prefillCharge rq (t_prefill t) b) cr (committed s) (t_gone t) b token (t_reply t)) (s_res s)
          (slog s ++ [ESelect (remaining s) (Some b)] ++ [EAllow b true token] ++
           d_events rq (prefillCharge rq (t_prefill t) b) cr (committed s) (t_gone t) b token (t_reply t) ++ [countOutcome b o]))).

Lemma serve_round_cases mx mf rq t s : round_case mx mf rq t s (serve_round mx mf rq t s).
Proof.
  unfold serve_round. destruct (Z.leb_spec mx (attemptN s)); [apply rc_spent; by left|]. case_bool_decide as Hr; [apply rc_spent; by right|].
  destruct (t_chosen t) as [chosen err] eqn:Ec. destruct chosen as [b|]; [|eapply rc_declined; try done; by left].
  destruct err as [e|]; [eapply rc_declined; try done; by right|]. destruct (t_allow t) as [permitted token] eqn:Ea. destruct permitted; cbn [negb].
  2:{ rewrite <-app_assoc. by apply rc_shut. }
  set (cr := ((attemptN s + 1 <? mx) || (failovers s <? mf)) && bool_decide (1 < length (remaining s))%nat).
  pose proof (rc_panic mx mf rq t s b token cr) as HP. pose proof (rc_answer mx mf rq t s b token cr) as HA. unfold d_end, d_committed, d_events, delivery in HP, HA.
  destruct (runAttempt _ _ _) as [[evs cm] [o|abort]]; cbn [fst snd] in *; rewrite <-!app_assoc; [by apply HA|by apply HP].
Qed.

(** Induction over the rounds. *)
Lemma serve_loop_ind (P : sstate → Prop) (Q : served → list event → Prop) mx mf rq world :
  (∀ k s, P s → match serve_round mx mf rq (world k (remaining s)) s with
                | Again s' => P s' | Break s' => Q (Result_ (finish s')) (slog s') | Return r l => Q r l end) →
  ∀ f k s r l, P s → serve_loop f mx mf rq world k s = Some (r, l) → Q r l.
Proof.
  intros Hstep f. induction f as [|f IH]; intros k s r l HP Heq; [done|]. cbn [serve_loop] in Heq. specialize (Hstep k s HP).
  destruct (serve_round _ _ _ _ _) as [s'|s'|r' l']; [exact (IH _ _ _ _ Hstep Heq)| |]; by injection Heq as <- <-.
Qed.

(** What [after_attempt] can do. *)
Lemma after_attempt_cases mx mf b o s :
  let r := MkSResult (Some b) (o_status o) (s_Attempts (s_res s) + 1) (Upstream <$> o_err o) (committed s) false 0 in
  match after_attempt mx mf b o s with
  | Again s' => retryable o = true ∧ committed s = false ∧ remaining s' = without (remaining s) b ∧ committed s' = committed s ∧ s_res s' = r ∧
      ((attemptN s' = attemptN s ∧ failovers s' = failovers s + 1 ∧ failovers s < mf ∧ slog s' = slog s ++ [ERetried Refused]) ∨
       (attemptN s' = attemptN s + 1 ∧ failovers s' = failovers s ∧ ∃ kd, slog s' = slog s ++ [ERetried (Broke kd)]))
  | Break _ => False
  | Return r' l => l = slog s ∧ ∃ rj n, r' = Result_ (MkSResult (s_Backend r) (s_Status r) (s_Attempts r) (s_Err r) (s_Committed r) rj n)
  end.
Proof.
  cbn zeta. unfold after_attempt. cbn zeta. destruct (rejected o). { split; [done|]. by eexists _, _. }
  destruct (_ && _ && _ && _) eqn:E.
  - rewrite !andb_true_iff in E. destruct E as [[[[E1 E2] E3] E4] E5]. apply negb_true_iff in E4. apply Z.ltb_lt in E2. split_and!; try done. left. split_and!; done.
  - destruct (negb (retryable o) || committed s || (mx <=? attemptN s + 1)) eqn:E'. { split; [done|]. by exists false, 0. }
    rewrite !orb_false_iff in E'. destruct E' as [[E1%negb_false_iff E2] _]. split_and!; try done. right. split_and!; try done. by eexists.
Qed.

Lemma stage_app l l' : stage_of (l ++ l') = foldl protocol (stage_of l) l'.
Proof. apply foldl_app. Qed.

Lemma stage_attempt l rs b token cost rq cr cm gone r : stage_of l = Idle →
  stage_of (l ++ [ESelect rs (Some b)] ++ [EAllow b true token] ++ d_events rq cost cr cm gone b token r) = Idle.
Proof. intros Hl. rewrite stage_app, Hl. cbn [app foldl]. cbn [protocol]. rewrite !bool_decide_true by done. apply stage_delivery. Qed.

Lemma serve_round_stage mx mf rq t s : stage_of (slog s) = Idle →
  match serve_round mx mf rq t s with Again s' => stage_of (slog s') = Idle | Break s' => stage_of (slog s') = Idle | Return _ l => stage_of l = Idle end.
Proof.
  intros Hs. destruct (serve_round_cases mx mf rq t s) as [|chosen err _ _ _ _|b token _ _ _ _|b token cr abort _ _ _ _ _|b token cr o _ _ _ _ _ _]; cbn [slog].
  - done.
  - rewrite stage_app, Hs. done.
  - rewrite stage_app, Hs. done.
  - by apply stage_attempt.
  - set (s1 := SState _ _ _ _ _ _). assert (H1 : stage_of (slog s1) = Idle).
    { unfold s1. cbn [slog]. rewrite !app_assoc, stage_app, <-!app_assoc, stage_attempt by done. done. }
    pose proof (after_attempt_cases mx mf b o s1) as H. cbn zeta in H. destruct (after_attempt _ _ _ _ _) as [s'|s'|r' l']; [|done|by destruct H as [-> _]].
    destruct H as (_ & _ & _ & _ & _ & [(_ & _ & _ & ->)|(_ & _ & kd & ->)]); rewrite stage_app, H1; done.
Qed.

(** ** What the log shows *)

Definition attempted (l : list event) : list positive := omap (λ e, match e with EAcquire b => Some b | _ => None end) l.
Definition headers (l : list event) : list (positive * Z) := omap (λ e, match e with EHeader b st => Some (b, st) | _ => None end) l.
Definition accepts (l : list event) : list positive := omap (λ e, match e with EAccepted b => Some b | _ => None end) l.
Definition refusals (l : list event) : Z := Z.of_nat (length (filter (λ e, e = true) ((λ e, match e with ERetried Refused => true | _ => false end) <$> l))).

Lemma attempted_app l l' : attempted (l ++ l') = attempted l ++ attempted l'.
Proof. apply omap_app. Qed.
Lemma headers_app l l' : headers (l ++ l') = headers l ++ headers l'.
Proof. apply omap_app. Qed.
Lemma accepts_app l l' : accepts (l ++ l') = accepts l ++ accepts l'.
Proof. apply omap_app. Qed.
Lemma refusals_app l l' : refusals (l ++ l') = refusals l + refusals l'.
Proof. unfold refusals. rewrite fmap_app, filter_app, length_app. lia. Qed.

Lemma refusals_refused : refusals [ERetried Refused] = 1.
Proof. done. Qed.
Lemma refusals_broke kd : refusals [ERetried (Broke kd)] = 0.
Proof. done. Qed.
Lemma refusals_select cs c : refusals [ESelect cs c] = 0.
Proof. done. Qed.
Lemma refusals_allow b p t : refusals [EAllow b p t] = 0.
Proof. done. Qed.
Lemma refusals_count b o : refusals [countOutcome b o] = 0.
Proof. done. Qed.

(** Nothing of an answer reaches the client unless it is relayed, and then its status does, once. *)
Definition delivered (b : positive) (evs : list event) (committed' : bool) (e : ending) : Prop :=
  (committed' = false ∧ headers evs = [] ∧ accepts evs = []) ∨
  (committed' = true ∧ ∃ st, headers evs = [(b, st)] ∧ (accepts evs = [] ∨ accepts evs = [b] ∧ ok2xx st = true) ∧
     ∀ o, e = Returned o → o_status o = st ∧ retryable o = false ∧ rejected o = false).

Lemma round_trip_delivered rq cr gone b r : let '(evs, cm, e) := round_trip rq cr false gone b r in
  delivered b evs cm e ∧ attempted evs = [] ∧ refusals evs = 0.
Proof.
  unfold round_trip, delivered. destruct r as [|e| |a]; [by split_and!; [left|..]..|]. cbn zeta.
  destruct (modifyResponse rq cr false a) as [n| |rej]; cbn [response_events].
  - by split_and!; [left|..].
  - destruct (has_outcome rq); by split_and!; [left|..].
  - assert (Hh : ∀ c1 c2 c3, headers ((if c1 : bool then [EOutcome b (a_status a)] else []) ++ (if c2 : bool then [EAccepted b] else []) ++ [EHeader b (a_status a)] ++
      (if c3 : bool then [EFirstByte b (body_tokens rq)] else [])) = [(b, a_status a)]) by (by intros [] [] []).
    assert (Hac : ∀ c1 c2 c3, accepts ((if c1 : bool then [EOutcome b (a_status a)] else []) ++ (if c2 : bool then [EAccepted b] else []) ++ [EHeader b (a_status a)] ++
      (if c3 : bool then [EFirstByte b (body_tokens rq)] else [])) = if c2 then [b] else []) by (by intros [] [] []).
    assert (Hat : ∀ c1 c2 c3 l, l = ((if c1 : bool then [EOutcome b (a_status a)] else []) ++ (if c2 : bool then [EAccepted b] else []) ++ [EHeader b (a_status a)] ++
      (if c3 : bool then [EFirstByte b (body_tokens rq)] else [])) → attempted l = [] ∧ refusals l = 0) by (by intros [] [] [] l ->).
    assert (Hok : (if has_accepted rq && ok2xx (a_status a) then [b] else []) = [] ∨ (if has_accepted rq && ok2xx (a_status a) then [b] else []) = [b] ∧ ok2xx (a_status a) = true).
    { destruct (has_accepted rq), (ok2xx (a_status a)); auto. }
    destruct (_ && under_server rq); (split; [|by eapply Hat]); right; (split; [done|]); exists (a_status a); rewrite Hh, Hac; (split_and!; [done|done|]).
    + by intros o ?.
    + intros o [= <-]. unfold conclude. destruct (bool_decide _ && gone); [done|]. cbn. by rewrite !andb_false_r.
Qed.

Lemma delivery_delivered rq cost cr gone b token r :
  delivered b (d_events rq cost cr false gone b token r) (d_committed rq cost cr false gone b token r) (d_end rq cost cr false gone b token r) ∧
  attempted (d_events rq cost cr false gone b token r) = [b] ∧ refusals (d_events rq cost cr false gone b token r) = 0.
Proof.
  destruct (delivery_eq rq cost cr false gone b token r) as (evs & Hr & ->). pose proof (round_trip_delivered rq cr gone b r) as H. rewrite Hr in H.
  destruct H as (H1 & H2 & H3). unfold delivered in *. rewrite !headers_app, !accepts_app, !attempted_app, !refusals_app, H2, H3. cbn. rewrite !app_nil_r. done.
Qed.

(** Between rounds: every attempt so far was of a different candidate and left no answer. *)
Record round_ok (cands : list positive) (mx : Z) (s : sstate) : Prop := {
  ro_nodup : NoDup (attempted (slog s));
  ro_in : attempted (slog s) ⊆ cands;
  ro_rem : ∀ b, b ∈ remaining s → b ∈ cands ∧ b ∉ attempted (slog s);
  ro_count : Z.of_nat (length (attempted (slog s))) = attemptN s + failovers s;
  ro_refusals : refusals (slog s) = failovers s;
  ro_bound : attemptN s ≤ mx ∧ failovers s ≤ Z.of_nat (length cands);
  ro_quiet : committed s = false ∧ headers (slog s) = [] ∧ accepts (slog s) = [];
  ro_res : s_Attempts (s_res s) = Z.of_nat (length (attempted (slog s))) ∧ s_Backend (s_res s) = last (attempted (slog s)) ∧
    s_Committed (s_res s) = false ∧ ∀ e, s_Err (s_res s) ≠ Some (FromSelect e);
}.

(** At the end: at most one answer, from the last attempt; and the bounds on attempts. *)
Record walk_ok (cands : list positive) (mx : Z) (l : list event) : Prop := {
  wo_nodup : NoDup (attempted l);
  wo_in : attempted l ⊆ cands;
  wo_bound : Z.of_nat (length (attempted l)) ≤ mx + refusals l;
  wo_refusals : refusals l ≤ Z.of_nat (length cands);
  wo_answer : headers l = [] ∧ accepts l = [] ∨
    ∃ b st, headers l = [(b, st)] ∧ last (attempted l) = Some b ∧ (accepts l = [] ∨ accepts l = [b] ∧ ok2xx st = true);
}.

(** The result says what the client saw. *)
Definition truthful (r : SResult) (l : list event) : Prop :=
  s_Attempts r = Z.of_nat (length (attempted l)) ∧ s_Backend r = last (attempted l) ∧
  (s_Committed r = true ↔ headers l ≠ []) ∧
  (∀ b st, headers l = [(b, st)] → s_Status r = st) ∧
  (∀ e, s_Err r = Some (FromSelect e) → headers l = []).

Lemma round_ok_quiet cands mx s l r : round_ok cands mx s → 0 ≤ mx →
  attempted l = attempted (slog s) → headers l = [] → accepts l = [] → refusals l = refusals (slog s) →
  s_Attempts r = s_Attempts (s_res s) → s_Backend r = s_Backend (s_res s) → s_Committed r = s_Committed (s_res s) →
  walk_ok cands mx l ∧ truthful r l.
Proof.
  intros [H1 H2 H3 H4 H5 [H6 H6'] (H7 & H8 & H9) (H10 & H11 & H12 & H13)] Hmx Ha Hh Hac Hrf R1 R2 R3. split.
  - split; rewrite ?Ha, ?Hrf; try done; [lia|lia|by left].
  - split_and!; rewrite ?Ha, ?R1, ?R2, ?R3, ?H12, ?Hh; done.
Qed.

Lemma round_ok_next cands mx s s' b o evs : round_ok cands mx s → b ∈ remaining s → attemptN s < mx →
  attempted evs = [b] → headers evs = [] → accepts evs = [] → refusals evs = 0 →
  remaining s' = without (remaining s) b → committed s' = false →
  s_res s' = MkSResult (Some b) (o_status o) (s_Attempts (s_res s) + 1) (Upstream <$> o_err o) false false 0 →
  ((attemptN s' = attemptN s ∧ failovers s' = failovers s + 1 ∧ failovers s < Z.of_nat (length cands) ∧ slog s' = (slog s ++ evs) ++ [ERetried Refused]) ∨
   (attemptN s' = attemptN s + 1 ∧ failovers s' = failovers s ∧ ∃ kd, slog s' = (slog s ++ evs) ++ [ERetried (Broke kd)])) →
  round_ok cands mx s'.
Proof.
  intros [H1 H2 H3 H4 H5 [H6 H6'] (H7 & H8 & H9) (H10 & H11 & H12 & H13)] Hb Hlt E1 E2 E3 E4 S1 S2 S3 Hcase. destruct (H3 b Hb) as [Hbc Hba].
  assert (Hlog : attempted (slog s') = attempted (slog s) ++ [b] ∧ headers (slog s') = [] ∧ accepts (slog s') = [] ∧
    (refusals (slog s') = failovers s') ∧ attemptN s' + failovers s' = attemptN s + failovers s + 1 ∧ attemptN s' ≤ mx ∧ failovers s' ≤ Z.of_nat (length cands)).
  { destruct Hcase as [(A1 & A2 & A3 & ->)|(A1 & A2 & kd & ->)]; rewrite !attempted_app, !headers_app, !accepts_app, !refusals_app, E1, E2, E3, E4, H5, H8, H9;
      rewrite ?refusals_refused, ?refusals_broke; cbn [attempted headers accepts omap list_omap]; rewrite ?app_nil_r; (split_and!; [done|done|done|lia..]). }
  destruct Hlog as (L1 & L2 & L3 & L4 & L5 & L6). assert (Hlen : length (attempted (slog s')) = S (length (attempted (slog s)))) by (rewrite L1, length_app; cbn; lia).
  split; try done.
  - rewrite L1. apply NoDup_app. split_and!; [done| |apply NoDup_singleton]. by intros c Hc ->%list_elem_of_singleton.
  - rewrite L1. intros c [Hc| ->%list_elem_of_singleton]%elem_of_app; [by apply H2|done].
  - intros c. rewrite S1, L1. unfold without. rewrite list_elem_of_filter. intros [Hcb Hc]. destruct (H3 c Hc). split; [done|].
    rewrite elem_of_app, list_elem_of_singleton. tauto.
  - lia.
  - rewrite S3. cbn. split_and!; [rewrite H10; lia|by rewrite L1, last_snoc|done|]. by destruct (o_err o).
Qed.

(** The last attempt of a walk. *)
Lemma walk_ok_end cands mx s b l evs cm e : round_ok cands mx s → b ∈ remaining s → attemptN s < mx → delivered b evs cm e →
  attempted l = attempted (slog s) ++ [b] → headers l = headers evs → accepts l = accepts evs → refusals l = refusals (slog s) → walk_ok cands mx l.
Proof.
  intros [H1 H2 H3 H4 H5 [H6 H6'] _ _] Hb Hlt Hd L1 L2 L3 L4. destruct (H3 b Hb) as [Hbc Hba]. split; rewrite ?L1, ?L2, ?L3, ?L4.
  - apply NoDup_app. split_and!; [done| |apply NoDup_singleton]. by intros c Hc ->%list_elem_of_singleton.
  - intros c [Hc| ->%list_elem_of_singleton]%elem_of_app; [by apply H2|done].
  - rewrite length_app. cbn. lia.
  - lia.
  - destruct Hd as [(_ & -> & ->)|(_ & st & -> & Hacc & _)]; [by left|]. right. exists b, st. by rewrite last_snoc.
Qed.

Lemma truthful_end s b evs l cm o rj n mx cands : round_ok cands mx s → delivered b evs cm (Returned o) →
  attempted l = attempted (slog s) ++ [b] → headers l = headers evs →
  truthful (MkSResult (Some b) (o_status o) (s_Attempts (s_res s) + 1) (Upstream <$> o_err o) cm rj n) l.
Proof.
  intros [_ _ _ _ _ _ _ (H10 & _)] Hd L1 L2. unfold truthful. cbn. rewrite L1, L2, last_snoc, length_app, H10. cbn. split_and!; [lia|done| | |].
  - destruct Hd as [(-> & -> & _)|(-> & st & -> & _)]; done.
  - intros b' st' Hh. destruct Hd as [(_ & Hn & _)|(_ & st & Hs & _ & Hst)]; [congruence|]. destruct (Hst o eq_refl) as (-> & _). congruence.
  - by destruct (o_err o).
Qed.

Section serving.
Context (mx : Z) (Hmx : 0 < mx) (cands : list positive) (rq : request) (world : nat → list positive → turn).
(** What [Serve] relies on in a selector: it answers with one of the candidates. *)
Context (Hsel : ∀ k cs b, t_chosen (world k cs) = (Some b, None) → b ∈ cs).

Lemma serve_round_ok k s : round_ok cands mx s →
  match serve_round mx (Z.of_nat (length cands)) rq (world k (remaining s)) s with
  | Again s' => round_ok cands mx s' ∧ (length (remaining s') < length (remaining s))%nat
  | Break s' => walk_ok cands mx (slog s') ∧ truthful (finish s') (slog s')
  | Return r l => walk_ok cands mx l ∧ match r with Result_ r => truthful r l | Aborted _ => True end
  end.
Proof.
  intros Hok. pose proof Hok as [H1 H2 H3 H4 H5 [H6 H6'] (H7 & H8 & H9) (H10 & H11 & H12 & H13)]. set (t := world k (remaining s)).
  assert (Hshorter : ∀ b, b ∈ remaining s → (length (without (remaining s) b) < length (remaining s))%nat).
  { intros b Hb. unfold without. apply length_filter_lt with b; [done|]. by intros ?. }
  assert (Hfin : ∀ s', s_Attempts (finish s') = s_Attempts (s_res s') ∧ s_Backend (finish s') = s_Backend (s_res s') ∧ s_Committed (finish s') = s_Committed (s_res s')).
  { intros s'. unfold finish. by destruct (bool_decide _). }
  destruct (serve_round_cases mx (Z.of_nat (length cands)) rq t s) as [_|chosen err _ _ _ _|b token Hc _ _ _|b token cr abort Hc _ _ Hlt He|b token cr o Hc _ _ Hlt _ He].
  - destruct (Hfin s) as (F1 & F2 & F3). apply (round_ok_quiet cands mx s); try done; lia.
  - set (s' := SState _ _ _ _ _ _). destruct (Hfin s') as (F1 & F2 & F3). apply (round_ok_quiet cands mx s); try done; try lia; cbn [slog s'].
    + by rewrite attempted_app, app_nil_r.
    + by rewrite headers_app, H8.
    + by rewrite accepts_app, H9.
    + rewrite refusals_app, refusals_select. lia.
  - apply Hsel in Hc. cbn [remaining]. split; [|by apply Hshorter].
    set (evs := [ESelect (remaining s) (Some b)] ++ [EAllow b false token]).
    assert (Hr : refusals (slog s ++ evs) = refusals (slog s)) by (unfold evs; rewrite !refusals_app, refusals_select, refusals_allow; lia).
    split; cbn [slog remaining attemptN failovers committed s_res]; rewrite ?Hr, ?attempted_app, ?headers_app, ?accepts_app;
      cbn [attempted headers accepts evs omap list_omap app]; rewrite ?app_nil_r; try done.
    intros c. unfold without. rewrite list_elem_of_filter. intros [_ Hcr]. by apply H3.
  - apply Hsel in Hc. split; [|done]. rewrite H7 in He |- *. destruct (delivery_delivered rq (prefillCharge rq (t_prefill t) b) cr (t_gone t) b token (t_reply t)) as (Hd & Ha & Hrf).
    apply (walk_ok_end cands mx s b _ _ _ _ Hok Hc Hlt Hd); rewrite ?refusals_app, ?attempted_app, ?headers_app, ?accepts_app, ?refusals_select, ?refusals_allow, ?Ha, ?Hrf, ?H8, ?H9; try done. lia.
  - apply Hsel in Hc. rewrite H7 in He |- *. destruct (delivery_delivered rq (prefillCharge rq (t_prefill t) b) cr (t_gone t) b token (t_reply t)) as (Hd & Ha & Hrf).
    set (evs := d_events _ _ _ _ _ _ _ _) in *. set (cm := d_committed _ _ _ _ _ _ _ _) in *. clearbody evs cm. set (s1 := SState _ _ _ _ _ _).
    set (all := [ESelect (remaining s) (Some b)] ++ [EAllow b true token] ++ evs ++ [countOutcome b o]).
    assert (Hall : attempted all = [b] ∧ headers all = headers evs ∧ accepts all = accepts evs ∧ refusals all = 0).
    { unfold all. rewrite !refusals_app, refusals_select, refusals_allow, refusals_count, !attempted_app, !headers_app, !accepts_app, Ha, Hrf.
      cbn [attempted headers accepts omap list_omap app countOutcome]. rewrite !app_nil_r. done. }
    destruct Hall as (A1 & A2 & A3 & A4). pose proof (after_attempt_cases mx (Z.of_nat (length cands)) b o s1) as H. cbn zeta in H.
    destruct (after_attempt _ _ _ _ _) as [s'|s'|r' l'] eqn:Eaf; [|done|].
    + destruct H as (R1 & R2 & R3 & R4 & R5 & R6). cbn [committed remaining s1 s_res] in R2, R3, R4, R5.
      destruct Hd as [(Hd1 & Hd2 & Hd3)|(Hd1 & _)]; [|congruence]. split; [|rewrite R3; by apply Hshorter].
      apply (round_ok_next cands mx s s' b o all Hok Hc Hlt); try done; try congruence.
    + destruct H as (-> & rj & n & ->). cbn [slog s1]. assert (B1 : attempted (slog s ++ all) = attempted (slog s) ++ [b]) by (by rewrite attempted_app, A1).
      assert (B2 : headers (slog s ++ all) = headers evs) by (by rewrite headers_app, H8, A2).
      split.
      * apply (walk_ok_end cands mx s b _ _ _ _ Hok Hc Hlt Hd B1 B2); [by rewrite accepts_app, H9, A3|rewrite refusals_app, A4; lia].
      * rewrite He in Hd. by apply (truthful_end s b evs (slog s ++ all) cm o rj n mx cands).
Qed.
End serving.
