(* ===== verification/ProxySpec.v ===== *)
(** * ProxySpec: what a request does to its candidates, and what its client sees

    The theorems of [Proxy]: every attempt is bracketed by the breaker and the lease, the walk
    over the candidates ends and is bounded, the client gets one answer at most and the result
    tells which, also through the retries of [CapacityRetry]; and replayed on [Lease]'s world
    a request leaves no load behind. *)

From stdpp Require Import base gmap sets list strings.
From Stdlib Require Import ZArith Lia.
From S2P Require Import Prelude KvUnits Circuit WaitQ Backend Lease Policy CapacityRetry Proxy.
Open Scope Z_scope.

(** ** The walk *)

(** C9: Every attempt is bracketed, however it ends.  In the log of any call of [Serve], also
    one that ends in a panic, a backend is taken a lease on only after its breaker admitted
    the request; the lease is released, then the breaker is told the outcome, once, with the
    token it gave; and only then is another backend selected. *)
Theorem attempts_bracketed (mx : Z) (cands : list positive) (rq : request) (world : nat → list positive → turn) (r : served) (l : list event)
  (Hrun : Serve mx cands rq world = Some (r, l)) : stage_of l = Idle.
Proof.
  revert Hrun. apply (serve_loop_ind (λ s, stage_of (slog s) = Idle) (λ _ l, stage_of l = Idle)); [|done].
  intros k s Hs. by apply serve_round_stage.
Qed.

Lemma serve_returns (mx : Z) (cands : list positive) (rq : request) (world : nat → list positive → turn)
  (Hmx : 0 < mx) (Hsel : ∀ k cs b, t_chosen (world k cs) = (Some b, None) → b ∈ cs) : is_Some (Serve mx cands rq world).
Proof.
  unfold Serve. set (s0 := SState _ _ _ _ _ _). assert (H0 : round_ok cands mx s0).
  { split; cbn; try done; [apply NoDup_nil_2|by intros ? ?%elem_of_nil|intros b Hb; split; [done|by intros ?%elem_of_nil]|lia]. }
  enough (Hgen : ∀ f k s, round_ok cands mx s → (length (remaining s) < f)%nat → is_Some (serve_loop f mx (Z.of_nat (length cands)) rq world k s)).
  { apply Hgen; [done|]. cbn. lia. }
  induction f as [|f IH]; intros k s Hs Hlen; [lia|]. cbn [serve_loop].
  pose proof (serve_round_ok mx Hmx cands rq world Hsel k s Hs) as H. destruct (serve_round _ _ _ _ _) as [s'|s'|r l]; [|done|done].
  destruct H as [H1 H2]. apply IH; [done|lia].
Qed.

(** The walk ends.  With a selector that answers with one of the backends it is offered,
    [Serve] returns or panics on every input: a round for each candidate and one more are
    enough, whatever is refused, fails or is put back. *)
Theorem serve_terminates (mx : Z) (cands : list positive) (rq : request) (world : nat → list positive → turn)
  (Hmx : 0 < mx) (Hsel : ∀ k cs b, t_chosen (world k cs) = (Some b, None) → b ∈ cs) : is_Some (Serve mx cands rq world).
Proof. by apply serve_returns. Qed.

Lemma serve_ok mx cands rq world r l : 0 < mx → (∀ k cs b, t_chosen (world k cs) = (Some b, None) → b ∈ cs) →
  Serve mx cands rq world = Some (r, l) → walk_ok cands mx l ∧ match r with Result_ r => truthful r l | Aborted _ => True end.
Proof.
  intros Hmx Hsel. apply (serve_loop_ind (round_ok cands mx) (λ r l, walk_ok cands mx l ∧ match r with Result_ r => truthful r l | Aborted _ => True end)).
  - intros k s Hs. pose proof (serve_round_ok mx Hmx cands rq world Hsel k s Hs) as H. destruct (serve_round _ _ _ _ _) as [s'|s'|r' l']; [by destruct H|done|done].
  - split; cbn; try done; [apply NoDup_nil_2|by intros ? ?%elem_of_nil|intros b Hb; split; [done|by intros ?%elem_of_nil]|lia].
Qed.

(** C17: A retry is always on a different candidate, there are at most [MaxAttempts] attempts
    besides those refused with a 429, which are no more than the candidates; and the client
    gets at most one answer, that of the last attempt, whose backend alone may be recorded as
    a holder, and only when it answered 2xx. *)
Theorem walk_bounded (mx : Z) (cands : list positive) (rq : request) (world : nat → list positive → turn) (r : served) (l : list event)
  (Hmx : 0 < mx) (Hsel : ∀ k cs b, t_chosen (world k cs) = (Some b, None) → b ∈ cs) (Hrun : Serve mx cands rq world = Some (r, l)) :
  NoDup (attempted l) ∧ attempted l ⊆ cands ∧
  Z.of_nat (length (attempted l)) ≤ mx + refusals l ∧ refusals l ≤ Z.of_nat (length cands) ∧
  (headers l = [] ∧ accepts l = [] ∨
   ∃ b st, headers l = [(b, st)] ∧ last (attempted l) = Some b ∧ (accepts l = [] ∨ accepts l = [b] ∧ ok2xx st = true)).
Proof. by destruct (serve_ok mx cands rq world r l Hmx Hsel Hrun) as [[] _]. Qed.

(** The result tells what happened: how many attempts there were and which backend made
    the last, that the response is committed exactly when a status line reached the client,
    which status that was, and that a selector's refusal is reported only when nothing did. *)
Theorem result_truthful (mx : Z) (cands : list positive) (rq : request) (world : nat → list positive → turn) (r : SResult) (l : list event)
  (Hmx : 0 < mx) (Hsel : ∀ k cs b, t_chosen (world k cs) = (Some b, None) → b ∈ cs) (Hrun : Serve mx cands rq world = Some (Result_ r, l)) :
  s_Attempts r = Z.of_nat (length (attempted l)) ∧ s_Backend r = last (attempted l) ∧
  (s_Committed r = true ↔ headers l ≠ []) ∧ (∀ b st, headers l = [(b, st)] → s_Status r = st) ∧
  (∀ e, s_Err r = Some (FromSelect e) → headers l = []).
Proof. by destruct (serve_ok mx cands rq world (Result_ r) l Hmx Hsel Hrun) as [_ H]. Qed.

(** ** Under the capacity retry *)

Definition to_err (e : perr) : serve_err :=
  match e with FromSelect e => SelErr e | errNoBackend => OtherErr "proxy: no backend accepted the request" | Upstream e => OtherErr (kindOf (Some e)) end.
(** The result as [serveWithCapacityRetry] reads it. *)
Definition to_Result (r : SResult) : Result := MkResult (s_Backend r) (s_Status r) (s_Attempts r) (to_err <$> s_Err r) (s_Committed r).

Lemma refusal_from_select r : isCapacityRefusal (r_Err (to_Result r)) = true → ∃ e, s_Err r = Some (FromSelect e).
Proof. unfold isCapacityRefusal. rewrite bool_decide_eq_true. cbn. destruct (s_Err r) as [[]|]; cbn; try done. by eexists. Qed.

(** C25: Retrying for capacity never shows.  When each turn of [serveWithCapacityRetry] serves
    with [Serve], the turns before the last left nothing with the client, so that whatever
    was retried the client sees at most one answer. *)
Theorem retries_invisible (mx : Z) (fuel : nat) (c : RetryConfig) (gone : option Z) (turns : nat → CapacityRetry.turn) (now0 : Z) (s : lstate)
  (rqs : nat → request) (worlds : nat → nat → list positive → turn) (res : nat → SResult) (logs : nat → list event)
  (Hmx : 0 < mx) (Hlate : ∀ k, 0 ≤ t_late (turns k)) (Hsel : ∀ j k cs b, t_chosen (worlds j k cs) = (Some b, None) → b ∈ cs)
  (Hserve : ∀ j, Serve mx (t_cands (turns j)) (rqs j) (worlds j) = Some (Result_ (res j), logs j) ∧ t_res (turns j) = to_Result (res j))
  (Hrun : serveWithCapacityRetry fuel c gone turns now0 = Some s) :
  (∀ j, (j < CapacityRetry.attempt s)%nat → headers (logs j) = [] ∧ accepts (logs j) = []) ∧ (length (headers (logs (CapacityRetry.attempt s))) ≤ 1)%nat.
Proof.
  apply run_turns_history in Hrun as (_ & H2 & _); [|done]. split.
  - intros j Hj. destruct (H2 j) as (_ & _ & Href & _); [cbn; lia|]. destruct (Hserve j) as [Hs Hr]. rewrite Hr in Href.
    apply refusal_from_select in Href as [e He]. destruct (serve_ok _ _ _ _ _ _ Hmx (Hsel j) Hs) as [[_ _ _ _ Ha] (_ & _ & _ & _ & H5)].
    specialize (H5 e He). destruct Ha as [[? ?]|(b & st & ? & _)]; [done|congruence].
  - destruct (Hserve (CapacityRetry.attempt s)) as [Hs _]. destruct (serve_ok _ _ _ _ _ _ Hmx (Hsel _) Hs) as [[_ _ _ _ Ha] _].
    destruct Ha as [[-> _]|(b & st & -> & _)]; cbn; lia.
Qed.

(** ** The breaker's verdict *)

Ltac zmem := rewrite ?elem_of_cons, ?elem_of_nil in *; lia.

(** What [Classify] makes of a status. *)
Lemma Classify_status st : Classify st false =
  if decide (st = 429) then Ignored else if decide (st ∈ [408; 425] ∨ 500 ≤ st) then Failure else Success.
Proof.
  unfold Classify. destruct (Z.eqb_spec st 429) as [->|H]; [done|]. rewrite (decide_False (P := st = 429)) by done.
  destruct (Z.eqb_spec st 408) as [->|]; [by rewrite decide_True by (left; zmem)|]. destruct (Z.eqb_spec st 425) as [->|]; [by rewrite decide_True by (left; zmem)|].
  cbn [orb]. destruct (Z.leb_spec 500 st); [by rewrite decide_True by (by right)|]. rewrite decide_False; [done|]. intros [Hin|?]; [zmem|lia].
Qed.

Lemma put_back_status rq cr a : modifyResponse rq cr false a = ForRetry → (a_status a = 503 → a_rejection a = None) ∧ a_status a ∈ [502; 503; 504; 408; 429].
Proof.
  unfold modifyResponse. cbn zeta. destruct (Z.eqb_spec (a_status a) 503) as [E|E].
  - destruct (a_rejection a); [by destruct (capture rq)|]. intros _. rewrite E. split; [done|zmem].
  - destruct (cr && negb false && isRetryable (a_status a) false) eqn:Er; [|done]. intros _. split; [done|]. apply andb_true_iff in Er as [_ Er].
    unfold isRetryable in Er. rewrite !orb_true_iff, !Z.eqb_eq in Er. zmem.
Qed.

(** Absorbed or relayed as a rejection means it was one. *)
Lemma rejection_means rq cr a : match modifyResponse rq cr false a with
  | Absorbed _ | Relayed true => a_status a = 503 ∧ a_rejection a ≠ None
  | _ => a_status a = 503 → a_rejection a = None
  end.
Proof.
  unfold modifyResponse. cbn zeta. destruct (Z.eqb_spec (a_status a) 503) as [E|E].
  - destruct (a_rejection a) as [n|]; [by destruct (capture rq)|]. by destruct (_ && _).
  - by destruct (_ && _).
Qed.

Section verdicts.
Context (rq : request) (canRetry gone : bool) (a : answer).
Definition succeeds (v : Outcome) : Prop := v = Success ↔ ∃ a', Answered a = Answered a' ∧ a_end a' = Clean ∧ a_status a' < 500 ∧ a_status a' ∉ [408; 425; 429].
Definition fails (v : Outcome) : Prop := v = Failure ↔ Answered a = BadURL ∨ Answered a = Boom ∨ (∃ e, Answered a = NoAnswer e ∧ gone = false) ∨
  ∃ a', Answered a = Answered a' ∧ (a_status a' = 503 → a_rejection a' = None) ∧ (a_status a' ∈ [408; 425] ∨ 500 ≤ a_status a') ∧
    (modifyResponse rq canRetry false a' = ForRetry ∨ a_end a' = Clean).

Lemma verdict_none v : v = Ignored → (∀ a', Answered a = Answered a' → ¬ ((a_status a' = 503 → a_rejection a' = None) ∧ (modifyResponse rq canRetry false a' = ForRetry ∨ a_end a' = Clean))) →
  succeeds v ∧ fails v.
Proof.
  intros -> H. split; (split; [done|]).
  - intros (a' & E & H1 & H2 & _). exfalso. apply (H a' E). split; [intros; lia|by right].
  - intros [?|[?|[(e & ? & _)|(a' & E & H1 & _ & H2)]]]; try done. by exfalso; apply (H a' E).
Qed.

Lemma verdict_answer v : v = Classify (a_status a) false → (a_status a = 503 → a_rejection a = None) →
  (modifyResponse rq canRetry false a = ForRetry ∧ a_status a ∈ [502; 503; 504; 408; 429] ∨ a_end a = Clean) → succeeds v ∧ fails v.
Proof.
  intros -> Hrej Hhow. rewrite Classify_status. unfold succeeds, fails. destruct (decide (a_status a = 429)) as [E|E].
  { split; (split; [done|]); [intros (a' & [= <-] & _ & _ & Hn); zmem|]. intros [?|[?|[(e & ? & _)|(a' & [= <-] & _ & Hs & _)]]]; try done. destruct Hs; [zmem|lia]. }
  destruct (decide (a_status a ∈ [408; 425] ∨ 500 ≤ a_status a)) as [F|F]; split; (split; [|done || idtac]); try done.
  - intros (a' & [= <-] & _ & Hlt & Hn). destruct F; [zmem|lia].
  - intros _. right. right. right. exists a. split_and!; try done. destruct Hhow as [[? _]|?]; auto.
  - intros _. destruct Hhow as [[_ Hin]|Hc]; [exfalso; apply F; zmem|]. exists a. split_and!; [done|done|lia|zmem].
  - intros [?|[?|[(e & ? & _)|(a' & [= <-] & _ & Hs & _)]]]; done.
Qed.
End verdicts.

(** What the breaker is told of each way an attempt can end, under an HTTP server.  A
    success is an answer, with a status that blames nobody, copied to its end.  Held against
    the backend are exactly: a URL that does not parse, a panic, a round trip that failed
    while the caller was still there, and a 408, a 425 or a server error that is not a
    prefill rejection and was either put back for a retry or copied to its end.  All the rest
    is ignored. *)
Theorem verdict_exact (rq : request) (cost : Z) (canRetry gone : bool) (b : positive) (token : bool) (r : reply) (Hsrv : under_server rq = true) :
  let v := verdict (d_end rq cost canRetry false gone b token r) in
  (v = Success ↔ ∃ a, r = Answered a ∧ a_end a = Clean ∧ a_status a < 500 ∧ a_status a ∉ [408; 425; 429]) ∧
  (v = Failure ↔ r = BadURL ∨ r = Boom ∨ (∃ e, r = NoAnswer e ∧ gone = false) ∨
     ∃ a, r = Answered a ∧ (a_status a = 503 → a_rejection a = None) ∧ (a_status a ∈ [408; 425] ∨ 500 ≤ a_status a) ∧
       (modifyResponse rq canRetry false a = ForRetry ∨ a_end a = Clean)).
Proof.
  cbn zeta. unfold d_end, delivery, runAttempt, attempt. destruct r as [|e| |a]; cbn [round_trip].
  - cbn. split; [split; [done|by intros (a & ? & _)]|]. split; [by left|done].
  - unfold conclude. cbn. destruct gone; cbn; (split; [split; [done|by intros (a & ? & _)]|]).
    + split; [done|]. by intros [?|[?|[(e' & _ & ?)|(a & ? & _)]]].
    + split; [|done]. intros _. right. right. left. by exists e.
  - cbn. split; [split; [done|by intros (a & ? & _)]|]. split; [by right; left|done].
  - rewrite Hsrv, andb_true_r. pose proof (rejection_means rq canRetry a) as Hrej. pose proof (put_back_status rq canRetry a) as Hback.
    destruct (modifyResponse rq canRetry false a) as [n| |[]] eqn:Em; cbn [fst snd].
    + apply verdict_none; [done|]. intros a' [= <-]. rewrite Em. tauto.
    + unfold conclude. rewrite bool_decide_false by (by intros [? ?]). cbn [andb verdict rejected ignored clientGone orb o_status o_err].
      rewrite (bool_decide_false (is_Some (None : option up_err))) by (by intros [? ?]). destruct (Hback eq_refl) as [Hb1 Hb2].
      apply verdict_answer; [done|done|by left].
    + destruct (copy_failed (a_end a)); (apply verdict_none; [|intros a' [= <-]; rewrite Em; tauto]); [done|]. unfold conclude. by destruct (_ && _).
    + destruct (a_end a) as [|e se|] eqn:Ee; cbn [copy_failed]; [|apply verdict_none; [done|intros a' [= <-]; rewrite Em, Ee; by intros [_ [?|?]]]..].
      cbn [aborted_by]. unfold conclude. cbn [fst snd]. rewrite bool_decide_false by (by intros [? ?]). cbn [andb verdict rejected ignored clientGone orb o_status o_err].
      apply verdict_answer; auto.
Qed.

(** An upstream that cuts its streams short is not held against it when the router runs as a
    server: the failed copy panics before the scanner's error is looked at. *)
Lemma truncation_unrecorded b token : let cut := Answered (Answer 200 None true (ReadFailed Transport false)) in
  verdict (d_end (Request 100 false true true true) 0 false false false b token cut) = Ignored ∧
  verdict (d_end (Request 100 false true true false) 0 false false false b token cut) = Failure.
Proof. by vm_compute. Qed.

(** ** Relay *)

Definition relay_event (b : positive) (e : event) : Prop :=
  match e with
  | EAcquire b' | EStartActive b' _ | EStartPrefill b' _ | EHeader b' _ | EFirstByte b' _ | ERelease b' | ECount b' _ => b' = b
  | _ => False
  end.

(** An upstream the router does not own is asked once, without breaker, selector, retry or
    commit, and its status reaches the client whatever it is; only a prefill rejection that
    the caller asked to absorb is kept back. *)
Theorem relay_verbatim (rq : request) (b : positive) (gone : bool) (rp : reply) :
  let '(r, l) := Relay rq b gone rp in
  Forall (relay_event b) l ∧ attempted l = [b] ∧
  (∀ a, rp = Answered a → capture rq && bool_decide (a_status a = 503) && bool_decide (a_rejection a ≠ None) = false →
    headers l = [(b, a_status a)] ∧ match r with Result_ r => s_Status r = a_status a ∧ s_Committed r = true | Aborted ab => ab = true end).
Proof.
  unfold Relay, attempt. set (rq' := Request _ _ _ _ _). destruct rp as [|e| |a]; cbn [round_trip].
  1-3: cbn; split_and!; [by repeat constructor|done|by intros ? ?].
  assert (Hev : ∀ d evs, evs = response_events rq' b d a → Forall (relay_event b) evs ∧ attempted evs = []).
  { intros [n| |rej] evs ->; cbn; [split; [by apply Forall_nil_2|done]..|]. destruct (_ && ok2xx _); (split; [by repeat constructor|done]). }
  assert (Hm : modifyResponse rq' false false a = (if capture rq && bool_decide (a_status a = 503) && bool_decide (a_rejection a ≠ None)
    then Absorbed (default 0 (a_rejection a)) else Relayed (bool_decide (a_status a = 503 ∧ a_rejection a ≠ None)))).
  { unfold modifyResponse. cbn zeta. change (capture rq') with (capture rq). destruct (Z.eqb_spec (a_status a) 503) as [E|E], (a_rejection a) as [n|], (capture rq);
      repeat case_bool_decide; naive_solver. }
  set (d := modifyResponse rq' false false a) in *. destruct (Hev d _ eq_refl) as [He1 He2]. set (evs := response_events rq' b d a) in *.
  assert (Hall : ∀ extra, Forall (relay_event b) extra → attempted extra = [] → headers extra = [] →
    let l := ([EAcquire b; EStartActive b (body_tokens rq'); EStartPrefill b 0] ++ evs ++ [ERelease b]) ++ extra in
    Forall (relay_event b) l ∧ attempted l = [b] ∧ headers l = headers evs).
  { intros extra X1 X2 X3. cbn zeta. rewrite !attempted_app, !headers_app, He2, X2, X3. cbn. rewrite !app_nil_r. split_and!; [|done|done].
    repeat (apply Forall_cons; split; [done|]). apply Forall_app. split; [apply Forall_app; split; [done|by repeat constructor]|done]. }
  assert (Hc : ∀ o, Forall (relay_event b) [countOutcome b o]) by (intros o; by repeat constructor).
  destruct (capture rq && _ && _) eqn:Ec.
  - rewrite Hm. destruct (Hall [countOutcome b (conclude (a_status a) None (Some (default 0 (a_rejection a))) false false false gone)]) as (A1 & A2 & _); [apply Hc|done|done|].
    split_and!; [exact A1|exact A2|]. intros a' [= <-]. congruence.
  - rewrite Hm. assert (Hh : headers evs = [(b, a_status a)]) by (unfold evs; rewrite Hm; cbn; by destruct (_ && ok2xx _)).
    destruct (_ && under_server rq').
    + destruct (Hall []) as (A1 & A2 & A3); [by apply Forall_nil_2|done|done|]. rewrite app_nil_r in A1, A2, A3. split_and!; [exact A1|exact A2|]. intros a' [= <-] _. by rewrite A3, Hh.
    + destruct (Hall [countOutcome b (conclude (a_status a) (aborted_by (a_end a)) None (bool_decide (a_status a = 503 ∧ a_rejection a ≠ None)) false true gone)]) as (A1 & A2 & A3); [apply Hc|done|done|].
      split_and!; [exact A1|exact A2|]. intros a' [= <-] _. rewrite A3, Hh. split; [done|]. cbn. split; [|done]. unfold conclude. by destruct (_ && gone).
Qed.

(** ** The load a request leaves behind *)

(** The log replayed on [Lease]'s world: the lease of the attempt at hand, and the world. *)
Definition replay_step (now : Z) (st : option positive * world) (e : event) : option positive * world :=
  match e, st.1 with
  | EAcquire b, _ => let '(i, w) := Acquire b now st.2 in (Some i, w)
  | EStartActive _ t, Some i => (st.1, StartActive i t st.2)
  | EStartPrefill _ t, Some i => (st.1, StartPrefill i t st.2)
  | EFirstByte _ t, Some i => (st.1, StartDecode i t (EndPrefill i st.2))
  | ERelease _, Some i => (None, Release i st.2)
  | _, _ => st
  end.
Definition replay (now : Z) (l : list event) (w : world) : option positive * world := foldl (replay_step now) (None, w) l.

(** A released lease has no share of anything. *)
Definition dead (le : Lease) : Prop := released le = true ∧ decode le = 0 ∧ active le = 0 ∧ prefill le = 0.

Record balanced (w0 w : world) : Prop := {
  ba_inv : world_inv w;
  ba_sums : ∀ f : Lease → Z, (∀ le, dead le → f le = 0) → msum f (leases w) = msum f (leases w0);
  ba_dom : ∀ l, is_Some (backends w !! l) ↔ is_Some (backends w0 !! l);
}.
(** In the middle of an attempt: one lease more than there was. *)
Record holding (w0 : world) (i : positive) (w : world) : Prop := {
  ho_inv : world_inv w;
  ho_lease : ∃ le, leases w = <[i := le]> (leases w0);
  ho_new : leases w0 !! i = None;
  ho_dom : ∀ l, is_Some (backends w !! l) ↔ is_Some (backends w0 !! l);
}.

Lemma alter_dom (f : Backend → Backend) (l0 l : positive) (bs : gmap positive Backend) : is_Some (alter f l0 bs !! l) ↔ is_Some (bs !! l).
Proof. destruct (decide (l0 = l)) as [-> |Hne]; [rewrite lookup_alter_eq; by rewrite fmap_is_Some|by rewrite lookup_alter_ne]. Qed.

Lemma holding_step w0 i w w' : holding w0 i w → world_inv w' →
  (leases w' = leases w ∨ ∃ le, leases w' = <[i := le]> (leases w)) → (∀ l, is_Some (backends w' !! l) ↔ is_Some (backends w !! l)) → holding w0 i w'.
Proof.
  intros [H1 [le H2] H3 H4] Hi Hl Hd. split; [done| |done|].
  - destruct Hl as [-> |[le' ->]]; [by exists le|]. exists le'. by rewrite H2, insert_insert_eq.
  - intros l. rewrite Hd. apply H4.
Qed.

Lemma holding_ops w0 i w t : holding w0 i w → holding w0 i (StartActive i t w) ∧ holding w0 i (StartPrefill i t w) ∧ holding w0 i (EndPrefill i w) ∧ holding w0 i (StartDecode i t w).
Proof.
  intros H. pose proof (ho_inv _ _ _ H) as Hi. split_and!; (eapply holding_step; [exact H|by auto using start_active_inv, start_prefill_inv, end_prefill_inv, start_decode_inv|..]).
  all: unfold StartActive, StartPrefill, EndPrefill, StartDecode; destruct (leases w !! i) as [le|]; try (by left); try done; repeat case_match; try (by left); try done.
  all: cbn; try (right; by eexists); intros l; apply alter_dom.
Qed.

Lemma holding_acquire b now w0 : world_inv w0 → let '(i, w) := Acquire b now w0 in holding w0 i w.
Proof.
  intros Hi. unfold Acquire. cbn. split.
  - by apply (acquire_inv b now w0).
  - cbn. by eexists.
  - destruct (leases w0 !! next_lease w0) as [le|] eqn:E; [|done]. apply (wi_fresh _ Hi) in E. lia.
  - intros l. cbn. apply alter_dom.
Qed.

Lemma holding_release w0 i w : holding w0 i w → open_leases w0 < two63 - 1 → balanced w0 (Release i w).
Proof.
  intros [H1 [le H2] H3 H4] Hb. assert (Hi : leases w !! i = Some le) by (rewrite H2; apply lookup_insert_eq).
  assert (Ho : open_leases w < two63).
  { unfold open_leases in *. rewrite H2, msum_insert_new by done. pose proof (open_share_bound le). lia. }
  pose proof (release_inv i w Ho H1) as Hinv.
  assert (Hl : ∃ le', leases (Release i w) = <[i := le']> (leases w0) ∧ dead le').
  { unfold Release. rewrite Hi. destruct (once le) eqn:Eo.
    - exists le. destruct (wi_lease _ H1 i le Hi) as [Hon Hre]. split; [done|]. rewrite Eo in Hon. split; [done|]. by apply Hre.
    - exists (MkLease (lb le) true 0 0 0 true). split; [|done]. cbn. destruct (match _ with Some b => _ | None => false end); cbn; by rewrite H2, insert_insert_eq. }
  split; [done| |].
  - intros f Hf. destruct Hl as (le' & -> & Hd). rewrite msum_insert_new by done. rewrite (Hf le' Hd). lia.
  - intros l. rewrite <-H4. unfold Release. rewrite Hi. destruct (once le); [done|]. cbn zeta.
    destruct (match _ with Some b => _ | None => false end); cbn; rewrite !alter_dom; done.
Qed.

Lemma balanced_trans w0 w1 w2 : balanced w0 w1 → balanced w1 w2 → balanced w0 w2.
Proof. intros [A1 A2 A3] [B1 B2 B3]. split; [done|intros f Hf; by rewrite B2, A2|intros l; by rewrite B3, A3]. Qed.

Lemma balanced_open w0 w : balanced w0 w → open_leases w = open_leases w0.
Proof. intros [_ H _]. apply H. intros le [Hr _]. unfold open_share. by rewrite Hr. Qed.

Lemma replay_leased now b evs w0 i w : Forall (leased_event b) evs → holding w0 i w → ∃ w', foldl (replay_step now) (Some i, w) evs = (Some i, w') ∧ holding w0 i w'.
Proof.
  intros He. revert w. induction He as [|e evs He _ IH]; intros w Hw; [by exists w|]. cbn [foldl].
  destruct e; try done; cbn [replay_step fst snd]; try (by apply IH). apply IH. destruct (holding_ops w0 i w t Hw) as (_ & _ & H3 & _). by apply holding_ops.
Qed.

Lemma replay_delivery now rq cost cr cm gone b token r w : world_inv w → open_leases w < two63 - 1 →
  ∃ w', foldl (replay_step now) (None, w) (d_events rq cost cr cm gone b token r) = (None, w') ∧ balanced w w'.
Proof.
  intros Hi Ho. destruct (delivery_eq rq cost cr cm gone b token r) as (evs & Hr & ->). rewrite !foldl_app.
  pose proof (holding_acquire b now w Hi) as Ha. destruct (Acquire b now w) as [i w1] eqn:Eacq.
  assert (Hpre : foldl (replay_step now) (None, w) [EAcquire b; EStartActive b (body_tokens rq); EStartPrefill b cost] = (Some i, StartPrefill i cost (StartActive i (body_tokens rq) w1))).
  { cbn [foldl]. unfold replay_step at 3. cbn [snd]. by rewrite Eacq. }
  rewrite Hpre.
  destruct (holding_ops w i w1 (body_tokens rq) Ha) as (H1 & _). destruct (holding_ops w i _ cost H1) as (_ & H2 & _).
  pose proof (round_trip_leased rq cr cm gone b r) as Hl. rewrite Hr in Hl. destruct (replay_leased now b evs w i _ Hl H2) as (w3 & -> & H3).
  cbn. exists (Release i w3). split; [done|]. by apply holding_release.
Qed.

Lemma replay_same now st l : (∀ e, e ∈ l → match e with EAcquire _ | EStartActive _ _ | EStartPrefill _ _ | EFirstByte _ _ | ERelease _ => False | _ => True end) →
  foldl (replay_step now) st l = st.
Proof.
  induction l as [|e l IH]; intros H; [done|]. cbn [foldl]. pose proof (H e ltac:(by left)) as He.
  assert (Hs : replay_step now st e = st) by (by destruct e). rewrite Hs. apply IH. intros e' He'. apply H. by right.
Qed.

(** The world after a log: nothing held, and in balance with the one before. *)
Definition settled (now : Z) (w : world) (l : list event) : Prop := ∃ w', replay now l w = (None, w') ∧ balanced w w'.

Lemma settled_app now w l l' : settled now w l → (∀ w', world_inv w' → open_leases w' = open_leases w → ∃ w2, foldl (replay_step now) (None, w') l' = (None, w2) ∧ balanced w' w2) →
  settled now w (l ++ l').
Proof.
  intros (w1 & Hr & Hb) H. destruct (H w1 (ba_inv _ _ Hb) (balanced_open _ _ Hb)) as (w2 & Hr2 & Hb2). exists w2. unfold replay in *. rewrite foldl_app, Hr. split; [done|].
  by eapply balanced_trans.
Qed.
Lemma balanced_refl w : world_inv w → balanced w w.
Proof. by intros. Qed.
Lemma settled_quiet now w l l' : settled now w l → (∀ e, e ∈ l' → match e with EAcquire _ | EStartActive _ _ | EStartPrefill _ _ | EFirstByte _ _ | ERelease _ => False | _ => True end) →
  settled now w (l ++ l').
Proof. intros Hl Hq. apply settled_app; [done|]. intros w' Hw _. rewrite replay_same by done. exists w'. split; [done|by apply balanced_refl]. Qed.

Ltac quiet_log := let e := fresh in let He := fresh in intros e He; repeat (apply elem_of_cons in He as [-> |He]; [done|]); by apply elem_of_nil in He.

Lemma serve_round_settled now w mx mf rq t s : open_leases w < two63 - 1 → settled now w (slog s) →
  match serve_round mx mf rq t s with Again s' => settled now w (slog s') | Break s' => settled now w (slog s') | Return _ l => settled now w l end.
Proof.
  intros Ho Hs. assert (Hdel : ∀ b token cost cr cm gone r, settled now w (slog s ++ [ESelect (remaining s) (Some b)] ++ [EAllow b true token] ++ d_events rq cost cr cm gone b token r)).
  { intros. rewrite app_assoc, (app_assoc _ [EAllow b true token]). apply settled_app.
    - rewrite <-app_assoc. apply settled_quiet; [done|]. quiet_log.
    - intros w' Hi Hw. apply replay_delivery; [done|lia]. }
  destruct (serve_round_cases mx mf rq t s) as [|chosen err _ _ _ _|b token _ _ _ _|b token cr abort _ _ _ _ _|b token cr o _ _ _ _ _ _]; cbn [slog].
  - done.
  - apply settled_quiet; [done|]. quiet_log.
  - apply settled_quiet; [done|]. quiet_log.
  - apply Hdel.
  - set (s1 := SState _ _ _ _ _ _). assert (H1 : settled now w (slog s1)).
    { unfold s1. cbn [slog]. rewrite !app_assoc. apply settled_quiet; [rewrite <-!app_assoc; apply Hdel|]. quiet_log. }
    pose proof (after_attempt_cases mx mf b o s1) as H. cbn zeta in H. destruct (after_attempt _ _ _ _ _) as [s'|s'|r' l']; [|done|by destruct H as [-> _]].
    destruct H as (_ & _ & _ & _ & _ & [(_ & _ & _ & ->)|(_ & _ & kd & ->)]); (apply settled_quiet; [done|]; quiet_log).
Qed.

(** C20: A request leaves no load behind.  Replayed on a world of backends and leases whose books
    balance, the log of a call of [Serve], whatever it met and also when it panicked, ends with
    every lease it took released, the books balanced, and every gauge of every backend at
    what it was. *)
Theorem no_load_left (now mx : Z) (cands : list positive) (rq : request) (world : nat → list positive → turn) (r : served) (l : list event) (w : Lease.world)
  (Hrun : Serve mx cands rq world = Some (r, l)) (Hw : world_inv w) (Hopen : open_leases w < two63 - 1) :
  (replay now l w).1 = None ∧ world_inv (replay now l w).2 ∧ open_leases (replay now l w).2 = open_leases w ∧
  ∀ b x, backends w !! b = Some x → ∃ x', backends (replay now l w).2 !! b = Some x' ∧
    inflight (load x') = inflight (load x) ∧ decodeTokens (load x') = decodeTokens (load x) ∧
    activeTokens (load x') = activeTokens (load x) ∧ prefillTokens (load x') = prefillTokens (load x).
Proof.
  assert (Hs : settled now w l).
  { revert Hrun. apply (serve_loop_ind (λ s, settled now w (slog s)) (λ _ l, settled now w l)); [|exists w; split; [done|by apply balanced_refl]].
    intros k s Hs. by apply serve_round_settled. }
  destruct Hs as (w' & -> & Hb). cbn [fst snd]. pose proof (balanced_open _ _ Hb) as Ho. destruct Hb as [B1 B2 B3]. split_and!; [done|done|done|].
  intros b x Hx. destruct (proj2 (B3 b) ltac:(by exists x)) as [x' Hx']. exists x'. split; [done|].
  destruct (wi_accounts _ Hw b x Hx) as [A1 A2 A3 A4], (wi_accounts _ B1 b x' Hx') as [C1 C2 C3 C4]. rewrite A1, A2, A3, A4, C1, C2, C3, C4.
  assert (Hf : ∀ f : Lease → Z, (∀ le, dead le → f le = 0) → msum (share b f) (leases w') = msum (share b f) (leases w)).
  { intros f Hf. apply B2. intros le Hd. unfold share. destruct (decide _); [by apply Hf|done]. }
  rewrite !Hf; [done|..]; intros le (Hr & ? & ? & ?); unfold open_share; by rewrite ?Hr.
Qed.

(** ** Credentials *)

Lemma del_all ks : ∀ (h : header) k, foldl (λ h k, Del k h) h ks !! k = if decide (k ∈ ks) then None else h !! k.
Proof.
  induction ks as [|k0 ks IH]; intros h k; cbn [foldl]; [by rewrite decide_False by (by intros ?%elem_of_nil)|]. rewrite IH. unfold Del.
  destruct (decide (k ∈ ks)) as [H|H]; [by rewrite decide_True by (by right)|]. destruct (decide (k = k0)) as [-> |Hne].
  - rewrite decide_True by (by left). apply lookup_delete_eq.
  - rewrite decide_False by (rewrite elem_of_cons; tauto). by apply lookup_delete_ne.
Qed.

Definition is_credential (k : string) : Prop := k = "Authorization"%string ∨ k = "X-Api-Key"%string.

(** C33: The caller's credential does not leave the router unless its route forwards it.  Unless
    a route without a credential of its own forwards the caller's and does not strip it, two
    requests that differ only in their credentials go upstream with the same headers; and
    whatever the route, no hop-by-hop header goes upstream. *)
Theorem credentials_contained (upstream : string) (auth : Auth) (id : string) (h h' : header)
  (Hroute : Credential auth ≠ ""%string ∨ Forward auth = false ∨ Strip auth = true)
  (Hsame : ∀ k, ¬ is_credential k → h !! k = h' !! k) :
  rewrite_headers upstream auth id h = rewrite_headers upstream auth id h' ∧ ∀ k, k ∈ hopByHop → rewrite_headers upstream auth id h !! k = None.
Proof.
  assert (Hdel : Del "X-Api-Key" (Del "Authorization" h) = Del "X-Api-Key" (Del "Authorization" h')).
  { apply map_eq. intros k. unfold Del. rewrite !lookup_delete. repeat case_decide; try done. apply Hsame. by intros [-> | ->]. }
  split.
  - unfold rewrite_headers. do 2 f_equal. unfold set_credentials. rewrite Hdel. destruct (bool_decide (Credential auth ≠ _)) eqn:E; [done|].
    apply bool_decide_eq_false in E. assert (Hf : Forward auth && negb (Strip auth) = false); [|by rewrite Hf].
    destruct Hroute as [?|[-> | ->]]; [by destruct E|done|by rewrite andb_false_r].
  - intros k Hk. assert (Hx : "X-Request-Id"%string ∉ hopByHop) by (apply (bool_decide_unpack _); by vm_compute).
    unfold rewrite_headers, Set_. rewrite lookup_insert_ne by (by intros <-).
    rewrite del_all. by rewrite decide_True.
Qed.

(** ** Results without an answer *)

(** What an attempt that found nothing committed leaves: no error only with an answer relayed,
    absorbed, or put back for a retry. *)
Lemma delivery_outcome rq cost cr gone b token r o : d_end rq cost cr false gone b token r = Returned o →
  (rejected o = true → capture rq = true ∧ o_err o = None ∧ d_committed rq cost cr false gone b token r = false) ∧
  (o_err o = None → d_committed rq cost cr false gone b token r = true ∨ rejected o = true ∨ o_status o ∈ [502; 503; 504; 408; 429]).
Proof.
  destruct (delivery_eq rq cost cr false gone b token r) as (evs & Hr & _). intros He. rewrite He in Hr. generalize dependent (d_committed rq cost cr false gone b token r).
  intros cm Hr. revert Hr. unfold round_trip. destruct r as [|e| |a]; [intros [= _ <- <-]; cbn; by split|intros [= _ <- <-]|done|].
  { unfold conclude. cbn. by destruct gone; cbn; split. }
  cbn zeta. destruct (modifyResponse rq cr false a) as [n| |rej] eqn:Em.
  - intros [= _ <- <-]. unfold conclude. cbn. split; [|by intros _; right; left]. intros _. split_and!; try done.
    unfold modifyResponse in Em. cbn zeta in Em. destruct (if _ =? 503 then _ else _); [by destruct (capture rq)|]. by destruct (_ && _).
  - intros [= _ <- <-]. apply put_back_status in Em as [_ Hst]. unfold conclude. cbn. split; [done|]. intros _. by right; right.
  - destruct (_ && under_server rq); [done|]. intros [= _ <- <-]. split; [|by intros _; left]. unfold conclude. destruct (_ && gone); cbn; done.
Qed.

(** A rejection is absorbed only when that was asked for. A result without an error is one of
    an answer the client got, of a rejection, or of an answer put back for a retry that never
    came. *)
Definition outcome_ok (rq : request) (r : SResult) : Prop :=
  (s_PrefillRejected r = true → capture rq = true ∧ s_Err r = None ∧ s_Committed r = false) ∧
  (s_Err r = None → s_Backend r = None ∨ s_Committed r = true ∨ s_PrefillRejected r = true ∨ s_Status r ∈ [502; 503; 504; 408; 429]).

Lemma serve_outcome mx cands rq world r l : 0 < mx → (∀ k cs b, t_chosen (world k cs) = (Some b, None) → b ∈ cs) →
  (∀ k cs, t_chosen (world k cs) ≠ (None, None)) → Serve mx cands rq world = Some (Result_ r, l) → outcome_ok rq r ∧ (s_Err r = None → s_Backend r ≠ None).
Proof.
  intros Hmx Hsel Hans. apply (serve_loop_ind (λ s, round_ok cands mx s ∧ outcome_ok rq (s_res s) ∧ s_PrefillRejected (s_res s) = false)
    (λ r _, match r with Result_ r => outcome_ok rq r ∧ (s_Err r = None → s_Backend r ≠ None) | Aborted _ => True end)); cycle 1.
  { split_and!; [split; cbn; try done; [apply NoDup_nil_2|by intros ? ?%elem_of_nil|intros b Hb; split; [done|by intros ?%elem_of_nil]|lia]|split; [done|by left]|done]. }
  intros k s (Hok & Hout & Hnr). pose proof (serve_round_ok mx Hmx cands rq world Hsel k s Hok) as Hnext. pose proof (ro_quiet _ _ _ Hok) as (Hcm & _).
  assert (Hfin : ∀ s', outcome_ok rq (s_res s') → s_PrefillRejected (s_res s') = false → outcome_ok rq (finish s') ∧ (s_Err (finish s') = None → s_Backend (finish s') ≠ None)).
  { intros s' [O1 O2] Hn. unfold finish. case_bool_decide as Hb; [|split; [split; [done|exact O2]|intros He Hbn; by apply Hb]].
    split; [|done]. split; cbn; [by rewrite Hn|done]. }
  destruct (serve_round_cases mx (Z.of_nat (length cands)) rq (world k (remaining s)) s) as [_|chosen err Hch Hno _ _|b token Hc _ _ _|b token cr abort Hc _ _ Hlt He|b token cr o Hc _ _ Hlt _ He].
  - by apply Hfin.
  - apply Hfin; cbn; [|done]. specialize (Hans k (remaining s)). rewrite Hch in Hans. destruct err; [split; cbn; [by rewrite Hnr|done]|]. by destruct Hno as [-> |?].
  - by destruct Hnext.
  - done.
  - rewrite Hcm in He. destruct (delivery_outcome _ _ _ _ _ _ _ _ He) as [D1 D2]. rewrite Hcm in Hnext |- *. set (s1 := SState _ _ _ _ _ _) in *.
    assert (Hret : ∀ n, outcome_ok rq (MkSResult (Some b) (o_status o) (s_Attempts (s_res s1) + 1) (Upstream <$> o_err o) (committed s1) (rejected o) n)).
    { intros n. split; cbn.
      - intros Hr. destruct (D1 Hr) as (? & -> & ?). done.
      - intros Hn. right. apply D2. by destruct (o_err o). }
    pose proof (after_attempt_cases mx (Z.of_nat (length cands)) b o s1) as H. cbn zeta in H. revert H Hnext Hret. unfold after_attempt. cbn zeta.
    destruct (rejected o) eqn:Er; [intros _ _ Hret; split; [apply Hret|done]|]. destruct (_ && _ && _ && _).
    + intros _ [Hn _] Hret. split_and!; [done|apply (Hret 0)|done].
    + destruct (_ || _ || _); [intros _ _ Hret; split; [apply (Hret 0)|done]|]. intros _ [Hn _] Hret. split_and!; [done|apply (Hret 0)|done].
Qed.

(** ** A fleet of three

    The first backend's breaker is shut, the second answers 429, the third serves. *)

Module Ex.
Definition rq : request := Request 400 false true true true.
Definition first_of (bs : list positive) : option positive * option sel_error :=
  match bs with b :: _ => (Some b, None) | [] => (None, Some ErrNoCandidates) end.
Definition fleet (k : nat) (cs : list positive) : turn :=
  Turn (first_of cs) None (bool_decide (head cs ≠ Some 1%positive), false) false
    (if bool_decide (head cs = Some 2%positive) then Answered (Answer 429 None true Clean) else Answered (Answer 200 None true Clean)).
Lemma fleet_selects k cs b : t_chosen (fleet k cs) = (Some b, None) → b ∈ cs.
Proof. cbn. destruct cs as [|c cs]; [done|]. intros [= ->]. by left. Qed.

Definition res : SResult := MkSResult (Some 3%positive) 200 2 None true false 0.
Definition log : list event := match Serve 2 [1; 2; 3]%positive rq fleet with Some (_, l) => l | None => [] end.
Lemma ran : Serve 2 [1; 2; 3]%positive rq fleet = Some (Result_ res, log).
Proof. by vm_compute. Qed.

Definition w0 : world := init_world {[1%positive := demo_backend "http://a:80"; 2%positive := demo_backend "http://b:80"; 3%positive := demo_backend "http://c:80"]}.
Lemma w0_inv : world_inv w0.
Proof.
  apply init_world_inv. intros l b Hl. rewrite !lookup_insert_Some, lookup_singleton_Some in Hl.
  destruct Hl as [[_ <-]|[_ [[_ <-]|[_ [_ <-]]]]]; done.
Qed.

(** Retried once for capacity: first no backend is usable. *)
Definition refused (k : nat) (cs : list positive) : turn := Turn (None, Some ErrAllBackendsSaturated) None (true, false) false Boom.
Definition worlds (j : nat) : nat → list positive → turn := match j with O => refused | _ => fleet end.
Definition res_of (j : nat) : SResult := match j with O => set_err (Some (FromSelect ErrAllBackendsSaturated)) zero_sresult | _ => res end.
Definition log_of (j : nat) : list event := match j with O => [ESelect [1; 2; 3]%positive None] | _ => log end.
Definition turn_of (j : nat) : CapacityRetry.turn :=
  MkTurn [1; 2; 3]%positive (to_Result (res_of j)) 1 true 0 None 0 0 0.
Definition retried : lstate := default (start_at 0) (serveWithCapacityRetry 5 (MkRetryConfig Second 0) None turn_of 0).
End Ex.

Lemma attempts_bracketed_witness : stage_of Ex.log = Idle.
Proof. apply (attempts_bracketed 2 [1; 2; 3]%positive Ex.rq Ex.fleet (Result_ Ex.res) Ex.log Ex.ran). Defined.
Lemma serve_terminates_witness : is_Some (Serve 2 [1; 2; 3]%positive Ex.rq Ex.fleet).
Proof. apply (serve_terminates 2 [1; 2; 3]%positive Ex.rq Ex.fleet eq_refl Ex.fleet_selects). Defined.
Lemma walk_bounded_witness : NoDup (attempted Ex.log).
Proof. apply (walk_bounded 2 [1; 2; 3]%positive Ex.rq Ex.fleet (Result_ Ex.res) Ex.log eq_refl Ex.fleet_selects Ex.ran). Defined.
Lemma result_truthful_witness : s_Attempts Ex.res = Z.of_nat (length (attempted Ex.log)).
Proof. apply (result_truthful 2 [1; 2; 3]%positive Ex.rq Ex.fleet Ex.res Ex.log eq_refl Ex.fleet_selects Ex.ran). Defined.
Lemma verdict_exact_witness : verdict (d_end Ex.rq 0 false false false 1 true (Answered (Answer 500 None true Clean))) = Failure.
Proof. apply (verdict_exact Ex.rq 0 false false 1 true (Answered (Answer 500 None true Clean)) eq_refl). right. right. right. eexists. split; [reflexivity|]. cbn. split; [done|]. split; [right; lia|by right]. Defined.
Lemma no_load_left_witness : (replay 0 Ex.log Ex.w0).1 = None.
Proof. apply (no_load_left 0 2 [1; 2; 3]%positive Ex.rq Ex.fleet (Result_ Ex.res) Ex.log Ex.w0 Ex.ran Ex.w0_inv). by vm_compute. Defined.
Lemma retries_invisible_witness : (length (headers Ex.log) ≤ 1)%nat.
Proof.
  destruct (retries_invisible 2 5 (MkRetryConfig Second 0) None Ex.turn_of 0 Ex.retried (λ _, Ex.rq) Ex.worlds Ex.res_of Ex.log_of) as [_ H].
  - reflexivity.
  - intros k. done.
  - intros [|j] k cs b; [done|apply Ex.fleet_selects].
  - intros [|j]; (split; [by vm_compute|reflexivity]).
  - by vm_compute.
  - exact H.
Defined.

(** The walk: the first candidate is skipped, the second is put back, the third answers. *)
Example walked : attempted Ex.log = [2; 3]%positive ∧ headers Ex.log = [(3%positive, 200)] ∧ accepts Ex.log = [3%positive] ∧ refusals Ex.log = 1 ∧
  CapacityRetry.attempt Ex.retried = 1%nat.
Proof. by vm_compute. Qed.

Lemma credentials_contained_witness :
  rewrite_headers "" (MkAuth "router-key" true false) "id" {["Authorization"%string := ["Bearer user-key"%string]]} = rewrite_headers "" (MkAuth "router-key" true false) "id" ∅.
Proof.
  apply (credentials_contained "" (MkAuth "router-key" true false) "id" {["Authorization"%string := ["Bearer user-key"%string]]} ∅); [by left|].
  intros k Hk. rewrite lookup_empty. apply lookup_singleton_None. intros <-. apply Hk. by left.
Defined.
