(* ===== verification/StreamScan.v ===== *)
(** * StreamScan: watching a response go by

    The terminal-marker scanner of [src/router/internal/dialect/dialect.go] and the body
    wrapper of [src/router/internal/proxy/proxy.go] that feeds it.  A buffer is a list of
    bytes; the scanner keeps at most [maxCarry] bytes of a line, the wrapper the last
    [maxSniff] bytes of the body. *)

From stdpp Require Import base list strings.
From Stdlib Require Import ZArith Lia.
From S2P Require Import Prelude KvUnits Policy CapacityRetry Proxy.
Open Scope Z_scope.

(** ** [LineScanner] *)

Definition newline : Z := 10.
Definition maxCarry : nat := Z.to_nat 8192.

Record LineScanner := MkScanner {
  Markers : list bytes;
  carry : bytes;
  capped : bool;
  seen : bool;
}.
Definition NewScanner (ms : list bytes) : LineScanner := MkScanner ms [] false false.

(** The bytes before the first [c], and those after it. *)
Fixpoint cut_at (c : Z) (b : bytes) : option (bytes * bytes) :=
  match b with
  | [] => None
  | x :: b => if x =? c then Some ([], b) else match cut_at c b with Some (l, r) => Some (x :: l, r) | None => None end
  end.

(** Carriage returns off the end. *)
Fixpoint drop_crs (b : bytes) : bytes := match b with [] => [] | c :: r => if c =? 13 then drop_crs r else b end.
Definition trimCR (b : bytes) : bytes := reverse (drop_crs (reverse b)).
Fixpoint hasPrefix (b p : bytes) {struct p} : bool :=
  match p, b with
  | [], _ => true
  | c :: p, x :: b => (x =? c) && hasPrefix b p
  | _, [] => false
  end.
Definition matches (ms : list bytes) (line : bytes) : bool := existsb (hasPrefix (trimCR line)) ms.

(** A chunk without a newline, and a line's end. *)
Definition keep (p : bytes) (s : LineScanner) : LineScanner :=
  if capped s then s
  else if bool_decide (length (carry s) + length p ≤ maxCarry)%nat then MkScanner (Markers s) (carry s ++ p) false (seen s)
  else MkScanner (Markers s) [] true (seen s).
Definition end_line (line : bytes) (s : LineScanner) : LineScanner :=
  let line := carry s ++ line in
  MkScanner (Markers s) [] false (seen s || (negb (capped s) && matches (Markers s) line)).

Fixpoint feed_loop (fuel : nat) (p : bytes) (s : LineScanner) : LineScanner :=
  match fuel, p with
  | O, _ | _, [] => s
  | S f, _ => match cut_at newline p with
              | None => keep p s
              | Some (line, rest) => feed_loop f rest (end_line line s)
              end
  end.
(** Each round eats a byte at least. *)
Definition Feed (p : bytes) (s : LineScanner) : bool * LineScanner := let s := feed_loop (length p) p s in (seen s, s).

(** ** The lines of a stream

    The reference: byte by byte, the complete lines and what is begun of the next. *)

Definition split_step (acc : list bytes * bytes) (c : Z) : list bytes * bytes :=
  if c =? newline then (acc.1 ++ [acc.2], []) else (acc.1, acc.2 ++ [c]).
Definition split_lines (x : bytes) : list bytes * bytes := foldl split_step ([], []) x.

Lemma cut_at_spec c b : match cut_at c b with
  | Some (l, r) => b = l ++ c :: r ∧ c ∉ l
  | None => c ∉ b
  end.
Proof.
  induction b as [|x b IH]; cbn; [by intros ?%elem_of_nil|]. destruct (Z.eqb_spec x c) as [-> |Hne].
  - split; [done|by intros ?%elem_of_nil].
  - destruct (cut_at c b) as [[l r]|].
    + destruct IH as [-> Hl]. split; [done|]. rewrite elem_of_cons. intros [?|?]; [congruence|done].
    + rewrite elem_of_cons. intros [?|?]; [congruence|done].
Qed.

Lemma split_plain p : newline ∉ p → ∀ ls t, foldl split_step (ls, t) p = (ls, t ++ p).
Proof.
  induction p as [|c p IH]; intros Hn ls t; [by rewrite app_nil_r|]. cbn [foldl]. unfold split_step at 2. rewrite elem_of_cons in Hn.
  destruct (Z.eqb_spec c newline) as [->|_]; [tauto|]. cbn [fst snd]. rewrite IH by tauto. by rewrite <-app_assoc.
Qed.
Lemma split_app x p : split_lines (x ++ p) = foldl split_step (split_lines x) p.
Proof. apply foldl_app. Qed.

(** The scanner after the stream [x], however it was cut up. *)
Record scanned (ms : list bytes) (x : bytes) (s : LineScanner) : Prop := {
  sc_markers : Markers s = ms;
  sc_open : capped s = false → carry s = (split_lines x).2 ∧ (length (split_lines x).2 ≤ maxCarry)%nat;
  sc_capped : capped s = true → carry s = [] ∧ (maxCarry < length (split_lines x).2)%nat;
  sc_sound : seen s = true → ∃ ln, ln ∈ (split_lines x).1 ∧ matches ms ln = true;
  sc_complete : ∀ ln, ln ∈ (split_lines x).1 → (length ln ≤ maxCarry)%nat → matches ms ln = true → seen s = true;
}.

Lemma scanned_keep ms x s p : scanned ms x s → newline ∉ p → scanned ms (x ++ p) (keep p s).
Proof.
  intros [H1 H2 H3 H4 H5] Hp. assert (Hs : split_lines (x ++ p) = ((split_lines x).1, (split_lines x).2 ++ p)).
  { rewrite split_app. destruct (split_lines x) as [ls t]. by apply split_plain. }
  unfold keep. destruct (capped s) eqn:Ec; [|case_bool_decide as Hlen].
  - split; rewrite ?Hs; cbn [fst snd]; try done; [congruence|]. intros _. destruct (H3 eq_refl). split; [done|]. rewrite length_app. lia.
  - destruct (H2 eq_refl) as [Hc _]. split; rewrite ?Hs; cbn [fst snd Markers carry capped seen]; try done. intros _. rewrite <-Hc. split; [done|]. by rewrite length_app.
  - destruct (H2 eq_refl) as [Hc _]. split; rewrite ?Hs; cbn [fst snd Markers carry capped seen]; try done. intros _. split; [done|]. rewrite <-Hc, length_app. lia.
Qed.

Lemma scanned_end ms x s line : scanned ms x s → newline ∉ line → scanned ms (x ++ line ++ [newline]) (end_line line s).
Proof.
  intros [H1 H2 H3 H4 H5] Hp. assert (Hs : split_lines (x ++ line ++ [newline]) = ((split_lines x).1 ++ [(split_lines x).2 ++ line], [])).
  { rewrite app_assoc, split_app, split_app. destruct (split_lines x) as [ls t]. rewrite split_plain by done. cbn. done. }
  split; rewrite ?Hs; cbn [fst snd end_line Markers carry capped seen]; try done.
  - intros _. split; [done|]. apply Nat.le_0_l.
  - rewrite orb_true_iff, andb_true_iff, negb_true_iff. intros [Hseen|[Hc Hm]].
    + destruct (H4 Hseen) as (ln & Hl & Hlm). exists ln. split; [apply elem_of_app; by left|done].
    + exists ((split_lines x).2 ++ line). split; [apply elem_of_app; right; by left|]. destruct (H2 Hc) as [<- _]. by rewrite <-H1.
  - intros ln [Hl| ->%list_elem_of_singleton]%elem_of_app Hlen Hm; [by rewrite (H5 ln)|]. destruct (capped s) eqn:Ec.
    + destruct (H3 eq_refl) as [_ Hlt]. rewrite length_app in Hlen. lia.
    + destruct (H2 eq_refl) as [-> _]. rewrite H1, Hm. by rewrite orb_true_r.
Qed.

Lemma scanned_feed ms f : ∀ p x s, (length p ≤ f)%nat → scanned ms x s → scanned ms (x ++ p) (feed_loop f p s).
Proof.
  induction f as [|f IH]; intros p x s Hf Hs.
  { destruct p; [by rewrite app_nil_r|cbn in Hf; lia]. }
  cbn [feed_loop]. destruct p as [|c p']; [by rewrite app_nil_r|]. set (p := c :: p') in *. pose proof (cut_at_spec newline p) as Hc.
  destruct (cut_at newline p) as [[line rest]|]; [|by apply scanned_keep].
  destruct Hc as [Hp Hn]. rewrite Hp. replace (x ++ line ++ newline :: rest) with ((x ++ line ++ [newline]) ++ rest) by (by rewrite <-!app_assoc).
  apply IH; [|by apply scanned_end]. apply (f_equal length) in Hp. rewrite length_app in Hp. cbn [length] in *. lia.
Qed.

Definition FeedAll (chunks : list bytes) (s : LineScanner) : LineScanner := foldl (λ s p, (Feed p s).2) s chunks.

Lemma scanned_all ms chunks : ∀ x s, scanned ms x s → scanned ms (x ++ mjoin chunks) (FeedAll chunks s).
Proof.
  induction chunks as [|p chunks IH]; intros x s Hs; cbn; [by rewrite app_nil_r|]. rewrite app_assoc. apply IH. by apply scanned_feed.
Qed.

(** C19: The terminal marker is found across any chunk boundaries.  However a stream is cut
    into chunks, the scanner has seen a marker when one of its complete lines of up to
    [maxCarry] bytes starts with one, and only when one of its complete lines does; and it
    never holds more than [maxCarry] bytes. *)
Theorem marker_found (ms : list bytes) (chunks : list bytes) :
  let s := FeedAll chunks (NewScanner ms) in
  let lines := (split_lines (mjoin chunks)).1 in
  (seen s = true → ∃ ln, ln ∈ lines ∧ matches ms ln = true) ∧
  ((∃ ln, ln ∈ lines ∧ (length ln ≤ maxCarry)%nat ∧ matches ms ln = true) → seen s = true) ∧
  (length (carry s) ≤ maxCarry)%nat.
Proof.
  cbn zeta. assert (H0 : scanned ms [] (NewScanner ms)).
  { split; cbn; try done; [split; [done|apply Nat.le_0_l]|by intros ln ?%elem_of_nil]. }
  destruct (scanned_all ms chunks [] _ H0) as [H1 H2 H3 H4 H5]. rewrite app_nil_l in *. split_and!; [done| |].
  - intros (ln & Hl & Hlen & Hm). by eapply H5.
  - destruct (capped _) eqn:E; [destruct (H3 eq_refl) as [-> _]; apply Nat.le_0_l|]. by destruct (H2 eq_refl) as [-> ?].
Qed.

(** ** [scanBody] *)

(** A string literal's bytes. *)
Definition lit (s : string) : bytes := (λ a, Z.of_nat (Ascii.nat_of_ascii a)) <$> String.list_ascii_of_string s.

Definition maxSniff : nat := Z.to_nat 65536.

(** [onFirstByte] is set until it is called. *)
Record scanBody := MkBody {
  sc : LineScanner;
  sawEnd : bool;
  aborted : option up_err;
  tail_ : bytes;
  total : Z;
  onFirstByte : bool;
}.
Definition NewBody (ms : list bytes) : scanBody := MkBody (NewScanner ms) false None [] 0 true.

Definition last_n (n : nat) (b : bytes) : bytes := drop (length b - n) b.
Definition appendTail (p : bytes) (s : scanBody) : scanBody :=
  let t := tail_ s ++ p in
  MkBody (sc s) (sawEnd s) (aborted s) (if (maxSniff <? length t)%nat then last_n maxSniff t else t) (total s + Z.of_nat (length p)) (onFirstByte s).

Inductive read_err := EOF | ReadErr (e : up_err).
(** A read of the upstream body that gave [p] and [err]; the answer is whether it was the
    first byte. *)
Definition Read (p : bytes) (err : option read_err) (s : scanBody) : bool * scanBody :=
  let '(first, s) :=
    match p with
    | [] => (false, s)
    | _ => let '(e, l) := Feed p (sc s) in
           (onFirstByte s, appendTail p (MkBody l e (aborted s) (tail_ s) (total s) false))
    end in
  (first, match err with
          | Some (ReadErr e) =>
              if sawEnd s then s
              else if bool_decide (e = Canceled) then s
              else MkBody (sc s) (sawEnd s) (Some (default StreamAborted (aborted s))) (tail_ s) (total s) (onFirstByte s)
          | _ => s
          end).

(** A body read to its end: chunks without an error, then the last read. *)
Definition ReadAll (chunks : list bytes) (p : bytes) (err : read_err) (s : scanBody) : list bool * scanBody :=
  let '(fs, s) := foldl (λ '(fs, s) p, let '(f, s) := Read p None s in (fs ++ [f], s)) ([], s) chunks in
  let '(f, s) := Read p (Some err) s in (fs ++ [f], s).

(** What follows the last [pat]. *)
Fixpoint after_last (pat b : bytes) : option bytes :=
  match b with
  | [] => None
  | _ :: b' => match after_last pat b' with
               | Some r => Some r
               | None => if hasPrefix b pat then Some (drop (length pat) b) else None
               end
  end.

(** The span [observeUsage] hands to [ExtractUsage]. *)
Definition usage_span (s : scanBody) : option bytes :=
  match tail_ s with
  | [] => None
  | t => match after_last (lit "data: ") t with
         | Some sp => Some (match cut_at newline sp with Some (l, _) => l | None => sp end)
         | None => if Z.of_nat (length t) <? total s then None else Some t
         end
  end.

(** *** What it saw of a body *)

Lemma last_n_app n (a b : bytes) : last_n n (last_n n a ++ b) = last_n n (a ++ b).
Proof.
  unfold last_n. rewrite !length_app, length_drop. destruct (le_lt_dec (length a) n) as [H|H].
  - replace (length a - n)%nat with 0%nat by lia. rewrite drop_0. f_equal. lia.
  - replace (length a - (length a - n) + length b - n)%nat with (length b)%nat by lia.
    replace (length a + length b - n)%nat with ((length a - n) + length b)%nat by lia. rewrite <-drop_drop. f_equal. rewrite drop_app_le by lia. done.
Qed.
Lemma last_n_all n (b : bytes) : (length b ≤ n)%nat → last_n n b = b.
Proof. intros H. unfold last_n. by replace (length b - n)%nat with 0%nat by lia. Qed.

(** The wrapper after the chunks [cs]. *)
Record watched (ms : list bytes) (cs : list bytes) (s : scanBody) : Prop := {
  wa_scan : sc s = FeedAll cs (NewScanner ms);
  wa_end : sawEnd s = seen (sc s);
  wa_tail : tail_ s = last_n maxSniff (mjoin cs);
  wa_total : total s = Z.of_nat (length (mjoin cs));
  wa_first : onFirstByte s = bool_decide (mjoin cs = []);
  wa_clean : aborted s = None;
}.

Lemma watched_read ms cs s p : watched ms cs s → watched ms (cs ++ [p]) (Read p None s).2 ∧
  (Read p None s).1 = bool_decide (mjoin cs = [] ∧ p ≠ []).
Proof.
  intros [H1 H2 H3 H4 H5 H6]. assert (Hj : mjoin (cs ++ [p]) = mjoin cs ++ p) by (rewrite join_app; cbn; by rewrite app_nil_r).
  assert (Hf : FeedAll (cs ++ [p]) (NewScanner ms) = (Feed p (sc s)).2) by (rewrite H1; unfold FeedAll; by rewrite foldl_app).
  unfold Read. destruct p as [|c p'].
  { rewrite app_nil_r in Hj. split; [split; rewrite ?Hj, ?Hf; done|]. cbn. by rewrite bool_decide_false by tauto. }
  set (p := c :: p') in *. assert (Hne : p ≠ []) by done. unfold Feed in *. cbn [fst snd] in *. set (l := feed_loop (length p) p (sc s)) in *. clearbody l p. split.
  - unfold appendTail. split; cbn [sc sawEnd aborted tail_ total onFirstByte]; rewrite ?Hj; try done.
    + rewrite H3. destruct (Nat.ltb_spec maxSniff (length (last_n maxSniff (mjoin cs) ++ p))) as [H|H]; [by apply last_n_app|].
      rewrite <-last_n_app. symmetry. by apply last_n_all.
    + rewrite H4, length_app. lia.
    + rewrite bool_decide_false; [done|]. intros Hn. apply app_eq_nil in Hn as [_ ?]. done.
  - rewrite H5. apply bool_decide_ext. tauto.
Qed.

Lemma watched_reads ms chunks : ∀ cs s fs, watched ms cs s →
  let '(fs', s') := foldl (λ '(fs, s) p, let '(f, s) := Read p None s in (fs ++ [f], s)) (fs, s) chunks in
  watched ms (cs ++ chunks) s' ∧
  length (filter (λ f, f = true) fs') = (length (filter (λ f, f = true) fs) + if bool_decide (mjoin cs = [] ∧ mjoin chunks ≠ []) then 1 else 0)%nat.
Proof.
  induction chunks as [|p chunks IH]; intros cs s fs Hs; cbn [foldl].
  { rewrite app_nil_r, bool_decide_false by (cbn; tauto). split; [done|lia]. }
  destruct (watched_read ms cs s p Hs) as [Hw Hf]. destruct (Read p None s) as [f s1]. cbn [fst snd] in *. specialize (IH (cs ++ [p]) s1 (fs ++ [f]) Hw).
  destruct (foldl _ _ _) as [fs' s']. destruct IH as [IH1 IH2]. rewrite <-app_assoc in IH1. split; [done|]. rewrite IH2, filter_app, length_app, Hf.
  assert (Hj : mjoin (cs ++ [p]) = mjoin cs ++ p) by (rewrite join_app; cbn; by rewrite app_nil_r). rewrite Hj. change (mjoin (p :: chunks)) with (p ++ mjoin chunks).
  assert (Hsum : ∀ b : bool, length (filter (λ f, f = true) [b]) = if b then 1%nat else 0%nat) by (by intros []). rewrite Hsum.
  destruct (mjoin cs) as [|c x], p as [|d p]; repeat case_bool_decide; cbn in *; try lia; naive_solver.
Qed.

Lemma first_once (a b : bytes) : ((if bool_decide (a ≠ []) then 1 else 0) + (if bool_decide (a = [] ∧ b ≠ []) then 1 else 0) = if bool_decide (a ++ b = []) then 0 else 1)%nat.
Proof. destruct a as [|c a], b as [|d b]; repeat case_bool_decide; naive_solver. Qed.

(** The body is watched faithfully, however it arrives in chunks.  The first byte is noticed
    exactly once, if there is one; what is kept is the body's last [maxSniff] bytes and its
    length; and the attempt's error is set exactly when the last read failed, not by the
    caller's cancellation and not after the stream's terminal marker. *)
Theorem body_watched (ms : list bytes) (chunks : list bytes) (p : bytes) (err : read_err) :
  let body := mjoin chunks ++ p in
  let '(fs, s) := ReadAll chunks p err (NewBody ms) in
  length (filter (λ f, f = true) fs) = (if bool_decide (body = []) then 0 else 1)%nat ∧
  tail_ s = last_n maxSniff body ∧ total s = Z.of_nat (length body) ∧
  sawEnd s = seen (FeedAll (chunks ++ [p]) (NewScanner ms)) ∧
  aborted s = match err with EOF => None | ReadErr e => aborted_by (ReadFailed e (sawEnd s)) end.
Proof.
  cbn zeta. unfold ReadAll. assert (H0 : watched ms [] (NewBody ms)) by (by split).
  pose proof (watched_reads ms chunks [] (NewBody ms) [] H0) as H. destruct (foldl _ _ _) as [fs s]. destruct H as [Hw Hc].
  assert (Hlast : Read p (Some err) s = ((Read p None s).1, let s := (Read p None s).2 in match err with ReadErr e => if sawEnd s then s else if bool_decide (e = Canceled) then s
    else MkBody (sc s) (sawEnd s) (Some (default StreamAborted (aborted s))) (tail_ s) (total s) (onFirstByte s) | EOF => s end)).
  { unfold Read. destruct p; [by destruct err|]. destruct (Feed _ _). by destruct err. }
  rewrite Hlast. destruct (watched_read ms chunks s p Hw) as [[W1 W2 W3 W4 W5 W6] Hf]. set (s1 := (Read p None s).2) in *. clearbody s1. rewrite Hf. cbn zeta.
  assert (Hj : mjoin (chunks ++ [p]) = mjoin chunks ++ p) by (rewrite join_app; cbn; by rewrite app_nil_r). rewrite Hj in *.
  assert (Hsum : ∀ b : bool, length (filter (λ f, f = true) [b]) = if b then 1%nat else 0%nat) by (by intros []).
  split; [|rewrite W1 in W2; destruct err as [|e]; [by rewrite W6|destruct (sawEnd s1) eqn:E; [by rewrite W6, E|]; cbn [aborted_by orb]; destruct (bool_decide (e = Canceled)) eqn:Ec; cbn; rewrite ?E, ?W6, ?Ec; done]].
  rewrite filter_app, length_app, Hc, Hsum. rewrite <-first_once. f_equal. rewrite (bool_decide_ext (mjoin [] = [] ∧ mjoin chunks ≠ []) (mjoin chunks ≠ [])); [done|]. cbn. tauto.
Qed.

(** *** Where the usage is *)

Definition no_data (b : bytes) : Prop := after_last (lit "data: ") b = None.

Lemma after_last_suffix pat a b : after_last pat (a ++ b) = None → after_last pat b = None.
Proof. induction a as [|c a IH]; [done|]. cbn. destruct (after_last pat (a ++ b)); [done|]. auto. Qed.

Lemma data_last pre x : no_data x → after_last (lit "data: ") (pre ++ lit "data: " ++ x) = Some x.
Proof.
  intros Hx. induction pre as [|c pre IH]; [|cbn [app after_last]; by rewrite IH]. unfold no_data in Hx.
  change (lit "data: ") with [100; 97; 116; 97; 58; 32] in *. cbn [app after_last]. rewrite Hx. done.
Qed.

Lemma cut_at_app c l r : c ∉ l → cut_at c (l ++ c :: r) = Some (l, r).
Proof.
  induction l as [|x l IH]; cbn; [by rewrite Z.eqb_refl|]. rewrite elem_of_cons. intros H. destruct (Z.eqb_spec x c) as [->|_]; [tauto|]. by rewrite IH by tauto.
Qed.

Lemma last_n_length n (b : bytes) : length (last_n n b) = Nat.min n (length b).
Proof. unfold last_n. rewrite length_drop. lia. Qed.

Section usage.
Context (s : scanBody) (body : bytes) (Htail : tail_ s = last_n maxSniff body) (Htotal : total s = Z.of_nat (length body)).

(** The usage is read where it is.  Of a body whose last [data:] line begins within its last
    [maxSniff] bytes, what is read is that line's payload; of a body without one, all of it
    when that is not longer, and nothing otherwise. *)
Theorem usage_found :
  (∀ pre line rest, body = pre ++ lit "data: " ++ line ++ newline :: rest → newline ∉ line → no_data (line ++ newline :: rest) →
     (length (lit "data: " ++ line ++ newline :: rest) ≤ maxSniff)%nat → usage_span s = Some line) ∧
  (body ≠ [] → no_data body → usage_span s = if bool_decide (length body ≤ maxSniff)%nat then Some body else None).
Proof using Htail Htotal.
  unfold usage_span. rewrite Htail, Htotal. split.
  - intros pre line rest -> Hl Hn Hlen. set (x := line ++ newline :: rest) in *.
    assert (Hlast : last_n maxSniff (pre ++ lit "data: " ++ x) = last_n (maxSniff - length (lit "data: " ++ x)) pre ++ lit "data: " ++ x).
    { unfold last_n. rewrite (length_app pre). rewrite drop_app_le by lia. do 2 f_equal. lia. }
    rewrite Hlast. set (p' := last_n _ pre). clearbody p'. pose proof (data_last p' x Hn) as Hd.
    destruct (p' ++ lit "data: " ++ x) as [|c t] eqn:E; [by destruct p'|]. rewrite Hd. unfold x. by rewrite cut_at_app.
  - intros Hne Hn. pose proof (last_n_length maxSniff body) as Hlen. assert (Hno : no_data (last_n maxSniff body)).
    { unfold no_data, last_n. apply (after_last_suffix _ (take (length body - maxSniff) body)). by rewrite take_drop. }
    unfold no_data in Hno. case_bool_decide as Hb.
    + rewrite last_n_all in Hno |- * by done. destruct body as [|c t]; [done|]. rewrite Hno. by rewrite (proj2 (Z.ltb_ge _ _)) by lia.
    + destruct (last_n maxSniff body) as [|c t] eqn:E; [done|]. rewrite Hno. rewrite (proj2 (Z.ltb_lt _ _)); [done|]. lia.
Qed.
End usage.

(** An OpenAI stream ends in a [data:] line of its own, so its usage, which comes before, is
    never what is read. *)
Lemma stream_usage_missed pre usage : newline ∉ usage →
  usage_span (MkBody (NewScanner []) true None (pre ++ lit "data: " ++ usage ++ [newline; newline] ++ lit "data: [DONE]" ++ [newline; newline]) 0 false) = Some (lit "[DONE]").
Proof.
  intros _. unfold usage_span. cbn [tail_ total]. set (t := pre ++ _).
  assert (Ht : t = (pre ++ lit "data: " ++ usage ++ [newline; newline]) ++ lit "data: " ++ lit "[DONE]" ++ [newline; newline]) by (unfold t; rewrite <-!app_assoc; done).
  assert (Hd : after_last (lit "data: ") t = Some (lit "[DONE]" ++ [newline; newline])) by (rewrite Ht; by apply data_last).
  destruct t as [|c t'] eqn:E; [done|]. rewrite Hd. done.
Qed.

Definition wit_body : scanBody := (ReadAll [lit "data: {}"; [newline]] [newline] EOF (NewBody [])).2.
Lemma usage_found_witness : usage_span wit_body = Some (lit "{}").
Proof.
  apply (proj1 (usage_found wit_body (lit "data: {}" ++ [newline; newline]) ltac:(vm_compute; reflexivity) ltac:(vm_compute; reflexivity)) [] (lit "{}") [newline]).
  - reflexivity.
  - apply (bool_decide_unpack _). by vm_compute.
  - by vm_compute.
  - apply (bool_decide_unpack _). by vm_compute.
Defined.
