(* ===== verification/OpenAIDialect.v ===== *)
(** * OpenAIDialect: what the router reads of a request

    [src/router/internal/dialect/openai/openai.go], over the scanner of JsonScan.  A span is
    the bytes it covers, empty when the field is absent; the callbacks' variables are the
    accumulators of the walks.  The rendering of errors is the standard library's encoder and
    is left out. *)

From stdpp Require Import base list strings.
From Stdlib Require Import ZArith Lia.
From S2P Require Import Prelude KvUnits JsonScan Policy CapacityRetry Proxy StreamScan.
Open Scope Z_scope.

Record Route := MkRoute { Pattern : string; Class_ : string; Stream_ : bool }.
Definition ClassMessages : string := "messages".
Definition ClassCountTokens : string := "count_tokens".
Definition Routes : list Route :=
  [MkRoute "POST /v1/chat/completions" "chat" true;
   MkRoute "POST /v1/completions" "completions" true;
   MkRoute "POST /v1/embeddings" "embeddings" false;
   MkRoute "POST /v1/responses" "responses" true;
   MkRoute "POST /v1/rerank" "rerank" false;
   MkRoute "POST /rerank" "rerank" false;
   MkRoute "POST /generate" "generate" true;
   MkRoute "POST /inference/v1/generate" "generate" true;
   MkRoute "POST /v1/messages" ClassMessages true;
   MkRoute "POST /v1/messages/count_tokens" ClassCountTokens false;
   MkRoute "GET /v1/models" "models" false;
   MkRoute "GET /get_model_info" "models" false].

(** ** Introspection *)

Record Introspection := MkIntro { Model_ : bytes; Stream : bool }.

Definition intro_field (in_ : Introspection) (k v : bytes) : Introspection * bool :=
  (if bool_decide (k = lit "model") then match String_ v with Some s => MkIntro s (Stream in_) | None => in_ end
   else if bool_decide (k = lit "stream") then (let '(b, ok) := Bool_ v in if ok then MkIntro (Model_ in_) b else in_)
   else in_, true).
Definition Introspect (body : bytes) : Introspection :=
  match body with [] => MkIntro [] false | _ => (Fields intro_field (MkIntro [] false) body).1 end.

(** ** The prefix units of a request *)

Definition billingBlockBytes : nat := 200.

Record top := Top { messages : bytes; tools : bytes; systemSpan : bytes; promptSpan : bytes; inputSpan : bytes }.
Definition top_field (t : top) (k v : bytes) : top * bool :=
  (if bool_decide (k = lit "messages") then Top v (tools t) (systemSpan t) (promptSpan t) (inputSpan t)
   else if bool_decide (k = lit "tools") || bool_decide (k = lit "functions") then Top (messages t) v (systemSpan t) (promptSpan t) (inputSpan t)
   else if bool_decide (k = lit "system") then Top (messages t) (tools t) v (promptSpan t) (inputSpan t)
   else if bool_decide (k = lit "prompt") then Top (messages t) (tools t) (systemSpan t) v (inputSpan t)
   else if bool_decide (k = lit "input") then Top (messages t) (tools t) (systemSpan t) (promptSpan t) v
   else t, true).
Definition top_of (body : bytes) : top := (Fields top_field (Top [] [] [] [] []) body).1.

(** The text of a string, or the raw span. *)
Definition text_or_raw (v : bytes) : bytes := match String_ v with Some s => s | None => v end.

(** A message's role, empty when it is not a string, and content, [None] when absent. *)
Definition msg_field (m : bytes * option bytes) (k v : bytes) : (bytes * option bytes) * bool :=
  (if bool_decide (k = lit "role") then (default [] (String_ v), m.2)
   else if bool_decide (k = lit "content") then (m.1, Some (text_or_raw v))
   else m, true).

(** An element of [messages]: not an object, or a turn. *)
Inductive view := Bare (elem : bytes) | Turn (role content : bytes).
Definition view_of (elem : bytes) : view :=
  match Fields msg_field ([], None) elem with
  | ((role, content), Done) => Turn role (default elem content)
  | _ => Bare elem
  end.
Definition is_system (role : bytes) : bool := bool_decide (role = lit "system") || bool_decide (role = lit "developer").

(** What the walk over [messages] gathers: the units added on the way, the system turns, the
    rest. *)
Record gathered := Gathered { g_units : list Unit_; g_sys : list (bytes * bytes); g_rest : list (bytes * bytes) }.

Definition systemBlocks (span : bytes) : list bytes :=
  match span with
  | [] => []
  | _ => match String_ span with
         | Some s => [s]
         | None => match Array (λ acc e, (acc ++ [e], true)) [] span with (out, Done) => out | _ => [] end
         end
  end.

Section units.
Context (sha256 : bytes → bytes).

Definition add (tag content : bytes) : list Unit_ := ChunkContent sha256 tag content DefaultChunkBytes.

Definition gather (g : gathered) (elem : bytes) : gathered * bool :=
  (match view_of elem with
   | Bare e => Gathered (g_units g ++ add (lit "elem") e) (g_sys g) (g_rest g)
   | Turn role content =>
       if is_system role then Gathered (g_units g) (g_sys g ++ [(role, content)]) (g_rest g)
       else Gathered (g_units g) (g_sys g) (g_rest g ++ [(role, content)])
   end, true).

(** The blocks of the system field but for a short first one. *)
Definition kept_blocks (span : bytes) : list bytes :=
  match systemBlocks span with
  | b :: bs => if (length b <? billingBlockBytes)%nat then bs else b :: bs
  | [] => []
  end.

Definition turns_units (ts : list (bytes * bytes)) : list Unit_ := mjoin ((λ t, add t.1 t.2) <$> ts).

Definition chat_units (t : top) : list Unit_ :=
  let sys_blocks := mjoin (add (lit "system") <$> kept_blocks (systemSpan t)) in
  let g := (Array gather (Gathered sys_blocks [] []) (messages t)).1 in
  g_units g ++ turns_units (g_sys g) ++ (match tools t with [] => [] | ts => add (lit "tools") ts end) ++ turns_units (g_rest g).

Definition ExtractUnits (body : bytes) (class : string) (dst : list Unit_) : list Unit_ * bool :=
  match body with
  | [] => (dst, false)
  | _ =>
      if bool_decide (class = ClassCountTokens) then (dst, false)
      else
        let t := top_of body in
        let units :=
          match messages t, promptSpan t, inputSpan t with
          | _ :: _, _, _ => Some (chat_units t)
          | [], _ :: _, _ => Some (add (lit "prompt") (text_or_raw (promptSpan t)))
          | [], [], _ :: _ => Some (add (lit "input") (text_or_raw (inputSpan t)))
          | [], [], [] => None
          end in
        match units with
        | None | Some [] => (dst, false)
        | Some us => (dst ++ us, true)
        end
  end.
End units.

(** ** The response side *)

Definition NewStreamScanner : LineScanner := NewScanner [lit "data: [DONE]"; lit "event: message_stop"].

Definition typeForStatus (status : Z) : string :=
  if status =? 401 then "invalid_request_error"
  else if status =? 429 then "rate_limit_error"
  else if 500 <=? status then "api_error"
  else "invalid_request_error".

Record Usage := MkUsage { PromptTokens : Z; CachedTokens : Z; TotalTokens : Z }.

(** [x, _ = jsonscan.Int(v)]: a failure is zero... *)
Definition int_or_0 (v : bytes) : Z := default 0 (Int v).

Record usage_acc := UAcc { u_usage : Usage; inputTokens : Z; cacheCreate : Z; cacheRead : Z; anthropic : bool }.
Definition details_field (c : Z) (k v : bytes) : Z * bool := (if bool_decide (k = lit "cached_tokens") then int_or_0 v else c, true).
Definition usage_field (a : usage_acc) (k v : bytes) : usage_acc * bool :=
  let u := u_usage a in
  (if bool_decide (k = lit "prompt_tokens") then UAcc (MkUsage (int_or_0 v) (CachedTokens u) (TotalTokens u)) (inputTokens a) (cacheCreate a) (cacheRead a) (anthropic a)
   else if bool_decide (k = lit "total_tokens") then UAcc (MkUsage (PromptTokens u) (CachedTokens u) (int_or_0 v)) (inputTokens a) (cacheCreate a) (cacheRead a) (anthropic a)
   else if bool_decide (k = lit "prompt_tokens_details") then
     UAcc (MkUsage (PromptTokens u) (Fields details_field (CachedTokens u) v).1 (TotalTokens u)) (inputTokens a) (cacheCreate a) (cacheRead a) (anthropic a)
   else if bool_decide (k = lit "input_tokens") then UAcc u (int_or_0 v) (cacheCreate a) (cacheRead a) true
   else if bool_decide (k = lit "cache_creation_input_tokens") then UAcc u (inputTokens a) (int_or_0 v) (cacheRead a) true
   else if bool_decide (k = lit "cache_read_input_tokens") then UAcc u (inputTokens a) (cacheCreate a) (int_or_0 v) true
   else a, true).

Definition ExtractUsage (body : bytes) : Usage * bool :=
  let zero := UAcc (MkUsage 0 0 0) 0 0 0 false in
  let '(a, found) := (Fields (λ '(a, found) k v, if bool_decide (k = lit "usage") then (((Fields usage_field a v).1, true), false) else ((a, found), true)) (zero, false) body).1 in
  let u := u_usage a in
  (if anthropic a && (PromptTokens u =? 0)
   then MkUsage (i64 (i64 (inputTokens a + cacheCreate a) + cacheRead a)) (cacheRead a) (TotalTokens u) else u, found).

(** ** Reading an object *)

(** The text of an object. *)
Definition object_text (w : bytes) (ms : list member) (r : bytes) : bytes := w ++ c_lbrace :: commas (member_text <$> ms) ++ c_rbrace :: r.
Definition array_text (w : bytes) (es : list elt) (r : bytes) : bytes := w ++ c_lbrack :: commas (elt_text <$> es) ++ c_rbrack :: r.
(** Well-formed members, with the keys they spell. *)
Definition members_ok (ms : list member) (ks : list bytes) : Prop :=
  Forall ws_member ms ∧ (∀ m, m ∈ ms → val (e_val (m_val m))) ∧ Forall2 key_spells ms ks.
Definition elts_ok (es : list elt) : Prop := Forall ws_elt es ∧ ∀ e, e ∈ es → val (e_val e).
Definition fields_of (ms : list member) (ks : list bytes) : list (bytes * bytes) := zip ks ((λ m, e_val (m_val m)) <$> ms).

Section reading.
Context {A : Type}.

Lemma visit_all {B} (fn : A → B → A * bool) (xs : list B) : (∀ acc x, (fn acc x).2 = true) → ∀ acc, visit fn acc xs = (foldl (λ acc x, (fn acc x).1) acc xs, Done).
Proof.
  intros Hgo. induction xs as [|x xs IH]; intros acc; [done|]. cbn. pose proof (Hgo acc x) as H. destruct (fn acc x) as [acc' go]. cbn in H. by rewrite H, IH.
Qed.

Lemma Fields_all (fn : A → bytes → bytes → A * bool) w ms ks r : ws w → members_ok ms ks → (∀ acc k v, (fn acc k v).2 = true) →
  ∀ acc, Fields fn acc (object_text w ms r) = (foldl (λ acc kv, (fn acc kv.1 kv.2).1) acc (fields_of ms ks), Done).
Proof.
  intros Hw (H1 & H2 & H3) Hgo acc. unfold object_text, Fields. rewrite skipSpace_ws, skipSpace_solid by done. rewrite Z.eqb_refl.
  change (FL fn acc (commas (member_text <$> ms) ++ c_rbrace :: r) = (foldl (λ acc kv, (fn acc kv.1 kv.2).1) acc (fields_of ms ks), Done)).
  rewrite (FL_members fn ms ks r acc H1 H2); [|eapply Forall2_impl; [exact H3|]; intros; by apply key_spells_decode].
  rewrite visit_all by (intros acc0 [k v]; apply Hgo). unfold fields_of. f_equal. generalize (zip ks ((λ m, e_val (m_val m)) <$> ms)). intros kvs. clear.
  revert acc. induction kvs as [|[k v] kvs IH]; intros acc; [done|]. apply IH.
Qed.

Lemma Array_all (fn : A → bytes → A * bool) w es r : ws w → elts_ok es → (∀ acc e, (fn acc e).2 = true) →
  ∀ acc, Array fn acc (array_text w es r) = (foldl (λ acc e, (fn acc e).1) acc (e_val <$> es), Done).
Proof.
  intros Hw [H1 H2] Hgo acc. unfold array_text, Array. rewrite skipSpace_ws, skipSpace_solid by done. rewrite Z.eqb_refl.
  change (AL fn acc (commas (elt_text <$> es) ++ c_rbrack :: r) = (foldl (λ acc e, (fn acc e).1) acc (e_val <$> es), Done)).
  rewrite (AL_elts fn es r acc H1 H2). by apply visit_all.
Qed.
End reading.

(** The value of the last field a test picks, or nothing. *)
Definition last_of (P : bytes → bool) (kvs : list (bytes * bytes)) : option bytes := snd <$> last (filter (λ kv, P kv.1 = true) kvs).
Definition named (s : string) (k : bytes) : bool := bool_decide (k = lit s).

Lemma last_of_snoc P kvs k v : last_of P (kvs ++ [(k, v)]) = if P k then Some v else last_of P kvs.
Proof.
  unfold last_of. rewrite filter_app, filter_cons. cbn [fst]. destruct (P k).
  - rewrite decide_True by done. cbn. by rewrite last_snoc.
  - rewrite decide_False by done. cbn. by rewrite app_nil_r.
Qed.

Lemma top_fold kvs : let V P := default [] (last_of P kvs) in
  foldl (λ acc kv, (top_field acc kv.1 kv.2).1) (Top [] [] [] [] []) kvs =
  Top (V (named "messages")) (V (λ k, named "tools" k || named "functions" k)) (V (named "system")) (V (named "prompt")) (V (named "input")).
Proof.
  cbn zeta. induction kvs as [|[k v] kvs IH] using rev_ind; [done|]. rewrite foldl_snoc, IH, !last_of_snoc. unfold top_field, named. cbn [fst snd].
  repeat (case_bool_decide; subst; cbn [orb]; try done).
Qed.

(** The last string of that name, the last boolean. *)
Lemma intro_fold kvs :
  foldl (λ acc kv, (intro_field acc kv.1 kv.2).1) (MkIntro [] false) kvs =
  MkIntro (default [] (last (omap (λ kv, if named "model" kv.1 then String_ kv.2 else None) kvs)))
          (default false (last (omap (λ kv, if named "stream" kv.1 then (let '(b, ok) := Bool_ kv.2 in if ok then Some b else None) else None) kvs))).
Proof.
  induction kvs as [|[k v] kvs IH] using rev_ind; [done|]. rewrite foldl_snoc, IH, !omap_app, !last_app. unfold intro_field, named. cbn [fst snd omap list_omap].
  repeat (case_bool_decide; subst); try done.
  - destruct (String_ v); done.
  - destruct (Bool_ v) as [b []]; done.
Qed.

(** What the router reads of a body.  Of any well-formed JSON object, whatever its layout and
    the escapes in its keys, [Introspect] reads the last [model] that is a string and the last
    [stream] that is a boolean, and the spans the units are built from are the exact texts of
    the last fields of their names. *)
Theorem request_read (w r : bytes) (ms : list member) (ks : list bytes) (Hw : ws w) (Hms : members_ok ms ks) :
  let kvs := fields_of ms ks in
  let V P := default [] (last_of P kvs) in
  Introspect (object_text w ms r) =
    MkIntro (default [] (last (omap (λ kv, if named "model" kv.1 then String_ kv.2 else None) kvs)))
            (default false (last (omap (λ kv, if named "stream" kv.1 then (let '(b, ok) := Bool_ kv.2 in if ok then Some b else None) else None) kvs))) ∧
  top_of (object_text w ms r) =
    Top (V (named "messages")) (V (λ k, named "tools" k || named "functions" k)) (V (named "system")) (V (named "prompt")) (V (named "input")).
Proof.
  cbn zeta. split.
  - unfold Introspect. pose proof (Fields_all intro_field w ms ks r Hw Hms ltac:(done) (MkIntro [] false)) as Hf.
    destruct (object_text w ms r) as [|c b] eqn:E; [by destruct w|]. rewrite Hf. apply intro_fold.
  - unfold top_of. rewrite (Fields_all top_field w ms ks r Hw Hms) by done. apply top_fold.
Qed.

(** ** The units of a conversation *)

Section conversation.
Context (sha256 : bytes → bytes).

Definition bares (vs : list view) : list Unit_ := mjoin ((λ v, match v with Bare e => add sha256 (lit "elem") e | Turn _ _ => [] end) <$> vs).
Definition sys_turns (vs : list view) : list (bytes * bytes) := omap (λ v, match v with Turn r c => if is_system r then Some (r, c) else None | Bare _ => None end) vs.
Definition other_turns (vs : list view) : list (bytes * bytes) := omap (λ v, match v with Turn r c => if is_system r then None else Some (r, c) | Bare _ => None end) vs.

Lemma gather_fold es : ∀ g, foldl (λ acc e, (gather sha256 acc e).1) g es =
  Gathered (g_units g ++ bares (view_of <$> es)) (g_sys g ++ sys_turns (view_of <$> es)) (g_rest g ++ other_turns (view_of <$> es)).
Proof.
  induction es as [|e es IH]; intros g; cbn [foldl fmap list_fmap].
  - cbn. rewrite !app_nil_r. by destruct g.
  - rewrite IH. unfold gather. cbn [fst]. unfold bares, sys_turns, other_turns. cbn [fmap list_fmap mjoin list_join omap list_omap].
    destruct (view_of e) as [b|role content]; [|destruct (is_system role)]; cbn; rewrite <-?app_assoc; done.
Qed.

(** The units in order: the system field, the elements that are no turns, the system turns,
    the tools, the other turns. *)
Lemma chat_units_view t w es r : ws w → elts_ok es → messages t = array_text w es r →
  let vs := view_of <$> (e_val <$> es) in
  chat_units sha256 t = mjoin (add sha256 (lit "system") <$> kept_blocks (systemSpan t)) ++ bares vs ++ turns_units sha256 (sys_turns vs) ++
    (match tools t with [] => [] | ts => add sha256 (lit "tools") ts end) ++ turns_units sha256 (other_turns vs).
Proof.
  intros Hw He Hm. cbn zeta. unfold chat_units. rewrite Hm, (Array_all (gather sha256) w es r Hw He) by done. rewrite gather_fold. cbn [fst g_units g_sys g_rest app].
  by rewrite <-app_assoc.
Qed.

Lemma add_nonempty tag content : add sha256 tag content ≠ [].
Proof. unfold add, ChunkContent. cbn [Z.leb]. destruct content as [|c content]; [done|]. cbn. by rewrite decide_True by lia. Qed.

(** A body with messages. *)
Lemma extract_chat body class dst : body ≠ [] → class ≠ ClassCountTokens → messages (top_of body) ≠ [] →
  ExtractUnits sha256 body class dst = (match chat_units sha256 (top_of body) with [] => (dst, false) | us => (dst ++ us, true) end).
Proof.
  intros Hb Hc Hm. unfold ExtractUnits. destruct body; [done|]. rewrite bool_decide_false by done. cbn zeta. revert Hm. destruct (messages _); [done|intros _]. by destruct (chat_units _ _).
Qed.

Lemma sys_turns_app a b : sys_turns (a ++ b) = sys_turns a ++ sys_turns b.
Proof. apply omap_app. Qed.
Lemma other_turns_app a b : other_turns (a ++ b) = other_turns a ++ other_turns b.
Proof. apply omap_app. Qed.
Lemma bares_app a b : bares (a ++ b) = bares a ++ bares b.
Proof. unfold bares. by rewrite fmap_app, join_app. Qed.
Lemma turns_units_app a b : turns_units sha256 (a ++ b) = turns_units sha256 a ++ turns_units sha256 b.
Proof. unfold turns_units. by rewrite fmap_app, join_app. Qed.

Definition is_turn (v : view) : Prop := match v with Turn r _ => is_system r = false | Bare _ => False end.
Lemma turns_only vs : Forall is_turn vs → bares vs = [] ∧ sys_turns vs = [].
Proof.
  induction 1 as [|v vs Hv _ [IH1 IH2]]; [done|]. unfold bares, sys_turns in *. cbn. destruct v as [|role content]; [done|]. cbn in Hv. by rewrite Hv.
Qed.

(** C16: A conversation's next turn extends its prefix.  When the messages of a body go on from
    those of another with the same tools and system field, by turns that are not system ones,
    its units begin with the other's, so that whatever the prefix index knows of the
    conversation so far is found again. *)
Theorem next_turn_extends (body body' : bytes) (class : string) (w r w' r' : bytes) (es es' more : list elt) (us : list Unit_)
  (Hcl : class ≠ ClassCountTokens) (Hb : body ≠ []) (Hb' : body' ≠ [])
  (Hm : messages (top_of body) = array_text w es r) (Hm' : messages (top_of body') = array_text w' (es' ++ more) r')
  (Hsame : e_val <$> es' = e_val <$> es)
  (Hw : ws w ∧ elts_ok es) (Hw' : ws w' ∧ elts_ok (es' ++ more))
  (Htools : tools (top_of body') = tools (top_of body)) (Hsys : systemSpan (top_of body') = systemSpan (top_of body))
  (Hmore : Forall is_turn (view_of <$> (e_val <$> more)))
  (Hus : ExtractUnits sha256 body class [] = (us, true)) :
  ∃ rest, ExtractUnits sha256 body' class [] = (us ++ rest, true).
Proof.
  destruct Hw as [Hw He], Hw' as [Hw' He']. assert (Hne : ∀ w es r, array_text w es r ≠ []) by (intros w0 es0 r0 H; unfold array_text in H; by apply app_eq_nil in H as [_ ?]).
  assert (Hn : messages (top_of body) ≠ []) by (rewrite Hm; apply Hne). assert (Hn' : messages (top_of body') ≠ []) by (rewrite Hm'; apply Hne).
  rewrite (extract_chat body class [] Hb Hcl Hn) in Hus. rewrite (extract_chat body' class [] Hb' Hcl Hn').
  rewrite (chat_units_view (top_of body) w es r Hw He Hm) in Hus. rewrite (chat_units_view (top_of body') w' (es' ++ more) r' Hw' He' Hm').
  rewrite !fmap_app, Hsame, Htools, Hsys. set (vs := view_of <$> (e_val <$> es)) in *. set (vs' := view_of <$> (e_val <$> more)) in *.
  destruct (turns_only vs' Hmore) as [B1 B2]. rewrite bares_app, sys_turns_app, other_turns_app, B1, B2, !app_nil_r, turns_units_app.
  set (a := mjoin _) in *. set (t := match tools _ with [] => [] | _ => _ end) in *.
  assert (Heq : us = a ++ bares vs ++ turns_units sha256 (sys_turns vs) ++ t ++ turns_units sha256 (other_turns vs)).
  { destruct (a ++ _) as [|u x] eqn:E in Hus; [done|]. injection Hus as <-. by rewrite E. }
  exists (turns_units sha256 (other_turns vs')). assert (Hcat : a ++ bares vs ++ turns_units sha256 (sys_turns vs) ++ t ++ turns_units sha256 (other_turns vs) ++ turns_units sha256 (other_turns vs') = us ++ turns_units sha256 (other_turns vs')).
  { rewrite Heq, <-!app_assoc. done. }
  rewrite Hcat. destruct us as [|u us']; [|done]. by destruct (a ++ bares vs ++ _) in Hus.
Qed.

(** System messages anchor the prefix.  Only the order among the system and developer turns,
    and among the others, matters to a conversation's units: a client that moves its system
    messages about gets the same ones. *)
Theorem system_anchors (body body' : bytes) (class : string) (dst : list Unit_) (w r w' r' : bytes) (es es' : list elt)
  (Hb : body ≠ []) (Hb' : body' ≠ [])
  (Hm : messages (top_of body) = array_text w es r) (Hm' : messages (top_of body') = array_text w' es' r')
  (Hw : ws w ∧ elts_ok es) (Hw' : ws w' ∧ elts_ok es')
  (Htools : tools (top_of body') = tools (top_of body)) (Hsys : systemSpan (top_of body') = systemSpan (top_of body))
  (Hbare : bares (view_of <$> (e_val <$> es')) = bares (view_of <$> (e_val <$> es)))
  (Hst : sys_turns (view_of <$> (e_val <$> es')) = sys_turns (view_of <$> (e_val <$> es)))
  (Hot : other_turns (view_of <$> (e_val <$> es')) = other_turns (view_of <$> (e_val <$> es))) :
  ExtractUnits sha256 body' class dst = ExtractUnits sha256 body class dst.
Proof.
  destruct Hw as [Hw He], Hw' as [Hw' He']. destruct (decide (class = ClassCountTokens)) as [-> |Hcl].
  { unfold ExtractUnits. destruct body, body'; try done. }
  assert (Hne : ∀ w es r, array_text w es r ≠ []) by (intros w0 es0 r0 H; unfold array_text in H; by apply app_eq_nil in H as [_ ?]).
  assert (Hn : messages (top_of body) ≠ []) by (rewrite Hm; apply Hne). assert (Hn' : messages (top_of body') ≠ []) by (rewrite Hm'; apply Hne).
  rewrite (extract_chat body class dst Hb Hcl Hn), (extract_chat body' class dst Hb' Hcl Hn').
  rewrite (chat_units_view (top_of body) w es r Hw He Hm), (chat_units_view (top_of body') w' es' r' Hw' He' Hm'). cbn zeta.
  by rewrite Htools, Hsys, Hbare, Hst, Hot.
Qed.
End conversation.

(** ** Texts in the plainest layout *)

Definition raw (x : bytes) : bool := forallb (λ c, negb (c =? c_back) && negb (c =? c_quote)) x.
Definition quoted (s : string) : bytes := c_quote :: lit s ++ [c_quote].
Definition bare_elt (v : bytes) : elt := Elt [] v [].
Definition field (k : string) (v : bytes) : member := Member [] (lit k) [] (bare_elt v).
Definition object (ms : list member) : bytes := c_lbrace :: commas (member_text <$> ms) ++ [c_rbrace].
Definition array (vs : list bytes) : bytes := c_lbrack :: commas (elt_text <$> (bare_elt <$> vs)) ++ [c_rbrack].
Definition message (role content : string) : bytes := object [field "role" (quoted role); field "content" (quoted content)].

Lemma raw_inner x : raw x = true → str_inner x.
Proof.
  unfold raw. induction x as [|c x IH]; [constructor|]. cbn. rewrite !andb_true_iff, !negb_true_iff, !Z.eqb_neq. intros [[H1 H2] H3].
  constructor; [done|done|by apply IH].
Qed.
Lemma raw_spells x : raw x = true → ∃ es cs, Forall2 spells es cs ∧ x = mjoin es ∧ x = mjoin cs.
Proof.
  unfold raw. induction x as [|c x IH]; [exists [], []; by repeat constructor|]. cbn. rewrite !andb_true_iff, !negb_true_iff, !Z.eqb_neq. intros [[H1 H2] H3].
  destruct (IH H3) as (es & cs & Hs & He & Hc). exists ([c] :: es), ([c] :: cs). split_and!.
  - constructor; [by constructor|done].
  - change (c :: x = [c] ++ mjoin es). by rewrite <-He.
  - change (c :: x = [c] ++ mjoin cs). by rewrite <-Hc.
Qed.

Lemma fields_ok (kvs : list (string * bytes)) : forallb (λ kv, raw (lit kv.1)) kvs = true → (∀ kv, kv ∈ kvs → val kv.2) →
  members_ok ((λ kv, field kv.1 kv.2) <$> kvs) ((λ kv, lit kv.1) <$> kvs).
Proof.
  induction kvs as [|[k v] kvs IH]; cbn [fmap list_fmap forallb fst snd].
  - intros _ _. split_and!; [constructor| |constructor]. by intros ? ?%elem_of_nil.
  - rewrite andb_true_iff. intros [Hk Hr] Hv. destruct IH as (I1 & I2 & I3); [done|intros; apply Hv; by right|]. split_and!.
    + constructor; [|done]. unfold ws_member, ws_elt, ws. cbn. split_and!; try constructor. by apply raw_inner.
    + intros m [-> |Hm]%elem_of_cons; [|by apply I2]. cbn. apply (Hv (k, v)). by left.
    + constructor; [|done]. by apply raw_spells.
Qed.
Lemma quoted_val s : raw (lit s) = true → val (quoted s).
Proof. intros H. apply v_string. by apply raw_inner. Qed.
Lemma object_val kvs : kvs ≠ [] → forallb (λ kv, raw (lit kv.1)) kvs = true → (∀ kv, kv ∈ kvs → val kv.2) → val (object ((λ kv, field kv.1 kv.2) <$> kvs)).
Proof. intros Hn Hk Hv. destruct (fields_ok kvs Hk Hv) as (H1 & H2 & _). apply v_object; [by destruct kvs|done|done]. Qed.
Lemma bare_elts_ok vs : Forall val vs → elts_ok (bare_elt <$> vs).
Proof.
  intros H. split.
  - apply Forall_fmap, Forall_forall. intros v _. split; constructor.
  - intros e (v & -> & Hv)%list_elem_of_fmap. cbn. by eapply Forall_forall in H.
Qed.
Lemma array_val vs : vs ≠ [] → Forall val vs → val (array vs).
Proof. intros Hn [H1 H2]%bare_elts_ok. apply v_array; [by destruct vs|done|done]. Qed.
Lemma message_val role content : raw (lit role) = true → raw (lit content) = true → val (message role content).
Proof.
  intros H1 H2. apply (object_val [("role"%string, quoted role); ("content"%string, quoted content)]); [done|done|].
  intros kv. rewrite !elem_of_cons, elem_of_nil. intros [-> |[-> |[]]]; by apply quoted_val.
Qed.

Ltac msg_vals := repeat (apply Forall_cons; split; [by apply message_val|]); by apply Forall_nil.

(** [{"model":"m","stream":true,"messages":[...]}] *)
Definition sample_fields (vs : list bytes) : list (string * bytes) :=
  [("model"%string, quoted "m"); ("stream"%string, lit "true"); ("messages"%string, array vs)].
Definition sample (vs : list bytes) : bytes := object ((λ kv, field kv.1 kv.2) <$> sample_fields vs).

Lemma sample_ok vs : vs ≠ [] → Forall val vs → members_ok ((λ kv, field kv.1 kv.2) <$> sample_fields vs) ((λ kv, lit kv.1) <$> sample_fields vs).
Proof.
  intros Hn Hv. apply fields_ok; [done|]. intros kv. unfold sample_fields. rewrite !elem_of_cons, elem_of_nil. intros [-> |[-> |[-> |[]]]]; cbn [snd].
  - by apply quoted_val.
  - apply v_scalar; [done|]. by repeat constructor.
  - by apply array_val.
Qed.

Definition hello : list bytes := [message "system" "be brief"; message "user" "hello"].
Lemma hello_vals : Forall val hello.
Proof. msg_vals. Qed.

Lemma request_read_witness :
  Introspect (sample hello) = MkIntro (lit "m") true ∧ messages (top_of (sample hello)) = array hello.
Proof.
  destruct (request_read [] [] ((λ kv, field kv.1 kv.2) <$> sample_fields hello) ((λ kv, lit kv.1) <$> sample_fields hello)
    ltac:(constructor) (sample_ok hello ltac:(done) hello_vals)) as [H1 H2].
  split; [etransitivity; [exact H1|by vm_compute]|]. etransitivity; [exact (f_equal messages H2)|by vm_compute].
Defined.

Lemma next_turn_extends_witness :
  let more := [message "assistant" "hi"; message "user" "how are you?"] in
  ∃ us rest, ExtractUnits (λ b, b) (sample hello) "chat" [] = (us, true) ∧ ExtractUnits (λ b, b) (sample (hello ++ more)) "chat" [] = (us ++ rest, true) ∧
    length us = 2%nat ∧ length rest = 2%nat.
Proof.
  cbn zeta. set (more := [message "assistant" "hi"; message "user" "how are you?"]).
  assert (Hmv : Forall val more) by msg_vals.
  destruct (ExtractUnits (λ b, b) (sample hello) "chat" []) as [us ok] eqn:E. assert (ok = true) as -> by (revert E; vm_compute; congruence).
  destruct (next_turn_extends (λ b, b) (sample hello) (sample (hello ++ more)) "chat" [] [] [] [] (bare_elt <$> hello) (bare_elt <$> hello) (bare_elt <$> more) us) as [rest Hr].
  - discriminate.
  - discriminate.
  - discriminate.
  - vm_compute; reflexivity.
  - vm_compute; reflexivity.
  - reflexivity.
  - split; [constructor|]. apply bare_elts_ok, hello_vals.
  - split; [constructor|]. rewrite <-fmap_app. apply bare_elts_ok. apply Forall_app. split; [apply hello_vals|done].
  - vm_compute; reflexivity.
  - vm_compute; reflexivity.
  - vm_compute. repeat constructor.
  - exact E.
  - exists us, rest. split_and!; [done|done|..].
    + revert E. vm_compute. by intros [= <-].
    + revert E Hr. vm_compute. intros [= <-]. by intros [= <-].
Defined.

(** The system message moved to the end. *)
Lemma system_anchors_witness :
  ExtractUnits (λ b, b) (sample [message "user" "hello"; message "system" "be brief"]) "chat" [] = ExtractUnits (λ b, b) (sample hello) "chat" [] ∧
  ExtractUnits (λ b, b) (sample hello) "chat" [] ≠ ([], false).
Proof.
  split; [|by vm_compute].
  apply (system_anchors (λ b, b) (sample hello) (sample [message "user" "hello"; message "system" "be brief"]) "chat" [] [] [] [] []
    (bare_elt <$> hello) (bare_elt <$> [message "user" "hello"; message "system" "be brief"])).
  - discriminate.
  - discriminate.
  - vm_compute; reflexivity.
  - vm_compute; reflexivity.
  - split; [constructor|]. apply bare_elts_ok, hello_vals.
  - split; [constructor|]. apply bare_elts_ok. msg_vals.
  - vm_compute; reflexivity.
  - vm_compute; reflexivity.
  - vm_compute; reflexivity.
  - vm_compute; reflexivity.
  - vm_compute; reflexivity.
Defined.

(** The last event of a stream holds no usage: what follows the last [data: ] is [[DONE]]. *)
Example done_no_usage : (ExtractUsage (lit "[DONE]")).2 = false.
Proof. by vm_compute. Qed.
