(* ===== verification/GoText.v ===== *)
(** * GoText: byte strings as Go's [strings] and [path] treat them

    What the routing table and the inbound surface use of the standard library.  Text is a
    list of bytes; on ASCII text the definitions are exact, and what [strings] does to other
    text, which goes by the Unicode tables, is a record of functions the models are given. *)

From stdpp Require Import base list strings pretty.
From Stdlib Require Import ZArith Lia.
From S2P Require Import Prelude KvUnits StreamScan.
Open Scope Z_scope.

Definition ascii (s : bytes) : bool := forallb (λ c, (0 <=? c) && (c <? 128)) s.

Record Unicode := MkUnicode {
  u_ToLower : bytes → bytes;
  u_TrimSpace : bytes → bytes;
  u_EqualFold : bytes → bytes → bool;
}.

Definition lower (c : Z) : Z := if (65 <=? c) && (c <=? 90) then c + 32 else c.
Definition is_blank (c : Z) : bool := (c =? 32) || ((9 <=? c) && (c <=? 13)).

Fixpoint drop_blanks (s : bytes) : bytes := match s with c :: r => if is_blank c then drop_blanks r else s | [] => [] end.
Definition trim_blanks (s : bytes) : bytes := reverse (drop_blanks (reverse (drop_blanks s))).

Definition ToLower (u : Unicode) (s : bytes) : bytes := if ascii s then lower <$> s else u_ToLower u s.
Definition TrimSpace (u : Unicode) (s : bytes) : bytes := if ascii s then trim_blanks s else u_TrimSpace u s.
Definition EqualFold (u : Unicode) (s t : bytes) : bool :=
  if ascii s && ascii t then bool_decide (lower <$> s = lower <$> t) else u_EqualFold u s t.

Definition HasSuffix (s p : bytes) : bool := hasPrefix (reverse s) (reverse p).
Fixpoint Contains (s p : bytes) : bool := hasPrefix s p || match s with [] => false | _ :: r => Contains r p end.

(** [strings.Split] on one byte. *)
Fixpoint Split (c : Z) (s : bytes) : list bytes :=
  match s with
  | [] => [[]]
  | d :: r => if d =? c then [] :: Split c r
              else match Split c r with f :: fs => (d :: f) :: fs | [] => [[d]] end
  end.
Fixpoint drop_byte (c : Z) (s : bytes) : bytes := match s with d :: r => if d =? c then drop_byte c r else s | [] => [] end.
(** [strings.TrimRight] of one byte. *)
Definition TrimRight (c : Z) (s : bytes) : bytes := reverse (drop_byte c (reverse s)).

(** ** Paths *)

Definition slash : Z := 47.

(** [path.Clean] of a rooted path, by its segments. *)
Definition clean_step (acc : list bytes) (seg : bytes) : list bytes :=
  if bool_decide (seg = []) || bool_decide (seg = lit ".") then acc
  else if bool_decide (seg = lit "..") then removelast acc else acc ++ [seg].
Definition join_segments (segs : list bytes) : bytes := match segs with [] => [slash] | _ => mjoin ((λ s, slash :: s) <$> segs) end.
Definition path_Clean (p : bytes) : bytes := join_segments (foldl clean_step [] (Split slash p)).
(** [net/http]'s [cleanPath]. *)
Definition cleanPath (p : bytes) : bytes :=
  match p with
  | [] => [slash]
  | c :: _ => let p := if c =? slash then p else slash :: p in
              let np := path_Clean p in
              if HasSuffix p [slash] && negb (bool_decide (np = [slash])) then np ++ [slash] else np
  end.

(** ** What they mean *)

Lemma hasPrefix_app s p : hasPrefix s p = true ↔ ∃ r, s = p ++ r.
Proof.
  revert s. induction p as [|x p IH]; intros s.
  - cbn. split; [by exists s|]. by destruct s.
  - destruct s as [|c s]; cbn.
    + split; [done|]. by intros [r ?].
    + rewrite andb_true_iff, Z.eqb_eq, IH. split.
      * intros [-> [r ->]]. by exists r.
      * intros [r [= -> ->]]. split; [done|by exists r].
Qed.

Lemma HasSuffix_app s p : HasSuffix s p = true ↔ ∃ r, s = r ++ p.
Proof.
  unfold HasSuffix. rewrite hasPrefix_app. split; intros [r Hr].
  - exists (reverse r). apply (f_equal reverse) in Hr. by rewrite reverse_app, !reverse_involutive in Hr.
  - exists (reverse r). by rewrite Hr, reverse_app.
Qed.

Lemma Contains_spec s p : Contains s p = true ↔ ∃ a b, s = a ++ p ++ b.
Proof.
  induction s as [|c s IH]; cbn; rewrite orb_true_iff, hasPrefix_app.
  - split; [intros [[r Hr]|]; [by exists [], r|done]|]. intros (a & b & Hab). left. symmetry in Hab. apply app_eq_nil in Hab as [_ ->%eq_sym]. by exists b.
  - rewrite IH. split.
    + intros [[r Hr]|(a & b & ->)]; [by exists [], r|by exists (c :: a), b].
    + intros ([|x a] & b & Hab); [left; by exists b|]. cbn in Hab. injection Hab as -> ->. right. by exists a, b.
Qed.

Lemma lower_cases c : (65 ≤ c ≤ 90 ∧ lower c = c + 32) ∨ (¬ 65 ≤ c ≤ 90 ∧ lower c = c).
Proof. unfold lower. destruct (Z.leb_spec 65 c); [|right; cbn; lia]. destruct (Z.leb_spec c 90); [left|right]; cbn; lia. Qed.
Lemma lower_idem c : lower (lower c) = lower c.
Proof. destruct (lower_cases c) as [[? ->]|[? H]]; [|by rewrite !H]. destruct (lower_cases (c + 32)) as [[? ?]|[? ->]]; lia. Qed.
Lemma lower_ascii s : ascii s = true → ascii (lower <$> s) = true.
Proof.
  unfold ascii. rewrite !forallb_forall. intros H c Hc. apply list_elem_of_In, list_elem_of_fmap in Hc as (d & -> & Hd%list_elem_of_In). specialize (H d Hd).
  apply andb_true_iff in H as [?%Z.leb_le ?%Z.ltb_lt]. apply andb_true_iff. rewrite Z.leb_le, Z.ltb_lt. destruct (lower_cases d) as [[? ->]|[? ->]]; lia.
Qed.
Lemma ToLower_idem u s : ascii s = true → ToLower u (ToLower u s) = ToLower u s.
Proof.
  intros Ha. unfold ToLower. rewrite Ha, lower_ascii by done. rewrite <-list_fmap_compose. apply list_fmap_ext. intros i c _. apply lower_idem.
Qed.

Lemma Split_join c s : Split c s ≠ [] ∧ s = match Split c s with [] => [] | f :: fs => f ++ mjoin ((λ g, c :: g) <$> fs) end.
Proof.
  induction s as [|d s [IH1 IH2]]; cbn; [done|]. destruct (Z.eqb_spec d c) as [->|Hd].
  - split; [done|]. cbn. rewrite IH2 at 1. by destruct (Split c s).
  - destruct (Split c s) as [|f fs]; [done|]. split; [done|]. cbn. by rewrite IH2.
Qed.
Lemma Split_free c s f : f ∈ Split c s → c ∉ f.
Proof.
  revert f. induction s as [|d s IH]; intros f; cbn.
  - intros ->%list_elem_of_singleton. by intros ?%elem_of_nil.
  - destruct (Z.eqb_spec d c) as [->|Hd].
    + intros [-> |Hf]%elem_of_cons; [by intros ?%elem_of_nil|by apply IH].
    + destruct (Split c s) as [|g gs] eqn:E.
      * intros ->%list_elem_of_singleton. rewrite list_elem_of_singleton. congruence.
      * intros [-> |Hf]%elem_of_cons; [|apply IH; by right]. rewrite elem_of_cons. intros [->|Hc]; [done|]. by apply (IH g (list_elem_of_here _ _)).
Qed.

Lemma drop_blanks_head s c r : drop_blanks s = c :: r → is_blank c = false.
Proof. induction s as [|d s IH]; cbn; [done|]. destruct (is_blank d) eqn:E; [done|]. by intros [= -> _]. Qed.
Lemma drop_blanks_suffix s : ∃ p, s = p ++ drop_blanks s ∧ Forall (λ c, is_blank c = true) p.
Proof.
  induction s as [|d s (p & Hp & Hb)]; [by exists []|]. cbn. destruct (is_blank d) eqn:E; [|by exists []].
  exists (d :: p). split; [cbn; by rewrite <-Hp|by constructor].
Qed.
(** Trimming takes blanks off both ends and nothing else. *)
Lemma trim_blanks_spec s : ∃ p q, s = p ++ trim_blanks s ++ q ∧ Forall (λ c, is_blank c = true) p ∧ Forall (λ c, is_blank c = true) q ∧
  (∀ c, head (trim_blanks s) = Some c → is_blank c = false) ∧ (∀ c, last (trim_blanks s) = Some c → is_blank c = false).
Proof.
  unfold trim_blanks. destruct (drop_blanks_suffix s) as (p & Hp & Hbp). destruct (drop_blanks_suffix (reverse (drop_blanks s))) as (q & Hq & Hbq).
  set (t := drop_blanks (reverse (drop_blanks s))) in *. assert (Hd : drop_blanks s = reverse t ++ reverse q) by (rewrite <-(reverse_involutive (drop_blanks s)), Hq, reverse_app; done).
  exists p, (reverse q). split_and!.
  - by rewrite Hp at 1; rewrite Hd.
  - done.
  - by apply Forall_reverse.
  - intros c Hc. destruct (reverse t) as [|x r] eqn:E; [done|]. injection Hc as ->. by apply (drop_blanks_head s c (r ++ reverse q)).
  - intros c Hc. rewrite last_reverse in Hc. destruct t as [|x r] eqn:E; [done|]. injection Hc as ->. by apply (drop_blanks_head (reverse (drop_blanks s)) c r).
Qed.

(** ** Numbers in decimal *)

(** [strconv.Itoa]. *)
Definition Itoa (n : Z) : bytes := lit (pretty n).

Lemma lit_back s t : lit s = lit t → s = t.
Proof.
  unfold lit. intros H. apply list_fmap_eq_inj in H.
  - by rewrite <-(String.string_of_list_ascii_of_string s), <-(String.string_of_list_ascii_of_string t), H.
  - intros a b Hab. rewrite <-(Ascii.ascii_nat_embedding a), <-(Ascii.ascii_nat_embedding b). f_equal. lia.
Qed.
Lemma lit_cons c s : lit (String c s) = Z.of_nat (Ascii.nat_of_ascii c) :: lit s.
Proof. done. Qed.

Lemma digits_no_colon x s : 58 ∉ lit s → 58 ∉ lit (pretty_N_go x s).
Proof.
  revert s. induction (N.lt_wf_0 x) as [x _ IH]; intros s Hs. destruct (decide (x = 0%N)) as [->|]; [done|].
  rewrite pretty_N_go_step by lia. apply IH; [apply N.div_lt; lia|]. rewrite lit_cons. intros [Hc|?]%elem_of_cons; [|done].
  revert Hc. unfold pretty_N_char. by repeat case_match.
Qed.
Lemma Itoa_no_colon n : 58 ∉ Itoa n.
Proof.
  assert (Hp : ∀ p : positive, 58 ∉ lit (pretty_N_go (Npos p) "")) by (intros p; apply digits_no_colon; by intros ?%elem_of_nil).
  unfold Itoa, pretty, pretty_Z, pretty, pretty_positive, pretty, pretty_N. destruct n as [|p|p].
  - intros [|]%elem_of_cons; [done|]. by apply elem_of_nil in H.
  - rewrite decide_False by done. apply Hp.
  - rewrite decide_False by done. change (58 ∉ 45 :: lit (pretty_N_go (Npos p) "")). intros [|?]%elem_of_cons; [done|]. by apply (Hp p).
Qed.
Lemma Itoa_inj a b : Itoa a = Itoa b → a = b.
Proof. intros H%lit_back. by apply (inj pretty). Qed.

(** A part without the separator is read back, from the left and from the right. *)
Lemma split_left (x x' y y' : bytes) : 58 ∉ x → 58 ∉ x' → x ++ 58 :: y = x' ++ 58 :: y' → x = x' ∧ y = y'.
Proof.
  revert x'. induction x as [|a x IH]; intros [|a' x'] Hx Hx' H; cbn in H; simplify_eq; [done|..].
  - destruct Hx'. by left.
  - destruct Hx. by left.
  - destruct (IH x') as [-> ->]; [by intros ?; apply Hx; right|by intros ?; apply Hx'; right|done..].
Qed.
Lemma split_right (x x' y y' : bytes) : 58 ∉ y → 58 ∉ y' → x ++ 58 :: y = x' ++ 58 :: y' → x = x' ∧ y = y'.
Proof.
  intros Hy Hy' H. apply (f_equal reverse) in H. rewrite !reverse_app, !reverse_cons, <-!app_assoc in H. cbn in H.
  apply split_left in H as [H1 H2]; [|by rewrite elem_of_reverse..]. by split; apply (inj reverse).
Qed.

Definition is_digit (c : Z) : bool := (48 <=? c) && (c <=? 57).
(** The value of digits that follow a number. *)
Definition read_digits (acc : Z) (s : bytes) : Z := foldl (λ acc c, 10 * acc + (c - 48)) acc s.

Lemma pretty_digits x s : forallb is_digit (lit s) = true →
  forallb is_digit (lit (pretty_N_go x s)) = true ∧ read_digits 0 (lit (pretty_N_go x s)) = read_digits (Z.of_N x) (lit s).
Proof.
  revert s. induction (N.lt_wf_0 x) as [x _ IH]; intros s Hs. destruct (decide (x = 0%N)) as [->|]; [done|].
  rewrite pretty_N_go_step by lia. pose proof (N.mod_lt x 10 ltac:(done)) as Hm. pose proof (N.div_mod x 10 ltac:(done)) as Hd.
  set (r := (x mod 10)%N) in *. assert (Hc : Z.of_nat (Ascii.nat_of_ascii (pretty_N_char r)) = 48 + Z.of_N r).
  { assert (Hr : r = 0%N ∨ r = 1%N ∨ r = 2%N ∨ r = 3%N ∨ r = 4%N ∨ r = 5%N ∨ r = 6%N ∨ r = 7%N ∨ r = 8%N ∨ r = 9%N) by lia.
    destruct Hr as [-> | [-> | [-> | [-> | [-> | [-> | [-> | [-> | [-> | -> ]]]]]]]]]; reflexivity. }
  destruct (IH (x / 10)%N ltac:(apply N.div_lt; lia) (String (pretty_N_char r) s)) as [H1 H2].
  { rewrite lit_cons. cbn [forallb]. rewrite Hs, Hc. unfold is_digit. rewrite !(proj2 (Z.leb_le _ _)) by lia. done. }
  split; [done|]. rewrite H2, lit_cons. cbn [read_digits foldl]. rewrite Hc. unfold read_digits. f_equal. lia.
Qed.

Lemma Itoa_digits n : 0 ≤ n → forallb is_digit (Itoa n) = true ∧ Itoa n ≠ [] ∧ read_digits 0 (Itoa n) = n.
Proof.
  intros Hn. destruct n as [|p|p]; [done| |lia]. unfold Itoa. change (pretty (Zpos p)) with (pretty_N_go (Npos p) "").
  destruct (pretty_digits (Npos p) "" eq_refl) as [H1 H2]. split_and!; [done| |done].
  intros E. rewrite E in H2. done.
Qed.
