(* ===== verification/Routing.v ===== *)
(** * Routing: which pool serves a model

    [src/router/internal/routing/routing.go].  A pool's registry and flows are shared
    objects, named here by the pool; a rule's [AutoModel] is a pointer filled in later, so
    what it holds is read at each request. *)

From stdpp Require Import base gmap list strings.
From Stdlib Require Import ZArith Lia.
From S2P Require Import Prelude KvUnits StreamScan GoText.
Open Scope Z_scope.

(** What routing reads of [pool.Pool]. *)
Record Pool := MkPool {
  p_Name : bytes;
  p_Registry : positive;
  p_Flow : positive;
  p_Split : option positive;
  p_PD : option (list bytes);
  p_PDFlow : option positive;
}.

Record Rule := MkRule {
  Patterns : list bytes;
  rPool : option Pool;
  rRewriteModel : bytes;
  AutoModel : option (option bytes);     (* nil, or a pointer and what it points to now *)
  rStripAuth : bool;
  rCredential : bytes;
  rForward : bool;
  rTransparent : bool;
}.

Record Target := MkTarget {
  Name : bytes;
  Registry : positive;
  Selector : positive;
  RewriteModel : bytes;
  StripAuth : bool;
  tCredential : bytes;
  ForwardClientCredential : bool;
  Transparent : bool;
  tSplit : option positive;
  PD : option (list bytes);
  PrefillSelector : option positive;
}.

(** A nil [*affinity.Policy] stays a nil [Selector]. *)
Definition pdSelector (p : Pool) : option positive := p_PDFlow p.

(** The discovered model stands in when no rewrite is configured. *)
Definition rewrite_of (r : Rule) : bytes :=
  match rRewriteModel r with
  | [] => match AutoModel r with Some (Some m) => m | _ => [] end
  | m => m
  end.
Definition target (r : Rule) (p : Pool) : Target :=
  MkTarget (p_Name p) (p_Registry p) (p_Flow p) (rewrite_of r) (rStripAuth r) (rCredential r) (rForward r) (rTransparent r)
    (p_Split p) (p_PD p) (pdSelector p).

Record Table := MkTable { rules : list Rule; targets : list Target }.
Inductive table_error := ErrNoRules | ErrNoPool (patterns : list bytes).

(** [NewTable]'s loop: the names seen, the targets so far. *)
Definition add_rule (acc : (list bytes * list Target) + table_error) (r : Rule) : (list bytes * list Target) + table_error :=
  match acc with
  | inr e => inr e
  | inl (seen, ts) =>
      match rPool r with
      | None => inr (ErrNoPool (Patterns r))
      | Some p => if bool_decide (p_Name p ∈ seen) then inl (seen, ts) else inl (p_Name p :: seen, ts ++ [target r p])
      end
  end.
Definition NewTable (rs : list Rule) : Table + table_error :=
  match rs with
  | [] => inr ErrNoRules
  | _ => match foldl add_rule (inl ([], [])) rs with
         | inl (_, ts) => inl (MkTable rs ts)
         | inr e => inr e
         end
  end.

Section unicode.
Context (u : Unicode).

Definition matches (r : Rule) (model : bytes) : bool :=
  match Patterns r with
  | [] => true
  | ps => let low := ToLower u model in existsb (Contains low) ps
  end.

(** The first rule that matches. A nil pool would panic; [NewTable] has refused it. *)
Fixpoint route (rs : list Rule) (model : bytes) : option Target :=
  match rs with
  | [] => None
  | r :: rs => if matches r model then target r <$> rPool r else route rs model
  end.
Definition Route (t : Table) (model : bytes) : option Target := route (rules t) model.

Definition NormalizePatterns (raw : bytes) : list bytes :=
  let raw := TrimSpace u raw in
  if bool_decide (raw = []) || bool_decide (raw = lit "*") then []
  else filter (λ p, p ≠ []) ((λ p, ToLower u (TrimSpace u p)) <$> Split 44 raw).

(** ** Tables *)

Definition ok_rules (rs : list Rule) : Prop := Forall (λ r, rPool r ≠ None) rs.

Lemma add_rules rs : ∀ seen ts, ok_rules rs → NoDup (Name <$> ts) → (∀ n, n ∈ seen ↔ n ∈ Name <$> ts) →
  ∃ seen' ts', foldl add_rule (inl (seen, ts)) rs = inl (seen', ts') ∧ NoDup (Name <$> ts') ∧
    (∀ n, n ∈ Name <$> ts' ↔ n ∈ Name <$> ts ∨ ∃ r p, r ∈ rs ∧ rPool r = Some p ∧ p_Name p = n).
Proof.
  induction rs as [|r rs IH]; intros seen ts Hok Hnd Hseen.
  - exists seen, ts. split_and!; [done|done|]. intros n. split; [by left|]. intros [?|(r & p & Hr & _)]; [done|by apply elem_of_nil in Hr].
  - inversion Hok as [|? ? Hr Hrs]; subst. cbn [foldl]. unfold add_rule at 2. destruct (rPool r) as [p|] eqn:Ep; [|done].
    case_bool_decide as Hin.
    + destruct (IH seen ts Hrs Hnd Hseen) as (seen' & ts' & -> & Hnd' & Hn). exists seen', ts'. split_and!; [done|done|].
      intros n. rewrite Hn. split.
      * intros [?|(r' & p' & ? & ? & ?)]; [by left|]. right. exists r', p'. split_and!; [by right|done|done].
      * intros [?|(r' & p' & [-> |?]%elem_of_cons & ? & ?)]; [by left| |].
        -- left. apply Hseen. congruence.
        -- right. by exists r', p'.
    + destruct (IH (p_Name p :: seen) (ts ++ [target r p]) Hrs) as (seen' & ts' & -> & Hnd' & Hn).
      * rewrite fmap_app. apply NoDup_app. split_and!; [done| |cbn; apply NoDup_singleton].
        intros n Hn ->%list_elem_of_singleton. apply Hin. by apply Hseen.
      * intros n. rewrite fmap_app, elem_of_app, elem_of_cons, Hseen. cbn. rewrite list_elem_of_singleton. tauto.
      * exists seen', ts'. split_and!; [done|done|]. intros n. rewrite Hn, fmap_app, elem_of_app. cbn. rewrite list_elem_of_singleton. split.
        -- intros [[?| ->]|(r' & p' & ? & ? & ?)]; [by left| |].
           ++ right. exists r, p. split_and!; [by left|done|done].
           ++ right. exists r', p'. split_and!; [by right|done|done].
        -- intros [?|(r' & p' & [-> |?]%elem_of_cons & ? & ?)]; [by left; left| |].
           ++ left; right. congruence.
           ++ right. by exists r', p'.
Qed.

(** [NewTable] accepts exactly the non-empty rule sets whose rules all have a pool. *)
Lemma NewTable_ok rs : rs ≠ [] → ok_rules rs → ∃ ts, NewTable rs = inl (MkTable rs ts) ∧ NoDup (Name <$> ts) ∧
  ∀ n, n ∈ Name <$> ts ↔ ∃ r p, r ∈ rs ∧ rPool r = Some p ∧ p_Name p = n.
Proof.
  intros Hne Hok. destruct (add_rules rs [] [] Hok) as (seen & ts & He & Hnd & Hn); [constructor|by cbn|].
  exists ts. split_and!; [by destruct rs; [done|unfold NewTable; rewrite He]|done|].
  intros n. rewrite Hn. cbn. rewrite elem_of_nil. tauto.
Qed.

Lemma NewTable_rejects rs e : foldl add_rule (inr e) rs = inr e.
Proof. by induction rs. Qed.
Lemma NewTable_inv rs t : NewTable rs = inl t → rs ≠ [] ∧ ok_rules rs ∧ rules t = rs.
Proof.
  intros H. assert (Hne : rs ≠ []) by (by intros ->). split; [done|]. assert (Hf : ∃ acc, foldl add_rule (inl ([], [])) rs = inl acc ∧ rules t = rs).
  { unfold NewTable in H. destruct rs; [done|]. destruct (foldl _ _ _) as [[? ts]|]; [|done]. injection H as <-. by eexists. }
  destruct Hf as (acc & Hf & ->). split; [|done]. clear H Hne. revert Hf. generalize ([] : list bytes), ([] : list Target).
  induction rs as [|r rs IH]; intros seen ts Hf; [constructor|]. cbn [foldl] in Hf. unfold add_rule at 2 in Hf.
  destruct (rPool r) eqn:E; [|by rewrite NewTable_rejects in Hf]. constructor; [congruence|]. case_bool_decide; by eapply IH.
Qed.

Lemma added_from (all rs : list Rule) : ∀ seen ts seen' ts', (∀ r, r ∈ rs → r ∈ all) → foldl add_rule (inl (seen, ts)) rs = inl (seen', ts') →
  (∀ t, t ∈ ts → ∃ r p, r ∈ all ∧ rPool r = Some p ∧ t = target r p) → ∀ t, t ∈ ts' → ∃ r p, r ∈ all ∧ rPool r = Some p ∧ t = target r p.
Proof.
  induction rs as [|r rs IH]; intros seen ts seen' ts' Hall; cbn [foldl]; [by intros [= _ <-]|]. unfold add_rule at 2. destruct (rPool r) as [p|] eqn:Ep; [|by rewrite NewTable_rejects].
  assert (Hall' : ∀ r', r' ∈ rs → r' ∈ all) by (intros; apply Hall; by right).
  case_bool_decide; intros Hf Hts; [by eapply (IH _ _ _ _ Hall')|]. eapply (IH _ _ _ _ Hall'); [done|].
  intros t [?|Ht%list_elem_of_singleton]%elem_of_app; [by apply Hts|]. exists r, p. split_and!; [apply Hall; by left|done|done].
Qed.

(** A target of the listing is what one of the rules makes of its pool. *)
Lemma targets_from rs tb t : NewTable rs = inl tb → t ∈ targets tb → ∃ r p, r ∈ rs ∧ rPool r = Some p ∧ t = target r p.
Proof.
  unfold NewTable. destruct rs as [|r0 rs0] eqn:E; [done|]. rewrite <-E. destruct (foldl _ _ _) as [[seen ts]|] eqn:Hf; [|done]. intros [= <-]. cbn [targets].
  eapply added_from; [|exact Hf|]; [done|]. by intros ? ?%elem_of_nil.
Qed.

(** ** Which rule answers *)

(** A rule claims a model whose name contains one of its patterns, or any model when it has
    none. *)
Definition claims (r : Rule) (model : bytes) : Prop :=
  Patterns r = [] ∨ ∃ p a b, p ∈ Patterns r ∧ ToLower u model = a ++ p ++ b.

Lemma matches_claims r model : matches r model = true ↔ claims r model.
Proof.
  unfold matches, claims. destruct (Patterns r) as [|p ps] eqn:E; [split; [by left|done]|]. cbn zeta. rewrite existsb_exists. split.
  - intros (q & Hq%list_elem_of_In & (a & b & Hc)%Contains_spec). right. exists q, a, b. done.
  - intros [?|(q & a & b & Hq & Hc)]; [done|]. exists q. split; [by apply list_elem_of_In|]. apply Contains_spec. by exists a, b.
Qed.

Lemma route_first rs model tg : ok_rules rs → route rs model = Some tg ↔
  ∃ pre r post p, rs = pre ++ r :: post ∧ claims r model ∧ rPool r = Some p ∧ tg = target r p ∧ Forall (λ r', ¬ claims r' model) pre.
Proof.
  induction rs as [|r rs IH]; intros Hok; cbn [route].
  - split; [done|]. intros ([|] & ? & ? & ? & ? & _); done.
  - inversion Hok as [|? ? Hr Hrs]; subst. destruct (matches r model) eqn:E.
    + apply matches_claims in E. destruct (rPool r) as [p|] eqn:Ep; [|done]. cbn. split.
      * intros [= <-]. exists [], r, rs, p. done.
      * intros (pre & r' & post & p' & Heq & Hc & Hp & -> & Hpre). destruct pre as [|x pre]; cbn in Heq; injection Heq as <- ->; [congruence|]. inversion Hpre. done.
    + assert (Hn : ¬ claims r model) by (rewrite <-matches_claims; congruence). rewrite IH by done. split.
      * intros (pre & r' & post & p' & -> & ? & ? & ? & ?). exists (r :: pre), r', post, p'. split_and!; try done. by constructor.
      * intros (pre & r' & post & p' & Heq & Hc & Hp & ? & Hpre). destruct pre as [|x pre]; cbn in Heq; injection Heq as <- ->; [done|].
        inversion Hpre; subst. by exists pre, r', post, p'.
Qed.

(** Requests go where the rules say.  [NewTable] takes any non-empty rules that all name a
    pool, and nothing else; the table then sends a model to the pool of the first rule that
    claims it, under that rule's rewrite and credentials, and to none when no rule does. Its
    listing holds every pool name of the rules once, the answer's among them. *)
Theorem first_match_routes (rs : list Rule) (model : bytes) (t : Table) (Ht : NewTable rs = inl t) :
  rs ≠ [] ∧ ok_rules rs ∧ NoDup (Name <$> targets t) ∧
  (∀ tg, Route t model = Some tg ↔
     ∃ pre r post p, rs = pre ++ r :: post ∧ claims r model ∧ rPool r = Some p ∧ tg = target r p ∧ Forall (λ r', ¬ claims r' model) pre) ∧
  (∀ tg, Route t model = Some tg → Name tg ∈ Name <$> targets t) ∧
  (Route t model = None ↔ Forall (λ r, ¬ claims r model) rs).
Proof.
  destruct (NewTable_inv rs t Ht) as (Hne & Hok & Hr). destruct (NewTable_ok rs Hne Hok) as (ts & Ht' & Hnd & Hn). rewrite Ht in Ht'. injection Ht' as ->. cbn [rules targets] in *.
  assert (Hfirst : ∀ tg, Route (MkTable rs ts) model = Some tg ↔
     ∃ pre r post p, rs = pre ++ r :: post ∧ claims r model ∧ rPool r = Some p ∧ tg = target r p ∧ Forall (λ r', ¬ claims r' model) pre)
    by (intros tg; apply route_first; done).
  split_and!; try done.
  - intros tg (pre & r & post & p & -> & _ & Hp & -> & _)%Hfirst. apply Hn. exists r, p. split_and!; [|done|done].
    apply elem_of_app. right. by left.
  - unfold Route. cbn [rules]. clear -Hok. induction rs as [|r rs IH]; cbn [route]; [split; [constructor|done]|]. inversion Hok as [|? ? Hr Hrs]; subst.
    destruct (matches r model) eqn:E.
    + split; [by destruct (rPool r)|]. intros Hf. inversion Hf as [|? ? Hc]; subst. by apply matches_claims in E.
    + rewrite IH by done. split; [|by inversion 1]. intros Hf. constructor; [|done]. rewrite <-matches_claims. congruence.
Qed.

(** ** Patterns *)

Lemma ascii_app a b : ascii (a ++ b) = ascii a && ascii b.
Proof. apply forallb_app. Qed.
Lemma ascii_sub a b c : ascii (a ++ b ++ c) = true → ascii b = true.
Proof. rewrite !ascii_app, !andb_true_iff. tauto. Qed.
Lemma trim_ascii s : ascii s = true → ascii (trim_blanks s) = true.
Proof. intros H. destruct (trim_blanks_spec s) as (p & q & Hs & _). rewrite Hs in H. by apply ascii_sub in H. Qed.
Lemma Split_ascii c s f : ascii s = true → f ∈ Split c s → ascii f = true.
Proof.
  revert f. induction s as [|d s IH]; intros f; cbn; [by intros _ ->%list_elem_of_singleton|]. rewrite andb_true_iff. intros [Hd Hs].
  destruct (d =? c); [intros [-> |?]%elem_of_cons; [done|by apply IH]|]. destruct (Split c s) as [|g gs] eqn:E; [by intros ->%list_elem_of_singleton; cbn; rewrite Hd|].
  intros [-> |?]%elem_of_cons; [|by apply IH; [|right]]. cbn. rewrite Hd. cbn. apply IH; [done|by left].
Qed.

Lemma lower_blank c : is_blank (lower c) = is_blank c.
Proof.
  unfold is_blank. destruct (lower_cases c) as [[? ->]|[? ->]]; [|done].
  rewrite (proj2 (Z.eqb_neq (c + 32) 32)), (proj2 (Z.eqb_neq c 32)) by lia. cbn. rewrite (proj2 (Z.leb_gt (c + 32) 13)), (proj2 (Z.leb_gt c 13)) by lia. by rewrite !andb_false_r.
Qed.

(** A rule's patterns as they are configured: of an ASCII list, the pieces between commas,
    trimmed and lowercased, but for the empty ones. None holds a comma or an upper-case letter
    or is blank at an end. *)
Lemma patterns_normal (raw : bytes) (Ha : ascii raw = true) (p : bytes) : p ∈ NormalizePatterns raw →
  p ≠ [] ∧ ToLower u p = p ∧ (44 : Z) ∉ p ∧ (∀ c, head p = Some c → is_blank c = false) ∧ (∀ c, last p = Some c → is_blank c = false) ∧
  ∃ f, f ∈ Split 44 (trim_blanks raw) ∧ p = lower <$> trim_blanks f.
Proof.
  unfold NormalizePatterns. assert (Ht : TrimSpace u raw = trim_blanks raw) by (unfold TrimSpace; by rewrite Ha). rewrite Ht. cbn zeta.
  destruct (_ || _); [by intros ?%elem_of_nil|]. intros [Hne (f & Hpf & Hf)%list_elem_of_fmap]%list_elem_of_filter.
  pose proof (Split_ascii _ _ _ (trim_ascii raw Ha) Hf) as Hfa.
  assert (Hp : p = lower <$> trim_blanks f) by (rewrite Hpf; unfold TrimSpace; rewrite Hfa; unfold ToLower; by rewrite trim_ascii).
  destruct (trim_blanks_spec f) as (x & y & Hf' & _ & _ & Hh & Hl). split_and!.
  - done.
  - assert (Hl' : lower <$> trim_blanks f = ToLower u (trim_blanks f)) by (unfold ToLower; by rewrite trim_ascii).
    rewrite Hp, Hl'. apply ToLower_idem. by apply trim_ascii.
  - rewrite Hp. intros (d & Hd & Hin)%list_elem_of_fmap. apply (Split_free 44 (trim_blanks raw) f Hf). rewrite Hf', !elem_of_app. right; left.
    destruct (lower_cases d) as [[? E]|[? E]]; rewrite E in Hd; [lia|by subst].
  - rewrite Hp. intros c Hc. destruct (trim_blanks f) as [|d t]; [done|]. injection Hc as <-. rewrite lower_blank. by apply Hh.
  - rewrite Hp. intros c Hc. rewrite fmap_last in Hc. apply fmap_Some in Hc as (d & Hd & ->). rewrite lower_blank. by apply Hl.
  - by exists f.
Qed.

(** The case of a model's name does not matter. *)
Lemma matches_case r model : ascii model = true → matches r (ToLower u model) = matches r model.
Proof. intros Ha. unfold matches. by rewrite ToLower_idem. Qed.
End unicode.

(** ** Witnesses *)

Module RoutingEx.
Definition u : Unicode := MkUnicode (λ s, s) (λ s, s) (λ s t, bool_decide (s = t)).
Definition pool (n : string) (i : positive) : Pool := MkPool (lit n) i i None None None.
Definition rule (ps : string) (n : string) (i : positive) (as_ : string) : Rule :=
  MkRule (NormalizePatterns u (lit ps)) (Some (pool n i)) (lit as_) None false [] false false.
Definition rs : list Rule := [rule "Claude, opus" "hosted" 1 ""; rule "llama" "fleet" 2 "meta-llama"; rule "*" "fleet" 2 ""].
Definition t : Table := match NewTable rs with inl t => t | inr _ => MkTable [] [] end.
End RoutingEx.

Lemma first_match_routes_witness :
  NewTable RoutingEx.rs = inl RoutingEx.t ∧ NoDup (Name <$> targets RoutingEx.t) ∧
  RewriteModel <$> Route RoutingEx.u RoutingEx.t (lit "Llama-3") = Some (lit "meta-llama").
Proof.
  destruct (first_match_routes RoutingEx.u RoutingEx.rs (lit "Llama-3") RoutingEx.t) as (_ & _ & Hnd & _); [by vm_compute|]. split_and!; [by vm_compute|done|by vm_compute].
Defined.
