(* ===== verification/Health.v ===== *)
(** * Health: active health checks

    [src/router/internal/health/health.go].  The checker keeps a streak and the time of the
    last probe per URL; the backends are those of the registry's store.  The probes of a
    round run together and their results arrive in some order, which is an argument of
    [Round]; a probe's request is I/O and is its answer here.  The gauges published at the
    end of a round are metrics. *)

From stdpp Require Import base gmap list strings.
From Stdlib Require Import ZArith Lia.
From S2P Require Import Prelude Circuit WaitQ Backend.
Open Scope Z_scope.

Record Config := MkConfig {
  Interval : Z;
  UnhealthyInterval : Z;
  FailureThreshold : Z;
  SuccessThreshold : Z;
  Concurrency : Z;
}.
Definition DefaultConfig : Config := MkConfig (15 * second) second 3 2 0.

Record Checker := MkChecker {
  hcfg : Config;
  streaks : gmap string Z;     (* >0 consecutive successes, <0 consecutive failures *)
  lastProbe : gmap string Z;
}.

Definition New (c : Config) : Checker :=
  let ft := if FailureThreshold c <? 1 then 1 else FailureThreshold c in
  let st := if SuccessThreshold c <? 1 then 1 else SuccessThreshold c in
  let ui := if (UnhealthyInterval c <=? 0) || (Interval c <? UnhealthyInterval c) then Z.min second (Interval c) else UnhealthyInterval c in
  MkChecker (MkConfig (Interval c) ui ft st (Concurrency c)) ∅ ∅.

Definition set_last (url : string) (now : Z) (c : Checker) : Checker := MkChecker (hcfg c) (streaks c) (<[url := now]> (lastProbe c)).
Definition set_streak (url : string) (s : Z) (c : Checker) : Checker := MkChecker (hcfg c) (<[url := s]> (streaks c)) (lastProbe c).

Definition due (b : Backend) (now : Z) (c : Checker) : bool * Checker :=
  match lastProbe c !! URL b with
  | None => (true, set_last (URL b) now c)
  | Some last =>
      let every := if bool_decide (health b = Healthy) then Interval (hcfg c) else UnhealthyInterval (hcfg c) in
      if now - last <? every then (false, c) else (true, set_last (URL b) now c)
  end.

(** The next streak. *)
Definition step_streak (s : Z) (ok : bool) : Z :=
  if ok then i64 ((if s <? 0 then 0 else s) + 1) else i64 ((if 0 <? s then 0 else s) - 1).
(** The switch of [observe]. *)
Definition judge (c : Config) (s : Z) (ok : bool) (h : Health) : Health :=
  if ok && (SuccessThreshold c <=? s) && negb (bool_decide (h = Healthy)) then Healthy
  else if negb ok && (FailureThreshold c <=? i64 (- s)) && negb (bool_decide (h = Unhealthy)) then Unhealthy
  else h.

Definition observe (l : positive) (ok : bool) (w : Checker * gmap positive Backend) : Checker * gmap positive Backend :=
  let '(c, st) := w in
  let b := st !!! l in
  let s := step_streak (default 0 (streaks c !! URL b)) ok in
  (set_streak (URL b) s c, alter (SetHealth (judge (hcfg c) s ok (health b))) l st).

Definition is_active (b : Backend) : bool := match HealthMod b with HealthActive => true | HealthPassive => false end.
(** Who is probed this round. *)
Definition pick_due (now : Z) (st : gmap positive Backend) (acc : list positive * Checker) (l : positive) : list positive * Checker :=
  let '(ts, c) := acc in
  if is_active (st !!! l) then (let '(d, c) := due (st !!! l) now c in (if d then ts ++ [l] else ts, c)) else (ts, c).
Definition due_targets (now : Z) (st : gmap positive Backend) (snap : list positive) (c : Checker) : list positive * Checker :=
  foldl (pick_due now st) ([], c) snap.

(** [limit] bounds the probes that run at once. *)
Definition limit_of (c : Config) (targets : Z) : Z :=
  if Concurrency c <=? 0 then Z.min 256 (Z.max 32 targets) else Concurrency c.

(** [probe] is what each answers, [order] the order of the answers. *)
Definition Round (now : Z) (snap : list positive) (probe : positive → bool) (order : list positive → list positive) (w : Checker * gmap positive Backend) : Checker * gmap positive Backend :=
  let '(ts, c) := due_targets now w.2 snap w.1 in
  foldl (λ w l, observe l (probe l) w) (c, w.2) (order ts).

(** ** Runs of equal results *)

Definition has_run (v : bool) (m : nat) (l : list bool) : Prop := ∃ a b, l = a ++ replicate m v ++ b.
Definition ends_in (v : bool) (m : nat) (l : list bool) : Prop := ∃ a, l = a ++ replicate m v.

Lemma ends_in_snoc v m l x : ends_in v (S m) (l ++ [x]) ↔ x = v ∧ ends_in v m l.
Proof.
  unfold ends_in. split.
  - intros [a Ha]. rewrite replicate_S_end, app_assoc in Ha. apply app_inj_2 in Ha as [-> [= ->]]; [|done]. split; [done|by exists a].
  - intros [-> [a ->]]. exists a. by rewrite replicate_S_end, app_assoc.
Qed.
Lemma ends_in_le v m n l : (n ≤ m)%nat → ends_in v m l → ends_in v n l.
Proof. intros Hle [a ->]. exists (a ++ replicate (m - n) v). rewrite <-app_assoc, <-replicate_add. repeat f_equal. lia. Qed.
Lemma ends_in_has v m l : ends_in v m l → has_run v m l.
Proof. intros [a ->]. exists a, []. by rewrite app_nil_r. Qed.
Lemma has_run_snoc v m l x : has_run v m (l ++ [x]) ↔ has_run v m l ∨ ends_in v m (l ++ [x]).
Proof.
  split.
  - intros (a & b & Hab). destruct b as [|y b _] using rev_ind.
    + right. exists a. by rewrite app_nil_r in Hab.
    + left. rewrite !app_assoc in Hab. apply app_inj_2 in Hab as [-> _]; [|done]. exists a, b. by rewrite app_assoc.
  - intros [(a & b & ->)|?]; [|by apply ends_in_has]. exists a, (b ++ [x]). by rewrite <-!app_assoc.
Qed.

(** The last verdict that had its number of results in a row was for [v]. *)
Definition settled (v : bool) (n m : nat) (l : list bool) : Prop := ∃ pre post, l = pre ++ replicate n v ++ post ∧ ¬ has_run (negb v) m post.

Lemma settled_same v n m l : (0 < m)%nat → settled v n m (l ++ [v]) ↔ ends_in v n (l ++ [v]) ∨ settled v n m l.
Proof.
  intros Hm. split.
  - intros (pre & post & Heq & Hno). destruct post as [|y post _] using rev_ind.
    + left. exists pre. by rewrite app_nil_r in Heq.
    + right. rewrite !app_assoc in Heq. apply app_inj_2 in Heq as [-> [= ->]]; [|done]. exists pre, post. rewrite app_assoc. split; [done|].
      intros H. apply Hno, has_run_snoc. by left.
  - intros [[a ->]|(pre & post & -> & Hno)].
    + exists a, []. split; [by rewrite app_nil_r|]. intros (x & y & H). symmetry in H. apply app_eq_nil in H as [_ H]. by destruct m; [lia|].
    + exists pre, (post ++ [v]). split; [by rewrite <-!app_assoc|]. intros [?|H]%has_run_snoc; [done|]. destruct m as [|m]; [lia|]. apply ends_in_snoc in H as [H _]. by destruct v.
Qed.
Lemma settled_other v n m l : (0 < n)%nat → settled v n m (l ++ [negb v]) ↔ settled v n m l ∧ ¬ ends_in (negb v) m (l ++ [negb v]).
Proof.
  intros Hn. split.
  - intros (pre & post & Heq & Hno). destruct post as [|y post _] using rev_ind.
    { rewrite app_nil_r in Heq. destruct n as [|n]; [lia|]. rewrite replicate_S_end, app_assoc in Heq. apply app_inj_2 in Heq as [_ [= H]]; [|done]. by destruct v. }
    rewrite !app_assoc in Heq. apply app_inj_2 in Heq as [-> [= <-]]; [|done]. rewrite has_run_snoc in Hno. split.
    + exists pre, post. rewrite app_assoc. split; [done|tauto].
    + intros [a Ha]. apply Hno. clear Hno. right.
      (* the falses at the end lie after the run of trues *)
      revert a post Ha. induction m as [|m IH]; intros a post Ha; [exists (post ++ [negb v]); by rewrite app_nil_r|].
      rewrite replicate_S_end, app_assoc in Ha. apply app_inj_2 in Ha as [Ha _]; [|done]. apply ends_in_snoc. split; [done|].
      destruct m as [|m]; [exists post; by rewrite app_nil_r|]. destruct post as [|y post _] using rev_ind.
      * exfalso. rewrite app_nil_r in Ha. destruct n as [|n]; [lia|]. rewrite !replicate_S_end, !app_assoc in Ha. apply app_inj_2 in Ha as [_ [= H]]; [|done]. by destruct v.
      * assert (y = negb v) as ->. { rewrite replicate_S_end, !app_assoc in Ha. by apply app_inj_2 in Ha as [_ [= ->]]. }
        apply (IH a). by rewrite <-Ha, !app_assoc.
  - intros [(pre & post & -> & Hno) Hend]. exists pre, (post ++ [negb v]). split; [by rewrite <-!app_assoc|]. rewrite has_run_snoc. intros [?|[a Ha]]; [done|].
    apply Hend. exists (pre ++ replicate n v ++ a). rewrite <-!app_assoc, Ha. done.
Qed.

(** ** One backend's history *)

(** What [observe] does to one backend: its streak and its health. *)
Definition obs1 (c : Config) (sh : Z * Health) (ok : bool) : Z * Health :=
  let s := step_streak sh.1 ok in (s, judge c s ok sh.2).
Definition history (c : Config) (l : list bool) : Z * Health := foldl (obs1 c) (0, Unknown) l.

(** The streak counts the results in a row at the end. *)
Definition streak_of (l : list bool) (s : Z) : Prop :=
  (l = [] → s = 0) ∧ (∀ v k, last l = Some v → (ends_in v k l ↔ Z.of_nat k ≤ if v then s else - s)) ∧ (∀ v, last l = Some v → if v then 1 ≤ s else s ≤ -1) ∧
  Z.abs s ≤ Z.of_nat (length l).

Lemma ends_in_flip v k l : last l = Some (negb v) → ends_in v (S k) l → False.
Proof. intros Hl [a ->]. rewrite replicate_S_end, app_assoc, last_snoc in Hl. injection Hl as Hl. by destruct v. Qed.

Lemma streak_step l s ok : Z.of_nat (length l) < two63 - 1 → streak_of l s → streak_of (l ++ [ok]) (step_streak s ok).
Proof.
  intros Hb (H0 & Hk & Hs & Ha). pose proof (last_Some_elem_of l) as _. unfold two63 in Hb.
  assert (Hstep : step_streak s ok = if ok then Z.max s 0 + 1 else Z.min s 0 - 1).
  { unfold step_streak. destruct ok; [destruct (Z.ltb_spec s 0)|destruct (Z.ltb_spec 0 s)]; rewrite i64_id by (unfold two63; lia); lia. }
  rewrite Hstep. split_and!.
  - intros H. by apply app_eq_nil in H as [_ ?].
  - intros v k. rewrite last_snoc. intros [= ->]. destruct k as [|k]; [split; [destruct v; lia|by exists (l ++ [v]); rewrite app_nil_r]|].
    rewrite ends_in_snoc. destruct (last l) as [w|] eqn:El.
    + specialize (Hs w eq_refl). destruct (decide (w = v)) as [->|Hne].
      * rewrite (Hk v k eq_refl). destruct v; lia.
      * assert (w = negb v) as -> by (by destruct w, v). destruct k as [|k]; [split; [destruct v; lia|split; [done|by exists l; rewrite app_nil_r]]|].
        split; [intros [_ H]; by apply ends_in_flip in H|destruct v; cbn in Hs; lia].
    + apply last_None in El as ->. rewrite H0 by done. split; [intros [_ [a Ha']]|destruct k; [split; [done|by exists []]|destruct v; lia]].
      apply (f_equal length) in Ha'. rewrite length_app, length_replicate in Ha'. cbn in Ha'. destruct v; lia.
  - intros v. rewrite last_snoc. intros [= ->]. destruct v; lia.
  - rewrite length_app. cbn. destruct ok; lia.
Qed.

Definition ok_cfg (c : Config) : Prop := 1 ≤ FailureThreshold c ∧ 1 ≤ SuccessThreshold c.
Lemma New_ok c : ok_cfg (hcfg (New c)).
Proof. unfold New, ok_cfg. cbn. destruct (Z.ltb_spec (FailureThreshold c) 1), (Z.ltb_spec (SuccessThreshold c) 1); lia. Qed.

Definition verdict_of (c : Config) (l : list bool) (h : Health) : Prop :=
  (h = Healthy ↔ settled true (Z.to_nat (SuccessThreshold c)) (Z.to_nat (FailureThreshold c)) l) ∧
  (h = Unhealthy ↔ settled false (Z.to_nat (FailureThreshold c)) (Z.to_nat (SuccessThreshold c)) l).

Lemma verdict_step c l s h ok : ok_cfg c → Z.of_nat (length l) < two63 - 1 → streak_of l s → verdict_of c l h →
  verdict_of c (l ++ [ok]) (judge c (step_streak s ok) ok h).
Proof.
  intros [Hf Hs] Hb Hst [V1 V2]. pose proof (streak_step l s ok Hb Hst) as (_ & Hk & Hsg & Ha). rewrite length_app in Ha. cbn in Ha. set (s' := step_streak s ok) in *.
  specialize (Hsg ok (last_snoc _ _)). specialize (λ k, Hk ok k (last_snoc _ _)). unfold two63 in Hb.
  unfold judge, verdict_of. rewrite (i64_id (- s')) by (unfold two63; lia). destruct ok; cbn [andb negb].
  - change true with (negb false) at 3. rewrite (settled_same true), (settled_other false) by lia. cbn [negb]. rewrite !Hk, !Z2Nat.id by lia.
    destruct (Z.leb_spec (SuccessThreshold c) s'); cbn [andb].
    + case_bool_decide as Hh; cbn [negb]; [rewrite Hh|]; split; split; try done; try (by left); intros [_ ?]; lia.
    + rewrite V1, V2. split; [split; [by right|intros [?|?]; [lia|done]]|split; [intros ?; split; [done|lia]|by intros [? _]]].
  - change false with (negb true) at 1. rewrite (settled_other true), (settled_same false) by lia. cbn [negb]. rewrite !Hk, !Z2Nat.id by lia.
    destruct (Z.leb_spec (FailureThreshold c) (- s')); cbn [andb].
    + case_bool_decide as Hh; cbn [negb]; [rewrite Hh|]; split; split; try done; try (by left); intros [_ ?]; lia.
    + rewrite V1, V2. split; [split; [intros ?; split; [done|lia]|by intros [? _]]|split; [by right|intros [?|?]; [lia|done]]].
Qed.

Lemma history_inv c l : ok_cfg c → Z.of_nat (length l) < two63 → streak_of l (history c l).1 ∧ verdict_of c l (history c l).2.
Proof.
  intros Hc. induction l as [|ok l IH] using rev_ind; intros Hb.
  - split.
    + by split_and!.
    + assert (Hno : ∀ v n m, (0 < n)%nat → ¬ settled v n m []).
      { intros v n m Hn (pre & post & Heq & _). symmetry in Heq. apply app_eq_nil in Heq as [_ Heq]. apply app_eq_nil in Heq as [Heq _]. by destruct n; [lia|]. }
      destruct Hc as [Hf Hs]. split; (split; [done|intros H; by apply Hno in H; [|lia]]).
  - rewrite length_app in Hb. cbn in Hb. destruct IH as [I1 I2]; [lia|]. unfold history in *. rewrite foldl_snoc. destruct (foldl _ _ l) as [s h].
    split; [apply streak_step|apply verdict_step]; try done; lia.
Qed.


(** ** A round *)

Definition probed (now : Z) (c : Checker) (b : Backend) : bool := is_active b && (due b now c).1.

Section round.
Context (now : Z) (st : gmap positive Backend).
Definition url (l : positive) : string := URL (st !!! l).

Lemma due_cases b c : due b now c = (true, set_last (URL b) now c) ∨ due b now c = (false, c).
Proof. unfold due. destruct (lastProbe c !! URL b); [|by left]. destruct (_ <? _); [by right|by left]. Qed.
Lemma due_fields b c : hcfg (due b now c).2 = hcfg c ∧ streaks (due b now c).2 = streaks c.
Proof. by destruct (due_cases b c) as [-> | ->]. Qed.
Lemma due_last b c u : lastProbe (due b now c).2 !! u = if decide (u = URL b ∧ (due b now c).1 = true) then Some now else lastProbe c !! u.
Proof.
  destruct (due_cases b c) as [-> | ->]; cbn; [|rewrite decide_False; [done|by intros [_ ?]]].
  destruct (decide (u = URL b)) as [->|Hne]; [by rewrite lookup_insert_eq, decide_True|]. rewrite lookup_insert_ne, decide_False; [done|tauto|done].
Qed.
Lemma probed_other b b' c : URL b ≠ URL b' → probed now (due b' now c).2 b = probed now c b.
Proof.
  intros Hne. unfold probed. f_equal. unfold due at 1. rewrite due_last, decide_False by tauto. destruct (due_fields b' c) as [-> _].
  unfold due. destruct (lastProbe c !! URL b); [|done]. by destruct (_ <? _).
Qed.

(** Who is due is decided one by one. *)
Lemma due_targets_from snap : ∀ ts c, NoDup (url <$> snap) →
  let r := foldl (pick_due now st) (ts, c) snap in
  r.1 = ts ++ filter (λ l, probed now c (st !!! l) = true) snap ∧ hcfg r.2 = hcfg c ∧ streaks r.2 = streaks c ∧
  (∀ l, l ∈ snap → probed now c (st !!! l) = true → lastProbe r.2 !! url l = Some now) ∧
  (∀ u, (∀ l, l ∈ snap → probed now c (st !!! l) = true → url l ≠ u) → lastProbe r.2 !! u = lastProbe c !! u).
Proof.
  induction snap as [|l snap IH]; intros ts c Hnd; cbn zeta.
  - cbn. rewrite app_nil_r. split_and!; try done. by intros l ?%elem_of_nil.
  - apply NoDup_cons in Hnd as [Hl Hnd]. cbn [foldl]. set (b := st !!! l).
    assert (Hother : ∀ l', l' ∈ snap → URL (st !!! l') ≠ URL b) by (intros l' Hl' He; apply Hl; apply list_elem_of_fmap; exists l'; split; [symmetry; exact He|done]).
    assert (Hpick : pick_due now st (ts, c) l = (if probed now c b then ts ++ [l] else ts, if is_active b then (due b now c).2 else c)).
    { unfold pick_due, probed. fold b. destruct (is_active b); [|done]. cbn. by destruct (due b now c) as [[] ?]. }
    rewrite Hpick. set (c' := if is_active b then (due b now c).2 else c).
    assert (Hc' : hcfg c' = hcfg c ∧ streaks c' = streaks c) by (subst c'; destruct (is_active b); [apply due_fields|done]).
    assert (Hsame : ∀ l', l' ∈ snap → probed now c' (st !!! l') = probed now c (st !!! l')) by (intros l' Hl'; subst c'; destruct (is_active b); [by apply probed_other, Hother|done]).
    assert (Hlast : ∀ u, lastProbe c' !! u = if decide (u = URL b ∧ probed now c b = true) then Some now else lastProbe c !! u).
    { intros u. subst c'. unfold probed. destruct (is_active b); [apply due_last|]. by rewrite decide_False by (by intros [_ ?]). }
    destruct (IH (if probed now c b then ts ++ [l] else ts) c' Hnd) as (I1 & I2 & I3 & I4 & I5). cbn zeta in *. split_and!.
    + rewrite I1, filter_cons. assert (Hf : filter (λ l, probed now c' (st !!! l) = true) snap = filter (λ l, probed now c (st !!! l) = true) snap)
        by (apply filter_ext_in; intros l' Hl'; by rewrite Hsame).
      rewrite Hf. fold b. destruct (probed now c b); [rewrite decide_True by done; by rewrite <-app_assoc|by rewrite decide_False by done].
    + rewrite I2. apply Hc'.
    + rewrite I3. apply Hc'.
    + intros l' [-> |Hl']%elem_of_cons Hp.
      * rewrite I5; [rewrite Hlast, decide_True; [done|split; done]|]. intros l' Hl' _. by apply Hother.
      * apply I4; [done|]. by rewrite Hsame.
    + intros u Hu. rewrite I5.
      * rewrite Hlast, decide_False; [done|]. intros [-> Hp]. by apply (Hu l (list_elem_of_here _ _) Hp).
      * intros l' Hl' Hp. apply Hu; [by right|]. by rewrite <-Hsame.
Qed.
End round.

(** The observations of a round, in whatever order. *)
Lemma observe_all (probe : positive → bool) ls : ∀ (c : Checker) (st : gmap positive Backend), NoDup (url st <$> ls) →
  let w' := foldl (λ w l, observe l (probe l) w) (c, st) ls in
  hcfg w'.1 = hcfg c ∧ lastProbe w'.1 = lastProbe c ∧
  (∀ l, l ∈ ls → let sh := obs1 (hcfg c) (default 0 (streaks c !! url st l), health (st !!! l)) (probe l) in
     w'.2 !! l = SetHealth sh.2 <$> st !! l ∧ streaks w'.1 !! url st l = Some sh.1) ∧
  (∀ l, l ∉ ls → w'.2 !! l = st !! l) ∧ (∀ u, u ∉ url st <$> ls → streaks w'.1 !! u = streaks c !! u).
Proof.
  induction ls as [|l ls IH]; intros c st Hnd; cbn zeta.
  - cbn. split_and!; try done. by intros l ?%elem_of_nil.
  - apply NoDup_cons in Hnd as [Hl Hnd]. cbn [foldl]. set (b := st !!! l).
    set (s := step_streak (default 0 (streaks c !! URL b)) (probe l)). set (h := judge (hcfg c) s (probe l) (health b)).
    set (st1 := alter (SetHealth h) l st). set (c1 := set_streak (URL b) s c). change (observe l (probe l) (c, st)) with (c1, st1).
    assert (Hurl : ∀ l', url st1 l' = url st l').
    { intros l'. unfold url, st1. rewrite !lookup_total_alt. destruct (decide (l' = l)) as [->|Hne]; [rewrite lookup_alter_eq; by destruct (st !! l)|by rewrite lookup_alter_ne]. }
    assert (Hurls : url st1 <$> ls = url st <$> ls) by (apply list_fmap_ext; intros; apply Hurl).
    assert (Hnl : l ∉ ls) by (intros ?; apply Hl, list_elem_of_fmap; by exists l).
    destruct (IH c1 st1) as (I1 & I2 & I3 & I4 & I5); [by rewrite Hurls|]. cbn zeta in *. rewrite Hurls in I5. split_and!.
    + by rewrite I1.
    + by rewrite I2.
    + intros l' [-> |Hl']%elem_of_cons.
      * rewrite I4 by done. unfold st1. rewrite lookup_alter_eq. split; [done|]. rewrite I5 by done. unfold c1. cbn. by rewrite lookup_insert_eq.
      * destruct (I3 l' Hl') as [J1 J2]. rewrite Hurl in J1, J2. assert (l' ≠ l) by congruence. assert (url st l' ≠ URL b) by (intros He; apply Hl, list_elem_of_fmap; exists l'; split; [symmetry; exact He|done]).
        unfold st1, c1 in J1, J2. cbn [streaks set_streak hcfg] in J1, J2. rewrite lookup_insert_ne in J1, J2 by done. rewrite lookup_total_alter_ne, lookup_alter_ne in J1 by done. rewrite lookup_total_alter_ne in J2 by done. done.
    + intros l' [Hne Hl']%not_elem_of_cons. rewrite I4 by done. unfold st1. by rewrite lookup_alter_ne.
    + intros u [Hne Hu]%not_elem_of_cons. rewrite I5 by done. unfold c1. cbn. by rewrite lookup_insert_ne.
Qed.

(** What a round of checks does.  However the answers of its probes are ordered, a round over
    backends with distinct URLs probes exactly those that take active checks and are due,
    moves each one's streak and health by its own answer, and changes nothing else of any
    backend, its load least of all; a healthy backend is not due again before [Interval], any
    other not before [UnhealthyInterval]. *)
Theorem round_exact (now : Z) (snap : list positive) (probe : positive → bool) (order : list positive → list positive) (c : Checker) (st : gmap positive Backend)
  (Hurls : NoDup (url st <$> snap)) (Horder : ∀ ts, order ts ≡ₚ ts) :
  let '(c', st') := Round now snap probe order (c, st) in
  (∀ l, l ∈ snap → probed now c (st !!! l) = true →
     let sh := obs1 (hcfg c) (default 0 (streaks c !! url st l), health (st !!! l)) (probe l) in
     st' !! l = SetHealth sh.2 <$> st !! l ∧ streaks c' !! url st l = Some sh.1 ∧ lastProbe c' !! url st l = Some now) ∧
  (∀ l, l ∈ snap → probed now c (st !!! l) = false →
     st' !! l = st !! l ∧ streaks c' !! url st l = streaks c !! url st l ∧ lastProbe c' !! url st l = lastProbe c !! url st l) ∧
  (∀ l, l ∉ snap → st' !! l = st !! l) ∧
  (∀ l t, lastProbe c !! url st l = Some t → probed now c (st !!! l) = true →
     (if bool_decide (health (st !!! l) = Healthy) then Interval (hcfg c) else UnhealthyInterval (hcfg c)) ≤ now - t) ∧
  (∀ l, probed now c (st !!! l) = true → HealthMod (st !!! l) = HealthActive).
Proof.
  unfold Round, due_targets. cbn [fst snd]. destruct (due_targets_from now st snap [] c Hurls) as (D1 & D2 & D3 & D4 & D5). cbn zeta in *.
  destruct (foldl (pick_due now st) ([], c) snap) as [ts c1]. cbn [fst snd app] in *. subst ts. set (ts := filter _ snap) in *.
  assert (Hin : ∀ l, l ∈ order ts ↔ l ∈ snap ∧ probed now c (st !!! l) = true) by (intros l; rewrite (Horder ts); unfold ts; rewrite list_elem_of_filter; tauto).
  assert (Hinj : ∀ l l', l ∈ snap → l' ∈ snap → url st l = url st l' → l = l').
  { clear -Hurls. intros l l' Hl Hl' He. apply list_elem_of_lookup in Hl as [i Hi], Hl' as [j Hj].
    assert (i = j) as -> by (eapply (NoDup_lookup (url st <$> snap)); [done|rewrite list_lookup_fmap, Hi; cbn; reflexivity|rewrite list_lookup_fmap, Hj; cbn; by rewrite He]). congruence. }
  destruct (observe_all probe (order ts) c1 st) as (O1 & O2 & O3 & O4 & O5).
  { rewrite (Horder ts). eapply sublist_NoDup; [exact Hurls|]. apply fmap_sublist. unfold ts. apply sublist_filter. }
  cbn zeta in *. destruct (foldl (λ w l, observe l (probe l) w) (c1, st) (order ts)) as [c' st']. cbn [fst snd] in *. split_and!.
  - intros l Hl Hp. destruct (O3 l) as [J1 J2]; [by apply Hin|]. rewrite D2, D3 in J1, J2. split_and!; [done|done|]. rewrite O2. by apply D4.
  - intros l Hl Hp. split_and!.
    + apply O4. intros [_ ?]%Hin. congruence.
    + rewrite O5, D3; [done|]. intros (l' & He & [Hl' Hp']%Hin)%list_elem_of_fmap. assert (l = l') as -> by (by apply Hinj). congruence.
    + rewrite O2. apply D5. intros l' Hl' Hp' He. assert (l' = l) as -> by (by apply Hinj). congruence.
  - intros l Hl. apply O4. by intros [? _]%Hin.
  - intros l t Hlast Hp. unfold probed, due, url in *. rewrite Hlast in Hp. destruct (Z.ltb_spec (now - t) (if bool_decide (health (st !!! l) = Healthy) then Interval (hcfg c) else UnhealthyInterval (hcfg c))); [|done].
    by apply andb_true_iff in Hp as [_ ?].
  - intros l [Hp _]%andb_true_iff. unfold is_active in Hp. by destruct (HealthMod _).
Qed.

(** ** Witnesses *)

Module HealthEx.
Definition b (u : string) (h : HealthModel) (s : Health) : Backend :=
  MkBackend u "" h ProvStatic (Meta KindWorker "" "" 0) (Circuit.New Circuit.DefaultConfig) false s zero_gauges zero_latency zero_queue.
Definition st : gmap positive Backend := {[1%positive := b "http://a:80" HealthActive Unhealthy; 2%positive := b "http://b:80" HealthPassive Healthy]}.
Definition c : Checker := set_streak "http://a:80" 1 (New DefaultConfig).
End HealthEx.


Lemma round_exact_witness :
  (Round 0 [1; 2]%positive (λ _, true) reverse (HealthEx.c, HealthEx.st)).2 !! 1%positive = Some (HealthEx.b "http://a:80" HealthActive Healthy).
Proof.
  pose proof (round_exact 0 [1; 2]%positive (λ _, true) reverse HealthEx.c HealthEx.st) as H. destruct (Round _ _ _ _ _) as [c' st'].
  destruct H as (H & _); [apply (bool_decide_unpack _); by vm_compute|intros ts; apply reverse_Permutation|].
  destruct (H 1%positive) as (Hst & _); [by left|by vm_compute|]. exact Hst.
Defined.
