(* ===== verification/Surface.v ===== *)
(** * Surface: the inbound side of the router

    [src/router/internal/gateway]: the middleware chain of [middleware.go], the route table
    [build] mounts under it, and the defaults [New] gives the configuration.  A handler takes
    a request and the server's counters to a response and the counters after it, panics
    included; deferred calls run on both ways out.

    [net/http]'s [ServeMux] is the standard library's: it redirects a path that is not clean
    (but for CONNECT), compares the unescaped segments of the others with its patterns, the
    GET ones matching HEAD too, and [/] takes the rest.  [WriteError] fixes the status of a
    response that has none. *)

From stdpp Require Import base gmap list strings.
From Stdlib Require Import ZArith Lia.
From S2P Require Import Prelude KvUnits JsonScan StreamScan Proxy OpenAIDialect GoText.
Open Scope Z_scope.

Record Config := MkConfig {
  APIKey : bytes;
  MaxBodyBytes : Z;
  MaxConcurrentRequests : Z;
  PathAllowlist : list bytes;
  UserPrefix : bool;
  CORSOrigins : list bytes;
  MetricsHandler : bool;           (* set, or nil *)
}.

Record Req := MkReq {
  Method : bytes;
  Path : bytes;                    (* decoded *)
  RawPath : bytes;                 (* as it was escaped, when that matters *)
  Hdr : header;
  BodyLimit : option Z;
  ReqID : string;
  User : bytes;
  fresh_id : string;               (* what [newRequestID] draws *)
}.

Record Resp := MkResp {
  status : option Z;
  rhdr : header;
  rcode : string;
  panicked : option bool;          (* [Some true] is [ErrAbortHandler] *)
}.
Definition no_resp : Resp := MkResp None ∅ "" None.

Record Srv := MkSrv { inUse : Z; shed : Z; panicsTotal : Z; disconnects : Z; accessLog : list Z }.
Definition set_inUse (n : Z) (s : Srv) : Srv := MkSrv n (shed s) (panicsTotal s) (disconnects s) (accessLog s).
Definition count_shed (s : Srv) : Srv := MkSrv (inUse s) (shed s + 1) (panicsTotal s) (disconnects s) (accessLog s).
Definition count_panic (s : Srv) : Srv := MkSrv (inUse s) (shed s) (panicsTotal s + 1) (disconnects s) (accessLog s).
Definition count_gone (s : Srv) : Srv := MkSrv (inUse s) (shed s) (panicsTotal s) (disconnects s + 1) (accessLog s).
Definition log_access (st : Z) (s : Srv) : Srv := MkSrv (inUse s) (shed s) (panicsTotal s) (disconnects s) (accessLog s ++ [st]).

Definition handler : Type := Req → Srv → Resp * Srv.

(** A status line is written once. *)
Definition WriteHeader (st : Z) (p : Resp) : Resp :=
  match status p with None => MkResp (Some st) (rhdr p) (rcode p) (panicked p) | Some _ => p end.
Definition WriteError (st : Z) (code : string) (p : Resp) : Resp :=
  match status p with None => MkResp (Some st) (<["Content-Type"%string := ["application/json"%string]]> (rhdr p)) code (panicked p) | Some _ => p end.
Definition add_header (k v : string) (p : Resp) : Resp := MkResp (status p) (<[k := [v]]> (rhdr p)) (rcode p) (panicked p).
(** Headers the outer middleware set before the inner one answered. *)
Definition with_headers (hs : list (string * string)) (p : Resp) : Resp :=
  MkResp (status p) (foldr (λ kv h, match h !! kv.1 with None => <[kv.1 := [kv.2]]> h | Some _ => h end) (rhdr p) hs) (rcode p) (panicked p).

(** ** The middleware *)

Definition chain (h : handler) (ms : list (handler → handler)) : handler := foldr (λ m h, m h) h ms.

Definition recoverMiddleware (next : handler) : handler := λ r s,
  let '(p, s) := next r s in
  match panicked p with
  | None => (p, s)
  | Some true => (p, count_gone s)
  | Some false => (WriteError 500 "internal_error" (MkResp (status p) (rhdr p) (rcode p) None), count_panic s)
  end.

Definition printable (c : Z) : bool := (32 <=? c) && (c <=? 126).
Definition validRequestID (s : bytes) : bool := bool_decide (s ≠ []) && (length s <=? 128)%nat && forallb printable s.
Definition requestIDMiddleware (next : handler) : handler := λ r s,
  let id := Get "X-Request-Id" (Hdr r) in
  let id := if validRequestID (lit id) then id else fresh_id r in
  let '(p, s) := next (MkReq (Method r) (Path r) (RawPath r) (Hdr r) (BodyLimit r) id (User r) (fresh_id r)) s in
  (with_headers [("X-Request-Id"%string, id)] p, s).

(** The line is written when the handler returns. *)
Definition accessLogMiddleware (next : handler) : handler := λ r s,
  let '(p, s) := next r s in
  match panicked p with Some _ => (p, s) | None => (p, log_access (default 200 (status p)) s) end.

Definition isExpectedProbe503 (r : Req) (st : Z) : bool :=
  (st =? 503) && bool_decide (Method r = lit "GET") && (bool_decide (Path r = lit "/readiness") || bool_decide (Path r = lit "/health")).

Section unicode.
Context (u : Unicode).

Definition originAllowed (c : Config) (origin : bytes) : bool :=
  existsb (λ o, bool_decide (o = lit "*") || EqualFold u o origin) (CORSOrigins c).
Definition is_preflight (r : Req) : bool :=
  bool_decide (Method r = lit "OPTIONS") && negb (bool_decide (Get "Access-Control-Request-Method" (Hdr r) = ""%string)).
Definition corsMiddleware (c : Config) (next : handler) : handler := λ r s,
  let origin := Get "Origin" (Hdr r) in
  let hs := if negb (bool_decide (origin = ""%string)) && originAllowed c (lit origin) then
              [("Access-Control-Allow-Origin", origin); ("Vary", "Origin"); ("Access-Control-Allow-Methods", "GET, POST, DELETE, OPTIONS");
               ("Access-Control-Allow-Headers", "Authorization, Content-Type, X-Api-Key, X-Request-Id"); ("Access-Control-Max-Age", "600")]%string
            else [] in
  if is_preflight r then (with_headers hs (WriteHeader 204 no_resp), s)
  else let '(p, s) := next r s in (with_headers hs p, s).

Definition bodyLimitMiddleware (c : Config) (next : handler) : handler := λ r s,
  next (MkReq (Method r) (Path r) (RawPath r) (Hdr r) (Some (MaxBodyBytes c)) (ReqID r) (User r) (fresh_id r)) s.

Definition SplitUserPrefix (p : bytes) : bytes * bytes :=
  match p with
  | c :: tail => if c =? slash then
                   match cut_at slash tail with
                   | Some (user, rest) => match user with [] => ([], p) | _ => (user, slash :: rest) end
                   | None => ([], p)
                   end
                 else ([], p)
  | [] => ([], p)
  end.
Definition strip_user (r : Req) : Req :=
  let '(user, path) := SplitUserPrefix (Path r) in
  match user with [] => r | _ => MkReq (Method r) path [] (Hdr r) (BodyLimit r) (ReqID r) user (fresh_id r) end.
Definition userPrefixMiddleware (c : Config) (next : handler) : handler := λ r s,
  next (if UserPrefix c then strip_user r else r) s.

(** *** Authentication *)

(** [openai.Dialect.Credential]. *)
Definition bearer : bytes := lit "bearer ".
Definition Credential (h : header) : option bytes :=
  let v := lit (Get "Authorization" h) in
  match v with
  | _ :: _ =>
      if (length bearer <? length v)%nat && EqualFold u (take (length bearer) v) bearer then
        match TrimSpace u (drop (length bearer) v) with [] => None | tok => Some tok end
      else None
  | [] => match TrimSpace u (lit (Get "X-Api-Key" h)) with [] => None | tok => Some tok end
  end.

Definition credentialValid (c : Config) (r : Req) : bool :=
  match Credential (Hdr r) with None => false | Some tok => bool_decide (tok = APIKey c) end.

Definition entry_allows (p entry : bytes) : bool :=
  if HasSuffix entry [slash] then hasPrefix p entry
  else bool_decide (p = entry) ||
       (hasPrefix p entry && (length entry <? length p)%nat && (default 0 (p !! length entry) =? slash)).
Definition pathAllowed (c : Config) (r : Req) : bool :=
  match PathAllowlist c with [] => true | l => existsb (entry_allows (Path r)) l end.

Definition authMiddleware (c : Config) (next : handler) : handler := λ r s,
  if negb (pathAllowed c r) then (WriteHeader 404 no_resp, s)
  else if bool_decide (APIKey c = []) then next r s
  else if negb (credentialValid c r) then (WriteError 401 "invalid_api_key" no_resp, s)
  else next r s.

Definition concurrencyMiddleware (c : Config) (next : handler) : handler := λ r s,
  if MaxConcurrentRequests c <=? 0 then next r s
  else if inUse s <? MaxConcurrentRequests c then
    let '(p, s) := next r (set_inUse (inUse s + 1) s) in (p, set_inUse (inUse s - 1) s)
  else (with_headers [("Retry-After", "1")]%string (WriteError 503 "router_at_capacity" no_resp), count_shed s).

(** ** The route table *)

Inductive endpoint :=
  | Infer (class : string) (affine : bool)
  | MergedModels
  | ServerInfo
  | Metrics (here : bool)
  | ListWorkers
  | AddWorker
  | RemoveWorker
  | GetLoads
  | Redirect (to : bytes).

Definition dialect_entry (rt : Route) : string * endpoint :=
  (Pattern rt, if bool_decide (Class_ rt = "models"%string) then MergedModels else Infer (Class_ rt) true).
Definition operational (c : Config) : list (string * endpoint) :=
  [("GET /get_server_info", ServerInfo); ("GET /metrics", Metrics (MetricsHandler c));
   ("GET /workers", ListWorkers); ("GET /list_workers", ListWorkers); ("POST /workers", AddWorker);
   ("POST /add_worker", AddWorker); ("POST /remove_worker", RemoveWorker); ("GET /get_loads", GetLoads)]%string.
Definition mounted (c : Config) : list (string * endpoint) := (dialect_entry <$> Routes) ++ operational c.

Definition hexval (c : Z) : option Z :=
  if (48 <=? c) && (c <=? 57) then Some (c - 48) else if (97 <=? c) && (c <=? 102) then Some (c - 87)
  else if (65 <=? c) && (c <=? 70) then Some (c - 55) else None.
(** [url.PathUnescape]. *)
Fixpoint unescape (s : bytes) : option bytes :=
  match s with
  | [] => Some []
  | c :: s =>
      if c =? 37 then
        match s with
        | a :: b :: s' => match hexval a, hexval b with
                          | Some x, Some y => cons (16 * x + y) <$> unescape s'
                          | _, _ => None
                          end
        | _ => None
        end
      else cons c <$> unescape s
  end.
Definition EscapedPath (r : Req) : bytes := match RawPath r with [] => Path r | raw => raw end.
(** The segments the mux compares: those of the decoded path, or of the escaped one,
    unescaped one by one. *)
Definition segments (r : Req) : list bytes :=
  match RawPath r with [] => Split slash (Path r) | raw => (λ s, default s (unescape s)) <$> Split slash raw end.

Definition method_matches (pm m : bytes) : bool := bool_decide (m = pm) || (bool_decide (pm = lit "GET") && bool_decide (m = lit "HEAD")).
Definition pattern_matches (r : Req) (pat : string) : bool :=
  match cut_at 32 (lit pat) with
  | Some (m, p) => method_matches m (Method r) && bool_decide (segments r = Split slash p)
  | None => false
  end.
Definition dispatch (c : Config) (r : Req) : endpoint :=
  if negb (bool_decide (Method r = lit "CONNECT")) && negb (bool_decide (cleanPath (EscapedPath r) = EscapedPath r)) then Redirect (cleanPath (EscapedPath r))
  else match filter (λ e, pattern_matches r e.1 = true) (mounted c) with
       | e :: _ => e.2
       | [] => Infer "passthrough" false
       end.

(** ** Construction *)

Definition after_space (p : bytes) : bytes := match cut_at 32 (reverse p) with Some (x, _) => reverse x | None => p end.
Definition dialect_path (out : list bytes) (rt : Route) : list bytes :=
  let p := after_space (lit (Pattern rt)) in
  if bool_decide (p = []) || bool_decide (p = [slash]) || bool_decide (p ∈ out) then out else out ++ [p].
Definition dialectPaths (rts : list Route) : list bytes := foldl dialect_path [] rts.

(** The configuration the server runs with. *)
Definition New (c : Config) : Config :=
  match APIKey c, PathAllowlist c with
  | _ :: _, [] => MkConfig (APIKey c) (MaxBodyBytes c) (MaxConcurrentRequests c) (dialectPaths Routes) (UserPrefix c) (CORSOrigins c) (MetricsHandler c)
  | _, _ => c
  end.

(** [serve] is what each endpoint does, in the other files. *)
Definition mux (c : Config) (serve : endpoint → handler) : handler := λ r s, serve (dispatch c r) r s.
Definition build (c : Config) (serve : endpoint → handler) : handler :=
  chain (mux c serve)
    [recoverMiddleware; requestIDMiddleware; accessLogMiddleware; corsMiddleware c; bodyLimitMiddleware c; userPrefixMiddleware c;
     authMiddleware c; concurrencyMiddleware c].
End unicode.
