(* ===== verification/SurfaceSpec.v ===== *)
(** * SurfaceSpec: who gets through to the fleet

    Theorems about Surface: what the middleware refuses and in which order, what of the router
    a key protects, and what the access log misses. *)

From stdpp Require Import base gmap list strings.
From Stdlib Require Import ZArith Lia.
From S2P Require Import Prelude KvUnits JsonScan StreamScan Proxy OpenAIDialect GoText Surface.
Open Scope Z_scope.

(** ** Paths *)

(** [p] is [e] or lies below it, on a segment boundary. *)
Definition under (e p : bytes) : Prop := ∃ rest, p = e ++ rest ∧ (rest = [] ∨ head rest = Some slash ∨ last e = Some slash).

Lemma HasSuffix_slash e : HasSuffix e [slash] = true ↔ last e = Some slash.
Proof.
  rewrite HasSuffix_app. split; [intros [r ->]; apply last_snoc|]. intros H. apply last_Some in H as [l ->]. by exists l.
Qed.

Lemma entry_allows_under p e : entry_allows p e = true ↔ under e p.
Proof.
  unfold entry_allows, under. destruct (HasSuffix e [slash]) eqn:E.
  - apply HasSuffix_slash in E. rewrite hasPrefix_app. split; [intros [r ->]; exists r; tauto|intros (r & -> & _); by exists r].
  - assert (Hn : last e ≠ Some slash) by (rewrite <-HasSuffix_slash; congruence). rewrite orb_true_iff, bool_decide_eq_true, !andb_true_iff, hasPrefix_app, Nat.ltb_lt, Z.eqb_eq. split.
    + intros [->|[[[r ->] Hlen] Hc]]; [exists []; rewrite app_nil_r; tauto|]. rewrite lookup_app_r, Nat.sub_diag in Hc by lia.
      exists r. split; [done|]. right; left. destruct r as [|c r]; [rewrite app_nil_r in Hlen; lia|]. cbn in *. congruence.
    + intros (r & -> & [->|[Hr|?]]); [left; by rewrite app_nil_r| |done]. destruct r as [|c r]; [done|]. injection Hr as ->. right. split_and!.
      * by exists (slash :: r).
      * rewrite length_app. cbn. lia.
      * by rewrite lookup_app_r, Nat.sub_diag by lia.
Qed.

Definition served_path (c : Config) (p : bytes) : Prop := PathAllowlist c = [] ∨ ∃ e, e ∈ PathAllowlist c ∧ under e p.
Lemma pathAllowed_served c r : pathAllowed c r = true ↔ served_path c (Path r).
Proof.
  unfold pathAllowed, served_path. destruct (PathAllowlist c) as [|e es] eqn:E; [split; [by left|done]|]. rewrite existsb_exists. split.
  - intros (x & Hx%list_elem_of_In & Ha%entry_allows_under). right. by exists x.
  - intros [?|(x & Hx & Ha)]; [done|]. exists x. split; [by apply list_elem_of_In|by apply entry_allows_under].
Qed.

(** Exactly the first segment goes, when there is another. *)
Lemma path_cut_spec c s a b : cut_at c s = Some (a, b) → s = a ++ c :: b ∧ c ∉ a.
Proof.
  revert a b. induction s as [|d s IH]; intros a b; cbn; [done|]. destruct (Z.eqb_spec d c) as [->|Hne]; [intros [= <- <-]; split; [done|by intros ?%elem_of_nil]|].
  destruct (cut_at c s) as [[x y]|]; [|done]. intros [= <- <-]. destruct (IH x y eq_refl) as [-> Hx]. split; [done|]. rewrite elem_of_cons. intros [?|?]; [congruence|done].
Qed.
Lemma SplitUserPrefix_spec p user rest : SplitUserPrefix p = (user, rest) → (user = [] ∧ rest = p) ∨ (user ≠ [] ∧ slash ∉ user ∧ p = slash :: user ++ rest ∧ head rest = Some slash).
Proof.
  unfold SplitUserPrefix. destruct p as [|c tail]; [intros [= <- <-]; by left|]. destruct (Z.eqb_spec c slash) as [->|]; [|intros [= <- <-]; by left].
  destruct (cut_at slash tail) as [[a b]|] eqn:E; [|intros [= <- <-]; by left]. apply path_cut_spec in E as [-> Ha]. destruct a as [|x a]; [intros [= <- <-]; by left|].
  intros [= <- <-]. right. split_and!; [done|done|done|done].
Qed.

(** ** The order of refusals *)

Section chain.
Context (u : Unicode).

Definition chosen_id (r : Req) : string := if validRequestID (lit (Get "X-Request-Id" (Hdr r))) then Get "X-Request-Id" (Hdr r) else fresh_id r.
(** The request as the route table sees it. *)
Definition inbound (c : Config) (r : Req) : Req :=
  let r := MkReq (Method r) (Path r) (RawPath r) (Hdr r) (Some (MaxBodyBytes c)) (chosen_id r) (User r) (fresh_id r) in
  if UserPrefix c then strip_user r else r.

Lemma inbound_hdr c r : Hdr (inbound c r) = Hdr r ∧ Method (inbound c r) = Method r.
Proof. unfold inbound, strip_user. destruct (UserPrefix c); [|done]. cbn. destruct (SplitUserPrefix (Path r)) as [[|]]; done. Qed.

(** What a response from the inside becomes on the way out. *)
Definition final_status (q : Resp) : option Z := match panicked q with Some false => Some (default 500 (status q)) | _ => status q end.

Lemma with_headers_status hs p : status (with_headers hs p) = status p.
Proof. done. Qed.
Lemma with_headers_panicked hs p : panicked (with_headers hs p) = panicked p.
Proof. done. Qed.

Lemma WriteError_status st code p : status (WriteError st code p) = Some (default st (status p)).
Proof. unfold WriteError. by destruct (status p) eqn:E. Qed.
Lemma WriteError_panicked st code p : panicked (WriteError st code p) = panicked p.
Proof. unfold WriteError. by destruct (status p). Qed.

Definition has_key (c : Config) (r : Req) : Prop := Credential u (Hdr r) = Some (APIKey c).
Definition keyed_ok (c : Config) (r : Req) : Prop := APIKey c = [] ∨ has_key c r.
Definition room (c : Config) (s : Srv) : Prop := MaxConcurrentRequests c ≤ 0 ∨ inUse s < MaxConcurrentRequests c.

Lemma credentialValid_key c r : credentialValid u c r = true ↔ has_key c r.
Proof. unfold credentialValid, has_key. destruct (Credential u (Hdr r)); [|done]. rewrite bool_decide_eq_true. split; congruence. Qed.

(** The inside: what is behind auth and the concurrency cap. *)
Lemma inner_runs c serve r s : served_path c (Path r) → keyed_ok c r → room c s →
  authMiddleware u c (concurrencyMiddleware c (mux c serve)) r s =
  (let s1 := if MaxConcurrentRequests c <=? 0 then s else set_inUse (inUse s + 1) s in
   let '(q, s2) := serve (dispatch c r) r s1 in
   (q, if MaxConcurrentRequests c <=? 0 then s2 else set_inUse (inUse s2 - 1) s2)).
Proof.
  intros Hp Hk Hr. unfold authMiddleware. rewrite (proj2 (pathAllowed_served c r) Hp). cbn [negb].
  assert (Hin : concurrencyMiddleware c (mux c serve) r s = (let s1 := if MaxConcurrentRequests c <=? 0 then s else set_inUse (inUse s + 1) s in
   let '(q, s2) := serve (dispatch c r) r s1 in (q, if MaxConcurrentRequests c <=? 0 then s2 else set_inUse (inUse s2 - 1) s2))).
  { unfold concurrencyMiddleware, mux. cbn zeta. destruct (Z.leb_spec (MaxConcurrentRequests c) 0); [by destruct (serve _ r s)|]. destruct Hr as [?|Hr]; [lia|]. by rewrite (proj2 (Z.ltb_lt _ _) Hr). }
  rewrite Hin. destruct Hk as [Hk|Hk]; [by rewrite bool_decide_true|]. apply credentialValid_key in Hk. rewrite Hk. cbn [negb]. by destruct (bool_decide _).
Qed.

(** Who is refused, and what it is told. *)
Inductive refused (c : Config) (r : Req) (s : Srv) : Z → Srv → Prop :=
  | at_cors : is_preflight r = true → refused c r s 204 s
  | at_path : is_preflight r = false → ¬ served_path c (Path (inbound c r)) → refused c r s 404 s
  | at_key : is_preflight r = false → served_path c (Path (inbound c r)) → ¬ keyed_ok c r → refused c r s 401 s
  | at_cap : is_preflight r = false → served_path c (Path (inbound c r)) → keyed_ok c r → ¬ room c s → refused c r s 503 (count_shed s).

Lemma keyed_inbound c r : keyed_ok c (inbound c r) ↔ keyed_ok c r.
Proof. unfold keyed_ok, has_key. by destruct (inbound_hdr c r) as [-> _]. Qed.

Lemma refused_auth c serve r s st s' : refused c r s st s' → is_preflight r = false →
  let '(p, s2) := authMiddleware u c (concurrencyMiddleware c (mux c serve)) (inbound c r) s in status p = Some st ∧ panicked p = None ∧ s2 = s'.
Proof.
  intros [Hpre|_ Hp|_ Hp Hk|_ Hp Hk Hr] Hno; [congruence| | |]; unfold authMiddleware.
  - destruct (pathAllowed c (inbound c r)) eqn:E; [by apply pathAllowed_served in E|]. done.
  - rewrite (proj2 (pathAllowed_served _ _) Hp). cbn [negb]. rewrite <-keyed_inbound in Hk. rewrite bool_decide_false by (intros ?; apply Hk; by left).
    destruct (credentialValid u c (inbound c r)) eqn:E; [apply credentialValid_key in E; by destruct Hk; right|]. done.
  - rewrite (proj2 (pathAllowed_served _ _) Hp). cbn [negb]. rewrite <-keyed_inbound in Hk.
    assert (Hcap : concurrencyMiddleware c (mux c serve) (inbound c r) s = (with_headers [("Retry-After", "1")]%string (WriteError 503 "router_at_capacity" no_resp), count_shed s)).
    { unfold concurrencyMiddleware, room in *. destruct (Z.leb_spec (MaxConcurrentRequests c) 0); [lia|]. rewrite (proj2 (Z.ltb_ge _ _)) by lia. done. }
    rewrite Hcap. destruct Hk as [Hk|Hk]; [by rewrite bool_decide_true|]. apply credentialValid_key in Hk. rewrite Hk. cbn [negb]. by destruct (bool_decide _).
Qed.

(** The layers around: identifiers, the log and the recovery of panics. *)
Lemma outer_layers c serve r s : is_preflight r = false →
  let '(q, s1) := authMiddleware u c (concurrencyMiddleware c (mux c serve)) (inbound c r) s in
  let '(p, s') := build u c serve r s in
  status p = final_status q ∧ panicked p = (match panicked q with Some true => Some true | _ => None end) ∧
  s' = (match panicked q with None => log_access (default 200 (status q)) s1 | Some true => count_gone s1 | Some false => count_panic s1 end).
Proof.
  intros Hpre. unfold build, chain. cbn [foldr]. unfold recoverMiddleware, requestIDMiddleware, accessLogMiddleware, corsMiddleware. cbn beta zeta.
  assert (Hp' : ∀ id, is_preflight (MkReq (Method r) (Path r) (RawPath r) (Hdr r) (BodyLimit r) id (User r) (fresh_id r)) = false) by done.
  rewrite Hp'. cbn [Hdr]. unfold bodyLimitMiddleware, userPrefixMiddleware. cbn [Method Path RawPath Hdr ReqID User fresh_id].
  fold (chosen_id r). change (if UserPrefix c then strip_user _ else _) with (inbound c r).
  destruct (authMiddleware u c (concurrencyMiddleware c (mux c serve)) (inbound c r) s) as [q s1]. unfold final_status.
  destruct (panicked q) as [[]|] eqn:Ep; rewrite ?with_headers_panicked, Ep, ?with_headers_panicked, ?Ep; cbn [panicked status]; rewrite ?with_headers_panicked, ?Ep; split_and!; try done.
  - by rewrite WriteError_status.
  - by rewrite WriteError_panicked.
Qed.

Lemma preflight_answer c serve r s : is_preflight r = true →
  let '(p, s') := build u c serve r s in status p = Some 204 ∧ panicked p = None ∧ s' = log_access 204 s.
Proof.
  intros Hpre. unfold build, chain. cbn [foldr]. unfold recoverMiddleware, requestIDMiddleware, accessLogMiddleware, corsMiddleware. cbn beta zeta.
  assert (Hp' : ∀ id, is_preflight (MkReq (Method r) (Path r) (RawPath r) (Hdr r) (BodyLimit r) id (User r) (fresh_id r)) = true) by done.
  by rewrite Hp'.
Qed.

(** What comes of a request nothing refuses. *)
Lemma surface_guards_core (c : Config) (serve : endpoint → handler) (r : Req) (s : Srv) : (∀ st s', ¬ refused c r s st s') →
  let r' := inbound c r in
  let s1 := if MaxConcurrentRequests c <=? 0 then s else set_inUse (inUse s + 1) s in
  (let '(q, s2) := serve (dispatch c r') r' s1 in
   let '(p, s') := build u c serve r s in
   status p = final_status q ∧ s' = (let s2 := if MaxConcurrentRequests c <=? 0 then s2 else set_inUse (inUse s2 - 1) s2 in
     match panicked q with None => log_access (default 200 (status q)) s2 | Some true => count_gone s2 | Some false => count_panic s2 end)) ∧
  room c s.
Proof.
  intros Hno. cbn zeta. assert (Hpre : is_preflight r = false) by (destruct (is_preflight r) eqn:E; [|done]; exfalso; by eapply Hno, at_cors).
  assert (Hpath : served_path c (Path (inbound c r))).
  { destruct (pathAllowed c (inbound c r)) eqn:E; [by apply pathAllowed_served|]. exfalso. eapply Hno, at_path; [done|]. rewrite <-pathAllowed_served. congruence. }
  assert (Hkey : keyed_ok c r).
  { destruct (decide (APIKey c = [])) as [|Hk]; [by left|]. destruct (credentialValid u c r) eqn:E; [right; by apply credentialValid_key|].
    exfalso. eapply Hno, at_key; [done|done|]. intros [?|Hh]; [done|]. apply credentialValid_key in Hh. congruence. }
  assert (Hroom : room c s).
  { unfold room. destruct (Z.le_gt_cases (MaxConcurrentRequests c) 0); [by left|]. destruct (Z.lt_ge_cases (inUse s) (MaxConcurrentRequests c)); [by right|].
    exfalso. eapply Hno, at_cap; [done..|]. unfold room. lia. }
  split; [|done]. pose proof (inner_runs c serve (inbound c r) s Hpath (proj2 (keyed_inbound c r) Hkey) Hroom) as Hi.
  pose proof (outer_layers c serve r s Hpre) as Ho. rewrite Hi in Ho. clear Hi. cbn zeta in Ho.
  destruct (serve _ _ _) as [q s2]. destruct (build u c serve r s) as [p s']. destruct Ho as (Ho1 & _ & Ho3). done.
Qed.

(** The surface refuses in one order and lets nothing else through.  A browser preflight is
    answered 204 before any key is asked for; then a path outside the allowlist is 404, key or
    not; then a missing or wrong key is 401; then, with no slot left, 503. Whatever is behind
    the route table cannot change any of these, and only a request that passed all four
    reaches it, with the caller's name off its path, its body bounded and, under a cap, a
    slot that is given back on every way out. *)
Theorem surface_guards (c : Config) (serve : endpoint → handler) (r : Req) (s : Srv) :
  (∀ st s', refused c r s st s' → let '(p, s2) := build u c serve r s in status p = Some st ∧ panicked p = None ∧ s2 = log_access st s') ∧
  ((∀ st s', ¬ refused c r s st s') →
     let r' := inbound c r in
     let s1 := if MaxConcurrentRequests c <=? 0 then s else set_inUse (inUse s + 1) s in
     let '(q, s2) := serve (dispatch c r') r' s1 in
     let '(p, s') := build u c serve r s in
     status p = final_status q ∧ inUse s' = (if MaxConcurrentRequests c <=? 0 then inUse s2 else inUse s2 - 1) ∧
     BodyLimit r' = Some (MaxBodyBytes c) ∧ (0 < MaxConcurrentRequests c → inUse s1 ≤ MaxConcurrentRequests c)).
Proof.
  split.
  - intros st s' Href. destruct (is_preflight r) eqn:Hpre.
    + assert (st = 204 ∧ s' = s) as [-> ->] by (by inversion Href; subst; try congruence). by apply preflight_answer.
    + pose proof (refused_auth c serve r s st s' Href Hpre) as Ha. pose proof (outer_layers c serve r s Hpre) as Ho. destruct (authMiddleware _ _ _ _ _) as [q s1]. destruct Ha as (Hq & Hp & ->).
      destruct (build u c serve r s) as [p s2]. rewrite Hp, Hq in Ho. unfold final_status in Ho. rewrite Hp in Ho. destruct Ho as (-> & -> & ->). done.
  - intros Hno. destruct (surface_guards_core c serve r s Hno) as [Hcore Hroom]. cbn zeta in *.
    set (s1 := if MaxConcurrentRequests c <=? 0 then s else set_inUse (inUse s + 1) s) in *. destruct (serve _ _ s1) as [q s2]. destruct (build u c serve r s) as [p s'].
    destruct Hcore as [Ho1 Ho3]. split_and!.
    + done.
    + rewrite Ho3. by destruct (panicked q) as [[]|], (MaxConcurrentRequests c <=? 0).
    + unfold inbound, strip_user. destruct (UserPrefix c); [|done]. cbn. by destruct (SplitUserPrefix (Path r)) as [[|]].
    + intros Hc. subst s1. rewrite (proj2 (Z.leb_gt _ _)) by lia. destruct Hroom; [lia|]. cbn. lia.
Qed.

(** ** What a key protects *)

Definition join_by (fs : list bytes) : bytes := match fs with [] => [] | f :: fs => f ++ mjoin ((λ g, slash :: g) <$> fs) end.
Lemma Split_inj s t : Split slash s = Split slash t → s = t.
Proof. intros H. destruct (Split_join slash s) as [_ Hs], (Split_join slash t) as [_ Ht]. rewrite Hs, Ht. by rewrite H. Qed.

(** An escape does not straddle a segment's end. *)
Lemma unescape_prefix f rest p : slash ∉ f → unescape (f ++ rest) = Some p → (rest = [] ∨ head rest = Some slash) → is_Some (unescape f).
Proof.
  revert p. induction f as [f IH] using (induction_ltof1 _ length). unfold ltof in IH. intros p Hfree Hz Hrest. destruct f as [|a f]; [by eexists|].
  cbn [app unescape] in Hz |- *. destruct (a =? 37).
  - destruct f as [|b [|d f]].
    + exfalso. destruct Hrest as [->|Hr]; [done|]. destruct rest as [|x [|y rest]]; [done..|]. by injection Hr as ->.
    + exfalso. destruct Hrest as [->|Hr]; [done|]. destruct rest as [|x rest]; [done|]. injection Hr as ->. cbn [app] in Hz. change (hexval slash) with (@None Z) in Hz. by destruct (hexval b).
    + cbn [app] in Hz. rewrite !not_elem_of_cons in Hfree. destruct (hexval b), (hexval d); try done. apply fmap_Some in Hz as (q & Hq & _).
      destruct (IH f) with q as [v ->]; [cbn; lia|tauto|done|done|by eexists].
  - rewrite not_elem_of_cons in Hfree. apply fmap_Some in Hz as (q & Hq & _). destruct (IH f) with q as [v ->]; [cbn; lia|tauto|done|done|by eexists].
Qed.

(** Unescaping goes segment by segment. *)
Lemma unescape_segments n : ∀ s p, (length s ≤ n)%nat → unescape s = Some p → p = join_by ((λ s, default s (unescape s)) <$> Split slash s).
Proof.
  induction n as [|n IH]; intros s p Hn Hs.
  { destruct s; [|cbn in Hn; lia]. injection Hs as <-. done. }
  destruct s as [|c s]; [by injection Hs as <-|]. cbn [length] in Hn. destruct (Z.eqb_spec c slash) as [->|Hc].
  - cbn [unescape Split] in *. rewrite (Z.eqb_refl slash). change (slash =? 37) with false in Hs. cbn iota in Hs. apply fmap_Some in Hs as (q & Hq & ->).
    rewrite (IH s q ltac:(lia) Hq). cbn [fmap list_fmap join_by unescape default app]. destruct (Split_join slash s) as [Hne _]. by destruct (Split slash s).
  - assert (Hseg : ∀ x y z rest, (length rest ≤ n)%nat → unescape rest = Some z → Split slash (x ++ rest) = (match Split slash rest with f :: fs => (x ++ f) :: fs | [] => [x] end) →
        (∀ f g, unescape f = Some g → unescape (x ++ f) = Some (y :: g)) → y :: z = join_by ((λ s, default s (unescape s)) <$> Split slash (x ++ rest))).
    { intros x y z rest Hlen Hz Hsp Hx. rewrite Hsp. pose proof (IH rest z Hlen Hz) as Hr. destruct (Split_join slash rest) as [Hne Hj].
      assert (Hf : ∀ f fs, Split slash rest = f :: fs → is_Some (unescape f)).
      { intros f fs Hsp'. rewrite Hsp' in Hj. rewrite Hj in Hz. eapply unescape_prefix; [|exact Hz|destruct fs; [by left|by right]].
        apply (Split_free slash rest). rewrite Hsp'. by left. }
      destruct (Split slash rest) as [|f fs]; [done|]. destruct (Hf f fs eq_refl) as [g Hg]. cbn [fmap list_fmap join_by] in *. rewrite Hg in Hr. rewrite (Hx f g Hg). cbn [default] in *. by rewrite Hr. }
    cbn [unescape] in Hs. destruct (Z.eqb_spec c 37) as [->|H37].
    + destruct s as [|a [|b s]]; [done|done|]. destruct (hexval a) as [x|] eqn:Ea; [|done]. destruct (hexval b) as [y|] eqn:Eb; [|done]. apply fmap_Some in Hs as (z & Hz & ->). cbn [length] in Hn.
      apply (Hseg [37; a; b] (16 * x + y) z s); [lia|done| |].
      * assert (Ha : a ≠ slash) by (intros ->; done). assert (Hb : b ≠ slash) by (intros ->; done). cbn [app Split]. change (37 =? slash) with false. cbn iota.
        rewrite (proj2 (Z.eqb_neq _ _) Ha), (proj2 (Z.eqb_neq _ _) Hb). by destruct (Split slash s).
      * intros f g Hg. cbn [app unescape]. change (37 =? 37) with true. cbn iota. by rewrite Ea, Eb, Hg.
    + apply fmap_Some in Hs as (z & Hz & ->). apply (Hseg [c] c z s); [lia|done| |].
      * cbn [app Split]. rewrite (proj2 (Z.eqb_neq _ _) Hc). by destruct (Split slash s).
      * intros f g Hg. cbn [app unescape]. rewrite (proj2 (Z.eqb_neq _ _) H37). by rewrite Hg.
Qed.

(** The path as [net/url] parsed it: its raw form, when kept, decodes to it. *)
Definition parsed (r : Req) : Prop := RawPath r = [] ∨ unescape (RawPath r) = Some (Path r).

Lemma segments_path r q : parsed r → segments r = Split slash q → Path r = q.
Proof.
  intros Hp Hs. unfold segments in Hs. destruct (RawPath r) as [|x raw] eqn:E; [by apply Split_inj|]. destruct Hp as [Hp|Hp]; [congruence|]. rewrite E in Hp.
  apply (unescape_segments _ _ _ (le_n _)) in Hp. rewrite Hp, Hs. destruct (Split_join slash q) as [_ Hq]. by rewrite Hq at 2.
Qed.

(** Inference, the model list, or a redirect to a cleaner path. *)
Definition public (e : endpoint) : Prop := match e with Infer _ _ | MergedModels | Redirect _ => True | _ => False end.

(** The paths of the operational endpoints lie under none of the dialect's. *)
Lemma operational_closed (c : Config) r pat e : (pat, e) ∈ operational c → pattern_matches r pat = true → parsed r →
  existsb (entry_allows (Path r)) (dialectPaths Routes) = false.
Proof.
  intros Hin Hm Hp. assert (Hq : ∃ m q, cut_at 32 (lit pat) = Some (m, q) ∧ existsb (entry_allows q) (dialectPaths Routes) = false).
  { unfold operational in Hin. rewrite !elem_of_cons, elem_of_nil in Hin. destruct Hin as [[= -> _]|[[= -> _]|[[= -> _]|[[= -> _]|[[= -> _]|[[= -> _]|[[= -> _]|[[= -> _]|[]]]]]]]]];
      eexists _, _; (split; [vm_compute; reflexivity|vm_compute; reflexivity]). }
  destruct Hq as (m & q & Hc & Hq). unfold pattern_matches in Hm. rewrite Hc in Hm. apply andb_true_iff in Hm as [_ Hm%bool_decide_eq_true].
  by rewrite (segments_path r q Hp Hm).
Qed.

Lemma mounted_public e : e ∈ dialect_entry <$> Routes → public e.2.
Proof. intros (rt & -> & _)%list_elem_of_fmap. unfold dialect_entry. cbn. by case_bool_decide. Qed.

Lemma dispatch_public c r : PathAllowlist c = dialectPaths Routes → parsed r → pathAllowed c r = true → public (dispatch c r).
Proof.
  intros Hl Hp Ha. unfold dispatch. destruct (_ && _); [done|]. destruct (filter _ (mounted c)) as [|e es] eqn:E; [done|].
  assert (He : e ∈ filter (λ e, pattern_matches r e.1 = true) (mounted c)) by (rewrite E; by left). apply list_elem_of_filter in He as [Hm He].
  unfold mounted in He. apply elem_of_app in He as [He|He]; [by eapply mounted_public|]. exfalso. destruct e as [pat ep].
  pose proof (operational_closed c r pat ep He Hm Hp) as Hno. rewrite <-Hl in Hno. unfold pathAllowed in Ha. destruct (PathAllowlist c); [by vm_compute in Hl|congruence].
Qed.

Lemma inbound_parsed c r : parsed r → parsed (inbound c r).
Proof. intros Hp. unfold inbound, strip_user. destruct (UserPrefix c); [|done]. cbn. destruct (SplitUserPrefix (Path r)) as [[|x us] path]; [done|by left]. Qed.


(** ** What the log misses *)

(** A handler that panics leaves no line in the access log, though the caller is answered
    500. *)
Lemma panic_unlogged (c : Config) (r : Req) (s : Srv) (serve : endpoint → handler) :
  (∀ st s', ¬ refused c r s st s') → (∀ e r' s', serve e r' s' = (MkResp None ∅ "" (Some false), s')) →
  let '(p, s') := build u c serve r s in status p = Some 500 ∧ accessLog s' = accessLog s.
Proof.
  intros Hno Hpanic. destruct (surface_guards_core c serve r s Hno) as [Hcore _]. cbn zeta in Hcore. rewrite Hpanic in Hcore.
  destruct (build u c serve r s) as [p s']. destruct Hcore as [H1 ->]. rewrite H1. split; [done|]. by destruct (MaxConcurrentRequests c <=? 0).
Qed.
End chain.

(** ** Witnesses *)

Module SurfaceEx.
Definition u : Unicode := MkUnicode (λ s, s) (λ s, s) (λ s t, bool_decide (s = t)).
Definition c : Config := MkConfig (lit "sesame") 1000 1 [] true [] false.
Definition get (path : string) (hs : list (string * string)) : Req :=
  MkReq (lit "GET") (lit path) [] (foldr (λ kv h, <[kv.1 := [kv.2]]> h) ∅ hs) None "" [] "fresh".
Definition s0 : Srv := MkSrv 0 0 0 0 [].
Definition echo (st : Z) : endpoint → handler := λ e _ s, (MkResp (Some match e with MergedModels => 200 | _ => st end) ∅ "" None, s).
Definition ask : Req := get "/alice/v1/models" [("Authorization", "Bearer sesame")]%string.
Definition nokey : Req := get "/alice/v1/models" [].
End SurfaceEx.

Lemma surface_guards_witness :
  status (build SurfaceEx.u (New SurfaceEx.c) (SurfaceEx.echo 500) SurfaceEx.nokey SurfaceEx.s0).1 = Some 401 ∧
  status (build SurfaceEx.u (New SurfaceEx.c) (SurfaceEx.echo 500) SurfaceEx.ask SurfaceEx.s0).1 = Some 200.
Proof.
  split.
  - pose proof (proj1 (surface_guards SurfaceEx.u (New SurfaceEx.c) (SurfaceEx.echo 500) SurfaceEx.nokey SurfaceEx.s0) 401 SurfaceEx.s0) as H.
    destruct (build _ _ _ _ _) as [p s']. apply H. apply at_key; [by vm_compute| |].
    + apply pathAllowed_served. by vm_compute.
    + intros [?|Hk]; [done|]. by vm_compute in Hk.
  - pose proof (proj2 (surface_guards SurfaceEx.u (New SurfaceEx.c) (SurfaceEx.echo 500) SurfaceEx.ask SurfaceEx.s0)) as H. cbn zeta in H.
    assert (Hno : ∀ st s', ¬ refused SurfaceEx.u (New SurfaceEx.c) SurfaceEx.ask SurfaceEx.s0 st s').
    { intros st s' [Hp|_ Hp|_ _ Hk|_ _ _ Hr]; [by vm_compute in Hp| | |].
      - apply Hp, pathAllowed_served. by vm_compute.
      - apply Hk. right. by vm_compute.
      - apply Hr. right. by vm_compute. }
    specialize (H Hno). destruct (build _ _ _ _ _) as [p s'] eqn:E. destruct (SurfaceEx.echo 500 _ _ _) as [q s2] eqn:Eq. cbn [fst]. destruct H as [-> _].
    assert (Hq : dispatch (New SurfaceEx.c) (inbound (New SurfaceEx.c) SurfaceEx.ask) = MergedModels) by (by vm_compute). rewrite Hq in Eq. injection Eq as <- _. done.
Defined.

