(* ===== verification/Gateway.v ===== *)
(** * Gateway: one inference request, from the route table to the last byte

    [inferenceHandler], [relay] and [candidates] of [src/router/internal/gateway/gateway.go],
    [prefill_split.go], [pd_serve.go], and the node sets of [src/router/internal/pd/pd.go].
    The handler runs the capacity loop (CapacityRetry) over [Serve] (Proxy), turn by turn; a
    prefill job and a prefill leg run [Serve] on a writer of their own, which the client does
    not see.  A panic raised in [Serve] passes through the handler, running its deferred
    calls.  The manager's bookkeeping is PrefillManager's; here its calls are events. *)

From stdpp Require Import base gmap list strings.
From Stdlib Require Import ZArith Lia.
From S2P Require Import Prelude KvUnits StreamScan Circuit WaitQ Backend Registry Policy CapacityRetry Proxy ProxySpec GoText Routing.
Open Scope Z_scope.

(** ** The nodes a request may use *)

Section nodes.
Context (u : Unicode).

Definition Normalize (url : bytes) : bytes := TrimRight slash (TrimSpace u url).
Definition PDNew (urls : list bytes) : list bytes := Normalize <$> urls.
Definition IsPrefill (set : list bytes) (b : Backend) : bool := bool_decide (Normalize (lit (URL b)) ∈ set).
Definition pd_filter (set : list bytes) (st : gmap positive Backend) (cands : list positive) (want : bool) : list positive :=
  filter (λ l, IsPrefill set (st !!! l) = want) cands.
Definition PrefillNodes (set : list bytes) (st : gmap positive Backend) (cands : list positive) : list positive := pd_filter set st cands true.
Definition DecodeNodes (set : list bytes) (st : gmap positive Backend) (cands : list positive) : list positive := pd_filter set st cands false.

Definition healthy (now : Z) (dialect : string) (r : Registry.Registry) : list positive :=
  filter (λ l, Available now (store r !!! l) && bool_decide (DialectID (store r !!! l) = dialect) = true) (Backends (cur r)).

(** [split_decode] is the manager's [DecodeNodes], when the target has a manager. *)
Definition candidates (now : Z) (dialect : string) (r : Registry.Registry) (split_decode : option (list positive → list positive)) (pd : option (list bytes)) : list positive :=
  let cs := healthy now dialect r in
  let cs := match split_decode with Some f => f cs | None => cs end in
  match pd with Some set => DecodeNodes set (store r) cs | None => cs end.
End nodes.

(** ** A leg: the capacity loop around [Serve] *)

Record leg_turn := LTurn {
  lt_world : nat → list positive → Proxy.turn;
  lt_turn : CapacityRetry.turn;        (* but for [t_res], which [Serve] decides *)
}.
Definition with_res (r : Result) (t : CapacityRetry.turn) : CapacityRetry.turn :=
  MkTurn (t_cands t) r (t_serve t) (t_join t) (t_inflight t) (t_ticket t) (t_late t) (t_jitter t) (t_draw t).

(** A [proxy.Result] with its rejection, or a panic. *)
Inductive leg_end := LegDone (r : Result) (rejected : option Z) | LegPanic (abort : bool).
Definition rejection (r : SResult) : option Z := if s_PrefillRejected r then Some (s_PrefillTokens r) else None.

Section legs.
Context (mx : Z).

Fixpoint run_leg (fuel : nat) (cfg : RetryConfig) (deadline : Z) (gone : option Z) (rq : request) (w : nat → leg_turn)
  (s : lstate) (rej : option Z) (cl : list Proxy.event) : option (leg_end * list Proxy.event) :=
  match fuel with
  | O => None
  | S f =>
      let t := w (CapacityRetry.attempt s) in
      match t_cands (lt_turn t) with
      | [] => Some (LegDone (l_res (run_turn cfg deadline gone (lt_turn t) s).1) rej, cl)
      | cands =>
          match Serve mx cands rq (lt_world t) with
          | None => None
          | Some (Aborted abort, l) => Some (LegPanic abort, cl ++ l)
          | Some (Result_ r, l) =>
              let '(s, returned) := run_turn cfg deadline gone (with_res (to_Result r) (lt_turn t)) s in
              if returned then Some (LegDone (l_res s) (rejection r), cl ++ l)
              else run_leg f cfg deadline gone rq w s (rejection r) (cl ++ l)
          end
      end
  end.
Definition leg (fuel : nat) (cfg : RetryConfig) (gone : option Z) (rq : request) (w : nat → leg_turn) (now : Z) : option (leg_end * list Proxy.event) :=
  run_leg fuel cfg (now + RetryTimeLimit cfg) gone rq w (start_at now) None [].

(** ** Requests of the router's own *)

Definition maxJobRetryWait : Z := 5 * Second.
(** The wait before the next try; [retryAfter] is the parsed header, if it parsed. *)
Definition job_wait (attempt : nat) (jitter : Z) (retryAfter : option Z) : Z :=
  match retryAfter with
  | Some ra => if 0 <=? ra then Z.min (ra * Second) maxJobRetryWait else backoffAt attempt jitter (3600 * Second)
  | None => backoffAt attempt jitter (3600 * Second)
  end.

Record aside_turn := ATurn {
  at_cands : list positive;
  at_world : nat → list positive → Proxy.turn;
  at_waited : bool;              (* the wait ran out before the caller left *)
  at_gone : bool;                (* the caller had left when the attempt was judged *)
  at_late : bool;                (* the retry limit, when there is one, had run out then *)
  at_params : bool;              (* the answer carried [kv_transfer_params] *)
}.
Inductive aside_end := AsideOK | AsideFailed | AsideNoNode | AsidePanic (abort : bool).

Definition is2xx (r : SResult) : bool := bool_decide (s_Err r = None) && (200 <=? s_Status r) && (s_Status r <? 300).

(** [runPrefillJob]: on the job's node alone, until it is served or fails. *)
Fixpoint runPrefillJob (fuel : nat) (rq : request) (b : positive) (w : nat → aside_turn) (k : nat) (l0 : list Proxy.event) : option (aside_end * list Proxy.event) :=
  match fuel with
  | O => None
  | S f =>
      match Serve mx [b] rq (at_world (w k)) with
      | None => None
      | Some (Aborted abort, l) => Some (AsidePanic abort, l0 ++ l)
      | Some (Result_ r, l) =>
          if is2xx r && negb (s_PrefillRejected r) then Some (AsideOK, l0 ++ l)
          else if negb (s_Status r =? 429) || bool_decide (s_Err r ≠ None) then Some (AsideFailed, l0 ++ l)
          else if at_waited (w k) then runPrefillJob f rq b w (S k) (l0 ++ l)
          else Some (AsideFailed, l0 ++ l)
      end
  end.

(** [runPDPrefill]: a P node of those there are, under the retry limit. *)
Fixpoint runPDPrefill (fuel : nat) (cfg : RetryConfig) (rq : request) (w : nat → aside_turn) (k : nat) (l0 : list Proxy.event) : option (aside_end * list Proxy.event) :=
  match fuel with
  | O => None
  | S f =>
      let t := w k in
      match at_cands t with
      | [] => Some (AsideNoNode, l0)
      | cands =>
          match Serve mx cands rq (at_world t) with
          | None => None
          | Some (Aborted abort, l) => Some (AsidePanic abort, l0 ++ l)
          | Some (Result_ r, l) =>
              let refused := isCapacityRefusal (to_err <$> s_Err r) || (bool_decide (s_Err r = None) && (s_Status r =? 429)) in
              if refused && negb (at_gone t) && ((RetryTimeLimit cfg <=? 0) || negb (at_late t)) && at_waited t then runPDPrefill f cfg rq w (S k) (l0 ++ l)
              else if negb (is2xx r) then Some (AsideFailed, l0 ++ l)
              else Some (if at_params t then AsideOK else AsideFailed, l0 ++ l)
          end
      end
  end.

(** ** The handler *)

Inductive gevent :=
  | GClient (l : list Proxy.event)     (* [Serve] on the client's writer *)
  | GAside (l : list Proxy.event)      (* on a writer the client does not see *)
  | GReserved (b : positive)
  | GReady (ok : bool)
  | GJob (ok : bool)
  | GDone                              (* [Job.Done] *)
  | GNoNode
  | GStatus (st : Z).                  (* the gateway's own answer *)

(** [HEnd] with the result the handler ended with, if it came to one. *)
Inductive hend := HEnd (r : option Result) | HPanic (abort : bool).

(** What a request meets. *)
Record iworld := IWorld {
  i_readable : bool;                   (* the body fits *)
  i_target : option Target;
  i_cands : list positive;
  i_len : Z;
  i_bypass : bool;                     (* [HasBypass] of the body *)
  i_pdroute : bool;                    (* [pdRoute] of the class *)
  i_gone : option Z;                   (* when the caller leaves *)
  i_left : bool;                       (* whether it had, at the end *)
  i_relay : bool * reply;
  i_pd : nat → aside_turn;
  i_now1 : Z;
  i_leg1 : nat → leg_turn;
  i_reserve : option positive;         (* the node [Reserve] gives *)
  i_ready : bool;                      (* [WaitReady] *)
  i_job : nat → aside_turn;
  i_orig_ok : bool;                    (* the refusing backend is available and in decode *)
  i_orig : nat → list positive → Proxy.turn;
  i_now2 : Z;
  i_leg2 : nat → leg_turn;
}.

(** The pool's flow commits and observes; a prefill job's does not. *)
Definition client_request (w : iworld) (capture : bool) : request := Request (i_len w) capture true true true.
Definition job_request (w : iworld) : request := Request (i_len w) false false false true.

Definition respond (r : Result) (left : bool) : option Z :=
  if r_Committed r then None
  else match r_Err r with
       | None => None
       | Some ErrNodeQueueFull => Some 503
       | Some (SelErr ErrSplitGuardBlocked) => Some 429
       | Some (SelErr e) => if is_saturated e then Some 429 else Some (if left then 499 else 502)
       | Some (OtherErr _) => Some (if left then 499 else 502)
       end.
Definition respond_events (r : Result) (left : bool) : list gevent := match respond r left with Some st => [GStatus st] | None => [] end.

(** [serveOnOriginal]. *)
Definition serveOnOriginal (fuel : nat) (cfg : RetryConfig) (w : iworld) (orig : option positive) : option (leg_end * list Proxy.event) :=
  match orig with
  | Some b =>
      if i_orig_ok w then
        match Serve mx [b] (client_request w false) (i_orig w) with
        | None => None
        | Some (Aborted abort, l) => Some (LegPanic abort, l)
        | Some (Result_ r, l) => Some (LegDone (to_Result r) (rejection r), l)
        end
      else leg fuel cfg (i_gone w) (client_request w false) (i_leg2 w) (i_now2 w)
  | None => leg fuel cfg (i_gone w) (client_request w false) (i_leg2 w) (i_now2 w)
  end.

(** [splitAndServe], from a result that was rejected. The deferred [Done] runs on every way
    out of a reserved job, after the explicit one too, where it does nothing. *)
Definition splitAndServe (fuel : nat) (cfg : RetryConfig) (w : iworld) (rejected : Result) : option (leg_end * list gevent) :=
  match i_reserve w with
  | None => '(e, l) ← serveOnOriginal fuel cfg w (r_Backend rejected); Some (e, [GNoNode; GClient l])
  | Some b =>
      if negb (i_ready w) then Some (LegDone (set_Err (OtherErr "context") zero_result) None, [GReserved b; GReady false; GDone])
      else
        '(a, l) ← runPrefillJob fuel (job_request w) b (i_job w) 0 [];
        match a with
        | AsidePanic abort => Some (LegPanic abort, [GReserved b; GReady true; GAside l; GDone])
        | _ =>
            '(e, l2) ← leg fuel cfg (i_gone w) (client_request w false) (i_leg2 w) (i_now2 w);
            Some (e, [GReserved b; GReady true; GAside l; GJob (match a with AsideOK => true | _ => false end); GDone; GClient l2; GDone])
        end
  end.

(** [pdServe], or the capacity loop alone. *)
Definition first_leg (fuel : nat) (cfg : RetryConfig) (w : iworld) (t : Target) : option (leg_end * list gevent) :=
  let capture := bool_decide (is_Some (tSplit t)) && negb (i_bypass w) in
  let decode := '(e, l) ← leg fuel cfg (i_gone w) (client_request w capture) (i_leg1 w) (i_now1 w); Some (e, [GClient l]) in
  if bool_decide (is_Some (PD t)) && i_pdroute w then
    '(a, l) ← runPDPrefill fuel cfg (client_request w capture) (i_pd w) 0 [];
    match a with
    | AsidePanic abort => Some (LegPanic abort, [GAside l])
    | _ => '(e, evs) ← decode; Some (e, GAside l :: evs)
    end
  else decode.

(** [relay]. *)
Definition relay (w : iworld) (b : positive) : hend * list gevent :=
  match Relay (client_request w false) b (i_relay w).1 (i_relay w).2 with
  | (Aborted abort, l) => (HPanic abort, [GClient l])
  | (Result_ r, l) => (HEnd (Some (to_Result r)), GClient l :: (if bool_decide (s_Err r = None) || s_Committed r then [] else [GStatus 502]))
  end.

Definition inferenceHandler (fuel : nat) (cfg : RetryConfig) (w : iworld) : option (hend * list gevent) :=
  if negb (i_readable w) then Some (HEnd None, [GStatus 413])
  else match i_target w with
  | None => Some (HEnd None, [GStatus 404])
  | Some t =>
      match i_cands w with
      | [] => Some (HEnd None, [GStatus 503])
      | b :: _ =>
          if Transparent t then Some (relay w b)
          else
            '(e, evs) ← first_leg fuel cfg w t;
            match e with
            | LegPanic abort => Some (HPanic abort, evs)
            | LegDone r None => Some (HEnd (Some r), evs ++ respond_events r (i_left w))
            | LegDone r (Some _) =>
                '(e2, evs2) ← splitAndServe fuel cfg w r;
                match e2 with
                | LegPanic abort => Some (HPanic abort, evs ++ evs2)
                | LegDone r _ => Some (HEnd (Some r), evs ++ evs2 ++ respond_events r (i_left w))
                end
            end
      end
  end.
End legs.
