(* ===== verification/GatewaySpec.v ===== *)
(** * GatewaySpec: what a caller of the router is told

    Theorems about Gateway, by way of those of Proxy and CapacityRetry. *)

From stdpp Require Import base gmap list strings.
From Stdlib Require Import ZArith Lia.
From S2P Require Import Prelude KvUnits StreamScan Circuit WaitQ Backend Registry Policy CapacityRetry Proxy ProxySpec GoText Routing Gateway.
Open Scope Z_scope.

(** The status lines a caller gets, in order. *)
Definition status_of (e : gevent) : list Z :=
  match e with GClient l => (headers l).*2 | GStatus st => [st] | _ => [] end.
Definition statuses (l : list gevent) : list Z := mjoin (status_of <$> l).
Lemma statuses_app a b : statuses (a ++ b) = statuses a ++ statuses b.
Proof. unfold statuses. by rewrite fmap_app, join_app. Qed.

(** What the legs rely on: selectors answer with a candidate or an error, timers fire late. *)
Definition sane_world (w : nat → list positive → Proxy.turn) : Prop :=
  (∀ k cs b, t_chosen (w k cs) = (Some b, None) → b ∈ cs) ∧ (∀ k cs, t_chosen (w k cs) ≠ (None, None)).
Definition sane_leg (w : nat → leg_turn) : Prop := ∀ k, sane_world (lt_world (w k)) ∧ 0 ≤ t_late (lt_turn (w k)).
Definition sane_request (w : iworld) : Prop := sane_leg (i_leg1 w) ∧ sane_leg (i_leg2 w) ∧ sane_world (i_orig w).

(** A result that claims no error and has no answer: nothing was tried, or the last answer was
    put back for a retry that never came. *)
Definition silent (r : Result) : Prop := r = zero_result ∨ r_Status r ∈ [502; 503; 504; 408; 429].

Definition leg_ok (rq : request) (e : leg_end) (cl : list Proxy.event) : Prop :=
  match e with
  | LegPanic _ => (length (headers cl) ≤ 1)%nat
  | LegDone r rej =>
      (if r_Committed r then length (headers cl) = 1%nat else headers cl = []) ∧
      (rej ≠ None → capture rq = true ∧ r_Committed r = false ∧ r_Err r = None) ∧
      (r_Err r = None → r_Committed r = false → rej = None → silent r)
  end.

Section legs.
Context (mx : Z) (Hmx : 0 < mx).

(** One [Serve] on the client's writer. *)
Lemma serve_leg_ok cands rq w r l : sane_world w → Serve mx cands rq w = Some (r, l) →
  leg_ok rq (match r with Result_ r => LegDone (to_Result r) (rejection r) | Aborted a => LegPanic a end) l.
Proof.
  intros [Hsel Hans] Hs. destruct (serve_ok mx cands rq w r l Hmx Hsel Hs) as [[_ _ _ _ Hh] Ht].
  assert (Hlen : (length (headers l) ≤ 1)%nat) by (destruct Hh as [[-> _]|(b & st & -> & _)]; cbn; lia).
  destruct r as [r|a]; [|done]. destruct (serve_outcome mx cands rq w r l Hmx Hsel Hans Hs) as [[O1 O2] O3]. destruct Ht as (_ & _ & Hc & _). cbn [leg_ok to_Result r_Committed r_Err]. unfold rejection. split_and!.
  - destruct (s_Committed r).
    + destruct (headers l) as [|? [|]]; [by destruct Hc as [Hc _]; destruct Hc|done|cbn in Hlen; lia].
    + destruct (headers l); [done|]. by destruct Hc as [_ Hc]; discriminate Hc.
  - destruct (s_PrefillRejected r); [|done]. intros _. destruct O1 as (O1 & O1' & O1''); [done|]. by rewrite O1', O1''.
  - intros He Hcm Hrej. right. assert (He' : s_Err r = None) by (by destruct (s_Err r)). destruct (O2 He') as [?|[?|[Hr|?]]]; [by destruct (O3 He')|congruence|by rewrite Hr in Hrej|done].
Qed.

(** Only a refusal has its error replaced. *)
Lemma run_turn_keeps cfg dl gone t s s' : t_cands t ≠ [] → isCapacityRefusal (r_Err (t_res t)) = false ∨ r_Committed (t_res t) = true →
  run_turn cfg dl gone t s = (s', true) → l_res s' = t_res t.
Proof.
  intros Hc Hr. unfold run_turn. destruct (t_cands t) as [|c cs]; [done|]. cbn zeta. destruct (serve_once_frame t (c :: cs) (snapshot s)) as (_ & _ & F3 & _).
  set (s1 := serve_once _ _ _) in *. clearbody s1. rewrite F3. assert ((RetryTimeLimit cfg <=? 0) || negb (isCapacityRefusal (r_Err (t_res t))) || r_Committed (t_res t) = true) as ->
    by (destruct Hr as [-> | ->]; [by rewrite orb_true_r|by rewrite !orb_true_r]).
  intros [= <-]. destruct (settle_frame (match r_Err (t_res t) with None => satisfied | Some _ => abandoned end) s1) as (_ & _ & -> & _). done.
Qed.
Lemma run_turn_empty cfg dl gone t s : t_cands t = [] → l_res (run_turn cfg dl gone t s).1 = l_res s.
Proof.
  intros Hc. unfold run_turn. rewrite Hc. cbn [fst]. destruct (settle_frame abandoned (snapshot s)) as (_ & _ & -> & _). unfold snapshot. by destruct (lastReason s).
Qed.

Lemma run_leg_ok cfg dl gone rq w : sane_leg w → ∀ f s rej cl e cl', 
  headers cl = [] → rej = None → (l_res s = zero_result ∨ isCapacityRefusal (r_Err (l_res s)) = true ∧ r_Committed (l_res s) = false) →
  run_leg mx f cfg dl gone rq w s rej cl = Some (e, cl') → leg_ok rq e cl'.
Proof.
  intros Hsane f. induction f as [|f IH]; intros s rej cl e cl' Hcl -> Hs Hrun; [done|]. cbn [run_leg] in Hrun.
  set (t := w (CapacityRetry.attempt s)) in *. destruct (Hsane (CapacityRetry.attempt s)) as [Hw Hlate]. fold t in Hw, Hlate.
  destruct (t_cands (lt_turn t)) as [|c cs] eqn:Hc.
  - injection Hrun as <- <-. cbn [leg_ok]. rewrite run_turn_empty by done. destruct Hs as [->|[Hr Hcm]].
    + cbn. split_and!; [done|done|by left].
    + rewrite Hcm. split_and!; [done|done|]. intros He. rewrite He in Hr. done.
  - destruct (Serve mx (c :: cs) rq (lt_world t)) as [[r l]|] eqn:Es; [|done]. pose proof (serve_leg_ok _ _ _ _ _ Hw Es) as Hok. destruct r as [r|a].
    2:{ injection Hrun as <- <-. cbn [leg_ok] in *. by rewrite headers_app, Hcl. }
    set (t' := with_res (to_Result r) (lt_turn t)) in *. destruct (run_turn cfg dl gone t' s) as [s' ret] eqn:Et. destruct ret.
    + injection Hrun as <- <-. cbn [leg_ok] in Hok |- *. rewrite headers_app, Hcl. cbn [app]. assert (Hne : t_cands t' ≠ []) by (by cbn; rewrite Hc).
      destruct (decide (isCapacityRefusal (r_Err (t_res t')) = false ∨ r_Committed (t_res t') = true)) as [Hk|Hk].
      { rewrite (run_turn_keeps _ _ _ _ _ _ Hne Hk Et). exact Hok. }
      destruct (run_turn_done cfg dl gone t' s s' Hlate Et) as [_ [[? _]|[_ [-> | ->]]]]; [by destruct Hne|exact Hok|]. cbn [t_res t' with_res set_Err r_Committed r_Err].
      destruct Hok as (K1 & K2 & K3). split_and!; [exact K1| |intros ?; discriminate]. intros Hrej. destruct (K2 Hrej) as (Ka & Kb & Kc). exfalso. apply Hk. left. cbn. cbn in Kc. by rewrite Kc.
    + apply run_turn_again in Et as (_ & _ & _ & Hr & Hcm & _ & Hres). cbn [leg_ok] in Hok. cbn [t_res t' with_res] in *.
      destruct Hok as (K1 & K2 & _). rewrite Hcm in K1. apply (IH s' (rejection r) (cl ++ l) e cl'); [by rewrite headers_app, Hcl, K1| |right; by rewrite Hres|done].
      destruct (rejection r) eqn:Erj; [|done]. destruct K2 as (_ & _ & K2); [done|]. by rewrite K2 in Hr.
Qed.

Lemma leg_is_ok fuel cfg gone rq w now e cl : sane_leg w → leg mx fuel cfg gone rq w now = Some (e, cl) → leg_ok rq e cl.
Proof. intros Hw. apply run_leg_ok; [done|done|done|by left]. Qed.

Lemma orig_is_ok fuel cfg w o e cl : sane_request w → serveOnOriginal mx fuel cfg w o = Some (e, cl) → leg_ok (client_request w false) e cl.
Proof.
  intros (_ & H2 & Ho). unfold serveOnOriginal. destruct o as [b|]; [|by apply leg_is_ok]. destruct (i_orig_ok w); [|by apply leg_is_ok].
  destruct (Serve mx [b] _ _) as [[r l]|] eqn:E; [|done]. pose proof (serve_leg_ok _ _ _ _ _ Ho E) as Hok. by destruct r; intros [= <- <-].
Qed.
End legs.

(** ** One answer *)

Lemma statuses_aside l evs : statuses (GAside l :: evs) = statuses evs.
Proof. done. Qed.
Lemma statuses_client l : statuses [GClient l] = (headers l).*2.
Proof. unfold statuses. cbn. by rewrite app_nil_r. Qed.

(** What the handler holds after the legs: the statuses sent so far, and a result. *)
Definition held (sent : list Z) (e : leg_end) : Prop :=
  match e with
  | LegPanic _ => (length sent ≤ 1)%nat
  | LegDone r rej => (if r_Committed r then length sent = 1%nat else sent = []) ∧ (rej ≠ None → r_Committed r = false ∧ r_Err r = None) ∧
      (r_Err r = None → r_Committed r = false → rej = None → silent r)
  end.
Lemma leg_held rq e l : leg_ok rq e l → held (headers l).*2 e.
Proof.
  destruct e as [r rej|a]; cbn; rewrite ?length_fmap; [|done]. intros (H1 & H2 & H3). split_and!; [|naive_solver|done].
  destruct (r_Committed r); [done|by rewrite H1].
Qed.
Lemma uncaptured_held rq e l : leg_ok rq e l → capture rq = false → match e with LegDone r rej => held (headers l).*2 (LegDone r None) ∧ rej = None | LegPanic _ => True end.
Proof.
  intros Hok Hc. pose proof (leg_held _ _ _ Hok) as Hh. destruct e as [r rej|a]; [|done]. destruct Hok as (_ & H2 & _).
  assert (rej = None) as -> by (destruct rej; [destruct H2 as [H2 _]; [done|congruence]|done]). done.
Qed.

Section answer.
Context (mx : Z) (Hmx : 0 < mx) (fuel : nat) (cfg : RetryConfig) (w : iworld) (Hsane : sane_request w).

Lemma first_leg_held t e evs : first_leg mx fuel cfg w t = Some (e, evs) → held (statuses evs) e.
Proof.
  destruct Hsane as (H1 & _). unfold first_leg. cbn zeta. set (capture := bool_decide (is_Some (tSplit t)) && _).
  assert (Hleg : ∀ e evs, ('(e, l) ← leg mx fuel cfg (i_gone w) (client_request w capture) (i_leg1 w) (i_now1 w); Some (e, [GClient l])) = Some (e, evs) → held (statuses evs) e).
  { intros e' evs' ([e2 l] & Hl & [= <- <-])%bind_Some. rewrite statuses_client. eapply leg_held, leg_is_ok; [exact Hmx|exact H1|exact Hl]. }
  destruct (_ && i_pdroute w); [|apply Hleg]. intros ([a l] & Ha & Hrest)%bind_Some. destruct a as [| | |abort].
  1-3: apply bind_Some in Hrest as ([e2 evs2] & He2 & [= <- <-]); rewrite statuses_aside; by apply Hleg.
  injection Hrest as <- <-. cbn. lia.
Qed.

Lemma split_held r e evs : splitAndServe mx fuel cfg w r = Some (e, evs) →
  match e with LegDone r2 rej => held (statuses evs) (LegDone r2 None) ∧ rej = None | LegPanic _ => (length (statuses evs) ≤ 1)%nat end.
Proof.
  destruct Hsane as (_ & H2 & _). unfold splitAndServe. destruct (i_reserve w) as [b|].
  - destruct (i_ready w); cbn [negb].
    2:{ intros [= <- <-]. cbn. split_and!; done. }
    intros ([a l] & _ & Hrest)%bind_Some. destruct a as [| | |abort]; [| | |injection Hrest as <- <-; cbn; lia].
    all: apply bind_Some in Hrest as ([e2 l2] & Hl & [= <- <-]); apply (leg_is_ok mx Hmx) in Hl; [|exact H2];
      match goal with |- context [statuses ?x] => assert (Hst : statuses x = (headers l2).*2) by (unfold statuses; cbn; by rewrite app_nil_r) end; rewrite Hst;
      destruct e2 as [r2 rej|ab]; [exact (uncaptured_held _ _ _ Hl eq_refl)|apply leg_held in Hl; exact Hl].
  - intros ([e2 l] & Hl & [= <- <-])%bind_Some. apply (orig_is_ok mx Hmx) in Hl; [|exact Hsane].
    assert (Hst : statuses [GNoNode; GClient l] = (headers l).*2) by (unfold statuses; cbn; by rewrite app_nil_r). rewrite Hst.
    destruct e2 as [r2 rej|ab]; [exact (uncaptured_held _ _ _ Hl eq_refl)|apply leg_held in Hl; exact Hl].
Qed.

(** Whether [respond] writes. *)
Lemma respond_none r left : respond r left = None ↔ r_Committed r = true ∨ r_Err r = None.
Proof.
  unfold respond. destruct (r_Committed r); [by split; [left|]|]. destruct (r_Err r) as [[[]| |]|]; cbn; destruct left; split; try tauto; try done; by intros [?|?].
Qed.

Definition answered (r : option Result) (sent : list Z) : Prop :=
  length sent = 1%nat ∨ sent = [] ∧ ∃ r', r = Some r' ∧ silent r' ∧ r_Err r' = None ∧ r_Committed r' = false.

Lemma held_answered sent r left : held sent (LegDone r None) → answered (Some r) (sent ++ statuses (respond_events r left)).
Proof.
  intros (H1 & _ & H3). unfold respond_events. destruct (respond r left) as [st|] eqn:E.
  - left. destruct (r_Committed r) eqn:Ec; [|by rewrite H1]. assert (respond r left = None) by (apply respond_none; by left). congruence.
  - rewrite app_nil_r. destruct (r_Committed r) eqn:Ec; [by left|]. right. split; [done|]. exists r. apply respond_none in E as [?|He]; [congruence|]. by split_and!; [|apply H3|..].
Qed.

Lemma relay_answered b : match relay w b with (HEnd r, l) => length (statuses l) = 1%nat | (HPanic _, l) => (length (statuses l) ≤ 1)%nat end.
Proof.
  unfold relay, Relay, attempt. cbn [Gateway.client_request bodyLen capture under_server]. set (rq := Request _ _ _ _ _).
  pose proof (round_trip_delivered rq false (i_relay w).1 b (i_relay w).2) as Hd.
  assert (Hno : ∀ evs cm o, round_trip rq false false (i_relay w).1 b (i_relay w).2 = (evs, cm, Returned o) → cm = false → o_err o ≠ None).
  { intros evs cm o. unfold round_trip. destruct (i_relay w).2 as [|e| |a]; [by intros [= _ _ <-]|intros [= _ _ <-] _; unfold conclude; by destruct (_ && _)|done|]. cbn zeta.
    unfold modifyResponse. cbn [capture rq andb]. cbn zeta. destruct (if a_status a =? 503 then a_rejection a else None); cbn [Gateway.client_request capture]; destruct (_ && under_server rq); by intros [= _ <- _]. }
  destruct (round_trip rq false false (i_relay w).1 b (i_relay w).2) as [[evs cm] e] eqn:E. destruct Hd as (Hd & _).
  assert (Hh : headers (([EAcquire b; EStartActive b (body_tokens rq); EStartPrefill b 0] ++ evs ++ [ERelease b])) = headers evs) by (rewrite !headers_app; cbn; by rewrite app_nil_r).
  destruct e as [o|a].
  - assert (Hh' : headers (([EAcquire b; EStartActive b (body_tokens rq); EStartPrefill b 0] ++ evs ++ [ERelease b]) ++ [countOutcome b o]) = headers evs) by (rewrite headers_app, Hh; cbn; by rewrite app_nil_r).
    cbn [s_Err s_Committed]. unfold statuses. rewrite fmap_cons. cbn [mjoin list_join status_of]. rewrite Hh'. destruct Hd as [(-> & -> & _)|(-> & st & -> & _)].
    + specialize (Hno evs false o eq_refl eq_refl). rewrite bool_decide_false; [done|]. by destruct (o_err o).
    + by rewrite orb_true_r.
  - unfold statuses. cbn [fmap list_fmap mjoin list_join status_of]. rewrite Hh, app_nil_r. destruct Hd as [(_ & -> & _)|(_ & st & -> & _)]; cbn; lia.
Qed.

(** C8: Every request is answered once, but for one kind.  Whatever the fleet, the retry loops and
    a prefill split do, the caller never gets two status lines, and gets exactly one, the
    upstream's or the gateway's, unless the response was aborted by a panic. The exception is
    real: when the last answer was put back for a retry that never came, or the fleet had
    emptied before the first turn, the handler writes nothing at all. *)
Theorem one_answer (e : hend) (l : list gevent) (Hrun : inferenceHandler mx fuel cfg w = Some (e, l)) :
  (length (statuses l) ≤ 1)%nat ∧
  (∀ r, e = HEnd r → length (statuses l) = 1%nat ∨
     statuses l = [] ∧ ∃ r', r = Some r' ∧ r_Err r' = None ∧ r_Committed r' = false ∧ (r' = zero_result ∨ r_Status r' ∈ [502; 503; 504; 408; 429])).
Proof.
  assert (Hdone : ∀ r sent, answered r sent → (length sent ≤ 1)%nat ∧ (length sent = 1%nat ∨
     sent = [] ∧ ∃ r', r = Some r' ∧ r_Err r' = None ∧ r_Committed r' = false ∧ (r' = zero_result ∨ r_Status r' ∈ [502; 503; 504; 408; 429]))).
  { intros r sent [H|(-> & r' & -> & Hs & He & Hc)]; [lia|]. split; [cbn; lia|]. right. split; [done|]. by exists r'. }
  unfold inferenceHandler in Hrun. destruct (i_readable w); cbn [negb] in Hrun.
  2:{ injection Hrun as <- <-. split; [done|]. intros r [= <-]. by left. }
  destruct (i_target w) as [t|].
  2:{ injection Hrun as <- <-. split; [done|]. intros r [= <-]. by left. }
  destruct (i_cands w) as [|b cs].
  { injection Hrun as <- <-. split; [done|]. intros r [= <-]. by left. }
  destruct (Transparent t).
  { injection Hrun as Hrun. pose proof (relay_answered b) as H. rewrite Hrun in H. destruct e as [r|a]; [|done]. split; [lia|]. intros r' _. by left. }
  apply bind_Some in Hrun as ([e1 evs] & Hf & Hrun). pose proof (first_leg_held t e1 evs Hf) as Hh. destruct e1 as [r rej|a].
  2:{ injection Hrun as <- <-. cbn in Hh. by split. }
  destruct rej as [n|].
  - apply bind_Some in Hrun as ([e2 evs2] & Hs & Hrun). apply split_held in Hs. destruct Hh as (Hh1 & Hh2 & _). destruct Hh2 as [Hh2 _]; [done|]. rewrite Hh2 in Hh1.
    destruct e2 as [r2 rej2|a].
    + injection Hrun as <- <-. destruct Hs as [Hs _]. rewrite !statuses_app, Hh1. apply (held_answered _ _ (i_left w)) in Hs. destruct (Hdone _ _ Hs) as [D1 D2]. split; [done|]. by intros r' [= <-].
    + injection Hrun as <- <-. rewrite statuses_app, Hh1. by split.
  - injection Hrun as <- <-. rewrite statuses_app. apply (held_answered _ _ (i_left w)) in Hh. destruct (Hdone _ _ Hh) as [D1 D2]. split; [done|]. by intros r' [= <-].
Qed.
End answer.

(** ** Every request ends *)

(** Time passes in each turn, and a wait for a prefill node that keeps answering 429 does not
    outlast the caller. *)
Definition timed_leg (w : nat → leg_turn) : Prop := ∀ k, 1 ≤ t_serve (lt_turn (w k)) ∧ 0 ≤ t_jitter (lt_turn (w k)).
Definition patient (w : nat → aside_turn) : Prop := (∀ k, sane_world (at_world (w k))) ∧ ∃ k, at_waited (w k) = false.

Section ends.
Context (mx : Z) (Hmx : 0 < mx) (cfg : RetryConfig).

Lemma run_leg_mono gone rq w dl : ∀ f f' s rej cl x, (f ≤ f')%nat → run_leg mx f cfg dl gone rq w s rej cl = Some x → run_leg mx f' cfg dl gone rq w s rej cl = Some x.
Proof.
  induction f as [|f IH]; intros f' s rej cl x Hle Hrun; [done|]. destruct f' as [|f']; [lia|]. cbn [run_leg] in *.
  destruct (t_cands _) as [|c cs]; [done|]. destruct (Serve _ _ _ _) as [[[r|a] l]|]; [|done|done]. destruct (run_turn _ _ _ _ _) as [s' []]; [done|]. apply IH; [lia|done].
Qed.

Lemma leg_ends gone rq w now : sane_leg w → timed_leg w → is_Some (leg mx (S (Z.to_nat (RetryTimeLimit cfg))) cfg gone rq w now).
Proof.
  intros Hw Ht. unfold leg. enough (Hgen : ∀ f s rej cl, now + RetryTimeLimit cfg - l_now s ≤ Z.of_nat f → is_Some (run_leg mx (S f) cfg (now + RetryTimeLimit cfg) gone rq w s rej cl)) by (apply Hgen; cbn; lia).
  induction f as [|f IH]; intros s rej cl Hf; cbn [run_leg]; set (t := w (CapacityRetry.attempt s)); (destruct (t_cands (lt_turn t)) as [|c cs]; [done|]);
    destruct (Hw (CapacityRetry.attempt s)) as [[Hsel _] Hlate]; destruct (Ht (CapacityRetry.attempt s)) as [Hs Hj];
    destruct (serve_returns mx (c :: cs) rq (lt_world t) Hmx Hsel) as [[[r|a] l] ->]; try done;
    destruct (run_turn _ _ _ _ _) as [s' []] eqn:E; try done.
  - exfalso. apply run_turn_again in E as (_ & _ & _ & _ & _ & Hlt & _). cbn in Hlt. fold t in Hs. lia.
  - apply IH. apply run_turn_advances in E; [|exact Hs|exact Hlate|exact Hj]. cbn in E. fold t in Hs. lia.
Qed.

Lemma job_mono rq b w : ∀ f f' k l0 x, (f ≤ f')%nat → runPrefillJob mx f rq b w k l0 = Some x → runPrefillJob mx f' rq b w k l0 = Some x.
Proof.
  induction f as [|f IH]; intros f' k l0 x Hle Hrun; [done|]. destruct f' as [|f']; [lia|]. cbn [runPrefillJob] in *.
  destruct (Serve _ _ _ _) as [[[r|a] l]|]; [|done|done]. destruct (_ && _); [done|]. destruct (_ || _); [done|]. destruct (at_waited _); [|done]. apply IH; [lia|done].
Qed.
Lemma job_ends rq b w : patient w → ∃ n, ∀ f, (n ≤ f)%nat → is_Some (runPrefillJob mx f rq b w 0 []).
Proof.
  intros [Hw [k Hk]]. exists (S k). intros f Hf. enough (Hgen : ∀ n j l0, (j + n = k)%nat → is_Some (runPrefillJob mx (S n) rq b w j l0)).
  { destruct (Hgen k 0%nat [] ltac:(lia)) as [x Hx]. exists x. by apply (job_mono rq b w (S k) f). }
  induction n as [|n IH]; intros j l0 Hj; cbn [runPrefillJob]; destruct (serve_returns mx [b] rq (at_world (w j)) Hmx (proj1 (Hw j))) as [[[r|a] l] ->]; try done;
    (destruct (_ && _); [done|]); (destruct (_ || _); [done|]); (destruct (at_waited (w j)) eqn:E; [|done]).
  - assert (j = k) as -> by lia. congruence.
  - apply IH. lia.
Qed.

Lemma pd_mono rq w : ∀ f f' k l0 x, (f ≤ f')%nat → runPDPrefill mx f cfg rq w k l0 = Some x → runPDPrefill mx f' cfg rq w k l0 = Some x.
Proof.
  induction f as [|f IH]; intros f' k l0 x Hle Hrun; [done|]. destruct f' as [|f']; [lia|]. cbn [runPDPrefill] in *. destruct (at_cands _) as [|c cs]; [done|].
  destruct (Serve _ _ _ _) as [[[r|a] l]|]; [|done|done]. destruct (_ && _); [|done]. apply IH; [lia|done].
Qed.
Lemma pd_ends rq w : patient w → ∃ n, ∀ f, (n ≤ f)%nat → is_Some (runPDPrefill mx f cfg rq w 0 []).
Proof.
  intros [Hw [k Hk]]. exists (S k). intros f Hf. enough (Hgen : ∀ n j l0, (j + n = k)%nat → is_Some (runPDPrefill mx (S n) cfg rq w j l0)).
  { destruct (Hgen k 0%nat [] ltac:(lia)) as [x Hx]. exists x. by apply (pd_mono rq w (S k) f). }
  induction n as [|n IH]; intros j l0 Hj; cbn [runPDPrefill]; (destruct (at_cands (w j)) as [|c cs]; [done|]);
    destruct (serve_returns mx (c :: cs) rq (at_world (w j)) Hmx (proj1 (Hw j))) as [[[r|a] l] ->]; try done.
  - assert (j = k) as -> by lia. rewrite Hk, andb_false_r. by destruct (negb _).
  - destruct (_ && at_waited _); [apply IH; lia|]. by destruct (negb _).
Qed.

(** C39: Every request ends.  Whatever the fleet answers, the handler returns, or passes on a
    panic: the capacity loops by their budget, a prefill job or leg at the latest when the
    caller it waits for has left. *)
Theorem handler_terminates (w : iworld) (Hsane : sane_request w) (Ht1 : timed_leg (i_leg1 w)) (Ht2 : timed_leg (i_leg2 w))
  (Hjob : patient (i_job w)) (Hpd : patient (i_pd w)) : ∃ fuel, is_Some (inferenceHandler mx fuel cfg w).
Proof.
  destruct Hsane as (H1 & H2 & Ho). set (n0 := S (Z.to_nat (RetryTimeLimit cfg))).
  assert (Hleg : ∀ w' rq now f, sane_leg w' → timed_leg w' → (n0 ≤ f)%nat → is_Some (leg mx f cfg (i_gone w) rq w' now)).
  { intros w' rq now f Hw Ht Hf. destruct (leg_ends (i_gone w) rq w' now Hw Ht) as [x Hx]. exists x. unfold leg in *. by apply (run_leg_mono _ _ _ _ n0 f). }
  assert (Hnode : ∀ b, ∃ n, ∀ f, (n ≤ f)%nat → is_Some (runPrefillJob mx f (job_request w) b (i_job w) 0 [])) by (intros b; by apply job_ends).
  assert (Hjobs : ∃ n, ∀ f, (n ≤ f)%nat → ∀ b, i_reserve w = Some b → is_Some (runPrefillJob mx f (job_request w) b (i_job w) 0 [])).
  { destruct (i_reserve w) as [b|]; [|by exists 0%nat]. destruct (Hnode b) as [n Hn]. exists n. intros f Hf b' [= <-]. by apply Hn. }
  destruct Hjobs as [n1 Hjobs]. assert (Hpds : ∃ n, ∀ f, (n ≤ f)%nat → ∀ c : bool, is_Some (runPDPrefill mx f cfg (client_request w c) (i_pd w) 0 [])).
  { destruct (pd_ends (client_request w true) (i_pd w) Hpd) as [a Ha], (pd_ends (client_request w false) (i_pd w) Hpd) as [b Hb].
    exists (a + b)%nat. intros f Hf c. destruct c; [apply Ha|apply Hb]; lia. }
  destruct Hpds as [n2 Hpds]. set (f := (n0 + n1 + n2)%nat). exists f. unfold inferenceHandler. destruct (i_readable w); [|done]. cbn [negb].
  destruct (i_target w) as [t|]; [|done]. destruct (i_cands w) as [|b cs]; [done|]. destruct (Transparent t); [done|].
  assert (Hfirst : is_Some (first_leg mx f cfg w t)).
  { unfold first_leg. cbn zeta. set (capture := bool_decide (is_Some (tSplit t)) && _).
    destruct (Hleg (i_leg1 w) (client_request w capture) (i_now1 w) f H1 Ht1 ltac:(lia)) as [[e l] He]. rewrite He. cbn [mbind option_bind].
    destruct (_ && i_pdroute w); [|done]. destruct (Hpds f ltac:(lia) capture) as [[[] l0] ->]; by cbn. }
  destruct Hfirst as [[e evs] ->]. cbn [mbind option_bind]. destruct e as [r [n|]|a]; [|done|done].
  assert (Hsplit : is_Some (splitAndServe mx f cfg w r)).
  { unfold splitAndServe, serveOnOriginal. destruct (Hleg (i_leg2 w) (client_request w false) (i_now2 w) f H2 Ht2 ltac:(lia)) as [[e2 l2] He2].
    destruct (i_reserve w) as [b'|].
    - destruct (i_ready w); [|done]. cbn [negb]. destruct (Hjobs f ltac:(lia) b' eq_refl) as [[a l] ->]. cbn [mbind option_bind]. destruct a; rewrite ?He2; by cbn.
    - destruct (r_Backend r) as [o|]; [destruct (i_orig_ok w)|]; rewrite ?He2; [|done|done].
      destruct (serve_returns mx [o] (client_request w false) (i_orig w) Hmx (proj1 Ho)) as [[[]] ->]; by cbn. }
  destruct Hsplit as [[[r2 rej|a] evs2] ->]; by cbn.
Qed.
End ends.

(** ** The prefill split *)

(** The calls on the manager, in order. *)
Definition on_manager (e : gevent) : bool := match e with GReserved _ | GDone | GNoNode => true | _ => false end.
Definition manager_calls (l : list gevent) : list gevent := filter (λ e, on_manager e = true) l.
Lemma manager_calls_app a b : manager_calls (a ++ b) = manager_calls a ++ manager_calls b.
Proof. apply filter_app. Qed.

Section split.
Context (mx : Z) (Hmx : 0 < mx) (cfg : RetryConfig).

Lemma job_on_node rq b w : (∀ k, sane_world (at_world (w k))) → ∀ f k l0 e l, attempted l0 ⊆ [b] →
  runPrefillJob mx f rq b w k l0 = Some (e, l) → attempted l ⊆ [b].
Proof.
  intros Hw. induction f as [|f IH]; intros k l0 e l Hl0; [done|]. cbn [runPrefillJob]. destruct (Serve mx [b] rq (at_world (w k))) as [[r l1]|] eqn:E; [|done].
  destruct (serve_ok mx [b] rq (at_world (w k)) r l1 Hmx (proj1 (Hw k)) E) as [[_ Hin _ _ _] _].
  assert (Hcat : attempted (l0 ++ l1) ⊆ [b]) by (rewrite attempted_app; intros x [?|?]%elem_of_app; auto).
  destruct r as [r|a]; [|by intros [= _ <-]]. destruct (_ && _); [by intros [= _ <-]|]. destruct (_ || _); [by intros [= _ <-]|]. destruct (at_waited _); [|by intros [= _ <-]].
  by apply IH.
Qed.

(** What a split does with its manager. *)
Lemma split_calls fuel w r e evs : (∀ k, sane_world (at_world (i_job w k))) → splitAndServe mx fuel cfg w r = Some (e, evs) →
  match i_reserve w with
  | None => manager_calls evs = [GNoNode]
  | Some b => (manager_calls evs = [GReserved b; GDone] ∨ manager_calls evs = [GReserved b; GDone; GDone]) ∧ ∀ l, GAside l ∈ evs → attempted l ⊆ [b]
  end.
Proof.
  intros Hw. unfold splitAndServe. destruct (i_reserve w) as [b|].
  - destruct (i_ready w); cbn [negb].
    2:{ intros [= _ <-]. split; [by left|]. intros l Hl. rewrite !elem_of_cons, elem_of_nil in Hl. naive_solver. }
    intros ([a l] & Ha & Hrest)%bind_Some. apply job_on_node in Ha; [|done|by intros ? ?%elem_of_nil].
    destruct a as [| | |abort]; [apply bind_Some in Hrest as ([e2 l2] & _ & [= _ <-])..|injection Hrest as _ <-].
    all: split; [(by left) || by right|]; intros l' Hl'; rewrite !elem_of_cons, elem_of_nil in Hl'; naive_solver.
  - by intros ([e2 l] & _ & [= _ <-])%bind_Some.
Qed.

Lemma first_leg_calls fuel w t e evs : sane_leg (i_leg1 w) → first_leg mx fuel cfg w t = Some (e, evs) →
  manager_calls evs = [] ∧ match e with LegDone _ (Some _) => is_Some (tSplit t) ∧ i_bypass w = false | _ => True end.
Proof.
  intros Hs. unfold first_leg. cbn zeta. set (capture := bool_decide (is_Some (tSplit t)) && negb (i_bypass w)).
  assert (Hleg : ∀ e evs, ('(e, l) ← leg mx fuel cfg (i_gone w) (client_request w capture) (i_leg1 w) (i_now1 w); Some (e, [GClient l])) = Some (e, evs) →
    manager_calls evs = [] ∧ match e with LegDone _ (Some _) => is_Some (tSplit t) ∧ i_bypass w = false | _ => True end).
  { intros e' evs' ([e2 l] & Hl & [= <- <-])%bind_Some. split; [done|]. apply (leg_is_ok mx Hmx) in Hl; [|exact Hs]. destruct e2 as [r [n|]|]; [|done..].
    destruct Hl as (_ & Hc & _). destruct Hc as [Hc _]; [done|]. change (capture = true) in Hc. unfold capture in Hc. apply andb_true_iff in Hc as [?%bool_decide_eq_true ?%negb_true_iff]. done. }
  destruct (_ && i_pdroute w); [|apply Hleg]. intros ([a l] & _ & Hrest)%bind_Some. destruct a as [| | |abort].
  1-3: apply bind_Some in Hrest as ([e2 evs2] & He2 & [= <- <-]); destruct (Hleg _ _ He2) as [Hm ?]; split; [exact Hm|done].
  by injection Hrest as <- <-.
Qed.

End split.

(** ** A fleet of three *)

Module GwEx.
Definition always (a : answer) (k : nat) (cs : list positive) : Proxy.turn :=
  Turn (ProxySpec.Ex.first_of cs) None (true, false) false (Answered a).
Lemma always_sane a : sane_world (always a).
Proof. split; [intros k [|c cs] b; cbn; [done|intros [= ->]; by left]|by intros k [|c cs]]. Qed.
Definition lturn (cs : list positive) (tw : nat → list positive → Proxy.turn) : leg_turn := LTurn tw (MkTurn cs zero_result 1 true 0 None 0 0 0).
Definition aturn (b : positive) (a : answer) : aside_turn := ATurn [b] (always a) false false false false.
Definition fleet : list positive := [1; 2; 3]%positive.
Definition tgt : Target := MkTarget (lit "pool") 1 1 [] false [] false false (Some 1%positive) None None.
Definition ok : answer := Answer 200 None true Clean.
Definition bad : answer := Answer 502 None true Clean.
Definition reject : answer := Answer 503 (Some 5000) true Clean.
Definition cut : answer := Answer 200 None true (ReadFailed Transport false).
Definition meets (first job second : answer) : iworld :=
  IWorld true (Some tgt) fleet 400 false false None false (false, BadURL) (λ _, aturn 1 ok) 0 (λ _, lturn fleet (always first))
    (Some 3%positive) true (λ _, aturn 3 job) true (always second) 100 (λ _, lturn [1; 2]%positive (always second)).
Lemma meets_sane a b c : sane_request (meets a b c).
Proof. split_and!; [intros k; split; [apply always_sane|done]|intros k; split; [apply always_sane|done]|apply always_sane]. Qed.
Definition cfg : RetryConfig := MkRetryConfig 0 0.
End GwEx.

(** Every backend answers 502: the second attempt's answer is put back because a refusal could
    still have been walked, no attempt is left, and the caller gets nothing at all. *)
Lemma answer_swallowed : ∃ r l, inferenceHandler 2 1 GwEx.cfg (GwEx.meets GwEx.bad GwEx.ok GwEx.ok) = Some (HEnd (Some r), l) ∧
  statuses l = [] ∧ r_Status r = 502 ∧ r_Attempts r = 2 ∧ r_Err r = None.
Proof. eexists _, _. split; [vm_compute; reflexivity|]. by vm_compute. Qed.

(** A prefill job whose node dies in the middle of its answer takes the caller's request with
    it, though a decode node could have served it. *)
Lemma job_abort_ends_request : ∃ l, inferenceHandler 2 1 GwEx.cfg (GwEx.meets GwEx.reject GwEx.cut GwEx.ok) = Some (HPanic true, l) ∧ statuses l = [].
Proof. eexists. split; [vm_compute; reflexivity|]. by vm_compute. Qed.

Lemma one_answer_witness : ∃ e l, inferenceHandler 2 1 GwEx.cfg (GwEx.meets GwEx.reject GwEx.ok GwEx.ok) = Some (e, l) ∧ (length (statuses l) ≤ 1)%nat.
Proof.
  destruct (inferenceHandler 2 1 GwEx.cfg (GwEx.meets GwEx.reject GwEx.ok GwEx.ok)) as [[e l]|] eqn:E; [|by vm_compute in E]. exists e, l. split; [done|].
  by destruct (one_answer 2 ltac:(lia) 1 GwEx.cfg (GwEx.meets GwEx.reject GwEx.ok GwEx.ok) (GwEx.meets_sane _ _ _) e l E) as [H _].
Defined.

Lemma handler_terminates_witness : ∃ fuel, is_Some (inferenceHandler 2 fuel GwEx.cfg (GwEx.meets GwEx.reject GwEx.ok GwEx.ok)).
Proof.
  apply (handler_terminates 2 ltac:(lia) GwEx.cfg); [apply GwEx.meets_sane|intros k; split; cbn; lia|intros k; split; cbn; lia| |];
    (split; [intros k; apply GwEx.always_sane|by exists 0%nat]).
Defined.


(** ** The nodes of a disaggregated pool *)

(** Every healthy backend is either a P node or a D node, never both, and a decode request is
    only offered D nodes that are available and speak the dialect. *)
Lemma pd_partition u set st cands : PrefillNodes u set st cands ++ DecodeNodes u set st cands ≡ₚ cands.
Proof.
  unfold PrefillNodes, DecodeNodes, pd_filter. induction cands as [|l cands IH]; [done|]. rewrite !filter_cons.
  destruct (IsPrefill u set (st !!! l)); [rewrite decide_True, decide_False by done|rewrite decide_False, decide_True by done]; cbn; [by rewrite IH|].
  by rewrite <-Permutation_middle, IH.
Qed.
Lemma candidates_decode u now d r set l : l ∈ candidates u now d r None (Some set) →
  l ∈ Backends (cur r) ∧ Available now (store r !!! l) = true ∧ DialectID (store r !!! l) = d ∧ IsPrefill u set (store r !!! l) = false.
Proof.
  unfold candidates, DecodeNodes, pd_filter, healthy. rewrite !list_elem_of_filter. intros (H1 & H2 & H3). apply andb_true_iff in H2 as [H2 H4%bool_decide_eq_true]. done.
Qed.
