(* ===== verification/Retention.v ===== *)
(** * Retention: how long a prompt cache would have to remember

    [src/benchmark/retention_sim.go]: one walk over a replay scores every time-to-live at
    once.  The simulator keeps a trie as a map of edges and an array of last uses; it is
    compared with a definition that keeps nothing and looks the whole history up. *)

From stdpp Require Import base gmap list sorting.
From Stdlib Require Import ZArith Lia.
From S2P Require Import Prelude KvUnits.
Open Scope Z_scope.

(** ** The simulator *)

(** [retentionEdge] is the pair of the parent's id, an [int32], and the unit's hash. *)
Record retentionSim := MkSim {
  windows : list Z;                 (* nanoseconds, ascending *)
  byBucket : list Z;                (* [int64] *)
  stotal : Z;
  edges : gmap (Z * Z) Z;
  last_use : list Z;                (* [last]: per node; node 0 is the root *)
  prevTs : Z;
}.

Definition newRetentionSim (ws : list Z) : retentionSim := MkSim ws (replicate (S (length ws)) 0) 0 ∅ [0] 0.

(** [s[i]]: out of range, Go panics. *)
Definition at_index {A} (l : list A) (i : Z) : option A := if i <? 0 then None else l !! Z.to_nat i.

(** The inner loop: the bucket moves past the windows the gap does not fit. *)
Fixpoint pass_windows (ws : list Z) (gap : Z) : nat :=
  match ws with [] => 0 | w :: ws => if w <? gap then S (pass_windows ws gap) else 0 end.
Definition next_bucket (ws : list Z) (bucket : nat) (gap : Z) : nat := (bucket + pass_windows (drop bucket ws) gap)%nat.

(** The variables of the loop of [observe], and what it has done to the simulator. *)
Record walker := Walker { w_parent : Z; w_gap : Z; w_bucket : nat; w_matching : bool; w_sim : retentionSim }.

Definition count_total (tk : Z) (s : retentionSim) : retentionSim := MkSim (windows s) (byBucket s) (i64 (stotal s + tk)) (edges s) (last_use s) (prevTs s).
Definition credit (b : nat) (tk : Z) (s : retentionSim) : retentionSim :=
  MkSim (windows s) (alter (λ x, i64 (x + tk)) b (byBucket s)) (stotal s) (edges s) (last_use s) (prevTs s).
Definition use (id ts : Z) (s : retentionSim) : retentionSim := MkSim (windows s) (byBucket s) (stotal s) (edges s) (<[Z.to_nat id := ts]> (last_use s)) (prevTs s).

(** A unit of the walk that hits the node [id]. *)
Definition hit (ts id : Z) (u : Unit_) (w : walker) : option walker :=
  used ← at_index (last_use (w_sim w)) id;
  let gap := i64 (ts - used) in
  let '(g, b) := if w_gap w <? gap then (gap, next_bucket (windows (w_sim w)) (w_bucket w) gap) else (w_gap w, w_bucket w) in
  Some (Walker id g b true (use id ts (credit b (Tokens u) (w_sim w)))).
(** A unit past the end of what is known: a new node. *)
Definition grow (ts : Z) (u : Unit_) (w : walker) : walker :=
  let s := w_sim w in
  let id := i32 (Z.of_nat (length (last_use s))) in
  Walker id (w_gap w) (w_bucket w) false (MkSim (windows s) (byBucket s) (stotal s) (<[(w_parent w, Hash u) := id]> (edges s)) (last_use s ++ [ts]) (prevTs s)).
Definition observe_unit (ts : Z) (u : Unit_) (w : walker) : option walker :=
  let w := Walker (w_parent w) (w_gap w) (w_bucket w) (w_matching w) (count_total (Tokens u) (w_sim w)) in
  if w_matching w then
    match edges (w_sim w) !! (w_parent w, Hash u) with Some id => hit ts id u w | None => Some (grow ts u w) end
  else Some (grow ts u w).

Definition observe_loop (ts : Z) : list Unit_ → walker → option walker :=
  fix go us w := match us with [] => Some w | u :: us => w ← observe_unit ts u w; go us w end.

(** An unknown time (0), or one out of order, is taken as the previous request's. *)
Definition observe (ts : Z) (us : list Unit_) (s : retentionSim) : option retentionSim :=
  let ts := if ts <? prevTs s then prevTs s else ts in
  w ← observe_loop ts us (Walker 0 0 0 true (MkSim (windows s) (byBucket s) (stotal s) (edges s) (last_use s) ts));
  Some (w_sim w).

Record RetentionReport := MkReport { Windows : list Z; Cached : list Z; CachedInfinite : Z; Total : Z }.

Fixpoint running (run : Z) (bs : list Z) : list Z := match bs with [] => [] | b :: bs => let run := i64 (run + b) in run :: running run bs end.
Definition report (s : retentionSim) : RetentionReport :=
  let n := length (windows s) in
  let run := foldl (λ a b, i64 (a + b)) 0 (take n (byBucket s)) in
  MkReport (windows s) (running 0 (take n (byBucket s))) (i64 (run + default 0 (byBucket s !! n))) (stotal s).

(** A request of the replay: its time, and its prefix. *)
Abbreviation replay := (list (Z * list Unit_)).
Definition observe_all (rs : replay) (s : retentionSim) : option retentionSim := foldl (λ s r, s ← s; observe r.1 r.2 s) (Some s) rs.
Definition SimulateRetention (rs : replay) (ws : list Z) : option RetentionReport := report <$> observe_all rs (newRetentionSim ws).

Definition Ratio (r : RetentionReport) (i : nat) : option float64 :=
  if Total r =? 0 then Some (f64_of_Z 0) else c ← Cached r !! i; Some (f64_div (f64_of_Z c) (f64_of_Z (Total r))).
Definition InfiniteRatio (r : RetentionReport) : float64 :=
  if Total r =? 0 then f64_of_Z 0 else f64_div (f64_of_Z (CachedInfinite r)) (f64_of_Z (Total r)).

(** [Add]: out of range of the receiver, Go panics. *)
Definition Add (o r : RetentionReport) : option RetentionReport :=
  let cached := match Windows r with [] => replicate (length (Windows o)) 0 | _ => Cached r end in
  let ws := match Windows r with [] => Windows o | ws => ws end in
  if (length cached <? length (Cached o))%nat then None
  else Some (MkReport ws (zip_with (λ a b, i64 (a + b)) cached (Cached o) ++ drop (length (Cached o)) cached)
    (i64 (CachedInfinite r + CachedInfinite o)) (i64 (Total r + Total o))).

(** The end of [ParseRetentionWindows]: sorted, without repetitions. *)
Definition uniq (ds : list Z) : list Z := foldl (λ u d, if decide (last u = Some d) then u else u ++ [d]) [] ds.
Definition sorted_windows (ds : list Z) : list Z := uniq (merge_sort Z.le ds).

(** ** The reference: a cache with one time-to-live, by its history *)

(** The requests before, with their times as taken, and their hashes. *)
Abbreviation history := (list (Z * list Z)).
Definition held (w : option Z) (h : history) (now : Z) (ks : list Z) : bool :=
  existsb (λ r, bool_decide (ks `prefix_of` r.2) && match w with Some w => now - r.1 <=? w | None => true end) h.
(** What a request is credited: its leading units, as long as each prefix was used in time. *)
Fixpoint credited (w : option Z) (h : history) (now : Z) (ks : list Z) (us : list Unit_) : Z :=
  match us with
  | [] => 0
  | u :: us => let ks := ks ++ [Hash u] in if held w h now ks then Tokens u + credited w h now ks us else 0
  end.

Fixpoint clamp (prev : Z) (rs : replay) : replay :=
  match rs with [] => [] | (ts, us) :: rs => let ts := Z.max ts prev in (ts, us) :: clamp ts rs end.
(** The whole replay, request after request. *)
Fixpoint served_from (w : option Z) (h : history) (rs : replay) : Z :=
  match rs with [] => 0 | (ts, us) :: rs => credited w h ts [] us + served_from w (h ++ [(ts, Hash <$> us)]) rs end.
Definition served (w : option Z) (rs : replay) : Z := served_from w [] (clamp 0 rs).
Definition asked (rs : replay) : Z := foldr (λ r acc, sum_tokens r.2 + acc) 0 rs.
Definition unit_count (rs : replay) : nat := foldr (λ r acc, (length r.2 + acc)%nat) 0%nat rs.

(** ** Buckets *)

Lemma i64_add_r a b : i64 (a + i64 b) = i64 (a + b).
Proof. by rewrite Z.add_comm, i64_add_l, Z.add_comm. Qed.
Lemma i64_congr a b c : i64 a = i64 b → i64 (a + c) = i64 (b + c).
Proof. intros H. by rewrite <-(i64_add_l a), H, i64_add_l. Qed.

Lemma sum_credit k b tk (bs : list Z) : (b < length bs)%nat →
  i64 (zsum (take k (alter (λ x, i64 (x + tk)) b bs))) = i64 (zsum (take k bs) + if (b <? k)%nat then tk else 0).
Proof.
  revert k bs. induction b as [|b IH]; intros k bs Hb; (destruct bs as [|x bs]; [cbn in Hb; lia|]); destruct k as [|k]; cbn; [done| |done|].
  - change (foldr Z.add 0) with zsum. rewrite i64_add_l. f_equal. lia.
  - cbn in Hb. change (foldr Z.add 0) with zsum. rewrite <-i64_add_r, (IH k bs) by lia. rewrite i64_add_r.
    change (match k with 0%nat => false | S m' => (b <=? m')%nat end) with (b <? k)%nat. f_equal. lia.
Qed.

Lemma running_at bs : ∀ run k, (k < length bs)%nat → running run bs !! k = Some (i64 (run + zsum (take (S k) bs))).
Proof.
  induction bs as [|b bs IH]; intros run k Hk; [cbn in Hk; lia|]. destruct k as [|k].
  - cbn [running lookup list_lookup take]. rewrite zsum_cons. change (zsum (take 0 bs)) with 0. do 2 f_equal. lia.
  - cbn [running lookup list_lookup]. rewrite IH by (cbn in Hk; lia). f_equal. rewrite i64_add_l. f_equal. cbn [take]. rewrite zsum_cons. lia.
Qed.
Lemma running_end bs : ∀ run, i64 (foldl (λ a b, i64 (a + b)) run bs) = i64 (run + zsum bs).
Proof.
  induction bs as [|b bs IH]; intros run; cbn [foldl]; [change (zsum []) with 0; f_equal; lia|].
  rewrite IH, i64_add_l, zsum_cons. f_equal. lia.
Qed.

Lemma pass_windows_le ws g : (pass_windows ws g ≤ length ws)%nat.
Proof. induction ws as [|w ws IH]; cbn; [lia|]. destruct (w <? g); lia. Qed.
Lemma next_bucket_pass ws g g' : g ≤ g' → next_bucket ws (pass_windows ws g) g' = pass_windows ws g'.
Proof.
  intros Hg. unfold next_bucket. induction ws as [|w ws IH]; [done|]. cbn [pass_windows]. destruct (w <? g) eqn:E; [|done].
  cbn [drop]. assert (w <? g' = true) as -> by lia. cbn. by rewrite IH.
Qed.
Lemma pass_windows_fit ws g k w : StronglySorted Z.le ws → ws !! k = Some w → (pass_windows ws g <= k)%nat ↔ g ≤ w.
Proof.
  intros Hs. revert k. induction Hs as [|x ws Hs IH Hall]; intros k Hk; [done|]. cbn [pass_windows]. destruct k as [|k].
  - injection Hk as ->. destruct (w <? g) eqn:E; split; lia.
  - change (ws !! k = Some w) in Hk. rewrite Forall_forall in Hall. pose proof (Hall w (list_elem_of_lookup_2 _ _ _ Hk)) as Hx. specialize (IH k Hk).
    destruct (x <? g) eqn:E; [rewrite <-IH; lia|]. split; lia.
Qed.
Lemma pass_windows_none ws : Forall (Z.le 0) ws → pass_windows ws 0 = 0%nat.
Proof. intros [|w ws' Hw _]; [done|]. cbn. by assert (w <? 0 = false) as -> by lia. Qed.

(** ** The trie against the history *)

(** [names] lists the prefix each node stands for; the history includes what the request under
    way has walked so far. *)
Record tracks (names : list (list Z)) (h : history) (s : retentionSim) : Prop := Tracks {
  t_len : length names = length (last_use s);
  t_root : names !! 0%nat = Some [];
  t_nodup : NoDup names;
  t_edges : ∀ p k id, edges s !! (p, k) = Some id ↔
    0 ≤ p ∧ 0 ≤ id ∧ ∃ ks, names !! Z.to_nat p = Some ks ∧ names !! Z.to_nat id = Some (ks ++ [k]);
  t_names : ∀ ks, ks ∈ names ↔ ks = [] ∨ ∃ r, r ∈ h ∧ ks `prefix_of` r.2;
  t_last : ∀ i ks t, names !! i = Some ks → last_use s !! i = Some t → ks ≠ [] →
    (∃ r, r ∈ h ∧ ks `prefix_of` r.2 ∧ r.1 = t) ∧ ∀ r, r ∈ h → ks `prefix_of` r.2 → r.1 ≤ t;
  t_prev : ∀ r, r ∈ h → 0 ≤ r.1 ≤ prevTs s;
}.

Lemma tracks_ext names h s s' : tracks names h s → edges s' = edges s → last_use s' = last_use s → prevTs s' = prevTs s → tracks names h s'.
Proof. intros Ht He Hl Hp. destruct Ht. by split; rewrite ?He, ?Hl, ?Hp. Qed.

Lemma held_last names h s i ks t w now : tracks names h s → names !! i = Some ks → last_use s !! i = Some t → ks ≠ [] →
  held (Some w) h now ks = (now - t <=? w) ∧ held None h now ks = true.
Proof.
  intros Ht Hi Hl Hne. destruct (t_last _ _ _ Ht i ks t Hi Hl Hne) as [(r & Hr & Hp & Hrt) Hmax]. unfold held. split.
  - apply eq_true_iff_eq. rewrite existsb_exists. setoid_rewrite andb_true_iff. setoid_rewrite bool_decide_eq_true. setoid_rewrite Z.leb_le. split.
    + intros (r' & Hr'%list_elem_of_In & Hp' & Hw). specialize (Hmax r' Hr' Hp'). lia.
    + intros Hw. exists r. split; [by apply list_elem_of_In|]. split; [done|lia].
  - apply existsb_exists. exists r. split; [by apply list_elem_of_In|]. by rewrite bool_decide_eq_true_2.
Qed.
Lemma held_unknown names h s w now ks : tracks names h s → ks ∉ names → held w h now ks = false.
Proof.
  intros Ht Hks. unfold held. destruct (existsb _ _) eqn:E; [|done]. apply existsb_exists in E as (r & Hr%list_elem_of_In & [Hp%bool_decide_eq_true _]%andb_true_iff).
  destruct Hks. apply (t_names _ _ _ Ht). right. by exists r.
Qed.
Lemma held_own w h now d ks ts : (length d < length ks)%nat → held w (h ++ [(ts, d)]) now ks = held w h now ks.
Proof.
  intros Hl. unfold held. rewrite existsb_app. cbn. rewrite bool_decide_eq_false_2; [by rewrite !orb_false_r|]. intros Hp%prefix_length. lia.
Qed.

(** The first [length d] units of a request are part of the history when the next one comes. *)
Lemma tracks_start names h s ts : tracks names h s → prevTs s ≤ ts → 0 ≤ ts →
  tracks names (h ++ [(ts, [])]) (MkSim (windows s) (byBucket s) (stotal s) (edges s) (last_use s) ts).
Proof.
  intros Ht Hts H0. split; cbn [edges last_use prevTs]; [apply Ht..| | |].
  - intros ks. rewrite (t_names _ _ _ Ht). split.
    + intros [-> |(r & Hr & Hp)]; [by left|right; exists r; rewrite elem_of_app; auto].
    + intros [-> |(r & [Hr|Hr%list_elem_of_singleton]%elem_of_app & Hp)]; [by left|right; by exists r|]. subst r. left. by apply prefix_nil_inv in Hp.
  - intros i ks t Hi Hl Hne. destruct (t_last _ _ _ Ht i ks t Hi Hl Hne) as [(r & Hr & Hp & Hrt) Hmax]. split.
    + exists r. rewrite elem_of_app. auto.
    + intros r' [Hr'|Hr'%list_elem_of_singleton]%elem_of_app Hp'; [by apply Hmax|]. subst r'. by apply prefix_nil_inv in Hp'.
  - intros r [Hr|Hr%list_elem_of_singleton]%elem_of_app; [|subst r; cbn; lia]. pose proof (t_prev _ _ _ Ht r Hr). lia.
Qed.

Lemma prefix_snoc_inv (ks d : list Z) k : ks `prefix_of` d ++ [k] → ks = d ++ [k] ∨ ks `prefix_of` d.
Proof.
  intros [r Hr]. destruct r as [|x r _] using rev_ind; [left; by rewrite app_nil_r in Hr|]. right. rewrite app_assoc in Hr. apply app_inj_tail in Hr as [-> _]. by eexists.
Qed.

Lemma tracks_hit names h s ts d k id : tracks names (h ++ [(ts, d)]) s → prevTs s = ts → names !! Z.to_nat id = Some (d ++ [k]) →
  tracks names (h ++ [(ts, d ++ [k])]) (use id ts s).
Proof.
  intros Ht Hp Hid. assert (Hts : 0 ≤ ts) by (apply (t_prev _ _ _ Ht (ts, d)); apply elem_of_app; right; by left).
  assert (Hin : d ++ [k] ∈ names) by (by eapply list_elem_of_lookup_2).
  assert (Hold : d ∈ names) by (apply (t_names _ _ _ Ht); right; exists (ts, d); split; [apply elem_of_app; right; by left|done]).
  split; cbn [use edges last_use prevTs].
  - rewrite length_insert. apply Ht.
  - apply Ht.
  - apply Ht.
  - apply Ht.
  - intros ks. split.
    + intros Hks. apply (t_names _ _ _ Ht) in Hks as [?|(r & [Hr|Hr%list_elem_of_singleton]%elem_of_app & Hpr)]; [by left| |].
      * right. exists r. rewrite elem_of_app. auto.
      * subst r. right. exists (ts, d ++ [k]). rewrite elem_of_app, list_elem_of_singleton. split; [by right|]. by apply prefix_app_r.
    + intros [?|(r & [Hr|Hr%list_elem_of_singleton]%elem_of_app & Hpr)]; [apply (t_names _ _ _ Ht); by left| |].
      * apply (t_names _ _ _ Ht). right. exists r. rewrite elem_of_app. auto.
      * subst r. cbn in Hpr. apply prefix_snoc_inv in Hpr as [-> |Hpr]; [done|]. apply (t_names _ _ _ Ht). right. exists (ts, d). rewrite elem_of_app, list_elem_of_singleton. auto.
  - intros i ks t Hi Hl Hne. destruct (decide (i = Z.to_nat id)) as [->|Hni].
    + rewrite Hid in Hi. injection Hi as <-. rewrite list_lookup_insert_eq in Hl by (rewrite <-(t_len _ _ _ Ht); by apply lookup_lt_Some in Hid). injection Hl as <-. split.
      * exists (ts, d ++ [k]). rewrite elem_of_app, list_elem_of_singleton. auto.
      * intros r [Hr|Hr%list_elem_of_singleton]%elem_of_app _; [|subst r; done]. rewrite <-Hp. apply (t_prev _ _ _ Ht). rewrite elem_of_app. auto.
    + rewrite list_lookup_insert_ne in Hl by done. assert (Hks : ks ≠ d ++ [k]).
      { intros ->. destruct Hni. eapply NoDup_lookup; [apply (t_nodup _ _ _ Ht)|exact Hi|exact Hid]. }
      destruct (t_last _ _ _ Ht i ks t Hi Hl Hne) as [(r & Hr & Hpr & Hrt) Hmax]. split.
      * apply elem_of_app in Hr as [Hr|Hr%list_elem_of_singleton]; [exists r; rewrite elem_of_app; auto|]. subst r.
        exists (ts, d ++ [k]). rewrite elem_of_app, list_elem_of_singleton. split_and!; [by right|by apply prefix_app_r|done].
      * intros r' [Hr'|Hr'%list_elem_of_singleton]%elem_of_app Hp'; [apply Hmax; [rewrite elem_of_app; auto|done]|]. subst r'. cbn in Hp' |- *.
        apply prefix_snoc_inv in Hp' as [?|Hp']; [done|]. apply (Hmax (ts, d)); [rewrite elem_of_app, list_elem_of_singleton; auto|done].
  - intros r [Hr|Hr%list_elem_of_singleton]%elem_of_app; [apply (t_prev _ _ _ Ht); rewrite elem_of_app; auto|]. subst r. cbn. lia.
Qed.

Lemma tracks_grow names h s ts d k p : tracks names (h ++ [(ts, d)]) s → prevTs s = ts → 0 ≤ p → names !! Z.to_nat p = Some d → d ++ [k] ∉ names →
  tracks (names ++ [d ++ [k]]) (h ++ [(ts, d ++ [k])])
    (MkSim (windows s) (byBucket s) (stotal s) (<[(p, k) := Z.of_nat (length (last_use s))]> (edges s)) (last_use s ++ [ts]) (prevTs s)).
Proof.
  intros Ht Hp Hp0 Hd Hnew. pose proof (t_len _ _ _ Ht) as Hlen. assert (Hts : 0 ≤ ts) by (apply (t_prev _ _ _ Ht (ts, d)); apply elem_of_app; right; by left).
  assert (Hext : ∀ i ks, (names ++ [d ++ [k]]) !! i = Some ks ↔ names !! i = Some ks ∨ (i = length names ∧ ks = d ++ [k])).
  { intros i ks. rewrite lookup_app_Some. split.
    - intros [?|[Hi Hs]]; [by left|]. right. destruct (i - length names)%nat as [|n] eqn:En; [|done]. injection Hs as <-. split; [lia|done].
    - intros [?|[-> ->]]; [by left|]. right. split; [lia|]. by rewrite Nat.sub_diag. }
  split; cbn [edges last_use prevTs].
  - rewrite !length_app. cbn. lia.
  - apply Hext. left. apply Ht.
  - apply NoDup_app. split; [apply Ht|]. split; [|apply NoDup_singleton]. intros x Hx ->%list_elem_of_singleton. done.
  - intros q k' id. rewrite lookup_insert_Some, (t_edges _ _ _ Ht). setoid_rewrite Hext. split.
    + intros [[[= <- <-] <-]|[Hne (H1 & H2 & ks & H3 & H4)]]; [|split_and!; [done|done|exists ks; auto]].
      split_and!; [done|lia|]. exists d. split; [by left|]. right. split; [lia|done].
    + intros (H1 & H2 & ks & [H3|[H3 ->]] & [H4|[H4 H5]]).
      * right. split; [|split_and!; [done|done|by exists ks]]. intros [= -> ->]. rewrite Hd in H3. injection H3 as <-. destruct Hnew. by eapply list_elem_of_lookup_2.
      * apply app_inj_tail in H5 as [-> ->]. left. split; [|lia]. f_equal. apply Z2Nat.inj; [done|done|]. eapply NoDup_lookup; [apply (t_nodup _ _ _ Ht)|done|done].
      * exfalso. assert (Hlt : d ++ [k] ∈ names ∨ ∃ r, r ∈ h ++ [(ts, d)] ∧ (d ++ [k]) `prefix_of` r.2).
        { apply list_elem_of_lookup_2 in H4. apply (t_names _ _ _ Ht) in H4 as [H4|(r & Hr & Hpr)]; [by destruct d|]. right. exists r. split; [done|]. etrans; [|exact Hpr]. by apply prefix_app_r. }
        destruct Hlt as [?|Hlt]; [done|]. destruct Hnew. apply (t_names _ _ _ Ht). by right.
      * exfalso. apply (f_equal length) in H5. rewrite !length_app in H5. cbn in H5. lia.
  - intros ks. rewrite elem_of_app, (t_names _ _ _ Ht), list_elem_of_singleton. split.
    + intros [[?|(r & [Hr|Hr%list_elem_of_singleton]%elem_of_app & Hpr)]| ->]; [by left|right; exists r; rewrite elem_of_app; auto| |].
      * subst r. right. exists (ts, d ++ [k]). rewrite elem_of_app, list_elem_of_singleton. split; [by right|]. by apply prefix_app_r.
      * right. exists (ts, d ++ [k]). rewrite elem_of_app, list_elem_of_singleton. auto.
    + intros [?|(r & [Hr|Hr%list_elem_of_singleton]%elem_of_app & Hpr)]; [by left; left|left; right; exists r; rewrite elem_of_app; auto|].
      subst r. cbn in Hpr. apply prefix_snoc_inv in Hpr as [-> |Hpr]; [by right|]. left. right. exists (ts, d). rewrite elem_of_app, list_elem_of_singleton. auto.
  - intros i ks t Hi%Hext Hl Hne. destruct Hi as [Hi|[-> ->]].
    + rewrite lookup_app_l in Hl by (rewrite <-Hlen; by apply lookup_lt_Some in Hi). assert (Hks : ks ≠ d ++ [k]) by (intros ->; destruct Hnew; by eapply list_elem_of_lookup_2).
      destruct (t_last _ _ _ Ht i ks t Hi Hl Hne) as [(r & Hr & Hpr & Hrt) Hmax]. split.
      * apply elem_of_app in Hr as [Hr|Hr%list_elem_of_singleton]; [exists r; rewrite elem_of_app; auto|]. subst r.
        exists (ts, d ++ [k]). rewrite elem_of_app, list_elem_of_singleton. split_and!; [by right|by apply prefix_app_r|done].
      * intros r' [Hr'|Hr'%list_elem_of_singleton]%elem_of_app Hp'; [apply Hmax; [rewrite elem_of_app; auto|done]|]. subst r'. cbn in Hp' |- *.
        apply prefix_snoc_inv in Hp' as [?|Hp']; [done|]. apply (Hmax (ts, d)); [rewrite elem_of_app, list_elem_of_singleton; auto|done].
    + rewrite lookup_app_r, Hlen, Nat.sub_diag in Hl by lia. injection Hl as <-. split.
      * exists (ts, d ++ [k]). rewrite elem_of_app, list_elem_of_singleton. auto.
      * intros r [Hr|Hr%list_elem_of_singleton]%elem_of_app _; [|subst r; done]. rewrite <-Hp. apply (t_prev _ _ _ Ht). rewrite elem_of_app. auto.
  - intros r [Hr|Hr%list_elem_of_singleton]%elem_of_app; [apply (t_prev _ _ _ Ht); rewrite elem_of_app; auto|]. subst r. cbn. lia.
Qed.

(** ** One request *)

(** What a walk has left to credit, to the window [w] (its index is [k]) or to any. *)
Definition credits (w : walker) (h : history) (ts : Z) (d : list Z) (us : list Unit_) (k : nat) : Z :=
  if w_matching w && (w_bucket w <=? k)%nat then credited (windows (w_sim w) !! k) h ts d us else 0.

(** A walk stands at the node of what it has walked; once off the known paths it stays off. *)
Record walking (names : list (list Z)) (h : history) (ts : Z) (d : list Z) (w : walker) : Prop := Walking {
  wk_tracks : tracks names (h ++ [(ts, d)]) (w_sim w);
  wk_prev : prevTs (w_sim w) = ts;
  wk_parent : 0 ≤ w_parent w ∧ names !! Z.to_nat (w_parent w) = Some d;
  wk_off : w_matching w = false → ¬ ∃ r, r ∈ h ∧ d `prefix_of` r.2;
  wk_gap : 0 ≤ w_gap w ∧ w_bucket w = pass_windows (windows (w_sim w)) (w_gap w);
  wk_buckets : length (byBucket (w_sim w)) = S (length (windows (w_sim w)));
}.

Definition same_run (w w' : walker) : Prop := windows (w_sim w') = windows (w_sim w).
Definition sums (k : nat) (s : retentionSim) : Z := zsum (take (S k) (byBucket s)).

Lemma new_prefix names h ts d w k : walking names h ts d w → (w_matching w = true → edges (w_sim w) !! (w_parent w, k) = None) → d ++ [k] ∉ names.
Proof.
  intros Hw He Hin. pose proof (wk_tracks _ _ _ _ _ Hw) as Ht. destruct (wk_parent _ _ _ _ _ Hw) as [Hp0 Hpd]. destruct (w_matching w) eqn:Em.
  - apply list_elem_of_lookup in Hin as [i Hi]. assert (Hs : edges (w_sim w) !! (w_parent w, k) = Some (Z.of_nat i)); [|by rewrite He in Hs].
    apply (t_edges _ _ _ Ht). split_and!; [done|lia|]. exists d. by rewrite Nat2Z.id.
  - destruct (wk_off _ _ _ _ _ Hw Em). apply (t_names _ _ _ Ht) in Hin as [Hn|(r & [Hr|Hr%list_elem_of_singleton]%elem_of_app & Hp)]; [by destruct d| |].
    + exists r. split; [done|]. etrans; [|exact Hp]. by apply prefix_app_r.
    + subst r. apply prefix_length in Hp. rewrite length_app in Hp. cbn in Hp. lia.
Qed.

(** Off the known paths: nothing is credited, now or later. *)
Lemma grow_walks names h ts d w u : walking names h ts d w → d ++ [Hash u] ∉ names → Z.of_nat (length (last_use (w_sim w))) < two31 →
  walking (names ++ [d ++ [Hash u]]) h ts (d ++ [Hash u]) (grow ts u w).
Proof.
  intros Hw Hnew Hb. pose proof (wk_tracks _ _ _ _ _ Hw) as Ht. destruct (wk_parent _ _ _ _ _ Hw) as [Hp0 Hpd].
  assert (Hid : i32 (Z.of_nat (length (last_use (w_sim w)))) = Z.of_nat (length (last_use (w_sim w)))) by (apply i32_id; unfold two31 in *; lia).
  unfold grow. cbn zeta. rewrite Hid. split; cbn [w_sim w_parent w_matching w_gap w_bucket prevTs windows byBucket].
  - apply tracks_grow; [done|apply Hw|done|done|done].
  - apply Hw.
  - split; [lia|]. rewrite Nat2Z.id, <-(t_len _ _ _ Ht), lookup_app_r, Nat.sub_diag by lia. done.
  - intros _ (r & Hr & Hp). apply Hnew. apply (t_names _ _ _ Ht). right. exists r. rewrite elem_of_app. auto.
  - apply Hw.
  - apply Hw.
Qed.

(** A known prefix: it is credited to the windows it was used in. *)
Lemma hit_walks names h ts d w u id : walking names h ts d w → w_matching w = true → edges (w_sim w) !! (w_parent w, Hash u) = Some id →
  ts < two63 → StronglySorted Z.le (windows (w_sim w)) →
  ∃ w', hit ts id u w = Some w' ∧ walking names h ts (d ++ [Hash u]) w' ∧ w_matching w' = true ∧ same_run w w' ∧ stotal (w_sim w') = stotal (w_sim w) ∧
    length (last_use (w_sim w')) = length (last_use (w_sim w)) ∧ (w_bucket w <= w_bucket w')%nat ∧
    ∀ k, let c := if (w_bucket w' <=? k)%nat then Tokens u else 0 in
      i64 (sums k (w_sim w')) = i64 (sums k (w_sim w) + c) ∧
      held None h ts (d ++ [Hash u]) = true ∧
      ∀ win, windows (w_sim w) !! k = Some win → (w_bucket w <= k)%nat → held (Some win) h ts (d ++ [Hash u]) = (w_bucket w' <=? k)%nat.
Proof.
  intros Hw Hm He Hts Hsorted. pose proof (wk_tracks _ _ _ _ _ Hw) as Ht. destruct (wk_gap _ _ _ _ _ Hw) as [Hg0 Hgb]. destruct (wk_parent _ _ _ _ _ Hw) as [Hp0 Hpd].
  apply (t_edges _ _ _ Ht) in He as (_ & Hid0 & ks & Hks & Hid). rewrite Hpd in Hks. injection Hks as <-.
  destruct (lookup_lt_is_Some_2 (last_use (w_sim w)) (Z.to_nat id)) as [used Hused]; [rewrite <-(t_len _ _ _ Ht); by apply lookup_lt_Some in Hid|].
  assert (Hne : d ++ [Hash u] ≠ []) by (by destruct d).
  destruct (t_last _ _ _ Ht _ _ _ Hid Hused Hne) as [(r & Hr & Hpr & Hrt) _]. pose proof (t_prev _ _ _ Ht r Hr) as Hrb. rewrite (wk_prev _ _ _ _ _ Hw) in Hrb.
  assert (Hgap : i64 (ts - used) = ts - used) by (apply i64_id; unfold two63 in *; lia).
  assert (Hheld : ∀ win, held (Some win) h ts (d ++ [Hash u]) = (ts - used <=? win) ∧ held None h ts (d ++ [Hash u]) = true).
  { intros win. rewrite <-!(held_own _ h ts d _ ts) by (rewrite length_app; cbn; lia). by apply (held_last _ _ _ _ _ _ win ts Ht Hid Hused). }
  unfold hit, at_index. assert (id <? 0 = false) as -> by lia. rewrite Hused. cbn [mbind option_bind]. rewrite Hgap.
  set (gb := if w_gap w <? ts - used then _ else _).
  assert (Hgb' : gb = (Z.max (w_gap w) (ts - used), pass_windows (windows (w_sim w)) (Z.max (w_gap w) (ts - used)))).
  { unfold gb. destruct (w_gap w <? ts - used) eqn:E.
    - rewrite Hgb, next_bucket_pass by lia. by replace (Z.max (w_gap w) (ts - used)) with (ts - used) by lia.
    - replace (Z.max (w_gap w) (ts - used)) with (w_gap w) by lia. by rewrite Hgb. }
  rewrite Hgb'. clear gb Hgb'. set (g := Z.max _ _). eexists. split; [done|]. cbn [w_sim w_matching w_bucket use credit windows byBucket stotal last_use].
  pose proof (pass_windows_le (windows (w_sim w)) g) as Hple. split_and!.
  - split; cbn [w_sim w_matching w_bucket w_gap w_parent use credit windows byBucket prevTs].
    + eapply tracks_ext; [apply (tracks_hit _ _ _ _ _ _ _ Ht (wk_prev _ _ _ _ _ Hw) Hid)|done..].
    + apply Hw.
    + done.
    + done.
    + split; [lia|done].
    + rewrite length_alter. apply Hw.
  - done.
  - done.
  - done.
  - by rewrite length_insert.
  - rewrite Hgb. rewrite <-(next_bucket_pass _ (w_gap w) g) by lia. unfold next_bucket. lia.
  - intros k. split_and!; [|by destruct (Hheld 0)|].
    + unfold sums, use, credit. cbn [byBucket]. rewrite sum_credit by (rewrite (wk_buckets _ _ _ _ _ Hw); lia).
      change (pass_windows (windows (w_sim w)) g <? S k)%nat with (pass_windows (windows (w_sim w)) g <=? k)%nat. done.
    + intros win Hwin Hbk. destruct (Hheld win) as [-> _]. apply eq_true_iff_eq. rewrite Z.leb_le, Nat.leb_le, (pass_windows_fit _ g k win Hsorted Hwin).
      rewrite Hgb, (pass_windows_fit _ _ k win Hsorted Hwin) in Hbk. lia.
Qed.

Lemma walking_total names h ts d w tk : walking names h ts d w →
  walking names h ts d (Walker (w_parent w) (w_gap w) (w_bucket w) (w_matching w) (count_total tk (w_sim w))).
Proof.
  intros [W1 W2 W3 W4 W5 W6]. split; cbn [w_sim w_parent w_gap w_bucket w_matching]; [|exact W2|exact W3|exact W4|exact W5|exact W6].
  by eapply tracks_ext.
Qed.

Definition walked (w w' : walker) (h : history) (ts : Z) (d : list Z) (us : list Unit_) : Prop :=
  same_run w w' ∧ stotal (w_sim w') = i64 (stotal (w_sim w) + sum_tokens us) ∧
  (length (last_use (w_sim w')) <= length (last_use (w_sim w)) + length us)%nat ∧
  ∀ k, (k <= length (windows (w_sim w)))%nat → i64 (sums k (w_sim w')) = i64 (sums k (w_sim w) + credits w h ts d us k).

Lemma unit_walks names h ts d w u us : walking names h ts d w → Z.of_nat (length (last_use (w_sim w))) < two31 →
  ts < two63 → StronglySorted Z.le (windows (w_sim w)) →
  ∃ names' w1, observe_unit ts u w = Some w1 ∧ walking names' h ts (d ++ [Hash u]) w1 ∧ same_run w w1 ∧
    stotal (w_sim w1) = i64 (stotal (w_sim w) + Tokens u) ∧ (length (last_use (w_sim w1)) <= S (length (last_use (w_sim w))))%nat ∧
    ∀ k, (k <= length (windows (w_sim w)))%nat →
      i64 (sums k (w_sim w1) + credits w1 h ts (d ++ [Hash u]) us k) = i64 (sums k (w_sim w) + credits w h ts d (u :: us) k).
Proof.
  intros Hw Hb Hts Hsorted. apply (walking_total _ _ _ _ _ (Tokens u)) in Hw. unfold observe_unit. cbn zeta. set (w0 := Walker _ _ _ _ _) in *.
  assert (Hcr : ∀ k, credits w h ts d (u :: us) k = credits w0 h ts d (u :: us) k) by done.
  change (windows (w_sim w)) with (windows (w_sim w0)) in *. change (length (last_use (w_sim w))) with (length (last_use (w_sim w0))) in *.
  change (sums) with sums in *. assert (Hs0 : ∀ k, sums k (w_sim w) = sums k (w_sim w0)) by done.
  change (i64 (stotal (w_sim w) + Tokens u)) with (stotal (w_sim w0)). change (same_run w) with (same_run w0). setoid_rewrite Hcr. setoid_rewrite Hs0. clearbody w0. clear Hcr Hs0 w.
  destruct (if w_matching w0 then edges (w_sim w0) !! (w_parent w0, Hash u) else None) as [id|] eqn:E.
  - destruct (w_matching w0) eqn:Em; [|done]. destruct (hit_walks _ _ _ _ _ _ _ Hw Em E Hts Hsorted) as (w' & H1 & H2 & H3 & H4 & H5 & H6 & H7 & H8).
    rewrite E. exists names, w'. split_and!; [done|done|done|done|lia|]. intros k Hk. destruct (H8 k) as (Hsum & Hinf & Hwin). unfold credits. rewrite Em, H3, H4. cbn [andb credited].
    rewrite (i64_congr _ _ _ Hsum), <-Z.add_assoc. do 2 f_equal. destruct (windows (w_sim w0) !! k) as [win|] eqn:Ek.
    + destruct (w_bucket w0 <=? k)%nat eqn:Eb.
      * apply Nat.leb_le in Eb. rewrite (Hwin win eq_refl Eb). destruct (w_bucket w' <=? k)%nat; lia.
      * apply Nat.leb_gt in Eb. assert ((w_bucket w' <=? k)%nat = false) as -> by (apply Nat.leb_gt; lia). lia.
    + rewrite Hinf. pose proof (pass_windows_le (windows (w_sim w0)) (w_gap w')) as Hple. destruct (wk_gap _ _ _ _ _ H2) as [_ Hbk]. rewrite H4 in Hbk.
      apply lookup_ge_None in Ek. assert ((w_bucket w' <=? k)%nat = true) as -> by (apply Nat.leb_le; lia). assert ((w_bucket w0 <=? k)%nat = true) as -> by (apply Nat.leb_le; lia). done.
  - assert (Hnew : d ++ [Hash u] ∉ names) by (apply (new_prefix _ _ _ _ _ _ Hw); intros Em; by rewrite Em in E).
    exists (names ++ [d ++ [Hash u]]), (grow ts u w0). assert (Hrun : (if w_matching w0 then match edges (w_sim w0) !! (w_parent w0, Hash u) with Some id => hit ts id u w0 | None => Some (grow ts u w0) end else Some (grow ts u w0)) = Some (grow ts u w0)).
    { destruct (w_matching w0); [by rewrite E|done]. }
    rewrite Hrun. split_and!; [done|by apply grow_walks|done|done|cbn; rewrite length_app; cbn; lia|]. intros k Hk. f_equal. unfold sums, credits. cbn [grow w_sim w_matching byBucket w_bucket andb credited].
    destruct (w_matching w0) eqn:Em; [|done]. cbn [andb]. rewrite <-(held_own _ h ts d _ ts) by (rewrite length_app; cbn; lia). rewrite (held_unknown _ _ _ _ _ _ (wk_tracks _ _ _ _ _ Hw) Hnew).
    by destruct (w_bucket w0 <=? k)%nat.
Qed.

Lemma loop_walks h ts us : ∀ names d w, walking names h ts d w → Z.of_nat (length (last_use (w_sim w)) + length us) ≤ two31 →
  ts < two63 → StronglySorted Z.le (windows (w_sim w)) → - two63 ≤ stotal (w_sim w) < two63 →
  ∃ names' w', observe_loop ts us w = Some w' ∧ walking names' h ts (d ++ (Hash <$> us)) w' ∧ walked w w' h ts d us.
Proof.
  induction us as [|u us IH]; intros names d w Hw Hb Hts Hs Ht0.
  - exists names, w. cbn [fmap list_fmap]. rewrite app_nil_r. split_and!; [done|done|]. split_and!; [done| |lia|].
    + cbn. by rewrite Z.add_0_r, i64_id.
    + intros k _. f_equal. unfold credits. cbn [credited]. destruct (_ && _); lia.
  - destruct (unit_walks names h ts d w u us Hw) as (names1 & w1 & H1 & H2 & H3 & H4 & H5 & H6); [cbn in Hb; lia|done|done|].
    unfold same_run in *. destruct (IH names1 (d ++ [Hash u]) w1 H2) as (names' & w' & H1' & H2' & H3' & H4' & H5' & H6'); [cbn in Hb; lia|done|by rewrite H3|rewrite H4; apply i64_range|].
    exists names', w'. cbn [observe_loop]. rewrite H1. cbn [mbind option_bind]. split_and!; [exact H1'| |].
    + cbn [fmap list_fmap]. change (?x :: ?l) with ([x] ++ l). by rewrite app_assoc.
    + unfold walked, same_run in *. split_and!; [congruence| |cbn; lia|].
      * rewrite H4', H4, i64_add_l. f_equal. change (sum_tokens (u :: us)) with (Tokens u + sum_tokens us). lia.
      * intros k Hk. rewrite H3 in H6'. rewrite (H6' k Hk). by apply H6.
Qed.

(** ** The whole replay *)

Record sim_ok (names : list (list Z)) (h : history) (s : retentionSim) : Prop := SimOk {
  so_tracks : tracks names h s;
  so_buckets : length (byBucket s) = S (length (windows s));
  so_total : - two63 ≤ stotal s < two63;
  so_prev : 0 ≤ prevTs s;
}.
Definition proper_windows (ws : list Z) : Prop := StronglySorted Z.le ws ∧ Forall (Z.le 0) ws.

Lemma new_ok ws : sim_ok [[]] [] (newRetentionSim ws).
Proof.
  split; cbn; [|by rewrite length_replicate|unfold two63; lia|lia]. split; cbn [edges last_use prevTs newRetentionSim]; [done|done|apply NoDup_singleton| | | |].
  - intros p k id. rewrite lookup_empty. split; [done|]. intros (_ & _ & ks & H1 & H2). destruct (Z.to_nat id) as [|n]; cbn in H2; [|by destruct n]. injection H2 as H2. by destruct ks.
  - intros ks. rewrite list_elem_of_singleton. split; [by left|]. intros [?|(r & Hr%elem_of_nil & _)]; done.
  - intros [|[|]] ks t Hi Hl Hne; [by injection Hi as <-|done|done].
  - intros r Hr%elem_of_nil. done.
Qed.

Lemma observe_spec names h s ts us : sim_ok names h s → proper_windows (windows s) → Z.max ts (prevTs s) < two63 →
  Z.of_nat (length (last_use s) + length us) ≤ two31 →
  ∃ names' s', observe ts us s = Some s' ∧ let now := Z.max ts (prevTs s) in sim_ok names' (h ++ [(now, Hash <$> us)]) s' ∧
    windows s' = windows s ∧ prevTs s' = now ∧ stotal s' = i64 (stotal s + sum_tokens us) ∧ (length (last_use s') <= length (last_use s) + length us)%nat ∧
    ∀ k, (k <= length (windows s))%nat → i64 (sums k s') = i64 (sums k s + credited (windows s !! k) h now [] us).
Proof.
  intros [Ht Hbk Htot Hp] [Hs Hnn] Hts Hb. unfold observe. cbn zeta. assert ((if ts <? prevTs s then prevTs s else ts) = Z.max ts (prevTs s)) as -> by (destruct (ts <? prevTs s) eqn:E; lia).
  set (now := Z.max ts (prevTs s)) in *. set (w := Walker 0 0 0 true _).
  assert (Hw : walking names h now [] w).
  { subst w. split; cbn [w_sim w_parent w_matching w_gap w_bucket prevTs windows byBucket].
    - apply tracks_start; [done|lia|lia].
    - done.
    - split; [lia|]. apply Ht.
    - done.
    - split; [lia|]. by rewrite pass_windows_none.
    - done. }
  destruct (loop_walks h now us names [] w Hw) as (names' & w' & H1 & H2 & H3 & H4 & H5 & H6); [done|done|done|done|].
  exists names', (w_sim w'). rewrite H1. cbn [mbind option_bind]. unfold same_run in H3. cbn zeta. split_and!; [done| |done|apply H2|done|done|].
  - split; [apply H2|apply H2|rewrite H4; apply i64_range|rewrite (wk_prev _ _ _ _ _ H2); lia].
  - intros k Hk. by rewrite (H6 k Hk).
Qed.

Lemma observe_all_spec rs : ∀ names h s, sim_ok names h s → proper_windows (windows s) → (∀ r, r ∈ rs → r.1 < two63) → prevTs s < two63 →
  Z.of_nat (length (last_use s) + unit_count rs) ≤ two31 →
  ∃ s', observe_all rs s = Some s' ∧ windows s' = windows s ∧ length (byBucket s') = S (length (windows s)) ∧ stotal s' = i64 (stotal s + asked rs) ∧
    ∀ k, (k <= length (windows s))%nat → i64 (sums k s') = i64 (sums k s + served_from (windows s !! k) h (clamp (prevTs s) rs)).
Proof.
  induction rs as [|[ts us] rs IH]; intros names h s Hok Hws Hts Hp Hb.
  - exists s. cbn. split_and!; [done|done|apply Hok|by rewrite Z.add_0_r, i64_id by apply Hok|]. intros k _. by rewrite Z.add_0_r.
  - assert (Hr : ts < two63) by (apply (Hts (ts, us)); by left). cbn [unit_count foldr snd] in Hb. fold (unit_count rs) in Hb.
    destruct (observe_spec names h s ts us Hok Hws) as (names1 & s1 & H1 & H2 & H3 & H4 & H5 & H6 & H7); [lia|lia|]. cbn zeta in *.
    destruct (IH names1 (h ++ [(Z.max ts (prevTs s), Hash <$> us)]) s1 H2) as (s' & G1 & G2 & G3 & G4 & G5); [by rewrite H3|intros r Hr'; apply Hts; by right|lia|lia|].
    exists s'. unfold observe_all in *. cbn [foldl mbind option_bind fst snd]. rewrite H1. rewrite H3 in G2, G3, G5. split_and!; [exact G1|done|done| |].
    + rewrite G4, H5, i64_add_l. cbn [asked foldr snd]. fold (asked rs). f_equal. lia.
    + intros k Hk. rewrite (G5 k Hk), (i64_congr _ _ _ (H7 k Hk)), H4. cbn [clamp served_from]. f_equal. lia.
Qed.

Lemma report_cached s k : length (byBucket s) = S (length (windows s)) → (k < length (windows s))%nat → Cached (report s) !! k = Some (i64 (sums k s)).
Proof.
  intros Hl Hk. unfold report. cbn [Cached]. rewrite running_at by (rewrite length_take; lia). rewrite take_take, Nat.min_l by lia. done.
Qed.
Lemma report_infinite s : length (byBucket s) = S (length (windows s)) → CachedInfinite (report s) = i64 (sums (length (windows s)) s).
Proof.
  intros Hl. unfold report. cbn [CachedInfinite]. destruct (lookup_lt_is_Some_2 (byBucket s) (length (windows s))) as [x Hx]; [lia|]. rewrite Hx. cbn [default].
  rewrite (i64_congr _ _ _ (running_end _ 0)). unfold sums. rewrite (take_S_r _ _ _ Hx), zsum_app, Z.add_0_l. cbn. by rewrite Z.add_0_r.
Qed.

Lemma retention_core (rs : replay) (ws : list Z) (Hws : proper_windows ws) (Hts : ∀ r, r ∈ rs → r.1 < two63)
  (Hn : Z.of_nat (unit_count rs) < two31) :
  ∃ rep, SimulateRetention rs ws = Some rep ∧ Windows rep = ws ∧ length (Cached rep) = length ws ∧
    (∀ k w, ws !! k = Some w → Cached rep !! k = Some (i64 (served (Some w) rs))) ∧
    CachedInfinite rep = i64 (served None rs) ∧ Total rep = i64 (asked rs).
Proof.
  destruct (observe_all_spec rs [[]] [] (newRetentionSim ws) (new_ok ws)) as (s' & H1 & H2 & H3 & H4 & H5); [done|done|cbn; unfold two63; lia|cbn; lia|].
  exists (report s'). cbn [newRetentionSim windows prevTs stotal] in *.
  assert (H0 : ∀ k, sums k (newRetentionSim ws) = 0).
  { intros k. unfold sums. cbn [newRetentionSim byBucket]. rewrite take_replicate. generalize (S k `min` S (length ws))%nat. intros n. induction n as [|n IH]; [done|]. cbn [replicate]. by rewrite zsum_cons, IH. }
  assert (Hlen : length (byBucket s') = S (length (windows s'))) by (by rewrite H2). split_and!.
  - unfold SimulateRetention. by rewrite H1.
  - unfold report. cbn. done.
  - unfold report. cbn [Cached]. rewrite <-H2. generalize (length (windows s')) as n, (byBucket s') as b, Hlen. clear. intros n b Hl.
    assert (Hr : ∀ l r, length (running r l) = length l) by (intros l; induction l as [|x l IH]; intros r; cbn; [done|by rewrite IH]). rewrite Hr, length_take. lia.
  - intros k w Hk. pose proof (lookup_lt_Some _ _ _ Hk) as Hlt. rewrite report_cached by (by rewrite ?H2). rewrite H5, H0, Hk by lia. done.
  - rewrite report_infinite, H2 by done. rewrite H5, H0 by lia. by rewrite lookup_ge_None_2 by lia.
  - unfold report. cbn [Total]. by rewrite H4.
Qed.

(** C3: One walk scores every window: for any replay, in any order of times, the report gives
    for each time-to-live exactly the tokens that a cache forgetting what was not used for so
    long would have served, for the unbounded cache those of any earlier request, and the
    total asked for. *)
Theorem retention_exact (rs : replay) (ws : list Z) (Hws : proper_windows ws) (Hts : ∀ r, r ∈ rs → r.1 < two63)
  (Hn : Z.of_nat (unit_count rs) < two31) :
  ∃ rep, SimulateRetention rs ws = Some rep ∧ Windows rep = ws ∧ length (Cached rep) = length ws ∧
    (∀ k w, ws !! k = Some w → Cached rep !! k = Some (i64 (served (Some w) rs))) ∧
    CachedInfinite rep = i64 (served None rs) ∧ Total rep = i64 (asked rs).
Proof. by apply retention_core. Qed.

(** The windows [ParseRetentionWindows] gives are proper ones. *)
Lemma sorted_le_last ds m x : StronglySorted Z.le ds → last ds = Some m → x ∈ ds → x ≤ m.
Proof.
  destruct ds as [|d ds _] using rev_ind; [done|]. rewrite last_snoc. intros (Hx & _ & _)%StronglySorted_app [= <-] [Hin|Hin%list_elem_of_singleton]%elem_of_app; [|lia].
  apply Hx; [done|by left].
Qed.
Lemma uniq_sorted ds : StronglySorted Z.le ds → StronglySorted Z.lt (uniq ds) ∧ last (uniq ds) = last ds ∧ ∀ x, x ∈ uniq ds ↔ x ∈ ds.
Proof.
  induction ds as [|d ds IH] using rev_ind; intros Hs; [split_and!; [constructor|done|done]|]. apply StronglySorted_app in Hs as (Hx & Hs & _).
  destruct (IH Hs) as (I1 & I2 & I3). unfold uniq. rewrite foldl_app. cbn [foldl]. change (foldl _ [] ds) with (uniq ds). destruct (decide _) as [Hl|Hl].
  - split_and!; [done|by rewrite last_snoc|]. intros x. rewrite I3, elem_of_app, list_elem_of_singleton. split; [auto|]. intros [?| ->]; [done|].
    apply I3. rewrite last_lookup in Hl. by eapply list_elem_of_lookup_2.
  - split_and!; [|by rewrite !last_snoc|intros x; by rewrite !elem_of_app, I3].
    apply StronglySorted_app. split_and!; [|done|repeat constructor]. intros x y Hin ->%list_elem_of_singleton. apply I3 in Hin.
    assert (x ≤ d) by (apply Hx; [done|by left]). destruct (decide (x = d)) as [->|]; [|lia]. exfalso. apply Hl. rewrite I2.
    destruct (last ds) as [m|] eqn:Hm; [|by apply last_None in Hm as ->; apply elem_of_nil in Hin]. f_equal. pose proof (sorted_le_last _ _ _ Hs Hm Hin) as Hdm.
    assert (m ∈ ds) by (rewrite last_lookup in Hm; by eapply list_elem_of_lookup_2). assert (m ≤ d) by (apply Hx; [done|by left]). lia.
Qed.
Lemma sorted_windows_proper ds : Forall (Z.lt 0) ds → proper_windows (sorted_windows ds) ∧ ∀ x, x ∈ sorted_windows ds ↔ x ∈ ds.
Proof.
  intros Hp. assert (Hs : StronglySorted Z.le (merge_sort Z.le ds)) by (apply (StronglySorted_merge_sort Z.le ds); intros ???; lia).
  destruct (uniq_sorted _ Hs) as (H1 & _ & H3). assert (Hin : ∀ x, x ∈ sorted_windows ds ↔ x ∈ ds) by (intros x; unfold sorted_windows; by rewrite H3, (merge_sort_Permutation Z.le ds)).
  split; [|done]. split.
  - unfold sorted_windows. clear -H1. induction H1 as [|x l Hl IH Hall]; constructor; [done|]. eapply Forall_impl; [exact Hall|]. intros. lia.
  - apply Forall_forall. intros x Hx%Hin. rewrite Forall_forall in Hp. specialize (Hp x Hx). lia.
Qed.

(** Remembering longer never serves less. *)
Lemma credited_mono (w w' : Z) h now us : w ≤ w' → (∀ u, u ∈ us → 0 ≤ Tokens u) → ∀ ks,
  0 ≤ credited (Some w) h now ks us ≤ credited (Some w') h now ks us ∧ credited (Some w') h now ks us ≤ credited None h now ks us.
Proof.
  intros Hw. induction us as [|u us IH]; intros Htok ks; cbn [credited]; [lia|].
  assert (H1 : ∀ ks, held (Some w) h now ks = true → held (Some w') h now ks = true).
  { intros x. unfold held. rewrite !existsb_exists. intros (r & Hr & [Hp Hl]%andb_true_iff). exists r. split; [done|]. rewrite Hp. cbn. lia. }
  assert (H2 : ∀ ks, held (Some w') h now ks = true → held None h now ks = true).
  { intros x. unfold held. rewrite !existsb_exists. intros (r & Hr & [Hp Hl]%andb_true_iff). exists r. by rewrite Hp. }
  assert (Hu : 0 ≤ Tokens u) by (apply Htok; by left). specialize (IH ltac:(intros; apply Htok; by right) (ks ++ [Hash u])).
  destruct (held (Some w) _ _ _) eqn:E1; [rewrite (H1 _ E1), (H2 _ (H1 _ E1)); lia|]. destruct (held (Some w') _ _ _) eqn:E2; [rewrite (H2 _ E2); lia|]. destruct (held None _ _ _); lia.
Qed.

(** A replay of three requests, five nanoseconds apart and then a hundred. *)
Module RetEx.
Definition a : Unit_ := MkUnit 1 10.
Definition b : Unit_ := MkUnit 2 20.
Definition c : Unit_ := MkUnit 3 40.
Definition rs : replay := [(5, [a; b]); (0, [a; c]); (10, [a; b; c]); (110, [a; b; c])].
End RetEx.
Example retention_run : SimulateRetention RetEx.rs [4; 5; 200] = Some (MkReport [4; 5; 200] [10; 40; 110] 110 220).
Proof. by vm_compute. Qed.
Lemma retention_exact_witness : ∃ rep, SimulateRetention RetEx.rs [4; 5; 200] = Some rep ∧ Cached rep !! 1%nat = Some 40 ∧ CachedInfinite rep = 110.
Proof.
  destruct (retention_exact RetEx.rs [4; 5; 200]) as (rep & H1 & _ & _ & H2 & H3 & _).
  - split; [repeat constructor; lia|repeat constructor; lia].
  - intros r Hr. unfold RetEx.rs in Hr. rewrite !elem_of_cons, elem_of_nil in Hr. destruct Hr as [->|[->|[->|[->|[]]]]]; by vm_compute.
  - by vm_compute.
  - exists rep. split_and!; [exact H1|rewrite (H2 1%nat 5 eq_refl); by vm_compute|rewrite H3; by vm_compute].
Defined.
