(* ===== verification/ReplayStore.v ===== *)
(** * ReplayStore: a replay kept as differences, and the offline cache simulations

    [src/benchmark/replay_prefix_store.go]: each request's prefix is stored as a number of
    leading units of its predecessor, then a tail; [cache_sim.go] and [retention_sim.go] run
    over the rebuilt prefixes.  [BuildReplayRequestPrefix] of [replay_router.go] says what a
    prefix is. *)

From stdpp Require Import base gmap list strings sorting.
From Stdlib Require Import ZArith Lia.
From S2P Require Import Prelude KvUnits KvTrie KvCache Retention.
Open Scope Z_scope.

(** ** Requests of a replay file *)

(** A system block, the tools or a message: what the prefix takes from it. *)
Record block := MkBlock { b_hash : bytes; b_bytes : Z; b_tokens : Z }.
Record RouterReplayRequest := MkReplay {
  q_ts : Z;                          (* [parseReplayTs] of its [Ts]; 0 when unparseable *)
  q_model : string;
  q_input : Z;
  q_cache_read : Z;
  q_output : Z;
  q_system : list block;
  q_tools : option block;
  q_messages : list block;
}.

Definition effectiveSystemBlocks (bs : list block) : list block :=
  match bs with b :: rest => if b_bytes b <? 200 then rest else bs | [] => [] end.
(** The loop over the system blocks, at index [i]. *)
Fixpoint system_prefix (i : nat) (bs : list block) : list block :=
  match bs with
  | [] => []
  | b :: bs => if bool_decide (i = 0%nat) && (b_bytes b <? 200) then system_prefix (S i) bs else b :: system_prefix (S i) bs
  end.
Definition tools_prefix (t : option block) : list block := match t with Some b => if decide (b_hash b = []) then [] else [b] | None => [] end.
Definition BuildReplayRequestPrefix (q : RouterReplayRequest) : list bytes * list Z :=
  let l := system_prefix 0 (q_system q) ++ tools_prefix (q_tools q) ++ q_messages q in (b_hash <$> l, b_tokens <$> l).

(** ** The store *)

Definition prefixCheckpointEvery : Z := 32.

Record PrefixRequest := MkPrefix {
  p_ts : Z; p_model : string; p_session : Z; p_input : Z; p_cache_read : Z; p_output : Z; p_any : bool;
  p_parent : Z;                      (* index of the predecessor, -1 for none; [int32] like the next three *)
  p_shared : Z;
  p_length : Z;
  p_depth : Z;
  p_tail : list Unit_;
}.
Record PrefixStore := MkStore { Reqs : list PrefixRequest; Sessions : Z }.

Fixpoint common (a b : list Unit_) : nat := match a, b with x :: a, y :: b => if decide (x = y) then S (common a b) else 0%nat | _, _ => 0%nat end.

Section prefixes.
Context (sha256 : bytes → bytes).
Definition units_of (q : RouterReplayRequest) : list Unit_ := let '(hs, ts) := BuildReplayRequestPrefix q in UnitsFromLabels sha256 hs ts.

(** One step of [AddChain]; the chain's last request is [prev], at [prevIdx] (-1 for none). *)
Record chain := MkChain { c_reqs : list PrefixRequest; c_prev : list Unit_; c_prevIdx : Z; c_prevDepth : Z }.
Definition shared_units (c : chain) (us : list Unit_) : nat :=
  if (0 <=? c_prevIdx c) && (c_prevDepth c + 1 <? prefixCheckpointEvery) then common (c_prev c) us else 0%nat.
Definition link (c : chain) (p : nat) : Z * Z * Z := if (0 <? p)%nat then (c_prevIdx c, i32 (Z.of_nat p), c_prevDepth c + 1) else (-1, 0, 0).
Definition add_request (c : chain) (q : RouterReplayRequest) : chain :=
  let us := units_of q in
  let p := shared_units c us in
  let '(par, sh, dep) := link c p in
  MkChain (c_reqs c ++ [MkPrefix (q_ts q) (q_model q) 0 (q_input q) (q_cache_read q) (q_output q) (existsb (λ u, 0 <? Tokens u) us) par sh (i32 (Z.of_nat (length us))) dep (drop p us)])
    us (i32 (Z.of_nat (length (c_reqs c)))) dep.
Definition AddChain (qs : list RouterReplayRequest) (batch : list PrefixRequest) : list PrefixRequest := c_reqs (foldl add_request (MkChain batch [] (-1) 0) qs).

(** [Append]; interning the model names does not change them. *)
Definition rebase (off sess : Z) (r : PrefixRequest) : PrefixRequest :=
  MkPrefix (p_ts r) (p_model r) sess (p_input r) (p_cache_read r) (p_output r) (p_any r)
    (if 0 <=? p_parent r then i32 (p_parent r + off) else p_parent r) (p_shared r) (p_length r) (p_depth r) (p_tail r).
Definition Append (b : list PrefixRequest) (s : PrefixStore) : PrefixStore :=
  MkStore (Reqs s ++ (rebase (i32 (Z.of_nat (length (Reqs s)))) (i32 (Sessions s)) <$> b)) (Sessions s + 1).

(** ** Rebuilding a prefix *)

(** [copy(buf[lo:hi], src)] and the slices it takes; out of range, Go panics. *)
Definition copy_at (buf : list Unit_) (lo hi : Z) (src : list Unit_) : option (list Unit_) :=
  if (0 <=? lo) && (lo <=? hi) && (hi <=? Z.of_nat (length buf)) then
    let n := (Z.to_nat (hi - lo) `min` length src)%nat in
    Some (take (Z.to_nat lo) buf ++ take n src ++ drop (Z.to_nat lo + n) buf)
  else None.
Definition slice_to (l : list Unit_) (n : Z) : option (list Unit_) := if (0 <=? n) && (n <=? Z.of_nat (length l)) then Some (take (Z.to_nat n) l) else None.

Fixpoint rebuild (fuel : nat) (s : PrefixStore) (limit : Z) (cur : PrefixRequest) (buf : list Unit_) : option (list Unit_) :=
  if limit <=? 0 then Some buf
  else match fuel with
  | O => None
  | S f =>
      '(limit, buf) ← (if p_shared cur <? limit then
          src ← slice_to (p_tail cur) (limit - p_shared cur);
          buf ← copy_at buf (p_shared cur) limit src; Some (p_shared cur, buf)
        else Some (limit, buf));
      if limit =? 0 then Some buf
      else cur ← at_index (Reqs s) (p_parent cur); rebuild f s limit cur buf
  end.
(** [Units]: a buffer that is too short is reallocated.  A buffer is all of its capacity; the
    slice [Units] returns is [view]. *)
Definition Units (fuel : nat) (s : PrefixStore) (i : Z) (buf : list Unit_) : option (list Unit_) :=
  r ← at_index (Reqs s) i;
  let buf := if Z.of_nat (length buf) <? p_length r then replicate (Z.to_nat (p_length r)) inhabitant else buf in
  rebuild fuel s (p_length r) r buf.
Definition view (r : PrefixRequest) (buf : list Unit_) : list Unit_ := take (Z.to_nat (p_length r)) buf.

(** ** The order of a simulation *)

Fixpoint insert_by (k : nat → Z) (i : nat) (l : list nat) : list nat := match l with [] => [i] | j :: l => if k i <? k j then i :: j :: l else j :: insert_by k i l end.
(** [sort.SliceStable] by time. *)
Definition ChronologicalOrder (s : PrefixStore) : list nat :=
  foldl (λ l i, insert_by (λ i, default 0 (p_ts <$> Reqs s !! i)) i l) [] (seq 0 (length (Reqs s))).

(** ** The simulations *)

Record ReplayCacheReport := MkCacheReport { Requests : Z; SimCachedTokens : Z; SimTotalTokens : Z; SimRatio : float64; GTCachedTokens : Z; GTTotalTokens : Z; GTRatio : float64; BlockTokensAllZero : bool }.
Record cache_sim := MkCacheSim { k_trie : Trie; k_cached : Z; k_total : Z; k_gt_cached : Z; k_gt_total : Z; k_any : bool; k_prefix : bool }.
Definition start_sim : cache_sim := MkCacheSim (New (KvTrie.MkConfig 0 0 0)) 0 0 0 0 false false.
(** One request: its prefix, whether it has token counts, and what the server said. *)
Definition sim_request (us : list Unit_) (anyTok : bool) (read input : Z) (k : cache_sim) : cache_sim :=
  let k := match us with
    | [] => k
    | _ => let '(cached, total, t) := RecordAndCount us (k_trie k) in
           MkCacheSim (Observe cached total t) (i64 (k_cached k + cached)) (i64 (k_total k + total)) (k_gt_cached k) (k_gt_total k) (k_any k || anyTok) true
    end in
  MkCacheSim (k_trie k) (k_cached k) (k_total k) (i64 (k_gt_cached k + read)) (i64 (k_gt_total k + input)) (k_any k) (k_prefix k).
Definition share (a b : Z) : float64 := if 0 <? b then f64_div (f64_of_Z a) (f64_of_Z b) else f64_of_Z 0.
Definition sim_report (n : nat) (k : cache_sim) : ReplayCacheReport :=
  MkCacheReport (Z.of_nat n) (k_cached k) (k_total k) (share (k_cached k) (k_total k)) (k_gt_cached k) (k_gt_total k) (share (k_gt_cached k) (k_gt_total k)) (k_prefix k && negb (k_any k)).

Definition SimulateReplayCache (qs : list RouterReplayRequest) : ReplayCacheReport :=
  sim_report (length qs) (foldl (λ k q, sim_request (units_of q) (existsb (Z.ltb 0) (BuildReplayRequestPrefix q).2) (q_cache_read q) (q_input q) k) start_sim qs).

(** [SimulateReplayCacheStore]: the requests named by [idx], rebuilt one after another in one
    buffer. *)
Definition sim_indexed (fuel : nat) (s : PrefixStore) (a : option (cache_sim * list Unit_)) (i : Z) : option (cache_sim * list Unit_) :=
  '(k, buf) ← a;
  r ← at_index (Reqs s) i;
  if 0 <? p_length r then
    buf ← Units fuel s i buf; Some (sim_request (view r buf) (p_any r) (p_cache_read r) (p_input r) k, buf)
  else Some (sim_request [] (p_any r) (p_cache_read r) (p_input r) k, buf).
Definition SimulateReplayCacheStore (fuel : nat) (s : PrefixStore) (idx : list Z) : option ReplayCacheReport :=
  '(k, _) ← foldl (sim_indexed fuel s) (Some (start_sim, [])) idx; Some (sim_report (length idx) k).

Definition retain_indexed (fuel : nat) (s : PrefixStore) (a : option (retentionSim * list Unit_)) (i : Z) : option (retentionSim * list Unit_) :=
  '(k, buf) ← a;
  buf ← Units fuel s i buf;
  r ← at_index (Reqs s) i;
  k ← observe (p_ts r) (view r buf) k; Some (k, buf).
Definition SimulateRetentionStore (fuel : nat) (s : PrefixStore) (idx : list Z) (ws : list Z) : option RetentionReport :=
  '(k, _) ← foldl (retain_indexed fuel s) (Some (newRetentionSim ws, [])) idx; Some (report k).
Definition SimulateRetentionRequests (qs : list RouterReplayRequest) (ws : list Z) : option RetentionReport :=
  SimulateRetention ((λ q, (q_ts q, units_of q)) <$> qs) ws.

(** ** What the store holds *)

Record entry (rs : list PrefixRequest) (qs : list RouterReplayRequest) (i : nat) (r : PrefixRequest) (q : RouterReplayRequest) : Prop := Entry {
  e_length : p_length r = Z.of_nat (length (units_of q));
  e_shared : 0 ≤ p_shared r ≤ p_length r;
  e_tail : p_tail r = drop (Z.to_nat (p_shared r)) (units_of q);
  e_depth : 0 ≤ p_depth r < prefixCheckpointEvery;
  e_parent : p_shared r = 0 ∨ ∃ j r' q', p_parent r = Z.of_nat j ∧ (j < i)%nat ∧ rs !! j = Some r' ∧ qs !! j = Some q' ∧
    p_depth r = p_depth r' + 1 ∧ take (Z.to_nat (p_shared r)) (units_of q) = take (Z.to_nat (p_shared r)) (units_of q') ∧ p_shared r ≤ Z.of_nat (length (units_of q'));
  e_meta : p_ts r = q_ts q ∧ p_model r = q_model q ∧ p_input r = q_input q ∧ p_cache_read r = q_cache_read q ∧ p_output r = q_output q ∧
    p_any r = existsb (λ u, 0 <? Tokens u) (units_of q);
}.
Definition stores (rs : list PrefixRequest) (qs : list RouterReplayRequest) : Prop :=
  length rs = length qs ∧ ∀ i r q, rs !! i = Some r → qs !! i = Some q → entry rs qs i r q.

Lemma common_spec (a b : list Unit_) : (common a b <= length a)%nat ∧ (common a b <= length b)%nat ∧ take (common a b) b = take (common a b) a.
Proof.
  revert b. induction a as [|x a IH]; intros [|y b]; cbn; [split_and!; lia || done..|]. destruct (decide (x = y)) as [->|]; [|cbn; split_and!; lia || done].
  destruct (IH b) as (H1 & H2 & H3). cbn. rewrite H3. split_and!; lia || done.
Qed.

Lemma entry_more rs qs rs' qs' i r q : entry rs qs i r q → entry (rs ++ rs') (qs ++ qs') i r q.
Proof.
  intros [H1 H2 H3 H4 H5 H6]. split; [done|done|done|done| |done]. destruct H5 as [?|(j & r' & q' & ? & ? & Hr & Hq & ?)]; [by left|right].
  exists j, r', q'. split_and!; [done|done|by apply lookup_app_l_Some|by apply lookup_app_l_Some|tauto..].
Qed.

Definition small (q : RouterReplayRequest) : Prop := Z.of_nat (length (units_of q)) < two31.

(** A chain in progress: its last request is the last one stored. *)
Record chaining (c : chain) (qs : list RouterReplayRequest) : Prop := Chaining {
  ch_stores : stores (c_reqs c) qs;
  ch_prev : c_prevIdx c = -1 ∨ ∃ r q, c_prevIdx c = Z.of_nat (length qs) - 1 ∧ last (c_reqs c) = Some r ∧ last qs = Some q ∧ c_prev c = units_of q ∧ c_prevDepth c = p_depth r;
}.

Lemma add_request_ok c qs q : chaining c qs → small q → Z.of_nat (S (length qs)) < two31 → chaining (add_request c q) (qs ++ [q]).
Proof.
  intros [[Hlen Hst] Hprev] Hq Hn. unfold small in Hq. unfold add_request. cbn zeta. set (p := shared_units c (units_of q)).
  assert (Hp : p = 0%nat ∨ ((0 < p)%nat ∧ p = common (c_prev c) (units_of q) ∧ 0 ≤ c_prevIdx c ∧ c_prevDepth c + 1 < prefixCheckpointEvery)).
  { unfold p, shared_units. destruct (0 <=? c_prevIdx c) eqn:E1; [|by left]. destruct (c_prevDepth c + 1 <? _) eqn:E2; [|by left]. cbn. destruct (common _ _) eqn:E; [by left|right]. split_and!; lia || done. }
  assert (Hple : (p <= length (units_of q))%nat) by (destruct Hp as [->|(_ & -> & _)]; [lia|apply common_spec]).
  assert (Hi : ∀ n : nat, Z.of_nat n < two31 → i32 (Z.of_nat n) = Z.of_nat n) by (intros n Hn'; apply i32_id; unfold two31 in *; lia).
  destruct (link c p) as [[par sh] dep] eqn:Ef. unfold link in Ef.
  assert (Hent : sh = Z.of_nat p ∧ 0 ≤ dep < prefixCheckpointEvery ∧ (p = 0%nat ∨ ∃ j r' q', par = Z.of_nat j ∧ (j < length qs)%nat ∧ c_reqs c !! j = Some r' ∧ qs !! j = Some q' ∧
    dep = p_depth r' + 1 ∧ take p (units_of q) = take p (units_of q') ∧ (p <= length (units_of q'))%nat)).
  { destruct Hp as [Hp|(Hp & Hc & Hx & Hd)].
    - rewrite Hp in Ef. injection Ef as <- <- <-. rewrite Hp. unfold prefixCheckpointEvery. split_and!; [done|lia|lia|by left].
    - assert ((0 <? p)%nat = true) as Hlt by (by apply Nat.ltb_lt). rewrite Hlt, Hi in Ef by lia. injection Ef as <- <- <-.
      destruct Hprev as [Hprev|(r' & q' & Hpi & Hlr & Hlq & Hpu & Hpd)]; [lia|]. rewrite last_lookup in Hlr. rewrite last_lookup in Hlq.
      pose proof (Hst _ _ _ Hlr ltac:(by rewrite Hlen)) as He. pose proof (e_depth _ _ _ _ _ He) as Hdep. split; [done|]. split; [lia|]. right.
      exists (pred (length qs)), r', q'. apply lookup_lt_Some in Hlq as Hlt'. split_and!; [lia|lia|by rewrite <-Hlen|done|lia|..]; rewrite <-?Hpu, ?Hc; apply common_spec. }
  destruct Hent as (-> & Hdep & Hpar). set (r := MkPrefix _ _ _ _ _ _ _ _ _ _ _ _).
  split; cbn [c_reqs c_prev c_prevIdx c_prevDepth].
  - split; [rewrite !length_app; cbn; lia|]. intros i r0 q0 Hr Hq0. apply lookup_snoc_Some in Hr as [[Hil Hr]|[-> <-]].
    + rewrite lookup_app_l in Hq0 by lia. apply entry_more. by apply Hst.
    + rewrite Hlen, lookup_app_r, Nat.sub_diag in Hq0 by lia. injection Hq0 as <-. split; cbn [r p_length p_shared p_tail p_depth p_parent p_ts p_model p_input p_cache_read p_output p_any].
      * by rewrite Hi.
      * rewrite Hi by done. lia.
      * by rewrite Nat2Z.id.
      * done.
      * destruct Hpar as [->|(j & r' & q' & H1 & H2 & H3 & H4 & H5 & H6 & H7)]; [by left|right]. exists j, r', q'. rewrite Nat2Z.id.
        split_and!; [done|lia|by apply lookup_app_l_Some|by apply lookup_app_l_Some|done|done|lia].
      * done.
  - right. exists r, q. rewrite !last_snoc, Hi by lia. split_and!; [rewrite length_app; cbn; lia|done|done|done|done].
Qed.

Lemma AddChain_ok b qs0 qs : stores b qs0 → Forall small qs → Z.of_nat (length qs0 + length qs) < two31 → stores (AddChain qs b) (qs0 ++ qs).
Proof.
  intros Hb Hsm Hn. unfold AddChain. assert (Hc : chaining (MkChain b [] (-1) 0) qs0) by (split; [done|by left]).
  generalize dependent (MkChain b [] (-1) 0). clear Hb b. intros c Hc. revert c qs0 Hc Hn. induction Hsm as [|q qs Hq Hsm IH]; intros c qs0 Hc Hn.
  - rewrite app_nil_r. apply Hc.
  - cbn [foldl]. change (q :: qs) with ([q] ++ qs). rewrite app_assoc. cbn in Hn. apply IH; [apply add_request_ok; [done|done|lia]|rewrite length_app; cbn; lia].
Qed.
Definition batch_of (chains : list (list RouterReplayRequest)) : list PrefixRequest := foldl (λ b qs, AddChain qs b) [] chains.
Definition store_of (batches : list (list (list RouterReplayRequest))) : PrefixStore := foldl (λ s b, Append (batch_of b) s) (MkStore [] 0) batches.

Lemma batch_ok chains : Forall small (concat chains) → Z.of_nat (length (concat chains)) < two31 → stores (batch_of chains) (concat chains).
Proof.
  induction chains as [|qs chains IH] using rev_ind; intros Hsm Hn; [by split|]. unfold batch_of. rewrite foldl_app, concat_app in *. cbn [foldl concat] in *. rewrite app_nil_r in *.
  rewrite length_app in Hn. apply Forall_app in Hsm as [Hs1 Hs2]. apply AddChain_ok; [apply IH; [done|lia]|done|lia].
Qed.

Lemma Append_ok s b qs qb : stores (Reqs s) qs → stores b qb → Z.of_nat (length qs + length qb) < two31 → stores (Reqs (Append b s)) (qs ++ qb).
Proof.
  intros [Hl1 Hs] [Hl2 Hb] Hn. unfold Append. cbn [Reqs]. assert (Hoff : i32 (Z.of_nat (length (Reqs s))) = Z.of_nat (length qs)) by (rewrite Hl1; apply i32_id; unfold two31 in *; lia).
  rewrite Hoff. split; [rewrite !length_app, length_fmap; lia|]. intros i r q Hr Hq. apply lookup_app_Some in Hr as [Hr|[Hi Hr]].
  - rewrite lookup_app_l in Hq by (apply lookup_lt_Some in Hr; lia). apply entry_more. by apply Hs.
  - rewrite list_lookup_fmap, fmap_Some in Hr. destruct Hr as (r0 & Hr0 & ->). rewrite lookup_app_r in Hq by lia. rewrite Hl1 in Hr0. pose proof (Hb _ _ _ Hr0 Hq) as He.
    split; cbn [rebase p_length p_shared p_tail p_depth p_parent p_ts p_model p_input p_cache_read p_output p_any]; [apply He..| |apply He].
    destruct (e_parent _ _ _ _ _ He) as [?|(j & r' & q' & H1 & H2 & H3 & H4 & H5)]; [by left|right]. apply lookup_lt_Some in H4 as Hj.
    exists (length qs + j)%nat, (rebase (Z.of_nat (length qs)) (i32 (Sessions s)) r'), q'. rewrite H1. assert (0 <=? Z.of_nat j = true) as -> by lia. rewrite i32_id by (unfold two31 in *; lia).
    split_and!; [lia|lia| |rewrite lookup_app_r by lia; by rewrite Nat.add_comm, Nat.add_sub|apply H5..].
    rewrite lookup_app_r, Hl1 by lia. rewrite list_lookup_fmap, Nat.add_comm, Nat.add_sub, H3. done.
Qed.

Definition all_of (batches : list (list (list RouterReplayRequest))) : list RouterReplayRequest := concat (concat batches).
Definition fits (qs : list RouterReplayRequest) : Prop := Forall small qs ∧ Z.of_nat (length qs) < two31.
Lemma store_ok batches : fits (all_of batches) → stores (Reqs (store_of batches)) (all_of batches).
Proof.
  unfold fits, all_of. induction batches as [|b batches IH] using rev_ind; intros [Hsm Hn]; [by split|]. unfold store_of. rewrite foldl_app, !concat_app in *. cbn [foldl concat] in *.
  rewrite app_nil_r in *. rewrite length_app in Hn. apply Forall_app in Hsm as [Hs1 Hs2]. apply Append_ok; [apply IH; split; [done|lia]|apply batch_ok; [done|lia]|lia].
Qed.

(** ** Rebuilding *)

Lemma rebuild_ok s qs : stores (Reqs s) qs → ∀ fuel limit i r q buf, Reqs s !! i = Some r → qs !! i = Some q → p_depth r < Z.of_nat fuel →
  0 ≤ limit ≤ p_length r → limit ≤ Z.of_nat (length buf) →
  ∃ buf', rebuild fuel s limit r buf = Some buf' ∧ length buf' = length buf ∧ take (Z.to_nat limit) buf' = take (Z.to_nat limit) (units_of q) ∧
    drop (Z.to_nat limit) buf' = drop (Z.to_nat limit) buf.
Proof.
  intros [Hl Hs]. induction fuel as [|f IH]; intros limit i r q buf Hr Hq Hf Hlim Hb; pose proof (Hs _ _ _ Hr Hq) as He; pose proof (e_depth _ _ _ _ _ He) as Hd; [lia|].
  cbn [rebuild]. destruct (limit <=? 0) eqn:E0; [assert (limit = 0) as -> by lia; by exists buf|]. pose proof (e_shared _ _ _ _ _ He) as Hsh. pose proof (e_length _ _ _ _ _ He) as Hle.
  assert (Hup : ∀ lim buf1, 0 < lim → lim ≤ p_shared r → lim ≤ Z.of_nat (length buf1) → ∃ buf', (cur ← at_index (Reqs s) (p_parent r); rebuild f s lim cur buf1) = Some buf' ∧ length buf' = length buf1 ∧
    take (Z.to_nat lim) buf' = take (Z.to_nat lim) (units_of q) ∧ drop (Z.to_nat lim) buf' = drop (Z.to_nat lim) buf1).
  { intros lim buf1 H1 H2 H3. destruct (e_parent _ _ _ _ _ He) as [?|(j & r' & q' & P1 & P2 & P3 & P4 & P5 & P6 & P7)]; [lia|]. unfold at_index. rewrite P1. assert (Z.of_nat j <? 0 = false) as -> by lia.
    rewrite Nat2Z.id, P3. cbn [mbind option_bind]. pose proof (e_length _ _ _ _ _ (Hs _ _ _ P3 P4)) as Hle'.
    destruct (IH lim j r' q' buf1 P3 P4) as (buf' & B1 & B2 & B3 & B4); [lia|lia|done|]. exists buf'. split_and!; [done|done| |done]. rewrite B3.
    assert (Htt : ∀ x : list Unit_, take (Z.to_nat lim) x = take (Z.to_nat lim) (take (Z.to_nat (p_shared r)) x)) by (intros x; rewrite take_take; f_equal; lia).
    by rewrite (Htt (units_of q')), <-P6, <-Htt. }
  destruct (p_shared r <? limit) eqn:Es.
  2:{ cbn [mbind option_bind]. assert (limit =? 0 = false) as -> by lia. by apply Hup; lia. }
  set (sh := p_shared r) in *. rewrite (e_tail _ _ _ _ _ He). fold sh. unfold slice_to. rewrite length_drop.
  assert ((0 <=? limit - sh) && (limit - sh <=? Z.of_nat (length (units_of q) - Z.to_nat sh)) = true) as -> by (rewrite !andb_true_iff, !Z.leb_le; lia). cbn [mbind option_bind]. unfold copy_at.
  assert ((0 <=? sh) && (sh <=? limit) && (limit <=? Z.of_nat (length buf)) = true) as -> by (rewrite !andb_true_iff, !Z.leb_le; lia). cbn [mbind option_bind].
  set (src := take (Z.to_nat (limit - sh)) (drop (Z.to_nat sh) (units_of q))). assert (Hsrc : length src = Z.to_nat (limit - sh)) by (unfold src; rewrite length_take, length_drop; lia).
  rewrite Hsrc, Nat.min_id, (take_ge src) by lia. replace (Z.to_nat sh + Z.to_nat (limit - sh))%nat with (Z.to_nat limit) by lia.
  set (buf1 := take (Z.to_nat sh) buf ++ src ++ drop (Z.to_nat limit) buf).
  assert (Hb1 : length buf1 = length buf) by (unfold buf1; rewrite !length_app, length_take, length_drop, Hsrc; lia).
  assert (Hd1 : drop (Z.to_nat sh) buf1 = src ++ drop (Z.to_nat limit) buf) by (unfold buf1; by rewrite drop_app_length' by (rewrite length_take; lia)).
  assert (Hjoin : ∀ buf', length buf' = length buf → take (Z.to_nat sh) buf' = take (Z.to_nat sh) (units_of q) → drop (Z.to_nat sh) buf' = src ++ drop (Z.to_nat limit) buf →
    take (Z.to_nat limit) buf' = take (Z.to_nat limit) (units_of q) ∧ drop (Z.to_nat limit) buf' = drop (Z.to_nat limit) buf).
  { intros buf' Hlb Ht Hdr. assert (Hw : take (Z.to_nat sh) (units_of q) ++ src = take (Z.to_nat limit) (units_of q)) by (unfold src; rewrite take_take_drop; f_equal; lia).
    assert (Hlw : length (take (Z.to_nat limit) (units_of q)) = Z.to_nat limit) by (rewrite length_take; lia).
    assert (Hbuf : buf' = take (Z.to_nat limit) (units_of q) ++ drop (Z.to_nat limit) buf) by (rewrite <-(take_drop (Z.to_nat sh) buf'), Ht, Hdr, app_assoc, Hw; done).
    rewrite Hbuf. split; [by rewrite take_app_length'|by rewrite drop_app_length']. }
  destruct (sh =? 0) eqn:E.
  - exists buf1. split; [done|]. split; [done|]. apply Hjoin; [done| |done]. assert (sh = 0) as -> by lia. done.
  - destruct (Hup sh buf1) as (buf' & B1 & B2 & B3 & B4); [lia|lia|lia|]. exists buf'. split; [done|]. split; [lia|]. apply Hjoin; [lia|done|by rewrite B4].
Qed.

Lemma Units_ok s qs i q buf : stores (Reqs s) qs → qs !! i = Some q →
  ∃ r buf', Reqs s !! i = Some r ∧ entry (Reqs s) qs i r q ∧ Units (Z.to_nat prefixCheckpointEvery) s (Z.of_nat i) buf = Some buf' ∧ view r buf' = units_of q.
Proof.
  intros Hst Hq. pose proof Hst as [Hl Hs]. destruct (lookup_lt_is_Some_2 (Reqs s) i) as [r Hr]; [rewrite Hl; by apply lookup_lt_Some in Hq|].
  pose proof (Hs _ _ _ Hr Hq) as He. pose proof (e_length _ _ _ _ _ He) as Hle. pose proof (e_depth _ _ _ _ _ He) as Hd. exists r.
  unfold Units, at_index, view. assert (Z.of_nat i <? 0 = false) as -> by (apply Z.ltb_ge; lia). rewrite Nat2Z.id, Hr. cbn [mbind option_bind]. set (b0 := if _ <? _ then _ else _).
  assert (Hb : p_length r ≤ Z.of_nat (length b0)) by (unfold b0; destruct (Z.of_nat (length buf) <? p_length r) eqn:E; [rewrite length_replicate; lia|lia]).
  destruct (rebuild_ok s qs Hst (Z.to_nat prefixCheckpointEvery) (p_length r) i r q b0 Hr Hq) as (buf' & H1 & _ & H3 & _); [lia|lia|done|].
  exists buf'. split_and!; [done|done|done|]. rewrite H3. apply take_ge. lia.
Qed.

(** ** The simulations agree *)

Lemma UnitsFromLabels_tokens hs : ∀ ts, length hs = length ts → (λ u, Tokens u) <$> UnitsFromLabels sha256 hs ts = i32 <$> ts.
Proof. induction hs as [|h hs IH]; intros [|t ts] Hl; [done..|]. cbn in *. f_equal. apply IH. lia. Qed.
Lemma units_tokens q : (λ u, Tokens u) <$> units_of q = i32 <$> (BuildReplayRequestPrefix q).2.
Proof. unfold units_of, BuildReplayRequestPrefix. cbn. apply UnitsFromLabels_tokens. by rewrite !length_fmap. Qed.

(** Token counts as captures have them. *)
Definition counted_tokens (q : RouterReplayRequest) : Prop := Forall (λ t, 0 ≤ t < two31) (BuildReplayRequestPrefix q).2.
Lemma existsb_fmap {A B} (f : A → B) (p : B → bool) l : existsb p (f <$> l) = existsb (λ x, p (f x)) l.
Proof. induction l as [|x l IH]; cbn; [done|by rewrite IH]. Qed.
Lemma any_tokens q : counted_tokens q → existsb (λ u, 0 <? Tokens u) (units_of q) = existsb (Z.ltb 0) (BuildReplayRequestPrefix q).2.
Proof.
  intros Hc. rewrite <-(existsb_fmap (λ u, Tokens u) (Z.ltb 0)), units_tokens. f_equal. induction Hc as [|t ts Ht Hc IH]; cbn; [done|]. f_equal; [|done].
  apply i32_id. unfold two31 in *. lia.
Qed.
Lemma units_nonneg q u : counted_tokens q → u ∈ units_of q → 0 ≤ Tokens u.
Proof.
  intros Hc Hu. assert (Ht : Tokens u ∈ (λ u, Tokens u) <$> units_of q) by (apply list_elem_of_fmap; by exists u). rewrite units_tokens in Ht.
  apply list_elem_of_fmap in Ht as (t & -> & Ht). unfold counted_tokens in Hc. rewrite Forall_forall in Hc. specialize (Hc t Ht). rewrite i32_id; unfold two31 in *; lia.
Qed.

Definition pick (qs : list RouterReplayRequest) (ix : list nat) : list RouterReplayRequest := omap (λ i, qs !! i) ix.
Definition names_all (qs : list RouterReplayRequest) (ix : list nat) : Prop := ∀ i, i ∈ ix → (i < length qs)%nat.

Definition cache_step (k : cache_sim) (q : RouterReplayRequest) : cache_sim :=
  sim_request (units_of q) (existsb (Z.ltb 0) (BuildReplayRequestPrefix q).2) (q_cache_read q) (q_input q) k.
Lemma sim_store s qs ix : stores (Reqs s) qs → names_all qs ix → Forall counted_tokens qs → ∀ k buf,
  ∃ buf', foldl (sim_indexed (Z.to_nat prefixCheckpointEvery) s) (Some (k, buf)) (Z.of_nat <$> ix) = Some (foldl cache_step k (pick qs ix), buf').
Proof.
  intros Hst Hin Hct. induction ix as [|i ix IH]; intros k buf; [by exists buf|]. destruct (lookup_lt_is_Some_2 qs i) as [q Hq]; [apply Hin; by left|].
  assert (Hpick : pick qs (i :: ix) = q :: pick qs ix) by (unfold pick; cbn; by rewrite Hq). rewrite Hpick. cbn [fmap list_fmap foldl].
  destruct (Units_ok s qs i q buf Hst Hq) as (r & buf' & Hr & He & Hu & Hv). pose proof (e_length _ _ _ _ _ He) as Hl. destruct (e_meta _ _ _ _ _ He) as (_ & _ & M3 & M4 & _ & M6).
  assert (Hany : existsb (λ u, 0 <? Tokens u) (units_of q) = existsb (Z.ltb 0) (BuildReplayRequestPrefix q).2) by (apply any_tokens; rewrite Forall_forall in Hct; apply Hct; by eapply list_elem_of_lookup_2).
  assert (Hstep : ∃ b, sim_indexed (Z.to_nat prefixCheckpointEvery) s (Some (k, buf)) (Z.of_nat i) = Some (cache_step k q, b)).
  { unfold sim_indexed. cbn [mbind option_bind]. unfold at_index. assert (Z.of_nat i <? 0 = false) as -> by (apply Z.ltb_ge; lia). rewrite Nat2Z.id, Hr. cbn [mbind option_bind]. destruct (0 <? p_length r) eqn:E.
    - rewrite Hu. cbn [mbind option_bind]. rewrite Hv, M3, M4, M6, Hany. by exists buf'.
    - exists buf. assert (Hnil : units_of q = []) by (apply nil_length_inv; lia). unfold cache_step. rewrite Hnil, M3, M4. done. }
  destruct Hstep as [b ->]. apply IH. intros j Hj. apply Hin. by right.
Qed.
Lemma foldl_None {A B} (f : option A → B → option A) l : (∀ x, f None x = None) → foldl f None l = None.
Proof. intros Hf. induction l as [|x l IH]; cbn; [done|by rewrite Hf]. Qed.

Lemma retain_store s qs ix : stores (Reqs s) qs → names_all qs ix → ∀ k buf,
  fst <$> foldl (retain_indexed (Z.to_nat prefixCheckpointEvery) s) (Some (k, buf)) (Z.of_nat <$> ix) =
  Retention.observe_all ((λ q, (q_ts q, units_of q)) <$> pick qs ix) k.
Proof.
  intros Hst Hin. unfold Retention.observe_all. induction ix as [|i ix IH]; intros k buf; [done|]. destruct (lookup_lt_is_Some_2 qs i) as [q Hq]; [apply Hin; by left|].
  assert (Hpick : pick qs (i :: ix) = q :: pick qs ix) by (unfold pick; cbn; by rewrite Hq). rewrite Hpick. cbn [fmap list_fmap foldl mbind option_bind fst snd].
  destruct (Units_ok s qs i q buf Hst Hq) as (r & buf' & Hr & He & Hu & Hv). destruct (e_meta _ _ _ _ _ He) as (M1 & _).
  assert (Hstep : retain_indexed (Z.to_nat prefixCheckpointEvery) s (Some (k, buf)) (Z.of_nat i) = k' ← observe (q_ts q) (units_of q) k; Some (k', buf')).
  { unfold retain_indexed. cbn [mbind option_bind]. rewrite Hu. cbn [mbind option_bind]. unfold at_index. assert (Z.of_nat i <? 0 = false) as -> by (apply Z.ltb_ge; lia).
    rewrite Nat2Z.id, Hr. cbn [mbind option_bind]. by rewrite Hv, M1. }
  rewrite Hstep. destruct (observe (q_ts q) (units_of q) k) as [k'|]; cbn [mbind option_bind].
  - apply IH. intros j Hj. apply Hin. by right.
  - rewrite !foldl_None by done. done.
Qed.

(** C4: A replay stored as differences reads back as it was: rebuilding any request, into any
    buffer, walks at most as many predecessors as the checkpoints allow and gives exactly the
    request's prefix, with its time and token counts. *)
Theorem store_roundtrip (batches : list (list (list RouterReplayRequest))) (i : nat) (q : RouterReplayRequest) (buf : list Unit_)
  (Hfit : fits (all_of batches)) (Hq : all_of batches !! i = Some q) :
  ∃ r buf', Reqs (store_of batches) !! i = Some r ∧
    Units (Z.to_nat prefixCheckpointEvery) (store_of batches) (Z.of_nat i) buf = Some buf' ∧ view r buf' = units_of q ∧
    p_ts r = q_ts q ∧ p_model r = q_model q ∧ p_input r = q_input q ∧ p_cache_read r = q_cache_read q ∧ p_output r = q_output q.
Proof.
  destruct (Units_ok _ _ i q buf (store_ok _ Hfit) Hq) as (r & buf' & H1 & He & H2 & H3). exists r, buf'.
  destruct (e_meta _ _ _ _ _ He) as (M1 & M2 & M3 & M4 & M5 & _). by split_and!.
Qed.

(** What the unbounded trie has credited is what any earlier request began with. *)
Lemma credited_lead h now us : ∀ m ks, (m <= length us)%nat → (∀ j, (j <= m)%nat → j ≠ 0%nat → held None h now (ks ++ (Hash <$> take j us)) = true) →
  ((m < length us)%nat → held None h now (ks ++ (Hash <$> take (S m) us)) = false) → credited None h now ks us = sum_tokens (take m us).
Proof.
  induction us as [|u us IH]; intros m ks Hm Hall Hno; [by destruct m|]. cbn [credited]. destruct m as [|m].
  - specialize (Hno ltac:(cbn; lia)). cbn [take fmap list_fmap] in Hno. rewrite take_0 in Hno. cbn in Hno. by rewrite Hno.
  - pose proof (Hall 1%nat ltac:(lia) ltac:(done)) as H1. cbn [take fmap list_fmap] in H1. rewrite take_0 in H1. cbn [fmap list_fmap] in H1. rewrite H1. cbn [take]. change (sum_tokens (u :: take m us)) with (Tokens u + sum_tokens (take m us)).
    f_equal. apply IH; [cbn in Hm; lia| |].
    + intros j Hj Hj0. specialize (Hall (S j) ltac:(lia) ltac:(lia)). cbn [take fmap list_fmap] in Hall. by rewrite <-app_assoc.
    + intros Hlt. specialize (Hno ltac:(cbn; lia)). cbn [take fmap list_fmap] in Hno. by rewrite <-app_assoc.
Qed.
Lemma held_prefix (h : history) now ks : held None h now ks = true ↔ ∃ r, r ∈ h ∧ ks `prefix_of` r.2.
Proof.
  unfold held. rewrite existsb_exists. split.
  - intros (r & Hr & [Hp _]%andb_true_iff). exists r. split; [by apply list_elem_of_In|by apply bool_decide_eq_true in Hp].
  - intros (r & Hr & Hp). exists r. split; [by apply list_elem_of_In|]. by rewrite bool_decide_eq_true_2.
Qed.

(** The trie after the requests of a history, observations included. *)
Definition learnt (t : Trie) (h : history) : Prop :=
  wf (t, []) ∧ Bounded (cfg t) = false ∧ ∀ ks, holds t ks ↔ ks = [] ∨ ∃ r, r ∈ h ∧ ks `prefix_of` r.2.
Lemma learn t h now us : learnt t h → (∀ u, u ∈ us → 0 ≤ Tokens u) →
  (RecordAndCount us t).1 = (credited None h now [] us, sum_tokens us) ∧ learnt (RecordAndCount us t).2 (h ++ [(now, Hash <$> us)]).
Proof.
  intros (Hwf & Hbd & Hh) Htok. split.
  - destruct (query_longest t us) as (m & Hm & HQ & H1 & H2).
    assert (Heq : (RecordAndCount us t).1 = Query t us) by (unfold RecordAndCount, Query; destruct us; [done|]; by destruct (walk _ _ _ _) as [[n x] rest]).
    rewrite Heq, HQ. f_equal. symmetry. apply credited_lead; [done| |].
    + intros j Hj Hj0. apply held_prefix. assert (Hp : holds t (Hash <$> take j us)).
      { replace (take m us) with (take j us ++ drop j (take m us)) in H1 by (rewrite <-(take_drop j (take m us)) at 2; by rewrite take_take, Nat.min_l by lia).
        rewrite fmap_app in H1. by apply kv_holds_prefix in H1. }
      apply Hh in Hp as [Hp|Hp]; [|done]. apply fmap_nil_inv in Hp. destruct us; [cbn in Hm; lia|]. by destruct j.
    + intros Hlt. apply not_true_iff_false. rewrite held_prefix. intros Hx. apply (H2 Hlt). apply Hh. by right.
  - destruct Hwf as (D & L & Hc & HP). cbn [fst snd] in Hc, HP. pose proof (count_prefixes _ _ _ us _ Hc HP Htok) as Hcp. split_and!.
    + apply (wf_step (t, [])); [by exists D, L|]. by apply k_count.
    + by rewrite (proj2 (proj2 (Hcp []))).
    + intros ks. destruct (Hcp ks) as (_ & Hx & _). rewrite (Hx Hbd), Hh. split.
      * intros [[?|(r & Hr & Hk)]|Hk]; [by left|right; exists r; rewrite elem_of_app; auto|right; exists (now, Hash <$> us); rewrite elem_of_app, list_elem_of_singleton; auto].
      * intros [?|(r & [Hr|Hr%list_elem_of_singleton]%elem_of_app & Hk)]; [by left; left|left; right; eauto|subst r; by right].
Qed.

Lemma observe_learnt c n t h : learnt t h → learnt (Observe c n t) h.
Proof.
  intros (Hwf & Hb & Hh). split; [apply (wf_step (t, [])); [done|apply k_observe]|]. unfold Observe. destruct (n <=? 0); [done|]. split; [done|]. intros ks. rewrite <-Hh. done.
Qed.
Lemma start_learnt : learnt (k_trie start_sim) [].
Proof.
  split; [apply wf_new|]. split; [done|]. intros ks. destruct (simulate_holds (KvTrie.MkConfig 0 0 0) [] eq_refl) as (_ & _ & Hh); [by intros r u ?%elem_of_nil|].
  cbn [simulate foldl] in Hh. unfold start_sim. cbn [k_trie]. rewrite Hh. split; (intros [?|(r & Hr%elem_of_nil & _)]; [by left|done]).
Qed.

Definition timed (qs : list RouterReplayRequest) : replay := (λ q, (q_ts q, units_of q)) <$> qs.
Lemma sim_served qs : Forall counted_tokens qs → ∀ k h prev, learnt (k_trie k) h → - two63 ≤ k_cached k < two63 → - two63 ≤ k_total k < two63 →
  k_cached (foldl cache_step k qs) = i64 (k_cached k + served_from None h (clamp prev (timed qs))) ∧
  k_total (foldl cache_step k qs) = i64 (k_total k + asked (timed qs)).
Proof.
  intros Hct. induction Hct as [|q qs Hq Hct IH]; intros k h prev Hl Hc1 Hc2; [cbn; by rewrite !Z.add_0_r, !i64_id|].
  cbn [foldl timed fmap list_fmap clamp served_from asked foldr snd]. fold (timed qs). change (foldr _ 0 (timed qs)) with (asked (timed qs)). set (now := Z.max (q_ts q) prev).
  destruct (learn (k_trie k) h now (units_of q) Hl) as [L1 L2]; [intros u; by apply units_nonneg|].
  assert (Hstep : k_cached (cache_step k q) = i64 (k_cached k + credited None h now [] (units_of q)) ∧ k_total (cache_step k q) = i64 (k_total k + sum_tokens (units_of q)) ∧
    learnt (k_trie (cache_step k q)) (h ++ [(now, Hash <$> units_of q)])).
  { unfold cache_step, sim_request. destruct (units_of q) as [|u us] eqn:Eu; [cbn [k_cached k_total k_trie credited]; change (sum_tokens []) with 0; rewrite !Z.add_0_r, !i64_id by done; by split_and!|].
    destruct (RecordAndCount (u :: us) (k_trie k)) as [[c n] t] eqn:E. cbn [fst snd] in L1, L2. injection L1 as -> ->. cbn [k_cached k_total k_trie]. split_and!; [done|done|by apply observe_learnt]. }
  destruct Hstep as (S1 & S2 & S3). destruct (IH (cache_step k q) _ now S3) as [G1 G2]; [rewrite S1; apply i64_range|rewrite S2; apply i64_range|].
  rewrite G1, G2, S1, S2, !i64_add_l. split; f_equal; lia.
Qed.

(** C7: The offline simulations do not depend on how the replay is kept: over the store, in any
    order of its requests, they report what they report over the requests themselves; and the
    never-forgetting cache of the retention simulator serves exactly what the prefix trie of
    the replay simulator does. *)
Theorem simulations_agree (batches : list (list (list RouterReplayRequest))) (ix : list nat) (ws : list Z) (Hfit : fits (all_of batches))
  (Hix : names_all (all_of batches) ix) (Hct : Forall counted_tokens (all_of batches)) :
  let fuel := Z.to_nat prefixCheckpointEvery in let s := store_of batches in let qs := pick (all_of batches) ix in
  SimulateReplayCacheStore fuel s (Z.of_nat <$> ix) = Some (SimulateReplayCache qs) ∧
  SimulateRetentionStore fuel s (Z.of_nat <$> ix) ws = SimulateRetentionRequests qs ws ∧
  (proper_windows ws → Forall (λ q, q_ts q < two63) qs → Z.of_nat (unit_count (timed qs)) < two31 →
    ∃ rep, SimulateRetentionRequests qs ws = Some rep ∧ CachedInfinite rep = SimCachedTokens (SimulateReplayCache qs) ∧ Total rep = SimTotalTokens (SimulateReplayCache qs)).
Proof.
  cbn zeta. set (qs := pick _ ix). pose proof (store_ok batches Hfit) as Hst.
  assert (Hlen : length qs = length ix).
  { unfold qs. clear -Hix. induction ix as [|i ix IH]; [done|]. destruct (lookup_lt_is_Some_2 (all_of batches) i) as [q Hq]; [apply Hix; by left|].
    unfold pick. cbn. rewrite Hq. cbn. f_equal. apply IH. intros j Hj. apply Hix. by right. }
  assert (Hctq : Forall counted_tokens qs).
  { apply Forall_forall. intros q Hq. unfold qs, pick in Hq. apply list_elem_of_omap in Hq as (i & _ & Hi). rewrite Forall_forall in Hct. apply Hct. by eapply list_elem_of_lookup_2. }
  split_and!.
  - destruct (sim_store _ _ ix Hst Hix Hct start_sim []) as [buf' Hs]. unfold SimulateReplayCacheStore. rewrite Hs. cbn [mbind option_bind]. rewrite length_fmap.
    unfold SimulateReplayCache. by rewrite <-Hlen.
  - pose proof (retain_store _ _ ix Hst Hix (newRetentionSim ws) []) as Hr. unfold SimulateRetentionStore, SimulateRetentionRequests, SimulateRetention. fold qs in Hr. rewrite <-Hr.
    destruct (foldl _ _ (Z.of_nat <$> ix)) as [[k b]|]; done.
  - intros Hws Hts Hn. destruct (retention_core (timed qs) ws Hws) as (rep & H1 & _ & _ & _ & H5 & H6); [|done|].
    { intros r Hr. unfold timed in Hr. apply list_elem_of_fmap in Hr as (q & -> & Hq). rewrite Forall_forall in Hts. by apply Hts. }
    exists rep. split; [exact H1|]. destruct (sim_served qs Hctq start_sim [] 0 start_learnt) as [S1 S2]; [cbn; unfold two63; lia|cbn; unfold two63; lia|].
    unfold SimulateReplayCache, sim_report. cbn [SimCachedTokens SimTotalTokens]. change (foldl _ start_sim qs) with (foldl cache_step start_sim qs). rewrite S1, S2, H5, H6. done.
Qed.

(** ** The order of a simulation *)

Definition before (k : nat → Z) (i j : nat) : Prop := k i < k j ∨ (k i = k j ∧ (i < j)%nat).
Lemma insert_by_perm k i l : insert_by k i l ≡ₚ i :: l.
Proof. induction l as [|j l IH]; cbn; [done|]. destruct (k i <? k j); [done|]. rewrite IH. apply Permutation_swap. Qed.
Lemma insert_by_sorted k i l : StronglySorted (before k) l → (∀ j, j ∈ l → (j < i)%nat) → StronglySorted (before k) (insert_by k i l).
Proof.
  induction 1 as [|j l Hs IH Hall]; intros Hlt; [repeat constructor|]. cbn. destruct (k i <? k j) eqn:E.
  - constructor; [by constructor|]. constructor; [left; lia|]. eapply Forall_impl; [exact Hall|]. intros x [Hx|[Hx _]]; left; lia.
  - constructor; [apply IH; intros x Hx; apply Hlt; by right|]. rewrite insert_by_perm. constructor; [|done].
    specialize (Hlt j ltac:(by left)). unfold before. destruct (decide (k j = k i)); [by right|left; lia].
Qed.
(** Every request once, by time, ties in store order. *)
Lemma chronological (s : PrefixStore) : ChronologicalOrder s ≡ₚ seq 0 (length (Reqs s)) ∧
  StronglySorted (before (λ i, default 0 (p_ts <$> Reqs s !! i))) (ChronologicalOrder s).
Proof.
  unfold ChronologicalOrder. set (k := λ i, default 0 _). generalize (length (Reqs s)) as n. intros n. induction n as [|n [IH1 IH2]]; [split; [done|constructor]|].
  rewrite seq_S, foldl_app. cbn [foldl Nat.add]. split.
  - rewrite insert_by_perm, IH1. by rewrite Permutation_app_comm.
  - apply insert_by_sorted; [done|]. intros j Hj. rewrite IH1 in Hj. apply elem_of_seq in Hj. lia.
Qed.
End prefixes.

(** ** Examples: two turns of one instance, then another session *)

Module StoreEx.
Definition sha (b : bytes) : bytes := b.
Definition hash (d : Z) : bytes := replicate 15 48 ++ [48 + d].
Definition msg (d n : Z) : block := MkBlock (hash d) 400 n.
Definition turn (ts : Z) (ms : list block) : RouterReplayRequest := MkReplay ts "m" 100 40 7 [MkBlock (hash 9) 60 15; msg 1 50] None ms.
Definition batches : list (list (list RouterReplayRequest)) :=
  [[[turn 5 [msg 2 30]; turn 20 [msg 2 30; msg 3 10]; turn 90 [msg 2 30; msg 3 10; msg 4 5]]]; [[turn 30 [msg 5 30]]]].
End StoreEx.
Example store_shares : p_tail <$> Reqs (store_of StoreEx.sha StoreEx.batches) = [[MkUnit 1 50; MkUnit 2 30]; [MkUnit 3 10]; [MkUnit 4 5]; [MkUnit 1 50; MkUnit 5 30]].
Proof. by vm_compute. Qed.
Lemma ex_fits : fits StoreEx.sha (all_of StoreEx.batches).
Proof. split; [|by vm_compute]. repeat (constructor; [by vm_compute|]). constructor. Qed.
Lemma store_roundtrip_witness : ∃ r buf', Units 32 (store_of StoreEx.sha StoreEx.batches) 2 [] = Some buf' ∧ view r buf' = [MkUnit 1 50; MkUnit 2 30; MkUnit 3 10; MkUnit 4 5].
Proof.
  destruct (store_roundtrip StoreEx.sha StoreEx.batches 2 (StoreEx.turn 90 [StoreEx.msg 2 30; StoreEx.msg 3 10; StoreEx.msg 4 5]) [] ex_fits eq_refl) as (r & buf' & _ & H2 & H3 & _).
  exists r, buf'. split; [exact H2|]. rewrite H3. by vm_compute.
Defined.
Lemma simulations_agree_witness : ∃ rep, SimulateRetentionStore 32 (store_of StoreEx.sha StoreEx.batches) [0; 1; 3; 2] [30; 80] = Some rep ∧ CachedInfinite rep = 220.
Proof.
  destruct (simulations_agree StoreEx.sha StoreEx.batches [0; 1; 3; 2]%nat [30; 80] ex_fits) as (_ & H2 & H3).
  - intros i Hi. rewrite !elem_of_cons, elem_of_nil in Hi. cbn. lia.
  - repeat (constructor; [repeat (constructor; [unfold two31; cbn; lia|]); constructor|]). constructor.
  - destruct H3 as (rep & R1 & R2 & _).
    + split; repeat constructor; lia.
    + repeat (constructor; [by vm_compute|]). constructor.
    + by vm_compute.
    + exists rep. split; [rewrite <-R1; exact H2|]. rewrite R2. by vm_compute.
Defined.
