(* ===== verification/Discovery.v ===== *)
(** * Discovery: backends proposed by the Kubernetes API

    [src/router/internal/discovery/k8s/discovery.go].  An informer keeps a store of
    objects; on every event, on every resync and once after the first sync the discoverer
    rebuilds the complete desired set from the store and hands it to the registry.  The API's
    objects appear with the fields the code reads.  Parsing a label selector belongs to the
    Kubernetes libraries and is a parameter. *)

From stdpp Require Import base gmap sets list strings pretty sorting.
From Stdlib Require Import ZArith Lia Ascii String.
From S2P Require Import Prelude Circuit WaitQ Backend Registry.
Open Scope string_scope.
Open Scope Z_scope.

(** ** The API objects *)

Record ObjectMeta := MkMeta { Labels : gmap string string; Annotations : gmap string string }.

Record EndpointPort := EPort { ep_name : option string; ep_port : option Z }.
Record Endpoint := MkEndpoint { Addresses : list string; Ready : option bool; Terminating : option bool }.
Record EndpointSlice := MkSlice { es_meta : ObjectMeta; Endpoints : list Endpoint; Ports : list EndpointPort }.

Record ContainerPort := CPort { cp_name : string; cp_port : Z }.
Record PodCondition := PCond { c_type : string; c_status : string }.
Record Pod := MkPod {
  pod_meta : ObjectMeta;
  PodIP : string;
  deleting : bool;               (** [DeletionTimestamp != nil] *)
  Phase : string;
  Conditions : list PodCondition;
  Containers : list (list ContainerPort);
}.

(** What an informer's store holds; the code skips what is not of its type. *)
Inductive object := OSlice (es : EndpointSlice) | OPod (p : Pod) | OOther.

(** ** Configuration *)

Definition LabelKind : string := "wllm.weka.io/backend-kind".
Definition LabelDialect : string := "wllm.weka.io/backend-dialect".
Definition LabelModel : string := "wllm.weka.io/model".
Definition AnnotationCapacity : string := "wllm.weka.io/capacity".

Definition ModeEndpointSlice : string := "endpointslice".
Definition ModePod : string := "pod".

Record DConfig := MkDConfig {
  Mode : string;
  Namespace : string;
  Service : string;
  Selector : string;
  Port : Z;
  PortName : string;
  Scheme : string;
  ResyncInterval : Z;
  DefaultCapacity : Z;
  DefaultDialect : string;
}.

Inductive config_error := ENoService | ENoSelector | EBadSelector | EUnknownMode | ENoNamespace | ENoPort.

(** ** Text *)

Fixpoint has_char (c : ascii) (s : string) : bool :=
  match s with EmptyString => false | String d r => bool_decide (d = c) || has_char c r end.

Definition colon : ascii := ":".

(** [net.JoinHostPort] and [strconv.Itoa]. *)
Definition JoinHostPort (host port : string) : string :=
  if has_char colon host then "[" ++ host ++ "]:" ++ port else host ++ ":" ++ port.
Definition Itoa (z : Z) : string := pretty z.

(** [strconv.ParseInt(s, 10, 64)], for its value or its failure. *)
Definition digit (c : ascii) : option Z :=
  let n := Z.of_nat (nat_of_ascii c) in if (48 <=? n) && (n <=? 57) then Some (n - 48) else None.
Fixpoint parse_digits (s : string) (acc : Z) : option Z :=
  match s with
  | EmptyString => Some acc
  | String c r => match digit c with Some d => parse_digits r (acc * 10 + d) | None => None end
  end.
Definition parse_magnitude (s : string) : option Z :=
  match s with EmptyString => None | _ => parse_digits s 0 end.
Definition ParseInt (s : string) : option Z :=
  let '(neg, m) :=
    match s with
    | String "-" r => (true, parse_magnitude r)
    | String "+" r => (false, parse_magnitude r)
    | _ => (false, parse_magnitude s)
    end in
  match m with
  | None => None
  | Some v => let z := if (neg : bool) then - v else v in if (- two63 <=? z) && (z <? two63) then Some z else None
  end.

(** ** What an object says of a backend *)

(** A missing key of a Go map of strings reads as the empty string. *)
Definition at_key (m : gmap string string) (k : string) : string := default "" (m !! k).

Definition kindFrom (l : gmap string string) : Kind :=
  if bool_decide (at_key l LabelKind = "router") then KindRouter else KindWorker.
Definition dialectFrom (l : gmap string string) (def : string) : string :=
  let v := at_key l LabelDialect in if bool_decide (v = "") then def else v.
Definition capacityFrom (a : gmap string string) (def : Z) : Z :=
  let v := at_key a AnnotationCapacity in
  if bool_decide (v = "") then def
  else match ParseInt v with Some n => if 0 <? n then n else def | None => def end.

Section discoverer.
Context (LabelsParse : string → bool).

Definition validate (c : DConfig) : option config_error :=
  let mode_error :=
    if bool_decide (Mode c = ModeEndpointSlice) then if bool_decide (Service c = "") then Some ENoService else None
    else if bool_decide (Mode c = ModePod) then
      if bool_decide (Selector c = "") then Some ENoSelector
      else if negb (LabelsParse (Selector c)) then Some EBadSelector else None
    else Some EUnknownMode in
  match mode_error with
  | Some e => Some e
  | None =>
      if bool_decide (Namespace c = "") then Some ENoNamespace
      else if bool_decide (Mode c = ModePod) && (Port c <=? 0) then Some ENoPort
      else None
  end.

Definition with_defaults (c : DConfig) : DConfig :=
  MkDConfig (if bool_decide (Mode c = "") then ModeEndpointSlice else Mode c) (Namespace c) (Service c) (Selector c)
    (Port c) (PortName c) (if bool_decide (Scheme c = "") then "http" else Scheme c)
    (if ResyncInterval c <=? 0 then 5 * 60 * second else ResyncInterval c)
    (if DefaultCapacity c <=? 0 then 1 else DefaultCapacity c)
    (if bool_decide (DefaultDialect c = "") then "openai" else DefaultDialect c).

(** The discoverer: its configuration and what it last said. *)
Record Discoverer := MkDiscoverer { dcfg : DConfig; lastCount : Z; reported : bool }.

Definition New (c : DConfig) : Discoverer + config_error :=
  let c := with_defaults c in
  match validate c with Some e => inr e | None => inl (MkDiscoverer c 0 false) end.

(** The label selector the list and the watch are narrowed to. *)
Definition tweak (c : DConfig) : string :=
  if bool_decide (Mode c = ModeEndpointSlice) then "kubernetes.io/service-name=" ++ Service c else Selector c.

(** ** The desired set *)

Definition named_port (c : DConfig) (p : EndpointPort) : option Z :=
  match ep_name p, ep_port p with
  | Some n, Some v => if bool_decide (n = PortName c) then Some v else None
  | _, _ => None
  end.

Definition first_some {A B} (f : A → option B) : list A → option B :=
  fix go l := match l with [] => None | x :: r => match f x with Some y => Some y | None => go r end end.

Definition portFromSlice (c : DConfig) (es : EndpointSlice) : Z :=
  if bool_decide (PortName c ≠ "") then default 0 (first_some (named_port c) (Ports es))
  else if 0 <? Port c then Port c
  else default 0 (first_some ep_port (Ports es)).

Definition spec_for (c : DConfig) (m : ObjectMeta) (addr : string) (port : Z) : Spec :=
  MkSpec (Scheme c ++ "://" ++ JoinHostPort addr (Itoa port)) (kindFrom (Labels m))
    (dialectFrom (Labels m) (DefaultDialect c)) HealthActive ProvStatic (at_key (Labels m) LabelModel) ""
    (capacityFrom (Annotations m) (DefaultCapacity c)).

Definition endpoint_open (ep : Endpoint) : bool :=
  negb (bool_decide (Ready ep = Some false)) && negb (bool_decide (Terminating ep = Some true)).

Definition specsFromSlice (c : DConfig) (es : EndpointSlice) : list Spec :=
  let port := portFromSlice c es in
  if port <=? 0 then []
  else mjoin ((λ ep, if endpoint_open ep then (λ addr, spec_for c (es_meta es) addr port) <$> Addresses ep else [])
                <$> Endpoints es).

(** Scanning the ports of one pod: the named port ends the scan, any other is collected. *)
Fixpoint scan_ports (c : DConfig) (ps : list ContainerPort) (declared : list Z) : Z + list Z :=
  match ps with
  | [] => inr declared
  | p :: r =>
      if cp_port p <=? 0 then scan_ports c r declared
      else if bool_decide (PortName c ≠ "") && bool_decide (cp_name p = PortName c) then inl (cp_port p)
      else scan_ports c r (declared ++ [cp_port p])%list
  end.

Definition portFromPod (c : DConfig) (p : Pod) : Z :=
  match scan_ports c (mjoin (Containers p)) [] with
  | inl port => port
  | inr declared =>
      match declared with
      | [d] => if bool_decide (PortName c = "") then d else Port c
      | _ => Port c
      end
  end.

Definition pod_ready (p : Pod) : bool :=
  existsb (λ k, bool_decide (c_type k = "Ready") && bool_decide (c_status k = "True")) (Conditions p).

Definition specFromPod (c : DConfig) (p : Pod) : option Spec :=
  if bool_decide (PodIP p = "") || deleting p then None
  else if negb (bool_decide (Phase p = "Running")) then None
  else if negb (pod_ready p) then None
  else Some (spec_for c (pod_meta p) (PodIP p) (portFromPod c p)).

Definition specs_of (c : DConfig) (o : object) : list Spec :=
  if bool_decide (Mode c = ModeEndpointSlice)
  then match o with OSlice es => specsFromSlice c es | _ => [] end
  else match o with OPod p => match specFromPod c p with Some s => [s] | None => [] end | _ => [] end.

Definition desired (c : DConfig) (objs : list object) : list Spec := mjoin (specs_of c <$> objs).

(** ** What it says *)

Inductive notice := Unchanged | MatchedNone | Found (n : Z) | CountChanged (from to : Z).

Definition reportCount (n : Z) (d : Discoverer) : notice * Discoverer :=
  let prev := lastCount d in
  let d' := MkDiscoverer (dcfg d) n true in
  (if reported d && (prev =? n) then Unchanged
   else if n =? 0 then MatchedNone else if prev =? 0 then Found n else CountChanged prev n, d').

(** ** One pass over the store *)

Context (Canonical : string → option string).
Context (worder : gmap string Spec → list (string * Spec)).

(** The outcome of a pass: the reconcile failed, or the notice and the conflicts told. *)
Inductive outcome := ReconcileFailed | Reconciled (said : notice) (conflicts : list string).

Definition reconcileFrom (now : Z) (objs : list object) (d : Discoverer) (r : Registry) : outcome * Discoverer * Registry :=
  let want := desired (dcfg d) objs in
  match ReconcileDiscovered Canonical worder now want r with
  | (None, r') => (ReconcileFailed, d, r')
  | (Some conflicts, r') =>
      let '(said, d') := reportCount (Z.of_nat (List.length want)) d in (Reconciled said conflicts, d', r')
  end.
End discoverer.

(** ** Text: distinct endpoints have distinct URLs *)

Lemma append_cons d a b : String d a ++ b = String d (a ++ b).
Proof. done. Qed.

Lemma append_assoc a b c : (a ++ b) ++ c = a ++ (b ++ c).
Proof. induction a as [|x a IH]; [done|]. by rewrite !append_cons, IH. Qed.

Lemma has_char_app c a b : has_char c (a ++ b) = has_char c a || has_char c b.
Proof. induction a as [|d a IH]; [done|]. rewrite append_cons. cbn [has_char]. by rewrite IH, orb_assoc. Qed.

Lemma cut_last c a p a' p' :
  has_char c p = false → has_char c p' = false → a ++ String c p = a' ++ String c p' → a = a' ∧ p = p'.
Proof.
  intros Hp Hp'.
  assert (∀ b q, has_char c (b ++ String c q) = true) as Hin.
  { intros b q. rewrite has_char_app. cbn [has_char]. by rewrite bool_decide_true, orb_true_r by done. }
  revert a'. induction a as [|x a IH]; intros [|x' a']; rewrite ?append_cons; intros He; injection He as He.
  - by subst.
  - subst. by rewrite Hin in Hp.
  - subst. by rewrite Hin in Hp'.
  - subst. destruct (IH a') as [-> ->]; done.
Qed.

Lemma pretty_N_go_plain x s : has_char colon s = false → has_char colon (pretty_N_go x s) = false.
Proof.
  revert s. induction (N.lt_wf_0 x) as [x _ IH]; intros s Hs.
  destruct (decide (x = 0)%N) as [->|Hx]; [by rewrite pretty_N_go_0|].
  rewrite pretty_N_go_step by lia. apply IH; [apply N.div_lt; lia|]. cbn [has_char]. apply orb_false_iff. split; [|done].
  apply bool_decide_eq_false. unfold pretty_N_char, colon. by repeat case_match.
Qed.

Lemma Itoa_plain z : has_char colon (Itoa z) = false.
Proof.
  assert (∀ n : N, has_char colon (pretty n) = false) as HN.
  { intros n. unfold pretty, pretty_N. destruct (decide (n = 0)%N); [done|by apply pretty_N_go_plain]. }
  unfold Itoa, pretty, pretty_Z. destruct z; [done|apply (HN (Npos _))|].
  rewrite append_cons. apply (HN (Npos _)).
Qed.

(** The host part as it is written. *)
Definition bracketed (h : string) : string := if has_char colon h then "[" ++ h ++ "]" else h.

Lemma JoinHostPort_bracketed h p : JoinHostPort h p = bracketed h ++ String colon p.
Proof. unfold JoinHostPort, bracketed. destruct (has_char colon h); [|done]. by rewrite !append_assoc. Qed.

Lemma bracketed_inj h h' : bracketed h = bracketed h' → h = h'.
Proof.
  unfold bracketed. destruct (has_char colon h) eqn:Hh, (has_char colon h') eqn:Hh'; intros He; [| |by subst; rewrite !has_char_app, Hh', orb_true_r in Hh|done].
  - apply (inj (String.append "[")) in He. by apply (cut_last "]" _ "" _ "") in He as [-> _].
  - subst. by rewrite !has_char_app, Hh, orb_true_r in Hh'.
Qed.

Lemma JoinHostPort_inj h p h' p' :
  has_char colon p = false → has_char colon p' = false → JoinHostPort h p = JoinHostPort h' p' → h = h' ∧ p = p'.
Proof.
  intros Hp Hp'. rewrite !JoinHostPort_bracketed. intros [He ->]%cut_last; [|done..]. by apply bracketed_inj in He.
Qed.

(** ** The desired set, declaratively *)

(** [o] offers traffic at [addr:port], described by the labels and annotations [m]. *)
Inductive offers (c : DConfig) : object → string → Z → ObjectMeta → Prop :=
  | offer_slice es ep addr :
      Mode c = ModeEndpointSlice → 0 < portFromSlice c es → ep ∈ Endpoints es →
      Ready ep ≠ Some false → Terminating ep ≠ Some true → addr ∈ Addresses ep →
      offers c (OSlice es) addr (portFromSlice c es) (es_meta es)
  | offer_pod p :
      Mode c ≠ ModeEndpointSlice → PodIP p ≠ "" → deleting p = false → Phase p = "Running" →
      PCond "Ready" "True" ∈ Conditions p →
      offers c (OPod p) (PodIP p) (portFromPod c p) (pod_meta p).

Lemma pod_ready_spec p : pod_ready p = true ↔ PCond "Ready" "True" ∈ Conditions p.
Proof.
  unfold pod_ready. rewrite existsb_exists. split.
  - intros ([t v] & Hin%list_elem_of_In & [Ht%bool_decide_eq_true Hv%bool_decide_eq_true]%andb_true_iff). cbn in *. by subst.
  - intros Hin%list_elem_of_In. by exists (PCond "Ready" "True").
Qed.

Lemma specFromPod_spec c p s : specFromPod c p = Some s ↔
  s = spec_for c (pod_meta p) (PodIP p) (portFromPod c p) ∧
  PodIP p ≠ "" ∧ deleting p = false ∧ Phase p = "Running" ∧ PCond "Ready" "True" ∈ Conditions p.
Proof.
  rewrite <-pod_ready_spec. unfold specFromPod.
  destruct (bool_decide_reflect (PodIP p = "")); cbn [orb]; [naive_solver|].
  destruct (deleting p); [naive_solver|].
  destruct (bool_decide_reflect (Phase p = "Running")); cbn [negb]; [|naive_solver].
  destruct (pod_ready p); cbn [negb]; [|naive_solver]. naive_solver.
Qed.

Lemma endpoint_open_spec ep : endpoint_open ep = true ↔ Ready ep ≠ Some false ∧ Terminating ep ≠ Some true.
Proof. unfold endpoint_open. by rewrite andb_true_iff, !negb_true_iff, !bool_decide_eq_false. Qed.

Lemma specsFromSlice_spec c es s : s ∈ specsFromSlice c es ↔
  0 < portFromSlice c es ∧ ∃ ep addr, ep ∈ Endpoints es ∧ Ready ep ≠ Some false ∧ Terminating ep ≠ Some true ∧
    addr ∈ Addresses ep ∧ s = spec_for c (es_meta es) addr (portFromSlice c es).
Proof.
  unfold specsFromSlice. destruct (Z.leb_spec (portFromSlice c es) 0) as [Hp|Hp].
  - split; [by intros ?%elem_of_nil|lia].
  - rewrite list_elem_of_join. split.
    + intros (l & Hs & (ep & -> & Hep)%list_elem_of_fmap). split; [done|].
      destruct (endpoint_open ep) eqn:Ho; [|by apply elem_of_nil in Hs]. apply endpoint_open_spec in Ho as [? ?].
      apply list_elem_of_fmap in Hs as (addr & -> & ?). by exists ep, addr.
    + intros (_ & ep & addr & Hep & Hr & Ht & Ha & ->). eexists. split; [|apply list_elem_of_fmap; exists ep; split; [reflexivity|done]].
      rewrite (proj2 (endpoint_open_spec ep)) by done. by apply (list_elem_of_fmap_2 (λ a, spec_for c (es_meta es) a _)).
Qed.

Lemma specs_of_spec c o s : s ∈ specs_of c o ↔ ∃ addr port m, offers c o addr port m ∧ s = spec_for c m addr port.
Proof.
  unfold specs_of. destruct (bool_decide_reflect (Mode c = ModeEndpointSlice)) as [Hm|Hm].
  - destruct o as [es|p|]; [rewrite specsFromSlice_spec|rewrite elem_of_nil..]; split.
    + intros (Hp & ep & addr & ? & ? & ? & ? & ->). exists addr, (portFromSlice c es), (es_meta es). split; [by econstructor|done].
    + intros (addr & port & m & Ho & ->). inversion Ho; subst. split; [done|]. eauto 10.
    + done.
    + intros (addr & port & m & Ho & ->). by inversion Ho.
    + done.
    + intros (addr & port & m & Ho & ->). inversion Ho.
  - destruct o as [es|p|]; [rewrite elem_of_nil| |rewrite elem_of_nil]; split.
    + done.
    + intros (addr & port & m & Ho & ->). by inversion Ho.
    + destruct (specFromPod c p) as [t|] eqn:Ht; [|by intros ?%elem_of_nil].
      intros ->%list_elem_of_singleton. apply specFromPod_spec in Ht as (-> & ? & ? & ? & ?).
      exists (PodIP p), (portFromPod c p), (pod_meta p). split; [|done]. by constructor.
    + intros (addr & port & m & Ho & ->). inversion Ho; subst.
      rewrite (proj2 (specFromPod_spec c p _)) by (split_and!; done). by apply list_elem_of_singleton.
    + done.
    + intros (addr & port & m & Ho & ->). inversion Ho.
Qed.

(** ** Defaults *)

Lemma ParseInt_range s n : ParseInt s = Some n → - two63 <= n < two63.
Proof.
  unfold ParseInt. destruct (match s with EmptyString => _ | String _ _ => _ end) as [neg [v|]]; [|done].
  destruct (_ && _) eqn:Hr; [|done]. intros [= <-].
  apply andb_true_iff in Hr as [?%Z.leb_le ?%Z.ltb_lt]. done.
Qed.

Lemma capacityFrom_pos a def : 0 < def → 0 < capacityFrom a def.
Proof.
  intros Hd. unfold capacityFrom. destruct (bool_decide _); [done|]. destruct (ParseInt _) as [n|]; [|done].
  by destruct (Z.ltb_spec 0 n).
Qed.

Lemma dialectFrom_named l def : def ≠ "" → dialectFrom l def ≠ "".
Proof. intros Hd. unfold dialectFrom. by destruct (bool_decide_reflect (at_key l LabelDialect = "")). Qed.

(** What [New] establishes of a configuration. *)
Record config_ok (c : DConfig) : Prop := {
  co_mode : Mode c = ModeEndpointSlice ∧ Service c ≠ "" ∨ Mode c = ModePod ∧ Selector c ≠ "" ∧ 0 < Port c;
  co_scheme : Scheme c ≠ "";
  co_namespace : Namespace c ≠ "";
  co_resync : 0 < ResyncInterval c;
  co_capacity : 0 < DefaultCapacity c;
  co_dialect : DefaultDialect c ≠ "";
}.

Lemma discoverer_ok LabelsParse c d : New LabelsParse c = inl d → config_ok (dcfg d) ∧ dcfg d = with_defaults c.
Proof.
  unfold New. destruct (validate _ _) eqn:Hv; [done|]. intros [= <-]. split; [|done]. cbn [dcfg].
  assert (Scheme (with_defaults c) ≠ "" ∧ 0 < ResyncInterval (with_defaults c) ∧ 0 < DefaultCapacity (with_defaults c)
          ∧ DefaultDialect (with_defaults c) ≠ "") as (? & ? & ? & ?).
  { unfold with_defaults, second; cbn. repeat split.
    - by destruct (bool_decide_reflect (Scheme c = "")).
    - destruct (Z.leb_spec (ResyncInterval c) 0); lia.
    - destruct (Z.leb_spec (DefaultCapacity c) 0); lia.
    - by destruct (bool_decide_reflect (DefaultDialect c = "")). }
  unfold validate in Hv. set (w := with_defaults c) in *. clearbody w.
  destruct (bool_decide_reflect (Mode w = ModeEndpointSlice)) as [Hm|Hm].
  - destruct (bool_decide_reflect (Service w = "")); [done|]. destruct (bool_decide_reflect (Namespace w = "")); [done|].
    constructor; auto.
  - destruct (bool_decide_reflect (Mode w = ModePod)); [|done]. destruct (bool_decide_reflect (Selector w = "")); [done|].
    destruct (LabelsParse _); [|done]. destruct (bool_decide_reflect (Namespace w = "")); [done|].
    cbn [andb negb] in Hv. destruct (Z.leb_spec (Port w) 0); [done|]. constructor; auto.
Qed.

Lemma scan_ports_pos c ps : ∀ declared, Forall (λ z, 0 < z) declared →
  match scan_ports c ps declared with inl z => 0 < z | inr l => Forall (λ z, 0 < z) l end.
Proof.
  induction ps as [|p ps IH]; intros declared Hd; cbn [scan_ports]; [done|].
  destruct (Z.leb_spec (cp_port p) 0); [by apply IH|]. destruct (_ && _); [done|]. apply IH.
  apply Forall_app. split; [done|by constructor].
Qed.

Lemma portFromPod_pos c p : 0 < Port c → 0 < portFromPod c p.
Proof.
  intros Hp. unfold portFromPod. pose proof (scan_ports_pos c (mjoin (Containers p)) [] (Forall_nil_2 _)) as H.
  destruct (scan_ports _ _ _) as [z|[|z [|z' l]]]; [done|done| |done]. destruct (bool_decide _); [|done].
  by inversion H.
Qed.

Lemma offers_port c o addr port m : config_ok c → offers c o addr port m → 0 < port.
Proof.
  intros [Hm _ _ _ _ _]. inversion 1; subst; [done|]. apply portFromPod_pos. destruct Hm as [[? _]|(_ & _ & ?)]; [congruence|done].
Qed.

Lemma desired_spec c objs s : s ∈ desired c objs ↔
  ∃ o addr port m, o ∈ objs ∧ offers c o addr port m ∧ s = spec_for c m addr port.
Proof.
  unfold desired. rewrite list_elem_of_join. split.
  - intros (l & Hs & (o & -> & Ho)%list_elem_of_fmap). apply specs_of_spec in Hs as (addr & port & m & ? & ->). eauto 10.
  - intros (o & addr & port & m & Ho & Hof & ->). exists (specs_of c o). split; [|by apply list_elem_of_fmap_2].
    apply specs_of_spec. eauto.
Qed.

(** ** Properties *)

Section reconcile.
Context (LabelsParse : string → bool) (Canonical : string → option string).
Context (worder : gmap string Spec → list (string * Spec)).
Context (canon_idem : ∀ raw c, Canonical raw = Some c → Canonical c = Some c).
Context (worder_perm : ∀ m, worder m ≡ₚ map_to_list m).

(** Some object of the store offers an endpoint whose canonical URL is [u]. *)
Definition offered (c : DConfig) (objs : list object) (u : string) : Prop :=
  ∃ o addr port m, o ∈ objs ∧ offers c o addr port m ∧ Canonical (sURL (spec_for c m addr port)) = Some u.
Definition unusable (c : DConfig) (objs : list object) : Prop :=
  ∃ o addr port m, o ∈ objs ∧ offers c o addr port m ∧ Canonical (sURL (spec_for c m addr port)) = None.

Lemma build_want_desired c objs want : build_want Canonical (desired c objs) ∅ = Some want →
  well_keyed Canonical want ∧ ∀ u, is_Some (want !! u) ↔ offered c objs u.
Proof.
  intros Hb. destruct (build_want_spec Canonical canon_idem (desired c objs) ∅ want) as [Hk Hd]; [by intros ???|done|].
  split; [done|]. intros u. rewrite Hd, lookup_empty. unfold offered. setoid_rewrite desired_spec. split.
  - intros [[? ?]|(s & (o & addr & port & m & ? & ? & ->) & ?)]; [done|]. eauto 10.
  - intros (o & addr & port & m & ? & ? & ?). right. eauto 10.
Qed.

Lemma build_want_unusable c objs : build_want Canonical (desired c objs) ∅ = None ↔ unusable c objs.
Proof.
  rewrite build_want_None. unfold unusable. setoid_rewrite desired_spec. split.
  - intros (s & (o & addr & port & m & ? & ? & ->) & ?). eauto 10.
  - intros (o & addr & port & m & ? & ? & ?). eauto 10.
Qed.

(** The entry a pass leaves at [u]. *)
Lemma reconciled_entry want cb u o b :
  reconciled want cb u o = Some b →
  (∀ b0, o = Some b0 → Prov b0 = ProvStatic → well_keyed Canonical want → b = b0) ∧
  (Prov b = ProvDiscovered → well_keyed Canonical want → draining b = false ↔ is_Some (want !! u)) ∧
  (o = None → well_keyed Canonical want → Prov b = ProvDiscovered ∧ health b = Unknown ∧ draining b = false).
Proof.
  unfold reconciled. intros Hr. destruct (want !! u) as [s|] eqn:Hu.
  - split_and!.
    + intros b0 -> HP Hk. destruct (Hk _ _ Hu) as (_ & _ & Hs). cbn in Hr. rewrite HP, Hs in Hr. by injection Hr.
    + intros HP Hk. destruct (Hk _ _ Hu) as (_ & _ & Hs). split; [done|intros _]. destruct o as [b0|]; cbn in Hr.
      * rewrite Hs in Hr. destruct (bool_decide_reflect (Prov b0 = ProvStatic)); cbn in Hr; injection Hr as <-; [congruence|done].
      * by injection Hr as <-.
    + intros -> Hk. destruct (Hk _ _ Hu) as (_ & _ & Hs). cbn in Hr. injection Hr as <-. done.
  - destruct o as [b0|]; [|done]. injection Hr as <-. unfold retire. split_and!; [| |done].
    + intros ? [= <-] HP _. by rewrite HP.
    + intros HP _. destruct (bool_decide_reflect (Prov b0 = ProvDiscovered)) as [|Hn]; [|done]. split; [done|by intros [? ?]].
Qed.

(** C6: after a pass over the informer's store the discovered backends taking traffic are
    exactly the endpoints the store offers (ready and not terminating, running pods only),
    statically configured backends are untouched, and a backend seen for the first time is
    not routable until its health is known; when any offered URL does not parse the pass
    changes nothing at all. *)
Theorem discovery_exact now objs d r :
  reg_wf r →
  let '(o, d', r') := reconcileFrom Canonical worder now objs d r in
  (o = ReconcileFailed ↔ unusable (dcfg d) objs) ∧ (o = ReconcileFailed → d' = d ∧ r' = r) ∧
  (o ≠ ReconcileFailed →
    (∀ u b, view r' u = Some b → Prov b = ProvDiscovered → draining b = false ↔ offered (dcfg d) objs u) ∧
    (∀ u, offered (dcfg d) objs u → is_Some (view r' u)) ∧
    (∀ u b, view r u = Some b → Prov b = ProvStatic → view r' u = Some b) ∧
    (∀ u b t, view r u = None → view r' u = Some b → offered (dcfg d) objs u ∧ Available t b = false)).
Proof.
  intros Hw. unfold reconcileFrom. destruct (build_want Canonical (desired (dcfg d) objs) ∅) as [want|] eqn:Hb.
  - pose proof (Reconcile_view Canonical worder canon_idem worder_perm now _ want r Hw Hb) as H.
    destruct (build_want_desired _ _ _ Hb) as [Hk Hd].
    destruct (ReconcileDiscovered _ _ _ _ _) as [cs r']. destruct H as (-> & _ & Hv & _).
    destruct (reportCount _ d) as [said d']. split_and!; [|done|].
    { split; [done|]. intros Hu%build_want_unusable. congruence. }
    intros _. split_and!; intros u.
    + intros b. rewrite Hv. intros Hr HP. rewrite <-Hd. by apply (reconciled_entry _ _ _ _ _ Hr).
    + intros [s Hs]%Hd. rewrite Hv. unfold reconciled, upsert. rewrite Hs. destruct (view r u); [|by eexists].
      destruct (_ && _); by eexists.
    + intros b Hvb HP. rewrite Hv. destruct (reconciled want (cbc r) u (view r u)) as [b'|] eqn:Hr.
      * f_equal. by apply (reconciled_entry _ _ _ _ _ Hr).
      * exfalso. rewrite Hvb in Hr. unfold reconciled, upsert in Hr. destruct (want !! u); [destruct (_ && _)|]; done.
    + intros b t Hn. rewrite Hv. intros Hr. destruct (reconciled_entry _ _ _ _ _ Hr) as (_ & Hd' & Hf).
      destruct (Hf Hn Hk) as (HP & Hh & Hdr). split; [by apply Hd, Hd'|]. unfold Available. by rewrite Hh.
  - unfold ReconcileDiscovered. rewrite Hb. split_and!; [|done|done]. split; [intros _; by apply build_want_unusable|done].
Qed.

(** Endpoints with one canonical URL are described alike. *)
Definition agreeing (ss : list Spec) : Prop :=
  ∀ s t u, s ∈ ss → t ∈ ss → Canonical (sURL s) = Some u → Canonical (sURL t) = Some u → spec_at u s = spec_at u t.

Lemma build_want_lookup ss : ∀ m want u s,
  build_want Canonical ss m = Some want → want !! u = Some s →
  m !! u = Some s ∨ ∃ t, t ∈ ss ∧ Canonical (sURL t) = Some u ∧ s = spec_at u t.
Proof.
  induction ss as [|t ss IH]; intros m want u s; cbn; [intros [= <-]; by left|].
  destruct (Canonical (sURL t)) as [k|] eqn:Hk; [|done]. intros Hb Hu.
  destruct (IH _ _ _ _ Hb Hu) as [[[<- <-]|[_ Hm]]%lookup_insert_Some|(t' & ? & ? & ?)].
  - right. exists t. split; [by left|done].
  - by left.
  - right. exists t'. split; [by right|done].
Qed.

Lemma build_want_perm ss ss' : ss ≡ₚ ss' → agreeing ss → build_want Canonical ss ∅ = build_want Canonical ss' ∅.
Proof.
  intros Hp Ha.
  destruct (build_want Canonical ss ∅) as [w|] eqn:Hw, (build_want Canonical ss' ∅) as [w'|] eqn:Hw'; [|exfalso|exfalso|done].
  - f_equal. destruct (build_want_spec Canonical canon_idem ss ∅ w) as [_ Hd]; [by intros ???|done|].
    destruct (build_want_spec Canonical canon_idem ss' ∅ w') as [_ Hd']; [by intros ???|done|].
    apply map_eq. intros u. destruct (w !! u) as [s|] eqn:Hu.
    + assert (is_Some (w' !! u)) as [s' Hu'].
      { apply Hd'. setoid_rewrite <-Hp. apply Hd. by eexists. }
      rewrite Hu'. f_equal.
      destruct (build_want_lookup _ _ _ _ _ Hw Hu) as [?|(t & Ht & Hc & ->)]; [done|].
      destruct (build_want_lookup _ _ _ _ _ Hw' Hu') as [?|(t' & Ht' & Hc' & ->)]; [done|].
      apply Ha; try done. by rewrite Hp.
    + symmetry. apply eq_None_not_Some. intros Hs. apply Hd' in Hs. setoid_rewrite <-Hp in Hs. apply Hd in Hs as [? ?]. congruence.
  - apply build_want_None in Hw' as (s & Hs & Hn). assert (∃ s, s ∈ ss ∧ Canonical (sURL s) = None) as Hx by (exists s; by rewrite Hp).
    apply (build_want_None Canonical ss ∅) in Hx. congruence.
  - apply build_want_None in Hw as (s & Hs & Hn). assert (∃ s, s ∈ ss' ∧ Canonical (sURL s) = None) as Hx by (exists s; by rewrite <-Hp).
    apply (build_want_None Canonical ss' ∅) in Hx. congruence.
Qed.

End reconcile.

(** every backend a configured discoverer proposes is complete (a positive port and
    capacity, a dialect, a scheme), and two different endpoints never share a URL, IPv6
    literals included. *)
Theorem specs_complete LabelsParse c d objs :
  New LabelsParse c = inl d →
  (∀ s, s ∈ desired (dcfg d) objs → 0 < sCapacity s ∧ sDialectID s ≠ "" ∧
     ∃ addr port, 0 < port ∧ sURL s = Scheme (dcfg d) ++ "://" ++ JoinHostPort addr (Itoa port) ∧ Scheme (dcfg d) ≠ "") ∧
  (∀ m m' addr addr' port port', sURL (spec_for (dcfg d) m addr port) = sURL (spec_for (dcfg d) m' addr' port') →
     addr = addr' ∧ port = port').
Proof.
  intros [Hok _]%discoverer_ok. split.
  - intros s (o & addr & port & m & _ & Ho & ->)%desired_spec. pose proof (offers_port _ _ _ _ _ Hok Ho).
    destruct Hok. split_and!; [by apply capacityFrom_pos|by apply dialectFrom_named|]. by exists addr, port.
  - intros m m' addr addr' port port' He. cbn [sURL spec_for] in He. apply (inj (String.append _)), (inj (String.append _)) in He.
    apply JoinHostPort_inj in He as [-> He]; [|apply Itoa_plain..]. split; [done|]. by apply (inj pretty) in He.
Qed.

(** ** Witnesses *)

Definition demo_labels : gmap string string := {[ LabelModel := "m"; LabelDialect := "openai" ]}.
Definition demo_pod (ip : string) (ready : string) (ports : list ContainerPort) : object :=
  OPod (MkPod (MkMeta demo_labels {[ AnnotationCapacity := "8" ]}) ip false "Running" [PCond "Ready" ready] [ports]).
Definition demo_cfg : DConfig := MkDConfig ModePod "default" "" "app=vllm" 8000 "" "" 0 0 "".
Definition demo_objs : list object :=
  [demo_pod "10.0.0.1" "True" [CPort "http" 9000]; demo_pod "fd00::2" "True" []; demo_pod "10.0.0.3" "False" []].
Definition demo_disc : Discoverer := match New (λ _, true) demo_cfg with inl d => d | inr _ => MkDiscoverer demo_cfg 0 false end.

Example demo_desired_urls : sURL <$> desired (dcfg demo_disc) demo_objs = ["http://10.0.0.1:9000"; "http://[fd00::2]:8000"].
Proof. reflexivity. Qed.

Lemma demo_agreeing : agreeing demo_canonical (desired (dcfg demo_disc) demo_objs).
Proof.
  intros s t u. rewrite !list_elem_of_In. cbn. intros [<-|[<-|[]]] [<-|[<-|[]]]; cbn; try done; intros Ha Hb; congruence.
Qed.

Lemma discovery_exact_witness :
  let r' := (reconcileFrom demo_canonical map_to_list 0 demo_objs demo_disc demo_reg).2 in
  ∃ b, view r' "http://10.0.0.1:9000" = Some b ∧ Available 9 b = false.
Proof.
  pose proof (discovery_exact demo_canonical map_to_list demo_idem (λ m, reflexivity _) 0 demo_objs demo_disc demo_reg demo_reg_wf) as H.
  destruct (reconcileFrom _ _ 0 demo_objs demo_disc demo_reg) as [[o d'] r'] eqn:He. destruct H as (_ & _ & H). cbn [snd].
  destruct H as (_ & Hoff & _ & Hnew); [intros ->; vm_compute in He; discriminate|].
  destruct (Hoff "http://10.0.0.1:9000") as [b Hb].
  - eexists _, _, _, _. split; [by left|]. split; [by constructor; [..|left]|reflexivity].
  - exists b. split; [done|]. by apply (Hnew "http://10.0.0.1:9000").
Defined.


Lemma specs_complete_witness : ∀ s, s ∈ desired (dcfg demo_disc) demo_objs → 0 < sCapacity s ∧ sDialectID s ≠ "".
Proof.
  intros s Hs. destruct (proj1 (specs_complete (λ _, true) demo_cfg demo_disc demo_objs eq_refl) s Hs) as (? & ? & _). done.
Defined.
