(* ===== verification/BackendSeries.v ===== *)
(** * BackendSeries: per-backend series that end

    [src/router/internal/metrics/backend_series.go].  The collector keeps, per source and
    label, the object last seen and when it was first seen down; the series are derived from
    the objects' own counters at scrape time.  An object is a pointer; what it reads as at a
    scrape is part of the scrape.  Go ranges over the two maps in an unspecified order:
    [lorder] and [torder]. *)

From stdpp Require Import base gmap sets list strings.
From Stdlib Require Import ZArith Lia.
From S2P Require Import Prelude Circuit WaitQ Backend.
Open Scope Z_scope.

(** ** Data *)

(** [SeriesBackend]: what one object reads as. *)
Record SeriesBackend := MkSeries {
  sb_inflight : Z;
  sb_requests : Z;
  sb_queued : Z;
  sb_ttft : Z;
  sb_decode : Z;
  sb_down : bool;
}.

(** [*registry.Backend] satisfies it. *)
Definition of_backend (now : Z) (b : Backend) : SeriesBackend :=
  MkSeries (inflight (load b)) (requests (load b)) (Queued b) (TTFTp90 now b).1 (decodeTokens (load b)) (Down b).

(** [trackKey]: the source's index and the label. *)
Definition trackKey : Type := nat * string.

Record tracked := Tracked { t_b : positive; downSince : option Z }.
#[export] Instance tracked_eq_dec : EqDecision tracked.
Proof. solve_decision. Defined.

Record sample := Sample { s_inflight : Z; s_requests : Z; s_queued : Z; s_ttft : Z; s_decode : Z }.
Definition zero_sample : sample := Sample 0 0 0 0 0.

Definition BackendSeriesRetention : Z := 15 * 60 * second.
Definition retention_of (r : Z) : Z := if r <=? 0 then BackendSeriesRetention else r.

(** One scrape: the instant, what the sources list, what each object reads as. *)
Record scrape := Scrape { at_ : Z; sources : list (list positive); reads : positive → SeriesBackend }.

Section series.
(** An object's label is its URL, fixed when it is created. *)
Context (Label : positive → string) (retention : Z).
Context (lorder : gmap trackKey positive → list (trackKey * positive)).
Context (torder : gmap trackKey tracked → list (trackKey * tracked)).

(** ** A scrape *)

Definition add_source (m : gmap trackKey positive) (i : nat) (bs : list positive) : gmap trackKey positive :=
  foldl (λ m b, <[(i, Label b) := b]> m) m bs.
Fixpoint add_sources (m : gmap trackKey positive) (i : nat) (srcs : list (list positive)) : gmap trackKey positive :=
  match srcs with [] => m | bs :: rest => add_sources (add_source m i bs) (S i) rest end.
Definition live_of (s : scrape) : gmap trackKey positive := add_sources ∅ 0 (sources s).

(** [int64] and [uint64] sums wrap. *)
Definition add_sample (r : SeriesBackend) (down : bool) (s : sample) : sample :=
  let requests := u64 (s_requests s + sb_requests r) in
  if down then Sample (s_inflight s) requests (s_queued s) (s_ttft s) (s_decode s)
  else Sample (i64 (s_inflight s + sb_inflight r)) requests (i64 (s_queued s + sb_queued r))
         (if s_ttft s <? sb_ttft r then sb_ttft r else s_ttft s) (i64 (s_decode s + sb_decode r)).

Definition over (now : Z) (t : tracked) : bool :=
  match downSince t with Some t0 => retention <=? now - t0 | None => false end.

Definition report (s : scrape) (t : tracked) (down : bool) (out : gmap string sample) : gmap string sample :=
  if over (at_ s) t then out
  else <[Label (t_b t) := add_sample (reads s (t_b t)) down (default zero_sample (out !! Label (t_b t)))]> out.

Record acc := Acc { tr : gmap trackKey tracked; out : gmap string sample }.

Definition live_entry (s : scrape) (o : option tracked) (b : positive) : tracked :=
  let ds := match o with Some t => if bool_decide (t_b t = b) then downSince t else None | None => None end in
  Tracked b (if sb_down (reads s b) then Some (default (at_ s) ds) else None).

Definition live_step (s : scrape) (a : acc) (kb : trackKey * positive) : acc :=
  let t := live_entry s (tr a !! kb.1) kb.2 in
  Acc (<[kb.1 := t]> (tr a)) (report s t (sb_down (reads s kb.2)) (out a)).

Definition gone_entry (s : scrape) (t : tracked) : tracked := Tracked (t_b t) (Some (default (at_ s) (downSince t))).

Definition gone_step (live : gmap trackKey positive) (s : scrape) (a : acc) (kt : trackKey * tracked) : acc :=
  match live !! kt.1 with
  | Some _ => a
  | None =>
      let t := gone_entry s kt.2 in
      if over (at_ s) t then Acc (delete kt.1 (tr a)) (out a)
      else Acc (<[kt.1 := t]> (tr a)) (report s t true (out a))
  end.

Definition Collect (s : scrape) (trk : gmap trackKey tracked) : acc :=
  let live := live_of s in
  let a := foldl (live_step s) (Acc trk ∅) (lorder live) in
  foldl (gone_step live s) a (torder (tr a)).

(** The exported series of one label: five constant metrics. *)
Definition Seconds (d : Z) : float64 :=
  f64_add (f64_of_Z (Z.quot d second)) (f64_div (f64_of_Z (Z.rem d second)) (f64_of_Z second)).
Definition series (s : sample) : list (string * float64) :=
  [("router_backend_inflight"%string, f64_of_Z (s_inflight s)); ("router_backend_requests_total"%string, f64_of_Z (s_requests s));
   ("router_backend_queued"%string, f64_of_Z (s_queued s)); ("router_backend_ttft_p90_seconds"%string, Seconds (s_ttft s));
   ("router_backend_active_decode_tokens"%string, f64_of_Z (s_decode s))].

(** The collector after a run of scrapes, newest first, from [SetSources]. *)
Fixpoint state_after (h : list scrape) : gmap trackKey tracked :=
  match h with [] => ∅ | s :: h => tr (Collect s (state_after h)) end.
Definition exported (s : scrape) (h : list scrape) : gmap string sample := out (Collect s (state_after h)).

(** ** Downtime, by the whole history *)

(** The object in charge of a key: the last one seen there. *)
Fixpoint in_charge (h : list scrape) (k : trackKey) : option positive :=
  match h with
  | [] => None
  | s :: h => match live_of s !! k with Some b => Some b | None => in_charge h k end
  end.

(** At the newest scrape of [h] the key [k] has [b] in charge, and it is down: listed and
    down, or listed no more. *)
Definition down_now (h : list scrape) (k : trackKey) (b : positive) : Prop :=
  in_charge h k = Some b ∧
  match h with [] => False | s :: _ => live_of s !! k = None ∨ live_of s !! k = Some b ∧ sb_down (reads s b) = true end.

(** [b] has been down at [k] without a break since a scrape at [t0]. *)
Inductive down_since : list scrape → trackKey → positive → Z → Prop :=
  | ds_now s h k b : down_now (s :: h) k b → down_since (s :: h) k b (at_ s)
  | ds_more s h k b t0 : down_now (s :: h) k b → down_since h k b t0 → down_since (s :: h) k b t0.

(** Down for the whole retention. *)
Definition expired (h : list scrape) (k : trackKey) (b : positive) : Prop :=
  ∃ s h' t0, h = s :: h' ∧ down_since h k b t0 ∧ retention ≤ at_ s - t0.

(** Scrapes come in time order. *)
Fixpoint in_order (h : list scrape) : Prop :=
  match h with
  | [] => True
  | s :: h' => match h' with [] => True | s' :: _ => at_ s' ≤ at_ s end ∧ in_order h'
  end.
(** An object that left the sources does not come back: the registry makes a new one. *)
Fixpoint no_return (h : list scrape) : Prop :=
  match h with
  | [] => True
  | s :: h' =>
      match h' with
      | [] => True
      | s' :: _ => ∀ k b, live_of s' !! k = None → in_charge h' k = Some b → live_of s !! k ≠ Some b
      end ∧ no_return h'
  end.

(** ** The reference figures *)

Definition up (s : scrape) (kb : trackKey * positive) : bool :=
  bool_decide (live_of s !! kb.1 = Some kb.2) && negb (sb_down (reads s kb.2)).

Definition sum_of (f : trackKey * positive → Z) (ks : list (trackKey * positive)) : Z := foldr (λ kb a, f kb + a) 0 ks.
Definition when_up (s : scrape) (f : SeriesBackend → Z) (kb : trackKey * positive) : Z :=
  if up s kb then f (reads s kb.2) else 0.

(** The figures of a set of objects: all their requests, the load of those that are up. *)
Definition total (s : scrape) (ks : list (trackKey * positive)) : option sample :=
  match ks with
  | [] => None
  | _ => Some (Sample (i64 (sum_of (when_up s sb_inflight) ks)) (u64 (sum_of (λ kb, sb_requests (reads s kb.2)) ks))
                 (i64 (sum_of (when_up s sb_queued) ks)) (foldr (λ kb a, Z.max (when_up s sb_ttft kb) a) 0 ks)
                 (i64 (sum_of (when_up s sb_decode) ks)))
  end.

(** ** Sums *)

Lemma sum_of_snoc f ks kb : sum_of f (ks ++ [kb]) = sum_of f ks + f kb.
Proof. induction ks as [|x ks IH]; cbn; [lia|]. fold (sum_of f ks) (sum_of f (ks ++ [kb])). rewrite IH. lia. Qed.

Lemma max_snoc f ks (kb : trackKey * positive) :
  foldr (λ kb a, Z.max (f kb) a) 0 (ks ++ [kb]) = Z.max (foldr (λ kb a, Z.max (f kb) a) 0 ks) (Z.max (f kb) 0).
Proof. induction ks as [|x ks IH]; cbn; [lia|]. rewrite IH. lia. Qed.

Lemma max_nonneg f (ks : list (trackKey * positive)) : 0 ≤ foldr (λ kb a, Z.max (f kb) a) 0 ks.
Proof. induction ks as [|x ks IH]; cbn; lia. Qed.

Lemma total_snoc s ks kb :
  total s (ks ++ [kb]) = Some (add_sample (reads s kb.2) (negb (up s kb)) (default zero_sample (total s ks))).
Proof.
  assert (Hd : default zero_sample (total s ks) = Sample (i64 (sum_of (when_up s sb_inflight) ks))
      (u64 (sum_of (λ kb, sb_requests (reads s kb.2)) ks)) (i64 (sum_of (when_up s sb_queued) ks))
      (foldr (λ kb a, Z.max (when_up s sb_ttft kb) a) 0 ks) (i64 (sum_of (when_up s sb_decode) ks))).
  { by destruct ks. }
  rewrite Hd. clear Hd. unfold total at 1. destruct (ks ++ [kb]) eqn:He; [by destruct ks|]. rewrite <-He. clear He. f_equal.
  rewrite !sum_of_snoc, (max_snoc (when_up s sb_ttft)). pose proof (max_nonneg (when_up s sb_ttft) ks).
  set (M := foldr (λ kb a, Z.max (when_up s sb_ttft kb) a) 0 ks) in *. unfold when_up at 2 4 5 7, add_sample. cbn [s_inflight s_requests s_queued s_ttft s_decode].
  destruct (up s kb); cbn [negb].
  - rewrite !i64_add_l. f_equal; [unfold u64; by rewrite Zplus_mod_idemp_l|].
    destruct (Z.ltb_spec M (sb_ttft (reads s kb.2))); lia.
  - rewrite !Z.add_0_r. f_equal; [unfold u64; by rewrite Zplus_mod_idemp_l|lia].
Qed.

#[local] Instance sum_of_perm f : Proper ((≡ₚ) ==> (=)) (sum_of f).
Proof. intros l l' Hp. unfold sum_of. induction Hp; cbn; lia. Qed.

Lemma total_perm s ks ks' : ks ≡ₚ ks' → total s ks = total s ks'.
Proof.
  intros Hp. assert (foldr (λ kb a, Z.max (when_up s sb_ttft kb) a) 0 ks = foldr (λ kb a, Z.max (when_up s sb_ttft kb) a) 0 ks') as Hm.
  { clear -Hp. induction Hp; cbn; lia. }
  destruct ks as [|x ks]; [by apply Permutation_nil in Hp as ->|].
  destruct ks' as [|x' ks']; [by apply symmetry, Permutation_nil in Hp|]. unfold total. f_equal. by rewrite Hm, !Hp.
Qed.

Definition put (s : scrape) (o : gmap string sample) (kb : trackKey * positive) : gmap string sample :=
  <[Label kb.2 := add_sample (reads s kb.2) (negb (up s kb)) (default zero_sample (o !! Label kb.2))]> o.

Lemma put_total s cs l : foldl (put s) ∅ cs !! l = total s (filter (λ kb, Label kb.2 = l) cs).
Proof.
  induction cs as [|kb cs IH] using rev_ind; [done|]. rewrite foldl_app, filter_app. cbn [foldl]. unfold put at 1.
  destruct (decide (Label kb.2 = l)) as [<-|Hn].
  - rewrite lookup_insert_eq, IH, filter_cons_True, filter_nil by done. by rewrite total_snoc.
  - rewrite lookup_insert_ne, IH, filter_cons_False, filter_nil, app_nil_r by done. done.
Qed.

(** ** One scrape, key by key *)

Context (lorder_perm : ∀ m, lorder m ≡ₚ map_to_list m).
Context (torder_perm : ∀ m, torder m ≡ₚ map_to_list m).

(** What a scrape makes of the entry at a key, and the object it then reports there. *)
Definition next_entry (s : scrape) (k : trackKey) (o : option tracked) : option tracked :=
  match live_of s !! k with
  | Some b => Some (live_entry s o b)
  | None => t ← o; if over (at_ s) (gone_entry s t) then None else Some (gone_entry s t)
  end.
Definition reported (s : scrape) (T : gmap trackKey tracked) (k : trackKey) : option (trackKey * positive) :=
  t ← next_entry s k (T !! k); if over (at_ s) t then None else Some (k, t_b t).

Lemma live_fold s kbs : ∀ a, NoDup kbs.*1 → (∀ k b, (k, b) ∈ kbs → live_of s !! k = Some b) →
  let a' := foldl (live_step s) a kbs in
  (∀ k, tr a' !! k = if bool_decide (k ∈ kbs.*1) then next_entry s k (tr a !! k) else tr a !! k) ∧
  out a' = foldl (put s) (out a) (omap (reported s (tr a)) kbs.*1).
Proof.
  induction kbs as [|[k b] kbs IH]; intros a Hnd Hl; [split; [intros k; by rewrite bool_decide_false by apply not_elem_of_nil|done]|].
  cbn [fmap list_fmap fst] in *. apply NoDup_cons in Hnd as [Hk Hnd].
  assert (Hkb : live_of s !! k = Some b) by (apply Hl; by left).
  assert (Hne : next_entry s k (tr a !! k) = Some (live_entry s (tr a !! k) b)) by (unfold next_entry; by rewrite Hkb).
  cbn [foldl]. destruct (IH (live_step s a (k, b)) Hnd) as [Ht Ho]; [intros ???; apply Hl; by right|]. split.
  - intros k'. rewrite Ht. unfold live_step. cbn [fst snd tr]. destruct (decide (k' = k)) as [->|Hn].
    + rewrite bool_decide_false by done. rewrite bool_decide_true by (by left). by rewrite lookup_insert_eq.
    + rewrite lookup_insert_ne by done. by rewrite (bool_decide_ext (k' ∈ kbs.*1) (k' ∈ k :: kbs.*1)) by (rewrite elem_of_cons; tauto).
  - rewrite Ho. cbn [omap list_omap]. unfold reported at 2. rewrite Hne. cbn [mbind option_bind].
    assert (omap (reported s (tr (live_step s a (k, b)))) kbs.*1 = omap (reported s (tr a)) kbs.*1) as ->.
    { apply list_omap_ext, Forall_Forall2_diag, Forall_forall. intros k' Hk'. unfold reported, live_step. cbn [fst snd tr].
      rewrite lookup_insert_ne; [done|]. by intros ->. }
    unfold live_step at 1. cbn [fst snd out]. unfold report. destruct (over _ _); [done|]. cbn [foldl]. f_equal. unfold put. cbn [fst snd].
    cbn [live_entry t_b]. unfold up. cbn [fst snd]. rewrite Hkb, bool_decide_true by done. cbn [andb]. by rewrite negb_involutive.
Qed.

Definition reported_gone (s : scrape) (T : gmap trackKey tracked) (k : trackKey) : option (trackKey * positive) :=
  if live_of s !! k then None else reported s T k.

Lemma gone_fold s kts : ∀ a, NoDup kts.*1 → (∀ k t, (k, t) ∈ kts → tr a !! k = Some t) →
  let a' := foldl (gone_step (live_of s) s) a kts in
  (∀ k, tr a' !! k = if bool_decide (k ∈ kts.*1 ∧ live_of s !! k = None) then next_entry s k (tr a !! k) else tr a !! k) ∧
  out a' = foldl (put s) (out a) (omap (reported_gone s (tr a)) kts.*1).
Proof.
  induction kts as [|[k t] kts IH]; intros a Hnd Hl; [split; [intros k; by rewrite bool_decide_false by (intros [[]%not_elem_of_nil _])|done]|].
  cbn [fmap list_fmap fst] in *. apply NoDup_cons in Hnd as [Hk Hnd].
  assert (Hkt : tr a !! k = Some t) by (apply Hl; by left). set (a1 := gone_step (live_of s) s a (k, t)).
  assert (H1 : (∀ k', k' ≠ k → tr a1 !! k' = tr a !! k') ∧
    tr a1 !! k = (if live_of s !! k then tr a !! k else next_entry s k (tr a !! k)) ∧
    out a1 = foldl (put s) (out a) (option_list (reported_gone s (tr a) k))).
  { subst a1. unfold gone_step, reported_gone, reported, next_entry. cbn [fst snd].
    destruct (live_of s !! k) as [b|] eqn:Hlk; [done|]. rewrite Hkt. cbn [mbind option_bind]. destruct (over (at_ s) (gone_entry s t)) eqn:Hov; cbn [tr out mbind option_bind].
    - split_and!; [intros; by apply lookup_delete_ne|apply lookup_delete_eq|done].
    - split_and!; [intros; by apply lookup_insert_ne|apply lookup_insert_eq|]. rewrite Hov. unfold report. rewrite Hov.
      change (foldl (put s) (out a) (option_list (Some (k, t_b (gone_entry s t))))) with (put s (out a) (k, t_b t)).
      unfold put, up. cbn [fst snd gone_entry t_b]. by rewrite Hlk. }
  destruct H1 as (Hoth & Hat & Hout). cbn [foldl]. fold a1. destruct (IH a1 Hnd) as [Ht Ho].
  { intros k' t' Hin. rewrite Hoth; [apply Hl; by right|]. intros ->. apply Hk. by apply list_elem_of_fmap; exists (k, t'). }
  split.
  - intros k'. rewrite Ht. destruct (decide (k' = k)) as [->|Hn].
    + rewrite bool_decide_false by tauto. rewrite Hat. destruct (live_of s !! k) as [b|] eqn:Hlk.
      * by rewrite bool_decide_false by (intros [_ ?]; done).
      * rewrite bool_decide_true; [done|]. split; [by left|done].
    + rewrite Hoth by done. by rewrite (bool_decide_ext _ (k' ∈ k :: kts.*1 ∧ live_of s !! k' = None)) by (rewrite elem_of_cons; tauto).
  - rewrite Ho, Hout. assert (omap (reported_gone s (tr a1)) kts.*1 = omap (reported_gone s (tr a)) kts.*1) as ->.
    { apply list_omap_ext, Forall_Forall2_diag, Forall_forall. intros k' Hk'. unfold reported_gone, reported. rewrite Hoth; [done|]. by intros ->. }
    cbn [omap list_omap]. destruct (reported_gone s (tr a) k); done.
Qed.

Lemma NoDup_omap_keys (f : trackKey → option (trackKey * positive)) ks :
  (∀ k kb, f k = Some kb → kb.1 = k) → NoDup ks → NoDup (omap f ks).
Proof.
  intros Hf. induction 1 as [|k ks Hk Hnd IH]; [constructor|]. cbn [omap list_omap]. destruct (f k) as [kb|] eqn:He; [|done].
  constructor; [|done]. intros (k' & Hk' & He')%list_elem_of_omap. apply Hf in He, He'. congruence.
Qed.

Lemma reported_key s T k kb : reported s T k = Some kb → kb.1 = k.
Proof.
  unfold reported. destruct (next_entry _ _ _) as [t|]; [|done]. cbn. destruct (over _ _); [done|]. by intros [= <-].
Qed.

(** Every key moves to its next entry, and each object still reported counts once. *)
Lemma Collect_spec s T :
  (∀ k, tr (Collect s T) !! k = next_entry s k (T !! k)) ∧
  ∃ cs, NoDup cs ∧ (∀ k b, (k, b) ∈ cs ↔ reported s T k = Some (k, b)) ∧ out (Collect s T) = foldl (put s) ∅ cs.
Proof.
  unfold Collect. set (live := live_of s).
  assert (Hlk : ∀ k, k ∈ (lorder live).*1 ↔ is_Some (live !! k)).
  { intros k. rewrite lorder_perm, list_elem_of_fmap. split.
    - intros ([k' b] & -> & ?%elem_of_map_to_list). by eexists.
    - intros [b Hb]. exists (k, b). split; [done|by apply elem_of_map_to_list]. }
  destruct (live_fold s (lorder live) (Acc T ∅)) as [Ht1 Ho1].
  { rewrite lorder_perm. apply NoDup_fst_map_to_list. }
  { intros k b. rewrite lorder_perm, elem_of_map_to_list. done. }
  cbn [tr out] in Ht1, Ho1. set (a1 := foldl (live_step s) (Acc T ∅) (lorder live)) in *.
  assert (Htk : ∀ k, k ∈ (torder (tr a1)).*1 ↔ is_Some (tr a1 !! k)).
  { intros k. rewrite torder_perm, list_elem_of_fmap. split.
    - intros ([k' t] & -> & ?%elem_of_map_to_list). by eexists.
    - intros [t Hb]. exists (k, t). split; [done|by apply elem_of_map_to_list]. }
  destruct (gone_fold s (torder (tr a1)) a1) as [Ht2 Ho2].
  { rewrite torder_perm. apply NoDup_fst_map_to_list. }
  { intros k t. rewrite torder_perm, elem_of_map_to_list. done. }
  fold live in Ht2, Ho2.
  assert (Hgone : ∀ k, live !! k = None → tr a1 !! k = T !! k).
  { intros k Hk. rewrite Ht1, bool_decide_false; [done|]. rewrite Hlk, Hk. by intros [? ?]. }
  split.
  - intros k. rewrite Ht2. destruct (live !! k) as [b|] eqn:Hk.
    + rewrite bool_decide_false by (intros [_ ?]; congruence). rewrite Ht1, bool_decide_true; [done|]. apply Hlk. by eexists.
    + rewrite Hgone by done. destruct (T !! k) as [t|] eqn:HT.
      * rewrite bool_decide_true; [done|]. split; [|done]. apply Htk. rewrite Hgone by done. by eexists.
      * rewrite bool_decide_false; [unfold next_entry; fold live; by rewrite Hk|]. intros [[? Hx]%Htk _]. rewrite Hgone in Hx by done. congruence.
  - exists (omap (reported s T) (lorder live).*1 ++ omap (reported_gone s (tr a1)) (torder (tr a1)).*1).
    assert (Hrg : ∀ k, reported_gone s (tr a1) k = if live !! k then None else reported s T k).
    { intros k. unfold reported_gone. fold live. destruct (live !! k) eqn:Hk; [done|]. unfold reported. by rewrite Hgone. }
    split_and!.
    + apply NoDup_app. split_and!.
      * apply NoDup_omap_keys; [apply reported_key|]. rewrite lorder_perm. apply NoDup_fst_map_to_list.
      * intros kb (k & Hk & He)%list_elem_of_omap (k' & _ & He')%list_elem_of_omap. rewrite Hrg in He'.
        destruct (live !! k') eqn:Hk'; [done|]. apply reported_key in He, He'. apply Hlk in Hk as [? ?]. congruence.
      * apply NoDup_omap_keys; [|rewrite torder_perm; apply NoDup_fst_map_to_list].
        intros k kb. rewrite Hrg. destruct (live !! k); [done|]. apply reported_key.
    + intros k b. rewrite elem_of_app, !list_elem_of_omap. setoid_rewrite Hrg. split.
      * intros [(k' & _ & He)|(k' & _ & He)]; [|destruct (live !! k'); [done|]]; pose proof (reported_key _ _ _ _ He) as Hk; cbn in Hk; by subst.
      * intros He. destruct (live !! k) as [b'|] eqn:Hk; [left|right]; exists k; (split; [|by rewrite ?Hk]); [apply Hlk; by eexists|].
        apply Htk. rewrite Hgone by done. unfold reported, next_entry in He. fold live in He. rewrite Hk in He. destruct (T !! k); [by eexists|done].
    + by rewrite Ho2, Ho1, foldl_app.
Qed.

(** ** Downtime, as a function of the history *)

Definition downb (h : list scrape) (k : trackKey) (b : positive) : bool :=
  bool_decide (in_charge h k = Some b) &&
  match h with
  | [] => false
  | s :: _ => match live_of s !! k with None => true | Some b' => bool_decide (b' = b) && sb_down (reads s b) end
  end.
Fixpoint since (h : list scrape) (k : trackKey) (b : positive) : option Z :=
  match h with
  | [] => None
  | s :: h' => if downb h k b then Some (default (at_ s) (since h' k b)) else None
  end.

Lemma downb_spec h k b : downb h k b = true ↔ down_now h k b.
Proof.
  unfold downb, down_now. rewrite andb_true_iff, bool_decide_eq_true. destruct h as [|s h]; [naive_solver|].
  destruct (live_of s !! k) as [b'|]; [rewrite andb_true_iff, bool_decide_eq_true|]; naive_solver.
Qed.

Lemma since_charge h k b : in_charge h k ≠ Some b → since h k b = None.
Proof. destruct h as [|s h]; [done|]. intros Hn. cbn [since]. unfold downb. by rewrite bool_decide_false. Qed.

Lemma since_down h k b t : since h k b = Some t → down_since h k b t.
Proof.
  revert t. induction h as [|s h IH]; intros t; [done|]. cbn [since]. destruct (downb (s :: h) k b) eqn:Hd; [|done].
  apply downb_spec in Hd. intros [= <-]. destruct (since h k b) as [t'|]; [apply ds_more; auto|by apply ds_now].
Qed.

Lemma down_since_le s h k b t0 : in_order (s :: h) → down_since h k b t0 → t0 ≤ at_ s.
Proof.
  intros Ho Hd. revert s Ho. induction Hd as [s' h k b _|s' h k b t0 _ Hd IH]; intros s Ho; [apply Ho|].
  transitivity (at_ s'); [apply IH; apply Ho|apply Ho].
Qed.

Lemma down_since_min h k b t0 : in_order h → down_since h k b t0 → ∃ t, since h k b = Some t ∧ t ≤ t0.
Proof.
  intros Ho Hd. induction Hd as [s h k b Hn%downb_spec|s h k b t0 Hn%downb_spec Hd IH].
  - cbn [since]. rewrite Hn. eexists. split; [done|]. destruct (since h k b) as [t|] eqn:Ht; [|done].
    cbn. by eapply down_since_le, since_down.
  - cbn [since]. rewrite Hn. destruct IH as (t & -> & ?); [apply Ho|]. by exists t.
Qed.

Lemma expired_since s h k b : in_order (s :: h) →
  expired (s :: h) k b ↔ ∃ t, since (s :: h) k b = Some t ∧ retention ≤ at_ s - t.
Proof.
  intros Ho. split.
  - intros (s' & h' & t0 & [= <- <-] & Hd & Hr). destruct (down_since_min _ _ _ _ Ho Hd) as (t & Ht & ?).
    exists t. split; [done|lia].
  - intros (t & Ht%since_down & Hr). by exists s, h, t.
Qed.

Lemma over_expired s h k b : in_order (s :: h) → over (at_ s) (Tracked b (since (s :: h) k b)) = true ↔ expired (s :: h) k b.
Proof.
  intros Ho. rewrite expired_since by done. unfold over. cbn [downSince]. destruct (since (s :: h) k b) as [t|].
  - rewrite Z.leb_le. naive_solver.
  - naive_solver.
Qed.

(** What the collector remembers of a history. *)
Definition remembers (h : list scrape) (k : trackKey) (o : option tracked) : Prop :=
  match in_charge h k with
  | None => o = None
  | Some b => o = Some (Tracked b (since h k b)) ∧
                ¬ (expired h k b ∧ match h with s :: _ => live_of s !! k = None | [] => False end) ∨
              o = None ∧ expired h k b ∧ match h with s :: _ => live_of s !! k = None | [] => False end
  end.

Lemma next_remembers s h k o :
  in_order (s :: h) → no_return (s :: h) → remembers h k o → remembers (s :: h) k (next_entry s k o).
Proof.
  intros Ho Hn Hr. unfold remembers, next_entry. cbn [in_charge]. destruct (live_of s !! k) as [b|] eqn:Hl.
  - left. split; [|by intros [_ ?]]. f_equal. unfold live_entry. f_equal. cbn [since]. unfold downb. cbn [in_charge]. rewrite Hl, !bool_decide_true by done.
    cbn [andb]. destruct (sb_down (reads s b)); [|done]. do 2 f_equal. unfold remembers in Hr.
    destruct (in_charge h k) as [b'|] eqn:Hc; [destruct Hr as [[-> _]|(-> & _ & Hg)]|subst o; rewrite since_charge by congruence; done].
    + cbn [t_b downSince]. destruct (bool_decide_reflect (b' = b)) as [->|]; [done|]. rewrite since_charge; [done|congruence].
    + rewrite since_charge; [done|]. rewrite Hc. intros [= ->]. destruct h as [|s' h']; [done|]. destruct Hn as [Hn _]. by apply (Hn k b).
  - unfold remembers in Hr. destruct (in_charge h k) as [b|] eqn:Hc; [|by subst o].
    assert (Hs : since (s :: h) k b = Some (default (at_ s) (since h k b))).
    { cbn [since]. unfold downb. cbn [in_charge]. by rewrite Hl, Hc, bool_decide_true. }
    destruct Hr as [[-> _]|(-> & He & Hg)].
    + cbn [mbind option_bind]. assert (gone_entry s (Tracked b (since h k b)) = Tracked b (since (s :: h) k b)) as ->.
      { rewrite Hs. done. }
      destruct (over _ _) eqn:Hov; [right|left]; [by apply over_expired in Hov|]. split; [done|].
      intros [He%over_expired _]; [congruence|done].
    + right. split; [done|]. split; [|done]. destruct h as [|s' h']; [done|]. apply expired_since in He as (t & Ht & Hr); [|apply Ho].
      apply expired_since; [done|]. exists t. split; [by rewrite Hs, Ht|]. destruct Ho as [? _]. lia.
Qed.

Lemma state_remembers h k : in_order h → no_return h → remembers h k (state_after h !! k).
Proof.
  intros Ho Hn. induction h as [|s h IH]; [done|]. cbn [state_after]. rewrite (proj1 (Collect_spec s (state_after h))).
  apply next_remembers; [done..|]. apply IH; [apply Ho|apply Hn].
Qed.

Lemma reported_spec s h k b : in_order (s :: h) → no_return (s :: h) →
  reported s (state_after h) k = Some (k, b) ↔ in_charge (s :: h) k = Some b ∧ ¬ expired (s :: h) k b.
Proof.
  intros Ho Hn. pose proof (state_remembers (s :: h) k Ho Hn) as Hr. cbn [state_after] in Hr.
  rewrite (proj1 (Collect_spec s (state_after h))) in Hr. unfold reported, remembers in *.
  destruct (in_charge (s :: h) k) as [b'|]; [destruct Hr as [[-> _]|(-> & He & _)]|rewrite Hr]; cbn [mbind option_bind].
  - pose proof (over_expired s h k b' Ho) as Hov. destruct (over _ _).
    + split; [done|]. intros ([= ->] & []). by apply Hov.
    + cbn [t_b]. split; [intros [= <-]|by intros ([= ->] & _)]. split; [done|]. intros ?%Hov. done.
  - split; [done|]. by intros ([= ->] & []).
  - split; [done|by intros [? _]].
Qed.

(** C22: at every scrape a label has series exactly when some object under it has not been
    down, without a break, for the whole retention; the figures are the requests of all
    such objects and the load of those that are up, whatever order the maps are walked
    in; and an object gone for the retention is forgotten. *)
Theorem series_exact s h l ks :
  in_order (s :: h) → no_return (s :: h) → NoDup ks →
  (∀ k b, (k, b) ∈ ks ↔ in_charge (s :: h) k = Some b ∧ Label b = l ∧ ¬ expired (s :: h) k b) →
  exported s h !! l = total s ks ∧
  (∀ k b, in_charge (s :: h) k = Some b → live_of s !! k = None → expired (s :: h) k b → state_after (s :: h) !! k = None).
Proof.
  intros Ho Hn Hnd Hks. split.
  - unfold exported. destruct (proj2 (Collect_spec s (state_after h))) as (cs & Hcs & Hin & ->). rewrite put_total.
    apply total_perm, NoDup_Permutation; [by apply NoDup_filter|done|]. intros [k b].
    rewrite list_elem_of_filter, Hin, Hks, reported_spec by done. cbn [snd]. tauto.
  - intros k b Hc Hl He. pose proof (state_remembers (s :: h) k Ho Hn) as Hr. unfold remembers in Hr. rewrite Hc in Hr. tauto.
Qed.
End series.

(** ** Witness: a backend that left fifteen minutes ago has no series left *)

Definition demo_label (b : positive) : string := if bool_decide (b = 1%positive) then "a"%string else "b"%string.
Definition demo_reads (_ : positive) : SeriesBackend := MkSeries 3 7 0 0 0 false.
Definition demo_history : list scrape := [Scrape 60 [[2%positive]] demo_reads; Scrape 0 [[1%positive; 2%positive]] demo_reads].
Definition demo_scrape : scrape := Scrape (960 * second) [[2%positive]] demo_reads.

Example demo_series : exported demo_label (retention_of 0) map_to_list map_to_list demo_scrape demo_history !! "b"%string = Some (Sample 3 7 0 0 0).
Proof. reflexivity. Qed.

Lemma demo_live s k b : sources s = [[2%positive]] → live_of demo_label s !! k = Some b → k = (0%nat, "b"%string) ∧ b = 2%positive.
Proof.
  intros Hs. unfold live_of. rewrite Hs. cbn [add_sources]. unfold add_source. cbn [foldl].
  intros [[<- <-]|[_ H]]%lookup_insert_Some; [done|]. by rewrite lookup_empty in H.
Qed.

Lemma demo_no_return : no_return demo_label (demo_scrape :: demo_history).
Proof.
  repeat split; intros k b Hg _ Hl; (apply demo_live in Hl as [-> ->]; [|done]); vm_compute in Hg; discriminate.
Qed.

Lemma demo_gone k b : in_charge demo_label (demo_scrape :: demo_history) k = Some b → demo_label b = "a"%string →
  expired demo_label (retention_of 0) (demo_scrape :: demo_history) k b.
Proof.
  intros Hc Hb. assert (b = 1%positive) as ->.
  { revert Hb. unfold demo_label. by destruct (bool_decide_reflect (b = 1%positive)). }
  assert (Hk : k = (0%nat, "a"%string)).
  { revert Hc. unfold demo_history. cbn [in_charge]. destruct (live_of demo_label demo_scrape !! k) as [b|] eqn:H1.
    - apply demo_live in H1 as [_ ->]; [done|done].
    - destruct (live_of demo_label (Scrape 60 _ _) !! k) as [b|] eqn:H2; [by apply demo_live in H2 as [_ ->]|].
      unfold live_of at 1. cbn [add_sources sources]. unfold add_source. cbn [foldl].
      intros H3. assert (H4 : <[(0%nat, demo_label 2) := 2%positive]> (<[(0%nat, demo_label 1) := 1%positive]> ∅ : gmap trackKey positive) !! k = Some 1%positive) by (by destruct (<[_ := _]> _ !! k)).
      clear H3. rename H4 into H3.
      apply lookup_insert_Some in H3 as [[_ ?]|[_ H3]]; [done|]. apply lookup_insert_Some in H3 as [[<- _]|[_ H3]]; [done|].
      by rewrite lookup_empty in H3. }
  subst k. exists demo_scrape, demo_history, 60. split; [done|]. split; [|vm_compute; discriminate].
  apply ds_more; [split; [reflexivity|left; reflexivity]|]. apply (ds_now _ (Scrape 60 _ _)). split; [reflexivity|left; reflexivity].
Qed.

Lemma series_exact_witness :
  exported demo_label (retention_of 0) map_to_list map_to_list demo_scrape demo_history !! "a"%string = None.
Proof.
  destruct (series_exact demo_label (retention_of 0) map_to_list map_to_list (λ m, reflexivity _) (λ m, reflexivity _)
    demo_scrape demo_history "a"%string []) as [-> _]; [vm_compute; repeat split; discriminate|apply demo_no_return|constructor| |done].
  intros k b. split; [by intros ?%not_elem_of_nil|]. intros (Hc & Hl & He). destruct He. by apply demo_gone.
Defined.
