(* ===== verification/Pool.v ===== *)
(** * Pool: one routable set of endpoints

    [src/router/internal/pool/pool.go].  A pool ties a registry to the flows that choose
    among its backends: the registry calls back as backends come and go, and each flow's
    prefix state follows.  The registry's model keeps the callbacks it has made in order
    ([added], [dropped]); the pool runs those a registry operation appended. *)

From stdpp Require Import base gmap sets list strings sorting relations.
From Stdlib Require Import ZArith Lia.
From S2P Require Import Prelude MarkSet KvUnits AffinityTree TreeEvict TreeDrop TreeSpec Circuit WaitQ Backend Registry Policy AffinityPolicy PolicySpec.
From S2P Require Import PrefillManager StreamScan GoText Gateway Health.
Open Scope Z_scope.

(** ** Configuration *)

Record PBackend := MkPBackend {
  pb_URL : string;
  pb_Model : string;
  pb_Locality : string;
  pb_Dialect : string;
  pb_Capacity : Z;
  pb_Passive : bool;
  pb_Router : bool;
}.

Record PConfig := MkPConfig {
  pc_Name : string;
  pc_Backends : list PBackend;
  pc_Flow : AffinityPolicy.Config;
  pc_Health : Health.Config;
  pc_DefaultCapacity : Z;
  pc_DefaultDialect : string;
  pc_DrainDeadline : Z;
  pc_PrefillSplit : option PrefillManager.Config;
  pc_PDPrefill : list string;
  pc_PDPrefillFlow : option AffinityPolicy.Config;
}.

Record Pool := MkPool {
  pl_Name : string;
  pl_reg : Registry.Registry;
  pl_flow : Policy;
  pl_split : option Manager;
  pl_pd : option (list bytes);
  pl_pdflow : option Policy;
  pl_checker : Checker;
}.

Definition set_reg (r : Registry.Registry) (p : Pool) : Pool :=
  MkPool (pl_Name p) r (pl_flow p) (pl_split p) (pl_pd p) (pl_pdflow p) (pl_checker p).

Definition orDefault (v def : string) : string := if bool_decide (v = ""%string) then def else v.
Definition orDefaultInt (v def : Z) : Z := if v =? 0 then def else v.

Definition gaugeInterval : Z := 10 * second.
Definition sweepInterval (ttl : Z) : Z := Z.min (Z.max (Z.quot ttl 10) second) (60 * second).

Section pool.
Context (u : Unicode) (Canonical : string → option string).
Context (worder : gmap string Spec → list (string * Spec)).
Context (order : gset AffinityTree.loc → list AffinityTree.loc).

(** ** The registry's callbacks *)

(** [OnAdd]: the flow, then the prefill leg's flow. *)
Definition OnAdd (p : Pool) (l : positive) : Pool :=
  let '(st, f) := AddBackend l (Registry.store (pl_reg p), pl_flow p) in
  let '(st, pf) := match pl_pdflow p with
                   | None => (st, None)
                   | Some pf => let '(st, pf) := AddBackend l (st, pf) in (st, Some pf)
                   end in
  MkPool (pl_Name p) (set_store st (pl_reg p)) f (pl_split p) (pl_pd p) pf (pl_checker p).

Definition OnDrop (p : Pool) (l : positive) : Pool :=
  let st := Registry.store (pl_reg p) in
  MkPool (pl_Name p) (pl_reg p) (DropBackend st order l (pl_flow p)) (pl_split p) (pl_pd p)
    (DropBackend st order l <$> pl_pdflow p) (pl_checker p).

(** The registry moved to [r]: run the callbacks it made on the way. *)
Definition follow (r : Registry.Registry) (p : Pool) : Pool :=
  let adds := drop (List.length (added (pl_reg p))) (added r) in
  let drops := drop (List.length (dropped (pl_reg p))) (dropped r) in
  foldl OnDrop (foldl OnAdd (set_reg r p) adds) drops.

(** ** The operations of the pool's registry *)

Definition pool_Add (s : Spec) (p : Pool) : (option positive * option add_error) * Pool :=
  let '(res, r) := Registry.Add Canonical s (pl_reg p) in (res, follow r p).
Definition pool_Remove (now : Z) (raw : string) (p : Pool) : bool * Pool :=
  let '(ok, r) := Registry.Remove Canonical now raw (pl_reg p) in (ok, follow r p).
Definition pool_awaitDrain (now : Z) (i : nat) (p : Pool) : Pool := follow (awaitDrain now i (pl_reg p)) p.
Definition pool_Reconcile (now : Z) (desired : list Spec) (p : Pool) : option (list string) * Pool :=
  let '(o, r) := ReconcileDiscovered Canonical worder now desired (pl_reg p) in (o, follow r p).

(** ** Construction *)

Definition spec_of (c : PConfig) (b : PBackend) : Spec :=
  MkSpec (pb_URL b) (if pb_Router b then KindRouter else KindWorker) (orDefault (pb_Dialect b) (pc_DefaultDialect c))
    (if pb_Passive b then HealthPassive else HealthActive) ProvStatic (pb_Model b) (pb_Locality b)
    (orDefaultInt (pb_Capacity b) (pc_DefaultCapacity c)).

Inductive pool_error := ENoName | EExclusive | EBackend (url : string) (e : add_error).

(** Admit one static backend; a passive one starts eligible, since nothing will probe it.
    Registering a transition callback on the breaker is [OnTransition]. *)
Definition enlist (c : PConfig) (acc : Pool + pool_error) (b : PBackend) : Pool + pool_error :=
  match acc with
  | inr e => inr e
  | inl p =>
      let '((o, err), p) := pool_Add (spec_of c b) p in
      match err, o with
      | Some e, _ => inr (EBackend (pb_URL b) e)
      | None, None => inl p
      | None, Some l =>
          let st := alter (λ x, MkBackend (URL x) (DialectID x) (HealthMod x) (Prov x) (bmeta x) (OnTransition (CB x)) (draining x)
                                  (health x) (load x) (lat x) (bwaiters x)) l (Registry.store (pl_reg p)) in
          let st := if pb_Passive b then alter (SetHealth Healthy) l st else st in
          inl (set_reg (set_store st (pl_reg p)) p)
      end
  end.

Definition with_name (n : string) (c : AffinityPolicy.Config) : AffinityPolicy.Config :=
  AffinityPolicy.MkConfig (AffinityPolicy.NodeConcurrency c) (SoftNodeConcurrency c) (TTFTHard c) (TTFTSoft c) (RelativeTTFT c) (RelativeDecode c)
    (CostRouting c) (RebalanceRatio c) (SplitGuard c) (TransientFallback c) (TailTTL c) (RefusalTTL c) n (Ladder c).

(** The prefill leg's flow, under a pool name of its own. *)
Definition prefill_flow (c : PConfig) : AffinityPolicy.Config :=
  let pc := default (pc_Flow c) (pc_PDPrefillFlow c) in
  with_name (orDefault (PoolName pc) DefaultPoolName ++ ":prefill")%string pc.

Definition New (c : PConfig) : Pool + pool_error :=
  if bool_decide (pc_Name c = ""%string) then inr ENoName
  else
    let pd := negb (bool_decide (pc_PDPrefill c = [])) in
    let pflow := if pd then Some (AffinityPolicy.New (prefill_flow c)) else None in
    let r := Registry.New Circuit.DefaultConfig (pc_DrainDeadline c) in
    if pd && negb (bool_decide (pc_PrefillSplit c = None)) then inr EExclusive
    else
      let p := MkPool (pc_Name c) r (AffinityPolicy.New (pc_Flow c)) (PrefillManager.New <$> pc_PrefillSplit c)
                 (if pd then Some (PDNew u (lit <$> pc_PDPrefill c)) else None) pflow (Health.New (pc_Health c)) in
      foldl (enlist c) (inl p) (pc_Backends c).

(** ** The background work of [Run]: each tick *)

Definition run_probes (now : Z) (probe : positive → bool) (porder : list positive → list positive) (p : Pool) : Pool :=
  let '(c, st) := Round now (Backends (cur (pl_reg p))) probe porder (pl_checker p, Registry.store (pl_reg p)) in
  MkPool (pl_Name p) (set_store st (pl_reg p)) (pl_flow p) (pl_split p) (pl_pd p) (pl_pdflow p) c.
Definition run_sweep (now : Z) (p : Pool) : Pool :=
  MkPool (pl_Name p) (pl_reg p) (Sweep now order (pl_flow p)).2 (pl_split p) (pl_pd p) (pl_pdflow p) (pl_checker p).
Definition run_pd_sweep (now : Z) (p : Pool) : Pool :=
  MkPool (pl_Name p) (pl_reg p) (pl_flow p) (pl_split p) (pl_pd p) ((λ f, (Sweep now order f).2) <$> pl_pdflow p) (pl_checker p).
End pool.

(** ** The invariant *)

(** A flow follows a registry: it knows exactly the published backends, and credits no
    other with any prefix. *)
Record follows (r : Registry.Registry) (f : Policy) : Prop := {
  fo_tree : tree_wf (ptree f);
  fo_known : AffinityPolicy.backends f = byURL (cur r);
  fo_ghosts url k q : byURL (cur r) !! url = None → TreeSpec.view (ptree f) url k q = false;
}.

Record pool_wf (p : Pool) : Prop := {
  pw_reg : reg_wf (pl_reg p);
  pw_flow : follows (pl_reg p) (pl_flow p);
  pw_pdflow f : pl_pdflow p = Some f → follows (pl_reg p) f;
  pw_roles : is_Some (pl_pd p) ↔ is_Some (pl_pdflow p);
  pw_exclusive : is_Some (pl_pd p) → pl_split p = None;
}.

(** Same published set. *)
Record same_reg (r r' : Registry.Registry) : Prop := {
  sr_wf : reg_wf r';
  sr_cur : cur r' = cur r;
  sr_added : added r' = added r;
  sr_dropped : dropped r' = dropped r;
  sr_url l : url_of r' l = url_of r l;
  sr_store l : is_Some (Registry.store r !! l) → is_Some (Registry.store r' !! l);
  sr_cbc : cbc r' = cbc r;
}.

Lemma same_reg_refl r : reg_wf r → same_reg r r.
Proof. by constructor. Qed.
Lemma same_reg_trans a b c : same_reg a b → same_reg b c → same_reg a c.
Proof. intros [] []. constructor; try congruence; auto. Qed.

Lemma same_reg_alter f l r : (∀ b, URL (f b) = URL b) → reg_wf r → same_reg r (set_store (alter f l (Registry.store r)) r).
Proof.
  intros Hf Hw. constructor; try done; [by apply alter_wf|intros; by apply url_of_alter|].
  intros x Hx. cbn. by rewrite lookup_alter_is_Some.
Qed.

Lemma follows_same r r' f : cur r' = cur r → follows r f → follows r' f.
Proof. intros Hc [Ht Hk Hg]. constructor; [done|by rewrite Hc|by rewrite Hc]. Qed.

(** New backends: the callbacks owed, and the index they make. *)
Record grew (r r' : Registry.Registry) (la : list positive) : Prop := {
  gr_wf : reg_wf r';
  gr_added : added r' = added r ++ la;
  gr_dropped : dropped r' = dropped r;
  gr_index : byURL (cur r') = foldl (λ m l, <[url_of r' l := l]> m) (byURL (cur r)) la;
  gr_url l : is_Some (Registry.store r !! l) → is_Some (Registry.store r' !! l) ∧ url_of r' l = url_of r l;
  gr_new l : l ∈ la → is_Some (Registry.store r' !! l);
}.

Lemma same_grew r r' : same_reg r r' → grew r r' [].
Proof.
  intros Hs. constructor; [apply Hs|rewrite app_nil_r; apply Hs|apply Hs|cbn; by rewrite (sr_cur _ _ Hs)| |by intros l ?%elem_of_nil].
  intros l Hl. split; [by apply (sr_store _ _ Hs)|apply (sr_url _ _ Hs)].
Qed.

Lemma foldl_insert_ext (f g : positive → string) la (m : gmap string positive) :
  (∀ l, l ∈ la → f l = g l) → foldl (λ m l, <[f l := l]> m) m la = foldl (λ m l, <[g l := l]> m) m la.
Proof.
  revert m. induction la as [|l la IH]; intros m Hfg; [done|]. cbn. rewrite Hfg by (by left). apply IH. intros. apply Hfg. by right.
Qed.

Lemma grew_trans a b c la lb : grew a b la → grew b c lb → grew a c (la ++ lb).
Proof.
  intros [Hw1 Ha1 Hd1 Hi1 Hu1 Hn1] [Hw2 Ha2 Hd2 Hi2 Hu2 Hn2]. constructor; [done|by rewrite Ha2, Ha1, app_assoc|congruence| | |].
  - rewrite Hi2, Hi1, foldl_app. f_equal. apply foldl_insert_ext. intros l Hl. symmetry. by apply Hu2, Hn1.
  - intros l Hl. destruct (Hu1 l Hl) as [Hb He]. destruct (Hu2 l Hb) as [? He']. split; [done|by rewrite He'].
  - intros l [Hl|Hl]%elem_of_app; [by apply Hu2, Hn1|by apply Hn2].
Qed.

(** Without ghosts an index only gains. *)
Lemma foldl_insert_None (f : positive → string) la (m : gmap string positive) url :
  foldl (λ m l, <[f l := l]> m) m la !! url = None → m !! url = None.
Proof.
  revert m. induction la as [|l la IH]; intros m; [done|]. cbn. intros Hn%IH. by apply lookup_insert_None in Hn as [? _].
Qed.

(** ** The registry's operations, as the callbacks see them *)

Section ops.
Context (Canonical : string → option string).
Context (worder : gmap string Spec → list (string * Spec)).

Lemma drain_same now l r : reg_wf r → is_Some (Registry.store r !! l) → same_reg r (drain now l r).
Proof.
  intros Hw Hl. pose proof (drain_wf now l r Hw Hl) as Hw'. unfold drain in *. destruct (draining _); [by apply same_reg_refl|].
  constructor; try done; [intros; by apply (url_of_alter (set_draining true))|].
  intros x Hx. cbn. by rewrite lookup_alter_is_Some.
Qed.

Lemma Add_grew s r : reg_wf r → ∃ la, grew r (Registry.Add Canonical s r).2 la.
Proof.
  intros Hw. pose proof (reg_add_wf Canonical s r Hw) as Hw'. unfold Registry.Add in *.
  destruct (Canonical (sURL s)) as [canon|]; [|exists []; by apply same_grew, same_reg_refl].
  destruct (byURL (cur r) !! canon) as [l|] eqn:Hl.
  - exists []. apply same_grew. destruct (_ && _); [by apply same_reg_refl|]. by apply same_reg_alter.
  - fold (new_backend canon s r) in *. exists [Registry.fresh r].
    pose proof (λ v, add_new_index Canonical canon s r v Hw Hl) as Hix. cbn zeta in Hix. cbn [snd] in *.
    assert (Hst : ∀ l, is_Some (Registry.store r !! l) → l ≠ Registry.fresh r).
    { intros l [x Hx%(rw_fresh _ Hw)] ->. lia. }
    match goal with |- grew r ?x _ => set (r' := x) in * end.
    assert (Hs' : Registry.store r' = <[Registry.fresh r := new_backend canon s r]> (Registry.store r)) by done.
    assert (Hi' : ∀ v, byURL (cur r') !! v = if decide (v = canon) then Some (Registry.fresh r) else byURL (cur r) !! v) by exact Hix.
    assert (added r' = added r ++ [Registry.fresh r] ∧ dropped r' = dropped r) as [? ?] by done. clear Hix. clearbody r'.
    assert (Hu' : url_of r' (Registry.fresh r) = canon) by (unfold url_of; by rewrite Hs', lookup_total_insert_eq).
    constructor; [done|done|done| | |].
    + apply map_eq. intros v. cbn [foldl]. rewrite Hi', Hu'.
      destruct (decide (v = canon)) as [->|]; [by rewrite lookup_insert_eq|by rewrite lookup_insert_ne].
    + intros l Hl'. pose proof (Hst l Hl') as Hne. unfold url_of. rewrite Hs', lookup_insert_ne, lookup_total_insert_ne by congruence. done.
    + intros l ->%list_elem_of_singleton. rewrite Hs', lookup_insert_eq. by eexists.
Qed.

Lemma Remove_same now raw r : reg_wf r → same_reg r (Registry.Remove Canonical now raw r).2.
Proof.
  intros Hw. unfold Registry.Remove. destruct (Canonical raw); [|by apply same_reg_refl].
  destruct (byURL (cur r) !! _) as [l|] eqn:Hl; [|by apply same_reg_refl]. apply drain_same; [done|].
  apply Hw in Hl as [Hl _]. by apply Hw.
Qed.

Lemma add_all_grew ss : ∀ cs r, reg_wf r → ∃ la, grew r (add_all Canonical ss cs r).2 la.
Proof.
  induction ss as [|s ss IH]; intros cs r Hw; cbn; [exists []; by apply same_grew, same_reg_refl|].
  destruct (Add_grew s r Hw) as [la Hg]. destruct (Registry.Add Canonical s r) as [[o err] r']. cbn [snd] in Hg.
  destruct err as [[]|]; [by exists la|..].
  all: match goal with |- context [add_all _ _ ?c _] => destruct (IH c r' (gr_wf _ _ _ Hg)) as [lb Hg'] end.
  all: exists (la ++ lb); by eapply grew_trans.
Qed.

Lemma drain_stale_same now want ls : ∀ r, reg_wf r → (∀ l, l ∈ ls → is_Some (Registry.store r !! l)) → same_reg r (drain_stale now want r ls).
Proof.
  unfold drain_stale. induction ls as [|l ls IH]; intros r Hw Hl; cbn [foldl]; [by apply same_reg_refl|].
  match goal with |- same_reg r (foldl _ ?x ls) => set (r1 := x) end. assert (same_reg r r1) as Hs.
  { subst r1. destruct (_ || _); [by apply same_reg_refl|]. destruct (want !! _); [by apply same_reg_refl|].
    apply drain_same; [done|]. apply Hl. by left. }
  eapply same_reg_trans; [exact Hs|]. apply IH; [apply (sr_wf _ _ Hs)|]. intros x Hx. apply (sr_store _ _ Hs), Hl. by right.
Qed.

Lemma Reconcile_grew now desired r : reg_wf r → ∃ la, grew r (ReconcileDiscovered Canonical worder now desired r).2 la.
Proof.
  intros Hw. unfold ReconcileDiscovered. destruct (build_want _ _ _) as [want|]; [|exists []; by apply same_grew, same_reg_refl].
  destruct (add_all_grew (worder want).*2 [] r Hw) as [la Hg]. destruct (add_all _ _ [] r) as [[cs|] r1]; cbn [snd] in *; [|by exists la].
  exists (la ++ []). eapply grew_trans; [exact Hg|]. apply same_grew, drain_stale_same; [apply (gr_wf _ _ _ Hg)|]. apply (rw_known _ (gr_wf _ _ _ Hg)).
Qed.

Lemma index_delete r r' url :
  reg_wf r → reg_wf r' → (∀ x, x ∈ Backends (cur r') ↔ url_of r x ≠ url ∧ x ∈ Backends (cur r)) →
  (∀ x, url_of r' x = url_of r x) → byURL (cur r') = delete url (byURL (cur r)).
Proof.
  intros Hw Hw' Hb Hu. apply map_eq. intros v. apply option_eq. intros x.
  rewrite (rw_index _ Hw'), Hb, Hu, lookup_delete_Some, (rw_index _ Hw). split.
  - intros [[Hx Hin] <-]. done.
  - intros (Hne & Hx & <-). done.
Qed.

Lemma awaitDrain_moves now i r : reg_wf r →
  let r' := awaitDrain now i r in
  same_reg r r' ∨
  ∃ l, reg_wf r' ∧ added r' = added r ∧ dropped r' = dropped r ++ [l] ∧ byURL (cur r') = delete (url_of r l) (byURL (cur r)) ∧
       Registry.store r' = Registry.store r.
Proof.
  intros Hw r'. pose proof (awaitDrain_wf Canonical now i r Hw) as Hw'. fold r' in Hw'. unfold r', awaitDrain in *.
  destruct (drainers r !! i) as [d|] eqn:Hd; [|left; by apply same_reg_refl].
  destruct (drain_done now d r); [|left; by apply same_reg_refl]. unfold unlink in *.
  change (cur (set_drainers _ r)) with (cur r) in *. change (url_of (set_drainers _ r)) with (url_of r) in *.
  destruct (byURL (cur r) !! url_of r (dr_b d)) as [l|] eqn:Hl.
  - right. exists (dr_b d). split_and!; [done|done|done| |done]. apply index_delete; [done|done| |done].
    intros x. rewrite <-(list_elem_of_filter (λ y, url_of r y ≠ url_of r (dr_b d)) _ x).
    match goal with |- x ∈ ?bs ↔ x ∈ ?fs => assert (bs ≡ₚ fs) as Hp by apply merge_sort_Permutation end. by rewrite Hp.
  - left. constructor; try done.
Qed.
End ops.

(** ** Running the callbacks *)

(** What a callback for a new backend does to a flow. *)
Record enrols (url : string) (l : positive) (f f' : Policy) : Prop := {
  en_known : AffinityPolicy.backends f' = <[url := l]> (AffinityPolicy.backends f);
  en_tree : tree_wf (ptree f) → same_tree (ptree f) (ptree f');
}.

Lemma AddBackend_enrols l st f : enrols (URL (st !!! l)) l f (AddBackend l (st, f)).2.
Proof.
  constructor; [done|]. intros Hwf. cbn [AddBackend snd ptree].
  assert (slotFor (URL (st !!! l)) (ptree f) = slotOrCreate (URL (st !!! l)) (ptree f)) as ->; [|by apply slotOrCreate_same].
  unfold slotOrCreate, slot, slotFor. by destruct (slots (ptree f) !! _).
Qed.

Section callbacks.
Context (order : gset AffinityTree.loc → list AffinityTree.loc) (Ho : ranges order).

Lemma OnAdd_spec p l : reg_wf (pl_reg p) →
  let p' := OnAdd p l in
  same_reg (pl_reg p) (pl_reg p') ∧ enrols (url_of (pl_reg p) l) l (pl_flow p) (pl_flow p') ∧
  (∀ f', pl_pdflow p' = Some f' → ∃ f, pl_pdflow p = Some f ∧ enrols (url_of (pl_reg p) l) l f f') ∧
  pl_pd p' = pl_pd p ∧ pl_split p' = pl_split p ∧ (is_Some (pl_pdflow p') ↔ is_Some (pl_pdflow p)).
Proof.
  intros Hw. cbn zeta. unfold OnAdd. pose proof (AddBackend_enrols l (Registry.store (pl_reg p)) (pl_flow p)) as H1.
  cbn [AddBackend] in *. set (f1 := MkPolicy _ _ _ _ _) in *.
  assert (Hs1 : ∀ h, same_reg (pl_reg p) (set_store (alter (SetHardTTFT h) l (Registry.store (pl_reg p))) (pl_reg p))).
  { intros h. by apply same_reg_alter. }
  destruct (pl_pdflow p) as [pf|] eqn:Hpf; cbn [pl_reg pl_flow pl_pdflow pl_pd pl_split].
  - set (st := alter _ l (Registry.store (pl_reg p))) in *. split_and!; try done.
    + eapply same_reg_trans; [apply Hs1|]. apply (same_reg_alter (SetHardTTFT (TTFTHard (AffinityPolicy.cfg pf))) l (set_store st (pl_reg p))); [done|].
      apply (sr_wf _ _ (Hs1 _)).
    + intros f' [= <-]. exists pf. split; [done|]. pose proof (AddBackend_enrols l st pf) as H2. cbn [AddBackend snd] in H2.
      assert (URL (st !!! l) = url_of (pl_reg p) l) as He by apply (sr_url _ _ (Hs1 _) l). by rewrite He in *.
  - split_and!; try done.
Qed.

(** A run of [OnAdd]: each flow enrols the new backends in order. *)
Record enrolled (r : Registry.Registry) (la : list positive) (f f' : Policy) : Prop := {
  ed_known : AffinityPolicy.backends f' = foldl (λ m l, <[url_of r l := l]> m) (AffinityPolicy.backends f) la;
  ed_tree : tree_wf (ptree f) → same_tree (ptree f) (ptree f');
}.

Lemma adds_spec la : ∀ p, reg_wf (pl_reg p) →
  let p' := foldl OnAdd p la in
  same_reg (pl_reg p) (pl_reg p') ∧ enrolled (pl_reg p) la (pl_flow p) (pl_flow p') ∧
  (∀ f', pl_pdflow p' = Some f' → ∃ f, pl_pdflow p = Some f ∧ enrolled (pl_reg p) la f f') ∧
  pl_pd p' = pl_pd p ∧ pl_split p' = pl_split p ∧ (is_Some (pl_pdflow p') ↔ is_Some (pl_pdflow p)).
Proof.
  assert (Hnil : ∀ r f, enrolled r [] f f) by (intros r f; constructor; [done|apply same_tree_refl]).
  assert (Hcons : ∀ r r' l la f f1 f2, same_reg r r' → enrols (url_of r l) l f f1 → enrolled r' la f1 f2 → enrolled r (l :: la) f f2).
  { intros r r' l ls f f1 f2 Hr [Hk Ht] [Hk' Ht']. constructor.
    - rewrite Hk', Hk. cbn [foldl]. apply foldl_insert_ext. intros x _. apply (sr_url _ _ Hr).
    - intros Hwf. pose proof (Ht Hwf) as H1. eapply same_tree_trans; [exact H1|]. apply Ht', (st_wf _ _ H1). }
  induction la as [|l la IH]; intros p Hw; cbn [foldl].
  - split_and!; [by apply same_reg_refl|apply Hnil| |done|done|done]. intros f' Hf'. by exists f'.
  - destruct (OnAdd_spec p l Hw) as (Hs & Hf & Hpf & Hpd & Hsp & Hsome). set (p1 := OnAdd p l) in *.
    destruct (IH p1 (sr_wf _ _ Hs)) as (Hs' & Hf' & Hpf' & Hpd' & Hsp' & Hsome'). split_and!.
    + by eapply same_reg_trans.
    + by eapply Hcons.
    + intros f2 Hf2. destruct (Hpf' _ Hf2) as (f1 & Hf1 & He'). destruct (Hpf _ Hf1) as (f & Hf0 & He). exists f. split; [done|by eapply Hcons].
    + congruence.
    + congruence.
    + by rewrite Hsome'.
Qed.

Lemma enrolled_follows r r' la f f' :
  grew r r' la → follows r f → enrolled r' la f f' → follows r' f'.
Proof.
  intros Hg [Ht Hk Hgh] [Hk' Ht']. pose proof (Ht' Ht) as Hs. constructor; [apply (st_wf _ _ Hs)|by rewrite Hk', Hk, (gr_index _ _ _ Hg)|].
  intros url k q Hn. rewrite (st_view _ _ Hs). apply Hgh. rewrite (gr_index _ _ _ Hg) in Hn. by eapply foldl_insert_None.
Qed.

Lemma follow_grew p r la : pool_wf p → grew (pl_reg p) r la → pool_wf (follow order r p) ∧ same_reg r (pl_reg (follow order r p)).
Proof.
  intros Hp Hg. unfold follow. rewrite (gr_added _ _ _ Hg), (gr_dropped _ _ _ Hg), drop_app_length, drop_all. cbn [foldl].
  destruct (adds_spec la (set_reg r p) (gr_wf _ _ _ Hg)) as (Hs & Hf & Hpf & Hpd & Hsp & Hsome). cbn [pl_reg set_reg pl_flow pl_pdflow pl_pd pl_split] in *.
  split; [|done]. constructor.
  - apply (sr_wf _ _ Hs).
  - eapply follows_same; [apply (sr_cur _ _ Hs)|]. eapply enrolled_follows; [done|apply (pw_flow _ Hp)|done].
  - intros f' Hf'. destruct (Hpf _ Hf') as (f & Hf0 & He). eapply follows_same; [apply (sr_cur _ _ Hs)|].
    eapply enrolled_follows; [done|by apply (pw_pdflow _ Hp)|done].
  - rewrite Hpd, Hsome. apply (pw_roles _ Hp).
  - rewrite Hpd, Hsp. apply (pw_exclusive _ Hp).
Qed.

(** A dropped backend leaves nothing behind in a flow. *)
Lemma DropBackend_follows r r' l f :
  byURL (cur r') = delete (url_of r l) (byURL (cur r)) → Registry.store r' = Registry.store r →
  follows r f → follows r' (DropBackend (Registry.store r') order l f).
Proof.
  intros Hi Hst [Ht Hk Hg]. assert (URL (Registry.store r' !!! l) = url_of r l) as Hu by (by rewrite Hst).
  destruct (dropBackend_spec order (url_of r l) (ptree f) Ho Ht) as (Hwf & _ & Hv & _).
  constructor; unfold DropBackend; cbn [ptree AffinityPolicy.backends]; rewrite Hu; [done|by rewrite Hi, Hk|].
  intros url k q Hn. rewrite Hv. rewrite Hi in Hn. apply lookup_delete_None in Hn as [<-|Hn].
  - by rewrite bool_decide_eq_false_2, andb_false_r by tauto.
  - by rewrite Hg.
Qed.

Lemma follow_dropped p r l :
  pool_wf p → reg_wf r → added r = added (pl_reg p) → dropped r = dropped (pl_reg p) ++ [l] →
  byURL (cur r) = delete (url_of (pl_reg p) l) (byURL (cur (pl_reg p))) → Registry.store r = Registry.store (pl_reg p) →
  pool_wf (follow order r p).
Proof.
  intros Hp Hw Ha Hd Hi Hst. unfold follow. rewrite Ha, Hd, drop_all, drop_app_length. cbn [foldl]. unfold OnDrop.
  cbn [set_reg pl_reg pl_flow pl_pdflow pl_pd pl_split]. constructor; cbn [pl_reg pl_flow pl_pdflow pl_pd pl_split].
  - done.
  - by eapply DropBackend_follows; [..|apply (pw_flow _ Hp)].
  - intros f' (f & Hf & ->)%fmap_Some. eapply DropBackend_follows; [done|done|by apply (pw_pdflow _ Hp)].
  - rewrite fmap_is_Some. apply (pw_roles _ Hp).
  - apply (pw_exclusive _ Hp).
Qed.
End callbacks.

(** ** Selecting leaves every view as it was *)

Lemma select_same st now sha256 morder ds p cands rr :
  tree_wf (ptree p) → same_tree (ptree p) (o_tree (Select st now sha256 morder ds p cands rr)).
Proof.
  intros Hwf.
  assert (Hvia : ∀ tier mark cs r t, o_tree (via st ds tier mark cs r t) = t).
  { intros. unfold via. by destruct (fallback _ _ _). }
  assert (Hq : ∀ w t, tree_wf t → same_tree t (queueTarget st sha256 ds w rr t).2).
  { intros w t Ht. unfold queueTarget. destruct w as [|c w]; [by apply same_tree_refl|]. destruct (Units rr); [by apply same_tree_refl|].
    pose proof (resolve_spec st (c :: w) t Ht) as H. destruct (resolve st (c :: w) t) as [ss t']. destruct H as [H _].
    destruct (_ || _); [done|]. by destruct (holding _ _ _). }
  unfold Select. destruct cands as [|c cs]; [by apply same_tree_refl|].
  set (us := usable _). pose proof (resolve_spec st us (ptree p) Hwf) as H. destruct (resolve st us (ptree p)) as [ss t]. destruct H as [H _].
  destruct (bool_decide (us = [])).
  { pose proof (Hq (waitable (triage_all st now p (c :: cs))) t (st_wf _ _ H)) as Ht.
    destruct (queueTarget _ _ _ _ _ _) as [[l|] t']; by eapply same_tree_trans. }
  destruct (bool_decide (Units rr = [])); [by rewrite Hvia|]. cbv zeta.
  destruct (CostRouting _); [by destruct (selectByCost _ _ _ _ _ _)|].
  match goal with |- context [saturated_holder ?h ?rs ?g t] => pose proof (saturated_holder_spec h rs g t (st_wf _ _ H)) as Hs;
    destruct (saturated_holder h rs g t) as [g' t'] end.
  assert (same_tree (ptree p) t') as Hp by (by eapply same_tree_trans).
  match goal with |- context [bool_decide (pool_ ?b ≠ [])] => destruct (bool_decide (pool_ b ≠ [])) end; [by rewrite Hvia|].
  match goal with |- context [negb (Empty (AffinityTree.held ?a))] => destruct (negb (Empty (AffinityTree.held a))) end; [|by rewrite Hvia].
  match goal with |- context [relieve st now ds ?c ?d ?e ?f ?g ?h ?i ?j ?k] =>
    destruct (relieve_cases st now sha256 ds c d e f g h i j k) as [[_ ->]|[(_ & _ & ->)|[(_ & _ & _ & ->)|[(_ & _ & _ & ->)|(_ & _ & _ & ->)]]]] end;
    by rewrite ?Hvia.
Qed.

(** ** Histories *)

Section history.
Context (u : Unicode) (Canonical : string → option string).
Context (worder : gmap string Spec → list (string * Spec)).
Context (order : gset AffinityTree.loc → list AffinityTree.loc) (Ho : ranges order).
Context (sha256 : bytes → bytes).

(** What requests and tickers do to one flow of the pool [p]: commits are for published
    backends. *)
Inductive flow_step (p : Pool) : Policy → Policy → Prop :=
  | FsSelect now morder ds cands rr f :
      flow_step p f (set_tree (o_tree (Select (Registry.store (pl_reg p)) now sha256 morder ds f cands rr)) f)
  | FsCommit now l rr f : l ∈ Backends (cur (pl_reg p)) → flow_step p f (Commit (Registry.store (pl_reg p)) now sha256 l rr f)
  | FsSweep now f : flow_step p f (Sweep now order f).2
  | FsFlush f : flow_step p f (Flush f)
  | FsRefused now b f : flow_step p f (OnRefused now b f)
  | FsAccepted b f : flow_step p f (OnAccepted b f).

Definition set_flow (f : Policy) (p : Pool) : Pool :=
  MkPool (pl_Name p) (pl_reg p) f (pl_split p) (pl_pd p) (pl_pdflow p) (pl_checker p).
Definition set_pdflow (f : Policy) (p : Pool) : Pool :=
  MkPool (pl_Name p) (pl_reg p) (pl_flow p) (pl_split p) (pl_pd p) (Some f) (pl_checker p).

Inductive pool_step : Pool → Pool → Prop :=
  | PsAdd s p : pool_step p (pool_Add Canonical order s p).2
  | PsRemove now raw p : pool_step p (pool_Remove Canonical order now raw p).2
  | PsDrain now i p : pool_step p (pool_awaitDrain order now i p)
  | PsReconcile now desired p : pool_step p (pool_Reconcile Canonical worder order now desired p).2
  | PsProbes now probe porder p : pool_step p (run_probes now probe porder p)
  | PsSweep now p : pool_step p (run_sweep order now p)
  | PsPDSweep now p : pool_step p (run_pd_sweep order now p)
  | PsBackend g l p : (∀ b, URL (g b) = URL b) →      (* leases, breakers, latencies *)
      pool_step p (set_reg (set_store (alter g l (Registry.store (pl_reg p))) (pl_reg p)) p)
  | PsFlow f p : flow_step p (pl_flow p) f → pool_step p (set_flow f p)
  | PsPDFlow f0 f p : pl_pdflow p = Some f0 → flow_step p f0 f → pool_step p (set_pdflow f p).

Lemma flow_step_follows p f f' : reg_wf (pl_reg p) → follows (pl_reg p) f → flow_step p f f' → follows (pl_reg p) f'.
Proof.
  intros Hw [Ht Hk Hg] Hs. destruct Hs as [now morder ds cands rr f|now l rr f Hl|now f|f|now b f|b f]; constructor; try done.
  - apply (st_wf _ _ (select_same _ _ _ _ _ _ _ _ Ht)).
  - intros url k q Hn. cbn [set_tree ptree]. rewrite (st_view _ _ (select_same _ _ _ _ _ _ _ _ Ht)). by apply Hg.
  - apply (commit_core (Registry.store (pl_reg p)) now sha256 l rr f Ht).
  - unfold Commit. destruct (bool_decide _); [done|]. destruct (PolicyState rr) as [[]|]; [|done|]; by destruct (slotOrCreate _ _).
  - intros url k q Hn. destruct (commit_core (Registry.store (pl_reg p)) now sha256 l rr f Ht) as (_ & _ & _ & ->).
    rewrite Hg by done. cbn. apply bool_decide_eq_false_2. intros (_ & -> & _).
    assert (byURL (cur (pl_reg p)) !! url_of (pl_reg p) l = Some l) as He by (by apply (rw_index _ Hw)). unfold url_of in He. congruence.
  - unfold Sweep. pose proof (sweep_spec order now (ptree f) Ho Ht) as H. destruct (sweep order now (ptree f)). apply H.
  - intros url k q Hn. unfold Sweep. pose proof (sweep_spec order now (ptree f) Ho Ht) as H. destruct (sweep order now (ptree f)) as [n t'].
    destruct H as (_ & Hv & _). cbn [snd set_tree ptree]. apply not_true_is_false. intros Hx%Hv. by rewrite Hg in Hx.
  - by apply flush_spec.
  - intros url k q Hn. by apply flush_spec.
Qed.

Lemma probes_same now probe porder p : reg_wf (pl_reg p) → same_reg (pl_reg p) (pl_reg (run_probes now probe porder p)).
Proof.
  intros Hw. unfold run_probes, Round. destruct (due_targets _ _ _ _) as [ts c]. set (r := pl_reg p) in *.
  assert (H : ∀ ls c r, reg_wf r → same_reg r (set_store (foldl (λ w l, observe l (probe l) w) (c, Registry.store r) ls).2 r)).
  { clear. induction ls as [|l ls IH]; intros c r Hw; cbn [foldl]; [cbn [snd]; rewrite set_store_id; by apply same_reg_refl|].
    unfold observe at 2. set (g := SetHealth _). pose proof (same_reg_alter g l r (λ b, eq_refl) Hw) as H1.
    eapply same_reg_trans; [exact H1|]. pose proof (λ c, IH c (set_store (alter g l (Registry.store r)) r) (sr_wf _ _ H1)) as H2. cbn [Registry.store set_store] in H2. exact (H2 _). }
  pose proof (H (porder ts) c r Hw) as H'. by destruct (foldl _ _ _) as [c' st'].
Qed.

Lemma pool_same p r c : pool_wf p → same_reg (pl_reg p) r →
  pool_wf (MkPool (pl_Name p) r (pl_flow p) (pl_split p) (pl_pd p) (pl_pdflow p) c).
Proof.
  intros Hp Hs. constructor; cbn [pl_reg pl_flow pl_pdflow pl_pd pl_split].
  - apply (sr_wf _ _ Hs).
  - apply (follows_same _ _ _ (sr_cur _ _ Hs)), (pw_flow _ Hp).
  - intros f Hf. by apply (follows_same _ _ _ (sr_cur _ _ Hs)), (pw_pdflow _ Hp).
  - apply (pw_roles _ Hp).
  - apply (pw_exclusive _ Hp).
Qed.

Lemma pool_Add_wf s p : pool_wf p → pool_wf (pool_Add Canonical order s p).2.
Proof.
  intros Hp. unfold pool_Add. destruct (Add_grew Canonical s (pl_reg p) (pw_reg _ Hp)) as [la Hg].
  destruct (Registry.Add Canonical s (pl_reg p)) as [res r]. by eapply follow_grew.
Qed.

Lemma pool_step_wf p p' : pool_wf p → pool_step p p' → pool_wf p'.
Proof.
  intros Hp Hs. pose proof (pw_reg _ Hp) as Hw. destruct Hs as [s p|now raw p|now i p|now desired p|now probe porder p|now p|now p|g l p Hgu|f p Hf|f0 f p H0 Hf].
  - by apply pool_Add_wf.
  - unfold pool_Remove. pose proof (Remove_same Canonical now raw (pl_reg p) Hw) as Hs.
    destruct (Registry.Remove Canonical now raw (pl_reg p)) as [ok r]. eapply follow_grew; [done|by apply same_grew].
  - unfold pool_awaitDrain. destruct (awaitDrain_moves Canonical now i (pl_reg p) Hw) as [Hs|(l & Hw' & Ha & Hd & Hi & Hst)].
    + eapply follow_grew; [done|by apply same_grew].
    + by eapply follow_dropped.
  - unfold pool_Reconcile. destruct (Reconcile_grew Canonical worder now desired (pl_reg p) Hw) as [la Hg].
    destruct (ReconcileDiscovered _ _ _ _ _) as [o r]. by eapply follow_grew.
  - pose proof (probes_same now probe porder p Hw) as Hs. unfold run_probes in *. destruct (Round _ _ _ _ _) as [c st]. by apply pool_same.
  - destruct Hp as [_ Hfl Hpd Hro Hex]. constructor; try done. cbn [run_sweep pl_reg pl_flow].
    eapply flow_step_follows; [done|done|apply FsSweep].
  - destruct Hp as [_ Hfl Hpd Hro Hex]. constructor; cbn [run_pd_sweep pl_reg pl_flow pl_pdflow pl_pd pl_split]; [done|done| | |done].
    + intros f' (f & Hf & ->)%fmap_Some. eapply flow_step_follows; [done|by apply Hpd|apply FsSweep].
    + by rewrite fmap_is_Some.
  - apply pool_same; [done|]. by apply same_reg_alter.
  - destruct Hp as [_ Hfl Hpd Hro Hex]. constructor; try done. by apply (flow_step_follows p (pl_flow p)).
  - destruct Hp as [_ Hfl Hpd Hro Hex]. constructor; try done; cbn [set_pdflow pl_reg pl_pdflow pl_pd].
    + intros ? [= <-]. apply (flow_step_follows p f0); [done|by apply Hpd|done].
    + rewrite Hro, H0. split; intros _; by eexists.
Qed.
End history.

(** ** Construction *)

(** Backends that differ in the hard limit alone. *)
Definition alike (b b' : Backend) : Prop := ∃ h, b' = SetHardTTFT h b.

Section construction.
Context (u : Unicode) (Canonical : string → option string).
Context (order : gset AffinityTree.loc → list AffinityTree.loc).
Context (canon_idem : ∀ raw c, Canonical raw = Some c → Canonical c = Some c).

(** What an admitted backend looks like: static, in service, its breaker closed. *)
Record fresh_static (passive : Prop) (x : Backend) : Prop := {
  fs_prov : Prov x = ProvStatic;
  fs_draining : draining x = false;
  fs_closed : state (CB x) = Closed;
  fs_health : health x = Healthy ∧ passive ∨ health x = Unknown ∧ ¬ passive;
}.

Lemma fresh_available passive x now : fresh_static passive x → Available now x = true ↔ passive.
Proof.
  intros [_ Hd Hc Hh]. unfold Available, State_. rewrite Hd, Hc. cbn. rewrite andb_true_r.
  destruct Hh as [[-> ?]|[-> ?]]; cbn; naive_solver.
Qed.

(** A store update that leaves each backend's outward state as it was. *)
Record kept (st st' : gmap positive Backend) : Prop := {
  kp_dom l : is_Some (st' !! l) ↔ is_Some (st !! l);
  kp_at l x' : st' !! l = Some x' → ∃ x, st !! l = Some x ∧
    Prov x' = Prov x ∧ draining x' = draining x ∧ CB x' = CB x ∧ health x' = health x;
}.

Lemma kept_refl st : kept st st.
Proof. constructor; [done|]. intros l x Hx. by exists x. Qed.
Lemma kept_trans a b c : kept a b → kept b c → kept a c.
Proof.
  intros [Hd1 Ha1] [Hd2 Ha2]. constructor; [intros l; by rewrite Hd2, Hd1|].
  intros l x'' Hx. destruct (Ha2 _ _ Hx) as (x' & Hx' & ? & ? & ? & ?). destruct (Ha1 _ _ Hx') as (x & ? & ? & ? & ? & ?).
  exists x. split; [done|]. split_and!; congruence.
Qed.
Lemma kept_hard h l st : kept st (alter (SetHardTTFT h) l st).
Proof.
  constructor; [intros x; by rewrite lookup_alter_is_Some|]. intros x b'.
  rewrite lookup_alter_Some. intros [[<- (b & Hb & ->)]|[_ Hb]]; [by exists b|by exists b'].
Qed.

Lemma OnAdd_kept p l : kept (Registry.store (pl_reg p)) (Registry.store (pl_reg (OnAdd p l))).
Proof.
  unfold OnAdd. cbn [AddBackend]. destruct (pl_pdflow p); cbn [pl_reg set_store Registry.store]; [|apply kept_hard].
  eapply kept_trans; apply kept_hard.
Qed.
Lemma adds_kept la : ∀ p, kept (Registry.store (pl_reg p)) (Registry.store (pl_reg (foldl OnAdd p la))).
Proof.
  induction la as [|l la IH]; intros p; cbn; [apply kept_refl|]. eapply kept_trans; [apply OnAdd_kept|apply IH].
Qed.
Lemma follow_kept r p : kept (Registry.store r) (Registry.store (pl_reg (follow order r p))).
Proof.
  unfold follow. generalize (drop (List.length (dropped (pl_reg p))) (dropped r)) as ds.
  assert (∀ ds p, pl_reg (foldl (OnDrop order) p ds) = pl_reg p) as Hd.
  { induction ds as [|d ds IH]; intros q; cbn; [done|by rewrite IH]. }
  intros ds. rewrite Hd. apply (adds_kept _ (set_reg r p)).
Qed.

(** The published backends after the static ones in [bs] are admitted. *)
Definition admitted_view (bs : list PBackend) (r : Registry.Registry) : Prop :=
  (∀ v, is_Some (Registry.view r v) ↔ ∃ b, b ∈ bs ∧ Canonical (pb_URL b) = Some v) ∧
  ∀ v x, Registry.view r v = Some x →
    fresh_static (∃ b, b ∈ bs ∧ pb_Passive b = true ∧ Canonical (pb_URL b) = Some v) x.

Lemma view_kept r r' v x' : cur r' = cur r → kept (Registry.store r) (Registry.store r') → Registry.view r' v = Some x' →
  ∃ x, Registry.view r v = Some x ∧ Prov x' = Prov x ∧ draining x' = draining x ∧ CB x' = CB x ∧ health x' = health x.
Proof.
  intros Hc [_ Hk]. unfold Registry.view. rewrite Hc. destruct (byURL (cur r) !! v) as [l|]; [|done]. cbn. apply Hk.
Qed.

Lemma view_dom r v : reg_wf r → is_Some (Registry.view r v) ↔ is_Some (byURL (cur r) !! v).
Proof.
  intros Hw. unfold Registry.view. destruct (byURL (cur r) !! v) as [l|] eqn:Hl; cbn; [|done].
  apply Hw in Hl as [Hl _]. split; [by eexists|intros _; by apply Hw].
Qed.

Lemma fresh_static_iff P Q x : (P ↔ Q) → fresh_static P x → fresh_static Q x.
Proof. intros H [? ? ? Hh]. constructor; [done..|]. rewrite <-H. tauto. Qed.

(** What [enlist] does to the backend it admitted. *)
Definition enlist_touch (passive : bool) (x : Backend) : Backend :=
  let x := MkBackend (URL x) (DialectID x) (HealthMod x) (Prov x) (bmeta x) (OnTransition (CB x)) (draining x)
             (health x) (load x) (lat x) (bwaiters x) in
  if passive then SetHealth Healthy x else x.

Lemma enlist_spec c bs p b :
  pool_wf p → admitted_view bs (pl_reg p) →
  match Canonical (pb_URL b) with
  | None => enlist Canonical order c (inl p) b = inr (EBackend (pb_URL b) ErrBadURL)
  | Some _ => ∃ p', enlist Canonical order c (inl p) b = inl p' ∧ pool_wf p' ∧ admitted_view (bs ++ [b]) (pl_reg p')
  end.
Proof.
  intros Hp [Hdom Hview]. pose proof (pw_reg _ Hp) as Hw. unfold enlist, pool_Add. cbv beta match.
  destruct (Canonical (pb_URL b)) as [canon|] eqn:Hc.
  2: { unfold Registry.Add. cbn [sURL spec_of]. rewrite Hc. reflexivity. }
  destruct (Add_grew Canonical (spec_of c b) (pl_reg p) Hw) as [la Hg].
  pose proof (Add_view Canonical (spec_of c b) canon (pl_reg p) Hw Hc) as Hv.
  destruct (Registry.Add Canonical (spec_of c b) (pl_reg p)) as [[o err] r1]. cbn [snd] in Hg.
  destruct Hv as (Hv & -> & Ho & [l ->] & _ & _ & Hw1).
  assert (conflicts_at (spec_of c b) (Registry.view (pl_reg p) canon) = false) as ->.
  { unfold conflicts_at. destruct (Registry.view _ _); [|done]. cbn [sProv spec_of]. by rewrite (bool_decide_eq_false_2 (ProvStatic = ProvDiscovered)), andb_false_r. }
  destruct (follow_grew order p r1 la Hp Hg) as [Hp1 Hs1]. pose proof (follow_kept r1 p) as Hk. set (p1 := follow order r1 p) in *.
  pose proof (pw_reg _ Hp1) as Hwp1.
  eexists. split; [reflexivity|].
  match goal with |- context [if pb_Passive b then alter ?f ?i ?x else ?y] =>
    assert ((if pb_Passive b then alter f i x else y) = alter (enlist_touch (pb_Passive b)) l (Registry.store (pl_reg p1))) as -> by
      (unfold enlist_touch; destruct (pb_Passive b); [by rewrite alter_alter_eq|reflexivity]) end.
  assert (Hgu : ∀ x, URL (enlist_touch (pb_Passive b) x) = URL x) by (intros x; unfold enlist_touch; by destruct (pb_Passive b)).
  split.
  { apply (pool_same p1); [done|]. by apply same_reg_alter. }
  assert (Hl : byURL (cur (pl_reg p1)) !! canon = Some l) by (by rewrite (sr_cur _ _ Hs1)).
  set (r2 := set_store _ _).
  assert (Hv2 : ∀ v, Registry.view r2 v = (if decide (v = canon) then enlist_touch (pb_Passive b) <$> Registry.view (pl_reg p1) canon
                                         else Registry.view (pl_reg p1) v)).
  { intros v. by apply view_alter. }
  assert (Hin : ∀ v, (∃ b', b' ∈ bs ++ [b] ∧ Canonical (pb_URL b') = Some v) ↔ v = canon ∨ ∃ b', b' ∈ bs ∧ Canonical (pb_URL b') = Some v).
  { intros v. setoid_rewrite elem_of_app. setoid_rewrite list_elem_of_singleton. split.
    - intros (b' & [?| ->] & ?); [right; eauto|left; congruence].
    - intros [->|(b' & ? & ?)]; eauto. }
  cbn [set_reg pl_reg]. fold r2. split.
  - intros v. rewrite Hin, <-Hdom. rewrite Hv2.
    assert (is_Some (Registry.view (pl_reg p1) v) ↔ is_Some (Registry.view r1 v)) as Hd1.
    { rewrite !view_dom by done. by rewrite (sr_cur _ _ Hs1). }
    destruct (decide (v = canon)) as [->|Hne].
    + rewrite fmap_is_Some, Hd1, Hv, decide_True by done. split; [by left|intros _]. unfold upsert. destruct (Registry.view (pl_reg p) canon); [|by eexists].
      destruct (_ && _); by eexists.
    + rewrite Hd1, Hv, decide_False by done. tauto.
  - intros v x2. rewrite Hv2. destruct (decide (v = canon)) as [->|Hne].
    + intros (x1 & Hx1 & ->)%fmap_Some.
      destruct (view_kept r1 (pl_reg p1) canon x1 (sr_cur _ _ Hs1) Hk Hx1) as (x & Hx & HP & HD & HC & HH).
      rewrite Hv, decide_True in Hx by done.
      assert (Hf : fresh_static (∃ b', b' ∈ bs ∧ pb_Passive b' = true ∧ Canonical (pb_URL b') = Some canon) x).
      { destruct (Registry.view (pl_reg p) canon) as [x0|] eqn:H0; cbn [upsert] in Hx.
        - rewrite (bool_decide_eq_false_2 (sProv (spec_of c b) = ProvDiscovered)), andb_false_r in Hx by done. injection Hx as <-.
          destruct (Hview _ _ H0) as [? ? ? ?]. by constructor.
        - injection Hx as <-. constructor; [done|done|done|]. right. split; [done|]. intros (b' & Hb' & _ & Hcb').
          assert (is_Some (Registry.view (pl_reg p) canon)) as [? ?] by (apply Hdom; eauto). congruence. }
      destruct Hf as [H1 H2 H3 H4]. rewrite <-HP in H1. rewrite <-HD in H2. rewrite <-HC in H3. rewrite <-HH in H4.
      assert (Hpas : (∃ b', b' ∈ bs ++ [b] ∧ pb_Passive b' = true ∧ Canonical (pb_URL b') = Some canon) ↔
                     pb_Passive b = true ∨ ∃ b', b' ∈ bs ∧ pb_Passive b' = true ∧ Canonical (pb_URL b') = Some canon).
      { setoid_rewrite elem_of_app. setoid_rewrite list_elem_of_singleton. split.
        - intros (b' & [?| ->] & ? & ?); [right; eauto|by left].
        - intros [?|(b' & ? & ? & ?)]; eauto 10. }
      apply (fresh_static_iff _ _ _ (iff_sym Hpas)). unfold enlist_touch. destruct (pb_Passive b); constructor; cbn; try done.
      * left. split; [done|by left].
      * destruct H4 as [[? ?]|[? Hn]]; [left; split; [done|by right]|right; split; [done|]]. intros [?|?]; [done|by apply Hn].
    + intros Hx1. destruct (view_kept r1 (pl_reg p1) v x2 (sr_cur _ _ Hs1) Hk Hx1) as (x & Hx & HP & HD & HC & HH).
      rewrite Hv, decide_False in Hx by done. destruct (Hview _ _ Hx) as [H1 H2 H3 H4].
      constructor; [congruence..|]. rewrite HH. setoid_rewrite elem_of_app. setoid_rewrite list_elem_of_singleton.
      destruct H4 as [[? (b' & ? & ? & ?)]|[? Hn]]; [left; split; [done|eauto 10]|right; split; [done|]].
      intros (b' & [?| ->] & ? & ?); [apply Hn; eauto|congruence].
Qed.
End construction.

(** ** The pool that [New] starts from *)

Section properties.
Context (u : Unicode) (Canonical : string → option string).
Context (worder : gmap string Spec → list (string * Spec)).
Context (order : gset AffinityTree.loc → list AffinityTree.loc) (Ho : ranges order).
Context (sha256 : bytes → bytes).
Context (canon_idem : ∀ raw c, Canonical raw = Some c → Canonical c = Some c).

Lemma fresh_follows r c : byURL (cur r) = ∅ → follows r (AffinityPolicy.New c).
Proof. intros He. constructor; [apply newTree_wf|by rewrite He|]. intros url k q _. done. Qed.

Lemma admits c bs : ∀ done p, pool_wf p → admitted_view Canonical done (pl_reg p) →
  match foldl (enlist Canonical order c) (inl p) bs with
  | inl p' => pool_wf p' ∧ admitted_view Canonical (done ++ bs) (pl_reg p')
  | inr e => ∃ b, b ∈ bs ∧ Canonical (pb_URL b) = None ∧ e = EBackend (pb_URL b) ErrBadURL
  end.
Proof.
  induction bs as [|b bs IH]; intros dn p Hp Hv; [by rewrite app_nil_r|]. cbn [foldl].
  pose proof (enlist_spec Canonical order c dn p b Hp Hv) as H. destruct (Canonical (pb_URL b)) as [canon|] eqn:Hc.
  - destruct H as (p' & -> & Hp' & Hv'). specialize (IH (dn ++ [b]) p' Hp' Hv'). rewrite <-app_assoc in IH.
    destruct (foldl _ (inl p') bs) as [p2|e]; [done|]. destruct IH as (b' & ? & ? & ?). exists b'. split; [by right|done].
  - rewrite H. assert (∀ l e, foldl (enlist Canonical order c) (inr e) l = inr e) as -> by (induction l; by cbn).
    exists b. split_and!; [by left|done|done].
Qed.

Lemma New_spec c :
  match New u Canonical order c with
  | inr ENoName => pc_Name c = ""%string
  | inr EExclusive => pc_PDPrefill c ≠ [] ∧ pc_PrefillSplit c ≠ None
  | inr (EBackend url e) => e = ErrBadURL ∧ ∃ b, b ∈ pc_Backends c ∧ pb_URL b = url ∧ Canonical url = None
  | inl p => pc_Name c ≠ ""%string ∧ pool_wf p ∧ admitted_view Canonical (pc_Backends c) (pl_reg p)
  end.
Proof.
  unfold New. destruct (bool_decide_reflect (pc_Name c = ""%string)) as [|Hn]; [done|].
  destruct (bool_decide_reflect (pc_PDPrefill c = [])) as [Hpd|Hpd]; cbn [negb andb].
  - match goal with |- context [foldl _ (inl ?x) _] => pose proof (admits c (pc_Backends c) [] x) as H end.
    destruct (foldl _ _ _) as [p|e].
    + split; [done|]. apply H; [|split; [|by intros v x]].
      * constructor; cbn [pl_reg pl_flow pl_pdflow pl_pd pl_split]; [apply (Registry.New_wf Circuit.DefaultConfig)|by apply fresh_follows|done|done|done].
      * intros v. split; [by intros [? ?]|]. by intros (b & ?%elem_of_nil & _).
    + destruct H as (b & ? & ? & ->); [| |by eauto].
      * constructor; cbn [pl_reg pl_flow pl_pdflow pl_pd pl_split]; [apply (Registry.New_wf Circuit.DefaultConfig)|by apply fresh_follows|done|done|done].
      * split; [|by intros v x]. intros v. split; [by intros [? ?]|]. by intros (b & ?%elem_of_nil & _).
  - destruct (bool_decide_reflect (pc_PrefillSplit c = None)) as [Hs|Hs]; cbn [negb]; [|done].
    match goal with |- context [foldl _ (inl ?x) _] => pose proof (admits c (pc_Backends c) [] x) as H; set (p0 := x) in * end.
    assert (pool_wf p0) as Hp0.
    { constructor; cbn [pl_reg pl_flow pl_pdflow pl_pd pl_split p0]; [apply (Registry.New_wf Circuit.DefaultConfig)|by apply fresh_follows| | |].
      - intros f [= <-]. by apply fresh_follows.
      - split; intros _; by eexists.
      - intros _. by rewrite Hs. }
    assert (admitted_view Canonical [] (pl_reg p0)) as Hv0.
    { split; [|by intros v x]. intros v. split; [by intros [? ?]|]. by intros (b & ?%elem_of_nil & _). }
    specialize (H Hp0 Hv0). destruct (foldl _ _ _) as [p|e]; [done|]. destruct H as (b & ? & ? & ->). eauto.
Qed.


End properties.

(** ** A concrete pool *)

Definition demo_unicode : Unicode := MkUnicode (λ s, s) (λ s, s) (λ s t, bool_decide (s = t)).
Definition demo_pool_cfg : PConfig :=
  MkPConfig "p" [MkPBackend "a" "m" "" "" 0 false false; MkPBackend "b" "m" "" "" 4 true false; MkPBackend "c" "m" "" "" 0 true false]
    (demo_config false) Health.DefaultConfig 1 "openai" 0 None ["a"%string] None.
Definition demo_pool : Pool :=
  match New demo_unicode demo_canonical elements demo_pool_cfg with
  | inl p => p
  | inr _ => MkPool "" (Registry.New Circuit.DefaultConfig 0) (AffinityPolicy.New (demo_config false)) None None None (Health.New Health.DefaultConfig)
  end.


(** "c" serves a request and leaves. *)
Definition demo_served : Pool :=
  set_flow (Commit (Registry.store (pl_reg demo_pool)) 5 demo_sha 3 demo_rr (pl_flow demo_pool)) demo_pool.
Definition demo_left : Pool :=
  pool_awaitDrain elements 100 0 (pool_Remove demo_canonical elements 10 "c" demo_served).2.

Lemma demo_left_reachable : rtc (pool_step demo_canonical map_to_list elements demo_sha) demo_pool demo_left.
Proof.
  eapply rtc_l; [apply PsFlow, (FsCommit _ _ _ 5 3 demo_rr)|].
  { vm_compute. right. right. left. }
  eapply rtc_l; [apply (PsRemove _ _ _ _ 10 "c"%string)|]. eapply rtc_l; [apply (PsDrain _ _ _ _ 100 0)|]. apply rtc_refl.
Qed.


(** The commits of the histories above are for published backends.  A request still running
    when its backend's drain ran out of time commits after the drop: the slot and the marks
    come back under an address that no backend has, and the next backend there inherits
    them. *)
Definition demo_late : Pool :=
  set_flow (Commit (Registry.store (pl_reg demo_left)) 101 demo_sha 3 demo_rr (pl_flow demo_left)) demo_left.
Definition demo_successor : Pool := (pool_Add demo_canonical elements (demo_spec "c" ProvDiscovered) demo_late).2.

Lemma late_commit_inherited :
  byURL (cur (pl_reg demo_late)) !! "c"%string = None ∧ 3%positive ∉ Backends (cur (pl_reg demo_late)) ∧
  byURL (cur (pl_reg demo_successor)) !! "c"%string = Some 4%positive ∧
  requests (load (Registry.store (pl_reg demo_successor) !!! 4%positive)) = 0 ∧
  TreeSpec.view (ptree (pl_flow demo_successor)) "c" (key_of demo_sha demo_rr) [1; 2] = true.
Proof.
  split_and!; [vm_compute; reflexivity| |vm_compute; reflexivity..].
  intros H. vm_compute in H. inversion H as [|? ? ? H1]; subst. inversion H1 as [|? ? ? H2]; subst. inversion H2.
Qed.
