(* ===== verification/Url.v ===== *)
(** * Url: the identity of a backend

    [Canonical], [ResolveURL] and [JoinBasePath] of
    [src/router/internal/registry/backend.go].  Parsing a URL and printing one back are the
    standard library's [net/url], arguments here; what the code relies on is that parsing
    a URL it has just put together gives back the pieces. *)

From stdpp Require Import base gmap list strings.
From Stdlib Require Import ZArith Lia Ascii String.
From S2P Require Import Prelude KvUnits StreamScan GoText Discovery.
Open Scope string_scope.
Open Scope Z_scope.

(** ** Text of a string *)

Definition text (b : bytes) : string := string_of_list_ascii ((λ c, ascii_of_nat (Z.to_nat c)) <$> b).

Lemma text_lit s : text (lit s) = s.
Proof.
  unfold text, lit. rewrite <-list_fmap_compose. rewrite <-(string_of_list_ascii_of_string s) at 2. f_equal.
  rewrite <-(list_fmap_id (list_ascii_of_string s)) at 2. apply list_fmap_ext. intros i c _. cbn. rewrite Nat2Z.id. apply ascii_nat_embedding.
Qed.

Lemma lit_app a b : lit (a ++ b) = (lit a ++ lit b)%list.
Proof. induction a as [|c a IH]; [done|]. rewrite append_cons. unfold lit in *. cbn [list_ascii_of_string fmap list_fmap app]. by rewrite IH. Qed.

Lemma lit_inj a b : lit a = lit b → a = b.
Proof. intros H. rewrite <-(text_lit a), <-(text_lit b). by rewrite H. Qed.

(** ** Parsed URLs *)

Record URL := MkURL { u_Scheme : string; u_Hostname : string; u_Port : string; u_EscapedPath : string; u_Path : string }.

Section url.
Context (u : Unicode) (parse : string → option URL).

Definition lowered (s : string) : string := text (ToLower u (lit s)).
Definition trimmed (s : string) : string := text (TrimSpace u (lit s)).
Definition no_slash (s : string) : string := text (TrimRight slash (lit s)).

Inductive url_error := EEmpty | EParse | EScheme | EHost.

Definition build (scheme host port path : string) : string := scheme ++ "://" ++ JoinHostPort host port ++ path.

Definition canonical (raw : string) : string + url_error :=
  let s := trimmed raw in
  if bool_decide (s = "") then inr EEmpty
  else
    let s := if Contains (lit s) (lit "://") then s else "http://" ++ s in
    match parse s with
    | None => inr EParse
    | Some p =>
        let scheme := lowered (u_Scheme p) in
        if negb (bool_decide (scheme = "http")) && negb (bool_decide (scheme = "https")) then inr EScheme
        else
          let host := lowered (u_Hostname p) in
          if bool_decide (host = "") then inr EHost
          else
            let port := if bool_decide (u_Port p = "") then if bool_decide (scheme = "https") then "443" else "80" else u_Port p in
            inl (build scheme host port (no_slash (u_EscapedPath p)))
    end.
Definition Canonical (raw : string) : option string := match canonical raw with inl c => Some c | inr _ => None end.

(** ** Requests of the router's own *)

Definition JoinBasePath (base path : string) : string :=
  let base := no_slash base in
  if bool_decide (base = "") then path
  else if hasPrefix (lit path) (lit "/v1/") then base ++ "/" ++ text (drop 4 (lit path))
  else base ++ path.

(** [with_path] is [u.Path = p; u.RawPath = ""; u.String()]. *)
Context (with_path : URL → string → string).

Definition ResolveURL (backendURL path : string) : string :=
  match parse backendURL with
  | None => no_slash backendURL ++ path
  | Some p => if bool_decide (u_Path p = "") || bool_decide (u_Path p = "/") then no_slash backendURL ++ path
              else with_path p (JoinBasePath (no_slash (u_Path p)) path)
  end.

(** [isRedundantV1] of [serve.go]. *)
Definition isRedundantV1 (raw : string) : bool :=
  match parse raw with None => false | Some p => bool_decide (no_slash (u_Path p) = "/v1") end.

(** ** Facts of the pieces *)

Lemma canonical_inv raw c : canonical raw = inl c → ∃ s p,
  parse s = Some p ∧ (lowered (u_Scheme p) = "http" ∨ lowered (u_Scheme p) = "https") ∧ lowered (u_Hostname p) ≠ "" ∧
  ∃ port, port ≠ "" ∧ (port = u_Port p ∨ u_Port p = "" ∧ port = (if bool_decide (lowered (u_Scheme p) = "https") then "443" else "80")) ∧
    c = build (lowered (u_Scheme p)) (lowered (u_Hostname p)) port (no_slash (u_EscapedPath p)).
Proof.
  unfold canonical. destruct (bool_decide _); [done|]. destruct (parse _) as [p|] eqn:Hp; [|done].
  destruct (negb _ && negb _) eqn:Hs; [done|]. destruct (bool_decide_reflect (lowered (u_Hostname p) = "")) as [|Hh]; [done|].
  intros [= <-]. eexists _, p. split_and!; [exact Hp| |done|].
  - apply andb_false_iff in Hs as [Hs%negb_false_iff%bool_decide_eq_true|Hs%negb_false_iff%bool_decide_eq_true]; auto.
  - eexists. split_and!; [| |reflexivity].
    + destruct (bool_decide_reflect (u_Port p = "")); [|done]. by destruct (bool_decide (lowered (u_Scheme p) = "https")).
    + destruct (bool_decide_reflect (u_Port p = "")); [by right|by left].
Qed.

Lemma Contains_app a b c : Contains (a ++ b ++ c)%list b = true.
Proof.
  assert (H : ∀ p r, hasPrefix (p ++ r)%list p = true).
  { induction p as [|x p IH]; intros r; cbn; [done|]. by rewrite Z.eqb_refl, IH. }
  induction a as [|x a IH]; cbn [app]; [|cbn [Contains]; by rewrite IH, orb_true_r].
  pose proof (H b c) as Hb. destruct (b ++ c)%list; cbn [Contains]; by rewrite Hb.
Qed.

(** ** What the code relies on of [net/url] and [strings] *)

(** A URL put together from the pieces of a parsed one parses into those pieces, and has no
    blanks around it; lowering twice is lowering once. *)
Record url_laws : Prop := {
  ul_back raw p scheme port : parse raw = Some p → lowered (u_Hostname p) ≠ "" → scheme = "http" ∨ scheme = "https" →
    port = u_Port p ∨ port = "80" ∨ port = "443" → port ≠ "" →
    let c := build scheme (lowered (u_Hostname p)) port (no_slash (u_EscapedPath p)) in
    trimmed c = c ∧ ∃ p', parse c = Some p' ∧ u_Scheme p' = scheme ∧ u_Hostname p' = lowered (u_Hostname p) ∧ u_Port p' = port ∧
      u_EscapedPath p' = no_slash (u_EscapedPath p);
  ul_lower s : lowered (lowered s) = lowered s;
}.

Lemma lit_range s : Forall (λ c, 0 ≤ c < 256) (lit s).
Proof.
  unfold lit. rewrite Forall_fmap, Forall_forall. intros a _. cbn. pose proof (nat_ascii_bounded a). lia.
Qed.
Lemma lit_text b : Forall (λ c, 0 ≤ c < 256) b → lit (text b) = b.
Proof.
  intros Hb. unfold lit, text. rewrite list_ascii_of_string_of_list_ascii, <-list_fmap_compose.
  rewrite <-(list_fmap_id b) at 2. apply list_fmap_ext. intros i c Hc. cbn.
  rewrite Forall_forall in Hb. assert (0 ≤ c < 256) by (by eapply Hb, list_elem_of_lookup_2).
  rewrite nat_ascii_embedding by lia. lia.
Qed.

Lemma drop_byte_sub c b x : x ∈ drop_byte c b → x ∈ b.
Proof. induction b as [|d b IH]; cbn; [done|]. destruct (d =? c); [intros ?; right; auto|done]. Qed.
Lemma drop_byte_idem c b : drop_byte c (drop_byte c b) = drop_byte c b.
Proof. induction b as [|d b IH]; cbn; [done|]. destruct (d =? c) eqn:E; [done|]. cbn. by rewrite E. Qed.

Lemma no_slash_lit s : lit (no_slash s) = TrimRight slash (lit s).
Proof.
  apply lit_text. rewrite Forall_forall. intros x Hx. unfold TrimRight in Hx. rewrite elem_of_reverse in Hx.
  apply drop_byte_sub in Hx. rewrite elem_of_reverse in Hx. pose proof (lit_range s) as H. rewrite Forall_forall in H. by apply H.
Qed.
Lemma no_slash_idem s : no_slash (no_slash s) = no_slash s.
Proof.
  apply lit_inj. rewrite !no_slash_lit. unfold TrimRight. by rewrite reverse_involutive, drop_byte_idem.
Qed.

Lemma build_form scheme host port path : build scheme host port path ≠ "" ∧ Contains (lit (build scheme host port path)) (lit "://") = true.
Proof.
  unfold build. split; [by destruct scheme|]. rewrite !lit_app. apply Contains_app.
Qed.

Lemma canonical_fixed raw c : url_laws → canonical raw = inl c → canonical c = inl c.
Proof.
  intros [Hback Hlow] (s & p & Hp & Hs & Hh & port & Hne & Hport & ->)%canonical_inv.
  set (scheme := lowered (u_Scheme p)) in *.
  destruct (Hback s p scheme port Hp Hh Hs) as (Ht & p' & Hp' & Hs' & Hh' & Hpo' & He'); [|done|].
  { destruct Hport as [->|[_ ->]]; [by left|]. right. destruct (bool_decide _); auto. }
  destruct (build_form scheme (lowered (u_Hostname p)) port (no_slash (u_EscapedPath p))) as [Hb Hc].
  set (c := build _ _ _ _) in *. unfold canonical. rewrite Ht, bool_decide_eq_false_2, Hc, Hp' by done.
  assert (Hsl : lowered scheme = scheme) by apply Hlow.
  rewrite Hs', Hh', Hpo', He', Hsl, Hlow, no_slash_idem.
  rewrite (bool_decide_eq_false_2 (lowered (u_Hostname p) = "")), (bool_decide_eq_false_2 (port = "")) by done.
  destruct Hs as [->| ->]; reflexivity.
Qed.

(** the identity of a backend is in normal form and stays put: an http or https scheme,
    a host and a port that are never empty, IPv6 literals bracketed, a base path without a
    trailing slash; and the identity of an identity is itself, so one backend is never
    registered under two names. *)
Theorem canonical_normal raw c :
  url_laws → Canonical raw = Some c →
  Canonical c = Some c ∧
  ∃ scheme host port path, c = build scheme host port path ∧ (scheme = "http" ∨ scheme = "https") ∧ host ≠ "" ∧ port ≠ "" ∧
    lowered host = host ∧ no_slash path = path.
Proof.
  intros Hl Hc. unfold Canonical in Hc. destruct (canonical raw) as [c'|] eqn:Hcr; [|done]. injection Hc as ->. split.
  - unfold Canonical. by rewrite (canonical_fixed raw c Hl Hcr).
  - apply canonical_inv in Hcr as (s & p & Hp & Hs & Hh & port & Hne & Hport & ->).
    eexists _, _, port, _. split; [reflexivity|]. split_and!; [done|done|done|apply Hl|apply no_slash_idem].
Qed.

(** a base path replaces the version segment of a request instead of stacking on it: a
    path under /v1 is moved under the base, a base that is itself /v1 changes nothing, a
    trailing slash of the base never doubles, and without a base the path is untouched. *)
Theorem base_path_replaces base path :
  (no_slash base = "" → JoinBasePath base path = path) ∧
  (no_slash base ≠ "" → JoinBasePath base ("/v1/" ++ path) = no_slash base ++ "/" ++ path) ∧
  JoinBasePath "/v1" ("/v1/" ++ path) = "/v1/" ++ path ∧
  (no_slash base ≠ "" → hasPrefix (lit path) (lit "/v1/") = false → JoinBasePath base path = no_slash base ++ path) ∧
  JoinBasePath (base ++ "/") path = JoinBasePath base path.
Proof.
  assert (Hv : ∀ b, no_slash b ≠ "" → JoinBasePath b ("/v1/" ++ path) = no_slash b ++ "/" ++ path).
  { intros b Hb. unfold JoinBasePath. rewrite bool_decide_eq_false_2 by done. rewrite lit_app.
    assert (hasPrefix (lit "/v1/" ++ lit path)%list (lit "/v1/") = true) as -> by reflexivity.
    change (drop 4 (lit "/v1/" ++ lit path)%list) with (lit path). by rewrite text_lit. }
  split_and!.
  - intros Hb. unfold JoinBasePath. by rewrite bool_decide_eq_true_2.
  - apply Hv.
  - rewrite Hv by done. reflexivity.
  - intros Hb Hn. unfold JoinBasePath. by rewrite bool_decide_eq_false_2, Hn.
  - unfold JoinBasePath. assert (no_slash (base ++ "/") = no_slash base) as ->; [|done].
    apply lit_inj. rewrite !no_slash_lit, lit_app. unfold TrimRight. rewrite reverse_app. reflexivity.
Qed.
End url.

(** ** A concrete parser, to try the definitions on *)

Module UrlEx.
Definition u : Unicode := MkUnicode (λ s, s) (λ s, s) (λ s t, bool_decide (s = t)).

(** Up to the first [c], and what follows it. *)
Fixpoint cut (c : Z) (b : bytes) : bytes * option bytes :=
  match b with
  | [] => ([], None)
  | d :: r => if d =? c then ([], Some r) else let '(x, y) := cut c r in (d :: x, y)
  end.
Definition plain (b : bytes) : bool := ascii b && negb (existsb is_blank b).

(** [scheme://host[:port][/path]], without blanks, user information or IPv6 literals. *)
Definition parse (s : string) : option URL :=
  let b := lit s in
  if negb (plain b) then None
  else match cut 58 b with
       | (sch, Some r) =>
           if hasPrefix r (lit "//") then
             let '(auth, path) := cut 47 (drop 2 r) in
             let path := match path with Some p => text (47 :: p) | None => "" end in
             let '(host, port) := cut 58 auth in
             Some (MkURL (text sch) (text host) (match port with Some p => text p | None => "" end) path path)
           else None
       | _ => None
       end.

Lemma cut_free c b : c ∉ (cut c b).1.
Proof.
  induction b as [|d b IH]; cbn; [by intros ?%elem_of_nil|]. destruct (Z.eqb_spec d c); [by intros ?%elem_of_nil|].
  destruct (cut c b) as [x y]. cbn in *. intros [->|?]%elem_of_cons; [done|by apply IH].
Qed.
Lemma cut_app c a r : c ∉ a → cut c (a ++ c :: r)%list = (a, Some r).
Proof.
  induction a as [|d a IH]; cbn; intros Hn; [by rewrite Z.eqb_refl|]. rewrite not_elem_of_cons in Hn. destruct Hn as [Hd Hn].
  rewrite (proj2 (Z.eqb_neq d c)) by congruence. by rewrite IH.
Qed.
Lemma cut_none c a : c ∉ a → cut c a = (a, None).
Proof.
  induction a as [|d a IH]; cbn; intros Hn; [done|]. rewrite not_elem_of_cons in Hn. destruct Hn as [Hd Hn].
  rewrite (proj2 (Z.eqb_neq d c)) by congruence. by rewrite IH.
Qed.
Lemma cut_parts c b x y : cut c b = (x, y) → b = match y with Some r => (x ++ c :: r)%list | None => x end.
Proof.
  revert x y. induction b as [|d b IH]; cbn; intros x y; [by intros [= <- <-]|]. destruct (Z.eqb_spec d c) as [->|].
  - by intros [= <- <-].
  - destruct (cut c b) as [x' y'] eqn:E. intros [= <- <-]. rewrite (IH x' y' eq_refl). by destruct y'.
Qed.

Lemma plain_app a b : plain (a ++ b)%list = plain a && plain b.
Proof.
  unfold plain, ascii. rewrite forallb_app, existsb_app, negb_orb. destruct (forallb _ a), (forallb _ b), (existsb _ a), (existsb _ b); done.
Qed.
Lemma plain_cons c b : plain (c :: b) = plain [c] && plain b.
Proof. apply (plain_app [c] b). Qed.
Lemma plain_range b : plain b = true → Forall (λ c, 0 ≤ c < 256) b.
Proof.
  unfold plain, ascii. intros [H _]%andb_true_iff. rewrite Forall_forall. intros x Hx%list_elem_of_In.
  rewrite forallb_forall in H. specialize (H x Hx). apply andb_true_iff in H as [?%Z.leb_le ?%Z.ltb_lt]. lia.
Qed.
Lemma drop_blanks_plain b : plain b = true → drop_blanks b = b.
Proof.
  destruct b as [|c b]; [done|]. rewrite plain_cons. intros [Hc _]%andb_true_iff. cbn.
  unfold plain in Hc. cbn in Hc. rewrite orb_false_r in Hc. apply andb_true_iff in Hc as [_ Hc%negb_true_iff]. by rewrite Hc.
Qed.
Lemma plain_reverse b : plain (reverse b) = plain b.
Proof.
  induction b as [|c b IH]; [done|]. rewrite reverse_cons, plain_app, IH, (plain_cons c b). apply andb_comm.
Qed.
Lemma trim_plain s : plain (lit s) = true → trimmed u s = s.
Proof.
  intros Hp. unfold trimmed, TrimSpace. assert (ascii (lit s) = true) as -> by (unfold plain in Hp; by apply andb_true_iff in Hp as [? _]).
  unfold trim_blanks. rewrite (drop_blanks_plain (lit s)), drop_blanks_plain, reverse_involutive by (by rewrite ?plain_reverse). apply text_lit.
Qed.

Lemma lower_plain c : plain [c] = true → plain [lower c] = true ∧ (c ≠ 58 → lower c ≠ 58) ∧ (c ≠ 47 → lower c ≠ 47) ∧ lower (lower c) = lower c.
Proof.
  unfold plain, ascii, is_blank, lower. cbn. rewrite !andb_true_r, !orb_false_r.
  intros [[?%Z.leb_le ?%Z.ltb_lt]%andb_true_iff Hb%negb_true_iff]%andb_true_iff.
  destruct (Z.leb_spec 65 c), (Z.leb_spec c 90); cbn [andb]; (split_and!; [|lia|lia|]).
  - apply andb_true_iff. split; [apply andb_true_iff; split; [apply Z.leb_le|apply Z.ltb_lt]; lia|]. apply negb_true_iff, orb_false_iff.
    split; [apply Z.eqb_neq; lia|]. apply andb_false_iff. right. apply Z.leb_gt. lia.
  - by rewrite (proj2 (Z.leb_gt (c + 32) 90)), andb_false_r by lia.
  - rewrite Hb. apply andb_true_iff. split; [|done]. apply andb_true_iff; split; [apply Z.leb_le|apply Z.ltb_lt]; lia.
  - rewrite (proj2 (Z.leb_gt c 90)) by lia. by rewrite andb_false_r.
  - rewrite Hb. apply andb_true_iff. split; [|done]. apply andb_true_iff; split; [apply Z.leb_le|apply Z.ltb_lt]; lia.
  - by rewrite (proj2 (Z.leb_gt 65 c)) by lia.
  - rewrite Hb. apply andb_true_iff. split; [|done]. apply andb_true_iff; split; [apply Z.leb_le|apply Z.ltb_lt]; lia.
  - by rewrite (proj2 (Z.leb_gt 65 c)) by lia.
Qed.

Lemma lower_lit b : plain b = true →
  lit (lowered u (text b)) = lower <$> b ∧ plain (lower <$> b) = true ∧ (58 ∉ b → 58 ∉ lower <$> b) ∧ (47 ∉ b → 47 ∉ lower <$> b).
Proof.
  intros Hp. assert (plain (lower <$> b) = true ∧ (58 ∉ b → 58 ∉ lower <$> b) ∧ (47 ∉ b → 47 ∉ lower <$> b)) as (H1 & H2 & H3).
  { clear -Hp. induction b as [|c b IH]; [done|]. rewrite plain_cons in Hp. apply andb_true_iff in Hp as [Hc Hp].
    destruct (IH Hp) as (I1 & I2 & I3). destruct (lower_plain c Hc) as (L1 & L2 & L3 & _). cbn [fmap list_fmap].
    rewrite plain_cons, L1, I1, !not_elem_of_cons. split_and!; [done|intros [? ?]; split; [by apply not_eq_sym, L2, not_eq_sym|auto]..|].
    intros [? ?]; split; [by apply not_eq_sym, L3, not_eq_sym|auto]. }
  split_and!; [|done..]. unfold lowered, ToLower. rewrite (lit_text b) by (by apply plain_range).
  assert (ascii b = true) as -> by (unfold plain in Hp; by apply andb_true_iff in Hp as [? _]). apply lit_text. by apply plain_range.
Qed.

Lemma has_colon s : has_char colon s = false ↔ 58 ∉ lit s.
Proof.
  induction s as [|c s IH]; [split; [intros _ H; by apply elem_of_nil in H|done]|].
  change (lit (String c s)) with (Z.of_nat (nat_of_ascii c) :: lit s). cbn [has_char].
  rewrite orb_false_iff, bool_decide_eq_false, not_elem_of_cons, IH. split; intros [Hc Hs]; (split; [|done]).
  - intros He. apply Hc. unfold colon. rewrite <-(ascii_nat_embedding c). replace (nat_of_ascii c) with 58%nat by lia. reflexivity.
  - intros ->. by apply Hc.
Qed.

Lemma TrimRight_tail q : TrimRight slash (47 :: q) = [] ∨ TrimRight slash (47 :: q) = 47 :: TrimRight slash q.
Proof.
  unfold TrimRight. rewrite reverse_cons. generalize (reverse q) as r. induction r as [|d r IH]; [by left|]. cbn [app drop_byte].
  destruct (Z.eqb_spec d slash) as [->|]; [exact IH|]. right. rewrite reverse_cons. rewrite (reverse_cons r d).
  change ((reverse (r ++ [47]) ++ [d])%list = 47 :: (reverse r ++ [d])%list). by rewrite reverse_app.
Qed.

Lemma plain_TrimRight b : plain b = true → plain (TrimRight slash b) = true.
Proof.
  intros Hp. unfold TrimRight. rewrite plain_reverse. rewrite <-plain_reverse in Hp. revert Hp. generalize (reverse b) as r.
  induction r as [|d r IH]; [done|]. cbn [drop_byte]. intros Hp. destruct (d =? slash); [|done]. apply IH. rewrite plain_cons in Hp.
  by apply andb_true_iff in Hp as [_ ?].
Qed.

(** What the parser has found in a URL. *)
Record found (p : URL) : Prop := {
  fd_host : plain (lit (u_Hostname p)) = true ∧ 58 ∉ lit (u_Hostname p) ∧ 47 ∉ lit (u_Hostname p);
  fd_port : plain (lit (u_Port p)) = true ∧ 47 ∉ lit (u_Port p);
  fd_path : plain (lit (u_EscapedPath p)) = true ∧ (lit (u_EscapedPath p) = [] ∨ ∃ q, lit (u_EscapedPath p) = 47 :: q);
}.

Lemma parse_found s p : parse s = Some p → found p.
Proof.
  unfold parse. destruct (plain (lit s)) eqn:Hpl; cbn [negb]; [|done].
  destruct (cut 58 (lit s)) as [sch [r|]] eqn:E1; [|done]. destruct (hasPrefix r (lit "//")); [|done].
  destruct (cut 47 (drop 2 r)) as [auth path] eqn:E2. destruct (cut 58 auth) as [host port] eqn:E3. intros [= <-].
  pose proof (cut_free 47 (drop 2 r)) as F2. rewrite E2 in F2. pose proof (cut_free 58 auth) as F3. rewrite E3 in F3. cbn [fst] in *.
  apply cut_parts in E1, E2, E3. rewrite E1, plain_app, plain_cons in Hpl.
  apply andb_true_iff in Hpl as [_ [_ Hr]%andb_true_iff]. rewrite <-(take_drop 2 r), plain_app in Hr. apply andb_true_iff in Hr as [_ Hr].
  rewrite E2 in Hr.
  assert (Ha : plain auth = true ∧ plain (match path with Some q => 47 :: q | None => [] end) = true).
  { destruct path as [q|]; [rewrite plain_app in Hr; by apply andb_true_iff in Hr|done]. }
  destruct Ha as [Ha Hq]. rewrite E3 in Ha.
  assert (Hh : plain host = true ∧ plain (default [] port) = true).
  { destruct port as [q|]; [rewrite plain_app, plain_cons in Ha; by apply andb_true_iff in Ha as [? [_ ?]%andb_true_iff]|done]. }
  destruct Hh as [Hh Hpo].
  assert (F2h : 47 ∉ host ∧ 47 ∉ default [] port).
  { rewrite E3 in F2. destruct port as [q|]; cbn; [rewrite elem_of_app, elem_of_cons in F2; tauto|split; [done|apply not_elem_of_nil]]. }
  constructor; cbn [u_Hostname u_Port u_EscapedPath].
  - rewrite lit_text by (by apply plain_range). split_and!; [done|done|apply F2h].
  - destruct port as [q|]; cbn in *; [rewrite lit_text by (by apply plain_range); split; [done|apply F2h]|split; [done|apply not_elem_of_nil]].
  - destruct path as [q|]; [rewrite lit_text by (by apply plain_range); split; [done|right; by eexists]|split; [done|by left]].
Qed.

Lemma parse_laws : url_laws u parse.
Proof.
  constructor.
  - intros raw p scheme port [[Hh1 [Hh2 Hh3]] [Hp1 Hp2] [Hq1 Hq2]]%parse_found Hhost Hs Hport Hne c.
    destruct (lower_lit (lit (u_Hostname p)) Hh1) as (Hl & Hl1 & Hl2 & Hl3). rewrite text_lit in Hl. rewrite <-Hl in Hl1, Hl2, Hl3.
    set (host := lowered u (u_Hostname p)) in *. set (path := no_slash (u_EscapedPath p)) in *.
    assert (Hpl : lit path = TrimRight slash (lit (u_EscapedPath p))) by apply no_slash_lit.
    assert (Hpo : plain (lit port) = true ∧ 47 ∉ lit port).
    { destruct Hport as [->|[->| ->]]; [done|split; [done|vm_compute]..].
      all: intros H; repeat (apply elem_of_cons in H as [H|H]; [done|]); by apply elem_of_nil in H. }
    assert (Hsc : plain (lit scheme) = true ∧ 58 ∉ lit scheme).
    { destruct Hs as [->| ->]; (split; [done|]); vm_compute; intros H; repeat (apply elem_of_cons in H as [H|H]; [done|]); by apply elem_of_nil in H. }
    assert (Hj : JoinHostPort host port = host ++ ":" ++ port).
    { unfold JoinHostPort. by rewrite (proj2 (has_colon host) (Hl2 Hh2)). }
    assert (Hc : lit c = (lit scheme ++ 58 :: lit "//" ++ (lit host ++ 58 :: lit port) ++ lit path)%list).
    { unfold c, build. rewrite Hj, !lit_app. change (lit "://") with (58 :: lit "//")%list. change (lit ":") with [58]. by rewrite <-!app_assoc. }
    assert (Hcp : plain (lit c) = true).
    { rewrite Hc, (plain_app (lit scheme)), (plain_cons 58 (lit "//" ++ _)%list), !plain_app, (plain_cons 58 (lit port)).
      rewrite (proj1 Hsc), Hl1, (proj1 Hpo), Hpl, (plain_TrimRight _ Hq1). reflexivity. }
    split; [by apply trim_plain|].
    assert (Hauth : 47 ∉ (lit host ++ 58 :: lit port)%list).
    { rewrite elem_of_app, elem_of_cons. intros [?|[?|?]]; [by apply Hl3|done|by apply Hpo]. }
    unfold parse. rewrite Hcp. cbn [negb]. rewrite Hc, cut_app by apply Hsc.
    assert (hasPrefix (lit "//" ++ (lit host ++ 58 :: lit port) ++ lit path)%list (lit "//") = true) as -> by reflexivity.
    change (drop 2 (lit "//" ++ (lit host ++ 58 :: lit port) ++ lit path)%list) with ((lit host ++ 58 :: lit port) ++ lit path)%list.
    assert (Hlp : lit path = [] ∨ ∃ q, lit path = 47 :: q).
    { rewrite Hpl. destruct Hq2 as [->|[q ->]]; [by left|]. destruct (TrimRight_tail q) as [->| ->]; [by left|right; by eexists]. }
    destruct Hlp as [He|[q He]]; rewrite He.
    + rewrite app_nil_r, cut_none, cut_app by auto. eexists. split; [reflexivity|]. cbn. rewrite !text_lit. split_and!; try done.
      by apply lit_inj.
    + rewrite cut_app, cut_app by auto. eexists. split; [reflexivity|]. cbn [u_Scheme u_Hostname u_Port u_EscapedPath]. rewrite !text_lit. split_and!; try done.
      rewrite <-He. apply text_lit.
  - intros s. unfold lowered, ToLower. destruct (ascii (lit s)) eqn:Ha.
    + assert (H : ∀ c, 0 ≤ c < 128 → 0 ≤ lower c < 128 ∧ lower (lower c) = lower c).
      { intros c Hc. unfold lower. destruct (Z.leb_spec 65 c), (Z.leb_spec c 90); cbn [andb].
        - rewrite (proj2 (Z.leb_gt (c + 32) 90)), andb_false_r by lia. lia.
        - rewrite (proj2 (Z.leb_gt c 90)), andb_false_r by lia. lia.
        - rewrite (proj2 (Z.leb_gt 65 c)) by lia. cbn. lia.
        - rewrite (proj2 (Z.leb_gt 65 c)) by lia. cbn. lia. }
      assert (Hb : Forall (λ c, 0 ≤ c < 128) (lit s)).
      { rewrite Forall_forall. intros x Hx%list_elem_of_In. unfold ascii in Ha. rewrite forallb_forall in Ha. specialize (Ha x Hx).
        apply andb_true_iff in Ha as [?%Z.leb_le ?%Z.ltb_lt]. lia. }
      rewrite (lit_text (lower <$> lit s)) by (rewrite Forall_fmap; eapply Forall_impl; [exact Hb|]; intros c Hc; cbn; destruct (H c Hc); lia).
      assert (ascii (lower <$> lit s) = true) as ->.
      { unfold ascii. apply forallb_forall. intros x Hx%list_elem_of_In. apply list_elem_of_fmap in Hx as (c & -> & Hc).
        rewrite Forall_forall in Hb. destruct (H c (Hb c Hc)). apply andb_true_iff. split; [apply Z.leb_le|apply Z.ltb_lt]; lia. }
      f_equal. rewrite <-list_fmap_compose. apply list_fmap_ext. intros i c Hc. cbn. rewrite Forall_forall in Hb. apply H. by eapply Hb, list_elem_of_lookup_2.
    + assert (lit (text (u_ToLower u (lit s))) = lit s) as -> by (change (u_ToLower u (lit s)) with (lit s); by rewrite text_lit). by rewrite Ha.
Qed.

Example canonical_runs : Canonical u parse " GPU1/v1/ " = Some "http://gpu1:80/v1" ∧ Canonical u parse "ftp://x" = None ∧
  Canonical u parse "https://h" = Some "https://h:443".
Proof. vm_compute. auto. Qed.
End UrlEx.

Lemma canonical_normal_witness : Canonical UrlEx.u UrlEx.parse "http://gpu1:80/v1" = Some "http://gpu1:80/v1".
Proof.
  exact (proj1 (canonical_normal UrlEx.u UrlEx.parse "GPU1/v1/" "http://gpu1:80/v1" UrlEx.parse_laws ltac:(vm_compute; reflexivity))).
Defined.

Lemma base_path_replaces_witness : JoinBasePath "/v1beta/openai/" "/v1/models" = "/v1beta/openai/models".
Proof. destruct (base_path_replaces "/v1beta/openai/" "models") as (_ & H & _).
  exact (H ltac:(vm_compute; discriminate)).
Defined.
