(* ===== verification/Serve.v ===== *)
(** * Serve: options, validation and assembly of a router

    [src/router/serve/serve.go] and [automodel.go].  The process's options are translated
    to the configurations of the parts and checked; [Handler] then builds one pool and one
    rule per route.  Reading a file, probing an endpoint and reaching Kubernetes are I/O:
    their answers are arguments.  URLs are parsed by the standard library's [net/url]; what
    the code reads of one is an argument too. *)

From stdpp Require Import base gmap sets list strings.
From Stdlib Require Import ZArith Lia.
From Corelib Require Import SpecFloat.
From S2P Require Import Prelude MarkSet KvUnits AffinityTree Circuit WaitQ Backend Registry Policy AffinityPolicy PolicySpec.
From S2P Require Import PrefillManager StreamScan GoText CapacityRetry Routing Gateway Health Surface Pool Discovery Url.
Open Scope Z_scope.

(** ** Options

    Left out are the listeners' addresses, the logger, the capture hook and the intervals and
    names of the upstream metrics. *)

Record Route_ := MkRoute {
  rt_Patterns : bytes;
  rt_Endpoints : list string;
  rt_RewriteModel : bytes;
  rt_StripAuth : bool;
  rt_Name : string;
  rt_CredentialFile : string;
  rt_ForwardClientCredential : bool;
  rt_DiscoverySelector : string;
  rt_DiscoveryPort : Z;
  rt_DiscoveryPortName : string;
  rt_Passive : bool;
}.

Record Options := MkOptions {
  oRoutes : list Route_;
  oAPIKey : bytes;
  oAPIKeyFile : string;
  oCORSOrigins : list bytes;
  oPathAllowlist : list bytes;
  oUserPrefix : bool;
  oMaxBodyBytes : Z;
  oMaxConcurrentRequests : Z;
  oNodeConcurrency : Z;
  oSoftNodeConcurrency : Z;
  oTTFTHard : Z;
  oTTFTSoft : Z;
  oRelativeTTFT : bool;
  oRelativeDecode : bool;
  oCostRouting : bool;
  oRebalanceRatio : float64;
  oPrefillSplit : bool;
  oPDPrefillBackends : list string;
  oPDPrefillSoft : Z;
  oPDPrefillMax : Z;
  oPDDecodeSoft : Z;
  oPDDecodeMax : Z;
  oPrefillNodeBudgetTokens : Z;
  oPrefillMaxFleetFraction : float64;
  oPrefillConvertAfter : Z;
  oPrefillReleaseIdle : Z;
  oAutoModel : string;
  oSplitGuard : float64;
  oTransientFallback : float64;
  oRetryTimeLimit : Z;
  oTailTTL : Z;
  oRefusalTTL : Z;
  oMaxNodeQueueDepth : Z;
  oHealthInterval : Z;
  oHealthUnhealthy : Z;
  oHealthTimeout : Z;
  oHealthPath : string;
  oDisableVLLMMetrics : bool;
  oMaxAttempts : Z;
  oStreamBufferBytes : Z;
  oDrainDeadline : Z;
}.

Definition set_APIKey (k : bytes) (o : Options) : Options :=
  MkOptions (oRoutes o) k (oAPIKeyFile o) (oCORSOrigins o) (oPathAllowlist o) (oUserPrefix o) (oMaxBodyBytes o)
    (oMaxConcurrentRequests o) (oNodeConcurrency o) (oSoftNodeConcurrency o) (oTTFTHard o) (oTTFTSoft o) (oRelativeTTFT o)
    (oRelativeDecode o) (oCostRouting o) (oRebalanceRatio o) (oPrefillSplit o) (oPDPrefillBackends o) (oPDPrefillSoft o)
    (oPDPrefillMax o) (oPDDecodeSoft o) (oPDDecodeMax o) (oPrefillNodeBudgetTokens o) (oPrefillMaxFleetFraction o)
    (oPrefillConvertAfter o) (oPrefillReleaseIdle o) (oAutoModel o) (oSplitGuard o) (oTransientFallback o)
    (oRetryTimeLimit o) (oTailTTL o) (oRefusalTTL o) (oMaxNodeQueueDepth o) (oHealthInterval o) (oHealthUnhealthy o)
    (oHealthTimeout o) (oHealthPath o) (oDisableVLLMMetrics o) (oMaxAttempts o) (oStreamBufferBytes o) (oDrainDeadline o).

(** [withDefaults]: an unset field is filled in. *)
Definition withDefaults (o : Options) : Options :=
  let interval := if oHealthInterval o <=? 0 then 15 * second else oHealthInterval o in
  let unhealthy := if (oHealthUnhealthy o <=? 0) || (interval <? oHealthUnhealthy o) then Z.min second interval else oHealthUnhealthy o in
  let timeout := if (oHealthTimeout o <=? 0) || (interval <=? oHealthTimeout o) then Z.quot interval 2 else oHealthTimeout o in
  MkOptions (oRoutes o) (oAPIKey o) (oAPIKeyFile o) (oCORSOrigins o) (oPathAllowlist o) (oUserPrefix o)
    (if oMaxBodyBytes o <=? 0 then Z.shiftl 64 20 else oMaxBodyBytes o)
    (oMaxConcurrentRequests o) (oNodeConcurrency o) (oSoftNodeConcurrency o) (oTTFTHard o) (oTTFTSoft o) (oRelativeTTFT o)
    (oRelativeDecode o) (oCostRouting o) (oRebalanceRatio o) (oPrefillSplit o) (oPDPrefillBackends o) (oPDPrefillSoft o)
    (oPDPrefillMax o) (oPDDecodeSoft o) (oPDDecodeMax o) (oPrefillNodeBudgetTokens o) (oPrefillMaxFleetFraction o)
    (oPrefillConvertAfter o) (oPrefillReleaseIdle o) (oAutoModel o) (oSplitGuard o) (oTransientFallback o)
    (oRetryTimeLimit o) (oTailTTL o) (oRefusalTTL o) (oMaxNodeQueueDepth o) interval unhealthy timeout
    (if bool_decide (oHealthPath o = ""%string) then "/health"%string else oHealthPath o) (oDisableVLLMMetrics o)
    (if oMaxAttempts o <? 1 then 2 else oMaxAttempts o)
    (if oStreamBufferBytes o <=? 0 then Z.shiftl 64 10 else oStreamBufferBytes o)
    (if oDrainDeadline o <=? 0 then 60 * second else oDrainDeadline o).

(** ** The configurations of the parts *)

(** [gatewayConfig]: the inbound surface's part of it, and the capacity retry loop's. *)
Definition gatewayConfig (metrics : bool) (o : Options) : Surface.Config :=
  Surface.MkConfig (oAPIKey o) (oMaxBodyBytes o) (oMaxConcurrentRequests o) (oPathAllowlist o) (oUserPrefix o) (oCORSOrigins o) metrics.
Definition retryConfig (o : Options) : RetryConfig := MkRetryConfig (oRetryTimeLimit o) (oMaxNodeQueueDepth o).

Definition flowConfig (o : Options) : AffinityPolicy.Config :=
  AffinityPolicy.MkConfig (oNodeConcurrency o) (oSoftNodeConcurrency o) (oTTFTHard o) (oTTFTSoft o) (oRelativeTTFT o) (oRelativeDecode o)
    (oCostRouting o) (oRebalanceRatio o) (oSplitGuard o) (oTransientFallback o) (oTailTTL o) (oRefusalTTL o) "" LadderStrict.

(** The closure [override]. *)
Definition override (soft max : Z) (c : AffinityPolicy.Config) : AffinityPolicy.Config :=
  AffinityPolicy.MkConfig (if 0 <? max then max else AffinityPolicy.NodeConcurrency c) (if 0 <? soft then soft else SoftNodeConcurrency c)
    (TTFTHard c) (TTFTSoft c) (RelativeTTFT c) (RelativeDecode c) (CostRouting c) (RebalanceRatio c) (SplitGuard c)
    (TransientFallback c) (TailTTL c) (RefusalTTL c) (PoolName c) (Ladder c).

(** The decode flow, then the prefill flow. *)
Definition roleFlowConfigs (o : Options) : AffinityPolicy.Config * AffinityPolicy.Config :=
  match oPDPrefillBackends o with
  | [] => (flowConfig o, flowConfig o)
  | _ => (override (oPDDecodeSoft o) (oPDDecodeMax o) (flowConfig o), override (oPDPrefillSoft o) (oPDPrefillMax o) (flowConfig o))
  end.

Definition prefillConfig (o : Options) : option PrefillManager.Config :=
  if oPrefillSplit o
  then Some (PrefillManager.MkConfig (oPrefillNodeBudgetTokens o) (oPrefillMaxFleetFraction o) (oNodeConcurrency o)
               (oPrefillConvertAfter o) (oPrefillReleaseIdle o))
  else None.

Definition healthConfig (o : Options) : Health.Config :=
  Health.MkConfig (oHealthInterval o) (oHealthUnhealthy o) 3 2 0.

(** ** Validation *)

Definition nonzero (x : float64) : bool := negb (SFeqb x f0).

(** The settings only the affinity ladder honours, in the order they are looked at. *)
Definition ladderOnly (o : Options) : list (string * bool) :=
  [("--soft-node-concurrency"%string, negb (oSoftNodeConcurrency o =? 0));
   ("--soft-ttft-split"%string, negb (oTTFTSoft o =? 0));
   ("--relative-ttft-split"%string, oRelativeTTFT o);
   ("--relative-decode-split"%string, oRelativeDecode o);
   ("--transient-fallback-threshold"%string, nonzero (oTransientFallback o));
   ("--cache-split-guard"%string, nonzero (oSplitGuard o) && negb (SFeqb (oSplitGuard o) DefaultSplitGuard));
   ("--prefill-split"%string, oPrefillSplit o);
   ("--pd-prefill-backends"%string, negb (bool_decide (oPDPrefillBackends o = [])))].

(** The flag complained of, when there is one. *)
Definition validateRouting (o : Options) : option string :=
  if oCostRouting o then first_some (λ fs : string * bool, if fs.2 then Some fs.1 else None) (ladderOnly o) else None.

Inductive pd_error :=
  | ENegative (flag : string)
  | ENeedsBackends (flag : string)
  | ESoftNeedsMax (role : string)
  | ESoftNotBelowMax (role : string)
  | EWithSplit
  | EUnknownBackend (url : string)
  | ENoDecodeLeft (patterns : bytes).

Section text.
Context (u : Unicode).

Definition norm (url : string) : bytes := Normalize u (lit url).

(** [pdPrefillFor]: the route's endpoints that are prefill nodes. *)
Definition pdPrefillFor (o : Options) (rt : Route_) : list string :=
  filter (λ ep, existsb (λ p, bool_decide (norm p = norm ep)) (oPDPrefillBackends o) = true) (rt_Endpoints rt).

Definition bands_of (o : Options) : list (string * Z) :=
  [("--pd-prefill-soft-node-concurrency"%string, oPDPrefillSoft o); ("--pd-prefill-max-node-concurrency"%string, oPDPrefillMax o);
   ("--pd-decode-soft-node-concurrency"%string, oPDDecodeSoft o); ("--pd-decode-max-node-concurrency"%string, oPDDecodeMax o)].

Definition band_error (o : Options) (b : string * Z) : option pd_error :=
  if b.2 <? 0 then Some (ENegative b.1)
  else if (0 <? b.2) && bool_decide (oPDPrefillBackends o = []) then Some (ENeedsBackends b.1) else None.

(** One role: nothing is asked of a role without a band of its own. *)
Definition role_error (role : string) (soft max : Z) (c : AffinityPolicy.Config) : option pd_error :=
  if (soft =? 0) && (max =? 0) then None
  else if (0 <? SoftNodeConcurrency c) && (AffinityPolicy.NodeConcurrency c <=? 0) then Some (ESoftNeedsMax role)
  else if (AffinityPolicy.NodeConcurrency c <=? SoftNodeConcurrency c) && (0 <? SoftNodeConcurrency c) then Some (ESoftNotBelowMax role)
  else None.

Definition unknown_error (o : Options) (p : string) : option pd_error :=
  if existsb (λ rt, existsb (λ ep, bool_decide (norm ep = norm p)) (rt_Endpoints rt)) (oRoutes o) then None else Some (EUnknownBackend p).

Definition route_error (o : Options) (rt : Route_) : option pd_error :=
  let n := List.length (pdPrefillFor o rt) in
  if (0 <? n)%nat && (List.length (rt_Endpoints rt) <=? n)%nat && bool_decide (rt_DiscoverySelector rt = ""%string)
  then Some (ENoDecodeLeft (rt_Patterns rt)) else None.

Definition or_else {A} (x y : option A) : option A := match x with Some _ => x | None => y end.

Definition validatePD (o : Options) : option pd_error :=
  or_else (first_some (band_error o) (bands_of o))
    (if bool_decide (oPDPrefillBackends o = []) then None
     else
       let '(decode, pflow) := roleFlowConfigs o in
       or_else (role_error "prefill" (oPDPrefillSoft o) (oPDPrefillMax o) pflow)
       (or_else (role_error "decode" (oPDDecodeSoft o) (oPDDecodeMax o) decode)
       (or_else (if oPrefillSplit o then Some EWithSplit else None)
       (or_else (first_some (unknown_error o) (oPDPrefillBackends o))
                (first_some (route_error o) (oRoutes o)))))).
End text.

(** ** What the checks establish *)

Lemma first_some_None {A B} (f : A → option B) l : first_some f l = None ↔ ∀ x, x ∈ l → f x = None.
Proof.
  induction l as [|x l IH]; cbn; [split; [by intros _ ? ?%elem_of_nil|done]|]. destruct (f x) as [y|] eqn:Hx.
  - split; [done|]. intros H. rewrite H in Hx by (by left). done.
  - rewrite IH. split; [intros H z [->|?]%elem_of_cons; auto|intros H z ?; apply H; by right].
Qed.

Lemma or_else_None {A} (x y : option A) : or_else x y = None ↔ x = None ∧ y = None.
Proof. destruct x; cbn; naive_solver. Qed.

(** the defaults are safe to run on.  Every interval is positive, an unhealthy backend
    is probed at least as often as a healthy one, a probe times out before the next is due,
    and the sizes and limits are positive; filling in twice changes nothing. *)
Theorem defaults_sane o :
  let w := withDefaults o in
  0 < oHealthInterval w ∧ 0 < oHealthUnhealthy w ≤ oHealthInterval w ∧
  oHealthTimeout w < oHealthInterval w ∧ (1 < oHealthInterval w → 0 < oHealthTimeout w) ∧
  0 < oMaxBodyBytes w ∧ 1 ≤ oMaxAttempts w ∧ 0 < oStreamBufferBytes w ∧ 0 < oDrainDeadline w ∧ oHealthPath w ≠ ""%string ∧
  Health.hcfg (Health.New (healthConfig w)) = healthConfig w ∧ withDefaults w = w.
Proof.
  cbn zeta.
  assert (H1 : 0 < oHealthInterval (withDefaults o)).
  { unfold withDefaults. cbn [oHealthInterval]. destruct (Z.leb_spec (oHealthInterval o) 0); [done|lia]. }
  assert (H2 : 0 < oHealthUnhealthy (withDefaults o) ≤ oHealthInterval (withDefaults o)).
  { revert H1. unfold withDefaults. cbn [oHealthInterval oHealthUnhealthy oHealthTimeout].
    set (i := if oHealthInterval o <=? 0 then 15 * second else oHealthInterval o). intros Hi. clearbody i. unfold second.
    destruct (Z.leb_spec (oHealthUnhealthy o) 0), (Z.ltb_spec i (oHealthUnhealthy o)); cbn; lia. }
  assert (H3 : oHealthTimeout (withDefaults o) < oHealthInterval (withDefaults o) ∧
    (1 < oHealthInterval (withDefaults o) → 0 < oHealthTimeout (withDefaults o)) ∧ 0 ≤ oHealthTimeout (withDefaults o)).
  { revert H1. unfold withDefaults. cbn [oHealthInterval oHealthUnhealthy oHealthTimeout].
    set (i := if oHealthInterval o <=? 0 then 15 * second else oHealthInterval o). intros Hi. clearbody i.
    destruct (Z.leb_spec (oHealthTimeout o) 0), (Z.leb_spec i (oHealthTimeout o)); cbn; try (split_and!; lia);
      rewrite Z.quot_div_nonneg by lia; pose proof (Z.div_lt i 2 Hi); split_and!; try lia; try (intros; apply Z.div_str_pos; lia); apply Z.div_pos; lia. }
  assert (H4 : 0 < oMaxBodyBytes (withDefaults o)) by (unfold withDefaults; cbn [oMaxBodyBytes]; destruct (Z.leb_spec (oMaxBodyBytes o) 0); [done|lia]).
  assert (H5 : 1 ≤ oMaxAttempts (withDefaults o)) by (unfold withDefaults; cbn [oMaxAttempts]; destruct (Z.ltb_spec (oMaxAttempts o) 1); lia).
  assert (H6 : 0 < oStreamBufferBytes (withDefaults o)) by (unfold withDefaults; cbn [oStreamBufferBytes]; destruct (Z.leb_spec (oStreamBufferBytes o) 0); [done|lia]).
  assert (H7 : 0 < oDrainDeadline (withDefaults o)) by (unfold withDefaults; cbn [oDrainDeadline]; destruct (Z.leb_spec (oDrainDeadline o) 0); [done|lia]).
  assert (H8 : oHealthPath (withDefaults o) ≠ ""%string) by (unfold withDefaults; cbn [oHealthPath]; by destruct (bool_decide_reflect (oHealthPath o = ""%string))).
  split_and!; try done; try lia; try tauto.
  - unfold Health.New, healthConfig. cbn -[withDefaults].
    rewrite (proj2 (Z.leb_gt _ _)) by lia. rewrite (proj2 (Z.ltb_ge _ _)) by lia. done.
  - revert H1 H2 H3 H4 H5 H6 H7 H8. set (w := withDefaults o). clearbody w. intros. unfold withDefaults.
    rewrite (proj2 (Z.leb_gt (oHealthInterval w) 0)), (proj2 (Z.leb_gt (oHealthUnhealthy w) 0)),
      (proj2 (Z.ltb_ge (oHealthInterval w) (oHealthUnhealthy w))), (proj2 (Z.leb_gt (oHealthInterval w) (oHealthTimeout w))),
      (proj2 (Z.leb_gt (oMaxBodyBytes w) 0)), (proj2 (Z.ltb_ge (oMaxAttempts w) 1)), (proj2 (Z.leb_gt (oStreamBufferBytes w) 0)),
      (proj2 (Z.leb_gt (oDrainDeadline w) 0)), bool_decide_eq_false_2 by (done || lia). cbn [orb].
    assert ((if (oHealthTimeout w <=? 0) || false then Z.quot (oHealthInterval w) 2 else oHealthTimeout w) = oHealthTimeout w) as ->; [|by destruct w].
    rewrite orb_false_r. destruct (Z.leb_spec (oHealthTimeout w) 0) as [Hle|]; [|done]. destruct H3 as (_ & Hpos & Hge).
    assert (oHealthInterval w = 1) as Hone by lia. rewrite Hone. change (Z.quot 1 2) with 0. lia.
Qed.

(** with cost routing on, options are accepted exactly when no setting that only the
    affinity ladder honours is on, so none is silently ignored; the flow that runs then has
    no soft band and no relative split, and the default guard. *)
Theorem cost_routing_exclusive o :
  (validateRouting o = None ↔ (oCostRouting o = true →
     oSoftNodeConcurrency o = 0 ∧ oTTFTSoft o = 0 ∧ oRelativeTTFT o = false ∧ oRelativeDecode o = false ∧
     nonzero (oTransientFallback o) = false ∧ (nonzero (oSplitGuard o) = true → SFeqb (oSplitGuard o) DefaultSplitGuard = true) ∧
     oPrefillSplit o = false ∧ oPDPrefillBackends o = [])) ∧
  (oCostRouting o = true → validateRouting o = None →
     prefillConfig o = None ∧ roleFlowConfigs o = (flowConfig o, flowConfig o) ∧
     bands_off (AffinityPolicy.cfg (AffinityPolicy.New (flowConfig o)))).
Proof.
  assert (Hiff : validateRouting o = None ↔ (oCostRouting o = true →
     oSoftNodeConcurrency o = 0 ∧ oTTFTSoft o = 0 ∧ oRelativeTTFT o = false ∧ oRelativeDecode o = false ∧
     nonzero (oTransientFallback o) = false ∧ (nonzero (oSplitGuard o) = true → SFeqb (oSplitGuard o) DefaultSplitGuard = true) ∧
     oPrefillSplit o = false ∧ oPDPrefillBackends o = [])).
  { unfold validateRouting. destruct (oCostRouting o); [|split; [done|done]].
    assert (∀ l : list (string * bool), first_some (λ fs : string * bool, if fs.2 then Some fs.1 else None) l = None ↔ Forall (λ fs, fs.2 = false) l) as Hl.
    { intros l. rewrite first_some_None, Forall_forall. split; intros H fs Hfs; specialize (H fs Hfs); destruct (fs.2); done. }
    rewrite Hl. unfold ladderOnly. rewrite !Forall_cons, Forall_nil. cbn [snd].
    rewrite !negb_false_iff, !Z.eqb_eq, bool_decide_eq_true, andb_false_iff, negb_false_iff.
    destruct (nonzero (oSplitGuard o)); naive_solver. }
  split; [done|]. intros Hc Hv. destruct (proj1 Hiff Hv Hc) as (Hs & Ht & Hr & Hd & _ & _ & Hp & Hb).
  split_and!; [unfold prefillConfig; by rewrite Hp|unfold roleFlowConfigs; by rewrite Hb|].
  unfold bands_off, AffinityPolicy.New, AffinityPolicy.withDefaults, flowConfig. cbn -[SFleb SFltb DefaultSplitGuard].
  rewrite Hs, Ht, Hr, Hd. cbn. split_and!; try done; repeat case_match; lia.
Qed.

(** options with prefill nodes are accepted only when they can work: no prefill split,
    every prefill node is an endpoint of some route, every route with prefill nodes and no
    discovery keeps a decode node, and a role with a band of its own has a soft limit that
    the flow honours instead of normalising it away. *)
Theorem pd_sound (u : Unicode) o :
  validatePD u o = None → oPDPrefillBackends o ≠ [] →
  prefillConfig o = None ∧
  (∀ p, p ∈ oPDPrefillBackends o → ∃ rt ep, rt ∈ oRoutes o ∧ ep ∈ pdPrefillFor u o rt ∧ norm u ep = norm u p) ∧
  (∀ rt, rt ∈ oRoutes o → rt_DiscoverySelector rt = ""%string → pdPrefillFor u o rt ≠ [] →
     ∃ ep, ep ∈ rt_Endpoints rt ∧ ep ∉ pdPrefillFor u o rt) ∧
  (∀ c, (c = (roleFlowConfigs o).1 ∧ (oPDDecodeSoft o ≠ 0 ∨ oPDDecodeMax o ≠ 0) ∨
         c = (roleFlowConfigs o).2 ∧ (oPDPrefillSoft o ≠ 0 ∨ oPDPrefillMax o ≠ 0)) →
     0 ≤ SoftNodeConcurrency c → SoftNodeConcurrency (AffinityPolicy.withDefaults c) = SoftNodeConcurrency c).
Proof.
  intros Hv Hne. unfold validatePD in Hv. apply or_else_None in Hv as [_ Hv]. rewrite bool_decide_eq_false_2 in Hv by done.
  destruct (roleFlowConfigs o) as [dec pf] eqn:Hroles.
  apply or_else_None in Hv as [Hr1 Hv]. apply or_else_None in Hv as [Hr2 Hv]. apply or_else_None in Hv as [Hsp Hv].
  apply or_else_None in Hv as [Hun Hro]. rewrite first_some_None in Hun. rewrite first_some_None in Hro.
  assert (Hrole : ∀ role soft max c, role_error role soft max c = None → soft ≠ 0 ∨ max ≠ 0 → 0 ≤ SoftNodeConcurrency c →
    SoftNodeConcurrency (AffinityPolicy.withDefaults c) = SoftNodeConcurrency c).
  { intros role soft max c He Hs H0. unfold role_error in He.
    destruct (Z.eqb_spec soft 0), (Z.eqb_spec max 0); cbn [andb] in He; try (exfalso; lia).
    all: unfold AffinityPolicy.withDefaults; cbn [SoftNodeConcurrency].
    all: destruct (Z.ltb_spec (SoftNodeConcurrency c) 0), (Z.leb_spec (AffinityPolicy.NodeConcurrency c) 0),
      (Z.leb_spec (AffinityPolicy.NodeConcurrency c) (SoftNodeConcurrency c)), (Z.ltb_spec 0 (SoftNodeConcurrency c)); cbn [andb orb] in *; done || lia. }
  split_and!.
  - unfold prefillConfig. by destruct (oPrefillSplit o).
  - intros p Hp. specialize (Hun p Hp). unfold unknown_error in Hun. destruct (existsb _ (oRoutes o)) eqn:He; [|done].
    apply existsb_exists in He as (rt & Hrt%list_elem_of_In & (ep & Hep%list_elem_of_In & Hn%bool_decide_eq_true)%existsb_exists).
    exists rt, ep. split_and!; [done| |done]. apply list_elem_of_filter. split; [|done]. apply existsb_exists. exists p.
    split; [by apply list_elem_of_In|]. by apply bool_decide_eq_true.
  - intros rt Hrt Hsel Hpd. specialize (Hro rt Hrt). unfold route_error in Hro. rewrite (bool_decide_eq_true_2 _ Hsel), andb_true_r in Hro.
    destruct (pdPrefillFor u o rt) as [|x xs] eqn:Hx; [done|]. rewrite <-Hx in *.
    assert ((0 <? List.length (pdPrefillFor u o rt))%nat = true) as H0 by (by rewrite Hx).
    rewrite H0 in Hro. cbn [andb] in Hro.
    destruct (Nat.leb_spec (List.length (rt_Endpoints rt)) (List.length (pdPrefillFor u o rt))) as [|Hlt]; [done|].
    clear -Hlt. unfold pdPrefillFor in *. set (P := λ ep, _ = true) in *.
    assert (Hd : ∀ l, (List.length (filter P l) < List.length l)%nat → ∃ ep, ep ∈ l ∧ ep ∉ filter P l).
    { induction l as [|y l IH]; [cbn; lia|]. rewrite filter_cons. destruct (decide (P y)) as [Hy|Hy]; cbn [List.length].
      - intros Hl. destruct IH as (ep & He & Hn); [lia|]. exists ep. split; [by right|].
        intros [->|?]%elem_of_cons; [|done]. apply Hn, list_elem_of_filter. done.
      - intros _. exists y. split; [by left|]. rewrite list_elem_of_filter. tauto. }
    by apply Hd.
  - intros c [[-> Hs]|[-> Hs]]; cbn [fst snd]; [by eapply Hrole|by eapply Hrole].
Qed.

(** ** Probing an endpoint, once *)

Definition knownHostedProviders : list string :=
  ["api.anthropic.com"%string; "api.openai.com"%string; "generativelanguage.googleapis.com"%string; "api.mistral.ai"%string;
   "api.cohere.ai"%string; "api.groq.com"%string; "openrouter.ai"%string; "api.deepseek.com"%string; "api.x.ai"%string;
   "bedrock-runtime"%string; "openai.azure.com"%string].

(** What the process's surroundings answer: a file's contents, the body of a GET that got a
    200, and whether the Kubernetes API is at hand. *)
Record Env := MkEnv { read_file : string → option bytes; get : string → option bytes; in_cluster : bool }.

Inductive serve_error :=
  | ENoRoutes
  | EKeyFileUnreadable
  | EKeyFileEmpty
  | ERouting (flag : string)
  | EPD (e : pd_error)
  | EPool (e : pool_error)
  | EDiscovery
  | ECredentialUnreadable
  | ECredentialEmpty
  | ETable (e : table_error).

Section handler.
Context (u : Unicode) (parse : string → option URL) (with_path : URL → string → string).
Context (LabelsParse : string → bool) (order : gset AffinityTree.loc → list AffinityTree.loc).
Context (env : Env).

Definition IsKnownHostedProvider (endpoint : string) : bool :=
  match parse endpoint with
  | None => false
  | Some p => existsb (λ known, Contains (lit (lowered u (u_Hostname p))) (lit known)) knownHostedProviders
  end.

Definition probeIsEngine (endpoint : string) : bool :=
  if IsKnownHostedProvider endpoint then false
  else
    let own := match get env (ResolveURL parse with_path endpoint "/metrics") with
               | Some body => Contains body (lit "vllm:") || Contains body (lit "sglang:")
               | None => false
               end in
    own || (if get env (ResolveURL parse with_path endpoint "/v1/models") then true else false).

(** [poolName]; the name made of the index is never reached, the trimmed text being not
    empty by then. *)
Definition poolName (patterns : bytes) : string :=
  let p := TrimSpace u patterns in
  if bool_decide (p = []) || bool_decide (p = lit "*") then DefaultPoolName
  else text ((λ c, if c =? 44 then 45 else c) <$> p).

Definition name_of (rt : Route_) : string := if bool_decide (rt_Name rt = ""%string) then poolName (rt_Patterns rt) else rt_Name rt.

Definition passive_ep (rt : Route_) (ep : string) : bool := rt_Passive rt || negb (probeIsEngine ep).
Definition not_engines (rt : Route_) : list string :=
  if rt_Passive rt then [] else filter (λ ep, probeIsEngine ep = false) (rt_Endpoints rt).

Definition transparent_of (rt : Route_) : bool :=
  (List.length (rt_Endpoints rt) =? 1)%nat && (List.length (filter (λ ep, passive_ep rt ep = true) (rt_Endpoints rt)) =? 1)%nat
  && bool_decide (rt_DiscoverySelector rt = ""%string).

Definition pool_config (o : Options) (rt : Route_) : PConfig :=
  let name := name_of rt in
  let '(flow, pflow) := roleFlowConfigs o in
  MkPConfig name ((λ ep, MkPBackend ep "" "" "" 0 (passive_ep rt ep) false) <$> rt_Endpoints rt) (with_name name flow)
    (healthConfig o) 1 "openai" (oDrainDeadline o) (prefillConfig o) (pdPrefillFor u o rt) (Some (with_name name pflow)).

(** [startPodDiscovery]: the discoverer it starts. *)
Definition namespace_file : string := "/var/run/secrets/kubernetes.io/serviceaccount/namespace".
Definition startPodDiscovery (rt : Route_) : option Discoverer :=
  if negb (in_cluster env) then None
  else match read_file env namespace_file with
       | None => None
       | Some b =>
           let port := if rt_DiscoveryPort rt <=? 0 then 8000 else rt_DiscoveryPort rt in
           match Discovery.New LabelsParse (MkDConfig ModePod (text (TrimSpace u b)) "" (rt_DiscoverySelector rt) port
                                              (rt_DiscoveryPortName rt) "http" 0 1 "openai") with
           | inl d => Some d
           | inr _ => None
           end
       end.

Definition autoMode (o : Options) : string := if bool_decide (oAutoModel o = ""%string) then "auto"%string else oAutoModel o.

(** The pool as the routing table sees it, under the pointers of route [i]. *)
Definition pool_at (i : nat) (p : Pool.Pool) : Routing.Pool :=
  let ptr := Pos.of_succ_nat i in
  Routing.MkPool (lit (pl_Name p)) ptr ptr (const ptr <$> pl_split p) (pl_pd p) (const ptr <$> pl_pdflow p).

Record built := MkBuilt { bt_pool : Pool.Pool; bt_discovery : option Discoverer; bt_rule : Rule; bt_retired : list string }.

Definition build_route (o : Options) (i : nat) (rt : Route_) : built + serve_error :=
  match Pool.New u (Url.Canonical u parse) order (pool_config o rt) with
  | inr e => inr (EPool e)
  | inl p =>
      let disc := if bool_decide (rt_DiscoverySelector rt = ""%string) then Some None else Some <$> startPodDiscovery rt in
      match disc with
      | None => inr EDiscovery
      | Some d =>
          let cred := if bool_decide (rt_CredentialFile rt = ""%string) then inl []
                      else match read_file env (rt_CredentialFile rt) with
                           | None => inr ECredentialUnreadable
                           | Some b => let c := TrimSpace u b in if bool_decide (c = []) then inr ECredentialEmpty else inl c
                           end in
          match cred with
          | inr e => inr e
          | inl c =>
              let transparent := transparent_of rt in
              let auto := bool_decide (rt_RewriteModel rt = []) && negb (bool_decide (autoMode o = "off"%string)) && negb transparent in
              inl (MkBuilt p d
                     (MkRule (NormalizePatterns u (rt_Patterns rt)) (Some (pool_at i p)) (rt_RewriteModel rt)
                        (if auto then Some None else None) (rt_StripAuth rt) c (rt_ForwardClientCredential rt) transparent)
                     (not_engines rt))
          end
      end
  end.

Fixpoint build_routes (o : Options) (i : nat) (rts : list Route_) : list built + serve_error :=
  match rts with
  | [] => inl []
  | rt :: rts =>
      match build_route o i rt with
      | inr e => inr e
      | inl b => match build_routes o (S i) rts with inr e => inr e | inl bs => inl (b :: bs) end
      end
  end.

Definition load_key (o : Options) : Options + serve_error :=
  if bool_decide (oAPIKeyFile o = ""%string) then inl o
  else match read_file env (oAPIKeyFile o) with
       | None => inr EKeyFileUnreadable
       | Some b => let k := TrimSpace u b in if bool_decide (k = []) then inr EKeyFileEmpty else inl (set_APIKey k o)
       end.

Record assembled := MkAssembled { as_opts : Options; as_built : list built; as_table : Table; as_gateway : Surface.Config; as_retry : RetryConfig }.

Definition Handler (o : Options) : assembled + serve_error :=
  if bool_decide (oRoutes o = []) then inr ENoRoutes
  else
    match load_key (withDefaults o) with
    | inr e => inr e
    | inl o =>
        match validateRouting o with
        | Some f => inr (ERouting f)
        | None =>
            match validatePD u o with
            | Some e => inr (EPD e)
            | None =>
                match build_routes o 0 (oRoutes o) with
                | inr e => inr e
                | inl bs =>
                    match NewTable (bt_rule <$> bs) with
                    | inr e => inr (ETable e)
                    | inl t => inl (MkAssembled o bs t (gatewayConfig (bool_decide (oAPIKey o = [])) o) (retryConfig o))
                    end
                end
            end
        end
    end.
End handler.

(** ** The assembled router *)

Section assembly.
Context (u : Unicode) (parse : string → option URL) (with_path : URL → string → string).
Context (LabelsParse : string → bool) (order : gset AffinityTree.loc → list AffinityTree.loc).
Context (env : Env).

Lemma build_routes_spec o rts : ∀ i bs, build_routes u parse with_path LabelsParse order env o i rts = inl bs →
  List.length bs = List.length rts ∧
  ∀ j rt b, rts !! j = Some rt → bs !! j = Some b → build_route u parse with_path LabelsParse order env o (i + j) rt = inl b.
Proof.
  induction rts as [|rt rts IH]; intros i bs; cbn [build_routes].
  - intros [= <-]. done.
  - destruct (build_route _ _ _ _ _ _ o i rt) as [b|] eqn:Hb; [|done]. destruct (build_routes _ _ _ _ _ _ o (S i) rts) as [bs'|] eqn:Hbs; [|done].
    intros [= <-]. destruct (IH _ _ Hbs) as [Hl Hr]. split; [cbn; by rewrite Hl|]. intros [|j] rt' b'; cbn.
    + intros [= <-] [= <-]. by rewrite Nat.add_0_r.
    + rewrite Nat.add_succ_r. apply Hr.
Qed.

Lemma transparent_spec rt :
  transparent_of u parse with_path env rt = true ↔
  ∃ ep, rt_Endpoints rt = [ep] ∧ passive_ep u parse with_path env rt ep = true ∧ rt_DiscoverySelector rt = ""%string.
Proof.
  unfold transparent_of. rewrite !andb_true_iff, !Nat.eqb_eq, bool_decide_eq_true. split.
  - intros [[H1 H2] H3]. destruct (rt_Endpoints rt) as [|ep [|]]; try done. exists ep. split_and!; [done| |done].
    rewrite filter_cons in H2. by destruct (decide _).
  - intros (ep & -> & Hp & Hs). split_and!; [done| |done]. rewrite filter_cons, decide_True by done. done.
Qed.

(** What one route becomes. *)
Record route_built (o : Options) (i : nat) (rt : Route_) (b : built) : Prop := {
  rb_pool : Pool.New u (Url.Canonical u parse) order (pool_config u parse with_path env o rt) = inl (bt_pool b);
  rb_target : rPool (bt_rule b) = Some (pool_at i (bt_pool b));
  rb_transparent : rTransparent (bt_rule b) = transparent_of u parse with_path env rt;
  rb_auto : AutoModel (bt_rule b) = if bool_decide (rt_RewriteModel rt = [] ∧ autoMode o ≠ "off"%string ∧ transparent_of u parse with_path env rt = false)
                                    then Some None else None;
  rb_rewrite : rRewriteModel (bt_rule b) = rt_RewriteModel rt;
  rb_strip : rStripAuth (bt_rule b) = rt_StripAuth rt;
  rb_forward : rForward (bt_rule b) = rt_ForwardClientCredential rt;
  rb_patterns : Patterns (bt_rule b) = NormalizePatterns u (rt_Patterns rt);
  rb_credential : rt_CredentialFile rt = ""%string ∧ rCredential (bt_rule b) = [] ∨
                  rCredential (bt_rule b) ≠ [] ∧ ∃ f, read_file env (rt_CredentialFile rt) = Some f ∧ rCredential (bt_rule b) = TrimSpace u f;
  rb_retired : bt_retired b = not_engines u parse with_path env rt;
  rb_discovery : (bt_discovery b = None ↔ rt_DiscoverySelector rt = ""%string) ∧
                 ∀ d, bt_discovery b = Some d → config_ok (dcfg d) ∧ Discovery.Selector (dcfg d) = rt_DiscoverySelector rt ∧ in_cluster env = true;
}.

Lemma build_route_spec o i rt b :
  build_route u parse with_path LabelsParse order env o i rt = inl b → route_built o i rt b.
Proof.
  unfold build_route. destruct (Pool.New _ _ _ _) as [p|] eqn:Hp; [|done].
  assert (Hd : ∀ d, startPodDiscovery u LabelsParse env rt = Some d →
    config_ok (dcfg d) ∧ Discovery.Selector (dcfg d) = rt_DiscoverySelector rt ∧ in_cluster env = true).
  { intros d. unfold startPodDiscovery. destruct (in_cluster env); [|done]. cbn [negb]. destruct (read_file env namespace_file); [|done].
    destruct (Discovery.New _ _) as [d'|] eqn:Hn; [|done]. intros [= <-]. apply discoverer_ok in Hn as [Hok He]. split; [done|]. by rewrite He. }
  set (disc := if bool_decide (rt_DiscoverySelector rt = ""%string) then _ else _). destruct disc as [d|] eqn:Hdisc; [|done].
  set (cred := if bool_decide (rt_CredentialFile rt = ""%string) then _ else _). destruct cred as [c|] eqn:Hcred; [|done].
  intros [= <-]. constructor; cbn [bt_pool bt_rule bt_retired bt_discovery rPool rTransparent AutoModel rRewriteModel rStripAuth rForward Patterns rCredential];
    try done.
  - destruct (bool_decide_reflect (rt_RewriteModel rt = [])), (bool_decide_reflect (autoMode o = "off"%string)),
      (transparent_of u parse with_path env rt); cbn [andb negb]; case_bool_decide; naive_solver.
  - unfold cred in Hcred. destruct (bool_decide_reflect (rt_CredentialFile rt = ""%string)); [left; split; congruence|].
    destruct (read_file env (rt_CredentialFile rt)) as [f|]; [|done]. destruct (bool_decide_reflect (TrimSpace u f = [])); [done|].
    injection Hcred as <-. right. split; [done|]. by exists f.
  - unfold disc in Hdisc. destruct (bool_decide_reflect (rt_DiscoverySelector rt = ""%string)); [injection Hdisc as <-; done|].
    destruct (startPodDiscovery _ _ _ _) as [d'|] eqn:Hs; cbn in Hdisc; [|done]. injection Hdisc as <-. split; [done|].
    intros ? [= <-]. by apply Hd.
Qed.

End assembly.

(** ** Asking a pool what it serves *)

Definition autoModelAttempts : nat := 5.

(** [listModels]'s answer: the identifiers of the listing, empty ones left out. *)
Definition listing (ids : list bytes) : list bytes := filter (λ m, m ≠ []) ids.

Definition pickAutoModel (mode : string) (models : list bytes) : bytes :=
  if bool_decide (mode = "force"%string) then match models with m :: _ => m | [] => [] end
  else if bool_decide (mode = "auto"%string) then match models with [m] => m | _ => [] end
  else [].

(** One turn of the resolver: the instant, the registry then, and what each backend answers
    to a model listing. *)
Record ask_round := MkRound { rd_now : Z; rd_reg : Registry.Registry; rd_answer : string → option (list bytes) }.

Definition rd_avail (r : ask_round) : list string :=
  (λ l, Backend.URL (Registry.store (rd_reg r) !!! l)) <$> Available_ (rd_now r) (rd_reg r) (cur (rd_reg r)).

Inductive settled := Pending (attempts : nat) | GaveUp | LeftAlone | Rewrites (m : bytes).

(** [resolveAutoModel] over the turns taken before the context ends. *)
Fixpoint resolveAutoModel (mode : string) (attempts : nat) (rounds : list ask_round) : settled :=
  match rounds with
  | [] => Pending attempts
  | r :: rounds =>
      match rd_avail r with
      | [] => resolveAutoModel mode attempts rounds
      | avail =>
          match first_some (rd_answer r) avail with
          | None => if (autoModelAttempts <=? S attempts)%nat then GaveUp else resolveAutoModel mode (S attempts) rounds
          | Some ids => match pickAutoModel mode (listing ids) with [] => LeftAlone | m => Rewrites m end
          end
      end
  end.

(** Turns in which there was someone to ask, and turns in which someone answered. *)
Definition askable (r : ask_round) : bool := negb (bool_decide (rd_avail r = [])).
Definition answered (r : ask_round) : bool := existsb (λ b, if rd_answer r b then true else false) (rd_avail r).

Lemma first_some_Some {A B} (f : A → option B) l y : first_some f l = Some y → ∃ x, x ∈ l ∧ f x = Some y.
Proof.
  induction l as [|x l IH]; cbn; [done|]. destruct (f x) as [z|] eqn:Hx.
  - intros [= <-]. exists x. split; [by left|done].
  - intros (z & ? & ?)%IH. exists z. split; [by right|done].
Qed.

Lemma answered_spec r : answered r = true ↔ ∃ ids, first_some (rd_answer r) (rd_avail r) = Some ids.
Proof.
  unfold answered. split.
  - intros (b & Hb%list_elem_of_In & Ha)%existsb_exists. destruct (first_some (rd_answer r) (rd_avail r)) as [ids|] eqn:Hf; [by eexists|].
    rewrite first_some_None in Hf. rewrite (Hf b Hb) in Ha. done.
  - intros (ids & (b & Hb & Ha)%first_some_Some). apply existsb_exists. exists b. split; [by apply list_elem_of_In|]. by rewrite Ha.
Qed.


(** ** A concrete router *)

Definition demo_route (eps : list string) (selector : string) : Route_ :=
  MkRoute (lit "*") eps [] false "" "" false selector 0 "" false.
Definition demo_options (cost : bool) (routes : list Route_) (pd : list string) : Options :=
  MkOptions routes [] "" [] [] false 0 0 10 0 0 0 false false cost f0 false pd (if pd then 0 else 2) (if pd then 0 else 4) 0 0 0 f0 0 0 "" f0 f0 0 0 0 0 0 0 0 "" false 0 0 0.
Definition demo_env : Env := MkEnv (λ _, None) (λ url, if bool_decide (url = "http://gpu1:80/metrics"%string) then Some (lit "vllm:x") else None) false.
Definition demo_with_path (p : URL) (path : string) : string := u_Scheme p ++ "://" ++ u_Hostname p ++ path.

Lemma pd_sound_witness :
  ∃ ep, ep ∈ ["http://p:1"%string; "http://d:1"%string] ∧
    ep ∉ pdPrefillFor UrlEx.u (demo_options false [demo_route ["http://p:1"; "http://d:1"] ""] ["http://p:1/"]) (demo_route ["http://p:1"; "http://d:1"] "").
Proof.
  destruct (pd_sound UrlEx.u (demo_options false [demo_route ["http://p:1"; "http://d:1"] ""] ["http://p:1/"]))
    as (_ & _ & H & _); [vm_compute; reflexivity|done|].
  apply (H (demo_route ["http://p:1"; "http://d:1"] "")); [by left|done|vm_compute; discriminate].
Defined.

Definition demo_routes : list Route_ := [demo_route ["http://gpu1:80"; "http://hosted:443"] ""].
Definition demo_handler : assembled + serve_error :=
  Handler UrlEx.u UrlEx.parse demo_with_path (λ _, true) elements demo_env (demo_options false demo_routes []).


Definition demo_round (answers : string → option (list bytes)) : ask_round := MkRound 0 (pl_reg demo_pool) answers.

(** Prefill nodes are remembered by the URL as it was written, up to blanks and trailing
    slashes; a backend's URL is canonical.  Written without its port, an endpoint that the
    validation accepts as a prefill node is a decode node. *)
Definition demo_pd_options : Options := demo_options false [demo_route ["http://p"; "http://d"] ""] ["http://p"].

Definition demo_pd_handler : assembled + serve_error :=
  Handler UrlEx.u UrlEx.parse demo_with_path (λ _, true) elements demo_env demo_pd_options.
Definition demo_pd_pools : list Pool.Pool := match demo_pd_handler with inl a => bt_pool <$> as_built a | inr _ => [] end.

Lemma pd_role_lost :
  validatePD UrlEx.u demo_pd_options = None ∧ pdPrefillFor UrlEx.u demo_pd_options (demo_route ["http://p"; "http://d"] "") = ["http://p"%string] ∧
  (λ p, (pl_pd p, size (byURL (cur (pl_reg p))),
         PrefillNodes UrlEx.u (default [] (pl_pd p)) (Registry.store (pl_reg p)) (Backends (cur (pl_reg p))))) <$> demo_pd_pools =
    [(Some [lit "http://p"], 2%nat, [])].
Proof. split_and!; vm_compute; reflexivity. Qed.
