(* ===== verification/Capture.v ===== *)
(** * Capture: recording an exchange from outside the gateway

    [src/router/serve/capture.go].  The middleware reads the request's body, hands the
    gateway an equal one, tees the response and records the exchange when the handler
    returns.  A handler is what it does to the response writer, given the body it can read;
    a panic ends it without a return. *)

From stdpp Require Import base list.
From Stdlib Require Import ZArith Lia.
From S2P Require Import Prelude KvUnits StreamScan.
Open Scope Z_scope.

(** ** The response writer *)

Inductive act := AHeader (st : Z) | AWrite (b : bytes) | AFlush.

Definition captureBodyLimit : nat := Z.to_nat (Z.shiftl 1 20).

Record captureWriter := CW { cw_status : Z; cw_keep : bool; cw_body : bytes; cw_out : list act }.
Definition new_writer (keep : bool) : captureWriter := CW 0 keep [] [].

(** Each method: what it notes, and what it passes on to the writer it wraps. *)
Definition WriteHeader (st : Z) (c : captureWriter) : captureWriter := CW st (cw_keep c) (cw_body c) (cw_out c ++ [AHeader st]).
Definition Write (b : bytes) (c : captureWriter) : captureWriter :=
  let st := if cw_status c =? 0 then 200 else cw_status c in
  let body := if cw_keep c && (length (cw_body c) <? captureBodyLimit)%nat
              then cw_body c ++ take (Nat.min (length b) (captureBodyLimit - length (cw_body c))) b else cw_body c in
  CW st (cw_keep c) body (cw_out c ++ [AWrite b]).
Definition Flush (c : captureWriter) : captureWriter := CW (cw_status c) (cw_keep c) (cw_body c) (cw_out c ++ [AFlush]).
Definition statusOr (def : Z) (c : captureWriter) : Z := if cw_status c =? 0 then def else cw_status c.

Definition do_act (c : captureWriter) (a : act) : captureWriter :=
  match a with AHeader st => WriteHeader st c | AWrite b => Write b c | AFlush => Flush c end.

(** ** The middleware *)

(** A body: what can be read of it, and whether reading ends in an error. *)
Record body := Body { content : bytes; broken : bool }.

Record request := Request { r_get : bool; r_body : option body }.

(** What the handler does with the request it is given. *)
Record exchange := Exchange { x_acts : list act; x_pool : bytes; x_panics : bool }.

Record Captured := MkCaptured { c_id : Z; c_req : bytes; c_resp : bytes; c_status : Z; c_pool : bytes }.

(** [io.ReadAll] leaves nothing to read; after an error the body is not put back. *)
Definition read_body (r : request) : bytes * request :=
  match r_body r with
  | Some b => if r_get r then ([], r)
              else if broken b then ([], Request (r_get r) (Some (Body [] true)))
              else (content b, Request (r_get r) (Some (Body (content b) false)))
  | None => ([], r)
  end.

Record hook := Hook { h_seq : Z; h_records : list Captured }.

Section capture.
Context (keepBody : bool) (next : request → exchange).

(** The response the client gets, and the hook's state after. *)
Definition serve (r : request) (h : hook) : list act * hook :=
  let id := u64 (h_seq h + 1) in
  let '(reqBody, r') := read_body r in
  let x := next r' in
  let c := foldl do_act (new_writer keepBody) (x_acts x) in
  (cw_out c, if x_panics x then Hook id (h_records h)
             else Hook id (h_records h ++ [MkCaptured id reqBody (cw_body c) (statusOr 200 c) (x_pool x)])).

Fixpoint serve_all (rs : list request) (h : hook) : hook :=
  match rs with [] => h | r :: rs => serve_all rs (serve r h).2 end.
End capture.

(** ** What is recorded *)

(** The bytes of a response, and the status a server sends: the first that is not
    informational, and 200 for a body without one or for nothing at all. *)
Definition written (acts : list act) : bytes := mjoin ((λ a, match a with AWrite b => b | _ => [] end) <$> acts).
Fixpoint sent_status (acts : list act) : Z :=
  match acts with
  | [] => 200
  | AHeader st :: acts => if 200 <=? st then st else sent_status acts
  | AWrite _ :: _ => 200
  | AFlush :: _ => 200
  end.

(** A handler that behaves: informational headers, then at most one final one, then the
    body. *)
Inductive orderly : list act → Prop :=
  | or_bare acts : Forall (λ a, match a with AHeader _ => False | _ => True end) acts → orderly acts
  | or_final st acts : 200 ≤ st → Forall (λ a, match a with AHeader _ => False | _ => True end) acts → orderly (AHeader st :: acts)
  | or_info st fst_ acts : 0 < st < 200 → orderly (AHeader fst_ :: acts) → orderly (AHeader st :: AHeader fst_ :: acts).

Lemma acts_pass c acts : cw_out (foldl do_act c acts) = cw_out c ++ acts.
Proof.
  revert c. induction acts as [|a acts IH]; intros c; cbn; [by rewrite app_nil_r|].
  rewrite IH. destruct a; cbn; by rewrite <-app_assoc.
Qed.

Lemma acts_keep c acts : cw_keep (foldl do_act c acts) = cw_keep c.
Proof. revert c. induction acts as [|a acts IH]; intros c; cbn; [done|]. rewrite IH. by destruct a. Qed.

Lemma take_room (a b : bytes) n : (length a ≤ n)%nat → a ++ take (Nat.min (length b) (n - length a)) b = take n (a ++ b).
Proof.
  intros Hl. rewrite take_app, (take_ge a) by lia. f_equal.
  destruct (Nat.le_ge_cases (length b) (n - length a)) as [H|H]; [rewrite Nat.min_l, !take_ge by lia; done|by rewrite Nat.min_r by lia].
Qed.

Lemma acts_body c acts : (length (cw_body c) ≤ captureBodyLimit)%nat →
  cw_body (foldl do_act c acts) = if cw_keep c then take captureBodyLimit (cw_body c ++ written acts) else cw_body c.
Proof.
  revert c. induction acts as [|a acts IH]; intros c Hl.
  - cbn [foldl written fmap list_fmap mjoin list_join]. destruct (cw_keep c); [|done]. rewrite app_nil_r. by rewrite take_ge.
  - cbn [foldl]. destruct a as [st|b|]; cbn [do_act].
    + rewrite IH by done. done.
    + unfold written. cbn [fmap list_fmap mjoin list_join]. fold (written acts). unfold Write. destruct (cw_keep c) eqn:Hk; cbn [andb cw_keep cw_body].
      2: { rewrite IH by done. cbn [cw_keep]. by rewrite ?Hk. }
      destruct (Nat.ltb_spec (length (cw_body c)) captureBodyLimit) as [Hlt|Hge].
      * rewrite take_room by done. rewrite IH by (cbn [cw_body]; rewrite length_take; lia). cbn [cw_keep cw_body]. rewrite ?Hk.
        rewrite app_assoc. generalize (cw_body c ++ b) as l. intros l.
        destruct (Nat.le_ge_cases (length l) captureBodyLimit) as [H|H]; [by rewrite (take_ge l)|].
        rewrite (take_app_le l) by done. rewrite take_app_le by (rewrite length_take; lia). by rewrite take_take, Nat.min_id.
      * rewrite IH by done. cbn [cw_keep cw_body]. rewrite ?Hk, !take_app, !(take_ge (cw_body c)) by lia.
        replace (captureBodyLimit - length (cw_body c))%nat with 0%nat by lia. by rewrite !take_0.
    + rewrite IH by done. done.
Qed.

Lemma bare_status c acts : Forall (λ a, match a with AHeader _ => False | _ => True end) acts → cw_status c ≠ 0 →
  cw_status (foldl do_act c acts) = cw_status c.
Proof.
  intros Ha. revert c. induction Ha as [|a acts Ha _ IH]; intros c Hc; cbn; [done|]. destruct a as [|b|]; [done| |].
  - rewrite IH; cbn; destruct (Z.eqb_spec (cw_status c) 0); done.
  - by rewrite IH.
Qed.

Lemma orderly_status c acts : orderly acts → cw_status c = 0 → statusOr 200 (foldl do_act c acts) = sent_status acts.
Proof.
  intros Ho. revert c. induction Ho as [acts Ha|st acts Hst Ha|st st' acts Hst Ho IH]; intros c Hc.
  - assert (sent_status acts = 200) as -> by (destruct Ha as [|[] ? ?]; done).
    revert c Hc. induction Ha as [|a acts Ha Hall IH]; intros c Hc; cbn; [unfold statusOr; by rewrite Hc|].
    destruct a as [|b|]; [done| |by apply IH].
    unfold statusOr. rewrite bare_status; cbn; by rewrite ?Hc.
  - cbn [foldl do_act sent_status]. rewrite (proj2 (Z.leb_le 200 st)) by done. unfold statusOr. rewrite bare_status by (done || (cbn; lia)).
    cbn. rewrite (proj2 (Z.eqb_neq st 0)) by lia. done.
  - cbn [foldl do_act]. cbn [sent_status]. rewrite (proj2 (Z.leb_gt 200 st)) by lia.
    cbn [sent_status] in IH. rewrite <-(IH c Hc). cbn [foldl do_act]. unfold statusOr.
    assert (Heq : ∀ l c1 c2, cw_status c1 = cw_status c2 → cw_status (foldl do_act c1 l) = cw_status (foldl do_act c2 l)).
    { clear. induction l as [|a l IH]; intros c1 c2 H; cbn; [done|]. apply IH. destruct a; cbn; by rewrite ?H. }
    by rewrite (Heq acts (WriteHeader st' (WriteHeader st c)) (WriteHeader st' c) eq_refl).
Qed.

(** capture changes nothing and records what happened.  The client gets the handler's
    response as it was written; the handler reads the request's body as the client sent it;
    the record holds that body, the first megabyte of the response when bodies are kept, and
    for a handler that behaves the status that was sent. *)
Theorem capture_faithful keep next r h :
  let x := next (read_body r).2 in
  let '(resp, h') := serve keep next r h in
  resp = x_acts x ∧
  (∀ b, r_body r = Some b → broken b = false → r_body (read_body r).2 = Some b) ∧
  (x_panics x = false → ∃ c, h_records h' = h_records h ++ [c] ∧ c_id c = h_seq h' ∧
     c_resp c = (if keep then take captureBodyLimit (written (x_acts x)) else []) ∧
     (orderly (x_acts x) → c_status c = sent_status (x_acts x)) ∧
     (∀ b, r_body r = Some b → r_get r = false → broken b = false → c_req c = content b)) ∧
  (x_panics x = true → h_records h' = h_records h).
Proof.
  cbn zeta. unfold serve. destruct (read_body r) as [rb r'] eqn:Hrb. cbn [snd]. split_and!.
  - by rewrite acts_pass.
  - intros b Hb Hok. unfold read_body in Hrb. rewrite Hb, Hok in Hrb. destruct (r_get r); injection Hrb as <- <-; [done|]. by destruct b; cbn in *; subst.
  - intros ->. eexists. split; [reflexivity|]. cbn [c_id c_resp c_status c_req h_seq]. split_and!; [done| | |].
    + rewrite acts_body by (cbn; lia). done.
    + intros Ho. by apply orderly_status.
    + intros b Hb Hg Hok. unfold read_body in Hrb. rewrite Hb, Hg, Hok in Hrb. by injection Hrb as <- _.
  - by intros ->.
Qed.

(** records are numbered in order and never share a number, until the counter wraps. *)
Theorem capture_numbered keep next rs h :
  0 ≤ h_seq h → h_seq h + Z.of_nat (length rs) < two64 → Forall (λ c, c_id c ≤ h_seq h) (h_records h) → NoDup (c_id <$> h_records h) →
  let h' := serve_all keep next rs h in
  h_seq h' = h_seq h + Z.of_nat (length rs) ∧ NoDup (c_id <$> h_records h') ∧ Forall (λ c, c_id c ≤ h_seq h') (h_records h').
Proof.
  revert h. induction rs as [|r rs IH]; intros h H0 Hb Hle Hnd; cbn [serve_all length].
  - split_and!; [cbn; lia|done|done].
  - assert (Hs : h_seq (serve keep next r h).2 = h_seq h + 1).
    { unfold serve. destruct (read_body r) as [rb r']. cbn [length] in Hb. assert (u64 (h_seq h + 1) = h_seq h + 1) as He by (apply Z.mod_small; lia).
      cbn [snd]. destruct (x_panics _); cbn; lia. }
    assert (Hr : h_records (serve keep next r h).2 = h_records h ∨ ∃ c, h_records (serve keep next r h).2 = h_records h ++ [c] ∧ c_id c = h_seq h + 1).
    { unfold serve in *. destruct (read_body r) as [rb r']. cbn [snd] in *. destruct (x_panics _); [by left|right]. eexists. split; [reflexivity|]. exact Hs. }
    destruct (IH (serve keep next r h).2) as (H1 & H2 & H3); [lia|cbn [length] in Hb; lia| | |].
    + assert (Forall (λ c, c_id c ≤ h_seq (serve keep next r h).2) (h_records h)) as Hl by (eapply Forall_impl; [exact Hle|]; cbn; intros; lia).
      destruct Hr as [->|(c & -> & Hc)]; [done|]. apply Forall_app. split; [done|]. constructor; [lia|done].
    + destruct Hr as [->|(c & -> & Hc)]; [done|]. rewrite fmap_app. apply NoDup_app. split_and!; [done| |apply NoDup_singleton].
      intros i (c' & -> & Hc')%list_elem_of_fmap Hi%list_elem_of_singleton. rewrite Forall_forall in Hle. specialize (Hle _ Hc'). cbn in *. lia.
    + split_and!; [rewrite H1, Hs; lia|done|done].
Qed.

(** ** Witness *)

Definition demo_next (r : request) : exchange := Exchange [AHeader 103; AHeader 206; AWrite [1; 2]; AFlush; AWrite [3]] [] false.

Example demo_capture : h_records (serve true demo_next (Request false (Some (Body [9] false))) (Hook 0 [])).2 = [MkCaptured 1 [9] [1; 2; 3] 206 []].
Proof. vm_compute. reflexivity. Qed.

Lemma capture_numbered_witness :
  NoDup (c_id <$> h_records (serve_all true demo_next [Request true None; Request false None] (Hook 0 []))).
Proof.
  apply (capture_numbered true demo_next [Request true None; Request false None] (Hook 0 [])); [done|done|constructor|constructor].
Defined.
