(* ===== verification/Floats.v ===== *)
(** * Floats: float64 arithmetic on integers

    Go's [float64] carries counters: below 2^53 adding, subtracting and comparing integers
    is exact.  Proved of the standard library's executable specification, by way of the one
    normal form an integer has. *)

From stdpp Require Import base list.
From Stdlib Require Import ZArith Lia.
From Corelib Require Import SpecFloat.
From S2P Require Import Prelude.
Open Scope Z_scope.

Definition exact_bound : Z := 2 ^ 53.

(** ** The normal form of an integer *)

Definition bits (z : Z) : Z := Z.log2 z + 1.
Definition normal (z : Z) : float64 :=
  if z =? 0 then S754_zero false else S754_finite false (Z.to_pos (z * 2 ^ (53 - bits z))) (bits z - 53).

Lemma digits2_bits p : Zpos (digits2_pos p) = bits (Zpos p).
Proof.
  unfold bits. induction p as [p IH|p IH|]; cbn [digits2_pos]; [| |done]; rewrite Pos2Z.inj_succ, IH.
  - rewrite (Pos2Z.inj_xI p), Z.add_1_r, Z.log2_succ_double by lia. lia.
  - rewrite (Pos2Z.inj_xO p), Z.log2_double by lia. lia.
Qed.

Lemma bits_shift z k : 0 < z → 0 ≤ k → bits (z * 2 ^ k) = bits z + k.
Proof. intros Hz Hk. unfold bits. rewrite <-Z.shiftl_mul_pow2 by done. rewrite Z.log2_shiftl by lia. lia. Qed.

Lemma bits_range z : 0 < z < exact_bound → 1 ≤ bits z ≤ 53.
Proof.
  unfold bits, exact_bound. intros [H1 H2]. pose proof (Z.log2_nonneg z). apply Z.log2_lt_pow2 in H2; lia.
Qed.

Lemma shift_out p z : 0 < z → iter_pos shr_1 p (Build_shr_record (z * 2 ^ Zpos p) false false) = Build_shr_record z false false.
Proof.
  assert (Hone : ∀ y, 0 < y → shr_1 (Build_shr_record (y * 2) false false) = Build_shr_record y false false).
  { intros [|y|y] Hy; [lia| |lia]. rewrite Z.mul_comm. done. }
  assert (Hsq : ∀ q, 2 ^ Zpos q * 2 ^ Zpos q = 2 ^ (2 * Zpos q)) by (intros q; rewrite <-Z.pow_add_r by lia; f_equal; lia).
  assert (Hpow : ∀ q, 0 < 2 ^ Zpos q) by (intros q; apply Z.pow_pos_nonneg; lia).
  revert z. induction p as [p IH|p IH|]; intros z Hz; cbn [iter_pos].
  - pose proof (Hpow p). rewrite (Pos2Z.inj_xI p), Z.pow_add_r by lia. rewrite <-(Hsq p), Z.pow_1_r, !Z.mul_assoc, Hone, !IH by nia. done.
  - pose proof (Hpow p). rewrite (Pos2Z.inj_xO p), <-(Hsq p), Z.mul_assoc, !IH by nia. done.
  - rewrite Z.pow_1_r. by apply Hone.
Qed.

(** A positive integer written with [k] extra bits rounds to its normal form. *)
Lemma iter_xO m d : Zpos (Pos.iter xO m d) = Zpos m * 2 ^ Zpos d.
Proof.
  revert m. induction d as [|d IH] using Pos.peano_ind; intros m; [cbn; lia|].
  rewrite Pos.iter_succ, (Pos2Z.inj_xO (Pos.iter xO m d)), IH, Pos2Z.inj_succ, Z.pow_succ_r by lia. lia.
Qed.

Definition normal_shape (z : Z) : shr_record := Build_shr_record (z * 2 ^ (53 - bits z)) false false.

Lemma normal_pos z : 0 < z < exact_bound → 0 < z * 2 ^ (53 - bits z).
Proof. intros Hz. pose proof (bits_range z Hz). apply Z.mul_pos_pos; [lia|]. apply Z.pow_pos_nonneg; lia. Qed.

Lemma shr_done z : 0 < z < exact_bound → shr_fexp 53 1024 (z * 2 ^ (53 - bits z)) (bits z - 53) loc_Exact = (normal_shape z, bits z - 53).
Proof.
  intros Hz. pose proof (bits_range z Hz) as Hb. pose proof (normal_pos z Hz) as Hm0. unfold normal_shape.
  assert (Hd : Zdigits2 (z * 2 ^ (53 - bits z)) = 53).
  { pose proof (bits_shift z (53 - bits z)) as Hbs. destruct (z * 2 ^ (53 - bits z)) as [|m|m]; [lia| |lia]. cbn [Zdigits2]. rewrite digits2_bits. lia. }
  unfold shr_fexp. rewrite Hd. replace (fexp 53 1024 (53 + (bits z - 53)) - (bits z - 53)) with 0 by (unfold fexp, emin; lia). done.
Qed.

(** Whatever the first shift starts from, once it gives the normal shape the result is
    the normal form. *)
Lemma round_to_normal z m e : 0 < z < exact_bound → shr_fexp 53 1024 m e loc_Exact = (normal_shape z, bits z - 53) →
  binary_round_aux 53 1024 false m e loc_Exact = normal z.
Proof.
  intros Hz Hs. pose proof (bits_range z Hz) as Hb. pose proof (normal_pos z Hz) as Hm0.
  unfold binary_round_aux. rewrite Hs. cbn [normal_shape loc_of_shr_record round_nearest_even shr_m]. rewrite shr_done by done. cbn [normal_shape shr_m].
  unfold normal. destruct (Z.eqb_spec z 0); [lia|]. destruct (z * 2 ^ (53 - bits z)) as [|q|q]; [lia| |lia].
  rewrite (proj2 (Z.leb_le _ _)) by lia. done.
Qed.

Lemma normalize_exact z k : 0 ≤ z < exact_bound → 0 ≤ k → binary_normalize 53 1024 (z * 2 ^ k) (- k) false = normal z.
Proof.
  intros Hz Hk. destruct (Z.eqb_spec z 0) as [->|Hne]; [done|]. assert (Hz' : 0 < z < exact_bound) by lia. clear Hz Hne.
  pose proof (bits_range z Hz') as Hb. assert (0 < 2 ^ k) by (apply Z.pow_pos_nonneg; lia).
  assert (Hm0 : 0 < z * 2 ^ k) by (apply Z.mul_pos_pos; lia). pose proof (bits_shift z k ltac:(lia) Hk) as Hbs.
  destruct (z * 2 ^ k) as [|m|m] eqn:Hm; [lia| |lia]. cbn [binary_normalize]. unfold binary_round. rewrite digits2_bits, Hbs.
  replace (fexp 53 1024 (bits z + k + - k)) with (bits z - 53) by (unfold fexp, emin; lia).
  unfold shl_align. destruct (bits z - 53 - - k) as [|d|d] eqn:Hd; apply round_to_normal; try done.
  - replace (- k) with (bits z - 53) by lia. rewrite <-Hm. replace k with (53 - bits z) by lia. by apply shr_done.
  - unfold shr_fexp. cbn [Zdigits2]. rewrite digits2_bits, Hbs.
    replace (fexp 53 1024 (bits z + k + - k) - - k) with (Z.pos d) by (unfold fexp, emin; lia). cbn [shr]. f_equal; [|lia].
    rewrite <-Hm. replace k with (53 - bits z + Z.pos d) by lia. rewrite Z.pow_add_r, Z.mul_assoc by lia. apply shift_out.
    apply Z.mul_pos_pos; [lia|]. apply Z.pow_pos_nonneg; lia.
  - rewrite iter_xO, <-Hm. replace (z * 2 ^ k * 2 ^ Z.pos d) with (z * 2 ^ (53 - bits z)); [by apply shr_done|].
    rewrite <-Z.mul_assoc, <-Z.pow_add_r by lia. do 2 f_equal. lia.
Qed.

Lemma f64_of_Z_normal z : 0 ≤ z < exact_bound → f64_of_Z z = normal z.
Proof. intros Hz. pose proof (normalize_exact z 0 Hz ltac:(lia)) as H. by rewrite Z.pow_0_r, Z.mul_1_r in H. Qed.

(** ** Arithmetic *)

Lemma align_normal z k : 0 < z < exact_bound → 53 - bits z ≤ k →
  Zpos (fst (shl_align (Z.to_pos (z * 2 ^ (53 - bits z))) (bits z - 53) (- k))) = z * 2 ^ k.
Proof.
  intros Hz Hk. pose proof (normal_pos z Hz). pose proof (bits_range z Hz). unfold shl_align.
  destruct (- k - (bits z - 53)) as [|d|d] eqn:Hd; cbn [fst]; [|lia|].
  - rewrite Z2Pos.id by done. do 2 f_equal. lia.
  - rewrite iter_xO, Z2Pos.id, <-Z.mul_assoc, <-Z.pow_add_r by lia. do 2 f_equal. lia.
Qed.

Lemma f64_add_exact a b : 0 ≤ a → 0 ≤ b → a + b < exact_bound → f64_add (f64_of_Z a) (f64_of_Z b) = f64_of_Z (a + b).
Proof.
  intros Ha Hb Hs. rewrite !f64_of_Z_normal by lia. unfold normal at 1 2.
  destruct (Z.eqb_spec a 0) as [->|Ha0], (Z.eqb_spec b 0) as [->|Hb0]; [done| |by rewrite Z.add_0_r; unfold normal; rewrite (proj2 (Z.eqb_neq a 0))|].
  { rewrite Z.add_0_l. unfold normal. by rewrite (proj2 (Z.eqb_neq b 0)). }
  pose proof (bits_range a ltac:(lia)). pose proof (bits_range b ltac:(lia)). unfold f64_add, SFadd. cbn [cond_Zopp].
  set (k := 53 - Z.min (bits a) (bits b)). replace (Z.min (bits a - 53) (bits b - 53)) with (- k) by lia.
  rewrite !align_normal by lia. rewrite <-Z.mul_add_distr_r. apply normalize_exact; lia.
Qed.

Lemma f64_sub_exact a b : 0 ≤ b ≤ a → a < exact_bound → f64_sub (f64_of_Z a) (f64_of_Z b) = f64_of_Z (a - b).
Proof.
  intros Hb Ha. rewrite !f64_of_Z_normal by lia. unfold normal at 1 2.
  destruct (Z.eqb_spec a 0) as [->|Ha0], (Z.eqb_spec b 0) as [->|Hb0]; [done|lia|by rewrite Z.sub_0_r; unfold normal; rewrite (proj2 (Z.eqb_neq a 0))|].
  pose proof (bits_range a ltac:(lia)). pose proof (bits_range b ltac:(lia)). unfold f64_sub, SFsub. cbn [cond_Zopp].
  set (k := 53 - Z.min (bits a) (bits b)). replace (Z.min (bits a - 53) (bits b - 53)) with (- k) by lia.
  rewrite !align_normal by lia. rewrite <-Z.mul_sub_distr_r. apply normalize_exact; lia.
Qed.

Lemma bits_le a b : 0 ≤ a ≤ b → bits a ≤ bits b.
Proof. intros H. unfold bits. pose proof (Z.log2_le_mono a b). lia. Qed.

Lemma f64_ltb_exact a b : 0 ≤ a < exact_bound → 0 ≤ b < exact_bound → SFltb (f64_of_Z a) (f64_of_Z b) = (a <? b).
Proof.
  intros Ha Hb. rewrite !f64_of_Z_normal by lia. unfold normal, SFltb.
  destruct (Z.eqb_spec a 0) as [->|Ha0], (Z.eqb_spec b 0) as [->|Hb0]; cbn [SFcompare]; [done|symmetry; apply Z.ltb_lt; lia|symmetry; apply Z.ltb_ge; lia|].
  pose proof (normal_pos a ltac:(lia)) as Pa. pose proof (normal_pos b ltac:(lia)) as Pb.
  destruct (Z.compare_spec (bits a - 53) (bits b - 53)) as [He|He|He].
  - replace (bits b) with (bits a) in * by lia. pose proof (bits_range a ltac:(lia)). assert (0 < 2 ^ (53 - bits a)) by (apply Z.pow_pos_nonneg; lia).
    change (Pos.compare_cont Eq ?x ?y) with (Z.compare (Zpos x) (Zpos y)). rewrite !Z2Pos.id by done.
    rewrite <-(Zmult_compare_compat_r a b (2 ^ (53 - bits a))) by lia. unfold Z.ltb. by destruct (a ?= b).
  - symmetry. apply Z.ltb_lt. destruct (Z.lt_ge_cases a b) as [|Hge]; [done|]. pose proof (bits_le b a ltac:(lia)). lia.
  - symmetry. apply Z.ltb_ge. destruct (Z.lt_ge_cases a b) as [Hlt|]; [|done]. pose proof (bits_le a b ltac:(lia)). lia.
Qed.
