(* ===== verification/VllmMetrics.v ===== *)
(** * VllmMetrics: upstream counters summed across the fleet

    [src/router/internal/vllmmetrics/vllmmetrics.go].  The aggregator scrapes every live
    backend and adds up increments, so that its totals survive restarts.  Reading and
    printing numbers ([strconv]) and the HTTP exchange are arguments; a response is the bytes
    that arrived, whether or not the body then broke off.  Series are keyed by bytes, as they
    stand in the exposition. *)

From stdpp Require Import base gmap sets list strings sorting.
From Stdlib Require Import ZArith Lia.
From Corelib Require Import SpecFloat.
From S2P Require Import Prelude KvUnits StreamScan GoText Floats.
Open Scope Z_scope.

(** ** Configuration and state *)

Definition Sec : Z := 1000000000.
Definition DefaultInterval : Z := 30 * Sec.
Definition DefaultTimeout : Z := 10 * Sec.
Definition maxMissingCycles : Z := 120.
Definition deadAfter : Z := 2.
Definition resetsBeforeWarning : Z := 5.
Definition DefaultNames : list bytes :=
  [lit "vllm:prompt_tokens_by_source_total"; lit "sglang:cached_tokens_total"; lit "sglang:prompt_tokens_total"].

Record Config := MkConfig { Interval : Z; Timeout : Z; Names : list bytes }.

Abbreviation readings := (gmap bytes float64).

Record Aggregator := MkAgg {
  cfg : Config;
  totals : readings;
  prev : gmap string readings;
  missing : gmap string Z;
  barren : gmap string Z;
  dead : gset string;
  lastOK : Z;
  lastAsked : Z;
  resets : gmap string Z;
  warned : gset string;
}.

Definition New (c : Config) : Aggregator :=
  MkAgg (MkConfig (if Interval c <=? 0 then DefaultInterval else Interval c) (if Timeout c <=? 0 then DefaultTimeout else Timeout c)
           (if bool_decide (Names c = []) then DefaultNames else Names c)) ∅ ∅ ∅ ∅ ∅ 0 0 ∅ ∅.

Definition Retire (ep : string) (a : Aggregator) : Aggregator :=
  MkAgg (cfg a) (totals a) (prev a) (missing a) (barren a) (dead a ∪ {[ep]}) (lastOK a) (lastAsked a) (resets a) (warned a).

Definition live (a : Aggregator) (eps : list string) : list string := filter (λ ep, ep ∉ dead a) eps.
Definition Coverage (a : Aggregator) : Z * Z := (lastOK a, lastAsked a).

(** ** One scrape's results, folded in *)

(** A scrape that failed has no series. *)
Record result := MkResult { endpoint : string; series : readings }.

(** [x] of a Go map, the zero value when it is not there. *)
Definition count (m : gmap string Z) (ep : string) : Z := default 0 (m !! ep).
Definition value (m : readings) (k : bytes) : float64 := default (S754_zero false) (m !! k).

(** What one reading adds, and whether it looks like a restart. *)
Definition increment (last : option float64) (cur : float64) : float64 * bool :=
  match last with
  | None => (cur, false)
  | Some last => if SFltb cur last then (cur, true) else (f64_sub cur last, false)
  end.

Definition absorb_reading (st : readings * readings * bool) (kc : bytes * float64) : readings * readings * bool :=
  let '(tot, pv, reset) := st in
  let '(d, r) := increment (pv !! kc.1) kc.2 in
  (<[kc.1 := f64_add (value tot kc.1) d]> tot, <[kc.1 := kc.2]> pv, reset || r).

Definition noteReset (ep : string) (a : Aggregator) : Aggregator :=
  let n := count (resets a) ep + 1 in
  MkAgg (cfg a) (totals a) (prev a) (missing a) (barren a) (dead a) (lastOK a) (lastAsked a) (<[ep := n]> (resets a))
    (if (n <? resetsBeforeWarning) || bool_decide (ep ∈ warned a) then warned a else warned a ∪ {[ep]}).

Definition absorb (a : Aggregator) (r : result) : Aggregator :=
  let ep := endpoint r in
  if bool_decide (series r = ∅) then
    let n := count (barren a) ep + 1 in
    MkAgg (cfg a) (totals a) (prev a) (<[ep := 0]> (missing a)) (<[ep := n]> (barren a))
      (if deadAfter <=? n then dead a ∪ {[ep]} else dead a) (lastOK a) (lastAsked a) (resets a) (warned a)
  else
    let '(tot, pv, reset) := foldl absorb_reading (totals a, default ∅ (prev a !! ep), false) (map_to_list (series r)) in
    let a := MkAgg (cfg a) tot (<[ep := pv]> (prev a)) (<[ep := 0]> (missing a)) (<[ep := 0]> (barren a)) (dead a)
               (lastOK a + 1) (lastAsked a) (resets a) (warned a) in
    if reset then noteReset ep a else a.

(** An endpoint that did not report this cycle. *)
Definition age_one (a : Aggregator) (ep : string) : Aggregator :=
  let n := count (missing a) ep + 1 in
  if maxMissingCycles <? n
  then MkAgg (cfg a) (totals a) (delete ep (prev a)) (delete ep (missing a)) (barren a) (dead a) (lastOK a) (lastAsked a) (resets a) (warned a)
  else MkAgg (cfg a) (totals a) (prev a) (<[ep := n]> (missing a)) (barren a) (dead a) (lastOK a) (lastAsked a) (resets a) (warned a).
Definition age (seen : list string) (a : Aggregator) : Aggregator :=
  foldl age_one a (filter (λ ep, ep ∉ seen) (elements (dom (prev a)))).

Definition asking (n : nat) (a : Aggregator) : Aggregator :=
  MkAgg (cfg a) (totals a) (prev a) (missing a) (barren a) (dead a) 0 (Z.of_nat n) (resets a) (warned a).
(** The results in the order they arrive. *)
Definition fold_in (rs : list result) (a : Aggregator) : Aggregator :=
  age (endpoint <$> rs) (foldl absorb (asking (List.length rs) a) rs).

(** ** Reading an exposition *)

Section text.
Context (u : Unicode) (ParseFloat : bytes → option float64) (FormatG : float64 → bytes).

(** [bufio.Scanner] by lines: the last one may lack its newline, a carriage return before
    the newline is dropped, and a line that does not fit the buffer ends the reading. *)
Definition max_line : nat := Z.to_nat (Z.shiftl 1 20).
Fixpoint fitting (ls : list bytes) : list bytes :=
  match ls with l :: ls => if (List.length l <? max_line)%nat then l :: fitting ls else [] | [] => [] end.
Definition drop_cr (l : bytes) : bytes := match reverse l with 13 :: r => reverse r | _ => l end.
Definition scan_lines (body : bytes) : list bytes :=
  let ls := Split newline body in
  drop_cr <$> fitting (if bool_decide (List.last ls [] = []) then removelast ls else ls).

Definition tracked (names : list bytes) (name : bytes) : bool := existsb (λ want, bool_decide (name = want)) names.
Definition name_of (series : bytes) : bytes := match cut_at 123 series with Some (name, _) => name | None => series end.

(** A line's series and the text of its value: what is before and after the last space. *)
Definition cut_last_space (line : bytes) : option (bytes * bytes) :=
  match cut_at 32 (reverse line) with Some (raw, s) => Some (reverse s, reverse raw) | None => None end.

Definition reading (names : list bytes) (line : bytes) : option (bytes * float64) :=
  let line := TrimSpace u line in
  if bool_decide (line = []) || hasPrefix line [35] then None
  else match cut_last_space line with
       | None => None
       | Some (s, raw) =>
           if tracked names (name_of s)
           then match ParseFloat raw with Some v => Some (s, v) | None => None end
           else None
       end.
Definition parse_line (names : list bytes) (out : readings) (line : bytes) : readings :=
  match reading names line with Some (s, v) => <[s := f64_add (value out s) v]> out | None => out end.
Definition parse (names : list bytes) (body : bytes) : readings := foldl (parse_line names) ∅ (scan_lines body).

(** ** A cycle *)

(** [get] is the body of a 200 answer; [order] is the order the scrapes come back in. *)
Context (get : string → option bytes) (order : list string → list string).

Definition scrapeOne (a : Aggregator) (ep : string) : result :=
  MkResult ep match get ep with Some body => parse (Names (cfg a)) body | None => ∅ end.
Definition ScrapeAll (eps : list string) (a : Aggregator) : Aggregator := fold_in (scrapeOne a <$> order (live a eps)) a.

(** ** Printing the totals *)

Fixpoint bytes_leb (a b : bytes) : bool :=
  match a, b with
  | [], _ => true
  | _, [] => false
  | x :: a, y :: b => (x <? y) || (x =? y) && bytes_leb a b
  end.
Definition bytes_le (a b : bytes) : Prop := bytes_leb a b = true.
#[export] Instance bytes_le_dec a b : Decision (bytes_le a b).
Proof. unfold bytes_le. apply _. Defined.

Definition help (name : bytes) : bytes :=
  lit "# HELP " ++ name ++ lit " Aggregated across the fleet by the router; monotonic across upstream restarts." ++ [newline]
  ++ lit "# TYPE " ++ name ++ lit " counter" ++ [newline].
Definition series_line (k : bytes) (v : float64) : bytes := k ++ lit " " ++ FormatG v ++ [newline].
Fixpoint render (lastName : bytes) (vals : readings) (keys : list bytes) : bytes :=
  match keys with
  | [] => []
  | k :: keys =>
      let name := name_of k in
      (if bool_decide (name = lastName) then [] else help name) ++ series_line k (value vals k) ++ render name vals keys
  end.
Definition Render (a : Aggregator) : bytes := render [] (totals a) (merge_sort bytes_le (elements (dom (totals a)))).
End text.

(** ** One endpoint's series *)

Lemma absorb_readings kvs : NoDup kvs.*1 → ∀ tot pv b,
  let st := foldl absorb_reading (tot, pv, b) kvs in
  let m := (list_to_map kvs : readings) in
  (∀ k, st.1.2 !! k = match m !! k with Some v => Some v | None => pv !! k end) ∧
  (∀ k, value st.1.1 k = match m !! k with Some v => f64_add (value tot k) (increment (pv !! k) v).1 | None => value tot k end).
Proof.
  cbn zeta. induction kvs as [|[k v] kvs IH]; intros Hnd tot pv b; cbn [foldl list_to_map foldr uncurry]; [split; intros; by rewrite lookup_empty|].
  apply NoDup_cons in Hnd as [Hk Hnd]. change (foldr _ ∅ kvs) with (list_to_map kvs : readings) in *.
  unfold absorb_reading at 2 4. cbn [fst snd]. destruct (increment (pv !! k) v) as [d r] eqn:Hi.
  destruct (IH Hnd (<[k:=f64_add (value tot k) d]> tot) (<[k:=v]> pv) (b || r)) as [Hp Ht]. clear IH.
  assert (Hn : (list_to_map kvs : readings) !! k = None) by (apply not_elem_of_list_to_map_1; done).
  split; intros k'; rewrite ?Hp, ?Ht; cbn [list_to_map]; destruct (decide (k' = k)) as [->|Hne].
  - by rewrite Hn, !lookup_insert_eq.
  - by rewrite !lookup_insert_ne by done.
  - rewrite Hn, lookup_insert_eq, Hi. unfold value. by rewrite lookup_insert_eq.
  - rewrite !lookup_insert_ne by done. unfold value. by rewrite lookup_insert_ne.
Qed.

(** ** The reference

    Histories are lists of cycles, the latest first; readings are whole numbers. *)

Abbreviation counts := (gmap bytes Z).
Definition cycle := list (string * counts).
Definition lift (r : string * counts) : result := MkResult r.1 (f64_of_Z <$> r.2).

Definition run (past : list cycle) (a : Aggregator) : Aggregator := foldr (λ c a, fold_in (lift <$> c) a) a past.

Definition obs (ep : string) (c : cycle) : option counts := (list_to_map c : gmap string counts) !! ep.

(** The endpoint's last reading of a series, unless it has been gone too long since. *)
Fixpoint last_reading (idle : Z) (ep : string) (k : bytes) (past : list cycle) : option Z :=
  match past with
  | [] => None
  | c :: past =>
      if maxMissingCycles <? idle then None
      else match obs ep c with
           | None => last_reading (idle + 1) ep k past
           | Some s => match s !! k with Some v => Some v | None => last_reading 0 ep k past end
           end
  end.
Fixpoint idle (ep : string) (past : list cycle) : Z :=
  match past with [] => 0 | c :: past => match obs ep c with None => idle ep past + 1 | Some _ => 0 end end.

(** What a reading adds: its increase, or all of it after a restart or for a newcomer. *)
Definition gain (last : option Z) (v : Z) : Z := match last with None => v | Some l => if v <? l then v else v - l end.
Definition reading_gain (k : bytes) (past : list cycle) (r : string * counts) : Z :=
  match r.2 !! k with Some v => gain (last_reading 0 r.1 k past) v | None => 0 end.
Definition cycle_gain (k : bytes) (past : list cycle) (c : cycle) : Z := zsum (reading_gain k past <$> c).
Fixpoint served (k : bytes) (past : list cycle) : Z :=
  match past with [] => 0 | c :: past => cycle_gain k past c + served k past end.

Definition counters (past : list cycle) : Prop :=
  Forall (λ c : cycle, NoDup c.*1 ∧ Forall (λ r, ∀ k v, r.2 !! k = Some v → 0 ≤ v) c) past.

Lemma idle_nonneg ep past : 0 ≤ idle ep past.
Proof. induction past as [|c past IH]; cbn; [lia|]. destruct (obs ep c); lia. Qed.

Lemma last_reading_idle i ep k past : 0 ≤ i →
  last_reading i ep k past = if maxMissingCycles <? i + idle ep past then None else last_reading 0 ep k past.
Proof.
  revert i. induction past as [|c past IH]; intros i Hi; cbn [last_reading idle]; [by destruct (_ <? _)|]. change (maxMissingCycles <? 0) with false. cbn iota.
  pose proof (idle_nonneg ep past). destruct (obs ep c) as [s|].
  - rewrite Z.add_0_r. done.
  - rewrite (IH (i + 1)), (IH (0 + 1)) by lia. unfold maxMissingCycles.
    destruct (Z.ltb_spec 120 i), (Z.ltb_spec 120 (i + 1 + idle ep past)), (Z.ltb_spec 120 (0 + 1 + idle ep past)), (Z.ltb_spec 120 (i + (idle ep past + 1))); done || lia.
Qed.

Lemma gain_bounds last v : 0 ≤ v → (∀ l, last = Some l → 0 ≤ l) → 0 ≤ gain last v ∧ v ≤ default 0 last + gain last v.
Proof. intros Hv Hl. unfold gain. destruct last as [l|]; cbn; [|lia]. specialize (Hl l eq_refl). destruct (Z.ltb_spec v l); lia. Qed.

Lemma obs_in ep c s : obs ep c = Some s → (ep, s) ∈ c.
Proof. intros H. by apply elem_of_list_to_map_2. Qed.

Lemma last_reading_nonneg past : counters past → ∀ i ep k l, last_reading i ep k past = Some l → 0 ≤ l.
Proof.
  induction 1 as [|c past [_ Hc] _ IH]; intros i ep k l; cbn [last_reading]; [done|]. destruct (_ <? i); [done|].
  destruct (obs ep c) as [s|] eqn:Ho; [|by apply IH]. destruct (s !! k) as [v|] eqn:Hv; [|by apply IH]. intros [= <-].
  apply obs_in in Ho. rewrite Forall_forall in Hc. by apply (Hc _ Ho k).
Qed.

Lemma reading_gain_nonneg k past c : counters (c :: past) → Forall (λ r, 0 ≤ reading_gain k past r) c.
Proof.
  intros [[_ Hc] Hp]%Forall_cons. eapply Forall_impl; [exact Hc|]. intros r Hr. unfold reading_gain. destruct (r.2 !! k) as [v|] eqn:Hv; [|lia].
  apply gain_bounds; [by apply (Hr k)|]. intros l. by apply last_reading_nonneg.
Qed.

Lemma cycle_gain_nonneg k past c : counters (c :: past) → 0 ≤ cycle_gain k past c.
Proof. intros H. apply zsum_nonneg, Forall_fmap. by apply reading_gain_nonneg. Qed.

Lemma served_nonneg k past : counters past → 0 ≤ served k past.
Proof.
  induction past as [|c past IH]; intros H; cbn [served]; [lia|]. pose proof (cycle_gain_nonneg k past c H). apply Forall_cons in H as [_ H]. specialize (IH H). lia.
Qed.

Lemma zsum_member {A} (f : A → Z) (x : A) l : x ∈ l → Forall (λ x, 0 ≤ f x) l → f x ≤ zsum (f <$> l).
Proof.
  induction l as [|y l IH]; [by intros ?%elem_of_nil|]. intros [->|Hx]%elem_of_cons [Hy Hl]%Forall_cons; rewrite fmap_cons, zsum_cons.
  - pose proof (zsum_nonneg (f <$> l) ltac:(by apply Forall_fmap)). lia.
  - specialize (IH Hx Hl). lia.
Qed.

(** A reading is part of what has been counted. *)
Lemma last_reading_served past : counters past → ∀ i ep k l, last_reading i ep k past = Some l → l ≤ served k past.
Proof.
  induction past as [|c past IH]; intros Hp i ep k l; cbn [last_reading served]; [done|]. destruct (_ <? i); [done|].
  pose proof (cycle_gain_nonneg k past c Hp) as Hg. pose proof (reading_gain_nonneg k past c Hp) as Hgs.
  pose proof Hp as [[_ Hc] Hp']%Forall_cons. specialize (IH Hp').
  destruct (obs ep c) as [s|] eqn:Ho; [|intros H; specialize (IH _ _ _ _ H); lia]. destruct (s !! k) as [v|] eqn:Hv; [|intros H; specialize (IH _ _ _ _ H); lia].
  intros [= <-]. apply obs_in in Ho. pose proof (zsum_member _ _ _ Ho Hgs) as Hm. cbn beta in Hm. fold (cycle_gain k past c) in Hm.
  unfold reading_gain in Hm. cbn [fst snd] in Hm. rewrite Hv in Hm. rewrite Forall_forall in Hc. pose proof (Hc _ Ho k v Hv) as Hv0.
  destruct (gain_bounds (last_reading 0 ep k past) v Hv0) as [_ Hb]; [intros; by eapply last_reading_nonneg|].
  destruct (last_reading 0 ep k past) as [l|] eqn:Hl; cbn in Hb, Hm; [specialize (IH _ _ _ _ Hl); lia|]. pose proof (served_nonneg k past Hp'). lia.
Qed.

(** ** The aggregator against the reference *)

Definition last_of (a : Aggregator) (ep : string) (k : bytes) : option float64 := prev a !! ep ≫= (.!! k).

Lemma increment_exact last v : 0 ≤ v < exact_bound → (∀ l, last = Some l → 0 ≤ l < exact_bound) →
  (increment (f64_of_Z <$> last) (f64_of_Z v)).1 = f64_of_Z (gain last v).
Proof.
  intros Hv Hl. unfold increment, gain. destruct last as [l|]; cbn [fmap option_fmap option_map]; [|done]. specialize (Hl l eq_refl).
  rewrite f64_ltb_exact by done. destruct (Z.ltb_spec v l); [done|]. apply f64_sub_exact; lia.
Qed.

Lemma absorb_spec (r : string * counts) a :
  let a' := absorb a (lift r) in
  (∀ ep k, last_of a' ep k = if decide (ep = r.1) then match r.2 !! k with Some v => Some (f64_of_Z v) | None => last_of a ep k end else last_of a ep k) ∧
  (∀ k, value (totals a') k = match r.2 !! k with Some v => f64_add (value (totals a) k) (increment (last_of a r.1 k) (f64_of_Z v)).1
                                              | None => value (totals a) k end) ∧
  missing a' = <[r.1 := 0]> (missing a).
Proof.
  cbn zeta. destruct r as [ep s]. unfold absorb. cbn [lift endpoint series fst snd]. destruct (bool_decide_reflect (f64_of_Z <$> s = ∅)) as [He|He].
  - apply fmap_empty_iff in He as ->. cbn [totals prev missing]. split_and!; [|intros k; by rewrite lookup_empty|done].
    intros ep' k. rewrite lookup_empty. unfold last_of. cbn [prev]. by destruct (decide _).
  - pose proof (absorb_readings (map_to_list (f64_of_Z <$> s)) (NoDup_fst_map_to_list _) (totals a) (default ∅ (prev a !! ep)) false) as [Hp Ht].
    rewrite list_to_map_to_list in Hp, Ht. destruct (foldl absorb_reading _ _) as [[tot pv] reset]. cbn [fst snd] in Hp, Ht.
    assert (Hd : ∀ k, default ∅ (prev a !! ep) !! k = last_of a ep k) by (intros k; unfold last_of; destruct (prev a !! ep); cbn; by rewrite ?lookup_empty).
    set (a' := MkAgg _ tot _ _ _ _ _ _ _ _). assert (Heq : ∀ b : bool, totals (if b then noteReset ep a' else a') = tot ∧
      prev (if b then noteReset ep a' else a') = <[ep:=pv]> (prev a) ∧ missing (if b then noteReset ep a' else a') = <[ep:=0]> (missing a)) by (by intros []).
    destruct (Heq reset) as (-> & Hprev & ->). split_and!; [| |done].
    + intros ep' k. unfold last_of at 1. rewrite Hprev. destruct (decide (ep' = ep)) as [->|Hne].
      * rewrite lookup_insert_eq. cbn. rewrite Hp, lookup_fmap, Hd. by destruct (s !! k).
      * rewrite lookup_insert_ne by done. done.
    + intros k. rewrite Ht, lookup_fmap, Hd. by destruct (s !! k).
Qed.

(** The results of one cycle, in any order. *)
Lemma absorb_all k (past : list cycle) rs : ∀ a T,
  NoDup rs.*1 → Forall (λ r, ∀ v, r.2 !! k = Some v → 0 ≤ v) rs → Forall (λ r, 0 ≤ reading_gain k past r) rs →
  (∀ ep, ep ∈ rs.*1 → last_of a ep k = f64_of_Z <$> last_reading 0 ep k past) →
  (∀ ep l, last_reading 0 ep k past = Some l → 0 ≤ l ≤ T) →
  0 ≤ T → T + cycle_gain k past rs < exact_bound → value (totals a) k = f64_of_Z T →
  value (totals (foldl absorb a (lift <$> rs))) k = f64_of_Z (T + cycle_gain k past rs).
Proof.
  induction rs as [|r rs IH]; intros a T Hnd Hc Hg Hl Hb HT Hm Hv; [by rewrite Z.add_0_r|].
  cbn [fmap list_fmap] in Hnd. apply NoDup_cons in Hnd as [Hr Hnd]. apply Forall_cons in Hc as [Hc1 Hc]. apply Forall_cons in Hg as [Hg1 Hg].
  assert (Hz : cycle_gain k past (r :: rs) = reading_gain k past r + cycle_gain k past rs) by done. rewrite Hz in *.
  assert (0 ≤ cycle_gain k past rs) by (apply zsum_nonneg, Forall_fmap; exact Hg).
  destruct (absorb_spec r a) as (Hlast & Htot & _). rewrite fmap_cons. cbn [foldl]. rewrite Z.add_assoc. apply IH; try done; try lia.
  - intros ep Hep. rewrite Hlast, decide_False by congruence. apply Hl. by right.
  - intros ep l Hlr. pose proof (Hb ep l Hlr). lia.
  - rewrite Htot, Hv. unfold reading_gain in *. destruct (r.2 !! k) as [v|] eqn:Hrv; [|by rewrite Z.add_0_r].
    rewrite Hl by (by left). specialize (Hc1 v eq_refl).
    assert (v < exact_bound).
    { destruct (gain_bounds (last_reading 0 r.1 k past) v Hc1) as [_ Hle]; [intros l Hlr; by apply (Hb _ _ Hlr)|].
      destruct (last_reading 0 r.1 k past) as [l|] eqn:Hlr; cbn in Hle; [pose proof (Hb _ _ Hlr)|]; cbn in *; lia. }
    rewrite increment_exact by (try lia; intros l Hlr; pose proof (Hb _ _ Hlr); lia). apply f64_add_exact; lia.
Qed.

Lemma absorb_others rs : ∀ a, NoDup rs.*1 →
  let a' := foldl absorb a (lift <$> rs) in
  (∀ ep k, last_of a' ep k = match obs ep rs with Some s => match s !! k with Some v => Some (f64_of_Z v) | None => last_of a ep k end | None => last_of a ep k end) ∧
  (∀ ep, missing a' !! ep = match obs ep rs with Some _ => Some 0 | None => missing a !! ep end) ∧
  (∀ ep, obs ep rs = None → is_Some (prev a' !! ep) → is_Some (prev a !! ep)).
Proof.
  cbn zeta. induction rs as [|r rs IH]; intros a Hnd; [done|]. rewrite fmap_cons. cbn [foldl]. cbn [fmap list_fmap] in Hnd. apply NoDup_cons in Hnd as [Hr Hnd].
  destruct (IH (absorb a (lift r)) Hnd) as (H1 & H2 & H3). destruct (absorb_spec r a) as (Hlast & _ & Hmiss).
  assert (Ho : ∀ ep, obs ep (r :: rs) = if decide (ep = r.1) then Some r.2 else obs ep rs).
  { intros ep. unfold obs. destruct r as [e s]. cbn. destruct (decide (ep = e)) as [->|]; [by rewrite lookup_insert_eq|by rewrite lookup_insert_ne]. }
  assert (Hr' : obs r.1 rs = None) by (by apply not_elem_of_list_to_map_1).
  split_and!.
  - intros ep k. rewrite H1, Ho, Hlast. destruct (decide (ep = r.1)) as [->|]; [by rewrite Hr'|done].
  - intros ep. rewrite H2, Ho, Hmiss. destruct (decide (ep = r.1)) as [->|]; [by rewrite Hr', lookup_insert_eq|]. by rewrite lookup_insert_ne.
  - intros ep. rewrite Ho. destruct (decide (ep = r.1)) as [->|Hne]; [done|]. intros Hn Hs. apply (H3 ep Hn) in Hs. revert Hs.
    unfold absorb. cbn [lift endpoint series]. destruct (bool_decide _); [done|]. destruct (foldl absorb_reading _ _) as [[tot pv] reset].
    assert (∀ b : bool, ∀ x, prev (if b then noteReset r.1 x else x) = prev x) as Hb by (by intros []). rewrite Hb. cbn [prev]. by rewrite lookup_insert_ne.
Qed.

Lemma age_one_totals ep a : totals (age_one a ep) = totals a.
Proof. unfold age_one. by destruct (_ <? _). Qed.

Lemma age_list l : ∀ a, NoDup l →
  let a' := foldl age_one a l in
  totals a' = totals a ∧
  (∀ ep, prev a' !! ep = if decide (ep ∈ l ∧ maxMissingCycles < count (missing a) ep + 1) then None else prev a !! ep) ∧
  (∀ ep, is_Some (prev a' !! ep) → count (missing a') ep = count (missing a) ep + if decide (ep ∈ l) then 1 else 0).
Proof.
  cbn zeta. induction l as [|e l IH]; intros a Hnd; cbn [foldl].
  - split_and!; [done| |]; intros ep; rewrite decide_False by (intros H; (destruct H as [H _] || idtac); by apply elem_of_nil in H); [done|lia].
  - apply NoDup_cons in Hnd as [He Hnd]. destruct (IH (age_one a e) Hnd) as (H1 & H2 & H3). clear IH. rewrite age_one_totals in H1.
    assert (Hone : ∀ ep, (ep ≠ e → prev (age_one a e) !! ep = prev a !! ep ∧ missing (age_one a e) !! ep = missing a !! ep) ∧
      prev (age_one a e) !! e = (if maxMissingCycles <? count (missing a) e + 1 then None else prev a !! e) ∧
      ((maxMissingCycles <? count (missing a) e + 1) = false → count (missing (age_one a e)) e = count (missing a) e + 1)).
    { intros ep. unfold age_one. destruct (_ <? _); cbn [prev missing]; split_and!; intros; rewrite ?lookup_delete_eq, ?lookup_delete_ne, ?lookup_insert_ne; try done.
      unfold count. by rewrite lookup_insert_eq. }
    split_and!; [done| |].
    + intros ep. rewrite H2. destruct (Hone ep) as (Hne & Hpe & Hme). destruct (decide (ep = e)) as [->|Hep].
      * rewrite decide_False by tauto. rewrite Hpe. destruct (Z.ltb_spec maxMissingCycles (count (missing a) e + 1)).
        -- rewrite decide_True; [done|]. split; [by left|done].
        -- rewrite decide_False; [done|]. intros [_ ?]. lia.
      * destruct (Hne Hep) as [-> Hm]. assert (count (missing (age_one a e)) ep = count (missing a) ep) as -> by (unfold count; by rewrite Hm).
        destruct (decide (ep ∈ l ∧ _)) as [[? ?]|Hno].
        -- rewrite decide_True; [done|]. split; [by right|done].
        -- rewrite decide_False; [done|]. intros [[->|?]%elem_of_cons ?]; [done|]. by apply Hno.
    + intros ep Hs. rewrite H3 by done. destruct (Hone ep) as (Hne & Hpe & Hme). destruct (decide (ep = e)) as [->|Hep].
      * rewrite decide_False, decide_True by (done || by left). rewrite H2, decide_False in Hs by tauto. rewrite Hpe in Hs.
        destruct (_ <? _); [by destruct Hs|]. rewrite Hme by done. lia.
      * destruct (Hne Hep) as [_ Hm]. assert (count (missing (age_one a e)) ep = count (missing a) ep) as -> by (unfold count; by rewrite Hm). destruct (decide (ep ∈ l)) as [Hin|Hin].
        -- rewrite decide_True; [done|by right].
        -- rewrite decide_False; [done|]. intros [->|?]%elem_of_cons; done.
Qed.

(** What the aggregator holds after a history. *)
Record tracks (past : list cycle) (a : Aggregator) : Prop := {
  tr_total : ∀ k, value (totals a) k = f64_of_Z (served k past);
  tr_last : ∀ ep k, last_of a ep k = f64_of_Z <$> last_reading 0 ep k past;
  tr_missing : ∀ ep, is_Some (prev a !! ep) → count (missing a) ep = idle ep past ∧ idle ep past ≤ maxMissingCycles;
}.

Lemma fold_in_tracks c past a : counters (c :: past) → (∀ k, served k (c :: past) < exact_bound) → tracks past a → tracks (c :: past) (fold_in (lift <$> c) a).
Proof.
  intros Hc Hb Ht. pose proof Hc as [[Hnd Hvals] Hp]%Forall_cons. unfold fold_in.
  set (a0 := asking _ a). set (a1 := foldl absorb a0 (lift <$> c)).
  assert (Hep : endpoint <$> (lift <$> c) = c.*1) by (rewrite <-list_fmap_compose; done). rewrite Hep.
  assert (Hlast0 : ∀ ep k, last_of a0 ep k = last_of a ep k) by done.
  destruct (absorb_others c a0 Hnd) as (H1 & H2 & H3). fold a1 in H1, H2, H3.
  assert (Htot1 : ∀ k, value (totals a1) k = f64_of_Z (served k past + cycle_gain k past c)).
  { intros k. specialize (Hb k). cbn [served] in Hb. apply absorb_all; try done.
    - eapply Forall_impl; [exact Hvals|]. intros r Hr v. by apply (Hr k).
    - by apply reading_gain_nonneg.
    - intros ep _. rewrite Hlast0. by apply (tr_last _ _ Ht).
    - intros ep l Hl. split; [by eapply last_reading_nonneg|by eapply last_reading_served].
    - by apply served_nonneg.
    - lia.
    - apply (tr_total _ _ Ht). }
  set (L := filter (λ ep, ep ∉ c.*1) (elements (dom (prev a1)))).
  assert (HL : ∀ ep, ep ∈ L ↔ obs ep c = None ∧ is_Some (prev a1 !! ep)).
  { intros ep. unfold L. rewrite list_elem_of_filter, elem_of_elements, elem_of_dom. unfold obs. by rewrite not_elem_of_list_to_map. }
  assert (HLnd : NoDup L) by (apply NoDup_filter, NoDup_elements). unfold age. fold L.
  destruct (age_list L a1 HLnd) as (G1 & G2 & G3).
  assert (Hm1 : ∀ ep, obs ep c = None → count (missing a1) ep = count (missing a) ep) by (intros ep Ho; unfold count; by rewrite H2, Ho).
  assert (Hgone : ∀ ep, ep ∈ L → count (missing a1) ep = idle ep past).
  { intros ep [Ho Hs]%HL. rewrite Hm1 by done. by apply (tr_missing _ _ Ht), (H3 ep Ho Hs). }
  constructor.
  - intros k. rewrite G1, Htot1. cbn [served]. f_equal. lia.
  - intros ep k. unfold last_of. rewrite G2. cbn [last_reading]. change (maxMissingCycles <? 0) with false. cbn iota.
    destruct (obs ep c) as [s|] eqn:Ho.
    + rewrite decide_False by (intros [Hin _]; apply HL in Hin as [? _]; congruence). fold (last_of a1 ep k). rewrite H1, Ho. destruct (s !! k); [done|].
      rewrite Hlast0. apply (tr_last _ _ Ht).
    + rewrite last_reading_idle by lia. destruct (decide (ep ∈ L ∧ _)) as [[Hin Hlt]|Hno].
      * rewrite Hgone in Hlt by done. rewrite (proj2 (Z.ltb_lt _ _)) by lia. done.
      * fold (last_of a1 ep k). rewrite H1, Ho, Hlast0, (tr_last _ _ Ht). destruct (Z.ltb_spec maxMissingCycles (0 + 1 + idle ep past)) as [Hlt|]; [|done].
        destruct (last_reading 0 ep k past) as [l|] eqn:Hl; [|done]. exfalso.
        assert (Hs : is_Some (prev a1 !! ep)).
        { pose proof (H1 ep k) as Hk. rewrite Ho, Hlast0, (tr_last _ _ Ht), Hl in Hk. unfold last_of in Hk. by destruct (prev a1 !! ep). }
        apply Hno. assert (Hin : ep ∈ L) by (by apply HL). split; [done|]. rewrite (Hgone ep Hin). lia.
  - intros ep Hs. rewrite (G3 ep Hs). rewrite G2 in Hs. cbn [idle]. destruct (decide (ep ∈ L ∧ _)) as [|Hno]; [by destruct Hs|].
    destruct (obs ep c) as [s|] eqn:Ho.
    + rewrite decide_False by (intros Hin; apply HL in Hin as [? _]; congruence). unfold count. rewrite H2, Ho. cbn. unfold maxMissingCycles. lia.
    + assert (Hin : ep ∈ L) by (by apply HL). rewrite decide_True by done. rewrite (Hgone ep Hin) in *. unfold maxMissingCycles in *. split; [done|].
      destruct (Z.le_gt_cases (idle ep past + 1) 120); [done|]. exfalso. apply Hno. split; [done|lia].
Qed.

Lemma new_tracks c : tracks [] (New c).
Proof. constructor; [done|done|]. intros ep [? H]. done. Qed.

Lemma served_prefix k c past : counters (c :: past) → served k past ≤ served k (c :: past).
Proof. intros H. cbn [served]. pose proof (cycle_gain_nonneg k past c H). lia. Qed.

Lemma run_tracks past c : counters past → (∀ k, served k past < exact_bound) → tracks past (run past (New c)).
Proof.
  induction past as [|cy past IH]; intros Hc Hb; [apply new_tracks|]. cbn [run foldr]. fold (run past (New c)). apply fold_in_tracks; [done|done|].
  apply IH; [by apply Forall_cons in Hc as [_ ?]|]. intros k. pose proof (served_prefix k cy past Hc). specialize (Hb k). lia.
Qed.

(** ** Histories of an aggregator *)

Section history.
Context (u : Unicode) (ParseFloat : bytes → option float64).

(** Cycles over changing sets of backends, with endpoints retired from outside between
    them; [past] is what the scrapes read. *)
Inductive scraped (c0 : Config) : list cycle → Aggregator → Prop :=
  | scraped_new : scraped c0 [] (New c0)
  | scraped_retire ep past a : scraped c0 past a → scraped c0 past (Retire ep a)
  | scraped_cycle get (order : list string → list string) eps past a c :
      scraped c0 past a → (∀ l, order l ≡ₚ l) → NoDup eps → scrapeOne u ParseFloat get a <$> order (live a eps) = lift <$> c →
      scraped c0 (c :: past) (ScrapeAll u ParseFloat get order eps a).

Lemma cycle_endpoints get (order : list string → list string) eps a c :
  scrapeOne u ParseFloat get a <$> order (live a eps) = lift <$> c → c.*1 = order (live a eps).
Proof.
  intros H. apply (f_equal (fmap endpoint)) in H. rewrite <-!list_fmap_compose in H. symmetry in H.
  etransitivity; [exact H|]. rewrite <-(list_fmap_id (order (live a eps))) at 2. by apply list_fmap_ext.
Qed.

Lemma scraped_tracks c0 past a : scraped c0 past a → counters past → (∀ k, served k past < exact_bound) → tracks past a.
Proof.
  induction 1 as [|ep past a _ IH|get order eps past a c _ IH Hord Hnd Heq]; intros Hc Hb.
  - apply new_tracks.
  - destruct (IH Hc Hb) as [H1 H2 H3]. by constructor.
  - unfold ScrapeAll. rewrite Heq. apply fold_in_tracks; [done|done|]. apply IH; [by apply Forall_cons in Hc as [_ ?]|].
    intros k. eapply Z.le_lt_trans; [by apply served_prefix|apply Hb].
Qed.

(** C2: every total is what the fleet served: each reading adds its increase since the
    endpoint's last one, or all of it after a restart, for a newcomer and for an endpoint
    gone for more than 120 cycles; in whatever order the scrapes come back.  No total ever
    goes down. *)
Theorem totals_exact (c0 : Config) (past : list cycle) (a : Aggregator) (c : cycle) (a' : Aggregator) :
  scraped c0 past a → scraped c0 (c :: past) a' → counters (c :: past) → (∀ k, served k (c :: past) < exact_bound) →
  (∀ k, value (totals a') k = f64_of_Z (served k (c :: past))) ∧
  (∀ k, SFltb (value (totals a') k) (value (totals a) k) = false).
Proof.
  intros Ha Ha' Hc Hb. pose proof Hc as [_ Hp]%Forall_cons. pose proof (scraped_tracks _ _ _ Ha' Hc Hb) as [Ht' _ _].
  assert (Hle : ∀ k, served k past ≤ served k (c :: past)) by (intros k; by apply served_prefix).
  assert (Hbp : ∀ k, served k past < exact_bound) by (intros k; eapply Z.le_lt_trans; [apply Hle|apply Hb]).
  pose proof (scraped_tracks _ _ _ Ha Hp Hbp) as [Ht _ _]. split; [done|]. intros k. rewrite Ht', Ht.
  pose proof (served_nonneg k _ Hc). pose proof (served_nonneg k _ Hp). specialize (Hle k). specialize (Hb k). rewrite f64_ltb_exact by lia. apply Z.ltb_ge. lia.
Qed.

(** *** A steady fleet *)

Lemma zsum_differences {A} (p q r : A → Z) l : Forall (λ x, p x = q x - r x) l → zsum (p <$> l) + zsum (r <$> l) = zsum (q <$> l).
Proof. induction 1 as [|x l Hx _ IH]; [done|]. rewrite !fmap_cons, !zsum_cons, Hx. lia. Qed.

Definition fleet_cycle (fleet : list string) (f : string → counts) : cycle := (λ ep, (ep, f ep)) <$> fleet.

Lemma fleet_obs fleet f ep : NoDup fleet → ep ∈ fleet → obs ep (fleet_cycle fleet f) = Some (f ep).
Proof.
  intros Hnd Hep. apply elem_of_list_to_map_1.
  - unfold fleet_cycle. rewrite <-list_fmap_compose. cbn. change (fst ∘ _) with (λ ep : string, ep). by rewrite list_fmap_id.
  - apply list_elem_of_fmap. by exists ep.
Qed.

(** over a fixed fleet whose counters have not gone backwards, the total is the sum of
    what the endpoints read now. *)
Theorem steady_fleet (c0 : Config) (fleet : list string) (k : bytes) (f : string → counts) (fs : list (string → counts)) a :
  scraped c0 (fleet_cycle fleet <$> f :: fs) a → NoDup fleet →
  counters (fleet_cycle fleet <$> f :: fs) → (∀ k, served k (fleet_cycle fleet <$> f :: fs) < exact_bound) →
  (∀ i g h, (f :: fs) !! i = Some g → (f :: fs) !! S i = Some h → ∀ ep, ep ∈ fleet → default 0 (h ep !! k) ≤ default 0 (g ep !! k)) →
  (∀ g, g ∈ f :: fs → ∀ ep, ep ∈ fleet → is_Some (g ep !! k)) →
  value (totals a) k = f64_of_Z (zsum ((λ ep, default 0 (f ep !! k)) <$> fleet)).
Proof.
  intros Ha Hnd Hc Hb Hmono Hall. rewrite (tr_total _ _ (scraped_tracks _ _ _ Ha Hc Hb)). f_equal. clear Ha Hb Hc.
  revert f Hmono Hall. induction fs as [|g fs IH]; intros f Hmono Hall; cbn [fmap list_fmap served].
  - rewrite Z.add_0_r. unfold cycle_gain, fleet_cycle. by rewrite <-list_fmap_compose.
  - assert (Hg : served k (fleet_cycle fleet g :: (fleet_cycle fleet <$> fs)) = zsum ((λ ep, default 0 (g ep !! k)) <$> fleet)).
    { apply IH; [intros i; apply (Hmono (S i))|intros h Hh; apply Hall; by right]. }
    cbn [served] in Hg. rewrite Hg. clear IH Hg. unfold cycle_gain. unfold fleet_cycle at 3. rewrite <-list_fmap_compose.
    assert (Hpt : Forall (λ ep, (reading_gain k (fleet_cycle fleet g :: (fleet_cycle fleet <$> fs)) ∘ (λ ep, (ep, f ep))) ep = default 0 (f ep !! k) - default 0 (g ep !! k)) fleet).
    { apply Forall_forall. intros ep Hep. unfold reading_gain. cbn [compose fst snd last_reading]. change (maxMissingCycles <? 0) with false. cbn iota.
      rewrite fleet_obs by done. destruct (Hall f ltac:(by left) ep Hep) as [v Hv]. destruct (Hall g ltac:(right; by left) ep Hep) as [w Hw].
      pose proof (Hmono 0%nat f g eq_refl eq_refl ep Hep) as Hle. rewrite Hv, Hw in *. cbn in *. destruct (Z.ltb_spec v w); lia. }
    by apply zsum_differences.
Qed.

(** *** Endpoints that give nothing *)

(** Barren answers in a row; cycles without an answer are passed over. *)
Fixpoint strikes (ep : string) (past : list cycle) : Z :=
  match past with
  | [] => 0
  | c :: past => match obs ep c with None => strikes ep past | Some s => if bool_decide (s = ∅) then strikes ep past + 1 else 0 end
  end.
Definition answering (c : list (string * counts)) : nat := List.length (filter (λ r, r.2 ≠ ∅) c).

Lemma age_keeps l : ∀ a, barren (foldl age_one a l) = barren a ∧ dead (foldl age_one a l) = dead a ∧ Coverage (foldl age_one a l) = Coverage a.
Proof. induction l as [|ep l IH]; intros a; cbn [foldl]; [done|]. destruct (IH (age_one a ep)) as (-> & -> & ->). unfold age_one. by destruct (_ <? _). Qed.

Lemma absorb_strike (r : string * counts) a :
  let a' := absorb a (lift r) in
  barren a' = <[r.1 := if bool_decide (r.2 = ∅) then count (barren a) r.1 + 1 else 0]> (barren a) ∧
  (∀ ep, ep ∈ dead a' ↔ ep ∈ dead a ∨ ep = r.1 ∧ r.2 = ∅ ∧ 1 ≤ count (barren a) r.1) ∧
  Coverage a' = (lastOK a + (if bool_decide (r.2 = ∅) then 0 else 1), lastAsked a).
Proof.
  cbn zeta. destruct r as [ep s]. unfold absorb. cbn [lift endpoint series fst snd].
  destruct (bool_decide_reflect (f64_of_Z <$> s = ∅)) as [He|He]; [apply fmap_empty_iff in He|assert (s ≠ ∅) by (intros ->; by rewrite fmap_empty in He)].
  - rewrite bool_decide_eq_true_2 by done. cbn [barren dead]. split_and!; [done| |unfold Coverage; cbn; by rewrite Z.add_0_r].
    intros ep'. unfold deadAfter. destruct (Z.leb_spec 2 (count (barren a) ep + 1)).
    + rewrite elem_of_union, elem_of_singleton. split; [intros [?| ->]; [by left|right; split_and!; [done|done|lia]]|intros [?|(-> & _)]; [by left|by right]].
    + split; [by left|intros [?|(_ & _ & ?)]; [done|lia]].
  - rewrite bool_decide_eq_false_2 by done. destruct (foldl absorb_reading _ _) as [[tot pv] reset].
    set (a' := MkAgg _ tot _ _ _ _ _ _ _ _). assert (Heq : ∀ b : bool, barren (if b then noteReset ep a' else a') = <[ep:=0]> (barren a) ∧
      dead (if b then noteReset ep a' else a') = dead a ∧ Coverage (if b then noteReset ep a' else a') = (lastOK a + 1, lastAsked a)) by (by intros []).
    destruct (Heq reset) as (-> & -> & ->). split_and!; [done| |done]. intros ep'. split; [by left|intros [?|(_ & ? & _)]; done].
Qed.

Lemma absorb_strikes rs : ∀ a, NoDup rs.*1 →
  let a' := foldl absorb a (lift <$> rs) in
  (∀ ep, count (barren a') ep = match obs ep rs with None => count (barren a) ep | Some s => if bool_decide (s = ∅) then count (barren a) ep + 1 else 0 end) ∧
  (∀ ep, ep ∈ dead a' ↔ ep ∈ dead a ∨ obs ep rs = Some ∅ ∧ 1 ≤ count (barren a) ep) ∧
  Coverage a' = (lastOK a + Z.of_nat (answering rs), lastAsked a).
Proof.
  cbn zeta. induction rs as [|r rs IH]; intros a Hnd; [split_and!; [done|intros ep; split; [by left|by intros [?|[? _]]]|unfold Coverage; cbn; by rewrite Z.add_0_r]|].
  rewrite fmap_cons. cbn [foldl]. cbn [fmap list_fmap] in Hnd. apply NoDup_cons in Hnd as [Hr Hnd].
  destruct (IH (absorb a (lift r)) Hnd) as (H1 & H2 & H3). destruct (absorb_strike r a) as (Hb & Hd & Hcov).
  assert (Ho : ∀ ep, obs ep (r :: rs) = if decide (ep = r.1) then Some r.2 else obs ep rs).
  { intros ep. unfold obs. destruct r as [e s]. cbn. destruct (decide (ep = e)) as [->|]; [by rewrite lookup_insert_eq|by rewrite lookup_insert_ne]. }
  assert (Hr' : obs r.1 rs = None) by (by apply not_elem_of_list_to_map_1).
  assert (Hcnt : ∀ ep, count (barren (absorb a (lift r))) ep = if decide (ep = r.1) then if bool_decide (r.2 = ∅) then count (barren a) ep + 1 else 0 else count (barren a) ep).
  { intros ep. unfold count at 1. rewrite Hb. destruct (decide (ep = r.1)) as [->|]; [by rewrite lookup_insert_eq|by rewrite lookup_insert_ne]. }
  split_and!.
  - intros ep. rewrite H1, Ho, Hcnt. destruct (decide (ep = r.1)) as [->|]; [by rewrite Hr'|done].
  - intros ep. rewrite H2, Hd, Ho, Hcnt. destruct (decide (ep = r.1)) as [->|Hne].
    + rewrite Hr'. split; [intros [[?|(_ & -> & ?)]|[? _]]; [by left|by right|done]|intros [?|[[= ->] ?]]; [by left; left|by left; right]].
    + split; [intros [[?|(? & _)]|?]; [by left|done|by right]|intros [?|?]; [by left; left|by right]].
  - assert (Hn : Z.of_nat (answering (r :: rs)) = (if bool_decide (r.2 = ∅) then 0 else 1) + Z.of_nat (answering rs)).
    { unfold answering. rewrite filter_cons. destruct (bool_decide_reflect (r.2 = ∅)); [by rewrite decide_False by tauto|].
      rewrite decide_True by done. cbn [List.length]. lia. }
    rewrite H3, Hn. injection Hcov as -> ->. by rewrite Z.add_assoc.
Qed.

Lemma scraped_strikes c0 past a : scraped c0 past a → ∀ ep, count (barren a) ep = strikes ep past.
Proof.
  induction 1 as [|ep past a _ IH|get order eps past a c _ IH Hord Hnd Heq]; intros ep'; [done|apply IH|].
  unfold ScrapeAll, fold_in, age. rewrite Heq. rewrite (proj1 (age_keeps _ _)).
  assert (Hc : NoDup c.*1) by (rewrite (cycle_endpoints _ _ _ _ _ Heq), Hord; by apply NoDup_filter).
  destruct (absorb_strikes c (asking (List.length (lift <$> c)) a) Hc) as (-> & _ & _). cbn [asking barren strikes]. by rewrite IH.
Qed.

(** in every cycle exactly the endpoints not yet given up are asked; one is given up
    exactly when it gives nothing twice in a row, and for good; the coverage reported is how
    many of those asked gave something. *)
Theorem two_strikes (c0 : Config) (past : list cycle) (a : Aggregator) get (order : list string → list string) eps (c : cycle) :
  scraped c0 past a → (∀ l, order l ≡ₚ l) → NoDup eps → scrapeOne u ParseFloat get a <$> order (live a eps) = lift <$> c →
  let a' := ScrapeAll u ParseFloat get order eps a in
  (∀ ep, ep ∈ c.*1 ↔ ep ∈ eps ∧ ep ∉ dead a) ∧
  (∀ ep, ep ∈ dead a' ↔ ep ∈ dead a ∨ obs ep c = Some ∅ ∧ 1 ≤ strikes ep past) ∧
  Coverage a' = (Z.of_nat (answering c), Z.of_nat (List.length c)).
Proof.
  intros Ha Hord Hnd Heq. cbn zeta. pose proof (cycle_endpoints _ _ _ _ _ Heq) as Hc.
  assert (Hcn : NoDup c.*1) by (rewrite Hc, Hord; by apply NoDup_filter).
  destruct (absorb_strikes c (asking (List.length (lift <$> c)) a) Hcn) as (_ & Hd & Hcov).
  unfold ScrapeAll, fold_in, age. rewrite Heq. split_and!.
  - intros ep. rewrite Hc, Hord. unfold live. rewrite list_elem_of_filter. tauto.
  - intros ep. rewrite (proj1 (proj2 (age_keeps _ _))), Hd. cbn [asking dead barren]. by rewrite (scraped_strikes _ _ _ Ha).
  - rewrite (proj2 (proj2 (age_keeps _ _))), Hcov. cbn [asking lastOK lastAsked]. by rewrite length_fmap.
Qed.
End history.

(** ** An exposition read back *)

Lemma split_line l rest : newline ∉ l → Split newline (l ++ newline :: rest) = l :: Split newline rest.
Proof.
  induction l as [|d l IH]; intros Hl; cbn; [done|]. apply not_elem_of_cons in Hl as [Hd Hl].
  rewrite (proj2 (Z.eqb_neq d newline)) by congruence. by rewrite IH.
Qed.

Lemma no_newline l : existsb (Z.eqb newline) l = false → newline ∉ l.
Proof. intros H Hin. apply not_true_iff_false in H. apply H, existsb_exists. exists newline. split; [by apply list_elem_of_In|done]. Qed.

(** A line a scanner returns as it stands. *)
Definition scannable (l : bytes) : Prop := newline ∉ l ∧ (List.length l < max_line)%nat ∧ drop_cr l = l.

Lemma fitting_all ls : Forall scannable ls → fitting ls = ls.
Proof. induction 1 as [|l ls (_ & Hl & _) _ IH]; [done|]. cbn [fitting]. rewrite (proj2 (Nat.ltb_lt _ _)) by done. by rewrite IH. Qed.

Fixpoint unlines (ls : list bytes) : bytes := match ls with [] => [] | l :: ls => l ++ newline :: unlines ls end.
Lemma unlines_app a b : unlines (a ++ b) = unlines a ++ unlines b.
Proof. induction a as [|l a IH]; [done|]. cbn. by rewrite IH, <-app_assoc. Qed.

Lemma scan_unlines ls : Forall scannable ls → scan_lines (unlines ls) = ls.
Proof.
  intros Hls. unfold scan_lines.
  assert (Hs : Split newline (unlines ls) = ls ++ [[]]).
  { induction Hls as [|l ls (Hl & _) _ IH]; [done|]. cbn [unlines app]. by rewrite split_line, IH. }
  rewrite Hs, last_last, removelast_last, bool_decide_eq_true_2 by done. rewrite fitting_all by done.
  clear Hs. induction Hls as [|l ls (_ & _ & Hcr) _ IH]; [done|]. by rewrite fmap_cons, Hcr, IH.
Qed.

(** Bytes that stand for themselves: printable ASCII but the blank. *)
Definition plain (c : Z) : Prop := 33 ≤ c ≤ 126.
Lemma plain_blank c : plain c → is_blank c = false.
Proof.
  unfold plain, is_blank. intros Hc. rewrite (proj2 (Z.eqb_neq c 32)) by lia. destruct (Z.leb_spec 9 c), (Z.leb_spec c 13); done || lia.
Qed.

Section roundtrip.
Context (u : Unicode) (ParseFloat : bytes → option float64) (FormatG : float64 → bytes).
(** [strings.TrimSpace] leaves alone what begins and ends with a printable byte; printing a
    number and reading it back gives the number, and a number is printed without blanks. *)
Context (trim_id : ∀ c m d, plain c → plain d → u_TrimSpace u (c :: m ++ [d]) = c :: m ++ [d]).
Context (format_plain : ∀ v, FormatG v ≠ [] ∧ Forall plain (FormatG v)).
Context (format_parse : ∀ v, ParseFloat (FormatG v) = Some v).

Lemma drop_blanks_solid c s : plain c → drop_blanks (c :: s) = c :: s.
Proof. intros Hc. cbn. by rewrite plain_blank. Qed.

Lemma TrimSpace_id c m d : plain c → plain d → TrimSpace u (c :: m ++ [d]) = c :: m ++ [d].
Proof.
  intros Hc Hd. unfold TrimSpace. destruct (ascii _); [|by apply trim_id]. unfold trim_blanks. rewrite drop_blanks_solid by done.
  replace (reverse (c :: m ++ [d])) with (d :: reverse (c :: m)) by (by rewrite app_comm_cons, reverse_app).
  rewrite drop_blanks_solid by done. by rewrite reverse_cons, reverse_involutive.
Qed.

(** The tracked names are metric names. *)
Definition metric_name (name : bytes) : Prop := ∃ c r, name = c :: r ∧ c ≠ 35 ∧ Forall plain name.
Definition good_key (names : list bytes) (vals : readings) (k : bytes) : Prop :=
  tracked names (name_of k) = true ∧ newline ∉ k ∧ (List.length (k ++ lit " " ++ FormatG (value vals k)) < max_line)%nat.

Lemma tracked_in names name : tracked names name = true → name ∈ names.
Proof.
  unfold tracked. intros H. apply existsb_exists in H as (want & Hin & Hw). apply bool_decide_eq_true in Hw as ->. by apply list_elem_of_In.
Qed.

Lemma name_prefix k : ∃ r, k = name_of k ++ r.
Proof.
  unfold name_of. pose proof (cut_at_spec 123 k) as H. destruct (cut_at 123 k) as [[n r]|]; [|exists []; by rewrite app_nil_r].
  destruct H as [-> _]. by eexists.
Qed.

Lemma key_head names k : Forall metric_name names → tracked names (name_of k) = true → ∃ c r, k = c :: r ∧ plain c ∧ c ≠ 35.
Proof.
  intros Hn Ht. apply tracked_in in Ht. rewrite Forall_forall in Hn. destruct (Hn _ Ht) as (c & r & Hc & H35 & Hp).
  destruct (name_prefix k) as [q Hq]. rewrite Hc in Hq, Hp. apply Forall_cons in Hp as [Hp _]. exists c, (r ++ q). done.
Qed.

Lemma format_last v : ∃ m d, FormatG v = m ++ [d] ∧ plain d.
Proof.
  destruct (format_plain v) as [Hne Hp]. destruct (FormatG v) as [|d m _] eqn:E using rev_ind; [done|]. exists m, d. split; [done|].
  apply Forall_app in Hp as [_ Hp]. by apply Forall_cons in Hp as [Hp _].
Qed.

Lemma drop_cr_plain m d : plain d → drop_cr (m ++ [d]) = m ++ [d].
Proof. intros Hd. unfold drop_cr. rewrite reverse_snoc. unfold plain in Hd. by repeat (destruct d as [|d|d]; try lia; try done). Qed.

Lemma reading_series names k v : Forall metric_name names → tracked names (name_of k) = true → reading u ParseFloat names (k ++ lit " " ++ FormatG v) = Some (k, v).
Proof.
  intros Hn Ht. destruct (key_head names k Hn Ht) as (c & r & Hk & Hc & H35). destruct (format_last v) as (m & d & Hf & Hd).
  unfold reading. assert (Hl : k ++ lit " " ++ FormatG v = c :: (r ++ 32 :: m) ++ [d]) by (rewrite Hk, Hf; cbn; by rewrite <-app_assoc).
  rewrite Hl, TrimSpace_id by done. rewrite bool_decide_eq_false_2 by done. cbn [hasPrefix orb]. rewrite (proj2 (Z.eqb_neq c 35)) by done. cbn [andb].
  rewrite <-Hl. unfold cut_last_space. change (lit " ") with [32]. cbn [app].
  rewrite reverse_app, reverse_cons, <-app_assoc. cbn [app]. rewrite cut_at_app.
  - rewrite !reverse_involutive, Ht, format_parse. done.
  - rewrite elem_of_reverse. destruct (format_plain v) as [_ Hp]. intros Hin. rewrite Forall_forall in Hp. specialize (Hp _ Hin). unfold plain in Hp. lia.
Qed.

Definition help_line (name : bytes) : bytes := lit "# HELP " ++ name ++ lit " Aggregated across the fleet by the router; monotonic across upstream restarts.".
Definition type_line (name : bytes) : bytes := lit "# TYPE " ++ name ++ lit " counter".

Lemma reading_comment names l m d : l = 35 :: m ++ [d] → plain d → reading u ParseFloat names l = None.
Proof. intros -> Hd. unfold reading. rewrite TrimSpace_id by (done || (unfold plain; lia)). done. Qed.

Lemma reading_help names name : reading u ParseFloat names (help_line name) = None ∧ reading u ParseFloat names (type_line name) = None.
Proof.
  split.
  - apply (reading_comment _ _ (lit " HELP " ++ name ++ lit " Aggregated across the fleet by the router; monotonic across upstream restarts") 46); [|unfold plain; lia].
    unfold help_line. by rewrite !app_comm_cons, <-!app_assoc.
  - apply (reading_comment _ _ (lit " TYPE " ++ name ++ lit " counte") 114); [|unfold plain; lia]. unfold type_line. by rewrite !app_comm_cons, <-!app_assoc.
Qed.

Fixpoint render_lines (lastName : bytes) (vals : readings) (keys : list bytes) : list bytes :=
  match keys with
  | [] => []
  | k :: keys =>
      (if bool_decide (name_of k = lastName) then [] else [help_line (name_of k); type_line (name_of k)])
      ++ (k ++ lit " " ++ FormatG (value vals k)) :: render_lines (name_of k) vals keys
  end.

Lemma render_unlines keys vals : ∀ lastName, render FormatG lastName vals keys = unlines (render_lines lastName vals keys).
Proof.
  induction keys as [|k keys IH]; intros lastName; [done|]. cbn [render render_lines]. rewrite unlines_app, IH. f_equal.
  - destruct (bool_decide _); [done|]. unfold help, help_line, type_line. cbn [unlines]. by rewrite <-!app_assoc.
  - cbn [unlines]. unfold series_line. by rewrite <-!app_assoc.
Qed.

Lemma parse_lines names keys vals : Forall metric_name names → Forall (good_key names vals) keys → ∀ lastName out,
  foldl (parse_line u ParseFloat names) out (render_lines lastName vals keys) = foldl (λ out k, <[k := f64_add (value out k) (value vals k)]> out) out keys.
Proof.
  intros Hn Hk. induction Hk as [|k keys (Hk & _) _ IH]; intros lastName out; [done|]. cbn [render_lines foldl]. rewrite foldl_app. cbn [foldl].
  assert (Hh : ∀ o, parse_line u ParseFloat names (parse_line u ParseFloat names o (help_line (name_of k))) (type_line (name_of k)) = o).
  { intros o. unfold parse_line. destruct (reading_help names (name_of k)) as [-> ->]. done. }
  rewrite IH. f_equal. destruct (bool_decide _); cbn [foldl]; rewrite ?Hh; unfold parse_line; by rewrite reading_series.
Qed.

Lemma fold_values vals keys : NoDup keys → ∀ out, (∀ k, k ∈ keys → out !! k = None) → ∀ k,
  (foldl (λ out k, <[k := f64_add (value out k) (value vals k)]> out) out keys : readings) !! k
  = if decide (k ∈ keys) then Some (f64_add (S754_zero false) (value vals k)) else out !! k.
Proof.
  induction 1 as [|e keys He _ IH]; intros out Ho k; cbn [foldl]; [by rewrite decide_False by (by intros ?%elem_of_nil)|].
  rewrite IH. 2: { intros k' Hk'. rewrite lookup_insert_ne by congruence. apply Ho. by right. }
  destruct (decide (k ∈ keys)) as [Hin|Hin]; [by rewrite decide_True by (by right)|]. destruct (decide (k = e)) as [->|Hne].
  - rewrite lookup_insert_eq, decide_True by (by left). unfold value at 1. by rewrite (Ho e) by (by left).
  - rewrite lookup_insert_ne by done. rewrite decide_False; [done|]. by intros [->|?]%elem_of_cons.
Qed.

Lemma render_scannable names keys vals : Forall metric_name names → Forall (λ n, List.length n ≤ 1000)%nat names → Forall (good_key names vals) keys →
  ∀ lastName, Forall scannable (render_lines lastName vals keys).
Proof.
  intros Hn Hlen Hk. assert (Hmax : (2000 ≤ max_line)%nat) by (apply Nat.leb_le; by vm_compute).
  induction Hk as [|k keys (Ht & Hnl & Hl) _ IH]; intros lastName; [constructor|]. cbn [render_lines]. pose proof (tracked_in _ _ Ht) as Hin.
  assert (Hcomment : ∀ pre post d, newline ∉ pre → newline ∉ post → plain d → (List.length pre + List.length post < 900)%nat → scannable (pre ++ name_of k ++ post ++ [d])).
  { intros pre post d Hp Hq Hd Hpq. rewrite Forall_forall in Hn, Hlen. specialize (Hlen _ Hin). destruct (Hn _ Hin) as (_ & _ & _ & _ & Hpl).
    rewrite Forall_forall in Hpl. split_and!.
    - rewrite !elem_of_app, list_elem_of_singleton. intros [?|[Hx|[?|Hx]]]; [done| |done|subst d; cbv [plain newline] in *; lia]. specialize (Hpl _ Hx). cbv [plain newline] in *. lia.
    - rewrite !length_app. cbn [List.length]. lia.
    - rewrite !app_assoc. by apply drop_cr_plain. }
  apply Forall_app. split; [|constructor; [split_and!|apply IH]].
  - destruct (bool_decide _); [constructor|]. apply Forall_cons. split; [|apply Forall_singleton].
    + apply (Hcomment (lit "# HELP ") (lit " Aggregated across the fleet by the router; monotonic across upstream restarts") 46);
        [by apply no_newline|by apply no_newline|unfold plain; lia|]. apply Nat.ltb_lt. by vm_compute.
    + apply (Hcomment (lit "# TYPE ") (lit " counte") 114); [by apply no_newline|by apply no_newline|unfold plain; lia|]. apply Nat.ltb_lt. by vm_compute.
  - destruct (format_plain (value vals k)) as [_ Hp]. rewrite !elem_of_app. intros [?|[Hx|Hx]]; [done| |].
    + apply list_elem_of_singleton in Hx. done.
    + rewrite Forall_forall in Hp. specialize (Hp _ Hx). cbv [plain newline] in *. lia.
  - apply Hl.
  - destruct (format_last (value vals k)) as (m & d & -> & Hd). rewrite !app_assoc. by apply drop_cr_plain.
Qed.

(** C23: what a router exports, a router reads back: scraping the rendered totals gives the
    totals, so aggregators compose. *)
Theorem renders_back (a : Aggregator) :
  Forall metric_name (Names (cfg a)) → Forall (λ n, List.length n ≤ 1000)%nat (Names (cfg a)) →
  (∀ k, is_Some (totals a !! k) → good_key (Names (cfg a)) (totals a) k) →
  (∀ k v, totals a !! k = Some v → f64_add (S754_zero false) v = v) →
  parse u ParseFloat (Names (cfg a)) (Render FormatG a) = totals a.
Proof.
  intros Hn Hlen Hg Hz. unfold Render. set (keys := merge_sort _ _).
  assert (Hperm : keys ≡ₚ elements (dom (totals a))) by apply merge_sort_Permutation.
  assert (Hin : ∀ k, k ∈ keys ↔ is_Some (totals a !! k)) by (intros k; by rewrite Hperm, elem_of_elements, elem_of_dom).
  assert (Hgk : Forall (good_key (Names (cfg a)) (totals a)) keys) by (apply Forall_forall; intros k Hk; by apply Hg, Hin).
  unfold parse. rewrite render_unlines, scan_unlines, parse_lines by (done || by eapply render_scannable). apply map_eq. intros k.
  rewrite fold_values; [|rewrite Hperm; apply NoDup_elements|intros ? _; apply lookup_empty].
  destruct (decide (k ∈ keys)) as [Hk|Hk].
  - apply Hin in Hk as [v Hv]. unfold value. rewrite Hv. f_equal. by apply (Hz k v).
  - rewrite lookup_empty. rewrite Hin in Hk. symmetry. by apply eq_None_not_Some.
Qed.
End roundtrip.

(** ** Concrete runs *)

Module VllmEx.
Definition u : Unicode := MkUnicode (λ s, s) (λ s, s) (λ s t, bool_decide (s = t)).

(** Decimal integers, the way counters are exported. *)
Definition digit (acc : option Z) (c : Z) : option Z := match acc with Some n => if (48 <=? c) && (c <=? 57) then Some (10 * n + (c - 48)) else None | None => None end.
Definition ParseInt (s : bytes) : option float64 := match s with [] => None | _ => f64_of_Z <$> foldl digit (Some 0) s end.

Definition metric : bytes := lit "sglang:prompt_tokens_total".
Definition answer (v : string) : bytes := metric ++ [32] ++ lit v.
Definition scrape (v : option string) (a : Aggregator) : Aggregator :=
  ScrapeAll u ParseInt (λ _, match v with Some v => Some (answer v) | None => None end) (λ l, l) ["http://gpu1:80"%string] a.
Definition total (a : Aggregator) : float64 := value (totals a) metric.
Definition start : Aggregator := New (MkConfig 0 0 []).

(** A body that breaks off in the middle of a number reads as a restart, so that the whole
    counter is counted again with the next answer. *)
Lemma truncated_answer_counts_again :
  total (scrape (Some "12345"%string) (scrape (Some "12345"%string) start)) = f64_of_Z 12345 ∧
  total (scrape (Some "12345"%string) (scrape (Some "12"%string) (scrape (Some "12345"%string) start))) = f64_of_Z 24690.
Proof. split; by vm_compute. Qed.

(** Sixty seconds without an answer, and a backend is never asked again. *)
Lemma restart_retires :
  total (scrape (Some "50"%string) (scrape None (scrape None (scrape (Some "40"%string) start)))) = f64_of_Z 40.
Proof. by vm_compute. Qed.

(** What is known of an endpoint that left goes after 121 cycles, but for its counts of
    barren answers. *)
Definition leave (a : Aggregator) : Aggregator := ScrapeAll u ParseInt (λ _, None) (λ l, l) [] a.
Lemma departed_remembered :
  let a := Nat.iter 121 leave (scrape (Some "7"%string) start) in
  prev a = ∅ ∧ missing a = ∅ ∧ barren a = {[ "http://gpu1:80"%string := 0 ]}.
Proof. cbn zeta. split_and!; by vm_compute. Qed.

(** Two cycles of one backend. *)
Definition gpu : string := "http://gpu1:80".
Definition read (v : Z) : string → counts := λ _, {[ metric := v ]}.
Definition two_cycles : list cycle := fleet_cycle [gpu] <$> [read 70; read 40].

Lemma scraped_one v : scraped u ParseInt (MkConfig 0 0 []) (fleet_cycle [gpu] <$> [read 40]) (scrape (Some "40"%string) start) →
  scrapeOne u ParseInt (λ _, Some (answer v)) (scrape (Some "40"%string) start) <$> [gpu] = lift <$> fleet_cycle [gpu] (read 70) →
  scraped u ParseInt (MkConfig 0 0 []) two_cycles (scrape (Some v) (scrape (Some "40"%string) start)).
Proof. intros H Hv. apply (scraped_cycle _ _ _ _ (λ l, l)); [done|done|apply NoDup_singleton|exact Hv]. Qed.

Lemma scraped_first : scraped u ParseInt (MkConfig 0 0 []) (fleet_cycle [gpu] <$> [read 40]) (scrape (Some "40"%string) start).
Proof. apply (scraped_cycle _ _ _ _ (λ l, l)); [apply scraped_new|done|apply NoDup_singleton|]. by vm_compute. Qed.

Lemma scraped_second : scraped u ParseInt (MkConfig 0 0 []) two_cycles (scrape (Some "70"%string) (scrape (Some "40"%string) start)).
Proof. apply scraped_one; [apply scraped_first|]. by vm_compute. Qed.

Lemma two_counters : counters two_cycles.
Proof.
  repeat constructor; cbn; try (by intros ?%elem_of_nil); intros k v; cbn; intros [_ <-]%lookup_singleton_Some; lia.
Qed.
Lemma two_bounded k : served k two_cycles < exact_bound.
Proof.
  destruct (decide (k = metric)) as [->|Hk]; [by vm_compute|]. unfold two_cycles, read. cbn [fmap list_fmap served]. unfold cycle_gain, fleet_cycle.
  cbn [fmap list_fmap]. unfold reading_gain. cbn [fst snd]. rewrite !lookup_singleton_ne by done. by vm_compute.
Qed.

Lemma totals_exact_witness :
  total (scrape (Some "70"%string) (scrape (Some "40"%string) start)) = f64_of_Z 70 ∧
  SFltb (total (scrape (Some "70"%string) (scrape (Some "40"%string) start))) (total (scrape (Some "40"%string) start)) = false.
Proof.
  destruct (totals_exact u ParseInt (MkConfig 0 0 []) _ _ _ _ scraped_first scraped_second two_counters two_bounded) as [H1 H2].
  split; [|apply H2]. unfold total. rewrite (H1 metric). by vm_compute.
Defined.

Lemma steady_fleet_witness : total (scrape (Some "70"%string) (scrape (Some "40"%string) start)) = f64_of_Z 70.
Proof.
  apply (steady_fleet u ParseInt (MkConfig 0 0 []) [gpu] metric (read 70) [read 40] _ scraped_second (NoDup_singleton _) two_counters two_bounded).
  - intros [|[|i]] g h; cbn; [intros [= <-] [= <-] ep _; by vm_compute|done|done].
  - intros g Hg ep _. repeat (apply elem_of_cons in Hg as [->|Hg]; [by eexists; vm_compute|]). by apply elem_of_nil in Hg.
Defined.

Lemma two_strikes_witness :
  let a := scrape None (scrape (Some "40"%string) start) in
  gpu ∉ dead a ∧ gpu ∈ dead (scrape None a).
Proof.
  cbn zeta. split; [by vm_compute|].
  assert (Hs : scraped u ParseInt (MkConfig 0 0 []) [fleet_cycle [gpu] (λ _, ∅); fleet_cycle [gpu] (read 40)] (scrape None (scrape (Some "40"%string) start))).
  { apply (scraped_cycle _ _ _ _ (λ l, l)); [apply scraped_first|done|apply NoDup_singleton|]. by vm_compute. }
  destruct (two_strikes u ParseInt (MkConfig 0 0 []) _ _ (λ _, None) (λ l, l) [gpu] (fleet_cycle [gpu] (λ _, ∅)) Hs) as (_ & H & _);
    [done|apply NoDup_singleton|by vm_compute|].
  apply H. right. split; [by vm_compute|]. by vm_compute.
Defined.

(** Any text that can be read back will do for numbers; this one spells the bits. *)
Fixpoint spell (p : positive) : bytes := match p with xH => [50] | xO p => 48 :: spell p | xI p => 49 :: spell p end.
Fixpoint unspell (s : bytes) : option (positive * bytes) :=
  match s with
  | [] => None
  | c :: s => if c =? 50 then Some (xH, s)
              else match unspell s with Some (p, r) => Some (if c =? 48 then xO p else xI p, r) | None => None end
  end.
Definition spell_Z (z : Z) : bytes := match z with Z0 => [65] | Zpos p => 66 :: spell p | Zneg p => 67 :: spell p end.
Definition unspell_Z (s : bytes) : option Z :=
  match s with
  | c :: s => if c =? 65 then Some 0 else match unspell s with Some (p, _) => Some (if c =? 66 then Zpos p else Zneg p) | None => None end
  | [] => None
  end.
Definition sign (s : bool) : Z := if s then 45 else 43.
Definition Format (v : float64) : bytes :=
  match v with
  | S754_zero s => [68; sign s]
  | S754_infinity s => [69; sign s]
  | S754_nan => [70]
  | S754_finite s m e => 71 :: sign s :: spell m ++ spell_Z e
  end.
Definition Parse (s : bytes) : option float64 :=
  match s with
  | c :: s =>
      if c =? 70 then Some S754_nan
      else match s with
           | g :: s =>
               if c =? 68 then Some (S754_zero (g =? 45)) else if c =? 69 then Some (S754_infinity (g =? 45))
               else match unspell s with
                    | Some (m, r) => match unspell_Z r with Some e => Some (S754_finite (g =? 45) m e) | None => None end
                    | None => None
                    end
           | [] => None
           end
  | [] => None
  end.

Lemma unspell_app p r : unspell (spell p ++ r) = Some (p, r).
Proof. induction p as [p IH|p IH|]; cbn; by rewrite ?IH. Qed.
Lemma unspell_Z_spell z : unspell_Z (spell_Z z) = Some z.
Proof. destruct z as [|p|p]; cbn; [done| |]; by rewrite <-(app_nil_r (spell p)), unspell_app. Qed.
Lemma Parse_Format v : Parse (Format v) = Some v.
Proof. destruct v as [[]|[]| |[] m e]; cbn; try done; by rewrite unspell_app, unspell_Z_spell. Qed.
Lemma spell_plain p : Forall plain (spell p).
Proof. induction p; cbn; constructor; try done; unfold plain; lia. Qed.
Lemma Format_plain v : Format v ≠ [] ∧ Forall plain (Format v).
Proof.
  assert (Hs : ∀ s, plain (sign s)) by (intros []; unfold plain, sign; lia). split; [by destruct v|].
  destruct v as [s|s| |s m e]; cbn; repeat (constructor; [done || (unfold plain; lia)|]); [constructor..|]. apply Forall_app. split; [apply spell_plain|].
  destruct e; cbn; repeat (constructor; [unfold plain; lia|]); [constructor|apply spell_plain..].
Qed.

Definition labelled : bytes := metric ++ lit "{model=x}".
Definition exported : Aggregator :=
  MkAgg (MkConfig 0 0 DefaultNames) {[ metric := f64_of_Z 5; labelled := f64_of_Z 3 ]} ∅ ∅ ∅ ∅ 0 0 ∅ ∅.
Lemma metric_name_ok n : match n with c :: _ => negb (c =? 35) && forallb (λ c, (33 <=? c) && (c <=? 126)) n | [] => false end = true → metric_name n.
Proof.
  destruct n as [|c r]; [done|]. intros [Hc Hp]%andb_true_iff. exists c, r. split_and!; [done|by apply negb_true_iff, Z.eqb_neq in Hc|].
  rewrite forallb_forall in Hp. apply Forall_forall. intros d Hd%list_elem_of_In. apply Hp in Hd as [? ?]%andb_true_iff. unfold plain. lia.
Qed.

Lemma renders_back_witness : parse u Parse DefaultNames (Render Format exported) = {[ metric := f64_of_Z 5; labelled := f64_of_Z 3 ]}.
Proof.
  apply (renders_back u Parse Format (λ _ _ _ _ _, eq_refl) Format_plain Parse_Format exported).
  - apply Forall_forall. intros n Hn. repeat (apply elem_of_cons in Hn as [->|Hn]; [by apply metric_name_ok|]). by apply elem_of_nil in Hn.
  - apply Forall_forall. intros n Hn. repeat (apply elem_of_cons in Hn as [->|Hn]; [apply Nat.leb_le; by vm_compute|]). by apply elem_of_nil in Hn.
  - intros k [v Hv]. unfold exported in Hv. cbn [totals] in Hv. apply lookup_insert_Some in Hv as [[<- _]|[_ [<- _]%lookup_singleton_Some]]; (split_and!; [by vm_compute|by apply no_newline|]);
      apply Nat.ltb_lt; by vm_compute.
  - intros k v Hv. unfold exported in Hv. cbn [totals] in Hv. apply lookup_insert_Some in Hv as [[<- <-]|[_ [<- <-]%lookup_singleton_Some]]; by vm_compute.
Defined.
End VllmEx.
