(* ===== verification/Exposition.v ===== *)
(** * Exposition: what a router's metrics endpoint answers

    [src/router/serve/serve.go], its last part: which backends the upstream aggregation
    scrapes, the summary of the fleet's load, and the body of /metrics.  The router's own
    collectors are the Prometheus library's, an argument here, and so is gzip. *)

From stdpp Require Import base gmap sets list strings pretty.
From Stdlib Require Import ZArith Lia.
From Corelib Require Import SpecFloat.
From S2P Require Import Prelude KvUnits Circuit WaitQ Backend Registry Policy PrefillManager StreamScan GoText Proxy Pool Discovery Url Serve VllmMetrics.
Open Scope Z_scope.
Open Scope list_scope.

(** ** The fleet *)

Definition pool_backends (p : Pool.Pool) : list Backend.Backend := (λ l, Registry.store (pl_reg p) !!! l) <$> Backends (cur (pl_reg p)).

(** The closure [eps]: every published URL once. *)
Definition see (out : list string) (url : string) : list string := if bool_decide (url ∈ out) then out else out ++ [url].
Definition eps (pools : list Pool.Pool) : list string := foldl see [] (Backend.URL <$> (pools ≫= pool_backends)).

(** The aggregator of an assembled router: what the startup probe found not to be an engine
    is retired at once. *)
Definition aggregator (c : VllmMetrics.Config) (a : assembled) : Aggregator :=
  foldl (λ g ep, Retire ep g) (VllmMetrics.New c) (as_built a ≫= bt_retired).

(** ** The load summary *)

Record gauges := MkGauges { WorkerLoadAvg : float64; WorkerLoadMax : float64; WorkerLoadMin : float64 }.
Record load_sums := MkSums { ls_sum : float64; ls_max : float64; ls_min : float64; ls_n : Z }.

Definition add_load (s : load_sums) (l : float64) : load_sums :=
  MkSums (f64_add (ls_sum s) l) (if (ls_n s =? 0) || SFltb (ls_max s) l then l else ls_max s)
    (if (ls_n s =? 0) || SFltb l (ls_min s) then l else ls_min s) (ls_n s + 1).
Definition fleet_loads (now : Z) (pools : list Pool.Pool) : list float64 :=
  Backend.NormalizedLoad <$> filter (λ b, Available now b = true) (pools ≫= pool_backends).
Definition publishFleetLoad (now : Z) (pools : list Pool.Pool) (g : gauges) : gauges :=
  let s := foldl add_load (MkSums (S754_zero false) (S754_zero false) (S754_zero false) 0) (fleet_loads now pools) in
  if ls_n s =? 0 then g else MkGauges (f64_div (ls_sum s) (f64_of_Z (ls_n s))) (ls_max s) (ls_min s).

(** ** The exposition *)

Section exposition.
Context (u : Unicode) (FormatG : float64 → bytes) (gzip : bytes → bytes).

Definition acceptsGzip (h : header) : bool :=
  existsb (λ part, EqualFold u (match cut_at 59 (TrimSpace u part) with Some (name, _) => name | None => TrimSpace u part end) (lit "gzip"))
    (Split 44 (lit (Get "Accept-Encoding" h))).

(** What a handler does to its response writer, and the writer that keeps it. *)
Inductive mact := MSet (k : string) (vs : list string) | MStatus (code : Z) | MWrite (b : bytes).
Record metricsBuffer := MkBuf { mb_hdr : header; mb_buf : bytes; mb_status : Z }.
Definition buffered (m : metricsBuffer) (a : mact) : metricsBuffer :=
  match a with
  | MSet k vs => MkBuf (<[k := vs]> (mb_hdr m)) (mb_buf m) (mb_status m)
  | MStatus code => MkBuf (mb_hdr m) (mb_buf m) code
  | MWrite b => MkBuf (mb_hdr m) (mb_buf m ++ b) (mb_status m)
  end.

Record answer := MkAnswer { an_status : Z; an_hdr : header; an_body : bytes }.

(** [own] is what the router's own metrics handler does; [h] the headers already set. *)
Definition metricsExposition (own : list mact) (agg : option Aggregator) (req h : header) : answer :=
  let rec := foldl buffered (MkBuf ∅ [] 200) own in
  let body := mb_buf rec ++ match agg with Some a => Render FormatG a | None => [] end in
  let h := Del "Content-Length" (mb_hdr rec ∪ h) in
  if acceptsGzip req
  then MkAnswer (mb_status rec) (Set_ "Content-Encoding" "gzip" h) (gzip body)
  else MkAnswer (mb_status rec) (Set_ "Content-Length" (Itoa (Z.of_nat (List.length body))) h) body.
End exposition.

(** ** What is scraped *)

Lemma see_all l : ∀ out, NoDup out → NoDup (foldl see out l) ∧ ∀ x, x ∈ foldl see out l ↔ x ∈ out ∨ x ∈ l.
Proof.
  induction l as [|y l IH]; intros out Hnd; cbn [foldl]; [split; [done|]; intros x; rewrite elem_of_nil; tauto|].
  assert (Hs : NoDup (see out y) ∧ ∀ x, x ∈ see out y ↔ x ∈ out ∨ x = y).
  { unfold see. destruct (bool_decide_reflect (y ∈ out)) as [Hin|Hin]; split; [done| | |].
    - intros x. split; [by left|by intros [?| ->]].
    - apply NoDup_app. split_and!; [done| |apply NoDup_singleton]. intros x Hx ->%list_elem_of_singleton. done.
    - intros x. by rewrite elem_of_app, list_elem_of_singleton. }
  destruct Hs as [Hnd' Hin']. destruct (IH _ Hnd') as [H1 H2]. split; [done|]. intros x. rewrite H2, Hin', elem_of_cons. tauto.
Qed.

Lemma eps_spec pools : NoDup (eps pools) ∧ ∀ url, url ∈ eps pools ↔ ∃ p b, p ∈ pools ∧ b ∈ pool_backends p ∧ url = Backend.URL b.
Proof.
  unfold eps. destruct (see_all (Backend.URL <$> (pools ≫= pool_backends)) [] (NoDup_nil_2)) as [H1 H2]. split; [done|]. intros url. rewrite H2, elem_of_nil, list_elem_of_fmap.
  setoid_rewrite list_elem_of_bind. naive_solver.
Qed.

Lemma retired_dead l : ∀ g, dead (foldl (λ g ep, Retire ep g) g l) = dead g ∪ list_to_set l.
Proof.
  induction l as [|ep l IH]; intros g; cbn [foldl list_to_set foldr]; [by rewrite union_empty_r_L|]. rewrite IH. cbn [Retire dead]. by rewrite union_assoc_L.
Qed.

(** the first cycle asks every published backend once, whatever pool it is in, but for
    those the startup probe ruled out. *)
Theorem first_cycle_asks (c : VllmMetrics.Config) (a : assembled) :
  let asked := live (aggregator c a) (eps (bt_pool <$> as_built a)) in
  NoDup asked ∧
  ∀ url, url ∈ asked ↔ (∃ b x, b ∈ as_built a ∧ x ∈ pool_backends (bt_pool b) ∧ url = Backend.URL x) ∧ ∀ b, b ∈ as_built a → url ∉ bt_retired b.
Proof.
  cbn zeta. destruct (eps_spec (bt_pool <$> as_built a)) as [Hnd Hin]. split; [by apply NoDup_filter|]. intros url.
  unfold live. rewrite list_elem_of_filter, Hin. unfold aggregator. rewrite retired_dead. cbn [VllmMetrics.New dead].
  rewrite union_empty_l_L, elem_of_list_to_set, list_elem_of_bind. setoid_rewrite list_elem_of_fmap. naive_solver.
Qed.

(** ** The load summary *)

Lemma SFltb_trans a b c : SFltb a b = true → SFltb b c = true → SFltb a c = true.
Proof. intros (Ha & Hb & H1)%SFltb_rank (_ & Hc & H2)%SFltb_rank. apply rank_SFltb; [done|done|]. by eapply lex_trans. Qed.

Record summarised (seen : list float64) (s : load_sums) : Prop := {
  su_n : ls_n s = Z.of_nat (List.length seen);
  su_max : seen ≠ [] → ls_max s ∈ seen ∧ ∀ l, l ∈ seen → SFltb (ls_max s) l = false;
  su_min : seen ≠ [] → ls_min s ∈ seen ∧ ∀ l, l ∈ seen → SFltb l (ls_min s) = false;
}.

Lemma SFltb_irrefl x : SFltb x x = false.
Proof. destruct (SFltb x x) eqn:E; [|done]. apply SFltb_rank in E as (_ & _ & H). by apply lex_irrefl in H. Qed.

Lemma add_load_summarised seen s l : summarised seen s → summarised (seen ++ [l]) (add_load s l).
Proof.
  intros [Hn Hmax Hmin]. unfold add_load. destruct (decide (seen = [])) as [->|Hne].
  - rewrite Hn. cbn [List.length Z.of_nat]. cbn [app Z.eqb orb]. split; cbn [ls_n ls_max ls_min]; [done| |];
      intros _; (split; [by left|]); intros x ->%list_elem_of_singleton; apply SFltb_irrefl.
  - destruct (Hmax Hne) as [M1 M2], (Hmin Hne) as [N1 N2]. rewrite (proj2 (Z.eqb_neq (ls_n s) 0)) by (rewrite Hn; destruct seen; [done|cbn; lia]). cbn [orb].
    split; cbn [ls_n ls_max ls_min]; [rewrite length_app, Hn; cbn; lia| |]; intros _; setoid_rewrite elem_of_app; setoid_rewrite list_elem_of_singleton.
    + destruct (SFltb (ls_max s) l) eqn:E; (split; [by (by left) || by right|]); intros x [Hx| ->]; auto using SFltb_irrefl.
      destruct (SFltb l x) eqn:F; [|done]. rewrite <-(M2 x Hx). symmetry. by eapply SFltb_trans.
    + destruct (SFltb l (ls_min s)) eqn:E; (split; [by (by left) || by right|]); intros x [Hx| ->]; auto using SFltb_irrefl.
      destruct (SFltb x l) eqn:F; [|done]. rewrite <-(N2 x Hx). symmetry. by eapply SFltb_trans.
Qed.

Lemma loads_summarised ls : ∀ seen s, summarised seen s → summarised (seen ++ ls) (foldl add_load s ls).
Proof.
  induction ls as [|l ls IH]; intros seen s Hs; cbn [foldl]; [by rewrite app_nil_r|].
  replace (seen ++ l :: ls) with ((seen ++ [l]) ++ ls) by (by rewrite <-app_assoc). apply IH. by apply add_load_summarised.
Qed.

(** the extremes published are loads of available backends, and no available backend
    lies outside them; with none available the gauges keep what they showed. *)
Theorem load_extremes (now : Z) (pools : list Pool.Pool) (g : gauges) :
  let g' := publishFleetLoad now pools g in
  (fleet_loads now pools = [] → g' = g) ∧
  (fleet_loads now pools ≠ [] →
     WorkerLoadMax g' ∈ fleet_loads now pools ∧ WorkerLoadMin g' ∈ fleet_loads now pools ∧
     ∀ l, l ∈ fleet_loads now pools → SFltb (WorkerLoadMax g') l = false ∧ SFltb l (WorkerLoadMin g') = false).
Proof.
  cbn zeta. unfold publishFleetLoad. set (s0 := MkSums _ _ _ 0).
  destruct (loads_summarised (fleet_loads now pools) [] s0) as [Hn Hmax Hmin]; [by split|]. cbn [app] in *. split.
  - intros ->. done.
  - intros Hne. destruct (Hmax Hne) as [M1 M2], (Hmin Hne) as [N1 N2]. rewrite (proj2 (Z.eqb_neq _ 0)) by (rewrite Hn; destruct (fleet_loads _ _); [done|cbn; lia]).
    cbn [WorkerLoadMax WorkerLoadMin]. auto.
Qed.

(** ** The body *)

Lemma buffered_buf own : ∀ m, mb_buf (foldl buffered m own) = mb_buf m ++ mjoin ((λ a, match a with MWrite b => b | _ => [] end) <$> own).
Proof.
  induction own as [|a own IH]; intros m; cbn [foldl fmap list_fmap mjoin list_join]; [by rewrite app_nil_r|]. rewrite IH. destruct a; cbn [buffered mb_buf]; [done|done|].
  by rewrite <-app_assoc.
Qed.

(** the exposition is one body encoded once.  Decoded as its header says, it is the
    router's own metrics followed by the fleet's totals; a length is given exactly when the
    body is not compressed, and it is the length of what is sent. *)
Theorem exposition_encoded_once u FormatG gzip (gunzip : bytes → bytes) own (agg : option Aggregator) (req h : header) :
  (∀ b, gunzip (gzip b) = b) → (∀ vs, MSet "Content-Encoding" vs ∉ own) → h !! "Content-Encoding"%string = None →
  let an := metricsExposition u FormatG gzip own agg req h in
  let body := mjoin ((λ a, match a with MWrite b => b | _ => [] end) <$> own) ++ match agg with Some a => Render FormatG a | None => [] end in
  (if bool_decide (Get "Content-Encoding" (an_hdr an) = "gzip"%string) then gunzip (an_body an) else an_body an) = body ∧
  (acceptsGzip u req = true → Get "Content-Encoding" (an_hdr an) = "gzip"%string ∧ an_hdr an !! "Content-Length"%string = None) ∧
  (acceptsGzip u req = false → an_hdr an !! "Content-Encoding"%string = None ∧ Get "Content-Length" (an_hdr an) = Itoa (Z.of_nat (List.length (an_body an)))).
Proof.
  intros Hz Hown Hh. cbn zeta. unfold metricsExposition. rewrite buffered_buf. cbn [mb_buf app]. set (rec := foldl buffered _ own).
  assert (Hrec : mb_hdr rec !! "Content-Encoding"%string = None).
  { subst rec. assert (Hgen : ∀ own m, (∀ vs, MSet "Content-Encoding" vs ∉ own) → mb_hdr m !! "Content-Encoding"%string = None →
      mb_hdr (foldl buffered m own) !! "Content-Encoding"%string = None).
    { clear. induction own as [|a own IH]; intros m Hno Hm; [done|]. cbn [foldl]. apply IH; [intros vs Hin; apply (Hno vs); by right|].
      destruct a as [k vs| |]; cbn [buffered mb_hdr]; [|done|done]. rewrite lookup_insert_ne; [done|]. intros ->. apply (Hno vs). by left. }
    by apply Hgen. }
  destruct (acceptsGzip u req); cbn [an_hdr an_body].
  - assert (He : Get "Content-Encoding" (Set_ "Content-Encoding" "gzip" (Del "Content-Length" (mb_hdr rec ∪ h))) = "gzip"%string)
      by (unfold Get, Set_; by rewrite lookup_insert_eq).
    rewrite He, bool_decide_eq_true_2 by done. split_and!; [by rewrite Hz| |done]. intros _. split; [done|].
    unfold Set_, Del. rewrite lookup_insert_ne by done. apply lookup_delete_eq.
  - assert (He : Set_ "Content-Length" (Itoa (Z.of_nat (List.length (mjoin ((λ a, match a with MWrite b => b | _ => [] end) <$> own) ++ match agg with Some a => Render FormatG a | None => [] end)))) (Del "Content-Length" (mb_hdr rec ∪ h)) !! "Content-Encoding"%string = None).
    { unfold Set_, Del. rewrite lookup_insert_ne, lookup_delete_ne, lookup_union_None by done. done. }
    split_and!; [|done|].
    + rewrite bool_decide_eq_false_2; [done|]. unfold Get. rewrite He. done.
    + intros _. split; [done|]. unfold Get, Set_. by rewrite lookup_insert_eq.
Qed.

(** ** Concrete runs *)

Lemma exposition_encoded_once_witness :
  an_body (metricsExposition VllmEx.u VllmEx.Format (λ b, 31 :: b) [MWrite [1]] None {[ "Accept-Encoding"%string := ["br, gzip"%string] ]} ∅) = [31; 1].
Proof.
  destruct (exposition_encoded_once VllmEx.u VllmEx.Format (λ b, 31 :: b) (drop 1) [MWrite [1]] None {[ "Accept-Encoding"%string := ["br, gzip"%string] ]} ∅)
    as (H & Hz & _); [done|intros vs ?%list_elem_of_singleton; done|done|].
  destruct Hz as [He _]; [by vm_compute|]. rewrite He in H. vm_compute in H. by vm_compute.
Defined.

Lemma load_extremes_idle : publishFleetLoad 0 [] (MkGauges (f64_of_Z 7) (f64_of_Z 9) (f64_of_Z 1)) = MkGauges (f64_of_Z 7) (f64_of_Z 9) (f64_of_Z 1).
Proof. by vm_compute. Qed.

(** A client that rules gzip out is sent gzip. *)
Lemma refused_gzip_sent : acceptsGzip VllmEx.u {[ "Accept-Encoding"%string := ["gzip;q=0, identity"%string] ]} = true.
Proof. by vm_compute. Qed.

(** The probe's verdict is kept under the URL as it was written, the fleet is known by
    canonical URLs: written without its port, an endpoint that was ruled out is asked. *)
Definition hosted_handler : assembled + serve_error :=
  Handler UrlEx.u UrlEx.parse demo_with_path (λ _, true) elements demo_env (demo_options false [demo_route ["https://api.openai.com"; "https://api.x.ai"] ""] []).
Lemma retired_by_another_name :
  match hosted_handler with
  | inl a => (as_built a ≫= bt_retired) = ["https://api.openai.com"; "https://api.x.ai"]%string ∧
      live (aggregator (VllmMetrics.MkConfig 0 0 []) a) (eps (bt_pool <$> as_built a)) = ["https://api.openai.com:443"; "https://api.x.ai:443"]%string
  | inr _ => False
  end.
Proof. vm_compute. by split. Qed.
