(* ===== verification/Bodies.v ===== *)
(** * Bodies: the request bodies the router writes

    [src/router/internal/prefill/body.go], the bodies of [src/router/internal/pd/pd.go] and
    [rewriteModelField] of [src/router/internal/gateway/gateway.go].  A body is decoded into
    its top-level fields, some are set or dropped, and it is encoded again.  The codec is the
    standard library's [encoding/json]: an interface, with the documented behaviour the code
    relies on as laws. *)

From stdpp Require Import base gmap list strings.
From Stdlib Require Import ZArith Lia.
From Corelib Require Import SpecFloat.
From S2P Require Import Prelude KvUnits StreamScan GoText Discovery Url.
Open Scope Z_scope.
Open Scope list_scope.

(** ** The codec *)

Abbreviation doc := (gmap string bytes).

(** A value decoded into [any]. *)
Inductive jval := JBool (b : bool) | JNum (f : float64) | JStr (s : bytes) | JOther.

Class Json := {
  Unmarshal : bytes → option (option doc);           (* into a map of raw values: an error, nil for null *)
  Marshal : doc → option bytes;
  MarshalString : bytes → option bytes;
  field_raw : string → bytes → option (option bytes); (* into a struct with one raw field *)
  field_any : string → bytes → option (gmap string jval); (* into a struct with one map of [any] *)
  reject_doc : bytes → option (bytes * bytes * bytes); (* [error]'s type, message and raw param *)
  valid : bytes → bool;                               (* a raw value is JSON *)
  in_range : bytes → bool;                            (* its numbers are doubles *)
  compact : bytes → bytes;                            (* what encoding does to a raw value *)
  utf8 : string → bool;                               (* a key is a text *)
  fold : string → bytes;                              (* a key as struct fields are matched *)
}.

(** A double quote stands as a single one in the texts below. *)
Definition quoted (s : string) : bytes := (λ c, if c =? 39 then 34 else c) <$> lit s.
Definition one : bytes := lit "1".

(** A key no other key of the document is a spelling of. *)
Definition spelled_once `{Json} (k : string) (m : doc) : Prop := ∀ k', is_Some (m !! k') → fold k' = fold k → k' = k.

(** A document the encoder takes. *)
Definition good `{Json} (m : doc) : Prop := map_Forall (λ k r, utf8 k = true ∧ valid r = true) m.

(** Lower-case letters, digits and underscores: nothing an encoder escapes. *)
Definition identifier (k : string) : bool := forallb (λ c, (97 <=? c) && (c <=? 122) || (48 <=? c) && (c <=? 57) || (c =? 95)) (lit k).

Class JsonLaws `{Json} : Prop := {
  fields_valid b m : Unmarshal b = Some (Some m) → good m;
  marshal_valid m : good m → ∃ out, Marshal m = Some out ∧ valid out = true;
  marshal_back m out : good m → Marshal m = Some out → Unmarshal out = Some (Some (compact <$> m));
  string_valid s : ∃ out, MarshalString s = Some out ∧ valid out = true;
  one_valid : valid one = true;
  one_compact : compact one = one;
  one_in_range : in_range one = true;
  compact_range r : in_range (compact r) = in_range r;
  identifier_text k : identifier k = true → utf8 k = true;
  fold_identifier k k' : identifier k = true → identifier k' = true → fold k = fold k' → k = k';
  false_valid : valid (lit "false") = true;
  compact_fields r m : Unmarshal r = Some (Some m) → Unmarshal (compact r) = Some (Some (compact <$> m));
  marshal_keys m out k raw : Marshal m = Some out → m !! k = Some raw → identifier k = true →
    Contains out (34 :: lit k ++ [34]) = true ∧ Contains out (compact raw) = true;
  compact_keys r k : Contains r (34 :: lit k ++ [34]) = true → identifier k = true → Contains (compact r) (34 :: lit k ++ [34]) = true;
  any_fields b m f raw x : Unmarshal b = Some (Some m) → spelled_once f m → m !! f = Some raw → Unmarshal raw = Some (Some x) → map_Forall (λ _ r, in_range r = true) x →
    ∃ xs, field_any f b = Some xs ∧ ∀ k, x !! k = Some one → xs !! k = Some (JNum (f64_of_Z 1));
  raw_field b m f : Unmarshal b = Some (Some m) → spelled_once f m → field_raw f b = Some (m !! f);
}.

Section bodies.
Context `{Json} (u : Unicode).

(** ** Prefill jobs *)

Definition BypassKey : string := "weka_prefill".
Definition RejectionType : bytes := lit "large_prefill_rejected".
Definition bypassMarker : bytes := 34 :: lit BypassKey ++ [34].

Definition truthy (v : jval) : bool :=
  match v with
  | JBool v => v
  | JNum v => negb (SFeqb v (S754_zero false))
  | JStr v => negb (bool_decide (v = [])) && negb (bool_decide (v = lit "0")) && negb (bool_decide (v = lit "false"))
  | JOther => false
  end.
Definition HasBypass (body : bytes) : bool :=
  if negb (Contains body bypassMarker) then false
  else match field_any "vllm_xargs" body with
       | None => false
       | Some xs => match xs !! BypassKey with Some v => truthy v | None => false end
       end.

Record object := MkObject { fields : doc; xargs : doc }.

Definition parseObject (body : bytes) : option object :=
  match Unmarshal body with
  | Some (Some m) =>
      Some (MkObject m match m !! "vllm_xargs"%string with
                       | Some raw => match Unmarshal raw with Some (Some x) => x | _ => ∅ end
                       | None => ∅
                       end)
  | _ => None
  end.

Definition encode (o : object) (orig : bytes) : bytes :=
  match Marshal (<[BypassKey := one]> (xargs o)) with
  | None => orig
  | Some xa => match Marshal (<["vllm_xargs"%string := xa]> (fields o)) with None => orig | Some out => out end
  end.

Definition WithBypass (body : bytes) : bytes :=
  match parseObject body with None => body | Some o => encode o body end.

(** [if _, has := m[k]; has { m[k] = v }]. *)
Definition set_if (k : string) (v : bytes) (m : doc) : doc := match m !! k with Some _ => <[k := v]> m | None => m end.
Definition job_fields (m : doc) : doc :=
  let m := <["max_tokens"%string := one]> m in
  let m := set_if "max_completion_tokens" one m in
  let m := set_if "stream" (lit "false") m in
  foldl (λ m k, delete k m) m ["stream_options"; "min_tokens"; "thinking"]%string.
Definition JobBody (body : bytes) : bytes :=
  match parseObject body with None => body | Some o => encode (MkObject (job_fields (fields o)) (xargs o)) body end.

(** ** The engine's refusal *)

(** The digits at the front of a text, and the rest. *)
Fixpoint span_digits (s : bytes) : bytes * bytes :=
  match s with
  | c :: r => if (48 <=? c) && (c <=? 57) then let '(d, t) := span_digits r in (c :: d, t) else ([], s)
  | [] => ([], [])
  end.
(** [prefill of (\d+) tokens]: the first match's digits. *)
Definition match_here (s : bytes) : option bytes :=
  if hasPrefix s (lit "prefill of ")
  then let '(d, t) := span_digits (drop 11 s) in if negb (bool_decide (d = [])) && hasPrefix t (lit " tokens") then Some d else None
  else None.
Fixpoint rejectionPrompt (s : bytes) : option bytes :=
  match match_here s with
  | Some d => Some d
  | None => match s with [] => None | _ :: r => rejectionPrompt r end
  end.

(** [bytes.Trim] of quotes. *)
Definition unquote (p : bytes) : bytes := drop_byte 34 (TrimRight 34 p).
Definition from_param (param : bytes) : option Z :=
  match unquote param with
  | [] => None
  | p => match ParseInt (text p) with Some n => if 0 <? n then Some n else None | None => None end
  end.
Definition ParseRejection (body : bytes) : option Z :=
  if negb (Contains body RejectionType) then None
  else match reject_doc body with
       | None => None
       | Some (ty, message, param) =>
           if negb (bool_decide (ty = RejectionType)) then None
           else match from_param param with
                | Some n => Some n
                | None => match rejectionPrompt message with
                          | Some d => match ParseInt (text d) with Some n => Some n | None => Some 0 end
                          | None => Some 0
                          end
                end
       end.

(** ** The legs of a disaggregated request *)

Definition prefillParams : bytes :=
  quoted "{'do_remote_decode':true,'do_remote_prefill':false,'remote_engine_id':null,'remote_block_ids':null,'remote_host':null,'remote_port':null}".

Definition pd_parse (body : bytes) : option doc := match Unmarshal body with Some (Some m) => Some m | _ => None end.
Definition pd_encode (m : doc) (orig : bytes) : bytes := match Marshal m with None => orig | Some out => out end.

Definition leg_fields (m : doc) : doc :=
  let m := <["max_tokens"%string := one]> m in
  let m := set_if "max_completion_tokens" one m in
  let m := <["stream"%string := lit "false"]> m in
  let m := delete "stream_options"%string m in
  <["kv_transfer_params"%string := prefillParams]> m.
Definition PrefillBody (body : bytes) : bytes :=
  match pd_parse body with None => body | Some m => pd_encode (leg_fields m) body end.
Definition DecodeBody (body params : bytes) : bytes :=
  match pd_parse body with None => body | Some m => pd_encode (<["kv_transfer_params"%string := params]> m) body end.
Definition ParseParams (resp : bytes) : option bytes :=
  match field_raw "kv_transfer_params" resp with
  | None => None
  | Some raw => let raw := default [] raw in if hasPrefix (TrimSpace u raw) [123] then Some raw else None
  end.

(** ** The model a route rewrites *)

(** Nothing is a panic: the assignment to a map that [null] has left nil. *)
Definition rewriteModelField (body model : bytes) : option bytes :=
  match Unmarshal body with
  | None => Some body
  | Some d =>
      match MarshalString model with
      | None => Some body
      | Some enc => match d with
                    | None => None
                    | Some d => match Marshal (<["model"%string := enc]> d) with None => Some body | Some out => Some out end
                    end
      end
  end.
End bodies.

(** ** What is sent *)

Section theorems.
Context `{HL : JsonLaws} (u : Unicode).

Lemma set_valid (k : string) (v : bytes) (m : doc) : identifier k = true → valid v = true → good m → good (<[k := v]> m).
Proof. intros Hk Hv Hm. apply map_Forall_insert_2; [|done]. split; [by apply identifier_text|done]. Qed.
Lemma set_if_valid k v m : identifier k = true → valid v = true → good m → good (set_if k v m).
Proof. intros Hk Hv Hm. unfold set_if. destruct (m !! k); [by apply set_valid|done]. Qed.
Lemma job_fields_valid m : good m → good (job_fields m).
Proof.
  intros Hm. unfold job_fields. cbn [foldl]. repeat apply map_Forall_delete.
  apply set_if_valid; [done|apply false_valid|]. apply set_if_valid; [done|apply one_valid|]. by apply set_valid; [|apply one_valid|].
Qed.

(** A parsed object, encoded with the bypass. *)
Record carries_bypass (f x : doc) (out : bytes) : Prop := {
  cb_fields : ∃ xa, Unmarshal out = Some (Some (compact <$> <["vllm_xargs"%string := xa]> f)) ∧ Unmarshal xa = Some (Some (compact <$> <[BypassKey := one]> x));
  cb_seen : spelled_once "vllm_xargs" f → map_Forall (λ _ r, in_range r = true) x → HasBypass out = true;
}.

Lemma encode_carries f x orig : good f → good x →
  carries_bypass f x (encode (MkObject f x) orig).
Proof.
  intros Hf Hx. unfold encode. cbn [fields xargs].
  destruct (marshal_valid (<[BypassKey := one]> x)) as (xa & Hxa & Hvxa); [by apply set_valid; [|apply one_valid|]|]. rewrite Hxa.
  destruct (marshal_valid (<["vllm_xargs"%string := xa]> f)) as (out & Hout & _); [by apply set_valid|]. rewrite Hout.
  assert (Hb : Unmarshal out = Some (Some (compact <$> <["vllm_xargs"%string := xa]> f))) by (apply marshal_back; [|exact Hout]; by apply set_valid).
  assert (Hbx : Unmarshal xa = Some (Some (compact <$> <[BypassKey := one]> x))) by (apply marshal_back; [by apply set_valid; [|apply one_valid|]|done]).
  split; [by exists xa|]. intros Honce Hr.
  assert (Hm : Contains out bypassMarker = true).
  {
    destruct (marshal_keys _ _ BypassKey one Hxa) as [Hk _]; [apply lookup_insert_eq|done|].
    destruct (marshal_keys _ _ "vllm_xargs"%string xa Hout) as [_ Hraw]; [apply lookup_insert_eq|done|].
    apply (compact_keys _ BypassKey) in Hk; [|done]. apply Contains_spec in Hraw as (a & b & ->). apply Contains_spec in Hk as (c & d & ->).
    apply Contains_spec. exists (a ++ c), (d ++ b). unfold bypassMarker. by rewrite <-!app_assoc. }
  unfold HasBypass. rewrite Hm. cbn [negb].
  destruct (any_fields out (compact <$> <["vllm_xargs"%string := xa]> f) "vllm_xargs" (compact xa) (compact <$> (compact <$> <[BypassKey := one]> x)))
    as (xs & Hxs & Hone).
  - done.
  - intros k'. rewrite lookup_fmap, fmap_is_Some. destruct (decide (k' = "vllm_xargs"%string)) as [->|Hne]; [done|]. rewrite lookup_insert_ne by done. apply Honce.
  - by rewrite lookup_fmap, lookup_insert_eq.
  - by apply compact_fields.
  - intros k r. rewrite !lookup_fmap. destruct (decide (k = BypassKey)) as [->|Hk].
    + rewrite lookup_insert_eq. intros [= <-]. by rewrite !compact_range, one_in_range.
    + rewrite lookup_insert_ne by done. destruct (x !! k) as [y|] eqn:Ey; [|done]. intros [= <-]. rewrite !compact_range. by apply (Hr k).
  - rewrite Hxs, (Hone BypassKey); [done|]. rewrite !lookup_fmap, lookup_insert_eq. cbn. by rewrite !one_compact.
Qed.

Lemma parsed_valid body o : parseObject body = Some o → good (fields o) ∧ good (xargs o).
Proof.
  unfold parseObject. destruct (Unmarshal body) as [[m|]|] eqn:Hb; [|done..]. intros [= <-]. cbn [fields xargs]. split; [by eapply fields_valid|].
  destruct (m !! "vllm_xargs"%string) as [raw|]; [|apply map_Forall_empty]. destruct (Unmarshal raw) as [[x|]|] eqn:Hx; [by eapply fields_valid|apply map_Forall_empty..].
Qed.

(** What a prefill job asks for. *)
Definition job_field (m : doc) (k : string) : option bytes :=
  if bool_decide (k ∈ ["stream_options"; "min_tokens"; "thinking"]%string) then None
  else if bool_decide (k = "max_tokens"%string) then Some one
  else if bool_decide (k = "max_completion_tokens"%string) then const one <$> m !! k
  else if bool_decide (k = "stream"%string) then const (lit "false") <$> m !! k
  else m !! k.

Lemma set_if_lookup k v m k' : set_if k v m !! k' = if decide (k' = k) then const v <$> m !! k else m !! k'.
Proof.
  unfold set_if. destruct (m !! k) as [w|] eqn:Hk; destruct (decide (k' = k)) as [->|Hne]; try done; [by rewrite lookup_insert_eq|by rewrite lookup_insert_ne].
Qed.

Lemma job_fields_lookup m k : job_fields m !! k = job_field m k.
Proof.
  unfold job_fields, job_field. cbn [foldl]. destruct (bool_decide_reflect (k ∈ ["stream_options"; "min_tokens"; "thinking"]%string)) as [Hin|Hin].
  - apply elem_of_cons in Hin as [->|[->|[->|Hin%elem_of_nil]%elem_of_cons]%elem_of_cons]; [| | |done].
    + rewrite !lookup_delete_ne by done. apply lookup_delete_eq.
    + rewrite lookup_delete_ne by done. apply lookup_delete_eq.
    + apply lookup_delete_eq.
  - rewrite !not_elem_of_cons in Hin. destruct Hin as (H1 & H2 & H3 & _). rewrite !lookup_delete_ne by congruence. rewrite !set_if_lookup.
    destruct (bool_decide_reflect (k = "max_tokens"%string)) as [->|Hm]; [rewrite !decide_False by done; apply lookup_insert_eq|].
    destruct (bool_decide_reflect (k = "max_completion_tokens"%string)) as [->|Hc]; [by rewrite decide_False, decide_True, lookup_insert_ne by done|].
    destruct (bool_decide_reflect (k = "stream"%string)) as [->|Hs]; [by rewrite decide_True, decide_False, lookup_insert_ne by done|].
    by rewrite !decide_False, lookup_insert_ne by congruence.
Qed.

Lemma job_once m : spelled_once "vllm_xargs" m → spelled_once "vllm_xargs" (job_fields m).
Proof.
  intros Hm k. rewrite job_fields_lookup. unfold job_field.
  destruct (bool_decide _); [by intros [? ?]|]. destruct (bool_decide_reflect (k = "max_tokens"%string)) as [->|]; [intros _ Hf; by apply fold_identifier in Hf|].
  destruct (bool_decide _); [rewrite fmap_is_Some; apply Hm|]. destruct (bool_decide _); [rewrite fmap_is_Some; apply Hm|]. apply Hm.
Qed.

Lemma parse_fields body m : Unmarshal body = Some (Some m) →
  ∃ x, parseObject body = Some (MkObject m x) ∧ (∀ raw y, m !! "vllm_xargs"%string = Some raw → Unmarshal raw = Some (Some y) → x = y) ∧
    (x = ∅ ∨ ∃ raw, m !! "vllm_xargs"%string = Some raw ∧ Unmarshal raw = Some (Some x)).
Proof.
  intros Hb. unfold parseObject. rewrite Hb. eexists. split; [reflexivity|]. split; [by intros raw y -> ->|].
  destruct (m !! "vllm_xargs"%string) as [raw|]; [|by left]. destruct (Unmarshal raw) as [[y|]|] eqn:E; [|by left..]. right. by exists raw.
Qed.

(** the job a refused prefill becomes asks for one token, not streamed and without the
    fields that contradict that; every other field is sent as it came, the other
    [vllm_xargs] included.  A body that is no object is sent as it came. *)
Theorem job_body_exact (body : bytes) :
  match Unmarshal body with
  | Some (Some m) =>
      ∃ xa j, Unmarshal (JobBody body) = Some (Some j) ∧ j !! "vllm_xargs"%string = Some (compact xa) ∧
        (∀ k, k ≠ "vllm_xargs"%string → j !! k = compact <$> job_field m k) ∧
        ∃ x, Unmarshal xa = Some (Some (compact <$> <[BypassKey := one]> x)) ∧
          ∀ raw y, m !! "vllm_xargs"%string = Some raw → Unmarshal raw = Some (Some y) → x = y
  | _ => JobBody body = body
  end.
Proof.
  destruct (Unmarshal body) as [[m|]|] eqn:Hb; [|unfold JobBody, parseObject; by rewrite Hb..].
  destruct (parse_fields body m Hb) as (x & Ho & Hx & Hfrom). destruct (parsed_valid _ _ Ho) as [Hvm Hvx]. unfold JobBody. rewrite Ho. cbn [fields xargs] in *.
  destruct (encode_carries (job_fields m) x body (job_fields_valid m Hvm) Hvx) as [(xa & Hu & Hxa) _].
  exists xa, (compact <$> <["vllm_xargs"%string := xa]> (job_fields m)). split_and!; [done|by rewrite lookup_fmap, lookup_insert_eq| |by exists x].
  intros k Hk. by rewrite lookup_fmap, lookup_insert_ne, job_fields_lookup by done.
Qed.


(** What a prefill leg asks for. *)
Definition leg_field (m : doc) (k : string) : option bytes :=
  if bool_decide (k = "kv_transfer_params"%string) then Some prefillParams
  else if bool_decide (k = "stream_options"%string) then None
  else if bool_decide (k = "stream"%string) then Some (lit "false")
  else if bool_decide (k = "max_tokens"%string) then Some one
  else if bool_decide (k = "max_completion_tokens"%string) then const one <$> m !! k
  else m !! k.

Lemma leg_fields_lookup m k : leg_fields m !! k = leg_field m k.
Proof.
  unfold leg_fields, leg_field. destruct (bool_decide_reflect (k = "kv_transfer_params"%string)) as [->|H1]; [apply lookup_insert_eq|]. rewrite lookup_insert_ne by done.
  destruct (bool_decide_reflect (k = "stream_options"%string)) as [->|H2]; [apply lookup_delete_eq|]. rewrite lookup_delete_ne by done.
  destruct (bool_decide_reflect (k = "stream"%string)) as [->|H3]; [apply lookup_insert_eq|]. rewrite lookup_insert_ne by done. rewrite set_if_lookup.
  destruct (bool_decide_reflect (k = "max_tokens"%string)) as [->|H4]; [rewrite decide_False by done; apply lookup_insert_eq|].
  destruct (bool_decide_reflect (k = "max_completion_tokens"%string)) as [->|H5]; [by rewrite decide_True, lookup_insert_ne by done|].
  by rewrite decide_False, lookup_insert_ne by done.
Qed.

Lemma leg_good m : valid prefillParams = true → good m → good (leg_fields m).
Proof.
  intros. unfold leg_fields. apply set_valid; [done..|]. apply map_Forall_delete, set_valid; [done|apply false_valid|].
  apply set_if_valid; [done|apply one_valid|]. by apply set_valid; [|apply one_valid|].
Qed.

(** the two legs of a disaggregated request.  The prefill leg asks for one token, not
    streamed, and for its cache to be left to a remote decoder; the decode leg is the request
    with the answer's parameters, which are an object of that answer; all else is sent as it
    came. *)
Theorem pd_legs_exact (body resp params : bytes) m a :
  valid prefillParams = true → Unmarshal body = Some (Some m) → Unmarshal resp = Some (Some a) → spelled_once "kv_transfer_params" a →
  (∃ l, Unmarshal (PrefillBody body) = Some (Some l) ∧ ∀ k, l !! k = compact <$> leg_field m k) ∧
  (ParseParams u resp = Some params ↔ a !! "kv_transfer_params"%string = Some params ∧ hasPrefix (TrimSpace u params) [123] = true) ∧
  (ParseParams u resp = Some params →
     ∃ d, Unmarshal (DecodeBody body params) = Some (Some d) ∧ d !! "kv_transfer_params"%string = Some (compact params) ∧
       ∀ k, k ≠ "kv_transfer_params"%string → d !! k = compact <$> m !! k).
Proof.
  intros Hpp Hb Ha Honce. pose proof (fields_valid _ _ Hb) as Hvm. pose proof (fields_valid _ _ Ha) as Hva.
  assert (HP : ParseParams u resp = Some params ↔ a !! "kv_transfer_params"%string = Some params ∧ hasPrefix (TrimSpace u params) [123] = true).
  { unfold ParseParams. rewrite (raw_field resp a _ Ha Honce). destruct (a !! "kv_transfer_params"%string) as [raw|]; [change (default [] (Some raw)) with raw|change (default [] None) with ([] : bytes)]; cbv zeta.
    - destruct (hasPrefix (TrimSpace u raw) [123]) eqn:E; split; [by intros [= ->]|by intros [[= ->] _]|done|intros [[= ->] ?]; congruence].
    - change (TrimSpace u []) with ([] : bytes). split; [done|by intros [? _]]. }
  split_and!; [|done|].
  - unfold PrefillBody, pd_parse, pd_encode. rewrite Hb. destruct (marshal_valid (leg_fields m)) as (out & Hout & _).
    { apply leg_good; [done|done]. }
    rewrite Hout. eexists. split; [exact (marshal_back _ _ (leg_good m Hpp Hvm) Hout)|]. intros k. by rewrite lookup_fmap, leg_fields_lookup.
  - intros [Hp _]%HP. unfold DecodeBody, pd_parse, pd_encode. rewrite Hb.
    destruct (marshal_valid (<["kv_transfer_params"%string := params]> m)) as (out & Hout & _); [by apply set_valid; [|apply (Hva "kv_transfer_params"%string)|]|].
    rewrite Hout. eexists. split; [apply marshal_back; [|exact Hout]; by apply set_valid; [|apply (Hva "kv_transfer_params"%string)|]|]. split; [by rewrite lookup_fmap, lookup_insert_eq|]. intros k Hk. by rewrite lookup_fmap, lookup_insert_ne.
Qed.

(** a route's rewrite sets the model and nothing else, and what does not decode is sent
    as it came; but the body [null], which decodes to no map at all, ends in a panic. *)
Theorem rewrite_exact (body model : bytes) :
  match Unmarshal body with
  | None => rewriteModelField body model = Some body
  | Some None => rewriteModelField body model = None
  | Some (Some m) =>
      ∃ out enc r, rewriteModelField body model = Some out ∧ MarshalString model = Some enc ∧ Unmarshal out = Some (Some r) ∧
        r !! "model"%string = Some (compact enc) ∧ ∀ k, k ≠ "model"%string → r !! k = compact <$> m !! k
  end.
Proof.
  unfold rewriteModelField. destruct (Unmarshal body) as [[m|]|] eqn:Hb; [|by destruct (string_valid model) as (enc & -> & _)|done].
  destruct (string_valid model) as (enc & Henc & Hve). rewrite Henc. pose proof (fields_valid _ _ Hb) as Hvm.
  destruct (marshal_valid (<["model"%string := enc]> m)) as (out & Hout & _); [by apply set_valid|]. rewrite Hout.
  exists out, enc, (compact <$> <["model"%string := enc]> m). split_and!; [done|done|apply marshal_back; [|exact Hout]; by apply set_valid|by rewrite lookup_fmap, lookup_insert_eq|].
  intros k Hk. by rewrite lookup_fmap, lookup_insert_ne.
Qed.
End theorems.

(** ** A concrete codec

    Entries one after another, each text preceded by its length in unary: enough to see that
    the laws can hold. *)

Module BodiesEx.
Definition unary (n : nat) : bytes := replicate n 1 ++ [0].
Fixpoint take_unary (b : bytes) : option (nat * bytes) :=
  match b with
  | c :: b => if c =? 0 then Some (0%nat, b) else match take_unary b with Some (n, r) => Some (S n, r) | None => None end
  | [] => None
  end.
Definition entry (kv : string * bytes) : bytes := unary (List.length (lit kv.1)) ++ (34 :: lit kv.1 ++ [34]) ++ unary (List.length kv.2) ++ kv.2.
Fixpoint parse (fuel : nat) (b : bytes) : option (list (string * bytes)) :=
  match b, fuel with
  | [], _ => Some []
  | _, O => None
  | _, S f =>
      match take_unary b with
      | Some (n, _ :: r) =>
          match take_unary (drop (S n) r) with
          | Some (l, r') => match parse f (drop l r') with Some kvs => Some ((text (take n r), take l r') :: kvs) | None => None end
          | None => None
          end
      | _ => None
      end
  end.

Definition decode (b : bytes) : option doc :=
  match b with
  | c :: r => if c =? 123 then match parse (List.length r) r with Some kvs => Some (list_to_map kvs) | None => None end else None
  | [] => None
  end.

#[local] Instance codec : Json := {|
  Unmarshal b := match decode b with Some m => Some (Some m) | None => if bool_decide (b = lit "null") then Some None else None end;
  Marshal m := Some (123 :: (map_to_list m ≫= entry));
  MarshalString s := Some (34 :: s ++ [34]);
  field_raw f b := match decode b with Some m => Some (m !! f) | None => None end;
  field_any f b := match decode b with
                   | Some m => match m !! f with
                               | Some r => match decode r with
                                           | Some x => Some ((λ v, if bool_decide (v = one) then JNum (f64_of_Z 1) else JOther) <$> x)
                                           | None => None
                                           end
                               | None => Some ∅
                               end
                   | None => None
                   end;
  reject_doc b := None;
  valid _ := true;
  in_range _ := true;
  compact r := r;
  utf8 _ := true;
  fold k := lit k;
|}.

Lemma take_unary_app n r : take_unary (unary n ++ r) = Some (n, r).
Proof. induction n as [|n IH]; [done|]. unfold unary in *. cbn [replicate app take_unary]. change (1 =? 0) with false. cbn iota. by rewrite IH. Qed.

Lemma drop_quoted (l rest : bytes) c : drop (S (List.length l)) (l ++ c :: rest) = rest.
Proof. by induction l. Qed.

Lemma parse_entries kvs : ∀ fuel, (List.length (kvs ≫= entry) ≤ fuel)%nat → parse fuel (kvs ≫= entry) = Some kvs.
Proof.
  induction kvs as [|[k v] kvs IH]; intros fuel Hf; [by destruct fuel|].
  change (((k, v) :: kvs) ≫= entry) with (entry (k, v) ++ (kvs ≫= entry)) in *.
  assert (Hlen : (S (List.length (kvs ≫= entry)) ≤ fuel)%nat).
  { rewrite length_app in Hf. assert (1 ≤ List.length (entry (k, v)))%nat; [|lia]. unfold entry, unary. rewrite !length_app. cbn [List.length]. lia. }
  unfold entry at 1. cbn [fst snd].
  destruct fuel as [|fuel]; [lia|]. assert (Hp : ∀ b, b ≠ [] → parse (S fuel) b = match take_unary b with
      | Some (n, _ :: r) =>
          match take_unary (drop (S n) r) with
          | Some (l, r') => match parse fuel (drop l r') with Some kvs => Some ((text (take n r), take l r') :: kvs) | None => None end
          | None => None
          end
      | _ => None
      end) by (by intros []).
  rewrite Hp by (by destruct (List.length (lit k))). rewrite <-!app_assoc, take_unary_app. cbn [app]. rewrite <-!app_assoc. cbn [app].
  rewrite drop_quoted, take_unary_app, take_app_length, drop_app_length, take_app_length, IH by lia.
  by rewrite text_lit.
Qed.

Definition encoded (m : doc) : bytes := 123 :: (map_to_list m ≫= entry).

Lemma decode_marshal m : decode (123 :: (map_to_list m ≫= entry)) = Some m.
Proof. unfold decode. change (123 =? 123) with true. cbn iota. rewrite parse_entries by done. by rewrite list_to_map_to_list. Qed.

Lemma decode_some b m : Unmarshal b = Some (Some m) → decode b = Some m.
Proof. cbn [Unmarshal codec]. destruct (decode b); [by intros [= ->]|by destruct (bool_decide _)]. Qed.

Lemma same_raws (m : doc) : (λ r, r) <$> m = m.
Proof. apply map_eq. intros k. rewrite lookup_fmap. by destruct (m !! k). Qed.

Lemma entries_split (m : doc) k raw : m !! k = Some raw →
  ∃ a b, map_to_list m ≫= entry = a ++ (34 :: lit k ++ [34]) ++ unary (List.length raw) ++ raw ++ b.
Proof.
  intros Hk%elem_of_map_to_list. apply list_elem_of_split in Hk as (l1 & l2 & Hl). rewrite Hl, bind_app.
  exists ((l1 ≫= entry) ++ unary (List.length (lit k))), (l2 ≫= entry).
  change (((k, raw) :: l2) ≫= entry) with (entry (k, raw) ++ (l2 ≫= entry)). unfold entry. cbn [fst snd]. by rewrite <-!app_assoc.
Qed.

#[local] Instance codec_laws : JsonLaws.
Proof.
  constructor; cbn [Marshal MarshalString valid compact in_range utf8 fold codec]; try done.
  - intros m _. by eexists.
  - intros m out _ [= <-]. cbn [Unmarshal codec]. by rewrite decode_marshal, same_raws.
  - intros s. by eexists.
  - intros k k' _ _ H. by apply lit_inj.
  - intros r m ->. by rewrite same_raws.
  - intros m out k raw [= <-] Hk _. destruct (entries_split m k raw Hk) as (a & b & ->). split; apply Contains_spec.
    + by exists (123 :: a), (unary (List.length raw) ++ raw ++ b).
    + exists (123 :: a ++ (34 :: lit k ++ [34]) ++ unary (List.length raw)), b. cbn [app]. f_equal. rewrite <-!app_assoc. cbn [app]. by rewrite <-!app_assoc.
  - intros b m f raw x Hb%decode_some _ Hf Hr%decode_some _. cbn [field_any codec]. rewrite Hb, Hf, Hr. eexists. split; [reflexivity|].
    intros k Hk. by rewrite lookup_fmap, Hk.
  - intros b m f Hb%decode_some _. cbn [field_raw codec]. by rewrite Hb.
Qed.

Definition request : doc := {[ "prompt"%string := lit "p"; "max_tokens"%string := lit "900"; "stream"%string := lit "true"; "min_tokens"%string := lit "5"; "vllm_xargs"%string := encoded {[ "k"%string := lit "7" ]} ]}.
Definition body : bytes := encoded request.
Definition answer : doc := {[ "kv_transfer_params"%string := lit "{}" ]}.

Lemma encoded_back m : Unmarshal (encoded m) = Some (Some m).
Proof. cbn [Unmarshal codec]. unfold encoded. by rewrite decode_marshal. Qed.

Lemma spelled_by_check k m : forallb (λ k', bool_decide (k' = k) || negb (bool_decide (fold k' = fold k))) (map_to_list m).*1 = true → spelled_once k m.
Proof.
  intros H k' [v Hv] Hl. rewrite forallb_forall in H. specialize (H k'). destruct (bool_decide_reflect (k' = k)); [done|].
  rewrite bool_decide_eq_true_2 in H by done. discriminate H. apply list_elem_of_In, list_elem_of_fmap. exists (k', v). split; [done|]. by apply elem_of_map_to_list.
Qed.


Lemma pd_legs_exact_witness : ParseParams UrlEx.u (encoded answer) = Some (lit "{}").
Proof.
  destruct (pd_legs_exact UrlEx.u body (encoded answer) (lit "{}") request answer) as (_ & H & _);
    [done|apply encoded_back|apply encoded_back|apply spelled_by_check; by vm_compute|].
  apply H. split; [apply lookup_singleton_eq|by vm_compute].
Defined.

(** The body [null] of a request to a route that rewrites models. *)
Lemma null_body_panics : rewriteModelField (lit "null") (lit "m") = None.
Proof. by vm_compute. Qed.
End BodiesEx.

(** The count a refusal names, wherever it names it. *)
Example prompt_of_message : rejectionPrompt (lit "a prefill of x, a prefill of 4096 tokens is too large") = Some (lit "4096").
Proof. by vm_compute. Qed.
