(* ===== verification/Admin.v ===== *)
(** * Admin: what operators and clients ask of the router itself

    The handlers of [src/router/internal/gateway/gateway.go] that answer without proxying:
    readiness, the merged model listing, and the worker endpoints.  They work on the pools of
    the routing table; a pool's registry calls back as Pool says. *)

From stdpp Require Import base gmap sets list strings.
From Stdlib Require Import ZArith Lia.
From Corelib Require Import SpecFloat.
From S2P Require Import Prelude KvUnits StreamScan Circuit WaitQ Backend Registry Policy CapacityRetry Proxy ProxySpec GoText Routing Gateway Discovery Url.
Open Scope Z_scope.
Open Scope list_scope.

#[local] Instance Registry_inhabited : Inhabited Registry.Registry := populate (Registry.New DefaultConfig 0).

(** The targets of the table, and the registries they point to. *)
Record world := MkWorld { w_targets : list Target; w_regs : gmap positive Registry.Registry }.
Definition reg_of (w : world) (t : Target) : Registry.Registry := w_regs w !!! Routing.Registry t.
Definition set_reg_at (w : world) (t : Target) (r : Registry.Registry) : world := MkWorld (w_targets w) (<[Routing.Registry t := r]> (w_regs w)).

(** ** Pools *)

Definition poolNames (ts : list Target) : list bytes := Name <$> ts.
Definition poolByName (ts : list Target) (name : bytes) : option Target :=
  match ts with
  | [] => None
  | t :: _ => if bool_decide (name = []) then Some t else head (filter (λ t, Name t = name) ts)
  end.

Inductive answer :=
  | AError (status : Z) (code : string)
  | ACreated (pool : bytes) (url : string) (h : Health)
  | ADraining (url : string)
  | APanic.

#[local] Set Default Proof Using "Type".
Section admin.
Context (Canonical : string → option string).
Context (dialect : string) (DefaultCapacity : Z).

(** ** Workers *)

(** A request to add one: its query, and its body if that decodes. *)
Record add_request := AddRequest { q_url : string; q_pool : bytes; q_body : option (string * string * Z) }.

Definition worker_of (q : add_request) : string * string * Z :=
  if bool_decide (q_url q = ""%string) then default (q_url q, ""%string, 0) (q_body q) else (q_url q, ""%string, 0).
Definition worker_spec (url kind : string) (cap : Z) : Spec :=
  MkSpec url (if bool_decide (kind = "router"%string) then KindRouter else KindWorker) "" HealthActive ProvStatic "" ""
    (if cap =? 0 then DefaultCapacity else cap).

Definition handleAddWorker (q : add_request) (w : world) : answer * world :=
  let '(url, kind, cap) := worker_of q in
  match poolByName (w_targets w) (q_pool q) with
  | None => (AError 404 "unknown_pool", w)
  | Some t =>
      let '((o, e), r) := Registry.Add Canonical (worker_spec url kind cap) (reg_of w t) in
      let w := set_reg_at w t r in
      match e, o with
      | Some _, _ => (AError 400 "invalid_worker", w)
      | None, Some l => (ACreated (Name t) (Backend.URL (store r !!! l)) (health (store r !!! l)), w)
      | None, None => (APanic, w)
      end
  end.

(** Removal searches every pool. *)
Definition remove_from (now : Z) (url : string) (acc : bool * world) (t : Target) : bool * world :=
  let '(removed, w) := acc in
  let '(ok, r) := Registry.Remove Canonical now url (reg_of w t) in
  (removed || ok, set_reg_at w t r).
Definition handleRemoveWorker (now : Z) (url : string) (w : world) : answer * world :=
  let '(removed, w) := foldl (remove_from now url) (false, w) (w_targets w) in
  if removed then (ADraining url, w) else (AError 404 "unknown_worker", w).

(** [counters] are the proxy's, of each pool's backends. *)
Context (counters : positive → positive → Z * Z).

Record workerView := WorkerView {
  v_Pool : bytes;
  v_URL : string;
  v_Kind : Kind;
  v_Dialect : string;
  v_Health : Health;
  v_Circuit : string;
  v_Inflight : Z;
  v_Capacity : Z;
  v_Load : float64;
  v_Draining : bool;
  v_Prov : Provenance;
  v_Served : Z;
  v_Failed : Z;
}.
Definition view_worker (now : Z) (t : Target) (r : Registry.Registry) (l : positive) : workerView :=
  let b := store r !!! l in
  WorkerView (Name t) (Backend.URL b) (kind (bmeta b)) (DialectID b) (health b) (State_String (State_ now (CB b))) (inflight (load b)) (Capacity b)
    (NormalizedLoad b) (draining b) (Prov b) (counters (Routing.Registry t) l).1 (counters (Routing.Registry t) l).2.
Definition handleListWorkers (now : Z) (w : world) : list workerView * Z :=
  foldl (λ acc t, let snap := cur (reg_of w t) in
                  (acc.1 ++ (view_worker now t (reg_of w t) <$> Backends snap), u64 (acc.2 + Version snap))) ([], 0) (w_targets w).

Definition handleGetLoads (w : world) : gmap string Z :=
  foldl (λ m t, foldl (λ m l, let b := store (reg_of w t) !!! l in <[Backend.URL b := inflight (load b)]> m) m (Backends (cur (reg_of w t)))) ∅ (w_targets w).

(** ** Readiness *)

Inductive cause := NoneRegistered | NoneHealthy.
Record readiness := Readiness { ry_status : Z; ry_ready : bool; ry_healthy : Z; ry_registered : Z; ry_reason : option cause }.

Definition handleReadiness (now : Z) (w : world) : readiness :=
  let '(n, registered) := foldl (λ '(n, reg) t, (n + Z.of_nat (length (healthy now dialect (reg_of w t))), reg + Z.of_nat (length (Backends (cur (reg_of w t))))))
                            (0, 0) (w_targets w) in
  Readiness (if n =? 0 then 503 else 200) (0 <? n) n registered
    (if n =? 0 then Some (if registered =? 0 then NoneRegistered else NoneHealthy) else None).

(** ** The model listing *)

(** The header of a request the router makes to a pool's upstream; [from] is the caller's. *)
Definition copied : list string := ["Authorization"; "X-Api-Key"; "Anthropic-Version"]%string.
Definition copy_from (from : header) (ks : list string) (req : header) : header :=
  foldl (λ req h, let v := Proxy.Get h from in if bool_decide (v = ""%string) then req else Set_ h v req) req ks.
Definition applyPoolCredential (req from : header) (t : Target) : header :=
  let cred := text (tCredential t) in
  if negb (bool_decide (cred = ""%string))
  then Set_ "Anthropic-Version" "2023-06-01" (Set_ "X-Api-Key" cred (Set_ "Authorization" ("Bearer " +:+ cred) req))
  else if ForwardClientCredential t && negb (StripAuth t) then
    let req := copy_from from copied req in
    if bool_decide (Proxy.Get "Anthropic-Version" req = ""%string) && negb (bool_decide (Proxy.Get "X-Api-Key" req = ""%string))
    then Set_ "Anthropic-Version" "2023-06-01" req else req
  else req.

Record listed := Listed { m_ID : string; m_Object : string; m_OwnedBy : string }.
Inductive upstream := Unreachable | Answered (status : Z) (data : option (list listed)).

Context (parse : string → option Url.URL) (with_path : Url.URL → string → string).
(** What each pool's upstream answers. *)
Context (ask : bytes → string → header → upstream).

Fixpoint try_paths (paths : list string) (base : string) (from : header) (t : Target) : option (list listed) :=
  match paths with
  | [] => None
  | path :: paths =>
      let url := ResolveURL parse with_path base path in
      match parse url with
      | None => None
      | Some _ => match ask (Name t) url (applyPoolCredential ∅ from t) with
                  | Answered 200 (Some data) => Some data
                  | _ => try_paths paths base from t
                  end
      end
  end.
Definition fetchModels (base : string) (from : header) (t : Target) : option (list listed) := try_paths ["/v1/models"; "/models"]%string base from t.

Definition orString (v def : string) : string := if bool_decide (v = ""%string) then def else v.

Record entry := Entry { e_ID : string; e_Object : string; e_OwnedBy : string; e_Pool : bytes }.
Definition merge_one (pool : bytes) (acc : list entry * gset string) (m : listed) : list entry * gset string :=
  let '(out, seen) := acc in
  if bool_decide (m_ID m ∈ seen) then acc
  else (out ++ [Entry (m_ID m) (orString (m_Object m) "model") (m_OwnedBy m) pool], {[m_ID m]} ∪ seen).
Definition merge_pool (now : Z) (from : header) (w : world) (acc : list entry * gset string) (t : Target) : list entry * gset string :=
  match healthy now dialect (reg_of w t) with
  | [] => acc
  | l :: _ => match fetchModels (url_of (reg_of w t) l) from t with
              | None => acc
              | Some data => foldl (merge_one (Name t)) acc data
              end
  end.
Definition handleMergedModels (now : Z) (from : header) (w : world) : list entry := (foldl (merge_pool now from w) ([], ∅) (w_targets w)).1.

(** ** Pools by name *)

Lemma poolByName_spec ts name t : NoDup (Name <$> ts) → name ≠ [] → poolByName ts name = Some t ↔ t ∈ ts ∧ Name t = name.
Proof.
  intros Hnd Hne. unfold poolByName. destruct ts as [|t0 ts0] eqn:E; [split; [done|intros [?%elem_of_nil _]; done]|]. rewrite bool_decide_eq_false_2 by done.
  rewrite <-E in *. clear E t0 ts0. split.
  - intros H. destruct (filter _ ts) as [|x xs] eqn:Ef; [done|]. injection H as ->. assert (Hx : t ∈ filter (λ t, Name t = name) ts) by (rewrite Ef; by left).
    by apply list_elem_of_filter in Hx as [? ?].
  - intros [Hin Hn]. destruct (filter (λ t, Name t = name) ts) as [|x xs] eqn:Ef.
    + assert (Hx : t ∈ filter (λ t, Name t = name) ts) by (by apply list_elem_of_filter). rewrite Ef in Hx. by apply elem_of_nil in Hx.
    + assert (Hx : x ∈ filter (λ t, Name t = name) ts) by (rewrite Ef; by left). apply list_elem_of_filter in Hx as [Hxn Hxi]. cbn [head]. f_equal.
      apply list_elem_of_lookup in Hin as [i Hi], Hxi as [j Hj]. assert (i = j); [|congruence].
      eapply (NoDup_lookup (Name <$> ts)); [done|rewrite list_lookup_fmap, Hi; reflexivity|rewrite list_lookup_fmap, Hj; cbn; congruence].
Qed.

(** ** The pools' registries *)

Definition world_wf (w : world) : Prop := ∀ t, t ∈ w_targets w → ∃ r, w_regs w !! Routing.Registry t = Some r ∧ reg_wf r.
Definition entry_at (w : world) (p : positive) (u : string) : option Backend := w_regs w !! p ≫= λ r, Registry.view r u.

Lemma reg_of_wf w t : world_wf w → t ∈ w_targets w → reg_wf (reg_of w t) ∧ w_regs w !! Routing.Registry t = Some (reg_of w t).
Proof. intros Hw Ht. destruct (Hw t Ht) as (r & Hr & Hwf). unfold reg_of. by rewrite (lookup_total_correct _ _ _ Hr). Qed.

Lemma set_reg_wf w t r : world_wf w → reg_wf r → world_wf (set_reg_at w t r).
Proof.
  intros Hw Hr t' Ht'. cbn in *. destruct (decide (Routing.Registry t = Routing.Registry t')) as [->|Hne]; [exists r; by rewrite lookup_insert_eq|].
  rewrite lookup_insert_ne by done. by apply Hw.
Qed.

Lemma entry_at_set w t r p u : entry_at (set_reg_at w t r) p u = if decide (p = Routing.Registry t) then Registry.view r u else entry_at w p u.
Proof. unfold entry_at. cbn. destruct (decide (p = _)) as [->|]; [by rewrite lookup_insert_eq|by rewrite lookup_insert_ne]. Qed.

Lemma poolByName_in ts name t : poolByName ts name = Some t → t ∈ ts.
Proof.
  unfold poolByName. destruct ts as [|t0 ts]; [done|]. destruct (bool_decide _); [intros [= ->]; by left|].
  destruct (filter _ (t0 :: ts)) as [|x xs] eqn:E; [done|]. intros [= ->]. assert (H : t ∈ filter (λ t, Name t = name) (t0 :: ts)) by (rewrite E; by left).
  by apply list_elem_of_filter in H as [_ ?].
Qed.

(** adding a worker is answered in one of three ways and changes one entry of one pool.
    No pool of that name, or a URL that is none, changes nothing.  Otherwise the entry of the
    canonical URL, in the pool asked for, is what registering makes of it: a new one is not
    yet available, and one there was keeps its health, its breaker and its load, and is no
    longer draining. *)
Theorem add_worker_exact (q : add_request) (w : world) :
  world_wf w →
  let '(url, kind, cap) := worker_of q in
  let '(a, w') := handleAddWorker q w in
  world_wf w' ∧
  match poolByName (w_targets w) (q_pool q), Canonical url with
  | None, _ => a = AError 404 "unknown_pool" ∧ w' = w
  | Some _, None => a = AError 400 "invalid_worker" ∧ ∀ p u, entry_at w' p u = entry_at w p u
  | Some t, Some c =>
      ∃ b, a = ACreated (Name t) c (health b) ∧
        entry_at w' (Routing.Registry t) c = Some b ∧
        (∀ p u, (p, u) ≠ (Routing.Registry t, c) → entry_at w' p u = entry_at w p u) ∧
        match entry_at w (Routing.Registry t) c with
        | None => ∀ now, Available now b = false
        | Some b0 => b = set_draining false (set_meta (spec_meta (worker_spec url kind cap)) b0)
        end
  end.
Proof.
  intros Hw. destruct (worker_of q) as [[url kind] cap] eqn:Eq. unfold handleAddWorker. rewrite Eq.
  destruct (poolByName (w_targets w) (q_pool q)) as [t|] eqn:Ep; [|done]. apply poolByName_in in Ep. destruct (reg_of_wf w t Hw Ep) as [Hr Hl].
  set (s := worker_spec url kind cap). change (Canonical url) with (Canonical (sURL s)). destruct (Canonical (sURL s)) as [c|] eqn:Ec.
  - pose proof (Add_view Canonical s c (reg_of w t) Hr Ec) as H. destruct (Registry.Add Canonical s (reg_of w t)) as [[o e] r].
    destruct H as (Hv & -> & Hix & [l ->] & _ & _ & Hwf).
    assert (Hno : conflicts_at s (Registry.view (reg_of w t) c) = false) by (destruct (Registry.view _ _) as [b|]; [cbn; by rewrite andb_false_r|done]).
    rewrite Hno. split; [by apply set_reg_wf|]. destruct (view_Some _ _ _ Hwf Hix) as (b & Hb & Hu & Hvb). rewrite (lookup_total_correct _ _ _ Hb).
    assert (Hat : entry_at w (Routing.Registry t) c = Registry.view (reg_of w t) c) by (unfold entry_at; by rewrite Hl).
    exists b. split_and!; [by rewrite Hu|rewrite entry_at_set; by rewrite decide_True| |].
    + intros p u Hne. rewrite entry_at_set. destruct (decide (p = Routing.Registry t)) as [->|]; [|done]. rewrite Hv. unfold entry_at. rewrite Hl. cbn.
      rewrite decide_False; [done|congruence].
    + rewrite Hat. specialize (Hv c). rewrite decide_True, Hvb in Hv by done. destruct (Registry.view (reg_of w t) c) as [b0|] eqn:E; cbn [upsert] in Hv.
      * cbn in Hv. rewrite andb_false_r in Hv. by injection Hv as ->.
      * injection Hv as ->. intros now. done.
  - assert (Ha : Registry.Add Canonical s (reg_of w t) = ((None, Some ErrBadURL), reg_of w t)) by (unfold Registry.Add; by rewrite Ec). rewrite Ha.
    split; [by apply set_reg_wf|]. split; [done|]. intros p u. rewrite entry_at_set. destruct (decide (p = _)) as [->|]; [|done]. unfold entry_at. by rewrite Hl.
Qed.

(** ** Removal *)

(** A registry in which the entry of [c] has been told to drain. *)
Record drained (c : string) (r r' : Registry.Registry) : Prop := {
  dr_wf : reg_wf r';
  dr_cur : cur r' = cur r;
  dr_view u : Registry.view r' u = if decide (u = c) then set_draining true <$> Registry.view r u else Registry.view r u;
}.

Lemma drained_trans c r r' r'' : drained c r r' → drained c r' r'' → drained c r r''.
Proof.
  intros [_ H1 H2] [H3 H4 H5]. split; [done|by rewrite H4|]. intros u. rewrite H5. destruct (decide (u = c)) as [->|]; [|rewrite H2; by rewrite decide_False].
  rewrite H2, decide_True by done. by destruct (Registry.view r c).
Qed.

Lemma Remove_drained now url c r : Canonical url = Some c → reg_wf r →
  let '(ok, r') := Registry.Remove Canonical now url r in drained c r r' ∧ (ok = true ↔ is_Some (Registry.view r c)).
Proof.
  intros Hc Hw. pose proof (reg_remove_wf Canonical now url r Hw) as Hw'. unfold Registry.Remove in *. rewrite Hc in *.
  destruct (byURL (cur r) !! c) as [l|] eqn:Hl.
  - destruct (view_Some _ _ _ Hw Hl) as (b & Hb & Hu & Hv). split; [|by rewrite Hv]. unfold drain in *. rewrite (lookup_total_correct _ _ _ Hb) in *.
    destruct (draining b) eqn:Hd.
    + split; [done..|]. intros u. destruct (decide (u = c)) as [->|]; [|done]. rewrite Hv. cbn. f_equal. rewrite <-Hd. symmetry. apply set_draining_id.
    + split; [done..|]. intros u. change (Registry.view (set_drainers ?d ?x) u) with (Registry.view x u).
      rewrite (view_alter (set_draining true) c l r u (λ b, eq_refl) Hw Hl). by destruct (decide (u = c)) as [->|].
  - assert (Hv : Registry.view r c = None) by (unfold Registry.view; by rewrite Hl). split; [|rewrite Hv; by split; [|intros [? ?]]].
    split; [done..|]. intros u. destruct (decide (u = c)) as [->|]; [by rewrite Hv|done].
Qed.

Definition drained_world (c : string) (done : list Target) (w w' : world) : Prop :=
  w_targets w' = w_targets w ∧ ∀ p, match w_regs w !! p, w_regs w' !! p with
    | Some r, Some r' => if decide (p ∈ Routing.Registry <$> done) then drained c r r' else r' = r
    | None, None => True
    | _, _ => False
    end.

Lemma remove_all now url c ts : Canonical url = Some c → ∀ w, world_wf w → (∀ t, t ∈ ts → t ∈ w_targets w) →
  ∀ removed, let '(ok, w') := foldl (remove_from now url) (removed, w) ts in
  drained_world c ts w w' ∧ (ok = true ↔ removed = true ∨ ∃ t, t ∈ ts ∧ is_Some (entry_at w (Routing.Registry t) c)).
Proof.
  intros Hc. induction ts as [|t ts IH]; intros w Hw Hts removed; cbn [foldl].
  - split; [split; [done|]; intros p; destruct (w_regs w !! p); [|done]; by rewrite decide_False by (by intros ?%elem_of_nil)|].
    split; [by left|]. intros [?|(t & ?%elem_of_nil & _)]; done.
  - destruct (reg_of_wf w t Hw (Hts t ltac:(by left))) as [Hr Hl]. unfold remove_from at 2. pose proof (Remove_drained now url c _ Hc Hr) as Hd.
    destruct (Registry.Remove Canonical now url (reg_of w t)) as [ok r]. destruct Hd as [Hd Hok].
    assert (Hat : entry_at w (Routing.Registry t) c = Registry.view (reg_of w t) c) by (unfold entry_at; by rewrite Hl).
    specialize (IH (set_reg_at w t r) (set_reg_wf w t r Hw (dr_wf _ _ _ Hd)) (λ t' H, Hts t' ltac:(by right)) (removed || ok)).
    destruct (foldl _ _ ts) as [ok' w']. destruct IH as [[Ht Hp] Hok']. split; [split; [done|]|].
    + intros p. specialize (Hp p). cbn [w_regs set_reg_at] in Hp. destruct (decide (p = Routing.Registry t)) as [->|Hne].
      * rewrite lookup_insert_eq in Hp. rewrite Hl. destruct (w_regs w' !! _) as [r'|]; [|done]. rewrite decide_True by by left.
        destruct (decide _); [by eapply drained_trans|by subst].
      * rewrite lookup_insert_ne in Hp by done. destruct (w_regs w !! p), (w_regs w' !! p); try done. cbn [fmap list_fmap].
        destruct (decide (p ∈ Routing.Registry <$> ts)); [by rewrite decide_True by by right|]. by rewrite decide_False by (by rewrite elem_of_cons; intros [?|?]).
    + rewrite Hok', orb_true_iff, Hok, <-Hat. setoid_rewrite entry_at_set. split.
      * intros [[?|?]|(t' & Hin & Hs)]; [by left|right; exists t; split; [by left|done]|]. right.
        destruct (decide (Routing.Registry t' = Routing.Registry t)) as [He|]; [|exists t'; split; [by right|done]].
        exists t. split; [by left|]. rewrite Hat. apply dr_view with (u := c) in Hd. rewrite Hd, decide_True, fmap_is_Some in Hs by done. done.
      * intros [?|(t' & [->|Hin]%elem_of_cons & Hs)]; [by left; left|by left; right|].
        right. exists t'. split; [done|]. destruct (decide (Routing.Registry t' = Routing.Registry t)) as [He|]; [|done].
        rewrite He, Hat in Hs. rewrite (dr_view _ _ _ Hd), decide_True, fmap_is_Some by done. done.
Qed.

Lemma remove_none now url ts w : Canonical url = None → world_wf w → (∀ t, t ∈ ts → t ∈ w_targets w) → ∀ removed,
  foldl (remove_from now url) (removed, w) ts = (removed, w).
Proof.
  intros Hc Hw. induction ts as [|t ts IH]; intros Hts removed; cbn [foldl]; [done|]. unfold remove_from at 2. unfold Registry.Remove. rewrite Hc, orb_false_r.
  destruct (reg_of_wf w t Hw (Hts t ltac:(by left))) as [_ Hl]. unfold set_reg_at. rewrite insert_id by done. destruct w. apply IH. intros. apply Hts. by right.
Qed.

Lemma drained_unavailable c done w w' t now : world_wf w → t ∈ w_targets w → t ∈ done → drained_world c done w w' →
  Forall (λ l, url_of (reg_of w' t) l ≠ c) (healthy now dialect (reg_of w' t)).
Proof.
  intros Hw Ht Hd [_ Hp]. destruct (reg_of_wf w t Hw Ht) as [Hr Hl]. specialize (Hp (Routing.Registry t)). rewrite Hl in Hp.
  destruct (w_regs w' !! Routing.Registry t) as [r'|] eqn:Hr'; [|done]. rewrite decide_True in Hp by (apply list_elem_of_fmap; by exists t).
  assert (Hreg : reg_of w' t = r') by (unfold reg_of; by rewrite (lookup_total_correct _ _ _ Hr')). rewrite Hreg. apply Forall_forall.
  intros l [Hav Hin]%list_elem_of_filter Hu. destruct Hp as [Hwf _ Hv]. assert (Hix : byURL (cur r') !! c = Some l) by (by apply Hwf).
  destruct (view_Some _ _ _ Hwf Hix) as (b & Hb & _ & Hvb). rewrite Hv, decide_True in Hvb by done. apply fmap_Some in Hvb as (b0 & _ & ->).
  rewrite (lookup_total_correct _ _ _ Hb) in Hav. apply andb_true_iff in Hav as [Hav _]. unfold Available in Hav. cbn in Hav. by rewrite ?andb_false_r in Hav.
Qed.

(** removing a worker drains it wherever it is.  The answer is an error exactly when no
    pool holds the URL, and then nothing has changed.  Otherwise every pool that holds it
    still lists it, draining and so available to no request; no other entry has changed, and
    nothing is taken off a list. *)
Theorem remove_worker_exact (now : Z) (url : string) (w : world) :
  world_wf w →
  let '(a, w') := handleRemoveWorker now url w in
  a = (match Canonical url with
       | Some c => if bool_decide (Exists (λ t, is_Some (entry_at w (Routing.Registry t) c)) (w_targets w)) then ADraining url else AError 404 "unknown_worker"
       | None => AError 404 "unknown_worker"
       end) ∧
  (∀ p u, entry_at w' p u = if decide (Canonical url = Some u ∧ p ∈ Routing.Registry <$> w_targets w) then set_draining true <$> entry_at w p u else entry_at w p u) ∧
  (∀ p, Backends ∘ cur <$> w_regs w' !! p = Backends ∘ cur <$> w_regs w !! p) ∧
  (∀ t u, t ∈ w_targets w → Canonical url = Some u → Forall (λ l, url_of (reg_of w' t) l ≠ u) (healthy now dialect (reg_of w' t))).
Proof.
  intros Hw. unfold handleRemoveWorker. destruct (Canonical url) as [c|] eqn:Hc.
  - pose proof (remove_all now url c (w_targets w) Hc w Hw (λ t H, H) false) as H. destruct (foldl _ _ _) as [ok w']. destruct H as [Hd Hok].
    assert (Hex : ok = bool_decide (Exists (λ t, is_Some (entry_at w (Routing.Registry t) c)) (w_targets w))).
    { apply eq_true_iff_eq. rewrite Hok, bool_decide_eq_true, Exists_exists. split; [by intros [?|?]|by right]. }
    assert (Hrest : (∀ p u, entry_at w' p u = if decide (Some c = Some u ∧ p ∈ Routing.Registry <$> w_targets w) then set_draining true <$> entry_at w p u else entry_at w p u) ∧
      (∀ p, Backends ∘ cur <$> w_regs w' !! p = Backends ∘ cur <$> w_regs w !! p) ∧
      (∀ t u, t ∈ w_targets w → Some c = Some u → Forall (λ l, url_of (reg_of w' t) l ≠ u) (healthy now dialect (reg_of w' t)))).
    { split_and!; [..|intros t u Ht [= <-]; by eapply drained_unavailable].
      - intros p u. destruct Hd as [_ Hp]. specialize (Hp p). unfold entry_at. destruct (w_regs w !! p) as [r|], (w_regs w' !! p) as [r'|]; try done; cbn; [|by destruct (decide _)].
        destruct (decide (p ∈ _)) as [Hin|Hout]; [|subst; by rewrite decide_False by (intros [_ ?]; done)]. rewrite (dr_view _ _ _ Hp).
        destruct (decide (u = c)) as [->|Hne]; [by rewrite decide_True|by rewrite decide_False by (intros [[=] _]; congruence)].
      - intros p. destruct Hd as [_ Hp]. specialize (Hp p). destruct (w_regs w !! p) as [r|], (w_regs w' !! p) as [r'|]; try done. cbn. f_equal.
        destruct (decide _); [by rewrite (dr_cur _ _ _ Hp)|by subst]. }
    rewrite <-Hex. by destruct ok.
  - rewrite (remove_none now url _ w Hc Hw) by done. split; [done|]. split_and!; [|done|done].
    intros p u. by rewrite decide_False by (by intros [? _]).
Qed.

(** ** Readiness *)

(** The eligible and the listed backends of all pools. *)
Definition all_healthy (now : Z) (w : world) : list (positive * positive) :=
  w_targets w ≫= λ t, pair (Routing.Registry t) <$> healthy now dialect (reg_of w t).
Definition all_listed (w : world) : list (positive * positive) :=
  w_targets w ≫= λ t, pair (Routing.Registry t) <$> Backends (cur (reg_of w t)).

Lemma readiness_counts now w : ∀ ts n m,
  foldl (λ '(n, reg) t, (n + Z.of_nat (length (healthy now dialect (reg_of w t))), reg + Z.of_nat (length (Backends (cur (reg_of w t)))))) (n, m) ts =
  (n + Z.of_nat (length (ts ≫= λ t, pair (Routing.Registry t) <$> healthy now dialect (reg_of w t))),
   m + Z.of_nat (length (ts ≫= λ t, pair (Routing.Registry t) <$> Backends (cur (reg_of w t))))).
Proof.
  induction ts as [|t ts IH]; intros n m; cbn [foldl]; [by rewrite !Z.add_0_r|]. rewrite IH.
  change ((t :: ts) ≫= ?f) with (f t ++ (ts ≫= f)). cbn beta. rewrite !length_app, !length_fmap. f_equal; lia.
Qed.

Lemma healthy_listed now w l : l ∈ all_healthy now w → l ∈ all_listed w.
Proof.
  intros (t & Hl & Ht)%list_elem_of_bind. apply list_elem_of_bind. exists t. split; [|done]. apply list_elem_of_fmap in Hl as (b & -> & [_ Hb]%list_elem_of_filter).
  apply list_elem_of_fmap. by exists b.
Qed.

(** The pools' names tell them apart. *)
Definition distinct_pools (rs : list Rule) : Prop :=
  ∀ r r' p p', r ∈ rs → r' ∈ rs → rPool r = Some p → rPool r' = Some p' → p_Name p = p_Name p' → p_Registry p = p_Registry p'.

Lemma route_target (u : Unicode) (rs : list Rule) tb model tg : NewTable rs = inl tb → distinct_pools rs → Routing.Route u tb model = Some tg →
  ∃ t, t ∈ targets tb ∧ Routing.Registry t = Routing.Registry tg.
Proof.
  intros Ht Hd Hr. destruct (NewTable_inv rs tb Ht) as (Hne & Hok & Hrs). destruct (NewTable_ok rs Hne Hok) as (ts & Ht' & _ & Hn). rewrite Ht in Ht'. injection Ht' as ->.
  unfold Route in Hr. cbn [rules] in Hr. apply route_first in Hr as (pre & r & post & p & -> & _ & Hp & -> & _); [|done].
  assert (Hin : r ∈ pre ++ r :: post) by (apply elem_of_app; right; by left).
  assert (Hname : p_Name p ∈ Name <$> ts) by (apply Hn; by exists r, p).
  apply list_elem_of_fmap in Hname as (t & Hnt & Hts). exists t. split; [done|].
  destruct (targets_from _ _ t Ht Hts) as (r' & p' & Hr' & Hp' & ->). cbn in *. symmetry in Hnt. by eapply (Hd r' r p' p).
Qed.


(** ** Loads *)

Lemma insert_all {A} (kvs : list (string * A)) : ∀ (m : gmap string A) k,
  foldl (λ m kv, <[kv.1 := kv.2]> m) m kvs !! k = match last (filter (λ kv : string * A, kv.1 = k) kvs) with Some kv => Some kv.2 | None => m !! k end.
Proof.
  induction kvs as [|kv kvs IH] using rev_ind; intros m k; [done|]. rewrite foldl_app. cbn [foldl]. rewrite filter_app, filter_cons. cbn [filter list_filter].
  destruct (decide (kv.1 = k)) as [<-|Hne].
  - by rewrite lookup_insert_eq, last_snoc.
  - rewrite app_nil_r, lookup_insert_ne by done. apply IH.
Qed.

Definition loads_of (w : world) (t : Target) : list (string * Z) :=
  (λ l, let b := store (reg_of w t) !!! l in (Backend.URL b, inflight (load b))) <$> Backends (cur (reg_of w t)).

Lemma loads_fold w : handleGetLoads w = foldl (λ m kv, <[kv.1 := kv.2]> m) ∅ (w_targets w ≫= loads_of w).
Proof.
  unfold handleGetLoads. generalize (∅ : gmap string Z). induction (w_targets w) as [|t ts IH]; intros m; [done|].
  change ((t :: ts) ≫= loads_of w) with (loads_of w t ++ (ts ≫= loads_of w)). rewrite foldl_app. cbn [foldl]. rewrite IH. f_equal.
  unfold loads_of. generalize m. induction (Backends _) as [|l ls IHl]; intros m'; [done|]. cbn [foldl fmap list_fmap]. apply IHl.
Qed.

(** The loads name every registered URL; one that several pools hold gets the load it has in
    the last of them. *)
Lemma loads_spec w url : handleGetLoads w !! url = snd <$> last (filter (λ kv : string * Z, kv.1 = url) (w_targets w ≫= loads_of w)).
Proof. rewrite loads_fold, insert_all. by destruct (last _). Qed.

(** ** Credentials of the router's own requests *)

Definition auth_of (t : Target) : Auth := MkAuth (text (tCredential t)) (ForwardClientCredential t) (StripAuth t).

Lemma Get_set k v h k' : Proxy.Get k (Set_ k' v h) = if decide (k = k') then v else Proxy.Get k h.
Proof. unfold Proxy.Get, Set_. destruct (decide (k = k')) as [->|]; [by rewrite lookup_insert_eq|by rewrite lookup_insert_ne]. Qed.
Lemma Get_del k h k' : Proxy.Get k (Del k' h) = if decide (k = k') then ""%string else Proxy.Get k h.
Proof. unfold Proxy.Get, Del. destruct (decide (k = k')) as [->|]; [by rewrite lookup_delete_eq|by rewrite lookup_delete_ne]. Qed.
Lemma Get_empty k : Proxy.Get k ∅ = ""%string.
Proof. unfold Proxy.Get. by rewrite lookup_empty. Qed.

Lemma copy_get from k : ∀ ks req, k ∈ ks → Proxy.Get k req = ""%string → NoDup ks →
  Proxy.Get k (copy_from from ks req) = Proxy.Get k from.
Proof.
  assert (Hskip : ∀ ks req, k ∉ ks → Proxy.Get k (copy_from from ks req) = Proxy.Get k req).
  { induction ks as [|h ks IH]; intros req Hk; [done|]. apply not_elem_of_cons in Hk as [Hne Hk]. unfold copy_from in *. cbn [foldl]. rewrite IH by done. cbn zeta.
    destruct (bool_decide _); [done|]. rewrite Get_set. by rewrite decide_False. }
  induction ks as [|h ks IH]; intros req Hk Hr Hnd; [by apply elem_of_nil in Hk|]. inversion Hnd as [|? ? Hh Hnd']; subst. unfold copy_from in *. cbn [foldl].
  destruct (decide (k = h)) as [->|Hne].
  - rewrite Hskip by done. cbn zeta. destruct (bool_decide_reflect (Proxy.Get h from = ""%string)) as [->|]; [done|]. rewrite Get_set. by rewrite decide_True.
  - apply IH; [by apply elem_of_cons in Hk as [?|?]| |done]. cbn zeta. destruct (bool_decide _); [done|]. rewrite Get_set. by rewrite decide_False.
Qed.

(** a listing is asked for with the credential a request of the pool would carry: the
    same [Authorization] and [X-Api-Key] as the proxy sends upstream for the same caller,
    when the proxy has no credential of its own; and the caller's own only on a route that
    forwards it. *)
Theorem listing_credentials (t : Target) (from : header) :
  (∀ k, is_credential k → Proxy.Get k (applyPoolCredential ∅ from t) = Proxy.Get k (set_credentials "" (auth_of t) from)) ∧
  (∀ from', text (tCredential t) ≠ ""%string ∨ ForwardClientCredential t = false ∨ StripAuth t = true → applyPoolCredential ∅ from t = applyPoolCredential ∅ from' t) ∧
  (text (tCredential t) ≠ ""%string ∨ Proxy.Get "X-Api-Key" (applyPoolCredential ∅ from t) ≠ ""%string → Proxy.Get "Anthropic-Version" (applyPoolCredential ∅ from t) ≠ ""%string).
Proof.
  split_and!.
  - intros k Hk. unfold applyPoolCredential, set_credentials. cbn [auth_of Credential Forward Strip]. cbn zeta.
    destruct (bool_decide_reflect (text (tCredential t) = ""%string)) as [E|E].
    + rewrite (bool_decide_eq_false_2 (text (tCredential t) ≠ ""%string)) by (intros H; by apply H). cbn [negb].
      destruct (ForwardClientCredential t && negb (StripAuth t)).
      * assert (Hkv : k ≠ "Anthropic-Version"%string) by (by destruct Hk as [->| ->]).
        assert (Hc : k ∈ copied) by (destruct Hk as [->| ->]; [by left|by right; left]).
        rewrite <-(copy_get from k copied ∅ Hc (Get_empty k)) by (apply (bool_decide_unpack _); by vm_compute).
        destruct (_ && _); [|done]. rewrite Get_set. by rewrite decide_False.
      * rewrite (bool_decide_eq_false_2 (""%string ≠ ""%string)) by (intros H; by apply H). assert (Hd : Proxy.Get k (Del "X-Api-Key" (Del "Authorization" from)) = ""%string).
        { rewrite !Get_del. destruct Hk as [->| ->]; [rewrite decide_False by done; by rewrite decide_True|by rewrite decide_True]. }
        rewrite Get_empty. by destruct (StripAuth t).
    + rewrite (bool_decide_eq_true_2 (text (tCredential t) ≠ ""%string)) by done. cbn [negb].
      assert (Hv : ∀ h v, Proxy.Get k (Set_ "Anthropic-Version" v h) = Proxy.Get k h) by (intros h v; rewrite Get_set; rewrite decide_False; [done|by destruct Hk as [->| ->]]).
      rewrite Hv. destruct (bool_decide _); rewrite ?Hv; rewrite !Get_set; destruct Hk as [->| ->]; try done.
  - intros from' H. unfold applyPoolCredential. destruct (bool_decide_reflect (text (tCredential t) = ""%string)) as [E|E]; [|done]. cbn [negb].
    destruct H as [H|[-> | ->]]; [done|done|by rewrite andb_false_r].
  - unfold applyPoolCredential. destruct (bool_decide_reflect (text (tCredential t) = ""%string)) as [E|E]; cbn [negb].
    + intros [H|H]; [done|]. destruct (ForwardClientCredential t && negb (StripAuth t)); [|by rewrite Get_empty in H]. cbn zeta in *.
      revert H. generalize (copy_from from copied ∅). intros req.
      destruct (bool_decide_reflect (Proxy.Get "Anthropic-Version" req = ""%string)) as [Ha|Ha]; cbn [andb]; [|intros _; exact Ha].
      destruct (bool_decide_reflect (Proxy.Get "X-Api-Key" req = ""%string)) as [Hx|Hx]; cbn [negb]; [intros H; by destruct H|intros _; by rewrite Get_set].
    + intros _. by rewrite Get_set.
Qed.

(** ** The merged listing *)

(** What a pool offers: what its first eligible backend answers. *)
Definition offered (now : Z) (from : header) (w : world) (t : Target) : list entry :=
  match healthy now dialect (reg_of w t) with
  | [] => []
  | l :: _ => (λ m, Entry (m_ID m) (orString (m_Object m) "model") (m_OwnedBy m) (Name t)) <$> default [] (fetchModels (url_of (reg_of w t) l) from t)
  end.

Definition keep_first (acc : list entry * gset string) (e : entry) : list entry * gset string :=
  if bool_decide (e_ID e ∈ acc.2) then acc else (acc.1 ++ [e], {[e_ID e]} ∪ acc.2).

Lemma merged_fold now from w : handleMergedModels now from w = (foldl keep_first ([], ∅) (w_targets w ≫= offered now from w)).1.
Proof.
  unfold handleMergedModels. f_equal. generalize (([] : list entry, ∅ : gset string)). induction (w_targets w) as [|t ts IH]; intros acc; [done|].
  change ((t :: ts) ≫= ?f) with (f t ++ (ts ≫= f)). rewrite foldl_app. cbn [foldl]. rewrite IH. f_equal. unfold merge_pool, offered.
  destruct (healthy _ _ _) as [|l ls]; [done|]. destruct (fetchModels _ _ _) as [data|]; [|done]. change (default [] (Some data)) with data.
  revert acc. induction data as [|m data IHd]; intros [out seen]; [done|]. cbn [foldl fmap list_fmap]. rewrite IHd. f_equal.
Qed.

Lemma ids_snoc id es e : id ∈ e_ID <$> es ++ [e] ↔ id ∈ e_ID <$> es ∨ id = e_ID e.
Proof. rewrite fmap_app, elem_of_app. cbn. by rewrite list_elem_of_singleton. Qed.

Lemma kept_firsts es : ∀ pre out seen,
  NoDup (e_ID <$> out) → (∀ id, id ∈ seen ↔ id ∈ e_ID <$> pre) → (∀ id, id ∈ e_ID <$> out ↔ id ∈ e_ID <$> pre) →
  (∀ e, e ∈ out → ∃ a b, pre = a ++ e :: b ∧ e_ID e ∉ e_ID <$> a) →
  let out' := (foldl keep_first (out, seen) es).1 in
  NoDup (e_ID <$> out') ∧ (∀ id, id ∈ e_ID <$> out' ↔ id ∈ e_ID <$> pre ++ es) ∧ (∀ e, e ∈ out' → ∃ a b, pre ++ es = a ++ e :: b ∧ e_ID e ∉ e_ID <$> a).
Proof.
  induction es as [|e es IH]; intros pre out seen Hnd Hseen Hids Hfirst; [by rewrite !app_nil_r|]. cbn [foldl]. cbn zeta.
  assert (Hk : keep_first (out, seen) e = if bool_decide (e_ID e ∈ seen) then (out, seen) else (out ++ [e], {[e_ID e]} ∪ seen)) by done. rewrite Hk. clear Hk.
  replace (pre ++ e :: es) with ((pre ++ [e]) ++ es) by (by rewrite <-app_assoc).
  assert (Hmono : ∀ x, (∃ a b, pre = a ++ x :: b ∧ e_ID x ∉ e_ID <$> a) → ∃ a b, pre ++ [e] = a ++ x :: b ∧ e_ID x ∉ e_ID <$> a).
  { intros x (a & b & -> & Hx). exists a, (b ++ [e]). by rewrite <-app_assoc. }
  destruct (bool_decide_reflect (e_ID e ∈ seen)) as [Hin|Hin]; rewrite Hseen in Hin; apply (IH (pre ++ [e])).
  - done.
  - intros id. rewrite Hseen, ids_snoc. split; [by left|by intros [?| ->]].
  - intros id. rewrite Hids, ids_snoc. split; [by left|by intros [?| ->]].
  - auto.
  - rewrite fmap_app. apply NoDup_app. split_and!; [done| |apply NoDup_singleton]. intros id Hid ->%list_elem_of_singleton. by apply Hin, Hids.
  - intros id. rewrite elem_of_union, elem_of_singleton, Hseen, ids_snoc. split; [intros [?|?]; [by right|by left]|intros [?|?]; [by right|by left]].
  - intros id. by rewrite !ids_snoc, Hids.
  - intros x [Hx| ->%list_elem_of_singleton]%elem_of_app; [auto|]. exists pre, []. done.
Qed.

Lemma bind_split {A B} (f : A → list B) ts : ∀ a e b, ts ≫= f = a ++ e :: b →
  ∃ pre t post a' b', ts = pre ++ t :: post ∧ f t = a' ++ e :: b' ∧ a = (pre ≫= f) ++ a'.
Proof.
  induction ts as [|t ts IH]; intros a e b H; [by destruct a|]. change ((t :: ts) ≫= f) with (f t ++ (ts ≫= f)) in H.
  apply app_eq_app in H as [l [[H1 H2]|[H1 H2]]].
  - destruct l as [|x l].
    + cbn in H2. destruct (IH [] e b (eq_sym H2)) as (pre & t' & post & a' & b' & -> & Hf & Ha). exists (t :: pre), t', post, a', b'. split_and!; [done|done|].
      change ((t :: pre) ≫= f) with (f t ++ (pre ≫= f)). rewrite <-app_assoc, <-Ha. by rewrite H1, !app_nil_r.
    + injection H2 as <- ->. exists [], t, ts, a, l. by split_and!.
  - destruct (IH l e b H2) as (pre & t' & post & a' & b' & -> & Hf & Ha). exists (t :: pre), t', post, a', b'. split_and!; [done|done|].
    change ((t :: pre) ≫= f) with (f t ++ (pre ≫= f)). by rewrite <-app_assoc, <-Ha.
Qed.

(** the listing names each model once, under the first pool, in the order of the rules,
    whose first eligible backend names it; every model some pool so names is in it. *)
Theorem models_merged (now : Z) (from : header) (w : world) :
  let out := handleMergedModels now from w in
  NoDup (e_ID <$> out) ∧
  (∀ id, id ∈ e_ID <$> out ↔ ∃ t, t ∈ w_targets w ∧ id ∈ e_ID <$> offered now from w t) ∧
  (∀ e, e ∈ out → ∃ pre t post, w_targets w = pre ++ t :: post ∧ e ∈ offered now from w t ∧ e_Pool e = Name t ∧
     ∀ t', t' ∈ pre → e_ID e ∉ e_ID <$> offered now from w t').
Proof.
  intros out. unfold out. rewrite merged_fold. destruct (kept_firsts (w_targets w ≫= offered now from w) [] [] ∅) as (H1 & H2 & H3).
  - constructor.
  - intros id. rewrite elem_of_empty. cbn. by rewrite elem_of_nil.
  - done.
  - by intros e ?%elem_of_nil.
  - split_and!; [done| |].
    + intros id. rewrite H2. cbn [app]. rewrite list_elem_of_fmap. setoid_rewrite list_elem_of_bind. setoid_rewrite list_elem_of_fmap. split.
      * intros (e & -> & t & ? & ?). exists t. split; [done|]. by exists e.
      * intros (t & ? & e & -> & ?). exists e. split; [done|]. by exists t.
    + intros e He. destruct (H3 e He) as (a & b & Hab & Hfresh). cbn [app] in Hab. clear H1 H2 H3 He.
      destruct (bind_split _ _ _ _ _ Hab) as (pre & t & post & a' & b' & Ht & Ho & ->). exists pre, t, post. split_and!; [done|rewrite Ho; apply elem_of_app; right; by left| |].
      * assert (He : e ∈ offered now from w t) by (rewrite Ho; apply elem_of_app; right; by left). unfold offered in He.
        destruct (healthy _ _ _); [by apply elem_of_nil in He|]. by apply list_elem_of_fmap in He as (m & -> & _).
      * intros t' Ht' Hin. apply Hfresh. rewrite fmap_app. apply elem_of_app. left. apply list_elem_of_fmap in Hin as (x & -> & Hx).
        apply list_elem_of_fmap_2, list_elem_of_bind. by exists t'.
Qed.
End admin.

(** ** A router with two pools *)

Module AdminEx.
Definition up (u m : string) (r : Registry.Registry) : Registry.Registry :=
  let '((o, _), r) := Registry.Add demo_canonical (MkSpec u KindWorker "" HealthActive ProvStatic m "" 4) r in
  set_store (alter (SetHealth Healthy) (default 1%positive o) (store r)) r.
Definition empty : Registry.Registry := Registry.New DefaultConfig 0.
Definition rs : list Rule := [RoutingEx.rule "claude" "hosted" 1 ""; RoutingEx.rule "*" "fleet" 2 ""].
Definition tb : Table := match NewTable rs with inl t => t | inr _ => MkTable [] [] end.
Definition w : world := MkWorld (targets tb) {[ 1%positive := up "a" "m" empty; 2%positive := up "b" "m" (up "c" "m" empty) ]}.

Lemma up_wf u m r : reg_wf r → reg_wf (up u m r).
Proof.
  intros Hr. unfold up. pose proof (reg_add_wf demo_canonical (MkSpec u KindWorker "" HealthActive ProvStatic m "" 4) r Hr) as H.
  destruct (Registry.Add _ _ _) as [[o e] r']. by apply alter_wf.
Qed.
Lemma empty_wf : reg_wf empty.
Proof. apply New_wf. Qed.
Lemma w_wf : world_wf w.
Proof.
  intros t [-> |[-> | ?%elem_of_nil]%elem_of_cons]%elem_of_cons; [| |done].
  - exists (up "a" "m" empty). split; [by vm_compute|apply up_wf, empty_wf].
  - exists (up "b" "m" (up "c" "m" empty)). split; [by vm_compute|apply up_wf, up_wf, empty_wf].
Qed.
Lemma names_apart : distinct_pools rs.
Proof.
  intros r r' p p' Hr Hr' Hp Hp'. apply elem_of_cons in Hr as [->|[->|?%elem_of_nil]%elem_of_cons], Hr' as [->|[->|?%elem_of_nil]%elem_of_cons]; try done;
    injection Hp as <-; injection Hp' as <-; done.
Qed.

Lemma add_worker_exact_witness : (handleAddWorker demo_canonical 8 (AddRequest "b" (lit "fleet") None) w).1 = ACreated (lit "fleet") "b" Healthy.
Proof.
  pose proof (add_worker_exact demo_canonical 8 (AddRequest "b" (lit "fleet") None) w w_wf) as H.
  change (worker_of (AddRequest "b" (lit "fleet") None)) with ("b"%string, ""%string, 0) in H. cbn beta iota in H.
  destruct (handleAddWorker demo_canonical 8 (AddRequest "b" (lit "fleet") None) w) as [a w']. destruct H as [_ H].
  assert (Hp : poolByName (w_targets w) (q_pool (AddRequest "b" (lit "fleet") None)) = w_targets w !! 1%nat) by (by vm_compute).
  destruct (poolByName _ _) as [t|]; [|by vm_compute in Hp]. change (demo_canonical "b") with (Some "b"%string) in H.
  assert (Ht : Routing.Registry <$> Some t = Some 2%positive ∧ Name <$> Some t = Some (lit "fleet")) by (rewrite Hp; split; by vm_compute).
  destruct Ht as [[= Hr] [= Hn]]. rewrite Hr, Hn in H. destruct H as (b & -> & _ & _ & Hb).
  assert (Hh : health <$> entry_at w 2 "b" = Some Healthy) by (by vm_compute). destruct (entry_at w 2 "b") as [b0|]; [|done]. injection Hh as Hh. rewrite Hb. cbn. by rewrite Hh.
Defined.

Lemma remove_worker_exact_witness :
  (handleRemoveWorker demo_canonical 0 "b" w).1 = ADraining "b" ∧ draining <$> entry_at (handleRemoveWorker demo_canonical 0 "b" w).2 2 "b" = Some true.
Proof.
  pose proof (remove_worker_exact demo_canonical "openai" 0 "b" w w_wf) as H. destruct (handleRemoveWorker _ _ _ _) as [a w']. destruct H as (-> & Hv & _).
  split; [by vm_compute|]. cbn [snd]. rewrite Hv. by vm_compute.
Defined.


(** ** What the comments say otherwise *)

(** Ready, though the pool's only eligible backend is one set aside for prefill legs. *)
Lemma ready_without_decode :
  let w := MkWorld (targets tb) {[ 1%positive := up "a" "m" empty; 2%positive := empty ]} in
  ry_ready (handleReadiness "openai" 0 w) = true ∧
  ∀ t, t ∈ w_targets w → candidates RoutingEx.u 0 "openai" (reg_of w t) None (Some (PDNew RoutingEx.u [lit "a"])) = [].
Proof. split; [by vm_compute|]. intros t [->|[->|?%elem_of_nil]%elem_of_cons]%elem_of_cons; [by vm_compute|by vm_compute|done]. Qed.

(** A second pool of the same name serves, and readiness does not see it. *)
Lemma shadowed_pool :
  let rs := [RoutingEx.rule "claude" "*" 1 ""; RoutingEx.rule "*" "*" 2 ""] in
  ∃ tb, NewTable rs = inl tb ∧
    let w := MkWorld (targets tb) {[ 1%positive := empty; 2%positive := up "b" "m" empty ]} in
    ry_ready (handleReadiness "openai" 0 w) = false ∧
    ∃ tg, Routing.Route RoutingEx.u tb (lit "llama") = Some tg ∧ candidates RoutingEx.u 0 "openai" (reg_of w tg) None None ≠ [].
Proof. eexists. split; [by vm_compute|]. split; [by vm_compute|]. eexists. split; [by vm_compute|by vm_compute]. Qed.

(** A model is listed under the first pool that names it, which is not where it is routed. *)
Definition ask_all (_ : bytes) (_ : string) (_ : header) : upstream := Answered 200 (Some [Listed "gpt" "" ""]).
Lemma listed_elsewhere :
  e_Pool <$> handleMergedModels "openai" (λ s, Some (Url.MkURL "" s "" "" "")) (λ _ s, s) ask_all 0 ∅ w = [lit "hosted"] ∧
  Name <$> Routing.Route RoutingEx.u tb (lit "gpt") = Some (lit "fleet").
Proof. split; by vm_compute. Qed.

(** The proxy's own credential is not presented with a listing. *)
Lemma upstream_credential_left_out : ∀ t, t ∈ w_targets w →
  Proxy.Get "Authorization" (set_credentials "k" (auth_of t) ∅) = "Bearer k"%string ∧ Proxy.Get "Authorization" (applyPoolCredential ∅ ∅ t) = ""%string.
Proof. intros t [->|[->|?%elem_of_nil]%elem_of_cons]%elem_of_cons; [split; by vm_compute..|done]. Qed.

(** Two pools that hold one URL have one load between them. *)
Lemma one_load_shown :
  let busy := set_store (alter (StoreInflight 5) 1%positive (store (up "a" "m" empty))) (up "a" "m" empty) in
  handleGetLoads (MkWorld (targets tb) {[ 1%positive := busy; 2%positive := up "a" "m" empty ]}) = {[ "a"%string := 0 ]}.
Proof. by vm_compute. Qed.
End AdminEx.
