(* ===== verification/MockEngine.v ===== *)
(** * MockEngine: a stand-in for one inference server

    [src/router/internal/mockvllm]: the engine ([engine.go]), the tier the fleet shares
    ([tier.go]), its own chunker ([tokenize.go]), the sharing of prefill bandwidth
    ([prefill.go]), and the handlers' use of them ([handlers.go]).  The cache is the trie of
    KvTrie.  The counters are atomics and the tries have their own locks, so [Admit] is given
    by the steps others can come between; the wire formats are the standard library's. *)

From stdpp Require Import base gmap sets list strings pretty.
From Stdlib Require Import ZArith Lia.
From Corelib Require Import SpecFloat.
From S2P Require Import Prelude KvUnits KvTrie KvLru KvTrieWf KvCache StreamScan.
Open Scope Z_scope.
Open Scope list_scope.

(** ** Configuration: the tier, a pointer in it, is an argument of what uses it *)

Definition second : Z := 1000000000.

Record MConfig := MkMConfig {
  ModelID : bytes;
  BlockSizeTokens : Z;
  CharsPerToken : float64;
  BlockCapacity : Z;
  MaxConcurrency : Z;
  BaseLatency : Z;
  ColdInputTPS : float64;
  CachedInputTPS : float64;
  OutputTPS : float64;
  ExternalInputTPS : float64;
  PrefillRejectTokens : Z;
  DefaultMaxTokens : Z;
  OutputKVMultiplier : float64;
}.

Definition f64_zero : float64 := S754_zero false.
Definition nonpos (x : float64) : bool := SFleb x f64_zero.

Definition DefaultConfig : MConfig :=
  MkMConfig (lit "mock-vllm") 16 (f64_of_Z 4) 100000 64 (20 * 1000000) (f64_of_Z 50000) (f64_of_Z 1000000) (f64_of_Z 500) f64_zero 0 128 (f64_of_Z 1).

Definition normalize (c : MConfig) : MConfig :=
  MkMConfig (if bool_decide (ModelID c = []) then ModelID DefaultConfig else ModelID c)
    (if BlockSizeTokens c <=? 0 then BlockSizeTokens DefaultConfig else BlockSizeTokens c)
    (if nonpos (CharsPerToken c) then CharsPerToken DefaultConfig else CharsPerToken c)
    (BlockCapacity c) (MaxConcurrency c) (BaseLatency c) (ColdInputTPS c) (CachedInputTPS c) (OutputTPS c) (ExternalInputTPS c) (PrefillRejectTokens c)
    (if DefaultMaxTokens c <=? 0 then DefaultMaxTokens DefaultConfig else DefaultMaxTokens c) (OutputKVMultiplier c).

Definition blockSizeBytes (c : MConfig) : Z :=
  let n := f64_to_i64 (f64_mul (f64_of_Z (BlockSizeTokens c)) (CharsPerToken c)) in if n <=? 0 then 4 else n.

(** ** Chunks *)

(** The conversion to [int32] is of a length's share, in its range. *)
Definition tokensForBytes (byteLen : Z) (charsPerToken : float64) : Z :=
  if byteLen <=? 0 then 0
  else
    let charsPerToken := if nonpos charsPerToken then f64_of_Z 4 else charsPerToken in
    let n := i32 (f64_to_i64 (f64_div (f64_of_Z byteLen) charsPerToken)) in if 1 <=? n then n else 1.

Section engine.
Context (sha256 : bytes → bytes).

Fixpoint chunk_loop (fuel : nat) (tag content : bytes) (chunkBytes off : nat) (charsPerToken : float64) : list Unit_ :=
  match fuel with
  | O => []
  | S f =>
      if decide (off < length content)%nat then
        let end_ := if decide (length content < off + chunkBytes)%nat then length content else (off + chunkBytes)%nat in
        let chunk := take (end_ - off) (drop off content) in
        let t := if decide (0 < off)%nat then cont_tag else tag in
        MkUnit (HashContent sha256 t chunk) (tokensForBytes (Z.of_nat (length chunk)) charsPerToken) ::
          chunk_loop f tag content chunkBytes (off + chunkBytes) charsPerToken
      else []
  end.
Definition chunkContent (tag content : bytes) (chunkBytes : Z) (charsPerToken : float64) : list Unit_ :=
  let chunkBytes := if chunkBytes <=? 0 then DefaultChunkBytes else chunkBytes in
  match content with
  | [] => [MkUnit (HashContent sha256 tag []) 1]
  | _ => chunk_loop (length content) tag content (Z.to_nat chunkBytes) 0 charsPerToken
  end.

(** ** The engine *)

Record Residency := MkResidency { Local : Z; External : Z; Total : Z }.
Definition Cached (r : Residency) : Z := Local r + External r.
Definition Cold (r : Residency) : Z := let n := Total r - Cached r in if n <? 0 then 0 else n.

Record Engine := MkEngine {
  ecfg : MConfig;
  trie : Trie;
  einflight : Z;
  admittedN : Z;
  rejectedN : Z;
  promptToks : Z;
  cachedToks : Z;
  externalToks : Z;
  genToks : Z;
}.

Definition kv_config (c : MConfig) : KvTrie.Config :=
  if 0 <? BlockCapacity c then KvTrie.MkConfig (BlockCapacity c) (i64 (BlockCapacity c * BlockSizeTokens c)) 0 else KvTrie.MkConfig 0 0 0.
Definition NewEngine (c : MConfig) : Engine :=
  let c := normalize c in MkEngine c (KvTrie.New (kv_config c)) 0 0 0 0 0 0 0.

Definition set_trie (t : Trie) (e : Engine) : Engine :=
  MkEngine (ecfg e) t (einflight e) (admittedN e) (rejectedN e) (promptToks e) (cachedToks e) (externalToks e) (genToks e).
Definition add_inflight (d : Z) (e : Engine) : Engine :=
  MkEngine (ecfg e) (trie e) (einflight e + d) (admittedN e) (rejectedN e) (promptToks e) (cachedToks e) (externalToks e) (genToks e).
Definition add_rejected (e : Engine) : Engine :=
  MkEngine (ecfg e) (trie e) (einflight e) (admittedN e) (rejectedN e + 1) (promptToks e) (cachedToks e) (externalToks e) (genToks e).

Definition Tokenize (e : Engine) (prompt : bytes) : list Unit_ := chunkContent (lit "prompt") prompt (blockSizeBytes (ecfg e)) (CharsPerToken (ecfg e)).
Definition eng_Query (e : Engine) (units : list Unit_) : Z * Z := KvTrie.Query (trie e) units.

(** *** The tier: nil, or a trie that is never bounded *)

Definition Tier := (option Trie).
Definition NewTier : Trie := KvTrie.New (KvTrie.MkConfig 0 0 0).
Definition tier_Query (t : Tier) (units : list Unit_) : Z := match t with None => 0 | Some t => (KvTrie.Query t units).1 end.
Definition tier_Publish (units : list Unit_) (t : Tier) : Tier :=
  match t with None => None | Some t => if bool_decide (units = []) then Some t else Some (KvTrie.Commit units t) end.

(** *** Admission *)

(** The slot: [Add] returns the count, and the decision is about what it returned. *)
Definition reserve (e : Engine) : bool * Engine :=
  let e := add_inflight 1 e in
  (if 0 <? MaxConcurrency (ecfg e) then einflight e <=? MaxConcurrency (ecfg e) else true, e).
Definition turn_away (e : Engine) : Engine := add_rejected (add_inflight (-1) e).

(** The blocks, with the slot taken. *)
Definition take_blocks (units : list Unit_) (tier : Tier) (e : Engine) : (option loc * Residency) * Engine :=
  let '(cached, total, pin, t) := KvTrie.RecordAndPin units (trie e) in
  let t := KvTrie.Observe cached total t in
  let shared := tier_Query tier units in
  let ext := if cached <? shared then shared - cached else 0 in
  let r := MkResidency cached ext total in
  ((pin, r), MkEngine (ecfg e) t (einflight e) (admittedN e + 1) (rejectedN e) (promptToks e + total) (cachedToks e + Cached r) (externalToks e + ext) (genToks e)).

Definition Admit (units : list Unit_) (tier : Tier) (e : Engine) : option (option loc * Residency) * Engine :=
  let '(ok, e) := reserve e in
  if ok then let '(x, e) := take_blocks units tier e in (Some x, e) else (None, turn_away e).
Definition eng_release (pin : option loc) (e : Engine) : Engine := add_inflight (-1) (set_trie (KvTrie.Unpin pin (trie e)) e).

Definition RejectsPrefill (units : list Unit_) (bypass : bool) (tier : Tier) (e : Engine) : Z * bool :=
  if (PrefillRejectTokens (ecfg e) <=? 0) || bypass then (0, false)
  else
    let '(cached, total) := KvTrie.Query (trie e) units in
    let shared := tier_Query tier units in
    let cached := if cached <? shared then shared else cached in
    let tokens := Z.max (total - cached) 0 in (tokens, PrefillRejectTokens (ecfg e) <? tokens).

(** *** Time *)

Definition tokensAtRate (n : Z) (tps : float64) : Z :=
  if (n <=? 0) || nonpos tps then 0 else f64_to_i64 (f64_mul (f64_div (f64_of_Z n) tps) (f64_of_Z second)).
Definition PrefillWork (e : Engine) (r : Residency) : Z :=
  i64 (tokensAtRate (Cold r) (ColdInputTPS (ecfg e)) + tokensAtRate (External r) (ExternalInputTPS (ecfg e)) + tokensAtRate (Local r) (CachedInputTPS (ecfg e))).
Definition DecodeDuration (e : Engine) (n : Z) : Z := tokensAtRate n (OutputTPS (ecfg e)).
Definition OutputTokenInterval (e : Engine) : Z := tokensAtRate 1 (OutputTPS (ecfg e)).
Definition MaxTokensOrDefault (e : Engine) (requested : Z) : Z := if 0 <? requested then requested else DefaultMaxTokens (ecfg e).
Definition RecordOutput (n : Z) (e : Engine) : Engine :=
  MkEngine (ecfg e) (trie e) (einflight e) (admittedN e) (rejectedN e) (promptToks e) (cachedToks e) (externalToks e) (genToks e + n).

(** *** The blocks of the output *)

(** [int(math.Ceil(x))]. *)
Definition f64_ceil (x : float64) : Z := let z := f64_to_i64 x in if SFltb (f64_of_Z z) x then z + 1 else z.

Definition reply_bytes (respContent : bytes) : bytes := lit "assistant:" ++ respContent ++ [10].
(** What stands in for text the response did not have: [\x02outkv:%d:need%d]. *)
Definition filler (i need : Z) : bytes := [2] ++ lit ("outkv:" ++ pretty i ++ ":need" ++ pretty need)%string.
Definition output_chunk (blockBytes : nat) (reply : bytes) (i : nat) : bytes :=
  let off := (i * blockBytes)%nat in
  let chunk := if decide (off < length reply)%nat
               then take ((if decide (length reply < off + blockBytes)%nat then length reply else (off + blockBytes)%nat) - off) (drop off reply) else [] in
  if decide (length chunk < blockBytes)%nat
  then let chunk := chunk ++ filler (Z.of_nat i) (Z.of_nat (blockBytes - length chunk)) in
       if decide (blockBytes < length chunk)%nat then take blockBytes chunk else chunk
  else chunk.
Definition output_unit (c : MConfig) (reply : bytes) (fresh_ : bool) (i : nat) : Unit_ :=
  let chunk := output_chunk (Z.to_nat (blockSizeBytes c)) reply i in
  MkUnit (HashContent sha256 (if fresh_ && bool_decide (i = 0%nat) then lit "prompt" else cont_tag) chunk) (tokensForBytes (Z.of_nat (length chunk)) (CharsPerToken c)).

Definition numBlocks (c : MConfig) (outputTokens : Z) : Z :=
  f64_ceil (f64_div (f64_mul (f64_of_Z outputTokens) (OutputKVMultiplier c)) (f64_of_Z (BlockSizeTokens c))).
Definition AppendOutputBlocks (promptUnits : list Unit_) (outputTokens : Z) (respContent : bytes) (e : Engine) : Engine :=
  if nonpos (OutputKVMultiplier (ecfg e)) || (outputTokens <=? 0) then e
  else
    let n := numBlocks (ecfg e) outputTokens in
    if n <=? 0 then e
    else
      let outs := output_unit (ecfg e) (reply_bytes respContent) (bool_decide (promptUnits = [])) <$> seq 0 (Z.to_nat n) in
      set_trie (KvTrie.Commit (promptUnits ++ outs) (trie e)) e.

(** ** A request *)

(** [syntheticTokens], joined by spaces. *)
Definition syntheticTokens (n : Z) : list bytes := (λ i, lit ("tok" ++ pretty (Z.of_nat i))%string) <$> seq 0 (Z.to_nat n).
Fixpoint join_spaces (ws : list bytes) : bytes :=
  match ws with [] => [] | [w] => w | w :: ws => w ++ [32] ++ join_spaces ws end.

Record usage := MkUsage { PromptTokens : Z; CompletionTokens : Z; TotalTokens_ : Z; CachedTokens : Z }.
Definition buildUsage (promptTokens cachedTokens completionTokens : Z) : usage :=
  MkUsage promptTokens completionTokens (promptTokens + completionTokens) cachedTokens.

Inductive outcome :=
  | Refused (tokens : Z)       (* 503, the recompute in header and body *)
  | Busy                       (* 429 *)
  | Gone                       (* the client left before the answer *)
  | Served (u : usage).

(** The non-streaming handlers after decoding: [stays] says whether the client outlasts the
    prefill and the decode. The deferred release runs on every way out. *)
Definition handle (units : list Unit_) (bypass : bool) (requested : Z) (stays : bool * bool) (tier : Tier) (e : Engine) : outcome * Tier * Engine :=
  let '(n, heavy) := RejectsPrefill units bypass tier e in
  if heavy then (Refused n, tier, e)
  else
    match Admit units tier e with
    | (None, e) => (Busy, tier, e)
    | (Some (pin, r), e) =>
        let maxTok := MaxTokensOrDefault e requested in
        if negb (stays.1 && stays.2) then (Gone, tier, eng_release pin e)
        else
          let e := RecordOutput maxTok e in
          let e := AppendOutputBlocks units maxTok (join_spaces (syntheticTokens maxTok)) e in
          let tier := tier_Publish units tier in
          (Served (buildUsage (Total r) (Cached r) maxTok), tier, eng_release pin e)
    end.

(** What each surface hashes of a conversation: a role and its text per message. *)
Definition chat_prompt (tools : bytes) (msgs : list (bytes * bytes)) : bytes :=
  (if negb (bool_decide (tools = [])) && negb (bool_decide (tools = lit "null")) then tools ++ [10] else []) ++
  (msgs ≫= λ m, m.1 ++ [58] ++ m.2 ++ [10]).
Definition messages_prompt (system : bytes) (msgs : list (bytes * bytes)) : bytes := system ++ (msgs ≫= λ m, m.1 ++ m.2).

(** ** Chunks are the shared chunker's *)

(** The blocks are cut and hashed as [kvcache]'s are; only their token counts are the
    engine's own. *)
Lemma chunk_hashes tag content cb r : Hash <$> chunkContent tag content cb r = Hash <$> ChunkContent sha256 tag content cb.
Proof.
  unfold chunkContent, ChunkContent. destruct content as [|c content]; [done|]. generalize (Z.to_nat (if cb <=? 0 then DefaultChunkBytes else cb)), (length (c :: content)), 0%nat.
  intros b fuel. induction fuel as [|f IH]; intros off; [done|]. cbn [chunk_loop ChunkContent_loop]. destruct (decide (off < _)%nat); [|done]. cbn. by rewrite IH.
Qed.

Lemma tokensForBytes_pos n r : 0 ≤ tokensForBytes n r.
Proof. unfold tokensForBytes. destruct (n <=? 0); [done|]. cbn zeta. destruct (1 <=? _) eqn:E; [apply Z.leb_le in E; lia|lia]. Qed.

Lemma chunk_tokens tag content cb r u : u ∈ chunkContent tag content cb r → 0 ≤ Tokens u.
Proof.
  unfold chunkContent. destruct content as [|c content]; [by intros ->%list_elem_of_singleton|].
  generalize (Z.to_nat (if cb <=? 0 then DefaultChunkBytes else cb)), (length (c :: content)), 0%nat. intros b fuel.
  induction fuel as [|f IH]; intros off; cbn [chunk_loop]; [by intros ?%elem_of_nil|]. destruct (decide (off < _)%nat); [|by intros ?%elem_of_nil].
  intros [->|?]%elem_of_cons; [apply tokensForBytes_pos|by eapply IH].
Qed.

(** ** What an admitted request finds *)

Lemma sum_take_mono us m k : (∀ u, u ∈ us → 0 ≤ Tokens u) → (m ≤ k)%nat → sum_tokens (take m us) ≤ sum_tokens (take k us).
Proof.
  intros Hu Hmk. replace k with (m + (k - m))%nat by lia. rewrite <-take_take_drop, sum_tokens_app.
  assert (0 ≤ sum_tokens (take (k - m) (drop m us))); [|lia]. apply sum_tokens_nonneg. intros u Hin. apply Hu. apply elem_of_take in Hin as (i & Hi & _).
  rewrite lookup_drop in Hi. by eapply list_elem_of_lookup_2.
Qed.

(** The prefix of a request a trie holds. *)
Definition longest (t : Trie) (us : list Unit_) (m : nat) : Prop :=
  (m ≤ length us)%nat ∧ KvCache.holds t (Hash <$> take m us) ∧ ((m < length us)%nat → ¬ KvCache.holds t (Hash <$> take (S m) us)).

Lemma query_longest_prefix t us : ∃ m, longest t us m ∧ KvTrie.Query t us = (sum_tokens (take m us), sum_tokens us).
Proof. destruct (query_longest t us) as (m & H1 & H2 & H3 & H4). exists m. by split. Qed.

Lemma RecordAndPin_query us t : (KvTrie.RecordAndPin us t).1.1 = KvTrie.Query t us.
Proof. unfold KvTrie.RecordAndPin, KvTrie.Query. destruct us as [|u us]; [done|]. destruct (walk _ _ _ _) as [[n c] rest]. by destruct (insertFrom n rest t). Qed.

(** The tier's part: as far as its trie goes. *)
Definition tier_longest (t : Tier) (us : list Unit_) (k : nat) : Prop := match t with None => k = 0%nat | Some t => longest t us k end.
Lemma tier_query t us : ∃ k, tier_longest t us k ∧ (k ≤ length us)%nat ∧ tier_Query t us = sum_tokens (take k us).
Proof.
  destruct t as [t|]; [|exists 0%nat; split_and!; [done|lia|done]]. destruct (query_longest_prefix t us) as (k & Hk & Hq). exists k. split_and!; [done|apply Hk|cbn; by rewrite Hq].
Qed.

Lemma best_sum us m k : (∀ u, u ∈ us → 0 ≤ Tokens u) →
  sum_tokens (take (m `max` k) us) = Z.max (sum_tokens (take m us)) (sum_tokens (take k us)).
Proof.
  intros Hu. destruct (Nat.le_ge_cases m k) as [H|H].
  - rewrite Nat.max_r by done. pose proof (sum_take_mono us m k Hu H). lia.
  - rewrite Nat.max_l by done. pose proof (sum_take_mono us k m Hu H). lia.
Qed.

Lemma refused_admission units tier e e' : Admit units tier e = (None, e') → 0 < MaxConcurrency (ecfg e) ≤ einflight e ∧ e' = add_rejected e.
Proof.
  unfold Admit, reserve. cbn [ecfg einflight add_inflight]. destruct (if 0 <? MaxConcurrency (ecfg e) then _ else true) eqn:Hok; [by destruct (take_blocks _ _ _)|].
  intros [= <-]. destruct (Z.ltb_spec 0 (MaxConcurrency (ecfg e))) as [Hmax|]; [|done]. apply Z.leb_gt in Hok. split; [lia|].
  unfold turn_away, add_inflight, add_rejected. cbn. f_equal. lia.
Qed.

(** An admission's findings, and what else it changes. *)
Record found (units : list Unit_) (tier : Tier) (e e' : Engine) (r : Residency) (m k : nat) : Prop := {
  fd_local : longest (trie e) units m;
  fd_tier : tier_longest tier units k;
  fd_Local : Local r = sum_tokens (take m units);
  fd_Cached : Cached r = sum_tokens (take (m `max` k) units);
  fd_Cold : Cold r = sum_tokens (drop (m `max` k) units);
  fd_Total : Total r = sum_tokens units;
  fd_sum : Cached r + Cold r = Total r;
  fd_ranges : 0 ≤ Local r ∧ Local r ≤ Cached r ∧ 0 ≤ Cold r;
  fd_slot : einflight e' = einflight e + 1;
  fd_counts : admittedN e' = admittedN e + 1 ∧ rejectedN e' = rejectedN e ∧ genToks e' = genToks e ∧ ecfg e' = ecfg e;
  fd_tokens : promptToks e' = promptToks e + Total r ∧ cachedToks e' = cachedToks e + Cached r ∧ externalToks e' = externalToks e + External r;
}.

Lemma admit_found units tier e pin r e' : (∀ u, u ∈ units → 0 ≤ Tokens u) → Admit units tier e = (Some (pin, r), e') → ∃ m k, found units tier e e' r m k.
Proof.
  intros Hu. unfold Admit, reserve. cbn [ecfg einflight add_inflight]. destruct (if 0 <? MaxConcurrency (ecfg e) then _ else true); [|done].
  unfold take_blocks. pose proof (RecordAndPin_query units (trie (add_inflight 1 e))) as Hq. cbn [trie add_inflight] in *.
  destruct (KvTrie.RecordAndPin units (trie e)) as [[[cached total] p] t]. cbn [fst] in Hq. intros [= _ <- <-].
  destruct (query_longest_prefix (trie e) units) as (m & Hm & Hqm). rewrite Hqm in Hq. injection Hq as -> ->.
  destruct (tier_query tier units) as (k & Hk & _ & ->). exists m, k.
  assert (Hext : sum_tokens (take m units) + (if sum_tokens (take m units) <? sum_tokens (take k units) then sum_tokens (take k units) - sum_tokens (take m units) else 0) =
    sum_tokens (take (m `max` k) units)).
  { rewrite best_sum by done. destruct (Z.ltb_spec (sum_tokens (take m units)) (sum_tokens (take k units))); lia. }
  assert (Hall : sum_tokens units = sum_tokens (take (m `max` k) units) + sum_tokens (drop (m `max` k) units)) by (by rewrite <-sum_tokens_app, take_drop).
  assert (Hdrop : 0 ≤ sum_tokens (drop (m `max` k) units)).
  { apply sum_tokens_nonneg. intros u Hin. apply Hu. apply list_elem_of_lookup in Hin as [i Hi]. rewrite lookup_drop in Hi. by eapply list_elem_of_lookup_2. }
  pose proof (sum_take_mono units m (m `max` k) Hu ltac:(lia)) as Hle. pose proof (sum_take_mono units 0 m Hu ltac:(lia)) as Hpos. cbn [take sum_tokens foldr] in Hpos.
  assert (Hcold : Cold (MkResidency (sum_tokens (take m units)) (if sum_tokens (take m units) <? sum_tokens (take k units) then sum_tokens (take k units) - sum_tokens (take m units) else 0) (sum_tokens units)) =
    sum_tokens (drop (m `max` k) units)).
  { unfold Cold, Cached. cbn [Local External Total]. rewrite Hext. destruct (Z.ltb_spec (sum_tokens units - sum_tokens (take (m `max` k) units)) 0); lia. }
  split; cbn [einflight admittedN rejectedN genToks ecfg promptToks cachedToks externalToks add_inflight]; rewrite ?Hcold; unfold Cached; cbn [Local External Total]; rewrite ?Hext; try done; try lia.
Qed.

(** C30: an admitted request's prompt is accounted for block by block: what its own cache held
    before it came, what further the shared tier holds, and the rest, which alone is computed;
    the three add up to the prompt, and the counters grow by them.  A request past the limit
    finds and changes nothing. *)
Theorem residency_exact (units : list Unit_) (tier : Tier) (e : Engine) :
  (∀ u, u ∈ units → 0 ≤ Tokens u) →
  match Admit units tier e with
  | (Some (pin, r), e') =>
      ∃ m k, longest (trie e) units m ∧ tier_longest tier units k ∧
        Local r = sum_tokens (take m units) ∧ Cached r = sum_tokens (take (m `max` k) units) ∧
        Cold r = sum_tokens (drop (m `max` k) units) ∧ Cached r + Cold r = Total r ∧ Total r = sum_tokens units ∧
        einflight e' = einflight e + 1 ∧
        promptToks e' = promptToks e + Total r ∧ cachedToks e' = cachedToks e + Cached r ∧ externalToks e' = externalToks e + External r
  | (None, e') => 0 < MaxConcurrency (ecfg e) ≤ einflight e ∧ e' = add_rejected e
  end.
Proof.
  intros Hu. destruct (Admit units tier e) as [[[pin r]|] e'] eqn:Ha; [|by apply refused_admission in Ha].
  destruct (admit_found _ _ _ _ _ _ Hu Ha) as (m & k & H). exists m, k. destruct H as [? ? ? ? ? ? ? ? ? ? (? & ? & ?)]. by split_and!.
Qed.

(** the refusal names what the request would have to compute: exactly the cold part an
    admission at that moment would find, beyond the limit; a request that carries the bypass
    is never refused. *)
Theorem refusal_names_the_cold (units : list Unit_) (tier : Tier) (e : Engine) (pin : option loc) (r : Residency) (e' : Engine) :
  (∀ u, u ∈ units → 0 ≤ Tokens u) → Admit units tier e = (Some (pin, r), e') →
  RejectsPrefill units true tier e = (0, false) ∧
  RejectsPrefill units false tier e =
    (if 0 <? PrefillRejectTokens (ecfg e) then (Cold r, PrefillRejectTokens (ecfg e) <? Cold r) else (0, false)).
Proof.
  intros Hu Ha. unfold RejectsPrefill. rewrite orb_true_r, orb_false_r. split; [done|]. rewrite Z.ltb_antisym. destruct (PrefillRejectTokens (ecfg e) <=? 0); [done|]. cbn [negb].
  unfold Admit, reserve in Ha. destruct (if 0 <? MaxConcurrency _ then _ else true); [|done]. unfold take_blocks in Ha.
  pose proof (RecordAndPin_query units (trie (add_inflight 1 e))) as Hq. cbn [trie add_inflight] in *.
  destruct (KvTrie.RecordAndPin units (trie e)) as [[[cached total] p] t]. cbn [fst] in Hq. rewrite <-Hq. injection Ha as _ <- _. unfold Cold, Cached. cbn [Local External Total].
  assert (Heq : Z.max (total - (if cached <? tier_Query tier units then tier_Query tier units else cached)) 0 =
    (if total - (cached + (if cached <? tier_Query tier units then tier_Query tier units - cached else 0)) <? 0 then 0
     else total - (cached + (if cached <? tier_Query tier units then tier_Query tier units - cached else 0)))).
  { destruct (cached <? tier_Query tier units); [replace (cached + (tier_Query tier units - cached)) with (tier_Query tier units) by lia|rewrite Z.add_0_r];
      match goal with |- Z.max ?a 0 = _ => destruct (Z.ltb_spec a 0); lia end. }
  by rewrite Heq.
Qed.

(** ** Requests side by side

    [reserved] hold a slot and not yet their blocks, [refused] have counted themselves in and
    not yet out, [live] hold both; the tier is also written by the other servers. [room] is
    what is known of the blocks a request takes. *)

Record esys := MkEsys { es_e : Engine; es_tier : Tier; es_reserved : nat; es_refused : nat; es_live : list (option loc) }.

Definition weighted (us : list Unit_) : Prop := ∀ u, u ∈ us → 0 ≤ Tokens u.

Inductive estep (room : Engine → list Unit_ → Prop) : esys → esys → Prop :=
  | st_reserve e e' t r f l : reserve e = (true, e') → estep room (MkEsys e t r f l) (MkEsys e' t (S r) f l)
  | st_refuse e e' t r f l : reserve e = (false, e') → estep room (MkEsys e t r f l) (MkEsys e' t r (S f) l)
  | st_turn_away e t r f l : estep room (MkEsys e t r (S f) l) (MkEsys (turn_away e) t r f l)
  | st_take us e e' t r f l pin res : weighted us → room e us → take_blocks us t e = ((pin, res), e') →
      estep room (MkEsys e t (S r) f l) (MkEsys e' t r f (pin :: l))
  | st_record n e t r f l : estep room (MkEsys e t r f l) (MkEsys (RecordOutput n e) t r f l)
  | st_append us n s e t r f l : weighted us → estep room (MkEsys e t r f l) (MkEsys (AppendOutputBlocks us n s e) t r f l)
  | st_publish us e t r f l : estep room (MkEsys e t r f l) (MkEsys e (tier_Publish us t) r f l)
  | st_release pin e t r f l1 l2 : estep room (MkEsys e t r f (l1 ++ pin :: l2)) (MkEsys (eng_release pin e) t r f (l1 ++ l2)).

Record slots_ok (c : MConfig) (s : esys) : Prop := {
  so_cfg : ecfg (es_e s) = c;
  so_count : einflight (es_e s) = Z.of_nat (es_reserved s + es_refused s + length (es_live s));
  so_bound : 0 < MaxConcurrency c → Z.of_nat (es_reserved s + length (es_live s)) ≤ MaxConcurrency c;
}.

Lemma append_frame us n s e : ecfg (AppendOutputBlocks us n s e) = ecfg e ∧ einflight (AppendOutputBlocks us n s e) = einflight e.
Proof. unfold AppendOutputBlocks. destruct (_ || _); [done|]. cbn zeta. by destruct (_ <=? 0). Qed.

Lemma slots_step room c s s' : slots_ok c s → estep room s s' → slots_ok c s'.
Proof.
  intros [Hc Hn Hb] Hst. destruct Hst as [e e' t r f l He|e e' t r f l He|e t r f l|us e e' t r f l pin res _ _ He|n e t r f l|us n s e t r f l _|us e t r f l|pin e t r f l1 l2]; cbn [es_e es_reserved es_refused es_live] in *.
  - unfold reserve in He. cbn [ecfg einflight add_inflight] in He. injection He as Hok <-. split; cbn [es_e es_reserved es_refused es_live]; [done|cbn; lia|].
    intros Hmax. rewrite Hc in Hok. rewrite (proj2 (Z.ltb_lt _ _) Hmax) in Hok. apply Z.leb_le in Hok. lia.
  - unfold reserve in He. injection He as _ <-. split; cbn [es_e es_reserved es_refused es_live]; [done|cbn; lia|done].
  - split; cbn [es_e es_reserved es_refused es_live]; [done|cbn; lia|done].
  - unfold take_blocks in He. destruct (KvTrie.RecordAndPin us (trie e)) as [[[cd total] p] t']. injection He as <- _ <-.
    split; cbn [es_e es_reserved es_refused es_live ecfg einflight]; [done|cbn [length]; lia|intros Hmax; specialize (Hb Hmax); cbn [length]; lia].
  - by split.
  - destruct (append_frame us n s e) as [H1 H2]. split; cbn [es_e es_reserved es_refused es_live]; [by rewrite H1|by rewrite H2|done].
  - by split.
  - split; cbn [es_e es_reserved es_refused es_live]; [done| |]; rewrite length_app in *; cbn [length] in *; [cbn; lia|intros Hmax; specialize (Hb Hmax); lia].
Qed.

Definition start (c : MConfig) (t : Tier) : esys := MkEsys (NewEngine c) t 0 0 [].

(** the server never works on more requests than it is allowed, however the requests race;
    its gauge counts those it works on and those it is turning away, and is back at zero when
    there are none. *)
Theorem slots_bounded (c : MConfig) (t : Tier) (s : esys) :
  rtc (estep (λ _ _, True)) (start c t) s →
  (0 < MaxConcurrency c → Z.of_nat (es_reserved s + length (es_live s)) ≤ MaxConcurrency c) ∧
  einflight (es_e s) = Z.of_nat (es_reserved s + es_refused s + length (es_live s)).
Proof.
  intros Hs. assert (slots_ok (normalize c) s) as [_ H1 H2]; [|done].
  assert (H0 : slots_ok (normalize c) (start c t)) by (split; cbn; [done|done|lia]).
  induction Hs as [|s1 s2 s3 H12 _ IH]; [done|]. apply IH. by eapply slots_step.
Qed.

(** ** The cache under requests *)

(** What a request takes is there when it has taken it: true of an unbounded cache, and of
    a bounded one unless everything else in it is pinned. *)
Definition fits (e : Engine) (us : list Unit_) : Prop :=
  match KvTrie.RecordAndPin us (trie e) with (_, pin, t') => match pin with Some leaf => KvCache.path t' (Hash <$> us) = Some leaf | None => True end end.

Definition cache_ok (s : esys) : Prop := KvCache.wf (trie (es_e s), omap id (es_live s)).

Lemma take_wf us t e pin res e' P : weighted us → fits e us → take_blocks us t e = ((pin, res), e') →
  KvCache.wf (trie e, P) → KvCache.wf (trie e', omap id [pin] ++ P).
Proof.
  intros Hu Hf He Hwf. unfold take_blocks, fits in *. destruct (KvTrie.RecordAndPin us (trie e)) as [[[cd total] p] t'] eqn:Hr. injection He as <- _ <-. cbn [trie].
  apply (wf_step (t', omap id [p] ++ P)); [|apply k_observe]. destruct p as [leaf|].
  - apply (wf_step (trie e, P)); [done|]. by eapply k_pin.
  - unfold KvTrie.RecordAndPin in Hr. destruct us as [|u us]; [by injection Hr as _ _ <-|]. destruct (walk _ _ _ _) as [[n c] rest]. by destruct (insertFrom n rest (trie e)).
Qed.

Lemma output_weighted c reply fr i : 0 ≤ Tokens (output_unit c reply fr i).
Proof. apply tokensForBytes_pos. Qed.

Lemma append_wf us n s e P : weighted us → KvCache.wf (trie e, P) → KvCache.wf (trie (AppendOutputBlocks us n s e), P).
Proof.
  intros Hu Hwf. unfold AppendOutputBlocks. destruct (_ || _); [done|]. cbn zeta. destruct (_ <=? 0); [done|]. cbn [trie set_trie].
  apply (wf_step (trie e, P)); [done|]. apply k_commit. intros u [?|(i & -> & _)%list_elem_of_fmap]%elem_of_app; [by apply Hu|apply output_weighted].
Qed.

Lemma cache_step s s' : cache_ok s → estep fits s s' → cache_ok s'.
Proof.
  unfold cache_ok. intros Hw Hst. destruct Hst as [e e' t r f l He|e e' t r f l He|e t r f l|us e e' t r f l pin res Hu Hf He|n e t r f l|us n s e t r f l Hu|us e t r f l|pin e t r f l1 l2]; cbn [es_e es_live] in *; try done.
  - unfold reserve in He. by injection He as _ <-.
  - unfold reserve in He. by injection He as _ <-.
  - change (omap id (pin :: l)) with (omap id ([pin] ++ l)). rewrite omap_app. by eapply take_wf.
  - by apply append_wf.
  - rewrite omap_app in *. destruct pin as [leaf|]; [|done]. cbn [omap list_omap id] in Hw. cbn [trie eng_release set_trie add_inflight].
    apply (wf_step (trie e, omap id l1 ++ leaf :: omap id l2)); [done|]. apply k_unpin.
Qed.

(** the cache stays well-formed and pins exactly what the requests at work hold, as long
    as what they take fits: with none at work nothing is pinned and the counters count what
    is there. *)
Theorem engine_cache_ok (c : MConfig) (t : Tier) (s : esys) :
  rtc (estep fits) (start c t) s →
  KvCache.wf (trie (es_e s), omap id (es_live s)) ∧ (es_live s = [] → PinnedNodes (trie (es_e s)) = 0).
Proof.
  intros Hs. assert (Hw : cache_ok s).
  { assert (H0 : cache_ok (start c t)) by apply wf_new. induction Hs as [|s1 s2 s3 H12 _ IH]; [done|]. apply IH. by eapply cache_step. }
  split; [done|]. intros Hl. unfold cache_ok in Hw. rewrite Hl in Hw. destruct Hw as (D & L & Hc & [_ H2]). cbn [fst snd] in *. unfold PinnedNodes.
  rewrite (co_pinned _ _ _ Hc). apply total_zero. intros l [HlD Hlr%not_elem_of_singleton]%elem_of_difference. by rewrite H2.
Qed.

(** An unbounded cache always has room, and keeps what it is given. *)
Lemma unbounded_insert t P us n cached rest : Bounded (cfg t) = false → KvCache.wf (t, P) → weighted us → walk (heap t) root us 0 = (n, cached, rest) →
  KvCache.path (insertFrom n rest t).2 (Hash <$> us) = Some (insertFrom n rest t).1 ∧
  ∀ ks l, KvCache.path t ks = Some l → KvCache.path (insertFrom n rest t).2 ks = Some l.
Proof.
  intros Hb (D & L & Hc & HP) Hu Hw. cbn [fst snd] in *.
  destruct (request_spec t D L us n cached rest Hc Hu Hw) as (t1 & D1 & L1 & D' & L' & _ & (d & Hd & Hg) & _ & _ & Heq). rewrite Hb in Heq.
  rewrite Heq. split; [|apply (gr_old _ _ _ _ _ _ _ Hg)]. by rewrite Hd, fmap_app, (gr_end _ _ _ _ _ _ _ Hg).
Qed.

Lemma unbounded_fits e us P : Bounded (cfg (trie e)) = false → KvCache.wf (trie e, P) → weighted us → fits e us.
Proof.
  intros Hb Hw Hu. unfold fits, KvTrie.RecordAndPin. destruct us as [|u us']; [done|]. destruct (walk _ _ _ _) as [[n c] rest] eqn:Hwalk.
  destruct (unbounded_insert _ _ _ _ _ _ Hb Hw Hu Hwalk) as [H _]. destruct (insertFrom n rest (trie e)) as [leaf t1]. cbn [fst snd] in H.
  unfold pinChain. by rewrite pin_path.
Qed.

Lemma commit_keeps t P us : Bounded (cfg t) = false → KvCache.wf (t, P) → weighted us → KvCache.holds (KvTrie.Commit us t) (Hash <$> us).
Proof.
  intros Hb Hw Hu. unfold KvTrie.Commit. destruct us as [|u us'] eqn:E; [by exists root|]. rewrite <-E in *. clear E u us'. destruct (walk (heap t) root us 0) as [[n c] rest] eqn:Hwalk.
  fold (touched n t). destruct (touched_heap t n) as [Hh Hcf].
  assert (Hw' : KvCache.wf (touched n t, P)).
  { destruct Hw as (D & L & Hc & HP). cbn [fst snd] in *. destruct (walk_root _ _ _ _ _ Hwalk) as (d & _ & Hp & _ & _). pose proof (path_in _ _ _ _ _ Hc Hp) as HnD.
    destruct (touched_core t D L n Hc HnD) as [L' Hc']. exists D, L'. split; [done|]. split; [apply HP|cbn [fst snd]; rewrite Hh; apply HP]. }
  rewrite <-Hh in Hwalk. rewrite <-Hcf in Hb. destruct (unbounded_insert _ _ _ _ _ _ Hb Hw' Hu Hwalk) as [H _]. by eexists.
Qed.

(** ** The next turn of a conversation *)

Lemma output_whole bb reply i : (0 < bb)%nat → ((i + 1) * bb ≤ length reply)%nat → output_chunk bb reply i = window reply bb i.
Proof.
  intros Hbb Hi. unfold output_chunk, window. cbn zeta. assert (Ho : (i * bb + bb ≤ length reply)%nat) by lia.
  rewrite (decide_True (P := (i * bb < length reply)%nat)) by lia. rewrite (decide_False (P := (length reply < i * bb + bb)%nat)) by lia.
  replace (i * bb + bb - i * bb)%nat with bb by lia. rewrite decide_False; [done|]. rewrite length_take, length_drop. lia.
Qed.

Lemma window_app_r a b bb k i : length a = (k * bb)%nat → window (a ++ b) bb (k + i) = window b bb i.
Proof. intros Ha. unfold window. f_equal. replace ((k + i) * bb)%nat with (length a + i * bb)%nat by (rewrite Ha; lia). apply drop_app_add. Qed.
Lemma window_app_l a b bb i : ((i + 1) * bb ≤ length a)%nat → window (a ++ b) bb i = window a bb i.
Proof. intros Hi. unfold window. rewrite drop_app_le by nia. rewrite take_app_le; [done|]. rewrite length_drop. nia. Qed.

(** The hash of the [j]-th block of a prompt. *)
Lemma chunk_hash tag content cb r j : 0 < cb → content ≠ [] → (j * Z.to_nat cb < length content)%nat →
  (Hash <$> chunkContent tag content cb r) !! j = Some (HashContent sha256 (if decide (0 < j)%nat then cont_tag else tag) (window content (Z.to_nat cb) j)).
Proof. intros Hcb Hne Hj. rewrite chunk_hashes, list_lookup_fmap, ChunkContent_lookup by done. by rewrite decide_True. Qed.

Lemma chunk_length tag content cb r k : 0 < cb → (0 < k)%nat → length content = (k * Z.to_nat cb)%nat → length (chunkContent tag content cb r) = k.
Proof.
  intros Hcb Hk Hl. assert (Hne : content ≠ []) by (intros ->; cbn in Hl; nia).
  rewrite <-(length_fmap Hash), chunk_hashes, length_fmap. apply Nat.le_antisymm.
  - destruct (Nat.le_gt_cases (length (ChunkContent sha256 tag content cb)) k) as [|Hgt]; [done|]. apply lookup_lt_is_Some in Hgt as [x Hx].
    rewrite ChunkContent_lookup, decide_False in Hx by (done || lia). done.
  - destruct k as [|k]; [lia|]. apply lookup_lt_is_Some. rewrite ChunkContent_lookup, decide_True by (done || nia). eauto.
Qed.

(** what a server generated is there when the conversation goes on.  With a prompt of
    whole blocks and a cache that is not bounded, the next turn, which repeats the prompt and
    then the reply, finds every block of the prompt, and every whole block of the reply that
    the output's length accounts for. *)
Theorem next_turn_hits (e : Engine) (P : list loc) (prompt content more : bytes) (n : Z) (k j : nat) :
  KvCache.wf (trie e, P) → Bounded (cfg (trie e)) = false →
  (0 < k)%nat → length prompt = (k * Z.to_nat (blockSizeBytes (ecfg e)))%nat →
  (j * Z.to_nat (blockSizeBytes (ecfg e)) ≤ length (reply_bytes content))%nat → Z.of_nat j ≤ numBlocks (ecfg e) n →
  0 < n → nonpos (OutputKVMultiplier (ecfg e)) = false → (0 < j)%nat →
  let e' := AppendOutputBlocks (Tokenize e prompt) n content e in
  let next := Tokenize e' (prompt ++ reply_bytes content ++ more) in
  KvCache.holds (trie e') (Hash <$> take (k + j) next) ∧ (k + j ≤ length next)%nat.
Proof.
  intros Hw Hb Hk Hlen Hj Hn Hpos Hm Hj0. cbn zeta. unfold AppendOutputBlocks. rewrite Hm. cbn [orb]. rewrite (proj2 (Z.leb_gt n 0)) by lia. cbn zeta.
  set (N := numBlocks (ecfg e) n) in *. rewrite (proj2 (Z.leb_gt N 0)) by lia. set (bb := blockSizeBytes (ecfg e)) in *. cbn [trie set_trie ecfg].
  set (next := Tokenize (set_trie _ e) _). assert (Hnext : next = chunkContent (lit "prompt") (prompt ++ reply_bytes content ++ more) bb (CharsPerToken (ecfg e))) by done.
  assert (Hbb : 0 < bb) by (unfold bb, blockSizeBytes; destruct (_ <=? 0) eqn:E; [done|apply Z.leb_gt in E; done]).
  assert (Hpn : prompt ≠ []) by (intros ->; cbn in Hlen; nia).
  assert (Hpl : length (Tokenize e prompt) = k) by (unfold Tokenize; apply chunk_length; done).
  assert (Hne : bool_decide (Tokenize e prompt = []) = false) by (apply bool_decide_eq_false; intros H; rewrite H in Hpl; cbn in Hpl; lia). rewrite Hne.
  set (outs := output_unit (ecfg e) (reply_bytes content) false <$> seq 0 (Z.to_nat N)).
  assert (Hwt : weighted (Tokenize e prompt ++ outs)).
  { intros u [Hu|(i & -> & _)%list_elem_of_fmap]%elem_of_app; [by eapply chunk_tokens|apply output_weighted]. }
  pose proof (commit_keeps (trie e) P (Tokenize e prompt ++ outs) Hb Hw Hwt) as Hh.
  assert (Htot : (length (prompt ++ reply_bytes content ++ more) = k * Z.to_nat bb + length (reply_bytes content) + length more)%nat) by (rewrite !length_app, Hlen; lia).
  assert (Hcn : prompt ++ reply_bytes content ++ more ≠ []) by (by destruct prompt).
  assert (Hsame : Hash <$> take (k + j) next = take (k + j) (Hash <$> Tokenize e prompt ++ outs)).
  { rewrite fmap_take. apply list_eq. intros i. destruct (Nat.lt_ge_cases i (k + j)) as [Hi|Hi]; [|by rewrite !lookup_take_ge].
    rewrite !lookup_take_lt by done. rewrite Hnext, chunk_hash by (done || nia). rewrite fmap_app. destruct (Nat.lt_ge_cases i k) as [Hik|Hik].
    - rewrite lookup_app_l by (rewrite length_fmap; lia). unfold Tokenize. fold bb. rewrite chunk_hash by (done || nia). f_equal. by rewrite window_app_l by nia.
    - rewrite lookup_app_r by (rewrite length_fmap; lia). rewrite length_fmap, Hpl, list_lookup_fmap. unfold outs. rewrite list_lookup_fmap, lookup_seq_lt by lia. cbn [fmap option_fmap option_map].
      unfold output_unit. cbn [Hash]. rewrite decide_True by lia. rewrite andb_false_l. fold bb. do 2 f_equal. rewrite output_whole by nia.
      replace i with (k + (i - k))%nat at 1 by lia. rewrite (window_app_r prompt) by done. by rewrite window_app_l by nia. }
  split.
  - rewrite Hsame. eapply (kv_holds_prefix _ _ (drop (k + j) _)). by rewrite take_drop.
  - destruct (k + j)%nat as [|m] eqn:E; [lia|]. apply lookup_lt_is_Some.
    assert (Hl : is_Some ((Hash <$> next) !! m)) by (rewrite Hnext, chunk_hash by (done || nia); eauto). rewrite list_lookup_fmap, fmap_is_Some in Hl. done.
Qed.

(** ** A whole request *)

(** however a request ends, its slot is free again.  Refused or turned away it has touched
    neither its server's cache nor the shared tier; only one that was served is published;
    and what it is told of its prompt is the prompt, with no more cached than there is. *)
Theorem request_leaves_no_slot (units : list Unit_) (bypass : bool) (requested : Z) (stays : bool * bool) (tier : Tier) (e : Engine) :
  weighted units →
  let '(o, tier', e') := handle units bypass requested stays tier e in
  einflight e' = einflight e ∧
  match o with
  | Refused n => bypass = false ∧ 0 < PrefillRejectTokens (ecfg e) < n ∧ tier' = tier ∧ e' = e
  | Busy => 0 < MaxConcurrency (ecfg e) ≤ einflight e ∧ tier' = tier ∧ trie e' = trie e
  | Gone => stays ≠ (true, true) ∧ tier' = tier
  | Served u => stays = (true, true) ∧ tier' = tier_Publish units tier ∧
      PromptTokens u = sum_tokens units ∧ 0 ≤ CachedTokens u ≤ PromptTokens u ∧ CompletionTokens u = MaxTokensOrDefault e requested ∧
      genToks e' = genToks e + CompletionTokens u
  end.
Proof.
  intros Hu. unfold handle. destruct (RejectsPrefill units bypass tier e) as [n heavy] eqn:Hr. destruct heavy.
  { unfold RejectsPrefill in Hr. destruct ((PrefillRejectTokens (ecfg e) <=? 0) || bypass) eqn:Eb; [done|]. apply orb_false_iff in Eb as [Hp%Z.leb_gt ->].
    destruct (KvTrie.Query _ _) as [cached total]. injection Hr as <- Hlt%Z.ltb_lt. done. }
  destruct (Admit units tier e) as [[[pin r]|] e1] eqn:Ha.
  - assert (Hr1 : Total r = sum_tokens units ∧ 0 ≤ Cached r ≤ Total r ∧ einflight e1 = einflight e + 1 ∧ ecfg e1 = ecfg e ∧ genToks e1 = genToks e).
    { destruct (admit_found _ _ _ _ _ _ Hu Ha) as (m & k & H). destruct H as [? ? ? ? ? H1 H2 H3 H4 (H5 & H6 & H7 & H8) ?]. split_and!; (done || lia). }
    destruct Hr1 as (H1 & H2 & H3 & H4 & H5). assert (Hmt : MaxTokensOrDefault e1 requested = MaxTokensOrDefault e requested) by (unfold MaxTokensOrDefault; by rewrite H4).
    destruct stays as [[] []]; cbn [fst snd andb negb]; try (split; [cbn; lia|done]).
    destruct (append_frame units (MaxTokensOrDefault e1 requested) (join_spaces (syntheticTokens (MaxTokensOrDefault e1 requested))) (RecordOutput (MaxTokensOrDefault e1 requested) e1)) as [_ Hin].
    assert (Hg : ∀ us n s e, genToks (AppendOutputBlocks us n s e) = genToks e) by (intros us' n' s' e0; unfold AppendOutputBlocks; destruct (_ || _); [done|]; cbn zeta; by destruct (_ <=? 0)).
    split; [cbn [einflight eng_release add_inflight set_trie]; rewrite Hin; cbn [einflight RecordOutput]; lia|].
    cbn [PromptTokens CachedTokens CompletionTokens buildUsage genToks eng_release add_inflight set_trie]. rewrite Hg. cbn [genToks RecordOutput]. rewrite H1, Hmt, H5. split_and!; (done || lia).
  - pose proof (refused_admission _ _ _ _ Ha) as [[? ?] ->]. by split_and!.
Qed.
End engine.

(** ** Small servers *)

Module MockEx.
Definition sha (b : bytes) : bytes := reverse b.
(** Blocks of two tokens, eight bytes. *)
Definition cfg (cap conc reject : Z) : MConfig :=
  MkMConfig [] 2 (f64_of_Z 4) cap conc 0 (f64_of_Z 100) (f64_of_Z 1000) (f64_of_Z 10) f64_zero reject 0 (f64_of_Z 1).
Definition e0 : Engine := NewEngine (cfg 0 1 1).
Definition us : list Unit_ := Tokenize sha e0 (lit "0123456789abcdef").
Definition e1 : Engine := (Admit us None e0).2.

Lemma us_weighted : weighted us.
Proof. intros u Hu. by eapply chunk_tokens. Qed.

Lemma residency_exact_witness : (Admit us None e1).2 = add_rejected e1 ∧ ∃ r e', Admit us None e0 = (Some (Some 3%positive, r), e') ∧ Cold r + Cached r = 4.
Proof.
  pose proof (residency_exact us None e1 us_weighted) as H1. pose proof (residency_exact us None e0 us_weighted) as H0.
  assert (E1 : (Admit us None e1).1 = None) by (by vm_compute). assert (E0 : fst <$> (Admit us None e0).1 = Some (Some 3%positive)) by (by vm_compute).
  destruct (Admit us None e1) as [[[p1 r1]|] f1]; [done|]. split; [apply H1|]. destruct (Admit us None e0) as [[[p0 r0]|] f0]; [|done]. injection E0 as ->.
  destruct H0 as (m & k & _ & _ & _ & _ & _ & Hs & Ht & _). exists r0, f0. split; [done|]. rewrite Z.add_comm, Hs, Ht. by vm_compute.
Defined.

Lemma refusal_names_the_cold_witness : RejectsPrefill us false None e0 = (4, true).
Proof.
  assert (E0 : ∃ p r f, Admit us None e0 = (Some (p, r), f) ∧ Cold r = 4) by (eexists _, _, _; split; by vm_compute). destruct E0 as (p & r & f & E0 & Hc).
  destruct (refusal_names_the_cold us None e0 p r f us_weighted E0) as [_ ->]. rewrite Hc. by vm_compute.
Defined.

Lemma slots_bounded_witness : einflight (reserve e0).2 = 1.
Proof.
  pose proof (slots_bounded sha (cfg 0 1 1) None (MkEsys (reserve e0).2 None 1 0 [])) as H. apply H.
  eapply rtc_l; [apply (st_reserve sha (λ _ _, True) e0 (reserve e0).2 None 0 0 []); by vm_compute|apply rtc_refl].
Defined.
Lemma engine_cache_ok_witness : PinnedNodes (trie e1) = 2 ∧ PinnedNodes (trie (eng_release (Some 3%positive) e1)) = 0.
Proof.
  split; [by vm_compute|].
  pose proof (engine_cache_ok sha (cfg 0 1 1) None (MkEsys (eng_release (Some 3%positive) e1) None 0 0 [])) as H. apply H; [|done].
  eapply rtc_l; [apply (st_reserve sha fits e0 (reserve e0).2 None 0 0 []); by vm_compute|].
  eapply rtc_l; [apply (st_take sha fits us (reserve e0).2 e1 None 0 0 [] (Some 3%positive) (MkResidency 0 0 4) us_weighted); by vm_compute|].
  eapply rtc_l; [apply (st_release sha fits (Some 3%positive) e1 None 0 0 [] [])|apply rtc_refl].
Defined.

(** A prompt of two blocks, and a reply of "ok": the next turn finds the first of its blocks. *)
Lemma next_turn_hits_witness :
  KvCache.holds (trie (AppendOutputBlocks sha (Tokenize sha e0 (lit "0123456789abcdef")) 2 (lit "ok") e0))
    (Hash <$> take 3 (Tokenize sha e0 (lit "0123456789abcdef" ++ reply_bytes (lit "ok") ++ lit "user:and?"))).
Proof.
  apply (next_turn_hits sha e0 [] (lit "0123456789abcdef") (lit "ok") (lit "user:and?") 2 2 1); [apply wf_new|by vm_compute|lia|by vm_compute|vm_compute; lia|by vm_compute|done|by vm_compute|lia].
Defined.

Lemma request_leaves_no_slot_witness :
  einflight (handle sha us true 3 (true, true) None e0).2 = 0 ∧ (handle sha us true 3 (true, true) None e0).1.1 = Served (MkUsage 4 3 7 0) ∧
  (handle sha us false 3 (true, true) None e0).1.1 = Refused 4.
Proof.
  pose proof (request_leaves_no_slot sha us true 3 (true, true) None e0 us_weighted) as H. split_and!; [|by vm_compute|by vm_compute].
  destruct (handle _ _ _ _ _ _ _) as [[o t] e']. by destruct H as [H _].
Defined.

(** With one block of capacity taken by a request at work, another's own block is evicted
    before it is pinned: it is at work, and its prompt is not in the cache. *)
Definition full : Engine := (Admit (take 1 us) None (NewEngine (cfg 1 0 0))).2.
Definition other : list Unit_ := Tokenize sha full (lit "another!").
Lemma pin_comes_too_late :
  let '(x, e) := Admit other None full in
  (∃ pin r, x = Some (Some pin, r)) ∧ eng_Query e other = (0, 2) ∧ PinnedNodes (trie e) = 2 ∧ (Stats (trie e)).1.1 = 1.
Proof. vm_compute. split; [by do 2 eexists|done]. Qed.

(** One conversation hashes to different blocks through the two surfaces. *)
Lemma surfaces_disagree :
  let msgs := [(lit "user", lit "hi")] in
  Hash <$> Tokenize sha e0 (chat_prompt [] msgs) ≠ Hash <$> Tokenize sha e0 (messages_prompt [] msgs).
Proof. by vm_compute. Qed.
End MockEx.
