(* ===== verification/PrefillShare.v ===== *)
(** * PrefillShare: prefill bandwidth shared between requests

    [src/router/internal/mockvllm/prefill.go].  One goroutine owns the jobs being worked on
    and one timer; joins, leaves and the timer reach it one at a time, so each is a step.
    What is left of a job is a float64 of seconds; a job's [done] channel is closed or not.
    [submit] runs beside it: what it returns is decided by the channel. *)

From stdpp Require Import base gmap sets list.
From Stdlib Require Import ZArith Lia.
From Corelib Require Import SpecFloat.
From S2P Require Import Prelude.
Open Scope Z_scope.

Definition ns_per_second : Z := 1000000000.

(** [1e-9], correctly rounded. *)
Definition prefillEpsilon : float64 := f64_div (f64_of_Z 1) (f64_of_Z ns_per_second).

(** [Duration.Seconds]. *)
Definition Seconds (d : Z) : float64 := f64_add (f64_of_Z (d ÷ ns_per_second)) (f64_div (f64_of_Z (Z.rem d ns_per_second)) (f64_of_Z ns_per_second)).

(** [wake] is when the timer fires, nil when there is none; [closed] are the jobs told. *)
Record sched := MkSched { active : gmap positive float64; lastUpdate : Z; wake : option Z; closed : gset positive }.
Definition new_sched (now : Z) : sched := MkSched ∅ now None ∅.

(** Every job at work is charged the same share of the time since the last update. *)
Definition settle (now : Z) (s : sched) : sched :=
  let n := Z.of_nat (size (active s)) in
  let elapsed := now - lastUpdate s in
  if (n =? 0) || (elapsed <=? 0) then MkSched (active s) now (wake s) (closed s)
  else let share := f64_div (Seconds elapsed) (f64_of_Z n) in
       MkSched ((λ r, f64_sub r share) <$> active s) now (wake s) (closed s).

(** The least does not depend on the order of the range. *)
Definition minRemaining (m : gmap positive float64) : float64 :=
  let least := foldl (λ a r, if SFltb r a then r else a) f64_inf (map_to_list m).*2 in
  if SFltb least (S754_zero false) then S754_zero false else least.
Definition reschedule (clk : Z) (s : sched) : sched :=
  MkSched (active s) (lastUpdate s)
    (if bool_decide (active s = ∅) then None
     else Some (clk + f64_to_i64 (f64_mul (f64_mul (minRemaining (active s)) (f64_of_Z (Z.of_nat (size (active s))))) (f64_of_Z ns_per_second))))
    (closed s).

Definition set_active (m : gmap positive float64) (s : sched) : sched := MkSched m (lastUpdate s) (wake s) (closed s).

Definition join (now : Z) (j : positive) (work : float64) (s : sched) : sched :=
  let s := settle now s in reschedule now (set_active (<[j := work]> (active s)) s).
Definition leave (now : Z) (j : positive) (s : sched) : sched :=
  match active s !! j with
  | None => s
  | Some _ => let s := settle now s in reschedule now (set_active (delete j (active s)) s)
  end.
Definition finished (r : float64) : bool := SFleb r prefillEpsilon.
(** [now] is the timer's instant, [clk] the clock's when it is armed again. *)
Definition fire (now clk : Z) (s : sched) : sched :=
  let s := settle now s in
  let over := filter (λ kv : positive * float64, finished kv.2 = true) (active s) in
  reschedule clk (MkSched (active s ∖ over) (lastUpdate s) (wake s) (closed s ∪ dom over)).

#[global] Arguments join : simpl never.
#[global] Arguments leave : simpl never.
#[global] Arguments fire : simpl never.

(** ** [submit] *)

(** Where a submission is: waiting for its job, or back with an answer. *)
Inductive phase := Waiting | Returned (ok : bool).

Record system := MkSystem { sc : sched; phases : gmap positive phase }.

Inductive sys_step : system → system → Prop :=
  | ss_instant j work ok s ps : ps !! j = None → SFleb work (S754_zero false) = true →    (* nothing to do: only the context decides *)
      sys_step (MkSystem s ps) (MkSystem s (<[j := Returned ok]> ps))
  | ss_gone j s ps : ps !! j = None → sys_step (MkSystem s ps) (MkSystem s (<[j := Returned false]> ps))   (* cancelled before it joined *)
  | ss_join j work now s ps : ps !! j = None → SFleb work (S754_zero false) = false →
      sys_step (MkSystem s ps) (MkSystem (join now j work s) (<[j := Waiting]> ps))
  | ss_fire now clk s ps d : wake s = Some d → d ≤ now → sys_step (MkSystem s ps) (MkSystem (fire now clk s) ps)
  | ss_done j s ps : ps !! j = Some Waiting → j ∈ closed s → sys_step (MkSystem s ps) (MkSystem s (<[j := Returned true]> ps))
  | ss_leave j now s ps : ps !! j = Some Waiting →    (* the send is received, then the channel is looked at *)
      sys_step (MkSystem s ps) (MkSystem (leave now j s) (<[j := Returned (bool_decide (j ∈ closed s))]> ps)).

(** ** What is kept *)

Lemma share_frame now s : dom (active (settle now s)) = dom (active s) ∧ closed (settle now s) = closed s ∧ wake (settle now s) = wake s.
Proof. unfold settle. destruct (_ || _); [done|]. cbn. by rewrite dom_fmap_L. Qed.

(** The timer is armed exactly while there is work. *)
Definition armed (s : sched) : Prop := wake s = None ↔ active s = ∅.

Lemma reschedule_armed clk s : armed (reschedule clk s).
Proof. unfold armed, reschedule. cbn. by destruct (bool_decide_reflect (active s = ∅)). Qed.

Lemma join_frame now j work s :
  dom (active (join now j work s)) = {[j]} ∪ dom (active s) ∧ closed (join now j work s) = closed s ∧ armed (join now j work s).
Proof.
  unfold join. split_and!; [|by cbn; apply share_frame|apply reschedule_armed].
  cbn. rewrite dom_insert_L. by rewrite (proj1 (share_frame now s)).
Qed.

Lemma leave_frame now j s : armed s →
  dom (active (leave now j s)) = dom (active s) ∖ {[j]} ∧ closed (leave now j s) = closed s ∧ armed (leave now j s).
Proof.
  intros Ha. unfold leave. destruct (active s !! j) eqn:E.
  - split_and!; [|by cbn; apply share_frame|apply reschedule_armed].
    cbn. rewrite dom_delete_L. by rewrite (proj1 (share_frame now s)).
  - apply not_elem_of_dom in E. split_and!; [set_solver|done|done].
Qed.

(** Firing tells a part of the jobs at work, and those leave. *)
Lemma fire_frame now clk s : ∃ over : gset positive, over ⊆ dom (active s)
  ∧ dom (active (fire now clk s)) = dom (active s) ∖ over ∧ closed (fire now clk s) = closed s ∪ over ∧ armed (fire now clk s).
Proof.
  exists (dom (filter (λ kv : positive * float64, finished kv.2 = true) (active (settle now s)))).
  pose proof (share_frame now s) as (Hd & Hc & _). split_and!; [|..|apply reschedule_armed].
  - rewrite <-Hd. apply dom_filter_subseteq.
  - unfold fire. cbn. by rewrite dom_difference_L, Hd.
  - unfold fire. cbn. by rewrite Hc.
Qed.

(** What holds between the jobs at work, the jobs told and the submissions. *)
Record told_apart (work told : gset positive) (ps : gmap positive phase) : Prop := {
  ta_apart j : j ∈ work → j ∉ told;
  ta_active j : j ∈ work → ps !! j = Some Waiting;
  ta_waiting j : ps !! j = Some Waiting → j ∈ work ∨ j ∈ told;
  ta_told j : j ∈ told → ps !! j = Some Waiting ∨ ps !! j = Some (Returned true);
}.
Definition shares_ok (w : system) : Prop := armed (sc w) ∧ told_apart (dom (active (sc w))) (closed (sc w)) (phases w).

Section Apart.
Context (work told : gset positive) (ps : gmap positive phase) (Hta : told_apart work told ps).

Lemma ta_fresh j : ps !! j = None → j ∉ work ∧ j ∉ told.
Proof. intros E. split; intros Hj; [apply (ta_active _ _ _ Hta) in Hj|apply (ta_told _ _ _ Hta) in Hj]; naive_solver congruence. Qed.

(** A submission at work on nothing answers. *)
Lemma ta_return j ok : j ∉ work → (ok = false → j ∉ told) → told_apart work told (<[j := Returned ok]> ps).
Proof.
  intros Hw Hok. constructor; intros k Hk; [by apply (ta_apart _ _ _ Hta)|..];
    destruct (decide (k = j)) as [->|]; rewrite ?lookup_insert_eq, ?lookup_insert_ne in * by done; try done.
  - by apply (ta_active _ _ _ Hta).
  - by apply (ta_waiting _ _ _ Hta).
  - destruct ok; [by right|by destruct (Hok eq_refl)].
  - by apply (ta_told _ _ _ Hta).
Qed.

Lemma ta_join j : ps !! j = None → told_apart ({[j]} ∪ work) told (<[j := Waiting]> ps).
Proof.
  intros E. destruct (ta_fresh j E) as [Hw Ht]. destruct Hta as [H1 H2 H3 H4].
  constructor; intros k Hk; destruct (decide (k = j)) as [->|]; rewrite ?lookup_insert_eq, ?lookup_insert_ne in * by done; try done.
  - apply H1. set_solver.
  - apply H2. set_solver.
  - left. set_solver.
  - destruct (H3 k Hk); [left; set_solver|by right].
  - by apply H4.
Qed.

Lemma ta_fire over : over ⊆ work → told_apart (work ∖ over) (told ∪ over) ps.
Proof.
  intros Ho. destruct Hta as [H1 H2 H3 H4]. constructor; intros k Hk.
  - apply elem_of_difference in Hk as [Hk Hn]. intros [Ht|?]%elem_of_union; [by apply (H1 k)|done].
  - apply H2. by apply elem_of_difference in Hk as [Hk Hn].
  - destruct (decide (k ∈ over)); [set_solver|]. destruct (H3 k Hk); set_solver.
  - apply elem_of_union in Hk as [Hk|Hk]; [by apply H4|left; by apply H2, Ho].
Qed.

Lemma ta_leave j : told_apart (work ∖ {[j]}) told (<[j := Returned (bool_decide (j ∈ told))]> ps).
Proof.
  destruct Hta as [H1 H2 H3 H4].
  constructor; intros k Hk; try (apply elem_of_difference in Hk as [Hk Hn]);
    [by apply H1|..]; destruct (decide (k = j)) as [->|]; rewrite ?lookup_insert_eq, ?lookup_insert_ne in * by done; try done.
  - set_solver.
  - by apply H2.
  - destruct (H3 k Hk); [left; set_solver|by right].
  - right. by rewrite bool_decide_eq_true_2.
  - by apply H4.
Qed.
End Apart.

Lemma shares_step w w' : shares_ok w → sys_step w w' → shares_ok w'.
Proof.
  intros [Ha Hta]. inversion 1; subst; cbn in *.
  - split; [done|]. destruct (ta_fresh _ _ _ Hta j); [done|]. by apply ta_return.
  - split; [done|]. destruct (ta_fresh _ _ _ Hta j); [done|]. by apply ta_return.
  - destruct (join_frame now j work s) as (Hd & Hc & Har). split; [done|]. cbn. rewrite Hd, Hc. by apply ta_join.
  - destruct (fire_frame now clk s) as (over & Ho & Hd & Hc & Har). split; [done|]. cbn. rewrite Hd, Hc. by apply ta_fire.
  - split; [done|]. apply ta_return; [done| |done]. intros Hj. by apply (ta_apart _ _ _ Hta j).
  - destruct (leave_frame now j s Ha) as (Hd & Hc & Har). split; [done|]. cbn. rewrite Hd, Hc. by apply ta_leave.
Qed.

(** whatever order requests join, leave and are woken in, from an idle instance: the one timer is armed exactly
    while work is left; a job at work has not been told it is done, and its request is still waiting; a waiting request
    is either at work or already told, so none is forgotten; and a job told is never answered [false], so a request
    that gave its place up is never counted as finished, nor one that finished as cancelled. *)
Theorem shares_exact (now : Z) (w : system) : rtc sys_step (MkSystem (new_sched now) ∅) w →
  (wake (sc w) = None ↔ active (sc w) = ∅)
  ∧ (∀ j, j ∈ dom (active (sc w)) → j ∉ closed (sc w) ∧ phases w !! j = Some Waiting)
  ∧ (∀ j, phases w !! j = Some Waiting → j ∈ dom (active (sc w)) ∨ j ∈ closed (sc w))
  ∧ (∀ j, phases w !! j = Some (Returned false) → j ∉ dom (active (sc w)) ∧ j ∉ closed (sc w)).
Proof.
  intros Hr. assert (shares_ok w) as [Ha [H1 H2 H3 H4]].
  { refine (rtc_ind_r (λ w, shares_ok w) _ _ _ w Hr); [|by intros y z _ Hs Hy; apply (shares_step y)].
    split; [done|]. constructor; intros j Hj; by try apply elem_of_empty in Hj. }
  split; [done|]. split_and!; intros j Hj; [by split; [apply H1|apply H2]|by apply H3|].
  split; intros Hi; [apply H2 in Hi|apply H4 in Hi]; naive_solver congruence.
Qed.

Module ShareEx.

(** Two seconds' worth of work between two requests: each takes two, and both are told at once. *)
Definition two : sched := join 0 2 (f64_of_Z 1) (join 0 1 (f64_of_Z 1) (new_sched 0)).

Example armed_for_two : wake two = Some (2 * ns_per_second).
Proof. by vm_compute. Qed.

Example both_told : let s := fire (2 * ns_per_second) (2 * ns_per_second) two in
  active s = ∅ ∧ wake s = None ∧ closed s = {[1; 2]}%positive.
Proof. cbv zeta. split_and!; by vm_compute. Qed.

(** A request that arrives half way halves the rate of the one at work, and leaving gives it back. *)
Example joined_late : let s := join 500000000 2 (f64_of_Z 5) (join 0 1 (f64_of_Z 1) (new_sched 0)) in
  wake s = Some 1500000000 ∧ wake (leave 1000000000 2 s) = Some 1250000000.
Proof. split; by vm_compute. Qed.

Lemma shares_exact_witness :
  wake (join 0 1 (f64_of_Z 1) (new_sched 0)) = None ↔ active (join 0 1 (f64_of_Z 1) (new_sched 0)) = ∅.
Proof.
  refine (proj1 (shares_exact 0 (MkSystem (join 0 1 (f64_of_Z 1) (new_sched 0)) (<[1%positive := Waiting]> ∅)) _)).
  apply rtc_once, (ss_join _ _ 0); [done|by vm_compute].
Defined.

End ShareEx.
