(* ===== verification/PrefillEstimate.v ===== *)
(** * PrefillEstimate: what share of a replayed workload would be prefilled elsewhere

    [src/benchmark/prefill_split.go] over [synthText] ([replay_router_wire.go]), and the report
    built on it ([src/cli/command_router_prefill_split.go]).  Each request of a replay is
    rebuilt as blocks of the router's size, out of text synthesised from the hashes the replay
    keeps, and scored against one trie; what a block becomes is kept in an LRU cache.  The
    corpus the text is cut from is an argument.  The theorems say that the report is the one
    a definition without trie, cache or report state gives. *)

From stdpp Require Import base gmap list strings pretty sorting.
From Stdlib Require Import ZArith Lia.
From S2P Require Import Prelude KvUnits StreamScan GoText KvTrie KvCache Retention ReplayStore.
Open Scope Z_scope.

(** ** Synthesised text *)

Section estimate.
Context (sha256 : bytes → bytes).

Definition hashOffset (seed : bytes) (mod_ : Z) : Z := if mod_ <=? 0 then 0 else BigEndianUint64 (sha256 seed) mod mod_.

(** The loop that fills the builder [b] from [docs] at [off]; every round adds a byte, so [n] rounds suffice. *)
Fixpoint synth_loop (fuel n : nat) (docs : bytes) (off : nat) (b : bytes) : bytes :=
  match fuel with
  | O => b
  | S f =>
      if decide (length b < n)%nat then
        let want := (n - length b)%nat in
        let '(off, room) := if decide (length docs ≤ off)%nat then (0, length docs)%nat else (off, length docs - off)%nat in
        let k := if decide (room < want)%nat then room else want in
        synth_loop f n docs (off + k) (b ++ take k (drop off docs))
      else b
  end.
(** [base] repeated, when there is no corpus. *)
Definition fallback (seed : bytes) (n : Z) : bytes :=
  let base := match seed with [] => [120] | _ => seed end in
  take (Z.to_nat n) (mjoin (replicate (Z.to_nat (n ÷ Z.of_nat (length base) + 1)) base)).
Definition synthText (seed : bytes) (n : Z) (docs : bytes) : bytes :=
  if n <=? 0 then []
  else match docs with
       | [] => fallback seed n
       | _ => take (Z.to_nat n) (synth_loop (Z.to_nat n) (Z.to_nat n) docs (Z.to_nat (hashOffset seed (Z.of_nat (length docs)))) [])
       end.

(** ** The cache of synthesised blocks *)

(** [ll] from the most to the least recently used; an element is named by its key, under
    which [items] finds it. *)
Record PrefillUnitCache := MkUnitCache { cap : Z; ll : list bytes; items : gmap bytes (list Unit_) }.
Definition DefaultPrefillUnitCacheCap : Z := 50000.
Definition NewPrefillUnitCacheSize (cap : Z) : PrefillUnitCache :=
  MkUnitCache (if cap <=? 0 then DefaultPrefillUnitCacheCap else cap) [] ∅.
Definition NewPrefillUnitCache : PrefillUnitCache := NewPrefillUnitCacheSize DefaultPrefillUnitCacheCap.

Definition MoveToFront (k : bytes) (l : list bytes) : list bytes := k :: filter (λ x, x ≠ k) l.
Definition cache_get (c : option PrefillUnitCache) (k : bytes) : option (list Unit_) * option PrefillUnitCache :=
  match c with
  | None => (None, None)
  | Some c => match items c !! k with
              | None => (None, Some c)
              | Some us => (Some us, Some (MkUnitCache (cap c) (MoveToFront k (ll c)) (items c)))
              end
  end.
(** Over its bound the last of the list goes. *)
Definition evict_oldest (c : PrefillUnitCache) : PrefillUnitCache :=
  if cap c <? Z.of_nat (length (ll c)) then
    match last (ll c) with
    | Some k => MkUnitCache (cap c) (take (length (ll c) - 1) (ll c)) (delete k (items c))
    | None => c
    end
  else c.
Definition cache_put (c : option PrefillUnitCache) (k : bytes) (us : list Unit_) : option PrefillUnitCache :=
  match c with
  | None => None
  | Some c => match items c !! k with
              | Some _ => Some (MkUnitCache (cap c) (MoveToFront k (ll c)) (<[k := us]> (items c)))
              | None => Some (evict_oldest (MkUnitCache (cap c) (k :: ll c) (<[k := us]> (items c))))
              end
  end.

(** ** A request in router blocks *)

Definition block_key (tag hash : bytes) (n : Z) : bytes := tag ++ [58] ++ hash ++ [58] ++ Itoa n.
Definition block_units (docs tag hash : bytes) (n : Z) : list Unit_ :=
  if n <=? 0 then [MkUnit (HashLabel sha256 hash) 1]
  else ChunkContent sha256 tag (synthText hash n docs) DefaultChunkBytes.
(** The closure [add]. *)
Definition add_block (docs : bytes) (a : list Unit_ * option PrefillUnitCache) (s : bytes * block) : list Unit_ * option PrefillUnitCache :=
  let '(units, c) := a in let '(tag, b) := s in
  let key := block_key tag (b_hash b) (b_bytes b) in
  match cache_get c key with
  | (Some u, c) => (units ++ u, c)
  | (None, c) => let u := block_units docs tag (b_hash b) (b_bytes b) in (units ++ u, cache_put c key u)
  end.
(** What is added, in cache order. *)
Definition segments (q : RouterReplayRequest) : list (bytes * block) :=
  (pair (lit "system") <$> effectiveSystemBlocks (q_system q)) ++ (pair (lit "tools") <$> tools_prefix (q_tools q))
  ++ (pair (lit "message") <$> q_messages q).
Definition prefillBlockUnits (q : RouterReplayRequest) (docs : bytes) (c : option PrefillUnitCache) : list Unit_ * option PrefillUnitCache :=
  foldl (add_block docs) ([], c) (segments q).

(** ** The simulation *)

Record PrefillBlockStat := MkStat { Cov : Coverage; InputTokens : Z }.

(** From matched tokens back to matched blocks, [acc] tokens in. *)
Fixpoint matched_blocks (units : list Unit_) (cachedTokens acc : Z) : Z :=
  match units with
  | [] => 0
  | u :: us => if cachedTokens <=? acc then 0 else 1 + matched_blocks us cachedTokens (acc + Tokens u)
  end.
Record sim := MkSim { s_trie : Trie; s_cache : option PrefillUnitCache; s_out : list PrefillBlockStat }.
Definition score (docs : bytes) (s : sim) (q : RouterReplayRequest) : sim :=
  let '(units, c) := prefillBlockUnits q docs (s_cache s) in
  match units with
  | [] => MkSim (s_trie s) c (s_out s ++ [MkStat (MkCoverage 0 0 0 0) (q_input q)])
  | _ => let '(cachedTokens, _, t) := RecordAndCount units (s_trie s) in
         MkSim t c (s_out s ++ [MkStat (Cover units (matched_blocks units cachedTokens 0)) (q_input q)])
  end.
Definition SimulatePrefillBlocks (qs : list RouterReplayRequest) (docs : bytes) (cfg : Config) (c : option PrefillUnitCache)
  : list PrefillBlockStat * option PrefillUnitCache :=
  let s := foldl (score docs) (MkSim (New cfg) c []) qs in (s_out s, s_cache s).

(** ** The report at one threshold *)

Record PrefillSplitReport := MkSplitReport {
  MinMissingBlocks : Z; NRequests : Z; PrefillRequests : Z;
  TotalInputTokens : Z; PrefillInputTokens : Z; TotalMissingTokens : Z; PrefillMissingTokens : Z;
}.
Definition count_stat (min : Z) (r : PrefillSplitReport) (s : PrefillBlockStat) : PrefillSplitReport :=
  let missing := MissingTokens (Cov s) in
  let over := min <? MissingBlocks (Cov s) in
  MkSplitReport (MinMissingBlocks r) (NRequests r)
    (if over then PrefillRequests r + 1 else PrefillRequests r)
    (i64 (TotalInputTokens r + InputTokens s))
    (if over then i64 (PrefillInputTokens r + InputTokens s) else PrefillInputTokens r)
    (i64 (TotalMissingTokens r + missing))
    (if over then i64 (PrefillMissingTokens r + missing) else PrefillMissingTokens r).
Definition AggregatePrefillSplit (stats : list PrefillBlockStat) (min : Z) : PrefillSplitReport :=
  foldl (count_stat min) (MkSplitReport min (Z.of_nat (length stats)) 0 0 0 0 0) stats.

Definition ratio (a b : Z) : float64 := if b =? 0 then f64_of_Z 0 else f64_div (f64_of_Z a) (f64_of_Z b).
Definition RequestShare (r : PrefillSplitReport) : float64 := ratio (PrefillRequests r) (NRequests r).
Definition InputTokenShare (r : PrefillSplitReport) : float64 := ratio (PrefillInputTokens r) (TotalInputTokens r).
Definition MissingTokenShare (r : PrefillSplitReport) : float64 := ratio (PrefillMissingTokens r) (TotalInputTokens r).

(** ** The command *)

Definition prefillSensitivityThresholds : list Z := [1; 2; 4; 8; 16; 32].
Record prefillSplitOutput := MkSplitOutput {
  o_min : Z; o_max : Z; Headline : PrefillSplitReport; PerModel : gmap string PrefillSplitReport;
  Sensitivity : list PrefillSplitReport; MissingBlocksOf : list Z;
}.
Definition cacheCfg (maxTokens : Z) : Config := if 0 <? maxTokens then MkConfig 0 maxTokens 0 else MkConfig 0 0 0.
(** The loop over the models: the cache is handed on from each to the next. *)
Definition split_model (docs : bytes) (min maxTokens : Z) (byModel : gmap string (list RouterReplayRequest))
    (a : list PrefillBlockStat * gmap string PrefillSplitReport * option PrefillUnitCache) (m : string) :=
  let '(all, per, c) := a in
  let '(stats, c) := SimulatePrefillBlocks (default [] (byModel !! m)) docs (cacheCfg maxTokens) c in
  (all ++ stats, <[m := AggregatePrefillSplit stats min]> per, c).
Definition computePrefillSplit (docs : bytes) (min maxTokens : Z) (models : list string) (byModel : gmap string (list RouterReplayRequest)) : prefillSplitOutput :=
  let '(all, per, _) := foldl (split_model docs min maxTokens byModel) ([], ∅, Some NewPrefillUnitCache) models in
  MkSplitOutput min maxTokens (AggregatePrefillSplit all min) per
    (AggregatePrefillSplit all <$> prefillSensitivityThresholds) ((λ s, MissingBlocks (Cov s)) <$> all).
End estimate.
#[local] Arguments MoveToFront : simpl never.

Definition hist_bounds : list Z := [0; 1; 2; 3; 4; 8; 16; 32; 64].
(** The first [i] with [v < bounds[i+1]], or the last bucket. *)
Fixpoint hist_index (bounds : list Z) (v : Z) : nat :=
  match bounds with
  | _ :: (b :: _) as rest => if v <? b then 0%nat else S (hist_index rest v)
  | _ => 0%nat
  end.
Definition prefillHistogram (vals : list Z) : list Z :=
  foldl (λ counts v, alter (Z.add 1) (hist_index hist_bounds v) counts) (replicate 9 0) vals.

(** ** Synthesised text is the corpus, read round and round *)

Lemma synth_loop_spec (docs : bytes) (n fuel off : nat) (b : bytes) :
  docs ≠ [] → (off ≤ length docs)%nat → (length b ≤ n)%nat → (n ≤ fuel + length b)%nat →
  length (synth_loop fuel n docs off b) = n ∧
  ∀ k, (k < n)%nat → synth_loop fuel n docs off b !! k
    = if decide (k < length b)%nat then b !! k else docs !! ((off + (k - length b)) `mod` length docs)%nat.
Proof.
  intros Hd. assert (HL : (0 < length docs)%nat) by (by destruct docs; [|cbn; lia]). revert off b.
  induction fuel as [|f IH]; intros off b Hoff Hb Hf; cbn [synth_loop].
  { split; [lia|]. intros k Hk. by rewrite decide_True by lia. }
  destruct (decide (length b < n)%nat) as [Hlt|]; [|split; [lia|intros k Hk; by rewrite decide_True by lia]].
  set (off' := if decide (length docs ≤ off)%nat then 0%nat else off).
  assert (Hoff' : (off' < length docs)%nat) by (unfold off'; case_decide; lia).
  assert (Hmod : ∀ i, ((off + i) `mod` length docs = (off' + i) `mod` length docs)%nat).
  { intros i. unfold off'. case_decide; [|done]. assert (off = length docs) as -> by lia.
    rewrite Nat.add_comm. rewrite <-(Nat.mul_1_l (length docs)) at 1. by rewrite Nat.Div0.mod_add. }
  replace (if decide (length docs ≤ off)%nat then (0, length docs)%nat else (off, length docs - off)%nat) with (off', length docs - off')%nat
    by (unfold off'; case_decide; f_equal; lia).
  set (k0 := if decide (length docs - off' < n - length b)%nat then (length docs - off')%nat else (n - length b)%nat).
  assert (Hk0 : (0 < k0 ≤ length docs - off')%nat ∧ (k0 ≤ n - length b)%nat) by (unfold k0; case_decide; lia).
  assert (Hlb : length (b ++ take k0 (drop off' docs)) = (length b + k0)%nat) by (rewrite length_app, length_take, length_drop; lia).
  destruct (IH (off' + k0)%nat (b ++ take k0 (drop off' docs))) as [H1 H2]; [lia|lia|lia|]. split; [done|].
  intros k Hk. rewrite H2, Hlb by done. destruct (decide (k < length b)%nat).
  - rewrite decide_True by lia. by rewrite lookup_app_l by lia.
  - rewrite Hmod. destruct (decide (k < length b + k0)%nat).
    + rewrite lookup_app_r, lookup_take_lt, lookup_drop by lia. f_equal. by rewrite Nat.mod_small by lia.
    + do 2 f_equal. lia.
Qed.

Lemma hashOffset_range sha256 seed n : 0 < n → 0 ≤ hashOffset sha256 seed n < n.
Proof. intros Hn. unfold hashOffset. rewrite (proj2 (Z.leb_gt n 0)) by lia. by apply Z.mod_pos_bound. Qed.

Lemma replicate_bytes (k : nat) (base : bytes) : length (mjoin (replicate k base)) = (k * length base)%nat.
Proof. induction k as [|k IH]; [done|]. change (mjoin (replicate (S k) base)) with (base ++ mjoin (replicate k base)). by rewrite length_app, IH. Qed.

Lemma fallback_length seed n : 0 < n → length (fallback seed n) = Z.to_nat n.
Proof.
  intros Hn. unfold fallback. set (base := match seed with [] => [120] | _ => seed end).
  assert (Hb : (0 < length base)%nat) by (unfold base; destruct seed; cbn; lia).
  rewrite length_take, replicate_bytes, Z.quot_div_nonneg by lia.
  pose proof (Z.div_mod n (Z.of_nat (length base))). pose proof (Z.mod_pos_bound n (Z.of_nat (length base))). pose proof (Z.div_pos n (Z.of_nat (length base))). nia.
Qed.

(** what stands in for a redacted block has exactly the block's size, depends on nothing
    but its hash, and is the corpus read round and round from the place the hash picks. *)
Theorem synth_text_exact (sha256 : bytes → bytes) (seed docs : bytes) (n : Z) (Hn : 0 < n) :
  length (synthText sha256 seed n docs) = Z.to_nat n ∧
  (docs ≠ [] → ∀ k, (k < Z.to_nat n)%nat → synthText sha256 seed n docs !! k
     = docs !! ((Z.to_nat (hashOffset sha256 seed (Z.of_nat (length docs))) + k) `mod` length docs)%nat).
Proof.
  unfold synthText. rewrite (proj2 (Z.leb_gt n 0)) by lia. destruct docs as [|d docs]; [split; [by apply fallback_length|done]|].
  pose proof (hashOffset_range sha256 seed (Z.of_nat (length (d :: docs)))) as Hh.
  destruct (synth_loop_spec (d :: docs) (Z.to_nat n) (Z.to_nat n) (Z.to_nat (hashOffset sha256 seed (Z.of_nat (length (d :: docs))))) []) as [H1 H2];
    [done|cbn in *; lia|cbn; lia|cbn; lia|].
  split; [rewrite length_take; lia|]. intros _ k Hk. rewrite lookup_take_lt, H2 by done. rewrite decide_False by (cbn; lia). cbn [length]. by rewrite Nat.sub_0_r.
Qed.

(** ** The cache changes nothing *)

Lemma key_inj tag tag' h h' n n' : 58 ∉ tag → 58 ∉ tag' → block_key tag h n = block_key tag' h' n' → tag = tag' ∧ h = h' ∧ n = n'.
Proof.
  unfold block_key. cbn [app]. intros Ht Ht' [-> H]%split_left; [|done..].
  apply split_right in H as [-> H]; [|apply Itoa_no_colon..]. by apply Itoa_inj in H.
Qed.

Section memo.
Context (sha256 : bytes → bytes) (docs : bytes).

(** What the cache holds for a key is what the key's block becomes. *)
Record cache_good (c : PrefillUnitCache) : Prop := {
  cg_units k us : items c !! k = Some us → ∃ tag h n, 58 ∉ tag ∧ k = block_key tag h n ∧ us = block_units sha256 docs tag h n;
  cg_nodup : NoDup (ll c);
  cg_listed k : k ∈ ll c ↔ is_Some (items c !! k);
  cg_bound : Z.of_nat (length (ll c)) ≤ cap c;
}.

Lemma new_good n : cache_good (NewPrefillUnitCacheSize n).
Proof.
  constructor; cbn; [by intros|constructor| |].
  - intros k. rewrite lookup_empty. split; [by intros ?%elem_of_nil|by intros [? ?]].
  - destruct (Z.leb_spec n 0); unfold DefaultPrefillUnitCacheCap; lia.
Qed.

Lemma front_perm k l : NoDup l → k ∈ l → MoveToFront k l ≡ₚ l.
Proof.
  intros Hn Hk. unfold MoveToFront. apply list_elem_of_split in Hk as (a & b & ->).
  rewrite filter_app, filter_cons_False by (by intros ?).
  apply NoDup_app in Hn as (Ha & Hd & [Hb1 Hb2]%NoDup_cons).
  assert (Hf : ∀ l : list bytes, k ∉ l → filter (λ x, x ≠ k) l = l).
  { intros l. induction l as [|x l IH]; [done|]. intros [? ?]%not_elem_of_cons. rewrite filter_cons_True by done. by rewrite IH. }
  rewrite !Hf; [|done|]. { by rewrite Permutation_middle. } intros H. apply (Hd _ H). by left.
Qed.

Lemma get_good c k : cache_good c → ∃ c', cache_get (Some c) k = (items c !! k, Some c') ∧ cache_good c' ∧ items c' = items c ∧ cap c' = cap c.
Proof.
  intros Hg. pose proof Hg as [H1 H2 H3 H4]. unfold cache_get. destruct (items c !! k) as [us|] eqn:E; [|by exists c].
  eexists. split; [done|]. assert (Hp : MoveToFront k (ll c) ≡ₚ ll c) by (apply front_perm; [done|apply H3; by eexists]).
  split; [|done]. constructor; cbn; [done|by rewrite Hp| |by rewrite Hp]. intros x. by rewrite Hp.
Qed.

Lemma put_good c tag h n : cache_good c → 58 ∉ tag → items c !! block_key tag h n = None →
  ∃ c', cache_put (Some c) (block_key tag h n) (block_units sha256 docs tag h n) = Some c' ∧ cache_good c' ∧ cap c' = cap c.
Proof.
  intros [H1 H2 H3 H4] Ht E. unfold cache_put. rewrite E. eexists. split; [done|].
  set (k := block_key tag h n) in *. assert (Hk : k ∉ ll c) by (rewrite H3, E; by intros [? ?]).
  unfold evict_oldest. cbn [cap ll items length]. destruct (Z.ltb_spec (cap c) (Z.of_nat (S (length (ll c))))) as [Hlt|Hlt].
  - destruct (last (k :: ll c)) as [z|] eqn:Ez; [|by rewrite last_None in Ez]. apply last_Some in Ez as [l Hl].
    rewrite Hl. assert (Hlen : length (l ++ [z]) = S (length (ll c))) by (rewrite <-Hl; done).
    assert (Hln : length l = length (ll c)) by (rewrite length_app in Hlen; cbn in Hlen; lia).
    replace (S (length (ll c)) - 1)%nat with (length l) by lia. rewrite take_app_length.
    assert (Hnd : NoDup (l ++ [z])) by (rewrite <-Hl; by constructor). apply NoDup_app in Hnd as (Hnl & Hd & _).
    assert (Hzl : z ∉ l) by (intros Hz; apply (Hd z Hz); by left).
    split; [|done]. constructor; cbn [items ll cap]; [|done| |lia].
    + intros k' us [Hne Hin]%lookup_delete_Some. apply lookup_insert_Some in Hin as [[<- <-]|[_ Hin]]; [by exists tag, h, n|by apply H1].
    + intros x. assert (Hx : x ∈ k :: ll c ↔ x ∈ l ++ [z]) by (by rewrite Hl). rewrite elem_of_cons, elem_of_app, list_elem_of_singleton in Hx.
      destruct (decide (x = z)) as [->|Hxz]; [rewrite lookup_delete_eq; split; [done|by intros [? ?]]|]. rewrite lookup_delete_ne by done.
      destruct (decide (x = k)) as [->|Hxk]; [rewrite lookup_insert_eq; split; [by eexists|tauto]|]. rewrite lookup_insert_ne by done. rewrite <-H3. tauto.
  - split; [|done]. constructor; cbn [items ll cap length]; [|by constructor| |lia].
    + intros k' us [[<- <-]|[_ Hin]]%lookup_insert_Some; [by exists tag, h, n|by apply H1].
    + intros x. rewrite elem_of_cons. destruct (decide (x = k)) as [->|Hxk]; [rewrite lookup_insert_eq; split; [by eexists|by left]|].
      rewrite lookup_insert_ne by done. rewrite <-H3. tauto.
Qed.

(** A cache, present or not, that may be handed to the simulation. *)
Definition usable (c : option PrefillUnitCache) : Prop := match c with Some c => cache_good c | None => True end.

(** What a request becomes, with nothing remembered. *)
Definition fresh_units (ss : list (bytes * block)) : list Unit_ := mjoin ((λ s, block_units sha256 docs s.1 (b_hash s.2) (b_bytes s.2)) <$> ss).

Lemma add_block_memo us c tag b : usable c → 58 ∉ tag →
  ∃ c', add_block sha256 docs (us, c) (tag, b) = (us ++ block_units sha256 docs tag (b_hash b) (b_bytes b), c') ∧ usable c' ∧ (cap <$> c') = (cap <$> c).
Proof.
  intros Hc Ht. unfold add_block. destruct c as [c|]; [|by exists None].
  destruct (get_good c (block_key tag (b_hash b) (b_bytes b)) Hc) as (c' & -> & Hg & Hi & Hcap).
  destruct (items c !! _) as [u|] eqn:E.
  - exists (Some c'). split; [|split; [done|cbn; by rewrite Hcap]]. do 2 f_equal.
    destruct (cg_units _ Hc _ _ E) as (tag' & h & n & Ht' & Hk & ->). by apply key_inj in Hk as (-> & -> & ->).
  - rewrite <-Hi in E. destruct (put_good c' tag (b_hash b) (b_bytes b) Hg Ht E) as (c'' & -> & Hg' & Hcap'). exists (Some c''). split; [done|]. split; [done|]. cbn. by rewrite Hcap', Hcap.
Qed.

Lemma prefillBlockUnits_memo q c : usable c →
  ∃ c', prefillBlockUnits sha256 q docs c = (fresh_units (segments q), c') ∧ usable c' ∧ (cap <$> c') = (cap <$> c).
Proof.
  unfold prefillBlockUnits. assert (Hss : ∀ s, s ∈ segments q → 58 ∉ s.1).
  { intros s. unfold segments. rewrite !elem_of_app, !list_elem_of_fmap. intros [(b & -> & _)|[(b & -> & _)|(b & -> & _)]]; cbn [fst]; by apply (bool_decide_unpack _). }
  revert Hss. change (fresh_units (segments q)) with ([] ++ fresh_units (segments q)). generalize (segments q), ([] : list Unit_). intros ss.
  revert c. induction ss as [|[tag b] ss IH]; intros c us Hss Hc; [exists c; cbn; by rewrite app_nil_r|]. cbn [foldl].
  destruct (add_block_memo us c tag b Hc (Hss (tag, b) (list_elem_of_here _ _))) as (c' & -> & Hc' & Hcap).
  destruct (IH c' (us ++ block_units sha256 docs tag (b_hash b) (b_bytes b))) as (c'' & -> & Hc'' & Hcap''); [by intros s Hs; apply Hss; right|done|].
  exists c''. split; [|split; [done|by rewrite Hcap'']]. by rewrite <-app_assoc.
Qed.
End memo.

(** ** What a request finds *)

(** How long two sequences of hashes agree. *)
Fixpoint lcp (a b : list Z) : nat := match a, b with x :: a, y :: b => if x =? y then S (lcp a b) else 0%nat | _, _ => 0%nat end.

Lemma lcp_le a b : (lcp a b ≤ length a)%nat.
Proof. revert b. induction a as [|x a IH]; intros [|y b]; cbn; [lia..|]. destruct (x =? y); [|lia]. specialize (IH b). lia. Qed.
Lemma lcp_prefix a b : take (lcp a b) a `prefix_of` b.
Proof.
  revert b. induction a as [|x a IH]; intros [|y b]; cbn; [done|apply prefix_nil..|].
  destruct (Z.eqb_spec x y) as [->|]; [by apply prefix_cons|apply prefix_nil].
Qed.
Lemma lcp_most a b k : (k ≤ length a)%nat → take k a `prefix_of` b → (k ≤ lcp a b)%nat.
Proof.
  revert b k. induction a as [|x a IH]; intros b [|k] Hk Hp; cbn in *; [lia..|].
  destruct b as [|y b]; [by apply prefix_nil_not in Hp|]. pose proof (prefix_cons_inv_1 _ _ _ _ Hp) as ->.
  rewrite Z.eqb_refl. apply prefix_cons_inv_2 in Hp. specialize (IH b k ltac:(lia) Hp). lia.
Qed.

(** The longest prefix of a request that one before it had. *)
Definition warm (seen : list (list Unit_)) (us : list Unit_) : nat := max_list ((λ r, lcp (Hash <$> us) (Hash <$> r)) <$> seen).

Lemma max_list_in (l : list nat) : max_list l = 0%nat ∨ max_list l ∈ l.
Proof. induction l as [|x l [IH|IH]]; cbn; [by left|rewrite IH, Nat.max_0_r; right; left|]. destruct (Nat.max_spec x (max_list l)) as [[_ ->]|[_ ->]]; right; [by right|by left]. Qed.
Lemma max_list_ge (l : list nat) x : x ∈ l → (x ≤ max_list l)%nat.
Proof. induction l as [|y l IH]; [by intros ?%elem_of_nil|]. intros [->|H]%elem_of_cons; cbn; [lia|]. specialize (IH H). lia. Qed.

Lemma warm_is seen us m : (m ≤ length us)%nat →
  (m = 0%nat ∨ ∃ r, r ∈ seen ∧ (Hash <$> take m us) `prefix_of` (Hash <$> r)) →
  ((m < length us)%nat → ∀ r, r ∈ seen → ¬ (Hash <$> take (S m) us) `prefix_of` (Hash <$> r)) → warm seen us = m.
Proof.
  intros Hm Hh Hmax. unfold warm. set (f := λ r : list Unit_, lcp (Hash <$> us) (Hash <$> r)). apply Nat.le_antisymm.
  - destruct (max_list_in (f <$> seen)) as [->|(r & Hr & Hin)%list_elem_of_fmap]; [lia|]. rewrite Hr. clear Hr.
    apply Nat.nlt_ge. intros Hlt. pose proof (lcp_le (Hash <$> us) (Hash <$> r)) as Hle. fold (f r) in Hle. rewrite length_fmap in Hle.
    apply (Hmax ltac:(lia) r Hin). rewrite fmap_take. pose proof (lcp_prefix (Hash <$> us) (Hash <$> r)) as Hp. fold (f r) in Hp.
    etrans; [|exact Hp]. exists (drop (S m) (take (f r) (Hash <$> us))). rewrite <-(take_drop (S m) (take (f r) _)) at 1. by rewrite take_take, Nat.min_l by lia.
  - destruct Hh as [->|(r & Hin & Hp)]; [lia|]. etrans; [|apply max_list_ge, list_elem_of_fmap; by exists r].
    apply lcp_most; [by rewrite length_fmap|by rewrite <-fmap_take].
Qed.

(** Back from tokens to blocks: no token count is met in the middle of a block. *)
Lemma matched_blocks_spec us : (∀ u, u ∈ us → 1 ≤ Tokens u) → ∀ m acc, (m ≤ length us)%nat →
  matched_blocks us (acc + sum_tokens (take m us)) acc = Z.of_nat m.
Proof.
  induction us as [|u us IH]; intros Hu m acc Hm; cbn in Hm; [by replace m with 0%nat by lia|].
  assert (H1 : 1 ≤ Tokens u) by (apply Hu; left). assert (Hus : ∀ u, u ∈ us → 1 ≤ Tokens u) by (intros x Hx; apply Hu; by right).
  destruct m as [|m]; cbn [matched_blocks take]; [cbn; by rewrite (proj2 (Z.leb_le _ _)) by lia|].
  change (sum_tokens (u :: take m us)) with (Tokens u + sum_tokens (take m us)).
  assert (0 ≤ sum_tokens (take m us)) by (apply sum_tokens_nonneg; intros x Hx%subseteq_take; specialize (Hus x Hx); lia).
  rewrite (proj2 (Z.leb_gt _ _)) by lia. rewrite Z.add_assoc, IH by (done || lia). lia.
Qed.

Section simulation.
Context (sha256 : bytes → bytes) (docs : bytes).
Abbreviation units_for q := (fresh_units sha256 docs (segments q)).

Lemma block_tokens tag h n u : u ∈ block_units sha256 docs tag h n → 1 ≤ Tokens u.
Proof.
  unfold block_units. destruct (Z.leb_spec n 0); [by intros ->%list_elem_of_singleton|].
  assert (Hne : synthText sha256 h n docs ≠ []).
  { intros E. assert (Hl : length (synthText sha256 h n docs) = Z.to_nat n); [|rewrite E in Hl; cbn in Hl; lia].
    unfold synthText. rewrite (proj2 (Z.leb_gt n 0)) by lia. destruct docs as [|d ds] eqn:Ed; [by apply fallback_length|]. rewrite <-Ed.
    pose proof (hashOffset_range sha256 h (Z.of_nat (length docs)) ltac:(rewrite Ed; cbn; lia)).
    destruct (synth_loop_spec docs (Z.to_nat n) (Z.to_nat n) (Z.to_nat (hashOffset sha256 h (Z.of_nat (length docs)))) []) as [H1 _]; [by rewrite Ed|lia|cbn; lia|cbn; lia|].
    rewrite length_take. lia. }
  intros [j Hj]%list_elem_of_lookup_1. rewrite ChunkContent_lookup in Hj by (done || unfold DefaultChunkBytes; lia).
  case_decide as Hlt; [|done]. injection Hj as <-. cbn [Tokens window_unit].
  unfold window. change (Z.to_nat DefaultChunkBytes) with 1024%nat in *. apply EstimateTokens_bounds; unfold two31; rewrite length_take, length_drop; lia.
Qed.
Lemma request_tokens q u : u ∈ units_for q → 1 ≤ Tokens u.
Proof. unfold fresh_units. intros (l & Hu & (s & -> & _)%list_elem_of_fmap)%list_elem_of_join. by eapply block_tokens. Qed.

(** What the simulation should report, without a trie: each request against all before it. *)
Fixpoint ideal (seen : list (list Unit_)) (qs : list RouterReplayRequest) : list PrefillBlockStat :=
  match qs with
  | [] => []
  | q :: qs => MkStat (Cover (units_for q) (Z.of_nat (warm seen (units_for q)))) (q_input q) :: ideal (seen ++ [units_for q]) qs
  end.

Definition told (seen : list (list Unit_)) : Retention.history := fmap (M := list) (λ us : list Unit_, (0, Hash <$> us)) seen.

Lemma score_ideal s seen q : learnt (s_trie s) (told seen) → usable sha256 docs (s_cache s) →
  ∃ t c, score sha256 docs s q = MkSim t c (s_out s ++ [MkStat (Cover (units_for q) (Z.of_nat (warm seen (units_for q)))) (q_input q)])
    ∧ learnt t (told (seen ++ [units_for q])) ∧ usable sha256 docs c ∧ (cap <$> c) = (cap <$> s_cache s).
Proof.
  intros Hl Hc. unfold score. destruct (prefillBlockUnits_memo sha256 docs q (s_cache s) Hc) as (c' & -> & Hc' & Hcap).
  pose proof (request_tokens q) as Htok. destruct (units_for q) as [|u us] eqn:Eu.
  - assert (Hw : warm seen [] = 0%nat) by (apply warm_is; [done|by left|cbn; lia]). rewrite Hw.
    exists (s_trie s), c'. split; [done|]. split_and!; [|done..]. unfold told. rewrite fmap_app. destruct Hl as (H1 & H2 & H3). split_and!; [done..|].
    intros ks. rewrite H3. split; [intros [?|(r & Hr & Hk)]; [by left|right; exists r; rewrite elem_of_app; auto]|].
    intros [?|(r & [Hr|Hr%list_elem_of_singleton]%elem_of_app & Hk)]; [by left|right; eauto|left]. subst r. by apply prefix_nil_inv in Hk.
  - rewrite <-Eu in *. assert (Hnn : ∀ x, x ∈ units_for q → 0 ≤ Tokens x) by (intros x Hx; specialize (Htok x); rewrite Eu in Htok, Hx; specialize (Htok Hx); lia).
    destruct (learn (s_trie s) (told seen) 0 (units_for q) Hl Hnn) as [_ Hl'].
    destruct (query_longest (s_trie s) (units_for q)) as (m & Hm & HQ & H1 & H2).
    assert (Heq : (RecordAndCount (units_for q) (s_trie s)).1 = Query (s_trie s) (units_for q)) by (rewrite Eu; unfold RecordAndCount, Query; by destruct (walk _ _ _ _) as [[n x] rest]).
    rewrite HQ in Heq. destruct (RecordAndCount (units_for q) (s_trie s)) as [[cached n] t]. injection Heq as -> ->.
    assert (Hheld : ∀ ks, holds (s_trie s) ks ↔ ks = [] ∨ ∃ r, r ∈ seen ∧ ks `prefix_of` (Hash <$> r)).
    { intros ks. destruct Hl as (_ & _ & ->). unfold told. split; (intros [?|H]; [by left|right]).
      - destruct H as (r & (us' & -> & Hin)%list_elem_of_fmap & Hk). by exists us'.
      - destruct H as (r & Hin & Hk). exists (0, Hash <$> r). split; [|done]. apply list_elem_of_fmap. by exists r. }
    assert (Hw : warm seen (units_for q) = m).
    { apply warm_is; [done| |].
      - apply Hheld in H1 as [H1|H1]; [|by right]. left. apply fmap_nil_inv in H1. destruct m; [done|]. rewrite Eu in H1. done.
      - intros Hlt r Hr Hp. apply (H2 Hlt), Hheld. right. by exists r. }
    exists t, c'. split; [|split_and!; [|done..]].
    + rewrite Hw, <-(matched_blocks_spec (units_for q) Htok m 0 Hm). by rewrite Z.add_0_l.
    + unfold told. by rewrite fmap_app.
Qed.

Lemma simulate_ideal qs c e : usable sha256 docs c →
  ∃ c', SimulatePrefillBlocks sha256 qs docs (MkConfig 0 0 e) c = (ideal [] qs, c') ∧ usable sha256 docs c' ∧ (cap <$> c') = (cap <$> c).
Proof.
  intros Hc. unfold SimulatePrefillBlocks. assert (Hl : learnt (New (MkConfig 0 0 e)) (told [])).
  { destruct (simulate_holds (MkConfig 0 0 e) [] eq_refl) as (Hw & Hb & Hh); [by intros r u ?%elem_of_nil|]. split_and!; [done..|].
    intros ks. etrans; [apply Hh|]. split; (intros [?|(r & Hr%elem_of_nil & _)]; [by left|done]). }
  set (s0 := MkSim _ _ _). assert (Hg : ∀ qs s seen, learnt (s_trie s) (told seen) → usable sha256 docs (s_cache s) →
    s_out (foldl (score sha256 docs) s qs) = s_out s ++ ideal seen qs ∧ usable sha256 docs (s_cache (foldl (score sha256 docs) s qs))
    ∧ (cap <$> s_cache (foldl (score sha256 docs) s qs)) = (cap <$> s_cache s)).
  { clear. induction qs as [|q qs IH]; intros s seen Hl Hc; cbn [foldl ideal]; [by rewrite app_nil_r|].
    destruct (score_ideal s seen q Hl Hc) as (t & c & -> & Hl' & Hc' & Hcap). destruct (IH (MkSim t c (s_out s ++ [MkStat (Cover (units_for q) (Z.of_nat (warm seen (units_for q)))) (q_input q)])) (seen ++ [units_for q]) Hl' Hc') as (-> & ? & ->). split_and!; [|done..]. cbn [s_out]. by rewrite <-app_assoc. }
  destruct (Hg qs s0 [] Hl Hc) as (-> & H1 & H2). by eexists.
Qed.
End simulation.

(** ** The report *)

Definition zsum (l : list Z) : Z := foldr Z.add 0 l.
Lemma zsum_snoc l x : zsum (l ++ [x]) = zsum l + x.
Proof. induction l as [|y l IH]; cbn; [lia|]. unfold zsum in IH. rewrite IH. lia. Qed.

(** The requests that would be prefilled elsewhere. *)
Definition over (min : Z) (stats : list PrefillBlockStat) : list PrefillBlockStat := filter (λ s, min < MissingBlocks (Cov s)) stats.

Lemma over_snoc min l s : over min (l ++ [s]) = over min l ++ (if min <? MissingBlocks (Cov s) then [s] else []).
Proof.
  unfold over. rewrite filter_app. f_equal. destruct (Z.ltb_spec min (MissingBlocks (Cov s))); [by rewrite filter_cons_True|by rewrite filter_cons_False by lia].
Qed.

Lemma aggregate_spec stats min : AggregatePrefillSplit stats min =
  MkSplitReport min (Z.of_nat (length stats)) (Z.of_nat (length (over min stats)))
    (i64 (zsum (InputTokens <$> stats))) (i64 (zsum (InputTokens <$> over min stats)))
    (i64 (zsum ((λ s, MissingTokens (Cov s)) <$> stats))) (i64 (zsum ((λ s, MissingTokens (Cov s)) <$> over min stats))).
Proof.
  unfold AggregatePrefillSplit. generalize (Z.of_nat (length stats)). intros n.
  induction stats as [|s l IH] using rev_ind; [done|]. rewrite foldl_app, IH, over_snoc. cbn [foldl]. unfold count_stat.
  cbn [MinMissingBlocks NRequests PrefillRequests TotalInputTokens PrefillInputTokens TotalMissingTokens PrefillMissingTokens].
  rewrite !fmap_app, !fmap_cons, !fmap_nil, !zsum_snoc, !i64_add_l. destruct (Z.ltb_spec min (MissingBlocks (Cov s))).
  - rewrite length_app, !fmap_cons, !fmap_nil, !zsum_snoc. cbn [length]. f_equal. lia.
  - by rewrite !fmap_nil, !app_nil_r.
Qed.

Lemma over_length min stats : length (over min stats) = length (filter (λ n, min < n) ((λ s, MissingBlocks (Cov s)) <$> stats)).
Proof.
  unfold over. induction stats as [|s l IH]; [done|]. rewrite fmap_cons. destruct (decide (min < MissingBlocks (Cov s))).
  - rewrite !filter_cons_True by done. cbn. by rewrite IH.
  - by rewrite !filter_cons_False by done.
Qed.

Lemma over_nested a b stats : a ≤ b → sublist (over b stats) (over a stats).
Proof.
  intros Hab. unfold over. induction stats as [|s l IH]; [done|]. destruct (decide (b < MissingBlocks (Cov s))).
  - rewrite !filter_cons_True by lia. by apply sublist_skip.
  - rewrite filter_cons_False by lia. destruct (decide (a < MissingBlocks (Cov s))).
    + rewrite filter_cons_True by lia. by apply sublist_cons.
    + by rewrite filter_cons_False by lia.
Qed.

(** a report counts exactly the requests missing more blocks than its threshold, with
    totals that are sums up to the wrap of [int64]; raising the threshold only ever takes
    requests away, and a report over several models counts what theirs do together. *)
Theorem split_report_exact (stats stats' : list PrefillBlockStat) (min min' : Z) :
  let r := AggregatePrefillSplit stats min in
  NRequests r = Z.of_nat (length stats) ∧ PrefillRequests r = Z.of_nat (length (over min stats)) ∧
  PrefillInputTokens r = i64 (zsum (InputTokens <$> over min stats)) ∧ TotalInputTokens r = i64 (zsum (InputTokens <$> stats)) ∧
  (min ≤ min' → 0 ≤ PrefillRequests (AggregatePrefillSplit stats min') ≤ PrefillRequests r) ∧
  PrefillRequests (AggregatePrefillSplit (stats ++ stats') min) = PrefillRequests r + PrefillRequests (AggregatePrefillSplit stats' min).
Proof.
  cbv zeta. rewrite !aggregate_spec. cbn. split_and!; try done.
  - intros H. pose proof (sublist_length _ _ (over_nested min min' stats H)). lia.
  - unfold over. rewrite filter_app, length_app. lia.
Qed.

Section command.
Context (sha256 : bytes → bytes) (docs : bytes) (min : Z) (byModel : gmap string (list RouterReplayRequest)).

Definition ideal_stats (m : string) : list PrefillBlockStat := ideal sha256 docs [] (default [] (byModel !! m)).

Lemma split_models ms : ∀ all per c, usable sha256 docs c →
  ∃ c', foldl (split_model sha256 docs min 0 byModel) (all, per, c) ms
    = (all ++ (ms ≫= ideal_stats), foldl (λ per m, <[m := AggregatePrefillSplit (ideal_stats m) min]> per) per ms, c').
Proof.
  induction ms as [|m ms IH]; intros all per c Hc; cbn [foldl]; [exists c; by rewrite app_nil_r|].
  unfold split_model at 2. change (cacheCfg 0) with (MkConfig 0 0 0).
  destruct (simulate_ideal sha256 docs (default [] (byModel !! m)) c 0 Hc) as (c' & -> & Hc' & _).
  fold (ideal_stats m). destruct (IH (all ++ ideal_stats m) (<[m := AggregatePrefillSplit (ideal_stats m) min]> per) c' Hc') as (c'' & ->).
  exists c''. by rewrite bind_cons, <-app_assoc.
Qed.

Lemma per_models (f : string → PrefillSplitReport) ms : ∀ (per : gmap string PrefillSplitReport) m,
  foldl (λ per m, <[m := f m]> per) per ms !! m = if decide (m ∈ ms) then Some (f m) else per !! m.
Proof.
  induction ms as [|x ms IH]; intros per m; cbn [foldl]; [by rewrite decide_False by apply not_elem_of_nil|]. rewrite IH.
  destruct (decide (m ∈ ms)); [by rewrite decide_True by (by right)|]. destruct (decide (m = x)) as [->|].
  - rewrite lookup_insert_eq. by rewrite decide_True by left.
  - rewrite lookup_insert_ne by done. rewrite decide_False; [done|]. by intros [|]%elem_of_cons.
Qed.
End command.

(** How many blocks each request lacks, given those before it. *)
Fixpoint cold (sha256 : bytes → bytes) (docs : bytes) (seen : list (list Unit_)) (qs : list RouterReplayRequest) : list Z :=
  match qs with
  | [] => []
  | q :: qs => let us := fresh_units sha256 docs (segments q) in
               Z.of_nat (length us) - Z.of_nat (warm seen us) :: cold sha256 docs (seen ++ [us]) qs
  end.

Lemma warm_le seen us : (warm seen us ≤ length us)%nat.
Proof.
  unfold warm. destruct (max_list_in ((λ r : list Unit_, lcp (Hash <$> us) (Hash <$> r)) <$> seen)) as [->|(r & -> & _)%list_elem_of_fmap]; [lia|].
  pose proof (lcp_le (Hash <$> us) (Hash <$> r)). by rewrite length_fmap in H.
Qed.
Lemma ideal_cold sha256 docs qs : ∀ seen, (λ s, MissingBlocks (Cov s)) <$> ideal sha256 docs seen qs = cold sha256 docs seen qs.
Proof.
  induction qs as [|q qs IH]; intros seen; [done|]. cbn [ideal cold fmap list_fmap]. f_equal; [|apply IH]. cbn [Cov].
  pose proof (warm_le seen (fresh_units sha256 docs (segments q))) as Hw.
  destruct (cover_exact (fresh_units sha256 docs (segments q)) (Z.of_nat (warm seen (fresh_units sha256 docs (segments q))))) as (_ & _ & _ & _ & -> & _).
  rewrite length_drop. lia.
Qed.

(** C37: with nothing evicted, the estimate is the one a definition gives that has neither trie
    nor cache: model by model, in time order, each request's blocks are synthesised afresh and
    those count as missing that lie past the longest prefix it shares with a request of the
    model before it.  The headline, the sensitivity table and the distribution are those of
    all models together, and a model's own report that of its requests. *)
Theorem prefill_split_exact (sha256 : bytes → bytes) (docs : bytes) (min : Z) (models : list string) (byModel : gmap string (list RouterReplayRequest)) :
  let o := computePrefillSplit sha256 docs min 0 models byModel in
  let requests m := default [] (byModel !! m) in
  let all := models ≫= (λ m, ideal sha256 docs [] (requests m)) in
  Headline o = AggregatePrefillSplit all min ∧ Sensitivity o = AggregatePrefillSplit all <$> prefillSensitivityThresholds ∧
  (∀ m, m ∈ models → PerModel o !! m = Some (AggregatePrefillSplit (ideal sha256 docs [] (requests m)) min)) ∧
  MissingBlocksOf o = models ≫= (λ m, cold sha256 docs [] (requests m)) ∧
  PrefillRequests (Headline o) = Z.of_nat (length (filter (λ n, min < n) (models ≫= (λ m, cold sha256 docs [] (requests m))))).
Proof.
  cbv zeta. unfold computePrefillSplit.
  destruct (split_models sha256 docs min byModel models [] ∅ (Some NewPrefillUnitCache) (new_good _ _ _)) as (c & ->). cbn [app Headline Sensitivity PerModel MissingBlocksOf].
  fold (ideal_stats sha256 docs byModel). change (models ≫= λ m, ideal sha256 docs [] (default [] (byModel !! m))) with (models ≫= ideal_stats sha256 docs byModel).
  assert (Hc : (λ s, MissingBlocks (Cov s)) <$> (models ≫= ideal_stats sha256 docs byModel) = models ≫= (λ m, cold sha256 docs [] (default [] (byModel !! m)))).
  { induction models as [|m ms IH]; [done|]. rewrite !bind_cons, fmap_app, IH. f_equal. apply ideal_cold. }
  split_and!; [done..| |done|].
  - intros m Hm. rewrite (per_models (λ m, AggregatePrefillSplit (ideal_stats sha256 docs byModel m) min)). by rewrite decide_True.
  - rewrite aggregate_spec, <-Hc. cbn [PrefillRequests]. by rewrite over_length.
Qed.

(** ** The histogram *)

Lemma hist_alter (vals : list Z) (counts : list Z) i c : counts !! i = Some c →
  foldl (λ counts v, alter (Z.add 1) (hist_index hist_bounds v) counts) counts vals !! i
  = Some (c + Z.of_nat (length (filter (λ v, hist_index hist_bounds v = i) vals))).
Proof.
  revert counts c. induction vals as [|v vals IH]; intros counts c Hi; cbn [foldl]; [cbn; by rewrite Z.add_0_r|].
  destruct (decide (hist_index hist_bounds v = i)) as [<-|Hne].
  - rewrite (IH _ (1 + c)) by (by rewrite list_lookup_alter_eq, Hi). rewrite filter_cons_True by done. cbn [length]. f_equal. lia.
  - rewrite (IH _ c) by (by rewrite list_lookup_alter_ne). by rewrite filter_cons_False.
Qed.

(** Which values a bucket takes. *)
Definition in_bucket (i : nat) (v : Z) : Prop :=
  (i = 0%nat ∨ hist_bounds !!! i ≤ v) ∧ (i = 8%nat ∨ v < hist_bounds !!! S i).
Lemma hist_index_spec v i : (i < 9)%nat → hist_index hist_bounds v = i ↔ in_bucket i v.
Proof.
  unfold hist_index, hist_bounds, in_bucket. intros Hi. do 9 (destruct i as [|i]; [cbn; repeat case_match; bool_props; split; intros; lia|]). lia.
Qed.

(** every value falls into exactly one bucket, so the buckets count all values, each those
    from its bound up to the next. *)
Theorem histogram_exact (vals : list Z) (i : nat) (Hi : (i < 9)%nat) :
  prefillHistogram vals !! i = Some (Z.of_nat (length (filter (λ v, hist_index hist_bounds v = i) vals))) ∧
  (∀ v, hist_index hist_bounds v = i ↔ in_bucket i v) ∧ (∀ v, (hist_index hist_bounds v < 9)%nat).
Proof.
  split_and!; [|intros v; by apply hist_index_spec|].
  - unfold prefillHistogram. rewrite (hist_alter _ _ i 0); [done|]. by apply lookup_replicate_2.
  - intros v. unfold hist_index, hist_bounds. repeat case_match; lia.
Qed.

Module EstimateEx.

Definition sha (b : bytes) : bytes := b.
Definition corpus : bytes := Z.of_nat <$> seq 0 100.
Definition msg (d n : Z) : block := MkBlock (replicate 15 48 ++ [48 + d]) n 0.
Definition turn (ms : list block) : RouterReplayRequest := MkReplay 0 "m" 700 0 7 [MkBlock [1] 60 15; msg 1 500] None ms.
Definition session : gmap string (list RouterReplayRequest) :=
  {[ "m"%string := [turn [msg 2 1500]; turn [msg 2 1500; msg 3 10]; turn [msg 2 1500; msg 3 10; msg 4 3000]] ]}.

(** The first turn misses its three blocks, the second one, the third the three of its last message. *)
Example misses : MissingBlocksOf (computePrefillSplit sha corpus 1 0 ["m"%string] session) = [3; 1; 3].
Proof. by vm_compute. Qed.
Example report : PrefillRequests (Headline (computePrefillSplit sha corpus 1 0 ["m"%string] session)) = 2.
Proof. by vm_compute. Qed.

(** A cache of one block forgets, and the units are the same. *)
Example forgets : let c := (prefillBlockUnits sha (turn [msg 2 1500; msg 3 10]) corpus (Some (NewPrefillUnitCacheSize 1))) in
  length c.1 = 4%nat ∧ (length ∘ ll <$> c.2) = Some 1%nat ∧ c.1 = (prefillBlockUnits sha (turn [msg 2 1500; msg 3 10]) corpus None).1.
Proof. by vm_compute. Qed.

Lemma synth_text_exact_witness : length (synthText sha [7] 250 corpus) = 250%nat.
Proof. apply (synth_text_exact sha [7] corpus 250). reflexivity. Defined.

Lemma histogram_exact_witness : prefillHistogram [0; 5; 3; 7; 100] !! 4%nat = Some 2.
Proof. apply (histogram_exact [0; 5; 3; 7; 100] 4). lia. Defined.

End EstimateEx.
