(* ===== verification/ModelSpec.v ===== *)
(** * ModelSpec: which model a tool is asked to talk to, and where it is

    [src/llm/model_parsing.go]: the specifications a user writes on the command line, parsed;
    [src/llm/endpoint_discovery.go] and the head of [getDynamicChatGetter]
    ([src/llm/chat_clients.go]): what is found out about an endpoint, once per process.  What an
    endpoint answers and [url.Parse] are arguments. *)

From stdpp Require Import base gmap list strings.
From Stdlib Require Import ZArith Lia.
From S2P Require Import Prelude KvUnits StreamScan GoText.
Open Scope Z_scope.

Definition comma : Z := 44.
Definition pipe : Z := 124.
Definition equals : Z := 61.

(** [strings.SplitN(s, sep, 2)], when it gives two parts. *)
Fixpoint Cut (c : Z) (s : bytes) : option (bytes * bytes) :=
  match s with
  | [] => None
  | d :: r => if d =? c then Some ([], r) else match Cut c r with Some (a, b) => Some (d :: a, b) | None => None end
  end.

(** [fmt.Sscanf(value, "%d", &n)] on trimmed text: a sign, then as many digits as there are;
    what follows them is not looked at. *)
Fixpoint leading_digits (s : bytes) : bytes := match s with c :: r => if is_digit c then c :: leading_digits r else [] | [] => [] end.
Definition Sscanf_d (value : bytes) : option Z :=
  let '(neg, r) := match value with c :: r => if c =? 45 then (true, r) else if c =? 43 then (false, r) else (false, value) | [] => (false, []) end in
  match leading_digits r with
  | [] => None
  | ds => let n := if neg : bool then - read_digits 0 ds else read_digits 0 ds in
          if (- two63 <=? n) && (n <? two63) then Some n else None
  end.

Inductive spec_error := EPrefix | EEndpoint | EModelName | EEmptyName | EFormat (param : bytes)
  | EContextSize (value : bytes) | EMaxTokens (value : bytes) | EUnknown (key : bytes).

Section parsing.
Context (u : Unicode).

(** [key=value] of one parameter, both trimmed. *)
Definition param_kv (param : bytes) : (bytes * bytes) + spec_error :=
  match Cut equals param with Some (k, v) => inl (TrimSpace u k, TrimSpace u v) | None => inr (EFormat param) end.
(** The loop over the parameters of a specification: trimmed, the empty ones skipped, up to the first error. *)
Fixpoint parse_params {A} (set : bytes → bytes → A → A + spec_error) (params : list bytes) (c : A) : A + spec_error :=
  match params with
  | [] => inl c
  | p :: ps =>
      match TrimSpace u p with
      | [] => parse_params set ps c
      | param => match param_kv param with
                 | inr e => inr e
                 | inl (k, v) => match set k v c with inl c => parse_params set ps c | inr e => inr e end
                 end
      end
  end.

(** ** Dynamic models *)

Record DynamicModelConfig := MkDynamic {
  BaseURL : bytes; BaseURLs : list bytes; Type_ : bytes; ContextSize : Z; MaxTokens : Z;
  Model : bytes; Alias : bytes; ReasoningEffort : bytes; Thinking : bytes;
}.
Definition set_dynamic (key value : bytes) (c : DynamicModelConfig) : DynamicModelConfig + spec_error :=
  let '(MkDynamic b bs t cs mt m a re th) := c in
  if decide (key = lit "type") then inl (MkDynamic b bs value cs mt m a re th)
  else if decide (key = lit "context_size") then
    match Sscanf_d value with Some n => inl (MkDynamic b bs t n mt m a re th) | None => inr (EContextSize value) end
  else if decide (key = lit "max_tokens") then
    match Sscanf_d value with Some n => inl (MkDynamic b bs t cs n m a re th) | None => inr (EMaxTokens value) end
  else if decide (key = lit "model") then inl (MkDynamic b bs t cs mt value a re th)
  else if decide (key = lit "alias") then inl (MkDynamic b bs t cs mt m value re th)
  else if decide (key = lit "reasoning_effort") then inl (MkDynamic b bs t cs mt m a value th)
  else if decide (key = lit "thinking") then inl (MkDynamic b bs t cs mt m a re value)
  else inr (EUnknown key).
(** One of the endpoints, or nothing for a blank. *)
Definition endpoint (raw : bytes) : option bytes :=
  match TrimSpace u raw with [] => None | e => Some (if HasSuffix e [slash] then e else e ++ [slash]) end.
Definition dynamic_prefix : bytes := lit "dynamic/".
Definition ParseDynamicModel (modelStr : bytes) : DynamicModelConfig + spec_error :=
  if hasPrefix modelStr dynamic_prefix then
    match Split comma (drop (length dynamic_prefix) modelStr) with
    | [] => inr EEndpoint
    | endpointPart :: params =>
        match omap endpoint (Split pipe endpointPart) with
        | [] => inr EEndpoint
        | b :: bs => parse_params set_dynamic params (MkDynamic b (b :: bs) (lit "openai") 0 0 [] [] [] [])
        end
    end
  else inr EPrefix.
Definition IsDynamicModel (model : bytes) : bool := hasPrefix model dynamic_prefix.

(** A bare URL becomes a dynamic specification, with a type unless a parameter gives one. *)
Definition type_param (p : bytes) : bool := hasPrefix (TrimSpace u p) (lit "type=").
Definition NormalizeModelSpec (model : bytes) : bytes :=
  if negb (hasPrefix model (lit "http://")) && negb (hasPrefix model (lit "https://")) then model
  else
    let spec := dynamic_prefix ++ model in
    let hasType := match Cut comma spec with Some (_, rest) => existsb type_param (Split comma rest) | None => false end in
    if hasType then spec else spec ++ lit ",type=openai_vllm".

(** ** OpenRouter models *)

Record OpenRouterModelConfig := MkOpenRouter { OModel : bytes; OContextSize : Z; OMaxTokens : Z; Provider : list bytes }.
Definition providers (value : bytes) : list bytes := omap (λ p, match TrimSpace u p with [] => None | p => Some p end) (Split comma value).
Definition set_openrouter (key value : bytes) (c : OpenRouterModelConfig) : OpenRouterModelConfig + spec_error :=
  let '(MkOpenRouter m cs mt ps) := c in
  if decide (key = lit "context_size") then
    match Sscanf_d value with Some n => inl (MkOpenRouter m n mt ps) | None => inr (EContextSize value) end
  else if decide (key = lit "max_tokens") then
    match Sscanf_d value with Some n => inl (MkOpenRouter m cs n ps) | None => inr (EMaxTokens value) end
  else if decide (key = lit "provider") then inl (MkOpenRouter m cs mt (ps ++ providers value))
  else inr (EUnknown key).
Definition openrouter_prefix : bytes := lit "openrouter/".
Definition ParseOpenRouterModel (modelStr : bytes) : OpenRouterModelConfig + spec_error :=
  if hasPrefix modelStr openrouter_prefix then
    match Split comma (drop (length openrouter_prefix) modelStr) with
    | [] | [] :: _ => inr EModelName
    | m :: params => parse_params set_openrouter params (MkOpenRouter m 0 0 [])
    end
  else inr EPrefix.
Definition IsOpenRouterModel (model : bytes) : bool := hasPrefix model openrouter_prefix.

(** ** Named models *)

Record StaticModelConfig := MkStatic { BaseModel : bytes; SMaxTokens : Z }.
Definition set_static (key value : bytes) (c : StaticModelConfig) : StaticModelConfig + spec_error :=
  if decide (key = lit "max_tokens") then
    match Sscanf_d value with Some n => inl (MkStatic (BaseModel c) n) | None => inr (EMaxTokens value) end
  else inr (EUnknown key).
Definition ParseStaticModelParams (modelStr : bytes) : StaticModelConfig + spec_error :=
  match Cut comma modelStr with
  | None => inl (MkStatic modelStr 0)
  | Some (name, rest) =>
      match TrimSpace u name with
      | [] => inr EEmptyName
      | baseModel => parse_params set_static (Split comma (TrimSpace u rest)) (MkStatic baseModel 0)
      end
  end.

(** ** Validation *)

Inductive model_error := InvalidDynamic (e : spec_error) | InvalidOpenRouter (e : spec_error) | InvalidParams (e : spec_error)
  | NoRegistry (m : bytes) | Unsupported (m : bytes).
(** [ResolveModel] is a hook the embedding application may set. *)
Definition ValidateModel (ResolveModel : option (bytes → bool)) (model : bytes) : option model_error :=
  match model with
  | [] => None
  | _ =>
      if IsDynamicModel model then match ParseDynamicModel model with inl _ => None | inr e => Some (InvalidDynamic e) end
      else if IsOpenRouterModel model then match ParseOpenRouterModel model with inl _ => None | inr e => Some (InvalidOpenRouter e) end
      else match ParseStaticModelParams model with
           | inr e => Some (InvalidParams e)
           | inl c => match ResolveModel with
                      | None => Some (NoRegistry (BaseModel c))
                      | Some known => if known (BaseModel c) then None else Some (Unsupported (BaseModel c))
                      end
           end
  end.
End parsing.

(** ** Finding an endpoint *)

Record resolvedEndpoint := MkResolved { base : bytes; model : bytes }.

Section discovery.
(** What the [n]-th probe of the process gets from a base URL: the first model listed, if it
    answers with one; and the path of a URL that parses. *)
Context (answer : nat → bytes → option bytes) (path_of : bytes → option bytes).

(** The memo and the number of probes sent.  Concurrent callers of one endpoint wait for the
    first, so a call is one step. *)
Record discovery := MkDiscovery { entries : gmap bytes resolvedEndpoint; probes : nat }.

Definition shouldProbeForV1 (base : bytes) : bool :=
  match path_of base with None => false | Some p => bool_decide (drop_byte slash (TrimRight slash p) = []) end.
Definition probeModelsEndpoint (base : bytes) (n : nat) : option bytes * nat :=
  (match answer n base with Some [] => None | r => r end, S n).
(** The function given to [once.Do]. *)
Definition discover (rawBase : bytes) (wantModel : bool) (n : nat) : resolvedEndpoint * nat :=
  let '(b, m, n) :=
    if shouldProbeForV1 rawBase then
      let v1Base := TrimRight slash rawBase ++ lit "/v1/" in
      match probeModelsEndpoint v1Base n with (Some id, n) => (v1Base, id, n) | (None, n) => (rawBase, [], n) end
    else (rawBase, [], n) in
  if wantModel && bool_decide (m = []) then
    match probeModelsEndpoint b n with (Some id, n) => (MkResolved b id, n) | (None, n) => (MkResolved b m, n) end
  else (MkResolved b m, n).
Definition resolveDynamicEndpoint (rawBase : bytes) (wantModel : bool) (d : discovery) : resolvedEndpoint * discovery :=
  match entries d !! rawBase with
  | Some r => (r, d)
  | None => let '(r, n) := discover rawBase wantModel (probes d) in (r, MkDiscovery (<[rawBase := r]> (entries d)) n)
  end.

(** The endpoints of a specification in order; a model is asked of the first only. *)
Fixpoint resolve_all (urls : list bytes) (wantModel : bool) (d : discovery) : list resolvedEndpoint * discovery :=
  match urls with
  | [] => ([], d)
  | url :: urls => let '(r, d) := resolveDynamicEndpoint url wantModel d in
                   let '(rs, d) := resolve_all urls false d in (r :: rs, d)
  end.

Inductive ClientType := ClientTypeOpenAI | ClientTypeOpenAIResponses | ClientTypeAnthropic | ClientTypeGeminiNative.
Record ModelInfo := MkInfo { ModelIdentifier : bytes; InfoMaxTokens : Z; InfoBaseURL : bytes; ContextWindow : Z; Client : ClientType; URLs : list bytes }.
Inductive getter_panic := PParse (e : spec_error) | PAutodiscovery (base : bytes) | PType (t : bytes).

Definition client_of (t : bytes) : option ClientType :=
  if decide (t = lit "openai") then Some ClientTypeOpenAI else if decide (t = lit "openai_vllm") then Some ClientTypeOpenAI
  else if decide (t = lit "openai_sglang") then Some ClientTypeOpenAI else if decide (t = lit "openai_responses") then Some ClientTypeOpenAIResponses
  else if decide (t = lit "anthropic") then Some ClientTypeAnthropic else if decide (t = lit "gemini_native") then Some ClientTypeGeminiNative else None.
(** [max_tokens], or half of [context_size], or the default. *)
Definition max_tokens_of (c : DynamicModelConfig) : Z :=
  if 0 <? MaxTokens c then MaxTokens c else if 0 <? ContextSize c then ContextSize c ÷ 2 else 32768.
Definition context_window_of (c : DynamicModelConfig) : Z := if 0 <? ContextSize c then ContextSize c else 131072.
(** The name the endpoint is asked for when the specification gives none. *)
Definition model_of (c : DynamicModelConfig) (rs : list resolvedEndpoint) : bytes + getter_panic :=
  match Model c with
  | [] => match head rs with
          | Some (MkResolved b []) => if decide (Type_ c = lit "anthropic") then inr (PAutodiscovery b) else inl (lit "default")
          | Some (MkResolved _ m) => inl m
          | None => inl (lit "default")
          end
  | m => inl m
  end.
(** [getDynamicChatGetter] up to the choice of the client. *)
Definition getDynamicChatGetter (u : Unicode) (spec : bytes) (d : discovery) : (ModelInfo + getter_panic) * discovery :=
  match ParseDynamicModel u spec with
  | inr e => (inr (PParse e), d)
  | inl c =>
      let '(rs, d) := resolve_all (BaseURLs c) (bool_decide (Model c = [])) d in
      (match model_of c rs with
       | inr p => inr p
       | inl m => match client_of (Type_ c) with
                  | None => inr (PType (Type_ c))
                  | Some ct => inl (MkInfo m (max_tokens_of c) (default [] (base <$> head rs)) (context_window_of c) ct (base <$> rs))
                  end
       end, d)
  end.
End discovery.

(** ** Text that is cut and put together *)

Lemma Split_cons c f s : c ∉ f → Split c (f ++ c :: s) = f :: Split c s.
Proof.
  induction f as [|x f IH]; intros Hf; cbn; [by rewrite Z.eqb_refl|].
  rewrite (proj2 (Z.eqb_neq x c)) by (intros ->; apply Hf; left). by rewrite IH by (intros ?; apply Hf; by right).
Qed.
Lemma Split_whole c f : c ∉ f → Split c f = [f].
Proof.
  induction f as [|x f IH]; intros Hf; cbn; [done|].
  rewrite (proj2 (Z.eqb_neq x c)) by (intros ->; apply Hf; left). by rewrite IH by (intros ?; apply Hf; by right).
Qed.
Lemma Split_app c a b : Split c (a ++ c :: b) = Split c a ++ Split c b.
Proof.
  induction a as [|x a IH]; cbn; [by rewrite Z.eqb_refl|]. destruct (x =? c); [by rewrite IH|]. rewrite IH.
  destruct (Split_join c a) as [Hne _]. by destruct (Split c a).
Qed.
Lemma Cut_cons c a b : c ∉ a → Cut c (a ++ c :: b) = Some (a, b).
Proof.
  induction a as [|x a IH]; intros Ha; cbn; [by rewrite Z.eqb_refl|].
  rewrite (proj2 (Z.eqb_neq x c)) by (intros ->; apply Ha; left). by rewrite IH by (intros ?; apply Ha; by right).
Qed.
Lemma Cut_Some c s a b : Cut c s = Some (a, b) → s = a ++ c :: b ∧ c ∉ a.
Proof.
  revert a b. induction s as [|x s IH]; intros a b; cbn; [done|]. destruct (Z.eqb_spec x c) as [->|Hx].
  - intros [= <- <-]. split; [done|]. by intros ?%elem_of_nil.
  - destruct (Cut c s) as [[a' b']|]; [|done]. intros [= <- <-]. destruct (IH a' b' eq_refl) as [-> Ha]. split; [done|].
    intros [->|?]%elem_of_cons; done.
Qed.
Lemma Cut_None c s : Cut c s = None → c ∉ s.
Proof.
  induction s as [|x s IH]; cbn; [by intros _ ?%elem_of_nil|]. destruct (Z.eqb_spec x c) as [->|Hx]; [done|].
  destruct (Cut c s) as [[a b]|]; [done|]. intros H [->|Hc]%elem_of_cons; [done|]. by apply IH.
Qed.

Lemma trim_id s : (∀ c, head s = Some c → is_blank c = false) → (∀ c, last s = Some c → is_blank c = false) → trim_blanks s = s.
Proof.
  intros Hh Hl. unfold trim_blanks. assert (H1 : drop_blanks s = s) by (destruct s as [|c s]; [done|]; cbn; by rewrite (Hh c)). rewrite H1.
  assert (H2 : drop_blanks (reverse s) = reverse s); [|by rewrite H2, reverse_involutive].
  destruct (reverse s) as [|c r] eqn:E; [done|]. cbn. rewrite (Hl c); [done|]. apply last_Some. exists (reverse r). apply (f_equal reverse) in E. by rewrite reverse_involutive, reverse_cons in E.
Qed.

(** Text a parameter carries as it is. *)
Record plain (s : bytes) : Prop := { pl_ascii : ascii s = true; pl_comma : comma ∉ s; pl_trim : trim_blanks s = s }.
Lemma plain_trim u s : plain s → TrimSpace u s = s.
Proof. intros [Ha _ Ht]. unfold TrimSpace. by rewrite Ha, Ht. Qed.

Lemma ascii_concat a b : ascii (a ++ b) = ascii a && ascii b.
Proof. apply forallb_app. Qed.

Lemma plain_param k v : plain (k ++ [equals]) → plain v → plain (k ++ equals :: v).
Proof.
  intros [A1 C1 T1] [A2 C2 T2]. assert (E : k ++ equals :: v = (k ++ [equals]) ++ v) by (by rewrite <-app_assoc). rewrite E. constructor.
  - by rewrite ascii_concat, A1.
  - rewrite elem_of_app. intros [?|?]; done.
  - destruct (trim_blanks_spec (k ++ [equals])) as (_ & _ & _ & _ & _ & Hh & _). rewrite T1 in Hh.
    destruct (trim_blanks_spec v) as (_ & _ & _ & _ & _ & _ & Hl). rewrite T2 in Hl. apply trim_id.
    + intros c. by destruct k as [|x k]; [intros [= <-]|intros [= <-]; apply Hh].
    + intros c. rewrite last_app. destruct (last v) as [x|] eqn:Ev; [intros [= <-]; by apply Hl|]. rewrite last_app. by intros [= <-].
Qed.

Lemma parse_params_kv {A} u set k v ps (c : A) : equals ∉ k → plain (k ++ [equals]) → plain k → plain v →
  parse_params u set ((k ++ equals :: v) :: ps) c = match set k v c with inl c => parse_params u set ps c | inr e => inr e end.
Proof.
  intros Hk H1 H2 H3. cbn [parse_params]. rewrite plain_trim by (by apply plain_param).
  destruct (k ++ equals :: v) as [|x l] eqn:E; [by destruct k|]. rewrite <-E. unfold param_kv. rewrite Cut_cons by done. by rewrite !plain_trim.
Qed.

Lemma parse_params_app {A} u set ps qs : ∀ c : A,
  parse_params u set (ps ++ qs) c = match parse_params u set ps c with inl c => parse_params u set qs c | inr e => inr e end.
Proof.
  induction ps as [|p ps IH]; intros c; [done|]. cbn [app parse_params]. destruct (TrimSpace u p) as [|x l]; [done|].
  destruct (param_kv u (x :: l)) as [[k v]|]; [|done]. by destruct (set k v c).
Qed.

(** ** Numbers *)

Lemma leading_digits_all s : forallb is_digit s = true → leading_digits s = s.
Proof. induction s as [|c s IH]; cbn; [done|]. intros [-> H]%andb_true_iff. by rewrite IH. Qed.
Lemma leading_digits_app s t : forallb is_digit s = true → (∀ c, head t = Some c → is_digit c = false) → leading_digits (s ++ t) = s.
Proof.
  intros Hs Ht. induction s as [|c s IH]; cbn in *.
  - destruct t as [|c t]; [done|]. cbn. by rewrite (Ht c).
  - apply andb_true_iff in Hs as [-> Hs]. by rewrite IH.
Qed.

Lemma Sscanf_Itoa n t : 0 ≤ n < two63 → (∀ c, head t = Some c → is_digit c = false) → Sscanf_d (Itoa n ++ t) = Some n.
Proof.
  intros Hn Ht. destruct (Itoa_digits n ltac:(lia)) as (Hd & Hne & Hr). destruct (Itoa n) as [|c s] eqn:E; [done|].
  assert (Hc : is_digit c = true) by (cbn in Hd; by apply andb_true_iff in Hd as [? _]). unfold is_digit in Hc. apply andb_true_iff in Hc as [H1%Z.leb_le H2%Z.leb_le].
  unfold Sscanf_d. cbn [app]. rewrite (proj2 (Z.eqb_neq c 45)), (proj2 (Z.eqb_neq c 43)) by lia.
  rewrite app_comm_cons, leading_digits_app by done. rewrite Hr. rewrite (proj2 (Z.leb_le _ _)), (proj2 (Z.ltb_lt _ _)) by (unfold two63 in *; lia). done.
Qed.

Lemma decimal_plain n : 0 ≤ n → plain (Itoa n).
Proof.
  intros Hn. destruct (Itoa_digits n Hn) as (Hd & _ & _). rewrite forallb_forall in Hd.
  assert (Hb : ∀ c, c ∈ Itoa n → 48 ≤ c ≤ 57) by (intros c Hc%list_elem_of_In; specialize (Hd c Hc); unfold is_digit in Hd; apply andb_true_iff in Hd; lia).
  constructor.
  - unfold ascii. apply forallb_forall. intros c Hc%list_elem_of_In. specialize (Hb c Hc). apply andb_true_iff. lia.
  - intros Hc. specialize (Hb _ Hc). unfold comma in Hb. lia.
  - apply trim_id; intros c Hc; assert (Hin : c ∈ Itoa n) by (by (apply head_Some_elem_of in Hc || apply last_Some_elem_of in Hc));
      specialize (Hb c Hin); unfold is_blank; rewrite (proj2 (Z.eqb_neq c 32)) by lia; cbn; apply andb_false_iff; right; lia.
Qed.

(** ** What a specification means *)

Lemma endpoint_slash u raw e : endpoint u raw = Some e → HasSuffix e [slash] = true.
Proof.
  unfold endpoint. destruct (TrimSpace u raw) as [|x l]; [done|]. destruct (HasSuffix (x :: l) [slash]) eqn:E; intros [= <-]; [done|].
  apply HasSuffix_app. by exists (x :: l).
Qed.
Lemma Sscanf_range v n : Sscanf_d v = Some n → - two63 ≤ n < two63.
Proof.
  unfold Sscanf_d. generalize (match v with c :: r => if c =? 45 then (true, r) else if c =? 43 then (false, r) else (false, v) | [] => (false, []) end). intros [neg r].
  destruct (leading_digits r) as [|d ds]; [done|]. generalize (read_digits 0 (d :: ds)). intros m. cbn zeta. destruct ((_ <=? _) && _) eqn:E; [|done]. intros [= <-]. apply andb_true_iff in E. lia.
Qed.
Lemma set_dynamic_keeps k v c c' : set_dynamic k v c = inl c' → BaseURL c' = BaseURL c ∧ BaseURLs c' = BaseURLs c ∧
  ((- two63 ≤ ContextSize c < two63 ∧ - two63 ≤ MaxTokens c < two63) → (- two63 ≤ ContextSize c' < two63 ∧ - two63 ≤ MaxTokens c' < two63)).
Proof.
  unfold set_dynamic. destruct c as [b bs t cs mt m a re th]. repeat (case_decide; [try by intros [= <-]|]); [..|done];
    (destruct (Sscanf_d v) as [n|] eqn:E; [|done]; apply Sscanf_range in E; intros [= <-]; split_and!; [done..|cbn; tauto]).
Qed.

(** A specification that parses names an endpoint, the first is the one displayed, each ends
    in a slash, and its numbers fit an [int]. *)
Theorem dynamic_wellformed (u : Unicode) (spec : bytes) (c : DynamicModelConfig) (H : ParseDynamicModel u spec = inl c) :
  head (BaseURLs c) = Some (BaseURL c) ∧ Forall (λ b, HasSuffix b [slash] = true) (BaseURLs c) ∧
  - two63 ≤ ContextSize c < two63 ∧ - two63 ≤ MaxTokens c < two63.
Proof.
  unfold ParseDynamicModel in H. destruct (hasPrefix spec dynamic_prefix); [|done]. destruct (Split comma _) as [|e ps]; [done|].
  destruct (omap (endpoint u) (Split pipe e)) as [|b bs] eqn:Eb; [done|].
  assert (Hb : Forall (λ b, HasSuffix b [slash] = true) (b :: bs)).
  { apply Forall_forall. intros x Hx. rewrite <-Eb in Hx. apply list_elem_of_omap in Hx as (raw & _ & Hx). by eapply endpoint_slash. }
  set (c0 := MkDynamic b (b :: bs) (lit "openai") 0 0 [] [] [] []) in H.
  assert (H0 : head (BaseURLs c0) = Some (BaseURL c0) ∧ Forall (λ b, HasSuffix b [slash] = true) (BaseURLs c0)
    ∧ - two63 ≤ ContextSize c0 < two63 ∧ - two63 ≤ MaxTokens c0 < two63) by (unfold two63; split_and!; cbn; [done|done|lia..]).
  clearbody c0. clear Eb Hb. revert c0 H0 H. induction ps as [|p ps IH]; intros c0 H0 H; cbn [parse_params] in H; [by injection H as <-|].
  destruct (TrimSpace u p) as [|x l]; [by apply (IH c0)|]. destruct (param_kv u (x :: l)) as [[k v]|]; [|done].
  destruct (set_dynamic k v c0) as [c1|] eqn:E; [|done]. apply (IH c1); [|done].
  destruct (set_dynamic_keeps _ _ _ _ E) as (-> & -> & Hn). destruct H0 as (? & ? & ?). split_and!; try done; by apply Hn.
Qed.

(** *** Printed and read back *)

Definition param (k : string) (v : bytes) : bytes := comma :: lit k ++ equals :: v.
Definition fields (c : DynamicModelConfig) : list (string * bytes) :=
  [("type"%string, Type_ c); ("context_size"%string, Itoa (ContextSize c)); ("max_tokens"%string, Itoa (MaxTokens c)); ("model"%string, Model c);
   ("alias"%string, Alias c); ("reasoning_effort"%string, ReasoningEffort c); ("thinking"%string, Thinking c)].
Definition join_urls (bs : list bytes) : bytes := match bs with [] => [] | b :: bs => b ++ mjoin ((λ b, pipe :: b) <$> bs) end.
Definition render (c : DynamicModelConfig) : bytes :=
  dynamic_prefix ++ join_urls (BaseURLs c) ++ mjoin ((λ kv, param kv.1 kv.2) <$> fields c).
Record printable (c : DynamicModelConfig) : Prop := {
  pr_first : head (BaseURLs c) = Some (BaseURL c);
  pr_urls : Forall (λ b, plain b ∧ pipe ∉ b ∧ HasSuffix b [slash] = true) (BaseURLs c);
  pr_context : 0 ≤ ContextSize c < two63;
  pr_max : 0 ≤ MaxTokens c < two63;
  pr_texts : Forall plain [Type_ c; Model c; Alias c; ReasoningEffort c; Thinking c];
}.

Lemma hasPrefix_same p s : hasPrefix (p ++ s) p = true.
Proof. apply hasPrefix_app. by exists s. Qed.

Lemma split_urls b bs : Forall (λ b, pipe ∉ b) (b :: bs) → Split pipe (b ++ mjoin ((λ b, pipe :: b) <$> bs)) = b :: bs.
Proof.
  revert b. induction bs as [|x bs IH]; intros b [Hb Hbs]%Forall_cons; [cbn; rewrite app_nil_r; by apply Split_whole|].
  change (mjoin ((λ b, pipe :: b) <$> x :: bs)) with (pipe :: (x ++ mjoin ((λ b, pipe :: b) <$> bs))). by rewrite Split_cons, IH.
Qed.
Lemma urls_no_comma b bs : Forall (λ b, comma ∉ b) (b :: bs) → comma ∉ b ++ mjoin ((λ b, pipe :: b) <$> bs).
Proof.
  intros [Hb Hbs]%Forall_cons. rewrite elem_of_app. intros [?|(l & Hc & (x & -> & Hx)%list_elem_of_fmap)%list_elem_of_join]; [done|].
  apply elem_of_cons in Hc as [|Hc]; [done|]. by eapply (proj1 (Forall_forall _ _) Hbs).
Qed.
Lemma split_params U (kvs : list (string * bytes)) : comma ∉ U → Forall (λ kv, comma ∉ lit kv.1 ∧ comma ∉ kv.2) kvs →
  Split comma (U ++ mjoin ((λ kv, param kv.1 kv.2) <$> kvs)) = U :: ((λ kv, lit kv.1 ++ equals :: kv.2) <$> kvs).
Proof.
  intros HU Hk. revert U HU. induction Hk as [|[k v] kvs [Hk Hv] _ IH]; intros U HU; [cbn; rewrite app_nil_r; by apply Split_whole|].
  change (mjoin ((λ kv, param kv.1 kv.2) <$> (k, v) :: kvs)) with (comma :: ((lit k ++ equals :: v) ++ mjoin ((λ kv, param kv.1 kv.2) <$> kvs))).
  rewrite Split_cons, fmap_cons by done. f_equal. apply IH. cbn [fst snd] in *. rewrite elem_of_app, elem_of_cons. unfold equals, comma in *. intros [?|[?|?]]; done.
Qed.

(** Keys are plain, and hold no sign of their own. *)
Definition key_ok (k : string) : bool :=
  let s := lit k in ascii s && bool_decide (comma ∉ s) && bool_decide (trim_blanks s = s) && bool_decide (trim_blanks (s ++ [equals]) = s ++ [equals]) && bool_decide (equals ∉ s).
Lemma key_facts k : key_ok k = true → equals ∉ lit k ∧ plain (lit k ++ [equals]) ∧ plain (lit k).
Proof.
  unfold key_ok. rewrite !andb_true_iff, !bool_decide_eq_true. intros ((((Ha & Hc) & Ht) & Ht') & He). split_and!; [done| |by constructor].
  constructor; [by rewrite ascii_concat, Ha| |done]. rewrite elem_of_app, list_elem_of_singleton. by intros [?|?].
Qed.
Lemma parse_known {A} u set k v ps (c : A) : key_ok k = true → plain v →
  parse_params u set ((lit k ++ equals :: v) :: ps) c = match set (lit k) v c with inl c => parse_params u set ps c | inr e => inr e end.
Proof. intros (H1 & H2 & H3)%key_facts Hv. by apply parse_params_kv. Qed.

Lemma Sscanf_back n : 0 ≤ n < two63 → Sscanf_d (Itoa n) = Some n.
Proof. intros Hn. rewrite <-(app_nil_r (Itoa n)). by apply Sscanf_Itoa. Qed.

(** a specification written out in full is read back as it was: every endpoint, every
    number, every name, with commas and bars nowhere but between the parts. *)
Theorem spec_roundtrip (u : Unicode) (c : DynamicModelConfig) (H : printable c) : ParseDynamicModel u (render c) = inl c.
Proof.
  destruct H as [Hf Hu Hc Hm Ht]. destruct c as [b0 bs t cs mt m a re th]. cbn [BaseURL BaseURLs Type_ ContextSize MaxTokens Model Alias ReasoningEffort Thinking] in *. destruct bs as [|b bs]; [done|]. cbn in Hf. injection Hf as <-.
  rewrite !Forall_cons in Ht. destruct Ht as (Pt & Pm & Pa & Pr & Pth & _).
  pose proof (decimal_plain cs ltac:(lia)) as Pcs. pose proof (decimal_plain mt ltac:(lia)) as Pmt.
  unfold ParseDynamicModel, render. rewrite hasPrefix_same, drop_app_length. cbn [BaseURLs]. rewrite split_params; [|apply urls_no_comma; eapply Forall_impl; [exact Hu|]; intros x (Px & _); apply Px|].
  2: { unfold fields. rewrite !Forall_cons. split_and!; try apply Forall_nil_2; cbn [fst snd]; try (by apply (bool_decide_unpack _)); by apply pl_comma. }
  unfold fields. rewrite !fmap_cons, fmap_nil. cbn [fst snd Type_ ContextSize MaxTokens Model Alias ReasoningEffort Thinking].
  unfold join_urls. rewrite split_urls by (eapply Forall_impl; [exact Hu|]; by intros x (_ & ? & _)).
  assert (Ho : omap (endpoint u) (b :: bs) = b :: bs).
  { clear -Hu. induction Hu as [|x l (Px & _ & Hx) Hl IH]; [done|]. cbn. unfold endpoint at 1. rewrite plain_trim by done. destruct x as [|y x]; [done|].
    rewrite Hx. f_equal. exact IH. }
  rewrite Ho. do 7 (rewrite parse_known by done; cbn [set_dynamic]; repeat rewrite decide_False by done; rewrite decide_True by done; rewrite ?Sscanf_back by done). done.
Qed.

(** *** A bare URL *)

Definition with_type (t : bytes) (c : DynamicModelConfig) : DynamicModelConfig :=
  MkDynamic (BaseURL c) (BaseURLs c) t (ContextSize c) (MaxTokens c) (Model c) (Alias c) (ReasoningEffort c) (Thinking c).

(** a bare URL is read as the dynamic specification it abbreviates, as of type
    [openai_vllm] unless a parameter [type=] says otherwise; errors included, and doing it
    twice changes nothing. *)
Theorem bare_url_exact (u : Unicode) (m : bytes) (H : hasPrefix m (lit "http://") || hasPrefix m (lit "https://") = true) :
  ParseDynamicModel u (NormalizeModelSpec u m) =
    (if existsb (type_param u) (drop 1 (Split comma (dynamic_prefix ++ m))) then ParseDynamicModel u (dynamic_prefix ++ m)
     else match ParseDynamicModel u (dynamic_prefix ++ m) with inl c => inl (with_type (lit "openai_vllm") c) | inr e => inr e end) ∧
  NormalizeModelSpec u (NormalizeModelSpec u m) = NormalizeModelSpec u m.
Proof.
  assert (Hn : ∀ x, NormalizeModelSpec u (dynamic_prefix ++ x) = dynamic_prefix ++ x) by done.
  assert (Hd : NormalizeModelSpec u m = if existsb (type_param u) (drop 1 (Split comma (dynamic_prefix ++ m))) then dynamic_prefix ++ m else (dynamic_prefix ++ m) ++ lit ",type=openai_vllm").
  { unfold NormalizeModelSpec. rewrite <-negb_orb, H. cbn [negb]. cbv zeta. destruct (Cut comma (dynamic_prefix ++ m)) as [[a b]|] eqn:E.
    - apply Cut_Some in E as [E Ha]. rewrite E, Split_cons by done. done.
    - apply Cut_None in E. by rewrite Split_whole. }
  split; [|rewrite Hd; destruct (existsb _ _); [apply Hn|rewrite <-app_assoc; apply Hn]].
  rewrite Hd. destruct (existsb _ _); [done|]. rewrite <-app_assoc. unfold ParseDynamicModel. rewrite !hasPrefix_same, !drop_app_length.
  change (lit ",type=openai_vllm") with (comma :: (lit "type" ++ equals :: lit "openai_vllm")). rewrite Split_app.
  destruct (Split_join comma m) as [Hne _]. destruct (Split comma m) as [|e ps]; [done|]. cbn [app].
  destruct (omap (endpoint u) (Split pipe e)) as [|b bs]; [done|]. rewrite (Split_whole comma (lit "type" ++ _)) by (by apply (bool_decide_unpack _)).
  rewrite parse_params_app. destruct (parse_params u set_dynamic ps _) as [c|]; [|done].
  rewrite parse_known; [|done|by constructor; [|apply (bool_decide_unpack _)|]]. destruct c. cbn [set_dynamic]. by rewrite decide_True.
Qed.

(** ** What is found out about endpoints *)

Section memo.
Context (answer : nat → bytes → option bytes) (path_of : bytes → option bytes).
Abbreviation resolve := (resolveDynamicEndpoint answer path_of).

(** Calls of [resolveDynamicEndpoint], in the order their memo entries are settled. *)
Fixpoint resolve_calls (calls : list (bytes * bool)) (d : discovery) : list resolvedEndpoint * discovery :=
  match calls with
  | [] => ([], d)
  | (b, want) :: calls => let '(r, d) := resolve b want d in let '(rs, d) := resolve_calls calls d in (r :: rs, d)
  end.

Lemma discover_probes b want n : (n ≤ (discover answer path_of b want n).2 ≤ n + 2)%nat.
Proof.
  assert (Hp : ∀ b n, ∃ x, probeModelsEndpoint answer b n = (x, S n)) by (intros; eexists; reflexivity).
  assert (H2 : ∀ b m n, (n ≤ (if want && bool_decide (m = []) then match probeModelsEndpoint answer b n with (Some id, n) => (MkResolved b id, n) | (None, n) => (MkResolved b m, n) end else (MkResolved b m, n)).2 ≤ S n)%nat).
  { intros b' m k. destruct (want && _); [|cbn; lia]. destruct (Hp b' k) as [[x|] ->]; cbn; lia. }
  unfold discover. destruct (shouldProbeForV1 path_of b); [|specialize (H2 b [] n); lia].
  destruct (Hp (TrimRight slash b ++ lit "/v1/") n) as [[x|] ->]; [specialize (H2 (TrimRight slash b ++ lit "/v1/") x (S n))|specialize (H2 b [] (S n))]; lia.
Qed.

Lemma resolve_step b want d : let '(r, d') := resolve b want d in
  entries d' !! b = Some r ∧ (∀ x y, entries d !! x = Some y → entries d' !! x = Some y) ∧ dom (entries d') = dom (entries d) ∪ {[b]} ∧
  (probes d ≤ probes d')%nat ∧ (probes d' + 2 * size (entries d) ≤ probes d + 2 * size (entries d'))%nat.
Proof.
  unfold resolveDynamicEndpoint. destruct (entries d !! b) as [r|] eqn:E.
  - split_and!; try done; [|lia..]. assert (b ∈ dom (entries d)) by (apply elem_of_dom; by eexists). set_solver.
  - pose proof (discover_probes b want (probes d)) as Hp. destruct (discover _ _ _ _ _) as [r n]. cbn [snd entries probes] in *. split_and!.
    + apply lookup_insert_eq.
    + intros x y Hx. rewrite lookup_insert_ne; [done|]. by intros ->; rewrite E in Hx.
    + rewrite dom_insert_L. set_solver.
    + lia.
    + rewrite map_size_insert_None by done. lia.
Qed.

Lemma resolve_calls_spec calls : ∀ d, let '(rs, d') := resolve_calls calls d in
  length rs = length calls ∧ (∀ x y, entries d !! x = Some y → entries d' !! x = Some y) ∧
  (∀ i b want r, calls !! i = Some (b, want) → rs !! i = Some r → entries d' !! b = Some r) ∧
  dom (entries d') = dom (entries d) ∪ list_to_set calls.*1 ∧ (probes d' + 2 * size (entries d) ≤ probes d + 2 * size (entries d'))%nat.
Proof.
  induction calls as [|[b want] calls IH]; intros d; cbn [resolve_calls]; [split_and!; try done; set_solver|].
  pose proof (resolve_step b want d) as Hs. destruct (resolve b want d) as [r d1]. destruct Hs as (S1 & S2 & S3 & _ & S5).
  specialize (IH d1). destruct (resolve_calls calls d1) as [rs d2]. destruct IH as (I1 & I2 & I3 & I4 & I5). split_and!.
  - cbn. by rewrite I1.
  - intros x y Hx. by apply I2, S2.
  - intros [|i] b' w' r' Hc Hr; cbn in Hc, Hr; [injection Hc as <- <-; injection Hr as <-; by apply I2|by eapply I3].
  - rewrite I4, S3, fmap_cons, list_to_set_cons. set_solver.
  - lia.
Qed.
End memo.

(** however often and for whatever purpose an endpoint is looked up in a process, it is
    probed at most twice, and every look-up gives what the first one found. *)
Theorem probed_once (answer : nat → bytes → option bytes) (path_of : bytes → option bytes) (calls : list (bytes * bool)) :
  let '(rs, d) := resolve_calls answer path_of calls (MkDiscovery ∅ 0) in
  (probes d ≤ 2 * length (remove_dups calls.*1))%nat ∧
  (∀ i j b w w', calls !! i = Some (b, w) → calls !! j = Some (b, w') → rs !! i = rs !! j ∧ is_Some (rs !! i)).
Proof.
  pose proof (resolve_calls_spec answer path_of calls (MkDiscovery ∅ 0)) as H. destruct (resolve_calls _ _ _ _) as [rs d].
  destruct H as (H1 & _ & H3 & H4 & H5). split.
  - cbn [entries probes] in *. rewrite map_size_empty in H5. rewrite dom_empty_L, (left_id_L ∅ union) in H4.
    assert (Hs : size (entries d) = length (remove_dups calls.*1)); [|lia].
    rewrite <-size_dom, H4. rewrite <-(size_list_to_set (C := gset bytes) (remove_dups calls.*1)) by apply NoDup_remove_dups.
    f_equal. apply set_eq. intros x. rewrite !elem_of_list_to_set. by rewrite elem_of_remove_dups.
  - intros i j b w w' Hi Hj. destruct (lookup_lt_is_Some_2 rs i) as [r Hr]; [rewrite H1; by eapply lookup_lt_Some|].
    destruct (lookup_lt_is_Some_2 rs j) as [r' Hr']; [rewrite H1; by eapply lookup_lt_Some|].
    pose proof (H3 _ _ _ _ Hi Hr) as E1. pose proof (H3 _ _ _ _ Hj Hr') as E2. rewrite E1 in E2. injection E2 as <-. by rewrite Hr, Hr'.
Qed.

Module SpecEx.

Definition u : Unicode := MkUnicode (λ s, s) (λ s, s) (λ s t, bool_decide (s = t)).

Definition gpu : DynamicModelConfig :=
  MkDynamic (lit "http://gpu1:8000/v1/") [lit "http://gpu1:8000/v1/"; lit "http://gpu2/v1/"] (lit "openai") 202752 128 (lit "glm=4.6") [] (lit "low") [].
Lemma gpu_printable : printable gpu.
Proof.
  constructor; cbn; [done| |unfold two63; lia..|].
  - repeat constructor; by apply (bool_decide_unpack _).
  - repeat constructor; by apply (bool_decide_unpack _).
Qed.
Lemma spec_roundtrip_witness : ParseDynamicModel u (render gpu) = inl gpu.
Proof. apply (spec_roundtrip u gpu gpu_printable). Defined.
Lemma dynamic_wellformed_witness : head (BaseURLs gpu) = Some (lit "http://gpu1:8000/v1/").
Proof. apply (dynamic_wellformed u (render gpu) gpu). by vm_compute. Defined.
Lemma bare_url_exact_witness : NormalizeModelSpec u (NormalizeModelSpec u (lit "http://gpu1,alias=a")) = lit "dynamic/http://gpu1,alias=a,type=openai_vllm".
Proof. rewrite (proj2 (bare_url_exact u (lit "http://gpu1,alias=a") eq_refl)). reflexivity. Defined.

(** The documented example of an OpenRouter specification is refused: the list of providers
    is cut at its comma before it is looked at. *)
Lemma documented_example_refused :
  ParseOpenRouterModel u (lit "openrouter/anthropic/claude-3.5-sonnet,context_size=200000,max_tokens=2048,provider=OpenAI,Together") = inr (EFormat (lit "Together")).
Proof. by vm_compute. Qed.

(** A number is read as far as it goes. *)
Lemma number_cut_short : (MaxTokens <$> (match ParseDynamicModel u (lit "dynamic/http://h,max_tokens=128k") with inl c => Some c | inr _ => None end)) = Some 128.
Proof. by vm_compute. Qed.

(** A type written with a blank before its sign is overruled. *)
Lemma spaced_type_overruled : (Type_ <$> (match ParseDynamicModel u (NormalizeModelSpec u (lit "http://h,type =anthropic")) with inl c => Some c | inr _ => None end)) = Some (lit "openai_vllm").
Proof. by vm_compute. Qed.

(** An endpoint first looked up where no model was wanted has none for the rest of the
    process, though it would list one. *)
Definition lists : nat → bytes → option bytes := λ _ _, Some (lit "claude").
Definition path_of : bytes → option bytes := λ b, Some (if HasSuffix b (lit "/v1/") then lit "/v1/" else lit "/").
Definition plain_spec : bytes := lit "dynamic/http://b/v1,type=anthropic".
Definition named (r : ModelInfo + getter_panic) : bytes + getter_panic := match r with inl i => inl (ModelIdentifier i) | inr p => inr p end.
Lemma asked_too_early :
  named (getDynamicChatGetter lists path_of u plain_spec (MkDiscovery ∅ 0)).1 = inl (lit "claude") ∧
  (let d := (getDynamicChatGetter lists path_of u (lit "dynamic/http://a/v1|http://b/v1,type=anthropic") (MkDiscovery ∅ 0)).2 in
   named (getDynamicChatGetter lists path_of u plain_spec d).1 = inr (PAutodiscovery (lit "http://b/v1/"))).
Proof. split; by vm_compute. Qed.

End SpecEx.
