(* ===== verification/AdmissionSim.v ===== *)
(** * AdmissionSim: a model run of sessions admitted while the first token is fast

    [src/benchmark/admission_sim.go], a discrete-event simulation.  The event queue is a list,
    and a step takes any event that [evQueue.Less] puts no other before: which of two that tie
    a binary heap gives out first is left open.  Handlers are functions on the state, [None] for an index
    out of range.  Times are float64 seconds. *)

From stdpp Require Import base gmap sets list strings sorting.
From Stdlib Require Import ZArith Lia.
From Corelib Require Import SpecFloat.
From S2P Require Import Prelude.
Open Scope Z_scope.

Definition f0 : float64 := S754_zero false.
(** [math.Max]. *)
Definition fmax (x y : float64) : float64 :=
  match x, y with
  | S754_infinity false, _ | _, S754_infinity false => f64_inf
  | S754_nan, _ | _, S754_nan => S754_nan
  | S754_zero s, S754_zero _ => if s then y else x
  | _, _ => if SFltb y x then x else y
  end.

Definition fle (x y : float64) : Prop := SFleb x y = true.
#[export] Instance fle_dec : RelDecision fle.
Proof. intros x y. unfold fle. solve_decision. Defined.

(** ** Configuration and workload *)

Record ServerProfile := MkProfile { PName : string; PrefillTokensPerSec : float64; DecodeTokensPerSec : float64; MaxSeqs : Z; CacheHitRate : float64 }.
Record SimConfig := MkSimConfig { Servers : list ServerProfile; AdmitEvery : float64; TTFTLimitSec : float64; MaxSeries : Z; HorizonSec : float64; TTFTWindowSec : float64 }.
(** The defaults [RunAdmissionSim] puts in. *)
Definition or_f64 (x : float64) (d : Z) : float64 := if SFleb x f0 then f64_of_Z d else x.
Definition with_defaults (c : SimConfig) : SimConfig :=
  MkSimConfig (Servers c) (or_f64 (AdmitEvery c) 1) (or_f64 (TTFTLimitSec c) 5) (MaxSeries c) (or_f64 (HorizonSec c) 3600) (or_f64 (TTFTWindowSec c) 30).

(** A request: when it is due from the session's start, its input and output tokens. *)
Record Req := MkReq { r_at : float64; r_in : float64; r_out : float64 }.
Abbreviation SimSession := (list Req).

(** ** Events *)

Inductive evKind := evArrive | evDone | evAdmit.
Definition kind_no (k : evKind) : Z := match k with evArrive => 0 | evDone => 1 | evAdmit => 2 end.
Record event := MkEvent { e_at : float64; e_kind : evKind; e_sess : nat; e_srv : nat }.
Definition f64_neqb (x y : float64) : bool := negb (SFeqb x y).
Definition Less (a b : event) : bool := if f64_neqb (e_at a) (e_at b) then SFltb (e_at a) (e_at b) else kind_no (e_kind a) <? kind_no (e_kind b).

(** ** State *)

(** [resident] in the order its heap gives the completion times out. *)
Record srvState := MkSrv { prof : ServerProfile; prefillFreeAt : float64; resident : list float64; outstanding : Z; prefillBusy : float64; slotSecs : float64 }.
Record sessState := MkSess { reqs : SimSession; cursor : nat; admittedAt : float64; s_active : bool }.
Record sim := MkSim {
  now : float64; srv : list srvState; sess : list sessState; q : list event; nextSession : Z;
  active : Z; maxSessions : Z; inflight : Z; maxInflight : Z; concSecs : float64; completed : Z;
  ttfts : list float64; recent : list (float64 * float64);   (* with the time each was observed *)
  recentSum : float64; seriesStall : float64; blockedSince : float64; pending : list nat; inputSum : float64; retired : Z;
}.

Definition set_q (l : list event) (s : sim) : sim :=
  MkSim (now s) (srv s) (sess s) l (nextSession s) (active s) (maxSessions s) (inflight s) (maxInflight s) (concSecs s) (completed s) (ttfts s) (recent s) (recentSum s) (seriesStall s) (blockedSince s) (pending s) (inputSum s) (retired s).
Definition push (e : event) (s : sim) : sim := set_q (e :: q s) s.
Definition set_sess (l : list sessState) (act ret : Z) (s : sim) : sim :=
  MkSim (now s) (srv s) l (q s) (nextSession s) act (maxSessions s) (inflight s) (maxInflight s) (concSecs s) (completed s) (ttfts s) (recent s) (recentSum s) (seriesStall s) (blockedSince s) (pending s) (inputSum s) ret.
Definition set_pending (p : list nat) (stall since : float64) (s : sim) : sim :=
  MkSim (now s) (srv s) (sess s) (q s) (nextSession s) (active s) (maxSessions s) (inflight s) (maxInflight s) (concSecs s) (completed s) (ttfts s) (recent s) (recentSum s) stall since p (inputSum s) (retired s).
Definition set_recent (t : list float64) (r : list (float64 * float64)) (sum : float64) (s : sim) : sim :=
  MkSim (now s) (srv s) (sess s) (q s) (nextSession s) (active s) (maxSessions s) (inflight s) (maxInflight s) (concSecs s) (completed s) t r sum (seriesStall s) (blockedSince s) (pending s) (inputSum s) (retired s).
Definition set_srv (l : list srvState) (infl maxi comp : Z) (sum : float64) (s : sim) : sim :=
  MkSim (now s) l (sess s) (q s) (nextSession s) (active s) (maxSessions s) infl maxi (concSecs s) comp (ttfts s) (recent s) (recentSum s) (seriesStall s) (blockedSince s) (pending s) sum (retired s).

Definition start (cfg : SimConfig) : sim :=
  MkSim f0 ((λ p, MkSrv p f0 [] 0 f0 f0) <$> Servers cfg) [] [MkEvent f0 evAdmit 0 0] 0 0 0 0 0 f0 0 [] [] f0 f0 f0 [] f0 0.

(** ** The closures *)

Section run.
Context (cfg : SimConfig) (wl : list SimSession).

Definition admit_session (s : sim) : sim :=
  match wl !! Z.to_nat (nextSession s mod Z.of_nat (length wl)) with
  | None => s   (* no sessions *)
  | Some tpl =>
      MkSim (now s) (srv s) (sess s ++ [MkSess tpl 0 (now s) true]) (MkEvent (now s) evArrive (length (sess s)) 0 :: q s) (nextSession s + 1)
        (active s + 1) (if maxSessions s <? active s + 1 then active s + 1 else maxSessions s) (inflight s) (maxInflight s) (concSecs s) (completed s)
        (ttfts s) (recent s) (recentSum s) (seriesStall s) (blockedSince s) (pending s) (inputSum s) (retired s)
  end.

Fixpoint expire_loop (cut : float64) (r : list (float64 * float64)) (sum : float64) : list (float64 * float64) * float64 :=
  match r with
  | (t, at_) :: r' => if SFltb at_ cut then expire_loop cut r' (f64_sub sum t) else (r, sum)
  | [] => ([], sum)
  end.
Definition expire (s : sim) : sim :=
  let '(r, sum) := expire_loop (f64_sub (now s) (TTFTWindowSec cfg)) (recent s) (recentSum s) in set_recent (ttfts s) r sum s.
Definition gateOpen (s : sim) : bool * sim :=
  let s := expire s in
  (match recent s with
   | [] => true
   | r => SFltb (f64_div (recentSum s) (f64_of_Z (Z.of_nat (length r)))) (TTFTLimitSec cfg)
   end, s).
Definition observe (ttft : float64) (s : sim) : sim :=
  expire (set_recent (ttfts s ++ [ttft]) (recent s ++ [(ttft, now s)]) (f64_add (recentSum s) ttft) s).

(** The first backend with the fewest outstanding requests. *)
Fixpoint pick_loop (l : list srvState) (i best : nat) (bestN : Z) : nat :=
  match l with
  | [] => best
  | x :: l => if outstanding x <? bestN then pick_loop l (S i) i (outstanding x) else pick_loop l (S i) best bestN
  end.
Definition pick (l : list srvState) : nat := pick_loop l 0 0 (two31 - 1).

Fixpoint retire_done (t : float64) (l : list float64) : list float64 := match l with x :: r => if SFleb x t then retire_done t r else l | [] => [] end.
Fixpoint heap_insert (x : float64) (l : list float64) : list float64 := match l with y :: r => if SFltb x y then x :: l else y :: heap_insert x r | [] => [x] end.
(** When a sequence slot is there for a request that arrives now; [None] without any slot at all. *)
Definition slot_at (t : float64) (res : list float64) (max : Z) : option float64 := if max <=? Z.of_nat (length res) then head res else Some t.
(** What a backend makes of a request: its new state, when the prefill starts and ends, and when all is done. *)
Definition serve (t : float64) (r : Req) (st : srvState) : option (srvState * float64 * float64) :=
  let res := retire_done t (resident st) in
  match slot_at t res (MaxSeqs (prof st)) with
  | None => None
  | Some slotAt =>
      let start := fmax (fmax t (prefillFreeAt st)) slotAt in
      let pdur := f64_div (f64_mul (r_in r) (f64_sub (f64_of_Z 1) (CacheHitRate (prof st)))) (PrefillTokensPerSec (prof st)) in
      let ddur := f64_div (r_out r) (DecodeTokensPerSec (prof st)) in
      let end_ := f64_add (f64_add start pdur) ddur in
      Some (MkSrv (prof st) (f64_add start pdur) (heap_insert end_ res) (outstanding st + 1) (f64_add (prefillBusy st) pdur)
              (f64_add (slotSecs st) (f64_sub end_ start)), f64_sub (f64_add start pdur) t, end_)
  end.
Definition dispatch (si : nat) (s : sim) : option sim :=
  match sess s !! si with
  | None => None
  | Some x =>
      match reqs x !! cursor x with
      | None => None
      | Some r =>
          let i := pick (srv s) in
          match srv s !! i with
          | None => None
          | Some st =>
              match serve (now s) r st with
              | None => None
              | Some (st', ttft, end_) =>
                  let s := set_srv (<[i := st']> (srv s)) (inflight s + 1) (if maxInflight s <? inflight s + 1 then inflight s + 1 else maxInflight s)
                             (completed s) (f64_add (inputSum s) (r_in r)) s in
                  Some (push (MkEvent end_ evDone si i) (observe ttft s))
              end
          end
      end
  end.

(** A session that has no request left. *)
Definition retire (si : nat) (s : sim) : sim :=
  match sess s !! si with
  | Some x => if s_active x then set_sess (<[si := MkSess (reqs x) (cursor x) (admittedAt x) false]> (sess s)) (active s - 1) (retired s + 1) s else s
  | None => s
  end.

(** ** The cases of the loop *)

Definition on_admit (s : sim) : sim :=
  let '(open, s) := gateOpen s in
  let s := if open : bool then admit_session s else s in
  if SFleb (f64_add (now s) (AdmitEvery cfg)) (HorizonSec cfg) then push (MkEvent (f64_add (now s) (AdmitEvery cfg)) evAdmit 0 0) s else s.

Definition on_arrive (si : nat) (s : sim) : option sim :=
  match sess s !! si with
  | None => None
  | Some x =>
      if decide (length (reqs x) ≤ cursor x)%nat then Some (retire si s)
      else if (0 <? MaxSeries cfg) && (MaxSeries cfg <=? inflight s) then
        Some (set_pending (pending s ++ [si]) (seriesStall s) (match pending s with [] => now s | _ => blockedSince s end) s)
      else dispatch si s
  end.

(** The session moves on: its next request is due at its own time, or now when that has passed. *)
Definition next_request (si : nat) (s : sim) : option sim :=
  match sess s !! si with
  | None => None
  | Some x =>
      let x' := MkSess (reqs x) (S (cursor x)) (admittedAt x) (s_active x) in
      let s := set_sess (<[si := x']> (sess s)) (active s) (retired s) s in
      match reqs x !! S (cursor x) with
      | None => Some (retire si s)
      | Some r => Some (push (MkEvent (fmax (f64_add (admittedAt x) (r_at r)) (now s)) evArrive si 0) s)
      end
  end.
(** One waiter is let through. *)
Definition let_through (s : sim) : option sim :=
  match pending s with
  | [] => Some s
  | next :: rest =>
      if (MaxSeries cfg =? 0) || (inflight s <? MaxSeries cfg) then
        let stall := match rest with [] => f64_add (seriesStall s) (f64_sub (now s) (blockedSince s)) | _ => seriesStall s end in
        let s := set_pending rest stall (blockedSince s) s in
        match sess s !! next with
        | None => None
        | Some x => if decide (cursor x < length (reqs x))%nat then dispatch next s else Some s
        end
      else Some s
  end.
Definition on_done (si i : nat) (s : sim) : option sim :=
  match srv s !! i with
  | None => None
  | Some st =>
      let st' := MkSrv (prof st) (prefillFreeAt st) (resident st) (outstanding st - 1) (prefillBusy st) (slotSecs st) in
      let s := set_srv (<[i := st']> (srv s)) (inflight s - 1) (maxInflight s) (completed s + 1) (inputSum s) s in
      match next_request si s with Some s => let_through s | None => None end
  end.

(** The jump to the event's time. *)
Definition advance (t : float64) (s : sim) : sim :=
  if SFltb (now s) t then
    MkSim t (srv s) (sess s) (q s) (nextSession s) (active s) (maxSessions s) (inflight s) (maxInflight s)
      (f64_add (concSecs s) (f64_mul (f64_of_Z (inflight s)) (f64_sub t (now s)))) (completed s) (ttfts s) (recent s) (recentSum s) (seriesStall s) (blockedSince s) (pending s) (inputSum s) (retired s)
  else s.
Definition handle (e : event) (s : sim) : option sim :=
  let s := advance (e_at e) s in
  match e_kind e with
  | evAdmit => Some (on_admit s)
  | evArrive => on_arrive (e_sess e) s
  | evDone => on_done (e_sess e) (e_srv e) s
  end.

(** [heap.Pop] gives out an event with none before it; past the horizon the loop ends. *)
Definition first_of (e : event) (l : list event) : Prop := ∀ e', e' ∈ l → Less e' e = false.
Inductive sim_step : sim → sim → Prop :=
  | step_event e rest s s' : q s ≡ₚ e :: rest → first_of e rest → SFltb (HorizonSec cfg) (e_at e) = false →
      handle e (set_q rest s) = Some s' → sim_step s s'.

(** ** The result *)

Record SimResult := MkResult {
  Profile : string; MaxSessions : Z; FinalSessions : Z; MaxConcurrency : Z; MeanConcurrency : float64; Completed : Z; SeriesStall : float64;
  MeanInputCompleted : float64; SessionsRetired : Z; ThroughputReqPerSec : float64; MeanTTFT : float64; P50TTFT : float64; P99TTFT : float64;
  Bound : string; PrefillUtil : float64; SeqSlotUtil : float64;
}.
Definition fsum (l : list float64) : float64 := foldl f64_add f0 l.
Definition bound_name (stall t pu su : float64) : string :=
  if (0 <? MaxSeries cfg) && SFltb (f64_mul (f64_div (f64_of_Z 1) (f64_of_Z 100)) t) stall then "CLIENT series pool"
  else if SFltb (f64_div (f64_of_Z 85) (f64_of_Z 100)) pu then "prefill bandwidth"
  else if SFltb (f64_div (f64_of_Z 85) (f64_of_Z 100)) su then "sequence slots (max-num-seqs)"
  else "TTFT gate, below any hard limit".
Definition result (s : sim) : option SimResult :=
  match Servers cfg with
  | [] => None
  | p :: _ =>
      let stall := match pending s with [] => seriesStall s | _ => f64_add (seriesStall s) (f64_sub (now s) (blockedSince s)) end in
      let n := Z.of_nat (length (ttfts s)) in
      let sorted := merge_sort fle (ttfts s) in
      let some := 0 <? n in
      let over (a b : float64) := f64_div a b in
      let servers := f64_of_Z (Z.of_nat (length (srv s))) in
      let moved := SFltb f0 (now s) in
      let pu := if moved then over (fsum (prefillBusy <$> srv s)) (f64_mul (now s) servers) else f0 in
      let su := if moved then over (fsum (slotSecs <$> srv s)) (f64_mul (f64_mul (now s) servers) (f64_of_Z (MaxSeqs p))) else f0 in
      Some (MkResult (PName p) (maxSessions s) (active s) (maxInflight s) (if moved then over (concSecs s) (now s) else f0) (completed s) stall
        (if some then over (inputSum s) (f64_of_Z n) else f0) (retired s) (if moved then over (f64_of_Z (completed s)) (now s) else f0)
        (if some then over (fsum sorted) (f64_of_Z n) else f0) (default f0 (sorted !! Z.to_nat (n / 2))) (default f0 (sorted !! Z.to_nat (Z.min (n - 1) (n * 99 / 100))))
        (bound_name stall (now s) pu su) pu su)
  end.
End run.

(** The run, for an order in which the queue gives ties out. *)
Definition sim_done (cfg : SimConfig) (s : sim) : Prop :=
  q s = [] ∨ ∃ e rest, q s ≡ₚ e :: rest ∧ first_of e rest ∧ SFltb (HorizonSec cfg) (e_at e) = true.

(** ** Counting *)

Definition b2z (b : bool) : Z := if b then 1 else 0.
Definition cnt {A} (p : A → bool) (l : list A) : Z := foldr (λ x n, b2z (p x) + n) 0 l.
Lemma b2z_range b : 0 ≤ b2z b ≤ 1.
Proof. destruct b; cbn; lia. Qed.
Lemma cntb_cons {A} (p : A → bool) x l : cnt p (x :: l) = b2z (p x) + cnt p l.
Proof. done. Qed.
Lemma cnt_one {A} (p : A → bool) x : cnt p [x] = b2z (p x).
Proof. cbn. lia. Qed.
Lemma cntb_app {A} (p : A → bool) l k : cnt p (l ++ k) = cnt p l + cnt p k.
Proof. induction l as [|x l IH]; [done|]. rewrite <-app_comm_cons, !cntb_cons, IH. lia. Qed.
Lemma cntb_nonneg {A} (p : A → bool) l : 0 ≤ cnt p l.
Proof. induction l as [|x l IH]; [done|]. rewrite cntb_cons. pose proof (b2z_range (p x)). lia. Qed.
#[export] Instance cnt_perm {A} (p : A → bool) : Proper ((≡ₚ) ==> (=)) (cnt p).
Proof. induction 1 as [|x l k _ IH|x y l|]; [done|rewrite !cntb_cons; lia|rewrite !cntb_cons; lia|lia]. Qed.
Lemma cnt_insert {A} (p : A → bool) l i x y : l !! i = Some x → cnt p (<[i := y]> l) = cnt p l - b2z (p x) + b2z (p y).
Proof.
  revert i. induction l as [|z l IH]; intros [|i] Hi; cbn [lookup list_lookup] in Hi; try done.
  - injection Hi as ->. cbn [insert list_insert]. rewrite !cntb_cons. lia.
  - change (<[S i := y]> (z :: l)) with (z :: <[i := y]> l). rewrite !cntb_cons, (IH i Hi). lia.
Qed.
Lemma cnt_none {A} (p : A → bool) l : (∀ x, x ∈ l → p x = false) → cnt p l = 0.
Proof. induction l as [|x l IH]; intros H; [done|]. rewrite cntb_cons, (H x) by left. rewrite IH; [done|]. intros y Hy. apply H. by right. Qed.
Lemma cnt_le {A} (p r : A → bool) l : (∀ x, p x = true → r x = true) → cnt p l ≤ cnt r l.
Proof.
  intros H. induction l as [|x l IH]; [done|]. rewrite !cntb_cons. specialize (H x). destruct (p x); [rewrite H by done; lia|]. cbn. pose proof (b2z_range (r x)). lia.
Qed.

Definition is_done (e : event) : bool := match e_kind e with evDone => true | _ => false end.
Definition is_done_on (i : nat) (e : event) : bool := is_done e && bool_decide (e_srv e = i).
(** What a session has in the queue: an arrival or a completion. *)
Definition of_sess (j : nat) (e : event) : bool := match e_kind e with evAdmit => false | _ => bool_decide (e_sess e = j) end.
Definition done_of (j : nat) (e : event) : bool := is_done e && bool_decide (e_sess e = j).
Definition is_j (j i : nat) : bool := bool_decide (i = j).

Lemma done_of_le j l : cnt (done_of j) l ≤ cnt (of_sess j) l.
Proof. apply cnt_le. intros e. unfold done_of, is_done, of_sess. by destruct (e_kind e). Qed.

#[local] Arguments cnt : simpl never.
#[local] Arguments is_done : simpl never.
#[local] Arguments is_done_on : simpl never.
#[local] Arguments of_sess : simpl never.
#[local] Arguments done_of : simpl never.
#[local] Arguments is_j : simpl never.

(** ** What every event leaves *)

Section invariant.
Context (cfg : SimConfig).

Record core (s : sim) : Prop := {
  c_inflight : inflight s = cnt is_done (q s);
  c_out i st : srv s !! i = Some st → outstanding st = cnt (is_done_on i) (q s);
  c_on e : e ∈ q s → is_done e = true → (e_srv e < length (srv s))%nat;
  c_prof : prof <$> srv s = Servers cfg;
  c_sess j x : sess s !! j = Some x → cnt (of_sess j) (q s) + cnt (is_j j) (pending s) = b2z (s_active x);
  c_known e : e ∈ q s → e_kind e ≠ evAdmit → (e_sess e < length (sess s))%nat;
  c_waiting j : j ∈ pending s → (j < length (sess s))%nat;
  c_cursor j x : sess s !! j = Some x → 0 < cnt (done_of j) (q s) + cnt (is_j j) (pending s) → (cursor x < length (reqs x))%nat;
  c_active : active s = cnt s_active (sess s);
  c_retired : retired s = cnt (λ x, negb (s_active x)) (sess s);
  c_next : nextSession s = Z.of_nat (length (sess s));
  c_peaks : active s ≤ maxSessions s ∧ inflight s ≤ maxInflight s;
  c_ttfts : Z.of_nat (length (ttfts s)) = completed s + inflight s;
  c_limit : 0 < MaxSeries cfg → inflight s ≤ MaxSeries cfg;
}.
(** A request waits only while the client's pool is full. *)
Definition conserving (s : sim) : Prop := pending s ≠ [] → 0 < MaxSeries cfg ∧ inflight s = MaxSeries cfg.

Ltac same H := destruct H; constructor; cbn in *; assumption.

Lemma core_perm s l : core s → q s ≡ₚ l → core (set_q l s).
Proof. intros H Hp. destruct H; constructor; cbn; try assumption; intros; rewrite <-?Hp in *; eauto. Qed.
Lemma core_recent t r sum s : length t = length (ttfts s) → core s → core (set_recent t r sum s).
Proof. intros Hl H. destruct H; constructor; cbn in *; try assumption. by rewrite Hl. Qed.
Lemma core_advance t s : core s → core (advance t s).
Proof. intros H. unfold advance. destruct (SFltb _ _); [same H|done]. Qed.
Lemma advance_q t s : q (advance t s) = q s ∧ pending (advance t s) = pending s ∧ inflight (advance t s) = inflight s.
Proof. unfold advance. by destruct (SFltb _ _). Qed.
Lemma core_expire s : core s → core (expire cfg s).
Proof. intros H. unfold expire. destruct (expire_loop _ _ _). by apply core_recent. Qed.
Lemma expire_frame s : q (expire cfg s) = q s ∧ sess (expire cfg s) = sess s ∧ pending (expire cfg s) = pending s ∧ inflight (expire cfg s) = inflight s.
Proof. unfold expire. by destruct (expire_loop _ _ _). Qed.

(** The admission tick is in nobody's count. *)
Lemma core_drop_admit e s : e_kind e = evAdmit → core (push e s) → core s.
Proof.
  intros Hk H. assert (Hn : is_done e = false ∧ (∀ i, is_done_on i e = false) ∧ (∀ j, of_sess j e = false) ∧ (∀ j, done_of j e = false))
    by (unfold is_done_on, done_of, is_done, of_sess; rewrite Hk; done).
  destruct Hn as (N1 & N2 & N3 & N4). destruct H. constructor; cbn in *; rewrite ?cntb_cons, ?N1 in *; try done.
  - intros i st Hi. rewrite (c_out0 i st Hi). by rewrite cntb_cons, N2.
  - intros e' He'. apply c_on0. by right.
  - intros j x Hj. rewrite <-(c_sess0 j x Hj). by rewrite cntb_cons, N3.
  - intros e' He'. apply c_known0. by right.
  - intros j x Hj. specialize (c_cursor0 j x Hj). by rewrite cntb_cons, N4 in c_cursor0.
Qed.
Lemma core_push_admit t s : core s → core (push (MkEvent t evAdmit 0 0) s).
Proof.
  intros H. destruct H. constructor; cbn in *; rewrite ?cntb_cons; try done.
  - intros e [->|He]%elem_of_cons; [done|by apply c_on0].
  - intros e [->|He]%elem_of_cons; [done|by apply c_known0].
Qed.

Lemma core_admit wl s : core s → core (admit_session wl s).
Proof.
  intros H. unfold admit_session. destruct (wl !! _) as [tpl|]; [|done]. destruct H.
  assert (Hfresh : cnt (of_sess (length (sess s))) (q s) = 0 ∧ cnt (is_j (length (sess s))) (pending s) = 0).
  { split; apply cnt_none.
    - intros e He. unfold of_sess. destruct (e_kind e) eqn:Ek; try done; (apply bool_decide_eq_false; specialize (c_known0 e He); rewrite Ek in c_known0; specialize (c_known0 ltac:(done)); lia).
    - intros j Hj. apply bool_decide_eq_false. specialize (c_waiting0 j Hj). lia. }
  destruct Hfresh as [F1 F2]. constructor; cbn; rewrite ?cntb_cons, ?length_app, ?cntb_app; cbn; try done.
  - intros e [->|He]%elem_of_cons; [done|by apply c_on0].
  - intros j x Hj. rewrite cntb_cons. unfold of_sess at 1. cbn [e_kind e_sess]. apply lookup_app_Some in Hj as [Hj|[Hge Hj]].
    + apply lookup_lt_Some in Hj as Hlt. rewrite bool_decide_eq_false_2 by lia. by apply c_sess0.
    + destruct (j - length (sess s))%nat eqn:E; [|done]. injection Hj as <-. assert (j = length (sess s)) as -> by lia. rewrite bool_decide_eq_true_2 by done. cbn. lia.
  - intros e [->|He]%elem_of_cons Hk; cbn; [lia|]. specialize (c_known0 e He Hk). lia.
  - intros j Hj. specialize (c_waiting0 j Hj). lia.
  - intros j x Hj. rewrite cntb_cons. apply lookup_app_Some in Hj as [Hj|[Hge Hj]]; [by apply c_cursor0|].
    destruct (j - length (sess s))%nat eqn:E; [|done]. assert (j = length (sess s)) as -> by lia. rewrite F2.
    pose proof (done_of_le (length (sess s)) (q s)). unfold done_of at 1, is_done. cbn. lia.
  - rewrite cnt_one. cbn. lia.
  - rewrite cnt_one. cbn. lia.
  - lia.
  - destruct (Z.ltb_spec (maxSessions s) (active s + 1)); lia.
Qed.

(** An event of session [si] in hand: the session's one place. *)
Lemma in_hand t k i si s x : core (push (MkEvent t k si i) s) → k ≠ evAdmit → sess s !! si = Some x →
  s_active x = true ∧ cnt (of_sess si) (q s) = 0 ∧ cnt (is_j si) (pending s) = 0.
Proof.
  intros H Hk Hx. pose proof (c_sess _ H si x Hx) as Hs. cbn in Hs. rewrite cntb_cons in Hs.
  assert (He : of_sess si (MkEvent t k si i) = true) by (unfold of_sess; cbn; destruct k; [by apply bool_decide_eq_true_2..|done]).
  rewrite He in Hs. pose proof (cntb_nonneg (of_sess si) (q s)). pose proof (cntb_nonneg (is_j si) (pending s)). destruct (s_active x); cbn in Hs; [split_and!; [done|lia..]|lia].
Qed.
Lemma in_hand_known t k i si s : core (push (MkEvent t k si i) s) → k ≠ evAdmit → ∃ x, sess s !! si = Some x.
Proof. intros H Hk. apply lookup_lt_is_Some_2. apply (c_known _ H (MkEvent t k si i)); [by left|done]. Qed.

(** A session without a request left is retired. *)
Lemma core_retire t i si s : core (push (MkEvent t evArrive si i) s) → core (retire si s).
Proof.
  intros H. destruct (in_hand_known _ _ _ _ _ H ltac:(done)) as [x Hx]. destruct (in_hand _ _ _ _ _ _ H ltac:(done) Hx) as (Ha & Hq & Hp).
  unfold retire. rewrite Hx, Ha. set (y := MkSess (reqs x) (cursor x) (admittedAt x) false).
  pose proof (cnt_insert s_active _ _ _ y Hx) as I1. pose proof (cnt_insert (λ x, negb (s_active x)) _ _ _ y Hx) as I2. cbn in I1, I2. rewrite Ha in I1, I2. cbn in I1, I2.
  destruct H. cbn in *. rewrite cntb_cons in c_inflight0. unfold is_done at 1 in c_inflight0. cbn in c_inflight0. rewrite Z.add_0_l in c_inflight0. constructor; cbn; rewrite ?length_insert; try done.
  - intros e He. apply c_on0. by right.
  - intros j z Hj. destruct (decide (j = si)) as [->|Hne].
    + rewrite list_lookup_insert_eq in Hj by (by eapply lookup_lt_Some). injection Hj as <-. cbn. lia.
    + rewrite list_lookup_insert_ne in Hj by done. rewrite <-(c_sess0 j z Hj). rewrite cntb_cons. unfold of_sess at 2. cbn. by rewrite bool_decide_eq_false_2 by done.
  - intros e He Hk. apply c_known0; [by right|done].
  - intros j z Hj. destruct (decide (j = si)) as [->|Hne].
    + intros Hc. exfalso. pose proof (done_of_le si (q s)). lia.
    + rewrite list_lookup_insert_ne in Hj by done. specialize (c_cursor0 j z Hj). rewrite cntb_cons in c_cursor0. unfold done_of at 1, is_done in c_cursor0. done.
  - lia.
  - lia.
  - lia.
Qed.

(** An arrival joins the line of the pool, or one of the line comes to its turn. *)
Lemma core_wait t i si s stall since : core (push (MkEvent t evArrive si i) s) →
  (∀ x, sess s !! si = Some x → (cursor x < length (reqs x))%nat) → core (set_pending (pending s ++ [si]) stall since s).
Proof.
  intros H Hc. destruct (in_hand_known _ _ _ _ _ H ltac:(done)) as [x Hx]. specialize (Hc x Hx). destruct H. cbn in *. rewrite cntb_cons in c_inflight0. unfold is_done at 1 in c_inflight0. cbn in c_inflight0. rewrite Z.add_0_l in c_inflight0. constructor; cbn; try done.
  - intros e He. apply c_on0. by right.
  - intros j z Hj. rewrite <-(c_sess0 j z Hj). rewrite cntb_app, cnt_one, cntb_cons. unfold of_sess at 2, is_j at 2. cbn. lia.
  - intros e He Hk. apply c_known0; [by right|done].
  - intros j [Hj|Hj%list_elem_of_singleton]%elem_of_app; [by apply c_waiting0|]. subst. by eapply lookup_lt_Some.
  - intros j z Hj. specialize (c_cursor0 j z Hj). rewrite cntb_cons in c_cursor0. rewrite cntb_app, cnt_one. unfold done_of at 1, is_done in c_cursor0. cbn in c_cursor0.
    unfold is_j at 2. destruct (decide (si = j)) as [->|Hne]; [intros _; by rewrite Hx in Hj; injection Hj as <-|]. rewrite bool_decide_eq_false_2 by done. cbn. intros. apply c_cursor0. lia.
Qed.
Lemma core_unwait t stall since next rest s : core s → pending s = next :: rest → core (push (MkEvent t evArrive next 0) (set_pending rest stall since s)).
Proof.
  intros H Hp. destruct H. constructor; cbn in *; rewrite ?cntb_cons; try done.
  - intros e [->|He]%elem_of_cons; [done|by apply c_on0].
  - intros j z Hj. rewrite <-(c_sess0 j z Hj), Hp, !cntb_cons. unfold of_sess at 1, is_j at 2. cbn. lia.
  - intros e [->|He]%elem_of_cons Hk; cbn; [|by apply c_known0]. apply c_waiting0. rewrite Hp. left.
  - intros j Hj. apply c_waiting0. rewrite Hp. by right.
  - intros j z Hj. rewrite cntb_cons. intros Hc. apply (c_cursor0 j z Hj). rewrite Hp, cntb_cons. unfold done_of at 1, is_done in Hc. cbn in Hc. pose proof (b2z_range (is_j j next)). lia.
Qed.

Lemma retire_done_le t l : (length (retire_done t l) ≤ length l)%nat.
Proof. induction l as [|x l IH]; cbn; [lia|]. destruct (SFleb x t); cbn; lia. Qed.
Lemma serve_frame t r st st' a b : serve t r st = Some (st', a, b) → prof st' = prof st ∧ outstanding st' = outstanding st + 1.
Proof. unfold serve. destruct (slot_at _ _ _); [|done]. by intros [= <- _ _]. Qed.

(** A request goes to a backend. *)
Lemma core_dispatch t i si s s' : core (push (MkEvent t evArrive si i) s) → (0 < MaxSeries cfg → inflight s < MaxSeries cfg) →
  dispatch cfg si s = Some s' → core s' ∧ pending s' = pending s ∧ inflight s' = inflight s + 1.
Proof.
  intros H Hroom. unfold dispatch. destruct (sess s !! si) as [x|] eqn:Hx; [|done]. destruct (reqs x !! cursor x) as [r|] eqn:Hr; [|done].
  destruct (srv s !! pick (srv s)) as [st|] eqn:Hst; [|done]. destruct (serve (now s) r st) as [[[st' ttft] end_]|] eqn:Hs; [|done]. intros [= <-].
  destruct (in_hand _ _ _ _ _ _ H ltac:(done) Hx) as (Ha & Hq & Hp). apply serve_frame in Hs as [Hprof Hout]. apply lookup_lt_Some in Hr.
  set (p := pick (srv s)) in *. unfold observe.
  match goal with |- core (push ?e (expire cfg ?z)) ∧ _ => set (ev := e); set (s1 := z) end.
  destruct (expire_frame s1) as (_ & _ & E3 & E4). split; [|by cbn; rewrite E3, E4].
  assert (Hpush : push ev (expire cfg s1) = expire cfg (push ev s1)) by (unfold expire; cbn; by destruct (expire_loop _ _ _)).
  rewrite Hpush. apply core_expire. destruct H. cbn in *. rewrite cntb_cons in c_inflight0. unfold is_done at 1 in c_inflight0. cbn in c_inflight0. unfold s1, ev. constructor; cbn; rewrite ?length_insert, ?length_app; try done.
  - rewrite cntb_cons. unfold is_done at 1. cbn. lia.
  - intros j y Hj. rewrite cntb_cons. unfold is_done_on at 1, is_done. cbn. destruct (decide (j = p)) as [->|Hne].
    + rewrite list_lookup_insert_eq in Hj by (by eapply lookup_lt_Some). injection Hj as <-. rewrite bool_decide_eq_true_2 by done. rewrite Hout, (c_out0 p st Hst), cntb_cons.
      unfold is_done_on at 1, is_done. cbn. lia.
    + rewrite list_lookup_insert_ne in Hj by done. rewrite bool_decide_eq_false_2 by done. rewrite (c_out0 j y Hj), cntb_cons. unfold is_done_on at 1, is_done. done.
  - intros e [->|He]%elem_of_cons Hd; cbn; rewrite ?length_insert; [by eapply lookup_lt_Some|]. apply c_on0; [by right|done].
  - rewrite list_fmap_insert, Hprof, c_prof0. rewrite <-c_prof0. apply list_insert_id. by rewrite list_lookup_fmap, Hst.
  - intros e [->|He]%elem_of_cons Hk; cbn; [by eapply lookup_lt_Some|]. apply c_known0; [by right|done].
  - intros j y Hj. rewrite cntb_cons. unfold done_of at 1, is_done. cbn. destruct (decide (si = j)) as [->|Hne]; [intros _; rewrite Hx in Hj; by injection Hj as <-|].
    rewrite bool_decide_eq_false_2 by done. intros Hc. apply (c_cursor0 j y Hj). rewrite cntb_cons. unfold done_of at 1, is_done. done.
  - destruct (Z.ltb_spec (maxInflight s) (inflight s + 1)); lia.
  - cbn. lia.
  - intros Hl. specialize (Hroom Hl). lia.
Qed.

(** A completion gives the slot back and the session its next turn. *)
Lemma core_next t si i s s1 st x : core (push (MkEvent t evDone si i) s) → srv s !! i = Some st → sess s !! si = Some x →
  s1 = set_sess (<[si := MkSess (reqs x) (S (cursor x)) (admittedAt x) (s_active x)]> (sess s)) (active s) (retired s)
        (set_srv (<[i := MkSrv (prof st) (prefillFreeAt st) (resident st) (outstanding st - 1) (prefillBusy st) (slotSecs st)]> (srv s)) (inflight s - 1) (maxInflight s) (completed s + 1) (inputSum s) s) →
  ∀ t', core (push (MkEvent t' evArrive si 0) s1).
Proof.
  intros H Hst Hx -> t'. destruct (in_hand _ _ _ _ _ _ H ltac:(done) Hx) as (Ha & Hq & Hp).
  set (y := MkSess (reqs x) (S (cursor x)) (admittedAt x) (s_active x)).
  pose proof (cnt_insert s_active _ _ _ y Hx) as I1. pose proof (cnt_insert (λ x, negb (s_active x)) _ _ _ y Hx) as I2. cbn in I1, I2.
  destruct H. cbn in *. rewrite cntb_cons in c_inflight0. unfold is_done at 1 in c_inflight0. cbn in c_inflight0. constructor; cbn; rewrite ?length_insert; try done; try lia.
  - rewrite cntb_cons. unfold is_done at 1. cbn. lia.
  - intros j z Hj. rewrite cntb_cons. unfold is_done_on at 1, is_done. cbn. destruct (decide (j = i)) as [->|Hne].
    + rewrite list_lookup_insert_eq in Hj by (by eapply lookup_lt_Some). injection Hj as <-. cbn. rewrite (c_out0 i st Hst), cntb_cons.
      unfold is_done_on at 1, is_done. cbn. rewrite bool_decide_eq_true_2 by done. cbn. lia.
    + rewrite list_lookup_insert_ne in Hj by done. rewrite (c_out0 j z Hj), cntb_cons. unfold is_done_on at 1, is_done. cbn. by rewrite bool_decide_eq_false_2 by done.
  - intros e [->|He]%elem_of_cons Hd; [done|]. rewrite ?length_insert. apply c_on0; [by right|done].
  - rewrite list_fmap_insert, c_prof0. cbn. rewrite <-c_prof0. apply list_insert_id. by rewrite list_lookup_fmap, Hst.
  - intros j z Hj. rewrite cntb_cons. unfold of_sess at 1. cbn. destruct (decide (j = si)) as [->|Hne].
    + rewrite list_lookup_insert_eq in Hj by (by eapply lookup_lt_Some). injection Hj as <-. rewrite bool_decide_eq_true_2 by done. unfold y. cbn. rewrite Ha. cbn. lia.
    + rewrite list_lookup_insert_ne in Hj by done. rewrite bool_decide_eq_false_2 by done. rewrite <-(c_sess0 j z Hj), cntb_cons. unfold of_sess at 2. cbn. by rewrite bool_decide_eq_false_2 by done.
  - intros e [->|He]%elem_of_cons Hk; cbn; rewrite ?length_insert; [by eapply lookup_lt_Some|]. apply c_known0; [by right|done].
  - intros j z Hj. rewrite cntb_cons. unfold done_of at 1, is_done. cbn. destruct (decide (j = si)) as [->|Hne].
    + intros Hc. exfalso. pose proof (done_of_le si (q s)). lia.
    + rewrite list_lookup_insert_ne in Hj by done. intros Hc. apply (c_cursor0 j z Hj). rewrite cntb_cons. pose proof (b2z_range (done_of j (MkEvent t evDone si i))). lia.
Qed.

(** ** Every case of the loop *)

Lemma gate_core s : core s → core (gateOpen cfg s).2 ∧ pending (gateOpen cfg s).2 = pending s ∧ inflight (gateOpen cfg s).2 = inflight s.
Proof. intros H. unfold gateOpen. cbn. destruct (expire_frame s) as (_ & _ & -> & ->). split; [by apply core_expire|done]. Qed.

Lemma on_admit_ok wl e s : e_kind e = evAdmit → core (push e s) → conserving s → core (on_admit cfg wl s) ∧ conserving (on_admit cfg wl s).
Proof.
  intros Hk H Hw. apply core_drop_admit in H; [|done]. unfold on_admit. destruct (gate_core s H) as (Hg & Hp & Hi). destruct (gateOpen cfg s) as [open s1]. cbn [snd] in *.
  set (s2 := if open then admit_session wl s1 else s1).
  assert (H2 : core s2 ∧ pending s2 = pending s ∧ inflight s2 = inflight s).
  { unfold s2. destruct open; [|done]. split; [by apply core_admit|]. unfold admit_session. by destruct (wl !! _). }
  destruct H2 as (H2 & P2 & I2). unfold conserving in *. destruct (SFleb _ _); [split; [by apply core_push_admit|cbn]|split; [done|]]; by rewrite P2, I2.
Qed.

Lemma on_arrive_ok t i si s s' : core (push (MkEvent t evArrive si i) s) → conserving s → on_arrive cfg si s = Some s' → core s' ∧ conserving s'.
Proof.
  intros H Hw. unfold on_arrive. destruct (sess s !! si) as [x|] eqn:Hx; [|done]. destruct (decide _) as [Hc|Hc].
  { intros [= <-]. split; [by eapply core_retire|]. unfold retire. rewrite Hx. by destruct (s_active x). }
  destruct ((0 <? MaxSeries cfg) && (MaxSeries cfg <=? inflight s)) eqn:Hf.
  - intros [= <-]. apply andb_true_iff in Hf as [H1%Z.ltb_lt H2%Z.leb_le]. split.
    + eapply core_wait; [done|]. intros y Hy. rewrite Hx in Hy. injection Hy as <-. lia.
    + intros _. split; [done|]. cbn. pose proof (c_limit _ H H1) as Hl. cbn in Hl. lia.
  - intros Hd. apply andb_false_iff in Hf. assert (Hroom : 0 < MaxSeries cfg → inflight s < MaxSeries cfg) by (intros Hm; destruct Hf as [Hf%Z.ltb_ge|Hf%Z.leb_gt]; lia).
    destruct (core_dispatch _ _ _ _ _ H Hroom Hd) as (H1 & H2 & H3).
    split; [done|]. intros Hp. rewrite H2 in Hp. destruct (Hw Hp) as [Hm Hi]. destruct Hf as [Hf%Z.ltb_ge|Hf%Z.leb_gt]; lia.
Qed.

Lemma next_request_ok t i si s st s' : core (push (MkEvent t evDone si i) s) → srv s !! i = Some st →
  next_request si (set_srv (<[i := MkSrv (prof st) (prefillFreeAt st) (resident st) (outstanding st - 1) (prefillBusy st) (slotSecs st)]> (srv s)) (inflight s - 1) (maxInflight s) (completed s + 1) (inputSum s) s) = Some s' →
  core s' ∧ pending s' = pending s ∧ inflight s' = inflight s - 1.
Proof.
  intros H Hst. unfold next_request. cbn [sess set_srv]. destruct (sess s !! si) as [x|] eqn:Hx; [|done].
  pose proof (core_next _ _ _ _ _ _ _ H Hst Hx eq_refl) as Hn. destruct (reqs x !! S (cursor x)) as [r|]; intros [= <-].
  - split; [|done]. apply Hn.
  - split; [by apply (core_retire f0 0), Hn|]. unfold retire. cbn. destruct (<[si:=_]> (sess s) !! si) as [y|]; [|done]. by destruct (s_active y).
Qed.

Lemma let_through_ok s s' : core s → (pending s ≠ [] → 0 < MaxSeries cfg ∧ inflight s = MaxSeries cfg - 1) → let_through cfg s = Some s' → core s' ∧ conserving s'.
Proof.
  intros H Hw. unfold let_through. destruct (pending s) as [|next rest] eqn:Hp; [intros [= <-]; split; [done|by unfold conserving; rewrite Hp]|].
  destruct (Hw ltac:(done)) as [Hm Hi]. rewrite (proj2 (Z.ltb_lt (inflight s) (MaxSeries cfg))) by lia. rewrite orb_true_r.
  destruct (lookup_lt_is_Some_2 (sess s) next) as [x Hx]; [apply (c_waiting _ H); rewrite Hp; left|]. cbn [sess set_pending]. rewrite Hx.
  rewrite decide_True; [|apply (c_cursor _ H next x Hx); rewrite Hp, cntb_cons; unfold is_j at 1; rewrite bool_decide_eq_true_2 by done; cbn; pose proof (cntb_nonneg (done_of next) (q s)); pose proof (cntb_nonneg (is_j next) rest); lia].
  intros Hd. match type of Hd with dispatch _ _ (set_pending _ ?a ?b _) = _ => pose proof (core_unwait f0 a b _ _ _ H Hp) as Hu end.
  destruct (core_dispatch _ _ _ _ _ Hu ltac:(cbn; lia) Hd) as (H1 & H2 & H3).
  split; [done|]. intros _. rewrite H3. cbn. lia.
Qed.

Lemma on_done_ok t i si s s' : core (push (MkEvent t evDone si i) s) → conserving s → on_done cfg si i s = Some s' → core s' ∧ conserving s'.
Proof.
  intros H Hw. unfold on_done. destruct (srv s !! i) as [st|] eqn:Hst; [|done]. cbv zeta. destruct (next_request si _) as [s2|] eqn:Hn; [|done].
  destruct (next_request_ok _ _ _ _ _ _ H Hst Hn) as (H2 & P2 & I2). apply let_through_ok; [done|]. intros Hp. rewrite P2 in Hp. destruct (Hw Hp). split; [done|lia].
Qed.

Lemma start_core : core (start cfg) ∧ conserving (start cfg).
Proof.
  split; [|done]. constructor; cbn; try done.
  - intros i st Hi. apply list_lookup_fmap_Some in Hi as (p & -> & _). done.
  - intros e ->%list_elem_of_singleton. done.
  - by rewrite <-list_fmap_compose, list_fmap_id.
  - intros e ->%list_elem_of_singleton. done.
  - by intros j ?%elem_of_nil.
  - lia.
Qed.

Lemma push_perm e rest s : q s ≡ₚ e :: rest → core s → core (push e (set_q rest s)).
Proof. intros Hp H. by apply (core_perm s (e :: rest)). Qed.
Lemma advance_push e t s : advance t (push e s) = push e (advance t s).
Proof. unfold advance. cbn. by destruct (SFltb _ _). Qed.

Lemma handle_ok wl e rest s s' : core s ∧ conserving s → q s ≡ₚ e :: rest → handle cfg wl e (set_q rest s) = Some s' → core s' ∧ conserving s'.
Proof.
  intros [H Hw] Hp. apply (push_perm e rest) in H; [|done]. apply (core_advance (e_at e)) in H. rewrite advance_push in H.
  assert (Hw' : conserving (advance (e_at e) (set_q rest s))) by (unfold conserving; destruct (advance_q (e_at e) (set_q rest s)) as (_ & -> & ->); done).
  unfold handle. destruct e as [t k si i]. cbn in *. destruct k; [by apply (on_arrive_ok t i)|by apply (on_done_ok t i)|].
  intros [= <-]. by apply (on_admit_ok wl (MkEvent t evAdmit si i)).
Qed.
End invariant.

(** however ties between events fall, after every event of a run: the client never has
    more requests open than its pool, and one waits only while the pool is full; what is
    counted as open is exactly the completions to come, backend by backend; every session is
    either retired or has exactly one thing to come (an arrival, a completion, or its place in
    the line), so none is lost and none runs twice. *)
Theorem pool_exact (cfg : SimConfig) (wl : list SimSession) (s : sim) (H : rtc (sim_step cfg wl) (start cfg) s) :
  (0 < MaxSeries cfg → inflight s ≤ MaxSeries cfg) ∧ (pending s ≠ [] → 0 < MaxSeries cfg ∧ inflight s = MaxSeries cfg) ∧
  inflight s = cnt is_done (q s) ∧ (∀ i st, srv s !! i = Some st → outstanding st = cnt (is_done_on i) (q s)) ∧
  active s + retired s = nextSession s ∧
  (∀ j x, sess s !! j = Some x → cnt (of_sess j) (q s) + cnt (is_j j) (pending s) = if s_active x then 1 else 0) ∧
  Z.of_nat (length (ttfts s)) = completed s + inflight s ∧ active s ≤ maxSessions s ∧ inflight s ≤ maxInflight s.
Proof.
  assert (Hok : core cfg s ∧ conserving cfg s).
  { refine (rtc_ind_r (λ s, core cfg s ∧ conserving cfg s) _ _ _ s H); [apply start_core|].
    intros y z _ Hs Hy. destruct Hs as [e rest s1 s2 Hp _ _ Hh]. by eapply handle_ok. }
  destruct Hok as [Hc Hw]. split_and!; [apply Hc|apply Hw|apply Hc|apply Hc| |apply Hc|apply Hc|apply Hc|apply Hc].
  rewrite (c_active _ _ Hc), (c_retired _ _ Hc), (c_next _ _ Hc). generalize (sess s). intros l. induction l as [|x l IH]; [done|].
  rewrite !cntb_cons. cbn [length]. destruct (s_active x); cbn; lia.
Qed.

(** ** No index out of range *)

Lemma pick_loop_range l : ∀ i best n, pick_loop l i best n = best ∨ (i ≤ pick_loop l i best n < i + length l)%nat.
Proof.
  induction l as [|x l IH]; intros i best n; cbn [pick_loop length]; [by left|].
  destruct (_ <? _); [destruct (IH (S i) i (outstanding x)) as [->|]; right; lia|destruct (IH (S i) best n) as [->|]; [by left|right; lia]].
Qed.
Lemma pick_valid l : l ≠ [] → is_Some (l !! pick l).
Proof. intros Hl. apply lookup_lt_is_Some_2. unfold pick. destruct (pick_loop_range l 0 0 (two31 - 1)) as [->|]; [destruct l; [done|cbn; lia]|lia]. Qed.
Lemma serve_total t r st : 1 ≤ MaxSeqs (prof st) → is_Some (serve t r st).
Proof.
  intros Hm. unfold serve, slot_at. destruct (Z.leb_spec (MaxSeqs (prof st)) (Z.of_nat (length (retire_done t (resident st))))); [|by eexists].
  destruct (retire_done t (resident st)) as [|y l]; [cbn in *; lia|by eexists].
Qed.

Section total.
Context (cfg : SimConfig) (Hsrv : Servers cfg ≠ []) (Hseq : Forall (λ p, 1 ≤ MaxSeqs p) (Servers cfg)).

Lemma dispatch_total si s x : prof <$> srv s = Servers cfg → sess s !! si = Some x → (cursor x < length (reqs x))%nat → is_Some (dispatch cfg si s).
Proof.
  intros Hp Hx Hc. unfold dispatch. rewrite Hx. destruct (lookup_lt_is_Some_2 _ _ Hc) as [r ->].
  destruct (pick_valid (srv s)) as [st Hst]; [by intros E; rewrite E in Hp|]. rewrite Hst.
  destruct (serve_total (now s) r st) as [[[st' a] b] ->]; [|by eexists].
  rewrite Forall_forall in Hseq. apply Hseq. rewrite <-Hp. apply list_elem_of_fmap. exists st. split; [done|by eapply list_elem_of_lookup_2].
Qed.

Lemma handle_total wl e rest s : core cfg s → conserving cfg s → q s ≡ₚ e :: rest → is_Some (handle cfg wl e (set_q rest s)).
Proof.
  intros H Hw Hp. apply (push_perm cfg e rest) in H; [|done]. apply (core_advance cfg (e_at e)) in H. rewrite advance_push in H.
  unfold handle. set (s1 := advance (e_at e) (set_q rest s)) in *. destruct e as [t k si i]. cbn in *. destruct k; [| |by eexists].
  - destruct (in_hand_known _ _ _ _ _ _ H ltac:(done)) as [x Hx]. unfold on_arrive. rewrite Hx. destruct (decide _); [by eexists|]. destruct (_ && _); [by eexists|].
    eapply dispatch_total; [apply H|done|lia].
  - destruct (in_hand_known _ _ _ _ _ _ H ltac:(done)) as [x Hx]. unfold on_done. destruct (lookup_lt_is_Some_2 (srv s1) i) as [st Hst]; [apply (c_on _ _ H (MkEvent t evDone si i)); [left|done]|].
    rewrite Hst. cbv zeta. assert (Hn : is_Some (next_request si (set_srv (<[i := MkSrv (prof st) (prefillFreeAt st) (resident st) (outstanding st - 1) (prefillBusy st) (slotSecs st)]> (srv s1)) (inflight s1 - 1) (maxInflight s1) (completed s1 + 1) (inputSum s1) s1))).
    { unfold next_request. cbn. rewrite Hx. by destruct (reqs x !! S (cursor x)); eexists. }
    destruct Hn as [s2 Hn]. rewrite Hn. destruct (next_request_ok _ _ _ _ _ _ _ H Hst Hn) as (H2 & P2 & _).
    unfold let_through. destruct (pending s2) as [|next l] eqn:Hp2; [by eexists|]. destruct (_ || _); [|by eexists].
    destruct (lookup_lt_is_Some_2 (sess s2) next) as [y Hy]; [apply (c_waiting _ _ H2); rewrite Hp2; left|]. cbn [sess set_pending]. rewrite Hy.
    destruct (decide _); [|by eexists]. eapply dispatch_total; [apply H2|done|done].
Qed.
End total.

(** With at least one backend, and at least one sequence slot on each, no event of any run
    makes the simulation panic. *)
Theorem never_panics (cfg : SimConfig) (wl : list SimSession) (s : sim) (e : event) (rest : list event)
  (Hsrv : Servers cfg ≠ []) (Hseq : Forall (λ p, 1 ≤ MaxSeqs p) (Servers cfg)) (H : rtc (sim_step cfg wl) (start cfg) s) (Hq : q s ≡ₚ e :: rest) :
  is_Some (handle cfg wl e (set_q rest s)).
Proof.
  assert (Hok : core cfg s ∧ conserving cfg s).
  { refine (rtc_ind_r (λ s, core cfg s ∧ conserving cfg s) _ _ _ s H); [apply start_core|].
    intros y z _ Hs Hy. destruct Hs as [e' rest' s1 s2 Hp _ _ Hh]. by eapply handle_ok. }
  apply handle_total; tauto.
Qed.

Module SimEx.

Definition n (z : Z) : float64 := f64_of_Z z.
Definition server (slots : Z) : ServerProfile := MkProfile "gpu" (n 100) (n 1) slots f0.
Definition cfg : SimConfig := with_defaults (MkSimConfig [server 1] f0 f0 1 (n 100) f0).
Definition wl : list SimSession := [[MkReq f0 (n 100) (n 10); MkReq (n 5) (n 100) (n 10)]].

Definition s1 : sim := on_admit cfg wl (set_q [] (start cfg)).
Lemma first_step : rtc (sim_step cfg wl) (start cfg) s1.
Proof. apply rtc_once, (step_event _ _ (MkEvent f0 evAdmit 0 0) []); [done|by intros e ?%elem_of_nil|by vm_compute|by vm_compute]. Qed.
Lemma pool_exact_witness : inflight s1 ≤ 1.
Proof. apply (pool_exact cfg wl s1 first_step). reflexivity. Defined.
Lemma never_panics_witness : is_Some (handle cfg wl (MkEvent f0 evArrive 0 0) (set_q [MkEvent (n 1) evAdmit 0 0] s1)).
Proof.
  refine (never_panics cfg wl s1 (MkEvent f0 evArrive 0 0) [MkEvent (n 1) evAdmit 0 0] _ _ first_step _); [discriminate|constructor; [cbn; lia|constructor]|].
  vm_compute. apply Permutation_swap.
Defined.

(** The session's first request is served at once, alone: a second of prefill, ten of decode. *)
Example first_request : ∀ s, on_arrive cfg 0 (set_q [] s1) = Some s → q s = [MkEvent (n 11) evDone 0 0] ∧ ttfts s = [n 1] ∧ inflight s = 1.
Proof. intros s H. vm_compute in H. injection H as <-. by vm_compute. Qed.

(** At the same instant an arrival goes before a completion. *)
Lemma arrivals_go_first (t : float64) (si sj i j : nat) : SFeqb t t = true → Less (MkEvent t evArrive si i) (MkEvent t evDone sj j) = true.
Proof. intros Ht. unfold Less, f64_neqb. cbn. by rewrite Ht. Qed.

(** Three requests at once on a backend with one slot: the third starts when the first ends,
    like the second, and both decode on the one slot. *)
Definition burst : option (list (float64 * float64)) :=
  let r := MkReq f0 (n 100) (n 10) in
  '(st, t1, e1) ← serve f0 r (MkSrv (server 1) f0 [] 0 f0 f0); '(st, t2, e2) ← serve f0 r st; '(st, t3, e3) ← serve f0 r st; Some [(t1, e1); (t2, e2); (t3, e3)].
Lemma one_slot_twice : burst = Some [(n 1, n 11); (n 12, n 22); (n 13, n 23)].
Proof. by vm_compute. Qed.

(** Without a backend, or without a slot on one, the run ends in a panic. *)
Lemma no_backend_panics : dispatch (MkSimConfig [] f0 f0 0 f0 f0) 0 (on_admit (MkSimConfig [] (n 1) (n 5) 0 (n 9) (n 30)) wl (set_q [] (start (MkSimConfig [] f0 f0 0 f0 f0)))) = None
  ∧ serve f0 (MkReq f0 (n 1) (n 1)) (MkSrv (server 0) f0 [] 0 f0 f0) = None.
Proof. split; by vm_compute. Qed.

End SimEx.
