(* ===== verification/TreeView.v ===== *)
(** * TreeView: what the forest is reported to hold

    The walk behind the per-backend numbers ([perBackend], [collectPerSlot] of
    [src/router/internal/policy/affinity/tree.go]) and the page that shows the forest
    ([snapshot.go]): runs copied out and merged where their holders agree, sized, and
    emitted as an array of rows that name each other by index. *)

From stdpp Require Import base gmap sets list strings sorting.
From Stdlib Require Import ZArith Lia.
From S2P Require Import Prelude MarkSet KvUnits Discovery KvTrie AffinityTree TreeWf TreeStep TreeShard TreeCommit TreeWalk TreeEvict TreeDrop TreeSpec.
Open Scope list_scope.
Open Scope Z_scope.

Implicit Types (s : shard) (l : loc) (h : gmap loc run).

(** ** One backend's share *)

Record backendStats := BackendStats { bRuns : Z; bBlocks : Z; bTokens : Z }.

Definition no_stats : backendStats := BackendStats 0 0 0.

(** [bs.Runs++; bs.Blocks += blocks; bs.Tokens += tokens]. *)
Definition bump (blocks tokens : Z) (bs : backendStats) : backendStats :=
  BackendStats (bRuns bs + 1) (bBlocks bs + blocks) (bTokens bs + tokens).

(** The body of [collectPerSlot] for the run it is at. *)
Definition collectRun (r : run) (out : gmap Z backendStats) : gmap Z backendStats :=
  if bool_decide (parent r ≠ None) && negb (Empty (marks r))
  then foldl (λ out slot, <[slot := bump (blocks r) (foldl Z.add 0 (tokens r)) (default no_stats (out !! slot))]> out)
         out (Each (marks r))
  else out.

(** A subtree is at most as deep as the store is large. *)
Fixpoint collectPerSlot (fuel : nat) h l (out : gmap Z backendStats) : gmap Z backendStats :=
  match fuel with
  | O => out
  | S f => foldl (λ out k, collectPerSlot f h k out) (collectRun (h !!! l) out) (kids (h !!! l))
  end.

Section range.
(** [for _, root := range sh.roots]: the order one run of the program happens to use. *)
Context (range : gmap Z loc → list loc).

Definition collectShard s (out : gmap Z backendStats) : gmap Z backendStats :=
  foldl (λ out root, collectPerSlot (size (store s)) (store s) root out) out (range (roots s)).

Definition perBackend (t : tree) : gmap string backendStats :=
  let bySlot := foldl (λ out s, collectShard s out) ∅ (shards t) in
  (λ i, default no_stats (bySlot !! i)) <$> slots t.
End range.

(** Any order of the roots, each once. *)
Definition ranges_roots (range : gmap Z loc → list loc) : Prop := ∀ m, range m ≡ₚ (map_to_list m).*2.

(** ** The numbers as sums *)

Definition add_stats (a b : backendStats) : backendStats :=
  BackendStats (bRuns a + bRuns b) (bBlocks a + bBlocks b) (bTokens a + bTokens b).

(** What run [r] counts for slot [b]. *)
Definition run_stats (b : Z) (r : run) : backendStats :=
  if bool_decide (parent r ≠ None) && Has (marks r) b then BackendStats 1 (blocks r) (zsum (tokens r)) else no_stats.

Definition at_slot (b : Z) (out : gmap Z backendStats) : backendStats := default no_stats (out !! b).

Definition ssum (b : Z) h (ls : list loc) : backendStats :=
  foldr (λ l acc, add_stats (run_stats b (h !!! l)) acc) no_stats ls.

Lemma add_stats_nil a : add_stats a no_stats = a.
Proof. destruct a. unfold add_stats. cbn. f_equal; lia. Qed.
Lemma add_stats_nil_l a : add_stats no_stats a = a.
Proof. by destruct a. Qed.
Lemma add_stats_assoc a b c : add_stats (add_stats a b) c = add_stats a (add_stats b c).
Proof. unfold add_stats. cbn. f_equal; lia. Qed.

Lemma foldl_add a (xs : list Z) : foldl Z.add a xs = a + zsum xs.
Proof. revert a. induction xs as [|x xs IH]; intros a; cbn [foldl]; [unfold zsum; cbn; lia|]. rewrite IH, zsum_cons. lia. Qed.

Lemma each_bump b nb nt (xs : list Z) out :
  NoDup xs →
  at_slot b (foldl (λ out slot, <[slot := bump nb nt (default no_stats (out !! slot))]> out) out xs) =
  if bool_decide (b ∈ xs) then bump nb nt (at_slot b out) else at_slot b out.
Proof.
  intros Hnd. revert out. induction Hnd as [|x xs Hx Hnd IH]; intros out; [by rewrite bool_decide_eq_false_2 by set_solver|].
  cbn [foldl]. rewrite IH. unfold at_slot. destruct (decide (b = x)) as [->|Hbx].
  - rewrite bool_decide_eq_false_2, bool_decide_eq_true_2 by (done || by left). by rewrite lookup_insert_eq.
  - rewrite lookup_insert_ne by done. rewrite (bool_decide_ext (b ∈ x :: xs) (b ∈ xs)); [done|]. set_solver.
Qed.

Lemma collectRun_at b r out : wf_marks (marks r) → at_slot b (collectRun r out) = add_stats (at_slot b out) (run_stats b r).
Proof.
  intros Hm. unfold collectRun, run_stats. case_bool_decide as Hp; cbn [andb]; [|by rewrite add_stats_nil].
  destruct (Empty (marks r)) eqn:E; cbn [negb].
  - rewrite (proj1 (Empty_has _ Hm) E b). by rewrite add_stats_nil.
  - rewrite each_bump by (by apply Each_NoDup). case_bool_decide as He; rewrite elem_of_Each in He by done.
    + rewrite He. unfold bump, add_stats. cbn. by rewrite foldl_add.
    + destruct (Has _ b); [done|]. by rewrite add_stats_nil.
Qed.

(** The recursion is a fold over the visit. *)
Lemma collectPerSlot_visits fuel h l out :
  collectPerSlot fuel h l out = foldl (λ out l, collectRun (h !!! l) out) out (visits fuel h l).
Proof.
  revert l out. induction fuel as [|f IH]; intros l out; [done|]. cbn [collectPerSlot visits foldl].
  generalize (collectRun (h !!! l) out). induction (kids (h !!! l)) as [|k ks IHk]; intros o; [done|].
  csimpl. rewrite foldl_app, <-IH. apply IHk.
Qed.

Lemma collect_list_at b h (ls : list loc) out :
  (∀ l, l ∈ ls → wf_marks (marks (h !!! l))) →
  at_slot b (foldl (λ out l, collectRun (h !!! l) out) out ls) = add_stats (at_slot b out) (ssum b h ls).
Proof.
  revert out. induction ls as [|l ls IH]; intros out Hm; cbn; [by rewrite add_stats_nil|].
  rewrite IH by set_solver. rewrite collectRun_at by (apply Hm; by left). by rewrite add_stats_assoc.
Qed.

(** ** Each live run is visited once *)

Lemma chain_two_roots h r1 r2 c1 c2 l :
  heap_wf h → is_root h r1 → is_root h r2 → chain h r1 c1 l → chain h r2 c2 l → r1 = r2 ∧ c1 = c2.
Proof.
  intros Hwf H1 H2 Hc1 Hc2. assert (r1 = r2) as ->; [|split; [done|by eapply chain_unique]].
  revert c2 Hc2. induction Hc1 as [|c l r k Hc IH Hl Hk]; intros c2 Hc2.
  - destruct H1 as (x & Hx & Hn & _). inversion Hc2 as [|c' l' r' k' Hc' Hl' Hk']; subst; [done|].
    destruct (hw_down h Hwf l' r' _ Hl' Hk') as (y & ? & ?). congruence.
  - inversion Hc2 as [|c' l' r' k' Hc' Hl' Hk']; subst.
    + destruct H2 as (x & Hx & Hn & _). destruct (hw_down h Hwf l r _ Hl Hk) as (y & ? & ?). congruence.
    + assert (l' = l) as -> by (by apply (kids_distinct h l' l r' r k)). by apply (IH c').
Qed.

Lemma join_bind {A B} (f : A → list B) (xs : list A) : mjoin (f <$> xs) = xs ≫= f.
Proof. induction xs as [|x xs IH]; [done|]. csimpl. by rewrite IH. Qed.

Section visit.
Context h (root : loc) (Hwf : heap_wf h) (Hroot : is_root h root).

Lemma visits_chain fuel c l a : chain h root c l → a ∈ visits fuel h l → ∃ c', chain h root (c ++ c') a.
Proof using Hwf Hroot.
  revert c l. induction fuel as [|f IH]; intros c l Hc Ha; [set_solver|]. cbn in Ha.
  apply elem_of_cons in Ha as [->|Ha]; [exists []; by rewrite app_nil_r|].
  apply list_elem_of_join in Ha as (v & Ha & (k & -> & Hk)%list_elem_of_fmap).
  destruct (chain_last _ _ _ _ Hc) as [c0 Hc0].
  destruct (chain_dom _ _ _ _ l Hroot Hwf Hc) as [r Hr]; [rewrite Hc0; set_solver|].
  rewrite (deref_Some _ _ _ Hr) in Hk.
  destruct (IH (c ++ [k]) k) as [c' Hc']; [by econstructor|done|]. exists (k :: c'). by rewrite (assoc (++) c [k] c').
Qed.

Lemma visits_NoDup fuel c l : chain h root c l → NoDup (visits fuel h l).
Proof using Hwf Hroot.
  revert c l. induction fuel as [|f IH]; intros c l Hc; [constructor|]. cbn [visits].
  destruct (chain_last _ _ _ _ Hc) as [c0 Hc0].
  destruct (chain_dom _ _ _ _ l Hroot Hwf Hc) as [r Hr]; [rewrite Hc0; set_solver|].
  rewrite (deref_Some _ _ _ Hr), join_bind.
  assert (Hk : ∀ k, k ∈ kids r → chain h root (c ++ [k]) k) by (intros k Hk; by econstructor).
  constructor.
  - intros (k & Ha & Hkr)%list_elem_of_bind. destruct (visits_chain f _ _ _ (Hk k Hkr) Ha) as [c' Hc'].
    pose proof (chain_unique _ _ _ _ _ Hwf Hroot Hc Hc') as He. apply (f_equal length) in He.
    rewrite !length_app in He. cbn in He. lia.
  - apply NoDup_bind.
    + intros k1 k2 a H1 H2 Ha1 Ha2. destruct (visits_chain f _ _ _ (Hk k1 H1) Ha1) as [c1 Hc1].
      destruct (visits_chain f _ _ _ (Hk k2 H2) Ha2) as [c2 Hc2].
      pose proof (chain_unique _ _ _ _ _ Hwf Hroot Hc1 Hc2) as He.
      rewrite <-!(assoc (++) c) in He. apply app_inv_head in He. by injection He.
    + intros k Hkr. by apply (IH (c ++ [k])), Hk.
    + by apply (kids_NoDup h Hwf l).
Qed.

Lemma visits_dom fuel a : a ∈ visits fuel h root → is_Some (h !! a).
Proof using Hwf Hroot.
  intros Ha. destruct (visits_chain fuel [root] root a) as [c Hc]; [constructor|done|].
  destruct (chain_last _ _ _ _ Hc) as [c0 Hc0]. apply (chain_dom _ _ _ _ a Hroot Hwf Hc). rewrite Hc0. set_solver.
Qed.
End visit.

(** The runs met from the given roots, in order. *)
Definition visit_roots s (rs : list loc) : list loc := rs ≫= visits (size (store s)) (store s).

Lemma elem_of_range range s l : ranges_roots range → l ∈ range (roots s) ↔ ∃ k, roots s !! k = Some l.
Proof.
  intros Hr. rewrite (Hr (roots s)), list_elem_of_fmap. split.
  - intros ([k x] & -> & Hk%elem_of_map_to_list). eauto.
  - intros [k Hk]. exists (k, l). split; [done|]. by apply elem_of_map_to_list.
Qed.

Lemma range_NoDup range s : ranges_roots range → shard_wf s → NoDup (range (roots s)).
Proof.
  intros Hr Hwf. rewrite (Hr (roots s)). apply NoDup_fmap_2_strong; [|apply NoDup_map_to_list].
  intros [k1 x1] [k2 x2] H1%elem_of_map_to_list H2%elem_of_map_to_list Hx. cbn in Hx. subst. f_equal. by apply (sw_root_inj s Hwf k1 k2 x2).
Qed.

Lemma visit_roots_once range s :
  ranges_roots range → shard_wf s →
  NoDup (visit_roots s (range (roots s))) ∧
  (∀ l, l ∈ visit_roots s (range (roots s)) → is_Some (store s !! l)) ∧
  (∀ l r, store s !! l = Some r → parent r ≠ None → l ∈ visit_roots s (range (roots s))).
Proof.
  intros Hr Hwf. pose proof (sw_heap s Hwf) as Hh.
  assert (Hroot : ∀ l, l ∈ range (roots s) → is_root (store s) l).
  { intros l [k Hk]%elem_of_range; [|done]. by apply (sw_root s Hwf k). }
  split_and!.
  - apply NoDup_bind; [| |by apply range_NoDup].
    + intros r1 r2 a H1 H2 Ha1 Ha2.
      destruct (visits_chain _ r1 Hh (Hroot _ H1) (size (store s)) [r1] r1 a) as [c1 Hc1]; [constructor|done|].
      destruct (visits_chain _ r2 Hh (Hroot _ H2) (size (store s)) [r2] r2 a) as [c2 Hc2]; [constructor|done|].
      eapply chain_two_roots; [done|by apply Hroot|by apply Hroot|done..].
    + intros r Hrr. apply (visits_NoDup _ r Hh (Hroot _ Hrr) (size (store s)) [r]). constructor.
  - intros l (r & Hl & Hrr)%list_elem_of_bind. by apply (visits_dom _ r Hh (Hroot _ Hrr) (size (store s))).
  - intros l x Hx Hp. destruct (sw_reach s Hwf l x Hx Hp) as (k & root & q & Hk & Hq).
    pose proof (sw_root s Hwf _ _ Hk) as Hro.
    destruct (locate_chain _ _ _ _ Hh Hro Hq) as [c Hc]. apply list_elem_of_bind. exists root. split.
    + apply (visits_mono (length c)); [by apply (chain_length _ root c l)|by apply chain_visits].
    + apply elem_of_range; eauto.
Qed.

(** Such a list sums over the store. *)
Lemma msum_list {A} (f : A → Z) (m : gmap positive A) (g : positive → Z) (ls : list positive) :
  NoDup ls → (∀ l, l ∈ ls → ∃ x, m !! l = Some x ∧ g l = f x) → (∀ l x, m !! l = Some x → l ∉ ls → f x = 0) →
  msum f m = zsum (g <$> ls).
Proof.
  intros Hnd. revert m. induction Hnd as [|l ls Hl Hnd IH]; intros m Hin Hout.
  - rewrite (msum_ext f (λ _, 0)); [|intros l x Hx; apply (Hout l x Hx); set_solver].
    clear. induction m as [|j y m Hj IH] using map_ind; [done|]. rewrite msum_insert_new by done. by rewrite IH.
  - destruct (Hin l) as (x & Hx & Hg); [by left|]. rewrite (msum_lookup f m l x Hx). rewrite fmap_cons, zsum_cons, Hg, (IH (delete l m)); [done| |].
    + intros k Hk. destruct (Hin k) as (y & Hy & Hgy); [by right|]. exists y. split; [|done].
      rewrite lookup_delete_ne; [done|]. by intros ->.
    + intros k y [Hkl Hy]%lookup_delete_Some Hk. apply (Hout k y Hy). set_solver.
Qed.

(** ** The share of one backend, on the abstract view *)

(** What the runs of a store count for slot [b]. *)
Definition store_stats (b : Z) h : backendStats :=
  BackendStats (msum (λ r, bRuns (run_stats b r)) h) (msum (λ r, bBlocks (run_stats b r)) h) (msum (λ r, bTokens (run_stats b r)) h).

Lemma ssum_proj b h (ls : list loc) :
  ssum b h ls = BackendStats (zsum ((λ l, bRuns (run_stats b (h !!! l))) <$> ls))
    (zsum ((λ l, bBlocks (run_stats b (h !!! l))) <$> ls)) (zsum ((λ l, bTokens (run_stats b (h !!! l))) <$> ls)).
Proof.
  induction ls as [|l ls IH]; [done|].
  change (ssum b h (l :: ls)) with (add_stats (run_stats b (h !!! l)) (ssum b h ls)). by rewrite IH.
Qed.

Lemma run_stats_root b r : parent r = None → run_stats b r = no_stats.
Proof. intros Hp. unfold run_stats. by rewrite bool_decide_eq_false_2 by tauto. Qed.

Lemma collectShard_at range b s out :
  ranges_roots range → shard_wf s →
  at_slot b (collectShard range s out) = add_stats (at_slot b out) (store_stats b (store s)).
Proof.
  intros Hr Hwf. destruct (visit_roots_once range s Hr Hwf) as (Hnd & Hdom & Hall).
  set (h := store s) in *. set (f := size h).
  assert (collectShard range s out = foldl (λ out l, collectRun (h !!! l) out) out (visit_roots s (range (roots s)))) as ->.
  { unfold collectShard, visit_roots. fold h f. generalize (range (roots s)). intros rs. revert out.
    induction rs as [|r rs IH]; intros out; [done|]. csimpl. by rewrite foldl_app, <-collectPerSlot_visits. }
  rewrite collect_list_at.
  2: { intros l [r Hl]%Hdom. rewrite (deref_Some _ _ _ Hl). by apply (hw_marks _ (sw_heap s Hwf) l). }
  f_equal. rewrite ssum_proj. unfold store_stats.
  assert (Hsum : ∀ p : backendStats → Z, p no_stats = 0 →
    msum (λ r, p (run_stats b r)) h = zsum ((λ l, p (run_stats b (h !!! l))) <$> visit_roots s (range (roots s)))).
  { intros p Hp. apply msum_list; [done| |].
    - intros l [r Hl]%Hdom. exists r. by rewrite (deref_Some _ _ _ Hl).
    - intros l r Hl Hn. destruct (parent r) eqn:E; [|by rewrite run_stats_root].
      destruct Hn. apply (Hall l r Hl). by rewrite E. }
  by rewrite !Hsum.
Qed.

(** The prefixes slot [b] holds in a shard, each once. *)
Definition held_list s (b : Z) (P : list (Z * list Z)) : Prop :=
  NoDup P ∧ ∀ k q, (k, q) ∈ P ↔ holds s k q b = true.

Lemma choose_list {A B} (R : A → B → Prop) (xs : list A) :
  (∀ x, x ∈ xs → ∃ y, R x y) → ∃ ys, Forall2 R xs ys.
Proof.
  induction xs as [|x xs IH]; intros H; [exists []; constructor|].
  destruct (H x) as [y Hy]; [by left|]. destruct IH as [ys Hys]; [set_solver|]. exists (y :: ys). by constructor.
Qed.

(** The positions inside the runs of [h] that slot [b] holds. *)
Definition positions h (b : Z) (ls : list loc) : list (loc * nat) :=
  ls ≫= λ l, if bool_decide (parent (h !!! l) ≠ None) && Has (marks (h !!! l)) b
             then (λ o, (l, S o)) <$> seq 0 (nblocks (h !!! l)) else [].

Lemma positions_length h b (ls : list loc) :
  Z.of_nat (length (positions h b ls)) = zsum ((λ l, bBlocks (run_stats b (h !!! l))) <$> ls).
Proof.
  induction ls as [|l ls IH]; [done|]. unfold positions in *.
  rewrite bind_cons, length_app, Nat2Z.inj_add, IH, fmap_cons, zsum_cons. f_equal. unfold run_stats. destruct (_ && _); [|done]. by rewrite length_fmap, length_seq.
Qed.

Lemma elem_of_positions h b (ls : list loc) l o :
  (l, o) ∈ positions h b ls ↔ l ∈ ls ∧ parent (h !!! l) ≠ None ∧ Has (marks (h !!! l)) b = true ∧ (1 ≤ o ≤ nblocks (h !!! l))%nat.
Proof.
  unfold positions. rewrite list_elem_of_bind. split.
  - intros (l' & Ho & Hl). destruct (bool_decide _ && _) eqn:E; [|set_solver]. bool_props.
    apply list_elem_of_fmap in Ho as (o' & [= -> ->] & Ho). apply elem_of_seq in Ho. split_and!; try done; lia.
  - intros (Hl & Hp & Hb & Ho). exists l. split; [|done]. rewrite bool_decide_eq_true_2, Hb by done. cbn.
    apply list_elem_of_fmap. exists (pred o). split; [f_equal; lia|]. apply elem_of_seq. lia.
Qed.

Lemma positions_NoDup h b (ls : list loc) : NoDup ls → NoDup (positions h b ls).
Proof.
  intros Hnd. apply NoDup_bind; [| |done].
  - intros l1 l2 [l o] _ _. do 2 (case_match; [|set_solver]). set_solver.
  - intros l _. case_match; [|constructor]. apply NoDup_fmap_2; [by intros ?? [= ?]|apply NoDup_seq].
Qed.

Lemma held_list_exists s b :
  shard_wf s → ∃ P, held_list s b P ∧ Z.of_nat (length P) = bBlocks (store_stats b (store s)).
Proof.
  intros Hwf. set (rs := λ m : gmap Z loc, (map_to_list m).*2).
  destruct (visit_roots_once rs s (λ m, reflexivity _) Hwf) as (Hnd & Hdom & Hall).
  set (ls := visit_roots s (rs (roots s))) in *. set (h := store s) in *.
  assert (Hlive : ∀ l r, h !! l = Some r → h !!! l = r) by (intros l r; apply deref_Some).
  destruct (choose_list (λ p kq, place s kq.1 kq.2 = Some p) (positions h b ls)) as [P HP].
  { intros [l o] (Hl & Hp & _ & Ho)%elem_of_positions. destruct (Hdom l Hl) as [r Hr]. rewrite (Hlive _ _ Hr) in Hp, Ho.
    destruct (sw_reach s Hwf l r Hr Hp) as (k & root & q & Hk & Hq).
    destruct (locate_inside _ _ _ _ _ o (sw_heap s Hwf) (sw_root s Hwf _ _ Hk) Hq Ho) as (q' & _ & Hq').
    exists (k, q'). unfold place. cbn. by rewrite Hk. }
  exists P. split; [split|].
  - pose proof (positions_NoDup h b ls Hnd) as Hpn. clear -HP Hpn. induction HP as [|p kq ps P Hp HP IH]; [constructor|].
    apply NoDup_cons in Hpn as [Hnp Hpn]. constructor; [|by apply IH]. intros Hin. apply Hnp.
    destruct (list_elem_of_lookup_1 _ _ Hin) as [i Hi]. destruct (Forall2_lookup_r _ _ _ _ _ HP Hi) as (p' & Hp' & Hpl).
    rewrite Hp in Hpl. simplify_eq. by eapply list_elem_of_lookup_2.
  - intros k q. split.
    + intros [i Hi]%list_elem_of_lookup_1. destruct (Forall2_lookup_r _ _ _ _ _ HP Hi) as ([l o] & Hp' & Hpl). cbn in Hpl.
      apply list_elem_of_lookup_2, elem_of_positions in Hp' as (_ & _ & Hb & Ho). unfold holds. rewrite Hpl.
      destruct o as [|o]; [lia|]. exact Hb.
    + unfold holds. destruct (place s k q) as [[l [|o]]|] eqn:E; [done| |done]. intros Hb.
      destruct (place_lookup _ _ _ _ _ Hwf E) as (y & Hy & Hp & Ho).
      assert ((l, S o) ∈ positions h b ls) as [i Hi]%list_elem_of_lookup_1.
      { apply elem_of_positions. rewrite (Hlive _ _ Hy). unfold deref in Hb. rewrite (deref_Some _ _ _ Hy) in Hb.
        split_and!; [by apply (Hall l y)|done|done|lia|done]. }
      destruct (Forall2_lookup_l _ _ _ _ _ HP Hi) as ([k' q'] & Hkq & Hpl). cbn in Hpl.
      destruct (place_inj _ _ _ _ _ _ Hwf E Hpl) as [-> ->]. by eapply list_elem_of_lookup_2.
  - rewrite <-(Forall2_length _ _ _ HP), positions_length. unfold store_stats. cbn.
    symmetry. apply msum_list; [done| |].
    + intros l [r Hl]%Hdom. exists r. by rewrite (Hlive _ _ Hl).
    + intros l r Hl Hn. destruct (parent r) eqn:E; [|by rewrite run_stats_root]. destruct Hn. apply (Hall l r Hl). by rewrite E.
Qed.

Definition sum_stats (ss : list backendStats) : backendStats := foldr add_stats no_stats ss.

Lemma perBackend_sum range t u b :
  ranges_roots range → tree_wf t → slots t !! u = Some b →
  perBackend range t !! u = Some (sum_stats ((λ s, store_stats b (store s)) <$> shards t)).
Proof.
  intros Hr Hwf Hu. unfold perBackend. rewrite lookup_fmap, Hu. cbn [fmap option_fmap option_map]. f_equal.
  change (default no_stats (?m !! b)) with (at_slot b m).
  assert (∀ out, at_slot b (foldl (λ out s, collectShard range s out) out (shards t)) =
    add_stats (at_slot b out) (sum_stats ((λ s, store_stats b (store s)) <$> shards t))) as ->; [|apply add_stats_nil_l].
  pose proof (tw_shards t Hwf) as Hall. clear Hwf Hu. induction Hall as [|s ss Hs _ IH]; intros out; [by rewrite add_stats_nil|].
  csimpl. cbn [sum_stats foldr]. by rewrite IH, collectShard_at, add_stats_assoc.
Qed.

(** what is reported for a backend is what it holds: [Blocks] is the number of distinct
    (model, prefix) pairs its slot holds, shard by shard; every backend with a slot has an
    entry, and no order in which the roots are visited makes a difference. *)
Theorem perBackend_exact range t :
  ranges_roots range → tree_wf t →
  dom (perBackend range t) = dom (slots t) ∧
  ∀ u b, slots t !! u = Some b →
    ∃ st Ps, perBackend range t !! u = Some st ∧ Forall2 (λ s P, held_list s b P) (shards t) Ps ∧
      bBlocks st = zsum (Z.of_nat ∘ length <$> Ps) ∧
      bRuns st = zsum ((λ s, msum (λ r, bRuns (run_stats b r)) (store s)) <$> shards t).
Proof.
  intros Hr Hwf. split; [unfold perBackend; apply dom_fmap_L|]. intros u b Hu.
  rewrite (perBackend_sum range t u b) by done. pose proof (tw_shards t Hwf) as Hall.
  destruct (choose_list (λ s P, held_list s b P ∧ Z.of_nat (length P) = bBlocks (store_stats b (store s))) (shards t)) as [Ps HPs].
  { intros s Hs. rewrite Forall_forall in Hall. by apply held_list_exists, Hall. }
  eexists _, Ps. split_and!; [done|by eapply Forall2_impl; [done|]; intros ?? []|..].
  - clear -HPs. induction HPs as [|s P ss Ps [_ Hl] _ IH]; [done|]. rewrite !fmap_cons, zsum_cons, <-IH. unfold compose. by rewrite Hl.
  - clear. induction (shards t) as [|s ss IH]; [done|]. by rewrite !fmap_cons, zsum_cons, <-IH.
Qed.

(** ** The page: runs copied out

    [vizRun]: a copy of one display row, with its children below it. *)

Inductive vizRun := VizRun {
  v_hashes : list Z;
  v_tokens : list Z;
  v_marks : markSet;
  v_kids : list vizRun;
  blockDepth : Z;
  subtreeSize : Z;
  subtreeBlocks : Z;
}.

Fixpoint vizRun_nested (P : vizRun → Prop)
    (IH : ∀ hs ts m ks d z b, Forall P ks → P (VizRun hs ts m ks d z b)) (v : vizRun) : P v :=
  match v with
  | VizRun hs ts m ks d z b => IH hs ts m ks d z b
      ((fix go (ks : list vizRun) : Forall P ks :=
          match ks with
          | [] => ltac:(constructor)
          | k :: ks => ltac:(constructor; [exact (vizRun_nested P IH k)|exact (go ks)])
          end) ks)
  end.

(** [v.hashes[0]]; a run always has a block. *)
Definition first_hash (v : vizRun) : Z := match v_hashes v with x :: _ => x | [] => 0 end.

Definition sameHolders (a b : markSet) : bool := Subset a b && Subset b a.

(** The loop of [copyRun] that swallows only children with the same holders: the hashes and
    tokens gathered, and the run it stops at. *)
Fixpoint merge_loop (fuel : nat) h (cur : loc) (hs ts : list Z) : list Z * list Z * loc :=
  match fuel with
  | O => (hs, ts, cur)
  | S f =>
      let x := h !!! cur in
      let hs := hs ++ hashes x in
      let ts := ts ++ tokens x in
      match kids x with
      | [only] => if sameHolders (marks (h !!! only)) (marks x) then merge_loop f h only hs ts else (hs, ts, cur)
      | _ => (hs, ts, cur)
      end
  end.

(** [computeSubtree]: rows and blocks, bottom-up. *)
Fixpoint computeSubtree (v : vizRun) : vizRun :=
  match v with
  | VizRun hs ts m ks d _ _ =>
      let ks := map computeSubtree ks in
      VizRun hs ts m ks d (1 + zsum (map subtreeSize ks)) (Z.of_nat (length hs) + zsum (map subtreeBlocks ks))
  end.

(** ** The page: the flat array of rows *)

Record SnapshotOptions := Options { MaxRows : Z; MaxChildren : Z; MaxDepth : Z }.

Record TreeNode := MkNode {
  nHash : list Z; (* hexadecimal digits *)
  RunLen : Z;
  nTokens : Z;
  SubtreeBlocks : Z;
  BlockDepth : Z;
  Depth : Z;
  nParent : Z;
  Children : list Z;
  Present : list bool;
}.

Definition add_child (c : Z) (n : TreeNode) : TreeNode :=
  MkNode (nHash n) (RunLen n) (nTokens n) (SubtreeBlocks n) (BlockDepth n) (Depth n) (nParent n) (Children n ++ [c]) (Present n).

(** The row of one run; [totalTok] is an [int32]. *)
Definition row (sl : list Z) (v : vizRun) (depth parentIdx : Z) : TreeNode :=
  MkNode (HexHash (first_hash v)) (Z.of_nat (length (v_hashes v))) (foldl (λ a tk, i32 (a + tk)) 0 (v_tokens v))
    (subtreeBlocks v) (blockDepth v) depth parentIdx [] ((λ b, Has (v_marks v) b) <$> sl).

Section page.
(** [sort.Slice] by a numeric key, ascending; equal keys in an order of its own. *)
Context (sortBy : (vizRun → Z) → list vizRun → list vizRun).

Fixpoint copyRun (fuel : nat) h (r : loc) (parentBlockDepth : Z) : vizRun :=
  match fuel with
  | O => VizRun [] [] no_marks [] 0 0 0
  | S f =>
      let '(hs, ts, cur) := merge_loop fuel h r [] [] in
      let d := parentBlockDepth + Z.of_nat (length hs) in
      VizRun hs ts (Clone (marks (h !!! r)))
        (sortBy (λ v, first_hash v) ((λ k, copyRun f h k d) <$> kids (h !!! cur))) d 0 0
  end.

Definition copyOut (range : gmap Z loc → list loc) (t : tree) : list vizRun :=
  shards t ≫= λ s, range (roots s) ≫= λ root,
    (λ k, copyRun (size (store s)) (store s) k 0) <$> kids (deref s root).

Context (opts : SnapshotOptions) (sl : list Z).

Definition fitsRows (nodes : list TreeNode) : bool :=
  (MaxRows opts <=? 0) || (Z.of_nat (length nodes) <? MaxRows opts).

(** The loop over the children of the row at [idx]. *)
Fixpoint kids_loop (emit1 : vizRun → list TreeNode → list TreeNode) (idx : nat) (shown : Z)
    (ks : list vizRun) (nodes : list TreeNode) : list TreeNode :=
  match ks with
  | [] => nodes
  | k :: ks =>
      if (0 <? MaxChildren opts) && (MaxChildren opts <=? shown) then nodes
      else if fitsRows nodes
      then kids_loop emit1 idx (shown + 1) ks (emit1 k (alter (add_child (Z.of_nat (length nodes))) idx nodes))
      else nodes
  end.

Fixpoint emit (fuel : nat) (v : vizRun) (depth parentIdx : Z) (nodes : list TreeNode) : list TreeNode :=
  match fuel with
  | O => nodes
  | S f =>
      let idx := length nodes in
      let nodes := nodes ++ [row sl v depth parentIdx] in
      if (0 <? MaxDepth opts) && (MaxDepth opts <=? depth + 1) then nodes
      else kids_loop (λ k nodes, emit f k (depth + 1) (Z.of_nat idx) nodes) idx 0
             (sortBy (λ v, - subtreeSize v) (v_kids v)) nodes
  end.

(** The rows a run and all below it would take: the fuel of [emit]. *)
Fixpoint nrows (v : vizRun) : nat :=
  match v with VizRun _ _ _ ks _ _ _ => S (foldr (λ k a, nrows k + a)%nat 0%nat ks) end.

Fixpoint roots_loop (rs : list vizRun) (nodes : list TreeNode) : list TreeNode :=
  match rs with
  | [] => nodes
  | r :: rs => if fitsRows nodes then roots_loop rs (emit (nrows r) r 0 (-1) nodes) else nodes
  end.

Definition flattenTree (rs : list vizRun) : list TreeNode :=
  roots_loop (sortBy (λ v, - subtreeSize v) rs) [].
End page.

(** ** The snapshot *)

Record BackendMeta := MkMeta { mURL : string; Healthy : bool; Inflight : Z; Nodes : Z; mTokens : Z }.

Record snapshot := MkSnapshot {
  sBackends : list BackendMeta;
  sTree : list TreeNode;
  NodesShown : Z;
  NodesTotal : Z;
  Truncated : bool;
  sAvgCopies : float64;
}.

Fixpoint slots_of (urls : list string) (t : tree) : list Z * tree :=
  match urls with
  | [] => ([], t)
  | u :: us => let '(b, t) := slotOrCreate u t in
               let '(bs, t) := slots_of us t in (b :: bs, t)
  end.

(** [Snapshot], given the policy's backends in the order of their URLs with what each says
    of its health and load.  A backend without a slot is given one.  The source copies the
    runs and then totals them, each shard under its own lock; this is a snapshot of a forest
    no request changes in between. *)
Definition Snapshot sortBy range (opts : SnapshotOptions) (backends : list (string * (bool * Z))) (t : tree) :
    snapshot * tree :=
  let '(sl, t) := slots_of backends.*1 t in
  let rs := computeSubtree <$> copyOut sortBy range t in
  let per := perBackend range t in
  let metas := (λ '(u, (healthy, inflight)),
    let bs := default no_stats (per !! u) in MkMeta u healthy inflight (bRuns bs) (bTokens bs)) <$> backends in
  let total := zsum (subtreeSize <$> rs) in
  let nodes := flattenTree sortBy opts sl rs in
  let shown := Z.of_nat (length nodes) in
  (MkSnapshot metas nodes shown total (shown <? total) (AvgCopies (stats t)), t).

(** ** What a reader of the page may ask for ([src/router/internal/viz/viz.go]) *)

Definition MaxParamValue : Z := 100000.

(** [q]: the value of a query parameter, empty when absent. *)
Definition positiveIntParam (q : string) : Z :=
  if bool_decide (q = ""%string) then 0
  else match ParseInt q with
       | None => 0
       | Some n => if n <=? 0 then 0 else if MaxParamValue <? n then MaxParamValue else n
       end.

(** The head of [DataHandler]. *)
Definition asked (q : string → string) : SnapshotOptions :=
  Options (positiveIntParam (q "limit"%string)) (positiveIntParam (q "max_children"%string)) (positiveIntParam (q "max_depth"%string)).

(** Without a policy that keeps a forest the page is empty, and is served all the same. *)
Definition DataHandler (ds : option (SnapshotOptions → snapshot * tree)) (q : string → string) : option (snapshot * tree) :=
  match ds with Some f => Some (f (asked q)) | None => None end.

Lemma positiveIntParam_range q : 0 ≤ positiveIntParam q ≤ MaxParamValue.
Proof.
  unfold positiveIntParam, MaxParamValue. case_bool_decide; [lia|]. destruct (ParseInt q) as [n|]; [|lia].
  destruct (Z.leb_spec n 0); [lia|]. destruct (Z.ltb_spec 100000 n); lia.
Qed.

(** ** Sums over the copied runs *)

(** A sort as the library documents it: the same elements, by ascending key. *)
Definition sorts (sortBy : (vizRun → Z) → list vizRun → list vizRun) : Prop :=
  ∀ f vs, sortBy f vs ≡ₚ vs ∧ Sorted (λ a b, f a ≤ f b) (sortBy f vs).

Fixpoint vsum (g : Z → markSet → Z) (v : vizRun) : Z :=
  match v with VizRun hs _ m ks _ _ _ => g (Z.of_nat (length hs)) m + zsum (map (vsum g) ks) end.

Lemma fmap_bind {A B C} (f : B → C) (g : A → list B) (xs : list A) : f <$> (xs ≫= g) = xs ≫= λ x, f <$> g x.
Proof. induction xs as [|x xs IH]; [done|]. by rewrite !bind_cons, fmap_app, IH. Qed.

Lemma zsum_bind {A} (f : A → list Z) (xs : list A) : zsum (xs ≫= f) = zsum ((λ x, zsum (f x)) <$> xs).
Proof. induction xs as [|x xs IH]; [done|]. by rewrite bind_cons, fmap_cons, zsum_app, zsum_cons, IH. Qed.

Lemma zsum_ext {A} (f g : A → Z) (xs : list A) : (∀ x, x ∈ xs → f x = g x) → zsum (f <$> xs) = zsum (g <$> xs).
Proof.
  induction xs as [|x xs IH]; intros H; [done|]. rewrite !fmap_cons, !zsum_cons, H, IH; [done| |by left].
  intros y Hy. apply H. by right.
Qed.

(** Sizing changes no run and counts the rows. *)
Lemma computeSubtree_vsum g v : vsum g (computeSubtree v) = vsum g v.
Proof.
  induction v as [hs ts m ks d z b IH] using vizRun_nested. cbn [computeSubtree vsum]. do 2 f_equal.
  induction IH as [|k ks Hk _ IH]; [done|]. cbn [map]. by rewrite Hk, IH.
Qed.

Lemma computeSubtree_sizes v :
  subtreeSize (computeSubtree v) = vsum (λ _ _, 1) v ∧ subtreeBlocks (computeSubtree v) = vsum (λ n _, n) v.
Proof.
  induction v as [hs ts m ks d z b IH] using vizRun_nested. cbn [computeSubtree vsum subtreeSize subtreeBlocks].
  assert (map subtreeSize (map computeSubtree ks) = map (vsum (λ _ _, 1)) ks ∧
    map subtreeBlocks (map computeSubtree ks) = map (vsum (λ n _, n)) ks) as [-> ->]; [|done].
  induction IH as [|k ks [Hs Hb] _ [IH1 IH2]]; [done|]. cbn [map]. by rewrite Hs, Hb, IH1, IH2.
Qed.

(** ** Copying shows every run *)

(** No path of children from [l] is longer than the fuel. *)
Fixpoint deep (fuel : nat) h l : Prop :=
  match fuel with O => False | S f => ∀ k, k ∈ kids (h !!! l) → deep f h k end.

Lemma deep_S f h l : deep f h l → deep (S f) h l.
Proof. revert l. induction f as [|f IH]; intros l Hd; [done|]. intros k Hk. by apply IH, Hd. Qed.

Lemma deep_visits fuel F h l : deep fuel h l → (fuel ≤ F)%nat → visits F h l = visits fuel h l.
Proof.
  revert F l. induction fuel as [|f IH]; intros F l Hd HF; [done|]. destruct F as [|F]; [lia|].
  cbn [visits]. do 2 f_equal. apply list_fmap_ext. intros i k Hk. apply IH; [|lia]. apply Hd. by eapply list_elem_of_lookup_2.
Qed.

Lemma chain_deep h root n c l :
  heap_wf h → is_root h root → chain h root c l → (size h < length c + n)%nat → deep n h l.
Proof.
  intros Hwf Hroot. revert c l. induction n as [|n IH]; intros c l Hc Hn.
  - pose proof (chain_length _ _ _ _ Hwf Hroot Hc). lia.
  - intros k Hk. destruct (chain_last _ _ _ _ Hc) as [c0 Hc0].
    destruct (chain_dom _ _ _ _ l Hroot Hwf Hc) as [r Hr]; [rewrite Hc0; set_solver|].
    rewrite (deref_Some _ _ _ Hr) in Hk. apply (IH (c ++ [k])); [by econstructor|]. rewrite length_app. cbn. lia.
Qed.

Lemma root_deep h root : heap_wf h → is_root h root → deep (size h) h root.
Proof. intros Hwf Hroot. apply (chain_deep h root _ [root]); [done|done|constructor|cbn; lia]. Qed.

Section copied.
Context h (Hwf : heap_wf h) (F : nat).
Let V (l : loc) : list loc := visits F h l.

Lemma marks_total l : wf_marks (marks (h !!! l)).
Proof using Hwf.
  destruct (h !! l) as [r|] eqn:E; [rewrite (deref_Some _ _ _ E); by apply (hw_marks h Hwf l)|].
  rewrite lookup_total_alt, E. apply no_marks_wf.
Qed.

Lemma visits_unfold f l : deep f h l → (f ≤ F)%nat → V l = l :: (kids (h !!! l) ≫= V).
Proof using Type.
  intros Hd Hf. destruct f as [|f]; [done|]. unfold V. rewrite (deep_visits (S f)) by done. cbn [visits].
  rewrite <-join_bind. do 2 f_equal. apply list_fmap_ext. intros i k Hk. symmetry.
  apply deep_visits; [|lia]. apply Hd. by eapply list_elem_of_lookup_2.
Qed.

Definition same_has (m1 m2 : markSet) : Prop := ∀ b, Has m1 b = Has m2 b.

Lemma sameHolders_has l1 l2 : sameHolders (marks (h !!! l1)) (marks (h !!! l2)) = true → same_has (marks (h !!! l1)) (marks (h !!! l2)).
Proof using Hwf.
  unfold sameHolders. intros [H1 H2]%andb_true_iff b. rewrite Subset_has in H1, H2 by apply marks_total.
  apply eq_true_iff_eq. split; auto.
Qed.

Lemma merge_loop_spec f cur hs ts :
  deep f h cur → (f ≤ F)%nat →
  let '(hs', _, cur') := merge_loop f h cur hs ts in
  ∃ L, hs' = hs ++ (L ≫= λ l, hashes (h !!! l)) ∧ V cur = L ++ (kids (h !!! cur') ≫= V) ∧
    (∀ l, l ∈ L → same_has (marks (h !!! l)) (marks (h !!! cur))) ∧ (∀ k, k ∈ kids (h !!! cur') → deep (pred f) h k) ∧
    cur ∈ L ∧ cur' ∈ L.
Proof using Hwf.
  revert cur hs ts. induction f as [|f IH]; intros cur hs ts Hd HF; [done|]. cbn [merge_loop].
  assert (∃ L, hs ++ hashes (h !!! cur) = hs ++ (L ≫= λ l, hashes (h !!! l)) ∧ V cur = L ++ (kids (h !!! cur) ≫= V) ∧
    (∀ l, l ∈ L → same_has (marks (h !!! l)) (marks (h !!! cur))) ∧ (∀ k, k ∈ kids (h !!! cur) → deep f h k) ∧ cur ∈ L ∧ cur ∈ L) as Hstop.
  { exists [cur]. rewrite (visits_unfold (S f)) by done. split_and!; [|done| | |set_solver..].
    - by rewrite bind_cons, app_nil_r.
    - intros l ->%list_elem_of_singleton b. done.
    - apply Hd. }
  destruct (kids (h !!! cur)) as [|only [|k2 ks]] eqn:Ek; [by rewrite Ek| |by rewrite Ek].
  destruct (sameHolders _ _) eqn:Es; [|by rewrite Ek]. clear Hstop. apply sameHolders_has in Es.
  assert (deep f h only) as Hdo by (apply Hd; rewrite Ek; set_solver).
  specialize (IH only (hs ++ hashes (h !!! cur)) (ts ++ tokens (h !!! cur)) Hdo ltac:(lia)).
  destruct (merge_loop f h only _ _) as [[hs' ts'] cur']. destruct IH as (L & -> & HV & Hs & Hk & Ho & Hc).
  exists (cur :: L). split_and!; [| | | |set_solver..].
  - by rewrite bind_cons, (assoc (++)).
  - rewrite (visits_unfold (S f)), Ek by done. csimpl. by rewrite app_nil_r, HV.
  - intros l [->|Hl]%elem_of_cons b; [done|]. by rewrite Hs, Es.
  - intros k Hkk. cbn. specialize (Hk k Hkk). destruct f as [|f]; [done|]. by apply deep_S.
Qed.
End copied.

(** Blocks, counted where the holders pass [P]. *)
Definition by_marks (P : markSet → bool) (n : Z) (m : markSet) : Z := if P m then n else 0.

Definition fair (P : markSet → bool) : Prop := ∀ m1 m2, same_has m1 m2 → P m1 = P m2.

Lemma copyRun_vsum sortBy P h F f r d :
  sorts sortBy → fair P → heap_wf h → deep f h r → (f ≤ F)%nat →
  vsum (by_marks P) (copyRun sortBy f h r d) = zsum ((λ l, by_marks P (blocks (h !!! l)) (marks (h !!! l))) <$> visits F h r).
Proof.
  intros Hs HP Hwf. revert r d. induction f as [|f IH]; intros r d Hd HF; [done|]. cbn [copyRun].
  pose proof (merge_loop_spec h Hwf F (S f) r [] [] Hd HF) as Hm.
  destruct (merge_loop (S f) h r [] []) as [[hs ts] cur]. destruct Hm as (L & -> & -> & HL & Hk & _ & _).
  cbn [vsum]. rewrite Clone_id, fmap_app, zsum_app. f_equal.
  - cbn [app]. assert (Hall : ∀ l, l ∈ L → P (marks (h !!! l)) = P (marks (h !!! r))) by (intros l Hl; by apply HP, HL).
    clear -Hall. unfold by_marks. induction L as [|l L IH]; [by destruct (P _)|].
    rewrite bind_cons, length_app, fmap_cons, zsum_cons, <-IH by set_solver.
    rewrite (Hall l) by (by left). unfold blocks. destruct (P (marks (h !!! r))); lia.
  - erewrite zsum_perm; [|exact (fmap_Permutation (vsum (by_marks P)) _ _ (proj1 (Hs _ _)))].
    rewrite <-list_fmap_compose, fmap_bind. rewrite zsum_bind. apply zsum_ext. intros k Hkk. unfold compose.
    apply IH; [by apply Hk|lia].
Qed.

Definition live_marks (P : markSet → bool) (r : run) : Z :=
  if bool_decide (parent r ≠ None) && P (marks r) then blocks r else 0.

Lemma copy_shard sortBy range P s :
  sorts sortBy → ranges_roots range → fair P → shard_wf s →
  zsum (vsum (by_marks P) <$> (range (roots s) ≫= λ root, (λ k, copyRun sortBy (size (store s)) (store s) k 0) <$> kids (deref s root)))
  = msum (live_marks P) (store s).
Proof.
  intros Hs Hr HP Hwf. destruct (visit_roots_once range s Hr Hwf) as (Hnd & Hdom & Hall).
  pose proof (sw_heap s Hwf) as Hh. set (h := store s) in *.
  assert (Hroot : ∀ l, l ∈ range (roots s) → is_root h l).
  { intros l [k Hk]%elem_of_range; [|done]. by apply (sw_root s Hwf k). }
  rewrite (msum_list (live_marks P) h (λ l, by_marks P (blocks (h !!! l)) (marks (h !!! l))) (visit_roots s (range (roots s)))); [|done| |].
  - unfold visit_roots. fold h. rewrite !fmap_bind, !zsum_bind. apply zsum_ext. intros root Hro%Hroot.
    pose proof (root_deep h root Hh Hro) as Hd. rewrite (visits_unfold h (size h) (size h)) by done.
    rewrite fmap_cons, zsum_cons. unfold deref. fold h. rewrite <-list_fmap_compose, fmap_bind, zsum_bind.
    assert (by_marks P (blocks (h !!! root)) (marks (h !!! root)) = 0) as ->.
    { destruct Hro as (x & Hx & _ & Hn). rewrite (deref_Some _ _ _ Hx). unfold by_marks, blocks. rewrite Hn. by destruct (P _). }
    rewrite Z.add_0_l. apply zsum_ext. intros k Hk. unfold compose. apply copyRun_vsum; try done.
    destruct (size h) as [|n]; [done|]. by apply deep_S, Hd.
  - intros l Hl. destruct (Hdom l Hl) as [x Hx]. exists x. split; [done|]. rewrite (deref_Some _ _ _ Hx).
    unfold live_marks, by_marks. case_bool_decide as Hp; [done|]. cbn.
    apply list_elem_of_bind in Hl as (root & Hl & Hro%Hroot).
    destruct (visits_chain h root Hh Hro (size h) [root] root l) as [c Hc]; [constructor|done|].
    assert (hashes x = []) as Hn; [|unfold blocks; rewrite Hn; by destruct (P _)].
    inversion Hc as [|c' l' r' k' Hc' Hl' Hk']; subst.
    + destruct Hro as (y & Hy & _ & Hn). congruence.
    + destruct (hw_down h Hh l' r' _ Hl' Hk') as (y & ? & ?). congruence.
  - intros l x Hx Hn. unfold live_marks. case_bool_decide as Hp; [|done]. destruct Hn. by apply (Hall l x).
Qed.

Lemma copyOut_sum sortBy range P t :
  sorts sortBy → ranges_roots range → fair P → tree_wf t →
  zsum (vsum (by_marks P) <$> copyOut sortBy range t) = zsum ((λ s, msum (live_marks P) (store s)) <$> shards t).
Proof.
  intros Hs Hr HP Hwf. unfold copyOut. rewrite fmap_bind, zsum_bind. apply zsum_ext.
  intros s Hin. apply copy_shard; try done. pose proof (tw_shards t Hwf) as Hall. rewrite Forall_forall in Hall. auto.
Qed.

(** ** Emitting without limits shows everything once *)

Definition uncapped (o : SnapshotOptions) : Prop := MaxRows o ≤ 0 ∧ MaxChildren o ≤ 0 ∧ MaxDepth o ≤ 0.

Lemma uncapped_fits o nodes : uncapped o → fitsRows o nodes = true.
Proof. intros (H & _). unfold fitsRows. by rewrite (proj2 (Z.leb_le _ _) H). Qed.

Lemma uncapped_go o : uncapped o → (0 <? MaxChildren o) = false ∧ (0 <? MaxDepth o) = false.
Proof. intros (_ & ? & ?). split; apply Z.ltb_ge; lia. Qed.

Section emitted.
Context (sortBy : (vizRun → Z) → list vizRun → list vizRun) (Hsort : sorts sortBy) (o : SnapshotOptions) (sl : list Z).
(** A weight of rows that only the run they show decides. *)
Context (W : TreeNode → Z) (g : Z → markSet → Z).
Hypothesis W_child : ∀ c n, W (add_child c n) = W n.
Hypothesis W_row : ∀ v d p, W (row sl v d p) = g (Z.of_nat (length (v_hashes v))) (v_marks v).

Lemma sum_alter c i nodes : zsum (W <$> alter (add_child c) i nodes) = zsum (W <$> nodes).
Proof using W_child.
  f_equal. apply list_eq. intros j. rewrite !list_lookup_fmap. destruct (decide (j = i)) as [->|].
  - rewrite list_lookup_alter_eq. destruct (nodes !! i); [|done]. cbn. by rewrite W_child.
  - by rewrite list_lookup_alter_ne.
Qed.

Lemma kids_loop_sum emit1 idx shown ks nodes :
  uncapped o → (∀ k nodes, k ∈ ks → zsum (W <$> emit1 k nodes) = zsum (W <$> nodes) + vsum g k) →
  zsum (W <$> kids_loop o emit1 idx shown ks nodes) = zsum (W <$> nodes) + zsum (vsum g <$> ks).
Proof using W_child.
  intros Ho. destruct (uncapped_go o Ho) as [Hc _]. revert shown nodes.
  induction ks as [|k ks IH]; intros shown nodes He; cbn [kids_loop]; [cbn; lia|].
  rewrite Hc, uncapped_fits by done. cbn [andb]. rewrite IH by (intros; apply He; by right). rewrite He by (by left).
  rewrite sum_alter, fmap_cons, zsum_cons. lia.
Qed.

Lemma nrows_kid (k : vizRun) ks : k ∈ ks → (nrows k ≤ foldr (λ k a, nrows k + a) 0 ks)%nat.
Proof using Type. induction 1; cbn; lia. Qed.

Lemma emit_sum fuel v d p nodes :
  uncapped o → (nrows v ≤ fuel)%nat → zsum (W <$> emit sortBy o sl fuel v d p nodes) = zsum (W <$> nodes) + vsum g v.
Proof using Hsort W_child W_row.
  intros Ho. destruct (uncapped_go o Ho) as [_ Hd]. revert v d p nodes.
  induction fuel as [|f IH]; intros v d p nodes Hf; [destruct v; cbn in Hf; lia|].
  cbn [emit]. rewrite Hd. cbn [andb]. rewrite kids_loop_sum; [|done|].
  - rewrite fmap_app, zsum_app. cbn [fmap list_fmap]. rewrite zsum_cons, W_row.
    rewrite (zsum_perm _ _ (fmap_Permutation (vsum g) _ _ (proj1 (Hsort _ _)))).
    destruct v as [hs ts m ks bd z b]. cbn [vsum v_hashes v_marks v_kids].
    change (map (vsum g) ks) with (vsum g <$> ks). change (zsum []) with 0. lia.
  - intros k nodes' Hk. rewrite (proj1 (Hsort _ _)) in Hk. apply IH. destruct v as [hs ts m ks bd z b]. cbn in *.
    pose proof (nrows_kid k ks Hk). lia.
Qed.

Lemma flattenTree_sum rs :
  uncapped o → zsum (W <$> flattenTree sortBy o sl rs) = zsum (vsum g <$> rs).
Proof using Hsort W_child W_row.
  intros Ho. unfold flattenTree. rewrite <-(zsum_perm _ _ (fmap_Permutation (vsum g) _ _ (proj1 (Hsort (λ v, - subtreeSize v) rs)))).
  generalize (sortBy (λ v, - subtreeSize v) rs). intros vs.
  assert (∀ nodes, zsum (W <$> roots_loop sortBy o sl vs nodes) = zsum (W <$> nodes) + zsum (vsum g <$> vs)) as H; [|apply H].
  induction vs as [|v vs IH]; intros nodes; cbn [roots_loop]; [cbn; lia|].
  rewrite uncapped_fits by done. rewrite IH, emit_sum by (done || lia). rewrite fmap_cons, zsum_cons. lia.
Qed.
End emitted.

(** ** Slots for the page *)

Lemma slotOrCreate_keeps u t v b : slots t !! v = Some b → slots (slotOrCreate u t).2 !! v = Some b.
Proof.
  intros Hv. unfold slotOrCreate, slot, slotFor. destruct (slots t !! u) as [c|] eqn:E; [done|].
  assert (u ≠ v) by congruence. destruct (last (free t)); cbn; by rewrite lookup_insert_ne.
Qed.

Lemma slots_of_keeps us t v b : slots t !! v = Some b → slots (slots_of us t).2 !! v = Some b.
Proof.
  revert t. induction us as [|u us IH]; intros t Hv; [done|]. cbn.
  pose proof (slotOrCreate_keeps u t v b Hv) as H1. destruct (slotOrCreate u t) as [c t1]. cbn in H1.
  specialize (IH t1 H1). by destruct (slots_of us t1).
Qed.

Lemma slots_of_spec us t :
  tree_wf t →
  let '(sl, t') := slots_of us t in
  tree_wf t' ∧ shards t' = shards t ∧ (∀ u k q, view t' u k q = view t u k q) ∧
  Forall2 (λ u b, slots t' !! u = Some b) us sl.
Proof.
  revert t. induction us as [|u us IH]; intros t Hwf; [by split_and!|]. cbn.
  pose proof (slotOrCreate_spec u t Hwf) as H1. destruct (slotOrCreate u t) as [b t1].
  destruct H1 as (Hwf1 & Hb & _ & Hs1 & _ & Hv1). specialize (IH t1 Hwf1).
  pose proof (slots_of_keeps us t1 u b Hb) as Hk. destruct (slots_of us t1) as [sl t'].
  destruct IH as (Hwf' & Hs' & Hv' & Hall). split_and!; [done|congruence| |by constructor].
  intros. by rewrite Hv', Hv1.
Qed.

Definition shows (i : nat) (n : TreeNode) : bool := default false (Present n !! i).

Lemma computeSubtree_map g (rs : list vizRun) : zsum (vsum g <$> (computeSubtree <$> rs)) = zsum (vsum g <$> rs).
Proof. rewrite <-list_fmap_compose. apply zsum_ext. intros v _. apply computeSubtree_vsum. Qed.


(** ** The array names its rows rightly, whatever the limits *)

(** Depths add up and a run's holders hold what is above it. *)
Inductive viz_ok : vizRun → Prop :=
  | VizOk hs ts m ks d z b :
      (∀ k, k ∈ ks → blockDepth k = d + Z.of_nat (length (v_hashes k)) ∧ ∀ i, Has (v_marks k) i = true → Has m i = true) →
      (∀ k, k ∈ ks → viz_ok k) → viz_ok (VizRun hs ts m ks d z b).

Lemma viz_ok_kid v k : viz_ok v → k ∈ v_kids v →
  viz_ok k ∧ blockDepth k = blockDepth v + Z.of_nat (length (v_hashes k)) ∧ ∀ i, Has (v_marks k) i = true → Has (v_marks v) i = true.
Proof. destruct 1 as [hs ts m ks d z b H1 H2]. cbn. intros Hk. destruct (H1 k Hk). auto. Qed.

Lemma computeSubtree_same v :
  v_hashes (computeSubtree v) = v_hashes v ∧ v_marks (computeSubtree v) = v_marks v ∧ blockDepth (computeSubtree v) = blockDepth v.
Proof. by destruct v. Qed.

Lemma computeSubtree_ok v : viz_ok v → viz_ok (computeSubtree v).
Proof.
  induction v as [hs ts m ks d z b IH] using vizRun_nested. intros Hv. cbn. rewrite List.Forall_forall in IH.
  assert (Hin : ∀ k, k ∈ map computeSubtree ks → ∃ k0, k = computeSubtree k0 ∧ k0 ∈ ks).
  { intros k Hk. by apply list_elem_of_fmap in Hk. }
  constructor; intros k (k0 & -> & Hk)%Hin; destruct (viz_ok_kid _ k0 Hv Hk) as (Hok & Hd & Hm).
  - destruct (computeSubtree_same k0) as (-> & -> & ->). auto.
  - apply IH; [by apply list_elem_of_In|done].
Qed.

Definition live h l : Prop := ∃ x, h !! l = Some x ∧ parent x ≠ None.

Lemma live_kid h l k : heap_wf h → live h l → k ∈ kids (h !!! l) →
  live h k ∧ ∀ b, Has (marks (h !!! k)) b = true → Has (marks (h !!! l)) b = true.
Proof.
  intros Hwf (x & Hx & Hp) Hk. rewrite (deref_Some _ _ _ Hx) in *.
  destruct (hw_down h Hwf l x k Hx Hk) as (y & Hy & Hpy). split; [exists y; split; [done|congruence]|].
  intros b Hb. rewrite (deref_Some _ _ _ Hy) in Hb. by apply (hw_sub h Hwf k y l x b).
Qed.

Lemma merge_live f h cur hs ts : heap_wf h → live h cur → live h (merge_loop f h cur hs ts).2.
Proof.
  intros Hwf. revert cur hs ts. induction f as [|f IH]; intros cur hs ts Hl; [done|]. cbn.
  pose proof (λ k, live_kid h cur k Hwf Hl) as Hk. destruct (kids (h !!! cur)) as [|k [|]]; [done| |done].
  destruct (sameHolders _ _); [|done]. apply IH, Hk. by left.
Qed.

Lemma copyRun_ok sortBy f h r d :
  sorts sortBy → heap_wf h → deep f h r → live h r →
  viz_ok (copyRun sortBy f h r d) ∧ blockDepth (copyRun sortBy f h r d) = d + Z.of_nat (length (v_hashes (copyRun sortBy f h r d))) ∧
  v_marks (copyRun sortBy f h r d) = marks (h !!! r).
Proof.
  intros Hs Hwf. revert r d. induction f as [|f IH]; intros r d Hd Hl; [done|]. cbn [copyRun].
  pose proof (merge_loop_spec h Hwf (S f) (S f) r [] [] Hd ltac:(lia)) as Hm.
  pose proof (merge_live (S f) h r [] [] Hwf Hl) as Hlc.
  destruct (merge_loop (S f) h r [] []) as [[hs ts] cur]. destruct Hm as (L & -> & _ & HL & Hk & _ & Hc).
  cbn [snd] in Hlc. cbn [blockDepth v_hashes v_marks]. rewrite Clone_id. split_and!; [|done|done].
  set (D := d + _). assert (Hin : ∀ k, k ∈ sortBy (λ v, first_hash v) ((λ k, copyRun sortBy f h k D) <$> kids (h !!! cur)) →
    ∃ k0, k = copyRun sortBy f h k0 D ∧ k0 ∈ kids (h !!! cur)).
  { intros k. rewrite (proj1 (Hs _ _)). intros (k0 & -> & ?)%list_elem_of_fmap. eauto. }
  constructor; intros k (k0 & -> & Hk0)%Hin; destruct (live_kid h cur k0 Hwf Hlc Hk0) as [Hl0 Hsub];
    destruct (IH k0 D (Hk k0 Hk0) Hl0) as (Hok & Hbd & Hmk); [|done].
  split; [done|]. rewrite Hmk. intros b Hb%Hsub. by rewrite <-(HL cur Hc b).
Qed.

Lemma snoc_cases {A} (xs : list A) x i y : (xs ++ [x]) !! i = Some y → xs !! i = Some y ∨ (i = length xs ∧ y = x).
Proof. intros [H|[Hi H]]%lookup_app_Some; [by left|right]. apply list_lookup_singleton_Some in H as [? <-]. split; [lia|done]. Qed.

Section rows.
Context (o : SnapshotOptions) (sl : list Z).
Implicit Types (nodes : list TreeNode) (n m : TreeNode) (i idx p : nat).

(** [n] is below [m], the row at [p]. *)
Definition below (n m : TreeNode) (p : nat) : Prop :=
  nParent n = Z.of_nat p ∧ Depth n = Depth m + 1 ∧ BlockDepth n = BlockDepth m + RunLen n ∧
  ∀ j, shows j n = true → shows j m = true.

(** The array is a forest.  [pend] is a row that has reserved the next index for a child. *)
Record rows_ok (nodes : list TreeNode) (pend : option nat) : Prop := {
  ro_parent i n : nodes !! i = Some n →
    (nParent n = -1 ∧ Depth n = 0 ∧ BlockDepth n = RunLen n) ∨
    ∃ p m, (p < i)%nat ∧ nodes !! p = Some m ∧ Z.of_nat i ∈ Children m ∧ below n m p;
  ro_child i n c : nodes !! i = Some n → c ∈ Children n →
    (∃ j m, c = Z.of_nat j ∧ nodes !! j = Some m ∧ nParent m = Z.of_nat i) ∨
    (pend = Some i ∧ c = Z.of_nat (length nodes));
  ro_sorted i n : nodes !! i = Some n → StronglySorted Z.lt (Children n);
  ro_caps i n : nodes !! i = Some n →
    (0 < MaxDepth o → Depth n < MaxDepth o) ∧
    (0 < MaxChildren o → Z.of_nat (length (Children n)) ≤ MaxChildren o);
}.

(** All of a row but its children. *)
Definition bare (n : TreeNode) : TreeNode :=
  MkNode (nHash n) (RunLen n) (nTokens n) (SubtreeBlocks n) (BlockDepth n) (Depth n) (nParent n) [] (Present n).

Lemma bare_below n n' m m' p : bare n = bare n' → bare m = bare m' → below n m p → below n' m' p.
Proof using Type.
  unfold below, bare, shows. intros [= ? Hr ? ? Hb Hd Hp Hs] [= ? ? ? ? Hb' Hd' ? Hs'].
  by rewrite Hr, Hb, Hd, Hp, Hs, Hb', Hd', Hs'.
Qed.

Lemma alter_lookup c idx nodes i n' :
  alter (add_child c) idx nodes !! i = Some n' →
  ∃ n, nodes !! i = Some n ∧ bare n = bare n' ∧ Children n' = Children n ++ (if decide (i = idx) then [c] else []).
Proof using Type.
  destruct (decide (i = idx)) as [->|Hi].
  - rewrite list_lookup_alter_eq. destruct (nodes !! idx) as [n|]; [|done]. intros [= <-]. eauto.
  - rewrite list_lookup_alter_ne by done. intros H. exists n'. by rewrite app_nil_r.
Qed.

Lemma lookup_alter_bare c idx nodes i n :
  nodes !! i = Some n → ∃ n', alter (add_child c) idx nodes !! i = Some n' ∧ bare n = bare n' ∧
    Children n' = Children n ++ (if decide (i = idx) then [c] else []).
Proof using Type.
  intros Hn. destruct (decide (i = idx)) as [->|Hi].
  - rewrite list_lookup_alter_eq, Hn. eexists. by split_and!.
  - rewrite list_lookup_alter_ne by done. exists n. by rewrite app_nil_r.
Qed.

Lemma child_range nodes i n c : rows_ok nodes None → nodes !! i = Some n → c ∈ Children n → 0 ≤ c < Z.of_nat (length nodes).
Proof using Type.
  intros Hok Hn Hc. destruct (ro_child _ _ Hok i n c Hn Hc) as [(j & m & -> & Hj%lookup_lt_Some & _)|[? _]]; [lia|done].
Qed.

(** Reserving the next index for a child of [idx]. *)
Lemma reserve_ok nodes idx m :
  rows_ok nodes None → nodes !! idx = Some m → (0 < MaxChildren o → Z.of_nat (length (Children m)) < MaxChildren o) →
  rows_ok (alter (add_child (Z.of_nat (length nodes))) idx nodes) (Some idx).
Proof using Type.
  intros Hok Hm Hcap. constructor; intros i n' ?; [| |..].
  - destruct (alter_lookup _ _ _ _ _ H) as (n & Hn & Hb & _).
    destruct (ro_parent _ _ Hok i n Hn) as [Hroot|(p & m0 & Hp & Hm0 & Hc & Hbel)].
    + left. unfold bare in Hb. injection Hb as ? <- ? ? <- <- <- ?. done.
    + right. destruct (lookup_alter_bare (Z.of_nat (length nodes)) idx _ _ _ Hm0) as (m' & Hm' & Hbm & Hch).
      exists p, m'. split_and!; [done|done|rewrite Hch; set_solver|]. by eapply bare_below.
  - intros Hn' Hc. destruct (alter_lookup _ _ _ _ _ Hn') as (n & Hn & Hb & Hch). rewrite Hch in Hc.
    apply elem_of_app in Hc as [Hc|Hc].
    + left. destruct (ro_child _ _ Hok i n _ Hn Hc) as [(j & m0 & -> & Hj & Hpj)|[? _]]; [|done].
      destruct (lookup_alter_bare (Z.of_nat (length nodes)) idx _ _ _ Hj) as (m' & Hm' & Hbm & _).
      exists j, m'. split_and!; try done. unfold bare in Hbm. by injection Hbm as ? ? ? ? ? ? <- ?.
    + case_decide; [|set_solver]. apply list_elem_of_singleton in Hc as ->. right. subst. by rewrite length_alter.
  - destruct (alter_lookup _ _ _ _ _ H) as (n & Hn & _ & ->). apply StronglySorted_app_2; [|by eapply ro_sorted|case_decide; repeat constructor].
    intros c1 c2 H1 H2. case_decide; [|set_solver]. apply list_elem_of_singleton in H2 as ->. apply (child_range _ _ _ _ Hok Hn) in H1. lia.
  - destruct (alter_lookup _ _ _ _ _ H) as (n & Hn & Hb & Hch). destruct (ro_caps _ _ Hok i n Hn) as [Hd Hk].
    unfold bare in Hb. injection Hb as ? ? ? ? ? <- ? ?. split; [done|]. intros Hp. rewrite Hch. case_decide; [|rewrite app_nil_r; auto].
    subst. simplify_eq. rewrite length_app. cbn. specialize (Hcap Hp). lia.
Qed.

(** The row that was owed, appended. *)
Lemma append_ok nodes idx m v :
  rows_ok nodes (Some idx) → nodes !! idx = Some m → Z.of_nat (length nodes) ∈ Children m →
  below (row sl v (Depth m + 1) (Z.of_nat idx)) m idx → (0 < MaxDepth o → Depth m + 1 < MaxDepth o) →
  rows_ok (nodes ++ [row sl v (Depth m + 1) (Z.of_nat idx)]) None.
Proof using Type.
  intros Hok Hm Hin Hbel Hcap. set (r := row _ _ _ _) in *.
  assert (Hold : ∀ i n, nodes !! i = Some n → (nodes ++ [r]) !! i = Some n) by (intros; by apply lookup_app_l_Some).
  constructor; intros i n.
  - intros [Hn|[-> ->]]%snoc_cases.
    + destruct (ro_parent _ _ Hok i n Hn) as [H|(p & m0 & ? & ? & ? & ?)]; [by left|right]. exists p, m0. split_and!; auto.
    + right. exists idx, m. split_and!; [by apply lookup_lt_Some in Hm|by apply Hold|done|done].
  - intros c [Hn|[-> ->]]%snoc_cases Hc; [|cbn in Hc; set_solver]. left.
    destruct (ro_child _ _ Hok i n c Hn Hc) as [(j & m0 & -> & Hj & Hp)|[[= <-] ->]]; [exists j, m0; split_and!; auto|].
    exists (length nodes), r. split_and!; [done| |done]. by apply list_lookup_middle.
  - intros [Hn|[-> ->]]%snoc_cases; [by eapply ro_sorted|constructor].
  - intros [Hn|[-> ->]]%snoc_cases; [by eapply ro_caps|]. split; cbn; [done|lia].
Qed.

Lemma append_root_ok nodes v :
  rows_ok nodes None → blockDepth v = Z.of_nat (length (v_hashes v)) → rows_ok (nodes ++ [row sl v 0 (-1)]) None.
Proof using Type.
  intros Hok Hbd. set (r := row _ _ _ _).
  assert (Hold : ∀ i n, nodes !! i = Some n → (nodes ++ [r]) !! i = Some n) by (intros; by apply lookup_app_l_Some).
  constructor; intros i n.
  - intros [Hn|[-> ->]]%snoc_cases.
    + destruct (ro_parent _ _ Hok i n Hn) as [H|(p & m0 & ? & ? & ? & ?)]; [by left|right]. exists p, m0. split_and!; auto.
    + left. by split_and!.
  - intros c [Hn|[-> ->]]%snoc_cases Hc; [|cbn in Hc; set_solver]. left.
    destruct (ro_child _ _ Hok i n c Hn Hc) as [(j & m0 & -> & Hj & Hp)|[? _]]; [exists j, m0; split_and!; auto|done].
  - intros [Hn|[-> ->]]%snoc_cases; [by eapply ro_sorted|constructor].
  - intros [Hn|[-> ->]]%snoc_cases; [by eapply ro_caps|]. split; cbn; lia.
Qed.

Definition keeps (nodes nodes' : list TreeNode) : Prop := ∀ i n, nodes !! i = Some n → nodes' !! i = Some n.

Lemma kids_loop_ok emit1 idx r0 shown (ks : list vizRun) nodes m :
  (∀ k nodes, k ∈ ks → rows_ok (nodes ++ [row sl k (Depth r0 + 1) (Z.of_nat idx)]) None →
     rows_ok (emit1 k nodes) None ∧ keeps nodes (emit1 k nodes)) →
  (∀ k, k ∈ ks → below (row sl k (Depth r0 + 1) (Z.of_nat idx)) r0 idx) →
  (0 < MaxDepth o → Depth r0 + 1 < MaxDepth o) →
  rows_ok nodes None → nodes !! idx = Some m → bare m = bare r0 → Z.of_nat (length (Children m)) = shown →
  rows_ok (kids_loop o emit1 idx shown ks nodes) None ∧
  ∀ i n, i ≠ idx → nodes !! i = Some n → kids_loop o emit1 idx shown ks nodes !! i = Some n.
Proof using Type.
  intros He Hb Hd. revert shown nodes m. induction ks as [|k ks IH]; intros shown nodes m Hok Hm Hbare Hlen; [done|].
  cbn [kids_loop]. destruct ((0 <? MaxChildren o) && (MaxChildren o <=? shown)) eqn:Ec; [done|].
  destruct (fitsRows o nodes); [|done]. set (nodes1 := alter _ idx nodes).
  assert (Hcap : 0 < MaxChildren o → Z.of_nat (length (Children m)) < MaxChildren o).
  { intros Hp. apply andb_false_iff in Ec as [Ec|Ec]; bool_props; lia. }
  pose proof (reserve_ok nodes idx m Hok Hm Hcap) as Hok1. fold nodes1 in Hok1.
  destruct (lookup_alter_bare (Z.of_nat (length nodes)) idx _ _ _ Hm) as (m1 & Hm1 & Hb1 & Hc1). fold nodes1 in Hm1.
  rewrite decide_True in Hc1 by done. assert (bare m1 = bare r0) as Hbr by congruence.
  assert (Depth m1 = Depth r0) as Hdm by (unfold bare in Hbr; by injection Hbr).
  destruct (He k nodes1) as [Hok2 Hkeep]; [by left| |].
  { rewrite <-Hdm. apply (append_ok nodes1 idx m1); [done|done| | |by rewrite Hdm].
    - rewrite Hc1. unfold nodes1. rewrite length_alter. set_solver.
    - rewrite Hdm. apply (bare_below _ _ r0 _ _ eq_refl (eq_sym Hbr)). apply Hb. by left. }
  destruct (IH ltac:(intros; apply He; [by right|done]) ltac:(intros; apply Hb; by right) (shown + 1) _ m1 Hok2) as [Hfin Hrest]; [by apply Hkeep|done| |].
  { rewrite Hc1, length_app. cbn. lia. }
  split; [done|]. intros i n Hi Hn. apply Hrest; [done|]. apply Hkeep. unfold nodes1. by rewrite list_lookup_alter_ne.
Qed.

Section emits.
Context (sortBy : (vizRun → Z) → list vizRun → list vizRun) (Hsort : sorts sortBy).

Lemma emit_ok fuel v d q nodes :
  (nrows v ≤ fuel)%nat → viz_ok v → rows_ok (nodes ++ [row sl v d q]) None →
  rows_ok (emit sortBy o sl fuel v d q nodes) None ∧ keeps nodes (emit sortBy o sl fuel v d q nodes).
Proof using Hsort.
  revert v d q nodes. induction fuel as [|f IH]; intros v d q nodes Hf Hv Hok; [destruct v; cbn in Hf; lia|]. cbn [emit].
  assert (Hpre : keeps nodes (nodes ++ [row sl v d q])) by (intros i n; apply lookup_app_l_Some).
  destruct ((0 <? MaxDepth o) && (MaxDepth o <=? d + 1)) eqn:Ed; [done|].
  assert (Hin : ∀ k, k ∈ sortBy (λ v, - subtreeSize v) (v_kids v) → k ∈ v_kids v) by (intros k; by rewrite (proj1 (Hsort _ _))).
  destruct (kids_loop_ok (λ k nodes', emit sortBy o sl f k (d + 1) (Z.of_nat (length nodes)) nodes') (length nodes)
    (row sl v d q) 0 (sortBy (λ v, - subtreeSize v) (v_kids v)) (nodes ++ [row sl v d q]) (row sl v d q)) as [H1 H2]; try done.
  - intros k nodes' Hk%Hin Hok'. apply IH; [|by apply (viz_ok_kid v)|done]. destruct v as [hs ts m ks bd z b]. cbn in *.
    pose proof (nrows_kid k ks Hk). lia.
  - intros k Hk%Hin. destruct (viz_ok_kid v k Hv Hk) as (_ & Hbd & Hsub). split_and!; [done|done|done|].
    intros j. unfold shows, row. cbn. rewrite !list_lookup_fmap. destruct (sl !! j); [|done]. apply Hsub.
  - intros Hp. cbn. apply andb_false_iff in Ed as [Ed|Ed]; bool_props; lia.
  - by apply list_lookup_middle.
  - split; [done|]. intros i n Hn. apply H2; [apply lookup_lt_Some in Hn; lia|by apply Hpre].
Qed.

Lemma flattenTree_ok (rs : list vizRun) :
  (∀ v, v ∈ rs → viz_ok v ∧ blockDepth v = Z.of_nat (length (v_hashes v))) →
  rows_ok (flattenTree sortBy o sl rs) None.
Proof using Hsort.
  intros Hrs. unfold flattenTree.
  assert (Hin : ∀ v, v ∈ sortBy (λ v, - subtreeSize v) rs → v ∈ rs) by (intros v; by rewrite (proj1 (Hsort _ _))).
  assert (∀ nodes vs, (∀ v, v ∈ vs → v ∈ rs) → rows_ok nodes None → rows_ok (roots_loop sortBy o sl vs nodes) None) as H.
  { intros nodes vs. revert nodes. induction vs as [|v vs IH]; intros nodes Hvs Hok; [done|]. cbn.
    destruct (fitsRows o nodes); [|done]. destruct (Hrs v) as [Hv Hbd]; [apply Hvs; by left|].
    apply IH; [intros; apply Hvs; by right|]. apply emit_ok; [done|done|]. by apply append_root_ok. }
  apply H; [done|]. by constructor.
Qed.

(** No more rows than were asked for. *)
Definition in_rows (nodes : list TreeNode) : Prop := 0 < MaxRows o → Z.of_nat (length nodes) ≤ MaxRows o.

Lemma fits_more nodes : fitsRows o nodes = true → 0 < MaxRows o → Z.of_nat (length nodes) < MaxRows o.
Proof using Type. unfold fitsRows. intros [H|H]%orb_true_iff ?; bool_props; lia. Qed.

Lemma kids_loop_rows emit1 idx shown (ks : list vizRun) nodes :
  (∀ k nodes, fitsRows o nodes = true → in_rows (emit1 k nodes)) →
  in_rows nodes → in_rows (kids_loop o emit1 idx shown ks nodes).
Proof using Type.
  intros He. revert shown nodes. induction ks as [|k ks IH]; intros shown nodes Hn; [done|]. cbn.
  destruct (_ && _); [done|]. destruct (fitsRows o nodes) eqn:E; [|done]. apply IH, He.
  unfold fitsRows in *. by rewrite length_alter.
Qed.

Lemma emit_rows fuel v d q nodes : fitsRows o nodes = true → in_rows (emit sortBy o sl fuel v d q nodes).
Proof using Type.
  revert v d q nodes. induction fuel as [|f IH]; intros v d q nodes Hf; cbn.
  - intros Hp. pose proof (fits_more _ Hf Hp). lia.
  - assert (in_rows (nodes ++ [row sl v d q])) as H.
    { intros Hp. pose proof (fits_more _ Hf Hp). rewrite length_app. cbn. lia. }
    destruct (_ && _); [done|]. apply kids_loop_rows; [|done]. intros k nodes' Hf'. by apply IH.
Qed.

Lemma flattenTree_rows (rs : list vizRun) : in_rows (flattenTree sortBy o sl rs).
Proof using Type.
  unfold flattenTree. generalize (sortBy (λ v, - subtreeSize v) rs). intros vs.
  assert (∀ nodes, in_rows nodes → in_rows (roots_loop sortBy o sl vs nodes)) as H; [|apply H; intros ?; cbn; lia].
  induction vs as [|v vs IH]; intros nodes Hn; [done|]. cbn. destruct (fitsRows o nodes) eqn:E; [|done]. by apply IH, emit_rows.
Qed.
End emits.
End rows.

Lemma copyOut_ok sortBy range t v :
  sorts sortBy → ranges_roots range → tree_wf t → v ∈ copyOut sortBy range t →
  viz_ok v ∧ blockDepth v = Z.of_nat (length (v_hashes v)).
Proof.
  intros Hs Hr Hwf Hv. unfold copyOut in Hv. apply list_elem_of_bind in Hv as (s & Hv & Hin).
  assert (shard_wf s) as Hsh by (pose proof (tw_shards t Hwf) as H; rewrite Forall_forall in H; auto).
  apply list_elem_of_bind in Hv as (root & Hv & [k0 Hro]%elem_of_range); [|done].
  pose proof (sw_root s Hsh _ _ Hro) as Hroot. pose proof (sw_heap s Hsh) as Hh.
  apply list_elem_of_fmap in Hv as (k & -> & Hk). unfold deref in Hk.
  pose proof (root_deep _ _ Hh Hroot) as Hd. destruct Hroot as (x & Hx & _). rewrite (deref_Some _ _ _ Hx) in Hk.
  destruct (hw_down _ Hh root x k Hx Hk) as (y & Hy & Hpy).
  destruct (copyRun_ok sortBy (size (store s)) (store s) k 0) as (H1 & H2 & _); [done|done| |exists y; split; [done|congruence]|by rewrite H2].
  destruct (size (store s)) as [|n]; [done|]. apply deep_S, Hd. by rewrite (deref_Some _ _ _ Hx).
Qed.

(** whatever limits are asked for, the page is a forest its reader can follow: a row's
    parent comes before it and lists it among its children, children are in range and in
    order, depths and block depths add up from parent to child, and no row claims a backend
    its parent does not; and the limits on rows, depth and children are kept. *)
Theorem page_well_formed sortBy range o backends t :
  sorts sortBy → ranges_roots range → tree_wf t →
  let sn := (Snapshot sortBy range o backends t).1 in
  rows_ok o (sTree sn) None ∧ (0 < MaxRows o → NodesShown sn ≤ MaxRows o) ∧
  (Truncated sn = true ↔ NodesShown sn < NodesTotal sn).
Proof.
  intros Hs Hr Hwf. unfold Snapshot. pose proof (slots_of_spec backends.*1 t Hwf) as H.
  destruct (slots_of backends.*1 t) as [sl t']. destruct H as (Hwf' & _). cbn. split_and!.
  - apply flattenTree_ok; [done|]. intros v (v0 & -> & Hv)%list_elem_of_fmap.
    destruct (copyOut_ok sortBy range t' v0 Hs Hr Hwf' Hv) as [H1 H2]. destruct (computeSubtree_same v0) as (-> & _ & ->).
    split; [by apply computeSubtree_ok|done].
  - apply flattenTree_rows.
  - apply Z.ltb_lt.
Qed.

(** ** Concrete pages *)

Module ViewEx.

Definition key_le (f : vizRun → Z) (a b : vizRun) : Prop := f a ≤ f b.
#[local] Instance key_le_dec f : RelDecision (key_le f) := λ a b, decide (f a ≤ f b).
#[local] Instance key_le_total f : Total (key_le f).
Proof. intros a b. unfold key_le. lia. Qed.
Definition sort_by (f : vizRun → Z) (vs : list vizRun) : list vizRun := merge_sort (key_le f) vs.
Definition in_order (m : gmap Z loc) : list loc := (map_to_list m).*2.

Lemma sort_by_sorts : sorts sort_by.
Proof.
  intros f vs. split; [apply merge_sort_Permutation|apply Sorted_merge_sort; apply _].
Qed.

Lemma in_order_ranges : ranges_roots in_order.
Proof. by intros m. Qed.

Definition everything : SnapshotOptions := Options 0 0 0.
Definition both : list (string * (bool * Z)) := [("a", (true, 2)); ("b", (false, 0))]%string.

Definition page (o : SnapshotOptions) : snapshot := (Snapshot sort_by in_order o both demo_tree).1.

(** The forest of three runs: [1;2] held by both, [3] by one and [5] by the other. *)
Example page_rows :
  (λ n, (nHash n, RunLen n, nParent n, Children n, Present n)) <$> sTree (page everything) =
  [(HexHash 1, 2, -1, [1; 2], [true; true]); (HexHash 3, 1, 0, [], [true; false]); (HexHash 5, 1, 0, [], [false; true])].
Proof. vm_compute. reflexivity. Qed.

(** A request that asks for nothing is shown everything; what does not parse, or is below
    one, asks for nothing either. *)
Example asks :
  asked (λ _, ""%string) = everything ∧ positiveIntParam "12"%string = 12 ∧ positiveIntParam "-3"%string = 0 ∧
  positiveIntParam "7x"%string = 0 ∧ positiveIntParam "4000000"%string = MaxParamValue.
Proof. vm_compute. auto. Qed.

(** Two rows asked for: the third is dropped, and the page says so. *)
Example page_cut :
  length (sTree (page (Options 2 0 0))) = 2%nat ∧ Truncated (page (Options 2 0 0)) = true ∧
  NodesTotal (page (Options 2 0 0)) = 3.
Proof. vm_compute. auto. Qed.

Lemma perBackend_exact_witness :
  ∃ st, perBackend in_order demo_tree !! "a"%string = Some st ∧ bBlocks st = 3.
Proof.
  destruct (perBackend_exact in_order demo_tree in_order_ranges demo_tree_wf) as [_ H].
  destruct (H "a"%string 0 ltac:(vm_compute; reflexivity)) as (st & Ps & Hst & _). exists st. split; [done|].
  assert (perBackend in_order demo_tree !! "a"%string = Some (BackendStats 2 3 30)) as E by (vm_compute; reflexivity).
  rewrite E in Hst. by injection Hst as <-.
Defined.


Lemma page_well_formed_witness :
  NodesShown (page (Options 2 0 0)) ≤ 2 ∧ rows_ok (Options 2 0 0) (sTree (page (Options 2 0 0))) None.
Proof.
  destruct (page_well_formed sort_by in_order (Options 2 0 0) both demo_tree sort_by_sorts in_order_ranges demo_tree_wf) as (H1 & H2 & _).
  split; [apply H2; vm_compute; reflexivity|exact H1].
Defined.
End ViewEx.
